(* ===== verification/_CoqProject ===== *)
-Q . S2P
Prelude.v
UArrSort.v
Utf8.v
Utf8Facts.v
Utf8Props.v
CString.v
CStringProps.v
UList.v
UtmScale.v
Ucnv.v
UcnvU32.v
UcnvU32Facts.v
UcnvU32Props.v
PropsVec.v
PropsVecProps.v
PropsVecCompact.v
UHash.v
UHashFind.v
UHashKeys.v
UHashFacts.v
UHashProps.v
MathExtras.v
PropertyTable.v
PropertyTableFacts.v
PropertyTableProps.v
LEBDecoder.v
LEBDecoderProps.v
Doubles.v
ToInt32.v
JSONString.v
LiteralParser.v
LiteralParserFacts.v
LiteralGrammar.v
LiteralParserProps.v
JSONRoundtrip.v
BigInt.v
BigIntFacts.v
BigIntAdd.v
BigIntMul.v
BigIntDivide.v
BigIntBits.v
BigIntBitwise.v
BigIntShifts.v
BigIntText.v
BigIntParse.v
BigIntPrint.v
BigIntRoundtrip.v
BigIntDouble.v
BigIntProps.v
ParkingBucket.v
ParkingBucketProps.v
LockAlgorithm.v
LockInvariant.v
LockPreserve.v
LockLiveness.v
LockRefine.v
LockProps.v
ParkingTable.v
ParkingTableFacts.v
ParkingTableOps.v
ParkingLotProps.v
B3Value.v
B3Const.v
B3IntRange.v
B3DivisionMagic.v
B3Reduce.v
B3Semantics.v
B3Graph.v
B3Arith.v
B3Rules.v
B3Steps.v
B3ReduceAdd.v
B3ReduceBits.v
B3ReduceCompare.v
B3ReduceDiv.v
B3ReduceCheck.v
B3ReduceStrength.v
JSValue.v
JSValueProps.v
JSNumber.v
