(* ===== verification/Prelude.v ===== *)
(** * A verification of the core libraries of JSC.js

    JSC.js is the JavaScriptCore engine with the libraries it is built on: ICU (src/Source/icu, the Unicode library),
    WTF (src/Source/WTF/wtf, containers, strings and threads) and JavaScriptCore itself (src/Source/JavaScriptCore).
    This development models the parts of them that carry data structures, encodings and arithmetic, function by function,
    and proves what makes them correct.  This file holds the conventions all parts share.

    ** How code is translated

    Integers are [Z] with the conversions to a width ([u8] ... [s64]) written where the code has them; addresses of an
    array are indices and reads outside of it are [None] or [Fault]; a function that can fail returns an [option], a
    record with an error code, or the [res] monad ([Ok], [Throw], [Fault]) of BigInt.v; an object that a function changes is
    passed in and returned.  A failed assertion of the code is a failure of the model, so a theorem that a function
    returns a result also says that no assertion fails.  Loops that are not structural have fuel; running out of it is a
    failure too, and each theorem shows that the fuel is enough for all inputs of its domain (the fuel is written at the
    call: a length, a number of bits, or a bound that the theorem's proof derives).  Callbacks, allocation that may fail,
    the contents of fresh memory and Unicode data are parameters.

    ** The files

    ICU:
    - UArrSort.v (uarrsort.c): insertion sort, quick sort and the stable binary search, on an array of items with a
      comparator; sorting gives a sorted permutation, a stable sort keeps the order of equal items.
    - Utf8.v, Utf8Facts.v, Utf8Props.v (unicode/utf8.h, utf_impl.c): iteration forwards and backwards over UTF-8 and
      appending; the macros and their slow paths agree with the table of well-formed sequences.
    - CString.v, CStringProps.v (cstring.c): case, comparison and number formatting of C strings.
    - UList.v (ulist.c): the doubly linked list on a heap of nodes, refined by a sequence with a cursor.
    - UtmScale.v (utmscale.c): time scales, with the limits of 64-bit arithmetic.
    - Ucnv.v (ucnv_bld.h, ucnv_cnv.c), UcnvU32.v, UcnvU32Facts.v, UcnvU32Props.v (ucnv_u32.c): the converter record and
      the UTF-32 converters, called again and again on pieces of input and output.
    - PropsVec.v, PropsVecProps.v, PropsVecCompact.v (propsvec.c): vectors of properties of code point ranges, refined by
      a function from code points to values.
    - UHash.v, UHashFind.v, UHashKeys.v, UHashFacts.v, UHashProps.v (uhash.c): the open-addressing hash table
      under histories of operations with failing allocations, refined by a finite map.

    WTF and the runtime of the engine:
    - MathExtras.v, PropertyTable.v, PropertyTableFacts.v, PropertyTableProps.v (PropertyMapHashTable.h, PropertyTable.cpp,
      StructureInlines.h): the table of the properties of a structure with its free offsets, refined by a map in insertion
      order.
    - LEBDecoder.v, LEBDecoderProps.v (wtf/LEBDecoder.h): LEB128 numbers of any width.
    - Doubles.v: doubles by their bits, on the standard library's [SpecFloat]; the reference of what follows.
    - ToInt32.v (MathCommon.h): the conversion of a double to 32 bits.
    - JSONString.v, LiteralParser.v, LiteralParserFacts.v, LiteralGrammar.v, LiteralParserProps.v,
      JSONRoundtrip.v (LiteralParser.cpp, text/StringBuilderJSON.cpp): JSON.parse against the grammar of JSON, and quoting.
    - BigInt.v (operations), BigIntBits.v (bits and shifts), BigIntText.v (text), BigIntDouble.v (doubles): JSBigInt.cpp.
      The invariant [wf] and the value of a number are in BigIntFacts.v; BigIntAdd.v, BigIntMul.v and BigIntDivide.v
      prove the arithmetic up to Knuth's algorithm D,
      BigIntBitwise.v and BigIntShifts.v the bitwise operations and shifts,
      BigIntParse.v, BigIntPrint.v and BigIntRoundtrip.v the text; BigIntProps.v collects the theorems.
      The class [DigitConfig] holds what differs between platforms.
    - JSValue.v, JSValueProps.v, JSNumber.v (JSCJSValue.h, JSCJSValueInlines.h): the two encodings of values as instances of
      the class [JSValueRep] with the laws [LawfulRep], numbers and the comparisons built on them.

    Threads (WTF):
    - ParkingBucket.v, ParkingBucketProps.v (wtf/ParkingLot.cpp): the linked queue of a bucket of the parking lot on a heap of
      thread data, refined by a sequence of threads and addresses.
    - ParkingTable.v (wtf/ParkingLot.cpp): the hash table of buckets with its growth, each operation running alone, as it does in
      the code once it holds the locks of the buckets.  ParkingTableFacts.v and
      ParkingTableOps.v prove the representation of the queues across growth; ParkingLotProps.v refines the lot by one queue of
      threads per address.
    - LockAlgorithm.v (wtf/LockAlgorithm.h, LockAlgorithmInlines.h, Lock.h): the lock in one byte as a step function on the
      program counters of threads; the class [BucketOps] is what it uses of the parking lot.  LockInvariant.v holds the
      bucket as a sequence and the invariant, LockPreserve.v shows that every step keeps it,
      LockLiveness.v that a waiting thread can always still get the lock, LockRefine.v that the linked queue is an instance
      of the interface ([BucketRefines]) and that the lock on it runs in step with the lock on the sequence; LockProps.v has
      the theorems about the lock on the linked queue.

    The compiler (src/Source/JavaScriptCore/b3), strength reduction of integer values:
    - B3Value.v (B3Value.h, B3Value.cpp, B3SparseCollection.h): values as a graph of shared nodes in a procedure, and the
      state monad in which the pass runs; B3Const.v (B3Const32Value.cpp, B3Const64Value.cpp, B3Common.h,
      wtf/CheckedArithmetic.h): the folding of constants; B3IntRange.v and B3DivisionMagic.v (B3ComputeDivisionMagic.h):
      ranges of values and the numbers for the division by a constant; B3Reduce.v (B3ReduceStrength.cpp): one function
      for each case of [reduceValueStrength].
    - B3Semantics.v: what values compute, the well-formedness that the validator of the compiler asks for, and
      [preserves]: every outcome of a procedure is one of the changed procedure.  B3Graph.v shows that adding a value and
      changing one keep both; B3Rules.v and B3Steps.v are a calculus for the rules (weakest preconditions over the graph)
      with its tactics, and B3Arith.v the arithmetic of the two widths.
    - B3ReduceAdd.v, B3ReduceBits.v, B3ReduceCompare.v, B3ReduceDiv.v and B3ReduceCheck.v prove the rules, with the
      correctness of division by multiplication and of ranges; B3ReduceStrength.v has the theorem about the pass.

    ** What the theorems show

    Refinement: hash tables, property tables, properties vectors and lists behave as the abstract map, function or sequence
    under any history; a step of strength reduction keeps the outcomes of all values of a procedure.  Functional correctness: sorting, UTF-8, UTF-32, JSON.parse, big integers.  Equivalence: algorithms
    with a fast and a general path agree with one reference.  Round trips: what is encoded, printed or quoted is read back.
    Invariants, types and liveness: mutual exclusion and freedom from deadlock of the lock under every interleaving, the
    offsets of a structure, the representation of a number, the predicates of a value.  Bounds and
    termination: buffers that are reserved in advance suffice, probe loops end.  Some theorems show defects, at concrete
    inputs; the hypotheses of the general theorems exclude exactly these cases.

    ** What is not modelled

    Of ICU: the converter framework and the other converters, bidirectional text, decimal numbers, data files, locales and
    the C++ classes.  Of the engine: the language front end, the objects of the language, garbage collection, regular
    expressions and the compilers apart from the strength reduction of integer values in B3; of that pass, the rules for
    floating point, memory, calls and control flow, the elimination of common and dead values and the places of values in
    blocks.  What these share with the modelled parts (values, property tables, big integers) is modelled.  Generated sources are left out.  Where code calls the C library, the operating system or
    compiled Unicode data, these are parameters.  Steps of threads interleave in a sequentially consistent memory; the
    orderings that the code asks of weaker memories are not part of the model. *)
From stdpp Require Export base list list_numbers option numbers sets.
From Stdlib Require Export ZArith Lia.

#[export] Set Default Goal Selector "!".

Declare Scope icu_scope.
Delimit Scope icu_scope with icu.
Open Scope Z_scope.
Open Scope icu_scope.

(** ** Machine integers

  A C integer of [w] bits is a [Z]; [uN] is the conversion to the unsigned
  type of that width and [sN] the conversion to the signed one. *)
Definition u8 (x : Z) : Z := x mod 2 ^ 8.
Definition u16 (x : Z) : Z := x mod 2 ^ 16.
Definition u32 (x : Z) : Z := x mod 2 ^ 32.
Definition u64 (x : Z) : Z := x mod 2 ^ 64.
Definition s8 (x : Z) : Z := (x + 2 ^ 7) mod 2 ^ 8 - 2 ^ 7.
Definition s32 (x : Z) : Z := (x + 2 ^ 31) mod 2 ^ 32 - 2 ^ 31.
Definition s64 (x : Z) : Z := (x + 2 ^ 63) mod 2 ^ 64 - 2 ^ 63.

Definition is_u8 (x : Z) : Prop := 0 <= x < 2 ^ 8.
Definition is_u16 (x : Z) : Prop := 0 <= x < 2 ^ 16.
Definition is_u32 (x : Z) : Prop := 0 <= x < 2 ^ 32.
Definition is_s32 (x : Z) : Prop := - 2 ^ 31 <= x < 2 ^ 31.
Definition is_s64 (x : Z) : Prop := - 2 ^ 63 <= x < 2 ^ 63.

#[export] Instance is_u8_dec x : Decision (is_u8 x).
Proof. unfold is_u8. apply _. Defined.
#[export] Instance is_u16_dec x : Decision (is_u16 x).
Proof. unfold is_u16. apply _. Defined.
#[export] Instance is_u32_dec x : Decision (is_u32 x).
Proof. unfold is_u32. apply _. Defined.
#[export] Instance is_s32_dec x : Decision (is_s32 x).
Proof. unfold is_s32. apply _. Defined.

(** Signed 32-bit arithmetic whose overflow the language leaves undefined:
    [None] is the undefined case. *)
Definition chk32 (x : Z) : option Z := if decide (is_s32 x) then Some x else None.

(** ** UErrorCode *)
Definition UErrorCode : Type := Z.
Definition U_ZERO_ERROR : UErrorCode := 0.
Definition U_ILLEGAL_ARGUMENT_ERROR : UErrorCode := 1.
Definition U_MEMORY_ALLOCATION_ERROR : UErrorCode := 7.
Definition U_INDEX_OUTOFBOUNDS_ERROR : UErrorCode := 8.
Definition U_INVALID_CHAR_FOUND : UErrorCode := 10.
Definition U_TRUNCATED_CHAR_FOUND : UErrorCode := 11.
Definition U_ILLEGAL_CHAR_FOUND : UErrorCode := 12.
Definition U_BUFFER_OVERFLOW_ERROR : UErrorCode := 15.
Definition U_SUCCESS (x : UErrorCode) : bool := x <=? U_ZERO_ERROR.
Definition U_FAILURE (x : UErrorCode) : bool := x >? U_ZERO_ERROR.

(** ** Arrays

  An array is a list and an index is a [Z], as in the code; [None] is an
  access outside the array. *)
Definition zget {A} (l : list A) (i : Z) : option A :=
if 0 <=? i then l !! Z.to_nat i else None.
Definition zset {A} (l : list A) (i : Z) (x : A) : option (list A) :=
if (0 <=? i) && (i <? Z.of_nat (length l))
then Some (<[Z.to_nat i := x]> l) else None.
Definition zlen {A} (l : list A) : Z := Z.of_nat (length l).

Notation "l .[ i ]" := (zget l i) (at level 1, i at level 200, format "l .[ i ]") : icu_scope.

(** [memmove l d s n]: copy [n] items from index [s] to index [d] of the same
    array; [None] when either range leaves the array. *)
Definition memmove {A} (l : list A) (d s n : Z) : option (list A) :=
  if (0 <=? d) && (0 <=? s) && (0 <=? n) && (d + n <=? zlen l) && (s + n <=? zlen l)
  then Some (take (Z.to_nat d) l ++ take (Z.to_nat n) (drop (Z.to_nat s) l)
             ++ drop (Z.to_nat (d + n)) l)
  else None.

(** ** Automation *)
Create HintDb icu.
#[export] Hint Unfold is_u8 is_u16 is_u32 is_s32 is_s64 : icu.

(** Turn the boolean tests of the context and the goal into propositions. *)
Ltac bool_prop :=
  repeat match goal with
  | H : _ && _ = true |- _ => apply andb_true_iff in H; destruct H
  | H : _ || _ = false |- _ => apply orb_false_iff in H; destruct H
  | H : _ || _ = true |- _ => apply orb_true_iff in H
  | H : _ && _ = false |- _ => apply andb_false_iff in H
  | H : negb _ = true |- _ => apply negb_true_iff in H
  | H : negb _ = false |- _ => apply negb_false_iff in H
  | H : (_ <? _) = true |- _ => apply Z.ltb_lt in H
  | H : (_ <? _) = false |- _ => apply Z.ltb_ge in H
  | H : (_ <=? _) = true |- _ => apply Z.leb_le in H
  | H : (_ <=? _) = false |- _ => apply Z.leb_gt in H
  | H : (_ =? _) = true |- _ => apply Z.eqb_eq in H
  | H : (_ =? _) = false |- _ => apply Z.eqb_neq in H
  | H : (_ >=? _) = _ |- _ => rewrite Z.geb_leb in H
  | H : (_ >? _) = _ |- _ => rewrite Z.gtb_ltb in H
  | H : true = false |- _ => discriminate
  | H : false = true |- _ => discriminate
  end.

(** Case analysis on the innermost test of a conditional of the goal. *)
Ltac if_cases :=
  match goal with
  | |- context [if ?b then _ else _] =>
      lazymatch b with
      | context [if _ then _ else _] => fail
      | _ => let E := fresh "E" in destruct b eqn:E
      end
  end.

(** Reduce a bind of the option monad whose argument is known. *)
Ltac mstep := cbn [mbind option_bind].

(** ** Integers: lemmas *)
Lemma mid_between (a b : Z) : 0 <= a -> a + 1 < b -> a < (a + b) ÷ 2 < b.
Proof. intros. rewrite Z.quot_div_nonneg by lia. Z.to_euclidean_division_equations; lia. Qed.

Lemma mid_bounds (a b : Z) : 0 <= a -> a < b -> a <= (a + b) ÷ 2 < b.
Proof. intros. rewrite Z.quot_div_nonneg by lia. Z.to_euclidean_division_equations; lia. Qed.

Lemma u32_small c : 0 <= c < 2 ^ 32 -> u32 c = c.
Proof. apply Z.mod_small. Qed.

Lemma u16_small c : 0 <= c < 2 ^ 16 -> u16 c = c.
Proof. apply Z.mod_small. Qed.

Lemma chk32_ok x : - 2 ^ 31 <= x < 2 ^ 31 -> chk32 x = Some x.
Proof. intros. unfold chk32. by rewrite decide_True. Qed.

(** ** Bits: lemmas *)
Lemma Z_lor_shiftl (a b n : Z) : 0 <= n -> 0 <= b < 2 ^ n -> Z.lor (Z.shiftl a n) b = a * 2 ^ n + b.
Proof.
  intros Hn Hb.
  assert (Z.land (Z.shiftl a n) b = 0) as Hland.
  { apply Z.bits_inj'. intros k Hk. rewrite Z.land_spec, Z.bits_0.
    destruct (decide (k < n)); [by rewrite Z.shiftl_spec_low|].
    rewrite <- (Z.mod_small b (2 ^ n)), Z.mod_pow2_bits_high, andb_false_r by lia. done. }
  rewrite <- Z.shiftl_mul_pow2 by lia. rewrite Z.add_nocarry_lxor, Z.lxor_lor by done. done.
Qed.

(** Setting bits above the value. *)
Lemma Z_lor_above (b k n : Z) : 0 <= n -> 0 <= b < 2 ^ n -> Z.lor b (Z.shiftl k n) = b + k * 2 ^ n.
Proof. intros. rewrite Z.lor_comm, Z_lor_shiftl by done. lia. Qed.

Lemma land_le a b : 0 <= a -> 0 <= Z.land a b <= a.
Proof.
  intros Ha. split; [apply Z.land_nonneg; by left|]. assert (Z.ldiff (Z.land a b) a = 0) as E.
  { apply Z.bits_inj'. intros k Hk. rewrite Z.ldiff_spec, Z.land_spec, Z.bits_0. by destruct (Z.testbit a k), (Z.testbit b k). }
  by destruct (Z.ldiff_le _ _ Ha E).
Qed.

Lemma Z_land_ones (a n : Z) : 0 <= n -> Z.land a (2 ^ n - 1) = a mod 2 ^ n.
Proof. intros. rewrite <- Z.land_ones by done. f_equal. rewrite Z.ones_equiv. lia. Qed.

(** The bits from [n] up to [n + w], in place. *)
Lemma Z_land_field (a n w : Z) :
  0 <= n -> 0 <= w -> Z.land a (Z.shiftl (2 ^ w - 1) n) = a / 2 ^ n mod 2 ^ w * 2 ^ n.
Proof.
  intros Hn Hw. rewrite <- Z_land_ones, <- Z.shiftr_div_pow2, <- Z.shiftl_mul_pow2 by lia.
  apply Z.bits_inj'. intros k Hk. rewrite Z.land_spec. destruct (decide (k < n)).
  - by rewrite !Z.shiftl_spec_low, andb_false_r by lia.
  - rewrite !Z.shiftl_spec, Z.land_spec, Z.shiftr_spec by lia. f_equal; f_equal; lia.
Qed.

(** ** Arrays: lemmas *)
Section arrays.
  Context {A : Type}.
  Implicit Types (l : list A) (i j : Z) (x : A).

Lemma zlen_nonneg l : 0 <= zlen l.
Proof. unfold zlen. lia. Qed.

Lemma zget_Some l i x :
  zget l i = Some x <-> 0 <= i /\ l !! Z.to_nat i = Some x.
Proof.
  unfold zget. destruct (0 <=? i) eqn:E; bool_prop.
  - split; [done|by intros [_ ?]].
  - split; [done|intros [? _]; lia].
Qed.

Lemma zget_lt l i x : zget l i = Some x -> 0 <= i < zlen l.
Proof. rewrite zget_Some. intros [? H%lookup_lt_Some]. unfold zlen. lia. Qed.

Lemma zget_is_Some l i : 0 <= i < zlen l -> exists x, zget l i = Some x.
Proof.
  intros H. unfold zlen in H.
  destruct (lookup_lt_is_Some_2 l (Z.to_nat i)) as [x Hx]; [lia|].
  exists x. apply zget_Some. split; [lia|done].
Qed.

Lemma zget_nat l (n : nat) : zget l (Z.of_nat n) = l !! n.
Proof. unfold zget. rewrite Nat2Z.id. destruct (0 <=? Z.of_nat n) eqn:E; bool_prop; [done|lia]. Qed.

Lemma zset_Some l i x : 0 <= i < zlen l -> zset l i x = Some (<[Z.to_nat i := x]> l).
Proof.
  intros H. unfold zset, zlen in *.
  destruct ((0 <=? i) && (i <? Z.of_nat (length l))) eqn:E; [done|].
  bool_prop. destruct E; bool_prop; lia.
Qed.

Lemma zset_inv l i x l' :
  zset l i x = Some l' -> 0 <= i < zlen l /\ l' = <[Z.to_nat i := x]> l.
Proof.
  unfold zset, zlen. destruct ((0 <=? i) && (i <? Z.of_nat (length l))) eqn:E; [|done].
  intros [= <-]. bool_prop. split; [lia|done].
Qed.

Lemma zlen_zset l i x l' : zset l i x = Some l' -> zlen l' = zlen l.
Proof. intros [_ ->]%zset_inv. unfold zlen. by rewrite length_insert. Qed.

Lemma zget_zset l i x l' j :
  zset l i x = Some l' -> zget l' j = if decide (i = j) then Some x else zget l j.
Proof.
  intros [Hi ->]%zset_inv. unfold zget, zlen in *.
  destruct (0 <=? j) eqn:E; bool_prop.
  - case_decide as D.
    + subst j. apply list_lookup_insert_eq. lia.
    + apply list_lookup_insert_ne. lia.
  - case_decide; [lia|done].
Qed.

Lemma zlen_app l1 l2 : zlen (l1 ++ l2) = zlen l1 + zlen l2.
Proof. unfold zlen. rewrite length_app. lia. Qed.

Lemma zlen_cons x l : zlen (x :: l) = 1 + zlen l.
Proof. unfold zlen. simpl length. lia. Qed.

Lemma zlen_nil : zlen (@nil A) = 0.
Proof. done. Qed.

Lemma zlen_0_nil l : zlen l <= 0 -> l = [].
Proof. destruct l; [done|]. rewrite zlen_cons. pose proof (zlen_nonneg l). lia. Qed.

Lemma zget_app_l l1 l2 i : i < zlen l1 -> zget (l1 ++ l2) i = zget l1 i.
Proof.
  intros. unfold zget, zlen in *. destruct (0 <=? i) eqn:E; bool_prop; [|done].
  apply lookup_app_l. lia.
Qed.

Lemma zget_app_r l1 l2 i : zlen l1 <= i -> zget (l1 ++ l2) i = zget l2 (i - zlen l1).
Proof.
  intros. unfold zget, zlen in *.
  destruct (0 <=? i) eqn:E, (0 <=? i - Z.of_nat (length l1)) eqn:E'; bool_prop; try lia.
  rewrite lookup_app_r by lia. f_equal. lia.
Qed.

Lemma zget_middle l1 l2 x i : i = zlen l1 -> zget (l1 ++ x :: l2) i = Some x.
Proof. intros ->. rewrite zget_app_r by lia. by rewrite Z.sub_diag. Qed.

Lemma zset_middle l1 l2 x y i : i = zlen l1 -> zset (l1 ++ x :: l2) i y = Some (l1 ++ y :: l2).
Proof.
  intros ->. rewrite zset_Some.
  - unfold zlen. rewrite Nat2Z.id. f_equal. rewrite insert_app_r_alt by lia.
    by rewrite Nat.sub_diag.
  - rewrite zlen_app, zlen_cons. pose proof (zlen_nonneg l1). pose proof (zlen_nonneg l2). lia.
Qed.

Lemma zget_split l i x : zget l i = Some x -> exists l1 l2, l = l1 ++ x :: l2 /\ zlen l1 = i.
Proof.
  rewrite zget_Some. intros [Hi Hx]. exists (take (Z.to_nat i) l), (drop (S (Z.to_nat i)) l).
  split; [by rewrite take_drop_middle|].
  unfold zlen. rewrite length_take. apply lookup_lt_Some in Hx. lia.
Qed.

(** Split a list at an index. *)
Lemma zsplit l i : 0 <= i <= zlen l -> exists l1 l2, l = l1 ++ l2 /\ zlen l1 = i.
Proof.
  intros H. exists (take (Z.to_nat i) l), (drop (Z.to_nat i) l).
  split; [by rewrite take_drop|]. unfold zlen in *. rewrite length_take. lia.
Qed.

Lemma take_zlen l1 l2 n : n = zlen l1 -> take (Z.to_nat n) (l1 ++ l2) = l1.
Proof. intros ->. unfold zlen. rewrite Nat2Z.id. apply take_app_length. Qed.

Lemma drop_zlen l1 l2 n : n = zlen l1 -> drop (Z.to_nat n) (l1 ++ l2) = l2.
Proof. intros ->. unfold zlen. rewrite Nat2Z.id. apply drop_app_length. Qed.
End arrays.

Create Rewrite HintDb icu.
#[export] Hint Rewrite @zlen_app @zlen_cons @zlen_nil : icu.
(** Normalise lengths, with the fact that every length is non-negative. *)
Ltac zlens :=
  autorewrite with icu in *;
  repeat match goal with
  | |- context [zlen ?l] =>
      lazymatch goal with H : 0 <= zlen l |- _ => fail | _ => pose proof (zlen_nonneg l) end
  | _ : context [zlen ?l] |- _ =>
      lazymatch goal with H : 0 <= zlen l |- _ => fail | _ => pose proof (zlen_nonneg l) end
  end.
Ltac zlia := zlens; lia.

Lemma Z_leb_true x y : x <= y -> (x <=? y) = true.
Proof. apply Z.leb_le. Qed.
Lemma Z_ltb_true x y : x < y -> (x <? y) = true.
Proof. apply Z.ltb_lt. Qed.
Lemma Z_leb_false x y : y < x -> (x <=? y) = false.
Proof. apply Z.leb_gt. Qed.
Lemma Z_ltb_false x y : y <= x -> (x <? y) = false.
Proof. apply Z.ltb_ge. Qed.

(** A test that holds on a whole range, by computation. *)
Lemma forallb_seqZ f i n k : forallb f (seqZ i n) = true -> i <= k < i + n -> f k = true.
Proof.
  intros H Hk. rewrite forallb_forall in H. apply H. apply list_elem_of_In.
  apply elem_of_seqZ. lia.
Qed.

(** Moving a block of an array one place up overwrites the item after it. *)
Lemma memmove_up {A} (l1 l2 l3 : list A) (x y : A) :
  memmove (l1 ++ (y :: l2) ++ x :: l3) (zlen l1 + 1) (zlen l1) (zlen (y :: l2))
  = Some (l1 ++ y :: (y :: l2) ++ l3).
Proof.
  assert (take (Z.to_nat (zlen l1 + 1)) (l1 ++ (y :: l2) ++ x :: l3) = l1 ++ [y]) as Ht.
  { replace (l1 ++ (y :: l2) ++ x :: l3) with ((l1 ++ [y]) ++ l2 ++ x :: l3)
      by (by rewrite <- app_assoc). apply take_zlen. zlia. }
  assert (drop (Z.to_nat (zlen l1 + 1 + zlen (y :: l2))) (l1 ++ (y :: l2) ++ x :: l3) = l3) as Hd.
  { replace (l1 ++ (y :: l2) ++ x :: l3) with ((l1 ++ (y :: l2) ++ [x]) ++ l3)
      by (by rewrite <- !app_assoc). apply drop_zlen. zlia. }
  unfold memmove. rewrite Ht, Hd, (drop_zlen l1), (take_zlen (y :: l2)) by done.
  rewrite !Z_leb_true by zlia. simpl. by rewrite <- app_assoc.
Qed.
