(* ===== verification/UArrSort.v ===== *)
(** * UArrSort: array sorting (src/Source/icu/uarrsort.c)

  An array of [length] items of [itemSize] bytes is a list of items; copying
  [itemSize] bytes is copying one item, and [array + i * itemSize] is index
  [i].  The comparison callback is a function to [Z] whose sign is the answer
  (its [context] is already applied).  [None] is undefined behaviour: an
  access outside the array or a signed overflow; a loop that runs out of fuel
  also gives [None], so a theorem that the result is [Some] shows that the
  code terminates and stays in bounds. *)
From S2P Require Import Prelude.
From stdpp Require Import sorting.
Local Open Scope Z_scope.

Definition MIN_QSORT : Z := 9.
Definition STACK_ITEM_SIZE : Z := 200.

(** ** Comparators *)
Definition uprv_uint16Comparator (left right : Z) : Z := left - right.

(** The subtraction is the 32-bit one of the target: it wraps around. *)
Definition uprv_int32Comparator (left right : Z) : Z := s32 (left - right).

Definition uprv_uint32Comparator (l r : Z) : Z :=
  if l <? r then -1 else if l =? r then 0 else 1.

(** What the sort relies on: the sign of the callback is a total preorder. *)
Class Comparator {A} (cmp : A -> A -> Z) : Prop := {
  cmp_sym x y : cmp x y < 0 <-> 0 < cmp y x;
  cmp_trans x y z : cmp x y <= 0 -> cmp y z <= 0 -> cmp x z <= 0
}.

Section sort.
Context {A : Type} (cmp : A -> A -> Z).

(** ** Insertion sort with binary search *)
Fixpoint binarySearchLoop (fuel : nat) (array : list A) (item : A)
    (start limit : Z) (found : bool) : option (Z * Z * bool) :=
  match fuel with
  | O => None
  | S fuel =>
      if limit - start >=? MIN_QSORT then
        s ← chk32 (start + limit);
        let i := s ÷ 2 in
        a ← array.[i];
        let diff := cmp item a in
        if diff =? 0 then binarySearchLoop fuel array item (i + 1) limit true
        else if diff <? 0 then binarySearchLoop fuel array item start i found
        else binarySearchLoop fuel array item i limit found
      else Some (start, limit, found)
  end.

Fixpoint linearSearchLoop (fuel : nat) (array : list A) (item : A)
    (start limit : Z) (found : bool) : option (Z * bool) :=
  match fuel with
  | O => None
  | S fuel =>
      if start <? limit then
        a ← array.[start];
        let diff := cmp item a in
        if diff =? 0 then linearSearchLoop fuel array item (start + 1) limit true
        else if diff <? 0 then Some (start, found)
        else linearSearchLoop fuel array item (start + 1) limit found
      else Some (start, found)
  end.

Definition uprv_stableBinarySearch (array : list A) (limit : Z) (item : A) : option Z :=
  '(start, limit, found) ←
    binarySearchLoop (S (Z.to_nat limit)) array item 0 limit false;
  '(start, found) ←
    linearSearchLoop (S (Z.to_nat (limit - start))) array item start limit found;
  Some (if found : bool then start - 1 else Z.lnot start).

Fixpoint insertionLoop (fuel : nat) (array : list A) (j length : Z) : option (list A) :=
  if j <? length then
    match fuel with
    | O => None
    | S fuel =>
        item ← array.[j];
        r ← uprv_stableBinarySearch array j item;
        let insertionPoint := if r <? 0 then Z.lnot r else r + 1 in
        array ←
          (if insertionPoint <? j then
             moved ← memmove array (insertionPoint + 1) insertionPoint (j - insertionPoint);
             zset moved insertionPoint item
           else Some array);
        insertionLoop fuel array (j + 1) length
    end
  else Some array.

Definition doInsertionSort (array : list A) (length : Z) : option (list A) :=
  insertionLoop (Z.to_nat length) array 1 length.

(** [malloc n] tells whether the allocation of [n] bytes succeeds. *)
Definition insertionSort (malloc : Z -> bool) (array : list A) (length itemSize : Z)
    (err : UErrorCode) : option (list A * UErrorCode) :=
  if negb (itemSize <=? STACK_ITEM_SIZE) && negb (malloc itemSize)
  then Some (array, U_MEMORY_ALLOCATION_ERROR)
  else array ← doInsertionSort array length; Some (array, err).

(** ** QuickSort *)
Fixpoint scanLeft (fuel : nat) (array : list A) (x : A) (left : Z) : option Z :=
  match fuel with
  | O => None
  | S fuel =>
      a ← array.[left];
      if cmp a x <? 0 then scanLeft fuel array x (left + 1) else Some left
  end.

Fixpoint scanRight (fuel : nat) (array : list A) (x : A) (right : Z) : option Z :=
  match fuel with
  | O => None
  | S fuel =>
      a ← array.[right - 1];
      if cmp x a <? 0 then scanRight fuel array x (right - 1) else Some right
  end.

Definition swapItems (array : list A) (left right : Z) : option (list A) :=
  w ← array.[left];
  r ← array.[right];
  array ← zset array left r;
  zset array right w.

Fixpoint partitionLoop (fuel : nat) (array : list A) (x : A) (left right : Z)
    : option (list A * Z * Z) :=
  match fuel with
  | O => None
  | S fuel =>
      left ← scanLeft (S (length array)) array x left;
      right ← scanRight (S (length array)) array x right;
      if left <? right then
        let right := right - 1 in
        array ← (if left <? right then swapItems array left right else Some array);
        let left := left + 1 in
        if left <? right then partitionLoop fuel array x left right
        else Some (array, left, right)
      else Some (array, left, right)
  end.

Fixpoint subQuickSort (fuel : nat) (array : list A) (start limit : Z) : option (list A) :=
  match fuel with
  | O => None
  | S fuel =>
      m ← chk32 (start + MIN_QSORT);
      if m >=? limit then
        tail ← doInsertionSort (drop (Z.to_nat start) array) (limit - start);
        Some (take (Z.to_nat start) array ++ tail)
      else
        s ← chk32 (start + limit);
        x ← array.[s ÷ 2];
        '(array, left', right') ← partitionLoop (S (length array)) array x start limit;
        if right' - start <? limit - left' then
          array ← (if start <? right' - 1 then subQuickSort fuel array start right'
                   else Some array);
          if left' <? limit - 1 then subQuickSort fuel array left' limit else Some array
        else
          array ← (if left' <? limit - 1 then subQuickSort fuel array left' limit
                   else Some array);
          if start <? right' - 1 then subQuickSort fuel array start right' else Some array
  end.

Definition quickSort (malloc : Z -> bool) (array : list A) (length itemSize : Z)
    (err : UErrorCode) : option (list A * UErrorCode) :=
  if negb (itemSize <=? STACK_ITEM_SIZE) && negb (malloc (2 * itemSize))
  then Some (array, U_MEMORY_ALLOCATION_ERROR)
  else array ← subQuickSort (S (Z.to_nat length)) array 0 length; Some (array, err).
End sort.

(** ** The API: [None] for the pointer arguments is NULL. *)
Definition uprv_sortArray {A} (malloc : Z -> bool) (array : option (list A))
    (length itemSize : Z) (cmp : option (A -> A -> Z)) (sortStable : bool)
    (pErrorCode : option UErrorCode) : option (option (list A) * option UErrorCode) :=
  match pErrorCode with
  | None => Some (array, pErrorCode)
  | Some err =>
      if U_FAILURE err then Some (array, pErrorCode)
      else
        match cmp with
        | None => Some (array, Some U_ILLEGAL_ARGUMENT_ERROR)
        | Some cmp =>
            match array with
            | None =>
                if (length >? 0) || (length <? 0) || (itemSize <=? 0)
                then Some (array, Some U_ILLEGAL_ARGUMENT_ERROR)
                else Some (array, pErrorCode)
            | Some a =>
                if (length <? 0) || (itemSize <=? 0)
                then Some (array, Some U_ILLEGAL_ARGUMENT_ERROR)
                else if length <=? 1 then Some (array, pErrorCode)
                else if (length <? MIN_QSORT) || sortStable then
                  '(a, err) ← insertionSort cmp malloc a length itemSize err;
                  Some (Some a, Some err)
                else
                  '(a, err) ← quickSort cmp malloc a length itemSize err;
                  Some (Some a, Some err)
            end
        end
  end.


(** ** The specification *)
Definition cmp_le {A} (cmp : A -> A -> Z) (x y : A) : Prop := cmp x y <= 0.

(** The items of a list that the comparator does not tell apart from [x]. *)
Definition equal_items {A} (cmp : A -> A -> Z) (x : A) (l : list A) : list A :=
  filter (fun y => cmp x y = 0) l.

(** [P] holds of every item of the index range. *)
Definition all_range {A} (P : A -> Prop) (a : list A) (lo hi : Z) : Prop :=
  forall i y, lo <= i < hi -> a.[i] = Some y -> P y.

Definition sorted_range {A} (cmp : A -> A -> Z) (a : list A) (lo hi : Z) : Prop :=
  forall i j x y, lo <= i < j -> j < hi -> a.[i] = Some x -> a.[j] = Some y -> cmp x y <= 0.

(** ** Comparators are total preorders *)
#[export] Instance uint16_Comparator : Comparator uprv_uint16Comparator.
Proof. split; unfold uprv_uint16Comparator; lia. Qed.

#[export] Instance uint32_Comparator : Comparator uprv_uint32Comparator.
Proof.
  split; unfold uprv_uint32Comparator; intros; repeat case_match; bool_prop; lia.
Qed.

Section theory.
Context {A : Type} (cmp : A -> A -> Z) `{!Comparator cmp}.
Implicit Types (a l pre post : list A) (x y item : A).

Lemma cmp_refl x : cmp x x = 0.
Proof. pose proof (cmp_sym x x). lia. Qed.

Lemma cmp_gt x y : 0 < cmp x y <-> cmp y x < 0.
Proof. symmetry. apply cmp_sym. Qed.

Lemma cmp_ge x y : 0 <= cmp x y <-> cmp y x <= 0.
Proof. pose proof (cmp_sym x y). pose proof (cmp_sym y x). lia. Qed.

Lemma cmp_eq_sym x y : cmp x y = 0 -> cmp y x = 0.
Proof. pose proof (cmp_sym x y). pose proof (cmp_sym y x). lia. Qed.

Lemma cmp_lt_le x y z : cmp x y < 0 -> cmp y z <= 0 -> cmp x z < 0.
Proof.
  intros H1 H2. destruct (Z.lt_ge_cases (cmp x z) 0) as [|H]; [done|].
  apply cmp_ge in H. pose proof (cmp_trans y z x H2 H). apply cmp_sym in H1. lia.
Qed.

Lemma cmp_le_lt x y z : cmp x y <= 0 -> cmp y z < 0 -> cmp x z < 0.
Proof.
  intros H1 H2. destruct (Z.lt_ge_cases (cmp x z) 0) as [|H]; [done|].
  apply cmp_ge in H. pose proof (cmp_trans z x y H H1). apply cmp_sym in H2. lia.
Qed.

#[local] Instance cmp_le_Transitive : Transitive (cmp_le cmp).
Proof. intros x y z. apply cmp_trans. Qed.

(** *** The two searches *)

(** What the binary search knows: everything below [start] is at most [item],
    everything from [limit] on is above it, and [found] tells whether the
    item just below [start] is equal to it. *)
Record search_inv (a : list A) (item : A) (start limit limit0 : Z) (found : bool) : Prop := {
  si_range : 0 <= start <= limit /\ limit <= limit0;
  si_below : all_range (fun y => if found then 0 <= cmp item y else 0 < cmp item y) a 0 start;
  si_above : all_range (fun y => cmp item y < 0) a limit limit0;
  si_found : found = true -> 0 < start /\
     forall y, a.[start - 1] = Some y -> cmp item y = 0
}.

Lemma all_range_shrink (P : A -> Prop) a lo hi lo' hi' :
  all_range P a lo hi -> lo <= lo' -> hi' <= hi -> all_range P a lo' hi'.
Proof. intros H ?? i y ? Hy. apply (H i y); [lia|done]. Qed.

Lemma all_range_impl (P Q : A -> Prop) a lo hi :
  all_range P a lo hi -> (forall y, P y -> Q y) -> all_range Q a lo hi.
Proof. intros H HPQ i y Hi Hy. eauto. Qed.

Lemma all_range_join (P : A -> Prop) a lo mid hi :
  all_range P a lo mid -> all_range P a mid hi -> all_range P a lo hi.
Proof.
  intros H1 H2 i y Hi Hy. destruct (Z.lt_ge_cases i mid); [apply (H1 i)|apply (H2 i)]; auto; lia.
Qed.

Lemma sorted_below a i x n (P : A -> Prop) :
  sorted_range cmp a 0 n -> i < n -> a.[i] = Some x ->
  (forall y, cmp y x <= 0 -> P y) -> all_range P a 0 (i + 1).
Proof.
  intros Hs Hi Hx HP k y Hk Hy. apply HP.
  destruct (decide (k = i)) as [->|].
  - simplify_eq. rewrite cmp_refl. lia.
  - apply (Hs k i y x); auto; lia.
Qed.

Lemma sorted_above a i x n (P : A -> Prop) :
  sorted_range cmp a 0 n -> 0 <= i -> a.[i] = Some x ->
  (forall y, cmp x y <= 0 -> P y) -> all_range P a i n.
Proof.
  intros Hs Hi Hx HP k y Hk Hy. apply HP.
  destruct (decide (k = i)) as [->|].
  - simplify_eq. rewrite cmp_refl. lia.
  - apply (Hs i k x y); auto; lia.
Qed.

(** One probe at index [i], the three outcomes of the comparison. *)
Lemma probe_equal a item start limit n found i x :
  search_inv a item start limit n found -> sorted_range cmp a 0 n ->
  start <= i < limit -> a.[i] = Some x -> cmp item x = 0 ->
  search_inv a item (i + 1) limit n true.
Proof.
  intros [? ? ? ?] Hs Hi Hx Heq. split; [lia| |done|].
  - apply (sorted_below a i x n); auto; [lia|].
    intros y Hy. apply cmp_ge. apply (cmp_trans y x item); [done|].
    rewrite (cmp_eq_sym _ _ Heq). lia.
  - intros _. split; [lia|]. intros y. replace (i + 1 - 1) with i by lia.
    intros. by simplify_eq.
Qed.

Lemma probe_less a item start limit n found i x :
  search_inv a item start limit n found -> sorted_range cmp a 0 n ->
  start <= i < limit -> a.[i] = Some x -> cmp item x < 0 ->
  search_inv a item start i n found.
Proof.
  intros [? ? ? ?] Hs Hi Hx Hlt. split; [lia|done| |done].
  apply (sorted_above a i x n); auto; [lia|].
  intros y Hy. by apply (cmp_lt_le item x y).
Qed.

Lemma probe_greater a item start limit n found i x j :
  search_inv a item start limit n found -> sorted_range cmp a 0 n ->
  start <= i < limit -> a.[i] = Some x -> 0 < cmp item x -> start <= j <= i + 1 ->
  search_inv a item j limit n found.
Proof.
  intros [? ? ? Hf] Hs Hi Hx Hgt Hj.
  assert (found = false) as ->.
  { destruct found; [|done]. destruct (Hf eq_refl) as [Hpos Hat].
    destruct (zget_is_Some a (start - 1)) as [y Hy]; [apply zget_lt in Hx; lia|].
    specialize (Hat y Hy). pose proof (Hs (start - 1) i y x ltac:(lia) ltac:(lia) Hy Hx).
    pose proof (cmp_trans item y x). lia. }
  split; [lia| |done|done].
  apply all_range_shrink with 0 (i + 1); [|lia|lia].
  apply (sorted_below a i x n); auto; [lia|].
  intros y Hy. apply cmp_gt. apply cmp_gt in Hgt. by apply (cmp_le_lt y x item).
Qed.

Lemma binarySearchLoop_spec fuel a item n start limit found :
  sorted_range cmp a 0 n -> n <= zlen a -> n <= 2 ^ 30 ->
  search_inv a item start limit n found -> limit - start < Z.of_nat fuel ->
  exists start' limit' found',
    binarySearchLoop cmp fuel a item start limit found = Some (start', limit', found') /\
    search_inv a item start' limit' n found'.
Proof.
  intros Hs Hn Hmax. revert start limit found.
  induction fuel as [|fuel IH]; intros start limit found Hinv Hfuel.
  { destruct Hinv. lia. }
  simpl. destruct (limit - start >=? MIN_QSORT) eqn:E; unfold MIN_QSORT in E; bool_prop; [|eauto 6].
  pose proof (si_range _ _ _ _ _ _ Hinv) as Hr.
  rewrite chk32_ok by lia. simpl.
  set (i := (start + limit) ÷ 2).
  assert (start < i < limit) as Hi.
  { apply mid_between; lia. }
  destruct (zget_is_Some a i) as [x Hx]; [lia|]. rewrite Hx. simpl.
  destruct (cmp item x =? 0) eqn:E0; bool_prop; [|destruct (cmp item x <? 0) eqn:E1; bool_prop].
  - apply IH; [|lia]. eapply probe_equal; eauto; lia.
  - apply IH; [|lia]. eapply probe_less; eauto; lia.
  - apply IH; [|lia]. eapply probe_greater; eauto; lia.
Qed.

Lemma linearSearchLoop_spec fuel a item n start limit found :
  sorted_range cmp a 0 n -> n <= zlen a ->
  search_inv a item start limit n found -> limit - start < Z.of_nat fuel ->
  exists start' found',
    linearSearchLoop cmp fuel a item start limit found = Some (start', found') /\
    search_inv a item start' start' n found'.
Proof.
  intros Hs Hn. revert start found.
  induction fuel as [|fuel IH]; intros start found Hinv Hfuel.
  { destruct Hinv. lia. }
  simpl. pose proof (si_range _ _ _ _ _ _ Hinv) as Hr.
  destruct (start <? limit) eqn:E; bool_prop.
  2:{ assert (limit = start) as -> by lia. eauto. }
  destruct (zget_is_Some a start) as [x Hx]; [lia|]. rewrite Hx. simpl.
  destruct (cmp item x =? 0) eqn:E0; bool_prop; [|destruct (cmp item x <? 0) eqn:E1; bool_prop].
  - apply IH; [|lia]. eapply probe_equal; eauto; lia.
  - eexists _, _. split; [done|]. eapply probe_less; eauto; lia.
  - apply IH; [|lia]. eapply probe_greater; eauto; lia.
Qed.

Lemma search_inv_init a item n : 0 <= n -> search_inv a item 0 n n false.
Proof. intros. split; [lia| | |done]; intros i y Hi; lia. Qed.

(** The search returns the index of the last equal item, or the complement of
    the index where the item belongs. *)
Lemma stableBinarySearch_spec a item n :
  0 <= n <= zlen a -> n <= 2 ^ 30 -> sorted_range cmp a 0 n ->
  exists r, uprv_stableBinarySearch cmp a n item = Some r /\
    let p := if r <? 0 then Z.lnot r else r + 1 in
    0 <= p <= n /\
    all_range (fun y => if r <? 0 then 0 < cmp item y else 0 <= cmp item y) a 0 p /\
    all_range (fun y => cmp item y < 0) a p n /\
    (0 <= r -> forall y, a.[r] = Some y -> cmp item y = 0).
Proof.
  intros Hn Hmax Hs. unfold uprv_stableBinarySearch.
  destruct (binarySearchLoop_spec (S (Z.to_nat n)) a item n 0 n false)
    as (s1 & l1 & f1 & -> & H1); [done|lia|lia|apply search_inv_init; lia|lia|]. mstep.
  pose proof (si_range _ _ _ _ _ _ H1).
  destruct (linearSearchLoop_spec (S (Z.to_nat (l1 - s1))) a item n s1 l1 f1)
    as (s2 & f2 & -> & [Hr Hb Ha Hf]); [done|lia|done|lia|]. simpl.
  eexists. split; [done|]. destruct f2.
  - destruct (Hf eq_refl) as [Hpos Hat].
    destruct (s2 - 1 <? 0) eqn:E; bool_prop; [lia|].
    replace (s2 - 1 + 1) with s2 by lia. repeat split; auto; lia.
  - rewrite Z.lnot_involutive. unfold Z.lnot in *.
    destruct (Z.pred (- s2) <? 0) eqn:E; bool_prop; [|lia].
    repeat split; auto; lia.
Qed.

(** *** Insertion sort *)
Lemma all_range_app (P : A -> Prop) l1 l2 l3 lo hi :
  lo = zlen l1 -> hi = zlen l1 + zlen l2 ->
  all_range P (l1 ++ l2 ++ l3) lo hi <-> Forall P l2.
Proof.
  intros -> ->. rewrite Forall_lookup. split.
  - intros H n y Hy. apply (H (zlen l1 + Z.of_nat n) y).
    + apply lookup_lt_Some in Hy. unfold zlen. lia.
    + rewrite zget_app_r by lia. replace (zlen l1 + Z.of_nat n - zlen l1) with (Z.of_nat n) by lia.
      rewrite zget_nat. by apply lookup_app_l_Some.
  - intros H i y Hi Hy. rewrite zget_app_r, zget_app_l in Hy by lia.
    apply zget_Some in Hy as [? Hy]. by apply H in Hy.
Qed.

Lemma sorted_range_app l1 l2 n :
  n = zlen l1 -> StronglySorted (cmp_le cmp) l1 -> sorted_range cmp (l1 ++ l2) 0 n.
Proof.
  intros -> Hs i j x y Hi Hj Hx Hy. rewrite zget_app_l in Hx, Hy by lia.
  apply zget_split in Hx as (p & q & -> & Hp).
  rewrite (cons_middle x p q), app_assoc in Hs, Hy.
  apply (StronglySorted_app_1_elem_of (cmp_le cmp) (p ++ [x]) q); [done|apply elem_of_app; right; constructor|].
  rewrite zget_app_r in Hy by zlia.
  apply zget_Some in Hy as [_ Hy]. by apply list_elem_of_lookup_2 in Hy.
Qed.

(** Where the item goes: after every item that is not above it. *)
Definition insertion_split (item : A) (pre l1 l2 : list A) : Prop :=
  pre = l1 ++ l2 /\ Forall (fun y => 0 <= cmp item y) l1 /\ Forall (fun y => cmp item y < 0) l2.

Lemma insertion_step pre item post :
  StronglySorted (cmp_le cmp) pre -> zlen pre <= 2 ^ 30 ->
  let a := pre ++ item :: post in
  exists l1 l2, insertion_split item pre l1 l2 /\
    (r ← uprv_stableBinarySearch cmp a (zlen pre) item;
     let insertionPoint := if r <? 0 then Z.lnot r else r + 1 in
     (if insertionPoint <? zlen pre then
        moved ← memmove a (insertionPoint + 1) insertionPoint (zlen pre - insertionPoint);
        zset moved insertionPoint item
      else Some a)) = Some (l1 ++ item :: l2 ++ post).
Proof.
  intros Hs Hmax a.
  destruct (stableBinarySearch_spec a item (zlen pre)) as (r & -> & H);
    [unfold a; zlia|done|by apply sorted_range_app|].
  cbn zeta in *. mstep. set (p := if r <? 0 then _ else _) in *.
  destruct H as (Hp & Hb & Ha & _).
  destruct (zsplit pre p) as (l1 & l2 & -> & Hl1); [lia|].
  exists l1, l2. split.
  - split; [done|]. unfold a in *. rewrite <- app_assoc in Ha, Hb. split.
    + apply (all_range_app _ [] l1 (l2 ++ item :: post)) in Hb; [|done|done].
      eapply Forall_impl; [exact Hb|]. intros y Hy. cbn beta in Hy. case_match; lia.
    + apply (all_range_app _ l1 l2) in Ha; [done|done|zlia].
  - unfold a. destruct (p <? zlen (l1 ++ l2)) eqn:E; bool_prop.
    + destruct l2 as [|x l2]; [zlia|].
      rewrite <- app_assoc, <- Hl1, zlen_app, Z.add_simpl_l, memmove_up. mstep.
      by rewrite zset_middle.
    + assert (l2 = []) as -> by (apply zlen_0_nil; zlia). by rewrite app_nil_r.
Qed.

Lemma insertion_split_sorted item pre l1 l2 :
  insertion_split item pre l1 l2 -> StronglySorted (cmp_le cmp) pre ->
  StronglySorted (cmp_le cmp) (l1 ++ item :: l2).
Proof.
  intros (-> & H1 & H2) (Hx & Hs1 & Hs2)%StronglySorted_app.
  rewrite Forall_forall in H1, H2. apply StronglySorted_app. repeat split; [|done|].
  - intros x y Hin1 [->|Hin2]%elem_of_cons; [by apply cmp_ge, H1|by apply Hx].
  - constructor; [done|]. apply Forall_forall. intros y Hy. unfold cmp_le.
    specialize (H2 y Hy). lia.
Qed.

Lemma insertion_split_stable item pre l1 l2 x :
  insertion_split item pre l1 l2 ->
  equal_items cmp x (l1 ++ item :: l2) = equal_items cmp x (pre ++ [item]).
Proof.
  intros (-> & _ & H2). unfold equal_items.
  rewrite <- app_assoc, !filter_app. f_equal.
  rewrite filter_cons. case_decide as Hx.
  - assert (filter (fun y => cmp x y = 0) l2 = []) as E.
    { induction l2 as [|y l2 IH]; [done|].
      inversion H2; subst. rewrite filter_cons_False; [by apply IH|].
      intros Hy. apply cmp_eq_sym in Hx. pose proof (cmp_trans y x item).
      apply cmp_eq_sym in Hy. pose proof (cmp_sym item y). pose proof (cmp_eq_sym item x Hx). lia. }
    rewrite E. rewrite filter_cons_True by done. done.
  - rewrite filter_cons_False by done. by rewrite app_nil_r.
Qed.

(** What a sort of [l] into [l'] achieves. *)
Definition sorted_stably (l l' : list A) : Prop :=
  l ≡ₚ l' /\ StronglySorted (cmp_le cmp) l' /\
  forall x, equal_items cmp x l' = equal_items cmp x l.

Lemma insertionLoop_spec fuel l pre mid post j n :
  sorted_stably l pre -> (length mid <= fuel)%nat ->
  j = zlen pre -> n = zlen pre + zlen mid -> n <= 2 ^ 30 ->
  exists l', insertionLoop cmp fuel (pre ++ mid ++ post) j n = Some (l' ++ post) /\
    sorted_stably (l ++ mid) l'.
Proof.
  intros Hl Hfuel -> -> Hmax. revert l pre fuel Hl Hfuel Hmax.
  induction mid as [|item mid IH]; intros l pre fuel Hl Hfuel Hmax.
  - exists pre. rewrite app_nil_r. split; [|done].
    destruct fuel; simpl; rewrite Z_ltb_false by zlia; done.
  - destruct fuel as [|fuel]; simpl in Hfuel; [lia|].
    destruct Hl as (Hp & Hs & Hst).
    destruct (insertion_step pre item (mid ++ post)) as (l1 & l2 & Hsplit & Hstep); [done|zlia|].
    cbn [insertionLoop]. rewrite Z_ltb_true by zlia. simpl app.
    rewrite zget_middle by done. mstep. cbn zeta in Hstep.
    destruct (uprv_stableBinarySearch _ _ _ _) as [r|] eqn:Hr; [|done]. mstep.
    simpl in Hstep. cbn zeta. rewrite Hstep. mstep.
    replace (l1 ++ item :: l2 ++ mid ++ post) with ((l1 ++ item :: l2) ++ mid ++ post)
      by (by rewrite <- app_assoc).
    pose proof Hsplit as (Epre & _).
    destruct (IH (l ++ [item]) (l1 ++ item :: l2) fuel) as (l' & Hl' & Hout).
    + split; [|split].
      * rewrite Hp, Epre. rewrite <- app_assoc. f_equiv. by rewrite Permutation_app_comm.
      * by eapply insertion_split_sorted.
      * intros x. rewrite (insertion_split_stable item pre) by done.
        unfold equal_items in *. rewrite !filter_app. by rewrite Hst.
    + lia.
    + subst pre. zlia.
    + exists l'. split; [|by rewrite <- app_assoc in Hout].
      rewrite <- Hl'. f_equal; subst pre; zlia.
Qed.

Lemma doInsertionSort_spec l post :
  zlen l <= 2 ^ 30 ->
  exists l', doInsertionSort cmp (l ++ post) (zlen l) = Some (l' ++ post) /\ sorted_stably l l'.
Proof.
  intros Hmax. unfold doInsertionSort. destruct l as [|x l].
  - exists []. repeat constructor.
  - destruct (insertionLoop_spec (Z.to_nat (zlen (x :: l))) [x] [x] l post 1 (zlen (x :: l)))
      as (l' & ? & ?); [|unfold zlen; simpl; lia|done|zlia|done|eauto].
    repeat constructor.
Qed.

(** *** QuickSort *)

(** The two arrays are equal but for the order of the items in the range. *)
Definition perm_range (lo hi : Z) (a a' : list A) : Prop :=
  exists p m m' q, a = p ++ m ++ q /\ a' = p ++ m' ++ q /\ m ≡ₚ m' /\
    zlen p = lo /\ zlen p + zlen m = hi.

Lemma perm_range_refl lo hi a : 0 <= lo <= hi -> hi <= zlen a -> perm_range lo hi a a.
Proof.
  intros. destruct (zsplit a lo) as (p & r & -> & Hp); [lia|].
  destruct (zsplit r (hi - lo)) as (m & q & -> & Hm); [zlia|].
  exists p, m, m, q. split_and!; done || lia.
Qed.

Lemma perm_range_len lo hi a a' : perm_range lo hi a a' -> zlen a' = zlen a.
Proof.
  intros (p & m & m' & q & -> & -> & Hm & _). apply Permutation_length in Hm.
  zlens. unfold zlen in *. lia.
Qed.

Lemma perm_range_bounds lo hi a a' : perm_range lo hi a a' -> 0 <= lo <= hi /\ hi <= zlen a.
Proof. intros (p & m & m' & q & -> & -> & Hm & ? & ?). zlia. Qed.

Lemma perm_range_widen lo hi lo' hi' a a' :
  perm_range lo hi a a' -> 0 <= lo' <= lo -> hi <= hi' <= zlen a -> perm_range lo' hi' a a'.
Proof.
  intros (p & m & m' & q & -> & -> & Hm & Hp & Hhi) Hlo' Hhi'.
  destruct (zsplit p lo') as (p1 & p2 & -> & Hp1); [lia|].
  destruct (zsplit q (hi' - hi)) as (q1 & q2 & -> & Hq1); [zlia|].
  exists p1, (p2 ++ m ++ q1), (p2 ++ m' ++ q1), q2. rewrite <- !app_assoc.
  repeat split; [by rewrite Hm|done|zlia].
Qed.

Lemma perm_range_trans lo hi a b c :
  perm_range lo hi a b -> perm_range lo hi b c -> perm_range lo hi a c.
Proof.
  intros (p & m & m' & q & -> & -> & Hm & Hp & Hhi) (p2 & m2 & m2' & q2 & E & -> & Hm2 & Hp2 & Hhi2).
  assert (zlen m' = zlen m) by (apply Permutation_length in Hm; unfold zlen; lia).
  apply app_inj_1 in E as [<- E]; [|unfold zlen in *; lia].
  apply app_inj_1 in E as [<- <-]; [|unfold zlen in *; lia].
  exists p, m, m2', q. repeat split; [by rewrite Hm|done|done].
Qed.

Lemma perm_range_all (P : A -> Prop) lo hi a a' :
  perm_range lo hi a a' -> all_range P a lo hi -> all_range P a' lo hi.
Proof.
  intros (p & m & m' & q & -> & -> & Hm & Hp & Hhi) H.
  assert (zlen m' = zlen m) by (apply Permutation_length in Hm; unfold zlen; lia).
  apply all_range_app in H; [|done|done]. apply all_range_app; [done|lia|]. by rewrite <- Hm.
Qed.

Lemma perm_range_get lo hi a a' i :
  perm_range lo hi a a' -> i < lo \/ hi <= i -> a'.[i] = a.[i].
Proof.
  intros (p & m & m' & q & -> & -> & Hm & Hp & Hhi) Hi.
  assert (zlen m' = zlen m) by (apply Permutation_length in Hm; unfold zlen; lia).
  destruct Hi.
  - by rewrite !zget_app_l by lia.
  - rewrite !app_assoc, !(zget_app_r (p ++ _)) by zlia. f_equal. zlia.
Qed.

Lemma perm_range_all_outside (P : A -> Prop) lo hi a a' lo' hi' :
  perm_range lo hi a a' -> hi' <= lo \/ hi <= lo' ->
  all_range P a lo' hi' -> all_range P a' lo' hi'.
Proof.
  intros Hp Ho H i y Hi Hy. apply (H i y Hi).
  rewrite <- Hy. symmetry. eapply perm_range_get; [done|lia].
Qed.

Lemma swapItems_spec a left right lo hi :
  0 <= lo <= left -> left < right < hi -> hi <= zlen a ->
  exists a' x y, swapItems a left right = Some a' /\ perm_range lo hi a a' /\
    a.[left] = Some x /\ a.[right] = Some y /\
    a'.[left] = Some y /\ a'.[right] = Some x /\
    (forall i, i <> left -> i <> right -> a'.[i] = a.[i]).
Proof.
  intros Hlo Hlr Hhi.
  destruct (zget_is_Some a left) as [x Hx]; [lia|].
  destruct (zget_is_Some a right) as [y Hy]; [lia|].
  apply zget_split in Hx as Hs. destruct Hs as (p & r & -> & Hp).
  rewrite (cons_middle x), app_assoc, zget_app_r in Hy by zlia.
  apply zget_split in Hy as Hs. destruct Hs as (m & q & -> & Hm).
  clear Hx Hy. assert (zlen (p ++ [x]) = left + 1) as Hpx by zlia.
  assert ((p ++ x :: m ++ y :: q).[left] = Some x) as Gx by (by apply zget_middle).
  assert (forall u v, (p ++ u :: m ++ v :: q).[right] = Some v) as Gy.
  { intros u v. rewrite app_comm_cons, app_assoc. apply zget_middle. zlia. }
  exists (p ++ y :: m ++ x :: q), x, y. unfold swapItems.
  rewrite Gx. mstep. rewrite Gy. mstep. rewrite zset_middle by done. mstep.
  rewrite app_comm_cons, (app_assoc p), zset_middle by zlia.
  rewrite <- (app_assoc p), <- app_comm_cons.
  repeat split; auto using zget_middle.
  - apply perm_range_widen with left (right + 1); [|lia|zlia].
    exists p, (x :: m ++ [y]), (y :: m ++ [x]), q. rewrite <- !app_comm_cons, <- !app_assoc.
    repeat split; [|done|zlia]. rewrite !(Permutation_app_comm m). apply perm_swap.
  - intros i Hi1 Hi2. destruct (Z.lt_ge_cases i left).
    { by rewrite !zget_app_l by lia. }
    rewrite !(cons_middle _ p), !(app_assoc p), !(zget_app_r (p ++ _)) by zlia.
    replace (i - zlen (p ++ [y])) with (i - zlen (p ++ [x])) by zlia.
    destruct (Z.lt_ge_cases i right).
    { by rewrite !zget_app_l by zlia. }
    rewrite !(cons_middle _ m), !(app_assoc m), !(zget_app_r (m ++ _)) by zlia. f_equal. zlia.
Qed.

Lemma scanLeft_spec fuel a x left k y :
  0 <= left <= k -> k - left < Z.of_nat fuel -> a.[k] = Some y -> cmp x y <= 0 ->
  exists left', scanLeft cmp fuel a x left = Some left' /\ left <= left' <= k /\
    all_range (fun z => cmp z x <= 0) a left left' /\
    forall z, a.[left'] = Some z -> cmp x z <= 0.
Proof.
  intros Hl Hf Hy Hc. revert left Hl Hf.
  induction fuel as [|fuel IH]; intros left Hl Hf; [lia|]. cbn [scanLeft].
  destruct (zget_is_Some a left) as [z Hz]; [apply zget_lt in Hy; lia|]. rewrite Hz. mstep.
  destruct (cmp z x <? 0) eqn:E; bool_prop.
  - assert (left <> k) by (intros ->; assert (z = y) as -> by congruence; pose proof (cmp_sym y x); lia).
    destruct (IH (left + 1)) as (l' & ? & ? & Hr & ?); [lia|lia|].
    exists l'. split_and!; [done|lia|lia| |done].
    intros i w Hi Hw. destruct (decide (i = left)) as [->|].
    + simplify_eq. lia.
    + apply (Hr i w); [lia|done].
  - exists left. split_and!; [done|lia|lia| |].
    + intros i w Hi. lia.
    + intros w ?. simplify_eq. by apply cmp_ge.
Qed.

Lemma scanRight_spec fuel a x right k y :
  0 <= k < right -> right - k <= Z.of_nat fuel -> right <= zlen a ->
  a.[k] = Some y -> cmp y x <= 0 ->
  exists right', scanRight cmp fuel a x right = Some right' /\ k < right' <= right /\
    all_range (fun z => cmp x z <= 0) a right' right /\
    forall z, a.[right' - 1] = Some z -> cmp z x <= 0.
Proof.
  intros Hr Hf Hlen Hy Hc. revert right Hr Hf Hlen.
  induction fuel as [|fuel IH]; intros right Hr Hf Hlen; [lia|]. cbn [scanRight].
  destruct (zget_is_Some a (right - 1)) as [z Hz]; [lia|]. rewrite Hz. mstep.
  destruct (cmp x z <? 0) eqn:E; bool_prop.
  - assert (right - 1 <> k) by (intros <-; assert (z = y) as -> by congruence; pose proof (cmp_sym x y); lia).
    destruct (IH (right - 1)) as (r' & ? & ? & Hall & ?); [lia|lia|lia|].
    exists r'. split_and!; [done|lia|lia| |done].
    intros i w Hi Hw. destruct (decide (i = right - 1)) as [->|].
    + simplify_eq. lia.
    + apply (Hall i w); [lia|done].
  - exists right. split_and!; [done|lia|lia| |].
    + intros i w Hi. lia.
    + intros w ?. simplify_eq. by apply cmp_ge.
Qed.

Record part_inv (a : list A) (x : A) (start limit left right : Z) : Prop := {
  pi_range : 0 <= start <= left /\ left <= limit /\ start <= right <= limit /\ limit <= zlen a;
  pi_low : all_range (fun y => cmp y x <= 0) a start left;
  pi_high : all_range (fun y => cmp x y <= 0) a right limit
}.

(** What stops the scans: the pivot itself at first, the swapped items later. *)
Definition sentinels (a : list A) (x : A) (start limit left right : Z) : Prop :=
  (exists k, left <= k < right /\ a.[k] = Some x) \/ (start < left /\ right < limit).

Lemma scans_spec a x start limit left right :
  part_inv a x start limit left right -> left < right ->
  sentinels a x start limit left right ->
  exists left' right',
    scanLeft cmp (S (length a)) a x left = Some left' /\
    scanRight cmp (S (length a)) a x right = Some right' /\
    part_inv a x start limit left' right' /\ left <= left' /\ right' <= right /\
    (left' < right' \/ (start < left' /\ right' < limit)) /\
    (forall z, a.[left'] = Some z -> cmp x z <= 0) /\
    (forall z, a.[right' - 1] = Some z -> cmp z x <= 0).
Proof.
  intros [Hr Hlow Hhigh] Hlr Hsent.
  assert (exists kl kr yl yr, left <= kl < limit /\ start <= kr < right /\
    a.[kl] = Some yl /\ cmp x yl <= 0 /\ a.[kr] = Some yr /\ cmp yr x <= 0 /\
    (kl <= kr \/ (kl <= right /\ left <= kr + 1 /\ start < left /\ right < limit)))
    as (kl & kr & yl & yr & Hkl & Hkr & Hyl & Hcl & Hyr & Hcr & Hrel).
  { destruct Hsent as [(k & Hk & Hx)|[H1 H2]].
    - pose proof (cmp_refl x). exists k, k, x, x. split_and!; auto; lia.
    - destruct (zget_is_Some a right) as [yl Hyl]; [lia|].
      destruct (zget_is_Some a (left - 1)) as [yr Hyr]; [lia|].
      exists right, (left - 1), yl, yr. split_and!; auto; try lia.
      + apply (Hhigh right); [lia|done].
      + apply (Hlow (left - 1)); [lia|done]. }
  assert (Z.of_nat (S (length a)) = zlen a + 1) by (unfold zlen; lia).
  destruct (scanLeft_spec (S (length a)) a x left kl yl) as (l' & HL & Hl' & Hal & Hat);
    [lia|lia|done|done|].
  destruct (scanRight_spec (S (length a)) a x right kr yr) as (r' & HR & Hr' & Har & Hatr);
    [lia|lia|lia|done|done|].
  exists l', r'. split_and!; auto; try lia.
  split; [lia| |].
  - eapply all_range_join; eauto.
  - eapply all_range_join; eauto.
Qed.

(** One exchange of the partition keeps its invariant. *)
Lemma swap_part_inv a a' x start limit left right y z :
  part_inv a x start limit left right -> left < right - 1 ->
  perm_range start limit a a' ->
  a'.[left] = Some y -> a'.[right - 1] = Some z -> cmp y x <= 0 -> cmp x z <= 0 ->
  (forall i, i <> left -> i <> right - 1 -> a'.[i] = a.[i]) ->
  part_inv a' x start limit (left + 1) (right - 1).
Proof.
  intros [Hr Hlow Hhigh] Hlr Hp Hy Hz Hcy Hcz Hrest.
  pose proof (perm_range_len _ _ _ _ Hp). split; [lia| |].
  - intros i w Hi Hw. destruct (decide (i = left)) as [->|]; [congruence|].
    apply (Hlow i w); [lia|]. rewrite <- Hw. symmetry. apply Hrest; lia.
  - intros i w Hi Hw. destruct (decide (i = right - 1)) as [->|]; [congruence|].
    apply (Hhigh i w); [lia|]. rewrite <- Hw. symmetry. apply Hrest; lia.
Qed.

Lemma partitionLoop_spec fuel a x start limit left right :
  part_inv a x start limit left right -> left < right ->
  sentinels a x start limit left right -> right - left <= Z.of_nat fuel ->
  exists a' left' right',
    partitionLoop cmp fuel a x left right = Some (a', left', right') /\
    perm_range start limit a a' /\ part_inv a' x start limit left' right' /\
    start < left' /\ right' < limit /\ right' <= left'.
Proof.
  revert a left right. induction fuel as [|fuel IH]; intros a left right Hinv Hlr Hsent Hf; [lia|].
  cbn [partitionLoop].
  destruct (scans_spec a x start limit left right)
    as (l & r & -> & Hrr & Hinv' & Hl & Hr & Hd & HL & HR); [done..|]. mstep. rewrite Hrr. mstep.
  pose proof Hinv' as [Hrange Hlow Hhigh].
  destruct (l <? r) eqn:E; bool_prop.
  2:{ exists a, l, r. split_and!; auto; try lia. apply perm_range_refl; lia. }
  destruct (l <? r - 1) eqn:E1; bool_prop.
  - destruct (swapItems_spec a l (r - 1) start limit)
      as (a' & xl & xr & -> & Hp & Hxl & Hxr & Hy & Hz & Hrest); [lia..|]. mstep.
    assert (part_inv a' x start limit (l + 1) (r - 1)) as Hinv2
      by (eapply swap_part_inv; eauto).
    destruct (l + 1 <? r - 1) eqn:E2; bool_prop.
    + destruct (IH a' (l + 1) (r - 1)) as (b & l' & r' & ? & ? & ? & ? & ? & ?);
        [done|lia|right; lia|lia|].
      exists b, l', r'. split_and!; auto. eapply perm_range_trans; eauto.
    + exists a', (l + 1), (r - 1). split_and!; auto; lia.
  - assert (l = r - 1) as -> by lia. mstep. rewrite Z_ltb_false by lia.
    exists a, (r - 1 + 1), (r - 1). split_and!; auto; try lia.
    + apply perm_range_refl; lia.
    + split; [lia| |].
      * intros i w Hi Hw. destruct (decide (i = r - 1)) as [->|]; [auto|].
        apply (Hlow i w); [lia|done].
      * intros i w Hi Hw. destruct (decide (i = r - 1)) as [->|]; [auto|].
        apply (Hhigh i w); [lia|done].
Qed.

(** The three pieces of a partition, each sorted, make a sorted range. *)
Lemma sorted_pieces a x start limit left right :
  part_inv a x start limit left right -> right <= left ->
  sorted_range cmp a start right -> sorted_range cmp a left limit ->
  sorted_range cmp a start limit.
Proof.
  intros [Hr Hlow Hhigh] Hlr Hs1 Hs2 i j y z Hi Hj Hy Hz.
  destruct (Z.lt_ge_cases j right); [apply (Hs1 i j); auto; lia|].
  destruct (Z.lt_ge_cases i left); [|apply (Hs2 i j); auto; lia].
  apply (cmp_trans y x z); [apply (Hlow i)|apply (Hhigh j)]; auto; lia.
Qed.

Lemma part_inv_perm a a' x start limit left right lo hi :
  part_inv a x start limit left right -> right <= left -> perm_range lo hi a a' ->
  (lo = start /\ hi = right) \/ (lo = left /\ hi = limit) ->
  part_inv a' x start limit left right.
Proof.
  intros [Hr Hlow Hhigh] Hlr Hp Hlh. pose proof (perm_range_len _ _ _ _ Hp).
  pose proof (perm_range_bounds _ _ _ _ Hp). split; [lia| |]; destruct Hlh as [[-> ->]|[-> ->]].
  - apply all_range_join with right.
    + eapply perm_range_all; [done|]. eapply all_range_shrink; [done|lia..].
    + eapply perm_range_all_outside; [done|lia|]. eapply all_range_shrink; [done|lia..].
  - eapply perm_range_all_outside; [done|lia|done].
  - eapply perm_range_all_outside; [done|lia|done].
  - apply all_range_join with left.
    + eapply perm_range_all_outside; [done|lia|]. eapply all_range_shrink; [done|lia..].
    + eapply perm_range_all; [done|]. eapply all_range_shrink; [done|lia..].
Qed.

Lemma perm_range_sorted a a' lo hi lo' hi' :
  perm_range lo hi a a' -> hi' <= lo \/ hi <= lo' ->
  sorted_range cmp a lo' hi' -> sorted_range cmp a' lo' hi'.
Proof.
  intros Hp Ho H i j y z Hi Hj Hy Hz.
  rewrite (perm_range_get lo hi a a') in Hy, Hz by (done || lia). by apply (H i j).
Qed.

Lemma sorted_range_short a lo hi : hi <= lo + 1 -> sorted_range cmp a lo hi.
Proof. intros ? i j y z Hi Hj. lia. Qed.

Lemma sorted_range_of_StronglySorted p m q lo hi :
  lo = zlen p -> hi = zlen p + zlen m -> StronglySorted (cmp_le cmp) m ->
  sorted_range cmp (p ++ m ++ q) lo hi.
Proof.
  intros -> -> Hs i j y z Hi Hj Hy Hz. rewrite !(zget_app_r p) in Hy, Hz by lia.
  apply (sorted_range_app m q (zlen m) eq_refl Hs (i - zlen p) (j - zlen p)); auto; lia.
Qed.

Lemma insertion_base a start limit :
  0 <= start <= limit -> limit <= zlen a -> zlen a <= 2 ^ 30 ->
  exists a', (tail ← doInsertionSort cmp (drop (Z.to_nat start) a) (limit - start);
              Some (take (Z.to_nat start) a ++ tail)) = Some a' /\
    perm_range start limit a a' /\ sorted_range cmp a' start limit.
Proof.
  intros H1 H2 H3. destruct (zsplit a start) as (p & r & -> & Hp); [lia|].
  destruct (zsplit r (limit - start)) as (m & q & -> & Hm); [zlia|].
  rewrite drop_zlen, take_zlen by done. rewrite <- Hm.
  destruct (doInsertionSort_spec m q) as (m' & -> & Hperm & Hsort & _); [zlia|]. mstep.
  exists (p ++ m' ++ q). split; [done|]. split.
  - exists p, m, m', q. split_and!; done || lia.
  - apply Permutation_length in Hperm.
    apply sorted_range_of_StronglySorted; [done|unfold zlen in *; lia|done].
Qed.

(** The contract of the recursive call, at a given fuel. *)
Definition sub_sorts (fuel : nat) : Prop :=
  forall a start limit,
    0 <= start <= limit -> limit <= zlen a -> zlen a <= 2 ^ 30 ->
    limit - start < Z.of_nat fuel ->
    exists a', subQuickSort cmp fuel a start limit = Some a' /\
      perm_range start limit a a' /\ sorted_range cmp a' start limit.

Lemma sub_or_skip fuel a start limit :
  sub_sorts fuel -> 0 <= start -> start <= limit <= zlen a -> zlen a <= 2 ^ 30 ->
  limit - start < Z.of_nat fuel ->
  exists a', (if start <? limit - 1 then subQuickSort cmp fuel a start limit else Some a) = Some a' /\
    perm_range start limit a a' /\ sorted_range cmp a' start limit.
Proof.
  intros IH ????. destruct (start <? limit - 1) eqn:E; bool_prop; [apply IH; lia|].
  exists a. split_and!; [done|apply perm_range_refl; lia|apply sorted_range_short; lia].
Qed.

(** Both orders of sorting the two pieces of a partition. *)
Lemma sort_pieces fuel a x start limit left right (first : bool) :
  sub_sorts fuel -> part_inv a x start limit left right -> right <= left ->
  start < left -> right < limit -> zlen a <= 2 ^ 30 -> limit - start <= Z.of_nat fuel ->
  exists a',
    (if first then
       b ← (if start <? right - 1 then subQuickSort cmp fuel a start right else Some a);
       if left <? limit - 1 then subQuickSort cmp fuel b left limit else Some b
     else
       b ← (if left <? limit - 1 then subQuickSort cmp fuel a left limit else Some a);
       if start <? right - 1 then subQuickSort cmp fuel b start right else Some b) = Some a' /\
    perm_range start limit a a' /\ sorted_range cmp a' start limit.
Proof.
  intros IH Hinv Hlr Hsl Hrl Hlen Hf. pose proof (pi_range _ _ _ _ _ _ Hinv) as Hr.
  assert (forall lo1 hi1 lo2 hi2, (lo1, hi1, lo2, hi2) = (start, right, left, limit) \/
      (lo1, hi1, lo2, hi2) = (left, limit, start, right) ->
    exists a', (b ← (if lo1 <? hi1 - 1 then subQuickSort cmp fuel a lo1 hi1 else Some a);
       if lo2 <? hi2 - 1 then subQuickSort cmp fuel b lo2 hi2 else Some b) = Some a' /\
    perm_range start limit a a' /\ sorted_range cmp a' start limit) as Hgen.
  { intros lo1 hi1 lo2 hi2 Hcase.
    destruct (sub_or_skip fuel a lo1 hi1) as (b & -> & Hp1 & Hs1);
      [done|destruct Hcase; simplify_eq; lia..|]. mstep.
    pose proof (perm_range_len _ _ _ _ Hp1) as Hlen1.
    assert (part_inv b x start limit left right) as Hinv1
      by (eapply part_inv_perm; [done|done|done|destruct Hcase; simplify_eq; auto]).
    destruct (sub_or_skip fuel b lo2 hi2) as (c & -> & Hp2 & Hs2);
      [done|destruct Hcase; simplify_eq; lia..|].
    assert (part_inv c x start limit left right) as Hinv2
      by (eapply part_inv_perm; [done|done|done|destruct Hcase; simplify_eq; auto]).
    exists c. split_and!; [done| |].
    - eapply perm_range_trans; (eapply perm_range_widen; [done|..]);
        destruct Hcase; simplify_eq; lia.
    - eapply perm_range_sorted in Hs1; [|done|destruct Hcase; simplify_eq; lia].
      eapply sorted_pieces; eauto; destruct Hcase; simplify_eq; done. }
  destruct first; apply Hgen; auto.
Qed.

Lemma subQuickSort_spec fuel : sub_sorts fuel.
Proof.
  induction fuel as [|fuel IH]; intros a start limit H1 H2 H3 Hf; [lia|].
  cbn [subQuickSort]. rewrite (chk32_ok (start + MIN_QSORT)) by (unfold MIN_QSORT; lia). mstep.
  destruct (start + MIN_QSORT >=? limit) eqn:E; unfold MIN_QSORT in E; bool_prop.
  { by apply insertion_base. }
  rewrite (chk32_ok (start + limit)) by lia. mstep.
  pose proof (mid_bounds start limit) as Hmid.
  destruct (zget_is_Some a ((start + limit) ÷ 2)) as [x Hx]; [lia|]. rewrite Hx. mstep.
  destruct (partitionLoop_spec (S (length a)) a x start limit start limit)
    as (b & l & r & -> & Hp & Hinv & Hsl & Hrl & Hlr).
  - split; [lia|intros i ? ?; lia..].
  - lia.
  - left. eexists. split; [|done]. lia.
  - unfold zlen in *. lia.
  - mstep. pose proof (perm_range_len _ _ _ _ Hp).
    destruct (sort_pieces fuel b x start limit l r (r - start <? limit - l))
      as (c & Hc & Hpc & Hsc); [done|done|lia..|].
    exists c. split_and!; [|by eapply perm_range_trans|done].
    rewrite <- Hc. by destruct (r - start <? limit - l).
Qed.

Lemma sorted_range_StronglySorted a :
  sorted_range cmp a 0 (zlen a) -> StronglySorted (cmp_le cmp) a.
Proof.
  induction a as [|x a IH]; intros Hs; [constructor|].
  assert (forall i, 0 <= i -> (x :: a).[1 + i] = a.[i]) as Hget.
  { intros i Hi. rewrite (zget_app_r [x] a) by zlia. f_equal. zlia. }
  constructor.
  - apply IH. intros i j y z Hi Hj Hy Hz. apply (Hs (1 + i) (1 + j)); [lia|zlia| |].
    + rewrite Hget by lia. done.
    + rewrite Hget by lia. done.
  - apply Forall_lookup. intros n y Hy.
    apply (Hs 0 (1 + Z.of_nat n)); [lia| |done|].
    + apply lookup_lt_Some in Hy. unfold zlen. simpl. lia.
    + rewrite Hget by lia. by rewrite zget_nat.
Qed.

Lemma insertionSort_ok malloc a itemSize err :
  zlen a <= 2 ^ 30 -> itemSize <= STACK_ITEM_SIZE \/ (forall k, malloc k = true) ->
  exists a', insertionSort cmp malloc a (zlen a) itemSize err = Some (a', err) /\ sorted_stably a a'.
Proof.
  intros Hlen Hm. unfold insertionSort.
  assert (negb (itemSize <=? STACK_ITEM_SIZE) && negb (malloc itemSize) = false) as ->.
  { destruct Hm as [Hm|Hm]; [by rewrite Z_leb_true|by rewrite Hm, andb_false_r]. }
  destruct (doInsertionSort_spec a []) as (a' & H & ?); [done|].
  rewrite !app_nil_r in H. rewrite H. eauto.
Qed.

Lemma quickSort_ok malloc a itemSize err :
  zlen a <= 2 ^ 30 -> itemSize <= STACK_ITEM_SIZE \/ (forall k, malloc k = true) ->
  exists a', quickSort cmp malloc a (zlen a) itemSize err = Some (a', err) /\
    a ≡ₚ a' /\ StronglySorted (cmp_le cmp) a'.
Proof.
  intros Hlen Hm. unfold quickSort.
  assert (negb (itemSize <=? STACK_ITEM_SIZE) && negb (malloc (2 * itemSize)) = false) as ->.
  { destruct Hm as [Hm|Hm]; [by rewrite Z_leb_true|by rewrite Hm, andb_false_r]. }
  destruct (subQuickSort_spec (S (Z.to_nat (zlen a))) a 0 (zlen a))
    as (a' & -> & Hp & Hs); [zlia|done|done|zlia|].
  exists a'. split_and!; [done| |].
  - destruct Hp as (p & m & m' & q & -> & -> & Hm' & _). by rewrite Hm'.
  - apply sorted_range_StronglySorted. by rewrite (perm_range_len _ _ _ _ Hp).
Qed.
End theory.

(** ** Properties *)
Section properties.
  Context {A : Type}.
  Implicit Types (cmp : A -> A -> Z) (malloc : Z -> bool) (a : list A).

Lemma sortArray_ok cmp malloc a itemSize stable err :
  Comparator cmp -> zlen a <= 2 ^ 30 -> 0 < itemSize -> U_FAILURE err = false ->
  itemSize <= STACK_ITEM_SIZE \/ (forall k, malloc k = true) ->
  exists a', uprv_sortArray malloc (Some a) (zlen a) itemSize (Some cmp) stable (Some err)
             = Some (Some a', Some err) /\ a ≡ₚ a' /\ StronglySorted (cmp_le cmp) a'.
Proof.
  intros Hcmp Hlen Hsize Herr Hm. unfold uprv_sortArray. rewrite Herr.
  rewrite Z_ltb_false, Z_leb_false by zlia. simpl.
  destruct (zlen a <=? 1) eqn:E; bool_prop.
  { exists a. split_and!; [done|done|]. apply sorted_range_StronglySorted.
    apply sorted_range_short; lia. }
  destruct ((zlen a <? MIN_QSORT) || stable).
  - destruct (insertionSort_ok cmp malloc a itemSize err) as (a' & -> & ? & ? & _); eauto.
  - destruct (quickSort_ok cmp malloc a itemSize err) as (a' & -> & ? & ?); eauto.
Qed.


(** With [sortStable], items that compare equal keep their relative order. *)
Theorem sortArray_stable cmp malloc a itemSize err x :
  Comparator cmp -> zlen a <= 2 ^ 30 -> 0 < itemSize -> U_FAILURE err = false ->
  itemSize <= STACK_ITEM_SIZE \/ (forall k, malloc k = true) ->
  exists a', uprv_sortArray malloc (Some a) (zlen a) itemSize (Some cmp) true (Some err)
             = Some (Some a', Some err) /\ equal_items cmp x a' = equal_items cmp x a.
Proof.
  intros Hcmp Hlen Hsize Herr Hm. unfold uprv_sortArray. rewrite Herr.
  rewrite Z_ltb_false, Z_leb_false by zlia. simpl.
  destruct (zlen a <=? 1) eqn:E; bool_prop; [by exists a|]. rewrite orb_true_r.
  destruct (insertionSort_ok cmp malloc a itemSize err) as (a' & -> & ? & ? & H); eauto.
Qed.

(** On a sorted array [uprv_stableBinarySearch] returns the index of the
    last item equal to the key, or, when there is none, the complement of the
    index that splits the array into the items below and above the key. *)
Theorem stableBinarySearch_correct cmp a item :
  Comparator cmp -> zlen a <= 2 ^ 30 -> StronglySorted (cmp_le cmp) a ->
  exists r, uprv_stableBinarySearch cmp a (zlen a) item = Some r /\
    (0 <= r -> r < zlen a /\ (forall y, a.[r] = Some y -> cmp item y = 0) /\
               all_range (fun y => cmp item y < 0) a (r + 1) (zlen a)) /\
    (r < 0 -> 0 <= Z.lnot r <= zlen a /\
              all_range (fun y => 0 < cmp item y) a 0 (Z.lnot r) /\
              all_range (fun y => cmp item y < 0) a (Z.lnot r) (zlen a)).
Proof.
  intros Hcmp Hlen Hs.
  destruct (stableBinarySearch_spec cmp a item (zlen a)) as (r & Hr & Hp & Hb & Ha & Hat);
    [zlia|done|rewrite <- (app_nil_r a) at 1; by apply sorted_range_app|].
  exists r. split; [done|]. destruct (r <? 0) eqn:E; bool_prop.
  - split; [lia|]. auto.
  - split; [|lia]. intros _. split_and!; auto; lia.
Qed.

(** The failure paths of [uprv_sortArray] leave the array as it was: a
    failure code on entry is kept, bad arguments are reported, and when the
    temporary items do not fit on the stack and cannot be allocated the result
    is U_MEMORY_ALLOCATION_ERROR. *)
Theorem sortArray_failures cmp malloc a n itemSize stable err :
  (U_FAILURE err = true ->
     uprv_sortArray malloc (Some a) n itemSize (Some cmp) stable (Some err) = Some (Some a, Some err)) /\
  (U_FAILURE err = false -> n < 0 \/ itemSize <= 0 ->
     uprv_sortArray malloc (Some a) n itemSize (Some cmp) stable (Some err)
     = Some (Some a, Some U_ILLEGAL_ARGUMENT_ERROR)) /\
  (U_FAILURE err = false -> 0 < n ->
     uprv_sortArray (A := A) malloc None n itemSize (Some cmp) stable (Some err)
     = Some (None, Some U_ILLEGAL_ARGUMENT_ERROR)) /\
  (U_FAILURE err = false -> 1 < n -> STACK_ITEM_SIZE < itemSize -> (forall k, malloc k = false) ->
     uprv_sortArray malloc (Some a) n itemSize (Some cmp) stable (Some err)
     = Some (Some a, Some U_MEMORY_ALLOCATION_ERROR)).
Proof.
  unfold uprv_sortArray. split_and!; [by intros ->|intros -> H|intros -> H|intros -> H1 H2 Hm].
  - assert ((n <? 0) || (itemSize <=? 0) = true) as ->; [|done].
    destruct H; [by rewrite Z_ltb_true|by rewrite (Z_leb_true itemSize), orb_true_r].
  - rewrite Z.gtb_ltb, Z_ltb_true by done. done.
  - unfold STACK_ITEM_SIZE in H2. rewrite Z_ltb_false, !Z_leb_false by lia. simpl.
    unfold insertionSort, quickSort, STACK_ITEM_SIZE.
    rewrite (Z_leb_false itemSize), !Hm by lia. by destruct ((n <? MIN_QSORT) || stable).
Qed.
End properties.

(** The sign of [uprv_int32Comparator] is not an order on the 32-bit range:
    its subtraction wraps around, so it puts -2 after 2^31-1. *)
Theorem int32Comparator_not_transitive :
  exists x y z, is_s32 x /\ is_s32 y /\ is_s32 z /\
    uprv_int32Comparator x y < 0 /\ uprv_int32Comparator y z < 0 /\
    0 < uprv_int32Comparator x z.
Proof. exists (-2), (2 ^ 30), (2 ^ 31 - 1). vm_compute. intuition discriminate. Qed.

(** ** Witnesses *)
Definition sample : list Z := [5; 3; 9; 1; 4; 20; 7; 6; 2; 0; 11; 13; 12; 3].


Lemma sortArray_stable_witness :
  exists a', uprv_sortArray (fun _ => true) (Some sample) (zlen sample) 4
      (Some uprv_uint32Comparator) true (Some 0) = Some (Some a', Some 0) /\
    equal_items uprv_uint32Comparator 3 a' = equal_items uprv_uint32Comparator 3 sample.
Proof.
  apply (sortArray_stable uprv_uint32Comparator (fun _ => true) sample 4 0 3 _);
    [vm_compute; discriminate|lia|reflexivity|left; vm_compute; discriminate].
Defined.

Lemma stableBinarySearch_correct_witness :
  exists r, uprv_stableBinarySearch uprv_uint32Comparator [1; 3; 3; 7] (zlen [1; 3; 3; 7]) 3 = Some r /\
    (0 <= r -> r < zlen [1; 3; 3; 7] /\
       (forall y, [1; 3; 3; 7].[r] = Some y -> uprv_uint32Comparator 3 y = 0) /\
       all_range (fun y => uprv_uint32Comparator 3 y < 0) [1; 3; 3; 7] (r + 1) (zlen [1; 3; 3; 7])) /\
    (r < 0 -> 0 <= Z.lnot r <= zlen [1; 3; 3; 7] /\
       all_range (fun y => 0 < uprv_uint32Comparator 3 y) [1; 3; 3; 7] 0 (Z.lnot r) /\
       all_range (fun y => uprv_uint32Comparator 3 y < 0) [1; 3; 3; 7] (Z.lnot r) (zlen [1; 3; 3; 7])).
Proof.
  apply (stableBinarySearch_correct uprv_uint32Comparator [1; 3; 3; 7] 3 _);
    [vm_compute; discriminate|repeat constructor; by vm_compute].
Defined.
