(* ===== verification/Utf8.v ===== *)
(** * Utf8: UTF-8 string handling (src/Source/icu/utf_impl.c, unicode/utf8.h)

    A byte string is a list of bytes; the functions take the index they start
    at and return the index they stop at, [None] is a read or a write outside
    the string.  [length < 0] stands for a NUL-terminated string, whose list
    then ends with the NUL. *)
From S2P Require Import Prelude.
Local Open Scope Z_scope.

Definition U_SENTINEL : Z := -1.

Definition utf8_countTrailBytes : list Z :=
  replicate 192 0 ++ replicate 32 1 ++ replicate 16 2 ++ replicate 5 3 ++ replicate 3 3 ++
  replicate 4 4 ++ replicate 2 5 ++ replicate 2 0.

Definition utf8_minLegal : list Z := [0; 0x80; 0x800; 0x10000].
Definition utf8_errorValue : list Z := [0x15; 0x9f; 0xffff; 0x10ffff; 0x3ffffff; 0x7fffffff].

(** ** Macros *)
Definition U_IS_UNICODE_NONCHAR (c : Z) : bool :=
  (0xfdd0 <=? c) && ((u32 c <=? 0xfdef) || (Z.land c 0xfffe =? 0xfffe)) && (u32 c <=? 0x10ffff).
Definition U_IS_SURROGATE (c : Z) : bool := Z.land c 0xfffff800 =? 0xd800.

Definition U8_COUNT_TRAIL_BYTES (leadByte : Z) : Z :=
  if u8 leadByte <? 0xf0 then Z.b2z (0xc0 <=? u8 leadByte) + Z.b2z (0xe0 <=? u8 leadByte)
  else if u8 leadByte <? 0xfe then 3 + Z.b2z (0xf8 <=? u8 leadByte) + Z.b2z (0xfc <=? u8 leadByte)
  else 0.
Definition U8_MASK_LEAD_BYTE (leadByte countTrailBytes : Z) : Z :=
  Z.land leadByte (Z.shiftl 1 (6 - countTrailBytes) - 1).
Definition U8_IS_LEAD (c : Z) : bool := u8 (c - 0xc0) <? 0x3e.
Definition U8_IS_TRAIL (c : Z) : bool := Z.land c 0xc0 =? 0x80.

(** ** utf_impl.c *)
Definition errorValue (count strict : Z) : option Z :=
  if 0 <=? strict then utf8_errorValue.[count]
  else if strict =? -3 then Some 0xfffd
  else Some U_SENTINEL.

(** The cases of the switch, which fall through from 3 to 1; the inner [None] is
    a [break] to the error handling. *)
Definition next_case1 (s : list Z) (i c count strict : Z) : option (option (Z * Z)) :=
  b ← s.[i];
  let trail := u8 (b - 0x80) in
  let c := Z.lor (Z.shiftl c 6) trail in
  if trail >? 0x3f then Some None
  else
    minLegal ← utf8_minLegal.[count];
    Some (if (c >=? minLegal) && ((strict <=? 0) || negb (U_IS_UNICODE_NONCHAR c))
          then Some (c, i + 1) else None).

Definition next_case2 (s : list Z) (i c count strict : Z) : option (option (Z * Z)) :=
  b ← s.[i];
  let trail := u8 (b - 0x80) in
  let c := Z.lor (Z.shiftl c 6) trail in
  if ((Z.land c 0xffe0 =? 0x360) && negb (strict =? -2)) || (trail >? 0x3f) then Some None
  else next_case1 s (i + 1) c count strict.

Definition next_case3 (s : list Z) (i c count strict : Z) : option (option (Z * Z)) :=
  b ← s.[i];
  let trail := u8 (b - 0x80) in
  let c := Z.lor (Z.shiftl c 6) trail in
  if (c >=? 0x110) || (trail >? 0x3f) then Some None
  else next_case2 s (i + 1) c count strict.

Definition next_switch (s : list Z) (i c count strict : Z) : option (option (Z * Z)) :=
  if count =? 3 then next_case3 s i c count strict
  else if count =? 2 then next_case2 s i c count strict
  else if count =? 1 then next_case1 s i c count strict
  else Some None.

(** [while(count>0 && U8_IS_TRAIL(s[i])) { ++i; --count; }] *)
Fixpoint skipTrail (count : nat) (s : list Z) (i : Z) : option Z :=
  match count with
  | O => Some i
  | S count =>
      b ← s.[i];
      if U8_IS_TRAIL b then skipTrail count s (i + 1) else Some i
  end.

Definition utf8_nextCharSafeBody (s : list Z) (pi length c strict : Z) : option (Z * Z) :=
  let i := pi in
  let count := U8_COUNT_TRAIL_BYTES c in
  let enough := (i + count <=? length) || (length <? 0) in
  r ← (if enough then next_switch s i (U8_MASK_LEAD_BYTE c count) count strict else Some None);
  match r with
  | Some (c, i) => Some (c, i)
  | None =>
      let count := if enough then count else u8 (length - i) in
      i ← skipTrail (Z.to_nat count) s pi;
      c ← errorValue (i - pi) strict;
      Some (c, i)
  end.

(** [s[i++]=b] *)
Definition put_byte (si : list Z * Z) (b : Z) : option (list Z * Z) :=
  s ← zset (fst si) (snd si) b; Some (s, snd si + 1).

Definition UTF8_APPEND_CHAR_UNSAFE (s : list Z) (i c : Z) : option (list Z * Z) :=
  if u32 c <=? 0x7f then put_byte (s, i) (u8 c)
  else
    si ← (if u32 c <=? 0x7ff then put_byte (s, i) (u8 (Z.lor (Z.shiftr c 6) 0xc0))
          else
            si ← (if u32 c <=? 0xffff then put_byte (s, i) (u8 (Z.lor (Z.shiftr c 12) 0xe0))
                  else
                    si ← put_byte (s, i) (u8 (Z.lor (Z.shiftr c 18) 0xf0));
                    put_byte si (u8 (Z.lor (Z.land (Z.shiftr c 12) 0x3f) 0x80)));
            put_byte si (u8 (Z.lor (Z.land (Z.shiftr c 6) 0x3f) 0x80)));
    put_byte si (u8 (Z.lor (Z.land c 0x3f) 0x80)).

(** [pIsError] is [None] for NULL, or the flag it points to. *)
Definition utf8_appendCharSafeBody (s : list Z) (i length c : Z) (pIsError : option bool)
    : option (list Z * Z * option bool) :=
  let error :=
    match pIsError with
    | Some _ => Some (s, i, Some true)
    | None =>
        let length := length - i in
        if length >? 0 then
          let length := if length >? 3 then 3 else length in
          c ← utf8_errorValue.[length - 1];
          '(s, i) ← UTF8_APPEND_CHAR_UNSAFE s i c;
          Some (s, i, None)
        else Some (s, i, None)
    end in
  if u32 c <=? 0x7ff then
    if i + 1 <? length then
      si ← put_byte (s, i) (u8 (Z.lor (Z.shiftr c 6) 0xc0));
      '(s, i) ← put_byte si (u8 (Z.lor (Z.land c 0x3f) 0x80));
      Some (s, i, pIsError)
    else error
  else if u32 c <=? 0xffff then
    if (i + 2 <? length) && negb (U_IS_SURROGATE c) then
      si ← put_byte (s, i) (u8 (Z.lor (Z.shiftr c 12) 0xe0));
      si ← put_byte si (u8 (Z.lor (Z.land (Z.shiftr c 6) 0x3f) 0x80));
      '(s, i) ← put_byte si (u8 (Z.lor (Z.land c 0x3f) 0x80));
      Some (s, i, pIsError)
    else error
  else if u32 c <=? 0x10ffff then
    if i + 3 <? length then
      si ← put_byte (s, i) (u8 (Z.lor (Z.shiftr c 18) 0xf0));
      si ← put_byte si (u8 (Z.lor (Z.land (Z.shiftr c 12) 0x3f) 0x80));
      si ← put_byte si (u8 (Z.lor (Z.land (Z.shiftr c 6) 0x3f) 0x80));
      '(s, i) ← put_byte si (u8 (Z.lor (Z.land c 0x3f) 0x80));
      Some (s, i, pIsError)
    else error
  else error.

(** The loop of [utf8_prevCharSafeBody]: the result and the new [*pi]. *)
Fixpoint prev_loop (fuel : nat) (s : list Z) (start pi i c strict count shift : Z)
    : option (Z * Z) :=
  match fuel with
  | O => None
  | S fuel =>
      if i <=? start then c ← errorValue 0 strict; Some (c, pi)
      else
        let i := i - 1 in
        b ← s.[i];
        if u8 (b - 0x80) <? 0x7e then
          if negb (Z.land b 0x40 =? 0) then
            let shouldCount := U8_COUNT_TRAIL_BYTES b in
            if count =? shouldCount then
              let b := U8_MASK_LEAD_BYTE b count in
              let c := Z.lor c (Z.shiftl b shift) in
              minLegal ← (if count >=? 4 then Some 0 else utf8_minLegal.[count]);
              if (count >=? 4) || (c >? 0x10ffff) || (c <? minLegal)
                 || (U_IS_SURROGATE c && negb (strict =? -2))
                 || ((strict >? 0) && U_IS_UNICODE_NONCHAR c)
              then c ← errorValue (if count >=? 4 then 3 else count) strict; Some (c, i)
              else Some (c, i)
            else if count <? shouldCount then c ← errorValue count strict; Some (c, i)
            else c ← errorValue 0 strict; Some (c, pi)
          else if count <? 5 then
            prev_loop fuel s start pi i (Z.lor c (Z.shiftl (Z.land b 0x3f) shift)) strict
              (count + 1) (shift + 6)
          else c ← errorValue 0 strict; Some (c, pi)
        else c ← errorValue 0 strict; Some (c, pi)
  end.

Definition utf8_prevCharSafeBody (s : list Z) (start pi c strict : Z) : option (Z * Z) :=
  if negb (U8_IS_TRAIL c) then c ← errorValue 0 strict; Some (c, pi)
  else prev_loop 5 s start pi pi (Z.land c 0x3f) strict 1 6.

Fixpoint back1_loop (fuel : nat) (s : list Z) (i I Z' : Z) : option Z :=
  match fuel with
  | O => None
  | S fuel =>
      b ← s.[I];
      if u8 (b - 0x80) >=? 0x7e then Some i
      else if (b >=? 0xc0) then
        if U8_COUNT_TRAIL_BYTES b >=? i - I then Some I else Some i
      else if Z' <=? I - 1 then back1_loop fuel s i (I - 1) Z' else Some i
  end.

Definition utf8_back1SafeBody (s : list Z) (start i : Z) : option Z :=
  let Z' := if i - 5 >? start then i - 5 else start in
  back1_loop 6 s i i Z'.

(** ** unicode/utf8.h: iteration *)
Definition U8_NEXT (s : list Z) (i length : Z) : option (Z * Z) :=
  c ← s.[i];
  let i := i + 1 in
  if c >=? 0x80 then
    inline3 ← (if (0xe0 <? c) && (c <=? 0xec) && ((i + 1 <? length) || (length <? 0)) then
        b1 ← s.[i];
        if u8 (b1 - 0x80) <=? 0x3f then
          b2 ← s.[i + 1];
          Some (if u8 (b2 - 0x80) <=? 0x3f
                then Some (u8 (b1 - 0x80), u8 (b2 - 0x80)) else None)
        else Some None
      else Some None);
    match inline3 with
    | Some (t1, t2) => Some (u16 (Z.lor (Z.lor (Z.shiftl c 12) (Z.shiftl t1 6)) t2), i + 2)
    | None =>
        inline2 ← (if (c <? 0xe0) && (c >=? 0xc2) && negb (i =? length) then
            b1 ← s.[i];
            Some (if u8 (b1 - 0x80) <=? 0x3f then Some (u8 (b1 - 0x80)) else None)
          else Some None);
        match inline2 with
        | Some t1 => Some (Z.lor (Z.shiftl (Z.land c 0x1f) 6) t1, i + 1)
        | None => utf8_nextCharSafeBody s i length c (-1)
        end
    end
  else Some (c, i).

Definition U8_FWD_1 (s : list Z) (i length : Z) : option Z :=
  b ← s.[i];
  let i := i + 1 in
  if U8_IS_LEAD b then
    let count := U8_COUNT_TRAIL_BYTES b in
    let count := if (i + count >? length) && (length >=? 0) then u8 (length - i) else count in
    skipTrail (Z.to_nat count) s i
  else Some i.

Definition U8_APPEND (s : list Z) (i capacity c : Z) (isError : bool)
    : option (list Z * Z * bool) :=
  if u32 c <=? 0x7f then
    '(s, i) ← put_byte (s, i) (u8 c); Some (s, i, isError)
  else if (u32 c <=? 0x7ff) && (i + 1 <? capacity) then
    si ← put_byte (s, i) (u8 (Z.lor (Z.shiftr c 6) 0xc0));
    '(s, i) ← put_byte si (u8 (Z.lor (Z.land c 0x3f) 0x80));
    Some (s, i, isError)
  else if (u32 c <=? 0xd7ff) && (i + 2 <? capacity) then
    si ← put_byte (s, i) (u8 (Z.lor (Z.shiftr c 12) 0xe0));
    si ← put_byte si (u8 (Z.lor (Z.land (Z.shiftr c 6) 0x3f) 0x80));
    '(s, i) ← put_byte si (u8 (Z.lor (Z.land c 0x3f) 0x80));
    Some (s, i, isError)
  else
    '(s, i, e) ← utf8_appendCharSafeBody s i capacity c (Some isError);
    Some (s, i, default isError e).

Definition U8_PREV (s : list Z) (start i : Z) : option (Z * Z) :=
  let i := i - 1 in
  c ← s.[i];
  if c >=? 0x80 then utf8_prevCharSafeBody s start i c (-1) else Some (c, i).

Definition U8_BACK_1 (s : list Z) (start i : Z) : option Z :=
  let i := i - 1 in
  b ← s.[i];
  if U8_IS_TRAIL b then utf8_back1SafeBody s start i else Some i.

Example next_euro : U8_NEXT [0xe2; 0x82; 0xac; 0x41] 0 4 = Some (0x20ac, 3).
Proof. reflexivity. Qed.
Example next_surrogate : U8_NEXT [0xed; 0xa0; 0x80; 0x41] 0 4 = Some (-1, 3).
Proof. reflexivity. Qed.
Example prev_smiley : U8_PREV [0xf0; 0x9f; 0x98; 0x80] 0 4 = Some (0x1f600, 0).
Proof. reflexivity. Qed.
