(* ===== verification/Utf8Facts.v ===== *)
(** * Utf8Facts: the UTF-8 macros against the encoding form of the standard *)
From S2P Require Import Prelude Utf8.
Local Open Scope Z_scope.

(** ** The specification *)

(** The UTF-8 encoding form; surrogates get the three-byte form that lenient
    decoders accept. *)
Definition utf8_encode (c : Z) : list Z :=
  if c <? 0x80 then [c]
  else if c <? 0x800 then [0xc0 + c / 0x40; 0x80 + c mod 0x40]
  else if c <? 0x10000 then [0xe0 + c / 0x1000; 0x80 + c / 0x40 mod 0x40; 0x80 + c mod 0x40]
  else [0xf0 + c / 0x40000; 0x80 + c / 0x1000 mod 0x40; 0x80 + c / 0x40 mod 0x40; 0x80 + c mod 0x40].

Definition surrogate (c : Z) : Prop := 0xd800 <= c <= 0xdfff.
Definition scalar (c : Z) : Prop := 0 <= c <= 0x10ffff /\ ~ surrogate c.

(** The code points that [strict] lets through. *)
Definition legal (strict c : Z) : Prop :=
  0 <= c <= 0x10ffff /\ (strict = -2 \/ ~ surrogate c) /\
  (strict <= 0 \/ U_IS_UNICODE_NONCHAR c = false).

Lemma legal_scalar c : legal (-1) c <-> scalar c.
Proof. unfold legal, scalar. intuition lia. Qed.

(** How a string is given: with its length, or NUL-terminated. *)
Definition readable (s : list Z) (length : Z) : Prop :=
  length = zlen s \/ (length < 0 /\ last s = Some 0).

(** [n] bytes can be read from [i] on, or those up to a NUL. *)
Definition avail (s : list Z) (i n : Z) : Prop :=
  i + n <= zlen s \/ (last s = Some 0 /\ i < zlen s).

Lemma last_zget (s : list Z) (x : Z) : last s = Some x -> s.[zlen s - 1] = Some x.
Proof.
  rewrite last_lookup. intros H. apply zget_Some. unfold zlen.
  pose proof (lookup_lt_Some _ _ _ H). split; [lia|]. rewrite <- H. f_equal. lia.
Qed.

Lemma avail_get s i n :
  0 <= i -> 0 < n -> avail s i n -> exists b, s.[i] = Some b /\ (b <> 0 -> avail s (i + 1) (n - 1)).
Proof.
  intros Hi Hn [Hlen|[Hlast Hlt]].
  - destruct (zget_is_Some s i) as [b Hb]; [lia|]. exists b. split; [done|]. left. lia.
  - destruct (zget_is_Some s i) as [b Hb]; [lia|]. exists b. split; [done|]. intros Hb0. right.
    split; [done|]. apply last_zget in Hlast. assert (i <> zlen s - 1) by congruence. lia.
Qed.

(** ** Bytes *)
Definition is_trail (b : Z) : bool := (0x80 <=? b) && (b <=? 0xbf).

Lemma byte_check (P : Z -> bool) b : forallb P (seqZ 0 256) = true -> is_u8 b -> P b = true.
Proof. intros H Hb. apply (forallb_seqZ P 0 256); [done|]. unfold is_u8 in Hb. lia. Qed.

Lemma U8_IS_TRAIL_spec b : is_u8 b -> U8_IS_TRAIL b = is_trail b.
Proof.
  intros Hb. apply eqb_prop.
  apply (byte_check (fun b => Bool.eqb (U8_IS_TRAIL b) (is_trail b))); [|done]. by vm_compute.
Qed.

Lemma u8_trail b : is_u8 b -> u8 (b - 0x80) = if b <? 0x80 then b + 0x80 else b - 0x80.
Proof.
  unfold is_u8, u8. intros. destruct (b <? 0x80) eqn:E; bool_prop;
    Z.to_euclidean_division_equations; lia.
Qed.

(** [trail > 0x3f] *)
Lemma trail_gtb b : is_u8 b -> (u8 (b - 0x80) >? 0x3f) = negb (is_trail b).
Proof.
  intros Hb. apply eqb_prop.
  apply (byte_check (fun b => Bool.eqb (u8 (b - 0x80) >? 0x3f) (negb (is_trail b)))); [|done].
  by vm_compute.
Qed.

Lemma trail_leb b : is_u8 b -> (u8 (b - 0x80) <=? 0x3f) = is_trail b.
Proof.
  intros Hb. apply eqb_prop.
  apply (byte_check (fun b => Bool.eqb (u8 (b - 0x80) <=? 0x3f) (is_trail b))); [|done].
  by vm_compute.
Qed.

Lemma trail_value b : is_trail b = true -> u8 (b - 0x80) = b - 0x80.
Proof. unfold is_trail, u8. intros. bool_prop. rewrite Z.mod_small; lia. Qed.

(** Adding the six bits of a trail byte. *)
Lemma shift_trail c b :
  is_trail b = true -> Z.lor (Z.shiftl c 6) (u8 (b - 0x80)) = c * 0x40 + (b - 0x80).
Proof.
  intros Ht. rewrite trail_value by done. unfold is_trail in Ht. bool_prop.
  rewrite Z_lor_shiftl by lia. lia.
Qed.

Lemma surrogate_test c : 0 <= c < 2 ^ 16 -> (Z.land c 0xffe0 =? 0x360) = (0x360 <=? c) && (c <=? 0x37f).
Proof.
  intros Hc. change 0xffe0 with (Z.shiftl (2 ^ 11 - 1) 5). rewrite Z_land_field by lia.
  apply eq_bool_prop_intro. rewrite !Is_true_true, andb_true_iff, Z.eqb_eq, !Z.leb_le.
  Z.to_euclidean_division_equations; lia.
Qed.

Lemma U_IS_SURROGATE_spec c : 0 <= c < 2 ^ 32 -> U_IS_SURROGATE c = true <-> surrogate c.
Proof.
  intros Hc. unfold U_IS_SURROGATE, surrogate. change 0xfffff800 with (Z.shiftl (2 ^ 21 - 1) 11).
  rewrite Z_land_field, Z.eqb_eq by lia. Z.to_euclidean_division_equations; lia.
Qed.

Lemma count_trail b :
  is_u8 b -> U8_COUNT_TRAIL_BYTES b =
    (if b <? 0xc0 then 0 else if b <? 0xe0 then 1 else if b <? 0xf0 then 2
     else if b <? 0xf8 then 3 else if b <? 0xfc then 4 else if b <? 0xfe then 5 else 0).
Proof.
  intros Hb. unfold U8_COUNT_TRAIL_BYTES, u8, Z.b2z. rewrite Z.mod_small by done.
  unfold is_u8 in Hb. repeat if_cases; bool_prop; lia.
Qed.

(** The table and the macro agree. *)
Lemma countTrailBytes_table b : is_u8 b -> utf8_countTrailBytes.[b] = Some (U8_COUNT_TRAIL_BYTES b).
Proof.
  intros Hb.
  pose proof (byte_check (fun b => match utf8_countTrailBytes.[b] with
    | Some n => n =? U8_COUNT_TRAIL_BYTES b | None => false end) b ltac:(by vm_compute) Hb) as H.
  simpl in H. destruct (utf8_countTrailBytes.[b]); [|done]. bool_prop. by subst.
Qed.

Lemma mask_lead b k : 0 <= k <= 6 -> U8_MASK_LEAD_BYTE b k = b mod 2 ^ (6 - k).
Proof. intros. unfold U8_MASK_LEAD_BYTE. rewrite Z.shiftl_mul_pow2, Z.mul_1_l, Z_land_ones by lia. done. Qed.

(** ** Decoding forwards *)
Lemma next_case1_spec s i b c count m strict :
  s.[i] = Some b -> is_u8 b -> utf8_minLegal.[count] = Some m ->
  next_case1 s i c count strict =
    Some (let c := c * 0x40 + (b - 0x80) in
          if is_trail b && (m <=? c) && ((strict <=? 0) || negb (U_IS_UNICODE_NONCHAR c))
          then Some (c, i + 1) else None).
Proof.
  intros Hi Hb Hm. unfold next_case1. rewrite Hi. mstep. rewrite trail_gtb by done.
  destruct (is_trail b) eqn:Ht; cbn [negb andb]; [|done].
  rewrite Hm. mstep. by rewrite shift_trail, Z.geb_leb.
Qed.

Lemma next_case2_spec s i b c count strict :
  s.[i] = Some b -> is_u8 b -> 0 <= c < 2 ^ 10 ->
  next_case2 s i c count strict =
    let c := c * 0x40 + (b - 0x80) in
    if is_trail b && (strict =? -2) || is_trail b && negb ((0x360 <=? c) && (c <=? 0x37f))
    then next_case1 s (i + 1) c count strict else Some None.
Proof.
  intros Hi Hb Hc. unfold next_case2. rewrite Hi. mstep. rewrite trail_gtb by done.
  destruct (is_trail b) eqn:Ht; cbn [negb andb orb]; [|by rewrite orb_true_r].
  pose proof Ht as Ht'. unfold is_trail in Ht'. bool_prop.
  rewrite shift_trail, surrogate_test, orb_false_r by (done || lia). cbv zeta.
  destruct ((0x360 <=? _) && _), (strict =? -2); done.
Qed.

Lemma next_case3_spec s i b c count strict :
  s.[i] = Some b -> is_u8 b ->
  next_case3 s i c count strict =
    let c := c * 0x40 + (b - 0x80) in
    if is_trail b && (c <? 0x110) then next_case2 s (i + 1) c count strict else Some None.
Proof.
  intros Hi Hb. unfold next_case3. rewrite Hi. mstep. rewrite trail_gtb by done.
  destruct (is_trail b) eqn:Ht; cbn [negb andb]; [|by rewrite orb_true_r].
  rewrite shift_trail, orb_false_r, Z.geb_leb by done. cbv zeta.
  rewrite Z.ltb_antisym. by destruct (0x110 <=? _).
Qed.

(** [ts] is what [s] holds from [i] on. *)
Definition slice (s : list Z) (i : Z) (ts : list Z) : Prop :=
  forall k t, ts.[k] = Some t -> s.[i + k] = Some t.

Lemma slice_nil s i : slice s i [].
Proof. intros k t H%zget_lt. zlia. Qed.

Lemma slice_cons s i t ts : s.[i] = Some t -> slice s (i + 1) ts -> slice s i (t :: ts).
Proof.
  intros Hi Hs k t' Hk. pose proof (zget_lt _ _ _ Hk). destruct (decide (k = 0)) as [->|].
  - rewrite Z.add_0_r. by injection Hk as <-.
  - replace (i + k) with (i + 1 + (k - 1)) by lia. apply Hs.
    change (t :: ts) with ([t] ++ ts) in Hk. by rewrite zget_app_r in Hk by zlia.
Qed.

Lemma encode2 c b :
  0xc0 <= c < 0xe0 -> is_trail b = true -> 0x80 <= c mod 2 ^ 5 * 0x40 + (b - 0x80) ->
  utf8_encode (c mod 2 ^ 5 * 0x40 + (b - 0x80)) = [c; b].
Proof.
  unfold is_trail. intros. bool_prop. assert (c mod 2 ^ 5 = c - 0xc0) as Hm.
  { Z.to_euclidean_division_equations; lia. }
  rewrite Hm in *. unfold utf8_encode. rewrite Z_ltb_false, Z_ltb_true by lia.
  f_equal; [|f_equal]; Z.to_euclidean_division_equations; lia.
Qed.

Lemma encode3 c b1 b2 :
  0xe0 <= c < 0xf0 -> is_trail b1 = true -> is_trail b2 = true ->
  0x800 <= (c mod 2 ^ 4 * 0x40 + (b1 - 0x80)) * 0x40 + (b2 - 0x80) ->
  utf8_encode ((c mod 2 ^ 4 * 0x40 + (b1 - 0x80)) * 0x40 + (b2 - 0x80)) = [c; b1; b2].
Proof.
  unfold is_trail. intros. bool_prop. assert (c mod 2 ^ 4 = c - 0xe0) as Hm.
  { Z.to_euclidean_division_equations; lia. }
  rewrite Hm in *. unfold utf8_encode. rewrite !Z_ltb_false, Z_ltb_true by lia.
  f_equal; [|f_equal; [|f_equal]]; Z.to_euclidean_division_equations; lia.
Qed.

Lemma encode4 c b1 b2 b3 :
  0xf0 <= c < 0xf8 -> is_trail b1 = true -> is_trail b2 = true -> is_trail b3 = true ->
  0x10000 <= ((c mod 2 ^ 3 * 0x40 + (b1 - 0x80)) * 0x40 + (b2 - 0x80)) * 0x40 + (b3 - 0x80) ->
  utf8_encode (((c mod 2 ^ 3 * 0x40 + (b1 - 0x80)) * 0x40 + (b2 - 0x80)) * 0x40 + (b3 - 0x80))
  = [c; b1; b2; b3].
Proof.
  unfold is_trail. intros. bool_prop. assert (c mod 2 ^ 3 = c - 0xf0) as Hm.
  { Z.to_euclidean_division_equations; lia. }
  rewrite Hm in *. unfold utf8_encode. rewrite !Z_ltb_false by lia.
  f_equal; [|f_equal; [|f_equal; [|f_equal]]]; Z.to_euclidean_division_equations; lia.
Qed.

(** What the switch returns for the lead byte [c]: the trail bytes it has read
    make up the encoding of a legal code point. *)
Definition decoded (s : list Z) (i c count strict : Z) (r : option (Z * Z)) : Prop :=
  match r with
  | Some (c', j) => exists ts, slice s i ts /\ utf8_encode c' = c :: ts /\ zlen ts = count /\
      j = i + count /\ legal strict c' /\ Forall (fun b => is_trail b = true) ts
  | None => True
  end.

Lemma decoded_intro s i c count strict c' j ts :
  slice s i ts -> utf8_encode c' = c :: ts -> zlen ts = count -> j = i + count ->
  0 <= c' <= 0x10ffff -> strict = -2 \/ ~ surrogate c' ->
  (strict <=? 0) = true \/ negb (U_IS_UNICODE_NONCHAR c') = true ->
  Forall (fun b => is_trail b = true) ts -> decoded s i c count strict (Some (c', j)).
Proof.
  intros ? ? ? ? ? ? H ?. exists ts. repeat (split; [done|]). split; [|done].
  split; [done|split; [done|]]. destruct H; bool_prop; auto.
Qed.

Section forward.
Context (s : list Z) (Hs : Forall is_u8 s).

Lemma byte_at i b : s.[i] = Some b -> is_u8 b.
Proof. intros [_ H]%zget_Some. by apply (Forall_lookup_1 _ _ _ _ Hs H). Qed.

Lemma trail_nonzero b : is_trail b = true -> b <> 0.
Proof. unfold is_trail. intros. bool_prop. lia. Qed.

Lemma case1_decoded i c strict :
  0 <= i -> avail s i 1 -> 0xc0 <= c < 0xe0 ->
  exists r, next_case1 s i (c mod 2 ^ 5) 1 strict = Some r /\ decoded s i c 1 strict r.
Proof.
  intros Hi Hav Hc. destruct (avail_get s i 1 Hi eq_refl Hav) as (b & Hb & _).
  rewrite (next_case1_spec s i b _ 1 0x80) by eauto using byte_at.
  eexists. split; [done|]. cbv zeta. if_cases; [|done]. bool_prop.
  apply decoded_intro with [b]; eauto using slice_cons, slice_nil, encode2;
    unfold is_trail, surrogate in *; bool_prop; Z.to_euclidean_division_equations; lia.
Qed.

Lemma case2_decoded i c strict :
  0 <= i -> avail s i 2 -> 0xe0 <= c < 0xf0 ->
  exists r, next_case2 s i (c mod 2 ^ 4) 2 strict = Some r /\ decoded s i c 2 strict r.
Proof.
  intros Hi Hav Hc. destruct (avail_get s i 2 Hi eq_refl Hav) as (b1 & Hb1 & Hav1).
  assert (0 <= c mod 2 ^ 4 < 2 ^ 4) by (by apply Z.mod_pos_bound).
  rewrite (next_case2_spec s i b1) by (eauto using byte_at || lia). cbv zeta.
  if_cases; [|by exists None]. assert (is_trail b1 = true) as Ht1 by (destruct (is_trail b1); done).
  destruct (avail_get s (i + 1) 1) as (b2 & Hb2 & _); [lia|done|eauto using trail_nonzero|].
  rewrite (next_case1_spec s (i + 1) b2 _ 2 0x800) by eauto using byte_at.
  eexists. split; [done|]. cbv zeta. if_cases; [|done]. bool_prop.
  rewrite Ht1 in E. cbn [andb] in E.
  apply decoded_intro with [b1; b2]; eauto using slice_cons, slice_nil, encode3; [lia| |];
    unfold is_trail in *; bool_prop.
  - Z.to_euclidean_division_equations; lia.
  - unfold surrogate. destruct E as [E|E]; bool_prop; [by left|right].
    destruct E as [E|E]; bool_prop; lia.
Qed.

Lemma case3_decoded i c strict :
  0 <= i -> avail s i 3 -> 0xf0 <= c < 0xf8 ->
  exists r, next_case3 s i (c mod 2 ^ 3) 3 strict = Some r /\ decoded s i c 3 strict r.
Proof.
  intros Hi Hav Hc. destruct (avail_get s i 3 Hi eq_refl Hav) as (b1 & Hb1 & Hav1).
  assert (0 <= c mod 2 ^ 3 < 2 ^ 3) by (by apply Z.mod_pos_bound).
  rewrite (next_case3_spec s i b1) by eauto using byte_at. cbv zeta.
  destruct (is_trail b1) eqn:Ht1; cbn [andb]; [|by exists None].
  pose proof Ht1 as Ht1'. unfold is_trail in Ht1'. if_cases; [|by exists None]. bool_prop.
  destruct (avail_get s (i + 1) 2) as (b2 & Hb2 & Hav2); [lia|done|eauto using trail_nonzero|].
  rewrite (next_case2_spec s (i + 1) b2) by (eauto using byte_at || lia). cbv zeta.
  destruct (is_trail b2) eqn:Ht2; cbn [andb orb]; [|by exists None].
  if_cases; [|by exists None].
  destruct (avail_get s (i + 1 + 1) 1) as (b3 & Hb3 & _); [lia|done|apply Hav2; eauto using trail_nonzero|].
  rewrite (next_case1_spec s (i + 1 + 1) b3 _ 3 0x10000) by eauto using byte_at.
  eexists. split; [done|]. cbv zeta. if_cases; [|done]. bool_prop.
  apply decoded_intro with [b1; b2; b3]; eauto using slice_cons, slice_nil, encode4;
    unfold is_trail, surrogate in *; bool_prop; lia.
Qed.

(** The switch never reads outside the string, and what it accepts is the
    encoding of a legal code point. *)
Lemma next_switch_spec i c strict :
  0 <= i -> is_u8 c -> avail s i (U8_COUNT_TRAIL_BYTES c) ->
  let count := U8_COUNT_TRAIL_BYTES c in
  exists r, next_switch s i (U8_MASK_LEAD_BYTE c count) count strict = Some r /\
    decoded s i c count strict r.
Proof.
  intros Hi Hc Hav. cbv zeta. rewrite count_trail in * by done. unfold is_u8 in Hc.
  rewrite mask_lead by (repeat if_cases; lia). unfold next_switch.
  repeat (if_cases; bool_prop); try (by exists None);
    (apply case1_decoded || apply case2_decoded || apply case3_decoded); done || lia.
Qed.

Lemma skipTrail_spec n i :
  0 <= i <= zlen s -> avail s i (Z.of_nat n) \/ n = O ->
  exists j, skipTrail n s i = Some j /\ i <= j <= i + Z.of_nat n /\ j <= zlen s.
Proof.
  revert i. induction n as [|n IH]; intros i Hi Hav; [exists i; split; [done|lia]|].
  destruct Hav as [Hav|]; [|done]. cbn [skipTrail].
  destruct (avail_get s i (Z.of_nat (S n))) as (b & Hb & Hav'); [lia|lia|done|].
  rewrite Hb. mstep. rewrite U8_IS_TRAIL_spec by eauto using byte_at.
  pose proof (zget_lt _ _ _ Hb). destruct (is_trail b) eqn:Ht; [|exists i; split; [done|lia]].
  destruct (IH (i + 1)) as (j & -> & Hj & Hj'); [lia| |exists j; split; [done|lia]].
  left. replace (Z.of_nat n) with (Z.of_nat (S n) - 1) by lia. eauto using trail_nonzero.
Qed.

Lemma slice_tail i t ts : slice s i (t :: ts) -> s.[i] = Some t /\ slice s (i + 1) ts.
Proof.
  intros H. split; [rewrite <- (Z.add_0_r i); by apply H|]. intros k x Hk.
  replace (i + 1 + k) with (i + (k + 1)) by lia. apply H. pose proof (zget_lt _ _ _ Hk).
  change (t :: ts) with ([t] ++ ts). rewrite zget_app_r by zlia. rewrite <- Hk. f_equal. zlia.
Qed.

Lemma skipTrail_all ts i :
  slice s i ts -> Forall (fun b => is_trail b = true) ts ->
  skipTrail (length ts) s i = Some (i + zlen ts).
Proof.
  intros Hsl Ht. revert i Hsl. induction Ht as [|t ts Ht _ IH]; intros i Hsl; cbn [length skipTrail].
  - f_equal. zlia.
  - apply slice_tail in Hsl as [Hi Hsl]. rewrite Hi. mstep.
    rewrite U8_IS_TRAIL_spec, Ht by eauto using byte_at. rewrite IH by done. f_equal. zlia.
Qed.

(** The number of trail bytes that a lead byte asks for and the string can have. *)
Definition wanted (i length c : Z) : Z :=
  let count := U8_COUNT_TRAIL_BYTES c in
  if (i + count >? length) && (length >=? 0) then u8 (length - i) else count.

Lemma count_range c : is_u8 c -> 0 <= U8_COUNT_TRAIL_BYTES c <= 5.
Proof. intros. rewrite count_trail by done. repeat if_cases; lia. Qed.

Lemma wanted_avail i length c :
  readable s length -> 0 <= i <= zlen s -> i < zlen s \/ 0 <= length -> is_u8 c ->
  avail s i (wanted i length c) /\ 0 <= wanted i length c.
Proof.
  intros Hr Hi Hi' Hc. pose proof (count_range c Hc). unfold wanted, avail. cbv zeta.
  destruct ((_ >? _) && _) eqn:E; bool_prop.
  - unfold u8. rewrite Z.mod_small by (destruct Hr; lia). destruct Hr as [->|[? _]]; lia.
  - destruct Hr as [->|[Hl Hlast]]; [|split; [right; split; [done|lia]|lia]].
    destruct E; bool_prop; zlia.
Qed.

Lemma wanted_max i length c :
  readable s length -> i <= zlen s -> is_u8 c -> wanted i length c <= 5.
Proof.
  intros Hr Hi Hc. pose proof (count_range c Hc). unfold wanted, u8. cbv zeta.
  if_cases; bool_prop; [|lia]. rewrite Z.mod_small; destruct Hr; lia.
Qed.

Lemma errorValue_total count strict :
  0 <= count <= 5 -> exists e, errorValue count strict = Some e.
Proof.
  intros. unfold errorValue. repeat if_cases; eauto. apply zget_is_Some.
  change (zlen utf8_errorValue) with 6. lia.
Qed.

(** The body of [U8_NEXT]: it stops where skipping the trail bytes stops, with
    the legal code point encoded there or the error value. *)
Lemma nextCharSafeBody_spec pi length c strict :
  readable s length -> 0 <= pi <= zlen s -> pi < zlen s \/ 0 <= length -> is_u8 c ->
  exists r j, utf8_nextCharSafeBody s pi length c strict = Some (r, j) /\
    skipTrail (Z.to_nat (wanted pi length c)) s pi = Some j /\ pi <= j <= zlen s /\ j <= pi + 5 /\
    (decoded s pi c (U8_COUNT_TRAIL_BYTES c) strict (Some (r, j)) \/ errorValue (j - pi) strict = Some r).
Proof.
  intros Hr Hpi Hpi' Hc. pose proof (count_range c Hc) as Hcount.
  destruct (wanted_avail pi length c Hr Hpi Hpi' Hc) as [Hav Hw].
  pose proof (wanted_max pi length c Hr ltac:(lia) Hc) as Hw5.
  destruct (skipTrail_spec (Z.to_nat (wanted pi length c)) pi) as (j & Hj & Hj1 & Hj2).
  { done. }
  { left. by rewrite Z2Nat.id. }
  destruct (errorValue_total (j - pi) strict) as [e He]; [lia|].
  unfold utf8_nextCharSafeBody. cbv zeta.
  assert (((pi + U8_COUNT_TRAIL_BYTES c <=? length) || (length <? 0))
          = negb ((pi + U8_COUNT_TRAIL_BYTES c >? length) && (length >=? 0))) as ->.
  { rewrite negb_andb, Z.gtb_ltb, Z.geb_leb, <- Z.leb_antisym, <- Z.ltb_antisym. done. }
  assert (forall b : bool, b = (pi + U8_COUNT_TRAIL_BYTES c >? length) && (length >=? 0) ->
    (if negb b then U8_COUNT_TRAIL_BYTES c else u8 (length - pi)) = wanted pi length c) as Hcnt.
  { unfold wanted. cbv zeta. intros b <-. by destruct b. }
  rewrite Hcnt by done. unfold wanted in Hav. cbv zeta in Hav.
  destruct ((_ >? _) && _) eqn:E; cbn [negb].
  { mstep. rewrite Hj. mstep. rewrite He. mstep. exists e, j. split_and!; auto; lia. }
  destruct (next_switch_spec pi c strict ltac:(lia) Hc Hav) as ([[c' j']|] & -> & Hdec); mstep.
  - pose proof Hdec as (ts & Hsl & _ & Hlen & -> & _ & Ht).
    assert (wanted pi length c = U8_COUNT_TRAIL_BYTES c) as Hweq by (unfold wanted; by rewrite E).
    pose proof (skipTrail_all ts pi Hsl Ht) as Hskip.
    rewrite Hweq, <- Hlen in Hj. unfold zlen in Hj at 1. rewrite Nat2Z.id, Hskip in Hj. simplify_eq.
    eexists _, _. split; [done|]. rewrite Hweq, <- Hlen. unfold zlen at 1. rewrite Nat2Z.id.
    rewrite <- Hlen in Hdec. split_and!; auto; lia.
  - rewrite Hj. mstep. rewrite He. mstep. exists e, j. split_and!; auto; lia.
Qed.

Lemma nextCharSafeBody_switch pi length c strict r :
  (pi + U8_COUNT_TRAIL_BYTES c <=? length) || (length <? 0) = true ->
  next_switch s pi (U8_MASK_LEAD_BYTE c (U8_COUNT_TRAIL_BYTES c)) (U8_COUNT_TRAIL_BYTES c) strict
    = Some (Some r) ->
  utf8_nextCharSafeBody s pi length c strict = Some r.
Proof.
  intros E H. unfold utf8_nextCharSafeBody. cbv zeta. rewrite E, H. mstep. by destruct r.
Qed.
End forward.

(** The shapes of an encoding. *)
Inductive encoding (c : Z) : Z -> list Z -> Prop :=
  | encoding1 : 0 <= c < 0x80 -> encoding c c []
  | encoding2 l b : 0xc0 <= l < 0xe0 -> is_trail b = true -> 0x80 <= c < 0x800 ->
      c = l mod 2 ^ 5 * 0x40 + (b - 0x80) -> encoding c l [b]
  | encoding3 l b1 b2 : 0xe0 <= l < 0xf0 -> is_trail b1 = true -> is_trail b2 = true ->
      0x800 <= c < 0x10000 -> c = (l mod 2 ^ 4 * 0x40 + (b1 - 0x80)) * 0x40 + (b2 - 0x80) ->
      encoding c l [b1; b2]
  | encoding4 l b1 b2 b3 : 0xf0 <= l < 0xf8 -> is_trail b1 = true -> is_trail b2 = true ->
      is_trail b3 = true -> 0x10000 <= c <= 0x10ffff ->
      c = ((l mod 2 ^ 3 * 0x40 + (b1 - 0x80)) * 0x40 + (b2 - 0x80)) * 0x40 + (b3 - 0x80) ->
      encoding c l [b1; b2; b3].

Lemma is_trail_range b : is_trail b = true -> 0x80 <= b <= 0xbf.
Proof. unfold is_trail. intros. bool_prop. lia. Qed.

Lemma is_trail_intro x : is_trail (0x80 + x mod 0x40) = true.
Proof.
  pose proof (Z.mod_pos_bound x 0x40 eq_refl). unfold is_trail. rewrite !Z_leb_true by lia. done.
Qed.

Lemma encode_inv c l ts :
  0 <= c <= 0x10ffff -> utf8_encode c = l :: ts -> encoding c l ts.
Proof.
  intros Hc. unfold utf8_encode. repeat if_cases; bool_prop; intros [= <- <-];
    constructor; auto using is_trail_intro; Z.to_euclidean_division_equations; lia.
Qed.

Section complete.
Context (s : list Z) (Hs : Forall is_u8 s) (pi c l strict : Z).
Context (Hnon : (strict <=? 0) || negb (U_IS_UNICODE_NONCHAR c) = true).

Lemma case1_complete b :
  s.[pi] = Some b -> is_trail b = true -> 0x80 <= c -> c = l mod 2 ^ 5 * 0x40 + (b - 0x80) ->
  next_case1 s pi (l mod 2 ^ 5) 1 strict = Some (Some (c, pi + 1)).
Proof using All.
  intros Hi Hb Hr Heq. rewrite (next_case1_spec s pi b _ 1 0x80) by eauto using byte_at.
  cbv zeta. rewrite <- Heq, Hb, Hnon, Z_leb_true by lia. done.
Qed.

Lemma case2_complete b1 b2 :
  s.[pi] = Some b1 -> s.[pi + 1] = Some b2 -> is_trail b1 = true -> is_trail b2 = true ->
  0x800 <= c -> c = (l mod 2 ^ 4 * 0x40 + (b1 - 0x80)) * 0x40 + (b2 - 0x80) ->
  strict = -2 \/ ~ surrogate c -> next_case2 s pi (l mod 2 ^ 4) 2 strict = Some (Some (c, pi + 2)).
Proof using All.
  intros Hi Hi1 Hb1 Hb2 Hr Heq Hsur.
  assert (0 <= l mod 2 ^ 4 < 2 ^ 4) by (by apply Z.mod_pos_bound).
  rewrite (next_case2_spec s pi b1) by (eauto using byte_at || lia). cbv zeta. rewrite Hb1.
  rewrite (next_case1_spec s (pi + 1) b2 _ 2 0x800) by eauto using byte_at. cbv zeta.
  rewrite <- Heq, Hb2, Hnon, (Z_leb_true 0x800 c) by lia. cbn [andb].
  if_cases; [do 3 f_equal; lia|]. exfalso. unfold is_trail, surrogate in *. bool_prop.
  lia.
Qed.

Lemma case3_complete b1 b2 b3 :
  s.[pi] = Some b1 -> s.[pi + 1] = Some b2 -> s.[pi + 1 + 1] = Some b3 ->
  is_trail b1 = true -> is_trail b2 = true -> is_trail b3 = true -> 0x10000 <= c <= 0x10ffff ->
  c = ((l mod 2 ^ 3 * 0x40 + (b1 - 0x80)) * 0x40 + (b2 - 0x80)) * 0x40 + (b3 - 0x80) ->
  next_case3 s pi (l mod 2 ^ 3) 3 strict = Some (Some (c, pi + 3)).
Proof using All.
  intros Hi Hi1 Hi2 Hb1 Hb2 Hb3 Hr Heq.
  assert (0 <= l mod 2 ^ 3 < 2 ^ 3) by (by apply Z.mod_pos_bound).
  rewrite (next_case3_spec s pi b1) by eauto using byte_at. cbv zeta.
  pose proof (is_trail_range b1 Hb1). pose proof (is_trail_range b2 Hb2).
  pose proof (is_trail_range b3 Hb3).
  rewrite Hb1, Z_ltb_true by lia. cbn [andb].
  rewrite (next_case2_spec s (pi + 1) b2) by (eauto using byte_at || lia). cbv zeta. rewrite Hb2.
  rewrite (next_case1_spec s (pi + 1 + 1) b3 _ 3 0x10000) by eauto using byte_at. cbv zeta.
  rewrite <- Heq, Hb3, Hnon, (Z_leb_true 0x10000 c) by lia. cbn [andb].
  if_cases; [do 3 f_equal; lia|]. exfalso. bool_prop. lia.
Qed.
End complete.

(** The switch accepts the encoding of every legal code point. *)
Lemma next_switch_complete s pi c l ts strict :
  Forall is_u8 s -> is_u8 l -> slice s pi ts -> legal strict c -> encoding c l ts -> ts <> [] ->
  U8_COUNT_TRAIL_BYTES l = zlen ts /\
  next_switch s pi (U8_MASK_LEAD_BYTE l (U8_COUNT_TRAIL_BYTES l)) (U8_COUNT_TRAIL_BYTES l) strict
  = Some (Some (c, pi + zlen ts)).
Proof.
  intros Hs Hl Hsl (Hc & Hsur & Hnon) Henc Hts.
  assert ((strict <=? 0) || negb (U_IS_UNICODE_NONCHAR c) = true) as Hn.
  { apply orb_true_iff. rewrite Z.leb_le, negb_true_iff. done. }
  assert (U8_COUNT_TRAIL_BYTES l = zlen ts) as Hcnt.
  { rewrite count_trail by done. unfold zlen. destruct Henc; simpl; repeat if_cases; bool_prop; done || lia. }
  split; [done|]. rewrite Hcnt, mask_lead by (destruct Henc; unfold zlen; simpl; lia).
  destruct Henc; [done|..]; repeat (apply slice_tail in Hsl; destruct Hsl as [?Hi Hsl]).
  - eapply case1_complete; eauto. lia.
  - eapply case2_complete; eauto. lia.
  - eapply case3_complete; eauto.
Qed.
