(* ===== verification/Utf8Props.v ===== *)
(** * Utf8Props: decoding and encoding UTF-8 *)
From S2P Require Import Prelude Utf8 Utf8Facts.
Local Open Scope Z_scope.

(** ** Forwards *)
Lemma after_nonzero s length i c :
  readable s length -> s.[i] = Some c -> c <> 0 -> i + 1 < zlen s \/ 0 <= length.
Proof.
  intros [->|[Hl Hlast]] Hi Hc; [zlia|]. left. apply last_zget in Hlast.
  pose proof (zget_lt _ _ _ Hi). assert (i <> zlen s - 1) by congruence. lia.
Qed.

(** An encoding found in the string is what the body returns. *)
Lemma body_complete s pi length c l ts strict :
  Forall is_u8 s -> readable s length -> is_u8 l -> slice s pi ts -> 0 <= pi ->
  legal strict c -> encoding c l ts -> ts <> [] ->
  utf8_nextCharSafeBody s pi length l strict = Some (c, pi + zlen ts).
Proof.
  intros Hs Hr Hl Hsl Hpi Hleg Henc Hts.
  destruct (next_switch_complete s pi c l ts strict) as [Hcnt Hsw]; auto.
  apply nextCharSafeBody_switch; [|done]. rewrite Hcnt. destruct Hr as [->|[Hlen _]].
  - apply orb_true_iff. left. apply Z.leb_le.
    destruct (zget_is_Some ts (zlen ts - 1)) as [t Ht]; [destruct ts; [done|zlia]|].
    apply Hsl, zget_lt in Ht. lia.
  - rewrite (Z_ltb_true length 0) by done. apply orb_true_r.
Qed.

Lemma inline3_value l b1 b2 :
  0xe0 <= l < 0xf0 -> is_trail b1 = true -> is_trail b2 = true ->
  u16 (Z.lor (Z.lor (Z.shiftl l 12) (Z.shiftl (u8 (b1 - 0x80)) 6)) (u8 (b2 - 0x80)))
  = (l mod 2 ^ 4 * 0x40 + (b1 - 0x80)) * 0x40 + (b2 - 0x80).
Proof.
  intros Hl H1 H2. rewrite !trail_value by done. apply is_trail_range in H1, H2.
  replace (Z.shiftl l 12) with (Z.shiftl (Z.shiftl l 6) 6) by (rewrite Z.shiftl_shiftl; [done|lia]).
  rewrite <- Z.shiftl_lor. rewrite Z_lor_shiftl by lia. rewrite Z_lor_shiftl by lia.
  unfold u16. Z.to_euclidean_division_equations; lia.
Qed.

(** The code that [U8_NEXT] expands inline computes what the function does. *)
Lemma U8_NEXT_body s i length c :
  Forall is_u8 s -> readable s length -> s.[i] = Some c -> 0x80 <= c ->
  U8_NEXT s i length = utf8_nextCharSafeBody s (i + 1) length c (-1).
Proof.
  intros Hs Hr Hi Hc. pose proof (byte_at s Hs i c Hi) as Hcb. pose proof (zget_lt _ _ _ Hi).
  pose proof (after_nonzero s length i c Hr Hi ltac:(lia)) as Hnext.
  unfold U8_NEXT. rewrite Hi. mstep. rewrite Z.geb_leb, Z_leb_true by done. cbv zeta.
  destruct ((0xe0 <? c) && (c <=? 0xec) && _) eqn:E3.
  - bool_prop. assert (avail s (i + 1) 2) as Hav.
    { unfold avail. destruct Hr as [->|[? ?]]; [|right; split; [done|lia]].
      match goal with H : _ = true \/ _ = true |- _ => destruct H; bool_prop; zlia end. }
    destruct (avail_get s (i + 1) 2 ltac:(lia) ltac:(lia) Hav) as (b1 & Hb1 & Hav1). rewrite Hb1. mstep.
    rewrite trail_leb by eauto using byte_at. rewrite Z_ltb_false, andb_false_l by lia. mstep.
    destruct (is_trail b1) eqn:Ht1; [|done].
    destruct (avail_get s (i + 1 + 1) 1) as (b2 & Hb2 & _); [lia|done|by apply Hav1, trail_nonzero|].
    rewrite Hb2. mstep. rewrite trail_leb by eauto using byte_at.
    destruct (is_trail b2) eqn:Ht2; [|done]. rewrite inline3_value by (done || lia).
    pose proof (is_trail_range b1 Ht1). pose proof (is_trail_range b2 Ht2). symmetry.
    assert (c mod 2 ^ 4 = c - 0xe0) by (Z.to_euclidean_division_equations; lia).
    apply body_complete with (ts := [b1; b2]); auto; [eauto using slice_cons, slice_nil|lia| |].
    + apply legal_scalar. unfold scalar, surrogate. lia.
    + apply encoding3; auto; lia.
  - mstep. destruct ((c <? 0xe0) && (c >=? 0xc2) && negb (i + 1 =? length)) eqn:E2; [|done].
    clear E3. bool_prop. assert (avail s (i + 1) 1) as Hav.
    { unfold avail. destruct Hr as [->|[? ?]]; [lia|right; split; [done|lia]]. }
    destruct (avail_get s (i + 1) 1 ltac:(lia) ltac:(lia) Hav) as (b1 & Hb1 & _). rewrite Hb1. mstep.
    rewrite trail_leb by eauto using byte_at. destruct (is_trail b1) eqn:Ht1; [|done].
    rewrite shift_trail by done. change 0x1f with (2 ^ 5 - 1). rewrite Z_land_ones by lia. symmetry.
    pose proof (is_trail_range b1 Ht1).
    assert (c mod 2 ^ 5 = c - 0xc0) by (Z.to_euclidean_division_equations; lia).
    apply body_complete with (ts := [b1]); auto; [eauto using slice_cons, slice_nil|lia| |].
    + apply legal_scalar. unfold scalar, surrogate. lia.
    + apply encoding2; auto; lia.
Qed.

Lemma encode_nonempty c : exists l ts, utf8_encode c = l :: ts.
Proof. unfold utf8_encode. repeat if_cases; eauto. Qed.

Lemma slice_head s i l ts : slice s i (l :: ts) -> s.[i] = Some l.
Proof. intros H. rewrite <- (Z.add_0_r i). by apply H. Qed.

(** A legal encoding at [i] is what [U8_NEXT] returns. *)
Lemma U8_NEXT_complete s i length c :
  Forall is_u8 s -> readable s length -> 0 <= i -> scalar c -> slice s i (utf8_encode c) ->
  U8_NEXT s i length = Some (c, i + zlen (utf8_encode c)).
Proof.
  intros Hs Hr Hi Hc Hsl. destruct (encode_nonempty c) as (l & ts & Henc). rewrite Henc in *.
  pose proof (slice_head _ _ _ _ Hsl) as Hl. apply encode_inv in Henc; [|apply Hc].
  destruct (decide (ts = [])) as [->|Hts].
  - inversion Henc; subst. unfold U8_NEXT. rewrite Hl. mstep. rewrite Z.geb_leb, Z_leb_false by lia.
    by rewrite zlen_cons, zlen_nil.
  - rewrite (U8_NEXT_body s i length l); auto; [|destruct Henc; done || lia].
    rewrite (body_complete s (i + 1) length c l ts); eauto using byte_at; [f_equal; f_equal; zlia| |lia|].
    + apply (slice_tail s i l ts Hsl).
    + by apply legal_scalar.
Qed.

Lemma U8_FWD_1_skip s i length b :
  readable s length -> s.[i] = Some b -> is_u8 b ->
  U8_FWD_1 s i length = skipTrail (Z.to_nat (wanted (i + 1) length b)) s (i + 1).
Proof.
  intros Hr Hi Hb. unfold U8_FWD_1. rewrite Hi. mstep. cbv zeta.
  destruct (U8_IS_LEAD b) eqn:E; [done|].
  assert (U8_COUNT_TRAIL_BYTES b = 0) as Hcnt.
  { rewrite count_trail by done. unfold U8_IS_LEAD, u8, is_u8 in *. bool_prop.
    repeat if_cases; bool_prop; try done; exfalso; Z.to_euclidean_division_equations; lia. }
  unfold wanted. rewrite Hcnt. cbv zeta. pose proof (zget_lt _ _ _ Hi).
  destruct ((_ >? _) && _) eqn:E'; [|done]. bool_prop. destruct Hr; lia.
Qed.

(** C27: [U8_NEXT] decodes UTF-8.  On every byte string, with its length or NUL
    terminated, it reads inside the string, advances, and stops where [U8_FWD_1]
    does; it returns the scalar value whose encoding stands at the index, and -1
    exactly when no scalar value is encoded there: overlong forms, surrogates,
    values above 10FFFF, stray and missing trail bytes are all rejected. *)
Theorem U8_NEXT_correct s i length :
  Forall is_u8 s -> readable s length -> 0 <= i < zlen s ->
  exists c j, U8_NEXT s i length = Some (c, j) /\ U8_FWD_1 s i length = Some j /\ i < j <= zlen s /\
    ((scalar c /\ slice s i (utf8_encode c) /\ j = i + zlen (utf8_encode c)) \/
     (c = -1 /\ forall c', scalar c' -> ~ slice s i (utf8_encode c'))).
Proof.
  intros Hs Hr Hi. destruct (zget_is_Some s i Hi) as [l Hl]. pose proof (byte_at s Hs i l Hl) as Hlb.
  rewrite (U8_FWD_1_skip s i length l) by done.
  destruct (decide (l < 0x80)) as [Hlow|Hhigh].
  - exists l, (i + 1). unfold U8_NEXT. rewrite Hl. mstep. rewrite Z.geb_leb, Z_leb_false by lia.
    unfold is_u8 in Hlb. assert (utf8_encode l = [l]) as Henc by (unfold utf8_encode; by rewrite Z_ltb_true).
    rewrite Henc. split; [done|]. split; [|split; [lia|left]].
    + assert (wanted (i + 1) length l = 0) as ->; [|done].
      unfold wanted. rewrite count_trail, Z_ltb_true by (done || lia). cbv zeta.
      destruct ((_ >? _) && _) eqn:E; [|done]. bool_prop. destruct Hr; lia.
    + split; [unfold scalar, surrogate; lia|]. split; [by apply slice_cons, slice_nil|zlia].
  - pose proof (U8_NEXT_body s i length l Hs Hr Hl ltac:(lia)) as Hbody.
    destruct (nextCharSafeBody_spec s Hs (i + 1) length l (-1)) as (r & j & Hres & Hskip & Hj & _ & Hcase);
      [done|lia|apply (after_nonzero s length i l); auto; lia|done|].
    rewrite Hres in Hbody. exists r, j. split; [done|]. split; [done|]. split; [lia|].
    destruct Hcase as [(ts & Hsl & Henc & Hlen & Hjeq & Hleg & _)|Herr].
    + left. split; [by apply legal_scalar|]. rewrite Henc. split; [by apply slice_cons|zlia].
    + right. injection Herr as <-. split; [done|]. intros c' Hc' Hsl.
      rewrite (U8_NEXT_complete s i length c') in Hbody by (done || lia). simplify_eq.
      destruct Hc' as [[Hneg _] _]. by vm_compute in Hneg.
Qed.

(** ** Appending *)
Lemma put_byte_app pre x post b i :
  i = zlen pre -> put_byte (pre ++ x :: post, i) b = Some ((pre ++ [b]) ++ post, zlen (pre ++ [b])).
Proof.
  intros ->. unfold put_byte. cbn [fst snd]. rewrite zset_middle by done. mstep.
  rewrite <- app_assoc, zlen_app. done.
Qed.

Lemma lead_byte x k n : 0 <= n <= 8 -> 0 <= x < 2 ^ n -> 0 <= k -> (k + 1) * 2 ^ n <= 2 ^ 8 ->
  u8 (Z.lor x (Z.shiftl k n)) = k * 2 ^ n + x.
Proof. intros. rewrite Z_lor_above by lia. unfold u8. rewrite Z.mod_small by nia. lia. Qed.

Lemma trail_byte x : u8 (Z.lor (Z.land x 0x3f) 0x80) = 0x80 + x mod 0x40.
Proof.
  change 0x3f with (2 ^ 6 - 1). rewrite Z_land_ones by lia. change (2 ^ 6) with 0x40.
  pose proof (Z.mod_pos_bound x 0x40 eq_refl). change 0x80 with (Z.shiftl 2 6) at 1.
  rewrite lead_byte by lia. lia.
Qed.

Lemma lead2 c : 0 <= c < 0x800 -> u8 (Z.lor (Z.shiftr c 6) 0xc0) = 0xc0 + c / 0x40.
Proof.
  intros. change 0xc0 with (Z.shiftl 3 6) at 1. rewrite Z.shiftr_div_pow2 by lia.
  rewrite lead_byte; [done|lia|Z.to_euclidean_division_equations; lia..].
Qed.

Lemma lead3 c : 0 <= c < 0x10000 -> u8 (Z.lor (Z.shiftr c 12) 0xe0) = 0xe0 + c / 0x1000.
Proof.
  intros. change 0xe0 with (Z.shiftl 7 5) at 1. rewrite Z.shiftr_div_pow2 by lia.
  rewrite lead_byte; [done|lia|Z.to_euclidean_division_equations; lia..].
Qed.

Lemma lead4 c : 0 <= c <= 0x10ffff -> u8 (Z.lor (Z.shiftr c 18) 0xf0) = 0xf0 + c / 0x40000.
Proof.
  intros. change 0xf0 with (Z.shiftl 15 4) at 1. rewrite Z.shiftr_div_pow2 by lia.
  rewrite lead_byte; [done|lia|Z.to_euclidean_division_equations; lia..].
Qed.

Section append.
Context (pre post : list Z) (capacity c : Z) (isError : bool).

Lemma append1 x :
  0 <= c < 0x80 ->
  U8_APPEND (pre ++ [x] ++ post) (zlen pre) capacity c isError
  = Some (pre ++ [c] ++ post, zlen pre + 1, isError).
Proof.
  intros Hc. unfold U8_APPEND. rewrite u32_small, Z_leb_true by lia. cbn [app].
  rewrite put_byte_app by done. mstep. unfold u8. rewrite Z.mod_small by lia.
  rewrite <- app_assoc, zlen_app. done.
Qed.

Lemma append2 x y :
  0x80 <= c < 0x800 -> zlen pre + 2 <= capacity ->
  U8_APPEND (pre ++ [x; y] ++ post) (zlen pre) capacity c isError
  = Some (pre ++ [0xc0 + c / 0x40; 0x80 + c mod 0x40] ++ post, zlen pre + 2, isError).
Proof.
  intros Hc Hcap. unfold U8_APPEND. rewrite u32_small by lia.
  rewrite (Z_leb_false c 0x7f), (Z_leb_true c 0x7ff), Z_ltb_true by lia. cbn [andb app].
  rewrite put_byte_app by done. mstep. rewrite put_byte_app by done. mstep.
  rewrite lead2, trail_byte, <- !app_assoc by lia. do 3 f_equal. zlia.
Qed.

Lemma append3_body x y z :
  0x800 <= c < 0x10000 -> ~ surrogate c -> zlen pre + 3 <= capacity ->
  utf8_appendCharSafeBody (pre ++ [x; y; z] ++ post) (zlen pre) capacity c (Some isError)
  = Some (pre ++ [0xe0 + c / 0x1000; 0x80 + c / 0x40 mod 0x40; 0x80 + c mod 0x40] ++ post,
          zlen pre + 3, Some isError).
Proof.
  intros Hc Hns Hcap. unfold utf8_appendCharSafeBody. rewrite u32_small by lia. cbv zeta.
  replace (U_IS_SURROGATE c) with false
    by (symmetry; apply not_true_iff_false; rewrite U_IS_SURROGATE_spec by lia; done).
  rewrite (Z_leb_false c 0x7ff), (Z_leb_true c 0xffff), Z_ltb_true by lia. cbn [andb negb app].
  do 3 (rewrite put_byte_app by done; mstep).
  rewrite lead3, !trail_byte, Z.shiftr_div_pow2, <- !app_assoc by lia. do 3 f_equal. zlia.
Qed.

Lemma append3 x y z :
  0x800 <= c < 0x10000 -> ~ surrogate c -> zlen pre + 3 <= capacity ->
  U8_APPEND (pre ++ [x; y; z] ++ post) (zlen pre) capacity c isError
  = Some (pre ++ [0xe0 + c / 0x1000; 0x80 + c / 0x40 mod 0x40; 0x80 + c mod 0x40] ++ post,
          zlen pre + 3, isError).
Proof.
  intros Hc Hns Hcap. unfold U8_APPEND. rewrite u32_small by lia.
  rewrite (Z_leb_false c 0x7f), (Z_leb_false c 0x7ff), Z_ltb_true by lia. cbn [andb].
  destruct (c <=? 0xd7ff).
  - cbn [andb app]. rewrite Z_ltb_true by lia. do 3 (rewrite put_byte_app by done; mstep).
    rewrite lead3, !trail_byte, Z.shiftr_div_pow2, <- !app_assoc by lia. do 3 f_equal. zlia.
  - cbn [andb]. by rewrite append3_body.
Qed.

Lemma append4 w x y z :
  0x10000 <= c <= 0x10ffff -> zlen pre + 4 <= capacity ->
  U8_APPEND (pre ++ [w; x; y; z] ++ post) (zlen pre) capacity c isError
  = Some (pre ++ [0xf0 + c / 0x40000; 0x80 + c / 0x1000 mod 0x40; 0x80 + c / 0x40 mod 0x40;
                  0x80 + c mod 0x40] ++ post, zlen pre + 4, isError).
Proof.
  intros Hc Hcap. unfold U8_APPEND, utf8_appendCharSafeBody. rewrite u32_small by lia. cbv zeta.
  rewrite (Z_leb_false c 0x7f), !(Z_leb_false c 0x7ff), (Z_leb_false c 0xd7ff) by lia. cbn [andb].
  rewrite (Z_leb_false c 0xffff), (Z_leb_true c 0x10ffff), (Z_ltb_true (zlen pre + 3)) by lia.
  cbn [app]. do 4 (rewrite put_byte_app by done; mstep).
  rewrite lead4, !trail_byte, !Z.shiftr_div_pow2, <- !app_assoc by lia. do 3 f_equal. zlia.
Qed.
End append.

(** Appending with room, in a buffer cut at the index. *)
Lemma U8_APPEND_room pre gap post capacity c isError :
  scalar c -> zlen gap = zlen (utf8_encode c) -> zlen pre + zlen gap <= capacity ->
  U8_APPEND (pre ++ gap ++ post) (zlen pre) capacity c isError
  = Some (pre ++ utf8_encode c ++ post, zlen pre + zlen gap, isError).
Proof.
  intros [Hc Hns] Hgap Hcap. unfold utf8_encode in *.
  repeat match type of Hgap with context [if ?b then _ else _] => destruct b eqn:? end; bool_prop;
    destruct gap as [|w [|x [|y [|z [|? ?]]]]]; try (exfalso; zlia);
    (apply append1 || apply append2 || apply append3 || apply append4); done || zlia.
Qed.

(** A value that cannot be encoded, or has no room, is reported and nothing is
    written. *)
Lemma append_body_error s i capacity c isError :
  is_s32 c -> ~ scalar c \/ (0x80 <= c /\ capacity < i + zlen (utf8_encode c)) -> ~ 0 <= c < 0x80 ->
  utf8_appendCharSafeBody s i capacity c (Some isError) = Some (s, i, Some true).
Proof.
  intros Hc Hbad Hlow. unfold utf8_appendCharSafeBody, is_s32 in *. cbv zeta.
  destruct (decide (0 <= c <= 0x10ffff)) as [Hr|Hr].
  - rewrite u32_small by lia. pose proof (U_IS_SURROGATE_spec c ltac:(lia)) as Hsur.
    unfold scalar, surrogate, utf8_encode, zlen in *. rewrite (Z_ltb_false c 0x80) in Hbad by lia.
    destruct (decide (c < 0x800)); [|destruct (decide (c < 0x10000))].
    + rewrite Z_ltb_true in Hbad by lia. simpl in Hbad.
      by rewrite (Z_leb_true c 0x7ff), (Z_ltb_false (i + 1)) by lia.
    + rewrite (Z_ltb_false c 0x800), (Z_ltb_true c 0x10000) in Hbad by lia. simpl in Hbad.
      rewrite (Z_leb_false c 0x7ff), (Z_leb_true c 0xffff) by lia.
      destruct (U_IS_SURROGATE c); [by rewrite andb_false_r|].
      rewrite Z_ltb_false; [done|]. destruct Hbad as [Hbad|]; [|lia]. destruct Hbad. split; [lia|].
      intros Hs. by apply Hsur in Hs.
    + rewrite (Z_ltb_false c 0x800), (Z_ltb_false c 0x10000) in Hbad by lia. simpl in Hbad.
      by rewrite (Z_leb_false c 0x7ff), (Z_leb_false c 0xffff), (Z_leb_true c), (Z_ltb_false (i + 3)) by lia.
  - assert (0x10ffff < u32 c).
    { unfold u32. Z.to_euclidean_division_equations; lia. }
    rewrite !Z_leb_false by lia. done.
Qed.

Lemma U8_APPEND_error s i capacity c isError :
  is_s32 c -> ~ scalar c \/ (0x80 <= c /\ capacity < i + zlen (utf8_encode c)) ->
  U8_APPEND s i capacity c isError = Some (s, i, true).
Proof.
  intros Hc Hbad. assert (~ 0 <= c < 0x80) as Hlow.
  { intros ?. destruct Hbad as [Hbad|[? _]]; [|lia]. apply Hbad. unfold scalar, surrogate. lia. }
  unfold U8_APPEND. rewrite append_body_error by done. mstep. cbn [default].
  assert (u32 c <= 0x7f -> False) as H7.
  { unfold u32, is_s32 in *. Z.to_euclidean_division_equations; lia. }
  rewrite (Z_leb_false (u32 c) 0x7f) by lia. unfold zlen, utf8_encode, scalar, surrogate, is_s32 in *.
  destruct (decide (0 <= c <= 0xd7ff)) as [Hr|Hr].
  2:{ assert (0xd7ff < u32 c) by (unfold u32; Z.to_euclidean_division_equations; lia).
      rewrite !Z_leb_false by lia. done. }
  rewrite u32_small by lia. destruct Hbad as [Hbad|[_ Hbad]]; [lia|].
  rewrite (Z_ltb_false c 0x80), (Z_ltb_true c 0x10000) in Hbad by lia.
  destruct (c <? 0x800) eqn:E8; simpl in Hbad; bool_prop.
  - rewrite !(Z_ltb_false _ capacity) by lia. by rewrite !andb_false_r.
  - rewrite (Z_leb_false c 0x7ff), (Z_ltb_false (i + 2)) by lia. by rewrite andb_false_r.
Qed.

(** ** Backwards *)

(** The value of a run of trail bytes. *)
Fixpoint trail_bits (ts : list Z) : Z :=
  match ts with
  | [] => 0
  | b :: ts => (b - 0x80) * 2 ^ (6 * zlen ts) + trail_bits ts
  end.

Definition all_trail (ts : list Z) : Prop := Forall (fun b => is_trail b = true) ts.

Lemma trail_bits_range ts : all_trail ts -> 0 <= trail_bits ts < 2 ^ (6 * zlen ts).
Proof.
  induction 1 as [|b ts Hb _ IH]; [done|]. cbn [trail_bits]. apply is_trail_range in Hb.
  rewrite zlen_cons, Z.mul_add_distr_l, Z.pow_add_r by zlia. change (2 ^ (6 * 1)) with 64. nia.
Qed.

(** One more byte in front of the bits collected. *)
Lemma collect ts x :
  all_trail ts -> Z.lor (trail_bits ts) (Z.shiftl x (6 * zlen ts)) = x * 2 ^ (6 * zlen ts) + trail_bits ts.
Proof. intros H%trail_bits_range. rewrite Z_lor_above by zlia. lia. Qed.

Lemma land_3f b : is_trail b = true -> Z.land b 0x3f = b - 0x80.
Proof.
  intros H%is_trail_range. change 0x3f with (2 ^ 6 - 1). rewrite Z_land_ones by lia.
  Z.to_euclidean_division_equations; lia.
Qed.

(** The classes of bytes that the loops test for. *)
Lemma byte_class b :
  is_u8 b ->
  (u8 (b - 0x80) <? 0x7e) = (0x80 <=? b) && (b <? 0xfe) /\
  (u8 (b - 0x80) >=? 0x7e) = negb ((0x80 <=? b) && (b <? 0xfe)) /\
  (0x80 <= b < 0xfe -> negb (Z.land b 0x40 =? 0) = negb (is_trail b) /\
   (b >=? 0xc0) = negb (is_trail b)).
Proof.
  intros Hb.
  pose proof (byte_check (fun b => Bool.eqb (u8 (b - 0x80) <? 0x7e) ((0x80 <=? b) && (b <? 0xfe)) &&
    Bool.eqb (u8 (b - 0x80) >=? 0x7e) (negb ((0x80 <=? b) && (b <? 0xfe))) &&
    implb ((0x80 <=? b) && (b <? 0xfe)) (Bool.eqb (negb (Z.land b 0x40 =? 0)) (negb (is_trail b)) &&
      Bool.eqb (b >=? 0xc0) (negb (is_trail b)))) b ltac:(by vm_compute) Hb) as H.
  simpl in H. apply andb_true_iff in H as [H H3]. apply andb_true_iff in H as [H1 H2].
  apply eqb_prop in H1, H2. split; [done|]. split; [done|]. intros Hr.
  rewrite Z_leb_true, Z_ltb_true in H3 by lia. simpl in H3. apply andb_true_iff in H3 as [H3 H4].
  by apply eqb_prop in H3, H4.
Qed.

(** The value that a lead byte and its trail bytes stand for. *)
Definition sequence_value (b : Z) (ts : list Z) : Z :=
  b mod 2 ^ (6 - zlen ts) * 2 ^ (6 * zlen ts) + trail_bits ts.

Lemma count_class b n :
  is_u8 b -> U8_COUNT_TRAIL_BYTES b = n ->
  (n = 1 -> 0xc0 <= b < 0xe0) /\ (n = 2 -> 0xe0 <= b < 0xf0) /\ (n = 3 -> 0xf0 <= b < 0xf8).
Proof.
  intros Hb. rewrite count_trail by done. unfold is_u8 in Hb. repeat if_cases; bool_prop; lia.
Qed.

Lemma sequence_value_1 b b1 : sequence_value b [b1] = b mod 2 ^ 5 * 0x40 + (b1 - 0x80).
Proof.
  unfold sequence_value. cbn [trail_bits]. change (zlen [b1]) with 1. change (2 ^ (6 * 1)) with 0x40.
  change (2 ^ (6 * zlen [])) with 1. change (6 - 1) with 5. lia.
Qed.

Lemma sequence_value_2 b b1 b2 :
  sequence_value b [b1; b2] = (b mod 2 ^ 4 * 0x40 + (b1 - 0x80)) * 0x40 + (b2 - 0x80).
Proof.
  unfold sequence_value. cbn [trail_bits]. change (zlen [b1; b2]) with 2. change (2 ^ (6 * 2)) with 0x1000.
  change (2 ^ (6 * zlen [])) with 1. change (2 ^ (6 * zlen [b2])) with 0x40. change (6 - 2) with 4. lia.
Qed.

Lemma sequence_value_3 b b1 b2 b3 :
  sequence_value b [b1; b2; b3]
  = ((b mod 2 ^ 3 * 0x40 + (b1 - 0x80)) * 0x40 + (b2 - 0x80)) * 0x40 + (b3 - 0x80).
Proof.
  unfold sequence_value. cbn [trail_bits]. change (zlen [b1; b2; b3]) with 3.
  change (2 ^ (6 * 3)) with 0x40000. change (2 ^ (6 * zlen [])) with 1.
  change (2 ^ (6 * zlen [b3])) with 0x40. change (2 ^ (6 * zlen [b2; b3])) with 0x1000.
  change (6 - 3) with 3. lia.
Qed.

Lemma sequence_encode b ts m :
  is_u8 b -> all_trail ts -> U8_COUNT_TRAIL_BYTES b = zlen ts -> 1 <= zlen ts <= 3 ->
  utf8_minLegal.[zlen ts] = Some m -> m <= sequence_value b ts -> utf8_encode (sequence_value b ts) = b :: ts.
Proof.
  intros Hb Hts Hcnt Hlen Hm Hle.
  destruct ts as [|b1 [|b2 [|b3 [|? ?]]]]; try (exfalso; zlia); injection Hm as <-;
    apply Forall_cons in Hts as [H1 Hts].
  - rewrite sequence_value_1 in *. apply encode2; auto. by apply (count_class b 1).
  - apply Forall_cons in Hts as [H2 _]. rewrite sequence_value_2 in *.
    apply encode3; auto. by apply (count_class b 2).
  - apply Forall_cons in Hts as [H2 [H3 _]%Forall_cons]. rewrite sequence_value_3 in *.
    apply encode4; auto. by apply (count_class b 3).
Qed.

(** What a step back returns: the legal code point that ends there, or an error. *)
Definition prev_result (s : list Z) (pi strict r j : Z) : Prop :=
  (legal strict r /\ slice s j (utf8_encode r) /\ pi + 1 = j + zlen (utf8_encode r)) \/
  exists k, errorValue k strict = Some r.

(** The lead byte ends the loop. *)
Definition prev_lead (i pi c strict count b shift : Z) : option (Z * Z) :=
  let shouldCount := U8_COUNT_TRAIL_BYTES b in
  if count =? shouldCount then
    let b := U8_MASK_LEAD_BYTE b count in
    let c := Z.lor c (Z.shiftl b shift) in
    minLegal ← (if count >=? 4 then Some 0 else utf8_minLegal.[count]);
    if (count >=? 4) || (c >? 0x10ffff) || (c <? minLegal)
       || (U_IS_SURROGATE c && negb (strict =? -2))
       || ((strict >? 0) && U_IS_UNICODE_NONCHAR c)
    then c ← errorValue (if count >=? 4 then 3 else count) strict; Some (c, i)
    else Some (c, i)
  else if count <? shouldCount then c ← errorValue count strict; Some (c, i)
  else c ← errorValue 0 strict; Some (c, pi).

Lemma error_result s pi strict j count :
  0 <= count <= 5 ->
  exists r, (c ← errorValue count strict; Some (c, j)) = Some (r, j) /\ prev_result s pi strict r j.
Proof.
  intros H. destruct (errorValue_total count strict H) as [e He]. exists e. rewrite He.
  split; [done|]. right. eauto.
Qed.

Lemma prev_lead_spec s ts i pi b strict :
  is_u8 b -> all_trail ts -> slice s i (b :: ts) -> 1 <= zlen ts <= 5 -> pi = i + zlen ts ->
  exists r, let j := if U8_COUNT_TRAIL_BYTES b >=? zlen ts then i else pi in
    prev_lead i pi (trail_bits ts) strict (zlen ts) b (6 * zlen ts) = Some (r, j) /\
    prev_result s pi strict r j.
Proof.
  intros Hb Hts Hsl Hlen ->. unfold prev_lead. cbv zeta. rewrite (Z.geb_leb (U8_COUNT_TRAIL_BYTES b)).
  destruct (zlen ts =? U8_COUNT_TRAIL_BYTES b) eqn:E; bool_prop.
  2:{ destruct (zlen ts <? _) eqn:E'; bool_prop.
      - rewrite Z_leb_true by lia. by apply error_result; lia.
      - rewrite Z_leb_false by lia. by apply error_result. }
  rewrite <- E, Z_leb_true by lia. rewrite mask_lead, collect by (done || lia).
  fold (sequence_value b ts). set (v := sequence_value b ts).
  destruct (zlen ts >=? 4) eqn:E4; bool_prop; mstep; cbn [orb]; [by apply error_result|].
  destruct (zget_is_Some utf8_minLegal (zlen ts)) as [m Hm]; [change (zlen utf8_minLegal) with 4; lia|].
  rewrite Hm. mstep. if_cases; [apply error_result; lia|].
  exists v. split; [done|]. left. bool_prop.
  assert (0 <= m) by (destruct (zget_Some utf8_minLegal (zlen ts) m) as [H' _];
    destruct (H' Hm) as [_ Hin%list_elem_of_lookup_2]; repeat (apply elem_of_cons in Hin as [->|Hin]; [done|]);
    by apply elem_of_nil in Hin).
  assert (utf8_encode v = b :: ts) as Henc by (eapply sequence_encode; eauto; lia).
  rewrite Henc. split; [|split; [done|zlia]].
  split; [lia|]. split.
  - destruct (decide (strict = -2)); [by left|right].
    intros Hsur. apply (U_IS_SURROGATE_spec v) in Hsur; [|lia]. rewrite Hsur in *.
    match goal with H : _ \/ negb _ = false |- _ => destruct H; bool_prop; congruence end.
  - match goal with H : (strict >? 0) = false \/ _ |- _ => destruct H; bool_prop; [left; lia|by right] end.
Qed.

(** The loop of [utf8_prevCharSafeBody] and the one of [utf8_back1SafeBody] end at
    the same index. *)
Lemma prev_loop_spec s start pi strict fuel ts i Z' :
  Forall is_u8 s -> 0 <= start <= i -> all_trail ts -> slice s i ts -> pi + 1 = i + zlen ts ->
  1 <= zlen ts <= 5 -> 6 <= Z.of_nat fuel + zlen ts ->
  start <= Z' /\ pi - 5 <= Z' /\ (Z' = start \/ Z' = pi - 5) ->
  exists r j, prev_loop fuel s start pi i (trail_bits ts) strict (zlen ts) (6 * zlen ts) = Some (r, j) /\
    (if Z' <=? i - 1 then back1_loop fuel s pi (i - 1) Z' else Some pi) = Some j /\
    start <= j <= pi /\ prev_result s pi strict r j.
Proof.
  intros Hs. revert ts i. induction fuel as [|fuel IH]; intros ts i Hstart Hts Hsl Hpi Hlen Hfuel HZ; [lia|].
  cbn [prev_loop]. destruct (i <=? start) eqn:Ei; bool_prop.
  { destruct (error_result s pi strict pi 0) as (r & Hr & Hres); [lia|].
    exists r, pi. rewrite Z_leb_false by lia. split_and!; done || lia. }
  destruct (zget_is_Some ts 0) as [t0 Ht0]; [lia|]. apply Hsl in Ht0. rewrite Z.add_0_r in Ht0.
  pose proof (zget_lt _ _ _ Ht0). destruct (zget_is_Some s (i - 1)) as [b Hb]; [lia|].
  pose proof (byte_at s Hs _ _ Hb) as Hb8. destruct (byte_class b Hb8) as (Hc1 & Hc2 & Hc3).
  cbv zeta. rewrite Hb, (Z_leb_true Z' (i - 1)) by lia. cbn [back1_loop]. rewrite Hb. mstep.
  rewrite Hc1, Hc2. destruct ((0x80 <=? b) && (b <? 0xfe)) eqn:Ein; cbn [negb].
  2:{ destruct (error_result s pi strict pi 0) as (r & Hr & Hres); [lia|].
      exists r, pi. split_and!; done || lia. }
  bool_prop. destruct Hc3 as [-> ->]; [lia|].
  assert (slice s (i - 1) (b :: ts)) as Hsl'.
  { apply slice_cons; [done|]. by replace (i - 1 + 1) with i by lia. }
  destruct (is_trail b) eqn:Hbt; cbn [negb].
  - destruct (zlen ts <? 5) eqn:E5; bool_prop.
    + destruct (IH (b :: ts) (i - 1)) as (r & j & Hloop & Hback & Hj & Hres);
        [lia|by constructor|done|zlia|zlia|zlia|done|].
      exists r, j. split; [|split_and!; done || lia]. rewrite <- Hloop, zlen_cons. cbn [trail_bits].
      rewrite land_3f, collect by done. f_equal; lia.
    + destruct (error_result s pi strict pi 0) as (r & Hr & Hres); [lia|].
      exists r, pi. rewrite Z_leb_false by lia. split_and!; done || lia.
  - fold (prev_lead (i - 1) pi (trail_bits ts) strict (zlen ts) b (6 * zlen ts)).
    destruct (prev_lead_spec s ts (i - 1) pi b strict) as (r & Hr & Hres); [done|done|done|lia|lia|].
    cbv zeta in *. eexists r, _. split; [exact Hr|]. replace (pi - (i - 1)) with (zlen ts) by lia.
    split; [by if_cases|]. split; [if_cases; lia|done].
Qed.

Section prev_complete.
Context (s : list Z) (Hs : Forall is_u8 s) (start pi strict : Z) (Hstart : 0 <= start).

Lemma prev_trail fuel ts i b :
  start < i -> s.[i - 1] = Some b -> is_trail b = true -> all_trail ts -> zlen ts < 5 ->
  prev_loop (S fuel) s start pi i (trail_bits ts) strict (zlen ts) (6 * zlen ts)
  = prev_loop fuel s start pi (i - 1) (trail_bits (b :: ts)) strict (zlen (b :: ts)) (6 * zlen (b :: ts)).
Proof using All.
  intros Hi Hb Ht Hts Hlen. cbn [prev_loop]. rewrite Z_leb_false by lia. cbv zeta. rewrite Hb. mstep.
  destruct (byte_class b (byte_at s Hs _ _ Hb)) as (-> & _ & Hc). pose proof (is_trail_range b Ht).
  rewrite Z_leb_true, Z_ltb_true by lia. cbn [andb]. destruct Hc as [-> _]; [lia|]. rewrite Ht. cbn [negb].
  rewrite Z_ltb_true, land_3f, collect by done. cbn [trail_bits]. rewrite zlen_cons. f_equal; lia.
Qed.

Lemma prev_at_lead fuel ts i b c :
  start < i -> s.[i - 1] = Some b -> ts <> [] -> encoding c b ts -> legal strict c ->
  prev_loop (S fuel) s start pi i (trail_bits ts) strict (zlen ts) (6 * zlen ts) = Some (c, i - 1).
Proof using All.
  intros Hi Hb Hnil Henc (Hc & Hsur & Hnon). cbn [prev_loop]. rewrite Z_leb_false by lia. cbv zeta.
  rewrite Hb. mstep. pose proof (byte_at s Hs _ _ Hb) as Hb8.
  destruct (byte_class b Hb8) as (-> & _ & Hcl).
  assert (0xc0 <= b < 0xf8) as Hbr by (destruct Henc; done || lia).
  assert (is_trail b = false) as Hbt by (unfold is_trail; rewrite (Z_leb_false b) by lia; apply andb_false_r).
  rewrite Z_leb_true, Z_ltb_true by lia. cbn [andb]. destruct Hcl as [-> _]; [lia|]. rewrite Hbt. cbn [negb].
  assert (U8_COUNT_TRAIL_BYTES b = zlen ts) as Hcnt.
  { rewrite count_trail by done. unfold zlen. destruct Henc; simpl; repeat if_cases; bool_prop; done || lia. }
  assert (all_trail ts) as Hts by (unfold all_trail; destruct Henc; auto).
  assert (1 <= zlen ts <= 3) as Hlen by (unfold zlen; destruct Henc; simpl; done || lia).
  rewrite Hcnt, Z.eqb_refl, mask_lead, collect by (done || lia). fold (sequence_value b ts).
  assert (sequence_value b ts = c) as ->.
  { destruct Henc; [done|by rewrite sequence_value_1|by rewrite sequence_value_2|by rewrite sequence_value_3]. }
  rewrite (Z.geb_leb (zlen ts) 4), (Z_leb_false 4) by lia.
  assert (exists m, utf8_minLegal.[zlen ts] = Some m /\ m <= c) as (m & -> & Hm).
  { destruct Henc; [done|eexists; split; [reflexivity|lia]..]. }
  mstep. cbn [orb]. rewrite (Z.gtb_ltb c), (Z_ltb_false _ c), (Z_ltb_false c m) by lia. cbn [orb].
  assert (U_IS_SURROGATE c && negb (strict =? -2) = false) as ->.
  { destruct (U_IS_SURROGATE c) eqn:E; [|done]. apply U_IS_SURROGATE_spec in E; [|lia].
    destruct Hsur as [->|?]; done. }
  destruct Hnon as [Hnon| ->]; [|by rewrite andb_false_r].
  rewrite (Z.gtb_ltb strict), Z_ltb_false by lia. done.
Qed.

Lemma prev_run front ts i fuel :
  start < i - zlen front + 1 -> slice s (i - zlen front) front -> all_trail front -> all_trail ts ->
  zlen front + zlen ts <= 5 -> 
  prev_loop (length front + fuel) s start pi i (trail_bits ts) strict (zlen ts) (6 * zlen ts)
  = prev_loop fuel s start pi (i - zlen front) (trail_bits (front ++ ts)) strict
      (zlen (front ++ ts)) (6 * zlen (front ++ ts)).
Proof using All.
  revert ts i. induction front as [|b front IH] using rev_ind; intros ts i Hi Hsl Hf Hts Hlen.
  { cbn [length app Nat.add]. by replace (i - zlen []) with i by zlia. }
  apply Forall_app in Hf as [Hf [Hb _]%Forall_cons]. rewrite zlen_app in *. change (zlen [b]) with 1 in *.
  pose proof (zlen_nonneg front). pose proof (zlen_nonneg ts).
  assert (s.[i - 1] = Some b) as Hib.
  { replace (i - 1) with (i - (zlen front + 1) + zlen front) by lia. apply Hsl. by apply zget_middle. }
  rewrite length_app, Nat.add_1_r. cbn [Nat.add]. rewrite (prev_trail _ ts i b) by (done || lia).
  rewrite IH.
  - rewrite <- app_assoc. cbn [app]. by replace (i - 1 - zlen front) with (i - (zlen front + 1)) by lia.
  - lia.
  - intros k t Hk. replace (i - 1 - zlen front) with (i - (zlen front + 1)) by lia. apply Hsl.
    pose proof (zget_lt _ _ _ Hk). rewrite zget_app_l by lia. done.
  - done.
  - by constructor.
  - zlia.
Qed.

(** The encoding of a legal code point that ends at [pi] is found. *)
Lemma prev_complete c l ts j b :
  start <= j -> slice s j (l :: ts) -> ts <> [] -> pi = j + zlen ts -> encoding c l ts -> legal strict c ->
  s.[pi] = Some b -> utf8_prevCharSafeBody s start pi b strict = Some (c, j).
Proof using All.
  intros Hj Hsl Hnil Hpi Henc Hleg Hb.
  assert (all_trail ts) as Hts by (unfold all_trail; destruct Henc; auto).
  assert (1 <= zlen ts <= 3) as Hlen by (unfold zlen; destruct Henc; simpl; done || lia).
  apply slice_tail in Hsl as [Hl Hsl]. unfold utf8_prevCharSafeBody.
  destruct (exists_last Hnil) as (front & b' & ->). rewrite zlen_app in *. change (zlen [b']) with 1 in *.
  apply Forall_app in Hts as [Hf [Hbt _]%Forall_cons]. pose proof (zlen_nonneg front).
  assert (b' = b) as ->.
  { specialize (Hsl (zlen front) b' ltac:(by apply zget_middle)).
    replace (j + 1 + zlen front) with pi in Hsl by lia. congruence. }
  rewrite U8_IS_TRAIL_spec, Hbt by eauto using byte_at. cbn [negb].
  assert (Z.land b 0x3f = trail_bits [b]) as ->.
  { rewrite land_3f by done. change (trail_bits [b]) with ((b - 0x80) * 1 + 0). lia. }
  replace 5%nat with (length front + (5 - length front))%nat by (unfold zlen in *; lia).
  change 1 with (zlen [b]). change 6 with (6 * zlen [b]).
  assert (pi - zlen front = j + 1) as Hij by lia.
  rewrite (prev_run front [b] pi); [|lia|rewrite Hij|done|by constructor|change (zlen [b]) with 1; lia].
  - destruct (5 - length front)%nat eqn:E; [unfold zlen in *; lia|]. rewrite Hij.
    rewrite (prev_at_lead _ (front ++ [b]) (j + 1) l c);
      [f_equal; f_equal; lia|lia|by replace (j + 1 - 1) with j by lia|done|done|done].
  - intros k t Hk. apply Hsl. pose proof (zget_lt _ _ _ Hk). rewrite zget_app_l by lia. done.
Qed.
End prev_complete.

Lemma encode_bytes c : 0 <= c <= 0x10ffff -> Forall is_u8 (utf8_encode c).
Proof.
  intros Hc. unfold utf8_encode, is_u8.
  repeat if_cases; bool_prop; repeat constructor; Z.to_euclidean_division_equations; lia.
Qed.

(** The bytes of an encoding that ends before [i]. *)
Lemma encoding_end s c j i b :
  scalar c -> slice s j (utf8_encode c) -> i = j + zlen (utf8_encode c) -> s.[i - 1] = Some b ->
  (b = c /\ j = i - 1 /\ 0 <= c < 0x80) \/
  (exists l ts, utf8_encode c = l :: ts /\ encoding c l ts /\ ts <> [] /\ is_trail b = true).
Proof.
  intros [Hc _] Hsl -> Hb. destruct (encode_nonempty c) as (l & ts & He). rewrite He in *.
  apply encode_inv in He as Henc; [|done].
  destruct (decide (ts = [])) as [->|Hnil].
  - left. inversion Henc; subst. apply slice_head in Hsl. rewrite zlen_cons, zlen_nil in *.
    replace (j + (1 + 0) - 1) with j in Hb by lia. split; [congruence|lia].
  - right. exists l, ts. split_and!; auto.
    assert (all_trail ts) as Hts by (unfold all_trail; destruct Henc; auto).
    destruct (exists_last Hnil) as (front & b' & ->). apply Forall_app in Hts as [_ [Hb' _]%Forall_cons].
    specialize (Hsl (zlen (l :: front)) b'). rewrite app_comm_cons in Hsl.
    specialize (Hsl ltac:(by apply zget_middle)).
    replace (j + zlen (l :: front ++ [b']) - 1) with (j + zlen (l :: front)) in Hb by zlia. congruence.
Qed.

(** [U8_PREV] decodes UTF-8 backwards.  On every byte string it reads at or
    after [start], moves back to the index that [U8_BACK_1] gives, and returns the
    scalar value whose encoding ends at the index it started from; it returns -1
    exactly when no encoding that begins at or after [start] ends there. *)
Theorem U8_PREV_correct s start i :
  Forall is_u8 s -> 0 <= start < i -> i <= zlen s ->
  exists c j, U8_PREV s start i = Some (c, j) /\ U8_BACK_1 s start i = Some j /\ start <= j < i /\
    ((scalar c /\ slice s j (utf8_encode c) /\ i = j + zlen (utf8_encode c)) \/
     (c = -1 /\ forall c' j', scalar c' -> start <= j' -> slice s j' (utf8_encode c') ->
        i <> j' + zlen (utf8_encode c'))).
Proof.
  intros Hs Hi Hlen. destruct (zget_is_Some s (i - 1)) as [b Hb]; [lia|].
  pose proof (byte_at s Hs _ _ Hb) as Hb8. pose proof Hb8 as Hb8'. unfold is_u8 in Hb8'.
  unfold U8_PREV, U8_BACK_1. cbv zeta. rewrite Hb. mstep. rewrite U8_IS_TRAIL_spec, Z.geb_leb by done.
  destruct (0x80 <=? b) eqn:E80; bool_prop.
  2:{ exists b, (i - 1).
      assert (is_trail b = false) as -> by (unfold is_trail; by rewrite Z_leb_false by lia).
      assert (utf8_encode b = [b]) as Henc by (unfold utf8_encode; by rewrite Z_ltb_true).
      rewrite Henc. do 2 (split; [done|]). split; [lia|]. left.
      split; [unfold scalar, surrogate; lia|]. split; [by apply slice_cons, slice_nil|zlia]. }
  destruct (is_trail b) eqn:Ht.
  - assert (slice s (i - 1) [b]) as Hsl by (by apply slice_cons, slice_nil).
    set (Z' := if i - 1 - 5 >? start then i - 1 - 5 else start).
    destruct (prev_loop_spec s start (i - 1) (-1) 5 [b] (i - 1) Z') as (r & j & Hr & Hback & Hj & Hres);
      [done|lia|by constructor|done|zlia|zlia|zlia|unfold Z'; if_cases; bool_prop; lia|].
    assert (utf8_prevCharSafeBody s start (i - 1) b (-1) = Some (r, j)) as Hprev.
    { unfold utf8_prevCharSafeBody. rewrite U8_IS_TRAIL_spec, Ht by done. cbn [negb].
      rewrite <- Hr, land_3f by done. change (trail_bits [b]) with ((b - 0x80) * 1 + 0).
      rewrite Z.mul_1_r, Z.add_0_r. reflexivity. }
    exists r, j. split; [done|]. split.
    { unfold utf8_back1SafeBody. cbv zeta. fold Z'. cbn [back1_loop]. rewrite Hb. mstep.
      destruct (byte_class b Hb8) as (_ & -> & Hc). pose proof (is_trail_range b Ht).
      rewrite Z_leb_true, Z_ltb_true by lia. cbn [andb negb]. destruct Hc as [_ ->]; [lia|].
      rewrite Ht. exact Hback. }
    split; [lia|]. destruct Hres as [(Hleg & Hslr & Heq)|[k Hk]].
    + left. split; [by apply legal_scalar|]. split; [done|lia].
    + right. injection Hk as <-. split; [done|]. intros c' j' Hc' Hj' Hsl' Heq.
      destruct (encoding_end s c' j' i b Hc' Hsl' Heq Hb) as [(-> & _ & ?)|(l & ts & He & Henc & Hnil & _)]; [lia|].
      rewrite He in *. rewrite (prev_complete s Hs start (i - 1) (-1) ltac:(lia) c' l ts j' b) in Hprev;
        [|done|done|done|zlia|done|by apply legal_scalar|done].
      simplify_eq. destruct Hc' as [[Hneg _] _]. by vm_compute in Hneg.
  - exists (-1), (i - 1). unfold utf8_prevCharSafeBody. rewrite U8_IS_TRAIL_spec, Ht by done.
    split; [done|]. split; [done|]. split; [lia|]. right. split; [done|]. intros c' j' Hc' Hj' Hsl' Heq.
    destruct (encoding_end s c' j' i b Hc' Hsl' Heq Hb) as [(-> & _ & ?)|(l & ts & _ & _ & _ & ?)]; [lia|congruence].
Qed.

Lemma slice_app_mid (pre mid post : list Z) : slice (pre ++ mid ++ post) (zlen pre) mid.
Proof.
  intros k t Hk. pose proof (zget_lt _ _ _ Hk). rewrite zget_app_r by lia.
  replace (zlen pre + k - zlen pre) with k by lia. by rewrite zget_app_l by lia.
Qed.

Lemma U8_PREV_complete s start j c :
  Forall is_u8 s -> 0 <= start <= j -> scalar c -> slice s j (utf8_encode c) ->
  U8_PREV s start (j + zlen (utf8_encode c)) = Some (c, j).
Proof.
  intros Hs Hj Hc Hsl. destruct (encode_nonempty c) as (l & ts & He).
  set (i := j + zlen (utf8_encode c)).
  assert (exists b, s.[i - 1] = Some b) as [b Hb].
  { destruct (zget_is_Some (utf8_encode c) (zlen (utf8_encode c) - 1)) as [b Hb]; [rewrite He; zlia|].
    exists b. apply Hsl in Hb. unfold i. rewrite <- Hb. f_equal. lia. }
  destruct (encoding_end s c j i b Hc Hsl eq_refl Hb) as [(-> & Hji & Hr)|(l' & ts' & He' & Henc & Hnil & Ht)];
    unfold U8_PREV; cbv zeta; rewrite Hb; mstep; rewrite Z.geb_leb.
  - rewrite Z_leb_false by lia. by rewrite Hji.
  - pose proof (is_trail_range b Ht). rewrite Z_leb_true by lia. rewrite He' in *.
    eapply prev_complete; eauto; [lia|lia|unfold i; rewrite He'; zlia|by apply legal_scalar].
Qed.

(** C31: encoding and decoding are inverse: what [U8_APPEND] writes for a scalar
    value, in any buffer with room for it, is read back by [U8_NEXT] from its
    first byte and by [U8_PREV] from its end; the bytes around it are untouched. *)
Theorem U8_roundtrip pre gap post capacity c isError :
  Forall is_u8 pre -> Forall is_u8 post -> scalar c ->
  zlen gap = zlen (utf8_encode c) -> zlen pre + zlen gap <= capacity ->
  let i := zlen pre in
  exists s j, U8_APPEND (pre ++ gap ++ post) i capacity c isError = Some (s, j, isError) /\
    s = pre ++ utf8_encode c ++ post /\
    U8_NEXT s i (zlen s) = Some (c, j) /\ U8_PREV s 0 j = Some (c, i).
Proof.
  intros Hpre Hpost Hc Hgap Hcap. cbv zeta. eexists _, _. split; [by apply U8_APPEND_room|].
  assert (Forall is_u8 (pre ++ utf8_encode c ++ post)) as Hs.
  { rewrite !Forall_app. split_and!; auto. apply encode_bytes. apply Hc. }
  pose proof (slice_app_mid pre (utf8_encode c) post) as Hsl. rewrite Hgap. pose proof (zlen_nonneg pre).
  split; [done|]. split.
  - apply U8_NEXT_complete; [done|by left|lia|done|done].
  - apply U8_PREV_complete; [done|lia|done|done].
Qed.

(** [U8_APPEND] reports exactly what it cannot write: a value that is not a
    scalar value, or one (of more than a byte) whose encoding does not fit, sets
    the error flag and leaves the buffer and the index. *)
Theorem U8_APPEND_errors s i capacity c isError :
  is_s32 c -> ~ scalar c \/ (0x80 <= c /\ capacity < i + zlen (utf8_encode c)) ->
  U8_APPEND s i capacity c isError = Some (s, i, true).
Proof. apply U8_APPEND_error. Qed.

(** ** Witnesses *)
Definition mixed : list Z := [0x41; 0xe2; 0x82; 0xac; 0xed; 0xa0; 0x80; 0].

Lemma mixed_bytes : Forall is_u8 mixed.
Proof. unfold mixed, is_u8. repeat constructor; lia. Qed.

Lemma U8_NEXT_correct_witness :
  exists c j, U8_NEXT mixed 1 (-1) = Some (c, j) /\ U8_FWD_1 mixed 1 (-1) = Some j /\ 1 < j <= 8.
Proof.
  destruct (U8_NEXT_correct mixed 1 (-1)) as (c & j & H1 & H2 & H3 & _);
    [apply mixed_bytes|right; split; [lia|reflexivity]|split; [lia|reflexivity]|].
  exists c, j. split; [exact H1|]. split; [exact H2|exact H3].
Defined.

Lemma U8_PREV_correct_witness :
  exists c j, U8_PREV mixed 0 4 = Some (c, j) /\ U8_BACK_1 mixed 0 4 = Some j /\ 0 <= j < 4.
Proof.
  destruct (U8_PREV_correct mixed 0 4) as (c & j & H1 & H2 & H3 & _);
    [apply mixed_bytes|lia|vm_compute; discriminate|].
  exists c, j. split; [exact H1|]. split; [exact H2|exact H3].
Defined.

Lemma U8_roundtrip_witness :
  exists s j, U8_APPEND ([0x41] ++ [0; 0; 0; 0] ++ [0x42]) 1 6 0x1f600 false = Some (s, j, false) /\
    U8_NEXT s 1 (zlen s) = Some (0x1f600, j).
Proof.
  destruct (U8_roundtrip [0x41] [0; 0; 0; 0] [0x42] 6 0x1f600 false) as (s & j & H1 & _ & H2 & _).
  - repeat constructor; unfold is_u8; lia.
  - repeat constructor; unfold is_u8; lia.
  - unfold scalar, surrogate. lia.
  - reflexivity.
  - vm_compute. discriminate.
  - exists s, j. split; [exact H1|exact H2].
Defined.

Lemma U8_APPEND_errors_witness :
  U8_APPEND [0; 0; 0] 0 3 0xd800 false = Some ([0; 0; 0], 0, true).
Proof. apply U8_APPEND_errors; [unfold is_s32; lia|left; unfold scalar, surrogate; lia]. Defined.
