(* ===== verification/CString.v ===== *)
(** * CString: character and string functions (src/Source/icu/cstring.c, cstring.h)

    A [char] is a signed 8-bit value and a string is a buffer, a list that
    contains a NUL; [None] is an access outside the buffer or an overflow. *)
From S2P Require Import Prelude.
Local Open Scope Z_scope.

(** ** Characters (the build's execution character set is ASCII) *)
Definition uprv_isASCIILetter (c : Z) : bool :=
  ((0x61 <=? c) && (c <=? 0x7a)) || ((0x41 <=? c) && (c <=? 0x5a)).

Definition uprv_toupper (c : Z) : Z :=
  if (0x61 <=? c) && (c <=? 0x7a) then s8 (c + (0x41 - 0x61)) else c.

Definition uprv_asciitolower (c : Z) : Z :=
  if (0x41 <=? c) && (c <=? 0x5a) then s8 (c + 0x20) else c.

Definition uprv_ebcdictolower (c : Z) : Z :=
  if ((0xc1 <=? u8 c) && (u8 c <=? 0xc9)) || ((0xd1 <=? u8 c) && (u8 c <=? 0xd9))
     || ((0xe2 <=? u8 c) && (u8 c <=? 0xe9))
  then s8 (c - 0x40) else c.

(** ** Case conversion in place: the loop ends after the NUL *)
Fixpoint T_CString_toLowerCase (str : list Z) : option (list Z) :=
  match str with
  | [] => None
  | c :: rest =>
      let c := uprv_asciitolower c in
      if c =? 0 then Some (c :: rest)
      else rest ← T_CString_toLowerCase rest; Some (c :: rest)
  end.

Fixpoint T_CString_toUpperCase (str : list Z) : option (list Z) :=
  match str with
  | [] => None
  | c :: rest =>
      let c := uprv_toupper c in
      if c =? 0 then Some (c :: rest)
      else rest ← T_CString_toUpperCase rest; Some (c :: rest)
  end.

(** ** Numbers *)
Definition T_CString_itosOffset (a : Z) : Z := if a <=? 9 then 0x30 + a else 0x41 + a - 10.

Definition sizeof_tbuf : Z := 30.

(** The loop that generates the digits backwards into [tbuf]; [tbx] is the index
    of the last character written.  Every turn divides [uval] by the radix, so
    [fuel] of 64 is enough for 64-bit values. *)
Fixpoint digits_loop (fuel : nat) (tbuf : list Z) (tbx uval radix : Z) : option (list Z * Z) :=
  match fuel with
  | O => None
  | S fuel =>
      let digit := u8 (uval mod radix) in
      let tbx := tbx - 1 in
      tbuf ← zset tbuf tbx (s8 (T_CString_itosOffset digit));
      let uval := uval / radix in
      if uval =? 0 then Some (tbuf, tbx) else digits_loop fuel tbuf tbx uval radix
  end.

(** The characters of a string up to and including its NUL. *)
Fixpoint cstr (buf : list Z) : option (list Z) :=
  match buf with
  | [] => None
  | c :: rest => if c =? 0 then Some [0] else rest ← cstr rest; Some (c :: rest)
  end.

(** [uprv_strcpy(buffer+i, src)] *)
Definition strcpy_at (buffer : list Z) (i : Z) (src : list Z) : option (list Z) :=
  s ← cstr src;
  if (0 <=? i) && (i + zlen s <=? zlen buffer)
  then Some (take (Z.to_nat i) buffer ++ s ++ drop (Z.to_nat (i + zlen s)) buffer)
  else None.

(** [-v] overflows for the least value; [tbuf] is uninitialised, here zero. *)
Definition T_CString_integerToString (buffer : list Z) (v radix : Z) : option (list Z * Z) :=
  let uval := u32 v in
  '(buffer, length, uval) ←
    (if (v <? 0) && (radix =? 10) then
       n ← chk32 (- v);
       buffer ← zset buffer 0 0x2d;
       Some (buffer, 1, u32 n)
     else Some (buffer, 0, uval));
  let tbx := sizeof_tbuf - 1 in
  tbuf ← zset (replicate (Z.to_nat sizeof_tbuf) 0) tbx 0;
  '(tbuf, tbx) ← digits_loop 64 tbuf tbx uval radix;
  buffer ← strcpy_at buffer length (drop (Z.to_nat tbx) tbuf);
  Some (buffer, length + sizeof_tbuf - tbx - 1).

Definition T_CString_int64ToString (buffer : list Z) (v radix : Z) : option (list Z * Z) :=
  let uval := u64 v in
  '(buffer, length, uval) ←
    (if (v <? 0) && (radix =? 10) then
       n ← (if decide (is_s64 (- v)) then Some (- v) else None);
       buffer ← zset buffer 0 0x2d;
       Some (buffer, 1, u64 n)
     else Some (buffer, 0, uval));
  let tbx := sizeof_tbuf - 1 in
  tbuf ← zset (replicate (Z.to_nat sizeof_tbuf) 0) tbx 0;
  '(tbuf, tbx) ← digits_loop 64 tbuf tbx uval radix;
  buffer ← strcpy_at buffer length (drop (Z.to_nat tbx) tbuf);
  Some (buffer, length + sizeof_tbuf - tbx - 1).

(** [strtoul] of the C library, for a radix from 2 to 16 and a 32-bit
    [unsigned long]: white space, a sign, a 0x prefix when the radix is 16, the
    digits; the largest value on overflow. *)
Definition digit_value (c : Z) : Z :=
  if (0x30 <=? c) && (c <=? 0x39) then c - 0x30
  else if (0x41 <=? c) && (c <=? 0x5a) then c - 0x41 + 10
  else if (0x61 <=? c) && (c <=? 0x7a) then c - 0x61 + 10
  else 36.

Fixpoint strtoul_digits (s : list Z) (radix acc : Z) : Z :=
  match s with
  | c :: s => if digit_value c <? radix then strtoul_digits s radix (acc * radix + digit_value c) else acc
  | [] => acc
  end.

Fixpoint skip_space (s : list Z) : list Z :=
  match s with
  | c :: s' => if (c =? 0x20) || ((9 <=? c) && (c <=? 13)) then skip_space s' else s
  | [] => []
  end.

Definition skip_prefix (s : list Z) (radix : Z) : list Z :=
  match s with
  | c0 :: x :: d :: _ =>
      if (radix =? 16) && (c0 =? 0x30) && ((x =? 0x78) || (x =? 0x58)) && (digit_value d <? 16)
      then drop 2 s else s
  | _ => s
  end.

Definition strtoul (s : list Z) (radix : Z) : Z :=
  let s := skip_space s in
  let '(negative, s) :=
    match s with
    | c :: s' => if c =? 0x2d then (true, s') else if c =? 0x2b then (false, s') else (false, s)
    | [] => (false, s)
    end in
  let n := strtoul_digits (skip_prefix s radix) radix 0 in
  if 2 ^ 32 <=? n then 2 ^ 32 - 1 else if negative : bool then u32 (- n) else n.

Definition T_CString_stringToInteger (integerString : list Z) (radix : Z) : Z :=
  s32 (strtoul integerString radix).

(** ** Comparison without case; NULL is [None] *)
Definition lower8 (c : Z) : Z := u8 (uprv_asciitolower (s8 c)).

Fixpoint stricmp_loop (str1 str2 : list Z) : option Z :=
  match str1, str2 with
  | c1 :: rest1, c2 :: rest2 =>
      let c1 := u8 c1 in
      let c2 := u8 c2 in
      if c1 =? 0 then if c2 =? 0 then Some 0 else Some (-1)
      else if c2 =? 0 then Some 1
      else
        let rc := lower8 c1 - lower8 c2 in
        if negb (rc =? 0) then Some rc else stricmp_loop rest1 rest2
  | _, _ => None
  end.

Definition uprv_stricmp (str1 str2 : option (list Z)) : option Z :=
  match str1, str2 with
  | None, None => Some 0
  | None, Some _ => Some (-1)
  | Some _, None => Some 1
  | Some s1, Some s2 => stricmp_loop s1 s2
  end.

Fixpoint strnicmp_loop (n : nat) (str1 str2 : list Z) : option Z :=
  match n with
  | O => Some 0
  | S n =>
      match str1, str2 with
      | c1 :: rest1, c2 :: rest2 =>
          let c1 := u8 c1 in
          let c2 := u8 c2 in
          if c1 =? 0 then if c2 =? 0 then Some 0 else Some (-1)
          else if c2 =? 0 then Some 1
          else
            let rc := lower8 c1 - lower8 c2 in
            if negb (rc =? 0) then Some rc else strnicmp_loop n rest1 rest2
      | _, _ => None
      end
  end.

Definition uprv_strnicmp (str1 str2 : option (list Z)) (n : Z) : option Z :=
  match str1, str2 with
  | None, None => Some 0
  | None, Some _ => Some (-1)
  | Some _, None => Some 1
  | Some s1, Some s2 => strnicmp_loop (Z.to_nat n) s1 s2
  end.

(** ** Duplication: the inner [None] is NULL, the allocation failed *)
Definition uprv_strdup (malloc : Z -> bool) (src : list Z) : option (option (list Z)) :=
  s ← cstr src;
  Some (if malloc (zlen s) then Some s else None).

Definition uprv_strndup (malloc : Z -> bool) (src : list Z) (n : Z) : option (option (list Z)) :=
  if n <? 0 then uprv_strdup malloc src
  else
    len ← chk32 (n + 1);
    if malloc len then
      if n <=? zlen src then Some (Some (take (Z.to_nat n) src ++ [0])) else None
    else Some None.

Example minus_42 : T_CString_integerToString (replicate 12 7) (-42) 10
  = Some ([0x2d; 0x34; 0x32; 0] ++ replicate 8 7, 3).
Proof. reflexivity. Qed.
Example ff : T_CString_integerToString (replicate 12 7) 255 16 = Some ([0x46; 0x46; 0] ++ replicate 9 7, 2).
Proof. reflexivity. Qed.
