(* ===== verification/CStringProps.v ===== *)
(** * CStringProps: theorems about the string functions *)
From S2P Require Import Prelude CString.
Local Open Scope Z_scope.

(** ** Printing and reading numbers *)

(** A character that [T_CString_itosOffset] produces. *)
Definition digit_char (c : Z) : Prop := 0x30 <= c <= 0x39 \/ 0x41 <= c <= 0x46.

Lemma itosOffset_spec d :
  0 <= d < 16 ->
  s8 (T_CString_itosOffset (u8 d)) = T_CString_itosOffset d /\
  digit_char (T_CString_itosOffset d) /\ digit_value (T_CString_itosOffset d) = d.
Proof.
  intros Hd. unfold u8. rewrite Z.mod_small by lia.
  unfold T_CString_itosOffset, digit_char, digit_value, s8.
  destruct (d <=? 9) eqn:E; bool_prop; rewrite Z.mod_small by lia;
    (split; [lia|split; [lia|]]); repeat if_cases; bool_prop; lia || (destruct E0; bool_prop; lia).
Qed.

Lemma strtoul_digit c s radix acc :
  digit_value c < radix -> strtoul_digits (c :: s) radix acc = strtoul_digits s radix (acc * radix + digit_value c).
Proof. intros. simpl. by rewrite Z_ltb_true. Qed.

(** What the digits in front of a string stand for. *)
Definition digits_of (radix uval : Z) (ds : list Z) : Prop :=
  Forall digit_char ds /\
  forall acc tl, strtoul_digits (ds ++ tl) radix acc = strtoul_digits tl radix (acc * radix ^ zlen ds + uval).

Lemma digits_of_snoc radix uval d ds :
  2 <= radix <= 16 -> 0 <= d < radix -> digits_of radix uval ds ->
  digits_of radix (uval * radix + d) (ds ++ [T_CString_itosOffset d]).
Proof.
  intros Hr Hd [Hds Hval]. destruct (itosOffset_spec d) as (_ & Hc & Hv); [lia|]. split.
  - apply Forall_app. split; [done|]. by constructor.
  - intros acc tl. rewrite <- app_assoc, Hval. cbn [app]. rewrite strtoul_digit by lia. f_equal.
    rewrite Hv, zlen_app. change (zlen [_]) with 1. rewrite Z.pow_add_r by zlia. lia.
Qed.

Lemma digits_of_single radix d :
  2 <= radix <= 16 -> 0 <= d < radix -> digits_of radix d [T_CString_itosOffset d].
Proof.
  intros. replace d with (0 * radix + d) at 1 by lia. apply (digits_of_snoc radix 0 d []); [done|done|].
  split; [constructor|]. intros. cbn [app]. f_equal. rewrite zlen_nil. lia.
Qed.

(** The loop writes the digits of [uval] in front of [tl]. *)
Lemma digits_loop_spec fuel n pre tl uval radix :
  2 <= radix <= 16 -> 0 <= uval < radix ^ n -> 1 <= n <= zlen pre -> n <= Z.of_nat fuel ->
  exists pre' ds, digits_loop fuel (pre ++ tl) (zlen pre) uval radix = Some (pre' ++ ds ++ tl, zlen pre') /\
    zlen pre = zlen pre' + zlen ds /\ 1 <= zlen ds <= n /\ digits_of radix uval ds.
Proof.
  intros Hr. revert n pre tl uval. induction fuel as [|fuel IH]; intros n pre tl uval Hu Hn Hf; [lia|].
  destruct (exists_last (l := pre)) as (pre1 & x & ->); [intros ->; by zlens; lia|].
  pose proof (Z.mod_pos_bound uval radix ltac:(lia)) as Hm.
  destruct (itosOffset_spec (uval mod radix)) as (Hs8 & _); [lia|].
  cbn [digits_loop]. cbv zeta. rewrite Hs8, <- app_assoc. cbn [app].
  rewrite zset_middle by zlia. mstep.
  assert (uval = uval / radix * radix + uval mod radix) as Hdm by (pose proof (Z.div_mod uval radix); lia).
  destruct (uval / radix =? 0) eqn:E; bool_prop.
  - exists pre1, [T_CString_itosOffset (uval mod radix)]. 
    split; [f_equal; f_equal; zlia|]. split; [zlia|]. split; [zlia|].
    rewrite E, Z.mul_0_l, Z.add_0_l in Hdm. rewrite <- Hdm. apply (digits_of_single radix uval); lia.
  - assert (n <> 1) by (intros ->; rewrite Z.pow_1_r in Hu; rewrite Z.div_small in E by lia; done).
    destruct (IH (n - 1) pre1 (T_CString_itosOffset (uval mod radix) :: tl) (uval / radix))
      as (pre' & ds & Hloop & Hlen & Hds & Hval).
    + split; [apply Z.div_pos; lia|]. apply Z.div_lt_upper_bound; [lia|].
      replace (radix * radix ^ (n - 1)) with (radix ^ n); [lia|].
      rewrite <- Z.pow_succ_r by lia. f_equal. lia.
    + zlia.
    + lia.
    + replace (zlen (pre1 ++ [x]) - 1) with (zlen pre1) by zlia. rewrite Hloop.
      exists pre', (ds ++ [T_CString_itosOffset (uval mod radix)]).
      split; [by rewrite <- app_assoc|]. split; [zlia|]. split; [zlia|].
      rewrite Hdm at 1. by apply digits_of_snoc; [|lia|].
Qed.

Lemma cstr_app ds rest : Forall (fun c => c <> 0) ds -> cstr (ds ++ 0 :: rest) = Some (ds ++ [0]).
Proof.
  induction 1 as [|c ds Hc _ IH]; [done|]. cbn [app cstr]. rewrite (proj2 (Z.eqb_neq c 0)), IH by done. done.
Qed.

Lemma digit_nonzero ds : Forall digit_char ds -> Forall (fun c => c <> 0) ds.
Proof. intros H. eapply Forall_impl; [done|]. unfold digit_char. simpl. lia. Qed.

(** The part that both printing functions share: the digits are generated and
    copied behind the sign. *)
Definition print_tail (buffer : list Z) (length uval radix : Z) : option (list Z * Z) :=
  let tbx := sizeof_tbuf - 1 in
  tbuf ← zset (replicate (Z.to_nat sizeof_tbuf) 0) tbx 0;
  '(tbuf, tbx) ← digits_loop 64 tbuf tbx uval radix;
  buffer ← strcpy_at buffer length (drop (Z.to_nat tbx) tbuf);
  Some (buffer, length + sizeof_tbuf - tbx - 1).

Lemma print_tail_spec n sign rest uval radix :
  2 <= radix <= 16 -> 0 <= uval < radix ^ n -> 1 <= n <= 29 -> n < zlen rest ->
  exists ds, print_tail (sign ++ rest) (zlen sign) uval radix
      = Some (sign ++ ds ++ 0 :: drop (Z.to_nat (zlen ds + 1)) rest, zlen sign + zlen ds) /\
    1 <= zlen ds <= n /\ digits_of radix uval ds.
Proof.
  intros Hr Hu Hn Hrest. unfold print_tail. cbv zeta.
  change (zset _ _ 0) with (Some (replicate 29 0 ++ [0] : list Z)). mstep.
  change (sizeof_tbuf - 1) with (zlen (replicate 29 (0 : Z))).
  destruct (digits_loop_spec 64 n (replicate 29 0) [0] uval radix Hr Hu) as (pre & ds & -> & Hlen & Hds & Hval);
    [change (zlen (replicate 29 (0 : Z))) with 29; lia|lia|].
  change (zlen (replicate 29 (0 : Z))) with 29 in Hlen. mstep. rewrite drop_zlen by done.
  unfold strcpy_at. rewrite cstr_app by (apply digit_nonzero, Hval). mstep.
  rewrite !Z_leb_true by zlia. cbn [andb]. mstep. exists ds. split; [|done].
  rewrite take_zlen by done. f_equal. f_equal; [|unfold sizeof_tbuf; lia].
  rewrite <- app_assoc. cbn [app]. do 3 f_equal.
  replace (Z.to_nat (zlen sign + zlen (ds ++ [0]))) with (length sign + Z.to_nat (zlen ds + 1))%nat
    by (unfold zlen; rewrite length_app; simpl; lia).
  rewrite drop_app_add'; [done|]. done.
Qed.

Lemma skip_space_digit c s : digit_char c -> skip_space (c :: s) = c :: s.
Proof. unfold digit_char. intros. cbn [skip_space]. rewrite (proj2 (Z.eqb_neq c 0x20)) by lia.
  rewrite (Z_leb_false c 13) by lia. by rewrite andb_false_r. Qed.

Lemma skip_prefix_digits ds rest radix :
  Forall digit_char ds -> skip_prefix (ds ++ 0 :: rest) radix = ds ++ 0 :: rest.
Proof.
  intros Hds. unfold skip_prefix. destruct Hds as [|c0 [|x ds] Hc0 Hds]; cbn [app].
  - destruct rest as [|x [|d rest]]; [done..|].
    by rewrite andb_false_r.
  - destruct rest as [|d rest]; [done|]. simpl. by rewrite !andb_false_r.
  - apply Forall_cons in Hds as [Hx _]. unfold digit_char in Hx.
    rewrite (proj2 (Z.eqb_neq x 0x78)), (proj2 (Z.eqb_neq x 0x58)) by lia. cbn [orb].
    rewrite andb_false_r. by destruct (ds ++ 0 :: rest).
Qed.

Lemma strtoul_end radix uval ds rest :
  2 <= radix <= 16 -> digits_of radix uval ds ->
  strtoul_digits (skip_prefix (ds ++ 0 :: rest) radix) radix 0 = uval.
Proof.
  intros Hr [Hds Hval]. rewrite skip_prefix_digits, Hval by done.
  cbn [strtoul_digits]. change (digit_value 0) with 36. rewrite Z_ltb_false by lia. lia.
Qed.

(** Reading back what was printed, with or without a sign. *)
Lemma strtoul_printed radix uval ds rest :
  2 <= radix <= 16 -> 0 <= uval < 2 ^ 32 -> 1 <= zlen ds -> digits_of radix uval ds ->
  strtoul (ds ++ 0 :: rest) radix = uval /\ strtoul (0x2d :: ds ++ 0 :: rest) radix = u32 (- uval).
Proof.
  intros Hr Hu Hlen Hd. destruct ds as [|c ds]; [zlia|]. pose proof Hd as [Hc _]. apply Forall_cons in Hc as [Hc _].
  pose proof (strtoul_end radix uval (c :: ds) rest Hr Hd) as Hend. split.
  - unfold strtoul. cbn [app] in *. rewrite skip_space_digit by done. unfold digit_char in Hc.
    rewrite (proj2 (Z.eqb_neq c 0x2d)), (proj2 (Z.eqb_neq c 0x2b)) by lia.
    by rewrite Hend, Z_leb_false by lia.
  - change (strtoul (0x2d :: (c :: ds) ++ 0 :: rest) radix)
      with (let n := strtoul_digits (skip_prefix ((c :: ds) ++ 0 :: rest) radix) radix 0 in
            if 2 ^ 32 <=? n then 2 ^ 32 - 1 else u32 (- n)). cbv zeta.
    by rewrite Hend, Z_leb_false by lia.
Qed.

(** How many digits a 32-bit value has at most. *)
Definition max_digits (radix : Z) : Z := if radix =? 2 then 29 else if radix =? 10 then 10 else 21.

Lemma max_digits_enough radix uval :
  2 <= radix <= 16 -> 0 <= uval < 2 ^ 32 -> (radix = 2 -> uval < 2 ^ 29) ->
  uval < radix ^ max_digits radix.
Proof.
  intros Hr Hu H2. unfold max_digits. destruct (radix =? 2) eqn:E2; bool_prop; [subst; by apply H2|].
  destruct (radix =? 10) eqn:E10; bool_prop; [subst; lia|].
  apply Z.lt_le_trans with (3 ^ 21); [lia|]. apply Z.pow_le_mono_l. lia.
Qed.

(** Printing and reading a 32-bit integer are inverse, for every radix from 2
    to 16 and a buffer that is large enough (12 characters in radix 10): the
    buffer gets the digits and a NUL, the rest of it is untouched, the length is
    returned, and [T_CString_stringToInteger] reads the value back, also when it
    is negative.  The least integer in radix 10 and values of 30 binary digits
    are excluded: the first overflows, the others overrun the work buffer. *)
Theorem integerToString_roundtrip buffer v radix :
  is_s32 v -> 2 <= radix <= 16 -> (radix = 10 -> v <> - 2 ^ 31) -> (radix = 2 -> 0 <= v < 2 ^ 29) ->
  max_digits radix + 2 <= zlen buffer ->
  exists s n, T_CString_integerToString buffer v radix
      = Some (s ++ 0 :: drop (Z.to_nat (n + 1)) buffer, n) /\
    zlen s = n /\ 1 <= n <= max_digits radix + 1 /\
    T_CString_stringToInteger (s ++ 0 :: drop (Z.to_nat (n + 1)) buffer) radix = v.
Proof.
  intros Hv Hr H10 H2 Hbuf. unfold T_CString_integerToString. cbv zeta. unfold is_s32 in Hv.
  assert (1 <= max_digits radix <= 29) as Hmax by (unfold max_digits; repeat if_cases; lia).
  destruct ((v <? 0) && (radix =? 10)) eqn:E.
  - bool_prop. subst radix. specialize (H10 eq_refl). rewrite chk32_ok by lia. mstep.
    destruct buffer as [|x rest]; [zlia|].
    rewrite (zset_middle [] rest x _ 0) by done. mstep. cbn [app].
    assert (u32 (- v) = - v) as -> by (apply Z.mod_small; lia).
    change 10 with 10 in *. destruct (print_tail_spec (max_digits 10) [0x2d] rest (- v) 10)
      as (ds & Hp & Hds & Hval); [lia|split; [lia|apply max_digits_enough; lia]|lia|zlia|].
    unfold print_tail in Hp. cbn [app] in Hp. change (zlen [0x2d]) with 1 in Hp. rewrite Hp.
    exists (0x2d :: ds), (1 + zlen ds). replace (1 + zlen ds + 1) with (1 + (zlen ds + 1)) by lia.
    rewrite (Z2Nat.inj_add 1) by zlia. split; [done|]. split; [zlia|]. split; [lia|].
    unfold T_CString_stringToInteger. cbn [app].
    destruct (strtoul_printed 10 (- v) ds (drop (Z.to_nat 1 + Z.to_nat (zlen ds + 1)) (x :: rest)))
      as [_ ->]; [lia|lia|lia|done|].
    unfold s32, u32. Z.to_euclidean_division_equations; lia.
  - mstep. pose proof (Z.mod_pos_bound v (2 ^ 32) eq_refl) as Hu. fold (u32 v) in Hu.
    destruct (print_tail_spec (max_digits radix) [] buffer (u32 v) radix) as (ds & Hp & Hds & Hval).
    + done.
    + split; [lia|]. apply max_digits_enough; [done|done|]. intros ->. rewrite u32_small; lia.
    + lia.
    + lia.
    + unfold print_tail in Hp. cbn [app] in Hp. change (zlen []) with 0 in Hp. rewrite Hp.
      exists ds, (zlen ds). split; [done|]. split; [done|]. split; [lia|].
      unfold T_CString_stringToInteger.
      destruct (strtoul_printed radix (u32 v) ds (drop (Z.to_nat (zlen ds + 1)) buffer)) as [-> _];
        [done|done|lia|done|].
      unfold s32, u32. Z.to_euclidean_division_equations; lia.
Qed.

Lemma integerToString_roundtrip_witness :
  exists s n, T_CString_integerToString (replicate 12 0) (-2147483647) 10
      = Some (s ++ 0 :: drop (Z.to_nat (n + 1)) (replicate 12 0), n) /\
    T_CString_stringToInteger (s ++ 0 :: drop (Z.to_nat (n + 1)) (replicate 12 0)) 10 = -2147483647.
Proof.
  destruct (integerToString_roundtrip (replicate 12 0) (-2147483647) 10) as (s & n & H1 & _ & _ & H2).
  - unfold is_s32. lia.
  - lia.
  - lia.
  - lia.
  - vm_compute. discriminate.
  - exists s, n. split; [exact H1|exact H2].
Defined.

(** The assertion of the printing functions admits radix 2, but a value of 30
    binary digits overruns the 30 characters of the work buffer, however large
    the buffer of the caller: 536870911 is printed, 536870912 is not; a 64-bit
    value can already overrun it in radix 4. *)
Theorem integerToString_overrun :
  (exists r, T_CString_integerToString (replicate 64 0) 536870911 2 = Some (r, 29)) /\
  T_CString_integerToString (replicate 64 0) 536870912 2 = None /\
  T_CString_int64ToString (replicate 64 0) (2 ^ 58) 4 = None.
Proof. split_and!; [eexists|..]; vm_compute; reflexivity. Qed.

(** ** Comparison without case *)

(** The strict lexicographic order. *)
Inductive lex_lt : list Z -> list Z -> Prop :=
  | lex_nil y b : lex_lt [] (y :: b)
  | lex_head x y a b : x < y -> lex_lt (x :: a) (y :: b)
  | lex_tail x a b : lex_lt a b -> lex_lt (x :: a) (x :: b).

(** The bytes of a string as the comparison sees them. *)
Definition folded (s : list Z) : list Z := map (fun c => lower8 (u8 c)) s.

Definition is_char (c : Z) : Prop := -128 <= c <= 127 /\ c <> 0.

Lemma u8_char c : is_char c -> u8 c <> 0.
Proof. unfold is_char, u8. intros. Z.to_euclidean_division_equations; lia. Qed.

Lemma lex_lt_irrefl a : ~ lex_lt a a.
Proof. induction a as [|x a IH]; intros H; inversion H; subst; [lia|auto]. Qed.

Lemma lex_lt_asym a b : lex_lt a b -> ~ lex_lt b a.
Proof. induction 1; intros H'; inversion H'; subst; auto; lia. Qed.

(** The sign of a result against the order of two strings. *)
Definition ordered (r : Z) (a b : list Z) : Prop :=
  (r < 0 /\ lex_lt a b) \/ (r = 0 /\ a = b) \/ (r > 0 /\ lex_lt b a).

Lemma ordered_iff r a b :
  ordered r a b -> (r < 0 <-> lex_lt a b) /\ (r = 0 <-> a = b) /\ (r > 0 <-> lex_lt b a).
Proof.
  intros [[? H]|[[? ->]|[? H]]].
  - pose proof (lex_lt_asym _ _ H). split_and!; split; intros; try done; try lia.
    subst. by apply lex_lt_irrefl in H.
  - pose proof (lex_lt_irrefl b). split_and!; split; intros; done || lia.
  - pose proof (lex_lt_asym _ _ H). split_and!; split; intros; try done; try lia.
    subst. by apply lex_lt_irrefl in H.
Qed.

Lemma stricmp_loop_spec a b x y :
  Forall is_char a -> Forall is_char b ->
  exists r, stricmp_loop (a ++ 0 :: x) (b ++ 0 :: y) = Some r /\ ordered r (folded a) (folded b).
Proof.
  intros Ha. revert b. induction Ha as [|c1 a Hc1 Ha IH]; intros b Hb; destruct Hb as [|c2 b Hc2 Hb];
    cbn [app stricmp_loop]; cbv zeta.
  - exists 0. split; [done|]. right; left. done.
  - rewrite (proj2 (Z.eqb_neq (u8 c2) 0)) by (by apply u8_char). exists (-1). split; [done|].
    left. split; [lia|]. constructor.
  - rewrite (proj2 (Z.eqb_neq (u8 c1) 0)) by (by apply u8_char). exists 1. split; [done|].
    right; right. split; [lia|]. constructor.
  - rewrite !(proj2 (Z.eqb_neq _ 0)) by (by apply u8_char).
    destruct (lower8 (u8 c1) - lower8 (u8 c2) =? 0) eqn:E; bool_prop; cbn [negb].
    + destruct (IH b Hb) as (r & -> & Hr). exists r. split; [done|].
      assert (lower8 (u8 c1) = lower8 (u8 c2)) as Heq by lia. cbn [folded map]. fold (folded a) (folded b).
      rewrite Heq. destruct Hr as [[? ?]|[[? ->]|[? ?]]]; [left|right; left|right; right];
        split; auto; by constructor.
    + exists (lower8 (u8 c1) - lower8 (u8 c2)). split; [done|].
      destruct (Z.lt_total (lower8 (u8 c1)) (lower8 (u8 c2))) as [?|[?|?]]; [left|lia|right; right];
        (split; [lia|by constructor]).
Qed.

(** Comparing at most [n] characters is comparing the first [n]. *)
Lemma strnicmp_loop_take n a b x y :
  Forall is_char a -> Forall is_char b ->
  strnicmp_loop n (a ++ 0 :: x) (b ++ 0 :: y) = stricmp_loop (take n a ++ [0]) (take n b ++ [0]).
Proof.
  intros Ha. revert a b Ha. induction n as [|n IH]; intros a b Ha Hb; [done|].
  destruct Ha as [|c1 a Hc1 Ha], Hb as [|c2 b Hc2 Hb]; cbn [app take strnicmp_loop stricmp_loop]; try done.
  cbv zeta. by rewrite IH.
Qed.

(** [uprv_stricmp] is the lexicographic order of the bytes with ASCII letters
    lowered: negative, zero and positive exactly when the first string is before,
    equal to and after the second; and [uprv_strnicmp] is the same on the first
    [n] characters.  Both stay inside the strings. *)
Theorem stricmp_correct a b x y n :
  Forall is_char a -> Forall is_char b ->
  exists r rn,
    uprv_stricmp (Some (a ++ 0 :: x)) (Some (b ++ 0 :: y)) = Some r /\
    uprv_strnicmp (Some (a ++ 0 :: x)) (Some (b ++ 0 :: y)) n = Some rn /\
    ((r < 0 <-> lex_lt (folded a) (folded b)) /\ (r = 0 <-> folded a = folded b) /\
     (r > 0 <-> lex_lt (folded b) (folded a))) /\
    ((rn < 0 <-> lex_lt (folded (take (Z.to_nat n) a)) (folded (take (Z.to_nat n) b))) /\
     (rn = 0 <-> folded (take (Z.to_nat n) a) = folded (take (Z.to_nat n) b)) /\
     (rn > 0 <-> lex_lt (folded (take (Z.to_nat n) b)) (folded (take (Z.to_nat n) a)))).
Proof.
  intros Ha Hb. destruct (stricmp_loop_spec a b x y Ha Hb) as (r & Hr & Ho).
  destruct (stricmp_loop_spec (take (Z.to_nat n) a) (take (Z.to_nat n) b) [] []) as (rn & Hrn & Hon);
    [by apply Forall_take..|].
  exists r, rn. cbn [uprv_stricmp uprv_strnicmp]. rewrite strnicmp_loop_take by done.
  split; [done|]. split; [done|]. split; by apply ordered_iff.
Qed.

Lemma stricmp_correct_witness :
  exists r, uprv_stricmp (Some [0x41; 0x62; 0]) (Some [0x61; 0x42; 0; 9]) = Some r /\ r = 0.
Proof.
  destruct (stricmp_correct [0x41; 0x62] [0x61; 0x42] [] [9] 1) as (r & rn & H & _ & (_ & H0 & _) & _);
    [repeat constructor; lia..|].
  exists r. split; [exact H|]. apply H0. vm_compute. reflexivity.
Defined.

(** ** Case conversion *)
Lemma toLowerCase_spec s x :
  Forall (fun c => c <> 0) s ->
  T_CString_toLowerCase (s ++ 0 :: x) = Some (map uprv_asciitolower s ++ 0 :: x).
Proof.
  induction 1 as [|c s Hc _ IH]; [done|]. cbn [app T_CString_toLowerCase map]. cbv zeta.
  assert (uprv_asciitolower c <> 0) as Hl.
  { unfold uprv_asciitolower, s8. if_cases; [|done]. bool_prop. rewrite Z.mod_small; lia. }
  rewrite (proj2 (Z.eqb_neq _ 0)), IH by done. done.
Qed.

Lemma toUpperCase_spec s x :
  Forall (fun c => c <> 0) s ->
  T_CString_toUpperCase (s ++ 0 :: x) = Some (map uprv_toupper s ++ 0 :: x).
Proof.
  induction 1 as [|c s Hc _ IH]; [done|]. cbn [app T_CString_toUpperCase map]. cbv zeta.
  assert (uprv_toupper c <> 0) as Hl.
  { unfold uprv_toupper, s8. if_cases; [|done]. bool_prop. rewrite Z.mod_small; lia. }
  rewrite (proj2 (Z.eqb_neq _ 0)), IH by done. done.
Qed.

(** Converting the case in place changes the letters of the string only, up to
    its NUL and not beyond, and the two conversions do not change what
    [uprv_stricmp] sees: the result compares equal to the original. *)
Theorem case_conversion_stricmp s x :
  Forall is_char s ->
  exists lower upper, T_CString_toLowerCase (s ++ 0 :: x) = Some (lower ++ 0 :: x) /\
    T_CString_toUpperCase (s ++ 0 :: x) = Some (upper ++ 0 :: x) /\
    zlen lower = zlen s /\ zlen upper = zlen s /\
    uprv_stricmp (Some (s ++ 0 :: x)) (Some (lower ++ 0 :: x)) = Some 0 /\
    uprv_stricmp (Some (upper ++ 0 :: x)) (Some (lower ++ 0 :: x)) = Some 0.
Proof.
  intros Hs. assert (Forall (fun c => c <> 0) s) as Hs0.
  { eapply Forall_impl; [done|]. by intros c [_ ?]. }
  exists (map uprv_asciitolower s), (map uprv_toupper s).
  rewrite toLowerCase_spec, toUpperCase_spec by done. unfold zlen. rewrite !length_map.
  assert (forall c, is_char c -> is_char (uprv_asciitolower c) /\ is_char (uprv_toupper c) /\
    lower8 (u8 (uprv_asciitolower c)) = lower8 (u8 c) /\ lower8 (u8 (uprv_toupper c)) = lower8 (u8 c)) as Hc.
  { intros c [Hr H0].
    assert (forallb (fun c => (c =? 0) || ((-128 <=? uprv_asciitolower c) && (uprv_asciitolower c <=? 127) &&
      (-128 <=? uprv_toupper c) && (uprv_toupper c <=? 127) && negb (uprv_asciitolower c =? 0) &&
      negb (uprv_toupper c =? 0) && (lower8 (u8 (uprv_asciitolower c)) =? lower8 (u8 c)) &&
      (lower8 (u8 (uprv_toupper c)) =? lower8 (u8 c)))) (seqZ (-128) 256) = true) as H by (by vm_compute).
    apply (forallb_seqZ _ _ _ c) in H; [|lia]. apply orb_true_iff in H as [H|H]; [bool_prop; lia|].
    bool_prop. unfold is_char. split_and!; done || lia. }
  assert (folded (map uprv_asciitolower s) = folded s /\ folded (map uprv_toupper s) = folded s /\
    Forall is_char (map uprv_asciitolower s) /\ Forall is_char (map uprv_toupper s)) as (Hl & Hu & Hcl & Hcu).
  { clear Hs0. induction Hs as [|c s Hc' _ (IH1 & IH2 & IH3 & IH4)]; [split_and!; constructor|].
    destruct (Hc c Hc') as (? & ? & ? & ?). unfold folded in *. cbn [map].
    split_and!; [by f_equal|by f_equal|by constructor|by constructor]. }
  split_and!; try done; cbn [uprv_stricmp].
  - destruct (stricmp_loop_spec s (map uprv_asciitolower s) x x) as (r & -> & Ho%ordered_iff); [done..|].
    f_equal. apply Ho. done.
  - destruct (stricmp_loop_spec (map uprv_toupper s) (map uprv_asciitolower s) x x) as (r & -> & Ho%ordered_iff); [done..|].
    f_equal. apply Ho. congruence.
Qed.

Lemma case_conversion_stricmp_witness :
  exists lower upper, T_CString_toLowerCase [0x41; 0x7a; 0; 0x42] = Some (lower ++ 0 :: [0x42]) /\
    uprv_stricmp (Some (upper ++ [0; 0x42])) (Some (lower ++ [0; 0x42])) = Some 0.
Proof.
  destruct (case_conversion_stricmp [0x41; 0x7a] [0x42]) as (lower & upper & H1 & _ & _ & _ & _ & H2);
    [repeat constructor; lia|].
  exists lower, upper. split; [exact H1|exact H2].
Defined.
