(* ===== verification/UList.v ===== *)
(** * UList: the doubly linked list (src/Source/icu/ulist.c, ulist.h)

    Nodes live in a heap, a finite map from addresses to nodes; NULL is 0.  An
    allocation is given by the address that [uprv_malloc] returns.  [None] is a
    NULL or dangling dereference.  The structure [UList] itself is passed by
    value; [option UList] stands for a [UList*] that may be NULL. *)
From stdpp Require Import gmap.
From S2P Require Import Prelude.
Local Open Scope Z_scope.

Record UListNode : Type := mkNode {
  data : Z;
  next : Z;
  previous : Z;
  forceDelete : bool
}.

Record UList : Type := mkList {
  curr : Z;
  head : Z;
  tail : Z;
  size : Z;
  currentIndex : Z
}.

Abbreviation Heap := (gmap Z UListNode).

(** [p->next=q], [p->previous=q] *)
Definition set_next (h : Heap) (p q : Z) : option Heap :=
  n ← h !! p; Some (<[p := mkNode (data n) q (previous n) (forceDelete n)]> h).
Definition set_previous (h : Heap) (p q : Z) : option Heap :=
  n ← h !! p; Some (<[p := mkNode (data n) (next n) q (forceDelete n)]> h).

(** [allocated]: whether the allocation of the structure succeeds. *)
Definition ulist_createEmptyList (allocated : bool) (status : UErrorCode)
    : option UList * UErrorCode :=
  if U_FAILURE status then (None, status)
  else if negb allocated then (None, U_MEMORY_ALLOCATION_ERROR)
  else (Some (mkList 0 0 0 0 (-1)), status).

Definition ulist_addFirstItem (h : Heap) (list : UList) (newItem : Z) : option (Heap * UList) :=
  h ← set_next h newItem 0;
  h ← set_previous h newItem 0;
  Some (h, mkList (curr list) newItem newItem (size list) 0).

(** The node that [uprv_malloc] returned is uninitialised but for the two fields
    set right away. *)
Definition ulist_addItemEndList (h : Heap) (list : option UList) (d : Z) (force : bool)
    (newItem : Z) (status : UErrorCode) : option (Heap * option UList * UErrorCode) :=
  match list with
  | None => Some (h, None, status)
  | Some l =>
      if U_FAILURE status || (d =? 0) then Some (h, Some l, status)
      else if newItem =? 0 then Some (h, Some l, U_MEMORY_ALLOCATION_ERROR)
      else
        let h := <[newItem := mkNode d 0 0 force]> h in
        '(h, l) ←
          (if size l =? 0 then ulist_addFirstItem h l newItem
           else
             h ← set_next h newItem 0;
             h ← set_previous h newItem (tail l);
             h ← set_next h (tail l) newItem;
             Some (h, mkList (curr l) (head l) newItem (size l) (currentIndex l)));
        Some (h, Some (mkList (curr l) (head l) (tail l) (size l + 1) (currentIndex l)), status)
  end.

Definition ulist_addItemBeginList (h : Heap) (list : option UList) (d : Z) (force : bool)
    (newItem : Z) (status : UErrorCode) : option (Heap * option UList * UErrorCode) :=
  match list with
  | None => Some (h, None, status)
  | Some l =>
      if U_FAILURE status || (d =? 0) then Some (h, Some l, status)
      else if newItem =? 0 then Some (h, Some l, U_MEMORY_ALLOCATION_ERROR)
      else
        let h := <[newItem := mkNode d 0 0 force]> h in
        '(h, l) ←
          (if size l =? 0 then ulist_addFirstItem h l newItem
           else
             h ← set_previous h newItem 0;
             h ← set_next h newItem (head l);
             h ← set_previous h (head l) newItem;
             Some (h, mkList (curr l) newItem (tail l) (size l) (currentIndex l + 1)));
        Some (h, Some (mkList (curr l) (head l) (tail l) (size l + 1) (currentIndex l)), status)
  end.

(** [mem p] is the string at [p] without its NUL; [s] are the bytes at the
    argument, of which [length] are compared.  The test of the lengths converts
    [length] to [size_t]. *)
Fixpoint containsString_loop (fuel : nat) (mem : Z -> list Z) (h : Heap) (pointer : Z)
    (s : list Z) (length : Z) : option bool :=
  if pointer =? 0 then Some false
  else
    match fuel with
    | O => None
    | S fuel =>
        n ← h !! pointer;
        if (u32 length =? zlen (mem (data n)))
           && bool_decide (take (Z.to_nat length) s = mem (data n))
        then Some true
        else containsString_loop fuel mem h (next n) s length
    end.

Definition ulist_containsString (mem : Z -> list Z) (h : Heap) (s : list Z) (length : Z)
    (list : option UList) : option bool :=
  match list with
  | None => Some false
  | Some l =>
      if size l =? 0 then Some false
      else containsString_loop (Z.to_nat (size l)) mem h (head l) s length
  end.

Definition ulist_getNext (h : Heap) (list : option UList) : option (Z * option UList) :=
  match list with
  | None => Some (0, None)
  | Some l =>
      if curr l =? 0 then Some (0, Some l)
      else
        n ← h !! curr l;
        Some (data n, Some (mkList (next n) (head l) (tail l) (size l) (currentIndex l + 1)))
  end.

Definition ulist_getListSize (list : option UList) : Z :=
  match list with Some l => size l | None => -1 end.

Definition ulist_resetList (list : option UList) : option UList :=
  match list with
  | Some l => Some (mkList (head l) (head l) (tail l) (size l) 0)
  | None => None
  end.

(** The blocks freed, in order: the data of a node that forces it, and the node. *)
Fixpoint deleteList_loop (fuel : nat) (h : Heap) (listHead : Z) : option (Heap * list Z) :=
  if listHead =? 0 then Some (h, [])
  else
    match fuel with
    | O => None
    | S fuel =>
        n ← h !! listHead;
        '(h, freed) ← deleteList_loop fuel (delete listHead h) (next n);
        Some (h, (if forceDelete n then [data n] else []) ++ listHead :: freed)
    end.

Definition ulist_deleteList (h : Heap) (l : option UList) : option (Heap * list Z) :=
  match l with
  | None => Some (h, [])
  | Some l => deleteList_loop (Z.to_nat (size l)) h (head l)
  end.

(** ** The enumeration interface: [context] of the [UEnumeration] is the list *)
Record UEnumeration : Type := mkEnum { context : option UList }.

Definition ulist_close_keyword_values_iterator (h : Heap) (en : option UEnumeration)
    : option (Heap * list Z) :=
  match en with
  | None => Some (h, [])
  | Some en => ulist_deleteList h (context en)
  end.

Definition ulist_count_keyword_values (en : UEnumeration) (status : UErrorCode) : Z :=
  if U_FAILURE status then -1 else ulist_getListSize (context en).

(** The string, the new [*resultLength] when it is written, and the enumeration. *)
Definition ulist_next_keyword_value (mem : Z -> list Z) (h : Heap) (en : UEnumeration)
    (wantLength : bool) (status : UErrorCode) : option (Z * option Z * UEnumeration) :=
  if U_FAILURE status then Some (0, None, en)
  else
    '(s, list) ← ulist_getNext h (context en);
    Some (s, if negb (s =? 0) && wantLength then Some (zlen (mem s)) else None, mkEnum list).

Definition ulist_reset_keyword_values_iterator (en : UEnumeration) (status : UErrorCode)
    : UEnumeration :=
  if U_FAILURE status then en else mkEnum (ulist_resetList (context en)).

Definition ulist_getListFromEnum (en : UEnumeration) : option UList := context en.

(** ** Representation *)
Definition item : Type := (Z * bool)%type.

(** The address of the first node, [nxt] when there is none. *)
Definition first (ps : list (Z * item)) (nxt : Z) : Z :=
  match ps with [] => nxt | (p, _) :: _ => p end.
Definition final (prev : Z) (ps : list (Z * item)) : Z :=
  match last ps with Some (p, _) => p | None => prev end.

(** The nodes [ps] are linked between [prev] and [nxt]. *)
Fixpoint dseg (h : Heap) (prev : Z) (ps : list (Z * item)) (nxt : Z) : Prop :=
  match ps with
  | [] => True
  | (p, x) :: rest =>
      h !! p = Some (mkNode (fst x) (first rest nxt) prev (snd x)) /\ p <> 0 /\ dseg h p rest nxt
  end.

(** The list in the heap holds [ps], and the cursor stands before [todo]. *)
Record rep (h : Heap) (l : UList) (ps : list (Z * item)) : Prop := {
  rep_seg : dseg h 0 ps 0;
  rep_nodup : NoDup ps.*1;
  rep_head : head l = first ps 0;
  rep_tail : tail l = final 0 ps;
  rep_size : size l = zlen ps
}.

Lemma dseg_frame h h' prev ps nxt :
  (forall p, p ∈ ps.*1 -> h' !! p = h !! p) -> dseg h prev ps nxt -> dseg h' prev ps nxt.
Proof.
  revert prev. induction ps as [|[p x] ps IH]; intros prev Hh; [done|]. simpl in *.
  intros (Hp & Hp0 & Hs). split_and!; [|done|].
  - rewrite Hh; [done|]. constructor.
  - apply IH; [|done]. intros q Hq. apply Hh. by constructor.
Qed.

Lemma final_app prev a p x : final prev (a ++ [(p, x)]) = p.
Proof. unfold final. by rewrite last_snoc. Qed.

Lemma dseg_snoc h prev a p x nxt :
  dseg h prev (a ++ [(p, x)]) nxt <->
  dseg h prev a p /\ h !! p = Some (mkNode (fst x) nxt (final prev a) (snd x)) /\ p <> 0.
Proof.
  revert prev. induction a as [|[q y] a IH]; intros prev; simpl; [tauto|].
  rewrite IH. replace (final prev ((q, y) :: a)) with (final q a)
    by (unfold final; rewrite last_cons; by destruct (last a) as [[? ?]|]).
  destruct a as [|[q' y'] a]; simpl; tauto.
Qed.

(** Redirecting the [next] of the last node. *)
Lemma dseg_relink h prev a p x nxt nxt' :
  NoDup (a ++ [(p, x)]).*1 -> dseg h prev (a ++ [(p, x)]) nxt ->
  exists h', set_next h p nxt' = Some h' /\ dseg h' prev (a ++ [(p, x)]) nxt' /\
    forall q, q <> p -> h' !! q = h !! q.
Proof.
  rewrite fmap_app. intros (_ & Hnd & _)%NoDup_app (Ha & Hp & Hp0)%dseg_snoc.
  unfold set_next. rewrite Hp. mstep. eexists. split; [done|]. split.
  - rewrite dseg_snoc. rewrite lookup_insert_eq. split_and!; [|done|done].
    eapply dseg_frame; [|done]. intros q Hq. apply lookup_insert_ne. intros <-.
    eapply Hnd; [done|]. by constructor.
  - intros q Hq. by rewrite lookup_insert_ne.
Qed.

(** Redirecting the [previous] of the first node. *)
Lemma dseg_relink_first h prev prev' p x ps nxt :
  NoDup ((p, x) :: ps).*1 -> dseg h prev ((p, x) :: ps) nxt ->
  exists h', set_previous h p prev' = Some h' /\ dseg h' prev' ((p, x) :: ps) nxt /\
    forall q, q <> p -> h' !! q = h !! q.
Proof.
  intros [Hnd _]%NoDup_cons (Hp & Hp0 & Hs). unfold set_previous. rewrite Hp. mstep.
  eexists. split; [done|]. split.
  - cbn [dseg]. rewrite lookup_insert_eq. split_and!; [done|done|].
    eapply dseg_frame; [|done]. intros q Hq. apply lookup_insert_ne. by intros <-.
  - intros q Hq. by rewrite lookup_insert_ne.
Qed.

Lemma dseg_dom h prev ps nxt p : dseg h prev ps nxt -> p ∈ ps.*1 -> is_Some (h !! p).
Proof.
  revert prev. induction ps as [|[q x] ps IH]; intros prev; simpl; [by intros _ ?%elem_of_nil|].
  intros (Hq & _ & Hs) [->|Hin]%elem_of_cons; eauto.
Qed.

(** Writing the fields of a node just stored. *)
Lemma set_next_insert (h : Heap) p n q :
  set_next (<[p := n]> h) p q = Some (<[p := mkNode (data n) q (previous n) (forceDelete n)]> h).
Proof. unfold set_next. rewrite lookup_insert_eq. mstep. by rewrite insert_insert_eq. Qed.
Lemma set_previous_insert (h : Heap) p n q :
  set_previous (<[p := n]> h) p q = Some (<[p := mkNode (data n) (next n) q (forceDelete n)]> h).
Proof. unfold set_previous. rewrite lookup_insert_eq. mstep. by rewrite insert_insert_eq. Qed.

Lemma fresh_node h ps p :
  dseg h 0 ps 0 -> NoDup ps.*1 -> h !! p = None ->
  (p ∉ ps.*1) /\ forall n, dseg (<[p := n]> h) 0 ps 0.
Proof.
  intros Hseg Hnd Hfresh. assert (p ∉ ps.*1) as Hp.
  { intros Hin. destruct (dseg_dom _ _ _ _ _ Hseg Hin). congruence. }
  split; [done|]. intros n. eapply dseg_frame; [|done]. intros q Hq. apply lookup_insert_ne. by intros <-.
Qed.

(** ** The operations *)
Lemma addFirst_rep h l p d force :
  rep h l [] -> p <> 0 -> h !! p = None ->
  exists h' l', ulist_addFirstItem (<[p := mkNode d 0 0 force]> h) l p = Some (h', l') /\
    dseg h' 0 [(p, (d, force))] 0 /\ head l' = p /\ tail l' = p /\ size l' = 0 /\ curr l' = curr l.
Proof.
  intros [_ _ _ _ Hsz] Hp Hfresh. unfold ulist_addFirstItem.
  rewrite set_next_insert. mstep. rewrite set_previous_insert. mstep. eexists _, _. split; [done|].
  cbn [dseg data next previous forceDelete]. rewrite lookup_insert_eq. by split_and!.
Qed.

Lemma addEnd_spec h l ps p d force status :
  rep h l ps -> U_FAILURE status = false -> d <> 0 -> p <> 0 -> h !! p = None ->
  exists h' l', ulist_addItemEndList h (Some l) d force p status = Some (h', Some l', status) /\
    rep h' l' (ps ++ [(p, (d, force))]) /\ curr l' = curr l.
Proof.
  intros Hrep Hst Hd Hp Hfresh. pose proof Hrep as [Hseg Hnd Hh Ht Hsz].
  unfold ulist_addItemEndList. rewrite Hst, !(proj2 (Z.eqb_neq _ 0)) by done. cbn [orb]. cbv zeta.
  destruct (fresh_node h ps p Hseg Hnd Hfresh) as [Hnotin Hstill].
  assert (NoDup (ps ++ [(p, (d, force))]).*1) as Hnd'.
  { rewrite fmap_app. apply NoDup_app. split_and!; [done| |apply NoDup_singleton].
    by intros q Hq ->%list_elem_of_singleton. }
  destruct ps as [|[q y] ps _] using rev_ind.
  { rewrite Hsz, Z.eqb_refl.
    destruct (addFirst_rep h l p d force Hrep Hp Hfresh) as (h' & l' & -> & Hs' & Hh' & Ht' & Hsz' & Hc').
    mstep. eexists _, _. split; [done|]. split; [|done]. split; simpl; auto. by rewrite Hsz'. }
  rewrite final_app in Ht. rewrite Hsz, (proj2 (Z.eqb_neq _ 0)) by zlia.
  rewrite set_next_insert. mstep. rewrite set_previous_insert. mstep.
  cbn [data next previous forceDelete]. rewrite Ht.
  destruct (dseg_relink _ 0 ps q y 0 p Hnd (Hstill (mkNode d 0 q force))) as (h2 & -> & Hs2 & Hother).
  mstep. eexists _, _. split; [done|]. split; [|done]. split; simpl.
  - rewrite dseg_snoc, final_app. split_and!; [done| |done]. rewrite Hother, lookup_insert_eq; [done|].
    intros ->. apply Hnotin. rewrite fmap_app. apply elem_of_app. right. by constructor.
  - done.
  - rewrite Hh. by destruct ps as [|[? ?] ?].
  - by rewrite final_app.
  - rewrite (zlen_app _ [_]). zlia.
Qed.

Lemma addBegin_spec h l ps p d force status :
  rep h l ps -> U_FAILURE status = false -> d <> 0 -> p <> 0 -> h !! p = None ->
  exists h' l', ulist_addItemBeginList h (Some l) d force p status = Some (h', Some l', status) /\
    rep h' l' ((p, (d, force)) :: ps) /\ curr l' = curr l.
Proof.
  intros Hrep Hst Hd Hp Hfresh. pose proof Hrep as [Hseg Hnd Hh Ht Hsz].
  unfold ulist_addItemBeginList. rewrite Hst, !(proj2 (Z.eqb_neq _ 0)) by done. cbn [orb]. cbv zeta.
  destruct (fresh_node h ps p Hseg Hnd Hfresh) as [Hnotin Hstill].
  assert (NoDup ((p, (d, force)) :: ps).*1) as Hnd' by (by apply NoDup_cons).
  destruct ps as [|[q y] ps].
  { rewrite Hsz, Z.eqb_refl.
    destruct (addFirst_rep h l p d force Hrep Hp Hfresh) as (h' & l' & -> & Hs' & Hh' & Ht' & Hsz' & Hc').
    mstep. eexists _, _. split; [done|]. split; [|done]. split; simpl; auto. by rewrite Hsz'. }
  rewrite Hsz, (proj2 (Z.eqb_neq _ 0)) by zlia. rewrite set_previous_insert. mstep.
  rewrite set_next_insert. mstep. cbn [data next previous forceDelete]. rewrite Hh. cbn [first].
  destruct (dseg_relink_first _ 0 p q y ps 0 Hnd (Hstill (mkNode d q 0 force))) as (h2 & -> & Hs2 & Hother).
  mstep. eexists _, _. split; [done|]. split; [|done]. split; cbn [head tail size first].
  - split; [|split; [done|exact Hs2]]. rewrite Hother, lookup_insert_eq; [done|].
    intros ->. apply Hnotin. by constructor.
  - done.
  - done.
  - rewrite Ht. unfold final. by rewrite (last_cons_cons (p, _)).
  - zlia.
Qed.

(** ** Histories *)
Inductive ulist_op : Type := AddEnd (d : Z) (force : bool) | AddBegin (d : Z) (force : bool).

Definition spec_op (xs : list item) (o : ulist_op) : list item :=
  match o with
  | AddEnd d force => xs ++ [(d, force)]
  | AddBegin d force => (d, force) :: xs
  end.

(** The lists a client builds: every call gets a fresh block or none, and its
    data is not NULL. *)
Inductive ulist_run : list ulist_op -> Heap -> UList -> Prop :=
  | run_create h l : ulist_createEmptyList true U_ZERO_ERROR = (Some l, U_ZERO_ERROR) ->
      ulist_run [] h l
  | run_end ops h l d force p h' l' :
      ulist_run ops h l -> d <> 0 -> p <> 0 -> h !! p = None ->
      ulist_addItemEndList h (Some l) d force p U_ZERO_ERROR = Some (h', Some l', U_ZERO_ERROR) ->
      ulist_run (ops ++ [AddEnd d force]) h' l'
  | run_begin ops h l d force p h' l' :
      ulist_run ops h l -> d <> 0 -> p <> 0 -> h !! p = None ->
      ulist_addItemBeginList h (Some l) d force p U_ZERO_ERROR = Some (h', Some l', U_ZERO_ERROR) ->
      ulist_run (ops ++ [AddBegin d force]) h' l'
  | run_next ops h l d l' :
      ulist_run ops h l -> ulist_getNext h (Some l) = Some (d, Some l') -> ulist_run ops h l'
  | run_reset ops h l l' :
      ulist_run ops h l -> ulist_resetList (Some l) = Some l' -> ulist_run ops h l'.

Lemma rep_cursor h l ps c i :
  rep h l ps -> rep h (mkList c (head l) (tail l) (size l) i) ps.
Proof. intros [? ? ? ? ?]. by split. Qed.

Lemma ulist_run_rep ops h l :
  ulist_run ops h l -> exists ps, rep h l ps /\ ps.*2 = foldl spec_op [] ops.
Proof.
  induction 1 as [h l Hc|ops h l d force p h' l' _ (ps & Hr & Hx) Hd Hp Hf Ha
    |ops h l d force p h' l' _ (ps & Hr & Hx) Hd Hp Hf Ha|ops h l d l' _ (ps & Hr & Hx) Hn
    |ops h l l' _ (ps & Hr & Hx) Hn].
  - injection Hc as <-. exists []. split; [|done]. split; try done. constructor.
  - destruct (addEnd_spec h l ps p d force U_ZERO_ERROR Hr eq_refl Hd Hp Hf) as (h1 & l1 & H1 & Hr1 & _).
    simplify_eq. exists (ps ++ [(p, (d, force))]). split; [done|].
    by rewrite fmap_app, foldl_app, Hx.
  - destruct (addBegin_spec h l ps p d force U_ZERO_ERROR Hr eq_refl Hd Hp Hf) as (h1 & l1 & H1 & Hr1 & _).
    simplify_eq. exists ((p, (d, force)) :: ps). split; [done|]. by rewrite foldl_app, <- Hx.
  - exists ps. split; [|done]. unfold ulist_getNext in Hn. destruct (curr l =? 0); [by simplify_eq|].
    destruct (h !! curr l); simplify_eq/=. by apply rep_cursor.
  - exists ps. split; [|done]. injection Hn as <-. by apply rep_cursor.
Qed.

(** What deleting a node frees. *)
Definition node_blocks (px : Z * item) : list Z :=
  (if snd (snd px) then [fst (snd px)] else []) ++ [fst px].

(** ** Traversal *)

(** [n] calls of [ulist_getNext]. *)
Fixpoint take_next (n : nat) (h : Heap) (l : option UList) : option (list Z * option UList) :=
  match n with
  | O => Some ([], l)
  | S n =>
      '(d, l) ← ulist_getNext h l;
      '(ds, l) ← take_next n h l;
      Some (d :: ds, l)
  end.

Lemma take_next_spec h l prev ps :
  dseg h prev ps 0 -> curr l = first ps 0 ->
  exists l', take_next (length ps) h (Some l) = Some (ps.*2.*1, Some l') /\ curr l' = 0.
Proof.
  revert l prev. induction ps as [|[p x] ps IH]; intros l prev Hseg Hc; [by exists l|].
  destruct Hseg as (Hp & Hp0 & Hseg). cbn [length take_next]. unfold ulist_getNext. rewrite Hc. cbn [first].
  rewrite (proj2 (Z.eqb_neq p 0)), Hp by done. mstep.
  destruct (IH (mkList (first ps 0) (head l) (tail l) (size l) (currentIndex l + 1)) p Hseg eq_refl)
    as (l' & Hl' & Hc'). exists l'. cbn [data next]. rewrite Hl'. done.
Qed.

Lemma containsString_loop_spec mem h s len prev ps :
  dseg h prev ps 0 -> 0 <= len < 2 ^ 31 -> len <= zlen s ->
  exists b, containsString_loop (length ps) mem h (first ps 0) s len = Some b /\
    (b = true <-> exists x, x ∈ ps.*2 /\ mem (fst x) = take (Z.to_nat len) s).
Proof.
  intros Hseg Hlen Hs. revert prev Hseg. induction ps as [|[p x] ps IH]; intros prev Hseg.
  { exists false. split; [done|]. split; [done|]. by intros (x & ?%elem_of_nil & _). }
  destruct Hseg as (Hp & Hp0 & Hseg). cbn [length first containsString_loop].
  rewrite (proj2 (Z.eqb_neq p 0)), Hp by done. mstep. cbn [data next].
  destruct (_ && _) eqn:E.
  - exists true. split; [done|]. split; [intros _|done]. bool_prop. exists x. split; [by constructor|].
    by apply bool_decide_eq_true_1 in H0.
  - destruct (IH p Hseg) as (b & Hb & Hspec). exists b. split; [done|]. rewrite Hspec. split.
    + intros (x' & Hin & Hx'). exists x'. split; [by constructor|done].
    + intros (x' & [->|Hin]%elem_of_cons & Hx'); [|by eauto]. exfalso. cbn [snd] in Hx'.
      unfold u32 in E. rewrite Z.mod_small in E by lia. apply andb_false_iff in E as [E|E].
      * apply Z.eqb_neq in E. apply E. rewrite Hx'. unfold zlen in *. rewrite length_take. lia.
      * by apply bool_decide_eq_false_1 in E.
Qed.

Lemma deleteList_loop_spec h prev ps :
  dseg h prev ps 0 -> NoDup ps.*1 ->
  exists h', deleteList_loop (length ps) h (first ps 0)
      = Some (h', flat_map node_blocks ps) /\
    forall q, h' !! q = if decide (q ∈ ps.*1) then None else h !! q.
Proof.
  revert h prev. induction ps as [|[p x] ps IH]; intros h prev Hseg Hnd.
  { exists h. split; [done|]. intros q. by rewrite decide_False by apply not_elem_of_nil. }
  destruct Hseg as (Hp & Hp0 & Hseg). apply NoDup_cons in Hnd as [Hnp Hnd].
  cbn [length first deleteList_loop]. rewrite (proj2 (Z.eqb_neq p 0)), Hp by done. mstep.
  destruct (IH (delete p h) p) as (h' & Hd & Hh').
  { eapply dseg_frame; [|done]. intros q Hq. apply lookup_delete_ne. by intros <-. }
  { done. }
  cbn [next data forceDelete]. rewrite Hd. mstep. exists h'. split.
  { by destruct x as [d []]. }
  intros q. rewrite Hh'. destruct (decide (q = p)) as [->|Hne].
  - rewrite decide_False, decide_True, lookup_delete_eq by (done || by constructor). done.
  - rewrite lookup_delete_ne by done. repeat case_decide; try done; set_solver.
Qed.

(** ** Properties *)


(** [ulist_deleteList] frees every node of the list exactly once, the data of
    exactly the items added with [forceDelete], and no other node. *)
Theorem ulist_deleteList_frees h l ps :
  rep h l ps ->
  exists h', ulist_deleteList h (Some l) = Some (h', flat_map node_blocks ps) /\
    NoDup ps.*1 /\ forall q, h' !! q = if decide (q ∈ ps.*1) then None else h !! q.
Proof.
  intros [Hseg Hnd Hh _ Hsz]. unfold ulist_deleteList. rewrite Hsz, Hh. unfold zlen. rewrite Nat2Z.id.
  destruct (deleteList_loop_spec h 0 ps Hseg Hnd) as (h' & Hd & Hh'). eauto.
Qed.

(** [ulist_containsString] tells whether one of the strings of the list is the
    given one, on every list, and its loop ends. *)
Theorem ulist_containsString_correct mem h l ps s len :
  rep h l ps -> 0 <= len < 2 ^ 31 -> len <= zlen s ->
  exists b, ulist_containsString mem h s len (Some l) = Some b /\
    (b = true <-> exists x, x ∈ ps.*2 /\ mem (fst x) = take (Z.to_nat len) s).
Proof.
  intros [Hseg Hnd Hh _ Hsz] Hlen Hs. unfold ulist_containsString. rewrite Hsz, Hh.
  destruct (containsString_loop_spec mem h s len 0 ps Hseg Hlen Hs) as (b & Hb & Hspec).
  unfold zlen. rewrite Nat2Z.id. exists b. split; [|done].
  destruct ps; [|done]. by rewrite <- Hb.
Qed.

(** ** Witnesses *)
Definition sample_heap : Heap :=
  {[ 10 := mkNode 100 20 0 true; 20 := mkNode 200 0 10 false ]}.
Definition sample_list : UList := mkList 0 10 20 2 0.

Lemma ulist_sample_run : ulist_run [AddEnd 100 true; AddEnd 200 false] sample_heap sample_list.
Proof.
  apply (run_end [AddEnd 100 true] {[ 10 := mkNode 100 0 0 true ]} (mkList 0 10 10 1 0) 200 false 20);
    [|done|done|done|by vm_compute].
  apply (run_end [] ∅ (mkList 0 0 0 0 (-1)) 100 true 10); [by apply run_create|done|done|done|by vm_compute].
Qed.

Lemma ulist_sample_rep : exists ps, rep sample_heap sample_list ps /\ ps.*2 = [(100, true); (200, false)].
Proof. apply (ulist_run_rep [AddEnd 100 true; AddEnd 200 false]). apply ulist_sample_run. Qed.


Lemma ulist_deleteList_frees_witness :
  exists h' freed, ulist_deleteList sample_heap (Some sample_list) = Some (h', freed).
Proof.
  destruct ulist_sample_rep as (ps & Hrep & _).
  destruct (ulist_deleteList_frees sample_heap sample_list ps Hrep) as (h' & H & _). eauto.
Defined.

Lemma ulist_containsString_correct_witness :
  exists b, ulist_containsString (fun p => [p]) sample_heap [200; 7] 1 (Some sample_list) = Some b.
Proof.
  destruct ulist_sample_rep as (ps & Hrep & _).
  destruct (ulist_containsString_correct (fun p => [p]) sample_heap sample_list ps [200; 7] 1 Hrep)
    as (b & H & _); [lia|vm_compute; discriminate|]. eauto.
Defined.
