(* ===== verification/UtmScale.v ===== *)
(** * UtmScale: universal time scales (src/Source/icu/utmscale.c, unicode/utmscale.h)

    Times are 64-bit integers.  A NULL [status] is not modelled; [None] is an
    index outside the table or a signed overflow. *)
From S2P Require Import Prelude.
Local Open Scope Z_scope.

Definition ticks : Z := 1.
Definition microseconds : Z := ticks * 10.
Definition milliseconds : Z := microseconds * 1000.
Definition seconds : Z := milliseconds * 1000.
Definition minutes : Z := seconds * 60.
Definition hours : Z := minutes * 60.
Definition days : Z := hours * 24.

Definition U_INT64_MIN : Z := - 2 ^ 63.
Definition U_INT64_MAX : Z := 2 ^ 63 - 1.

(** Scales: 0 is UDTS_JAVA_TIME, 9 is UDTS_UNIX_MICROSECONDS_TIME. *)
Definition UDTS_MAX_SCALE : Z := 10.
Definition UTSV_UNITS_VALUE : Z := 0.
Definition UTSV_EPOCH_OFFSET_VALUE : Z := 1.
Definition UTSV_FROM_MIN_VALUE : Z := 2.
Definition UTSV_FROM_MAX_VALUE : Z := 3.
Definition UTSV_TO_MIN_VALUE : Z := 4.
Definition UTSV_TO_MAX_VALUE : Z := 5.
Definition UTSV_EPOCH_OFFSET_PLUS_1_VALUE : Z := 6.
Definition UTSV_EPOCH_OFFSET_MINUS_1_VALUE : Z := 7.
Definition UTSV_UNITS_ROUND_VALUE : Z := 8.
Definition UTSV_MIN_ROUND_VALUE : Z := 9.
Definition UTSV_MAX_ROUND_VALUE : Z := 10.
Definition UTSV_MAX_SCALE_VALUE : Z := 11.

Definition timeScaleTable : list (list Z) :=
  [[milliseconds; 62135596800000; -984472800485477; 860201606885477; -9223372036854774999;
    9223372036854774999; 62135596800001; 62135596799999; 5000; -9223372036854770808; 9223372036854770807];
   [seconds; 62135596800; -984472800485; 860201606885; U_INT64_MIN; U_INT64_MAX; 62135596801;
    62135596799; 5000000; -9223372036849775808; 9223372036849775807];
   [milliseconds; 62135596800000; -984472800485477; 860201606885477; -9223372036854774999;
    9223372036854774999; 62135596800001; 62135596799999; 5000; -9223372036854770808; 9223372036854770807];
   [ticks; 504911232000000000; U_INT64_MIN; 8718460804854775807; -8718460804854775808; U_INT64_MAX;
    504911232000000000; 504911232000000000; 0; U_INT64_MIN; U_INT64_MAX];
   [ticks; 0; U_INT64_MIN; U_INT64_MAX; U_INT64_MIN; U_INT64_MAX; 0; 0; 0; U_INT64_MIN; U_INT64_MAX];
   [seconds; 60052752000; -982389955685; 862284451685; U_INT64_MIN; U_INT64_MAX; 60052752001;
    60052751999; 5000000; -9223372036849775808; 9223372036849775807];
   [seconds; 63113904000; -985451107685; 859223299685; U_INT64_MIN; U_INT64_MAX; 63113904001;
    63113903999; 5000000; -9223372036849775808; 9223372036849775807];
   [days; 693594; -11368793; 9981605; U_INT64_MIN; U_INT64_MAX; 693595; 693593; 432000000000;
    -9223371604854775808; 9223371604854775807];
   [days; 693594; -11368793; 9981605; U_INT64_MIN; U_INT64_MAX; 693595; 693593; 432000000000;
    -9223371604854775808; 9223371604854775807];
   [microseconds; 62135596800000000; -984472800485477580; 860201606885477580; -9223372036854775804;
    9223372036854775804; 62135596800000001; 62135596799999999; 5; -9223372036854775803;
    9223372036854775802]].

(** A signed 64-bit result. *)
Definition chk64 (x : Z) : option Z :=
  if (U_INT64_MIN <=? x) && (x <=? U_INT64_MAX) then Some x else None.

Definition utmscale_getTimeScaleValue (timeScale value : Z) (status : UErrorCode)
    : option (Z * UErrorCode) :=
  if U_FAILURE status then Some (0, status)
  else if (timeScale <? 0) || (UDTS_MAX_SCALE <=? timeScale)
          || (value <? UTSV_UNITS_VALUE) || (UTSV_MAX_SCALE_VALUE <=? value)
  then Some (0, U_ILLEGAL_ARGUMENT_ERROR)
  else
    data ← timeScaleTable.[timeScale];
    v ← data.[value];
    Some (v, status).

Definition utmscale_fromInt64 (otherTime timeScale : Z) (status : UErrorCode)
    : option (Z * UErrorCode) :=
  if U_FAILURE status then Some (0, status)
  else if (timeScale <? 0) || (timeScale >=? UDTS_MAX_SCALE)
  then Some (0, U_ILLEGAL_ARGUMENT_ERROR)
  else
    data ← timeScaleTable.[timeScale];
    fromMin ← data.[UTSV_FROM_MIN_VALUE];
    fromMax ← data.[UTSV_FROM_MAX_VALUE];
    if (otherTime <? fromMin) || (otherTime >? fromMax) then Some (0, U_ILLEGAL_ARGUMENT_ERROR)
    else
      epochOffset ← data.[UTSV_EPOCH_OFFSET_VALUE];
      units ← data.[UTSV_UNITS_VALUE];
      sum ← chk64 (otherTime + epochOffset);
      r ← chk64 (sum * units);
      Some (r, status).

Definition utmscale_toInt64 (universalTime timeScale : Z) (status : UErrorCode)
    : option (Z * UErrorCode) :=
  if U_FAILURE status then Some (0, status)
  else if (timeScale <? 0) || (timeScale >=? UDTS_MAX_SCALE)
  then Some (0, U_ILLEGAL_ARGUMENT_ERROR)
  else
    data ← timeScaleTable.[timeScale];
    toMin ← data.[UTSV_TO_MIN_VALUE];
    toMax ← data.[UTSV_TO_MAX_VALUE];
    if (universalTime <? toMin) || (universalTime >? toMax) then Some (0, U_ILLEGAL_ARGUMENT_ERROR)
    else
      units ← data.[UTSV_UNITS_VALUE];
      unitsRound ← data.[UTSV_UNITS_ROUND_VALUE];
      epochOffset ← data.[UTSV_EPOCH_OFFSET_VALUE];
      if universalTime <? 0 then
        minRound ← data.[UTSV_MIN_ROUND_VALUE];
        if universalTime <? minRound then
          epochOffsetP1 ← data.[UTSV_EPOCH_OFFSET_PLUS_1_VALUE];
          n ← chk64 (universalTime + unitsRound);
          r ← chk64 (n ÷ units - epochOffsetP1);
          Some (r, status)
        else
          n ← chk64 (universalTime - unitsRound);
          r ← chk64 (n ÷ units - epochOffset);
          Some (r, status)
      else
        maxRound ← data.[UTSV_MAX_ROUND_VALUE];
        if universalTime >? maxRound then
          epochOffsetM1 ← data.[UTSV_EPOCH_OFFSET_MINUS_1_VALUE];
          n ← chk64 (universalTime - unitsRound);
          r ← chk64 (n ÷ units - epochOffsetM1);
          Some (r, status)
        else
          n ← chk64 (universalTime + unitsRound);
          r ← chk64 (n ÷ units - epochOffset);
          Some (r, status).

(** ** The rows of the table *)
Record TimeScale : Type := mkScale {
  units : Z; epochOffset : Z; fromMin : Z; fromMax : Z; toMin : Z; toMax : Z;
  epochOffsetP1 : Z; epochOffsetM1 : Z; unitsRound : Z; minRound : Z; maxRound : Z
}.

Definition scale_of (s : Z) : option TimeScale :=
  row ← timeScaleTable.[s];
  match row with
  | [a; b; c; d; e; f; g; h; i; j; k] => Some (mkScale a b c d e f g h i j k)
  | _ => None
  end.

Lemma scale_range s x : scale_of s = Some x -> 0 <= s < UDTS_MAX_SCALE.
Proof. unfold scale_of. destruct (timeScaleTable.[s]) eqn:E; [|done]. by apply zget_lt in E. Qed.

Lemma scale_cases (P : Z -> Prop) :
  P 0 -> P 1 -> P 2 -> P 3 -> P 4 -> P 5 -> P 6 -> P 7 -> P 8 -> P 9 ->
  forall s, 0 <= s < UDTS_MAX_SCALE -> P s.
Proof.
  intros. assert (s = 0 \/ s = 1 \/ s = 2 \/ s = 3 \/ s = 4 \/ s = 5 \/ s = 6 \/ s = 7 \/ s = 8 \/ s = 9) as Hs
    by (unfold UDTS_MAX_SCALE in *; lia).
  repeat destruct Hs as [->|Hs]; subst; done.
Qed.

(** The two conversions with the row at hand. *)
Lemma fromInt64_row s x t :
  scale_of s = Some x ->
  utmscale_fromInt64 t s U_ZERO_ERROR =
    (if (t <? fromMin x) || (t >? fromMax x) then Some (0, U_ILLEGAL_ARGUMENT_ERROR)
     else sum ← chk64 (t + epochOffset x); r ← chk64 (sum * units x); Some (r, U_ZERO_ERROR)).
Proof.
  intros Hs. pose proof (scale_range s x Hs) as Hr. revert s Hr x Hs.
  refine (scale_cases _ _ _ _ _ _ _ _ _ _ _); intros x [= <-]; reflexivity.
Qed.

Lemma toInt64_row s x u :
  scale_of s = Some x ->
  utmscale_toInt64 u s U_ZERO_ERROR =
    (if (u <? toMin x) || (u >? toMax x) then Some (0, U_ILLEGAL_ARGUMENT_ERROR)
     else
       let finish n epoch := n ← chk64 n; r ← chk64 (n ÷ units x - epoch); Some (r, U_ZERO_ERROR) in
       if u <? 0 then
         if u <? minRound x then finish (u + unitsRound x) (epochOffsetP1 x)
         else finish (u - unitsRound x) (epochOffset x)
       else
         if u >? maxRound x then finish (u - unitsRound x) (epochOffsetM1 x)
         else finish (u + unitsRound x) (epochOffset x)).
Proof.
  intros Hs. pose proof (scale_range s x Hs) as Hr. revert s Hr x Hs.
  refine (scale_cases _ _ _ _ _ _ _ _ _ _ _); intros x [= <-]; reflexivity.
Qed.

(** What makes a row right: its bounds are the exact bounds of the conversions. *)
Record row_ok (x : TimeScale) : Prop := {
  row_units : 1 <= units x < 2 ^ 40 /\ (units x = 2 * unitsRound x \/ (units x = 1 /\ unitsRound x = 0));
  row_offset : 0 <= epochOffset x < 2 ^ 60;
  row_P1 : units x <> 1 -> epochOffsetP1 x = epochOffset x + 1 /\ epochOffsetM1 x = epochOffset x - 1;
  row_from_min : fromMin x = - 2 ^ 63 /\ units x = 1 \/
    - 2 ^ 63 <= (fromMin x + epochOffset x) * units x /\ (fromMin x - 1 + epochOffset x) * units x < - 2 ^ 63;
  row_from_max : (fromMax x + epochOffset x) * units x <= 2 ^ 63 - 1 /\
    2 ^ 63 - 1 < (fromMax x + 1 + epochOffset x) * units x;
  row_from : - 2 ^ 63 <= fromMin x /\ fromMax x <= 2 ^ 63 - 1;
  row_to_min : - 2 ^ 63 <= toMin x <= (fromMin x + epochOffset x) * units x;
  row_to_max : (fromMax x + epochOffset x) * units x <= toMax x <= 2 ^ 63 - 1;
  row_near : (2 * (fromMin x + epochOffset x) - 1) * units x < 2 * toMin x /\
    2 * toMax x < (2 * (fromMax x + epochOffset x) + 1) * units x;
  row_round : minRound x = - 2 ^ 63 + unitsRound x /\ maxRound x = 2 ^ 63 - 1 - unitsRound x
}.

Lemma rows_ok s x : scale_of s = Some x -> row_ok x.
Proof.
  intros Hs. pose proof (scale_range s x Hs) as Hr. revert s Hr x Hs.
  refine (scale_cases _ _ _ _ _ _ _ _ _ _ _); intros x [= <-];
    split; cbn [units epochOffset fromMin fromMax toMin toMax epochOffsetP1 epochOffsetM1 unitsRound minRound maxRound];
    unfold U_INT64_MIN, U_INT64_MAX, days, hours, minutes, seconds, milliseconds, microseconds, ticks; lia.
Qed.

Lemma chk64_ok x : - 2 ^ 63 <= x <= 2 ^ 63 - 1 -> chk64 x = Some x.
Proof. intros. unfold chk64, U_INT64_MIN, U_INT64_MAX. rewrite !Z_leb_true by lia. done. Qed.

(** A row accepts exactly the times whose universal time is representable. *)
Lemma from_range x t :
  row_ok x -> is_s64 t -> (fromMin x <= t <= fromMax x <-> is_s64 ((t + epochOffset x) * units x)).
Proof.
  intros [[Hu _] Ho _ Hmin Hmax Hf _ _ _ _] Ht. unfold is_s64 in *. split.
  - intros Hr. assert ((t + epochOffset x) * units x <= (fromMax x + epochOffset x) * units x)
      by (apply Z.mul_le_mono_nonneg_r; lia).
    assert ((fromMin x + epochOffset x) * units x <= (t + epochOffset x) * units x)
      by (apply Z.mul_le_mono_nonneg_r; lia).
    destruct Hmin as [[Hm Hu1]|?]; [rewrite Hu1 in *; lia|lia].
  - intros Hr. split.
    + destruct Hmin as [[-> _]|[_ Hm]]; [lia|]. destruct (decide (fromMin x <= t)); [done|]. exfalso.
      assert ((t + epochOffset x) * units x <= (fromMin x - 1 + epochOffset x) * units x)
        by (apply Z.mul_le_mono_nonneg_r; lia). lia.
    + destruct (decide (t <= fromMax x)); [done|]. exfalso.
      assert ((fromMax x + 1 + epochOffset x) * units x <= (t + epochOffset x) * units x)
        by (apply Z.mul_le_mono_nonneg_r; lia). lia.
Qed.

Lemma quot_nonneg n d : 0 <= n -> 0 < d -> n - d < d * (n ÷ d) <= n.
Proof.
  intros. rewrite Z.quot_div_nonneg by lia. pose proof (Z.div_mod n d ltac:(lia)).
  pose proof (Z.mod_pos_bound n d ltac:(lia)). lia.
Qed.

Lemma quot_nonpos n d : n <= 0 -> 0 < d -> n <= d * (n ÷ d) < n + d.
Proof.
  intros. pose proof (quot_nonneg (- n) d ltac:(lia) ltac:(lia)) as Hq.
  rewrite Z.quot_opp_l in Hq by lia. lia.
Qed.

(** [d * q] is a multiple of [d] nearest to [u], and strictly between the halves
    on the side of zero. *)
Definition nearest (d u q : Z) : Prop :=
  - d <= 2 * (d * q - u) <= d.

(** The dividend and the offset that [utmscale_toInt64] chooses. *)
Definition to_choice (x : TimeScale) (u : Z) : Z * Z :=
  if u <? 0 then
    if u <? minRound x then (u + unitsRound x, epochOffsetP1 x) else (u - unitsRound x, epochOffset x)
  else
    if u >? maxRound x then (u - unitsRound x, epochOffsetM1 x) else (u + unitsRound x, epochOffset x).

Lemma to_choice_spec x u :
  row_ok x -> toMin x <= u <= toMax x ->
  let '(n, epoch) := to_choice x u in
  - 2 ^ 63 <= n <= 2 ^ 63 - 1 /\ nearest (units x) u (n ÷ units x - epoch + epochOffset x).
Proof.
  intros [[Hu HR] Ho HP _ _ _ Htmin Htmax _ [Hmin Hmax]] Hr. unfold to_choice, nearest.
  destruct (u <? 0) eqn:E0; [destruct (u <? minRound x) eqn:E1|destruct (u >? maxRound x) eqn:E1]; bool_prop.
  - assert (units x <> 1) as H1 by lia. destruct (HP H1) as [-> _].
    pose proof (quot_nonpos (u + unitsRound x) (units x) ltac:(lia) ltac:(lia)). lia.
  - pose proof (quot_nonpos (u - unitsRound x) (units x) ltac:(lia) ltac:(lia)). lia.
  - assert (units x <> 1) as H1 by lia. destruct (HP H1) as [_ ->].
    pose proof (quot_nonneg (u - unitsRound x) (units x) ltac:(lia) ltac:(lia)). lia.
  - pose proof (quot_nonneg (u + unitsRound x) (units x) ltac:(lia) ltac:(lia)). lia.
Qed.

Lemma toInt64_choice s x u :
  scale_of s = Some x -> toMin x <= u <= toMax x ->
  utmscale_toInt64 u s U_ZERO_ERROR =
    let '(n, epoch) := to_choice x u in
    n ← chk64 n; r ← chk64 (n ÷ units x - epoch); Some (r, U_ZERO_ERROR).
Proof.
  intros Hs Hr. rewrite (toInt64_row s x u Hs). rewrite (Z_ltb_false u), Z.gtb_ltb, (Z_ltb_false (toMax x)) by lia.
  cbv zeta. unfold to_choice. cbn [orb]. by repeat if_cases.
Qed.

(** [utmscale_fromInt64] converts exactly the times whose universal time fits
    in 64 bits, and then without overflow; every other time is an illegal
    argument: the bounds in the table are the exact ones. *)
Theorem fromInt64_exact s x t :
  scale_of s = Some x -> is_s64 t ->
  utmscale_fromInt64 t s U_ZERO_ERROR =
    Some (if decide (is_s64 ((t + epochOffset x) * units x))
          then ((t + epochOffset x) * units x, U_ZERO_ERROR) else (0, U_ILLEGAL_ARGUMENT_ERROR)).
Proof.
  intros Hs Ht. pose proof (rows_ok s x Hs) as Hx. pose proof (from_range x t Hx Ht) as Hr.
  rewrite (fromInt64_row s x t Hs). case_decide as Hd.
  - apply Hr in Hd as Hin. rewrite (Z_ltb_false t), Z.gtb_ltb, (Z_ltb_false (fromMax x)) by lia. cbn [orb].
    destruct Hx as [[Hu _] _ _ _ _ _ _ _ _ _]. unfold is_s64 in *.
    assert (- 2 ^ 63 <= t + epochOffset x <= 2 ^ 63 - 1) by nia.
    rewrite chk64_ok by lia. mstep. by rewrite chk64_ok by lia.
  - destruct (t <? fromMin x) eqn:E1, (t >? fromMax x) eqn:E2; try done. exfalso. apply Hd, Hr. bool_prop. lia.
Qed.

(** C40: [utmscale_toInt64] accepts a range of universal times on which it never
    overflows; the result is a time of the scale that [utmscale_fromInt64]
    accepts, and its universal time is nearest to the argument, within half a
    unit. *)
Theorem toInt64_nearest s x u :
  scale_of s = Some x -> toMin x <= u <= toMax x ->
  exists r, utmscale_toInt64 u s U_ZERO_ERROR = Some (r, U_ZERO_ERROR) /\
    fromMin x <= r <= fromMax x /\ 2 * Z.abs ((r + epochOffset x) * units x - u) <= units x.
Proof.
  intros Hs Hr. pose proof (rows_ok s x Hs) as Hx. rewrite (toInt64_choice s x u Hs Hr).
  pose proof (to_choice_spec x u Hx Hr) as Hc. destruct (to_choice x u) as [n epoch].
  destruct Hc as [Hn Hnear]. rewrite chk64_ok by done. mstep. unfold nearest in Hnear.
  set (r := n ÷ units x - epoch) in *.
  destruct Hx as [[Hu HR] Ho _ _ _ Hf _ _ [Hn1 Hn2] _].
  assert (fromMin x <= r <= fromMax x) as Hrr by nia.
  rewrite chk64_ok by lia. mstep. exists r. split; [done|]. split; [done|]. lia.
Qed.

(** Converting a time to the universal scale and back gives the time: on
    every scale, for every time that can be converted. *)
Theorem time_roundtrip s x t :
  scale_of s = Some x -> fromMin x <= t <= fromMax x ->
  exists u, utmscale_fromInt64 t s U_ZERO_ERROR = Some (u, U_ZERO_ERROR) /\
    utmscale_toInt64 u s U_ZERO_ERROR = Some (t, U_ZERO_ERROR).
Proof.
  intros Hs Hr. pose proof (rows_ok s x Hs) as Hx.
  assert (is_s64 t) as Ht by (destruct Hx as [_ _ _ _ _ Hf _ _ _ _]; unfold is_s64; lia).
  pose proof (proj1 (from_range x t Hx Ht) Hr) as Hu.
  exists ((t + epochOffset x) * units x). split.
  { rewrite (fromInt64_row s x t Hs), (Z_ltb_false t), Z.gtb_ltb, (Z_ltb_false (fromMax x)) by lia. cbn [orb].
    destruct Hx as [[? _] _ _ _ _ _ _ _ _ _]. unfold is_s64 in *.
    rewrite chk64_ok by nia. mstep. by rewrite chk64_ok by lia. }
  assert (toMin x <= (t + epochOffset x) * units x <= toMax x) as Hto.
  { destruct Hx as [[? _] _ _ _ _ _ ? ? _ _].
    pose proof (Z.mul_le_mono_nonneg_r (t + epochOffset x) (fromMax x + epochOffset x) (units x)).
    pose proof (Z.mul_le_mono_nonneg_r (fromMin x + epochOffset x) (t + epochOffset x) (units x)). lia. }
  rewrite (toInt64_choice s x _ Hs Hto). pose proof (to_choice_spec x _ Hx Hto) as Hc.
  destruct (to_choice x _) as [n epoch]. destruct Hc as [Hn Hnear]. rewrite chk64_ok by done. mstep.
  unfold nearest in Hnear. destruct Hx as [[Hu1 HR] _ _ _ _ Hf _ _ _ _].
  assert (n ÷ units x - epoch = t) as ->; [|rewrite chk64_ok by (unfold is_s64 in Ht; lia); done].
  set (r := n ÷ units x - epoch) in *.
  nia.
Qed.

(** The functions report a scale that does not exist, and do nothing when an
    error is already set. *)
Theorem utmscale_errors t s status :
  (U_FAILURE status = true ->
   utmscale_fromInt64 t s status = Some (0, status) /\ utmscale_toInt64 t s status = Some (0, status)) /\
  (U_FAILURE status = false -> scale_of s = None ->
   utmscale_fromInt64 t s status = Some (0, U_ILLEGAL_ARGUMENT_ERROR) /\
   utmscale_toInt64 t s status = Some (0, U_ILLEGAL_ARGUMENT_ERROR)).
Proof.
  split.
  - intros H. unfold utmscale_fromInt64, utmscale_toInt64. by rewrite H.
  - intros H Hs. unfold utmscale_fromInt64, utmscale_toInt64. rewrite H.
    assert ((s <? 0) || (s >=? UDTS_MAX_SCALE) = true) as ->; [|done].
    destruct (decide (0 <= s < UDTS_MAX_SCALE)) as [Hr|Hr].
    + exfalso. revert s Hr Hs. by refine (scale_cases _ _ _ _ _ _ _ _ _ _ _).
    + apply orb_true_iff. rewrite Z.ltb_lt, Z.geb_le. lia.
Qed.

(** ** Witnesses *)
Definition java_scale : TimeScale :=
  mkScale milliseconds 62135596800000 (-984472800485477) 860201606885477 (-9223372036854774999)
    9223372036854774999 62135596800001 62135596799999 5000 (-9223372036854770808) 9223372036854770807.

Lemma fromInt64_exact_witness :
  utmscale_fromInt64 0 0 U_ZERO_ERROR = Some (621355968000000000, U_ZERO_ERROR).
Proof.
  rewrite (fromInt64_exact 0 java_scale 0); [vm_compute; reflexivity|reflexivity|split; vm_compute; [discriminate|reflexivity]].
Defined.

Lemma toInt64_nearest_witness :
  exists r, utmscale_toInt64 (-9223372036854774999) 0 U_ZERO_ERROR = Some (r, U_ZERO_ERROR).
Proof.
  destruct (toInt64_nearest 0 java_scale (-9223372036854774999)) as (r & H & _);
    [reflexivity|split; vm_compute; discriminate|]. exists r. exact H.
Defined.

Lemma time_roundtrip_witness :
  exists u, utmscale_fromInt64 (-984472800485477) 0 U_ZERO_ERROR = Some (u, U_ZERO_ERROR) /\
    utmscale_toInt64 u 0 U_ZERO_ERROR = Some (-984472800485477, U_ZERO_ERROR).
Proof. apply (time_roundtrip 0 java_scale); [reflexivity|split; vm_compute; discriminate]. Defined.

Lemma utmscale_errors_witness :
  utmscale_toInt64 5 10 U_ZERO_ERROR = Some (0, U_ILLEGAL_ARGUMENT_ERROR).
Proof. apply (utmscale_errors 5 10 U_ZERO_ERROR); reflexivity. Defined.
