(* ===== verification/Ucnv.v ===== *)
(** * Ucnv: the converter object and the output helpers (src/Source/icu/ucnv_bld.h, ucnv_cnv.c, unicode/utf16.h)

    A converter function reads from a source and writes to a target with a limit;
    what does not fit goes to the overflow buffers of the converter object.  The
    pointers of the argument structures are modelled by what they delimit: the
    units still to be read, the units written so far and the room that is left. *)
From S2P Require Import Prelude Utf8.
Local Open Scope Z_scope.

(** ** UTF-16 *)
Definition U_IS_LEAD (c : Z) : bool := Z.land c 0xfffffc00 =? 0xd800.
Definition U_IS_TRAIL (c : Z) : bool := Z.land c 0xfffffc00 =? 0xdc00.
Definition U16_LEAD (supplementary : Z) : Z := u16 (Z.shiftr supplementary 10 + 0xd7c0).
Definition U16_TRAIL (supplementary : Z) : Z := u16 (Z.lor (Z.land supplementary 0x3ff) 0xdc00).

(** ** The converter object

    The fields that the converters of this development use.  The overflow buffers
    are their valid contents, so their lengths are implied. *)
Record UConverter : Type := mkConverter {
  toULength : Z;
  toUBytes : list Z;
  toUnicodeStatus : Z;
  mode : Z;
  fromUnicodeStatus : Z;
  fromUChar32 : Z;
  charErrorBuffer : list Z;
  UCharErrorBuffer : list Z
}.

Definition UCNV_ERROR_BUFFER_LENGTH : Z := 32.
Definition UCNV_MAX_CHAR_LEN : Z := 8.

Definition set_toU (cnv : UConverter) (len : Z) (bytes : list Z) (status : Z) : UConverter :=
  mkConverter len bytes status (mode cnv) (fromUnicodeStatus cnv) (fromUChar32 cnv) (charErrorBuffer cnv) (UCharErrorBuffer cnv).
Definition set_mode (cnv : UConverter) (x : Z) : UConverter :=
  mkConverter (toULength cnv) (toUBytes cnv) (toUnicodeStatus cnv) x (fromUnicodeStatus cnv) (fromUChar32 cnv)
    (charErrorBuffer cnv) (UCharErrorBuffer cnv).
Definition set_fromUnicodeStatus (cnv : UConverter) (x : Z) : UConverter :=
  mkConverter (toULength cnv) (toUBytes cnv) (toUnicodeStatus cnv) (mode cnv) x (fromUChar32 cnv)
    (charErrorBuffer cnv) (UCharErrorBuffer cnv).
Definition set_fromUChar32 (cnv : UConverter) (x : Z) : UConverter :=
  mkConverter (toULength cnv) (toUBytes cnv) (toUnicodeStatus cnv) (mode cnv) (fromUnicodeStatus cnv) x
    (charErrorBuffer cnv) (UCharErrorBuffer cnv).
Definition set_charErrorBuffer (cnv : UConverter) (x : list Z) : UConverter :=
  mkConverter (toULength cnv) (toUBytes cnv) (toUnicodeStatus cnv) (mode cnv) (fromUnicodeStatus cnv) (fromUChar32 cnv)
    x (UCharErrorBuffer cnv).
Definition set_UCharErrorBuffer (cnv : UConverter) (x : list Z) : UConverter :=
  mkConverter (toULength cnv) (toUBytes cnv) (toUnicodeStatus cnv) (mode cnv) (fromUnicodeStatus cnv) (fromUChar32 cnv)
    (charErrorBuffer cnv) x.

(** The argument structures: [source] to [sourceLimit], the target units written,
    [targetLimit - target], the offsets written ([None] is the NULL pointer). *)
Record UConverterArgs : Type := mkArgs {
  flush : bool;
  source : list Z;
  target : list Z;
  room : Z;
  offsets : option (list Z)
}.

Definition set_source (args : UConverterArgs) (s : list Z) : UConverterArgs :=
  mkArgs (flush args) s (target args) (room args) (offsets args).

(** [*target++=x;] and, when [off] is set, [*offsets++=n;] *)
Definition write (off : bool) (args : UConverterArgs) (x n : Z) : UConverterArgs :=
  mkArgs (flush args) (source args) (target args ++ [x]) (room args - 1)
    (if off then (fun o => o ++ [n]) <$> offsets args else offsets args).

Definition no_source (args : UConverterArgs) : bool := match source args with [] => true | _ => false end.

(** ** Output with overflow *)

(** The units that are written to the target, and those that remain. *)
Fixpoint write_units (args : UConverterArgs) (units : list Z) (sourceIndex : Z) : UConverterArgs * list Z :=
  match units with
  | x :: rest =>
      if 0 <? room args then write_units (write true args x sourceIndex) rest sourceIndex
      else (args, units)
  | [] => (args, [])
  end.

Definition ucnv_fromUWriteBytes (cnv : UConverter) (args : UConverterArgs) (bytes : list Z)
    (sourceIndex : Z) (err : UErrorCode) : UConverter * UConverterArgs * UErrorCode :=
  let '(args, rest) := write_units args bytes sourceIndex in
  match rest with
  | [] => (cnv, args, err)
  | _ => (set_charErrorBuffer cnv rest, args, U_BUFFER_OVERFLOW_ERROR)
  end.

Definition ucnv_toUWriteUChars (cnv : UConverter) (args : UConverterArgs) (uchars : list Z)
    (sourceIndex : Z) (err : UErrorCode) : UConverter * UConverterArgs * UErrorCode :=
  let '(args, rest) := write_units args uchars sourceIndex in
  match rest with
  | [] => (cnv, args, err)
  | _ => (set_UCharErrorBuffer cnv rest, args, U_BUFFER_OVERFLOW_ERROR)
  end.

Definition ucnv_toUWriteCodePoint (cnv : UConverter) (args : UConverterArgs) (c sourceIndex : Z)
    (err : UErrorCode) : UConverter * UConverterArgs * UErrorCode :=
  let '(args, c) :=
    (if 0 <? room args then
       if c <=? 0xffff then (write true args (u16 c) sourceIndex, U_SENTINEL)
       else
         let args := write true args (U16_LEAD c) sourceIndex in
         let c := U16_TRAIL c in
         if 0 <? room args then (write true args c sourceIndex, U_SENTINEL) else (args, c)
     else (args, c)) in
  if 0 <=? c then
    (set_UCharErrorBuffer cnv (if c <=? 0xffff then [u16 c] else [U16_LEAD c; U16_TRAIL c]), args,
     U_BUFFER_OVERFLOW_ERROR)
  else (cnv, args, err).
