(* ===== verification/UcnvU32.v ===== *)
(** * UcnvU32: the UTF-32 converters (src/Source/icu/ucnv_u32.c)

    The source has each function four times, for the two byte orders and with or
    without offsets.  Here one definition has the byte order and the offset switch
    as arguments, and each function of the source is an instance of it. *)
From S2P Require Import Prelude Utf8 Ucnv.
Local Open Scope Z_scope.

Definition MAXIMUM_UCS2 : Z := 0xFFFF.
Definition MAXIMUM_UTF : Z := 0x10FFFF.
Definition HALF_SHIFT : Z := 10.
Definition SURROGATE_HIGH_START : Z := 0xD800.
Definition SURROGATE_LOW_BASE : Z := 9216.
Definition UCNV_NEED_TO_WRITE_BOM : Z := 1.

Inductive Endian : Type := BE | LE.

(** ** To Unicode *)

(** [ch = (ch << 8) | *mySource], or [ch |= *mySource << (i * 8)] *)
Definition add_byte (e : Endian) (ch i b : Z) : Z :=
  match e with
  | BE => u32 (Z.lor (Z.shiftl ch 8) b)
  | LE => Z.lor ch (u32 (Z.shiftl b (i * 8)))
  end.

(** The loop at the label [morebytes]: the rest of the source, [i], [ch] and
    [toUBytes]; the source has run out when [i] is still less than 4. *)
Fixpoint morebytes (e : Endian) (src : list Z) (i ch : Z) (bytes : list Z) : list Z * Z * Z * list Z :=
  if i <? 4 then
    match src with
    | b :: src => morebytes e src (i + 1) (add_byte e ch i b) (<[Z.to_nat i := b]> bytes)
    | [] => (src, i, ch, bytes)
    end
  else (src, i, ch, bytes).

(** The main loop, entered at [morebytes]. *)
Fixpoint toU_loop (fuel : nat) (e : Endian) (off : bool) (cnv : UConverter) (args : UConverterArgs)
    (i ch offsetNum : Z) (err : UErrorCode) : option (UConverter * UConverterArgs * UErrorCode) :=
  match fuel with
  | O => None
  | S fuel =>
      let '(src, i, ch, bytes) := morebytes e (source args) i ch (toUBytes cnv) in
      let args := set_source args src in
      let cnv := set_toU cnv (toULength cnv) bytes (toUnicodeStatus cnv) in
      let next args :=
        if negb (no_source args) && (0 <? room args)
        then toU_loop fuel e off cnv args 0 0 (offsetNum + i) err
        else Some (cnv, args, err) in
      if i <? 4 then Some (set_toU cnv i bytes (u32 (ch + 1)), args, err)
      else if (ch <=? MAXIMUM_UTF) && negb (U_IS_SURROGATE ch) then
        if ch <=? MAXIMUM_UCS2 then next (write off args (u16 ch) offsetNum)
        else
          let args := write off args (U16_LEAD ch) offsetNum in
          let ch := U16_TRAIL ch in
          if 0 <? room args then next (write off args ch offsetNum)
          else Some (set_UCharErrorBuffer cnv [ch], args, U_BUFFER_OVERFLOW_ERROR)
      else Some (set_toU cnv i bytes (toUnicodeStatus cnv), args, U_ILLEGAL_CHAR_FOUND)
  end.

Definition toUnicode_UTF32 (e : Endian) (off : bool) (cnv : UConverter) (args : UConverterArgs) (err : UErrorCode)
    : option (UConverter * UConverterArgs * UErrorCode) :=
  let fuel := S (length (source args)) in
  '(cnv, args, err) ←
    (if negb (toUnicodeStatus cnv =? 0) && (0 <? room args) then
       toU_loop fuel e off (set_toU cnv 0 (toUBytes cnv) 0) args (toULength cnv) (u32 (toUnicodeStatus cnv - 1)) 0 err
     else if negb (no_source args) && (0 <? room args) then toU_loop fuel e off cnv args 0 0 0 err
     else Some (cnv, args, err));
  Some (cnv, args,
        if negb (no_source args) && (room args <=? 0) && U_SUCCESS err then U_BUFFER_OVERFLOW_ERROR else err).

Definition T_UConverter_toUnicode_UTF32_BE := toUnicode_UTF32 BE false.
Definition T_UConverter_toUnicode_UTF32_BE_OFFSET_LOGIC := toUnicode_UTF32 BE true.
Definition T_UConverter_toUnicode_UTF32_LE := toUnicode_UTF32 LE false.
Definition T_UConverter_toUnicode_UTF32_LE_OFFSET_LOGIC := toUnicode_UTF32 LE true.

(** ** From Unicode *)
Definition bom (e : Endian) : list Z :=
  match e with BE => [0; 0; 0xfe; 0xff] | LE => [0xff; 0xfe; 0; 0] end.

(** The array [temp] *)
Definition temp (e : Endian) (ch : Z) : list Z :=
  let b2 := u8 (Z.land (Z.shiftr ch 16) 0x1F) in
  let b1 := u8 (Z.shiftr ch 8) in
  let b0 := u8 ch in
  match e with BE => [0; b2; b1; b0] | LE => [b0; b1; b2; 0] end.

(** The block at the label [lowsurogate]: the code point, or [None] for [break]. *)
Definition lowsurogate (cnv : UConverter) (args : UConverterArgs) (ch : Z) (err : UErrorCode)
    : UConverter * UConverterArgs * UErrorCode * option Z :=
  match source args with
  | ch2 :: src =>
      if U_IS_TRAIL ch2 then
        (cnv, set_source args src, err, Some (Z.shiftl (ch - SURROGATE_HIGH_START) HALF_SHIFT + ch2 + SURROGATE_LOW_BASE))
      else (set_fromUChar32 cnv ch, args, U_ILLEGAL_CHAR_FOUND, None)
  | [] => (set_fromUChar32 cnv ch, args, if flush args then U_ILLEGAL_CHAR_FOUND else err, None)
  end.

(** The body of the loop up to the assignment of [temp]. *)
Definition read_char (cnv : UConverter) (args : UConverterArgs) (err : UErrorCode)
    : UConverter * UConverterArgs * UErrorCode * option Z :=
  match source args with
  | ch :: src =>
      let args := set_source args src in
      if U_IS_SURROGATE ch then
        if U_IS_LEAD ch then lowsurogate cnv args ch err
        else (set_fromUChar32 cnv ch, args, U_ILLEGAL_CHAR_FOUND, None)
      else (cnv, args, err, Some ch)
  | [] => (cnv, args, err, None)
  end.

(** The loop over [indexToWrite] *)
Fixpoint write_temp (off : bool) (bytes : list Z) (offsetNum : Z) (cnv : UConverter) (args : UConverterArgs)
    (err : UErrorCode) : UConverter * UConverterArgs * UErrorCode :=
  match bytes with
  | [] => (cnv, args, err)
  | b :: bytes =>
      if 0 <? room args then write_temp off bytes offsetNum cnv (write off args b offsetNum) err
      else write_temp off bytes offsetNum (set_charErrorBuffer cnv (charErrorBuffer cnv ++ [b])) args
             U_BUFFER_OVERFLOW_ERROR
  end.

(** The main loop after the character has been read. *)
Fixpoint fromU_loop (fuel : nat) (e : Endian) (off : bool) (offsetNum : Z)
    (r : UConverter * UConverterArgs * UErrorCode * option Z)
    : option (UConverter * UConverterArgs * UErrorCode) :=
  match fuel, r with
  | O, _ => None
  | _, (cnv, args, err, None) => Some (cnv, args, err)
  | S fuel, (cnv, args, err, Some ch) =>
      let '(cnv, args, err) := write_temp off (temp e ch) offsetNum cnv args err in
      let supplementary := negb (u8 (Z.land (Z.shiftr ch 16) 0x1F) =? 0) in
      if negb (no_source args) && (0 <? room args)
      then fromU_loop fuel e off (offsetNum + 1 + Z.b2z supplementary) (read_char cnv args err)
      else Some (cnv, args, err)
  end.

Definition fromUnicode_UTF32 (e : Endian) (off : bool) (cnv : UConverter) (args : UConverterArgs) (err : UErrorCode)
    : option (UConverter * UConverterArgs * UErrorCode) :=
  if no_source args then Some (cnv, args, err)
  else
    let '(cnv, args, err) :=
      if fromUnicodeStatus cnv =? UCNV_NEED_TO_WRITE_BOM then
        let '(cnv, args, err) := ucnv_fromUWriteBytes cnv args (bom e) (-1) err in
        (set_fromUnicodeStatus cnv 0, args, err)
      else (cnv, args, err) in
    let fuel := S (length (source args)) in
    '(cnv, args, err) ←
      (if negb (fromUChar32 cnv =? 0) then
         fromU_loop fuel e off 0 (lowsurogate (set_fromUChar32 cnv 0) args (fromUChar32 cnv) err)
       else if negb (no_source args) && (0 <? room args) then fromU_loop fuel e off 0 (read_char cnv args err)
       else Some (cnv, args, err));
    Some (cnv, args,
          if negb (no_source args) && (room args <=? 0) && U_SUCCESS err then U_BUFFER_OVERFLOW_ERROR else err).

Definition T_UConverter_fromUnicode_UTF32_BE := fromUnicode_UTF32 BE false.
Definition T_UConverter_fromUnicode_UTF32_BE_OFFSET_LOGIC := fromUnicode_UTF32 BE true.
Definition T_UConverter_fromUnicode_UTF32_LE := fromUnicode_UTF32 LE false.
Definition T_UConverter_fromUnicode_UTF32_LE_OFFSET_LOGIC := fromUnicode_UTF32 LE true.

(** ** One code point *)
Definition getNextUChar_UTF32 (e : Endian) (cnv : UConverter) (args : UConverterArgs) (err : UErrorCode)
    : Z * UConverter * UConverterArgs * UErrorCode :=
  let partial bytes cnv := set_toU cnv (zlen bytes) (bytes ++ drop (length bytes) (toUBytes cnv)) (toUnicodeStatus cnv) in
  match source args with
  | [] => (0xffff, cnv, args, U_INDEX_OUTOFBOUNDS_ERROR)
  | b0 :: b1 :: b2 :: b3 :: src =>
      let myUChar :=
        s32 (match e with
             | BE => Z.lor (Z.lor (Z.lor (Z.shiftl b0 24) (Z.shiftl b1 16)) (Z.shiftl b2 8)) b3
             | LE => Z.lor (Z.lor (Z.lor (Z.shiftl b3 24) (Z.shiftl b2 16)) (Z.shiftl b1 8)) b0
             end) in
      if (u32 myUChar <=? MAXIMUM_UTF) && negb (U_IS_SURROGATE myUChar)
      then (myUChar, cnv, set_source args src, err)
      else (0xffff, partial [b0; b1; b2; b3] cnv, set_source args src, U_ILLEGAL_CHAR_FOUND)
  | short => (0xffff, partial short cnv, set_source args [], U_TRUNCATED_CHAR_FOUND)
  end.

Definition T_UConverter_getNextUChar_UTF32_BE := getNextUChar_UTF32 BE.
Definition T_UConverter_getNextUChar_UTF32_LE := getNextUChar_UTF32 LE.

(** ** UTF-32 with a byte order mark

    The field [mode] is the state of the detection: 0 at the start, 1 to 3 and 5 to 7
    for the bytes of a mark seen so far, 8 for big and 9 for little endian. *)
Inductive UConverterResetChoice : Type :=
  | UCNV_RESET_BOTH
  | UCNV_RESET_TO_UNICODE
  | UCNV_RESET_FROM_UNICODE.

Definition _UTF32Reset (cnv : UConverter) (choice : UConverterResetChoice) : UConverter :=
  let cnv := match choice with UCNV_RESET_BOTH | UCNV_RESET_TO_UNICODE => set_mode cnv 0 | _ => cnv end in
  match choice with
  | UCNV_RESET_TO_UNICODE => cnv
  | _ => set_fromUnicodeStatus cnv UCNV_NEED_TO_WRITE_BOM
  end.

Definition _UTF32Open (cnv : UConverter) : UConverter := _UTF32Reset cnv UCNV_RESET_BOTH.

Definition utf32BOM : list Z := [0; 0; 0xfe; 0xff; 0xff; 0xfe; 0; 0].

(** The bytes of a mark that were seen before the current buffer. *)
Definition replay_bytes (state count : Z) : list Z :=
  take (Z.to_nat (Z.land state 3 - count)) (drop (Z.to_nat (Z.land state 4)) utf32BOM).

(** The loop of [_UTF32ToUnicodeWithOffsets]; [src] is the local [source]. *)
Fixpoint detect_loop (fuel : nat) (off : bool) (state offsetDelta : Z) (src : list Z)
    (cnv : UConverter) (args : UConverterArgs) (err : UErrorCode)
    : option (Z * Z * list Z * UConverter * UConverterArgs * UErrorCode) :=
  match src with
  | [] => Some (state, offsetDelta, src, cnv, args, err)
  | b :: rest =>
      if U_SUCCESS err then
        match fuel with
        | O => None
        | S fuel =>
            let convert e :=
              '(cnv, args, err) ← toUnicode_UTF32 e off cnv (set_source args src) err;
              detect_loop fuel off state offsetDelta (source args) cnv args err in
            if state =? 0 then
              if b =? 0 then detect_loop fuel off 1 offsetDelta rest cnv args err
              else if b =? 0xff then detect_loop fuel off 5 offsetDelta rest cnv args err
              else detect_loop fuel off 8 offsetDelta src cnv args err
            else if state =? 8 then convert BE
            else if state =? 9 then convert LE
            else
              expected ← utf32BOM.[state];
              if b =? expected then
                let state := state + 1 in
                let delta := zlen (source args) - zlen rest in
                if state =? 4 then detect_loop fuel off 8 delta rest cnv args err
                else if state =? 8 then detect_loop fuel off 9 delta rest cnv args err
                else detect_loop fuel off state offsetDelta rest cnv args err
              else
                let count := zlen (source args) - zlen src in
                if count =? Z.land state 3 then detect_loop fuel off 8 offsetDelta (source args) cnv args err
                else
                  '(cnv, args', err) ←
                    T_UConverter_toUnicode_UTF32_BE cnv (set_source args (replay_bytes state count)) err;
                  detect_loop fuel off 8 offsetDelta (source args) cnv (set_source args' (source args)) err
        end
      else Some (state, offsetDelta, src, cnv, args, err)
  end.

(** [*offsets++ += offsetDelta;] for the offsets written by this call *)
Definition shift_offsets (before : nat) (delta : Z) (args : UConverterArgs) : UConverterArgs :=
  mkArgs (flush args) (source args) (target args) (room args)
    ((fun o => take before o ++ map (fun x => x + delta) (drop before o)) <$> offsets args).

Definition _UTF32ToUnicodeWithOffsets (cnv : UConverter) (args : UConverterArgs) (err : UErrorCode)
    : option (UConverter * UConverterArgs * UErrorCode) :=
  let off := match offsets args with None => false | Some _ => true end in
  let before := length (default [] (offsets args)) in
  '(state, offsetDelta, src, cnv, args, err) ←
    detect_loop (length (source args) + 3) off (mode cnv) 0 (source args) cnv args err;
  let args := set_source (if offsetDelta =? 0 then args else shift_offsets before offsetDelta args) src in
  '(state, cnv, args, err) ←
    (if no_source args && flush args then
       if state =? 0 then Some (state, cnv, args, err)
       else if state =? 8 then
         '(cnv, args, err) ← T_UConverter_toUnicode_UTF32_BE cnv args err; Some (state, cnv, args, err)
       else if state =? 9 then
         '(cnv, args, err) ← T_UConverter_toUnicode_UTF32_LE cnv args err; Some (state, cnv, args, err)
       else
         '(cnv, args', err) ← T_UConverter_toUnicode_UTF32_BE cnv (set_source args (replay_bytes state 0)) err;
         Some (8, cnv, set_source args' src, err)
     else Some (state, cnv, args, err));
  Some (set_mode cnv state, args, err).

(** [None] is UCNV_GET_NEXT_UCHAR_USE_TO_U *)
Definition _UTF32GetNextUChar (cnv : UConverter) (args : UConverterArgs) (err : UErrorCode)
    : option (Z * UConverter * UConverterArgs * UErrorCode) :=
  if mode cnv =? 8 then Some (T_UConverter_getNextUChar_UTF32_BE cnv args err)
  else if mode cnv =? 9 then Some (T_UConverter_getNextUChar_UTF32_LE cnv args err)
  else None.

(** The converter of the little-endian target writes little endian. *)
Definition _UTF32FromUnicode := T_UConverter_fromUnicode_UTF32_LE.
Definition _UTF32FromUnicodeWithOffsets := T_UConverter_fromUnicode_UTF32_LE_OFFSET_LOGIC.
