(* ===== verification/UcnvU32Facts.v ===== *)
(** * UcnvU32Facts: what UTF-32 converters mean

    The code points, their encoding forms, and the loops of the converters in terms
    of them. *)
From S2P Require Import Prelude Utf8 Ucnv UcnvU32.
Local Open Scope Z_scope.

(** ** Code points and their encoding forms *)
Definition scalar (c : Z) : Prop := 0 <= c <= 0x10ffff /\ ~ 0xd800 <= c <= 0xdfff.

#[export] Instance scalar_dec c : Decision (scalar c).
Proof. unfold scalar. apply _. Defined.

Definition utf16 (c : Z) : list Z :=
  if c <=? 0xffff then [c] else [0xd800 + (c - 0x10000) / 0x400; 0xdc00 + (c - 0x10000) mod 0x400].

(** The four bytes of a 32-bit value. *)
Definition utf32 (e : Endian) (c : Z) : list Z :=
  let bytes := [c / 2 ^ 24; c / 2 ^ 16 mod 2 ^ 8; c / 2 ^ 8 mod 2 ^ 8; c mod 2 ^ 8] in
  match e with BE => bytes | LE => rev bytes end.

Definition utf16s (cs : list Z) : list Z := concat (map utf16 cs).
Definition utf32s (e : Endian) (cs : list Z) : list Z := concat (map (utf32 e) cs).

(** The offsets of the code units of code points that start at [n] and take 4 bytes each. *)
Fixpoint unit_offsets (n : Z) (cs : list Z) : list Z :=
  match cs with
  | [] => []
  | c :: cs => map (fun _ => n) (utf16 c) ++ unit_offsets (n + 4) cs
  end.

Lemma is_surrogate_spec c : 0 <= c < 2 ^ 32 -> U_IS_SURROGATE c = bool_decide (0xd800 <= c <= 0xdfff).
Proof.
  intros Hc. unfold U_IS_SURROGATE. change 0xfffff800 with (Z.shiftl (2 ^ 21 - 1) 11). rewrite Z_land_field by lia.
  assert (0 <= c / 2 ^ 11 < 2 ^ 21) as Hd by (split; [apply Z.div_pos; lia|apply Z.div_lt_upper_bound; lia]).
  rewrite Z.mod_small by done. pose proof (Z.div_mod c (2 ^ 11) ltac:(lia)). pose proof (Z.mod_pos_bound c (2 ^ 11) ltac:(lia)).
  case_bool_decide; [apply Z.eqb_eq|apply Z.eqb_neq]; lia.
Qed.

Lemma scalar_test c :
  0 <= c < 2 ^ 32 -> (c <=? MAXIMUM_UTF) && negb (U_IS_SURROGATE c) = bool_decide (scalar c).
Proof.
  intros Hc. rewrite is_surrogate_spec by done. unfold MAXIMUM_UTF, scalar.
  repeat case_bool_decide; destruct (c <=? 0x10ffff) eqn:E; bool_prop; simpl; lia || done.
Qed.

Lemma lead_trail_spec c :
  0x10000 <= c <= 0x10ffff ->
  U16_LEAD c = 0xd800 + (c - 0x10000) / 0x400 /\ U16_TRAIL c = 0xdc00 + (c - 0x10000) mod 0x400.
Proof.
  intros Hc. unfold U16_LEAD, U16_TRAIL. change 0x3ff with (2 ^ 10 - 1). rewrite Z_land_ones, Z.shiftr_div_pow2 by lia.
  change 0xdc00 with (Z.shiftl 55 10) at 1. rewrite Z_lor_above by (try apply Z.mod_pos_bound; lia).
  unfold u16. change 0x400 with (2 ^ 10).
  assert (c / 2 ^ 10 = (c - 0x10000) / 2 ^ 10 + 64 /\ c mod 2 ^ 10 = (c - 0x10000) mod 2 ^ 10) as [-> ->].
  { rewrite <- Z.div_add, <- (Z.mod_add (c - 0x10000) 64) by lia. split; f_equal; lia. }
  pose proof (Z.mod_pos_bound (c - 0x10000) (2 ^ 10) ltac:(lia)).
  assert (0 <= (c - 0x10000) / 2 ^ 10 < 2 ^ 10) by (split; [apply Z.div_pos; lia|apply Z.div_lt_upper_bound; lia]).
  rewrite !Z.mod_small by lia. lia.
Qed.

(** ** Reading the bytes of a character *)

(** The value that the bytes of a character add up to. *)
Fixpoint partial (e : Endian) (i ch : Z) (bs : list Z) : Z :=
  match bs with [] => ch | b :: bs => partial e (i + 1) (add_byte e ch i b) bs end.

Lemma partial_app e i ch xs ys : partial e i ch (xs ++ ys) = partial e (i + zlen xs) (partial e i ch xs) ys.
Proof.
  revert i ch. induction xs as [|x xs IH]; intros i ch; cbn [app partial]; [by rewrite zlen_nil, Z.add_0_r|].
  rewrite IH. f_equal. zlia.
Qed.

(** The value as a sum, for at most four bytes. *)
Lemma add_byte_BE ch i b : 0 <= ch < 2 ^ 24 -> is_u8 b -> add_byte BE ch i b = ch * 2 ^ 8 + b.
Proof.
  intros Hc Hb. unfold is_u8 in Hb. unfold add_byte. rewrite Z_lor_shiftl by lia. apply u32_small. lia.
Qed.

Lemma add_byte_LE ch i b : 0 <= i < 4 -> 0 <= ch < 2 ^ (i * 8) -> is_u8 b -> add_byte LE ch i b = ch + b * 2 ^ (i * 8).
Proof.
  intros Hi Hc Hb. unfold is_u8 in Hb. unfold add_byte. rewrite u32_small; [by rewrite Z_lor_above by lia|].
  rewrite Z.shiftl_mul_pow2 by lia. split; [apply Z.mul_nonneg_nonneg; lia|].
  apply Z.lt_le_trans with (2 ^ 8 * 2 ^ (i * 8)); [apply Z.mul_lt_mono_pos_r; lia|].
  rewrite <- Z.pow_add_r by lia. apply Z.pow_le_mono_r; lia.
Qed.

Lemma partial_bound e bs : Forall is_u8 bs -> zlen bs < 4 -> 0 <= partial e 0 0 bs < 2 ^ (zlen bs * 8).
Proof.
  revert e. induction bs as [|b bs IH] using rev_ind; intros e Hb Hl; [change (0 <= 0 < 1); lia|].
  apply Forall_app in Hb as [Hbs (Hb & _)%Forall_cons]. rewrite partial_app. cbn [partial].
  specialize (IH e Hbs ltac:(zlia)). rewrite Z.add_0_l.
  assert (0 <= zlen bs < 3) as Hn by zlia. assert (zlen (bs ++ [b]) = zlen bs + 1) as -> by zlia.
  assert (2 ^ ((zlen bs + 1) * 8) = 2 ^ (zlen bs * 8) * 2 ^ 8) as -> by (rewrite <- Z.pow_add_r by lia; f_equal; lia).
  assert (2 ^ (zlen bs * 8) <= 2 ^ 16) by (apply Z.pow_le_mono_r; lia).
  pose proof Hb as Hb'. unfold is_u8 in Hb'. destruct e; [rewrite add_byte_BE by (done || lia); lia|].
  rewrite add_byte_LE by (done || lia). set (X := 2 ^ (zlen bs * 8)) in *. nia.
Qed.

Lemma value_spec e b0 b1 b2 b3 :
  Forall is_u8 [b0; b1; b2; b3] ->
  let v := partial e 0 0 [b0; b1; b2; b3] in 0 <= v < 2 ^ 32 /\ utf32 e v = [b0; b1; b2; b3].
Proof.
  intros Hb v. assert (exists x0 x1 x2 x3, Forall is_u8 [x0; x1; x2; x3] /\
    v = x0 * 2 ^ 24 + x1 * 2 ^ 16 + x2 * 2 ^ 8 + x3 /\
    [b0; b1; b2; b3] = match e with BE => [x0; x1; x2; x3] | LE => rev [x0; x1; x2; x3] end)
    as (x0 & x1 & x2 & x3 & Hx & -> & ->).
  { pose proof Hb as Hb'. rewrite !Forall_cons in Hb'. unfold is_u8 in Hb'. destruct Hb' as (H0 & H1 & H2 & H3 & _).
    destruct e; [exists b0, b1, b2, b3|exists b3, b2, b1, b0]; subst v; cbn [partial].
    - split; [done|]. split; [|done]. rewrite (add_byte_BE 0 _ b0), (add_byte_BE _ _ b1) by (done || lia).
      rewrite (add_byte_BE _ _ b2) by (done || lia). rewrite (add_byte_BE _ _ b3) by (done || lia). lia.
    - split; [rewrite !Forall_cons in *; tauto|]. split; [|done]. rewrite (add_byte_LE 0 0 b0) by (done || simpl; lia).
      change (0 * 8) with 0. change (0 + 1) with 1. change (1 + 1) with 2. change (2 + 1) with 3.
      rewrite (add_byte_LE _ 1 b1) by (done || simpl; lia). change (1 * 8) with 8.
      rewrite (add_byte_LE _ 2 b2) by (done || simpl; lia). change (2 * 8) with 16.
      rewrite (add_byte_LE _ 3 b3) by (done || simpl; lia). change (3 * 8) with 24. lia. }
  rewrite !Forall_cons in Hx. destruct Hx as (H0 & H1 & H2 & H3 & _). unfold is_u8 in *. split; [lia|].
  set (c := x0 * 2 ^ 24 + x1 * 2 ^ 16 + x2 * 2 ^ 8 + x3). unfold utf32.
  assert (c / 2 ^ 24 = x0 /\ c / 2 ^ 16 mod 2 ^ 8 = x1 /\ c / 2 ^ 8 mod 2 ^ 8 = x2 /\ c mod 2 ^ 8 = x3)
    as (-> & -> & -> & ->); [|by destruct e].
  subst c. Z.to_euclidean_division_equations. lia.
Qed.

(** The bytes [q] of the current character are in [toUBytes]. *)
Lemma morebytes_spec e src q tb :
  zlen q <= 4 -> take (length q) tb = q -> zlen tb = 7 ->
  exists s1 src' tb', src = s1 ++ src' /\
    morebytes e src (zlen q) (partial e 0 0 q) tb = (src', zlen (q ++ s1), partial e 0 0 (q ++ s1), tb') /\
    take (length (q ++ s1)) tb' = q ++ s1 /\ zlen tb' = 7 /\ zlen (q ++ s1) <= 4 /\
    (zlen (q ++ s1) < 4 -> src' = []).
Proof.
  revert q tb. induction src as [|b src IH]; intros q tb Hq Htb Hlen; cbn [morebytes].
  { exists [], [], tb. rewrite (app_nil_r q). split; [done|]. split; [by if_cases|]. auto. }
  destruct (zlen q <? 4) eqn:E; bool_prop.
  2:{ exists [], (b :: src), tb. rewrite (app_nil_r q). split; [done|]. split; [done|]. split; [done|]. split; [done|]. split; [done|lia]. }
  destruct (IH (q ++ [b]) (<[Z.to_nat (zlen q) := b]> tb)) as (s1 & src' & tb' & -> & Hm & Ht & Hl & Hz & Hs).
  - zlia.
  - unfold zlen in *. rewrite Nat2Z.id, length_app. cbn [length]. rewrite Nat.add_1_r.
    rewrite (take_S_r _ _ b) by (apply list_lookup_insert_eq; lia). by rewrite take_insert_ge, Htb by lia.
  - unfold zlen in *. by rewrite length_insert.
  - exists (b :: s1), src', tb'. rewrite cons_middle, app_assoc. split; [done|]. split; [|done].
    rewrite <- Hm. rewrite partial_app. cbn [partial]. f_equal; zlia.
Qed.

(** ** The loop of the conversion to Unicode *)

(** The bytes of an incomplete character that the converter holds. *)
Definition pending (e : Endian) (cnv : UConverter) (p : list Z) : Prop :=
  (p = [] /\ toUnicodeStatus cnv = 0) \/
  (0 < zlen p < 4 /\ Forall is_u8 p /\ toUnicodeStatus cnv = partial e 0 0 p + 1 /\
   toULength cnv = zlen p /\ take (length p) (toUBytes cnv) = p).

(** The converter is otherwise as before. *)
Definition same_fields (cnv cnv' : UConverter) : Prop :=
  zlen (toUBytes cnv') = 7 /\ mode cnv' = mode cnv /\ fromUnicodeStatus cnv' = fromUnicodeStatus cnv /\
  fromUChar32 cnv' = fromUChar32 cnv /\ charErrorBuffer cnv' = charErrorBuffer cnv.

(** What a call leaves: how the bytes [bs] were read, and what was written. *)
Record toU_result (e : Endian) (off : bool) (n : Z) (bs : list Z) (cnv : UConverter) (args : UConverterArgs)
    (err : UErrorCode) (cnv' : UConverter) (args' : UConverterArgs) (err' : UErrorCode)
    (cs bad p overflow : list Z) : Prop := {
  toU_read : bs = utf32s e cs ++ bad ++ p ++ source args';
  toU_scalars : Forall scalar cs;
  toU_written : exists u, target args' = target args ++ u /\ u ++ overflow = utf16s cs /\
    room args' = room args - zlen u /\ 0 <= room args' /\
    offsets args' = (if off then (fun o => o ++ take (length u) (unit_offsets n cs)) <$> offsets args else offsets args);
  toU_flush : flush args' = flush args;
  toU_same : same_fields cnv cnv';
  toU_case :
    (err' = err /\ bad = [] /\ overflow = [] /\ pending e cnv' p /\ UCharErrorBuffer cnv' = UCharErrorBuffer cnv /\
     (source args' = [] \/ room args' = 0)) \/
    (err' = U_BUFFER_OVERFLOW_ERROR /\ bad = [] /\ p = [] /\ zlen overflow = 1 /\ UCharErrorBuffer cnv' = overflow /\
     room args' = 0 /\ toUnicodeStatus cnv' = 0) \/
    (err' = U_ILLEGAL_CHAR_FOUND /\ overflow = [] /\ p = [] /\
     (exists v, 0 <= v < 2 ^ 32 /\ ~ scalar v /\ bad = utf32 e v) /\
     toULength cnv' = 4 /\ take 4 (toUBytes cnv') = bad /\ toUnicodeStatus cnv' = 0 /\
     UCharErrorBuffer cnv' = UCharErrorBuffer cnv)
}.

(** Several units of one character. *)
Definition write_all (off : bool) (args : UConverterArgs) (us : list Z) (n : Z) : UConverterArgs :=
  fold_left (fun args x => write off args x n) us args.

Lemma write_all_spec off args us n :
  write_all off args us n
  = mkArgs (flush args) (source args) (target args ++ us) (room args - zlen us)
      (if off then (fun o => o ++ map (fun _ => n) us) <$> offsets args else offsets args).
Proof.
  unfold write_all. revert args. induction us as [|x us IH]; intros [fl src tgt rm offs]; cbn [fold_left].
  - rewrite zlen_nil, Z.sub_0_r. cbn [flush source target room offsets map]. rewrite app_nil_r.
    destruct off, offs; simpl; by rewrite ?app_nil_r.
  - rewrite IH. unfold write. cbn [flush source target room offsets map]. rewrite <- app_assoc. cbn [app]. f_equal; [zlia|].
    destruct off, offs; simpl; [by rewrite <- app_assoc|done..].
Qed.

Lemma option_map_nil (off : bool) (o : option (list Z)) :
  o = (if off then (fun o => o ++ []) <$> o else o).
Proof. destruct off, o; simpl; by rewrite ?app_nil_r. Qed.

(** Nothing is left to do. *)
Lemma toU_result_stop e off n cnv args err :
  zlen (toUBytes cnv) = 7 -> toUnicodeStatus cnv = 0 -> 0 <= room args -> source args = [] \/ room args = 0 ->
  toU_result e off n (source args) cnv args err cnv args err [] [] [] [].
Proof.
  intros Hl Hst Hr Hs. split; [done|constructor| |done|done|].
  - exists []. rewrite app_nil_r. split; [done|]. split; [done|]. rewrite zlen_nil. split; [lia|]. split; [done|].
    apply option_map_nil.
  - left. split; [done|]. split; [done|]. split; [done|]. split; [by left|]. by split.
Qed.

(** A character in front of what the rest of the loop reads. *)
Lemma toU_result_cons e off n c src cnv args cnv1 err cnv' args' err' cs bad p overflow :
  scalar c -> same_fields cnv cnv1 -> UCharErrorBuffer cnv1 = UCharErrorBuffer cnv ->
  toU_result e off (n + 4) src cnv1 (write_all off (set_source args src) (utf16 c) n) err cnv' args' err' cs bad p overflow ->
  toU_result e off n (utf32 e c ++ src) cnv args err cnv' args' err' (c :: cs) bad p overflow.
Proof.
  intros Hc (Hs1 & Hs2 & Hs3 & Hs4 & Hs5) Hbuf [Hread Hcs (u & Ht & Hu & Hr & Hr0 & Ho) Hf (H1 & H2 & H3 & H4 & H5) Hcase].
  rewrite write_all_spec in *. cbn [flush source target room offsets set_source] in *.
  split.
  - rewrite Hread at 1. unfold utf32s. cbn [map concat]. by rewrite <- app_assoc.
  - by constructor.
  - exists (utf16 c ++ u). split; [by rewrite Ht, <- app_assoc|]. split.
    { unfold utf16s. cbn [map concat]. by rewrite <- app_assoc, Hu. }
    split; [rewrite Hr; zlia|]. split; [done|]. rewrite Ho. cbn [unit_offsets]. rewrite length_app.
    destruct off; [|done]. destruct (offsets args); [|done]. simpl. f_equal. rewrite <- app_assoc. f_equal.
    replace (length (utf16 c)) with (length (map (fun _ : Z => n) (utf16 c))) by apply length_map.
    by rewrite take_app_add.
  - done.
  - unfold same_fields. rewrite H2, H3, H4, H5. auto.
  - rewrite Hbuf in Hcase. done.
Qed.

(** The source ends inside a character. *)
Lemma toU_result_partial e off n q cnv args err bytes :
  0 < zlen q < 4 -> Forall is_u8 q -> take (length q) bytes = q -> zlen bytes = 7 -> 0 <= room args ->
  toU_result e off n q cnv args err
    (set_toU cnv (zlen q) bytes (u32 (partial e 0 0 q + 1))) (set_source args []) err [] [] q [].
Proof.
  intros Hq Hu Ht Hl Hr. pose proof (partial_bound e q Hu ltac:(lia)) as Hb.
  assert (2 ^ (zlen q * 8) <= 2 ^ 24) by (apply Z.pow_le_mono_r; lia).
  split; [cbn [set_source source utf32s map concat app]; by rewrite app_nil_r|constructor| |done|by repeat split|].
  - exists []. cbn [set_source target room offsets]. rewrite app_nil_r, zlen_nil, Z.sub_0_r.
    split; [done|]. split; [done|]. split; [done|]. split; [done|]. apply option_map_nil.
  - left. split; [done|]. split; [done|]. split; [done|]. split; [|by auto]. right.
    cbn [set_toU toUnicodeStatus toULength toUBytes]. rewrite u32_small by lia. auto.
Qed.

(** A character that is not a scalar value. *)
Lemma toU_result_illegal e off n v src cnv args err bytes :
  0 <= v < 2 ^ 32 -> ~ scalar v -> take 4 bytes = utf32 e v -> zlen bytes = 7 -> 0 <= room args ->
  toUnicodeStatus cnv = 0 ->
  toU_result e off n (utf32 e v ++ src) cnv args err
    (set_toU cnv 4 bytes (toUnicodeStatus cnv)) (set_source args src) U_ILLEGAL_CHAR_FOUND [] (utf32 e v) [] [].
Proof.
  intros Hv Hs Ht Hl Hr Hst. split; [done|constructor| |done|by repeat split|].
  - exists []. cbn [set_source target room offsets]. rewrite app_nil_r, zlen_nil, Z.sub_0_r.
    split; [done|]. split; [done|]. split; [done|]. split; [done|]. apply option_map_nil.
  - right. right. split; [done|]. split; [done|]. split; [done|]. split; [by exists v|]. by repeat split.
Qed.

(** The second unit of a pair does not fit. *)
Lemma toU_result_overflow e off n c src cnv args err bytes :
  scalar c -> 0xffff < c -> zlen bytes = 7 -> room args = 1 -> toUnicodeStatus cnv = 0 ->
  toU_result e off n (utf32 e c ++ src) cnv args err
    (set_UCharErrorBuffer (set_toU cnv (toULength cnv) bytes (toUnicodeStatus cnv)) [U16_TRAIL c])
    (write off (set_source args src) (U16_LEAD c) n) U_BUFFER_OVERFLOW_ERROR [c] [] [] [U16_TRAIL c].
Proof.
  intros Hs Hc Hl Hr Hst. destruct (lead_trail_spec c) as [Hlead Htrail]; [destruct Hs; lia|].
  assert (utf16 c = [U16_LEAD c; U16_TRAIL c]) as Hu by (unfold utf16; by rewrite Z_leb_false, Hlead, Htrail by lia).
  split; [unfold utf32s; cbn [map concat]; by rewrite app_nil_r|by constructor| |done|by repeat split|].
  - exists [U16_LEAD c]. cbn [write set_source target room offsets]. unfold utf16s. cbn [map concat unit_offsets].
    rewrite Hu. split; [done|]. split; [done|]. split; [zlia|]. split; [lia|]. done.
  - right. left. cbn [write set_source room]. rewrite Hr. split; [done|]. split; [done|]. split; [done|]. split; [done|].
    split; [done|]. split; [lia|done].
Qed.

(** What the loop does when it is entered with the bytes [q] of a character. *)
Definition toU_loop_ok (fuel : nat) (e : Endian) (off : bool) (err : UErrorCode) : Prop := forall cnv args q n,
  zlen q < 4 -> take (length q) (toUBytes cnv) = q -> zlen (toUBytes cnv) = 7 -> toUnicodeStatus cnv = 0 ->
  Forall is_u8 (q ++ source args) -> q ++ source args <> [] -> 0 < room args -> (length (source args) < fuel)%nat ->
  exists cnv' args' err' cs bad p overflow,
    toU_loop fuel e off cnv args (zlen q) (partial e 0 0 q) n err = Some (cnv', args', err') /\
    toU_result e off n (q ++ source args) cnv args err cnv' args' err' cs bad p overflow.

(** The end of the loop body, when the character [c] has been written. *)
Lemma toU_next fuel e off err cnv cnv1 args c src n :
  toU_loop_ok fuel e off err -> scalar c -> same_fields cnv cnv1 -> UCharErrorBuffer cnv1 = UCharErrorBuffer cnv ->
  toUnicodeStatus cnv1 = 0 -> Forall is_u8 src -> (length src < fuel)%nat -> zlen (utf16 c) <= room args ->
  let args1 := write_all off (set_source args src) (utf16 c) n in
  exists cnv' args' err' cs bad p overflow,
    (if negb (no_source args1) && (0 <? room args1) then toU_loop fuel e off cnv1 args1 0 0 (n + 4) err
     else Some (cnv1, args1, err)) = Some (cnv', args', err') /\
    toU_result e off n (utf32 e c ++ src) cnv args err cnv' args' err' cs bad p overflow.
Proof.
  intros IH Hc Hsame Hbuf Hst H8 Hf Hfit args1.
  assert (source args1 = src) as Hs1 by (unfold args1; by rewrite write_all_spec).
  assert (room args1 = room args - zlen (utf16 c)) as Hr1 by (unfold args1; by rewrite write_all_spec).
  assert (exists cnv' args' err' cs bad p overflow,
    (if negb (no_source args1) && (0 <? room args1) then toU_loop fuel e off cnv1 args1 0 0 (n + 4) err
     else Some (cnv1, args1, err)) = Some (cnv', args', err') /\
    toU_result e off (n + 4) src cnv1 args1 err cnv' args' err' cs bad p overflow)
    as (cnv' & args' & err' & cs & bad & p & overflow & Hrun & Hres).
  2:{ eexists _, _, _, _, _, _, _. split; [exact Hrun|]. by eapply toU_result_cons. }
  unfold no_source. rewrite Hs1. destruct (negb _ && (0 <? room args1)) eqn:En.
  - bool_prop. destruct (IH cnv1 args1 [] (n + 4)) as (cnv' & args' & err' & cs & bad & p & overflow & Hrun & Hres); auto.
    + zlia.
    + apply Hsame.
    + by rewrite Hs1.
    + rewrite Hs1. by destruct src.
    + by rewrite Hs1.
    + rewrite Hs1 in Hres. eauto 10.
  - exists cnv1, args1, err, [], [], [], []. split; [done|]. rewrite <- Hs1 at 1.
    apply toU_result_stop; auto; [apply Hsame|lia|]. rewrite Hs1. destruct src; [by left|right]. simpl in En. bool_prop. lia.
Qed.

Lemma toU_loop_spec fuel e off err : toU_loop_ok fuel e off err.
Proof.
  induction fuel as [|fuel IH]; intros cnv args q n Hq Htb Hlen Hst Hu8 Hne Hroom Hf; [lia|].
  cbn [toU_loop]. destruct (morebytes_spec e (source args) q (toUBytes cnv)) as (s1 & src' & tb' & Hsrc & Hm & Ht & Hl & Hz & Hsh);
    [lia|done|done|]. rewrite Hm. cbv zeta. rewrite Hsrc in Hu8, Hne, Hf |- *. rewrite app_assoc in Hu8, Hne |- *.
  assert (zlen (q ++ s1) = 4 -> (length src' < fuel)%nat) as Hf'.
  { rewrite length_app in Hf. unfold zlen in *. rewrite length_app. lia. }
  set (s := q ++ s1) in *. apply Forall_app in Hu8 as [Hs8 Hsrc8].
  destruct (zlen s <? 4) eqn:E; bool_prop.
  { rewrite (Hsh E) in *. rewrite app_nil_r in *. eexists _, _, _, _, _, _, _. split; [done|].
    apply (toU_result_partial e off n s cnv args err tb'); auto; [|lia]. destruct s; [done|zlia]. }
  destruct s as [|b0 [|b1 [|b2 [|b3 [|? ?]]]]] eqn:Es; [zlia..| |zlia]. destruct (value_spec e b0 b1 b2 b3 Hs8) as [Hv Hval].
  set (v := partial e 0 0 [b0; b1; b2; b3]) in *. rewrite scalar_test by done. rewrite <- Hval in Ht |- *.
  replace (zlen (utf32 e v)) with 4 by (by rewrite Hval).
  assert (length (utf32 e v) = 4%nat) as Hl4 by (by rewrite Hval). rewrite Hl4 in Ht.
  case_bool_decide as Hsc.
  2:{ eexists _, _, _, _, _, _, _. split; [done|]. apply (toU_result_illegal e off n v src' cnv args err tb'); auto. lia. }
  pose proof (toU_next fuel e off err cnv (set_toU cnv (toULength cnv) tb' (toUnicodeStatus cnv)) args v src' n IH Hsc
    ltac:(by repeat split) eq_refl Hst Hsrc8 (Hf' eq_refl)) as Hnext.
  unfold MAXIMUM_UCS2. destruct (v <=? 0xffff) eqn:E1; bool_prop.
  - rewrite (u16_small v) by lia. assert (utf16 v = [v]) as Hu by (unfold utf16; by rewrite Z_leb_true by lia).
    rewrite Hu in Hnext. apply Hnext. zlia.
  - destruct (lead_trail_spec v) as [Hlead Htrail]; [destruct Hsc; lia|].
    assert (utf16 v = [U16_LEAD v; U16_TRAIL v]) as Hu by (unfold utf16; by rewrite Z_leb_false, Hlead, Htrail by lia).
    destruct (0 <? room (write off (set_source args src') (U16_LEAD v) n)) eqn:E2; bool_prop; cbn [write set_source room] in E2.
    + rewrite Hu in Hnext. apply Hnext. zlia.
    + eexists _, _, _, _, _, _, _. split; [done|]. apply (toU_result_overflow e off n v src' cnv args err tb'); auto. lia.
Qed.

(** A call: the rest of a character first, then the source; the error code says last
    whether the target was too small. *)
Lemma toUnicode_UTF32_spec e off cnv args p err :
  pending e cnv p -> zlen (toUBytes cnv) = 7 -> Forall is_u8 (source args) -> 0 <= room args ->
  exists cnv' args' err' cs bad p' overflow,
    toUnicode_UTF32 e off cnv args err
    = Some (cnv', args',
            if negb (no_source args') && (room args' <=? 0) && U_SUCCESS err' then U_BUFFER_OVERFLOW_ERROR else err') /\
    toU_result e off 0 (p ++ source args) cnv args err cnv' args' err' cs bad p' overflow.
Proof.
  intros Hp Hl H8 Hr. unfold toUnicode_UTF32.
  destruct (negb (toUnicodeStatus cnv =? 0) && (0 <? room args)) eqn:E; bool_prop.
  - destruct Hp as [[_ ?]|(Hp & Hp8 & Hst & Hlen & Ht)]; [lia|].
    pose proof (partial_bound e p Hp8 ltac:(lia)). assert (2 ^ (zlen p * 8) <= 2 ^ 24) by (apply Z.pow_le_mono_r; lia).
    replace (u32 (toUnicodeStatus cnv - 1)) with (partial e 0 0 p) by (rewrite u32_small; lia). rewrite Hlen.
    destruct (toU_loop_spec (S (length (source args))) e off err (set_toU cnv 0 (toUBytes cnv) 0) args p 0)
      as (cnv' & args' & err' & cs & bad & p' & overflow & Hrun & Hres); auto; [lia|by apply Forall_app|destruct p; [zlia|done]|].
    rewrite Hrun. mstep. eexists _, _, _, _, _, _, _. split; [done|]. destruct Hres. by split.
  - assert (p = [] \/ room args = 0) as Hp'.
    { destruct Hp as [[-> _]|(? & Hp8 & Hst & _)]; [by left|]. pose proof (partial_bound e p Hp8 ltac:(lia)).
      destruct E; bool_prop; [lia|right; lia]. }
    destruct (negb (no_source args) && (0 <? room args)) eqn:E1; bool_prop.
    + assert (p = []) as -> by (destruct Hp'; [done|lia]).
      destruct (toU_loop_spec (S (length (source args))) e off err cnv args [] 0)
        as (cnv' & args' & err' & cs & bad & p' & overflow & Hrun & Hres); auto; [zlia| | |].
      * destruct Hp as [[_ ?]|(? & _)]; [done|zlia].
      * unfold no_source in *. by destruct (source args).
      * change (zlen (@nil Z)) with 0 in Hrun. cbn [partial] in Hrun. rewrite Hrun. mstep. eauto 10.
    + mstep. exists cnv, args, err, [], [], p, []. split; [done|].
      split; [done|constructor| |done|by repeat split|].
      * exists []. rewrite app_nil_r, zlen_nil, Z.sub_0_r. split; [done|]. split; [done|]. split; [done|]. split; [done|].
        apply option_map_nil.
      * left. split; [done|]. split; [done|]. split; [done|]. split; [done|]. split; [done|].
        destruct (source args) eqn:Es; [by left|right]. unfold no_source in E1. rewrite Es in E1. simpl in E1.
        destruct E1; bool_prop; lia.
Qed.

(** ** The loop of the conversion from Unicode *)
Definition lead (c : Z) : Prop := 0xd800 <= c <= 0xdbff.
Definition trail (c : Z) : Prop := 0xdc00 <= c <= 0xdfff.

Lemma field10 c : 0 <= c < 2 ^ 32 -> Z.land c 0xfffffc00 = c - c mod 2 ^ 10.
Proof.
  intros Hc. change 0xfffffc00 with (Z.shiftl (2 ^ 22 - 1) 10). rewrite Z_land_field by lia.
  rewrite Z.mod_small by (split; [apply Z.div_pos; lia|apply Z.div_lt_upper_bound; lia]).
  pose proof (Z.div_mod c (2 ^ 10) ltac:(lia)). lia.
Qed.

Lemma is_lead_spec c : 0 <= c < 2 ^ 32 -> U_IS_LEAD c = true <-> lead c.
Proof.
  intros Hc. unfold U_IS_LEAD, lead. rewrite field10, Z.eqb_eq by done. Z.to_euclidean_division_equations. lia.
Qed.

Lemma is_trail_spec c : 0 <= c < 2 ^ 32 -> U_IS_TRAIL c = true <-> trail c.
Proof.
  intros Hc. unfold U_IS_TRAIL, trail. rewrite field10, Z.eqb_eq by done. Z.to_euclidean_division_equations. lia.
Qed.

Lemma surrogate_pair h l :
  lead h -> trail l ->
  let c := Z.shiftl (h - SURROGATE_HIGH_START) HALF_SHIFT + l + SURROGATE_LOW_BASE in
  scalar c /\ utf16 c = [h; l].
Proof.
  unfold lead, trail, SURROGATE_HIGH_START, HALF_SHIFT, SURROGATE_LOW_BASE. intros Hh Hl. rewrite Z.shiftl_mul_pow2 by lia.
  cbv zeta. set (c := _ + 9216). assert (c - 0x10000 = (l - 0xdc00) + (h - 0xd800) * 0x400) as Hc by (subst c; lia).
  unfold utf16, scalar. rewrite Z_leb_false by lia. rewrite Hc, Z.div_add, Z.mod_add, Z.div_small, Z.mod_small by lia.
  split; [lia|]. do 2 f_equal; [lia|]. f_equal. lia.
Qed.

Lemma temp_utf32 e c : 0 <= c <= 0x10ffff -> temp e c = utf32 e c.
Proof.
  intros Hc. unfold temp, utf32, u8. change 0x1F with (2 ^ 5 - 1). rewrite Z_land_ones, !Z.shiftr_div_pow2 by lia.
  assert (c / 2 ^ 24 = 0) as -> by (apply Z.div_small; lia).
  assert (0 <= c / 2 ^ 16 < 2 ^ 5) as Hd by (split; [apply Z.div_pos; lia|apply Z.div_lt_upper_bound; lia]).
  rewrite (Z.mod_small (c / 2 ^ 16) (2 ^ 5)) by done. by destruct e.
Qed.

Lemma supplementary_test c :
  0 <= c <= 0x10ffff -> 1 + Z.b2z (negb (u8 (Z.land (Z.shiftr c 16) 0x1F) =? 0)) = zlen (utf16 c).
Proof.
  intros Hc. unfold u8. change 0x1F with (2 ^ 5 - 1). rewrite Z_land_ones, Z.shiftr_div_pow2 by lia.
  assert (0 <= c / 2 ^ 16 < 2 ^ 5) as Hd by (split; [apply Z.div_pos; lia|apply Z.div_lt_upper_bound; lia]).
  rewrite (Z.mod_small (c / 2 ^ 16) (2 ^ 5)) by done. rewrite (Z.mod_small (c / 2 ^ 16) (2 ^ 8)) by lia.
  pose proof (Z.div_mod c (2 ^ 16) ltac:(lia)). pose proof (Z.mod_pos_bound c (2 ^ 16) ltac:(lia)).
  unfold utf16. destruct (c / 2 ^ 16 =? 0) eqn:E, (c <=? 0xffff) eqn:E'; bool_prop; try done; exfalso; lia.
Qed.

(** The offsets of the bytes of code points, in units of the source from [n] on. *)
Fixpoint byte_offsets (n : Z) (cs : list Z) : list Z :=
  match cs with
  | [] => []
  | c :: cs => [n; n; n; n] ++ byte_offsets (n + zlen (utf16 c)) cs
  end.

(** The first character of the units [us]: it is read, or it is an error or is not
    complete. *)
Definition unread (us : list Z) (args' : UConverterArgs) (ch : Z) (fl : bool) (err err' : UErrorCode) : Prop :=
  us = ch :: source args' /\
  ((lead ch /\ source args' = [] /\ err' = (if fl then U_ILLEGAL_CHAR_FOUND else err)) \/
   (lead ch /\ (exists x rest, source args' = x :: rest /\ ~ trail x) /\ err' = U_ILLEGAL_CHAR_FOUND) \/
   (trail ch /\ err' = U_ILLEGAL_CHAR_FOUND)).

Definition read_ok (us : list Z) (cnv : UConverter) (args : UConverterArgs) (err : UErrorCode)
    (r : UConverter * UConverterArgs * UErrorCode * option Z) : Prop :=
  match r with
  | (cnv', args', err', Some c) =>
      scalar c /\ us = utf16 c ++ source args' /\ cnv' = cnv /\ args' = set_source args (source args') /\ err' = err
  | (cnv', args', err', None) =>
      exists ch, cnv' = set_fromUChar32 cnv ch /\ args' = set_source args (source args') /\
        unread us args' ch (flush args) err err'
  end.

Lemma lowsurogate_spec cnv args ch err :
  lead ch -> Forall is_u16 (source args) -> read_ok (ch :: source args) cnv args err (lowsurogate cnv args ch err).
Proof.
  intros Hch H16. unfold lowsurogate. destruct (source args) as [|x src] eqn:Es.
  { exists ch. split; [done|]. split; [by destruct args; simpl in *; subst|]. split; [by rewrite Es|]. left. auto. }
  apply Forall_cons in H16 as [Hx H16]. pose proof (is_trail_spec x ltac:(unfold is_u16 in Hx; lia)) as Ht.
  destruct (U_IS_TRAIL x).
  - destruct (surrogate_pair ch x Hch (proj1 Ht eq_refl)) as [Hsc Hu]. split; [done|]. split; [by rewrite Hu|]. auto.
  - exists ch. split; [done|]. split; [by destruct args|]. split; [by rewrite Es|]. right. left. split; [done|].
    split; [|done]. exists x, src. split; [done|]. by intros ?%Ht.
Qed.

Lemma read_char_spec cnv args err :
  Forall is_u16 (source args) -> source args <> [] -> read_ok (source args) cnv args err (read_char cnv args err).
Proof.
  intros H16 Hne. unfold read_char. destruct (source args) as [|ch src]; [done|]. apply Forall_cons in H16 as [Hch H16].
  unfold is_u16 in Hch. rewrite is_surrogate_spec by lia. case_bool_decide as Hs.
  - pose proof (is_lead_spec ch ltac:(lia)) as Hl. destruct (U_IS_LEAD ch).
    + pose proof (lowsurogate_spec cnv (set_source args src) ch err (proj1 Hl eq_refl) H16) as H.
      destruct (lowsurogate _ _ _ _) as [[[cnv' args'] err'] [c|]]; exact H.
    + exists ch. split; [done|]. split; [done|]. split; [done|]. right. right. split; [|done]. unfold trail.
      assert (~ lead ch) by (by intros ?%Hl). unfold lead in *. lia.
  - split; [unfold scalar; lia|]. split; [|done]. unfold utf16. by rewrite Z_leb_true by lia.
Qed.

(** The bytes that fit are written, the others go to the overflow buffer. *)
Lemma write_temp_spec off bytes n cnv args err :
  0 <= room args ->
  exists w rest, bytes = w ++ rest /\ zlen w <= room args /\ (rest = [] \/ zlen w = room args) /\
    write_temp off bytes n cnv args err
    = (set_charErrorBuffer cnv (charErrorBuffer cnv ++ rest), write_all off args w n,
       if decide (rest = []) then err else U_BUFFER_OVERFLOW_ERROR).
Proof.
  revert cnv args err. induction bytes as [|b bytes IH]; intros cnv args err Hr; cbn [write_temp].
  { exists [], []. rewrite (app_nil_r (charErrorBuffer cnv)), zlen_nil. split; [done|]. split; [lia|]. split; [by left|]. by destruct cnv. }
  destruct (0 <? room args) eqn:E; bool_prop.
  - destruct (IH cnv (write off args b n) err) as (w & rest & -> & Hw & Hrest & ->); [cbn [write room]; lia|].
    cbn [write room] in *. exists (b :: w), rest. split; [done|]. split; [zlia|]. split; [|done].
    destruct Hrest; [by left|right; zlia].
  - destruct (IH (set_charErrorBuffer cnv (charErrorBuffer cnv ++ [b])) args U_BUFFER_OVERFLOW_ERROR Hr)
      as (w & rest & Hbs & Hw & _ & ->). assert (w = []) as -> by (apply zlen_0_nil; lia). cbn [app] in Hbs. subst bytes.
    exists [], (b :: rest). split; [done|]. split; [rewrite zlen_nil; lia|]. split; [right; rewrite zlen_nil; lia|].
    cbn [set_charErrorBuffer charErrorBuffer]. rewrite <- app_assoc. cbn [app]. f_equal. by case_decide.
Qed.

(** What a call leaves: how the units [us] were read, and what was written. [bad] is
    the surrogate that ends the call, if one does. *)
Record fromU_result (e : Endian) (off : bool) (n : Z) (us : list Z) (cnv : UConverter) (args : UConverterArgs)
    (err : UErrorCode) (cnv' : UConverter) (args' : UConverterArgs) (err' : UErrorCode)
    (cs overflow : list Z) (bad : option Z) : Prop := {
  fromU_read : us = utf16s cs ++ match bad with None => source args' | Some ch => ch :: source args' end;
  fromU_scalars : Forall scalar cs;
  fromU_written : exists u, target args' = target args ++ u /\ u ++ overflow = utf32s e cs /\
    room args' = room args - zlen u /\ 0 <= room args' /\ (overflow = [] \/ room args' = 0) /\
    offsets args' = (if off then (fun o => o ++ take (length u) (byte_offsets n cs)) <$> offsets args else offsets args);
  fromU_flush : flush args' = flush args;
  fromU_cnv : cnv' = set_charErrorBuffer (set_fromUChar32 cnv (default (fromUChar32 cnv) bad)) (charErrorBuffer cnv ++ overflow);
  fromU_case :
    match bad with
    | None => err' = (if decide (overflow = []) then err else U_BUFFER_OVERFLOW_ERROR) /\ (source args' = [] \/ room args' = 0)
    | Some ch => overflow = [] /\ unread (ch :: source args') args' ch (flush args) err err'
    end
}.

Lemma set_same cnv : set_charErrorBuffer (set_fromUChar32 cnv (fromUChar32 cnv)) (charErrorBuffer cnv ++ []) = cnv.
Proof. destruct cnv. unfold set_charErrorBuffer, set_fromUChar32. simpl. by rewrite app_nil_r. Qed.

(** A character in front of what the rest of the loop reads. *)
Lemma fromU_result_cons e off n c src cnv args err cnv' args' err' cs overflow bad :
  scalar c ->
  fromU_result e off (n + zlen (utf16 c)) src cnv (write_all off (set_source args src) (utf32 e c) n) err
    cnv' args' err' cs overflow bad ->
  fromU_result e off n (utf16 c ++ src) cnv args err cnv' args' err' (c :: cs) overflow bad.
Proof.
  intros Hc [Hread Hcs (u & Ht & Hu & Hr & Hr0 & Hov & Ho) Hf Hcnv Hcase].
  rewrite write_all_spec in *. cbn [flush source target room offsets set_source] in *.
  split; [|by constructor| |done|done|done].
  - rewrite Hread at 1. unfold utf16s. cbn [map concat]. by rewrite <- app_assoc.
  - exists (utf32 e c ++ u). split; [by rewrite Ht, <- app_assoc|]. split.
    { unfold utf32s. cbn [map concat]. by rewrite <- app_assoc, Hu. }
    split; [rewrite Hr; zlia|]. split; [done|]. split; [done|]. rewrite Ho. cbn [byte_offsets]. rewrite length_app.
    destruct off; [|done]. destruct (offsets args); [|done]. simpl fmap. f_equal. rewrite <- app_assoc. f_equal.
    by destruct e.
Qed.

(** The bytes of a character do not all fit, or nothing is left to read. *)
Lemma fromU_result_last e off n c w rest src cnv args err :
  scalar c -> utf32 e c = w ++ rest -> zlen w <= room args -> (rest = [] \/ zlen w = room args) ->
  src = [] \/ zlen w = room args ->
  fromU_result e off n (utf16 c ++ src) cnv args err
    (set_charErrorBuffer cnv (charErrorBuffer cnv ++ rest)) (write_all off (set_source args src) w n)
    (if decide (rest = []) then err else U_BUFFER_OVERFLOW_ERROR) [c] rest None.
Proof.
  intros Hc Hw Hl Hrest Hsrc. rewrite write_all_spec. cbn [flush source target room offsets set_source].
  split; [unfold utf16s; cbn [map concat]; by rewrite app_nil_r|by constructor| |done|by destruct cnv|].
  - exists w. cbn [target room offsets]. split; [done|]. split; [unfold utf32s; cbn [map concat]; by rewrite app_nil_r|].
    split; [done|]. split; [lia|]. split; [destruct Hrest; [by left|right; lia]|]. cbn [byte_offsets]. rewrite app_nil_r.
    destruct off; [|done]. destruct (offsets args); [|done]. simpl fmap. do 2 f_equal.
    assert (exists b0 b1 b2 b3, w ++ rest = [b0; b1; b2; b3]) as (b0 & b1 & b2 & b3 & Hb) by (rewrite <- Hw; destruct e; eauto).
    destruct w as [|? [|? [|? [|? [|? ?]]]]]; by simplify_eq/=.
  - cbn [source room]. split; [done|]. destruct Hsrc; [by left|right; lia].
Qed.

Lemma utf16_length c : (1 <= length (utf16 c))%nat.
Proof. unfold utf16. if_cases; simpl; lia. Qed.

Lemma fromU_loop_spec fuel e off n us cnv args err r :
  read_ok us cnv args err r -> Forall is_u16 us -> 0 <= room args -> (length us <= fuel)%nat -> us <> [] ->
  exists cnv' args' err' cs overflow bad,
    fromU_loop fuel e off n r = Some (cnv', args', err') /\
    fromU_result e off n us cnv args err cnv' args' err' cs overflow bad.
Proof.
  revert n us cnv args r. induction fuel as [|fuel IH]; intros n us cnv args r Hok H16 Hr Hf Hne; [destruct us; [done|simpl in Hf; lia]|].
  destruct r as [[[cnv1 args1] err1] [c|]]; cbn [fromU_loop].
  2:{ destruct Hok as (ch & -> & Ha & Hun). exists (set_fromUChar32 cnv ch), args1, err1, [], [], (Some ch). split; [done|].
      pose proof Hun as [-> Hcase]. rewrite Ha. split; [done|constructor| |done|destruct cnv; unfold set_charErrorBuffer, set_fromUChar32; simpl; by rewrite app_nil_r|].
      - exists []. cbn [set_source target room offsets source]. rewrite app_nil_r, zlen_nil, Z.sub_0_r. split; [done|].
        split; [done|]. split; [done|]. split; [done|]. split; [by left|]. apply option_map_nil.
      - split; [done|]. rewrite <- Ha. by split. }
  destruct Hok as (Hsc & -> & -> & Ha & ->). set (src := source args1) in *. clearbody src. rewrite Ha.
  destruct (write_temp_spec off (temp e c) n cnv (set_source args src) err Hr) as (w & rest & Hw & Hl & Hrest & ->).
  assert (0 <= c <= 0x10ffff) as Hc by apply Hsc. rewrite temp_utf32 in Hw by done. cbn [set_source room] in Hl, Hrest.
  assert (source (write_all off (set_source args src) w n) = src) as Hsrc by (by rewrite write_all_spec).
  assert (room (write_all off (set_source args src) w n) = room args - zlen w) as Hroom by (by rewrite write_all_spec).
  unfold no_source. rewrite Hsrc, Hroom. rewrite length_app in Hf. pose proof (utf16_length c).
  apply Forall_app in H16 as [_ H16].
  destruct (negb _ && (0 <? room args - zlen w)) eqn:E; bool_prop.
  - assert (rest = []) as -> by (destruct Hrest; [done|lia]). rewrite app_nil_r in Hw. subst w.
    rewrite decide_True by done. rewrite <- (Z.add_assoc n), supplementary_test by done.
    destruct (IH (n + zlen (utf16 c)) src cnv (write_all off (set_source args src) (utf32 e c) n)
      (read_char (set_charErrorBuffer cnv (charErrorBuffer cnv ++ [])) (write_all off (set_source args src) (utf32 e c) n) err))
      as (cnv' & args' & err' & cs & overflow & bad & Hrun & Hres); auto; [| lia| lia|by destruct src|].
    + replace (set_charErrorBuffer cnv (charErrorBuffer cnv ++ [])) with cnv
        by (destruct cnv; unfold set_charErrorBuffer; simpl; by rewrite app_nil_r).
      rewrite <- Hsrc at 1. apply read_char_spec; rewrite Hsrc; [done|by destruct src].
    + rewrite Hrun. eexists _, _, _, _, _, _. split; [done|]. by apply fromU_result_cons.
  - eexists _, _, _, _, _, _. split; [done|]. apply fromU_result_last; auto.
    destruct src; [by left|right]. simpl in E. destruct E; bool_prop; lia.
Qed.

(** ** Uniqueness: the bytes of scalar values are read in one way *)
Lemma utf32_value e c : 0 <= c < 2 ^ 32 -> partial e 0 0 (utf32 e c) = c /\ Forall is_u8 (utf32 e c).
Proof.
  intros Hc. assert (exists b0 b1 b2 b3, Forall is_u8 [b0; b1; b2; b3] /\ utf32 e c = [b0; b1; b2; b3]) as (b0 & b1 & b2 & b3 & H8 & Hb).
  { assert (forall x, is_u8 (x mod 2 ^ 8)) as Hm by (intros; apply Z.mod_pos_bound; lia).
    assert (is_u8 (c / 2 ^ 24)) as Hd by (split; [apply Z.div_pos; lia|apply Z.div_lt_upper_bound; lia]).
    destruct e; unfold utf32; cbn [rev app]; eexists _, _, _, _; (split; [|done]); repeat constructor; auto; apply Hd || apply Hm. }
  rewrite Hb. split; [|done]. destruct (value_spec e b0 b1 b2 b3 H8) as [Hv Heq]. rewrite <- Hb in Heq |- *.
  set (v := partial e 0 0 (utf32 e c)) in *. clearbody v. clear Hb.
  assert (forall x y, rev x = rev y -> x = y :> list Z) as Hrev by (intros x y H; rewrite <- (rev_involutive x), H; apply rev_involutive).
  assert ([v / 2 ^ 24; v / 2 ^ 16 mod 2 ^ 8; v / 2 ^ 8 mod 2 ^ 8; v mod 2 ^ 8]
          = [c / 2 ^ 24; c / 2 ^ 16 mod 2 ^ 8; c / 2 ^ 8 mod 2 ^ 8; c mod 2 ^ 8]) as [= E1 E2 E3 E4]
    by (destruct e; [exact Heq|apply Hrev; exact Heq]).
  clear Heq Hrev. Z.to_euclidean_division_equations. lia.
Qed.

Lemma utf32_inj e c d : 0 <= c < 2 ^ 32 -> 0 <= d < 2 ^ 32 -> utf32 e c = utf32 e d -> c = d.
Proof. intros Hc Hd H. rewrite <- (proj1 (utf32_value e c Hc)), H. apply (utf32_value e d Hd). Qed.

Lemma utf32_length e c : length (utf32 e c) = 4%nat.
Proof. by destruct e. Qed.

Lemma scalar_u32 c : scalar c -> 0 <= c < 2 ^ 32.
Proof. intros [? _]. lia. Qed.

Lemma utf32s_prefix e cs0 cs rest :
  Forall scalar cs0 -> Forall scalar cs -> utf32s e cs0 = utf32s e cs ++ rest ->
  exists more, cs0 = cs ++ more /\ rest = utf32s e more /\ Forall scalar more.
Proof.
  intros H0 Hcs. revert cs0 H0. induction Hcs as [|c cs Hc Hcs IH]; intros cs0 H0 Heq; [by exists cs0|].
  unfold utf32s in *. cbn [map concat] in Heq. destruct H0 as [|c0 cs0 Hc0 H0]; cbn [map concat] in Heq.
  { apply (f_equal length) in Heq. rewrite !length_app, utf32_length in Heq. done. }
  rewrite <- app_assoc in Heq. apply app_inj_1 in Heq as [Heq1 Heq2]; [|by rewrite !utf32_length].
  apply (utf32_inj e) in Heq1; [|by apply scalar_u32..]. subst c0.
  destruct (IH cs0 H0 Heq2) as (more & -> & Hrest & Hm). by exists more.
Qed.

Lemma zlen_utf16s cs : zlen cs <= zlen (utf16s cs).
Proof.
  induction cs as [|c cs IH]; [done|]. unfold utf16s in *. cbn [map concat]. pose proof (utf16_length c).
  zlens. unfold zlen in *. lia.
Qed.

Lemma utf16s_app xs ys : utf16s (xs ++ ys) = utf16s xs ++ utf16s ys.
Proof. unfold utf16s. by rewrite map_app, concat_app. Qed.

(** All of the bytes of scalar values, when there is room for them. *)
Lemma toUnicode_all e off cnv args cs err :
  pending e cnv [] -> zlen (toUBytes cnv) = 7 -> Forall scalar cs -> source args = utf32s e cs ->
  zlen (utf16s cs) <= room args ->
  exists cnv' args', toUnicode_UTF32 e off cnv args err = Some (cnv', args', err) /\
    target args' = target args ++ utf16s cs /\ source args' = [] /\ flush args' = flush args /\
    offsets args' = (if off then (fun o => o ++ unit_offsets 0 cs) <$> offsets args else offsets args) /\
    pending e cnv' [] /\ same_fields cnv cnv' /\ UCharErrorBuffer cnv' = UCharErrorBuffer cnv.
Proof.
  intros Hp Hl Hcs Hsrc Hroom.
  destruct (toUnicode_UTF32_spec e off cnv args [] err Hp Hl) as (cnv' & args' & err' & cs' & bad & p' & ov & Hrun & Hres).
  { rewrite Hsrc. unfold utf32s. apply Forall_concat, Forall_map. eapply Forall_impl; [exact Hcs|].
    intros c Hc%scalar_u32. by apply utf32_value. }
  { pose proof (zlen_nonneg (utf16s cs)). lia. }
  destruct Hres as [Hread Hcs' (u & Ht & Hu & Hr & Hr0 & Ho) Hf Hsame Hcase]. cbn [app] in Hread. rewrite Hsrc in Hread.
  destruct (utf32s_prefix e cs cs' _ Hcs Hcs' Hread) as (more & -> & Hrest & Hmore).
  rewrite utf16s_app, <- Hu in Hroom. pose proof (zlen_utf16s more).
  assert (more = [] \/ 1 <= zlen more) as Hm by (destruct more; [by left|right; zlia]).
  assert (forall v tl, 0 <= v < 2 ^ 32 -> ~ scalar v -> utf32 e v ++ tl <> utf32s e more) as Hill.
  { intros v tl Hv Hs Heq. destruct Hmore as [|c more Hc _]; [by apply (f_equal length) in Heq; rewrite length_app, utf32_length in Heq|].
    unfold utf32s in Heq. cbn [map concat] in Heq. apply app_inj_1 in Heq as [Heq _]; [|by rewrite !utf32_length].
    apply Hs. by rewrite (utf32_inj e v c Hv (scalar_u32 _ Hc) Heq). }
  destruct Hcase as [(-> & -> & -> & Hp' & Hbuf & Hend)|[(_ & -> & -> & Hz & _ & Hr' & _)|(_ & _ & _ & (v & Hv & Hs & ->) & _)]].
  - assert (more = [] /\ p' = [] /\ source args' = []) as (-> & -> & Hs').
    { assert (more = []) as ->.
      { destruct Hm as [?|Hm]; [done|]. destruct Hend as [Hs'|Hr']; [|zlia]. cbn [app] in Hrest. rewrite Hs', app_nil_r in Hrest.
        assert (zlen p' < 4) as Hp4 by (destruct Hp' as [[-> _]|[? _]]; [done|lia]). destruct more as [|c more]; [zlia|].
        rewrite Hrest in Hp4. unfold utf32s, zlen in Hp4. cbn [map concat] in Hp4. rewrite length_app, utf32_length in Hp4. lia. }
      cbn [app] in Hrest. by apply app_eq_nil in Hrest as [-> ->]. }
    rewrite app_nil_r in *. exists cnv', args'. rewrite Hrun. unfold no_source. rewrite Hs'. cbn [negb andb].
    split; [done|]. split; [by rewrite Ht, <- Hu|]. split; [done|]. split; [done|]. split; [|done]. rewrite Ho.
    destruct off; [|done]. destruct (offsets args); [|done]. simpl. do 2 f_equal. apply take_ge.
    rewrite Hu. clear. generalize 0. induction cs' as [|c cs IH]; intros k; [done|]. unfold utf16s. cbn [map concat unit_offsets].
    rewrite !length_app, length_map. specialize (IH (k + 4)). unfold utf16s in IH. lia.
  - exfalso. zlia.
  - exfalso. by eapply (Hill v (p' ++ source args')).
Qed.

(** A call of the conversion from Unicode that does not start with the mark. *)
Lemma fromUnicode_UTF32_spec e off cnv args p err :
  fromUnicodeStatus cnv = 0 -> (fromUChar32 cnv = 0 /\ p = []) \/ (lead (fromUChar32 cnv) /\ p = [fromUChar32 cnv]) ->
  source args <> [] -> Forall is_u16 (source args) -> 0 <= room args ->
  exists cnv' args' err' cs overflow bad,
    fromUnicode_UTF32 e off cnv args err
    = Some (cnv', args',
            if negb (no_source args') && (room args' <=? 0) && U_SUCCESS err' then U_BUFFER_OVERFLOW_ERROR else err') /\
    fromU_result e off 0 (p ++ source args) (set_fromUChar32 cnv 0) args err cnv' args' err' cs overflow bad.
Proof.
  intros Hst Hp Hne H16 Hr. unfold fromUnicode_UTF32. rewrite Hst.
  assert (no_source args = false) as Hns by (unfold no_source; by destruct (source args)).
  rewrite Hns. change (0 =? UCNV_NEED_TO_WRITE_BOM) with false. cbv iota beta. rewrite Hns. cbn [negb andb].
  destruct Hp as [[Hp ->]|[Hp ->]].
  - assert (set_fromUChar32 cnv 0 = cnv) as -> by (destruct cnv; simpl in *; by subst). rewrite Hp. cbn [Z.eqb negb].
    destruct (0 <? room args) eqn:E; bool_prop.
    + destruct (fromU_loop_spec (S (length (source args))) e off 0 (source args) cnv args err (read_char cnv args err))
        as (cnv' & args' & err' & cs & ov & bad & Hrun & Hres); auto; [by apply read_char_spec|].
      rewrite Hrun. mstep. eexists _, _, _, _, _, _. split; [done|exact Hres].
    + mstep. exists cnv, args, err, [], [], None. split; [done|]. split; [done|constructor| |done|by rewrite set_same|].
      * exists []. rewrite app_nil_r, zlen_nil, Z.sub_0_r. split; [done|]. split; [done|]. split; [done|]. split; [done|].
        split; [by left|]. apply option_map_nil.
      * split; [done|]. right. lia.
  - destruct (fromUChar32 cnv =? 0) eqn:E; bool_prop; [unfold lead in Hp; lia|]. cbn [negb].
    destruct (fromU_loop_spec (S (length (source args))) e off 0 (fromUChar32 cnv :: source args) (set_fromUChar32 cnv 0) args err
      (lowsurogate (set_fromUChar32 cnv 0) args (fromUChar32 cnv) err)) as (cnv' & args' & err' & cs & ov & bad & Hrun & Hres); auto.
    + by apply lowsurogate_spec.
    + constructor; [|done]. unfold lead, is_u16 in *. lia.
    + rewrite Hrun. mstep. eexists _, _, _, _, _, _. split; [done|exact Hres].
Qed.

(** The first unit of a scalar value tells how many there are. *)
Lemma utf16_inj c d xs ys : scalar c -> scalar d -> utf16 c ++ xs = utf16 d ++ ys -> c = d /\ xs = ys.
Proof.
  intros [Hc Hc'] [Hd Hd']. unfold utf16. destruct (c <=? 0xffff) eqn:Ec, (d <=? 0xffff) eqn:Ed; bool_prop; cbn [app].
  - intros [= -> ->]. done.
  - intros [= -> _]. exfalso. Z.to_euclidean_division_equations; lia.
  - intros [= <- _]. exfalso. Z.to_euclidean_division_equations; lia.
  - intros [= E1 E2 ->]. split; [|done]. Z.to_euclidean_division_equations; lia.
Qed.

Lemma utf16s_prefix cs0 cs rest :
  Forall scalar cs0 -> Forall scalar cs -> utf16s cs0 = utf16s cs ++ rest ->
  exists more, cs0 = cs ++ more /\ rest = utf16s more /\ Forall scalar more.
Proof.
  intros H0 Hcs. revert cs0 H0. induction Hcs as [|c cs Hc Hcs IH]; intros cs0 H0 Heq; [by exists cs0|].
  unfold utf16s in *. cbn [map concat] in Heq. destruct H0 as [|c0 cs0 Hc0 H0]; cbn [map concat] in Heq.
  { apply (f_equal length) in Heq. rewrite !length_app in Heq. pose proof (utf16_length c). simpl in Heq. lia. }
  rewrite <- app_assoc in Heq. apply utf16_inj in Heq as [-> Heq2]; [|done..].
  destruct (IH cs0 H0 Heq2) as (more & -> & Hrest & Hm). by exists more.
Qed.

(** Well-formed units do not stop the conversion. *)
Lemma unread_utf16s cs args ch fl err err' : Forall scalar cs -> ~ unread (utf16s cs) args ch fl err err'.
Proof.
  intros [|c cs' [Hc Hc'] _] [Heq Hcase]; [done|]. unfold utf16s, utf16 in Heq. cbn [map concat] in Heq.
  destruct (c <=? 0xffff) eqn:E; bool_prop; cbn [app] in Heq; injection Heq as Hch Hsrc.
  - unfold lead, trail in Hcase. destruct Hcase as [(? & _)|[(? & _)|(? & _)]]; lia.
  - destruct Hcase as [(_ & Hn & _)|[(_ & (x & rest & Hx & Ht) & _)|(Ht & _)]].
    + by rewrite Hn in Hsrc.
    + rewrite Hx in Hsrc. injection Hsrc as Hx' _. apply Ht. unfold trail. Z.to_euclidean_division_equations; lia.
    + unfold trail in Ht. Z.to_euclidean_division_equations; lia.
Qed.

Lemma utf16s_u16 cs : Forall scalar cs -> Forall is_u16 (utf16s cs).
Proof.
  intros Hcs. unfold utf16s. apply Forall_concat, Forall_map. eapply Forall_impl; [exact Hcs|].
  intros c [Hc _]. unfold utf16, is_u16. cbn beta. if_cases; bool_prop; repeat constructor; Z.to_euclidean_division_equations; lia.
Qed.

Lemma zlen_utf32s e cs : zlen (utf32s e cs) = 4 * zlen cs.
Proof.
  induction cs as [|c cs IH]; [done|]. unfold utf32s in *. cbn [map concat]. zlens.
  assert (zlen (utf32 e c) = 4) by (by destruct e). lia.
Qed.

(** All of the units of scalar values, when there is room for their bytes. *)
Lemma fromUnicode_all e off cnv args cs err :
  fromUnicodeStatus cnv = 0 -> fromUChar32 cnv = 0 -> Forall scalar cs -> cs <> [] -> source args = utf16s cs ->
  4 * zlen cs <= room args ->
  exists args', fromUnicode_UTF32 e off cnv args err = Some (cnv, args', err) /\
    target args' = target args ++ utf32s e cs /\ source args' = [] /\
    offsets args' = (if off then (fun o => o ++ byte_offsets 0 cs) <$> offsets args else offsets args).
Proof.
  intros Hst Hf0 Hcs Hne Hsrc Hroom. pose proof (zlen_nonneg cs) as Hnn.
  destruct (fromUnicode_UTF32_spec e off cnv args [] err) as (cnv' & args' & err' & cs' & ov & bad & Hrun & Hres); auto; [| |lia|].
  { rewrite Hsrc. intros Hn. apply (f_equal zlen) in Hn. pose proof (zlen_utf16s cs). destruct cs; [done|]. zlens. zlia. }
  { rewrite Hsrc. by apply utf16s_u16. }
  destruct Hres as [Hread Hcs' (u & Ht & Hu & Hr & Hr0 & Hov & Ho) Hf Hcnv Hcase]. cbn [app] in Hread. rewrite Hsrc in Hread.
  destruct (utf16s_prefix cs cs' _ Hcs Hcs' Hread) as (more & -> & Hrest & Hmore).
  destruct bad as [ch|].
  { exfalso. destruct Hcase as [_ Hun]. rewrite Hrest in Hun. by eapply unread_utf16s. }
  pose proof (zlen_utf32s e cs') as Hz. rewrite <- Hu in Hz.
  assert (ov = []) as ->. { destruct Hov as [|Hov]; [done|]. apply zlen_0_nil. zlia. }
  assert (more = []) as ->.
  { destruct Hcase as [_ [Hs|Hr']]; [rewrite Hs in Hrest|].
    - destruct more as [|c more]; [done|]. apply (f_equal zlen) in Hrest. pose proof (zlen_utf16s (c :: more)).
      rewrite <- Hrest in H. zlens. zlia.
    - apply zlen_0_nil. zlia. }
  rewrite app_nil_r in *. change (utf16s []) with (@nil Z) in Hrest. exists args'. rewrite Hrun. unfold no_source. rewrite Hrest.
  destruct Hcase as [-> _]. rewrite decide_True by done. cbn [negb andb].
  assert (set_fromUChar32 cnv 0 = cnv) as Hc by (destruct cnv; simpl in *; by subst). rewrite Hc in Hcnv. cbn [default] in Hcnv.
  assert (cnv' = cnv) as -> by (by rewrite Hcnv; destruct cnv). split; [done|]. split; [by rewrite Ht, <- Hu|]. split; [done|]. rewrite Ho.
  destruct off; [|done]. destruct (offsets args); [|done]. simpl. do 2 f_equal. apply take_ge.
  rewrite Hu. clear. generalize 0. induction cs' as [|c cs IH]; intros k; [done|]. unfold utf32s. cbn [map concat byte_offsets].
  rewrite !length_app, utf32_length. simpl length. specialize (IH (k + zlen (utf16 c))). unfold utf32s in IH. lia.
Qed.
