(* ===== verification/UcnvU32Props.v ===== *)
(** * UcnvU32Props: the UTF-32 converters are correct *)
From S2P Require Import Prelude Utf8 Ucnv UcnvU32 UcnvU32Facts.
Local Open Scope Z_scope.

(** ** The byte order mark *)
Definition mode_of (e : Endian) : Z := match e with BE => 8 | LE => 9 end.

(** Without source, a call changes nothing. *)
Lemma toUnicode_idle e off cnv args p err :
  pending e cnv p -> zlen (toUBytes cnv) = 7 -> source args = [] -> toUnicode_UTF32 e off cnv args err = Some (cnv, args, err).
Proof.
  intros Hp Hl Hs. unfold toUnicode_UTF32, no_source. rewrite Hs. cbn [negb andb length].
  destruct (negb (toUnicodeStatus cnv =? 0) && (0 <? room args)) eqn:E; bool_prop; [|mstep; by rewrite Hs].
  destruct Hp as [[_ ?]|(Hp & Hp8 & Hst & Hlen & Ht)]; [lia|].
  pose proof (partial_bound e p Hp8 ltac:(lia)). assert (2 ^ (zlen p * 8) <= 2 ^ 24) by (apply Z.pow_le_mono_r; lia).
  cbn [toU_loop]. rewrite Hs. cbn [morebytes]. rewrite Hlen, (Z_ltb_true (zlen p) 4) by lia.
  cbv zeta iota beta. rewrite (Z_ltb_true (zlen p) 4) by lia. mstep.
  assert (set_source args [] = args) as -> by (destruct args; simpl in *; by subst).
  cbn [negb andb]. rewrite ?Hs.
  rewrite (u32_small (toUnicodeStatus cnv - 1)), u32_small by lia. do 3 f_equal. rewrite <- Hlen.
  destruct cnv. unfold set_toU. simpl. f_equal. lia.
Qed.

(** After a call, the source is used up or the error code says why it is not. *)
Lemma toUnicode_stops e off cnv args p err :
  pending e cnv p -> zlen (toUBytes cnv) = 7 -> Forall is_u8 (source args) -> 0 <= room args ->
  exists cnv' args' err' p', toUnicode_UTF32 e off cnv args err = Some (cnv', args', err') /\
    (source args' = [] \/ U_SUCCESS err' = false) /\ pending e cnv' p' /\ zlen (toUBytes cnv') = 7 /\ flush args' = flush args.
Proof.
  intros Hp Hl H8 Hr.
  destruct (toUnicode_UTF32_spec e off cnv args p err Hp Hl H8 Hr) as (cnv' & args' & err' & cs & bad & p' & ov & Hrun & Hres).
  destruct Hres as [_ _ (u & _ & _ & _ & Hr0 & _) Hf (Hl' & _) Hcase]. rewrite Hrun.
  eexists cnv', args', _, (match bad with [] => p' | _ => [] end). split; [done|].
  destruct Hcase as [(-> & -> & _ & Hp' & _ & Hend)|[(-> & -> & -> & _ & _ & Hr' & Hst)|(-> & _ & -> & _ & _ & _ & Hst & _)]].
  - split; [|done]. destruct Hend as [Hs|Hr']; [by left|]. unfold no_source. destruct (source args'); [by left|right].
    rewrite Z_leb_true by lia. cbn [negb andb]. by destruct (U_SUCCESS err) eqn:Es.
  - split; [right; by rewrite andb_false_r|]. split; [by left|done].
  - split; [right; by rewrite andb_false_r|]. split; [|done]. by destruct bad; left.
Qed.

Lemma detect_convert fuel off e delta src cnv args err cnv' args' err' :
  U_SUCCESS err = true -> src <> [] -> toUnicode_UTF32 e off cnv (set_source args src) err = Some (cnv', args', err') ->
  source args' = [] \/ U_SUCCESS err' = false ->
  detect_loop (S fuel) off (mode_of e) delta src cnv args err
  = Some (mode_of e, delta, source args', cnv', args', err').
Proof.
  intros Herr Hne Hrun Hend. destruct src as [|b src]; [done|]. cbn [detect_loop]. rewrite Herr.
  destruct e; cbn [mode_of Z.eqb Pos.eqb]; rewrite Hrun; mstep.
  all: destruct Hend as [-> | Hend]; [by destruct fuel|]. all: by destruct (source args') eqn:Es, fuel; cbn [detect_loop]; rewrite ?Hend.
Qed.

(** The end of [_UTF32ToUnicodeWithOffsets], once the byte order is known. *)
Lemma finish_convert off e cnv args p err :
  pending e cnv p -> zlen (toUBytes cnv) = 7 ->
  (if no_source args && flush args then
     if mode_of e =? 0 then Some (mode_of e, cnv, args, err)
     else if mode_of e =? 8 then
       '(cnv, args, err) ← T_UConverter_toUnicode_UTF32_BE cnv args err; Some (mode_of e, cnv, args, err)
     else if mode_of e =? 9 then
       '(cnv, args, err) ← T_UConverter_toUnicode_UTF32_LE cnv args err; Some (mode_of e, cnv, args, err)
     else
       '(cnv, args', err) ← T_UConverter_toUnicode_UTF32_BE cnv (set_source args (replay_bytes (mode_of e) 0)) err;
       Some (8, cnv, set_source args' off, err)
   else Some (mode_of e, cnv, args, err)) = Some (mode_of e, cnv, args, err).
Proof.
  intros Hp Hl. destruct (no_source args && flush args) eqn:E; [|done]. bool_prop. unfold no_source in *.
  assert (source args = []) as Hs by (by destruct (source args)).
  destruct e; cbn [mode_of Z.eqb Pos.eqb].
  - unfold T_UConverter_toUnicode_UTF32_BE. by rewrite (toUnicode_idle BE false cnv args p err).
  - unfold T_UConverter_toUnicode_UTF32_LE. by rewrite (toUnicode_idle LE false cnv args p err).
Qed.

Definition has_offsets (args : UConverterArgs) : bool := match offsets args with None => false | Some _ => true end.

(** The detection has reached the byte order [e] and the bytes [src] of this buffer. *)
Lemma detected e cnv args src delta err fuel :
  (forall off, detect_loop (length (source args) + 3) off (mode cnv) 0 (source args) cnv args err
               = detect_loop (S fuel) off (mode_of e) delta src cnv args err) ->
  pending e cnv [] -> zlen (toUBytes cnv) = 7 -> Forall is_u8 src -> 0 <= room args -> U_SUCCESS err = true ->
  exists cnv' args' err',
    toUnicode_UTF32 e (has_offsets args) cnv (set_source args src) err = Some (cnv', args', err') /\
    _UTF32ToUnicodeWithOffsets cnv args err
    = Some (set_mode cnv' (mode_of e),
            if delta =? 0 then args' else shift_offsets (length (default [] (offsets args))) delta args', err').
Proof.
  intros Hdet Hp Hl H8 Hr Herr.
  destruct (toUnicode_stops e (has_offsets args) cnv (set_source args src) [] err Hp Hl H8 Hr)
    as (cnv' & args' & err' & p' & Hrun & Hend & Hp' & Hl' & Hf).
  exists cnv', args', err'. split; [done|]. unfold _UTF32ToUnicodeWithOffsets. fold (has_offsets args). rewrite Hdet.
  assert (exists args1, detect_loop (S fuel) (has_offsets args) (mode_of e) delta src cnv args err
    = Some (mode_of e, delta, source args', cnv', args1, err') /\ set_source args1 (source args') = args') as (args1 & -> & Ha).
  { destruct src as [|b src].
    - rewrite (toUnicode_idle e _ cnv _ [] err) in Hrun by done. injection Hrun as <- <- <-. exists args. by destruct fuel.
    - exists args'. split; [|by destruct args']. by apply detect_convert. }
  mstep. assert (forall a, set_source (if delta =? 0 then args1 else shift_offsets a delta args1) (source args')
    = if delta =? 0 then args' else shift_offsets a delta args') as ->.
  { intros a. rewrite <- Ha. by destruct (delta =? 0). }
  set (a := if delta =? 0 then _ else _). rewrite (finish_convert _ e cnv' a p') by done. done.
Qed.

(** The byte order of a text and the length of its mark. *)
Definition byte_order (bs : list Z) : Endian * Z :=
  if decide (take 4 bs = bom BE) then (BE, 4) else if decide (take 4 bs = bom LE) then (LE, 4) else (BE, 0).

Section detect.
Context (off : bool) (cnv : UConverter) (args : UConverterArgs) (err : UErrorCode) (Herr : U_SUCCESS err = true).

(** The start state. *)
Lemma detect_first f b r :
  detect_loop (S f) off 0 0 (b :: r) cnv args err
  = if b =? 0 then detect_loop f off 1 0 r cnv args err
    else if b =? 0xff then detect_loop f off 5 0 r cnv args err
    else detect_loop f off 8 0 (b :: r) cnv args err.
Proof using Herr. cbn [detect_loop]. by rewrite Herr. Qed.

(** The states in which [k] bytes of a mark have been seen, all of them in this buffer. *)
Lemma detect_next f st x b r :
  st <> 0 -> st <> 8 -> st <> 9 -> utf32BOM.[st] = Some x -> zlen (source args) - zlen (b :: r) = Z.land st 3 ->
  detect_loop (S f) off st 0 (b :: r) cnv args err
  = if b =? x then
      if st =? 3 then detect_loop f off 8 (Z.land st 3 + 1) r cnv args err
      else if st =? 7 then detect_loop f off 9 (Z.land st 3 + 1) r cnv args err
      else detect_loop f off (st + 1) 0 r cnv args err
    else detect_loop f off 8 0 (source args) cnv args err.
Proof using Herr.
  intros H0 H8 H9 Hx Hcount. cbn [detect_loop]. rewrite Herr.
  rewrite (proj2 (Z.eqb_neq st 0)), (proj2 (Z.eqb_neq st 8)), (proj2 (Z.eqb_neq st 9)) by done. rewrite Hx. mstep.
  replace (zlen (source args) - zlen r) with (Z.land st 3 + 1) by (rewrite <- Hcount; zlia). rewrite Hcount, Z.eqb_refl.
  destruct (b =? x); [|done]. replace (st + 1 =? 4) with (st =? 3) by (destruct (st =? 3) eqn:E; bool_prop; symmetry; [apply Z.eqb_eq|apply Z.eqb_neq]; lia).
  by replace (st + 1 =? 8) with (st =? 7) by (destruct (st =? 7) eqn:E; bool_prop; symmetry; [apply Z.eqb_eq|apply Z.eqb_neq]; lia).
Qed.
End detect.

Lemma detect_start b0 b1 b2 b3 rest cnv args err :
  mode cnv = 0 -> source args = b0 :: b1 :: b2 :: b3 :: rest -> U_SUCCESS err = true ->
  exists fuel, forall off, detect_loop (length (source args) + 3) off (mode cnv) 0 (source args) cnv args err
    = detect_loop (S fuel) off (mode_of (byte_order (source args)).1) (byte_order (source args)).2
        (drop (Z.to_nat (byte_order (source args)).2) (source args)) cnv args err.
Proof.
  intros Hmode Hs Herr. rewrite Hmode. assert (zlen (source args) = 4 + zlen rest) as Hz by (rewrite Hs; zlia).
  assert (length (source args) + 3 = S (S (S (S (S (S (length rest + 1)))))))%nat as -> by (rewrite Hs; simpl; lia).
  assert (forall off f st k x b r, st <> 0 -> st <> 8 -> st <> 9 -> utf32BOM.[st] = Some x -> Z.land st 3 = k ->
    zlen r = 3 + zlen rest - k -> _) as Hnext by (intros off f st k x b r H0 H8 H9 Hx Hk Hr;
      exact (detect_next off cnv args err Herr f st x b r H0 H8 H9 Hx ltac:(zlia))).
  rewrite Hs. assert (byte_order (b0 :: b1 :: b2 :: b3 :: rest) =
    if (b0 =? 0) && (b1 =? 0) && (b2 =? 0xfe) && (b3 =? 0xff) then (BE, 4)
    else if (b0 =? 0xff) && (b1 =? 0xfe) && (b2 =? 0) && (b3 =? 0) then (LE, 4) else (BE, 0)) as ->.
  { unfold byte_order. cbn [take bom]. repeat case_decide; simplify_eq; try done;
      repeat (if_cases; bool_prop); subst; done. }
  destruct (b0 =? 0) eqn:E0; [|destruct (b0 =? 0xff) eqn:E0']; cbn [andb].
  - replace (b0 =? 0xff) with false by (bool_prop; subst; done). cbn [andb].
    destruct (b1 =? 0) eqn:E1, (b2 =? 0xfe) eqn:E2, (b3 =? 0xff) eqn:E3; cbn [andb fst snd mode_of];
      eexists; intros off; rewrite (detect_first _ _ _ _ Herr), E0;
      rewrite (Hnext off _ 1 1 0 b1), E1 by (done || zlia); try (rewrite Hs; done);
      rewrite (Hnext off _ 2 2 0xfe b2), E2 by (done || zlia); try (rewrite Hs; done);
      rewrite (Hnext off _ 3 3 0xff b3), E3 by (done || zlia); try (rewrite Hs; done); done.
  - destruct (b1 =? 0xfe) eqn:E1, (b2 =? 0) eqn:E2, (b3 =? 0) eqn:E3; cbn [andb fst snd mode_of];
      eexists; intros off; rewrite (detect_first _ _ _ _ Herr), E0, E0';
      rewrite (Hnext off _ 5 1 0xfe b1), E1 by (done || zlia); try (rewrite Hs; done);
      rewrite (Hnext off _ 6 2 0 b2), E2 by (done || zlia); try (rewrite Hs; done);
      rewrite (Hnext off _ 7 3 0 b3), E3 by (done || zlia); try (rewrite Hs; done); done.
  - eexists. intros off. by rewrite (detect_first _ _ _ _ Herr), E0, E0'.
Qed.

(** ** The claims *)

(** C3: A call of a UTF-32 to Unicode function on any bytes, with any room and any
    bytes of an incomplete character kept from before, ends and accounts for every byte:
    the kept bytes and the source are the encodings of scalar values, whose UTF-16
    form has been written to the target (or, for a second surrogate without room, to
    the overflow buffer), then at most one character that is not a
    scalar value, which is reported with its bytes, then the bytes of
    an incomplete character, which are kept, then the rest of the source; and there is a
    rest only when an error was reported. *)
Theorem toUnicode_UTF32_correct (e : Endian) (off : bool) (cnv : UConverter) (args : UConverterArgs) (p : list Z)
    (err : UErrorCode) :
  pending e cnv p -> zlen (toUBytes cnv) = 7 -> Forall is_u8 (source args) -> 0 <= room args -> U_SUCCESS err = true ->
  exists cnv' args' err' cs bad p' overflow,
    toUnicode_UTF32 e off cnv args err
    = Some (cnv', args',
            if negb (no_source args') && (room args' <=? 0) && U_SUCCESS err' then U_BUFFER_OVERFLOW_ERROR else err') /\
    toU_result e off 0 (p ++ source args) cnv args err cnv' args' err' cs bad p' overflow.
Proof. intros Hp Hl H8 Hr _. by apply toUnicode_UTF32_spec. Qed.

(** C29: A call of a Unicode to UTF-32 function, with any room and a lead surrogate kept
    from before or none, ends and accounts for every unit: the kept surrogate and the
    source are the UTF-16 form of scalar values, whose bytes have been
    written to the target and the overflow buffer, then at most one surrogate that is
    unmatched (an error) or at the end of the source (kept), then the rest of the source. *)
Theorem fromUnicode_UTF32_correct (e : Endian) (off : bool) (cnv : UConverter) (args : UConverterArgs) (p : list Z)
    (err : UErrorCode) :
  fromUnicodeStatus cnv = 0 -> (fromUChar32 cnv = 0 /\ p = []) \/ (lead (fromUChar32 cnv) /\ p = [fromUChar32 cnv]) ->
  source args <> [] -> Forall is_u16 (source args) -> 0 <= room args -> U_SUCCESS err = true ->
  exists cnv' args' err' cs overflow bad,
    fromUnicode_UTF32 e off cnv args err
    = Some (cnv', args',
            if negb (no_source args') && (room args' <=? 0) && U_SUCCESS err' then U_BUFFER_OVERFLOW_ERROR else err') /\
    fromU_result e off 0 (p ++ source args) (set_fromUChar32 cnv 0) args err cnv' args' err' cs overflow bad.
Proof. intros Hst Hp Hne H16 Hr _. by apply fromUnicode_UTF32_spec. Qed.


(** A converter that has just been made. *)
Definition fresh : UConverter := mkConverter 0 (replicate 7 0) 0 0 0 0 [] [].

(** C30: Text that is converted to UTF-32 by a newly opened converter starts with a byte
    order mark, and converting the result back with the same converter gives the text. *)
Theorem UTF32_roundtrip (cs : list Z) (room1 room2 : Z) (fl : bool) :
  Forall scalar cs -> cs <> [] -> 4 + 4 * zlen cs <= room1 -> zlen (utf16s cs) <= room2 ->
  exists cnv1 args1 cnv2 args2,
    _UTF32FromUnicode (_UTF32Open fresh) (mkArgs fl (utf16s cs) [] room1 None) U_ZERO_ERROR
    = Some (cnv1, args1, U_ZERO_ERROR) /\ target args1 = bom LE ++ utf32s LE cs /\ source args1 = [] /\
    _UTF32ToUnicodeWithOffsets cnv1 (mkArgs fl (target args1) [] room2 None) U_ZERO_ERROR
    = Some (cnv2, args2, U_ZERO_ERROR) /\ target args2 = utf16s cs /\ source args2 = [].
Proof.
  intros Hcs Hne Hr1 Hr2. pose proof (zlen_nonneg cs). pose proof (zlen_nonneg (utf16s cs)).
  destruct (fromUnicode_all LE false fresh (mkArgs fl (utf16s cs) (bom LE) (room1 - 1 - 1 - 1 - 1) None) cs U_ZERO_ERROR)
    as (args1 & Hrun1 & Ht1 & Hs1 & _); auto; [cbn [room]; lia|]. cbn [target] in Ht1.
  assert (_UTF32FromUnicode (_UTF32Open fresh) (mkArgs fl (utf16s cs) [] room1 None) U_ZERO_ERROR
          = Some (fresh, args1, U_ZERO_ERROR)) as Hrun.
  { rewrite <- Hrun1. unfold _UTF32FromUnicode, T_UConverter_fromUnicode_UTF32_LE, fromUnicode_UTF32, no_source. cbn [source].
    destruct (utf16s cs) eqn:E; [exfalso; pose proof (zlen_utf16s cs) as Hz; rewrite E in Hz; destruct cs; [done|zlia]|].
    cbn [_UTF32Open _UTF32Reset set_fromUnicodeStatus fromUnicodeStatus].
    unfold ucnv_fromUWriteBytes. cbn [bom write_units room].
    rewrite (Z_ltb_true 0 room1) by lia. cbn [write room target]. rewrite (Z_ltb_true 0 (room1 - 1)) by lia.
    cbn [write room target]. rewrite (Z_ltb_true 0 (room1 - 1 - 1)) by lia.
    cbn [write room target]. by rewrite (Z_ltb_true 0 (room1 - 1 - 1 - 1)) by lia. }
  exists fresh, args1. rewrite Hrun, Ht1.
  destruct (toUnicode_all LE false fresh (mkArgs fl (utf32s LE cs) [] room2 None) cs U_ZERO_ERROR)
    as (cnv2 & args2 & Hrun2 & Ht2 & Hs2 & _ & _ & _); auto; [by left|].
  destruct (detect_start 0xff 0xfe 0 0 (utf32s LE cs) fresh (mkArgs fl (bom LE ++ utf32s LE cs) [] room2 None) U_ZERO_ERROR)
    as [fuel Hdet]; [done..|].
  destruct (detected LE fresh (mkArgs fl (bom LE ++ utf32s LE cs) [] room2 None) (utf32s LE cs) 4 U_ZERO_ERROR fuel)
    as (cnv3 & args3 & err3 & Hrun3 & Hutf); auto; [by left| |cbn [room]; lia|].
  { unfold utf32s. apply Forall_concat, Forall_map. eapply Forall_impl; [exact Hcs|]. intros c Hc%scalar_u32. by apply utf32_value. }
  unfold set_source in Hrun3. cbn [flush target room offsets has_offsets] in Hrun3. rewrite Hrun2 in Hrun3.
  injection Hrun3 as <- <- <-. eexists _, _. split; [done|]. split; [done|]. split; [done|]. split; [exact Hutf|].
  cbn [Z.eqb shift_offsets target source]. by rewrite Ht2.
Qed.

(** ** Where the code differs from its documentation *)

(** One call of the UTF-32 converter: the converter, what was written, the rest of the
    source and the error code. *)
Definition feed (cnv : UConverter) (src : list Z) (room : Z) : option (UConverter * list Z * list Z * UErrorCode) :=
  '(cnv, args, err) ← _UTF32ToUnicodeWithOffsets cnv (mkArgs false src [] room None) U_ZERO_ERROR;
  Some (cnv, target args, source args, err).

(** The UTF-32 converter loses input when a buffer ends inside what might be a byte
    order mark and the next call has no room in its target: of the text 00 00 00 41, given
    as one byte and then three, the bytes are reported as not consumed after the call
    without room, but giving them again produces no output, while the text in one
    buffer gives the letter A. *)
Theorem UTF32_replay_loses_bytes :
  (exists cnv1 cnv2 cnv3,
    feed (_UTF32Open fresh) [0] 10 = Some (cnv1, [], [], U_ZERO_ERROR) /\
    feed cnv1 [0; 0; 0x41] 0 = Some (cnv2, [], [0; 0; 0x41], U_BUFFER_OVERFLOW_ERROR) /\
    feed cnv2 [0; 0; 0x41] 10 = Some (cnv3, [], [], U_ZERO_ERROR)) /\
  (exists cnv4, feed (_UTF32Open fresh) [0; 0; 0; 0x41] 10 = Some (cnv4, [0x41], [], U_ZERO_ERROR)).
Proof.
  split; [|exists (mkConverter 0 [0; 0; 0; 0x41; 0; 0; 0] 0 8 1 0 [] []); vm_compute; reflexivity].
  exists (mkConverter 0 (replicate 7 0) 0 1 1 0 [] []), (mkConverter 0 (replicate 7 0) 0 8 1 0 [] []),
    (mkConverter 3 [0; 0; 0x41; 0; 0; 0; 0] 0x42 8 1 0 [] []). split; [|split]; vm_compute; reflexivity.
Qed.

(** After a call that ended inside a character, the offsets of the next call are too
    large: the second unit comes from source index 2 (and 1 in the other direction), but
    its offset is 4 (and 2). *)
Theorem UTF32_offsets_after_partial :
  (exists cnv1 args1 cnv2 args2,
    T_UConverter_toUnicode_UTF32_BE_OFFSET_LOGIC fresh (mkArgs false [0; 0] [] 10 (Some [])) U_ZERO_ERROR
    = Some (cnv1, args1, U_ZERO_ERROR) /\
    T_UConverter_toUnicode_UTF32_BE_OFFSET_LOGIC cnv1 (mkArgs false [0; 0x41; 0; 0; 0; 0x42] [] 10 (Some [])) U_ZERO_ERROR
    = Some (cnv2, args2, U_ZERO_ERROR) /\ target args2 = [0x41; 0x42] /\ offsets args2 = Some [0; 4]) /\
  (exists cnv1 args1 cnv2 args2,
    T_UConverter_fromUnicode_UTF32_BE_OFFSET_LOGIC fresh (mkArgs false [0xd800] [] 10 (Some [])) U_ZERO_ERROR
    = Some (cnv1, args1, U_ZERO_ERROR) /\
    T_UConverter_fromUnicode_UTF32_BE_OFFSET_LOGIC cnv1 (mkArgs false [0xdc00; 0x41] [] 10 (Some [])) U_ZERO_ERROR
    = Some (cnv2, args2, U_ZERO_ERROR) /\ target args2 = [0; 1; 0; 0; 0; 0; 0; 0x41] /\
    offsets args2 = Some [0; 0; 0; 0; 2; 2; 2; 2]).
Proof.
  split.
  - exists (mkConverter 2 (replicate 7 0) 1 0 0 0 [] []), (mkArgs false [] [] 10 (Some [])),
      (mkConverter 0 [0; 0; 0; 0x42; 0; 0; 0] 0 0 0 0 [] []), (mkArgs false [] [0x41; 0x42] 8 (Some [0; 4])).
    split; [|split; [|split]]; vm_compute; reflexivity.
  - exists (set_fromUChar32 fresh 0xd800), (mkArgs false [] [] 10 (Some [])), fresh,
      (mkArgs false [] [0; 1; 0; 0; 0; 0; 0; 0x41] 2 (Some [0; 0; 0; 0; 2; 2; 2; 2])).
    split; [|split; [|split]]; vm_compute; reflexivity.
Qed.

(** ** Concrete instances *)
Lemma toUnicode_UTF32_correct_witness :
  exists cnv' args' err' cs bad p' overflow,
    toUnicode_UTF32 LE true fresh (mkArgs true [0x41; 0; 0; 0; 0; 0xd8; 0; 0; 1] [] 5 (Some [])) U_ZERO_ERROR
    = Some (cnv', args',
            if negb (no_source args') && (room args' <=? 0) && U_SUCCESS err' then U_BUFFER_OVERFLOW_ERROR else err') /\
    toU_result LE true 0 [0x41; 0; 0; 0; 0; 0xd8; 0; 0; 1] fresh
      (mkArgs true [0x41; 0; 0; 0; 0; 0xd8; 0; 0; 1] [] 5 (Some [])) U_ZERO_ERROR cnv' args' err' cs bad p' overflow.
Proof.
  apply (toUnicode_UTF32_correct LE true fresh (mkArgs true [0x41; 0; 0; 0; 0; 0xd8; 0; 0; 1] [] 5 (Some [])) [] U_ZERO_ERROR).
  - left. split; reflexivity.
  - reflexivity.
  - apply (bool_decide_unpack _). vm_compute. exact I.
  - simpl. lia.
  - reflexivity.
Defined.

Lemma fromUnicode_UTF32_correct_witness :
  exists cnv' args' err' cs overflow bad,
    fromUnicode_UTF32 BE false fresh (mkArgs false [0x41; 0xd800; 0xdc00; 0xd801] [] 6 None) U_ZERO_ERROR
    = Some (cnv', args',
            if negb (no_source args') && (room args' <=? 0) && U_SUCCESS err' then U_BUFFER_OVERFLOW_ERROR else err') /\
    fromU_result BE false 0 [0x41; 0xd800; 0xdc00; 0xd801] (set_fromUChar32 fresh 0)
      (mkArgs false [0x41; 0xd800; 0xdc00; 0xd801] [] 6 None) U_ZERO_ERROR cnv' args' err' cs overflow bad.
Proof.
  apply (fromUnicode_UTF32_correct BE false fresh (mkArgs false [0x41; 0xd800; 0xdc00; 0xd801] [] 6 None) [] U_ZERO_ERROR).
  - reflexivity.
  - left. split; reflexivity.
  - discriminate.
  - apply (bool_decide_unpack _). vm_compute. exact I.
  - simpl. lia.
  - reflexivity.
Defined.


Lemma UTF32_roundtrip_witness :
  exists cnv1 args1 cnv2 args2,
    _UTF32FromUnicode (_UTF32Open fresh) (mkArgs true (utf16s [0x41; 0x10000]) [] 12 None) U_ZERO_ERROR
    = Some (cnv1, args1, U_ZERO_ERROR) /\ target args1 = bom LE ++ utf32s LE [0x41; 0x10000] /\ source args1 = [] /\
    _UTF32ToUnicodeWithOffsets cnv1 (mkArgs true (target args1) [] 3 None) U_ZERO_ERROR
    = Some (cnv2, args2, U_ZERO_ERROR) /\ target args2 = utf16s [0x41; 0x10000] /\ source args2 = [].
Proof.
  apply (UTF32_roundtrip [0x41; 0x10000] 12 3 true).
  - apply (bool_decide_unpack _). vm_compute. exact I.
  - discriminate.
  - vm_compute. discriminate.
  - vm_compute. discriminate.
Defined.
