(* ===== verification/PropsVec.v ===== *)
(** * PropsVec: properties vectors for code point ranges (src/Source/icu/propsvec.c, propsvec.h)

    While the vectors are being built, [v] is an array of rows, each of [columns]
    32-bit cells, and a row pointer is a row index.  Compaction reinterprets the
    same memory as a flat array of cells, [concat v].  [None] is an access
    outside the arrays or a signed overflow. *)
From S2P Require Import Prelude UArrSort.
Local Open Scope Z_scope.

Record UPropsVectors : Type := mkVectors {
  v : list (list Z);
  columns : Z;
  maxRows : Z;
  rows : Z;
  prevRow : Z;
  isCompacted : bool
}.

Definition UPVEC_FIRST_SPECIAL_CP : Z := 0x110000.
Definition UPVEC_INITIAL_VALUE_CP : Z := 0x110000.
Definition UPVEC_ERROR_VALUE_CP : Z := 0x110001.
Definition UPVEC_MAX_CP : Z := 0x110001.
Definition UPVEC_START_REAL_VALUES_CP : Z := 0x200000.
Definition UPVEC_INITIAL_ROWS : Z := Z.shiftl 1 12.
Definition UPVEC_MEDIUM_ROWS : Z := Z.shiftl 1 16.
Definition UPVEC_MAX_ROWS : Z := UPVEC_MAX_CP + 1.
Definition U_INTERNAL_PROGRAM_ERROR : UErrorCode := 5.
Definition U_NO_WRITE_PERMISSION : UErrorCode := 30.

Definition set_prevRow (pv : UPropsVectors) (r : Z) : UPropsVectors :=
  mkVectors (v pv) (columns pv) (maxRows pv) (rows pv) r (isCompacted pv).
Definition set_rows (pv : UPropsVectors) (v : list (list Z)) (maxRows rows : Z) : UPropsVectors :=
  mkVectors v (columns pv) maxRows rows (prevRow pv) (isCompacted pv).

(** [row[k]], and [(UChar32)row[k]] for the range columns *)
Definition cell (v : list (list Z)) (r k : Z) : option Z := row ← v.[r]; row.[k].
Definition range_cell (v : list (list Z)) (r k : Z) : option Z := s32 <$> cell v r k.
Definition set_cell (v : list (list Z)) (r k x : Z) : option (list (list Z)) :=
  row ← v.[r]; row ← zset row k x; zset v r row.

(** The rows of the special values, from [cp] to the last one. *)
Fixpoint special_rows (n : nat) (columns cp : Z) : list (list Z) :=
  match n with
  | O => []
  | S n => (cp :: cp + 1 :: replicate (Z.to_nat (columns - 2)) 0) :: special_rows n columns (cp + 1)
  end.

Definition upvec_open (malloc : Z -> bool) (columns : Z) (status : UErrorCode)
    : option (option UPropsVectors * UErrorCode) :=
  if U_FAILURE status then Some (None, status)
  else if columns <? 1 then Some (None, U_ILLEGAL_ARGUMENT_ERROR)
  else
    columns ← chk32 (columns + 2);
    size ← chk32 (UPVEC_INITIAL_ROWS * columns * 4);
    if negb (malloc 24) || negb (malloc size) then Some (None, U_MEMORY_ALLOCATION_ERROR)
    else
      let rows := 2 + (UPVEC_MAX_CP - UPVEC_FIRST_SPECIAL_CP) in
      let first := 0 :: 0x110000 :: replicate (Z.to_nat (columns - 2)) 0 in
      let special :=
        special_rows (Z.to_nat (UPVEC_MAX_CP + 1 - UPVEC_FIRST_SPECIAL_CP)) columns UPVEC_FIRST_SPECIAL_CP in
      Some (Some (mkVectors (first :: special) columns UPVEC_INITIAL_ROWS rows 0 false), status).

(** ** Searching *)

(** [do { ++prevRow; row+=columns; } while(rangeStart>=(UChar32)row[1]);] *)
Fixpoint near_loop (fuel : nat) (v : list (list Z)) (rangeStart prevRow : Z) : option Z :=
  match fuel with
  | O => None
  | S fuel =>
      let prevRow := prevRow + 1 in
      limit ← range_cell v prevRow 1;
      if rangeStart >=? limit then near_loop fuel v rangeStart prevRow else Some prevRow
  end.

Fixpoint search_loop (fuel : nat) (v : list (list Z)) (rangeStart start limit : Z) : option Z :=
  if start <? limit - 1 then
    match fuel with
    | O => None
    | S fuel =>
        let i := (start + limit) ÷ 2 in
        rowStart ← range_cell v i 0;
        if rangeStart <? rowStart then search_loop fuel v rangeStart start i
        else
          rowLimit ← range_cell v i 1;
          if rangeStart <? rowLimit then Some i else search_loop fuel v rangeStart i limit
    end
  else Some start.

(** The row found, which is also the new [prevRow]. *)
Definition _findRow (pv : UPropsVectors) (rangeStart : Z) : option Z :=
  let search := search_loop (Z.to_nat (rows pv)) (v pv) rangeStart 0 (rows pv) in
  let p := prevRow pv in
  start0 ← range_cell (v pv) p 0;
  if rangeStart >=? start0 then
    limit0 ← range_cell (v pv) p 1;
    if rangeStart <? limit0 then Some p
    else
      limit1 ← range_cell (v pv) (p + 1) 1;
      if rangeStart <? limit1 then Some (p + 1)
      else
        limit2 ← range_cell (v pv) (p + 2) 1;
        if rangeStart <? limit2 then Some (p + 2)
        else if rangeStart - limit2 <? 10 then near_loop (Z.to_nat (rows pv)) (v pv) rangeStart (p + 2)
        else search
  else
    firstLimit ← range_cell (v pv) 0 1;
    if rangeStart <? firstLimit then Some 0 else search.

(** ** Setting values *)

(** Room for the new rows: the array may have to be reallocated. *)
Definition grow (malloc : Z -> bool) (pv : UPropsVectors) (needed : Z)
    : option (UPropsVectors * UErrorCode) :=
  if needed >? maxRows pv then
    let allocate newMaxRows :=
      size ← chk32 (newMaxRows * columns pv * 4);
      if malloc size then Some (set_rows pv (v pv) newMaxRows (rows pv), U_ZERO_ERROR)
      else Some (pv, U_MEMORY_ALLOCATION_ERROR) in
    if maxRows pv <? UPVEC_MEDIUM_ROWS then allocate UPVEC_MEDIUM_ROWS
    else if maxRows pv <? UPVEC_MAX_ROWS then allocate UPVEC_MAX_ROWS
    else Some (pv, U_INTERNAL_PROGRAM_ERROR)
  else Some (pv, U_ZERO_ERROR).

(** Splitting the first row: the rows of the range move up by one, the boundary is
    stored in both halves, and the row pointers move to the second half. *)
Definition split_first (a : list (list Z)) (firstRow lastRow start : Z)
    : option (list (list Z) * Z * Z) :=
  a ← memmove a (firstRow + 1) firstRow (lastRow - firstRow + 1);
  a ← set_cell a (firstRow + 1) 0 (u32 start);
  a ← set_cell a firstRow 1 (u32 start);
  Some (a, firstRow + 1, lastRow + 1).

(** Splitting the last row: it is copied to the next one. *)
Definition split_last (a : list (list Z)) (lastRow limit : Z) : option (list (list Z)) :=
  a ← memmove a (lastRow + 1) lastRow 1;
  a ← set_cell a (lastRow + 1) 0 (u32 limit);
  set_cell a lastRow 1 (u32 limit).

(** The rows after [lastRow] first move up over unused rows.  The result is the
    array and the two row pointers. *)
Definition split_rows (a : list (list Z)) (firstRow lastRow start limit : Z)
    (splitFirstRow splitLastRow : bool) : option (list (list Z) * Z * Z) :=
  let k := Z.b2z splitFirstRow + Z.b2z splitLastRow in
  let count := zlen a - (lastRow + 1) in
  let a := a ++ replicate (Z.to_nat k) [] in
  a ← (if count >? 0 then memmove a (lastRow + 1 + k) (lastRow + 1) count else Some a);
  '(a, firstRow, lastRow) ←
    (if splitFirstRow then split_first a firstRow lastRow start else Some (a, firstRow, lastRow));
  a ← (if splitLastRow then split_last a lastRow limit else Some a);
  Some (a, firstRow, lastRow).

Fixpoint set_loop (fuel : nat) (a : list (list Z)) (firstRow lastRow column value mask : Z)
    : option (list (list Z)) :=
  match fuel with
  | O => None
  | S fuel =>
      x ← cell a firstRow column;
      a ← set_cell a firstRow column (Z.lor (Z.land x mask) value);
      if firstRow =? lastRow then Some a
      else set_loop fuel a (firstRow + 1) lastRow column value mask
  end.

Definition upvec_setValue (malloc : Z -> bool) (pv : option UPropsVectors)
    (start end_ column value mask : Z) (status : UErrorCode)
    : option (option UPropsVectors * UErrorCode) :=
  if U_FAILURE status then Some (pv, status)
  else
    match pv with
    | None => Some (None, U_ILLEGAL_ARGUMENT_ERROR)
    | Some pv =>
        if (start <? 0) || (start >? end_) || (end_ >? UPVEC_MAX_CP)
           || (column <? 0) || (column >=? columns pv - 2)
        then Some (Some pv, U_ILLEGAL_ARGUMENT_ERROR)
        else if isCompacted pv then Some (Some pv, U_NO_WRITE_PERMISSION)
        else
          let limit := end_ + 1 in
          let column := column + 2 in
          let value := Z.land value mask in
          firstRow ← _findRow pv start;
          let pv := set_prevRow pv firstRow in
          lastRow ← _findRow pv end_;
          let pv := set_prevRow pv lastRow in
          firstStart ← range_cell (v pv) firstRow 0;
          firstValue ← cell (v pv) firstRow column;
          lastLimit ← range_cell (v pv) lastRow 1;
          lastValue ← cell (v pv) lastRow column;
          let splitFirstRow := negb (start =? firstStart) && negb (value =? Z.land firstValue mask) in
          let splitLastRow := negb (limit =? lastLimit) && negb (value =? Z.land lastValue mask) in
          '(pv, err, firstRow, lastRow) ←
            (if splitFirstRow || splitLastRow then
               let k := Z.b2z splitFirstRow + Z.b2z splitLastRow in
               '(pv, err) ← grow malloc pv (rows pv + k);
               if U_FAILURE err then Some (pv, err, firstRow, lastRow)
               else
                 '(a, firstRow, lastRow) ←
                   split_rows (v pv) firstRow lastRow start limit splitFirstRow splitLastRow;
                 Some (set_rows pv a (maxRows pv) (rows pv + k), err, firstRow, lastRow)
             else Some (pv, U_ZERO_ERROR, firstRow, lastRow));
          if U_FAILURE err then Some (Some pv, err)
          else
            let pv := set_prevRow pv lastRow in
            a ← set_loop (Z.to_nat (lastRow - firstRow + 1)) (v pv) firstRow lastRow column value
                  (u32 (Z.lnot mask));
            Some (Some (set_rows pv a (maxRows pv) (rows pv)), status)
    end.

(** ** Reading *)

(** The value, and the vectors with their search hint updated. *)
Definition upvec_getValue (pv : UPropsVectors) (c column : Z) : option (Z * UPropsVectors) :=
  if isCompacted pv || (c <? 0) || (c >? UPVEC_MAX_CP) || (column <? 0) || (column >=? columns pv - 2)
  then Some (0, pv)
  else
    r ← _findRow pv c;
    x ← cell (v pv) r (2 + column);
    Some (x, set_prevRow pv r).

(** The range and the value cells of a row; [None] inside is NULL. *)
Definition upvec_getRow (pv : UPropsVectors) (rowIndex : Z) : option (option (Z * Z * list Z)) :=
  if isCompacted pv || (rowIndex <? 0) || (rowIndex >=? rows pv) then Some None
  else
    rangeStart ← range_cell (v pv) rowIndex 0;
    rangeLimit ← range_cell (v pv) rowIndex 1;
    row ← (v pv).[rowIndex];
    Some (Some (rangeStart, rangeLimit - 1, drop 2 row)).

(** ** Compaction *)

(** [n] cells from offset [off] of the flat array. *)
Definition slice (a : list Z) (off n : Z) : option (list Z) :=
  if (0 <=? off) && (0 <=? n) && (off + n <=? zlen a)
  then Some (take (Z.to_nat n) (drop (Z.to_nat off) a)) else None.

(** The comparison starts after the range columns and wraps around to them.  The rows
    that are compared have [columns] cells. *)
Fixpoint compareRows_loop (count : nat) (columns i : Z) (left right : list Z) : Z :=
  match count with
  | O => 0
  | S count =>
      let x := default 0 left.[i] in
      let y := default 0 right.[i] in
      if negb (x =? y) then if x <? y then -1 else 1
      else
        let i := i + 1 in
        compareRows_loop count columns (if i =? columns then 0 else i) left right
  end.

Definition upvec_compareRows (columns : Z) (left right : list Z) : Z :=
  compareRows_loop (Z.to_nat columns) columns 2 left right.

Section compact.
(** The handler reads the row it is given and may change its context and the error
    code: context, start, end, row index, row, columns, error code. *)
Context {C : Type} (handler : C -> Z -> Z -> Z -> list Z -> Z -> UErrorCode -> C * UErrorCode).
Context (columns : Z).

(** The first pass, over the rows that remain from the cell offset [row] on. *)
Fixpoint special_loop (rows : nat) (a : list Z) (row count : Z) (context : C) (err : UErrorCode)
    : option (Z * Z * C * UErrorCode) :=
  let valueColumns := columns - 2 in
  match rows with
  | O => Some (row, count, context, err)
  | S rows =>
      start ← s32 <$> a.[row];
      vals ← slice a (row + 2) valueColumns;
      count ← (if count <? 0 then Some (count + valueColumns)
               else prev ← slice a (row - valueColumns) valueColumns;
                    Some (if decide (vals = prev) then count else count + valueColumns));
      if start >=? UPVEC_FIRST_SPECIAL_CP then
        let '(context, err) := handler context start start count vals valueColumns err in
        if U_FAILURE err then Some (row, count, context, err)
        else special_loop rows a (row + columns) count context err
      else special_loop rows a (row + columns) count context err
  end.

(** The second pass also moves the values to the front of the array. *)
Fixpoint compact_loop (rows : nat) (a : list Z) (row count : Z) (context : C) (err : UErrorCode)
    : option (list Z * Z * C * UErrorCode) :=
  let valueColumns := columns - 2 in
  match rows with
  | O => Some (a, count, context, err)
  | S rows =>
      start ← s32 <$> a.[row];
      limit ← s32 <$> a.[row + 1];
      vals ← slice a (row + 2) valueColumns;
      same ← (if count <? 0 then Some false
              else current ← slice a count valueColumns; Some (bool_decide (vals = current)));
      '(a, count) ← (if (same : bool) then Some (a, count)
                     else a ← memmove a (count + valueColumns) (row + 2) valueColumns;
                          Some (a, count + valueColumns));
      if start <? UPVEC_FIRST_SPECIAL_CP then
        current ← slice a count valueColumns;
        let '(context, err) := handler context start (limit - 1) count current valueColumns err in
        if U_FAILURE err then Some (a, count, context, err)
        else compact_loop rows a (row + columns) count context err
      else compact_loop rows a (row + columns) count context err
  end.
End compact.

(** From the sort on, the rows are the flat array, kept as one list. *)
Definition upvec_compact {C} (malloc : Z -> bool)
    (handler : option (C -> Z -> Z -> Z -> list Z -> Z -> UErrorCode -> C * UErrorCode))
    (context : C) (pv : UPropsVectors) (status : UErrorCode)
    : option (UPropsVectors * C * UErrorCode) :=
  if U_FAILURE status then Some (pv, context, status)
  else
    match handler with
    | None => Some (pv, context, U_ILLEGAL_ARGUMENT_ERROR)
    | Some handler =>
        if isCompacted pv then Some (pv, context, status)
        else
          let mk (a : list (list Z)) (n : Z) := mkVectors a (columns pv) (maxRows pv) n (prevRow pv) true in
          let valueColumns := columns pv - 2 in
          sorted ← uprv_sortArray malloc (Some (v pv)) (rows pv) (columns pv * 4)
                     (Some (upvec_compareRows (columns pv))) false (Some status);
          match sorted with
          | (Some rows', Some status) =>
              if U_FAILURE status then Some (mk rows' (rows pv), context, status)
              else
                let a := concat rows' in
                '(row, count, context, status) ←
                  special_loop handler (columns pv) (Z.to_nat (rows pv)) a 0 (- valueColumns) context status;
                if U_FAILURE status then Some (mk [a] (rows pv), context, status)
                else
                  let count := count + valueColumns in
                  last ← slice a (row - valueColumns) valueColumns;
                  let '(context, status) :=
                    handler context UPVEC_START_REAL_VALUES_CP UPVEC_START_REAL_VALUES_CP
                      count last valueColumns status in
                  if U_FAILURE status then Some (mk [a] (rows pv), context, status)
                  else
                    '(a, count, context, status) ←
                      compact_loop handler (columns pv) (Z.to_nat (rows pv)) a 0 (- valueColumns) context status;
                    if U_FAILURE status then Some (mk [a] (rows pv), context, status)
                    else Some (mk [a] (count ÷ valueColumns + 1), context, status)
          | _ => None
          end
    end.

(** The array, the number of rows and the number of columns; [None] is NULL. *)
Definition upvec_getArray (pv : UPropsVectors) : option (list Z * Z * Z) :=
  if negb (isCompacted pv) then None else Some (concat (v pv), rows pv, columns pv - 2).

Definition upvec_cloneArray (malloc : Z -> bool) (pv : UPropsVectors) (status : UErrorCode)
    : option (option (list Z * Z * Z) * UErrorCode) :=
  if U_FAILURE status then Some (None, status)
  else if negb (isCompacted pv) then Some (None, U_ILLEGAL_ARGUMENT_ERROR)
  else
    byteLength ← chk32 (rows pv * (columns pv - 2) * 4);
    if negb (malloc byteLength) then Some (None, U_MEMORY_ALLOCATION_ERROR)
    else
      clonedArray ← slice (concat (v pv)) 0 (rows pv * (columns pv - 2));
      Some (Some (clonedArray, rows pv, columns pv - 2), status).
