(* ===== verification/PropsVecProps.v ===== *)
(** * PropsVecProps: properties vectors are functions on code points *)
From S2P Require Import Prelude UArrSort PropsVec.
Local Open Scope Z_scope.

(** ** Rows that cover a range of code points *)
Section ranges.
Context (n : Z).

(** Each row starts where the one before it ends, and has [n] value cells. *)
Fixpoint ranges (a : list (list Z)) (lo hi : Z) : Prop :=
  match a with
  | [] => lo = hi
  | row :: a => exists limit vals, row = lo :: limit :: vals /\ lo < limit /\ zlen vals = n /\ ranges a limit hi
  end.

(** The value cells of the row of [c]. *)
Fixpoint row_of (a : list (list Z)) (c : Z) : option (list Z) :=
  match a with
  | (_ :: limit :: vals) :: a => if c <? limit then Some vals else row_of a c
  | _ => None
  end.

Lemma ranges_app a b lo hi :
  ranges (a ++ b) lo hi <-> exists mid, ranges a lo mid /\ ranges b mid hi.
Proof.
  revert lo. induction a as [|row a IH]; intros lo; cbn [app ranges].
  - split; [eauto|]. by intros (mid & -> & H).
  - setoid_rewrite IH. split.
    + intros (limit & vals & -> & Hl & Hv & mid & Ha & Hb). exists mid. eauto 10.
    + intros (mid & (limit & vals & -> & Hl & Hv & Ha) & Hb). exists limit, vals. eauto 10.
Qed.

Lemma ranges_length a lo hi : ranges a lo hi -> lo + zlen a <= hi.
Proof.
  revert lo. induction a as [|row a IH]; intros lo; cbn [ranges]; [intros ->; zlia|].
  intros (limit & vals & -> & Hl & _ & Ha%IH). zlia.
Qed.

Lemma ranges_split a lo hi r :
  ranges a lo hi -> 0 <= r < zlen a ->
  exists A s l vals B, a = A ++ (s :: l :: vals) :: B /\ zlen A = r /\ s < l /\ zlen vals = n /\
    ranges A lo s /\ ranges B l hi.
Proof.
  intros Ha Hr. destruct (zget_is_Some a r Hr) as [row Hrow].
  apply zget_split in Hrow as (A & B & -> & HA). apply ranges_app in Ha as (s & HrA & l & vals & -> & Hl & Hv & HrB).
  exists A, s, l, vals, B. split_and!; auto.
Qed.

Lemma row_of_l a b lo mid c : ranges a lo mid -> lo <= c < mid -> row_of (a ++ b) c = row_of a c.
Proof.
  revert lo. induction a as [|row a IH]; intros lo; cbn [ranges]; [intros ->; lia|].
  intros (limit & vals & -> & Hl & Hv & Ha) Hc. cbn [app row_of]. destruct (c <? limit) eqn:E; [done|].
  bool_prop. apply (IH limit); [done|lia].
Qed.

Lemma row_of_r a b lo mid c : ranges a lo mid -> mid <= c -> row_of (a ++ b) c = row_of b c.
Proof.
  revert lo. induction a as [|row a IH]; intros lo; cbn [ranges]; [done|].
  intros (limit & vals & -> & Hl & Hv & Ha) Hc. cbn [app row_of]. pose proof (ranges_length _ _ _ Ha).
  rewrite Z_ltb_false by zlia. by apply (IH limit).
Qed.

Lemma row_of_at A s l vals B lo c :
  ranges A lo s -> s <= c < l -> row_of (A ++ (s :: l :: vals) :: B) c = Some vals.
Proof. intros HA Hc. rewrite (row_of_r A _ lo s) by (done || lia). cbn [row_of]. by rewrite Z_ltb_true by lia. Qed.

(** ** Searching *)
Definition in_row (a : list (list Z)) (r c : Z) : Prop :=
  exists s l, range_cell a r 0 = Some s /\ range_cell a r 1 = Some l /\ s <= c < l.

Lemma s32_small x : 0 <= x < 2 ^ 31 -> s32 x = x.
Proof. intros. unfold s32. rewrite Z.mod_small; lia. Qed.

Context (a : list (list Z)) (hi : Z) (Ha : ranges a 0 hi) (Hhi : 0 < hi < 2 ^ 31).

Lemma range_cells r :
  0 <= r < zlen a ->
  exists s l, range_cell a r 0 = Some s /\ range_cell a r 1 = Some l /\ 0 <= s < l /\ l <= hi /\
    (r = 0 -> s = 0) /\ (r = zlen a - 1 -> l = hi) /\ (r + 1 < zlen a -> range_cell a (r + 1) 0 = Some l).
Proof using Ha Hhi.
  intros Hr. destruct (ranges_split a 0 hi r Ha Hr) as (A & s & l & vals & B & -> & HA & Hsl & Hv & HrA & HrB).
  pose proof (ranges_length _ _ _ HrA). pose proof (ranges_length _ _ _ HrB). exists s, l.
  unfold range_cell, cell. rewrite (zget_middle A B _ r) by done. mstep.
  change ((s :: l :: vals).[0]) with (Some s). change ((s :: l :: vals).[1]) with (Some l). simpl fmap.
  rewrite !s32_small by zlia. split; [done|]. split; [done|]. split; [zlia|]. split; [zlia|]. split_and!.
  - intros ->. destruct A; [done|zlia].
  - intros ?. destruct B; [done|zlia].
  - intros Hr'. destruct B as [|row B]; [zlia|]. destruct HrB as (l' & vals' & -> & Hl' & _ & HrB).
    pose proof (ranges_length _ _ _ HrB). rewrite cons_middle, app_assoc, zget_middle by zlia. mstep.
    change ((l :: l' :: vals').[0]) with (Some l). simpl. f_equal. apply s32_small. zlia.
Qed.

Lemma near_loop_spec fuel p c l :
  0 <= p < zlen a -> range_cell a p 1 = Some l -> l <= c < hi -> zlen a - p <= Z.of_nat fuel ->
  exists r, near_loop fuel a c p = Some r /\ 0 <= r < zlen a /\ in_row a r c.
Proof using Ha Hhi.
  revert p l. induction fuel as [|fuel IH]; intros p l Hp Hl Hc Hf; [zlia|]. cbn [near_loop]. cbv zeta.
  destruct (range_cells p Hp) as (s & l' & _ & Hl' & _ & _ & _ & Hlast & Hnext). simplify_eq.
  assert (p + 1 < zlen a) as Hp1 by (destruct (decide (p = zlen a - 1)); [specialize (Hlast ltac:(done)); lia|lia]).
  destruct (range_cells (p + 1)) as (s1 & l1 & Hs1 & Hl1 & Hsl & _); [lia|]. rewrite Hl1. mstep.
  rewrite Z.geb_leb. destruct (l1 <=? c) eqn:E; bool_prop.
  - apply (IH (p + 1) l1); auto; lia.
  - exists (p + 1). split; [done|]. split; [lia|]. exists s1, l1. pose proof (Hnext Hp1). simplify_eq.
    split; [done|]. split; [done|lia].
Qed.

(** The search is down to one row. *)
Lemma search_end c start s :
  0 <= start < zlen a -> range_cell a start 0 = Some s -> s <= c < hi ->
  (start + 1 = zlen a \/ exists s', range_cell a (start + 1) 0 = Some s' /\ c < s') -> in_row a start c.
Proof using Ha Hhi.
  intros Hr Hs Hc Hup.
  destruct (range_cells start) as (s1 & l1 & Hs1 & Hl1 & _ & _ & _ & Hlast & Hnext); [lia|].
  exists s1, l1. split; [done|]. split; [done|]. simplify_eq.
  destruct Hup as [Hup|(s' & Hs' & Hc')]; [specialize (Hlast ltac:(lia)); lia|].
  assert (start + 1 < zlen a) as Hin.
  { unfold range_cell, cell in Hs'. destruct (a.[start + 1]) eqn:E; [apply zget_lt in E; lia|done]. }
  rewrite (Hnext Hin) in Hs'. simplify_eq. lia.
Qed.

Lemma search_loop_spec fuel c start limit s :
  0 <= start < limit -> limit <= zlen a -> range_cell a start 0 = Some s -> s <= c < hi ->
  (limit = zlen a \/ exists s', range_cell a limit 0 = Some s' /\ c < s') ->
  limit - start <= Z.of_nat fuel + 1 ->
  exists r, search_loop fuel a c start limit = Some r /\ 0 <= r < zlen a /\ in_row a r c.
Proof using Ha Hhi.
  revert start limit s. induction fuel as [|fuel IH]; intros start limit s Hr Hlim Hs Hc Hup Hf;
    cbn [search_loop]; (destruct (start <? limit - 1) eqn:E; bool_prop; [try lia|
      assert (limit = start + 1) as -> by lia; exists start; split; [done|]; split; [lia|];
      by eapply search_end; eauto; lia]).
  set (i := (start + limit) ÷ 2). assert (start < i < limit) as Hi by (apply mid_between; lia). cbv zeta.
  destruct (range_cells i) as (s1 & l1 & Hs1 & Hl1 & _); [lia|]. rewrite Hs1. mstep.
  destruct (c <? s1) eqn:E1; bool_prop; [apply (IH start i s); eauto; lia|].
  rewrite Hl1. mstep. destruct (c <? l1) eqn:E2; bool_prop; [|apply (IH i limit s1); eauto; lia].
  exists i. split; [done|]. split; [lia|]. exists s1, l1. by split_and!.
Qed.

(** The next row, when the code point is beyond this one. *)
Lemma next_row p l c :
  0 <= p < zlen a -> range_cell a p 1 = Some l -> l <= c < hi ->
  p + 1 < zlen a /\ exists l', range_cell a (p + 1) 0 = Some l /\ range_cell a (p + 1) 1 = Some l'.
Proof using Ha Hhi.
  intros Hp Hl Hc. destruct (range_cells p Hp) as (s & l0 & _ & Hl0 & _ & _ & _ & Hlast & Hnext). simplify_eq.
  assert (p + 1 < zlen a) as Hp1 by (destruct (decide (p = zlen a - 1)); [specialize (Hlast ltac:(done)); lia|lia]).
  split; [done|]. destruct (range_cells (p + 1)) as (s1 & l1 & Hs1 & Hl1 & _); [lia|]. exists l1. auto.
Qed.

Lemma findRow_spec pv c :
  v pv = a -> rows pv = zlen a -> 0 <= prevRow pv < zlen a -> 0 <= c < hi ->
  exists r, _findRow pv c = Some r /\ 0 <= r < zlen a /\ in_row a r c.
Proof using Ha Hhi.
  intros Hv Hrows Hp Hc. unfold _findRow. cbv zeta. rewrite Hv, Hrows. set (p := prevRow pv) in *.
  assert (exists r, search_loop (Z.to_nat (zlen a)) a c 0 (zlen a) = Some r /\ 0 <= r < zlen a /\ in_row a r c) as Hsearch.
  { destruct (range_cells 0) as (s & l & Hs & _ & _ & _ & H0 & _); [lia|]. specialize (H0 eq_refl). subst s.
    apply (search_loop_spec _ c 0 (zlen a) 0); auto; lia. }
  destruct (range_cells p Hp) as (s0 & l0 & Hs0 & Hl0 & _). rewrite Hs0. mstep. rewrite Z.geb_leb.
  destruct (s0 <=? c) eqn:E; bool_prop.
  - rewrite Hl0. mstep. destruct (c <? l0) eqn:E0; bool_prop.
    { exists p. split; [done|]. split; [done|]. exists s0, l0. by split_and!. }
    destruct (next_row p l0 c Hp Hl0) as (Hp1 & l1 & Hs1 & Hl1); [lia|]. rewrite Hl1. mstep.
    destruct (c <? l1) eqn:E1; bool_prop.
    { exists (p + 1). split; [done|]. split; [lia|]. exists l0, l1. by split_and!. }
    destruct (next_row (p + 1) l1 c) as (Hp2 & l2 & Hs2 & Hl2); [lia|done|lia|].
    replace (p + 1 + 1) with (p + 2) in * by lia. rewrite Hl2. mstep.
    destruct (c <? l2) eqn:E2; bool_prop.
    { exists (p + 2). split; [done|]. split; [lia|]. exists l1, l2. by split_and!. }
    destruct (c - l2 <? 10); [|done]. apply (near_loop_spec _ (p + 2) c l2); auto; lia.
  - destruct (range_cells 0) as (s1 & l1 & Hs1 & Hl1 & _ & _ & H0 & _); [lia|]. rewrite Hl1. mstep.
    destruct (c <? l1) eqn:E1; bool_prop; [|done]. exists 0. split; [done|]. split; [lia|].
    exists s1, l1. specialize (H0 eq_refl). split_and!; auto; lia.
Qed.

(** A row that contains [c], as a piece of the array. *)
Lemma in_row_split r c :
  0 <= r < zlen a -> in_row a r c ->
  exists A s l vals B, a = A ++ (s :: l :: vals) :: B /\ zlen A = r /\ s <= c < l /\ zlen vals = n /\
    ranges A 0 s /\ ranges B l hi.
Proof using Ha Hhi.
  intros Hr (s' & l' & Hs' & Hl' & Hc).
  destruct (ranges_split a 0 hi r Ha Hr) as (A & s & l & vals & B & Heq & HA & Hsl & Hv & HrA & HrB).
  exists A, s, l, vals, B. split; [done|]. split; [done|]. split; [|done].
  pose proof (ranges_length _ _ _ HrA). pose proof (ranges_length _ _ _ HrB).
  unfold range_cell, cell in *. rewrite Heq, (zget_middle A B _ r) in Hs', Hl' by done.
  injection Hs' as <-. injection Hl' as <-. rewrite !s32_small in Hc by zlia. lia.
Qed.
End ranges.

(** ** Splitting rows *)
Lemma memmove_gap {A} (X B J : list A) k :
  zlen J = k ->
  exists J', zlen J' = k /\ memmove (X ++ B ++ J) (zlen X + k) (zlen X) (zlen B) = Some (X ++ J' ++ B).
Proof.
  intros HJ. exists (take (Z.to_nat k) (B ++ J)). split.
  { unfold zlen in *. rewrite length_take, length_app. lia. }
  unfold memmove. rewrite !Z_leb_true by zlia. cbn [andb].
  rewrite (drop_zlen X), (take_zlen B) by done.
  replace (Z.to_nat (zlen X + k)) with (length X + Z.to_nat k)%nat by (unfold zlen in *; lia).
  rewrite take_app_add', app_assoc by done.
  replace (Z.to_nat (zlen X + k + zlen B)) with (length (X ++ B ++ J)) by (unfold zlen in *; rewrite !length_app; lia).
  rewrite drop_all, app_nil_r. by rewrite app_assoc.
Qed.

Lemma set_cell_at A row B k x row' i :
  i = zlen A -> zset row k x = Some row' -> set_cell (A ++ row :: B) i k x = Some (A ++ row' :: B).
Proof.
  intros -> Hz. unfold set_cell. rewrite zget_middle by done. mstep. rewrite Hz. mstep. by apply zset_middle.
Qed.

Lemma set_range_start A s l vals B x i :
  i = zlen A -> set_cell (A ++ (s :: l :: vals) :: B) i 0 x = Some (A ++ (x :: l :: vals) :: B).
Proof. intros. apply set_cell_at; [done|]. by apply (zset_middle []). Qed.

Lemma set_range_limit A s l vals B x i :
  i = zlen A -> set_cell (A ++ (s :: l :: vals) :: B) i 1 x = Some (A ++ (s :: x :: vals) :: B).
Proof. intros. apply set_cell_at; [done|]. by apply (zset_middle [s]). Qed.

Section split.
Context (n hi : Z) (start limit : Z) (Hstart : 0 <= start < 2 ^ 32) (Hlimit : 0 <= limit < 2 ^ 32).

(** The array in three parts: the rows of the segment are those between. *)
Record parts (a A S B : list (list Z)) (s l : Z) : Prop := {
  parts_eq : a = A ++ S ++ B;
  parts_A : ranges n A 0 s;
  parts_S : ranges n S s l;
  parts_B : ranges n B l hi;
  parts_ne : s < l
}.

Lemma split_first_step A s l0 vals S' j0 R i j :
  i = zlen A -> j - i + 1 = zlen ((s :: l0 :: vals) :: S') ->
  split_first (A ++ ((s :: l0 :: vals) :: S') ++ j0 :: R) i j start
  = Some (A ++ (s :: start :: vals) :: (start :: l0 :: vals) :: S' ++ R, i + 1, j + 1).
Proof using Hstart.
  intros -> Hj. unfold split_first. rewrite Hj, memmove_up. mstep.
  rewrite (cons_middle (s :: l0 :: vals)), app_assoc. cbn [app].
  rewrite set_range_start by zlia. mstep. rewrite <- app_assoc. cbn [app].
  rewrite set_range_limit by done. mstep. by rewrite u32_small.
Qed.

Lemma split_last_step X s l0 vals j0 R i :
  i = zlen X ->
  split_last (X ++ [s :: l0 :: vals] ++ j0 :: R) i limit
  = Some (X ++ (s :: limit :: vals) :: (limit :: l0 :: vals) :: R).
Proof using Hlimit.
  intros ->. unfold split_last. change 1 with (zlen [s :: l0 :: vals]) at 2. rewrite memmove_up. mstep.
  cbn [app]. rewrite (cons_middle (s :: l0 :: vals)), app_assoc.
  rewrite set_range_start by zlia. mstep. rewrite <- app_assoc. cbn [app].
  rewrite set_range_limit by done. by rewrite u32_small.
Qed.

(** Splitting a row changes no value. *)
Lemma row_of_split X lo s m l vals R c :
  ranges n X lo s -> s < m < l ->
  row_of (X ++ (s :: m :: vals) :: (m :: l :: vals) :: R) c = row_of (X ++ (s :: l :: vals) :: R) c.
Proof using.
  intros HX Hm. revert lo HX. induction X as [|row X IH]; intros lo; cbn [ranges].
  - intros ->. cbn [app row_of]. repeat if_cases; bool_prop; done || lia.
  - intros (l1 & vals1 & -> & _ & _ & HX). cbn [app row_of]. destruct (c <? l1); [done|]. by eapply IH.
Qed.

(** The segment loses the piece before [start], or the one from [limit] on, to its
    neighbour. *)
Lemma split_first_parts A s l0 vals S' B l :
  parts (A ++ ((s :: l0 :: vals) :: S') ++ B) A ((s :: l0 :: vals) :: S') B s l -> s < start < l0 ->
  parts (A ++ (s :: start :: vals) :: (start :: l0 :: vals) :: S' ++ B)
    (A ++ [s :: start :: vals]) ((start :: l0 :: vals) :: S') B start l.
Proof using.
  intros [_ HA (l' & vals' & [= <- <-] & Hl & Hv & HS) HB Hne] Hst.
  pose proof (ranges_length _ _ _ _ HS). split; [by rewrite <- app_assoc| | |done|zlia].
  - apply ranges_app. exists s. split; [done|]. exists start, vals. split_and!; auto; [lia|done].
  - exists l0, vals. split_and!; auto. lia.
Qed.

Lemma split_last_parts A Q s0 s vals B l :
  parts (A ++ (Q ++ [s :: l :: vals]) ++ B) A (Q ++ [s :: l :: vals]) B s0 l -> s < limit < l ->
  s0 < limit /\
  parts (A ++ Q ++ (s :: limit :: vals) :: (limit :: l :: vals) :: B)
    A (Q ++ [s :: limit :: vals]) ((limit :: l :: vals) :: B) s0 limit.
Proof using.
  intros [_ HA HS HB Hne] Hlim. apply ranges_app in HS as (s' & HQ & l' & vals' & [= -> <- <-] & Hl & Hv & HS).
  pose proof (ranges_length _ _ _ _ HQ). split; [zlia|].
  split; [by rewrite <- (app_assoc Q)|done| | |zlia].
  - apply ranges_app. exists s'. split; [done|]. exists limit, vals. split_and!; auto; [lia|done].
  - exists l, vals. split_and!; auto. lia.
Qed.

(** The move that makes room for the new rows. *)
Lemma make_room {T} (a X B : list T) (x : T) k j :
  a = X ++ B -> zlen X = j + 1 -> 0 <= k ->
  exists J, zlen J = k /\
    (if zlen a - (j + 1) >? 0 then memmove (a ++ replicate (Z.to_nat k) x) (j + 1 + k) (j + 1) (zlen a - (j + 1))
     else Some (a ++ replicate (Z.to_nat k) x)) = Some (X ++ J ++ B).
Proof using.
  intros -> HX Hk. assert (zlen (replicate (Z.to_nat k) x) = k) as Hr by (unfold zlen; rewrite length_replicate; lia).
  replace (zlen (X ++ B) - (j + 1)) with (zlen B) by zlia. rewrite <- HX, <- app_assoc.
  destruct (zlen B >? 0) eqn:E; bool_prop.
  - by apply memmove_gap.
  - assert (B = []) as -> by (apply zlen_0_nil; lia). exists (replicate (Z.to_nat k) x).
    split; [done|]. by rewrite app_nil_l, app_nil_r.
Qed.

(** The array with [k] unused rows after the segment, and the two row pointers. *)
Definition cut (a A S J B : list (list Z)) (i j : Z) : Prop :=
  a = A ++ S ++ J ++ B /\ i = zlen A /\ j = zlen A + zlen S - 1.

Lemma first_phase a A S' J B s l0 vals l i j j0 :
  let S := (s :: l0 :: vals) :: S' in
  cut a A S (j0 :: J) B i j -> parts (A ++ S ++ B) A S B s l -> s < start < l0 ->
  exists a1 A1 S1, split_first a i j start = Some (a1, i + 1, j + 1) /\ cut a1 A1 S1 J B (i + 1) (j + 1) /\
    S1 = (start :: l0 :: vals) :: S' /\ parts (A1 ++ S1 ++ B) A1 S1 B start l /\ zlen A1 = zlen A + 1 /\
    forall c, row_of (A1 ++ S1 ++ B) c = row_of (A ++ S ++ B) c.
Proof using Hstart.
  intros S (-> & -> & ->) Hp Hst. unfold S. cbn [app]. rewrite (split_first_step A s l0 vals S' j0 (J ++ B)) by zlia.
  eexists _, (A ++ [s :: start :: vals]), ((start :: l0 :: vals) :: S'). split; [done|].
  split; [split; [by rewrite <- app_assoc|zlia]|]. split; [done|].
  pose proof (split_first_parts A s l0 vals S' B l Hp Hst) as Hp'.
  rewrite <- app_assoc. cbn [app]. split; [done|]. split; [zlia|].
  intros c. apply (row_of_split A 0); [apply Hp|done].
Qed.

Lemma last_phase a A Q B s0 s vals l i j j0 :
  cut a A (Q ++ [s :: l :: vals]) [j0] B i j -> parts (A ++ (Q ++ [s :: l :: vals]) ++ B) A (Q ++ [s :: l :: vals]) B s0 l ->
  s < limit < l ->
  exists S1 B1, split_last a j limit = Some (A ++ S1 ++ B1) /\ zlen S1 = zlen Q + 1 /\ zlen B1 = zlen B + 1 /\
    parts (A ++ S1 ++ B1) A S1 B1 s0 limit /\
    forall c, row_of (A ++ S1 ++ B1) c = row_of (A ++ (Q ++ [s :: l :: vals]) ++ B) c.
Proof using Hlimit.
  intros (-> & -> & ->) Hp Hlim. exists (Q ++ [s :: limit :: vals]), ((limit :: l :: vals) :: B).
  destruct (split_last_parts A Q s0 s vals B l Hp Hlim) as [_ Hp2].
  replace (A ++ (Q ++ [s :: l :: vals]) ++ [j0] ++ B) with ((A ++ Q) ++ [s :: l :: vals] ++ j0 :: B)
    by (by rewrite <- !app_assoc).
  rewrite split_last_step by zlia. rewrite <- !app_assoc. cbn [app].
  split; [done|]. split; [zlia|]. split; [zlia|]. split; [done|]. intros c. rewrite !(app_assoc A).
  apply (row_of_split (A ++ Q) 0); [|done]. destruct Hp as [_ HA HS _ _]. apply ranges_app.
  apply ranges_app in HS as (m & HQ & l' & v' & [= -> _ _] & _). eauto.
Qed.

Lemma split_rows_spec a A S' B s l0 vals Q s2 vals2 l i j (b1 b2 : bool) :
  let S := (s :: l0 :: vals) :: S' in
  parts a A S B s l -> S = Q ++ [s2 :: l :: vals2] -> i = zlen A -> j = zlen A + zlen S - 1 ->
  (b1 = true -> s < start < l0) -> (b2 = true -> s2 < limit < l) -> start < limit ->
  exists A1 S1 B1, split_rows a i j start limit b1 b2 = Some (A1 ++ S1 ++ B1, zlen A1, zlen A1 + zlen S1 - 1) /\
    parts (A1 ++ S1 ++ B1) A1 S1 B1 (if b1 then start else s) (if b2 then limit else l) /\
    zlen (A1 ++ S1 ++ B1) = zlen a + Z.b2z b1 + Z.b2z b2 /\
    forall c, row_of (A1 ++ S1 ++ B1) c = row_of a c.
Proof using Hstart Hlimit.
  intros S Hp HQ Hi Hj H1 H2 Hlt. pose proof (parts_eq _ _ _ _ _ _ Hp) as Ha. unfold split_rows. cbv zeta.
  destruct (make_room a (A ++ S) B [] (Z.b2z b1 + Z.b2z b2) j) as (J & HJ & ->);
    [by rewrite <- app_assoc|zlia|destruct b1, b2; simpl; lia|].
  mstep. rewrite <- app_assoc. rewrite Ha in Hp |- *.
  assert (exists a1 A1 S1 J1 Q1 s3 i1 j1,
     (if b1 then split_first (A ++ S ++ J ++ B) i j start else Some (A ++ S ++ J ++ B, i, j)) = Some (a1, i1, j1) /\
     cut a1 A1 S1 J1 B i1 j1 /\ zlen J1 = Z.b2z b2 /\ zlen A1 = zlen A + Z.b2z b1 /\ zlen S1 = zlen S /\
     parts (A1 ++ S1 ++ B) A1 S1 B (if b1 then start else s) l /\
     S1 = Q1 ++ [s3 :: l :: vals2] /\ (b2 = true -> s3 < limit < l) /\
     forall c, row_of (A1 ++ S1 ++ B) c = row_of (A ++ S ++ B) c)
    as (a1 & A1 & S1 & J1 & Q1 & s3 & i1 & j1 & -> & Hcut1 & HJ1 & HA1 & HS1 & Hp1 & HQ1 & H3 & Hrow1).
  { destruct b1; [|exists (A ++ S ++ J ++ B), A, S, J, Q, s2, i, j; split_and!; try done; simpl; lia].
    destruct J as [|j0 J]; [destruct b2; done|].
    destruct (first_phase (A ++ S ++ (j0 :: J) ++ B) A S' J B s l0 vals l i j j0)
      as (a1 & A1 & S1 & Hf & Hcut & HS1 & Hp1 & HA1 & Hr1); [done|done|auto|].
    exists a1, A1, S1, J, (match Q with [] => [] | _ :: Q' => (start :: l0 :: vals) :: Q' end),
      (match Q with [] => start | _ => s2 end), (i + 1), (j + 1).
    split; [done|]. split; [done|]. split; [destruct b2; simpl in *; zlia|]. split; [done|].
    split; [rewrite HS1; unfold S; zlia|]. split; [done|].
    unfold S in HQ. split; [rewrite HS1; destruct Q; by simplify_eq/=|].
    split; [|done]. intros H. specialize (H2 H). destruct Q; simplify_eq/=; lia. }
  mstep. destruct b2.
  - destruct J1 as [|j0 J1]; [done|]. assert (J1 = []) as -> by (apply zlen_0_nil; simpl in HJ1; zlia).
    rewrite HQ1 in *. destruct (last_phase a1 A1 Q1 B _ s3 vals2 l i1 j1 j0 Hcut1 Hp1 (H3 eq_refl))
      as (S2 & B2 & Hl2 & HS2 & HB2 & Hp2 & Hr2). rewrite Hl2. mstep.
    destruct Hcut1 as (_ & -> & ->). exists A1, S2, B2. split; [do 2 f_equal; zlia|].
    split; [done|]. clearbody S. split; [cbn [Z.b2z]; zlia|]. intros c. by rewrite Hr2, Hrow1.
  - assert (J1 = []) as -> by (apply zlen_0_nil; simpl in HJ1; lia). mstep.
    destruct Hcut1 as (-> & -> & ->). exists A1, S1, B. split; [done|]. split; [done|].
    clearbody S. split; [cbn [Z.b2z]; zlia|done].
Qed.
End split.

(** ** Setting a column *)
Section update.
Context (n : Z) (col value mask : Z) (Hcol : 0 <= col < n).

(** The new contents of the value cells of a row. *)
Definition upd_vals (vals : list Z) : list Z :=
  alter (fun x => Z.lor (Z.land x mask) value) (Z.to_nat col) vals.
Definition upd_row (row : list Z) : list Z :=
  match row with
  | s :: l :: vals => s :: l :: upd_vals vals
  | _ => row
  end.

Lemma zlen_upd_vals vals : zlen (upd_vals vals) = zlen vals.
Proof. unfold zlen, upd_vals. by rewrite length_alter. Qed.

Lemma ranges_upd a lo hi : ranges n a lo hi -> ranges n (map upd_row a) lo hi.
Proof.
  revert lo. induction a as [|row a IH]; intros lo; cbn [ranges map]; [done|].
  intros (l & vals & -> & Hl & Hv & Ha). exists l, (upd_vals vals). split; [done|].
  split; [done|]. split; [by rewrite zlen_upd_vals|auto].
Qed.

Lemma row_of_upd a c : row_of (map upd_row a) c = upd_vals <$> row_of a c.
Proof.
  induction a as [|[|s [|l vals]] a IH]; cbn [map row_of upd_row]; [done..|]. by destruct (c <? l).
Qed.

Lemma set_row_cell A s l vals B i :
  i = zlen A -> zlen vals = n ->
  exists x, cell (A ++ (s :: l :: vals) :: B) i (col + 2) = Some x /\
    set_cell (A ++ (s :: l :: vals) :: B) i (col + 2) (Z.lor (Z.land x mask) value)
    = Some (A ++ upd_row (s :: l :: vals) :: B).
Proof using Hcol.
  intros -> Hv. destruct (zget_is_Some vals col) as [x Hx]; [lia|]. exists x.
  apply zget_split in Hx as (p & q & -> & Hp). change (s :: l :: p ++ x :: q) with ((s :: l :: p) ++ x :: q).
  unfold cell. rewrite zget_middle by done. mstep. split; [apply zget_middle; zlia|].
  apply set_cell_at; [done|]. rewrite zset_middle by zlia. f_equal. cbn [app upd_row]. do 2 f_equal.
  unfold upd_vals. rewrite <- Hp. unfold zlen. rewrite Nat2Z.id.
  replace (length p) with (length p + 0)%nat by lia. by rewrite alter_app_r.
Qed.

Lemma set_loop_spec fuel A S B s l i j :
  ranges n S s l -> S <> [] -> i = zlen A -> j = zlen A + zlen S - 1 -> zlen S <= Z.of_nat fuel ->
  set_loop fuel (A ++ S ++ B) i j (col + 2) value mask = Some (A ++ map upd_row S ++ B).
Proof using Hcol.
  revert A S s i. induction fuel as [|fuel IH]; intros A S s i HS Hne Hi Hj Hf.
  { destruct S; [done|zlia]. }
  destruct S as [|row S]; [done|]. destruct HS as (l0 & vals & -> & Hl & Hv & HS). cbn [set_loop app].
  destruct (set_row_cell A s l0 vals (S ++ B) i Hi Hv) as (x & -> & Hset). mstep. rewrite Hset. mstep.
  destruct (i =? j) eqn:E; bool_prop.
  - assert (S = []) as -> by (apply zlen_0_nil; zlia). done.
  - rewrite (cons_middle (upd_row _)), app_assoc. rewrite (IH _ S l0).
    + cbn [map]. by rewrite <- app_assoc.
    + done.
    + intros ->. zlia.
    + zlia.
    + zlia.
    + zlia.
Qed.

(** The values after the column has been set in the segment. *)
Lemma row_of_segment hi a A S B s l c :
  parts n hi a A S B s l -> 0 <= c < hi ->
  row_of (A ++ map upd_row S ++ B) c
  = if decide (s <= c < l) then upd_vals <$> row_of a c else row_of a c.
Proof.
  intros [-> HA HS HB Hne] Hc. pose proof (ranges_upd S s l HS) as HS'.
  destruct (decide (c < s)); [|destruct (decide (c < l))].
  - rewrite decide_False by lia. by rewrite !(row_of_l n A _ 0 s) by (done || lia).
  - rewrite decide_True by lia. rewrite !(row_of_r n A _ 0 s) by (done || lia).
    rewrite !(row_of_l n _ B s l) by (done || lia). apply row_of_upd.
  - rewrite decide_False by lia. rewrite !(row_of_r n A _ 0 s), !(row_of_r n _ B s l) by (done || lia). done.
Qed.
End update.

(** The rows of two code points and what lies between. *)
Lemma two_rows n hi a r1 r2 c1 c2 :
  ranges n a 0 hi -> 0 < hi < 2 ^ 31 -> c1 <= c2 ->
  0 <= r1 < zlen a -> in_row a r1 c1 -> 0 <= r2 < zlen a -> in_row a r2 c2 ->
  exists A S' B s l0 vals Q s2 l vals2,
    parts n hi a A ((s :: l0 :: vals) :: S') B s l /\ (s :: l0 :: vals) :: S' = Q ++ [s2 :: l :: vals2] /\
    r1 = zlen A /\ r2 = zlen A + zlen ((s :: l0 :: vals) :: S') - 1 /\
    s <= c1 < l0 /\ s2 <= c2 < l /\ zlen vals = n /\ zlen vals2 = n.
Proof.
  intros Ha Hhi Hc Hr1 Hi1 Hr2 Hi2.
  destruct (in_row_split n a hi Ha Hhi r1 c1 Hr1 Hi1) as (A & s & l0 & vals & T & HaA & HA & Hs & Hv & HrA & HrT).
  destruct (in_row_split n a hi Ha Hhi r2 c2 Hr2 Hi2) as (P & s2 & l & vals2 & B & HaP & HP & Hs2 & Hv2 & HrP & HrB).
  rewrite HaA in HaP. pose proof (ranges_length _ _ _ _ HrB) as HlB.
  apply app_eq_app in HaP as (M & [[-> HM]|[-> HM]]).
  - destruct M as [|m M].
    + cbn [app] in HM. injection HM as -> -> -> ->. rewrite app_nil_r in *.
      exists P, [], T, s, l0, vals, [], s, l0, vals. split.
      * split; [done|done| |done|lia]. exists l0, vals. split_and!; auto; [lia|done].
      * split_and!; auto; zlia.
    + exfalso. cbn [app] in HM. injection HM as <- HB. apply ranges_app in HrA as (m' & _ & l' & v' & [= <- <- <-] & _ & _ & HrM).
      pose proof (ranges_length _ _ _ _ HrM). zlia.
  - destruct M as [|m M].
    + cbn [app] in HM. injection HM as -> -> -> ->. rewrite app_nil_r in *.
      exists A, [], B, s2, l, vals2, [], s2, l, vals2. split.
      * split; [done|done| |done|lia]. exists l, vals2. split_and!; auto; [lia|done].
      * split_and!; auto; zlia.
    + cbn [app] in HM. injection HM as <- ->.
      apply ranges_app in HrP as (m' & HrA' & l' & v' & [= <- <- <-] & Hl' & _ & HrM).
      pose proof (ranges_length _ _ _ _ HrM).
      exists A, (M ++ [s2 :: l :: vals2]), B, s, l0, vals, ((s :: l0 :: vals) :: M), s2, l, vals2. split.
      * split; [rewrite HaA; cbn [app]; by rewrite <- app_assoc|done| |done|zlia].
        exists l0, vals. split_and!; auto. apply ranges_app. exists s2. split; [done|].
        exists l, vals2. split_and!; auto; [lia|done].
      * split_and!; auto; zlia.
Qed.

(** ** The vectors *)
Definition HI : Z := UPVEC_MAX_CP + 1.

(** At most 479 values for a code point keep the sizes in 32 bits. *)
Record wf (pv : UPropsVectors) : Prop := {
  wf_columns : 3 <= columns pv <= 481;
  wf_ranges : ranges (columns pv - 2) (v pv) 0 HI;
  wf_rows : rows pv = zlen (v pv) /\ rows pv <= maxRows pv;
  wf_max : maxRows pv = UPVEC_INITIAL_ROWS \/ maxRows pv = UPVEC_MEDIUM_ROWS \/ maxRows pv = UPVEC_MAX_ROWS;
  wf_prev : 0 <= prevRow pv < rows pv;
  wf_open : isCompacted pv = false;
  wf_cells : forall c vals, 0 <= c < HI -> row_of (v pv) c = Some vals -> Forall is_u32 vals
}.

(** The properties of a code point: the row of [c] in the vectors. *)
Definition properties (pv : UPropsVectors) (c : Z) : option (list Z) := row_of (v pv) c.

(** What setting a column means for one code point. *)
Definition spec_set (start end_ column value mask c : Z) (vals : list Z) : list Z :=
  if decide (start <= c <= end_)
  then alter (fun x => Z.lor (Z.land x (u32 (Z.lnot mask))) (Z.land value mask)) (Z.to_nat column) vals
  else vals.

Lemma wf_set_prevRow pv r : wf pv -> 0 <= r < rows pv -> wf (set_prevRow pv r).
Proof. intros [? ? ? ? ? ? ?] Hr. by split. Qed.

Lemma findRow_wf pv c :
  wf pv -> 0 <= c < HI -> exists r, _findRow pv c = Some r /\ 0 <= r < zlen (v pv) /\ in_row (v pv) r c.
Proof.
  intros [_ Hr [Hrows _] _ Hp _ _] Hc. apply (findRow_spec _ (v pv) HI Hr); auto; [unfold HI, UPVEC_MAX_CP; lia|].
  by rewrite <- Hrows.
Qed.

(** Merging a value that is already there changes nothing. *)
Lemma merge_same x mask :
  is_u32 x -> is_u32 mask -> Z.lor (Z.land x (u32 (Z.lnot mask))) (Z.land x mask) = x.
Proof.
  intros Hx Hm. unfold u32. rewrite <- Z_land_ones by lia. apply Z.bits_inj'. intros k Hk.
  change (2 ^ 32 - 1) with (Z.ones 32). rewrite Z.lor_spec, !Z.land_spec, Z.lnot_spec by lia.
  destruct (decide (k < 32)).
  - rewrite Z.ones_spec_low by lia. by destruct (Z.testbit x k), (Z.testbit mask k).
  - unfold is_u32 in *. rewrite <- (Z.mod_small x (2 ^ 32)), Z.mod_pow2_bits_high by lia. done.
Qed.

Lemma grow_spec malloc pv needed :
  wf pv -> needed <= rows pv + 2 -> needed <= UPVEC_MAX_ROWS ->
  exists pv' err, grow malloc pv needed = Some (pv', err) /\
    ((err = U_ZERO_ERROR /\ pv' = set_rows pv (v pv) (maxRows pv') (rows pv) /\ needed <= maxRows pv' /\
      rows pv <= maxRows pv' /\
      (maxRows pv' = UPVEC_INITIAL_ROWS \/ maxRows pv' = UPVEC_MEDIUM_ROWS \/ maxRows pv' = UPVEC_MAX_ROWS)) \/
     (err = U_MEMORY_ALLOCATION_ERROR /\ pv' = pv)).
Proof.
  intros [Hcol _ [_ Hrows] Hmax _ _ _] Hn Hn'. unfold grow.
  change UPVEC_INITIAL_ROWS with 4096 in *. change UPVEC_MEDIUM_ROWS with 65536 in *.
  change UPVEC_MAX_ROWS with 0x110002 in *. cbv zeta. rewrite Z.gtb_ltb.
  destruct (maxRows pv <? needed) eqn:E; bool_prop.
  2:{ exists pv, U_ZERO_ERROR. split; [done|]. left. split_and!; auto. by destruct pv. }
  destruct (maxRows pv <? 65536) eqn:E1; bool_prop; [|rewrite Z_ltb_true by lia];
    rewrite chk32_ok by lia; mstep; destruct (malloc _); eexists _, _; (split; [done|]); auto;
    left; simpl; split_and!; auto; lia.
Qed.

Lemma upd_same col mask vals x :
  vals.[col] = Some x -> Forall is_u32 vals -> is_u32 mask ->
  upd_vals col (Z.land x mask) (u32 (Z.lnot mask)) vals = vals.
Proof.
  intros Hx Hv Hm. apply zget_Some in Hx as [_ Hx]. unfold upd_vals. apply list_eq. intros k.
  destruct (decide (k = Z.to_nat col)) as [->|Hk]; [|by rewrite list_lookup_alter_ne].
  rewrite list_lookup_alter_eq, Hx. simpl. f_equal. apply merge_same; [|done].
  by apply (Forall_lookup_1 _ _ _ _ Hv Hx).
Qed.

Lemma row_value A s l vals B r col :
  r = zlen A -> 0 <= col < zlen vals ->
  exists x, cell (A ++ (s :: l :: vals) :: B) r (col + 2) = Some x /\ vals.[col] = Some x.
Proof.
  intros -> Hc. destruct (zget_is_Some vals col Hc) as [x Hx]. exists x. split; [|done].
  unfold cell. rewrite zget_middle by done. mstep. change (s :: l :: vals) with ([s; l] ++ vals).
  rewrite zget_app_r by zlia. rewrite <- Hx. f_equal. zlia.
Qed.

Lemma range_cell_at A s l vals B r :
  r = zlen A -> 0 <= s < 2 ^ 31 -> 0 <= l < 2 ^ 31 ->
  range_cell (A ++ (s :: l :: vals) :: B) r 0 = Some s /\ range_cell (A ++ (s :: l :: vals) :: B) r 1 = Some l.
Proof.
  intros -> Hs Hl. unfold range_cell, cell. rewrite zget_middle by done. mstep.
  change ((s :: l :: vals).[0]) with (Some s). change ((s :: l :: vals).[1]) with (Some l).
  simpl. by rewrite !s32_small by lia.
Qed.

(** The segment after the splits, updated, gives the specified values: where it
    sticks out of the range, its rows already hold the value. *)
Lemma segment_values n a A S B s l start end_ column value mask c :
  (forall c, 0 <= c < HI -> exists vals, row_of a c = Some vals) -> parts n HI (A ++ S ++ B) A S B s l ->
  (forall c, row_of (A ++ S ++ B) c = row_of a c) -> 0 <= c < HI -> s <= start -> end_ < l ->
  (forall c vals, s <= c < start \/ end_ < c < l -> row_of a c = Some vals ->
     upd_vals column (Z.land value mask) (u32 (Z.lnot mask)) vals = vals) ->
  row_of (A ++ map (upd_row column (Z.land value mask) (u32 (Z.lnot mask))) S ++ B) c
  = spec_set start end_ column value mask c <$> row_of a c.
Proof.
  intros Htot Hp Hrow Hc Hs Hl Hsame. rewrite (row_of_segment n _ _ _ HI _ A S B s l c Hp Hc), Hrow.
  destruct (Htot c Hc) as [vals Hvals]. rewrite Hvals. unfold spec_set. simpl.
  case_decide; case_decide; try (exfalso; lia); try done. f_equal. by apply (Hsame c); [lia|].
Qed.

Lemma row_of_total n a lo hi c :
  ranges n a lo hi -> lo <= c < hi -> exists vals, row_of a c = Some vals /\ zlen vals = n.
Proof.
  revert lo. induction a as [|row a IH]; intros lo; cbn [ranges]; [intros ->; lia|].
  intros (l & vals & -> & Hl & Hv & Ha) Hc. cbn [row_of]. destruct (c <? l) eqn:E; bool_prop; [eauto|].
  apply (IH l); [done|lia].
Qed.

Lemma is_u32_land x y : is_u32 x -> 0 <= y -> is_u32 (Z.land x y).
Proof.
  unfold is_u32. intros Hx Hy. rewrite <- (Z.mod_small x (2 ^ 32)), <- Z.land_ones by lia.
  rewrite <- Z.land_assoc, (Z.land_comm _ y), Z.land_assoc, Z.land_ones by lia. apply Z.mod_pos_bound. lia.
Qed.

Lemma is_u32_lor x y : is_u32 x -> is_u32 y -> is_u32 (Z.lor x y).
Proof.
  unfold is_u32. intros Hx Hy. rewrite <- (Z.mod_small x (2 ^ 32)), <- (Z.mod_small y (2 ^ 32)) by lia.
  rewrite <- !Z.land_ones, <- Z.land_lor_distr_l, Z.land_ones by lia. apply Z.mod_pos_bound. lia.
Qed.

(** The vectors after the column has been set in a segment of the rows. *)
Lemma wf_after pv A S B s l start end_ column value mask m k r :
  wf pv -> parts (columns pv - 2) HI (A ++ S ++ B) A S B s l ->
  (forall c, row_of (A ++ S ++ B) c = row_of (v pv) c) ->
  zlen (A ++ S ++ B) = rows pv + k -> rows pv + k <= m ->
  (m = UPVEC_INITIAL_ROWS \/ m = UPVEC_MEDIUM_ROWS \/ m = UPVEC_MAX_ROWS) -> 0 <= r < rows pv + k ->
  is_u32 value -> is_u32 mask -> s <= start -> end_ < l ->
  (forall c vals, s <= c < start \/ end_ < c < l -> row_of (v pv) c = Some vals ->
     upd_vals column (Z.land value mask) (u32 (Z.lnot mask)) vals = vals) ->
  let a := A ++ map (upd_row column (Z.land value mask) (u32 (Z.lnot mask))) S ++ B in
  let pv' := mkVectors a (columns pv) m (rows pv + k) r (isCompacted pv) in
  wf pv' /\ forall c, 0 <= c < HI ->
    properties pv' c = spec_set start end_ column value mask c <$> properties pv c.
Proof.
  intros [Hcol Hr Hrows Hmax Hprev Hopen Hcells] Hp Hrow Hlen Hm Hms Hrr Hv Hmask Hs Hl Hsame a pv'.
  assert (forall c, 0 <= c < HI -> properties pv' c = spec_set start end_ column value mask c <$> properties pv c) as Hspec.
  { intros c Hc. apply (segment_values (columns pv - 2) (v pv) A S B s l); auto.
    intros c' Hc'. destruct (row_of_total _ _ _ _ c' Hr Hc') as (vals & ? & _). eauto. }
  split; [|done]. destruct Hp as [_ HA HS HB _]. split; simpl; auto.
  - apply ranges_app. exists s. split; [done|]. apply ranges_app. exists l. split; [by apply ranges_upd|done].
  - split; [|done]. rewrite <- Hlen. unfold a, zlen. by rewrite !length_app, length_map.
  - intros c vals Hc Hvals. change (row_of a c) with (properties pv' c) in Hvals. rewrite Hspec in Hvals by done.
    apply fmap_Some in Hvals as (vals0 & Hv0 & ->). specialize (Hcells c vals0 Hc Hv0). unfold spec_set.
    case_decide; [|done]. apply Forall_alter; [done|]. intros x Hx Hux.
    apply is_u32_lor; apply is_u32_land; auto; [|apply Hmask]. unfold u32. apply Z.mod_pos_bound. lia.
Qed.

(** A row that already holds the value in the column is not changed by setting it. *)
Lemma partial_row pv s l vals A B column value mask x c vals' :
  wf pv -> v pv = A ++ (s :: l :: vals) :: B -> ranges (columns pv - 2) A 0 s -> 0 <= s < l -> l <= HI ->
  vals.[column] = Some x -> Z.land value mask = Z.land x mask -> is_u32 mask ->
  s <= c < l -> row_of (v pv) c = Some vals' ->
  upd_vals column (Z.land value mask) (u32 (Z.lnot mask)) vals' = vals'.
Proof.
  intros Hwf Ha HA Hs Hl Hx Heq Hmask Hc Hrow.
  rewrite Ha, (row_of_at (columns pv - 2) A s l vals B 0 c HA Hc) in Hrow. injection Hrow as <-. rewrite Heq.
  apply upd_same; auto. apply (wf_cells _ Hwf s); [lia|]. rewrite Ha.
  apply (row_of_at (columns pv - 2) _ _ _ _ _ 0); [done|lia].
Qed.

(** The rows of the range, once they have been found: the segment starts in the row
    of [start] and ends in the row of [end_]. *)
Record found (pv : UPropsVectors) (start end_ column r1 r2 : Z)
    (A S' B : list (list Z)) (s l0 : Z) (vals : list Z) (Q : list (list Z)) (s2 l : Z) (vals2 : list Z)
    (x1 x2 : Z) : Prop := {
  found_parts : parts (columns pv - 2) HI (v pv) A ((s :: l0 :: vals) :: S') B s l;
  found_last : (s :: l0 :: vals) :: S' = Q ++ [s2 :: l :: vals2];
  found_r1 : r1 = zlen A;
  found_r2 : r2 = zlen A + zlen ((s :: l0 :: vals) :: S') - 1;
  found_start : s <= start < l0;
  found_end : s2 <= end_ < l;
  found_x1 : vals.[column] = Some x1 /\ cell (v pv) r1 (column + 2) = Some x1;
  found_x2 : vals2.[column] = Some x2 /\ cell (v pv) r2 (column + 2) = Some x2;
  found_cells : range_cell (v pv) r1 0 = Some s /\ range_cell (v pv) r2 1 = Some l
}.

Lemma find_rows pv start end_ column :
  wf pv -> 0 <= start <= end_ -> end_ <= UPVEC_MAX_CP -> 0 <= column < columns pv - 2 ->
  exists r1 r2 A S' B s l0 vals Q s2 l vals2 x1 x2,
    _findRow pv start = Some r1 /\ _findRow (set_prevRow pv r1) end_ = Some r2 /\
    found pv start end_ column r1 r2 A S' B s l0 vals Q s2 l vals2 x1 x2.
Proof.
  intros Hwf Hse He Hcol. pose proof (wf_rows _ Hwf) as [Hrows _].
  assert (0 < HI < 2 ^ 31) as HHI by (unfold HI, UPVEC_MAX_CP; lia). assert (end_ < HI) as HeH by (unfold HI; lia).
  destruct (findRow_wf pv start Hwf) as (r1 & Hf1 & Hr1 & Hi1); [lia|].
  destruct (findRow_wf (set_prevRow pv r1) end_) as (r2 & Hf2 & Hr2 & Hi2); [apply wf_set_prevRow; [done|lia]|lia|].
  cbn [set_prevRow v] in *.
  destruct (two_rows (columns pv - 2) HI (v pv) r1 r2 start end_)
    as (A & S' & B & s & l0 & vals & Q & s2 & l & vals2 & Hp & HQ & Hr1' & Hr2' & Hs1 & Hs2 & Hv1 & Hv2); auto;
    [apply (wf_ranges _ Hwf)|lia|].
  pose proof (parts_eq _ _ _ _ _ _ _ _ Hp) as Ha. pose proof Hp as [_ HA HS HB _].
  pose proof (ranges_length _ _ _ _ HA). pose proof (ranges_length _ _ _ _ HB).
  assert (v pv = (A ++ Q) ++ (s2 :: l :: vals2) :: B) as Ha2 by (by rewrite Ha, HQ, <- !app_assoc).
  assert (r2 = zlen (A ++ Q)) as Hr2q by (rewrite Hr2', HQ; zlia).
  assert (l0 <= l) as Hl0l.
  { destruct HS as (? & ? & [= <- <-] & _ & _ & HS'). pose proof (ranges_length _ _ _ _ HS'). zlia. }
  rewrite HQ in HS. apply ranges_app in HS as (s2' & HrQ & l' & vals2' & [= <- <- <-] & _).
  pose proof (ranges_length _ _ _ _ HrQ).
  destruct (row_value A s l0 vals (S' ++ B) r1 column) as (x1 & Hx1 & Hx1'); [done|lia|].
  destruct (row_value (A ++ Q) s2 l vals2 B r2 column) as (x2 & Hx2 & Hx2'); [done|lia|].
  destruct (range_cell_at A s l0 vals (S' ++ B) r1) as [Hc1 _]; [done|zlia|zlia|].
  destruct (range_cell_at (A ++ Q) s2 l vals2 B r2) as [_ Hc2]; [done|zlia|zlia|].
  cbn [app] in Ha. exists r1, r2, A, S', B, s, l0, vals, Q, s2, l, vals2, x1, x2.
  split; [done|]. split; [done|]. split; auto; split; auto; by (rewrite Ha2 + rewrite Ha).
Qed.

(** The rows that are split, and the values where the segment still sticks out. *)
Lemma split_decisions pv start end_ column value mask r1 r2 A S' B s l0 vals Q s2 l vals2 x1 x2 :
  wf pv -> found pv start end_ column r1 r2 A S' B s l0 vals Q s2 l vals2 x1 x2 -> is_u32 mask ->
  let b1 := negb (start =? s) && negb (Z.land value mask =? Z.land x1 mask) in
  let b2 := negb (end_ + 1 =? l) && negb (Z.land value mask =? Z.land x2 mask) in
  (b1 = true -> s < start < l0) /\ (b2 = true -> s2 < end_ + 1 < l) /\
  (if b1 then start else s) <= start /\ end_ < (if b2 then end_ + 1 else l) /\
  forall c vals', (if b1 then start else s) <= c < start \/ end_ < c < (if b2 then end_ + 1 else l) ->
    row_of (v pv) c = Some vals' -> upd_vals column (Z.land value mask) (u32 (Z.lnot mask)) vals' = vals'.
Proof.
  intros Hwf [Hp HQ _ _ Hs Hs2 [Hx1 _] [Hx2 _] _] Hm b1 b2. pose proof Hp as [Ha HA HS HB _].
  pose proof (ranges_length _ _ _ _ HA). pose proof (ranges_length _ _ _ _ HB).
  assert (v pv = (A ++ Q) ++ (s2 :: l :: vals2) :: B) as Ha2 by (by rewrite Ha, HQ, <- !app_assoc).
  assert (l0 <= l) as Hl0l.
  { destruct HS as (? & ? & [= <- <-] & _ & _ & HS'). pose proof (ranges_length _ _ _ _ HS'). zlia. }
  rewrite HQ in HS. apply ranges_app in HS as (s2' & HrQ & l' & vals2' & [= <- <- <-] & _).
  pose proof (ranges_length _ _ _ _ HrQ).
  assert (ranges (columns pv - 2) (A ++ Q) 0 s2) as HAQ by (apply ranges_app; eauto).
  assert (b1 = false -> start <> s -> Z.land value mask = Z.land x1 mask) as Hb1 by (subst b1; intros; bool_prop; lia).
  assert (b2 = false -> end_ + 1 <> l -> Z.land value mask = Z.land x2 mask) as Hb2 by (subst b2; intros; bool_prop; lia).
  split; [subst b1; intros; bool_prop; lia|]. split; [subst b2; intros; bool_prop; lia|].
  split; [destruct b1; lia|]. split; [destruct b2; lia|]. intros c vals' [Hc|Hc] Hrow.
  - destruct b1; [lia|]. cbn [app] in Ha. apply (partial_row pv s l0 vals A (S' ++ B) column value mask x1 c); auto; zlia.
  - destruct b2; [lia|]. apply (partial_row pv s2 l vals2 (A ++ Q) B column value mask x2 c); auto; zlia.
Qed.

(** The loop that writes the cells of the segment, and the vectors it leaves. *)
Lemma write_segment pv pv1 A S B s l start end_ column value mask m k :
  wf pv -> parts (columns pv - 2) HI (A ++ S ++ B) A S B s l ->
  pv1 = mkVectors (A ++ S ++ B) (columns pv) m (rows pv + k) (zlen A + zlen S - 1) (isCompacted pv) ->
  (forall c, row_of (A ++ S ++ B) c = row_of (v pv) c) ->
  zlen (A ++ S ++ B) = rows pv + k -> rows pv + k <= m ->
  (m = UPVEC_INITIAL_ROWS \/ m = UPVEC_MEDIUM_ROWS \/ m = UPVEC_MAX_ROWS) ->
  is_u32 value -> is_u32 mask -> 0 <= column < columns pv - 2 -> s <= start -> end_ < l ->
  (forall c vals, s <= c < start \/ end_ < c < l -> row_of (v pv) c = Some vals ->
     upd_vals column (Z.land value mask) (u32 (Z.lnot mask)) vals = vals) ->
  exists a, set_loop (Z.to_nat (zlen A + zlen S - 1 - zlen A + 1)) (v pv1) (zlen A) (zlen A + zlen S - 1) (column + 2)
      (Z.land value mask) (u32 (Z.lnot mask)) = Some a /\
    let pv' := set_rows pv1 a (maxRows pv1) (rows pv1) in
    wf pv' /\ columns pv' = columns pv /\
    forall c, 0 <= c < HI -> properties pv' c = spec_set start end_ column value mask c <$> properties pv c.
Proof.
  intros Hwf Hp -> Hrow Hlen Hm Hms Hv Hmask Hcol Hs Hl Hsame. pose proof Hp as [_ _ HS _ Hne].
  assert (S <> []) as HSne by (intros ->; simpl in HS; lia).
  assert (1 <= zlen S) as HS1 by (destruct S; [done|zlia]).
  eexists. split; [apply (set_loop_spec (columns pv - 2) column _ _ Hcol _ A S B s l); auto; lia|].
  destruct (wf_after pv A S B s l start end_ column value mask m k (zlen A + zlen S - 1)) as [Hwf' Hspec]; auto.
  { rewrite <- Hlen. zlia. }
Qed.

(** Setting a column of a range sets it for exactly the code points of the range, or
    reports that memory is exhausted and changes no property. *)
Lemma setValue_spec malloc pv start end_ column value mask :
  wf pv -> 0 <= start <= end_ -> end_ <= UPVEC_MAX_CP -> 0 <= column < columns pv - 2 ->
  is_u32 value -> is_u32 mask ->
  exists pv' err, upvec_setValue malloc (Some pv) start end_ column value mask U_ZERO_ERROR = Some (Some pv', err) /\
    wf pv' /\ columns pv' = columns pv /\
    ((err = U_ZERO_ERROR /\
      forall c, 0 <= c < HI -> properties pv' c = spec_set start end_ column value mask c <$> properties pv c) \/
     (err = U_MEMORY_ALLOCATION_ERROR /\ v pv' = v pv)).
Proof.
  intros Hwf Hse He Hcol Hv Hm. unfold upvec_setValue. change (U_FAILURE U_ZERO_ERROR) with false. cbn iota.
  rewrite !Z.gtb_ltb, !Z_ltb_false by lia. rewrite Z.geb_leb, Z_leb_false by lia. cbn [orb].
  rewrite (wf_open _ Hwf). cbv zeta.
  destruct (find_rows pv start end_ column Hwf Hse He Hcol)
    as (r1 & r2 & A & S' & B & s & l0 & vals & Q & s2 & l & vals2 & x1 & x2 & -> & Hf2 & Hf). mstep.
  rewrite Hf2. mstep. pose proof Hf as [Hp HQ Hr1 Hr2 _ _ [_ Hx1] [_ Hx2] [Hc1 Hc2]].
  cbn [set_prevRow v rows columns maxRows isCompacted prevRow].
  rewrite Hc1, Hx1, Hc2, Hx2. mstep.
  destruct (split_decisions pv start end_ column value mask _ _ _ _ _ _ _ _ _ _ _ _ _ _ Hwf Hf Hm) as (H1 & H2 & H3 & H4 & H5).
  set (b1 := negb (start =? s) && _) in *. set (b2 := negb (end_ + 1 =? l) && _) in *.
  clearbody b1 b2. pose proof (wf_rows _ Hwf) as [Hrows Hmax].
  destruct (split_rows_spec (columns pv - 2) HI start (end_ + 1) ltac:(unfold UPVEC_MAX_CP in *; lia)
    ltac:(unfold UPVEC_MAX_CP in *; lia) (v pv) A S' B s l0 vals Q s2 vals2 l r1 r2 b1 b2)
    as (A1 & S1 & B1 & Hsplit & Hp1 & Hlen & Hrow); auto; [lia|].
  pose proof Hp1 as [_ HA1 HS1 HB1 _]. pose proof (ranges_length _ _ _ _ HA1). pose proof (ranges_length _ _ _ _ HS1).
  pose proof (ranges_length _ _ _ _ HB1). pose proof (wf_max _ Hwf) as Hms.
  assert (wf (set_prevRow (set_prevRow pv r1) r2)) as Hwf2.
  { rewrite Hr1, Hr2. pose proof (parts_eq _ _ _ _ _ _ _ _ Hp) as Ha.
    apply wf_set_prevRow; [apply wf_set_prevRow; [done|]|cbn [rows set_prevRow]]; rewrite Hrows, Ha; zlia. }
  destruct (b1 || b2) eqn:Hb.
  - destruct (grow_spec malloc _ (rows pv + (Z.b2z b1 + Z.b2z b2)) Hwf2) as (pv1 & err & Hg & Hcase);
      [destruct b1, b2; simpl; lia|change UPVEC_MAX_ROWS with HI; zlia|]. rewrite Hg. mstep.
    destruct Hcase as [(-> & Hpv1 & Hn & _ & Hms1)|(-> & ->)].
    2:{ change (U_FAILURE U_MEMORY_ALLOCATION_ERROR) with true. cbn iota. mstep.
        change (U_FAILURE U_MEMORY_ALLOCATION_ERROR) with true. cbn iota. eexists _, _. split; [done|]. auto. }
    rewrite Hpv1. cbn [set_rows set_prevRow v rows maxRows columns prevRow isCompacted]. rewrite Hsplit. mstep.
    change (U_FAILURE U_ZERO_ERROR) with false. cbn iota. mstep. change (U_FAILURE U_ZERO_ERROR) with false. cbn iota.
    cbn [set_rows set_prevRow v rows maxRows columns prevRow isCompacted].
    destruct (write_segment pv _ A1 S1 B1 _ _ start end_ column value mask (maxRows pv1) (Z.b2z b1 + Z.b2z b2)
      Hwf Hp1 eq_refl) as (a & Hset & Hwf' & Hcol' & Hspec); auto; [zlia|]. cbn [v] in Hset.
    rewrite Hset. mstep. eexists _, _. split; [done|]. split; [apply Hwf'|]. split; [done|]. left. split; [done|apply Hspec].
  - apply orb_false_iff in Hb as [-> ->]. mstep. cbn [set_prevRow v rows maxRows columns prevRow isCompacted].
    pose proof (parts_eq _ _ _ _ _ _ _ _ Hp) as Ha. rewrite Ha in Hp.
    destruct (write_segment pv _ A ((s :: l0 :: vals) :: S') B _ _ start end_ column value mask (maxRows pv) 0
      Hwf Hp eq_refl) as (a & Hset & Hwf' & Hcol' & Hspec); auto; try (rewrite <- Ha; done || lia); [lia|].
    cbn [v] in Hset. rewrite Hr2, Hr1, Ha, Hset. mstep. rewrite Z.add_0_r in *.
    cbn [set_rows set_prevRow v rows maxRows columns prevRow isCompacted] in *.
    eexists _, _. split; [done|]. split; [apply Hwf'|]. split; [done|]. left. split; [done|apply Hspec].
Qed.

(** ** The interface *)
Lemma open_spec malloc n :
  1 <= n <= 479 -> malloc 24 = true -> malloc (UPVEC_INITIAL_ROWS * (n + 2) * 4) = true ->
  exists pv, upvec_open malloc n U_ZERO_ERROR = Some (Some pv, U_ZERO_ERROR) /\ wf pv /\ columns pv = n + 2 /\
    forall c, 0 <= c < HI -> properties pv c = Some (replicate (Z.to_nat n) 0).
Proof.
  intros Hn Hm1 Hm2. unfold upvec_open. change (U_FAILURE U_ZERO_ERROR) with false. cbn iota.
  rewrite Z_ltb_false by lia. rewrite chk32_ok by lia. mstep.
  change UPVEC_INITIAL_ROWS with 4096 in *. rewrite chk32_ok by lia. mstep. rewrite Hm1, Hm2. cbn [negb orb].
  replace (n + 2 - 2) with n by lia. change (Z.to_nat (UPVEC_MAX_CP + 1 - UPVEC_FIRST_SPECIAL_CP)) with 2%nat.
  cbn [special_rows]. replace (n + 2 - 2) with n by lia. eexists. split; [done|].
  assert (forall c, 0 <= c < HI -> row_of [0 :: 0x110000 :: replicate (Z.to_nat n) 0;
    UPVEC_FIRST_SPECIAL_CP :: UPVEC_FIRST_SPECIAL_CP + 1 :: replicate (Z.to_nat n) 0;
    UPVEC_FIRST_SPECIAL_CP + 1 :: UPVEC_FIRST_SPECIAL_CP + 1 + 1 :: replicate (Z.to_nat n) 0] c
    = Some (replicate (Z.to_nat n) 0)) as Hrow.
  { intros c Hc. cbn [row_of]. repeat if_cases; bool_prop; auto. unfold HI, UPVEC_MAX_CP, UPVEC_FIRST_SPECIAL_CP in *. lia. }
  assert (zlen (replicate (Z.to_nat n) 0) = n) as Hlen by (unfold zlen; rewrite length_replicate; lia).
  split; [|split; [done|exact Hrow]]. split; cbn [v columns rows maxRows prevRow isCompacted].
  - lia.
  - replace (n + 2 - 2) with n by lia. unfold UPVEC_FIRST_SPECIAL_CP. cbn [ranges]. eexists _, _. split; [done|]. split; [lia|]. split; [done|].
    eexists _, _. split; [done|]. split; [lia|]. split; [done|]. eexists _, _. split; [done|]. split; [lia|]. done.
  - done.
  - by left.
  - done.
  - done.
  - intros c vals Hc. rewrite Hrow by done. intros [= <-]. apply Forall_replicate. unfold is_u32. lia.
Qed.

Lemma getValue_spec pv c column vals :
  wf pv -> 0 <= c < HI -> 0 <= column < columns pv - 2 -> properties pv c = Some vals ->
  exists x pv', upvec_getValue pv c column = Some (x, pv') /\ vals.[column] = Some x /\ wf pv' /\ v pv' = v pv.
Proof.
  intros Hwf Hc Hcol Hvals. unfold upvec_getValue. rewrite (wf_open _ Hwf). rewrite !Z_ltb_false by lia.
  rewrite Z.gtb_ltb, Z_ltb_false by (unfold HI in *; lia). rewrite Z.geb_leb, Z_leb_false by lia. cbn [orb].
  destruct (findRow_wf pv c Hwf Hc) as (r & -> & Hr & Hi). mstep.
  destruct (in_row_split (columns pv - 2) (v pv) HI (wf_ranges _ Hwf) ltac:(unfold HI, UPVEC_MAX_CP; lia) r c Hr Hi)
    as (A & s & l & vals' & B & Ha & HA & Hs & Hv & HrA & _).
  destruct (row_value A s l vals' B r column) as (x & Hx & Hx'); [done|lia|].
  rewrite Ha, (Z.add_comm 2), Hx. mstep. exists x, (set_prevRow pv r). split; [done|]. split; [|split; [|done]].
  - unfold properties in Hvals. rewrite Ha, (row_of_at (columns pv - 2) A s l vals' B 0 c) in Hvals by done.
    by simplify_eq.
  - apply wf_set_prevRow; [done|]. by rewrite (proj1 (wf_rows _ Hwf)).
Qed.

(** A call of [upvec_setValue]. *)
Record call : Type := mkCall { c_start : Z; c_end : Z; c_column : Z; c_value : Z; c_mask : Z }.

Definition call_ok (n : Z) (k : call) : Prop :=
  0 <= c_start k <= c_end k /\ c_end k <= UPVEC_MAX_CP /\ 0 <= c_column k < n /\ is_u32 (c_value k) /\ is_u32 (c_mask k).

#[export] Instance call_ok_dec n k : Decision (call_ok n k).
Proof. unfold call_ok. apply _. Defined.

(** A sequence of calls that pass the error code along. *)
Fixpoint set_all (malloc : Z -> bool) (pv : option UPropsVectors) (ks : list call) (status : UErrorCode)
    : option (option UPropsVectors * UErrorCode) :=
  match ks with
  | [] => Some (pv, status)
  | k :: ks =>
      '(pv, status) ← upvec_setValue malloc pv (c_start k) (c_end k) (c_column k) (c_value k) (c_mask k) status;
      set_all malloc pv ks status
  end.

(** The value of one column of one code point after the calls. *)
Definition set_value (c column : Z) (x : Z) (k : call) : Z :=
  if decide (c_start k <= c <= c_end k /\ c_column k = column)
  then Z.lor (Z.land x (u32 (Z.lnot (c_mask k)))) (Z.land (c_value k) (c_mask k)) else x.

Lemma spec_set_value k c column vals x :
  vals.[column] = Some x -> 0 <= c_column k ->
  (spec_set (c_start k) (c_end k) (c_column k) (c_value k) (c_mask k) c vals).[column] = Some (set_value c column x k).
Proof.
  intros Hx Hk. apply zget_Some in Hx as [Hn Hx]. apply zget_Some. split; [done|]. unfold spec_set, set_value.
  destruct (decide (c_start k <= c <= c_end k)) as [Hc|Hc].
  - destruct (decide (c_column k = column)) as [->|Hne].
    + rewrite decide_True by done. by rewrite list_lookup_alter_eq, Hx.
    + rewrite decide_False by tauto. rewrite list_lookup_alter_ne; [done|lia].
  - by rewrite decide_False by tauto.
Qed.

Lemma set_all_failed malloc pv ks status :
  U_FAILURE status = true -> set_all malloc pv ks status = Some (pv, status).
Proof.
  intros Hs. induction ks as [|k ks IH]; [done|]. cbn [set_all]. unfold upvec_setValue. rewrite Hs. mstep. apply IH.
Qed.

Lemma set_all_spec malloc ks pv c column vals x :
  wf pv -> Forall (call_ok (columns pv - 2)) ks -> 0 <= c < HI -> properties pv c = Some vals -> vals.[column] = Some x ->
  exists pv' status, set_all malloc (Some pv) ks U_ZERO_ERROR = Some (Some pv', status) /\
    wf pv' /\ columns pv' = columns pv /\
    ((status = U_ZERO_ERROR /\
      exists vals', properties pv' c = Some vals' /\ vals'.[column] = Some (fold_left (set_value c column) ks x)) \/
     status = U_MEMORY_ALLOCATION_ERROR).
Proof.
  intros Hwf Hks. revert pv vals x Hwf Hks. induction ks as [|k ks IH]; intros pv vals x Hwf Hks Hc Hvals Hx.
  { exists pv, U_ZERO_ERROR. split; [done|]. eauto 10. }
  apply Forall_cons in Hks as [(Hse & He & Hcol & Hv & Hm) Hks]. cbn [set_all fold_left].
  destruct (setValue_spec malloc pv (c_start k) (c_end k) (c_column k) (c_value k) (c_mask k) Hwf Hse He Hcol Hv Hm)
    as (pv1 & err & -> & Hwf1 & Hcol1 & [[-> Hspec]|[-> _]]); mstep.
  - rewrite <- Hcol1 in Hks |- *. eapply IH; eauto; [by rewrite Hspec, Hvals by done|].
    apply spec_set_value; [done|lia].
  - exists pv1, U_MEMORY_ALLOCATION_ERROR. split; [by apply set_all_failed|]. auto.
Qed.

(** C26: On well-formed vectors, setting a column of a range of code points never runs
    out of the arrays, keeps the vectors well-formed, and either succeeds, and then
    the column has the masked value for exactly the code points of the range and
    every other value of every code point is as before, or reports
    that memory is exhausted, and then no row has changed. The internal program error
    for too many rows cannot happen. *)
Theorem upvec_setValue_refines (malloc : Z -> bool) (pv : UPropsVectors) (start end_ column value mask : Z) :
  wf pv -> 0 <= start <= end_ -> end_ <= UPVEC_MAX_CP -> 0 <= column < columns pv - 2 ->
  is_u32 value -> is_u32 mask ->
  exists pv' err, upvec_setValue malloc (Some pv) start end_ column value mask U_ZERO_ERROR = Some (Some pv', err) /\
    wf pv' /\
    ((err = U_ZERO_ERROR /\
      forall c, 0 <= c < HI -> properties pv' c = spec_set start end_ column value mask c <$> properties pv c) \/
     (err = U_MEMORY_ALLOCATION_ERROR /\ v pv' = v pv)).
Proof.
  intros Hwf Hse He Hcol Hv Hm.
  destruct (setValue_spec malloc pv start end_ column value mask Hwf Hse He Hcol Hv Hm)
    as (pv' & err & Heq & Hwf' & _ & Hcase). eauto.
Qed.

(** Vectors that have been opened with [n] columns and then set by any sequence of
    calls with valid arguments answer [upvec_getValue] with the value that those calls,
    taken in order, give to the code point and column, starting from zero; unless an
    allocation failed. *)
Theorem upvec_history (malloc : Z -> bool) (n : Z) (ks : list call) (c column : Z) :
  1 <= n <= 479 -> malloc 24 = true -> malloc (UPVEC_INITIAL_ROWS * (n + 2) * 4) = true ->
  Forall (call_ok n) ks -> 0 <= c <= UPVEC_MAX_CP -> 0 <= column < n ->
  exists pv pv' status,
    upvec_open malloc n U_ZERO_ERROR = Some (Some pv, U_ZERO_ERROR) /\
    set_all malloc (Some pv) ks U_ZERO_ERROR = Some (Some pv', status) /\
    (status = U_MEMORY_ALLOCATION_ERROR \/
     exists pv'', upvec_getValue pv' c column = Some (fold_left (set_value c column) ks 0, pv'')).
Proof.
  intros Hn Hm1 Hm2 Hks Hc Hcol. destruct (open_spec malloc n Hn Hm1 Hm2) as (pv & Hopen & Hwf & Hcols & Hzero).
  assert (0 <= c < HI) as HcH by (unfold HI; lia).
  destruct (set_all_spec malloc ks pv c column (replicate (Z.to_nat n) 0) 0 Hwf)
    as (pv' & status & Hset & Hwf' & Hcols' & Hcase); auto.
  { by replace (columns pv - 2) with n by lia. }
  { apply zget_Some. split; [lia|]. apply lookup_replicate. split; [done|lia]. }
  exists pv, pv', status. split; [done|]. split; [done|]. destruct Hcase as [(-> & vals & Hv & Hx)| ->]; [right|by left].
  destruct (getValue_spec pv' c column vals Hwf' HcH ltac:(lia) Hv) as (x & pv'' & Hget & Hx' & _). simplify_eq. eauto.
Qed.

(** ** A concrete instance: two columns *)
Definition sample : UPropsVectors :=
  mkVectors [[0; 0x110000; 0; 0]; [0x110000; 0x110001; 0; 0]; [0x110001; 0x110002; 0; 0]] 4 4096 3 0 false.

Lemma sample_vectors_wf : wf sample.
Proof.
  destruct (open_spec (fun _ => true) 2) as (pv & Hopen & Hwf & _); [lia|done|done|].
  assert (upvec_open (fun _ => true) 2 U_ZERO_ERROR = Some (Some sample, U_ZERO_ERROR)) as H by reflexivity. congruence.
Qed.

Lemma upvec_setValue_refines_witness :
  exists pv' err,
    upvec_setValue (fun _ => true) (Some sample) 0x41 0x5a 1 0xff05 0xff U_ZERO_ERROR = Some (Some pv', err) /\
    wf pv' /\
    ((err = U_ZERO_ERROR /\
      forall c, 0 <= c < HI -> properties pv' c = spec_set 0x41 0x5a 1 0xff05 0xff c <$> properties sample c) \/
     (err = U_MEMORY_ALLOCATION_ERROR /\ v pv' = v sample)).
Proof.
  apply upvec_setValue_refines.
  - apply sample_vectors_wf.
  - lia.
  - vm_compute. discriminate.
  - simpl. lia.
  - unfold is_u32. lia.
  - unfold is_u32. lia.
Defined.

Definition sample_calls : list call :=
  [mkCall 0x41 0x5a 0 1 0xff; mkCall 0x50 0x60 1 0x20 0xf0; mkCall 0x51 0x51 0 2 3].

Lemma upvec_history_witness :
  exists pv pv' status,
    upvec_open (fun _ => true) 2 U_ZERO_ERROR = Some (Some pv, U_ZERO_ERROR) /\
    set_all (fun _ => true) (Some pv) sample_calls U_ZERO_ERROR = Some (Some pv', status) /\
    (status = U_MEMORY_ALLOCATION_ERROR \/
     exists pv'', upvec_getValue pv' 0x51 0 = Some (fold_left (set_value 0x51 0) sample_calls 0, pv'')).
Proof.
  apply upvec_history.
  - lia.
  - done.
  - done.
  - apply (bool_decide_unpack _). vm_compute. exact I.
  - unfold UPVEC_MAX_CP. lia.
  - lia.
Defined.

(** The code, run on these calls. *)
Example sample_history :
  (set_all (fun _ => true) (Some sample) sample_calls U_ZERO_ERROR ≫= fun '(pv, _) =>
     pv ← pv; fst <$> upvec_getValue pv 0x51 0) = Some 2.
Proof. reflexivity. Qed.
