(* ===== verification/PropsVecCompact.v ===== *)
(** * PropsVecCompact: compaction keeps the values of every code point

    The two passes of [upvec_compact] over the sorted rows are related to one
    function on lists that drops adjacent duplicates. *)
From stdpp Require Import sorting.
From S2P Require Import Prelude UArrSort PropsVec PropsVecProps.
Local Open Scope Z_scope.

(** ** The order of the rows *)

(** Compare two rows cell by cell, in the order of the indexes. *)
Fixpoint compare_cells (js : list Z) (left right : list Z) : Z :=
  match js with
  | [] => 0
  | i :: js =>
      let x := default 0 left.[i] in
      let y := default 0 right.[i] in
      if negb (x =? y) then if x <? y then -1 else 1 else compare_cells js left right
  end.

Lemma compare_cells_app xs ys l r :
  compare_cells (xs ++ ys) l r = if compare_cells xs l r =? 0 then compare_cells ys l r else compare_cells xs l r.
Proof. induction xs as [|i xs IH]; [done|]. cbn [app compare_cells]. cbv zeta. by repeat if_cases. Qed.

#[export] Instance compare_cells_comparator js : Comparator (compare_cells js).
Proof.
  induction js as [|i js [IHs IHt]]; [by split|]. split.
  - intros x y. specialize (IHs x y). cbn [compare_cells]. cbv zeta. repeat if_cases; bool_prop; lia.
  - intros x y z. specialize (IHt x y z). cbn [compare_cells]. cbv zeta. repeat if_cases; bool_prop; lia.
Qed.

Lemma compareRows_loop_cells n columns i l r :
  Z.of_nat n <= columns - i ->
  forall k, compareRows_loop (n + k) columns i l r
  = if compare_cells (seqZ i (Z.of_nat n)) l r =? 0
    then compareRows_loop k columns (if (0 <? Z.of_nat n) && (i + Z.of_nat n =? columns) then 0 else i + Z.of_nat n) l r
    else compare_cells (seqZ i (Z.of_nat n)) l r.
Proof.
  revert i. induction n as [|n IH]; intros i Hn k.
  { simpl. by rewrite Z.add_0_r. }
  rewrite (seqZ_cons i) by lia. cbn [Nat.add compareRows_loop compare_cells]. cbv zeta.
  if_cases; [by if_cases|]. replace (Z.pred (Z.of_nat (S n))) with (Z.of_nat n) by lia.
  replace (Z.succ i) with (i + 1) by lia. rewrite (Z_ltb_true 0) by lia. cbn [andb].
  replace (i + Z.of_nat (S n)) with (i + 1 + Z.of_nat n) by lia.
  destruct n as [|n].
  - simpl. by rewrite Z.add_0_r.
  - rewrite (proj2 (Z.eqb_neq (i + 1) columns)) by lia. rewrite IH by lia. by rewrite (Z_ltb_true 0) by lia.
Qed.

Lemma compareRows_cells n l r :
  0 < n -> upvec_compareRows (n + 2) l r = compare_cells (seqZ 2 n ++ [0; 1]) l r.
Proof.
  intros Hn. unfold upvec_compareRows. replace (Z.to_nat (n + 2)) with (Z.to_nat n + 2)%nat by lia.
  rewrite compareRows_loop_cells by lia. rewrite Z2Nat.id, (Z_ltb_true 0) by lia. rewrite (Z.add_comm 2 n), Z.eqb_refl.
  rewrite compare_cells_app. cbn [andb compareRows_loop compare_cells]. cbv zeta.
  by rewrite (proj2 (Z.eqb_neq (0 + 1) (n + 2))) by lia.
Qed.

Lemma compareRows_comparator n : 0 < n -> Comparator (upvec_compareRows (n + 2)).
Proof.
  intros Hn. destruct (compare_cells_comparator (seqZ 2 n ++ [0; 1])) as [Hs Ht].
  split; intros; rewrite !compareRows_cells in * by done; eauto.
Qed.

(** Equal value columns are equal values. *)
Lemma compare_cells_eq js l r :
  compare_cells js l r = 0 -> Forall (fun i => default 0 l.[i] = default 0 r.[i]) js.
Proof.
  induction js as [|i js IH]; [constructor|]. cbn [compare_cells]. cbv zeta.
  repeat if_cases; bool_prop; [lia..|]. intros H. constructor; auto.
Qed.

Lemma value_cells n s l vals s' l' vals' :
  zlen vals = n -> zlen vals' = n ->
  compare_cells (seqZ 2 n) (s :: l :: vals) (s' :: l' :: vals') = 0 -> vals = vals'.
Proof.
  intros Hv Hv' H%compare_cells_eq. rewrite Forall_forall in H. apply list_eq. intros k.
  assert (forall a b (w : list Z), (a :: b :: w).[Z.of_nat (S (S k))] = w !! k) as Hget by (intros; by rewrite zget_nat).
  destruct (decide (Z.of_nat k < n)).
  - specialize (H (Z.of_nat (S (S k)))). rewrite !Hget in H. rewrite elem_of_seqZ in H. specialize (H ltac:(lia)).
    unfold zlen in *. destruct (lookup_lt_is_Some_2 vals k) as [x Hx]; [lia|].
    destruct (lookup_lt_is_Some_2 vals' k) as [x' Hx']; [lia|]. rewrite Hx, Hx' in *. simpl in H. by subst.
  - unfold zlen in *. rewrite !lookup_ge_None_2 by lia. done.
Qed.

(** Rows whose values are equal are adjacent in a sorted array. *)
Lemma sorted_between n s1 l1 v1 s2 l2 v2 s3 l3 :
  0 < n -> zlen v1 = n -> zlen v2 = n ->
  cmp_le (upvec_compareRows (n + 2)) (s1 :: l1 :: v1) (s2 :: l2 :: v2) ->
  cmp_le (upvec_compareRows (n + 2)) (s2 :: l2 :: v2) (s3 :: l3 :: v1) -> v1 = v2.
Proof.
  unfold cmp_le. intros Hn H1 H2. rewrite !compareRows_cells, !compare_cells_app by done. intros Ha Hb.
  apply (value_cells n s1 l1 v1 s2 l2 v2); [done..|].
  assert (forall a b c d, compare_cells (seqZ 2 n) (a :: b :: v1) (s2 :: l2 :: v2)
                          = compare_cells (seqZ 2 n) (c :: d :: v1) (s2 :: l2 :: v2)) as Hsame.
  { intros a b c d. assert (Forall (fun i => 2 <= i) (seqZ 2 n)) as Hi by (apply Forall_forall; intros i; rewrite elem_of_seqZ; lia).
    clear Ha Hb. induction Hi as [|i js Hi _ IH]; [done|]. cbn [compare_cells].
    replace ((a :: b :: v1).[i]) with ((c :: d :: v1).[i]).
    { by rewrite IH. }
    replace i with (Z.of_nat (S (S (Z.to_nat (i - 2))))) by lia. by rewrite !zget_nat. }
  pose proof (cmp_sym (cmp := compare_cells (seqZ 2 n)) (s3 :: l3 :: v1) (s2 :: l2 :: v2)) as Hs.
  rewrite (Hsame s3 l3 s1 l1) in Hs.
  destruct (compare_cells _ (s1 :: _) _ =? 0) eqn:E1, (compare_cells _ (s2 :: _) _ =? 0) eqn:E2; bool_prop; lia.
Qed.

(** ** The passes over the sorted rows *)
Definition vals_of (row : list Z) : list Z := drop 2 row.
Definition start_of (row : list Z) : Z := default 0 row.[0].
Definition limit_of (row : list Z) : Z := default 0 row.[1].

(** Add the values of a row unless they are the last ones. *)
Definition add_row (U : list (list Z)) (row : list Z) : list (list Z) :=
  if decide (last U = Some (vals_of row)) then U else U ++ [vals_of row].

(** A call of the handler: start, end, row index, row *)
Definition delivery : Type := Z * Z * Z * list Z.

(** The deliveries of one pass: the rows that [sel] selects, with the end of the range
    from [end_of], indexed by the last of the values collected so far. *)
Fixpoint deliveries (n : Z) (sel : list Z -> bool) (end_of : list Z -> Z) (U L : list (list Z)) : list delivery :=
  match L with
  | [] => []
  | row :: L =>
      let U := add_row U row in
      (if sel row then [(start_of row, end_of row, (zlen U - 1) * n, vals_of row)] else [])
      ++ deliveries n sel end_of U L
  end.

Definition special (row : list Z) : bool := start_of row >=? UPVEC_FIRST_SPECIAL_CP.
Definition real (row : list Z) : bool := start_of row <? UPVEC_FIRST_SPECIAL_CP.
Definition real_end (row : list Z) : Z := limit_of row - 1.

(** The handler that writes its calls down. *)
Definition record (context : list delivery) (start end_ rowIndex : Z) (row : list Z) (columns : Z) (err : UErrorCode)
    : list delivery * UErrorCode := (context ++ [(start, end_, rowIndex, row)], err).

Section passes.
Context (n : Z) (Hn : 0 < n).

Definition shaped (row : list Z) : Prop :=
  exists s l vals, row = s :: l :: vals /\ zlen vals = n /\ 0 <= s < 2 ^ 31 /\ 0 <= l < 2 ^ 31.

Lemma slice_at (X V Y : list Z) off k : off = zlen X -> k = zlen V -> slice (X ++ V ++ Y) off k = Some V.
Proof.
  intros -> ->. unfold slice. rewrite !Z_leb_true by zlia. cbn [andb]. f_equal.
  rewrite drop_zlen by done. by apply take_zlen.
Qed.

Lemma zlen_concat (P : list (list Z)) : Forall shaped P -> zlen (concat P) = zlen P * (n + 2).
Proof. induction 1 as [|row P (s & l & vals & -> & Hv & _) _ IH]; [done|]. cbn [concat]. zlia. Qed.

(** The cells of the row at offset [zlen X]. *)
Lemma read_row (X Y : list Z) s l vals :
  zlen vals = n -> 0 <= s < 2 ^ 31 -> 0 <= l < 2 ^ 31 ->
  let a := X ++ (s :: l :: vals) ++ Y in
  s32 <$> a.[zlen X] = Some s /\ s32 <$> a.[zlen X + 1] = Some l /\ slice a (zlen X + 2) n = Some vals.
Proof using.
  intros Hv Hs Hl a. unfold a. cbn [app]. split; [|split].
  - rewrite zget_middle by done. simpl. by rewrite s32_small.
  - rewrite (cons_middle s), app_assoc, zget_middle by zlia. simpl. by rewrite s32_small.
  - change (s :: l :: vals ++ Y) with ([s; l] ++ vals ++ Y). rewrite app_assoc. apply slice_at; zlia.
Qed.

(** What the values collected so far have to do with the rows they come from. *)
Definition collected (P U : list (list Z)) : Prop :=
  U = fold_left add_row P [] /\ Forall (fun u => zlen u = n) U /\
  (P = [] /\ U = [] \/ exists P' row, P = P' ++ [row] /\ last U = Some (vals_of row)).

Lemma collected_add P U row : collected P U -> shaped row -> collected (P ++ [row]) (add_row U row).
Proof using.
  intros (-> & HU & _) (s & l & vals & -> & Hv & _). split; [by rewrite fold_left_app|]. split.
  - unfold add_row. case_decide; [done|]. apply Forall_app. split; [done|]. by constructor.
  - right. exists P, (s :: l :: vals). split; [done|]. unfold add_row. case_decide; [done|]. apply last_snoc.
Qed.

(** The values of the row before offset [zlen X]. *)
Lemma read_prev P row Y :
  Forall shaped (P ++ [row]) -> slice (concat (P ++ [row]) ++ Y) (zlen (P ++ [row]) * (n + 2) - n) n = Some (vals_of row).
Proof using.
  intros HP. pose proof (zlen_concat _ HP) as Hz. apply Forall_app in HP as [HP (Hrow & _)%Forall_cons].
  destruct Hrow as (s & l & vals & -> & Hv & _). rewrite <- Hz. rewrite concat_app. cbn [concat]. rewrite app_nil_r.
  change (s :: l :: vals) with ([s; l] ++ vals). rewrite app_assoc, <- (app_assoc _ vals Y).
  clear Hz. apply (slice_at _ vals); zlia.
Qed.

(** The test for new values, and the number of values collected. *)
Lemma zlen_add_row P U row :
  collected P U -> (zlen (add_row U row) - 1) * n
  = if decide (last U = Some (vals_of row)) then (zlen U - 1) * n else (zlen U - 1) * n + n.
Proof using. intros _. unfold add_row. case_decide; zlia. Qed.

Lemma special_pass T P U ctx err :
  U_FAILURE err = false -> Forall shaped (P ++ T) -> collected P U ->
  special_loop record (n + 2) (length T) (concat (P ++ T)) (zlen P * (n + 2)) ((zlen U - 1) * n) ctx err
  = Some (zlen (P ++ T) * (n + 2), (zlen (fold_left add_row T U) - 1) * n,
          ctx ++ deliveries n special start_of U T, err).
Proof using Hn.
  intros He. revert P U ctx. induction T as [|row T IH]; intros P U ctx Hs HU.
  { simpl. by rewrite !app_nil_r. }
  pose proof Hs as [HP (Hrow & HT)%Forall_cons]%Forall_app. pose proof (collected_add P U row HU Hrow) as HU'.
  pose proof Hrow as (s & l & vals & -> & Hv & Hs0 & Hl).
  pose proof (zlen_concat P HP) as HzP. cbn [length special_loop fold_left deliveries]. cbv zeta.
  replace (n + 2 - 2) with n by lia.
  assert (concat (P ++ (s :: l :: vals) :: T) = concat P ++ (s :: l :: vals) ++ concat T) as Hcat by apply concat_app.
  destruct (read_row (concat P) (concat T) s l vals Hv Hs0 Hl) as (H0 & _ & H2).
  rewrite <- HzP, Hcat, H0. mstep. rewrite H2. mstep.
  assert (forall (k : Z -> option (Z * Z * list delivery * UErrorCode)),
    (if (zlen U - 1) * n <? 0 then Some ((zlen U - 1) * n + n)
     else prev ← slice (concat P ++ (s :: l :: vals) ++ concat T) (zlen (concat P) - n) n;
          Some (if decide (vals = prev) then (zlen U - 1) * n else (zlen U - 1) * n + n)) ≫= k
    = k ((zlen (add_row U (s :: l :: vals)) - 1) * n)) as Hcount.
  { intros k. rewrite (zlen_add_row P) by done. destruct HU as (_ & _ & [[-> ->]|(P' & row & -> & Hlast)]).
    - rewrite Z_ltb_true by zlia. by rewrite decide_False by done.
    - rewrite Z_ltb_false by (destruct U as [|u U]; [done|zlens; nia]). rewrite HzP, read_prev by done. mstep.
      rewrite Hlast. change (vals_of (s :: l :: vals)) with vals. f_equal.
      destruct (decide (vals = vals_of row)) as [->|]; [by rewrite decide_True|by rewrite decide_False by congruence]. }
  rewrite Hcount. rewrite <- Hcat.
  replace (zlen (concat P) + (n + 2)) with (zlen (P ++ [s :: l :: vals]) * (n + 2)) by zlia.
  rewrite (cons_middle _ P T) in Hs |- *. rewrite app_assoc in Hs |- *.
  change (start_of (s :: l :: vals)) with s. unfold special at 1. change (start_of (s :: l :: vals)) with s.
  destruct (s >=? UPVEC_FIRST_SPECIAL_CP).
  - cbn [record]. rewrite He. rewrite (IH _ _ _ Hs HU'). by rewrite <- (app_assoc ctx).
  - by rewrite (IH _ _ _ Hs HU').
Qed.

Lemma zlen_values (U : list (list Z)) : Forall (fun u => zlen u = n) U -> zlen (concat U) = zlen U * n.
Proof using. induction 1 as [|u U Hu _ IH]; [done|]. cbn [concat]. zlia. Qed.

Lemma read_last (U : list (list Z)) u Y :
  Forall (fun u => zlen u = n) U -> last U = Some u -> slice (concat U ++ Y) ((zlen U - 1) * n) n = Some u.
Proof using.
  intros HU (U0 & ->)%last_Some. apply Forall_app in HU as [HU (Hu & _)%Forall_cons].
  pose proof (zlen_values U0 HU) as Hz. rewrite concat_app. cbn [concat]. rewrite app_nil_r, <- app_assoc.
  apply slice_at; zlia.
Qed.

Lemma memmove_down {A} (X M V Y : list A) d f k :
  d = zlen X -> f = zlen (X ++ M) -> k = zlen V ->
  memmove (X ++ M ++ V ++ Y) d f k = Some (X ++ V ++ drop (length V) (M ++ V) ++ Y).
Proof using.
  intros -> -> ->. unfold memmove. rewrite !Z_leb_true by zlia. cbn [andb].
  rewrite take_zlen by done. rewrite (app_assoc X M), (drop_zlen (X ++ M)), (take_zlen V) by done. do 2 f_equal.
  rewrite <- app_assoc. replace (Z.to_nat (zlen X + zlen V)) with (length X + length V)%nat by (unfold zlen; lia).
  rewrite drop_app_add' by done. f_equal. rewrite (app_assoc M). rewrite drop_app_le; [done|]. rewrite length_app. lia.
Qed.

(** The move of new values to the front. *)
Lemma move_values U J s l vals T :
  Forall (fun u => zlen u = n) U -> zlen vals = n ->
  let U' := add_row U (s :: l :: vals) in
  let a := concat U ++ J ++ (s :: l :: vals) ++ concat T in
  let count := (zlen U - 1) * n in
  exists J', zlen (concat U' ++ J') = zlen (concat U ++ J) + (n + 2) /\
    (if decide (last U = Some vals) then Some (a, count)
     else a ← memmove a (count + n) (zlen (concat U ++ J) + 2) n; Some (a, count + n))
    = Some (concat U' ++ J' ++ concat T, (zlen U' - 1) * n).
Proof using.
  intros HU Hv U' a count. unfold U', a, count, add_row. change (vals_of (s :: l :: vals)) with vals.
  pose proof (zlen_values U HU) as Hz. case_decide.
  - exists (J ++ (s :: l :: vals)). split; [zlia|]. by rewrite <- !app_assoc.
  - replace (concat U ++ J ++ (s :: l :: vals) ++ concat T) with (concat U ++ (J ++ [s; l]) ++ vals ++ concat T)
      by (by rewrite <- !app_assoc).
    rewrite memmove_down by zlia. mstep. exists (drop (length vals) ((J ++ [s; l]) ++ vals)).
    assert (zlen (drop (length vals) ((J ++ [s; l]) ++ vals)) = zlen J + 2) as Hd
      by (unfold zlen; rewrite length_drop, !length_app; simpl; lia).
    rewrite concat_app. cbn [concat]. rewrite app_nil_r. split; [zlia|]. rewrite <- !app_assoc. do 2 f_equal. zlia.
Qed.

Lemma compact_pass T P U J ctx err :
  U_FAILURE err = false -> Forall shaped T -> collected P U ->
  exists J',
    compact_loop record (n + 2) (length T) (concat U ++ J ++ concat T) (zlen (concat U ++ J)) ((zlen U - 1) * n) ctx err
    = Some (concat (fold_left add_row T U) ++ J', (zlen (fold_left add_row T U) - 1) * n,
            ctx ++ deliveries n real real_end U T, err).
Proof using Hn.
  intros He. revert P U J ctx. induction T as [|row T IH]; intros P U J ctx HT HU.
  { exists J. simpl. by rewrite !app_nil_r. }
  apply Forall_cons in HT as [Hrow HT]. pose proof (collected_add P U row HU Hrow) as HU'.
  pose proof Hrow as (s & l & vals & -> & Hv & Hs0 & Hl). pose proof HU as (_ & HUn & Hlast).
  cbn [length compact_loop fold_left deliveries concat]. cbv zeta. replace (n + 2 - 2) with n by lia.
  destruct (read_row (concat U ++ J) (concat T) s l vals Hv Hs0 Hl) as (H0 & H1 & H2).
  rewrite <- app_assoc in H0, H1, H2. rewrite H0. mstep. rewrite H1. mstep. rewrite H2. mstep.
  assert ((if (zlen U - 1) * n <? 0 then Some false
           else current ← slice (concat U ++ J ++ (s :: l :: vals) ++ concat T) ((zlen U - 1) * n) n;
                Some (bool_decide (vals = current))) = Some (bool_decide (last U = Some vals))) as ->.
  { destruct Hlast as [[_ ->]|(P' & row & _ & Hlast)]; [by rewrite Z_ltb_true by zlia|].
    rewrite Z_ltb_false by (destruct U as [|u U]; [done|zlens; nia]). rewrite (read_last U _ _ HUn Hlast). mstep.
    rewrite Hlast. f_equal. apply bool_decide_ext. split; congruence. }
  mstep. destruct (move_values U J s l vals T HUn Hv) as (J1 & Hz1 & Hmove).
  set (mv := if (bool_decide (last U = Some vals) : bool) then _ else _).
  assert (mv = Some (concat (add_row U (s :: l :: vals)) ++ J1 ++ concat T, (zlen (add_row U (s :: l :: vals)) - 1) * n)) as ->.
  { subst mv. rewrite <- Hmove. by case_bool_decide; case_decide. }
  mstep. rewrite <- Hz1. clear H0 H1 H2 Hmove. cbn [start_of real real_end]. unfold real at 1, real_end at 1.
  change (start_of (s :: l :: vals)) with s. change (limit_of (s :: l :: vals)) with l.
  destruct (IH (P ++ [s :: l :: vals]) _ J1 (ctx ++ (if s <? UPVEC_FIRST_SPECIAL_CP
     then [(s, l - 1, (zlen (add_row U (s :: l :: vals)) - 1) * n, vals)] else [])) HT HU') as (J' & HJ').
  exists J'. rewrite <- app_assoc in HJ'. destruct (s <? UPVEC_FIRST_SPECIAL_CP).
  - rewrite (read_last _ vals) by (apply HU' || (unfold add_row; case_decide; [done|apply last_snoc])). mstep.
    cbn [record]. by rewrite He.
  - by rewrite app_nil_r in HJ'.
Qed.

(** ** The values that are collected *)
Lemma shaped_cell row : shaped row -> exists s l, row = s :: l :: vals_of row /\ zlen (vals_of row) = n.
Proof using. intros (s & l & vals & -> & Hv & _). by exists s, l. Qed.

Lemma collected_elem L u : u ∈ fold_left add_row L [] <-> exists row, row ∈ L /\ u = vals_of row.
Proof using.
  induction L as [|row L IH] using rev_ind.
  - split; [by intros ?%not_elem_of_nil|]. by intros (row & ?%not_elem_of_nil & _).
  - rewrite fold_left_app. cbn [fold_left]. setoid_rewrite elem_of_app. setoid_rewrite list_elem_of_singleton.
    assert (u ∈ add_row (fold_left add_row L []) row <-> u ∈ fold_left add_row L [] \/ u = vals_of row) as ->.
    { unfold add_row. case_decide as Hd; [|by rewrite elem_of_app, list_elem_of_singleton].
      split; [by left|]. intros [?| ->]; [done|]. apply last_Some in Hd as (U & ->).
      apply elem_of_app. right. by apply list_elem_of_singleton. }
    rewrite IH. split; [intros [(r & ? & ->)| ->]; eauto|intros (r & [?| ->] & ->); eauto].
Qed.

Lemma collected_all L : Forall shaped L -> collected L (fold_left add_row L []).
Proof using.
  induction L as [|row L IH] using rev_ind; intros HL.
  - split; [done|]. split; [constructor|by left].
  - apply Forall_app in HL as [HL (Hrow & _)%Forall_cons]. rewrite fold_left_app. by apply collected_add; auto.
Qed.

(** Sorted rows give each values vector once. *)
Lemma collected_nodup L :
  Forall shaped L -> StronglySorted (cmp_le (upvec_compareRows (n + 2))) L -> NoDup (fold_left add_row L []).
Proof using Hn.
  induction L as [|row L IH] using rev_ind; intros HL Hs; [constructor|].
  apply Forall_app in HL as [HL (Hrow & _)%Forall_cons]. apply StronglySorted_app in Hs as (Hs & HsL & _).
  rewrite fold_left_app. cbn [fold_left]. specialize (IH HL HsL). unfold add_row at 1. case_decide as Hd; [done|].
  apply NoDup_app. split; [done|]. split; [|apply NoDup_singleton]. intros u Hu ->%list_elem_of_singleton. apply Hd.
  apply collected_elem in Hu as (row0 & Hin & Heq).
  destruct (collected_all L HL) as (_ & _ & [[-> _]|(P & row1 & -> & Hlast)]); [by apply not_elem_of_nil in Hin|].
  rewrite Hlast. f_equal. apply elem_of_app in Hin as [Hin| ->%list_elem_of_singleton]; [|done].
  rewrite Forall_app, Forall_singleton in HL. destruct HL as [HP Hrow1]. rewrite Forall_forall in HP.
  destruct (shaped_cell row Hrow) as (s & l & Er & Hn1), (shaped_cell row1 Hrow1) as (s1 & l1 & Er1 & Hn2),
    (shaped_cell row0 (HP _ Hin)) as (s0 & l0 & Er0 & Hn3).
  symmetry. apply (sorted_between n s0 l0 (vals_of row) s1 l1 (vals_of row1) s l); auto.
  - rewrite Heq, <- Er0, <- Er1. apply StronglySorted_app in HsL as (H & _). apply H; [done|]. by apply list_elem_of_singleton.
  - rewrite <- Er1, <- Er. apply Hs; set_solver.
Qed.

(** The cell index of a values vector in the compacted array. *)
Definition index_of (U : list (list Z)) (u : list Z) : Z :=
  match list_find (eq u) U with Some (k, _) => Z.of_nat k * n | None => 0 end.

Lemma index_of_lookup U u k : NoDup U -> U !! k = Some u -> index_of U u = Z.of_nat k * n.
Proof using.
  intros HU Hk. unfold index_of. destruct (list_find (eq u) U) as [[j x]|] eqn:E.
  - apply list_find_Some in E as (Hj & -> & _). by rewrite (NoDup_lookup _ _ _ _ HU Hk Hj).
  - eapply list_find_None in E. rewrite Forall_forall in E. exfalso. apply (E u); [|done]. by eapply list_elem_of_lookup_2.
Qed.

Lemma fold_add_prefix L U : U `prefix_of` fold_left add_row L U.
Proof using.
  revert U. induction L as [|row L IH]; intros U; cbn [fold_left]; [done|].
  etrans; [|apply IH]. unfold add_row. case_decide; [done|]. by apply prefix_app_r.
Qed.

(** Every delivery has the index at which its row ends up. *)
Lemma deliveries_spec (sel : list Z -> bool) end_of L U :
  NoDup (fold_left add_row L U) ->
  deliveries n sel end_of U L
  = map (fun row => (start_of row, end_of row, index_of (fold_left add_row L U) (vals_of row), vals_of row)) (List.filter sel L).
Proof using.
  revert U. induction L as [|row L IH]; intros U HU; cbn [deliveries fold_left List.filter] in *; [done|].
  rewrite IH by done. destruct (sel row); [|done]. cbn [map app]. do 2 f_equal. f_equal.
  assert (add_row U row !! pred (length (add_row U row)) = Some (vals_of row)) as Hlast.
  { rewrite <- last_lookup. unfold add_row. case_decide; [done|apply last_snoc]. }
  pose proof (lookup_lt_Some _ _ _ Hlast). erewrite index_of_lookup; [|done|eapply prefix_lookup_Some; [done|apply fold_add_prefix]].
  unfold zlen. f_equal. lia.
Qed.
End passes.

(** ** Compaction *)
Lemma wf_shaped pv : wf pv -> Forall (shaped (columns pv - 2)) (v pv).
Proof.
  intros Hwf. pose proof (wf_ranges _ Hwf) as Hr. remember 0 as lo eqn:Hlo. assert (0 <= lo) as Hlo' by lia. clear Hlo.
  revert lo Hlo' Hr. generalize (v pv). induction l as [|row a IH]; intros lo Hlo Hr; [constructor|].
  destruct Hr as (l & vals & -> & Hl & Hv & Ha). pose proof (ranges_length _ _ _ _ Ha) as Hlen.
  constructor; [|apply (IH l); [lia|done]]. assert (HI < 2 ^ 31) by (unfold HI, UPVEC_MAX_CP; lia).
  exists lo, l, vals. split; [done|]. split; [done|]. split; zlia.
Qed.

(** The rows in terms of the code points. *)
Lemma row_properties pv u :
  wf pv -> (exists row, row ∈ v pv /\ u = vals_of row) <-> (exists c, 0 <= c < HI /\ properties pv c = Some u).
Proof.
  intros Hwf. pose proof (wf_ranges _ Hwf) as Hr. split.
  - intros (row & (k & Hk)%list_elem_of_lookup_1 & ->).
    destruct (ranges_split _ _ _ _ (Z.of_nat k) Hr) as (A & s & l & vals & B & Ha & HA & Hs & _ & HrA & HrB).
    { apply lookup_lt_Some in Hk. unfold zlen. lia. }
    pose proof (ranges_length _ _ _ _ HrA). pose proof (ranges_length _ _ _ _ HrB). exists s. split; [zlia|].
    unfold properties. rewrite Ha in Hk |- *. rewrite (row_of_at (columns pv - 2) _ _ _ _ _ 0) by (done || lia).
    rewrite lookup_app_r in Hk by (unfold zlen in HA; lia).
    replace (k - length A)%nat with 0%nat in Hk by (unfold zlen in HA; lia). by injection Hk as <-.
  - intros (c & Hc & Hu). unfold properties in Hu. revert Hu. generalize (v pv). induction l as [|row a IH]; [done|].
    cbn [row_of]. destruct row as [|s [|l vals]]; [done..|]. destruct (c <? l).
    + intros [= ->]. eexists. split; [by left|done].
    + intros (row & ? & ?)%IH. exists row. split; [by right|done].
Qed.

Lemma list_snoc_cases {A} (l : list A) : l = [] \/ exists l' x, l = l' ++ [x].
Proof. induction l using rev_ind; eauto. Qed.

Lemma filter_perm {A} (f : A -> bool) (l1 l2 : list A) : l2 ≡ₚ l1 -> List.filter f l1 ≡ₚ List.filter f l2.
Proof.
  induction 1 as [|x l1 l2 _ IH|x y l|]; cbn [List.filter]; [done|destruct (f x); by rewrite IH| |by etrans].
  destruct (f x), (f y); by constructor || done.
Qed.

(** C28: Compacting well-formed vectors succeeds when the memory for the sort is there:
    the array then starts with the different value vectors of the code points, each
    once, and is announced as having that many rows.
    The handler has been called for every row of the special code points first, then
    once with the length of the array, then for every row of the real code points, in
    each case with the range of the row, its values, and the index
    at which those values are in the array. *)
Theorem upvec_compact_correct (malloc : Z -> bool) (pv : UPropsVectors) :
  wf pv -> (forall k, malloc k = true) ->
  let n := columns pv - 2 in
  exists pv' U a J lastRow specials reals,
    upvec_compact malloc (Some record) [] pv U_ZERO_ERROR
    = Some (pv', specials ++ [(UPVEC_START_REAL_VALUES_CP, UPVEC_START_REAL_VALUES_CP, zlen U * n, lastRow)] ++ reals,
            U_ZERO_ERROR) /\
    upvec_getArray pv' = Some (a, zlen U, n) /\ a = concat U ++ J /\ NoDup U /\
    (forall u, u ∈ U <-> exists c, 0 <= c < HI /\ properties pv c = Some u) /\
    specials ≡ₚ map (fun row => (start_of row, start_of row, index_of n U (vals_of row), vals_of row))
                  (List.filter special (v pv)) /\
    reals ≡ₚ map (fun row => (start_of row, limit_of row - 1, index_of n U (vals_of row), vals_of row))
                  (List.filter real (v pv)).
Proof.
  intros Hwf Hm n. pose proof (wf_shaped pv Hwf) as Hshape. pose proof (wf_columns _ Hwf) as Hcol.
  pose proof (wf_rows _ Hwf) as [Hrows _]. assert (0 < n) as Hn by lia.
  assert (zlen (v pv) <= HI) as Hlen by (pose proof (ranges_length _ _ _ _ (wf_ranges _ Hwf)); lia).
  unfold upvec_compact. change (U_FAILURE U_ZERO_ERROR) with false. cbn iota. rewrite (wf_open _ Hwf). cbv zeta.
  fold n. rewrite Hrows. replace (columns pv) with (n + 2) by lia.
  destruct (sortArray_ok (upvec_compareRows (n + 2)) malloc (v pv) ((n + 2) * 4) false U_ZERO_ERROR)
    as (L & -> & Hperm & Hsort); [by apply compareRows_comparator|unfold HI, UPVEC_MAX_CP in *; lia|lia|done|by right|].
  mstep. change (U_FAILURE U_ZERO_ERROR) with false. cbn iota.
  assert (Forall (shaped n) L) as HL by (by rewrite <- Hperm).
  assert (Z.to_nat (zlen (v pv)) = length L) as -> by (rewrite <- (Permutation_length Hperm); unfold zlen; lia).
  assert (collected n [] []) as Hnil by (split; [done|]; split; [constructor|by left]).
  pose proof (special_pass n Hn L [] [] [] U_ZERO_ERROR eq_refl HL Hnil) as Hsp.
  cbn [app] in Hsp. change (zlen (@nil (list Z))) with 0 in Hsp. rewrite Z.mul_0_l in Hsp. replace ((0 - 1) * n) with (- n) in Hsp by lia.
  rewrite Hsp. mstep. change (U_FAILURE U_ZERO_ERROR) with false. cbn iota.
  set (U := fold_left add_row L []) in *.
  destruct (list_snoc_cases L) as [HL0|(L0 & row & HL0)].
  { exfalso. pose proof (wf_prev _ Hwf). rewrite HL0 in Hperm. apply Permutation_nil_r in Hperm. rewrite Hperm in *. zlia. }
  assert (slice (concat L) (zlen L * (n + 2) - n) n = Some (vals_of row)) as ->.
  { rewrite HL0 in HL |- *. rewrite <- (app_nil_r (concat _)). by apply read_prev. }
  mstep. cbn [record]. change (U_FAILURE U_ZERO_ERROR) with false. cbn iota.
  replace ((zlen U - 1) * n + n) with (zlen U * n) by lia.
  destruct (compact_pass n Hn L [] [] [] (deliveries n special start_of [] L ++
    [(UPVEC_START_REAL_VALUES_CP, UPVEC_START_REAL_VALUES_CP, zlen U * n, vals_of row)]) U_ZERO_ERROR eq_refl HL Hnil) as (J & Hcp).
  cbn [app concat] in Hcp. change (zlen (@nil (list Z))) with 0 in Hcp. change (zlen (@nil Z)) with 0 in Hcp. replace ((0 - 1) * n) with (- n) in Hcp by lia.
  rewrite Hcp. mstep. change (U_FAILURE U_ZERO_ERROR) with false. cbn iota. fold U.
  pose proof (collected_nodup n Hn L HL Hsort) as HU.
  eexists _, U, _, J, (vals_of row), _, _. split; [by rewrite <- app_assoc|]. unfold upvec_getArray. cbn [isCompacted negb v rows columns concat].
  rewrite app_nil_r. split; [rewrite Z.quot_mul by lia; do 2 f_equal; [f_equal; lia|lia]|]. split; [done|]. split; [done|].
  split; [intros u; subst U; rewrite collected_elem, <- row_properties by done; by setoid_rewrite Hperm|].
  rewrite !deliveries_spec by done. fold U. by split; apply Permutation_map, filter_perm.
Qed.

(** The vectors of the sample after one call, with one range of letters. *)
Definition letters : UPropsVectors :=
  mkVectors [[0; 0x41; 0; 0]; [0x41; 0x5b; 0; 5]; [0x5b; 0x110000; 0; 0]; [0x110000; 0x110001; 0; 0];
             [0x110001; 0x110002; 0; 0]] 4 4096 5 1 false.

Lemma letters_wf : wf letters.
Proof.
  destruct (setValue_spec (fun _ => true) sample 0x41 0x5a 1 0xff05 0xff) as (pv & err & Hset & Hwf & _);
    [apply sample_vectors_wf|lia|vm_compute; discriminate|simpl; lia|unfold is_u32; lia..|].
  assert (upvec_setValue (fun _ => true) (Some sample) 0x41 0x5a 1 0xff05 0xff U_ZERO_ERROR
          = Some (Some letters, U_ZERO_ERROR)) as H by (vm_compute; reflexivity). congruence.
Qed.

Lemma upvec_compact_correct_witness :
  exists pv' U a J lastRow specials reals,
    upvec_compact (fun _ => true) (Some record) [] letters U_ZERO_ERROR
    = Some (pv', specials ++ [(UPVEC_START_REAL_VALUES_CP, UPVEC_START_REAL_VALUES_CP, zlen U * (4 - 2), lastRow)] ++ reals,
            U_ZERO_ERROR) /\
    upvec_getArray pv' = Some (a, zlen U, 4 - 2) /\ a = concat U ++ J /\ NoDup U /\
    (forall u, u ∈ U <-> exists c, 0 <= c < HI /\ properties letters c = Some u) /\
    specials ≡ₚ map (fun row => (start_of row, start_of row, index_of (4 - 2) U (vals_of row), vals_of row))
                  (List.filter special (v letters)) /\
    reals ≡ₚ map (fun row => (start_of row, limit_of row - 1, index_of (4 - 2) U (vals_of row), vals_of row))
                  (List.filter real (v letters)).
Proof.
  apply (upvec_compact_correct (fun _ => true) letters).
  - apply letters_wf.
  - intros k. reflexivity.
Defined.

Example letters_compacted :
  upvec_compact (fun _ => true) (Some record) [] letters U_ZERO_ERROR ≫= (fun '(pv, _, _) =>
    '(a, rows, n) ← upvec_getArray pv; slice a 0 (rows * n)) = Some [0; 0; 0; 5].
Proof. vm_compute. reflexivity. Qed.
