(* ===== verification/UHash.v ===== *)
(** * UHash: the hash table (src/Source/icu/uhash.c, uhash.h, uelement.h)

  Open addressing with double hashing.  A [UHashTok] is the 32-bit word of the
  wasm32 build, whose pointers have 32 bits: [.pointer] is the word and
  [.integer] its signed reading.  A [UHashElement*] is an index into
  [elements]; NULL is [None] where a function returns one.

  Function pointers are words too (NULL is 0), so that the code can compare
  and replace them; what they compute is given by the section variables
  [hasher] and [equals].  Calling a deleter is recorded in a log of
  [(deleter, pointer)] pairs.  [malloc n] tells whether an allocation of [n]
  bytes succeeds; every operation that allocates takes its own oracle.

  [None] as the result of an operation is undefined behaviour: an access
  outside the table, a NULL element, a signed overflow. *)
From S2P Require Import Prelude CString.
Local Open Scope Z_scope.

Definition UHashTok : Type := Z.
Definition tok_integer (t : UHashTok) : Z := s32 t.
Definition tok_of_integer (i : Z) : UHashTok := u32 i.
Definition emptytok : UHashTok := 0.

Record UHashElement : Type := mkElement {
  e_hashcode : Z;
  e_value : UHashTok;
  e_key : UHashTok
}.

Definition sizeof_UHashElement : Z := 12.

(** A single-precision value [f_mant * 2 ^ f_exp]; only non-negative values
    with a 24-bit significand occur. *)
Record float32 : Type := mkFloat { f_mant : Z; f_exp : Z }.

Record UHashtable : Type := mkTable {
  elements : option (list UHashElement);
  keyHasher : Z;
  keyComparator : Z;
  valueComparator : Z;
  keyDeleter : Z;
  valueDeleter : Z;
  count : Z;
  length : Z;
  highWaterMark : Z;
  lowWaterMark : Z;
  highWaterRatio : float32;
  lowWaterRatio : float32;
  primeIndex : Z;
  allocated : bool
}.

Inductive UHashResizePolicy : Type := U_GROW | U_GROW_AND_SHRINK | U_FIXED.

Definition deleter_call : Type := (Z * Z)%type.

(** ** Constants *)
Definition PRIMES : list Z :=
  [13; 31; 61; 127; 251; 509; 1021; 2039; 4093; 8191; 16381; 32749;
   65521; 131071; 262139; 524287; 1048573; 2097143; 4194301; 8388593;
   16777213; 33554393; 67108859; 134217689; 268435399; 536870909;
   1073741789; 2147483647].
Definition PRIMES_LENGTH : Z := 28.
Definition DEFAULT_PRIME_INDEX : Z := 3.

(** 0.1F is the single-precision number nearest to one tenth. *)
Definition RESIZE_POLICY_RATIO (policy : UHashResizePolicy) : float32 * float32 :=
  match policy with
  | U_GROW => (mkFloat 0 0, mkFloat 1 (-1))
  | U_GROW_AND_SHRINK => (mkFloat 13421773 (-27), mkFloat 1 (-1))
  | U_FIXED => (mkFloat 0 0, mkFloat 1 0)
  end.

Definition HASH_DELETED : Z := - 2 ^ 31.
Definition HASH_EMPTY : Z := HASH_DELETED + 1.
Definition IS_EMPTY_OR_DELETED (x : Z) : bool := x <? 0.

Definition HINT_KEY_POINTER : Z := 1.
Definition HINT_VALUE_POINTER : Z := 2.
Definition UHASH_FIRST : Z := -1.

(** ** Single-precision arithmetic of the water marks *)

(** Round [m * 2 ^ e] to 24 significant bits, to nearest, ties to even. *)
Definition round24 (m e : Z) : float32 :=
  if m <? 2 ^ 24 then mkFloat m e
  else
    let s := Z.log2 m - 23 in
    let q := m / 2 ^ s in
    let r := m mod 2 ^ s in
    let half := 2 ^ (s - 1) in
    let up := (half <? r) || ((r =? half) && Z.odd q) in
    mkFloat (if up then q + 1 else q) (e + s).

(** [(int32_t)(length * ratio)]: the integer is converted to float, the product
    rounded to float, the result truncated; out of range is undefined. *)
Definition waterMark (length : Z) (ratio : float32) : option Z :=
  let l := round24 length 0 in
  let p := round24 (f_mant l * f_mant ratio) (f_exp l + f_exp ratio) in
  chk32 (if 0 <=? f_exp p then f_mant p * 2 ^ f_exp p else f_mant p / 2 ^ (- f_exp p)).

(** ** Field updates *)
Definition set_elements (h : UHashtable) (es : option (list UHashElement)) : UHashtable :=
  mkTable es (keyHasher h) (keyComparator h) (valueComparator h) (keyDeleter h)
    (valueDeleter h) (count h) (length h) (highWaterMark h) (lowWaterMark h)
    (highWaterRatio h) (lowWaterRatio h) (primeIndex h) (allocated h).
Definition set_count (h : UHashtable) (n : Z) : UHashtable :=
  mkTable (elements h) (keyHasher h) (keyComparator h) (valueComparator h) (keyDeleter h)
    (valueDeleter h) n (length h) (highWaterMark h) (lowWaterMark h)
    (highWaterRatio h) (lowWaterRatio h) (primeIndex h) (allocated h).
Definition set_length (h : UHashtable) (n : Z) : UHashtable :=
  mkTable (elements h) (keyHasher h) (keyComparator h) (valueComparator h) (keyDeleter h)
    (valueDeleter h) (count h) n (highWaterMark h) (lowWaterMark h)
    (highWaterRatio h) (lowWaterRatio h) (primeIndex h) (allocated h).
Definition set_primeIndex (h : UHashtable) (n : Z) : UHashtable :=
  mkTable (elements h) (keyHasher h) (keyComparator h) (valueComparator h) (keyDeleter h)
    (valueDeleter h) (count h) (length h) (highWaterMark h) (lowWaterMark h)
    (highWaterRatio h) (lowWaterRatio h) n (allocated h).
Definition set_waterMarks (h : UHashtable) (low high : Z) : UHashtable :=
  mkTable (elements h) (keyHasher h) (keyComparator h) (valueComparator h) (keyDeleter h)
    (valueDeleter h) (count h) (length h) high low
    (highWaterRatio h) (lowWaterRatio h) (primeIndex h) (allocated h).
Definition set_ratios (h : UHashtable) (low high : float32) : UHashtable :=
  mkTable (elements h) (keyHasher h) (keyComparator h) (valueComparator h) (keyDeleter h)
    (valueDeleter h) (count h) (length h) (highWaterMark h) (lowWaterMark h)
    high low (primeIndex h) (allocated h).
Definition set_functions (h : UHashtable) (kh kc vc kd vd : Z) : UHashtable :=
  mkTable (elements h) kh kc vc kd vd (count h) (length h) (highWaterMark h) (lowWaterMark h)
    (highWaterRatio h) (lowWaterRatio h) (primeIndex h) (allocated h).
Definition set_allocated (h : UHashtable) (b : bool) : UHashtable :=
  mkTable (elements h) (keyHasher h) (keyComparator h) (valueComparator h) (keyDeleter h)
    (valueDeleter h) (count h) (length h) (highWaterMark h) (lowWaterMark h)
    (highWaterRatio h) (lowWaterRatio h) (primeIndex h) b.

Definition set_element (h : UHashtable) (i : Z) (e : UHashElement) : option UHashtable :=
  es ← elements h;
  es' ← zset es i e;
  Some (set_elements h (Some es')).

Definition get_element (h : UHashtable) (i : Z) : option UHashElement :=
  es ← elements h; es.[i].

(** ** Deleters *)
Definition call_deleter (fn ptr : Z) : list deleter_call :=
  if negb (fn =? 0) && negb (ptr =? 0) then [(fn, ptr)] else [].

Definition HASH_DELETE_KEY_VALUE (h : UHashtable) (key value : UHashTok) : list deleter_call :=
  call_deleter (keyDeleter h) key ++ call_deleter (valueDeleter h) value.

(** ** Private implementation *)

(** The [hint] only chooses between copying the union and its pointer member,
    which are the same 32 bits. *)
Definition _uhash_setElement (h : UHashtable) (i : Z) (hashcode : Z)
    (key value : UHashTok) (hint : Z) : option (UHashTok * UHashtable * list deleter_call) :=
  e ← get_element h i;
  let oldValue := e_value e in
  let log1 :=
    if negb (keyDeleter h =? 0) && negb (e_key e =? 0) && negb (e_key e =? key)
    then [(keyDeleter h, e_key e)] else [] in
  let log2 :=
    if negb (valueDeleter h =? 0) && (negb (oldValue =? 0) && negb (oldValue =? value))
    then [(valueDeleter h, oldValue)] else [] in
  let oldValue := if negb (valueDeleter h =? 0) then 0 else oldValue in
  h ← set_element h i (mkElement hashcode value key);
  Some (oldValue, h, log1 ++ log2).

Definition _uhash_internalRemoveElement (h : UHashtable) (i : Z)
    : option (UHashTok * UHashtable * list deleter_call) :=
  _uhash_setElement (set_count h (count h - 1)) i HASH_DELETED emptytok emptytok 0.

Definition _uhash_internalSetResizePolicy (h : UHashtable) (policy : UHashResizePolicy)
    : UHashtable :=
  let '(low, high) := RESIZE_POLICY_RATIO policy in set_ratios h low high.

(** The size of the array is computed in the 32-bit [size_t]; when it wraps
    around, the initialisation loop leaves the block. *)
Definition _uhash_allocate (malloc : Z -> bool) (h : UHashtable) (primeIndex : Z)
    (status : UErrorCode) : option (UHashtable * UErrorCode) :=
  if U_FAILURE status then Some (h, status)
  else
    let h := set_primeIndex h primeIndex in
    len ← PRIMES.[primeIndex];
    let h := set_length h len in
    let size := u32 (sizeof_UHashElement * len) in
    if negb (malloc size) then Some (set_elements h None, U_MEMORY_ALLOCATION_ERROR)
    else if size <? sizeof_UHashElement * len then None
    else
      let h := set_elements h
        (Some (replicate (Z.to_nat len) (mkElement HASH_EMPTY emptytok emptytok))) in
      let h := set_count h 0 in
      low ← waterMark len (lowWaterRatio h);
      high ← waterMark len (highWaterRatio h);
      Some (set_waterMarks h low high, status).

Definition _uhash_init (malloc : Z -> bool) (result : UHashtable)
    (keyHash keyComp valueComp primeIndex : Z) (status : UErrorCode)
    : option (bool * UHashtable * UErrorCode) :=
  if U_FAILURE status then Some (false, result, status)
  else
    let result := set_allocated (set_functions result keyHash keyComp valueComp 0 0) false in
    let result := _uhash_internalSetResizePolicy result U_GROW in
    '(result, status) ← _uhash_allocate malloc result primeIndex status;
    Some (negb (U_FAILURE status), result, status).

(** The uninitialised contents of a fresh [UHashtable]. *)
Definition raw_table : UHashtable :=
  mkTable None 0 0 0 0 0 0 0 0 0 (mkFloat 0 0) (mkFloat 0 0) 0 false.

Definition sizeof_UHashtable : Z := 52.

Definition _uhash_create (malloc : Z -> bool) (keyHash keyComp valueComp primeIndex : Z)
    (status : UErrorCode) : option (option UHashtable * UErrorCode) :=
  if U_FAILURE status then Some (None, status)
  else if negb (malloc sizeof_UHashtable) then Some (None, U_MEMORY_ALLOCATION_ERROR)
  else
    '(_, result, status) ←
       _uhash_init malloc raw_table keyHash keyComp valueComp primeIndex status;
    let result := set_allocated result true in
    if U_FAILURE status then Some (None, status) else Some (Some result, status).

Section table.
Context (hasher : Z -> UHashTok -> Z) (equals : Z -> UHashTok -> UHashTok -> bool).

Fixpoint find_loop (fuel : nat) (h : UHashtable) (es : list UHashElement) (key : UHashTok)
    (hashcode startIndex theIndex firstDeleted jump : Z) : option (option Z) :=
  match fuel with
  | O => None
  | S fuel =>
      e ← es.[theIndex];
      let tableHash := e_hashcode e in
      if (tableHash =? hashcode) && equals (keyComparator h) key (e_key e)
      then Some (Some theIndex)
      else if negb (tableHash =? hashcode) && (tableHash =? HASH_EMPTY)
      then Some (Some (if 0 <=? firstDeleted then firstDeleted else theIndex))
      else
        let firstDeleted :=
          if negb (tableHash =? hashcode) && IS_EMPTY_OR_DELETED tableHash && (firstDeleted <? 0)
          then theIndex else firstDeleted in
        let jump := if jump =? 0 then Z.rem hashcode (length h - 1) + 1 else jump in
        next ← chk32 (theIndex + jump);
        let theIndex := Z.rem next (length h) in
        if theIndex =? startIndex
        then Some (if 0 <=? firstDeleted then Some firstDeleted
                   else if negb (tableHash =? HASH_EMPTY) then None else Some theIndex)
        else find_loop fuel h es key hashcode startIndex theIndex firstDeleted jump
  end.

Definition _uhash_find (h : UHashtable) (key : UHashTok) (hashcode : Z) : option (option Z) :=
  es ← elements h;
  let hashcode := Z.land hashcode 0x7FFFFFFF in
  let startIndex := Z.rem (Z.lxor hashcode 0x4000000) (length h) in
  find_loop (Z.to_nat (length h)) h es key hashcode startIndex startIndex (-1) 0.

(** The loop of [_uhash_rehash] over the old array, from its end. *)
Fixpoint rehash_loop (h : UHashtable) (olds : list UHashElement) : option UHashtable :=
  match olds with
  | [] => Some h
  | old :: olds =>
      if negb (IS_EMPTY_OR_DELETED (e_hashcode old)) then
        r ← _uhash_find h (e_key old) (e_hashcode old);
        i ← r;
        h ← set_element h i (mkElement (e_hashcode old) (e_value old) (e_key old));
        rehash_loop (set_count h (count h + 1)) olds
      else rehash_loop h olds
  end.

Definition _uhash_rehash (malloc : Z -> bool) (h : UHashtable) (status : UErrorCode)
    : option (UHashtable * UErrorCode) :=
  let old := elements h in
  let oldLength := length h in
  let go newPrimeIndex :=
    '(h, status) ← _uhash_allocate malloc h newPrimeIndex status;
    if U_FAILURE status
    then Some (set_length (set_elements h old) oldLength, status)
    else
      es ← old;
      h ← rehash_loop h (reverse (take (Z.to_nat oldLength) es));
      Some (h, status) in
  if count h >? highWaterMark h then
    if primeIndex h + 1 >=? PRIMES_LENGTH then Some (h, status) else go (primeIndex h + 1)
  else if count h <? lowWaterMark h then
    if primeIndex h - 1 <? 0 then Some (h, status) else go (primeIndex h - 1)
  else Some (h, status).

Definition _uhash_remove (malloc : Z -> bool) (h : UHashtable) (key : UHashTok)
    : option (UHashTok * UHashtable * list deleter_call) :=
  r ← _uhash_find h key (hasher (keyHasher h) key);
  i ← r;
  e ← get_element h i;
  if negb (IS_EMPTY_OR_DELETED (e_hashcode e)) then
    '(result, h, log) ← _uhash_internalRemoveElement h i;
    if count h <? lowWaterMark h then
      '(h, _) ← _uhash_rehash malloc h U_ZERO_ERROR;
      Some (result, h, log)
    else Some (result, h, log)
  else Some (emptytok, h, []).

(** [_uhash_put] from its search on: the table has been grown if necessary. *)
Definition _uhash_put_entry (h : UHashtable) (key value : UHashTok) (hint : Z)
    (status : UErrorCode) : option (UHashTok * UHashtable * UErrorCode * list deleter_call) :=
  let hashcode := hasher (keyHasher h) key in
  r ← _uhash_find h key hashcode;
  i ← r;
  e ← get_element h i;
  let isnew := IS_EMPTY_OR_DELETED (e_hashcode e) in
  if isnew && (count h + 1 =? length h)
  then Some (emptytok, h, U_MEMORY_ALLOCATION_ERROR, HASH_DELETE_KEY_VALUE h key value)
  else
    let h := if isnew then set_count h (count h + 1) else h in
    '(result, h, log) ← _uhash_setElement h i (Z.land hashcode 0x7FFFFFFF) key value hint;
    Some (result, h, status, log).

Definition _uhash_put (malloc : Z -> bool) (h : UHashtable) (key value : UHashTok) (hint : Z)
    (status : UErrorCode) : option (UHashTok * UHashtable * UErrorCode * list deleter_call) :=
  if U_FAILURE status then Some (emptytok, h, status, HASH_DELETE_KEY_VALUE h key value)
  else if negb (Z.land hint HINT_VALUE_POINTER =? 0) && (value =? 0) then
    '(result, h, log) ← _uhash_remove malloc h key;
    Some (result, h, status, log)
  else
    '(h, status) ←
      (if count h >? highWaterMark h then _uhash_rehash malloc h status else Some (h, status));
    if U_FAILURE status then Some (emptytok, h, status, HASH_DELETE_KEY_VALUE h key value)
    else _uhash_put_entry h key value hint status.

(** ** Public API: the functions that use the callbacks *)
Definition uhash_get (h : UHashtable) (key : UHashTok) : option Z :=
  r ← _uhash_find h key (hasher (keyHasher h) key);
  i ← r;
  e ← get_element h i;
  Some (e_value e).

Definition uhash_iget (h : UHashtable) (key : Z) : option Z :=
  uhash_get h (tok_of_integer key).

Definition uhash_geti (h : UHashtable) (key : UHashTok) : option Z :=
  r ← _uhash_find h key (hasher (keyHasher h) key);
  i ← r;
  e ← get_element h i;
  Some (tok_integer (e_value e)).

Definition uhash_igeti (h : UHashtable) (key : Z) : option Z :=
  uhash_geti h (tok_of_integer key).

Definition uhash_put (malloc : Z -> bool) (h : UHashtable) (key value : Z) (status : UErrorCode)
    : option (Z * UHashtable * UErrorCode * list deleter_call) :=
  _uhash_put malloc h key value (Z.lor HINT_KEY_POINTER HINT_VALUE_POINTER) status.

Definition uhash_iput (malloc : Z -> bool) (h : UHashtable) (key value : Z) (status : UErrorCode)
    : option (Z * UHashtable * UErrorCode * list deleter_call) :=
  _uhash_put malloc h (tok_of_integer key) value HINT_VALUE_POINTER status.

Definition uhash_puti (malloc : Z -> bool) (h : UHashtable) (key value : Z) (status : UErrorCode)
    : option (Z * UHashtable * UErrorCode * list deleter_call) :=
  '(r, h, status, log) ←
    _uhash_put malloc h key (tok_of_integer value) HINT_KEY_POINTER status;
  Some (tok_integer r, h, status, log).

Definition uhash_iputi (malloc : Z -> bool) (h : UHashtable) (key value : Z) (status : UErrorCode)
    : option (Z * UHashtable * UErrorCode * list deleter_call) :=
  '(r, h, status, log) ←
    _uhash_put malloc h (tok_of_integer key) (tok_of_integer value) 0 status;
  Some (tok_integer r, h, status, log).

Definition uhash_remove (malloc : Z -> bool) (h : UHashtable) (key : Z)
    : option (Z * UHashtable * list deleter_call) :=
  _uhash_remove malloc h key.

Definition uhash_iremove (malloc : Z -> bool) (h : UHashtable) (key : Z)
    : option (Z * UHashtable * list deleter_call) :=
  _uhash_remove malloc h (tok_of_integer key).

Definition uhash_removei (malloc : Z -> bool) (h : UHashtable) (key : Z)
    : option (Z * UHashtable * list deleter_call) :=
  '(r, h, log) ← _uhash_remove malloc h key; Some (tok_integer r, h, log).

Definition uhash_iremovei (malloc : Z -> bool) (h : UHashtable) (key : Z)
    : option (Z * UHashtable * list deleter_call) :=
  '(r, h, log) ← _uhash_remove malloc h (tok_of_integer key); Some (tok_integer r, h, log).

Definition uhash_setResizePolicy (malloc : Z -> bool) (h : UHashtable)
    (policy : UHashResizePolicy) : option UHashtable :=
  let h := _uhash_internalSetResizePolicy h policy in
  low ← waterMark (length h) (lowWaterRatio h);
  high ← waterMark (length h) (highWaterRatio h);
  '(h, _) ← _uhash_rehash malloc (set_waterMarks h low high) U_ZERO_ERROR;
  Some h.

Definition uhash_find (h : UHashtable) (key : UHashTok) : option (option Z) :=
  r ← _uhash_find h key (hasher (keyHasher h) key);
  i ← r;
  e ← get_element h i;
  Some (if IS_EMPTY_OR_DELETED (e_hashcode e) then None else Some i).
End table.

(** ** Public API: creation, traversal, bulk removal *)
Definition uhash_open (malloc : Z -> bool) (keyHash keyComp valueComp : Z) (status : UErrorCode)
    : option (option UHashtable * UErrorCode) :=
  _uhash_create malloc keyHash keyComp valueComp DEFAULT_PRIME_INDEX status.

(** The smallest index whose prime is at least [size], or the last index. *)
Fixpoint openSize_loop (primes : list Z) (i size : Z) : Z :=
  match primes with
  | p :: primes => if (i <? PRIMES_LENGTH - 1) && (p <? size) then openSize_loop primes (i + 1) size else i
  | [] => i
  end.

Definition uhash_openSize (malloc : Z -> bool) (keyHash keyComp valueComp size : Z)
    (status : UErrorCode) : option (option UHashtable * UErrorCode) :=
  _uhash_create malloc keyHash keyComp valueComp (openSize_loop PRIMES 0 size) status.

Definition uhash_init (malloc : Z -> bool) (fillinResult : UHashtable)
    (keyHash keyComp valueComp : Z) (status : UErrorCode)
    : option (bool * UHashtable * UErrorCode) :=
  _uhash_init malloc fillinResult keyHash keyComp valueComp DEFAULT_PRIME_INDEX status.

Definition uhash_setKeyHasher (h : UHashtable) (fn : Z) : Z * UHashtable :=
  (keyHasher h, set_functions h fn (keyComparator h) (valueComparator h) (keyDeleter h) (valueDeleter h)).
Definition uhash_setKeyComparator (h : UHashtable) (fn : Z) : Z * UHashtable :=
  (keyComparator h, set_functions h (keyHasher h) fn (valueComparator h) (keyDeleter h) (valueDeleter h)).
Definition uhash_setValueComparator (h : UHashtable) (fn : Z) : Z * UHashtable :=
  (valueComparator h, set_functions h (keyHasher h) (keyComparator h) fn (keyDeleter h) (valueDeleter h)).
Definition uhash_setKeyDeleter (h : UHashtable) (fn : Z) : Z * UHashtable :=
  (keyDeleter h, set_functions h (keyHasher h) (keyComparator h) (valueComparator h) fn (valueDeleter h)).
Definition uhash_setValueDeleter (h : UHashtable) (fn : Z) : Z * UHashtable :=
  (valueDeleter h, set_functions h (keyHasher h) (keyComparator h) (valueComparator h) (keyDeleter h) fn).

Definition uhash_count (h : UHashtable) : Z := count h.

(** [None] inside: no more elements; otherwise the index, which is also the new
    [*pos].  The loop runs over the indices from [i] on. *)
Fixpoint nextElement_loop (fuel : nat) (h : UHashtable) (i : Z) : option (option Z) :=
  if i <? length h then
    match fuel with
    | O => None
    | S fuel =>
        e ← get_element h i;
        if negb (IS_EMPTY_OR_DELETED (e_hashcode e)) then Some (Some i)
        else nextElement_loop fuel h (i + 1)
    end
  else Some None.

Definition uhash_nextElement (h : UHashtable) (pos : Z) : option (option Z) :=
  nextElement_loop (Z.to_nat (length h - (pos + 1))) h (pos + 1).

Definition uhash_removeElement (h : UHashtable) (i : Z)
    : option (UHashTok * UHashtable * list deleter_call) :=
  e ← get_element h i;
  if negb (IS_EMPTY_OR_DELETED (e_hashcode e)) then _uhash_internalRemoveElement h i
  else Some (emptytok, h, []).

Fixpoint removeAll_loop (fuel : nat) (h : UHashtable) (pos : Z)
    : option (UHashtable * list deleter_call) :=
  match fuel with
  | O => None
  | S fuel =>
      r ← uhash_nextElement h pos;
      match r with
      | None => Some (h, [])
      | Some i =>
          '(_, h, log1) ← uhash_removeElement h i;
          '(h, log2) ← removeAll_loop fuel h i;
          Some (h, log1 ++ log2)
      end
  end.

Definition uhash_removeAll (h : UHashtable) : option (UHashtable * list deleter_call) :=
  if negb (count h =? 0) then removeAll_loop (S (Z.to_nat (length h))) h UHASH_FIRST
  else Some (h, []).

Fixpoint close_loop (fuel : nat) (h : UHashtable) (pos : Z) : option (list deleter_call) :=
  match fuel with
  | O => None
  | S fuel =>
      r ← uhash_nextElement h pos;
      match r with
      | None => Some []
      | Some i =>
          e ← get_element h i;
          log ← close_loop fuel h i;
          Some (HASH_DELETE_KEY_VALUE h (e_key e) (e_value e) ++ log)
      end
  end.

(** The table after [uhash_close] (its array freed), the deleter calls, and
    whether the structure itself was freed. *)
Definition uhash_close (hash : option UHashtable)
    : option (option UHashtable * list deleter_call * bool) :=
  match hash with
  | None => Some (None, [], false)
  | Some h =>
      match elements h with
      | None => Some (Some h, [], allocated h)
      | Some _ =>
          log ← (if negb (keyDeleter h =? 0) || negb (valueDeleter h =? 0)
                 then close_loop (S (Z.to_nat (length h))) h UHASH_FIRST else Some []);
          Some (Some (set_elements h None), log, allocated h)
      end
  end.

Section equality.
Context (hasher : Z -> UHashTok -> Z) (equals : Z -> UHashTok -> UHashTok -> bool).

Fixpoint equals_loop (n : nat) (h1 h2 : UHashtable) (pos : Z) : option bool :=
  match n with
  | O => Some true
  | S n =>
      r ← uhash_nextElement h1 pos;
      i ← r;
      e1 ← get_element h1 i;
      r2 ← _uhash_find equals h2 (e_key e1) (hasher (keyHasher h2) (e_key e1));
      j ← r2;
      e2 ← get_element h2 j;
      if equals (valueComparator h1) (e_value e1) (e_value e2)
      then equals_loop n h1 h2 i
      else Some false
  end.

(** The tables are given with their addresses: the first test of the code
    compares the two pointers, NULL is 0. *)
Definition uhash_equals (p1 p2 : Z) (h1 h2 : UHashtable) : option bool :=
  if p1 =? p2 then Some true
  else if (p1 =? 0) || (p2 =? 0) || negb (keyComparator h1 =? keyComparator h2)
          || negb (valueComparator h1 =? valueComparator h2) || (valueComparator h1 =? 0)
  then Some false
  else if negb (uhash_count h1 =? uhash_count h2) then Some false
  else equals_loop (Z.to_nat (uhash_count h1)) h1 h2 UHASH_FIRST.
End equality.

(** ** Key functions

  [mem p] is the contents, without the terminating NUL, of the string that
  [p] points to. *)
Definition uhash_hashLong (key : UHashTok) : Z := tok_integer key.
Definition uhash_compareLong (key1 key2 : UHashTok) : bool :=
tok_integer key1 =? tok_integer key2.

(** STRING_HASH of ustring.cpp: every [inc]-th unit is hashed. *)
Fixpoint string_hash_loop (fuel : nat) (deref : Z -> Z) (s : list Z) (p inc hash : Z) : Z :=
  match fuel with
  | O => hash
  | S fuel =>
      match s.[p] with
      | Some c => string_hash_loop fuel deref s (p + inc) inc (u32 (hash * 37 + deref c))
      | None => hash
      end
  end.

Definition STRING_HASH (deref : Z -> Z) (s : list Z) : Z :=
  let inc := (zlen s - 32) ÷ 32 + 1 in
  s32 (string_hash_loop (List.length s) deref s 0 inc 0).

(** [char] is signed: the units of a [char] string are in -128..127. *)
Definition uhash_hashUChars (mem : Z -> list Z) (key : UHashTok) : Z :=
  if key =? 0 then 0 else STRING_HASH (fun c => c) (mem key).
Definition uhash_hashChars (mem : Z -> list Z) (key : UHashTok) : Z :=
  if key =? 0 then 0 else STRING_HASH u8 (mem key).
Definition uhash_hashIChars (mem : Z -> list Z) (key : UHashTok) : Z :=
  if key =? 0 then 0 else STRING_HASH (fun c => u8 (uprv_asciitolower c)) (mem key).

(** The comparison loop over two NUL-terminated strings; [norm] is the identity
    or the lower-casing, which map no unit but NUL to NUL, so the loop stops at
    the end of the shorter string.  The final test compares the units. *)
Fixpoint compare_loop (norm : Z -> Z) (p1 p2 : list Z) : bool :=
  match p1, p2 with
  | c1 :: q1, c2 :: q2 =>
      if negb (c1 =? 0) && (norm c1 =? norm c2) then compare_loop norm q1 q2 else c1 =? c2
  | c1 :: _, [] => c1 =? 0
  | [], c2 :: _ => 0 =? c2
  | [], [] => true
  end.

Definition uhash_compareUChars (mem : Z -> list Z) (key1 key2 : UHashTok) : bool :=
  if key1 =? key2 then true
  else if (key1 =? 0) || (key2 =? 0) then false
  else compare_loop (fun c => c) (mem key1) (mem key2).
Definition uhash_compareChars (mem : Z -> list Z) (key1 key2 : UHashTok) : bool :=
  if key1 =? key2 then true
  else if (key1 =? 0) || (key2 =? 0) then false
  else compare_loop (fun c => c) (mem key1) (mem key2).
Definition uhash_compareIChars (mem : Z -> list Z) (key1 key2 : UHashTok) : bool :=
  if key1 =? key2 then true
  else if (key1 =? 0) || (key2 =? 0) then false
  else compare_loop uprv_asciitolower (mem key1) (mem key2).

(** ** A table of integer keys *)
Definition long_hasher (_ : Z) : UHashTok -> Z := uhash_hashLong.
Definition long_equals (_ : Z) : UHashTok -> UHashTok -> bool := uhash_compareLong.

Definition long_table : option UHashtable :=
  '(h, _) ← uhash_open (fun _ => true) 1 2 2 0; h.

Example long_put_get :
  (h ← long_table;
   '(_, h, _, _) ← uhash_iputi long_hasher long_equals (fun _ => true) h 5 50 0;
   '(_, h, _, _) ← uhash_iputi long_hasher long_equals (fun _ => true) h (-132) 60 0;
   a ← uhash_igeti long_hasher long_equals h 5;
   b ← uhash_igeti long_hasher long_equals h (-132);
   Some (a, b, count h)) = Some (50, 60, 2).
Proof. vm_compute. reflexivity. Qed.
