(* ===== verification/UHashFind.v ===== *)
(** * UHashFind: probing and finding; the probe sequence of the hash table

  The arithmetic behind [_uhash_find]: the table lengths are prime, so the
  double-hashing sequence visits every slot once before it returns to its
  start, and the search loop stops. *)
From Stdlib Require Import Znumtheory.
From S2P Require Import Prelude UHash.
Local Open Scope Z_scope.

(** ** The table lengths are prime *)
Fixpoint no_divisor (n : nat) (d p : Z) : bool :=
  match n with
  | O => p <? d * d
  | S n => if p <? d * d then true
           else if p mod d =? 0 then false else no_divisor n (d + 1) p
  end.

Lemma no_divisor_spec n d p k :
  no_divisor n d p = true -> 2 <= d <= k -> k * k <= p -> ~ (k | p).
Proof.
  revert d. induction n as [|n IH]; intros d H Hd Hk Hdiv; simpl in H.
  - bool_prop. nia.
  - destruct (p <? d * d) eqn:E; bool_prop; [nia|].
    destruct (p mod d =? 0) eqn:E2; [done|]. bool_prop.
    destruct (decide (d = k)) as [->|].
    + apply Z.mod0_divide in Hdiv. lia.
    + apply (IH (d + 1)); auto. lia.
Qed.

Lemma no_divisor_prime n p : 1 < p -> no_divisor n 2 p = true -> prime p.
Proof.
  intros Hp H. apply prime_alt. split; [done|]. intros k Hk [m Hm].
  destruct (Z.le_gt_cases (k * k) p).
  - apply (no_divisor_spec n 2 p k); auto; [lia|]. exists m. lia.
  - assert (1 < m) by nia. assert (m * m <= p) by nia.
    apply (no_divisor_spec n 2 p m); auto; [lia|]. exists k. lia.
Qed.

Lemma PRIMES_checked :
  forallb (fun p => (13 <=? p) && (p <? 2 ^ 31) && no_divisor (Z.to_nat 46342) 2 p) PRIMES = true.
Proof. vm_compute. reflexivity. Qed.

Lemma PRIMES_check p : p ∈ PRIMES -> 13 <= p < 2 ^ 31 /\ prime p.
Proof.
  intros H%list_elem_of_In. pose proof (proj1 (forallb_forall _ _) PRIMES_checked p H).
  cbn beta in *. bool_prop. split; [lia|]. eapply no_divisor_prime; eauto. lia.
Qed.

(** ** The probe sequence *)
Definition jump_of (L hc : Z) : Z := hc mod (L - 1) + 1.
Definition start_of (L hc : Z) : Z := Z.lxor hc 0x4000000 mod L.
Definition probe (L hc n : Z) : Z := (start_of L hc + n * jump_of L hc) mod L.

Section probe.
Context (L hc : Z) (HL : prime L) (HL2 : 2 < L).

Lemma probe_range n : 0 <= probe L hc n < L.
Proof. apply Z.mod_pos_bound. lia. Qed.

Lemma jump_range : 1 <= jump_of L hc < L.
Proof. unfold jump_of. pose proof (Z.mod_pos_bound hc (L - 1)). lia. Qed.

Lemma start_range : 0 <= start_of L hc < L.
Proof. apply Z.mod_pos_bound. lia. Qed.

Lemma probe_0 : probe L hc 0 = start_of L hc.
Proof.
  unfold probe. rewrite Z.mul_0_l, Z.add_0_r. apply Z.mod_small, start_range.
Qed.

Lemma probe_succ n : probe L hc (n + 1) = (probe L hc n + jump_of L hc) mod L.
Proof. unfold probe. rewrite Zplus_mod_idemp_l. f_equal. lia. Qed.

Lemma probe_inj n m : 0 <= n < L -> 0 <= m < L -> probe L hc n = probe L hc m -> n = m.
Proof.
  assert (forall a b, 0 <= a <= b -> b < L -> probe L hc a = probe L hc b -> a = b) as Hle.
  { intros a b Hab Hb H. unfold probe in H. pose proof jump_range.
    assert ((L | (b - a) * jump_of L hc)) as Hd.
    { apply Z.mod_divide; [lia|]. replace ((b - a) * jump_of L hc) with
        ((start_of L hc + b * jump_of L hc) - (start_of L hc + a * jump_of L hc)) by lia.
      rewrite Zminus_mod, H, Z.sub_diag. apply Zmod_0_l. }
    apply prime_mult in Hd as [Hd|Hd]; [| |done].
    - destruct (decide (b - a = 0)) as [|]; [lia|]. apply Z.divide_pos_le in Hd; lia.
    - apply Z.divide_pos_le in Hd; lia. }
  intros. destruct (Z.le_gt_cases n m); [|symmetry]; apply Hle; auto; lia.
Qed.

Lemma probe_wrap : probe L hc L = start_of L hc.
Proof.
  unfold probe. rewrite Z.mul_comm, Z.mod_add by lia. apply Z.mod_small, start_range.
Qed.

(** The sequence returns to its start after exactly [L] steps. *)
Lemma probe_return n : 0 <= n < L -> probe L hc (n + 1) = start_of L hc <-> n + 1 = L.
Proof.
  intros Hn. split; [|intros ->; apply probe_wrap].
  intros H. destruct (decide (n + 1 = L)) as [|Hne]; [done|].
  rewrite <- probe_0 in H. apply probe_inj in H; lia.
Qed.

Lemma probe_NoDup k : 0 <= k <= L -> NoDup (probe L hc <$> seqZ 0 k).
Proof.
  intros Hk. apply NoDup_alt. intros i j x Hi Hj.
  rewrite list_lookup_fmap in Hi, Hj.
  apply fmap_Some in Hi as (a & Ha & ->). apply fmap_Some in Hj as (b & Hb & Heq).
  apply lookup_seqZ in Ha as [-> ?]. apply lookup_seqZ in Hb as [-> ?].
  apply probe_inj in Heq; lia.
Qed.

(** Every slot is visited. *)
Lemma probe_surj i : 0 <= i < L -> exists n, 0 <= n < L /\ i = probe L hc n.
Proof.
  intros Hi.
  assert (probe L hc <$> seqZ 0 L ≡ₚ seqZ 0 L) as HP.
  { apply submseteq_length_Permutation.
    - apply NoDup_submseteq; [apply probe_NoDup; lia|].
      intros x (n & -> & _)%list_elem_of_fmap. apply elem_of_seqZ. apply probe_range.
    - by rewrite length_fmap. }
  assert (i ∈ probe L hc <$> seqZ 0 L) as Hin by (rewrite HP; apply elem_of_seqZ; lia).
  apply list_elem_of_fmap in Hin as (n & -> & Hn%elem_of_seqZ). exists n. lia.
Qed.
End probe.

(** ** The table invariant and what a search returns *)

(** ** What the table relies on from its key callbacks *)
Class KeyLaws (hash : UHashTok -> Z) (eqf : UHashTok -> UHashTok -> bool) : Prop := {
  key_refl x : eqf x x = true;
  key_sym x y : eqf x y = true -> eqf y x = true;
  key_trans x y z : eqf x y = true -> eqf y z = true -> eqf x z = true;
  key_hash x y : eqf x y = true -> hash x = hash y
}.

(** The hashcode as it is stored. *)
Definition stored_hash (hc : Z) : Z := Z.land hc 0x7FFFFFFF.

Lemma stored_hash_range hc : 0 <= stored_hash hc < 2 ^ 31.
Proof.
  unfold stored_hash. change 0x7FFFFFFF with (Z.ones 31). rewrite Z.land_ones by lia.
  apply Z.mod_pos_bound. lia.
Qed.

Lemma stored_hash_idem hc : stored_hash (stored_hash hc) = stored_hash hc.
Proof. unfold stored_hash. by rewrite <- Z.land_assoc, Z.land_diag. Qed.

Lemma stored_hash_small hc : 0 <= hc < 2 ^ 31 -> stored_hash hc = hc.
Proof.
  intros. unfold stored_hash. change 0x7FFFFFFF with (Z.ones 31). rewrite Z.land_ones by lia.
  apply Z.mod_small. lia.
Qed.

(** ** Slots *)
Definition live (e : UHashElement) : bool := negb (IS_EMPTY_OR_DELETED (e_hashcode e)).
Definition dead_slot (e : UHashElement) : Prop :=
  (e_hashcode e = HASH_EMPTY \/ e_hashcode e = HASH_DELETED) /\
  e_value e = emptytok /\ e_key e = emptytok.

Lemma live_true e : live e = true <-> 0 <= e_hashcode e.
Proof.
  unfold live, IS_EMPTY_OR_DELETED. rewrite negb_true_iff, Z.ltb_ge. done.
Qed.

Lemma live_false e : live e = false <-> e_hashcode e < 0.
Proof.
  unfold live, IS_EMPTY_OR_DELETED. rewrite negb_false_iff, Z.ltb_lt. done.
Qed.

Lemma dead_not_live e : dead_slot e -> live e = false.
Proof. intros [H _]. apply live_false. unfold HASH_EMPTY, HASH_DELETED in H. lia. Qed.

(** Number of live slots. *)
Definition live_count (es : list UHashElement) : Z := zlen (filter (fun e => live e = true) es).

(** ** The invariant of the array *)
Section invariant.
  Context (hash : UHashTok -> Z) (eqf : UHashTok -> UHashTok -> bool).
  Implicit Types (es : list UHashElement) (e : UHashElement).

(** Slots [0 .. n-1] of the probe sequence of [hc] are not empty. *)
Definition no_empty_before es (L hc n : Z) : Prop :=
  forall m e, 0 <= m < n -> es.[probe L hc m] = Some e -> e_hashcode e <> HASH_EMPTY.

Record table_ok es (L : Z) : Prop := {
  ok_len : zlen es = L;
  ok_dead i e : es.[i] = Some e -> live e = false -> dead_slot e;
  ok_hash i e : es.[i] = Some e -> live e = true -> e_hashcode e = stored_hash (hash (e_key e));
  ok_reach i e : es.[i] = Some e -> live e = true ->
    exists n, 0 <= n < L /\ i = probe L (e_hashcode e) n /\ no_empty_before es L (e_hashcode e) n;
  ok_uniq i j e e' : es.[i] = Some e -> es.[j] = Some e' -> live e = true -> live e' = true ->
    eqf (e_key e) (e_key e') = true -> i = j
}.

(** The slot stores the key we look for. *)
Definition matches (key : UHashTok) (hc : Z) e : Prop :=
  e_hashcode e = hc /\ eqf key (e_key e) = true.

(** What the search loop returns, whatever the contents of the table. *)
Inductive find_result es (L : Z) (key : UHashTok) (hc : Z) : option Z -> Prop :=
  | find_hit i n e :
      0 <= n < L -> i = probe L hc n -> es.[i] = Some e -> matches key hc e ->
      find_result es L key hc (Some i)
  | find_free i n stop e :
      0 <= n < L -> i = probe L hc n -> es.[i] = Some e -> live e = false ->
      no_empty_before es L hc n ->
      (forall m e', 0 <= m < stop -> es.[probe L hc m] = Some e' -> ~ matches key hc e') ->
      stop = L \/ (0 <= stop < L /\ exists e', es.[probe L hc stop] = Some e' /\ e_hashcode e' = HASH_EMPTY) ->
      find_result es L key hc (Some i)
  | find_full :
      (forall i e, es.[i] = Some e -> live e = true) ->
      find_result es L key hc None.
End invariant.

Section find.
Context (equals : Z -> UHashTok -> UHashTok -> bool).
Context (h : UHashtable) (es : list UHashElement) (key hc : Z).
Let L := length h.
Let eqf := equals (keyComparator h).
Context (HLp : prime L) (HL : 2 < L < 2 ^ 30) (Hlen : zlen es = L) (Hhc : 0 <= hc).

(** The state of the loop after [n] probes. *)
Record loop_inv (n theIndex firstDeleted jump : Z) : Prop := {
  li_n : 0 <= n <= L;
  li_index : theIndex = probe L hc n;
  li_jump : jump = if n =? 0 then 0 else jump_of L hc;
  li_nomatch m e : 0 <= m < n -> es.[probe L hc m] = Some e -> ~ matches eqf key hc e;
  li_noempty : no_empty_before es L hc n;
  li_deleted : firstDeleted = -1 /\ (forall m e, 0 <= m < n -> es.[probe L hc m] = Some e -> live e = true)
    \/ exists d e, 0 <= d < n /\ firstDeleted = probe L hc d /\ es.[firstDeleted] = Some e /\ live e = false
}.

Lemma slot_exists n : exists e, es.[probe L hc n] = Some e.
Proof. apply zget_is_Some. rewrite Hlen. apply probe_range. lia. Qed.

Lemma next_index n jump :
  0 <= n < L -> jump = (if n =? 0 then 0 else jump_of L hc) ->
  let jump' := if jump =? 0 then Z.rem hc (L - 1) + 1 else jump in
  jump' = jump_of L hc /\
  exists x, chk32 (probe L hc n + jump') = Some x /\ Z.rem x L = probe L hc (n + 1).
Proof.
  intros Hn ->. pose proof (jump_range L hc ltac:(lia)) as Hj.
  pose proof (probe_range L hc ltac:(lia) n) as Hp.
  assert ((if (if n =? 0 then 0 else jump_of L hc) =? 0 then Z.rem hc (L - 1) + 1
           else if n =? 0 then 0 else jump_of L hc) = jump_of L hc) as ->.
  { destruct (n =? 0) eqn:E; simpl.
    - unfold jump_of. by rewrite Z.rem_mod_nonneg by lia.
    - destruct (jump_of L hc =? 0) eqn:E2; bool_prop; lia || done. }
  split; [done|]. exists (probe L hc n + jump_of L hc). split; [apply chk32_ok; lia|].
  rewrite Z.rem_mod_nonneg by lia. symmetry. apply probe_succ.
Qed.

Lemma loop_inv_next n theIndex firstDeleted jump e :
  loop_inv n theIndex firstDeleted jump -> es.[theIndex] = Some e ->
  ~ matches eqf key hc e -> e_hashcode e <> HASH_EMPTY -> n < L ->
  loop_inv (n + 1) (probe L hc (n + 1))
    (if negb (e_hashcode e =? hc) && IS_EMPTY_OR_DELETED (e_hashcode e) && (firstDeleted <? 0)
     then theIndex else firstDeleted) (jump_of L hc).
Proof.
  intros [Hn -> Hj Hnm Hne Hd] He Hm Hempty Hlt.
  split; [lia|done| | | |].
  - destruct (n + 1 =? 0) eqn:E; bool_prop; [lia|done].
  - intros m e' Hm' He'. destruct (decide (m = n)) as [->|]; [congruence|]. apply (Hnm m); [lia|done].
  - intros m e' Hm' He'. destruct (decide (m = n)) as [->|]; [congruence|]. apply (Hne m); [lia|done].
  - pose proof (probe_range L hc ltac:(lia) n).
    destruct Hd as [[-> Hd]|(d & e' & Hd & -> & He' & Hl)].
    + change (-1 <? 0) with true. rewrite andb_true_r.
      destruct (IS_EMPTY_OR_DELETED (e_hashcode e)) eqn:E.
      * unfold IS_EMPTY_OR_DELETED in E. bool_prop.
        assert ((e_hashcode e =? hc) = false) as -> by (apply Z.eqb_neq; lia). simpl.
        right. exists n, e. split_and!; [lia|lia|done|done|]. by apply live_false.
      * rewrite andb_false_r. left. split; [done|]. intros m e' Hm' He'.
        destruct (decide (m = n)) as [->|]; [|apply (Hd m); [lia|done]].
        simplify_eq. unfold live. by rewrite E.
    + pose proof (probe_range L hc ltac:(lia) d).
      rewrite Z_ltb_false, andb_false_r by lia. right. exists d, e'. split_and!; auto; lia.
Qed.

Lemma find_loop_spec fuel n theIndex firstDeleted jump :
  loop_inv n theIndex firstDeleted jump -> n < L -> L - n <= Z.of_nat fuel ->
  exists r, find_loop equals fuel h es key hc (start_of L hc) theIndex firstDeleted jump = Some r /\
    find_result eqf es L key hc r.
Proof.
  revert n theIndex firstDeleted jump.
  induction fuel as [|fuel IH]; intros n theIndex firstDeleted jump Hinv HnL Hf.
  { lia. }
  pose proof Hinv as [Hn Hti Hj Hnm Hne Hd].
  destruct (slot_exists n) as [e He]. cbn [find_loop]. rewrite Hti, He. mstep.
  fold L. fold eqf. fold (eqf key (e_key e)).
  destruct ((e_hashcode e =? hc) && eqf key (e_key e)) eqn:Ematch.
  { bool_prop. eexists. split; [done|]. eapply find_hit; [|done|done|done]. lia. }
  assert (~ matches eqf key hc e) as Hnomatch.
  { intros [H1 H2]. rewrite H1, Z.eqb_refl, H2 in Ematch. done. }
  destruct (negb (e_hashcode e =? hc) && (e_hashcode e =? HASH_EMPTY)) eqn:Eempty.
  { bool_prop. eexists. split; [done|].
    assert (stop : n = L \/ (0 <= n < L /\ exists e', es.[probe L hc n] = Some e' /\
      e_hashcode e' = HASH_EMPTY)) by (right; split; [lia|eauto]).
    destruct Hd as [[-> _]|(d & e' & Hd & -> & He' & Hl)].
    - eapply find_free with (n := n) (stop := n); eauto; [lia|]. apply live_false. unfold HASH_EMPTY, HASH_DELETED in *. lia.
    - pose proof (probe_range L hc ltac:(lia) d). rewrite Z_leb_true by lia.
      eapply find_free with (n := d) (stop := n); eauto; [lia|].
      intros m x Hm. apply Hne. lia. }
  assert (e_hashcode e <> HASH_EMPTY) as Hempty.
  { intros H. rewrite H, Z.eqb_refl in Eempty. bool_prop. destruct Eempty; bool_prop.
    unfold HASH_EMPTY, HASH_DELETED in *. lia. }
  destruct (next_index n jump ltac:(lia) Hj) as (Hj' & x & Hx & Hrem). rewrite Hj' in Hx |- *.
  rewrite Hx. mstep. rewrite Hrem.
  pose proof (loop_inv_next n theIndex firstDeleted jump e Hinv) as Hnext.
  rewrite Hti in Hnext. specialize (Hnext He Hnomatch Hempty HnL).
  destruct (probe L hc (n + 1) =? start_of L hc) eqn:Eret; bool_prop.
  2:{ apply IH with (n := n + 1); [done| |lia].
      destruct (decide (n + 1 = L)); [|lia]. exfalso. apply Eret. apply probe_return; auto; lia. }
  apply probe_return in Eret; [|done|lia|lia]. rewrite Eret in Hnext.
  destruct Hnext as [_ _ _ Hnm' Hne' Hd']. eexists. split; [done|].
  rewrite (proj2 (Z.eqb_neq _ _) Hempty). simpl negb. cbv iota.
  destruct Hd' as [[-> Hall]|(d & e' & Hd' & -> & He' & Hl)].
  - apply find_full. intros i e0 Hi. pose proof (zget_lt _ _ _ Hi).
    destruct (probe_surj L hc HLp ltac:(lia) i) as (m & Hm & ->); [lia|]. eauto.
  - pose proof (probe_range L hc ltac:(lia) d). rewrite Z_leb_true by lia.
    eapply find_free with (n := d) (stop := L); eauto. intros m x' Hm. apply Hne'. lia.
Qed.
End find.

(** ** Searching a well-formed table *)
Section search.
  Context (hash : UHashTok -> Z) (eqf : UHashTok -> UHashTok -> bool) `{!KeyLaws hash eqf}.
  Implicit Types (es : list UHashElement) (e : UHashElement) (L key : Z).

Definition absent es (key : UHashTok) : Prop :=
  forall j e, es.[j] = Some e -> live e = true -> eqf key (e_key e) = false.

(** The slot [i] is where a new entry for [key] can go. *)
Definition free_for es L (key : UHashTok) (i : Z) : Prop :=
  exists n, 0 <= n < L /\ i = probe L (stored_hash (hash key)) n /\
    no_empty_before es L (stored_hash (hash key)) n.

Lemma key_eq_sym x y : eqf x y = eqf y x.
Proof.
  destruct (eqf x y) eqn:E, (eqf y x) eqn:E'; try done.
  - apply key_sym in E. congruence.
  - apply key_sym in E'. congruence.
Qed.

Lemma key_eq_l x y z : eqf x y = true -> eqf x z = eqf y z.
Proof.
  intros H. destruct (eqf x z) eqn:E, (eqf y z) eqn:E'; try done.
  - apply key_sym in H. pose proof (key_trans y x z H E). congruence.
  - pose proof (key_trans x y z H E'). congruence.
Qed.

Lemma live_count_full es : (forall i e, es.[i] = Some e -> live e = true) -> live_count es = zlen es.
Proof.
  intros H. unfold live_count. f_equal. induction es as [|e es IH]; [done|].
  rewrite filter_cons_True by (apply (H 0); done). f_equal. apply IH.
  intros i e' Hi. apply (H (1 + i)). pose proof (zget_lt _ _ _ Hi).
  rewrite (zget_app_r [e] es) by zlia. rewrite <- Hi. f_equal. zlia.
Qed.

Lemma find_result_wf es L key r :
  table_ok hash eqf es L -> live_count es < L ->
  find_result eqf es L key (stored_hash (hash key)) r ->
  exists i e, r = Some i /\ es.[i] = Some e /\
    ((live e = true /\ eqf key (e_key e) = true) \/
     (dead_slot e /\ absent es key /\ free_for es L key i)).
Proof.
  intros Hok Hcount Hr. destruct Hr as [i n e Hn -> He [Hh Heq]|i n stop e Hn -> He Hl Hne Hnm Hstop|Hfull].
  - exists (probe L (stored_hash (hash key)) n), e. split_and!; auto. left. split; [|done].
    apply live_true. rewrite Hh. apply stored_hash_range.
  - exists (probe L (stored_hash (hash key)) n), e. split_and!; auto. right.
    split; [by eapply ok_dead|]. split; [|by exists n].
    intros j e' Hj Hl'. destruct (eqf key (e_key e')) eqn:Heq; [|done]. exfalso.
    destruct (ok_reach _ _ _ _ Hok j e' Hj Hl') as (n' & Hn' & -> & Hne').
    assert (e_hashcode e' = stored_hash (hash key)) as Hh.
    { rewrite (ok_hash _ _ _ _ Hok _ _ Hj Hl'). by rewrite (key_hash (hash := hash) _ _ Heq). }
    rewrite Hh in *.
    destruct (Z.lt_ge_cases n' stop) as [Hlt|Hge].
    + by apply (Hnm n' e' ltac:(lia) Hj).
    + destruct Hstop as [->|(Hs & e2 & He2 & Hempty)]; [lia|].
      destruct (decide (n' = stop)) as [->|].
      * simplify_eq. apply live_true in Hl'. unfold HASH_EMPTY, HASH_DELETED in *. lia.
      * apply (Hne' stop e2); auto. lia.
  - apply live_count_full in Hfull. pose proof (ok_len _ _ _ _ Hok). lia.
Qed.

(** ** Updating one slot *)
Section update.
  Context (L : Z) (HLp : prime L) (HL : 2 < L).

Lemma no_empty_before_update es es' i x hc n :
  zset es i x = Some es' -> e_hashcode x <> HASH_EMPTY ->
  no_empty_before es L hc n -> no_empty_before es' L hc n.
Proof.
  intros Hs Hx H m e Hm He. rewrite (zget_zset _ _ _ _ _ Hs) in He. case_decide; [congruence|].
  by eapply H.
Qed.

(** A slot gets a live entry: every other entry keeps its place. *)
Lemma table_ok_set es es' i value key :
  table_ok hash eqf es L -> free_for es L key i ->
  (forall j e, es.[j] = Some e -> live e = true -> eqf key (e_key e) = true -> j = i) ->
  zset es i (mkElement (stored_hash (hash key)) value key) = Some es' ->
  table_ok hash eqf es' L.
Proof.
  intros [Hlen Hd Hh Hr Hu] (n & Hn & Hi & Hne) Honly Hs.
  pose proof (stored_hash_range (hash key)) as Hrange.
  assert (stored_hash (hash key) <> HASH_EMPTY) as Hnempty.
  { unfold HASH_EMPTY, HASH_DELETED. lia. }
  split.
  - by rewrite (zlen_zset _ _ _ _ Hs).
  - intros j e. rewrite (zget_zset _ _ _ _ _ Hs). case_decide; [|eauto].
    intros [= <-] Hl. apply live_false in Hl. simpl in Hl. lia.
  - intros j e. rewrite (zget_zset _ _ _ _ _ Hs). case_decide; [|eauto]. by intros [= <-].
  - intros j e. rewrite (zget_zset _ _ _ _ _ Hs). case_decide as Hij.
    + intros [= <-] _. simpl. exists n. split_and!; [lia|lia|congruence|].
      eapply no_empty_before_update; eauto.
    + intros He Hl. destruct (Hr j e He Hl) as (m & Hm & ? & ?). exists m. split_and!; auto; [lia|lia|].
      eapply no_empty_before_update; eauto.
  - intros j k e e'. rewrite !(zget_zset _ _ _ _ _ Hs).
    case_decide as Hij; case_decide as Hik; intros He He' Hl Hl' Heq; simplify_eq/=; eauto.
    + symmetry. eapply Honly; eauto.
    + eapply Honly; eauto. by rewrite key_eq_sym.
Qed.

(** A slot is marked as deleted. *)
Lemma table_ok_delete es es' i :
  table_ok hash eqf es L -> zset es i (mkElement HASH_DELETED emptytok emptytok) = Some es' ->
  table_ok hash eqf es' L.
Proof.
  intros [Hlen Hd Hh Hr Hu] Hs.
  assert (live (mkElement HASH_DELETED emptytok emptytok) = false) as Hdead by done.
  split.
  - by rewrite (zlen_zset _ _ _ _ Hs).
  - intros j e. rewrite (zget_zset _ _ _ _ _ Hs). case_decide; [|eauto].
    intros [= <-] _. split; [by right|done].
  - intros j e. rewrite (zget_zset _ _ _ _ _ Hs). case_decide; [|eauto]. by intros [= <-].
  - intros j e. rewrite (zget_zset _ _ _ _ _ Hs). case_decide as Hij; [by intros [= <-]|].
    intros He Hl. destruct (Hr j e He Hl) as (m & Hm & ? & ?). exists m. split_and!; auto; [lia|lia|].
    by eapply no_empty_before_update; eauto.
  - intros j k e e'. rewrite !(zget_zset _ _ _ _ _ Hs).
    case_decide; case_decide; intros He He' Hl Hl' Heq; simplify_eq/=; eauto.
Qed.
End update.

Lemma free_for_hit es L i e key :
  table_ok hash eqf es L -> es.[i] = Some e -> live e = true -> eqf key (e_key e) = true ->
  free_for es L key i.
Proof.
  intros Hok Hi Hl Heq. destruct (ok_reach _ _ _ _ Hok i e Hi Hl) as (n & Hn & -> & Hne).
  rewrite (ok_hash _ _ _ _ Hok _ _ Hi Hl), <- (key_hash (hash := hash) _ _ Heq) in *. by exists n.
Qed.

Lemma table_ok_empty L :
  0 <= L -> table_ok hash eqf (replicate (Z.to_nat L) (mkElement HASH_EMPTY emptytok emptytok)) L.
Proof.
  intros HL. set (x := mkElement _ _ _).
  assert (forall i e, (replicate (Z.to_nat L) x).[i] = Some e -> e = x) as Hx.
  { intros i e H. apply zget_Some in H as [_ H]. by apply lookup_replicate in H as [-> _]. }
  split.
  - unfold zlen. rewrite length_replicate. lia.
  - intros i e ->%Hx _. split; [by left|done].
  - by intros i e ->%Hx.
  - by intros i e ->%Hx.
  - by intros i j e e' ->%Hx.
Qed.
End search.
