(* ===== verification/UHashKeys.v ===== *)
(** * UHashKeys: the key callbacks of uhash.c satisfy what the table asks of them *)
From S2P Require Import Prelude CString UHash UHashFind.
Local Open Scope Z_scope.

#[export] Instance long_laws : KeyLaws uhash_hashLong uhash_compareLong.
Proof.
  unfold uhash_compareLong, uhash_hashLong.
  split; intros *; rewrite ?Z.eqb_eq; congruence.
Qed.

(** The loop over two strings that contain no NUL compares all their units. *)
Lemma compare_loop_spec norm p1 p2 :
  Forall (fun c => c <> 0) p1 -> Forall (fun c => c <> 0) p2 ->
  compare_loop norm p1 p2 = true <-> map norm p1 = map norm p2.
Proof.
  intros H1. revert p2. induction H1 as [|c1 q1 Hc1 _ IH]; intros [|c2 q2] H2; inversion_clear H2;
    cbn [compare_loop map].
  - done.
  - split; [|done]. intros ?; bool_prop. congruence.
  - split; [|done]. intros ?; bool_prop. congruence.
  - rewrite (proj2 (Z.eqb_neq c1 0)) by done. cbn [negb andb].
    destruct (norm c1 =? norm c2) eqn:E; bool_prop.
    + rewrite IH by done. rewrite E. split; [by intros ->|by intros [= ->]].
    + split; [intros ?; bool_prop; congruence|intros [=]; done].
Qed.

Lemma string_hash_loop_map fuel deref s p inc hash :
  string_hash_loop fuel deref s p inc hash
  = string_hash_loop fuel (fun c => c) (map deref s) p inc hash.
Proof.
  revert p hash. induction fuel as [|fuel IH]; intros; [done|]. simpl.
  assert ((map deref s).[p] = deref <$> s.[p]) as ->.
  { unfold zget. destruct (0 <=? p); [|done]. apply list_lookup_fmap. }
  destruct (s.[p]); simpl; auto.
Qed.

(** The hash depends on the dereferenced units only. *)
Lemma STRING_HASH_map deref s : STRING_HASH deref s = STRING_HASH (fun c => c) (map deref s).
Proof.
  unfold STRING_HASH, zlen. rewrite length_map. cbv zeta. by rewrite string_hash_loop_map.
Qed.

Section strings.
Context (mem : Z -> list Z) (nul_free : forall p, Forall (fun c => c <> 0) (mem p)).
Context (norm deref : Z -> Z) (deref_norm : forall c, deref c = deref (norm c)).

(** A hash and a comparison of strings that look at the same normal form. *)
Lemma string_laws (hash : UHashTok -> Z) (eqf : UHashTok -> UHashTok -> bool) :
  (forall key, hash key = if key =? 0 then 0 else STRING_HASH deref (mem key)) ->
  (forall key1 key2, eqf key1 key2 = if key1 =? key2 then true
     else if (key1 =? 0) || (key2 =? 0) then false else compare_loop norm (mem key1) (mem key2)) ->
  KeyLaws hash eqf.
Proof.
  intros Hh He.
  assert (forall x y, eqf x y = true <->
    x = y \/ x <> 0 /\ y <> 0 /\ map norm (mem x) = map norm (mem y)) as Heq.
  { intros x y. rewrite He, <- (compare_loop_spec norm) by done.
    destruct (x =? y) eqn:E1, (x =? 0) eqn:E2, (y =? 0) eqn:E3; simpl; bool_prop;
      intuition congruence. }
  split.
  - intros x. apply Heq. by left.
  - intros x y. rewrite !Heq. intuition congruence.
  - intros x y z. rewrite !Heq. intuition congruence.
  - intros x y [->|(Hx & Hy & Hm)]%Heq; [done|]. rewrite !Hh.
    rewrite !(proj2 (Z.eqb_neq _ 0)) by done. rewrite (STRING_HASH_map deref), (STRING_HASH_map deref (mem y)).
    f_equal. rewrite !(map_ext deref (fun c => deref (norm c))) by done.
    by rewrite <- !(map_map norm deref), Hm.
Qed.
End strings.

(** A character and its lower-case form have the same lower-case form. *)
Lemma asciitolower_idem c : uprv_asciitolower (uprv_asciitolower c) = uprv_asciitolower c.
Proof.
  unfold uprv_asciitolower, s8. destruct ((0x41 <=? c) && (c <=? 0x5a)) eqn:E; [|by rewrite E].
  bool_prop. rewrite Z.mod_small by lia. rewrite Z_leb_true, Z_leb_false by lia. done.
Qed.

(** The key callbacks the header offers are fit for the table: for integer
    keys, and for [UChar*], [char*] and case-insensitive [char*] keys in a
    memory of NUL-terminated strings, the comparator is an equivalence and equal
    keys have equal hash codes. *)
Theorem key_functions_lawful (mem : Z -> list Z) :
  (forall p, Forall (fun c => c <> 0) (mem p)) ->
  KeyLaws uhash_hashLong uhash_compareLong /\
  KeyLaws (uhash_hashUChars mem) (uhash_compareUChars mem) /\
  KeyLaws (uhash_hashChars mem) (uhash_compareChars mem) /\
  KeyLaws (uhash_hashIChars mem) (uhash_compareIChars mem).
Proof.
  intros Hmem. split_and!.
  - apply long_laws.
  - by apply (string_laws mem Hmem (fun c => c) (fun c => c)).
  - by apply (string_laws mem Hmem (fun c => c) u8).
  - apply (string_laws mem Hmem uprv_asciitolower (fun c => u8 (uprv_asciitolower c))); try done.
    intros c. by rewrite asciitolower_idem.
Qed.

Lemma key_functions_lawful_witness :
  KeyLaws (uhash_hashIChars (fun p => [p mod 7 + 65])) (uhash_compareIChars (fun p => [p mod 7 + 65])) /\
  uhash_compareIChars (fun p => if p =? 8 then [0x41; 0x62] else [0x61; 0x42]) 8 9 = true.
Proof.
  split; [|reflexivity]. apply (key_functions_lawful (fun p => [p mod 7 + 65])).
  intros p. constructor; [|constructor]. pose proof (Z.mod_pos_bound p 7). lia.
Defined.
