(* ===== verification/UHashFacts.v ===== *)
(** * UHashFacts: the hash table implements a finite map

  The abstract value of a table is a partial function on keys, where keys
  that the key comparator identifies have the same value.  The invariant [wf]
  is established by [uhash_open], preserved by the operations, and each
  operation does to the abstract value what its specification says. *)
From S2P Require Import Prelude UHash UHashFind.
From Stdlib Require Import Znumtheory.
Local Open Scope Z_scope.

(** ** The abstract map *)
Definition spec_put (eqf : UHashTok -> UHashTok -> bool) (m : UHashTok -> option UHashTok)
    (key value : UHashTok) : UHashTok -> option UHashTok :=
  fun k => if eqf k key then Some value else m k.

Definition spec_remove (eqf : UHashTok -> UHashTok -> bool) (m : UHashTok -> option UHashTok)
    (key : UHashTok) : UHashTok -> option UHashTok :=
  fun k => if eqf k key then None else m k.

(** The value stored for [k]: that of the first live entry whose key is equal. *)
Definition abs (eqf : UHashTok -> UHashTok -> bool) (es : list UHashElement) (k : UHashTok)
    : option UHashTok :=
  e_value <$> head (filter (fun e => live e = true /\ eqf k (e_key e) = true) es).

Section abs.
Context (hash : UHashTok -> Z) (eqf : UHashTok -> UHashTok -> bool) `{!KeyLaws hash eqf}.
Implicit Types (es : list UHashElement) (e : UHashElement) (L key k : Z).

Lemma abs_inv es k v :
  abs eqf es k = Some v ->
  exists i e, es.[i] = Some e /\ live e = true /\ eqf k (e_key e) = true /\ e_value e = v.
Proof.
  unfold abs. intros (e & He & ->)%fmap_Some.
  assert (e ∈ filter (fun e => live e = true /\ eqf k (e_key e) = true) es) as Hin.
  { destruct (filter _ es); [done|]. simpl in He. simplify_eq. constructor. }
  apply list_elem_of_filter in Hin as [[? ?] Hin].
  apply list_elem_of_lookup in Hin as [n Hn]. exists (Z.of_nat n), e.
  rewrite zget_nat. done.
Qed.

Lemma abs_None es k : absent eqf es k <-> abs eqf es k = None.
Proof.
  split.
  - intros Habs. destruct (abs eqf es k) as [v|] eqn:E; [|done].
    apply abs_inv in E as (i & e & Hi & Hl & Heq & _). specialize (Habs i e Hi Hl). congruence.
  - intros H j e Hj Hl. destruct (eqf k (e_key e)) eqn:E; [|done]. exfalso.
    unfold abs in H. apply fmap_None in H.
    assert (e ∈ filter (fun e => live e = true /\ eqf k (e_key e) = true) es) as Hin.
    { apply list_elem_of_filter. split; [done|]. apply zget_Some in Hj as [_ Hj].
      by apply list_elem_of_lookup_2 in Hj. }
    destruct (filter _ es); [by apply elem_of_nil in Hin|done].
Qed.

Lemma abs_Some es L i e k :
  table_ok hash eqf es L -> es.[i] = Some e -> live e = true -> eqf k (e_key e) = true ->
  abs eqf es k = Some (e_value e).
Proof.
  intros Hok Hi Hl Heq. destruct (abs eqf es k) as [v|] eqn:E.
  - apply abs_inv in E as (j & e' & Hj & Hl' & Heq' & <-).
    assert (i = j) as <-; [|congruence].
    eapply (ok_uniq _ _ _ _ Hok); eauto. rewrite <- (key_eq_l hash eqf k); done.
  - apply abs_None in E. specialize (E i e Hi Hl). congruence.
Qed.

(** Keys that are equal have the same value. *)
Lemma abs_proper es L k k' :
  table_ok hash eqf es L -> eqf k k' = true -> abs eqf es k = abs eqf es k'.
Proof.
  intros Hok Heq. destruct (abs eqf es k) as [v|] eqn:E.
  - apply abs_inv in E as (i & e & Hi & Hl & Hk & <-). symmetry. eapply abs_Some; eauto.
    by rewrite <- (key_eq_l hash eqf k).
  - symmetry. apply abs_None in E. apply abs_None. intros j e Hj Hl.
    rewrite <- (key_eq_l hash eqf k) by done. eauto.
Qed.

Lemma abs_set es es' L i value key k :
  table_ok hash eqf es L -> table_ok hash eqf es' L ->
  zset es i (mkElement (stored_hash (hash key)) value key) = Some es' ->
  (forall e, es.[i] = Some e -> live e = true -> eqf key (e_key e) = true) ->
  (forall j e, es.[j] = Some e -> live e = true -> eqf key (e_key e) = true -> j = i) ->
  abs eqf es' k = spec_put eqf (abs eqf es) key value k.
Proof.
  intros Hok Hok' Hs Hi Honly. unfold spec_put. destruct (eqf k key) eqn:Ek.
  - assert (es'.[i] = Some (mkElement (stored_hash (hash key)) value key)) as Hget.
    { rewrite (zget_zset _ _ _ _ _ Hs). by rewrite decide_True. }
    rewrite (abs_Some es' L i _ k Hok' Hget); [done| |done].
    apply live_true. apply stored_hash_range.
  - destruct (abs eqf es k) as [v|] eqn:E.
    + apply abs_inv in E as (j & e & Hj & Hl & Hk & <-). eapply abs_Some; eauto.
      rewrite (zget_zset _ _ _ _ _ Hs). case_decide as Hij; [|done]. subst j.
      specialize (Hi e Hj Hl). apply key_sym in Hi.
      rewrite (key_trans (hash := hash) _ _ _ Hk Hi) in Ek. done.
    + apply abs_None in E. apply abs_None. intros j e. rewrite (zget_zset _ _ _ _ _ Hs).
      case_decide; [|eauto]. by intros [= <-].
Qed.

Lemma abs_delete es es' L i e key k :
  table_ok hash eqf es L -> table_ok hash eqf es' L -> es.[i] = Some e -> live e = true ->
  eqf key (e_key e) = true ->
  zset es i (mkElement HASH_DELETED emptytok emptytok) = Some es' ->
  abs eqf es' k = spec_remove eqf (abs eqf es) key k.
Proof.
  intros Hok Hok' Hi Hl Heq Hs. unfold spec_remove. destruct (eqf k key) eqn:Ek.
  - apply abs_None. intros j e'. rewrite (zget_zset _ _ _ _ _ Hs).
    case_decide as Hij; [by intros [= <-]|]. intros Hj Hl'.
    destruct (eqf k (e_key e')) eqn:E; [|done]. exfalso. apply Hij.
    eapply (ok_uniq _ _ _ _ Hok); eauto.
    rewrite <- (key_eq_l hash eqf key) by done. by rewrite <- (key_eq_l hash eqf k).
  - destruct (abs eqf es k) as [v|] eqn:E.
    + apply abs_inv in E as (j & e' & Hj & Hl' & Hk & <-). eapply abs_Some; eauto.
      rewrite (zget_zset _ _ _ _ _ Hs). case_decide as Hij; [|done]. simplify_eq.
      apply key_sym in Heq. rewrite (key_trans (hash := hash) _ _ _ Hk Heq) in Ek. done.
    + apply abs_None in E. apply abs_None. intros j e'. rewrite (zget_zset _ _ _ _ _ Hs).
      case_decide; [|eauto]. by intros [= <-].
Qed.

(** *** Counting *)
Lemma live_count_set es es' i e x :
  es.[i] = Some e -> zset es i x = Some es' ->
  live_count es' = live_count es + (if live x then 1 else 0) - (if live e then 1 else 0).
Proof.
  intros Hi Hs. apply zget_split in Hi as (l1 & l2 & -> & Hl1).
  rewrite zset_middle in Hs by done. simplify_eq. unfold live_count.
  rewrite !filter_app, !filter_cons. destruct (live x) eqn:Ex, (live e) eqn:Ee;
    repeat case_decide; try done; zlia.
Qed.

Lemma live_count_empty n : live_count (replicate n (mkElement HASH_EMPTY emptytok emptytok)) = 0.
Proof.
  unfold live_count. induction n; [done|]. simpl replicate. by rewrite filter_cons_False.
Qed.

Lemma live_count_bounds es : 0 <= live_count es <= zlen es.
Proof.
  unfold live_count, zlen. pose proof (length_filter (fun e => live e = true) es). lia.
Qed.

Lemma abs_empty n k : abs eqf (replicate n (mkElement HASH_EMPTY emptytok emptytok)) k = None.
Proof.
  apply abs_None. intros j e [_ H]%zget_Some. by apply lookup_replicate in H as [-> _].
Qed.
End abs.

(** ** Sizes and water marks

  [HEAP_LIMIT] is the largest heap of the target, one 64 KiB page short of
  2 GiB: no larger block is ever allocated. *)
Definition HEAP_LIMIT : Z := 2 ^ 31 - 2 ^ 16.
Definition malloc_limit (malloc : Z -> bool) : Prop := forall n, malloc n = true -> n <= HEAP_LIMIT.
Definition mem_available (malloc : Z -> bool) : Prop := forall n, n <= HEAP_LIMIT -> malloc n = true.

Definition all_policies : list UHashResizePolicy := [U_GROW; U_GROW_AND_SHRINK; U_FIXED].
(** The last index whose array fits in the heap. *)
Definition MAX_INDEX : Z := 23.

Definition index_check (i : Z) : bool :=
  match PRIMES.[i] with
  | None => false
  | Some p =>
      let size := u32 (sizeof_UHashElement * p) in
      if i <=? MAX_INDEX
      then (size =? sizeof_UHashElement * p) && (size <=? HEAP_LIMIT) && (p <? 2 ^ 30)
      else HEAP_LIMIT <? size
  end.

Definition policy_check (i : Z) (policy : UHashResizePolicy) : bool :=
  match PRIMES.[i] with
  | None => false
  | Some p =>
      match waterMark p (fst (RESIZE_POLICY_RATIO policy)), waterMark p (snd (RESIZE_POLICY_RATIO policy)) with
      | Some low, Some high =>
          (0 <=? low) && (p <=? 2 * (high + 1)) &&
          forallb (fun j => match PRIMES.[j] with Some q => low <=? q | None => false end)
            (seqZ (Z.max 0 (i - 1)) (PRIMES_LENGTH - Z.max 0 (i - 1)))
      | _, _ => false
      end
  end.

Lemma PRIMES_indices :
  forallb index_check (seqZ 0 PRIMES_LENGTH) &&
  forallb (fun i => forallb (policy_check i) all_policies) (seqZ 0 (MAX_INDEX + 1)) &&
  forallb (fun i => forallb (fun j => match PRIMES.[i], PRIMES.[j] with
     | Some p, Some q => p <? q | _, _ => false end) (seqZ (i + 1) (PRIMES_LENGTH - (i + 1))))
    (seqZ 0 PRIMES_LENGTH) = true.
Proof. vm_compute. reflexivity. Qed.

Lemma index_checked i : 0 <= i < PRIMES_LENGTH -> index_check i = true.
Proof.
  intros. pose proof PRIMES_indices. bool_prop. eapply forallb_seqZ; eauto.
Qed.

Lemma policy_checked i policy : 0 <= i <= MAX_INDEX -> policy_check i policy = true.
Proof.
  intros. pose proof PRIMES_indices. bool_prop.
  assert (forallb (policy_check i) all_policies = true) as HP.
  { match goal with H : forallb _ (seqZ 0 (MAX_INDEX + 1)) = true |- _ =>
      apply (forallb_seqZ _ _ _ i) in H; [exact H|lia] end. }
  rewrite forallb_forall in HP. apply HP. unfold all_policies. simpl. destruct policy; auto.
Qed.

Lemma PRIMES_mono i j p q :
  PRIMES.[i] = Some p -> PRIMES.[j] = Some q -> i < j -> p < q.
Proof.
  intros Hi Hj Hij. pose proof (zget_lt _ _ _ Hi). pose proof (zget_lt _ _ _ Hj).
  change (zlen PRIMES) with PRIMES_LENGTH in *.
  pose proof PRIMES_indices. bool_prop.
  match goal with H : forallb _ (seqZ 0 PRIMES_LENGTH) = true |- _ =>
    match type of H with context [seqZ (_ + 1) _] =>
      apply (forallb_seqZ _ _ _ i) in H; [|lia]; apply (forallb_seqZ _ _ _ j) in H; [|lia];
      rewrite Hi, Hj in H; bool_prop; done end end.
Qed.

Lemma PRIMES_get i : 0 <= i < PRIMES_LENGTH -> exists p, PRIMES.[i] = Some p.
Proof. intros. by apply zget_is_Some. Qed.

Lemma PRIMES_facts i p : PRIMES.[i] = Some p -> prime p /\ 13 <= p < 2 ^ 31.
Proof.
  intros [_ H]%zget_Some. apply list_elem_of_lookup_2 in H. apply PRIMES_check in H. tauto.
Qed.

(** ** The invariant of a table *)
Section table.
  Context (hasher : Z -> UHashTok -> Z) (equals : Z -> UHashTok -> UHashTok -> bool).

Definition table_map (h : UHashtable) (k : UHashTok) : option UHashTok :=
  match elements h with
  | Some es => abs (equals (keyComparator h)) es k
  | None => None
  end.

#[local] Abbreviation laws h := (KeyLaws (hasher (keyHasher h)) (equals (keyComparator h))).

(** The length is one of the primes, and the water marks are those of one of
    the resize policies. *)
Definition sized (h : UHashtable) (i : Z) (policy : UHashResizePolicy) : Prop :=
  PRIMES.[i] = Some (length h) /\ i <= MAX_INDEX /\
  (lowWaterRatio h, highWaterRatio h) = RESIZE_POLICY_RATIO policy /\
  waterMark (length h) (lowWaterRatio h) = Some (lowWaterMark h) /\
  waterMark (length h) (highWaterRatio h) = Some (highWaterMark h).

(** The array is in order; [index_ok] adds that the prime index has not
    fallen behind the length. *)
Record wf0 (h : UHashtable) (es : list UHashElement) : Prop := {
  wf_elements : elements h = Some es;
  wf_table : table_ok (hasher (keyHasher h)) (equals (keyComparator h)) es (length h);
  wf_count : count h = live_count es;
  wf_room : count h < length h;
  wf_sized : exists i policy, sized h i policy
}.

Definition index_ok (h : UHashtable) : Prop :=
  exists i, PRIMES.[i] = Some (length h) /\ i <= primeIndex h < PRIMES_LENGTH.

Definition wf (h : UHashtable) : Prop := (exists es, wf0 h es) /\ index_ok h.

Lemma wf0_length h es : wf0 h es -> prime (length h) /\ 13 <= length h < 2 ^ 30.
Proof.
  intros [_ _ _ _ (i & policy & Hp & Hi & _)]. pose proof (PRIMES_facts _ _ Hp) as [? ?].
  pose proof (zget_lt _ _ _ Hp). change (zlen PRIMES) with PRIMES_LENGTH in *.
  pose proof (index_checked i ltac:(lia)) as Hc. unfold index_check in Hc.
  rewrite Hp, Z_leb_true in Hc by done. bool_prop. split; [done|lia].
Qed.

(** ** Searching *)
Lemma find_spec h es key :
  wf0 h es -> laws h ->
  exists i e, _uhash_find equals h key (hasher (keyHasher h) key) = Some (Some i) /\
    es.[i] = Some e /\
    ((live e = true /\ equals (keyComparator h) key (e_key e) = true) \/
     (dead_slot e /\ absent (equals (keyComparator h)) es key /\
      free_for (hasher (keyHasher h)) es (length h) key i)).
Proof.
  intros Hwf Hlaws. pose proof (wf0_length h es Hwf) as [Hprime Hlen].
  destruct Hwf as [He Ht Hc Hroom _]. unfold _uhash_find. rewrite He. mstep.
  change (Z.land (hasher (keyHasher h) key) 0x7FFFFFFF) with (stored_hash (hasher (keyHasher h) key)).
  pose proof (stored_hash_range (hasher (keyHasher h) key)) as Hr.
  set (hc := stored_hash (hasher (keyHasher h) key)) in *.
  assert (Z.rem (Z.lxor hc 0x4000000) (length h) = start_of (length h) hc) as Hstart.
  { unfold start_of. apply Z.rem_mod_nonneg; [|lia]. apply Z.lxor_nonneg. split; lia. }
  rewrite Hstart.
  destruct (find_loop_spec equals h es key hc Hprime ltac:(lia) (ok_len _ _ _ _ Ht) ltac:(lia)
    (Z.to_nat (length h)) 0 (start_of (length h) hc) (-1) 0) as (r & Hf & Hres).
  - split; [lia|by rewrite probe_0 by lia|done|intros; lia|intros ? ? ?; lia|].
    left. split; [done|]. intros; lia.
  - lia.
  - lia.
  - destruct (find_result_wf _ _ es (length h) key r Ht ltac:(lia) Hres) as (i & e & -> & ?).
    exists i, e. by rewrite Hf.
Qed.

(** The search only sees the stored part of the hashcode. *)
Lemma find_stored h key hc : _uhash_find equals h key (stored_hash hc) = _uhash_find equals h key hc.
Proof.
  unfold _uhash_find. destruct (elements h); [|done]. mstep.
  fold (stored_hash (stored_hash hc)). fold (stored_hash hc). by rewrite stored_hash_idem.
Qed.

Lemma set_element_ok h es i e x :
  elements h = Some es -> es.[i] = Some e ->
  exists es', zset es i x = Some es' /\ set_element h i x = Some (set_elements h (Some es')).
Proof.
  intros He Hi. exists (<[Z.to_nat i := x]> es).
  pose proof (zset_Some es i x (zget_lt _ _ _ Hi)) as Hs.
  split; [done|]. unfold set_element. rewrite He. mstep. by rewrite Hs.
Qed.

(** Storing an entry in the slot that the search returned. *)
Lemma slot_put h es key value i e es' :
  wf0 h es -> laws h -> es.[i] = Some e ->
  ((live e = true /\ equals (keyComparator h) key (e_key e) = true) \/
   (dead_slot e /\ absent (equals (keyComparator h)) es key /\
    free_for (hasher (keyHasher h)) es (length h) key i)) ->
  zset es i (mkElement (stored_hash (hasher (keyHasher h) key)) value key) = Some es' ->
  table_ok (hasher (keyHasher h)) (equals (keyComparator h)) es' (length h) /\
  (forall k, abs (equals (keyComparator h)) es' k
             = spec_put (equals (keyComparator h)) (abs (equals (keyComparator h)) es) key value k) /\
  live_count es' = live_count es + (if live e then 0 else 1).
Proof.
  intros Hwf Hlaws Hi Hcase Hs. pose proof (wf0_length h es Hwf) as [Hp HL].
  destruct Hwf as [He Ht Hc Hroom _].
  assert (free_for (hasher (keyHasher h)) es (length h) key i) as Hfree.
  { destruct Hcase as [[??]|(_ & _ & ?)]; [|done]. eapply free_for_hit; eauto. }
  assert (forall j e', es.[j] = Some e' -> live e' = true ->
    equals (keyComparator h) key (e_key e') = true -> j = i) as Honly.
  { intros j e' Hj Hl Heq. destruct Hcase as [[Hl' Heq']|(_ & Habs & _)].
    - eapply (ok_uniq _ _ _ _ Ht); eauto. by rewrite <- (key_eq_l _ _ key).
    - specialize (Habs j e' Hj Hl). congruence. }
  assert (table_ok (hasher (keyHasher h)) (equals (keyComparator h)) es' (length h)) as Ht'
    by (eapply table_ok_set; eauto; lia).
  split; [done|]. split.
  - intros k. eapply (abs_set (hasher (keyHasher h))); eauto.
    intros e' He' Hl. simplify_eq. destruct Hcase as [[??]|(Hd & _)]; [done|].
    apply dead_not_live in Hd. congruence.
  - rewrite (live_count_set es es' i e _ Hi Hs).
    assert (live (mkElement (stored_hash (hasher (keyHasher h) key)) value key) = true) as ->
      by (apply live_true, stored_hash_range).
    destruct (live e); lia.
Qed.

(** ** Rehashing *)

(** The fields a rehash does not touch. *)
Definition same_config (h h' : UHashtable) : Prop :=
  keyHasher h' = keyHasher h /\ keyComparator h' = keyComparator h /\
  valueComparator h' = valueComparator h /\ keyDeleter h' = keyDeleter h /\
  valueDeleter h' = valueDeleter h /\ highWaterRatio h' = highWaterRatio h /\
  lowWaterRatio h' = lowWaterRatio h /\ allocated h' = allocated h.

(** Two entries of the old array with equal keys do not occur. *)
Definition distinct_keys (kc : Z) (e e' : UHashElement) : Prop :=
  live e = true -> live e' = true -> equals kc (e_key e) (e_key e') = false.

Definition rehash_post (h h' : UHashtable) (olds : list UHashElement) (es es' : list UHashElement) : Prop :=
  wf0 h' es' /\ same_config h h' /\ primeIndex h' = primeIndex h /\ length h' = length h /\
  highWaterMark h' = highWaterMark h /\ lowWaterMark h' = lowWaterMark h /\
  count h' = count h + live_count olds /\
  forall k,
    (forall e, e ∈ olds -> live e = true -> equals (keyComparator h) k (e_key e) = true ->
       abs (equals (keyComparator h)) es' k = Some (e_value e)) /\
    ((forall e, e ∈ olds -> live e = true -> equals (keyComparator h) k (e_key e) = false) ->
       abs (equals (keyComparator h)) es' k = abs (equals (keyComparator h)) es k).

Lemma live_count_cons e es : live_count (e :: es) = (if live e then 1 else 0) + live_count es.
Proof.
  unfold live_count. rewrite filter_cons. destruct (live e) eqn:E; case_decide; try done; zlia.
Qed.

Lemma rehash_loop_spec olds h es :
  wf0 h es -> laws h ->
  Forall (fun e => live e = true -> e_hashcode e = stored_hash (hasher (keyHasher h) (e_key e)) /\
                   absent (equals (keyComparator h)) es (e_key e)) olds ->
  ForallOrdPairs (distinct_keys (keyComparator h)) olds ->
  live_count es + live_count olds < length h ->
  exists h' es', rehash_loop equals h olds = Some h' /\ rehash_post h h' olds es es'.
Proof.
  revert h es. induction olds as [|old olds IH]; intros h es Hwf Hlaws Hall Hdist Hroom.
  { exists h, es. split; [done|].
    split_and!; auto; [repeat split|change (live_count []) with 0; lia|].
    intros k. split; [|done]. intros e H. by apply elem_of_nil in H. }
  apply Forall_cons in Hall as [Hold Hall]. inversion Hdist as [|? ? Hd Hdist']; subst.
  rewrite live_count_cons in Hroom. cbn [rehash_loop]. fold (live old).
  destruct (live old) eqn:Elive.
  2:{ destruct (IH h es) as (h' & es' & -> & Hpost); auto. exists h', es'. split; [done|].
      destruct Hpost as (? & ? & ? & ? & ? & ? & Hcnt & Hk).
      split_and!; auto; [rewrite live_count_cons, Elive; lia|].
      intros k. destruct (Hk k) as [Hk1 Hk2]. split.
      - intros e [->|Hin]%elem_of_cons Hl; [congruence|]. by apply Hk1.
      - intros Hno. apply Hk2. intros e Hin. apply Hno. by apply elem_of_cons; right. }
  destruct (Hold eq_refl) as [Hhash Habsent].
  destruct (find_spec h es (e_key old) Hwf Hlaws) as (i & e & Hf & Hi & Hcase).
  rewrite Hhash, find_stored, Hf. mstep.
  destruct (set_element_ok h es i e
    (mkElement (stored_hash (hasher (keyHasher h) (e_key old))) (e_value old) (e_key old))
    (wf_elements _ _ Hwf) Hi) as (es1 & Hs & Hset).
  rewrite Hset. mstep.
  assert (live e = false) as Hdead.
  { destruct Hcase as [[Hl Heq]|[Hd' _]]; [|by apply dead_not_live].
    specialize (Habsent i e Hi Hl). congruence. }
  destruct (slot_put h es (e_key old) (e_value old) i e es1 Hwf Hlaws Hi Hcase Hs)
    as (Ht1 & Habs1 & Hcount1). rewrite Hdead in Hcount1.
  set (h1 := set_count (set_elements h (Some es1)) (count h + 1)).
  pose proof (wf_count _ _ Hwf) as Hcnt.
  pose proof (live_count_bounds olds) as Hpos.
  assert (wf0 h1 es1) as Hwf1.
  { split; [done|done|simpl; lia|simpl; lia|exact (wf_sized _ _ Hwf)]. }
  destruct (IH h1 es1 Hwf1 Hlaws) as (h' & es' & Hrun & Hpost).
  - apply Forall_forall. intros e' Hin Hl'. rewrite Forall_forall in Hall, Hd.
    destruct (Hall e' Hin Hl') as [Hh' Ha']. split; [done|].
    apply abs_None. rewrite Habs1. unfold spec_put.
    rewrite (key_eq_sym (hasher (keyHasher h)) (equals (keyComparator h))), (Hd e' Hin Elive Hl'). by apply abs_None.
  - done.
  - simpl. lia.
  - exists h', es'. split; [done|].
    destruct Hpost as (Hw & Hsame & Hpi & Hlen & Hhi & Hlo & Hc' & Hk).
    split_and!; auto; [rewrite live_count_cons, Elive; simpl in Hc'; lia|].
    intros k. destruct (Hk k) as [Hk1 Hk2]. rewrite Forall_forall in Hd.
    assert (forall e', e' ∈ olds -> live e' = true ->
      equals (keyComparator h) k (e_key old) = true ->
      equals (keyComparator h) k (e_key e') = false) as Hexcl.
    { intros e' Hin Hl' Heq. rewrite (key_eq_l (hasher (keyHasher h)) _ k (e_key old)) by done.
      by apply (Hd e' Hin). }
    split.
    + intros e' [->|Hin]%elem_of_cons Hl' Heq; [|by apply Hk1].
      simpl in Hk2. rewrite Hk2 by eauto. rewrite Habs1. unfold spec_put. by rewrite Heq.
    + intros Hno. simpl in Hk2. rewrite Hk2.
      * rewrite Habs1. unfold spec_put. rewrite Hno; [done|constructor|done].
      * intros e' Hin. apply Hno. by apply elem_of_cons; right.
Qed.

(** A fresh table of length [PRIMES[j]] made from [h]. *)
Definition fresh (h h' : UHashtable) (j : Z) (policy : UHashResizePolicy) : Prop :=
  exists es, wf0 h' es /\ (forall k, abs (equals (keyComparator h')) es k = None) /\ count h' = 0 /\
    sized h' j policy /\ same_config h h' /\ primeIndex h' = j.

Lemma policy_marks j p policy :
  0 <= j <= MAX_INDEX -> PRIMES.[j] = Some p ->
  exists low high, waterMark p (fst (RESIZE_POLICY_RATIO policy)) = Some low /\
    waterMark p (snd (RESIZE_POLICY_RATIO policy)) = Some high /\ 0 <= low /\
    p <= 2 * (high + 1) /\
    forall i q, Z.max 0 (j - 1) <= i < PRIMES_LENGTH -> PRIMES.[i] = Some q -> low <= q.
Proof.
  intros Hj Hp. pose proof (policy_checked j policy Hj) as H. unfold policy_check in H.
  rewrite Hp in H. destruct (waterMark p _) as [low|]; [|done].
  destruct (waterMark p _) as [high|]; [|done]. bool_prop.
  exists low, high. split_and!; auto; try lia.
  intros i q Hi Hq. match goal with H : forallb _ _ = true |- _ =>
    apply (forallb_seqZ _ _ _ i) in H; [|lia]; cbn beta in H; rewrite Hq in H; by apply Z.leb_le end.
Qed.

Lemma allocate_spec malloc h j policy status :
  malloc_limit malloc -> 0 <= j < PRIMES_LENGTH -> U_FAILURE status = false ->
  (lowWaterRatio h, highWaterRatio h) = RESIZE_POLICY_RATIO policy ->
  (exists p, PRIMES.[j] = Some p /\ malloc (u32 (sizeof_UHashElement * p)) = false /\
     _uhash_allocate malloc h j status
     = Some (set_elements (set_length (set_primeIndex h j) p) None, U_MEMORY_ALLOCATION_ERROR)) \/
  (j <= MAX_INDEX /\ exists h', _uhash_allocate malloc h j status = Some (h', status) /\
     fresh h h' j policy).
Proof.
  intros Hlim Hj Hst Hpol. destruct (PRIMES_get j Hj) as [p Hp].
  pose proof (index_checked j Hj) as Hidx. unfold index_check in Hidx. rewrite Hp in Hidx.
  unfold _uhash_allocate. rewrite Hst, Hp. mstep. cbv zeta.
  destruct (malloc (u32 (sizeof_UHashElement * p))) eqn:Hm; [right|left; eauto].
  apply Hlim in Hm. destruct (j <=? MAX_INDEX) eqn:Ej; bool_prop; [|lia].
  split; [done|]. simpl negb. cbv iota. rewrite Z_ltb_false by lia.
  destruct (policy_marks j p policy ltac:(lia) Hp) as (low & high & Hlow & Hhigh & _).
  rewrite <- Hpol in Hlow, Hhigh. simpl in Hlow, Hhigh. simpl. rewrite Hlow. mstep.
  rewrite Hhigh. mstep. pose proof (PRIMES_facts _ _ Hp) as [_ ?].
  eexists. split; [done|]. eexists. split_and!.
  - split; simpl; [done|apply table_ok_empty; lia|by rewrite live_count_empty|lia|].
    exists j, policy. split_and!; done.
  - intros k. apply abs_empty.
  - done.
  - split_and!; done.
  - repeat split.
  - done.
Qed.

Lemma distinct_of_table h es :
  wf0 h es -> laws h -> ForallOrdPairs (distinct_keys (keyComparator h)) (reverse es).
Proof.
  intros [_ Ht _ _ _] Hlaws.
  assert (forall l, (forall i j e e', l.[i] = Some e -> l.[j] = Some e' -> i < j ->
    distinct_keys (keyComparator h) e e') -> ForallOrdPairs (distinct_keys (keyComparator h)) l) as Hgen.
  { induction l as [|x l IH]; intros H; constructor.
    - apply Forall_lookup. intros n y Hy. apply (H 0 (1 + Z.of_nat n)); [done| |lia].
      rewrite (zget_app_r [x] l) by zlia. rewrite <- Hy, <- zget_nat. f_equal. zlia.
    - apply IH. intros i j e e' Hi Hj Hij. pose proof (zget_lt _ _ _ Hi).
      apply (H (1 + i) (1 + j)); [| |lia];
        rewrite (zget_app_r [x] l) by zlia; [rewrite <- Hi|rewrite <- Hj]; f_equal; zlia. }
  apply Hgen. intros i j e e' [Hi0 Hi]%zget_Some [Hj0 Hj]%zget_Some Hij Hl Hl'.
  destruct (equals _ _ _) eqn:Heq; [|done]. exfalso.
  apply reverse_lookup_Some in Hi as [Hi Hib]. apply reverse_lookup_Some in Hj as [Hj Hjb].
  rewrite <- zget_nat in Hi, Hj.
  pose proof (ok_uniq _ _ _ _ Ht _ _ _ _ Hi Hj Hl Hl' Heq). lia.
Qed.

Lemma live_count_reverse es : live_count (reverse es) = live_count es.
Proof. unfold live_count, zlen. f_equal. by rewrite (reverse_Permutation es). Qed.

(** Moving all entries into a fresh table keeps the abstract map. *)
Lemma rehash_fresh h es h1 j policy :
  wf0 h es -> laws h -> fresh h h1 j policy -> count h < length h1 ->
  exists h' es', rehash_loop equals h1 (reverse (take (Z.to_nat (length h)) es)) = Some h' /\
    wf0 h' es' /\ same_config h h' /\ primeIndex h' = j /\ sized h' j policy /\
    count h' = count h /\ forall k, table_map h' k = table_map h k.
Proof.
  intros Hwf Hlaws (es1 & Hwf1 & Habs1 & Hcnt1 & Hsized & Hsame & Hpi) Hroom.
  pose proof Hwf as [He Ht Hc _ _]. pose proof Hwf1 as [He1 Ht1 Hc1 _ _].
  assert (take (Z.to_nat (length h)) es = es) as ->.
  { rewrite <- (ok_len _ _ _ _ Ht). unfold zlen. rewrite Nat2Z.id. apply firstn_all. }
  destruct Hsame as (Ekh & Ekc & Erest). rewrite Ekc in Habs1.
  destruct (rehash_loop_spec (reverse es) h1 es1) as (h' & es' & Hrun & Hpost).
  - done.
  - by rewrite Ekh, Ekc.
  - rewrite Ekh, Ekc. apply Forall_forall. intros e Hin Hl. rewrite elem_of_reverse in Hin.
    apply list_elem_of_lookup in Hin as [n Hn]. rewrite <- zget_nat in Hn.
    split; [eapply (ok_hash _ _ _ _ Ht); eauto|]. apply abs_None. apply Habs1.
  - rewrite Ekc. by eapply distinct_of_table.
  - rewrite live_count_reverse. lia.
  - destruct Hpost as (Hw & (Ekh' & Ekc' & Erest') & Hpi' & Hlen & Hhi & Hlo & Hc' & Hk).
    exists h', es'. split; [done|]. split_and!; auto.
    + unfold same_config. destruct_and!. split_and!; congruence.
    + congruence.
    + unfold sized in *. destruct_and!. rewrite Hlen, Hhi, Hlo. split_and!; congruence.
    + rewrite live_count_reverse in Hc'. lia.
    + intros k. unfold table_map. rewrite (wf_elements _ _ Hw), He, Ekc', Ekc.
      destruct (Hk k) as [Hk1 Hk2]. rewrite Ekc in Hk1, Hk2.
      destruct (abs (equals (keyComparator h)) es k) as [v|] eqn:E.
      * apply abs_inv in E as (i & e & Hi & Hl & Heq & <-). apply Hk1; auto.
        apply elem_of_reverse. apply zget_Some in Hi as [_ Hi]. by apply list_elem_of_lookup_2 in Hi.
      * apply abs_None in E. rewrite Hk2; [apply Habs1|].
        intros e Hin. rewrite elem_of_reverse in Hin. apply list_elem_of_lookup in Hin as [n Hn].
        rewrite <- zget_nat in Hn. eauto.
Qed.

Lemma same_config_refl h : same_config h h.
Proof. repeat split. Qed.

Lemma same_config_trans h1 h2 h3 : same_config h1 h2 -> same_config h2 h3 -> same_config h1 h3.
Proof. unfold same_config. intros. destruct_and!. split_and!; congruence. Qed.

(** The prime that a resize moves to has room for the entries. *)
Lemma resize_fits h es i j p :
  wf0 h es -> PRIMES.[i] = Some (length h) -> i <= primeIndex h -> PRIMES.[j] = Some p ->
  (j = primeIndex h + 1) \/ (j = primeIndex h - 1 /\ count h < lowWaterMark h) -> count h < p.
Proof.
  intros [_ _ _ Hroom (i' & policy & Hi' & Hmax & Hratio & Hlow & Hhigh)] Hi Hle Hj Hcase.
  pose proof (zget_lt _ _ _ Hj) as Hjr. change (zlen PRIMES) with PRIMES_LENGTH in Hjr.
  destruct Hcase as [->|[-> Hc]].
  - pose proof (PRIMES_mono i (primeIndex h + 1) _ _ Hi Hj). lia.
  - assert (i = i') as <-.
    { destruct (Z.lt_trichotomy i i') as [H|[H|H]]; [|done|];
        pose proof (PRIMES_mono _ _ _ _ Hi Hi'); pose proof (PRIMES_mono _ _ _ _ Hi' Hi); lia. }
    pose proof (zget_lt _ _ _ Hi) as Hir.
    destruct (policy_marks i (length h) policy ltac:(lia) Hi) as (low & high & Hl & _ & _ & _ & Hfit).
    rewrite <- Hratio in Hl. simpl in Hl. rewrite Hlow in Hl. simplify_eq.
    specialize (Hfit (primeIndex h - 1) p ltac:(lia) Hj). lia.
Qed.

(** What a resize to index [j] does, whether or not the allocation succeeds. *)
Definition resized (h h' : UHashtable) : Prop :=
  (exists es', wf0 h' es') /\ same_config h h' /\ count h' = count h /\
  forall k, table_map h' k = table_map h k.

Lemma resize_to malloc h es i j status :
  wf0 h es -> laws h -> PRIMES.[i] = Some (length h) -> i <= primeIndex h ->
  malloc_limit malloc -> 0 <= j < PRIMES_LENGTH -> U_FAILURE status = false ->
  (j = primeIndex h + 1) \/ (j = primeIndex h - 1 /\ count h < lowWaterMark h) ->
  exists h' status',
    ('(h1, status) ← _uhash_allocate malloc h j status;
     if U_FAILURE status then Some (set_length (set_elements h1 (elements h)) (length h), status)
     else es ← elements h;
          h1 ← rehash_loop equals h1 (reverse (take (Z.to_nat (length h)) es));
          Some (h1, status)) = Some (h', status') /\
    resized h h' /\
    ((status' = status /\ index_ok h') \/
     (status' = U_MEMORY_ALLOCATION_ERROR /\ primeIndex h' = j /\ length h' = length h /\
      (mem_available malloc -> MAX_INDEX < j))).
Proof.
  intros Hwf Hlaws Hi Hle Hlim Hj Hst Hcase.
  pose proof Hwf as [He Ht Hc Hroom (i' & policy & Hsized)].
  destruct (allocate_spec malloc h j policy status Hlim Hj Hst) as [(p & Hp & Hm & ->)|(Hmax & h1 & -> & Hfresh)].
  { apply Hsized. }
  - mstep. change (U_FAILURE U_MEMORY_ALLOCATION_ERROR) with true. cbv iota.
    eexists _, _. split; [done|]. split.
    + split_and!; [|by repeat split|done|].
      * exists es. split; [done|done|done|done|]. by exists i', policy.
      * intros k. unfold table_map. simpl. done.
    + right. split_and!; [done|done|done|]. intros Hav.
      destruct (Z.le_gt_cases j MAX_INDEX) as [Hle'|]; [|done]. exfalso.
      pose proof (index_checked j Hj) as Hidx. unfold index_check in Hidx.
      rewrite Hp, Z_leb_true in Hidx by done. bool_prop. rewrite Hav in Hm; done.
  - mstep. rewrite Hst, He. mstep.
    assert (exists p, PRIMES.[j] = Some p /\ length h1 = p) as (p & Hp & Hlen1).
    { destruct Hfresh as (? & ? & ? & ? & (Hp & _) & _). eauto. }
    destruct (rehash_fresh h es h1 j policy Hwf Hlaws Hfresh) as (h' & es' & -> & Hw' & Hsame & Hpi & Hs' & Hc' & Hk).
    { rewrite Hlen1. by eapply resize_fits. }
    mstep. exists h', status. split; [done|]. split; [split_and!; eauto|].
    left. split; [done|]. exists j. split; [apply Hs'|]. lia.
Qed.

Lemma rehash_spec malloc h status :
  wf h -> laws h -> malloc_limit malloc -> U_FAILURE status = false ->
  exists h' status', _uhash_rehash equals malloc h status = Some (h', status') /\ resized h h' /\
    (status' = status \/ status' = U_MEMORY_ALLOCATION_ERROR) /\
    (highWaterMark h < count h \/ lowWaterMark h <= count h \/ mem_available malloc -> wf h').
Proof.
  intros [[es Hwf] (i & Hi & Hle)] Hlaws Hlim Hst. unfold _uhash_rehash. cbv zeta.
  assert (resized h h) as Hrefl by (split_and!; eauto using same_config_refl).
  assert (index_ok h) as Hidx by (exists i; split; [done|lia]).
  assert (wf h) as Hwfh by (split; eauto).
  destruct (count h >? highWaterMark h) eqn:E1; bool_prop.
  - destruct (primeIndex h + 1 >=? PRIMES_LENGTH) eqn:E2; bool_prop; [eauto 8|].
    destruct (resize_to malloc h es i (primeIndex h + 1) status) as (h' & st' & Hrun & Hres & Hcase);
      auto; [lia|pose proof (zget_lt _ _ _ Hi); lia|].
    exists h', st'. rewrite Hrun. split_and!; [done|done|destruct Hcase as [[-> _]|[-> _]]; auto|]. intros _.
    split; [apply Hres|]. destruct Hcase as [[_ ?]|(_ & Hpi & Hlen & _)]; [done|].
    exists i. rewrite Hpi, Hlen. split; [done|lia].
  - destruct (count h <? lowWaterMark h) eqn:E3; bool_prop; [|eauto 8].
    destruct (primeIndex h - 1 <? 0) eqn:E2; bool_prop; [eauto 8|].
    destruct (resize_to malloc h es i (primeIndex h - 1) status) as (h' & st' & Hrun & Hres & Hcase);
      auto; [lia|lia|].
    exists h', st'. rewrite Hrun. split_and!; [done|done|destruct Hcase as [[-> _]|[-> _]]; auto|]. intros Hav.
    split; [apply Hres|]. destruct Hcase as [[_ ?]|(_ & Hpi & Hlen & Hmax)]; [done|].
    destruct Hav as [?|[?|Hav]]; [lia|lia|]. specialize (Hmax Hav).
    destruct Hwf as [_ _ _ _ (i' & policy & Hi' & Hle' & _)].
    exists i'. rewrite Hpi, Hlen. split; [done|lia].
Qed.

(** ** The operations *)
Lemma get_element_wf h es i : wf0 h es -> get_element h i = es.[i].
Proof. intros Hwf. unfold get_element. by rewrite (wf_elements _ _ Hwf). Qed.

(** What the search says about the abstract map. *)
Lemma find_map h es key i e :
  wf0 h es -> laws h -> es.[i] = Some e ->
  ((live e = true /\ equals (keyComparator h) key (e_key e) = true) \/
   (dead_slot e /\ absent (equals (keyComparator h)) es key /\
    free_for (hasher (keyHasher h)) es (length h) key i)) ->
  table_map h key = if live e then Some (e_value e) else None.
Proof.
  intros Hwf Hlaws Hi Hcase. unfold table_map. rewrite (wf_elements _ _ Hwf).
  destruct Hcase as [[Hl Heq]|(Hd & Habs & _)].
  - rewrite Hl. eapply (abs_Some (hasher (keyHasher h))); eauto using wf_table.
  - rewrite (dead_not_live _ Hd). by apply abs_None.
Qed.

Lemma get_spec h key :
  wf h -> laws h -> uhash_get hasher equals h key = Some (default 0 (table_map h key)).
Proof.
  intros [[es Hwf] _] Hlaws. unfold uhash_get.
  destruct (find_spec h es key Hwf Hlaws) as (i & e & -> & Hi & Hcase). mstep.
  rewrite (get_element_wf h es), Hi by done. mstep. f_equal.
  rewrite (find_map h es key i e) by done. destruct Hcase as [[-> _]|(Hd & _)]; [done|].
  rewrite (dead_not_live _ Hd). by destruct Hd as (_ & -> & _).
Qed.

(** The deleter calls and the returned value of [_uhash_setElement]. *)
Definition set_result (h : UHashtable) (e : UHashElement) : UHashTok :=
  if negb (valueDeleter h =? 0) then 0 else e_value e.
Definition set_log (h : UHashtable) (e : UHashElement) (key value : UHashTok) : list deleter_call :=
  (if negb (keyDeleter h =? 0) && negb (e_key e =? 0) && negb (e_key e =? key)
   then [(keyDeleter h, e_key e)] else []) ++
  (if negb (valueDeleter h =? 0) && (negb (e_value e =? 0) && negb (e_value e =? value))
   then [(valueDeleter h, e_value e)] else []).

Lemma setElement_spec h es i e hc key value hint :
  elements h = Some es -> es.[i] = Some e ->
  exists es', zset es i (mkElement hc value key) = Some es' /\
    _uhash_setElement h i hc key value hint
    = Some (set_result h e, set_elements h (Some es'), set_log h e key value).
Proof.
  intros He Hi. destruct (set_element_ok h es i e (mkElement hc value key) He Hi) as (es' & Hs & Hset).
  exists es'. split; [done|]. unfold _uhash_setElement, get_element. rewrite He. mstep.
  rewrite Hi. mstep. cbv zeta. by rewrite Hset.
Qed.

(** Replacing the array of a well-formed table. *)
Lemma wf0_replace h es es' n :
  wf0 h es -> table_ok (hasher (keyHasher h)) (equals (keyComparator h)) es' (length h) ->
  n = live_count es' -> n < length h -> wf0 (set_elements (set_count h n) (Some es')) es'.
Proof. intros [_ _ _ _ Hsz] Ht Hn Hlt. by split. Qed.

(** Storing under a key that is not removed: the part after the rehash. *)
Lemma put_store h es i e key value hint :
  wf0 h es -> laws h -> es.[i] = Some e ->
  ((live e = true /\ equals (keyComparator h) key (e_key e) = true) \/
   (dead_slot e /\ absent (equals (keyComparator h)) es key /\
    free_for (hasher (keyHasher h)) es (length h) key i)) ->
  live e = true \/ count h + 1 < length h ->
  exists h' es',
    _uhash_setElement (if live e then h else set_count h (count h + 1)) i
      (stored_hash (hasher (keyHasher h) key)) key value hint
    = Some (set_result h e, h', set_log h e key value) /\
    wf0 h' es' /\ same_config h h' /\ primeIndex h' = primeIndex h /\ length h' = length h /\
    count h' = count h + (if live e then 0 else 1) /\
    forall k, table_map h' k = spec_put (equals (keyComparator h)) (table_map h) key value k.
Proof.
  intros Hwf Hlaws Hi Hcase Hroom. pose proof Hwf as [He Ht Hc Hlt _].
  set (h1 := if live e then h else set_count h (count h + 1)).
  destruct (setElement_spec h1 es i e (stored_hash (hasher (keyHasher h) key)) key value hint)
    as (es' & Hs & Hset); [by unfold h1; destruct (live e)|done|].
  destruct (slot_put h es key value i e es' Hwf Hlaws Hi Hcase Hs) as (Ht' & Habs & Hcount).
  exists (set_elements h1 (Some es')), es'. split.
  { rewrite Hset. unfold h1. by destruct (live e). }
  assert (set_elements h1 (Some es')
          = set_elements (set_count h (count h + (if live e then 0 else 1))) (Some es')) as ->.
  { unfold h1. destruct (live e); [rewrite Z.add_0_r|]; by destruct h. }
  split_and!; [|by repeat split|done|done|done|].
  - apply wf0_replace with es; [done|done|lia|]. destruct (live e); destruct Hroom; try done; lia.
  - intros k. unfold table_map. simpl. rewrite He, Habs. done.
Qed.
End table.
