(* ===== verification/UHashProps.v ===== *)
(** * UHashProps: the theorems about the hash table *)
From S2P Require Import Prelude UHash UHashFind UHashKeys UHashFacts.
From Stdlib Require Import Znumtheory.
Local Open Scope Z_scope.

(** ** Traversal *)
Definition entries (es : list UHashElement) : list UHashElement :=
  filter (fun e => live e = true) es.

Lemma entries_cons e es : entries (e :: es) = (if live e then [e] else []) ++ entries es.
Proof. unfold entries. rewrite filter_cons. destruct (live e) eqn:E; case_decide; done || congruence. Qed.

Lemma entries_app l1 l2 : entries (l1 ++ l2) = entries l1 ++ entries l2.
Proof. apply filter_app. Qed.

(** The next live slot of the rest [l2] of the array. *)
Inductive next_live (l1 l2 : list UHashElement) : option Z -> Prop :=
  | next_none : entries l2 = [] -> next_live l1 l2 None
  | next_some d e l3 :
      l2 = d ++ e :: l3 -> entries d = [] -> live e = true ->
      next_live l1 l2 (Some (zlen l1 + zlen d)).

Lemma nextElement_loop_spec fuel h l1 l2 :
  elements h = Some (l1 ++ l2) -> length h = zlen l1 + zlen l2 -> (List.length l2 <= fuel)%nat ->
  exists r, nextElement_loop fuel h (zlen l1) = Some r /\ next_live l1 l2 r.
Proof.
  revert l1 fuel. induction l2 as [|e l2 IH]; intros l1 fuel He HL Hf.
  - exists None. split; [|by constructor].
    destruct fuel; simpl; rewrite Z_ltb_false by zlia; done.
  - destruct fuel as [|fuel]; simpl in Hf; [lia|]. cbn [nextElement_loop].
    rewrite Z_ltb_true by zlia. unfold get_element. rewrite He. mstep.
    rewrite zget_middle by done. mstep. fold (live e). destruct (live e) eqn:El.
    + exists (Some (zlen l1)). split; [done|].
      replace (zlen l1) with (zlen l1 + zlen (@nil UHashElement)) at 1 by zlia.
      by apply next_some with e l2.
    + destruct (IH (l1 ++ [e]) fuel) as (r & Hr & Hn).
      * by rewrite <- app_assoc.
      * zlia.
      * lia.
      * exists r. split; [rewrite <- Hr; f_equal; zlia|].
        destruct Hn as [Hn|d e' l3 -> Hd He'].
        { constructor. by rewrite entries_cons, El. }
        replace (zlen (l1 ++ [e]) + zlen d) with (zlen l1 + zlen (e :: d)) by zlia.
        apply next_some with e' l3; [done|by rewrite entries_cons, El|done].
Qed.

Lemma nextElement_spec h l1 l2 pos :
  elements h = Some (l1 ++ l2) -> length h = zlen l1 + zlen l2 -> pos + 1 = zlen l1 ->
  exists r, uhash_nextElement h pos = Some r /\ next_live l1 l2 r.
Proof.
  intros He HL Hpos. unfold uhash_nextElement. rewrite Hpos. apply nextElement_loop_spec; auto.
  rewrite HL. unfold zlen. lia.
Qed.

Section props.
Context (hasher : Z -> UHashTok -> Z) (equals : Z -> UHashTok -> UHashTok -> bool).
#[local] Abbreviation laws h := (KeyLaws (hasher (keyHasher h)) (equals (keyComparator h))).
#[local] Abbreviation wf := (wf hasher equals).
#[local] Abbreviation wf0 := (wf0 hasher equals).
#[local] Abbreviation table_map := (table_map equals).

Lemma removeElement_spec h es i e :
  wf0 h es -> laws h -> es.[i] = Some e -> live e = true ->
  exists es', zset es i (mkElement HASH_DELETED emptytok emptytok) = Some es' /\
    let h' := set_elements (set_count h (count h - 1)) (Some es') in
    _uhash_internalRemoveElement h i = Some (set_result h e, h', set_log h e emptytok emptytok) /\
    wf0 h' es' /\ same_config h h' /\
    forall k, table_map h' k = spec_remove (equals (keyComparator h)) (table_map h) (e_key e) k.
Proof.
  intros Hwf Hlaws Hi Hl. pose proof Hwf as [He Ht Hc Hlt _].
  pose proof (wf0_length _ _ h es Hwf) as [Hp HL].
  destruct (setElement_spec (set_count h (count h - 1)) es i e HASH_DELETED emptytok emptytok 0)
    as (es' & Hs & Hset); [done|done|].
  exists es'. split; [done|]. cbv zeta.
  assert (table_ok (hasher (keyHasher h)) (equals (keyComparator h)) es' (length h)) as Ht'
    by (eapply table_ok_delete; eauto; lia).
  split_and!; [done| |by repeat split|].
  - apply wf0_replace with es; [done|done| |lia].
    rewrite (live_count_set es es' i e _ Hi Hs), Hl. simpl. lia.
  - intros k. unfold UHashFacts.table_map. simpl. rewrite He.
    eapply (abs_delete (hasher (keyHasher h))); eauto. apply key_refl.
Qed.

(** The loop of [uhash_removeAll] from a position before which no entry is left. *)
Lemma removeAll_loop_spec fuel h l1 l2 pos :
  wf0 h (l1 ++ l2) -> laws h -> entries l1 = [] -> pos + 1 = zlen l1 -> zlen l2 < Z.of_nat fuel ->
  exists h' es', removeAll_loop fuel h pos
      = Some (h', flat_map (fun e => set_log h e emptytok emptytok) (entries l2)) /\
    wf0 h' es' /\ entries es' = [] /\ same_config h h' /\
    primeIndex h' = primeIndex h /\ length h' = length h.
Proof.
  revert h l1 l2 pos. induction fuel as [|fuel IH]; intros h l1 l2 pos Hwf Hlaws Hl1 Hpos Hf; [zlia|].
  pose proof Hwf as [He Ht Hc Hlt _]. pose proof (ok_len _ _ _ _ Ht) as Hlen.
  cbn [removeAll_loop].
  destruct (nextElement_spec h l1 l2 pos He) as (r & -> & Hn); [zlia|done|]. mstep.
  destruct Hn as [Hn|d e l3 -> Hd Hl].
  { rewrite Hn. exists h, (l1 ++ l2). split_and!; auto using same_config_refl.
    by rewrite entries_app, Hl1, Hn. }
  set (i := zlen l1 + zlen d).
  assert ((l1 ++ d ++ e :: l3).[i] = Some e) as Hi.
  { rewrite app_assoc. apply zget_middle. zlia. }
  unfold uhash_removeElement. rewrite (get_element_wf hasher equals h _ i Hwf), Hi. mstep.
  fold (live e). rewrite Hl.
  destruct (removeElement_spec h _ i e Hwf Hlaws Hi Hl) as (es1 & Hs & -> & Hwf1 & Hsame & _). mstep.
  rewrite app_assoc, zset_middle in Hs by zlia. simplify_eq.
  set (h1 := set_elements (set_count h (count h - 1)) _) in *.
  set (del := mkElement HASH_DELETED emptytok emptytok) in *.
  rewrite (cons_middle del), app_assoc in Hwf1.
  destruct (IH h1 ((l1 ++ d) ++ [del]) l3 i) as (h' & es' & -> & Hwf' & Hes' & Hsame' & Hpi & Hlen').
  - done.
  - done.
  - rewrite !entries_app, Hl1, Hd. done.
  - unfold i. zlia.
  - zlia.
  - mstep. exists h', es'. split_and!; auto.
    f_equal. f_equal. rewrite entries_app, Hd, entries_cons, Hl. done.
Qed.

Lemma entries_nil_abs eqf es k : entries es = [] -> abs eqf es k = None.
Proof.
  intros H. apply abs_None. intros j e [_ Hj]%zget_Some Hl.
  assert (e ∈ entries es) as Hin.
  { apply list_elem_of_filter. split; [done|]. by apply list_elem_of_lookup_2 in Hj. }
  rewrite H in Hin. by apply elem_of_nil in Hin.
Qed.

(** The outcome of storing [value] under [key]. *)
Definition stored (h h' : UHashtable) (key value r : UHashTok) : Prop :=
  (forall k, table_map h' k = spec_put (equals (keyComparator h)) (table_map h) key value k) /\
  count h' = count h + (if table_map h key is Some _ then 0 else 1) /\
  r = (if valueDeleter h =? 0 then default 0 (table_map h key) else 0).

Lemma put_entry_spec h key value hint status :
  wf h -> laws h ->
  exists r h' status' log, _uhash_put_entry hasher equals h key value hint status
      = Some (r, h', status', log) /\ wf h' /\ same_config h h' /\
    ((status' = status /\ stored h h' key value r) \/
     (status' = U_MEMORY_ALLOCATION_ERROR /\ h' = h /\ r = emptytok /\
      log = HASH_DELETE_KEY_VALUE h key value /\ count h + 1 = length h)).
Proof.
  intros [[es Hwf] Hidx] Hlaws. unfold _uhash_put_entry. cbv zeta.
  destruct (find_spec hasher equals h es key Hwf Hlaws) as (i & e & -> & Hi & Hcase). mstep.
  rewrite (get_element_wf hasher equals h es), Hi by done. mstep.
  pose proof (find_map hasher equals h es key i e Hwf Hlaws Hi Hcase) as Hold.
  replace (IS_EMPTY_OR_DELETED (e_hashcode e)) with (negb (live e))
    by (unfold live; apply negb_involutive).
  destruct (negb (live e) && (count h + 1 =? length h)) eqn:Efull.
  { bool_prop. eexists _, _, _, _. split; [done|].
    split_and!; [split; eauto|apply same_config_refl|]. right. split_and!; done. }
  destruct (put_store hasher equals h es i e key value hint Hwf Hlaws Hi Hcase)
    as (h' & es' & Hset & Hwf' & Hsame' & Hpi & Hlen & Hcnt' & Hmap').
  { pose proof (wf_room _ _ _ _ Hwf). destruct (live e); [by left|]. simpl in Efull. bool_prop.
    right. lia. }
  fold (stored_hash (hasher (keyHasher h) key)).
  replace (if negb (live e) then set_count h (count h + 1) else h)
    with (if live e then h else set_count h (count h + 1)) by (by destruct (live e)).
  rewrite Hset. mstep. eexists _, _, _, _. split; [done|]. split_and!; [|done|].
  - split; [eauto|]. destruct Hidx as (j & Hj & Hjr). exists j. rewrite Hlen, Hpi. done.
  - left. split; [done|]. split_and!; [done| |].
    + rewrite Hcnt', Hold. by destruct (live e).
    + unfold set_result. rewrite Hold. destruct (valueDeleter h =? 0); [|done]. simpl.
      destruct Hcase as [[-> _]|(Hd & _)]; [done|]. rewrite (dead_not_live _ Hd).
      by destruct Hd as (_ & -> & _).
Qed.

(** The growth step of [_uhash_put]. *)
Lemma put_grow_spec malloc h status :
  wf h -> laws h -> malloc_limit malloc -> U_FAILURE status = false ->
  exists h1 st1, (if count h >? highWaterMark h then _uhash_rehash equals malloc h status
      else Some (h, status)) = Some (h1, st1) /\
    wf h1 /\ same_config h h1 /\ count h1 = count h /\ (forall k, table_map h1 k = table_map h k) /\
    (st1 = status /\ (highWaterMark h < count h \/ h1 = h) \/
     st1 = U_MEMORY_ALLOCATION_ERROR /\ highWaterMark h < count h).
Proof.
  intros Hwf Hlaws Hlim Hst. destruct (count h >? highWaterMark h) eqn:E; bool_prop.
  - destruct (rehash_spec hasher equals malloc h status Hwf Hlaws Hlim Hst)
      as (h1 & st1 & ? & (_ & ? & ? & ?) & Hcase & Hw).
    exists h1, st1. split_and!; auto. destruct Hcase; auto.
  - exists h, status. split_and!; auto using same_config_refl.
Qed.

Lemma stored_after h h1 h' key value r :
  same_config h h1 -> count h1 = count h -> (forall k, table_map h1 k = table_map h k) ->
  stored h1 h' key value r -> stored h h' key value r.
Proof.
  intros (_ & Ekc & _ & _ & Evd & _) Hcnt Hmap (Hk & Hc & Hr). split_and!.
  - intros k. rewrite Hk, Ekc. unfold spec_put. by rewrite Hmap.
  - by rewrite Hc, Hcnt, Hmap.
  - by rewrite Hr, Evd, Hmap.
Qed.

Lemma remove_spec malloc h key :
  wf h -> laws h -> malloc_limit malloc -> lowWaterMark h <= 0 \/ mem_available malloc ->
  exists r h' log, _uhash_remove hasher equals malloc h key = Some (r, h', log) /\
    wf h' /\ same_config h h' /\
    (forall k, table_map h' k = spec_remove (equals (keyComparator h)) (table_map h) key k) /\
    count h' = count h - (if table_map h key is Some _ then 1 else 0) /\
    r = (if valueDeleter h =? 0 then default 0 (table_map h key) else 0).
Proof.
  intros [[es Hwf] Hidx] Hlaws Hlim Hlow. unfold _uhash_remove.
  destruct (find_spec hasher equals h es key Hwf Hlaws) as (i & e & -> & Hi & Hcase). mstep.
  rewrite (get_element_wf hasher equals h es), Hi by done. mstep. fold (live e).
  rewrite (find_map hasher equals h es key i e Hwf Hlaws Hi Hcase).
  destruct Hcase as [[Hl Heq]|(Hd & Habs & _)].
  2:{ rewrite (dead_not_live _ Hd). eexists _, _, _. split; [done|].
      split_and!; [split; eauto|apply same_config_refl| |lia|by destruct (_ =? _)].
      intros k. unfold spec_remove. destruct (equals (keyComparator h) k key) eqn:Ek; [|done].
      unfold UHashFacts.table_map. rewrite (wf_elements _ _ _ _ Hwf).
      rewrite (abs_proper (hasher (keyHasher h)) _ es (length h) k key) by eauto using wf_table.
      by apply abs_None. }
  rewrite Hl. destruct (removeElement_spec h es i e Hwf Hlaws Hi Hl)
    as (es' & Hs & -> & Hwf1 & Hsame & Hmap). mstep.
  set (h1 := set_elements _ _) in *.
  assert (forall k, table_map h1 k = spec_remove (equals (keyComparator h)) (table_map h) key k) as Hmap1.
  { intros k. rewrite Hmap. unfold spec_remove.
    rewrite (key_eq_sym (hasher (keyHasher h)) _ k (e_key e)), (key_eq_sym (hasher (keyHasher h)) _ k key).
    by rewrite (key_eq_l (hasher (keyHasher h)) _ key (e_key e)). }
  assert (wf h1) as Hwfh1 by (split; [by exists es'|exact Hidx]).
  assert (set_result h e = if valueDeleter h =? 0 then default 0 (Some (e_value e)) else 0) as Hr
    by (unfold set_result; by destruct (valueDeleter h =? 0)).
  assert (Hcnt : count h1 = count h - 1) by done.
  destruct (count h1 <? lowWaterMark h1) eqn:E; bool_prop.
  2:{ eexists _, _, _. split; [done|]. by split_and!. }
  pose proof (live_count_bounds es'). pose proof (wf_count _ _ _ _ Hwf1).
  change (lowWaterMark h1) with (lowWaterMark h) in *.
  destruct (rehash_spec hasher equals malloc h1 U_ZERO_ERROR Hwfh1 Hlaws Hlim eq_refl)
    as (h2 & st2 & -> & (_ & Hsame2 & Hcnt2 & Hmap2) & _ & Hwf2). mstep.
  eexists _, _, _. split; [done|]. split_and!; auto.
  { apply Hwf2. destruct Hlow as [|Hav]; [lia|auto]. }
  intros k. by rewrite Hmap2, Hmap1.
Qed.

Lemma allocate_open malloc kh kc vc j :
  malloc_limit malloc -> 0 <= j < PRIMES_LENGTH ->
  _uhash_create malloc kh kc vc j U_ZERO_ERROR = Some (None, U_MEMORY_ALLOCATION_ERROR) \/
  (j <= MAX_INDEX /\ exists h, _uhash_create malloc kh kc vc j U_ZERO_ERROR = Some (Some h, U_ZERO_ERROR) /\
     wf h /\ (forall k, table_map h k = None) /\ count h = 0 /\ keyHasher h = kh /\
     keyComparator h = kc /\ lowWaterRatio h = mkFloat 0 0 /\ PRIMES.[j] = Some (length h)).
Proof.
  intros Hlim Hj. unfold _uhash_create, _uhash_init. simpl.
  destruct (malloc sizeof_UHashtable); [|by left]. simpl. cbv zeta.
  match goal with |- context [_uhash_allocate _ ?x _ _] => set (h0 := x) end.
  destruct (allocate_spec hasher equals malloc h0 j U_GROW U_ZERO_ERROR Hlim Hj eq_refl eq_refl)
    as [(p & Hp & Hm & ->)|(Hmax & h & -> & es & Hwf & Habs & Hc & Hsz & Hsame & Hpi)]; [by left|].
  right. split; [done|]. mstep. simpl. eexists. split; [done|].
  destruct Hsame as (Ekh & Ekc & _ & _ & _ & _ & Elow & _).
  destruct Hwf as [He Ht Hcnt Hroom Hsized].
  split_and!.
  - split; [exists es; split; done|]. exists j. split; [apply Hsz|]. simpl. lia.
  - intros k. unfold UHashFacts.table_map. simpl. rewrite He. apply Habs.
  - done.
  - done.
  - done.
  - done.
  - apply Hsz.
Qed.

(** With a zero low-water ratio the table never shrinks. *)
Lemma low_zero h : wf h -> lowWaterRatio h = mkFloat 0 0 -> lowWaterMark h = 0.
Proof.
  intros [[es [_ _ _ _ (i & policy & _ & _ & _ & Hlow & _)]] _] Hr. rewrite Hr in Hlow.
  unfold waterMark in Hlow. cbn [f_mant f_exp] in Hlow. rewrite Z.mul_0_r in Hlow.
  change (round24 0 ?e) with (mkFloat 0 e) in Hlow. cbn [f_mant f_exp] in Hlow.
  rewrite Z.mul_0_l, Zdiv_0_l in Hlow. destruct (0 <=? _); by injection Hlow.
Qed.

Lemma put_spec malloc h key value hint status :
  wf h -> laws h -> malloc_limit malloc -> U_FAILURE status = false ->
  Z.land hint HINT_VALUE_POINTER = 0 \/ value <> 0 ->
  exists r h' status' log,
    _uhash_put hasher equals malloc h key value hint status = Some (r, h', status', log) /\
    wf h' /\ same_config h h' /\
    ((status' = status /\ stored h h' key value r) \/
     (status' = U_MEMORY_ALLOCATION_ERROR /\ (forall k, table_map h' k = table_map h k) /\
      r = emptytok /\ log = HASH_DELETE_KEY_VALUE h key value /\
      (highWaterMark h < count h \/ count h + 1 = length h))).
Proof.
  intros Hwf Hlaws Hlim Hst Hval. unfold _uhash_put. rewrite Hst.
  assert (negb (Z.land hint HINT_VALUE_POINTER =? 0) && (value =? 0) = false) as ->.
  { destruct Hval as [->|Hv]; [done|]. apply Z.eqb_neq in Hv. by rewrite Hv, andb_false_r. }
  destruct (put_grow_spec malloc h status) as (h1 & st1 & -> & Hwf1 & Hsame & Hcnt & Hmap & Hcase); auto.
  mstep. pose proof Hsame as (Ekh & Ekc & _ & Ekd & Evd & _).
  assert (HASH_DELETE_KEY_VALUE h1 key value = HASH_DELETE_KEY_VALUE h key value) as Hdel
    by (unfold HASH_DELETE_KEY_VALUE; by rewrite Ekd, Evd).
  destruct Hcase as [[-> Hcause]|[-> Hcause]].
  2:{ eexists _, _, _, _. split; [done|]. split_and!; auto. right. split_and!; auto. }
  rewrite Hst. destruct (put_entry_spec h1 key value hint status) as (r & h' & st' & log & -> & Hwf' & Hs' & Hout);
    [done|by rewrite Ekh, Ekc|].
  eexists _, _, _, _. split; [done|]. split_and!; [done|by eapply same_config_trans|].
  destruct Hout as [[-> Hst']|(-> & -> & -> & -> & Hfull)].
  - left. split; [done|]. by eapply stored_after.
  - right. split_and!; auto. destruct Hcause as [?| ->]; auto.
Qed.

Lemma removeAll_spec h es :
  wf0 h es -> index_ok h -> laws h ->
  exists h', uhash_removeAll h
      = Some (h', flat_map (fun e => set_log h e emptytok emptytok) (entries es)) /\
    wf h' /\ same_config h h' /\ count h' = 0 /\ forall k, table_map h' k = None.
Proof.
  intros Hwf Hidx Hlaws. unfold uhash_removeAll. pose proof (wf_count _ _ _ _ Hwf) as Hc.
  destruct (count h =? 0) eqn:E; bool_prop; cbn [negb].
  - assert (entries es = []) as Hes by (apply zlen_0_nil; change (live_count es <= 0); lia).
    rewrite Hes. exists h. split_and!; auto using same_config_refl; [split; eauto|].
    intros k. unfold UHashFacts.table_map. rewrite (wf_elements _ _ _ _ Hwf).
    by apply entries_nil_abs.
  - pose proof (ok_len _ _ _ _ (wf_table _ _ _ _ Hwf)) as Hlen.
    destruct (removeAll_loop_spec (S (Z.to_nat (length h))) h [] es UHASH_FIRST)
      as (h' & es' & -> & Hwf' & Hes' & Hsame & Hpi & Hlen'); [done|done|done|done|zlia|].
    exists h'. split_and!; auto.
    + split; [eauto|]. destruct Hidx as (j & Hj & ?). exists j. by rewrite Hlen', Hpi.
    + rewrite (wf_count _ _ _ _ Hwf'). unfold live_count. fold (entries es'). by rewrite Hes'.
    + intros k. unfold UHashFacts.table_map. rewrite (wf_elements _ _ _ _ Hwf').
      by apply entries_nil_abs.
Qed.

(** ** Histories of a table

    The calls a client makes after [uhash_open], each with its own allocator;
    a put that fails is an event without effect. *)
Inductive event : Type :=
  | EvPut (key value : UHashTok) (ok : bool)
  | EvRemove (key : UHashTok)
  | EvRemoveAll.

Definition spec_event (eqf : UHashTok -> UHashTok -> bool) (m : UHashTok -> option UHashTok)
    (ev : event) : UHashTok -> option UHashTok :=
  match ev with
  | EvPut key value true => spec_put eqf m key value
  | EvPut _ _ false => m
  | EvRemove key => spec_remove eqf m key
  | EvRemoveAll => fun _ => None
  end.

Inductive uhash_run (kh kc : Z) : list event -> UHashtable -> Prop :=
  | run_open malloc vc h status :
      malloc_limit malloc -> uhash_open malloc kh kc vc U_ZERO_ERROR = Some (Some h, status) ->
      uhash_run kh kc [] h
  | run_put malloc tr h key value hint r h' status log :
      uhash_run kh kc tr h -> malloc_limit malloc ->
      Z.land hint HINT_VALUE_POINTER = 0 \/ value <> 0 ->
      _uhash_put hasher equals malloc h key value hint U_ZERO_ERROR = Some (r, h', status, log) ->
      uhash_run kh kc (tr ++ [EvPut key value (U_SUCCESS status)]) h'
  | run_remove malloc tr h key r h' log :
      uhash_run kh kc tr h -> malloc_limit malloc ->
      _uhash_remove hasher equals malloc h key = Some (r, h', log) ->
      uhash_run kh kc (tr ++ [EvRemove key]) h'
  | run_removeAll tr h h' log :
      uhash_run kh kc tr h -> uhash_removeAll h = Some (h', log) ->
      uhash_run kh kc (tr ++ [EvRemoveAll]) h'.

Lemma spec_event_ext eqf m m' ev k :
  (forall k, m k = m' k) -> spec_event eqf m ev k = spec_event eqf m' ev k.
Proof.
  intros H. destruct ev as [key value []|key|]; simpl; auto; unfold spec_put, spec_remove;
    by destruct (eqf k key).
Qed.

Lemma run_invariant kh kc tr h :
  KeyLaws (hasher kh) (equals kc) -> uhash_run kh kc tr h ->
  wf h /\ keyHasher h = kh /\ keyComparator h = kc /\ lowWaterRatio h = mkFloat 0 0 /\
  forall k, table_map h k = foldl (spec_event (equals kc)) (fun _ => None) tr k.
Proof.
  intros Hlaws Hrun. induction Hrun as [malloc vc h status Hlim Hopen|malloc tr h key value hint r h' status log Hrun IH Hlim Hval Hput|malloc tr h key r h' log Hrun IH Hlim Hrem|tr h h' log Hrun IH Hall].
  - destruct (allocate_open malloc kh kc vc DEFAULT_PRIME_INDEX Hlim ltac:(done))
      as [H|(_ & h0 & H & Hwf & Hmap & _ & Ekh & Ekc & Elow & _)];
      unfold uhash_open in Hopen; rewrite H in Hopen; simplify_eq. split_and!; auto.
  - destruct IH as (Hwf & <- & <- & Elow & Hmap).
    destruct (put_spec malloc h key value hint U_ZERO_ERROR Hwf Hlaws Hlim eq_refl Hval)
      as (r0 & h0 & st0 & log0 & H & Hwf' & Hsame & Hcase).
    rewrite H in Hput. simplify_eq. destruct Hsame as (Ekh & Ekc & _ & _ & _ & _ & Elow' & _).
    split_and!; [done|done|done|congruence|]. intros k. rewrite foldl_app. simpl.
    destruct Hcase as [[-> (Hst & _)]|(-> & Hst & _)]; rewrite Hst; simpl; [|done].
    unfold spec_put. by rewrite Hmap.
  - destruct IH as (Hwf & <- & <- & Elow & Hmap).
    destruct (remove_spec malloc h key Hwf Hlaws Hlim) as (r0 & h0 & log0 & H & Hwf' & Hsame & Hm & _).
    { left. rewrite (low_zero h Hwf Elow). lia. }
    rewrite H in Hrem. simplify_eq. destruct Hsame as (Ekh & Ekc & _ & _ & _ & _ & Elow' & _).
    split_and!; [done|done|done|congruence|]. intros k. rewrite foldl_app. simpl.
    rewrite Hm. unfold spec_remove. by rewrite Hmap.
  - destruct IH as ([[es Hwf] Hidx] & <- & <- & Elow & Hmap).
    destruct (removeAll_spec h es Hwf Hidx Hlaws) as (h0 & H & Hwf' & Hsame & _ & Hm).
    rewrite H in Hall. simplify_eq. destruct Hsame as (Ekh & Ekc & _ & _ & _ & _ & Elow' & _).
    split_and!; [done|done|done|congruence|]. intros k. rewrite foldl_app. simpl. by rewrite Hm.
Qed.

Lemma close_loop_spec fuel h l1 l2 pos :
  elements h = Some (l1 ++ l2) -> length h = zlen l1 + zlen l2 -> pos + 1 = zlen l1 ->
  zlen l2 < Z.of_nat fuel ->
  close_loop fuel h pos
  = Some (flat_map (fun e => HASH_DELETE_KEY_VALUE h (e_key e) (e_value e)) (entries l2)).
Proof.
  revert l1 l2 pos. induction fuel as [|fuel IH]; intros l1 l2 pos He HL Hpos Hf; [zlia|].
  cbn [close_loop]. destruct (nextElement_spec h l1 l2 pos He HL Hpos) as (r & -> & Hn). mstep.
  destruct Hn as [Hn|d e l3 -> Hd Hl]; [by rewrite Hn|].
  unfold get_element. rewrite He. mstep. rewrite app_assoc, zget_middle by zlia. mstep.
  rewrite (IH ((l1 ++ d) ++ [e]) l3); [|by rewrite <- !app_assoc in *|zlia|zlia|zlia]. mstep.
  by rewrite entries_app, Hd, entries_cons, Hl.
Qed.

(** ** Properties *)

(** [uhash_get] of a well-formed table returns the value the table maps the
    key to, and NULL when there is none: the search always ends and its slot
    is never NULL. *)
Theorem uhash_get_refines h key :
  wf h -> laws h -> uhash_get hasher equals h key = Some (default 0 (table_map h key)).
Proof. apply get_spec. Qed.

(** [_uhash_put] of a non-NULL value either stores it, changing the abstract
    map at the key only, returning the old value (or NULL with a value deleter)
    and counting a new key, or runs out of memory; then the map is unchanged,
    key and value are handed to the deleters, and the table was above its
    high-water mark or one short of full.  The table stays well formed. *)
Theorem uhash_put_refines malloc h key value hint status :
  wf h -> laws h -> malloc_limit malloc -> U_FAILURE status = false ->
  Z.land hint HINT_VALUE_POINTER = 0 \/ value <> 0 ->
  exists r h' status' log,
    _uhash_put hasher equals malloc h key value hint status = Some (r, h', status', log) /\
    wf h' /\ same_config h h' /\
    ((status' = status /\ stored h h' key value r) \/
     (status' = U_MEMORY_ALLOCATION_ERROR /\ (forall k, table_map h' k = table_map h k) /\
      r = emptytok /\ log = HASH_DELETE_KEY_VALUE h key value /\
      (highWaterMark h < count h \/ count h + 1 = length h))).
Proof. apply put_spec. Qed.

(** [_uhash_remove] deletes the key from the abstract map and nothing else,
    returns its value (or NULL with a value deleter) and keeps the table well
    formed, provided that the table never shrinks or that the allocation of the
    smaller array succeeds. *)
Theorem uhash_remove_refines malloc h key :
  wf h -> laws h -> malloc_limit malloc -> lowWaterMark h <= 0 \/ mem_available malloc ->
  exists r h' log, _uhash_remove hasher equals malloc h key = Some (r, h', log) /\
    wf h' /\ same_config h h' /\
    (forall k, table_map h' k = spec_remove (equals (keyComparator h)) (table_map h) key k) /\
    count h' = count h - (if table_map h key is Some _ then 1 else 0) /\
    r = (if valueDeleter h =? 0 then default 0 (table_map h key) else 0).
Proof. apply remove_spec. Qed.

(** [uhash_removeAll] empties a well-formed table, and calls the deleters
    exactly once for each entry, in the order of the array. *)
Theorem uhash_removeAll_refines h es :
  wf0 h es -> index_ok h -> laws h ->
  exists h', uhash_removeAll h
      = Some (h', flat_map (fun e => set_log h e emptytok emptytok) (entries es)) /\
    wf h' /\ same_config h h' /\ count h' = 0 /\ forall k, table_map h' k = None.
Proof. apply removeAll_spec. Qed.


(** [uhash_close] hands every key and value of the table to the deleters,
    exactly once each, and frees the array. *)
Theorem uhash_close_deletes h es :
  wf0 h es ->
  uhash_close (Some h)
  = Some (Some (set_elements h None),
          flat_map (fun e => HASH_DELETE_KEY_VALUE h (e_key e) (e_value e)) (entries es), allocated h).
Proof.
  intros Hwf. pose proof (wf_elements _ _ _ _ Hwf) as He.
  pose proof (ok_len _ _ _ _ (wf_table _ _ _ _ Hwf)) as Hlen.
  unfold uhash_close. rewrite He. destruct (negb (keyDeleter h =? 0) || negb (valueDeleter h =? 0)) eqn:E.
  - rewrite (close_loop_spec _ h [] es); [done|done|zlia|done|zlia].
  - mstep. do 3 f_equal. symmetry. induction (entries es) as [|e l IH]; [done|]. simpl. rewrite IH.
    unfold HASH_DELETE_KEY_VALUE, call_deleter. bool_prop.
    by rewrite (proj2 (Z.eqb_eq (keyDeleter h) 0)), (proj2 (Z.eqb_eq (valueDeleter h) 0)).
Qed.
End props.

(** C32: the search loop of [_uhash_find] ends on every table whose length is one
    of the primes that can be allocated, whatever its slots contain: it finds
    the key, or a free slot such that no slot of the probe sequence up to the
    first empty one holds the key, or reports that every slot is in use. *)
Theorem uhash_find_total equals h es key hashcode i :
  elements h = Some es -> zlen es = length h -> PRIMES.[i] = Some (length h) -> i <= MAX_INDEX ->
  exists r, _uhash_find equals h key hashcode = Some r /\
    find_result (equals (keyComparator h)) es (length h) key (stored_hash hashcode) r.
Proof.
  intros He Hlen Hi Hmax. pose proof (PRIMES_facts _ _ Hi) as [Hprime Hrange].
  assert (length h < 2 ^ 30) as HL.
  { pose proof (zget_lt _ _ _ Hi). change (zlen PRIMES) with PRIMES_LENGTH in *.
    pose proof (index_checked i ltac:(lia)) as Hc. unfold index_check in Hc.
    rewrite Hi, Z_leb_true in Hc by done. bool_prop. lia. }
  pose proof (stored_hash_range hashcode) as Hr.
  unfold _uhash_find. rewrite He. mstep. fold (stored_hash hashcode).
  set (hc := stored_hash hashcode) in *.
  assert (Z.rem (Z.lxor hc 0x4000000) (length h) = start_of (length h) hc) as ->.
  { unfold start_of. apply Z.rem_mod_nonneg; [|lia]. apply Z.lxor_nonneg. split; lia. }
  apply (find_loop_spec equals h es key hc Hprime ltac:(lia) Hlen ltac:(lia) _ 0); [|lia|lia].
  split; [lia|by rewrite probe_0 by lia|done|intros; lia|intros ? ? ?; lia|].
  left. split; [done|]. intros; lia.
Qed.

(** ** Resizing *)
Definition churn_check (i : Z) (policy : UHashResizePolicy) : bool :=
  let '(low, high) := RESIZE_POLICY_RATIO policy in
  match PRIMES.[i], PRIMES.[i + 1] with
  | Some p, Some q =>
      match waterMark p low, waterMark p high, waterMark q low, waterMark q high with
      | Some lowp, Some highp, Some lowq, Some highq =>
          (lowq <=? highp + 1) && (highp + 1 <=? highq) &&
          ((lowq <=? 0) || ((lowp <=? lowq - 1) && (lowq - 1 <=? highp)))
      | _, _, _, _ => false
      end
  | _, _ => false
  end.

(** Resizing does not churn: when a put or a remove crosses a water mark of
    a table, its count lies between the water marks of the next larger, or next
    smaller, table (as the comment of the water ratios promises). *)
Theorem resize_no_churn i p q policy lowp highp lowq highq :
  0 <= i < MAX_INDEX -> PRIMES.[i] = Some p -> PRIMES.[i + 1] = Some q ->
  waterMark p (fst (RESIZE_POLICY_RATIO policy)) = Some lowp ->
  waterMark p (snd (RESIZE_POLICY_RATIO policy)) = Some highp ->
  waterMark q (fst (RESIZE_POLICY_RATIO policy)) = Some lowq ->
  waterMark q (snd (RESIZE_POLICY_RATIO policy)) = Some highq ->
  (lowq <= highp + 1 <= highq) /\ (0 < lowq -> lowp <= lowq - 1 <= highp).
Proof.
  intros Hi Hp Hq H1 H2 H3 H4.
  assert (forallb (fun i => forallb (churn_check i) all_policies) (seqZ 0 MAX_INDEX) = true) as H
    by (vm_compute; reflexivity).
  apply (forallb_seqZ _ _ _ i) in H; [|lia]. rewrite forallb_forall in H.
  specialize (H policy ltac:(destruct policy; simpl; auto)). unfold churn_check in H.
  destruct (RESIZE_POLICY_RATIO policy) as [low high]. simpl in *.
  rewrite Hp, Hq, H1, H2, H3, H4 in H. bool_prop. split; [lia|].
  match goal with H : _ \/ _ |- _ => destruct H; bool_prop; lia end.
Qed.


(** ** A concrete table *)
Definition heap (n : Z) : bool := n <=? HEAP_LIMIT.
Definition no_heap (n : Z) : bool := false.

Lemma heap_limit : malloc_limit heap.
Proof. intros n H. unfold heap in H. by bool_prop. Qed.
Lemma heap_available : mem_available heap.
Proof. intros n H. unfold heap. by apply Z.leb_le. Qed.

Definition opened : UHashtable :=
  default raw_table (r ← uhash_open heap 1 2 2 U_ZERO_ERROR; r.1).
Definition sample : UHashtable :=
  default raw_table ('(_, h, _, _) ← uhash_iputi long_hasher long_equals heap opened 5 50 U_ZERO_ERROR; Some h).

Lemma opened_run : uhash_run long_hasher long_equals 1 2 [] opened.
Proof.
  apply (run_open long_hasher long_equals 1 2 heap 2 opened U_ZERO_ERROR heap_limit). by vm_compute.
Qed.

Lemma sample_run : uhash_run long_hasher long_equals 1 2 [EvPut 5 50 true] sample.
Proof.
  apply (run_put long_hasher long_equals 1 2 heap [] opened 5 50 0 0 sample U_ZERO_ERROR []).
  - apply opened_run.
  - apply heap_limit.
  - by left.
  - by vm_compute.
Qed.

Lemma sample_laws : KeyLaws (long_hasher (keyHasher sample)) (long_equals (keyComparator sample)).
Proof. apply UHashKeys.long_laws. Qed.

Lemma sample_wf : wf long_hasher long_equals sample.
Proof. apply (run_invariant long_hasher long_equals 1 2 _ sample sample_laws sample_run). Qed.

Lemma sample_wf0 : wf0 long_hasher long_equals sample (default [] (elements sample)).
Proof.
  destruct sample_wf as [[es Hwf] _]. pose proof (wf_elements _ _ _ _ Hwf) as He.
  rewrite He. done.
Qed.

Lemma uhash_get_refines_witness :
  uhash_get long_hasher long_equals sample 5 = Some (default 0 (table_map long_equals sample 5)) /\
  table_map long_equals sample 5 = Some 50.
Proof.
  split; [|vm_compute; reflexivity]. apply uhash_get_refines; [apply sample_wf|apply sample_laws].
Defined.

Lemma uhash_put_refines_witness :
  exists r h' status' log,
    _uhash_put long_hasher long_equals heap sample 7 70 0 U_ZERO_ERROR = Some (r, h', status', log) /\
    wf long_hasher long_equals h'.
Proof.
  destruct (uhash_put_refines long_hasher long_equals heap sample 7 70 0 U_ZERO_ERROR)
    as (r & h' & st & log & H & Hwf & _);
    [apply sample_wf|apply sample_laws|apply heap_limit|reflexivity|left; reflexivity|].
  exists r, h', st, log. split; assumption.
Defined.

Lemma uhash_remove_refines_witness :
  exists r h' log, _uhash_remove long_hasher long_equals heap sample 5 = Some (r, h', log) /\
    table_map long_equals h' 5 = None.
Proof.
  destruct (uhash_remove_refines long_hasher long_equals heap sample 5)
    as (r & h' & log & H & _ & _ & Hm & _);
    [apply sample_wf|apply sample_laws|apply heap_limit|left; vm_compute; discriminate|].
  exists r, h', log. split; [assumption|]. rewrite Hm. vm_compute. reflexivity.
Defined.

Lemma uhash_removeAll_refines_witness :
  exists h', uhash_removeAll sample = Some (h', []) /\ count h' = 0.
Proof.
  destruct (uhash_removeAll_refines long_hasher long_equals sample (default [] (elements sample)))
    as (h' & H & _ & _ & Hc & _);
    [apply sample_wf0|apply (proj2 sample_wf)|apply sample_laws|].
  exists h'. split; [|assumption]. rewrite H. vm_compute. reflexivity.
Defined.


Lemma uhash_close_deletes_witness :
  uhash_close (Some sample) = Some (Some (set_elements sample None), [], true).
Proof.
  rewrite (uhash_close_deletes long_hasher long_equals sample _ sample_wf0). vm_compute. reflexivity.
Defined.

Lemma uhash_find_total_witness :
  exists r, _uhash_find long_equals sample 5 5 = Some r.
Proof.
  destruct (uhash_find_total long_equals sample (default [] (elements sample)) 5 5 3)
    as (r & H & _); [vm_compute; reflexivity..|vm_compute; discriminate|].
  exists r. assumption.
Defined.

Lemma resize_no_churn_witness :
  waterMark 127 (fst (RESIZE_POLICY_RATIO U_GROW_AND_SHRINK)) = Some 12 /\ 12 <= 30 + 1 <= 63.
Proof.
  split; [vm_compute; reflexivity|].
  apply (resize_no_churn 2 61 127 U_GROW_AND_SHRINK 6 30 12 63); try (vm_compute; reflexivity).
  split; vm_compute; [discriminate|reflexivity].
Defined.

(** ** Where the code departs from its intent *)

(** A table of 251 slots with 25 keys whose shrinking failed twice for lack of
    memory: [_uhash_allocate] has moved [primeIndex] from 3 to 1 while
    [_uhash_rehash] has put back the array and its length. *)
Definition add_key (h : option UHashtable) (k : Z) : option UHashtable :=
  h ← h; '(_, h, _, _) ← uhash_iputi long_hasher long_equals heap h k 1 U_ZERO_ERROR; Some h.
Definition del_key (malloc : Z -> bool) (h : option UHashtable) (k : Z) : option UHashtable :=
  h ← h; '(_, h, _) ← uhash_iremovei long_hasher long_equals malloc h k; Some h.
Definition starved : option UHashtable :=
  '(h, _) ← uhash_openSize heap 1 2 2 251 U_ZERO_ERROR;
  h ← h;
  h ← uhash_setResizePolicy long_equals no_heap h U_GROW_AND_SHRINK;
  foldl (del_key no_heap) (foldl add_key (Some h) (seqZ 1 25)) [25; 24].

(** After two shrinks that ran out of memory the index of a table of 251
    slots names the prime 31, so the next shrink, when memory is back, moves 22
    entries into 13 slots and dereferences the NULL that [_uhash_find] returns
    for a full table: the hypothesis of [uhash_remove_refines] on allocation is
    needed. *)
Theorem shrink_after_failed_allocation :
  exists h, starved = Some h /\ length h = 251 /\ primeIndex h = 1 /\ count h = 23 /\
    uhash_iremovei long_hasher long_equals heap h 23 = None.
Proof.
  destruct starved as [h|] eqn:E; [|exfalso; by vm_compute in E].
  exists h. vm_compute in E. injection E as <-. split_and!; by vm_compute.
Qed.

Definition single (k : Z) : UHashtable :=
  default raw_table ('(_, h, _, _) ← uhash_iputi long_hasher long_equals heap opened k 0 U_ZERO_ERROR; Some h).

(** [uhash_equals] does not tell a missing key from a key whose value is the
    integer 0: the tables of [1 -> 0] and [2 -> 0] are reported equal. *)
Theorem uhash_equals_missing_key :
  uhash_run long_hasher long_equals 1 2 [EvPut 1 0 true] (single 1) /\
  uhash_run long_hasher long_equals 1 2 [EvPut 2 0 true] (single 2) /\
  table_map long_equals (single 1) 1 = Some 0 /\ table_map long_equals (single 2) 1 = None /\
  uhash_equals long_hasher long_equals 100 200 (single 1) (single 2) = Some true.
Proof.
  split_and!; [| |by vm_compute..].
  - by apply (run_put long_hasher long_equals 1 2 heap [] opened 1 0 0 0 (single 1) U_ZERO_ERROR []);
      [apply opened_run|apply heap_limit|left|vm_compute].
  - by apply (run_put long_hasher long_equals 1 2 heap [] opened 2 0 0 0 (single 2) U_ZERO_ERROR []);
      [apply opened_run|apply heap_limit|left|vm_compute].
Qed.
