(* ===== verification/MathExtras.v ===== *)
(** * MathExtras: powers of two
      (src/Source/WTF/wtf/MathExtras.h, src/Source/JavaScriptCore/runtime/PropertyMapHashTable.h) *)
From S2P Require Import Prelude.
Local Open Scope Z_scope.

Definition roundUpToPowerOfTwo (v : Z) : Z :=
  let v := u32 (v - 1) in
  let v := Z.lor v (Z.shiftr v 1) in
  let v := Z.lor v (Z.shiftr v 2) in
  let v := Z.lor v (Z.shiftr v 4) in
  let v := Z.lor v (Z.shiftr v 8) in
  let v := Z.lor v (Z.shiftr v 16) in
  u32 (v + 1).

(** The copy of this function in PropertyMapHashTable.h *)
Definition nextPowerOf2 (v : Z) : Z :=
  let v := u32 (v - 1) in
  let v := Z.lor v (Z.shiftr v 1) in
  let v := Z.lor v (Z.shiftr v 2) in
  let v := Z.lor v (Z.shiftr v 4) in
  let v := Z.lor v (Z.shiftr v 8) in
  let v := Z.lor v (Z.shiftr v 16) in
  u32 (v + 1).

(** [hasOneBitSet] of WTF/wtf/MathExtras.h *)
Definition isPowerOf2 (v : Z) : bool := (Z.land (u32 (v - 1)) v =? 0) && negb (v =? 0).

(** The bits of [x] from [lo] to [hi] are set and there are none above. *)
Definition ones_between (x lo hi : Z) : Prop :=
  forall i, 0 <= i -> (lo <= i <= hi -> Z.testbit x i = true) /\ (hi < i -> Z.testbit x i = false).

Lemma smear_step x lo hi s :
  ones_between x lo hi -> 0 < s -> lo <= hi - s + 1 -> ones_between (Z.lor x (Z.shiftr x s)) (lo - s) hi.
Proof.
  intros Hx Hs Hlo i Hi. rewrite Z.lor_spec, Z.shiftr_spec by done. destruct (Hx i Hi) as [H1 H2].
  destruct (Hx (i + s) ltac:(lia)) as [H3 H4]. split; intros Hr.
  - destruct (decide (lo <= i)); [by rewrite H1 by lia|]. rewrite H3 by lia. apply orb_true_r.
  - by rewrite H2, H4 by lia.
Qed.

Lemma smear x m :
  0 <= m <= 31 -> 2 ^ m <= x < 2 ^ (m + 1) ->
  let x := Z.lor x (Z.shiftr x 1) in let x := Z.lor x (Z.shiftr x 2) in let x := Z.lor x (Z.shiftr x 4) in
  let x := Z.lor x (Z.shiftr x 8) in let x := Z.lor x (Z.shiftr x 16) in x = 2 ^ (m + 1) - 1.
Proof.
  intros Hm Hx x1 x2 x3 x4 x5.
  assert (ones_between x m m) as H0.
  { intros i Hi. split; intros Hr.
    - replace i with m by lia. assert (m = Z.log2 x) as -> by (symmetry; apply Z.log2_unique; lia).
      apply Z.bit_log2. lia.
    - apply Z.bits_above_log2; [lia|]. assert (Z.log2 x = m) by (apply Z.log2_unique; lia). lia. }
  pose proof (smear_step x m m 1 H0 ltac:(lia) ltac:(lia)) as H1.
  pose proof (smear_step x1 _ m 2 H1 ltac:(lia) ltac:(lia)) as H2.
  pose proof (smear_step x2 _ m 4 H2 ltac:(lia) ltac:(lia)) as H3.
  pose proof (smear_step x3 _ m 8 H3 ltac:(lia) ltac:(lia)) as H4.
  pose proof (smear_step x4 _ m 16 H4 ltac:(lia) ltac:(lia)) as H5. fold x1 x2 x3 x4 x5 in H5.
  replace (2 ^ (m + 1) - 1) with (Z.ones (m + 1)) by (rewrite Z.ones_equiv; lia). apply Z.bits_inj'. intros i Hi. destruct (H5 i Hi) as [Hlow Hhigh].
  destruct (decide (i <= m)).
  - rewrite Z.ones_spec_low by lia. apply Hlow. lia.
  - rewrite Z.ones_spec_high by lia. apply Hhigh. lia.
Qed.

(** The next power of two is the least one that is not smaller. *)
Lemma roundUpToPowerOfTwo_spec v :
  1 <= v <= 2 ^ 31 -> exists p, 0 <= p <= 31 /\ roundUpToPowerOfTwo v = 2 ^ p /\ v <= 2 ^ p /\ 2 ^ p < 2 * v.
Proof.
  intros Hv. unfold roundUpToPowerOfTwo. rewrite (u32_small (v - 1)) by lia.
  destruct (decide (v = 1)) as [->|]; [exists 0; split; [lia|]; split; [reflexivity|lia]|].
  set (m := Z.log2 (v - 1)). pose proof (Z.log2_spec (v - 1) ltac:(lia)) as Hm. fold m in Hm.
  assert (0 <= m) as Hm0 by apply Z.log2_nonneg.
  assert (m < 31) as Hm1 by (apply (Z.pow_lt_mono_r_iff 2); lia).
  cbv zeta. rewrite (smear (v - 1) m) by lia. exists (m + 1).
  assert (2 ^ (m + 1) <= 2 ^ 31) by (apply Z.pow_le_mono_r; lia).
  assert (2 ^ (m + 1) = 2 * 2 ^ m) by (rewrite Z.pow_add_r by lia; lia).
  replace (Z.succ m) with (m + 1) in Hm by lia. rewrite u32_small by lia. lia.
Qed.

Lemma nextPowerOf2_spec v :
  1 <= v <= 2 ^ 31 -> exists p, 0 <= p <= 31 /\ nextPowerOf2 v = 2 ^ p /\ v <= 2 ^ p /\ 2 ^ p < 2 * v.
Proof. exact (roundUpToPowerOfTwo_spec v). Qed.
