(* ===== verification/PropertyTable.v ===== *)
(** * PropertyTable: the property map of a structure
      (src/Source/JavaScriptCore/runtime/PropertyMapHashTable.h, PropertyTable.cpp, PropertyOffset.h, StructureInlines.h)

    The values array keeps the entries in the order they were added; the index array
    is a hash table with linear probing whose cells are positions in the values array
    counted from 1.  A key is the address of a uniqued string, and [hash] is
    the hash code that the string carries.  [None] is an access outside the arrays or
    a failed release assertion. *)
From S2P Require Import Prelude MathExtras.
Local Open Scope Z_scope.

(** ** Property offsets *)
Definition invalidOffset : Z := -1.
Definition firstOutOfLineOffset : Z := 100.

Definition numberOfOutOfLineSlotsForLastOffset (offset : Z) : Z :=
  if offset <? firstOutOfLineOffset then 0 else offset - firstOutOfLineOffset + 1.

Definition numberOfSlotsForLastOffset (offset inlineCapacity : Z) : Z :=
  if offset <? inlineCapacity then offset + 1
  else inlineCapacity + numberOfOutOfLineSlotsForLastOffset offset.

Definition offsetForPropertyNumber (propertyNumber inlineCapacity : Z) : Z :=
  if propertyNumber >=? inlineCapacity then propertyNumber + firstOutOfLineOffset - inlineCapacity
  else propertyNumber.

Definition isValidOffset (offset : Z) : bool := negb (offset =? invalidOffset).
Definition isInlineOffset (offset : Z) : bool := offset <? firstOutOfLineOffset.
Definition isOutOfLineOffset (offset : Z) : bool := negb (isInlineOffset offset).

(** The slot of a property: in the object, or, counted down from the butterfly
    pointer, before it; a [size_t]. *)
Definition offsetInInlineStorage (offset : Z) : Z := u64 offset.
Definition offsetInOutOfLineStorage (offset : Z) : Z := u64 (- (offset - firstOutOfLineOffset) - 1).
Definition offsetInRespectiveStorage (offset : Z) : Z :=
  if isInlineOffset offset then offsetInInlineStorage offset else offsetInOutOfLineStorage offset.

(** ** The table *)
Record PropertyMapEntry : Type := mkEntry { key : Z; offset : Z; attributes : Z }.

Definition PROPERTY_MAP_DELETED_ENTRY_KEY : Z := 1.
Definition EmptyEntryIndex : Z := 0.
Definition MinimumTableSize : Z := 16.

(** What zeroed memory holds. *)
Definition zeroed_entry : PropertyMapEntry := mkEntry 0 0 0.

Record PropertyTable : Type := mkTable {
  m_indexSize : Z;
  m_indexMask : Z;
  m_index : list Z;
  m_table : list PropertyMapEntry;
  m_keyCount : Z;
  m_deletedCount : Z;
  m_deletedOffsets : option (list Z)
}.

Definition set_counts (t : PropertyTable) (index : list Z) (table : list PropertyMapEntry) (keys deleted : Z)
    : PropertyTable :=
  mkTable (m_indexSize t) (m_indexMask t) index table keys deleted (m_deletedOffsets t).
Definition set_deletedOffsets (t : PropertyTable) (l : option (list Z)) : PropertyTable :=
  mkTable (m_indexSize t) (m_indexMask t) (m_index t) (m_table t) (m_keyCount t) (m_deletedCount t) l.

Definition tableCapacity (t : PropertyTable) : Z := Z.shiftr (m_indexSize t) 1.
Definition deletedEntryIndex (t : PropertyTable) : Z := tableCapacity t + 1.
Definition usedCount (t : PropertyTable) : Z := m_keyCount t + m_deletedCount t.
Definition canInsert (t : PropertyTable) : bool := usedCount t <? tableCapacity t.
Definition size (t : PropertyTable) : Z := m_keyCount t.
Definition isEmpty (t : PropertyTable) : bool := m_keyCount t =? 0.

Definition sizeForCapacity (capacity : Z) : Z :=
  if capacity <? MinimumTableSize / 2 then MinimumTableSize else u32 (nextPowerOf2 (capacity + 1) * 2).

(** Zeroed arrays for an index of [n] cells, and the two counts at zero. *)
Definition empty_table (n : Z) (deletedOffsets : option (list Z)) : PropertyTable :=
  mkTable n (n - 1) (replicate (Z.to_nat n) 0) (replicate (Z.to_nat (Z.shiftr n 1 + 1)) zeroed_entry) 0 0 deletedOffsets.

(** The entries of an iteration from [begin] to [end]. *)
Definition is_deleted (e : PropertyMapEntry) : bool := key e =? PROPERTY_MAP_DELETED_ENTRY_KEY.
Definition live (t : PropertyTable) : list PropertyMapEntry :=
  List.filter (fun e => negb (is_deleted e)) (take (Z.to_nat (usedCount t)) (m_table t)).

(** References taken and dropped on keys. *)
Inductive ref_event : Type := Ref (k : Z) | Deref (k : Z).

Section table.
Context (hash : Z -> Z).

(** The loop of [find]: the position of the entry, if there is one, and the cell of
    the index. *)
Fixpoint find_loop (fuel : nat) (t : PropertyTable) (k h : Z) : option (option Z * Z) :=
  match fuel with
  | O => None
  | S fuel =>
      let slot := Z.land h (m_indexMask t) in
      entryIndex ← (m_index t).[slot];
      if entryIndex =? EmptyEntryIndex then Some (None, slot)
      else
        e ← (m_table t).[entryIndex - 1];
        if k =? key e then Some (Some (entryIndex - 1), slot)
        else find_loop fuel t k (u32 (h + 1))
  end.

Definition find (t : PropertyTable) (k : Z) : option (option Z * Z) :=
  find_loop (Z.to_nat (m_indexSize t)) t k (hash k).

Definition get (t : PropertyTable) (k : Z) : option (option PropertyMapEntry) :=
  if m_keyCount t =? 0 then Some None
  else
    '(r, _) ← find t k;
    match r with
    | None => Some None
    | Some i => e ← (m_table t).[i]; Some (Some e)
    end.

(** The next free position of the values array is put into the cell. *)
Definition store (t : PropertyTable) (entry : PropertyMapEntry) (slot : Z) : option PropertyTable :=
  let entryIndex := usedCount t + 1 in
  index ← zset (m_index t) slot entryIndex;
  table ← zset (m_table t) (entryIndex - 1) entry;
  Some (set_counts t index table (m_keyCount t + 1) (m_deletedCount t)).

Definition reinsert (t : PropertyTable) (entry : PropertyMapEntry) : option PropertyTable :=
  '(_, slot) ← find t (key entry);
  store t entry slot.

Fixpoint reinsert_all (t : PropertyTable) (es : list PropertyMapEntry) : option PropertyTable :=
  match es with
  | [] => Some t
  | e :: es => t ← reinsert t e; reinsert_all t es
  end.

Definition rehash (t : PropertyTable) (newCapacity : Z) : option PropertyTable :=
  reinsert_all (empty_table (sizeForCapacity newCapacity) (m_deletedOffsets t)) (live t).

Inductive EffectOnPropertyOffset : Type := PropertyOffsetMayChange | PropertyOffsetMustNotChange.

(** The table, the last offset, whether the entry was added, and the references. *)
Definition add (t : PropertyTable) (entry : PropertyMapEntry) (off : Z) (effect : EffectOnPropertyOffset)
    : option (PropertyTable * Z * bool * list ref_event) :=
  '(r, slot) ← find t (key entry);
  match r with
  | Some i =>
      e ← (m_table t).[i];
      if offset e <=? off then Some (t, off, false, []) else None
  | None =>
      '(t, slot) ←
        (if canInsert t then Some (t, slot)
         else t ← rehash t (m_keyCount t + 1);
              '(_, slot) ← find t (key entry);
              Some (t, slot));
      t ← store t entry slot;
      match effect with
      | PropertyOffsetMayChange => Some (t, Z.max off (offset entry), true, [Ref (key entry)])
      | PropertyOffsetMustNotChange => if off >=? offset entry then Some (t, off, true, [Ref (key entry)]) else None
      end
  end.

(** [remove] with the result of [find]. *)
Definition remove_at (t : PropertyTable) (iter : option Z * Z) : option (PropertyTable * list ref_event) :=
  match iter with
  | (None, _) => Some (t, [])
  | (Some i, slot) =>
      index ← zset (m_index t) slot (deletedEntryIndex t);
      e ← (m_table t).[i];
      table ← zset (m_table t) i (mkEntry PROPERTY_MAP_DELETED_ENTRY_KEY (offset e) (attributes e));
      let t := set_counts t index table (m_keyCount t - 1) (m_deletedCount t + 1) in
      t ← (if m_deletedCount t * 4 >=? m_indexSize t then rehash t (m_keyCount t) else Some t);
      Some (t, [Deref (key e)])
  end.

Definition remove (t : PropertyTable) (k : Z) : option (PropertyTable * list ref_event) :=
  iter ← find t k; remove_at t iter.

(** ** Construction and copying *)
Definition create (initialCapacity : Z) : PropertyTable := empty_table (sizeForCapacity initialCapacity) None.

Definition clone (t : PropertyTable) : PropertyTable * list ref_event := (t, map (fun e => Ref (key e)) (live t)).

Definition clone_with_capacity (initialCapacity : Z) (t : PropertyTable) : option (PropertyTable * list ref_event) :=
  t' ← reinsert_all (empty_table (sizeForCapacity initialCapacity) (m_deletedOffsets t)) (live t);
  Some (t', map (fun e => Ref (key e)) (live t)).

Definition copy (t : PropertyTable) (newCapacity : Z) : option (PropertyTable * list ref_event) :=
  if sizeForCapacity newCapacity =? m_indexSize t then Some (clone t) else clone_with_capacity newCapacity t.

(** The destructor *)
Definition destroy (t : PropertyTable) : list ref_event := map (fun e => Deref (key e)) (live t).

(** ** Deleted offsets *)
Definition propertyStorageSize (t : PropertyTable) : Z :=
  size t + match m_deletedOffsets t with None => 0 | Some l => zlen l end.

Definition clearDeletedOffsets (t : PropertyTable) : PropertyTable := set_deletedOffsets t None.

Definition hasDeletedOffset (t : PropertyTable) : bool :=
  match m_deletedOffsets t with Some (_ :: _) => true | _ => false end.

Definition getDeletedOffset (t : PropertyTable) : option (Z * PropertyTable) :=
  l ← m_deletedOffsets t;
  o ← last l;
  Some (o, set_deletedOffsets t (Some (take (length l - 1) l))).

Definition addDeletedOffset (t : PropertyTable) (o : Z) : PropertyTable :=
  set_deletedOffsets t (Some (default [] (m_deletedOffsets t) ++ [o])).

Definition nextOffset (t : PropertyTable) (inlineCapacity : Z) : option (Z * PropertyTable) :=
  if hasDeletedOffset t then getDeletedOffset t
  else Some (offsetForPropertyNumber (size t) inlineCapacity, t).

(** ** The operations of a structure on its pinned table *)
Record Structure : Type := mkStructure {
  s_table : option PropertyTable;
  m_offset : Z;
  m_inlineCapacity : Z;
  m_propertyHash : Z
}.

(** [Structure::add] with the function that stores the new last offset; the table
    already exists or is created empty. *)
Definition Structure_add (s : Structure) (rep attrs : Z) : option (Z * Structure * list ref_event) :=
  let t := default (create 0) (s_table s) in
  '(newOffset, t) ← nextOffset t (m_inlineCapacity s);
  '(t, newLastOffset, _, refs) ← add t (mkEntry rep newOffset attrs) (m_offset s) PropertyOffsetMayChange;
  Some (newOffset, mkStructure (Some t) newLastOffset (m_inlineCapacity s) (Z.lxor (m_propertyHash s) (hash rep)), refs).

Definition Structure_remove (s : Structure) (rep : Z) : option (Z * Structure * list ref_event) :=
  match s_table s with
  | None => Some (invalidOffset, s, [])
  | Some t =>
      position ← find t rep;
      match fst position with
      | None => Some (invalidOffset, s, [])
      | Some i =>
          e ← (m_table t).[i];
          '(t, refs) ← remove_at t position;
          Some (offset e, mkStructure (Some (addDeletedOffset t (offset e))) (m_offset s) (m_inlineCapacity s)
                            (m_propertyHash s), refs)
      end
  end.
End table.

(** The two tests of [Structure::checkOffsetConsistency]; there is nothing to test without a table. *)
Definition checkOffsetConsistency (s : Structure) : bool :=
  match s_table s with
  | None => true
  | Some t =>
      let totalSize := propertyStorageSize t in
      let inlineOverflowAccordingToTotalSize :=
        if totalSize <? m_inlineCapacity s then 0 else totalSize - m_inlineCapacity s in
      (numberOfSlotsForLastOffset (m_offset s) (m_inlineCapacity s) =? totalSize)
      && (inlineOverflowAccordingToTotalSize =? numberOfOutOfLineSlotsForLastOffset (m_offset s))
  end.
