(* ===== verification/PropertyTableFacts.v ===== *)
(** * PropertyTableFacts: the invariant of the property map and what its operations do to it *)
From S2P Require Import Prelude MathExtras PropertyTable.
Local Open Scope Z_scope.

(** ** Capacities *)
Lemma sizeForCapacity_spec c :
  0 <= c < 2 ^ 27 -> exists p, 4 <= p <= 29 /\ sizeForCapacity c = 2 ^ p /\ c + 1 <= 2 ^ (p - 1).
Proof.
  intros Hc. unfold sizeForCapacity. change (MinimumTableSize / 2) with 8. destruct (c <? 8) eqn:E; bool_prop.
  { exists 4. split; [lia|]. split; [done|]. simpl. lia. }
  destruct (nextPowerOf2_spec (c + 1)) as (p & Hp & -> & H1 & H2); [lia|].
  assert (p < 29) as Hp28 by (apply (Z.pow_lt_mono_r_iff 2); lia).
  assert (3 < p) as Hp3 by (apply (Z.pow_lt_mono_r_iff 2); lia).
  exists (p + 1). assert (2 ^ (p + 1) = 2 ^ p * 2) as Hpow by (rewrite Z.pow_add_r by lia; lia).
  assert (2 ^ (p + 1) <= 2 ^ 29) by (apply Z.pow_le_mono_r; lia).
  split; [lia|]. split; [rewrite u32_small; lia|]. replace (p + 1 - 1) with p by lia. lia.
Qed.

(** ** The invariant *)
Definition valid_key (k : Z) : Prop := k <> 0 /\ k <> PROPERTY_MAP_DELETED_ENTRY_KEY.
Definition is_live (e : PropertyMapEntry) : Prop := is_deleted e = false.
Definition keys (es : list PropertyMapEntry) : list Z := map key es.
Definition live_of (E : list PropertyMapEntry) : list PropertyMapEntry := List.filter (fun e => negb (is_deleted e)) E.

(** The cells in use. *)
Definition nonempty (index : list Z) : Z := zlen (List.filter (fun v => negb (v =? 0)) index).

(** The probe sequence from hash code [h] passes cells in use and comes to cell [s] after [j] steps. *)
Definition probe (n h j : Z) : Z := (h + j) mod n.
Definition reach (index : list Z) (h s : Z) : Prop :=
  exists j, 0 <= j < zlen index /\ s = probe (zlen index) h j /\
    forall i, 0 <= i < j -> exists v, index.[probe (zlen index) h i] = Some v /\ v <> 0.

(** ** The map that a table stands for: its live entries in the order they were added *)
Definition lookup_key (k : Z) (L : list PropertyMapEntry) : option PropertyMapEntry := List.find (fun e => key e =? k) L.

Lemma lookup_key_None k L : lookup_key k L = None <-> k ∉ keys L.
Proof.
  unfold lookup_key, keys. induction L as [|e L IH]; cbn [List.find map].
  - split; [intros _; apply not_elem_of_nil|done].
  - rewrite not_elem_of_cons. destruct (key e =? k) eqn:E; bool_prop.
    + split; [done|]. intros [? _]. congruence.
    + rewrite IH. split; [|tauto]. split; [congruence|done].
Qed.

Lemma lookup_key_elem k L e : NoDup (keys L) -> e ∈ L -> key e = k -> lookup_key k L = Some e.
Proof.
  unfold lookup_key, keys. induction L as [|e' L IH]; [intros _ H; by apply not_elem_of_nil in H|]. cbn [List.find map].
  intros [Hn Hnd]%NoDup_cons Hin Hk. apply elem_of_cons in Hin as [->|Hin].
  - by rewrite (proj2 (Z.eqb_eq _ _) Hk).
  - destruct (key e' =? k) eqn:E; bool_prop; [|by apply IH]. destruct Hn. apply list_elem_of_fmap. exists e. split; [congruence|done].
Qed.

Lemma elem_of_live E e : e ∈ live_of E <-> e ∈ E /\ is_live e.
Proof.
  unfold live_of, is_live. rewrite list_elem_of_In, List.filter_In, list_elem_of_In. by rewrite negb_true_iff.
Qed.

Lemma zget_elem {A} (l : list A) i x : l.[i] = Some x -> x ∈ l.
Proof. rewrite zget_Some. intros [_ H]. by eapply list_elem_of_lookup_2. Qed.

Definition remove_key (k : Z) (L : list PropertyMapEntry) : list PropertyMapEntry := List.filter (fun e => negb (key e =? k)) L.

Lemma remove_key_absent k L : k ∉ keys L -> remove_key k L = L.
Proof.
  unfold remove_key, keys. induction L as [|e L IH]; [done|]. cbn [List.filter map]. rewrite not_elem_of_cons. intros [He HL].
  rewrite (proj2 (Z.eqb_neq (key e) k)) by congruence. cbn [negb]. by rewrite IH.
Qed.

Lemma remove_key_split L1 e L2 : NoDup (keys (L1 ++ e :: L2)) -> remove_key (key e) (L1 ++ e :: L2) = L1 ++ L2.
Proof.
  unfold keys. rewrite map_app. cbn [map]. intros (_ & Hd & [He _]%NoDup_cons)%NoDup_app. unfold remove_key. rewrite List.filter_app. cbn [List.filter].
  rewrite Z.eqb_refl. cbn [negb]. f_equal; apply remove_key_absent; [|done].
  intros Hin. apply (Hd _ Hin). left.
Qed.

(** The entry of a removed property. *)
Definition dead (e : PropertyMapEntry) : PropertyMapEntry := mkEntry PROPERTY_MAP_DELETED_ENTRY_KEY (offset e) (attributes e).

Section facts.
Context (hash : Z -> Z).

(** The used part of the values array is [E]. *)
Record wf (t : PropertyTable) (E : list PropertyMapEntry) : Prop := {
  wf_size : exists p, 4 <= p <= 29 /\ m_indexSize t = 2 ^ p;
  wf_mask : m_indexMask t = m_indexSize t - 1;
  wf_index : zlen (m_index t) = m_indexSize t;
  wf_table : m_table t = E ++ replicate (Z.to_nat (tableCapacity t + 1 - zlen E)) zeroed_entry;
  wf_used : usedCount t = zlen E;
  wf_fits : zlen E <= tableCapacity t;
  wf_count : m_keyCount t = zlen (live_of E);
  wf_valid : Forall (fun e => is_live e -> valid_key (key e)) E;
  wf_nodup : NoDup (keys (live_of E));
  wf_cells : nonempty (m_index t) = zlen E;
  wf_cell : forall s v, (m_index t).[s] = Some v ->
    v = 0 \/ v = deletedEntryIndex t \/ (exists e, E.[v - 1] = Some e /\ is_live e);
  wf_inj : forall s s' v, (m_index t).[s] = Some v -> (m_index t).[s'] = Some v -> 1 <= v <= zlen E -> s = s';
  wf_reach : forall i e, E.[i] = Some e -> is_live e ->
    exists s, (m_index t).[s] = Some (i + 1) /\ reach (m_index t) (hash (key e)) s
}.

Lemma capacity_spec t E : wf t E -> tableCapacity t = m_indexSize t / 2 /\ m_indexSize t = 2 * tableCapacity t /\ 8 <= tableCapacity t.
Proof using.
  intros [(p & Hp & Hs) _ _ _ _ _ _ _ _ _ _ _ _]. unfold tableCapacity. rewrite Z.shiftr_div_pow2 by lia. rewrite Hs.
  change (2 ^ 1) with 2. replace p with (p - 1 + 1) by lia. rewrite Z.pow_add_r by lia. change (2 ^ 1) with 2.
  rewrite Z.div_mul by lia. assert (2 ^ 3 <= 2 ^ (p - 1)) by (apply Z.pow_le_mono_r; lia). lia.
Qed.

Lemma live_spec t E : wf t E -> live t = live_of E.
Proof using.
  intros Hwf. unfold live, live_of. rewrite (wf_used _ _ Hwf), (wf_table _ _ Hwf). by rewrite take_zlen.
Qed.

(** ** Cells of the index *)
Lemma nonempty_app x y : nonempty (x ++ y) = nonempty x + nonempty y.
Proof using. unfold nonempty. rewrite List.filter_app. zlia. Qed.

Lemma nonempty_bound x : 0 <= nonempty x <= zlen x.
Proof using.
  unfold nonempty. induction x as [|v x IH]; [done|]. cbn [List.filter]. destruct (negb (v =? 0)); zlia.
Qed.

Lemma nonempty_full x : nonempty x < zlen x -> exists s, x.[s] = Some 0.
Proof using.
  induction x as [|v x IH]; [done|]. change (v :: x) with ([v] ++ x). rewrite nonempty_app.
  destruct (decide (v = 0)) as [->|Hv]; [by exists 0|]. unfold nonempty at 1. cbn [List.filter].
  rewrite (proj2 (Z.eqb_neq v 0) Hv). cbn [negb]. intros H. destruct IH as [s Hs]; [zlia|].
  exists (s + 1). pose proof (zget_lt _ _ _ Hs). rewrite zget_app_r by zlia. rewrite <- Hs. f_equal. zlia.
Qed.

Lemma nonempty_set x s v x' old :
  zset x s v = Some x' -> x.[s] = Some old -> v <> 0 -> nonempty x' = nonempty x + (if decide (old = 0) then 1 else 0).
Proof using.
  intros Hset (l1 & l2 & -> & Hl)%zget_split Hv. rewrite zset_middle in Hset by done. injection Hset as <-.
  change (v :: l2) with ([v] ++ l2). change (old :: l2) with ([old] ++ l2). rewrite !nonempty_app.
  unfold nonempty at 2 5. cbn [List.filter]. rewrite (proj2 (Z.eqb_neq v 0) Hv). cbn [negb].
  destruct (decide (old = 0)) as [->|Ho]; [cbn [Z.eqb negb]; zlia|]. rewrite (proj2 (Z.eqb_neq old 0) Ho). cbn [negb]. zlia.
Qed.

Lemma reach_set x s v x' h s' : zset x s v = Some x' -> v <> 0 -> reach x h s' -> reach x' h s'.
Proof using.
  intros Hset Hv (j & Hj & Hs & Hi). pose proof (zlen_zset _ _ _ _ Hset) as Hl. exists j. rewrite Hl.
  split; [done|]. split; [done|]. intros i Hij. rewrite (zget_zset _ _ _ _ _ Hset). case_decide; [eauto|]. by apply Hi.
Qed.

(** ** Searching *)
Lemma probe_bound n h j : 0 < n -> 0 <= probe n h j < n.
Proof using. apply Z.mod_pos_bound. Qed.

Lemma probe_all n h s : 0 < n -> 0 <= s < n -> exists j, 0 <= j < n /\ s = probe n h j.
Proof using.
  intros Hn Hs. exists ((s - h) mod n). split; [by apply Z.mod_pos_bound|]. unfold probe.
  rewrite Z.add_mod_idemp_r by lia. replace (h + (s - h)) with s by lia. by rewrite Z.mod_small.
Qed.

(** A cell of the probe sequence that does not stop the search for [k]. *)
Definition passed (t : PropertyTable) (k s : Z) : Prop :=
  exists v e, (m_index t).[s] = Some v /\ v <> 0 /\ (m_table t).[v - 1] = Some e /\ key e <> k.

(** The outcome of a search. *)
Record found (t : PropertyTable) (k h : Z) (r : option Z) (s : Z) : Prop := {
  found_at : exists j, 0 <= j < m_indexSize t /\ s = probe (m_indexSize t) h j /\
    forall i, 0 <= i < j -> passed t k (probe (m_indexSize t) h i);
  found_what :
    match r with
    | None => (m_index t).[s] = Some 0
    | Some i => (m_index t).[s] = Some (i + 1) /\ 0 <= i /\ exists e, (m_table t).[i] = Some e /\ key e = k
    end
}.

(** Every cell refers to an entry of the values array. *)
Lemma cell_entry t E s v :
  wf t E -> (m_index t).[s] = Some v -> v <> 0 ->
  exists e, (m_table t).[v - 1] = Some e /\ 1 <= v /\ (E.[v - 1] = Some e /\ is_live e \/ v = deletedEntryIndex t /\ key e = 0).
Proof using.
  intros Hwf Hs Hv. pose proof (capacity_spec t E Hwf) as (_ & _ & Hcap). pose proof (wf_fits _ _ Hwf) as Hfit.
  rewrite (wf_table _ _ Hwf). destruct (wf_cell _ _ Hwf s v Hs) as [?|[->|(e & He & Hlive)]]; [done| |].
  - exists zeroed_entry. unfold deletedEntryIndex. replace (tableCapacity t + 1 - 1) with (tableCapacity t) by lia.
    rewrite zget_app_r by zlia. split; [|split; [lia|by right]]. apply zget_Some. split; [lia|].
    apply lookup_replicate_2. lia.
  - pose proof (zget_lt _ _ _ He). exists e. rewrite zget_app_l by lia. split; [done|]. split; [lia|by left].
Qed.

Lemma table_find_loop_spec fuel t E k h h' j :
  wf t E -> 0 <= j -> Z.of_nat fuel = m_indexSize t - j -> h' mod m_indexSize t = probe (m_indexSize t) h j ->
  (forall i, 0 <= i < j -> passed t k (probe (m_indexSize t) h i)) ->
  exists r s, find_loop fuel t k h' = Some (r, s) /\ found t k h r s.
Proof using.
  intros Hwf. pose proof (wf_size _ _ Hwf) as (p & Hp & Hs). pose proof (wf_index _ _ Hwf) as Hlen.
  assert (0 < m_indexSize t) as Hpos by (rewrite Hs; apply Z.pow_pos_nonneg; lia).
  pose proof (capacity_spec t E Hwf) as (_ & Hcap & _). pose proof (wf_fits _ _ Hwf) as Hfit.
  revert h' j. induction fuel as [|fuel IH]; intros h' j Hj Hf Hh Hpass.
  - exfalso. destruct (nonempty_full (m_index t)) as [s Hs0]; [rewrite (wf_cells _ _ Hwf); lia|].
    pose proof (zget_lt _ _ _ Hs0). destruct (probe_all (m_indexSize t) h s Hpos) as (i & Hi & ->); [lia|].
    destruct (Hpass i ltac:(lia)) as (v & e & Hv & Hne & _). congruence.
  - cbn [find_loop]. rewrite (wf_mask _ _ Hwf), Hs, Z_land_ones by lia. rewrite <- Hs, Hh.
    pose proof (probe_bound (m_indexSize t) h j Hpos). destruct (zget_is_Some (m_index t) (probe (m_indexSize t) h j)) as [v Hv]; [lia|].
    rewrite Hv. mstep. unfold EmptyEntryIndex. destruct (v =? 0) eqn:E0; bool_prop.
    { subst v. eexists _, _. split; [done|]. split; [|done]. exists j. split; [lia|done]. }
    destruct (cell_entry t E _ v Hwf Hv E0) as (e & He & Hv1 & Hcase). rewrite He. mstep.
    destruct (k =? key e) eqn:Ek; bool_prop.
    { eexists _, _. split; [done|]. split; [exists j; split; [lia|done]|]. replace (v - 1 + 1) with v by lia.
      split; [done|]. split; [lia|]. eauto. }
    apply (IH _ (j + 1)); [lia|lia| |].
    + unfold u32. rewrite Z.mod_mod_divide.
      * unfold probe in *. rewrite <- Z.add_mod_idemp_l, Hh, Z.add_mod_idemp_l by lia. f_equal. lia.
      * rewrite Hs. exists (2 ^ (32 - p)). rewrite <- Z.pow_add_r by lia. f_equal. lia.
    + intros i Hi. destruct (decide (i = j)) as [->|]; [|apply Hpass; lia]. exists v, e. auto.
Qed.

Lemma table_find_spec t E k : wf t E -> exists r s, find hash t k = Some (r, s) /\ found t k (hash k) r s.
Proof using.
  intros Hwf. pose proof (wf_size _ _ Hwf) as (p & Hp & Hs).
  assert (0 < m_indexSize t) as Hpos by (rewrite Hs; apply Z.pow_pos_nonneg; lia).
  apply (table_find_loop_spec _ t E k (hash k) (hash k) 0 Hwf); [lia|lia| |lia]. unfold probe. by rewrite Z.add_0_r.
Qed.

(** A key is found exactly when it is the key of a live entry. *)
Lemma found_live t E k r s :
  wf t E -> valid_key k -> found t k (hash k) r s ->
  match r with
  | None => (k ∉ keys (live_of E)) /\ (m_index t).[s] = Some 0 /\ reach (m_index t) (hash k) s
  | Some i => exists e, E.[i] = Some e /\ is_live e /\ key e = k /\ (m_index t).[s] = Some (i + 1)
  end.
Proof using.
  intros Hwf [Hk0 Hk1] [(j & Hj & Hsj & Hpass) Hwhat]. destruct r as [i|].
  - destruct Hwhat as (Hs & Hi & e & He & Hke). exists e. destruct (cell_entry t E s (i + 1) Hwf Hs ltac:(lia)) as (e' & He' & _ & Hcase).
    replace (i + 1 - 1) with i in * by lia. assert (e' = e) as -> by congruence.
    destruct Hcase as [[HE Hl]|[_ Hz]]; [auto|congruence].
  - split; [|split; [done|]].
    + intros (e & Hke & Hin)%list_elem_of_fmap. apply list_elem_of_In, List.filter_In in Hin as [Hin Hl].
      apply list_elem_of_In, list_elem_of_lookup_1 in Hin as [n Hn].
      assert (E.[Z.of_nat n] = Some e) as HE by (by rewrite zget_nat). apply negb_true_iff in Hl.
      destruct (wf_reach _ _ Hwf _ _ HE Hl) as (s' & Hs' & j' & Hj' & -> & Hnz). rewrite (wf_index _ _ Hwf) in *. subst k s.
      destruct (decide (j' < j)).
      * destruct (Hpass j' ltac:(lia)) as (v & e' & Hv & _ & He' & Hne). rewrite Hs' in Hv. injection Hv as <-.
        replace (Z.of_nat n + 1 - 1) with (Z.of_nat n) in He' by lia. rewrite (wf_table _ _ Hwf), zget_app_l in He' by (by eapply zget_lt).
        congruence.
      * destruct (decide (j' = j)) as [->|]; [rewrite Hwhat in Hs'; injection Hs'; lia|].
        destruct (Hnz j ltac:(lia)) as (v & Hv & Hvz). congruence.
    + exists j. rewrite (wf_index _ _ Hwf). split; [done|]. split; [done|]. intros i Hi.
      destruct (Hpass i Hi) as (v & e & Hv & Hne & _). eauto.
Qed.

(** ** Adding an entry at the end *)
Lemma live_of_app E E' : live_of (E ++ E') = live_of E ++ live_of E'.
Proof using. apply List.filter_app. Qed.

Lemma live_of_single e : is_live e -> live_of [e] = [e].
Proof using. unfold live_of. cbn [List.filter]. by intros ->. Qed.

Lemma store_spec t E entry s :
  wf t E -> zlen E < tableCapacity t -> valid_key (key entry) -> key entry ∉ keys (live_of E) ->
  (m_index t).[s] = Some 0 -> reach (m_index t) (hash (key entry)) s ->
  exists t', store t entry s = Some t' /\ wf t' (E ++ [entry]) /\ m_indexSize t' = m_indexSize t /\
    m_deletedOffsets t' = m_deletedOffsets t.
Proof using.
  intros Hwf Hroom Hval Hnew Hs Hreach. pose proof (zget_lt _ _ _ Hs) as Hsl. pose proof (wf_used _ _ Hwf) as Hused.
  assert (is_live entry) as Hlive by (unfold is_live, is_deleted; apply Z.eqb_neq, Hval).
  unfold store. rewrite Hused. destruct (zset (m_index t) s (zlen E + 1)) as [index|] eqn:Ei; [|by rewrite zset_Some in Ei].
  mstep. replace (zlen E + 1 - 1) with (zlen E) by lia. rewrite (wf_table _ _ Hwf).
  replace (Z.to_nat (tableCapacity t + 1 - zlen E)) with (S (Z.to_nat (tableCapacity t - zlen E))) by lia.
  cbn [replicate]. rewrite zset_middle by done. mstep. eexists. split; [done|]. split; [|done].
  assert (zlen (E ++ [entry]) = zlen E + 1) as HlE by zlia.
  constructor; cbn [set_counts m_indexSize m_indexMask m_index m_table m_keyCount m_deletedCount]; unfold tableCapacity, deletedEntryIndex, usedCount in *;
    cbn [set_counts m_indexSize m_indexMask m_index m_table m_keyCount m_deletedCount] in *.
  - apply Hwf.
  - apply Hwf.
  - rewrite (zlen_zset _ _ _ _ Ei). apply Hwf.
  - rewrite <- app_assoc. cbn [app]. do 4 f_equal. unfold tableCapacity. cbn [m_indexSize]. lia.
  - lia.
  - unfold tableCapacity in *. cbn [m_indexSize]. lia.
  - rewrite live_of_app, live_of_single, (wf_count _ _ Hwf) by done. zlia.
  - apply Forall_app. split; [apply Hwf|]. by apply Forall_singleton.
  - rewrite live_of_app, live_of_single by done. unfold keys. rewrite map_app. apply NoDup_app. split; [apply Hwf|].
    split; [|apply NoDup_singleton]. intros x Hx ->%list_elem_of_singleton. done.
  - rewrite (nonempty_set _ _ _ _ _ Ei Hs), (wf_cells _ _ Hwf) by zlia. by rewrite decide_True, HlE.
  - intros s' v. rewrite (zget_zset _ _ _ _ _ Ei). case_decide.
    + intros [= <-]. right; right. exists entry. rewrite zget_middle by lia. done.
    + intros Hv. destruct (wf_cell _ _ Hwf s' v Hv) as [?|[?|(e & He & Hl)]]; [by left|by right; left|].
      right; right. exists e. rewrite zget_app_l by (apply zget_lt in He; lia). done.
  - assert (forall s' v, (m_index t).[s'] = Some v -> v <> zlen E + 1) as Hfresh.
    { intros s' v Hv ->. destruct (wf_cell _ _ Hwf s' _ Hv) as [?|[Hd|(e & He & _)]]; [zlia| |].
      - unfold deletedEntryIndex, tableCapacity in *. lia.
      - apply zget_lt in He. lia. }
    intros s1 s2 v. rewrite !(zget_zset _ _ _ _ _ Ei).
    case_decide as D1; case_decide as D2; intros H1 H2 Hv; [congruence| | |].
    + injection H1 as <-. by apply Hfresh in H2.
    + injection H2 as <-. by apply Hfresh in H1.
    + apply (wf_inj _ _ Hwf _ _ v); [done|done|]. pose proof (Hfresh _ _ H1). lia.
  - intros i e He Hl. destruct (decide (i = zlen E)) as [->|].
    + rewrite zget_middle in He by done. injection He as <-. exists s. rewrite (zget_zset _ _ _ _ _ Ei), decide_True by done.
      split; [done|]. apply (reach_set _ _ _ _ _ _ Ei); [zlia|done].
    + pose proof (zget_lt _ _ _ He) as Hlt. rewrite HlE in Hlt. rewrite zget_app_l in He by lia. destruct (wf_reach _ _ Hwf _ _ He Hl) as (s' & Hs' & Hr).
      exists s'. rewrite (zget_zset _ _ _ _ _ Ei). case_decide; [subst s'; rewrite Hs in Hs'; injection Hs'; zlia|]. split; [done|].
      apply (reach_set _ _ _ _ _ _ Ei); [zlia|done].
Qed.

(** [find] decides whether the key is in the map. *)
Lemma find_correct t E k :
  wf t E -> valid_key k ->
  exists r s, find hash t k = Some (r, s) /\
  match r with
  | None => lookup_key k (live_of E) = None /\ (m_index t).[s] = Some 0 /\ reach (m_index t) (hash k) s
  | Some i => exists e, lookup_key k (live_of E) = Some e /\ E.[i] = Some e /\ (m_table t).[i] = Some e /\
                is_live e /\ key e = k /\ (m_index t).[s] = Some (i + 1)
  end.
Proof using.
  intros Hwf Hk. destruct (table_find_spec t E k Hwf) as (r & s & Hf & Hfound). exists r, s. split; [done|].
  pose proof (found_live t E k r s Hwf Hk Hfound) as H. destruct r as [i|].
  - destruct H as (e & He & Hl & Hke & Hs). exists e.
    rewrite (wf_table _ _ Hwf), zget_app_l by (apply zget_lt in He; lia). split; [|done].
    apply lookup_key_elem; [apply Hwf| |done]. apply elem_of_live. split; [by eapply zget_elem|done].
  - by rewrite lookup_key_None.
Qed.

(** ** Building a table *)
Lemma nonempty_zeros n : nonempty (replicate n 0) = 0.
Proof using. induction n; [done|]. apply IHn. Qed.

Lemma empty_wf c d :
  0 <= c < 2 ^ 27 -> let t := empty_table (sizeForCapacity c) d in wf t [] /\ c + 1 <= tableCapacity t.
Proof using.
  intros Hc t. destruct (sizeForCapacity_spec c Hc) as (p & Hp & Hsz & Hfit).
  assert (tableCapacity t = 2 ^ (p - 1)) as Hcap.
  { unfold t, tableCapacity, empty_table. cbn [m_indexSize]. rewrite Hsz, Z.shiftr_div_pow2 by lia.
    replace p with (p - 1 + 1) at 1 by lia. rewrite Z.pow_add_r by lia. by rewrite Z.div_mul. }
  assert (0 < 2 ^ p) by (apply Z.pow_pos_nonneg; lia).
  split; [|lia]. constructor; try done.
  - exists p. done.
  - unfold t, empty_table, zlen. cbn [m_index m_indexSize]. rewrite length_replicate. lia.
  - unfold t at 1, empty_table. cbn [m_table app]. f_equal. unfold tableCapacity, t, empty_table. cbn [m_indexSize]. zlia.
  - rewrite Hcap. change (0 <= 2 ^ (p - 1)). lia.
  - constructor.
  - apply nonempty_zeros.
  - intros s v Hv%zget_elem. unfold t, empty_table in Hv. cbn [m_index] in Hv. left. by apply elem_of_replicate in Hv as [-> _].
  - intros s s' v _ _ Hv. change (zlen (@nil PropertyMapEntry)) with 0 in Hv. lia.
  - intros i e He. apply zget_lt in He. zlia.
Qed.

Lemma reinsert_all_spec es t E :
  wf t E -> Forall (fun e => valid_key (key e)) es -> NoDup (keys (live_of E) ++ keys es) -> zlen E + zlen es <= tableCapacity t ->
  exists t', reinsert_all hash t es = Some t' /\ wf t' (E ++ es) /\ m_indexSize t' = m_indexSize t /\
    m_deletedOffsets t' = m_deletedOffsets t.
Proof using.
  revert t E. induction es as [|e es IH]; intros t E Hwf Hval Hnd Hfit.
  { exists t. by rewrite (app_nil_r E). }
  apply Forall_cons in Hval as [Hv Hval]. cbn [reinsert_all]. unfold reinsert.
  assert (is_live e) as Hl by (unfold is_live, is_deleted; apply Z.eqb_neq, Hv).
  assert (key e ∉ keys (live_of E)) as Hnew.
  { intros Hin. apply NoDup_app in Hnd as (_ & Hd & _). apply (Hd _ Hin). left. }
  destruct (find_correct t E (key e) Hwf Hv) as (r & s & -> & Hr). mstep.
  destruct r as [i|]; [destruct Hr as (e' & He' & _); apply lookup_key_None in Hnew; congruence|].
  destruct Hr as (_ & Hs & Hreach). destruct (store_spec t E e s) as (t1 & -> & Hwf1 & Hsz & Hd); [done|zlia|done..|]. mstep.
  destruct (IH t1 (E ++ [e])) as (t2 & Ht2 & Hwf2 & Hsz2 & Hd2); [done|done| | |].
  - rewrite live_of_app, live_of_single by done. unfold keys in *. rewrite map_app, <- app_assoc. done.
  - unfold tableCapacity in *. rewrite Hsz. zlia.
  - exists t2. rewrite <- app_assoc in Hwf2. split; [done|]. split; [done|]. split; congruence.
Qed.

Lemma live_of_idemp E : live_of (live_of E) = live_of E.
Proof using.
  unfold live_of. induction E as [|e E IH]; [done|]. cbn [List.filter].
  destruct (negb (is_deleted e)) eqn:Hd; [|done]. cbn [List.filter]. by rewrite Hd, IH.
Qed.

Lemma wf_live_valid t E : wf t E -> Forall (fun e => valid_key (key e)) (live_of E).
Proof using.
  intros Hwf. apply Forall_forall. intros e [Hin Hl]%elem_of_live. pose proof (wf_valid _ _ Hwf) as H.
  rewrite Forall_forall in H. by apply H.
Qed.

Lemma rebuild_spec t E c d :
  wf t E -> zlen (live_of E) <= c < 2 ^ 27 ->
  exists t', reinsert_all hash (empty_table (sizeForCapacity c) d) (live t) = Some t' /\ wf t' (live_of E) /\
    m_deletedOffsets t' = d /\ c + 1 <= tableCapacity t'.
Proof using.
  intros Hwf Hc. destruct (empty_wf c d) as [Hwf0 Hcap]; [zlia|]. rewrite (live_spec _ _ Hwf).
  destruct (reinsert_all_spec (live_of E) _ [] Hwf0) as (t' & Ht' & Hwf' & Hsz & Hd).
  - by eapply wf_live_valid.
  - apply Hwf.
  - zlia.
  - exists t'. split; [done|]. split; [done|]. split; [done|]. unfold tableCapacity in *. by rewrite Hsz.
Qed.

(** ** Removing an entry *)
Lemma mark_spec t E i e s :
  wf t E -> E.[i] = Some e -> is_live e -> (m_index t).[s] = Some (i + 1) ->
  exists index table E', zset (m_index t) s (deletedEntryIndex t) = Some index /\ zset (m_table t) i (dead e) = Some table /\
    wf (set_counts t index table (m_keyCount t - 1) (m_deletedCount t + 1)) E' /\
    live_of E' = remove_key (key e) (live_of E).
Proof using.
  intros Hwf He Hl Hs. pose proof (zget_lt _ _ _ Hs) as Hsl. pose proof (zget_lt _ _ _ He) as Hi.
  pose proof (capacity_spec t E Hwf) as (_ & _ & Hcap).
  destruct (zset (m_index t) s (deletedEntryIndex t)) as [index|] eqn:Ei; [|by rewrite zset_Some in Ei].
  destruct (zget_split _ _ _ He) as (E1 & E2 & -> & HE1). rewrite (wf_table _ _ Hwf), <- app_assoc. cbn [app].
  rewrite zset_middle by done. eexists _, _, (E1 ++ dead e :: E2). split; [done|]. split; [done|].
  assert (live_of (E1 ++ e :: E2) = live_of E1 ++ e :: live_of E2) as Hlive.
  { change (e :: E2) with ([e] ++ E2). by rewrite !live_of_app, live_of_single. }
  assert (live_of (E1 ++ dead e :: E2) = live_of E1 ++ live_of E2) as Hlive' by (by rewrite live_of_app).
  assert (zlen (E1 ++ dead e :: E2) = zlen (E1 ++ e :: E2)) as Hlen by zlia.
  pose proof (wf_nodup _ _ Hwf) as Hnd. rewrite Hlive in Hnd. rewrite Hlive', Hlive, remove_key_split by done. split; [|done].
  assert (forall j, j <> i -> (E1 ++ dead e :: E2).[j] = (E1 ++ e :: E2).[j]) as Hother.
  { intros j Hj. destruct (decide (j < i)); [by rewrite !zget_app_l by lia|].
    rewrite !zget_app_r by lia. change (dead e :: E2) with ([dead e] ++ E2). change (e :: E2) with ([e] ++ E2).
    by rewrite !zget_app_r by zlia. }
  assert (deletedEntryIndex t > zlen (E1 ++ e :: E2)) as Hdel.
  { pose proof (wf_fits _ _ Hwf). unfold deletedEntryIndex. lia. }
  constructor; rewrite ?Hlen;
    unfold set_counts, tableCapacity, deletedEntryIndex, usedCount in *; cbn [m_indexSize m_indexMask m_index m_table m_keyCount m_deletedCount] in *;
    try apply Hwf.
  - rewrite (zlen_zset _ _ _ _ Ei). apply Hwf.
  - by rewrite <- app_assoc.
  - pose proof (wf_used _ _ Hwf). unfold usedCount in *. lia.
  - rewrite Hlive', (wf_count _ _ Hwf), Hlive. zlia.
  - pose proof (wf_valid _ _ Hwf) as Hv. apply Forall_app in Hv as [Hv1 [_ Hv2]%Forall_cons]. apply Forall_app. split; [done|].
    constructor; [done|done].
  - rewrite Hlive'. unfold keys in *. rewrite map_app in *. cbn [map] in Hnd. apply NoDup_app in Hnd as (Hn1 & Hd & [_ Hn2]%NoDup_cons).
    apply NoDup_app. split; [done|]. split; [|done]. intros x Hx Hx'. apply (Hd x Hx). by right.
  - rewrite (nonempty_set _ _ _ _ _ Ei Hs) by lia. rewrite decide_False by lia. pose proof (wf_cells _ _ Hwf). lia.
  - intros s' v. rewrite (zget_zset _ _ _ _ _ Ei). case_decide; [intros [= <-]; by right; left|].
    intros Hv. destruct (wf_cell _ _ Hwf s' v Hv) as [?|[?|(e' & He' & Hl')]]; [by left|by right; left|].
    right; right. exists e'. rewrite Hother; [done|]. intros Hvi. assert (v = i + 1) as -> by lia.
    pose proof (wf_inj _ _ Hwf _ _ _ Hs Hv). zlia.
  - intros s1 s2 v. rewrite !(zget_zset _ _ _ _ _ Ei).
    case_decide as D1; case_decide as D2; intros H1 H2 Hv; [congruence| | |].
    + injection H1 as <-. lia.
    + injection H2 as <-. lia.
    + by apply (wf_inj _ _ Hwf _ _ v).
  - intros j e' He' Hl'. destruct (decide (j = i)) as [->|Hj].
    { rewrite zget_middle in He' by done. by injection He' as <-. }
    rewrite Hother in He' by done. destruct (wf_reach _ _ Hwf _ _ He' Hl') as (s' & Hs' & Hr). exists s'.
    rewrite (zget_zset _ _ _ _ _ Ei). case_decide; [subst s'; rewrite Hs in Hs'; injection Hs'; lia|]. split; [done|].
    apply (reach_set _ _ _ _ _ _ Ei); [lia|done].
Qed.

(** The number of properties for which the sizes of the arrays stay in range. *)
Definition max_keys : Z := 2 ^ 26.

Lemma add_spec t E entry off effect :
  wf t E -> valid_key (key entry) -> zlen (live_of E) < max_keys ->
  match lookup_key (key entry) (live_of E) with
  | Some e => add hash t entry off effect = if offset e <=? off then Some (t, off, false, []) else None
  | None => exists t' E', wf t' E' /\ live_of E' = live_of E ++ [entry] /\ m_deletedOffsets t' = m_deletedOffsets t /\
      add hash t entry off effect =
        match effect with
        | PropertyOffsetMayChange => Some (t', Z.max off (offset entry), true, [Ref (key entry)])
        | PropertyOffsetMustNotChange => if off >=? offset entry then Some (t', off, true, [Ref (key entry)]) else None
        end
  end.
Proof using.
  intros Hwf Hv Hmax. unfold add. destruct (find_correct t E (key entry) Hwf Hv) as (r & s & -> & Hr). mstep.
  destruct r as [i|]; [destruct Hr as (e & -> & _ & He & _); rewrite He; done|]. destruct Hr as (Hnone & Hs & Hreach). rewrite Hnone.
  apply lookup_key_None in Hnone.
  assert (is_live entry) as Hl by (unfold is_live, is_deleted; apply Z.eqb_neq, Hv).
  unfold canInsert. rewrite (wf_used _ _ Hwf). destruct (zlen E <? tableCapacity t) eqn:Ec; bool_prop.
  - mstep. destruct (store_spec t E entry s) as (t' & -> & Hwf' & _ & Hd); [done..|]. exists t', (E ++ [entry]).
    rewrite live_of_app, live_of_single by done. split; [done|]. split; [done|]. split; [done|]. mstep. done.
  - unfold rehash. rewrite (wf_count _ _ Hwf). destruct (rebuild_spec t E (zlen (live_of E) + 1) (m_deletedOffsets t) Hwf) as (t1 & -> & Hwf1 & Hd1 & Hcap); [unfold max_keys in *; lia|].
    mstep. destruct (find_correct t1 _ (key entry) Hwf1 Hv) as (r & s1 & -> & Hr). mstep. rewrite live_of_idemp in Hr.
    destruct r as [i|]; [destruct Hr as (e & He & _); apply lookup_key_None in Hnone; congruence|].
    destruct Hr as (_ & Hs1 & Hr1). destruct (store_spec t1 (live_of E) entry s1) as (t' & -> & Hwf' & _ & Hd); [done|lia|done|by rewrite live_of_idemp|done..|].
    exists t', (live_of E ++ [entry]). rewrite live_of_app, live_of_single, live_of_idemp by done. split; [done|]. split; [done|].
    split; [congruence|]. mstep. done.
Qed.

Lemma remove_at_spec t E k iter :
  wf t E -> valid_key k -> zlen (live_of E) <= max_keys -> find hash t k = Some iter ->
  exists t' E' refs, remove_at hash t iter = Some (t', refs) /\ wf t' E' /\ m_deletedOffsets t' = m_deletedOffsets t /\
    live_of E' = remove_key k (live_of E) /\
    refs = match lookup_key k (live_of E) with Some _ => [Deref k] | None => [] end /\
    (fst iter = None -> t' = t).
Proof using.
  intros Hwf Hk Hmax Hf. destruct (find_correct t E k Hwf Hk) as (r & s & Hf' & Hr). rewrite Hf in Hf'. injection Hf' as ->.
  destruct r as [i|].
  2: { destruct Hr as (Hnone & _). exists t, E, []. rewrite Hnone. apply lookup_key_None in Hnone. by rewrite remove_key_absent. }
  destruct Hr as (e & -> & HE & He & Hl & <- & Hs). unfold remove_at.
  destruct (mark_spec t E i e s Hwf HE Hl Hs) as (index & table & E' & -> & Ht & Hwf' & Hlive). mstep. rewrite He. mstep.
  unfold dead in Ht. rewrite Ht. mstep. set (t1 := set_counts _ _ _ _ _) in *.
  destruct (m_deletedCount t1 * 4 >=? m_indexSize t1) eqn:Ec.
  - unfold rehash. rewrite (wf_count _ _ Hwf').
    assert (zlen (live_of E') <= zlen (live_of E)) as Hle.
    { rewrite Hlive. unfold remove_key, zlen. pose proof (List.filter_length_le (fun x => negb (key x =? key e)) (live_of E)). lia. }
    destruct (rebuild_spec t1 E' (zlen (live_of E')) (m_deletedOffsets t1) Hwf') as (t2 & -> & Hwf2 & Hd2 & _); [unfold max_keys in *; lia|].
    mstep. exists t2, (live_of E'), [Deref (key e)]. rewrite live_of_idemp. done.
  - mstep. exists t1, E', [Deref (key e)]. done.
Qed.
End facts.
