(* ===== verification/PropertyTableProps.v ===== *)
(** * PropertyTableProps: histories of a property map and of the structure that owns it *)
From S2P Require Import Prelude PropertyTable PropertyTableFacts.
Local Open Scope Z_scope.

(** References to a key that are held after some events. *)
Definition balance (k : Z) (events : list ref_event) : Z :=
  foldr (fun e n => match e with Ref k' => if k' =? k then n + 1 else n | Deref k' => if k' =? k then n - 1 else n end) 0 events.

Definition held (k : Z) (L : list PropertyMapEntry) : Z := match lookup_key k L with Some _ => 1 | None => 0 end.

Lemma balance_app k a b : balance k (a ++ b) = balance k a + balance k b.
Proof. unfold balance. induction a as [|[k'|k'] a IH]; [done| |]; cbn [app foldr]; case (k' =? k); lia. Qed.

Lemma lookup_key_cons k e L : lookup_key k (e :: L) = if key e =? k then Some e else lookup_key k L.
Proof. done. Qed.

Lemma lookup_key_app k L L' :
  lookup_key k (L ++ L') = match lookup_key k L with Some e => Some e | None => lookup_key k L' end.
Proof. induction L as [|e L IH]; [done|]. cbn [app]. rewrite !lookup_key_cons. by destruct (key e =? k). Qed.

Lemma lookup_key_remove k k' L : lookup_key k (remove_key k' L) = if k =? k' then None else lookup_key k L.
Proof.
  induction L as [|e L IH]; [by destruct (k =? k')|]. unfold remove_key in *. cbn [List.filter]. rewrite lookup_key_cons.
  destruct (key e =? k') eqn:E; cbn [negb]; bool_prop.
  - rewrite IH. destruct (k =? k') eqn:E1; [done|]. bool_prop. by rewrite (proj2 (Z.eqb_neq (key e) k)) by congruence.
  - rewrite lookup_key_cons, IH. destruct (key e =? k) eqn:E1; bool_prop; [|done]. by rewrite (proj2 (Z.eqb_neq k k')) by congruence.
Qed.

Lemma balance_destroy k L : NoDup (keys L) -> balance k (map (fun e => Deref (key e)) L) = - held k L.
Proof.
  unfold held. induction L as [|e L IH]; [done|]. cbn [map]. unfold keys. cbn [map]. intros [Hn Hnd]%NoDup_cons. rewrite lookup_key_cons.
  change (balance k (Deref (key e) :: ?l)) with (balance k ([Deref (key e)] ++ l)). rewrite balance_app, IH by done.
  cbn [balance foldr]. destruct (key e =? k) eqn:E; bool_prop; [|lia]. subst k. apply lookup_key_None in Hn. by rewrite Hn.
Qed.

(** ** Histories of a table *)
Inductive table_op : Type := TAdd (e : PropertyMapEntry) | TRemove (k : Z).

Section history.
Context (hash : Z -> Z).

Definition table_step (st : PropertyTable * Z * list ref_event) (op : table_op) : option (PropertyTable * Z * list ref_event) :=
  let '(t, off, ev) := st in
  match op with
  | TAdd e => '(t, off, _, r) ← add hash t e off PropertyOffsetMayChange; Some (t, off, ev ++ r)
  | TRemove k => '(t, r) ← remove hash t k; Some (t, off, ev ++ r)
  end.

Fixpoint table_run (st : PropertyTable * Z * list ref_event) (ops : list table_op) : option (PropertyTable * Z * list ref_event) :=
  match ops with
  | [] => Some st
  | op :: ops => st ← table_step st op; table_run st ops
  end.

(** The map after an operation: entries are kept in the order of their first addition. *)
Definition spec_step (L : list PropertyMapEntry) (op : table_op) : list PropertyMapEntry :=
  match op with
  | TAdd e => match lookup_key (key e) L with Some _ => L | None => L ++ [e] end
  | TRemove k => remove_key k L
  end.

Definition op_key (op : table_op) : Z := match op with TAdd e => key e | TRemove k => k end.

(** [base] counts the references that were held before the first event. *)
Record table_inv (base : Z -> Z) (st : PropertyTable * Z * list ref_event) (L : list PropertyMapEntry) : Prop := {
  inv_wf : exists E, wf hash (fst (fst st)) E /\ live_of E = L;
  inv_off : Forall (fun e => offset e <= snd (fst st)) L;
  inv_refs : forall k, base k + balance k (snd st) = held k L
}.

Lemma table_inv_nodup base st L : table_inv base st L -> NoDup (keys L).
Proof using. intros [(E & Hwf & <-) _ _]. apply Hwf. Qed.

Lemma table_step_spec base st L op :
  table_inv base st L -> valid_key (op_key op) -> zlen L < max_keys ->
  exists st', table_step st op = Some st' /\ table_inv base st' (spec_step L op).
Proof using.
  destruct st as [[t off] ev]. intros Hinv Hk Hmax. destruct Hinv as [(E & Hwf & HL) Hoff Href]. cbn [fst snd] in *. destruct op as [e|k]; cbn [op_key] in Hk; cbn [table_step spec_step].
  - pose proof (add_spec hash t E e off PropertyOffsetMayChange Hwf Hk ltac:(by rewrite HL)) as Hadd. rewrite HL in Hadd.
    destruct (lookup_key (key e) L) as [e'|] eqn:El.
    + rewrite Hadd. unfold lookup_key in El. apply List.find_some in El as [Hin%list_elem_of_In _].
      rewrite Forall_forall in Hoff. rewrite (Z_leb_true _ _ (Hoff _ Hin)). mstep. rewrite (app_nil_r ev).
      eexists. split; [done|]. split; [by exists E| by apply Forall_forall|done].
    + destruct Hadd as (t' & E' & Hwf' & Hlive & Hd & ->). mstep. eexists. split; [done|]. split; cbn [fst snd].
      * exists E'. split; [done|]. done.
      * apply Forall_app. split; [|apply Forall_singleton; lia]. eapply Forall_impl; [exact Hoff|]. cbn. lia.
      * intros k. rewrite balance_app. specialize (Href k). unfold held in *. rewrite lookup_key_app. cbn [balance foldr]. change (lookup_key k [e]) with (if key e =? k then Some e else None).
        destruct (key e =? k) eqn:E1; bool_prop; [subst k; rewrite El in *; lia|]. destruct (lookup_key k L); lia.
  - unfold remove. destruct (table_find_spec hash t E k Hwf) as (r & s & Hf & _). rewrite Hf. mstep.
    destruct (remove_at_spec hash t E k (r, s) Hwf Hk) as (t' & E' & refs & -> & Hwf' & _ & Hlive & -> & _); [rewrite HL; lia|done|].
    mstep. eexists. split; [done|]. split; cbn [fst snd].
    + exists E'. split; [done|]. by rewrite Hlive, HL.
    + apply Forall_forall. intros e He. rewrite Forall_forall in Hoff. apply Hoff. unfold remove_key in He.
      apply list_elem_of_In, List.filter_In in He as [He _]. by apply list_elem_of_In.
    + intros k'. rewrite balance_app, HL. specialize (Href k'). unfold held in *. rewrite lookup_key_remove. destruct (k' =? k) eqn:E1; bool_prop.
      * subst k'. destruct (lookup_key k L); cbn [balance foldr]; rewrite ?Z.eqb_refl; lia.
      * assert ((k =? k') = false) as Hkk by (apply Z.eqb_neq; congruence). destruct (lookup_key k L); cbn [balance foldr]; rewrite ?Hkk; destruct (lookup_key k' L); lia.
Qed.

Lemma spec_step_length L op : zlen (spec_step L op) <= zlen L + 1.
Proof using.
  destruct op as [e|k]; cbn [spec_step]; [destruct (lookup_key (key e) L); zlia|]. unfold remove_key, zlen.
  pose proof (List.filter_length_le (fun e => negb (key e =? k)) L). lia.
Qed.

Lemma spec_run_length ops : zlen (foldl spec_step [] ops) <= zlen ops.
Proof using.
  induction ops as [|op ops IH] using rev_ind; [done|]. rewrite foldl_snoc.
  pose proof (spec_step_length (foldl spec_step [] ops) op). zlia.
Qed.

Lemma table_run_spec base ops : forall st L, table_inv base st L -> Forall (fun op => valid_key (op_key op)) ops -> zlen L + zlen ops <= max_keys ->
  exists st', table_run st ops = Some st' /\ table_inv base st' (foldl spec_step L ops).
Proof using.
  induction ops as [|op ops IH]; intros st L Hinv Hv Hmax; [by exists st|]. apply Forall_cons in Hv as [Hk Hv].
  destruct (table_step_spec base st L op Hinv Hk) as (st1 & Hst & Hinv1); [zlia|]. cbn [table_run foldl]. rewrite Hst. mstep.
  pose proof (spec_step_length L op). apply IH; [done|done|zlia].
Qed.

Lemma create_inv c : 0 <= c < 2 ^ 27 -> table_inv (fun _ => 0) (create c, invalidOffset, []) [].
Proof using.
  intros Hc. destruct (empty_wf hash c None Hc) as [Hwf _]. split; [by exists []|constructor|done].
Qed.

Lemma table_get_spec t E k : wf hash t E -> valid_key k -> get hash t k = Some (lookup_key k (live_of E)).
Proof using.
  intros Hwf Hk. unfold get. rewrite (wf_count _ _ _ Hwf). destruct (zlen (live_of E) =? 0) eqn:E0; bool_prop.
  - by rewrite (zlen_0_nil (live_of E)) by lia.
  - destruct (find_correct hash t E k Hwf Hk) as (r & s & -> & Hr). mstep. destruct r as [i|].
    + destruct Hr as (e & -> & _ & -> & _). done.
    + by destruct Hr as (-> & _).
Qed.

Lemma run_from t E off L ops :
  wf hash t E -> live_of E = L -> Forall (fun e => offset e <= off) L ->
  Forall (fun op => valid_key (op_key op)) ops -> zlen L + zlen ops <= max_keys ->
  exists t' off' ev', table_run (t, off, []) ops = Some (t', off', ev') /\ live t' = foldl spec_step L ops /\
    forall k, valid_key k -> get hash t' k = Some (lookup_key k (foldl spec_step L ops)).
Proof using.
  intros Hwf HL Hoff Hv Hmax. destruct (table_run_spec (fun k => held k L) ops (t, off, []) L) as ([[t' off'] ev'] & Hrun & Hinv); [|done|done|].
  - split; [by exists E|done|]. intros k. apply Z.add_0_r.
  - destruct Hinv as [(E' & Hwf' & HL') _ _]. cbn [fst] in *. exists t', off', ev'. split; [done|]. rewrite <- HL'.
    split; [by apply (live_spec hash)|]. intros k Hk. by apply table_get_spec.
Qed.

(** ** The offsets of a structure *)

(** The offsets of the first [n] property numbers. *)
Definition first_offsets (n ic : Z) : list Z := map (fun i => offsetForPropertyNumber i ic) (seqZ 0 n).

Definition last_offset (n ic : Z) : Z := if n =? 0 then invalidOffset else offsetForPropertyNumber (n - 1) ic.

Lemma offset_mono ic i j : 0 <= ic <= firstOutOfLineOffset -> 0 <= i <= j -> 0 <= offsetForPropertyNumber i ic <= offsetForPropertyNumber j ic.
Proof using.
  unfold offsetForPropertyNumber, firstOutOfLineOffset. intros.
  destruct (i >=? ic) eqn:E1, (j >=? ic) eqn:E2; bool_prop; lia.
Qed.

Lemma first_offsets_succ n ic : 0 <= n -> first_offsets (n + 1) ic = first_offsets n ic ++ [offsetForPropertyNumber n ic].
Proof using. intros. unfold first_offsets. rewrite seqZ_app by lia. by rewrite map_app. Qed.

Lemma first_offsets_bound n ic o :
  0 <= ic <= firstOutOfLineOffset -> o ∈ first_offsets n ic -> 0 <= o <= last_offset n ic.
Proof using.
  intros Hic (i & -> & Hi%elem_of_seqZ)%list_elem_of_fmap. unfold last_offset. rewrite (proj2 (Z.eqb_neq n 0)) by lia. apply offset_mono; lia.
Qed.

Lemma first_offsets_nodup n ic : 0 <= ic <= firstOutOfLineOffset -> NoDup (first_offsets n ic).
Proof using.
  intros Hic. apply NoDup_fmap_2_strong; [|apply NoDup_seqZ]. intros i j _ _. unfold offsetForPropertyNumber, firstOutOfLineOffset in *.
  destruct (i >=? ic) eqn:E1, (j >=? ic) eqn:E2; bool_prop; lia.
Qed.

Lemma slots_of_last n ic :
  0 <= ic <= firstOutOfLineOffset -> 0 <= n ->
  numberOfSlotsForLastOffset (last_offset n ic) ic = n /\
  numberOfOutOfLineSlotsForLastOffset (last_offset n ic) = (if n <? ic then 0 else n - ic).
Proof using.
  intros Hic Hn. unfold last_offset, numberOfSlotsForLastOffset, numberOfOutOfLineSlotsForLastOffset, offsetForPropertyNumber, invalidOffset, firstOutOfLineOffset in *.
  destruct (n =? 0) eqn:E0, (n - 1 >=? ic) eqn:E1; bool_prop; repeat if_cases; bool_prop; lia.
Qed.

(** ** Histories of a structure *)
Inductive structure_op : Type := AddProperty (k attrs : Z) | RemoveProperty (k : Z).

Definition structure_step (st : Structure * list ref_event) (op : structure_op) : option (Structure * list ref_event) :=
  match op with
  | AddProperty k attrs => '(_, s, r) ← Structure_add hash (fst st) k attrs; Some (s, snd st ++ r)
  | RemoveProperty k => '(_, s, r) ← Structure_remove hash (fst st) k; Some (s, snd st ++ r)
  end.

Fixpoint structure_run (st : Structure * list ref_event) (ops : list structure_op) : option (Structure * list ref_event) :=
  match ops with
  | [] => Some st
  | op :: ops => st ← structure_step st op; structure_run st ops
  end.

(** The keys and attributes of the properties in the order they were added; a property
    is added only if there is none of that name. *)
Definition props_step (P : list (Z * Z)) (op : structure_op) : option (list (Z * Z)) :=
  match op with
  | AddProperty k attrs =>
      if decide (valid_key k /\ (k ∉ map fst P) /\ zlen P < max_keys) then Some (P ++ [(k, attrs)]) else None
  | RemoveProperty k => if decide (valid_key k) then Some (List.filter (fun p => negb (fst p =? k)) P) else None
  end.

Fixpoint props_run (P : list (Z * Z)) (ops : list structure_op) : option (list (Z * Z)) :=
  match ops with
  | [] => Some P
  | op :: ops => P ← props_step P op; props_run P ops
  end.

Definition deleted_of (s : Structure) : list Z :=
  match s_table s with Some t => default [] (m_deletedOffsets t) | None => [] end.

Definition structure_entries (s : Structure) : list PropertyMapEntry :=
  match s_table s with Some t => live t | None => [] end.

Definition structure_table (s : Structure) : PropertyTable := default (create 0) (s_table s).

(** The live entries are [L]; they and the free offsets share the first offsets out
    among them, and the last offset is the greatest of these. *)
Record structure_inv (ic : Z) (s : Structure) (L : list PropertyMapEntry) : Prop := {
  sinv_capacity : m_inlineCapacity s = ic;
  sinv_wf : exists E, wf hash (structure_table s) E /\ live_of E = L;
  sinv_last : m_offset s = last_offset (zlen L + zlen (deleted_of s)) ic;
  sinv_offsets : map offset L ++ deleted_of s ≡ₚ first_offsets (zlen L + zlen (deleted_of s)) ic;
  sinv_max : zlen L + zlen (deleted_of s) <= max_keys
}.

Definition prop_of (e : PropertyMapEntry) : Z * Z := (key e, attributes e).

Lemma structure_table_deleted s : default [] (m_deletedOffsets (structure_table s)) = deleted_of s.
Proof using. unfold structure_table, deleted_of. by destruct (s_table s). Qed.

Lemma wf_set_deleted t E d : wf hash t E -> wf hash (set_deletedOffsets t d) E.
Proof using. intros Hwf. constructor; try apply Hwf. Qed.

(** A new offset is one that no live property has. *)
Lemma nextOffset_spec ic s L :
  0 <= ic <= firstOutOfLineOffset -> structure_inv ic s L -> zlen L < max_keys ->
  exists o d, nextOffset (structure_table s) ic = Some (o, set_deletedOffsets (structure_table s) d) /\
    map offset L ++ o :: default [] d ≡ₚ first_offsets (zlen L + 1 + zlen (default [] d)) ic /\
    Z.max (m_offset s) o = last_offset (zlen L + 1 + zlen (default [] d)) ic /\
    zlen L + 1 + zlen (default [] d) <= max_keys.
Proof using.
  intros Hic [Hcap (E & Hwf & HL) Hlast Hperm Hmax] Hroom. set (t := structure_table s) in *.
  rewrite <- (structure_table_deleted s) in Hlast, Hperm, Hmax. fold t in Hlast, Hperm, Hmax.
  unfold nextOffset.
  assert (forall d, m_deletedOffsets t = d -> set_deletedOffsets t d = t) as Hsame by (intros d <-; by destruct t).
  assert (size t = zlen L) as Hsize by (unfold size; rewrite (wf_count _ _ _ Hwf); congruence).
  destruct (decide (default [] (m_deletedOffsets t) = [])) as [Hnil|Hne].
  - exists (offsetForPropertyNumber (size t) ic), (m_deletedOffsets t). rewrite Hnil in *. rewrite Hsame by done.
    change (zlen (@nil Z)) with 0 in *. rewrite Z.add_0_r in *. rewrite (app_nil_r (map offset L)) in Hperm.
    split; [unfold hasDeletedOffset; by destruct (m_deletedOffsets t) as [[|x l]|]|]. rewrite first_offsets_succ, Hsize, Hperm by zlia.
    split; [done|]. split; [|lia]. rewrite Hlast. unfold last_offset, invalidOffset. rewrite (proj2 (Z.eqb_neq (zlen L + 1) 0)) by zlia.
    replace (zlen L + 1 - 1) with (zlen L) by lia. destruct (zlen L =? 0) eqn:E0; bool_prop.
    + rewrite E0. pose proof (offset_mono ic 0 0 Hic). lia.
    + pose proof (offset_mono ic (zlen L - 1) (zlen L) Hic). zlia.
  - destruct (m_deletedOffsets t) as [l|] eqn:Ed; [|done]. cbn [default] in *. unfold id in *.
    destruct l as [|o l' _] using rev_ind; [done|].
    exists o, (Some l'). cbn [default]. unfold id.
    assert (hasDeletedOffset t = true) as -> by (unfold hasDeletedOffset; rewrite Ed; by destruct l').
    unfold getDeletedOffset. rewrite Ed. mstep. rewrite last_snoc. mstep. rewrite length_app, Nat.add_sub, take_app_length. split; [done|]. assert (zlen L + 1 + zlen l' = zlen L + zlen (l' ++ [o])) as HN by zlia. rewrite HN.
    assert (map offset L ++ o :: l' ≡ₚ first_offsets (zlen L + zlen (l' ++ [o])) ic) as Hp.
    { rewrite <- Hperm. apply Permutation_app_head. by rewrite Permutation_cons_append. }
    split; [done|]. split; [|lia]. rewrite Hlast. apply Z.max_l. apply first_offsets_bound; [done|]. rewrite <- Hp. apply elem_of_app. right. left.
Qed.

Lemma Structure_add_spec ic s L k attrs :
  0 <= ic <= firstOutOfLineOffset -> structure_inv ic s L -> valid_key k -> lookup_key k L = None -> zlen L < max_keys ->
  exists o s', Structure_add hash s k attrs = Some (o, s', [Ref k]) /\ structure_inv ic s' (L ++ [mkEntry k o attrs]).
Proof using.
  intros Hic Hinv Hk Hnew Hroom. destruct (nextOffset_spec ic s L Hic Hinv Hroom) as (o & d & Hnext & Hperm & Hlast & Hmax).
  destruct Hinv as [Hcap (E & Hwf & HL) _ _ _]. unfold Structure_add. fold (structure_table s). rewrite Hcap, Hnext. mstep.
  set (e := mkEntry k o attrs). pose proof (add_spec hash _ E e (m_offset s) PropertyOffsetMayChange (wf_set_deleted _ _ d Hwf) Hk) as Hadd.
  rewrite HL in Hadd. specialize (Hadd Hroom). change (key e) with k in Hadd. rewrite Hnew in Hadd.
  destruct Hadd as (t' & E' & Hwf' & HL' & Hd & ->). mstep. change (offset e) with o. eexists o, _. split; [done|].
  assert (deleted_of (mkStructure (Some t') (Z.max (m_offset s) o) ic (Z.lxor (m_propertyHash s) (hash k))) = default [] d) as Hdel
    by (unfold deleted_of; cbn [s_table]; by rewrite Hd).
  assert (zlen (L ++ [e]) = zlen L + 1) as Hlen by zlia.
  fold e. split; cbn [m_inlineCapacity m_offset]; rewrite ?Hdel, ?Hlen; [done|by exists E'|done| |done].
  rewrite map_app, <- app_assoc. done.
Qed.

Lemma Structure_remove_spec ic s L k :
  0 <= ic <= firstOutOfLineOffset -> structure_inv ic s L -> valid_key k ->
  exists o s' refs, Structure_remove hash s k = Some (o, s', refs) /\ structure_inv ic s' (remove_key k L) /\
    match lookup_key k L with Some e => o = offset e /\ refs = [Deref k] | None => o = invalidOffset /\ refs = [] /\ s' = s end.
Proof using.
  intros Hic Hinv Hk. unfold Structure_remove. pose proof Hinv as [Hcap (E & Hwf & HL) Hlast Hperm Hmax].
  unfold structure_table in Hwf. destruct (s_table s) as [t|] eqn:Et; cbn [default] in Hwf; unfold id in Hwf.
  2: { assert (E = []) as -> by (apply zlen_0_nil; rewrite <- (wf_used _ _ _ Hwf); done). subst L. exists invalidOffset, s, []. done. }
  destruct (find_correct hash t E k Hwf Hk) as (r & slot & Hf & Hr). rewrite Hf. mstep. cbn [fst].
  destruct r as [i|].
  2: { destruct Hr as (Hnone & _). rewrite HL in Hnone. rewrite Hnone. exists invalidOffset, s, []. split; [done|]. split; [|done].
       apply lookup_key_None in Hnone. by rewrite remove_key_absent. }
  destruct Hr as (e & Hl & _ & He & _). rewrite He. mstep.
  destruct (remove_at_spec hash t E k _ Hwf Hk ltac:(rewrite HL; zlia) Hf) as (t' & E' & refs & -> & Hwf' & Hd & HL' & Hrefs & _).
  mstep. rewrite Hl in Hrefs. rewrite HL in Hl, HL'. rewrite Hl. eexists _, _, refs. split; [done|]. split; [|done].
  set (s' := mkStructure _ _ _ _).
  assert (deleted_of s = default [] (m_deletedOffsets t)) as Hds by (unfold deleted_of; by rewrite Et).
  assert (deleted_of s' = deleted_of s ++ [offset e]) as Hdel.
  { rewrite Hds. unfold deleted_of, s'. cbn [s_table addDeletedOffset set_deletedOffsets m_deletedOffsets default]. by rewrite Hd. }
  unfold lookup_key in Hl. apply List.find_some in Hl as [Hin%list_elem_of_In Hke]. bool_prop.
  destruct (list_elem_of_split _ _ Hin) as (L1 & L2 & ->).
  assert (remove_key k (L1 ++ e :: L2) = L1 ++ L2) as Hrem by (rewrite <- Hke; apply remove_key_split; rewrite <- HL; apply Hwf).
  rewrite Hrem. rewrite Hrem in HL'.
  assert (zlen (L1 ++ L2) + zlen (deleted_of s ++ [offset e]) = zlen (L1 ++ e :: L2) + zlen (deleted_of s)) as HN by zlia.
  split; rewrite ?Hdel, ?HN; [done| |done| |done].
  - exists E'. split; [|done]. unfold structure_table, s'. cbn [s_table default]. by apply wf_set_deleted.
  - rewrite <- Hperm. rewrite !map_app. cbn [map]. rewrite <- !app_assoc. apply Permutation_app_head.
    cbn [app]. rewrite app_assoc. symmetry. apply Permutation_cons_append.
Qed.

Lemma prop_keys L : map fst (map prop_of L) = keys L.
Proof using. unfold keys. by rewrite map_map. Qed.

Lemma prop_remove k L : List.filter (fun p => negb (fst p =? k)) (map prop_of L) = map prop_of (remove_key k L).
Proof using.
  unfold remove_key. induction L as [|e L IH]; [done|]. cbn [map List.filter prop_of fst].
  destruct (key e =? k); cbn [negb map]; by rewrite IH.
Qed.

Lemma structure_step_spec ic st L op P :
  0 <= ic <= firstOutOfLineOffset -> structure_inv ic (fst st) L -> (forall k, balance k (snd st) = held k L) ->
  props_step (map prop_of L) op = Some P ->
  exists st' L', structure_step st op = Some st' /\ structure_inv ic (fst st') L' /\ map prop_of L' = P /\
    forall k, balance k (snd st') = held k L'.
Proof using.
  intros Hic Hinv Href Hop. destruct op as [k attrs|k]; cbn [props_step structure_step] in *.
  - case_decide as Hc; [|done]. destruct Hc as (Hk & Hnew & Hroom). injection Hop as <-. rewrite prop_keys in Hnew.
    apply lookup_key_None in Hnew. unfold zlen in Hroom. rewrite length_map in Hroom. fold (zlen L) in Hroom.
    destruct (Structure_add_spec ic (fst st) L k attrs Hic Hinv Hk Hnew Hroom) as (o & s' & -> & Hinv'). mstep.
    eexists _, _. split; [done|]. split; [exact Hinv'|]. split; [by rewrite map_app|]. intros k'. cbn [snd]. rewrite balance_app, Href.
    unfold held. rewrite lookup_key_app. cbn [balance foldr]. change (lookup_key k' [mkEntry k o attrs]) with (if k =? k' then Some (mkEntry k o attrs) else None).
    destruct (k =? k') eqn:E1; bool_prop; [subst k'; by rewrite Hnew|]. destruct (lookup_key k' L); lia.
  - case_decide as Hk; [|done]. injection Hop as <-. rewrite prop_remove.
    destruct (Structure_remove_spec ic (fst st) L k Hic Hinv Hk) as (o & s' & refs & -> & Hinv' & Hcase). mstep.
    eexists _, _. split; [done|]. split; [exact Hinv'|]. split; [done|]. intros k'. cbn [snd]. rewrite balance_app, Href.
    unfold held. rewrite lookup_key_remove. destruct (lookup_key k L) as [e|] eqn:El.
    + destruct Hcase as (_ & ->). cbn [balance foldr]. rewrite (Z.eqb_sym k k').
      destruct (k' =? k) eqn:E1; bool_prop; [subst k'; rewrite El; lia|]. destruct (lookup_key k' L); lia.
    + destruct Hcase as (_ & -> & _). cbn [balance foldr]. destruct (k' =? k) eqn:E1; bool_prop; [subst k'; rewrite El; lia|]. lia.
Qed.

Lemma structure_run_spec ic ops : 0 <= ic <= firstOutOfLineOffset -> forall st L P,
  structure_inv ic (fst st) L -> (forall k, balance k (snd st) = held k L) -> props_run (map prop_of L) ops = Some P ->
  exists st' L', structure_run st ops = Some st' /\ structure_inv ic (fst st') L' /\ map prop_of L' = P /\
    forall k, balance k (snd st') = held k L'.
Proof using.
  intros Hic. induction ops as [|op ops IH]; intros st L P Hinv Href Hrun; cbn [props_run structure_run] in *.
  - injection Hrun as <-. by exists st, L.
  - destruct (props_step (map prop_of L) op) as [P1|] eqn:E1; [|done]. cbn [mbind option_bind] in Hrun.
    destruct (structure_step_spec ic st L op P1 Hic Hinv Href E1) as (st1 & L1 & -> & Hinv1 & <- & Href1). mstep. by apply (IH _ L1).
Qed.

Lemma structure_entries_inv ic s L : structure_inv ic s L -> structure_entries s = L.
Proof using.
  intros [_ (E & Hwf & <-) _ _ _]. unfold structure_entries, structure_table in *. destruct (s_table s) as [t|]; cbn [default] in Hwf; unfold id in Hwf.
  - by apply (live_spec hash).
  - assert (E = []) as -> by (apply zlen_0_nil; by rewrite <- (wf_used _ _ _ Hwf)). done.
Qed.

Lemma structure_consistent ic s L :
  0 <= ic <= firstOutOfLineOffset -> structure_inv ic s L -> checkOffsetConsistency s = true.
Proof using.
  intros Hic [Hcap (E & Hwf & HL) Hlast _ _]. unfold checkOffsetConsistency, structure_table, deleted_of in *.
  destruct (s_table s) as [t|]; [|done]. cbn [default] in Hwf. unfold id in Hwf.
  assert (propertyStorageSize t = zlen L + zlen (default [] (m_deletedOffsets t))) as ->.
  { unfold propertyStorageSize, size. rewrite (wf_count _ _ _ Hwf), HL. by destruct (m_deletedOffsets t). }
  rewrite Hcap, Hlast. set (n := zlen L + _). destruct (slots_of_last n ic Hic) as [-> ->]; [unfold n; zlia|]. by rewrite !Z.eqb_refl.
Qed.

(** The slot of an offset lies in the storage that the structure asks for. *)
Definition offset_in_storage (s : Structure) (o : Z) : Prop :=
  isValidOffset o = true /\
  if isInlineOffset o then 0 <= o < m_inlineCapacity s
  else 0 <= o - firstOutOfLineOffset < numberOfOutOfLineSlotsForLastOffset (m_offset s).

Lemma structure_in_storage ic s L e :
  0 <= ic <= firstOutOfLineOffset -> structure_inv ic s L -> e ∈ L -> offset_in_storage s (offset e).
Proof using.
  intros Hic [Hcap _ Hlast Hperm _] He. set (n := zlen L + _) in *.
  assert (offset e ∈ first_offsets n ic) as (i & Hi & Hin%elem_of_seqZ)%list_elem_of_fmap.
  { rewrite <- Hperm. apply elem_of_app. left. by apply list_elem_of_fmap_2. }
  unfold offset_in_storage. rewrite Hcap, Hlast. destruct (slots_of_last n ic Hic) as [_ ->]; [lia|].
  rewrite Hi. unfold isValidOffset, isInlineOffset, invalidOffset, offsetForPropertyNumber, firstOutOfLineOffset in *.
  destruct (i >=? ic) eqn:E1; bool_prop.
  - split; [apply negb_true_iff, Z.eqb_neq; lia|]. rewrite Z_ltb_false by lia. destruct (n <? ic) eqn:E2; bool_prop; lia.
  - split; [apply negb_true_iff, Z.eqb_neq; lia|]. rewrite Z_ltb_true by lia. lia.
Qed.

Lemma empty_structure_inv ic h : 0 <= ic -> structure_inv ic (mkStructure None invalidOffset ic h) [].
Proof using.
  intros Hic. destruct (empty_wf hash 0 None) as [Hwf _]; [lia|]. split; [done|by exists []|done|done|done].
Qed.

(** C24: every history of additions and removals on a new property table runs without
    an access outside the two arrays, a failed assertion or an endless probe; the
    table then holds exactly the entries of the insertion-ordered map the history
    stands for, iteration yields them in that order, [get] decides every key, each key in
    the table has been referenced once and, when the table is destroyed, no reference is left. *)
Theorem PropertyTable_history c ops :
  0 <= c < 2 ^ 27 -> Forall (fun op => valid_key (op_key op)) ops -> zlen ops <= max_keys ->
  exists t off ev, table_run (create c, invalidOffset, []) ops = Some (t, off, ev) /\
    live t = foldl spec_step [] ops /\ NoDup (keys (live t)) /\
    (forall k, valid_key k -> get hash t k = Some (lookup_key k (live t))) /\
    (forall k, balance k ev = held k (live t)) /\ (forall k, balance k (ev ++ destroy t) = 0).
Proof using.
  intros Hc Hv Hmax. destruct (table_run_spec _ ops _ _ (create_inv c Hc) Hv Hmax) as ([[t off] ev] & Hrun & Hinv).
  exists t, off, ev. pose proof (table_inv_nodup _ _ _ Hinv) as Hnd. destruct Hinv as [(E & Hwf & HL) _ Href]. cbn [fst snd] in *.
  assert (live t = foldl spec_step [] ops) as Hlive by (by rewrite (live_spec hash t E Hwf)).
  rewrite Hlive. split; [done|]. split; [done|]. split; [done|]. split; [|split; [done|]].
  - intros k Hk. by rewrite (table_get_spec t E k Hwf Hk), HL.
  - intros k. rewrite balance_app. specialize (Href k). unfold destroy. rewrite Hlive, balance_destroy by done. lia.
Qed.

(** C34: a copy of a table, whichever of the two ways of copying its capacity selects, has the same
    entries in the same order and the same free offsets, references each key once, and
    behaves as the original does under every further history. *)
Theorem PropertyTable_copy_equivalent c ops t off ev newCapacity more :
  0 <= c < 2 ^ 27 -> Forall (fun op => valid_key (op_key op)) (ops ++ more) -> zlen (ops ++ more) <= max_keys ->
  table_run (create c, invalidOffset, []) ops = Some (t, off, ev) -> m_keyCount t <= newCapacity < 2 ^ 27 ->
  exists t' ev', copy hash t newCapacity = Some (t', ev') /\
    live t' = live t /\ m_deletedOffsets t' = m_deletedOffsets t /\ ev' = map (fun e => Ref (key e)) (live t) /\
    exists t1 off1 ev1 t2 off2 ev2,
      table_run (t, off, []) more = Some (t1, off1, ev1) /\ table_run (t', off, []) more = Some (t2, off2, ev2) /\
      live t1 = live t2 /\ forall k, valid_key k -> get hash t1 k = get hash t2 k.
Proof using.
  intros Hc [Hv Hv']%Forall_app Hmax Hrun Hcap. rewrite zlen_app in Hmax.
  destruct (table_run_spec _ ops _ _ (create_inv c Hc) Hv) as (st & Hrun' & Hinv); [zlia|]. rewrite Hrun in Hrun'. injection Hrun' as <-.
  set (L := foldl spec_step [] ops) in *. destruct Hinv as [(E & Hwf & HL) Hoff _]. cbn [fst snd] in *.
  assert (exists t' E', copy hash t newCapacity = Some (t', map (fun e => Ref (key e)) (live t)) /\ wf hash t' E' /\ live_of E' = L /\
    m_deletedOffsets t' = m_deletedOffsets t) as (t' & E' & Hcopy & Hwf' & HL' & Hd).
  { unfold copy. destruct (sizeForCapacity newCapacity =? m_indexSize t); [by exists t, E|]. unfold clone_with_capacity.
    destruct (rebuild_spec hash t E newCapacity (m_deletedOffsets t) Hwf) as (t' & -> & Hwf' & Hd & _); [rewrite (wf_count _ _ _ Hwf) in Hcap; lia|].
    exists t', (live_of E). rewrite live_of_idemp. done. }
  exists t', (map (fun e => Ref (key e)) (live t)). split; [done|]. rewrite (live_spec hash t E Hwf), (live_spec hash t' E' Hwf'), HL, HL'.
  split; [done|]. split; [done|]. split; [done|].
  pose proof (spec_run_length ops) as Hlen. fold L in Hlen.
  destruct (run_from t E off L more) as (t1 & off1 & ev1 & Hrun1 & Hlive1 & Hget1); [done|done|done|done|lia|].
  destruct (run_from t' E' off L more) as (t2 & off2 & ev2 & Hrun2 & Hlive2 & Hget2); [done|done|done|done|lia|].
  exists t1, off1, ev1, t2, off2, ev2. split; [done|]. split; [done|]. split; [congruence|]. intros k Hk. by rewrite Hget1, Hget2.
Qed.

(** C25: whatever properties are added to and removed from a structure, its live
    properties and the offsets kept for reuse together occupy exactly the first
    offsets for its inline capacity, each once: no two properties share a slot, every slot lies in the
    inline storage or in the out-of-line storage that the last offset asks for,
    the consistency check of the code succeeds, and the properties keep the order
    in which they were added. *)
Theorem Structure_offsets_invariant ic h ops P :
  0 <= ic <= firstOutOfLineOffset -> props_run [] ops = Some P ->
  exists s ev, structure_run (mkStructure None invalidOffset ic h, []) ops = Some (s, ev) /\
    map prop_of (structure_entries s) = P /\
    map offset (structure_entries s) ++ deleted_of s ≡ₚ first_offsets (zlen P + zlen (deleted_of s)) ic /\
    NoDup (map offset (structure_entries s) ++ deleted_of s) /\
    (forall e, e ∈ structure_entries s -> offset_in_storage s (offset e)) /\
    checkOffsetConsistency s = true /\ forall k, balance k ev = held k (structure_entries s).
Proof using.
  intros Hic Hrun. destruct (structure_run_spec ic ops Hic (mkStructure None invalidOffset ic h, []) [] P)
    as ([s ev] & L & Hs & Hinv & HP & Href); [apply empty_structure_inv; lia|done|done|]. cbn [fst snd] in *.
  exists s, ev. rewrite (structure_entries_inv _ _ _ Hinv). split; [done|]. split; [done|].
  pose proof (sinv_offsets _ _ _ Hinv) as Hperm. assert (zlen P = zlen L) as -> by (rewrite <- HP; unfold zlen; by rewrite length_map).
  split; [done|]. split; [rewrite Hperm; by apply first_offsets_nodup|]. split; [intros e He; by eapply structure_in_storage|].
  split; [by eapply structure_consistent|done].
Qed.
End history.

(** ** Witnesses: a hash function with collisions, a table that grows past its first capacity and is compacted *)
Definition sample_hash (k : Z) : Z := 2 ^ 32 - 1 - k / 4.
Definition sample_table_ops : list table_op :=
  map (fun i => TAdd (mkEntry (2 + 3 * i) i 0)) (seqZ 0 20) ++ map (fun i => TRemove (2 + 6 * i)) (seqZ 0 9) ++ [TAdd (mkEntry 8 30 1)].

Lemma sample_valid : Forall (fun op => valid_key (op_key op)) sample_table_ops.
Proof. apply (bool_decide_unpack _). vm_compute. exact I. Qed.

Lemma PropertyTable_history_witness :
  exists t off ev, table_run sample_hash (create 0, invalidOffset, []) sample_table_ops = Some (t, off, ev) /\
    live t = foldl spec_step [] sample_table_ops /\ NoDup (keys (live t)) /\
    (forall k, valid_key k -> get sample_hash t k = Some (lookup_key k (live t))) /\
    (forall k, balance k ev = held k (live t)) /\ (forall k, balance k (ev ++ destroy t) = 0).
Proof.
  apply PropertyTable_history; [lia|apply sample_valid|]. vm_compute. discriminate.
Defined.

Definition sample_copied : option (PropertyTable * Z * list ref_event) :=
  table_run sample_hash (create 0, invalidOffset, []) sample_table_ops.
Definition sample_table : PropertyTable := match sample_copied with Some (t, _, _) => t | None => create 0 end.
Definition sample_off : Z := match sample_copied with Some (_, off, _) => off | None => 0 end.
Definition sample_events : list ref_event := match sample_copied with Some (_, _, ev) => ev | None => [] end.

Lemma PropertyTable_copy_equivalent_witness :
  exists t' ev', copy sample_hash sample_table 100 = Some (t', ev') /\
    live t' = live sample_table /\ m_deletedOffsets t' = m_deletedOffsets sample_table /\ ev' = map (fun e => Ref (key e)) (live sample_table) /\
    exists t1 off1 ev1 t2 off2 ev2,
      table_run sample_hash (sample_table, sample_off, []) [TRemove 11; TAdd (mkEntry 90 31 0)] = Some (t1, off1, ev1) /\
      table_run sample_hash (t', sample_off, []) [TRemove 11; TAdd (mkEntry 90 31 0)] = Some (t2, off2, ev2) /\
      live t1 = live t2 /\ forall k, valid_key k -> get sample_hash t1 k = get sample_hash t2 k.
Proof.
  apply (PropertyTable_copy_equivalent sample_hash 0 sample_table_ops sample_table sample_off sample_events 100); [lia| | | |].
  - apply (bool_decide_unpack _). vm_compute. exact I.
  - vm_compute. discriminate.
  - vm_compute. reflexivity.
  - split; vm_compute; [discriminate|reflexivity].
Defined.

Definition sample_structure_ops : list structure_op :=
  map (fun i => AddProperty (2 + 3 * i) i) (seqZ 0 8) ++ [RemoveProperty 5; RemoveProperty 20; RemoveProperty 6; AddProperty 90 1].
Definition sample_props : list (Z * Z) := [(2, 0); (8, 2); (11, 3); (14, 4); (17, 5); (23, 7); (90, 1)].

Lemma Structure_offsets_invariant_witness :
  exists s ev, structure_run sample_hash (mkStructure None invalidOffset 6 0, []) sample_structure_ops = Some (s, ev) /\
    map prop_of (structure_entries s) = sample_props /\
    map offset (structure_entries s) ++ deleted_of s ≡ₚ first_offsets (zlen sample_props + zlen (deleted_of s)) 6 /\
    NoDup (map offset (structure_entries s) ++ deleted_of s) /\
    (forall e, e ∈ structure_entries s -> offset_in_storage s (offset e)) /\
    checkOffsetConsistency s = true /\ forall k, balance k ev = held k (structure_entries s).
Proof.
  apply Structure_offsets_invariant; [unfold firstOutOfLineOffset; lia|]. vm_compute. reflexivity.
Defined.
