(* ===== verification/LEBDecoder.v ===== *)
(** * LEBDecoder: variable-length integers of WebAssembly binaries
      (src/Source/WTF/wtf/LEBDecoder.h)

    The functions are templates over an integer type; [w] is its number of bits.
    [None] is a read outside the bytes. *)
From S2P Require Import Prelude.
Local Open Scope Z_scope.

Definition CHAR_BIT : Z := 8.

(** Conversion to the unsigned and to the signed type of [w] bits. *)
Definition to_unsigned (w x : Z) : Z := x mod 2 ^ w.
Definition to_signed (w x : Z) : Z := (x + 2 ^ (w - 1)) mod 2 ^ w - 2 ^ (w - 1).

Definition maxByteLength (w : Z) : Z := (w - 1) / 7 + 1.

(** How the loop of the two functions ends: at a byte without its high bit, or
    after the last byte that may belong to the number. *)
Record loop_end : Type := mkEnd { complete : bool; at_offset : Z; value : Z; at_shift : Z; last_byte : Z }.

Section decode.
Context (T : Z -> Z).

Fixpoint decode_loop (fuel : nat) (bytes : list Z) (offset i last result shift : Z) : option loop_end :=
  match fuel with
  | O => None
  | S fuel =>
      byte ← bytes.[offset];
      let offset := offset + 1 in
      let result := Z.lor result (T (Z.shiftl (Z.land byte 0x7f) shift)) in
      let shift := shift + 7 in
      if Z.land byte 0x80 =? 0 then Some (mkEnd true offset result shift byte)
      else if i =? last then Some (mkEnd false offset result shift byte)
      else decode_loop fuel bytes offset (i + 1) last result shift
  end.
End decode.

Definition decode (T : Z -> Z) (w : Z) (bytes : list Z) (offset : Z) : option loop_end :=
  let last := Z.min (maxByteLength w) (zlen bytes - offset) - 1 in
  decode_loop T (Z.to_nat (maxByteLength w)) bytes offset 0 last 0 0.

(** The result says whether the number was decoded; the offset and the number are
    reference parameters. *)
Definition decodeUInt (w : Z) (bytes : list Z) (offset result : Z) : option (bool * Z * Z) :=
  if zlen bytes <=? offset then Some (false, offset, result)
  else
    e ← decode (to_unsigned w) w bytes offset;
    Some (complete e, at_offset e, value e).

Definition decodeInt (w : Z) (bytes : list Z) (offset result : Z) : option (bool * Z * Z) :=
  if zlen bytes <=? offset then Some (false, offset, result)
  else
    e ← decode (to_signed w) w bytes offset;
    if negb (complete e) then Some (false, at_offset e, value e)
    else
      let result := value e in
      let result :=
        if (at_shift e <? w) && negb (Z.land (last_byte e) 0x40 =? 0)
        then to_signed w (Z.lor (to_unsigned w result) (to_unsigned w (Z.shiftl (to_unsigned w (-1)) (at_shift e))))
        else result in
      Some (true, at_offset e, result).

Definition decodeUInt32 : list Z -> Z -> Z -> option (bool * Z * Z) := decodeUInt 32.
Definition decodeUInt64 : list Z -> Z -> Z -> option (bool * Z * Z) := decodeUInt 64.
Definition decodeInt32 : list Z -> Z -> Z -> option (bool * Z * Z) := decodeInt 32.
Definition decodeInt64 : list Z -> Z -> Z -> option (bool * Z * Z) := decodeInt 64.

(** ** What a sequence of bytes denotes *)
Definition continues (b : Z) : bool := negb (Z.land b 0x80 =? 0).

Fixpoint leb_unsigned (bs : list Z) : Z :=
  match bs with
  | [] => 0
  | b :: bs => b mod 128 + 128 * leb_unsigned bs
  end.

Fixpoint leb_signed (bs : list Z) : Z :=
  match bs with
  | [] => 0
  | [b] => if b mod 128 <? 64 then b mod 128 else b mod 128 - 128
  | b :: bs => b mod 128 + 128 * leb_signed bs
  end.

(** The bytes of the number at the front, if it ends within [n] bytes. *)
Fixpoint leb_prefix (n : nat) (bs : list Z) : option (list Z) :=
  match n, bs with
  | O, _ | _, [] => None
  | S n, b :: bs => if continues b then p ← leb_prefix n bs; Some (b :: p) else Some [b]
  end.

(** ** Encoders of the format *)
Fixpoint encode_unsigned (n : nat) (x : Z) : list Z :=
  match n with
  | O => []
  | S n => if x <? 128 then [x] else (128 + x mod 128) :: encode_unsigned n (x / 128)
  end.

Fixpoint encode_signed (n : nat) (x : Z) : list Z :=
  match n with
  | O => []
  | S n => if (-64 <=? x) && (x <? 64) then [x mod 128] else (128 + x mod 128) :: encode_signed n (x / 128)
  end.
