(* ===== verification/LEBDecoderProps.v ===== *)
(** * LEBDecoderProps: what the decoders accept, reject and return *)
From S2P Require Import Prelude LEBDecoder.
Local Open Scope Z_scope.

(** ** Conversions *)
Lemma to_signed_mod w x y : 0 < w -> x mod 2 ^ w = y mod 2 ^ w -> to_signed w x = to_signed w y.
Proof. intros Hw H. unfold to_signed. by rewrite Z.add_mod, H, <- Z.add_mod by lia. Qed.

Lemma to_signed_spec w x : 0 < w -> exists c, to_signed w x = x + c * 2 ^ w /\ - 2 ^ (w - 1) <= to_signed w x < 2 ^ (w - 1).
Proof.
  intros Hw. assert (2 ^ w = 2 * 2 ^ (w - 1)) as Hp by (rewrite <- Z.pow_succ_r by lia; f_equal; lia).
  exists (- ((x + 2 ^ (w - 1)) / 2 ^ w)). unfold to_signed.
  pose proof (Z.mod_pos_bound (x + 2 ^ (w - 1)) (2 ^ w) ltac:(lia)). rewrite Z.mod_eq by lia. rewrite Z.mod_eq in H by lia. lia.
Qed.

Lemma to_signed_unique w x y c : 0 < w -> y = x + c * 2 ^ w -> - 2 ^ (w - 1) <= y < 2 ^ (w - 1) -> to_signed w x = y.
Proof.
  intros Hw -> Hr. assert (2 ^ w = 2 * 2 ^ (w - 1)) as Hp by (rewrite <- Z.pow_succ_r by lia; f_equal; lia).
  unfold to_signed. replace (x + 2 ^ (w - 1)) with (x + c * 2 ^ w + 2 ^ (w - 1) + (- c) * 2 ^ w) by lia.
  rewrite Z.mod_add, Z.mod_small by lia. lia.
Qed.

Lemma to_signed_0 w : 0 < w -> to_signed w 0 = 0.
Proof. intros. assert (0 < 2 ^ (w - 1)) by (apply Z.pow_pos_nonneg; lia). apply (to_signed_unique w 0 0 0); lia. Qed.

(** Joining a group of bits to the bits below it, at the width of the type. *)
Definition joins (w : Z) (T : Z -> Z) : Prop :=
  forall v k x, 0 <= v < 2 ^ k -> 0 <= k < w -> Z.lor v (T (Z.shiftl x k)) = T (v + x * 2 ^ k).

Lemma pow_split w k : 0 <= k <= w -> 2 ^ w = 2 ^ (w - k) * 2 ^ k.
Proof. intros. rewrite <- Z.pow_add_r by lia. f_equal. lia. Qed.

Lemma unsigned_joins w : joins w (to_unsigned w).
Proof.
  intros v k x Hv Hk. unfold to_unsigned. rewrite Z.shiftl_mul_pow2 by lia. rewrite (pow_split w k) by lia.
  assert (0 < 2 ^ (w - k)) by (apply Z.pow_pos_nonneg; lia). assert (0 < 2 ^ k) by lia.
  rewrite Zmult_mod_distr_r. rewrite <- Z.shiftl_mul_pow2 by lia. rewrite Z_lor_above by lia.
  rewrite (Z.mul_comm (2 ^ (w - k))), Z.rem_mul_r by lia. replace (v + x * 2 ^ k) with (v + 2 ^ k * x) by lia.
  assert ((v + 2 ^ k * x) mod 2 ^ k = v) as -> by (rewrite Z.mul_comm, Z.mod_add, Z.mod_small; lia).
  assert ((v + 2 ^ k * x) / 2 ^ k = x) as -> by (rewrite Z.mul_comm, Z.div_add, Z.div_small; lia). lia.
Qed.

Lemma signed_joins w : joins w (to_signed w).
Proof.
  intros v k x Hv Hk. assert (0 < w) as Hw by lia. rewrite Z.shiftl_mul_pow2 by lia.
  destruct (to_signed_spec w (x * 2 ^ k) Hw) as (c & Hc & Hr). rewrite Hc in *.
  assert (0 < 2 ^ k) by lia.
  rewrite (pow_split w k) in * by lia. replace (x * 2 ^ k + c * (2 ^ (w - k) * 2 ^ k)) with ((x + c * 2 ^ (w - k)) * 2 ^ k) in * by lia.
  rewrite (pow_split (w - 1) k) in Hr by lia. rewrite <- Z.shiftl_mul_pow2, Z_lor_above by lia.
  symmetry. apply (to_signed_unique w _ _ c Hw).
  - rewrite (pow_split w k) by lia. lia.
  - rewrite (pow_split (w - 1) k) by lia. revert Hr Hv. generalize (x + c * 2 ^ (w - k)) (2 ^ (w - 1 - k)). intros y P Hr Hv.
    assert (y < P) by nia. assert ((y + 1) * 2 ^ k <= P * 2 ^ k) by (apply Z.mul_le_mono_nonneg_r; lia). lia.
Qed.

(** ** Groups of seven bits *)
Lemma land_127 b : Z.land b 0x7f = b mod 128.
Proof. exact (Z_land_ones b 7 ltac:(lia)). Qed.

Lemma leb_unsigned_bound bs : 0 <= leb_unsigned bs < 2 ^ (7 * zlen bs).
Proof.
  induction bs as [|b bs IH]; [done|]. cbn [leb_unsigned]. pose proof (Z.mod_pos_bound b 128 ltac:(lia)).
  zlens. replace (7 * (1 + zlen bs)) with (7 + 7 * zlen bs) by lia. rewrite Z.pow_add_r by lia. change (2 ^ 7) with 128. nia.
Qed.

Lemma leb_unsigned_app a b : leb_unsigned (a ++ b) = leb_unsigned a + leb_unsigned b * 2 ^ (7 * zlen a).
Proof.
  induction a as [|x a IH]; [cbn [app leb_unsigned]; change (2 ^ (7 * zlen (@nil Z))) with 1; lia|]. cbn [app leb_unsigned]. rewrite IH. zlens.
  replace (7 * (1 + zlen a)) with (7 + 7 * zlen a) by lia. rewrite Z.pow_add_r by lia. change (2 ^ 7) with 128. lia.
Qed.

Lemma leb_signed_cons b c bs : leb_signed (b :: c :: bs) = b mod 128 + 128 * leb_signed (c :: bs).
Proof. done. Qed.

(** The sign of a number is bit 6 of its last byte. *)
Lemma leb_signed_eq bs b :
  leb_signed (bs ++ [b]) = leb_unsigned (bs ++ [b]) - (if b mod 128 <? 64 then 0 else 2 ^ (7 * zlen (bs ++ [b]))).
Proof.
  induction bs as [|x bs IH]; [cbn [app leb_signed leb_unsigned]; change (2 ^ (7 * zlen [b])) with 128; destruct (b mod 128 <? 64); lia|].
  assert (leb_signed ((x :: bs) ++ [b]) = x mod 128 + 128 * leb_signed (bs ++ [b])) as -> by (cbn [app]; by destruct (bs ++ [b]) eqn:E; [destruct bs|]).
  cbn [app leb_unsigned]. rewrite IH. zlens. replace (7 * (1 + (zlen bs + (1 + 0)))) with (7 + 7 * (zlen bs + (1 + 0))) by lia.
  rewrite Z.pow_add_r by lia. change (2 ^ 7) with 128. destruct (b mod 128 <? 64); lia.
Qed.

Lemma leb_prefix_short n bs : leb_prefix n bs = leb_prefix (min n (length bs)) bs.
Proof.
  revert bs. induction n as [|n IH]; intros [|b bs]; [done|done|done|]. cbn [leb_prefix length Nat.min]. destruct (continues b); [|done]. by rewrite IH.
Qed.

(** A number is a non-empty prefix, the last byte of which ends it. *)
Lemma leb_prefix_spec n bs p :
  leb_prefix n bs = Some p -> exists q b, p = q ++ [b] /\ (exists rest, bs = p ++ rest) /\ (length p <= n)%nat /\ continues b = false.
Proof.
  revert bs p. induction n as [|n IH]; intros [|b bs] p; cbn [leb_prefix]; try done. destruct (continues b) eqn:Ec.
  - destruct (leb_prefix n bs) as [p'|] eqn:Ep; [|done]. mstep. intros [= <-].
    destruct (IH _ _ Ep) as (q & b' & -> & (rest & ->) & Hl & Hb). exists (b :: q), b'. split; [done|].
    split; [by exists rest|]. split; [cbn [length]; lia|done].
  - intros [= <-]. exists [], b. split; [done|]. split; [by exists bs|]. split; [cbn [length]; lia|done].
Qed.

(** ** The loop *)
Lemma maxByteLength_spec w : 0 < w -> 7 * (maxByteLength w - 1) < w <= 7 * maxByteLength w.
Proof. intros. unfold maxByteLength. Z.to_euclidean_division_equations; lia. Qed.

(** The bytes that are read when [n] may be. *)
Definition leb_read (n : nat) (bs : list Z) : list Z := default (take n bs) (leb_prefix n bs).

Definition leb_complete (n : nat) (bs : list Z) : bool := match leb_prefix n bs with Some _ => true | None => false end.

Section loop.
Context (w : Z) (T : Z -> Z) (Hjoins : joins w T) (HT0 : T 0 = 0).

Lemma T_small k y : 0 <= k < w -> 0 <= y < 2 ^ k -> T y = y.
Proof using Hjoins HT0.
  intros Hk Hy. pose proof (Hjoins y k 0 Hy Hk) as H. rewrite Z.shiftl_0_l, HT0, Z.lor_0_r in H. rewrite H at 2. f_equal. lia.
Qed.

Lemma loop_spec n : forall fuel pre before rest, (n <= length rest)%nat -> (n <= fuel)%nat -> (0 < n)%nat -> 7 * (zlen before + Z.of_nat n - 1) < w ->
  decode_loop T fuel (pre ++ before ++ rest) (zlen pre + zlen before) (zlen before) (zlen before + Z.of_nat n - 1) (leb_unsigned before) (7 * zlen before)
  = let q := leb_read n rest in
    Some (mkEnd (leb_complete n rest) (zlen pre + zlen before + zlen q) (T (leb_unsigned (before ++ q))) (7 * zlen (before ++ q)) (default 0 (last q))).
Proof using Hjoins HT0.
  induction n as [|n IH]; intros fuel pre before rest Hn Hf Hpos Hw; [lia|]. destruct fuel as [|fuel]; [lia|]. destruct rest as [|b rest]; [cbn in Hn; lia|].
  cbn [decode_loop]. rewrite app_assoc, zget_middle by zlia. mstep. rewrite land_127.
  assert (Z.lor (leb_unsigned before) (T (Z.shiftl (b mod 128) (7 * zlen before))) = T (leb_unsigned (before ++ [b]))) as Hj.
  { rewrite leb_unsigned_app. cbn [leb_unsigned]. rewrite Z.mul_0_r, Z.add_0_r. apply Hjoins; [apply leb_unsigned_bound|zlia]. }
  rewrite Hj. unfold leb_read, leb_complete. cbn [leb_prefix].
  assert (7 * zlen before + 7 = 7 * zlen (before ++ [b])) as Hs by zlia. rewrite Hs.
  destruct (Z.land b 0x80 =? 0) eqn:Ec; unfold continues; rewrite Ec; cbn [negb].
  { cbn [default last]. unfold id. do 2 f_equal; zlia. }
  destruct (decide (n = 0%nat)) as [->|Hn0].
  - rewrite (proj2 (Z.eqb_eq _ _)) by lia. cbn [leb_prefix mbind option_bind default last take]. unfold id. do 2 f_equal; zlia.
  - rewrite (proj2 (Z.eqb_neq _ _)) by lia. cbn [length] in Hn. specialize (IH fuel pre (before ++ [b]) rest ltac:(lia) ltac:(lia) ltac:(lia)).
    pose proof (leb_unsigned_bound (before ++ [b])) as Hb. assert (zlen (before ++ [b]) = zlen before + 1) as Hl by zlia.
    rewrite (T_small (7 * zlen (before ++ [b]))) by (done || zlia). rewrite <- !app_assoc in *. cbn [app] in IH.
    replace (zlen before + Z.of_nat (S n) - 1) with (zlen (before ++ [b]) + Z.of_nat n - 1) by lia.
    replace (zlen pre + zlen before + 1) with (zlen pre + zlen (before ++ [b])) by lia. rewrite <- Hl. rewrite IH by lia. unfold leb_read, leb_complete.
    assert (exists q, q <> [] /\ default (take n rest) (leb_prefix n rest) = q /\ default (take (S n) (b :: rest)) (p ← leb_prefix n rest; Some (b :: p)) = b :: q) as (q & Hq & -> & ->).
    { destruct (leb_prefix n rest) as [p|] eqn:Ep; cbn [mbind option_bind default]; unfold id.
      - exists p. split; [|done]. by destruct (leb_prefix_spec _ _ _ Ep) as (q & x & -> & _); destruct q.
      - exists (take n rest). split; [|done]. destruct n, rest; cbn in *; [lia|lia|lia|done]. }
    cbn [app]. rewrite zlen_cons. rewrite <- app_assoc. cbn [app]. do 2 f_equal; [by destruct (leb_prefix n rest)|lia|by destruct q].
Qed.
End loop.

(** The bytes of the number at [offset], within the bytes a number may have. *)
Definition leb_at (w : Z) (bytes : list Z) (offset : Z) : option (list Z) :=
  leb_prefix (Z.to_nat (maxByteLength w)) (drop (Z.to_nat offset) bytes).

Lemma decode_spec w T bytes offset :
  0 < w -> joins w T -> T 0 = 0 -> 0 <= offset < zlen bytes ->
  let n := Z.to_nat (maxByteLength w) in let rest := drop (Z.to_nat offset) bytes in
  let q := leb_read n rest in
  decode T w bytes offset = Some (mkEnd (leb_complete n rest) (offset + zlen q) (T (leb_unsigned q)) (7 * zlen q) (default 0 (last q))).
Proof.
  intros Hw Hj HT0 Hoff n rest q. pose proof (maxByteLength_spec w Hw) as Hmax.
  destruct (zsplit bytes offset) as (pre & rest' & -> & Hpre); [lia|].
  assert (rest = rest') as Hrest by (unfold rest; by rewrite drop_zlen). clearbody rest. subst rest'. rewrite zlen_app, Hpre in Hoff.
  unfold decode. set (m := min n (length rest)).
  assert (Z.of_nat m = Z.min (maxByteLength w) (zlen rest)) as Hm by (unfold m, n, zlen; lia).
  pose proof (loop_spec w T Hj HT0 m n pre [] rest) as Hloop. change (zlen (@nil Z)) with 0 in Hloop. cbn [app leb_unsigned] in Hloop.
  replace (zlen (pre ++ rest) - offset) with (zlen rest) by zlia. rewrite <- Hm.
  replace (0 + Z.of_nat m - 1) with (Z.of_nat m - 1) in Hloop by lia. rewrite Z.add_0_r, Hpre in Hloop. change (7 * 0) with 0 in Hloop. fold n. rewrite Hloop by (unfold zlen in *; lia).
  assert (leb_complete m rest = leb_complete n rest) as -> by (unfold leb_complete, m; by rewrite <- leb_prefix_short).
  assert (leb_read m rest = q) as ->; [|done]. unfold q, leb_read, m. rewrite <- leb_prefix_short.
  destruct (leb_prefix n rest); [done|]. cbn [default]. destruct (decide (n <= length rest)%nat); [by rewrite Nat.min_l by lia|].
  rewrite Nat.min_r by lia. by rewrite !take_ge by lia.
Qed.

(** The part of the number that did not end. *)
Definition truncated (w : Z) (bytes : list Z) (offset : Z) : list Z :=
  take (Z.to_nat (maxByteLength w)) (drop (Z.to_nat offset) bytes).

Lemma decodeUInt_spec w bytes offset result :
  0 < w -> 0 <= offset ->
  decodeUInt w bytes offset result = Some
    match leb_at w bytes offset with
    | Some p => (true, offset + zlen p, to_unsigned w (leb_unsigned p))
    | None =>
        if zlen bytes <=? offset then (false, offset, result)
        else (false, offset + zlen (truncated w bytes offset), to_unsigned w (leb_unsigned (truncated w bytes offset)))
    end.
Proof.
  intros Hw Hoff. unfold decodeUInt. destruct (zlen bytes <=? offset) eqn:El; bool_prop.
  - unfold leb_at. rewrite drop_ge by (unfold zlen in *; lia). by destruct (Z.to_nat (maxByteLength w)).
  - rewrite (decode_spec w) by (done || apply unsigned_joins). mstep. cbn [complete at_offset value]. unfold leb_complete, leb_read, leb_at, truncated.
    by destruct (leb_prefix _ _).
Qed.

(** Copying the sign into the bits above the last group. *)
Lemma sign_extend w u k :
  0 <= k < w -> 0 <= u < 2 ^ k ->
  to_signed w (Z.lor (to_unsigned w u) (to_unsigned w (Z.shiftl (to_unsigned w (-1)) k))) = to_signed w (u - 2 ^ k).
Proof.
  intros Hk Hu. assert (0 < 2 ^ (w - k)) by (apply Z.pow_pos_nonneg; lia). assert (2 ^ k < 2 ^ w) by (apply Z.pow_lt_mono_r; lia).
  assert (to_unsigned w u = u) as -> by (apply Z.mod_small; lia). rewrite (unsigned_joins w u k) by lia. apply to_signed_mod; [lia|].
  unfold to_unsigned. rewrite Z.mod_mod by lia. rewrite <- (Z.add_mod_idemp_r u) by lia. rewrite Z.mul_mod_idemp_l by lia.
  rewrite Z.add_mod_idemp_r by lia. f_equal.
Qed.

Lemma bit6 b : (Z.land b 0x40 =? 0) = (b mod 128 <? 64).
Proof.
  assert (Z.land b 0x40 = b / 64 mod 2 * 64) as -> by exact (Z_land_field b 6 1 ltac:(lia) ltac:(lia)).
  destruct (b mod 128 <? 64) eqn:E; bool_prop; [apply Z.eqb_eq|apply Z.eqb_neq]; Z.to_euclidean_division_equations; lia.
Qed.

Lemma decodeInt_spec w bytes offset result :
  0 < w -> 0 <= offset ->
  decodeInt w bytes offset result = Some
    match leb_at w bytes offset with
    | Some p => (true, offset + zlen p, to_signed w (leb_signed p))
    | None =>
        if zlen bytes <=? offset then (false, offset, result)
        else (false, offset + zlen (truncated w bytes offset), to_signed w (leb_unsigned (truncated w bytes offset)))
    end.
Proof.
  intros Hw Hoff. unfold decodeInt. destruct (zlen bytes <=? offset) eqn:El; bool_prop.
  - unfold leb_at. rewrite drop_ge by (unfold zlen in *; lia). by destruct (Z.to_nat (maxByteLength w)).
  - rewrite (decode_spec w) by (done || apply signed_joins || by apply to_signed_0). mstep.
    cbn [complete at_offset value at_shift last_byte]. unfold leb_complete, leb_read, leb_at, truncated.
    destruct (leb_prefix _ _) as [p|] eqn:Ep; [|done]. cbn [negb default]. unfold id. do 2 f_equal.
    destruct (leb_prefix_spec _ _ _ Ep) as (q & b & -> & _). rewrite last_snoc. cbn [default]. unfold id. rewrite bit6, leb_signed_eq.
    pose proof (leb_unsigned_bound (q ++ [b])) as Hb. set (k := 7 * zlen (q ++ [b])) in *. assert (0 <= k) by (unfold k; zlia).
    destruct (b mod 128 <? 64) eqn:Es; [by rewrite andb_false_r, Z.sub_0_r|]. rewrite andb_true_r. destruct (k <? w) eqn:Ek; bool_prop.
    + rewrite (T_small w (to_signed w) (signed_joins w) (to_signed_0 w Hw) k (leb_unsigned (q ++ [b]))) by done. by apply sign_extend.
    + apply to_signed_mod; [done|]. rewrite (pow_split k w) by lia. replace (leb_unsigned (q ++ [b]) - 2 ^ (k - w) * 2 ^ w) with (leb_unsigned (q ++ [b]) + (- 2 ^ (k - w)) * 2 ^ w) by lia.
      by rewrite Z.mod_add by lia.
Qed.

(** ** Encodings *)
Lemma continues_high x : 0 <= x < 128 -> continues (128 + x) = true.
Proof.
  intros Hx. assert (forallb (fun x => continues (128 + x)) (seqZ 0 128) = true) as H by (vm_compute; reflexivity).
  exact (forallb_seqZ _ _ _ x H ltac:(lia)).
Qed.

Lemma continues_low x : 0 <= x < 128 -> continues x = false.
Proof.
  intros Hx. assert (forallb (fun x => negb (continues x)) (seqZ 0 128) = true) as H by (vm_compute; reflexivity).
  apply negb_true_iff. exact (forallb_seqZ _ _ _ x H ltac:(lia)).
Qed.

Lemma encode_unsigned_spec n x rest :
  0 <= x < 2 ^ (7 * Z.of_nat n) -> (0 < n)%nat ->
  leb_prefix n (encode_unsigned n x ++ rest) = Some (encode_unsigned n x) /\ leb_unsigned (encode_unsigned n x) = x.
Proof.
  revert x. induction n as [|n IH]; intros x Hx Hn; [lia|]. cbn [encode_unsigned]. destruct (x <? 128) eqn:E; bool_prop; cbn [app leb_prefix leb_unsigned].
  - rewrite continues_low by lia. rewrite Z.mod_small by lia. split; [done|lia].
  - assert (0 <= x mod 128 < 128) by (apply Z.mod_pos_bound; lia).
    replace (7 * Z.of_nat (S n)) with (7 + 7 * Z.of_nat n) in Hx by lia. rewrite Z.pow_add_r in Hx by lia. change (2 ^ 7) with 128 in Hx.
    rewrite continues_high by lia. destruct (IH (x / 128)) as [-> ->].
    + Z.to_euclidean_division_equations; lia.
    + destruct n; [change (2 ^ (7 * Z.of_nat 0)) with 1 in Hx; lia|lia].
    + mstep. split; [done|]. replace (128 + x mod 128) with (x mod 128 + 1 * 128) by lia. rewrite Z.mod_add, Z.mod_mod by lia. Z.to_euclidean_division_equations; lia.
Qed.

Lemma encode_signed_spec n x rest :
  - 2 ^ (7 * Z.of_nat n - 1) <= x < 2 ^ (7 * Z.of_nat n - 1) -> (0 < n)%nat ->
  leb_prefix n (encode_signed n x ++ rest) = Some (encode_signed n x) /\ leb_signed (encode_signed n x) = x /\ encode_signed n x <> [].
Proof.
  revert x. induction n as [|n IH]; intros x Hx Hn; [lia|]. cbn [encode_signed].
  assert (0 <= x mod 128 < 128) by (apply Z.mod_pos_bound; lia).
  destruct ((-64 <=? x) && (x <? 64)) eqn:E; bool_prop; cbn [app leb_prefix].
  - rewrite continues_low by lia. split; [done|]. split; [|done]. cbn [leb_signed]. rewrite Z.mod_mod by lia.
    destruct (x mod 128 <? 64) eqn:E1; bool_prop; Z.to_euclidean_division_equations; lia.
  - replace (7 * Z.of_nat (S n) - 1) with (7 + (7 * Z.of_nat n - 1)) in Hx by lia.
    destruct (decide (n = 0%nat)) as [->|Hn0]; [change (2 ^ (7 + (7 * Z.of_nat 0 - 1))) with 64 in Hx; destruct E; bool_prop; lia|].
    rewrite Z.pow_add_r in Hx by lia. change (2 ^ 7) with 128 in Hx.
    rewrite continues_high by lia. destruct (IH (x / 128)) as (-> & Hv & Hne); [Z.to_euclidean_division_equations; lia|lia|].
    mstep. split; [done|]. split; [|done]. destruct (encode_signed n (x / 128)) as [|c l]; [done|]. rewrite leb_signed_cons, Hv.
    replace (128 + x mod 128) with (x mod 128 + 1 * 128) by lia. rewrite Z.mod_add, Z.mod_mod by lia. Z.to_euclidean_division_equations; lia.
Qed.

(** C36: for integer types of every width, [decodeUInt] and [decodeInt] read nothing outside the
    bytes and decide whether a number starts at the offset: if one ends within the bytes
    there are and within the length that the type allows, they return its value modulo the width of
    the type and the offset after it; otherwise they fail, at the end of the input
    without a change, else after the bytes that were read. *)
Theorem LEB_decode_correct w bytes offset result :
  0 < w -> 0 <= offset ->
  (decodeUInt w bytes offset result = Some
    match leb_at w bytes offset with
    | Some p => (true, offset + zlen p, to_unsigned w (leb_unsigned p))
    | None =>
        if zlen bytes <=? offset then (false, offset, result)
        else (false, offset + zlen (truncated w bytes offset), to_unsigned w (leb_unsigned (truncated w bytes offset)))
    end) /\
  (decodeInt w bytes offset result = Some
    match leb_at w bytes offset with
    | Some p => (true, offset + zlen p, to_signed w (leb_signed p))
    | None =>
        if zlen bytes <=? offset then (false, offset, result)
        else (false, offset + zlen (truncated w bytes offset), to_signed w (leb_unsigned (truncated w bytes offset)))
    end).
Proof. intros Hw Hoff. split; [by apply decodeUInt_spec|by apply decodeInt_spec]. Qed.

(** An integer of the type, encoded, is decoded to itself wherever it stands and whatever follows it. *)
Theorem LEB_roundtrip w pre rest result x :
  0 < w ->
  let n := Z.to_nat (maxByteLength w) in
  (0 <= x < 2 ^ w ->
    decodeUInt w (pre ++ encode_unsigned n x ++ rest) (zlen pre) result = Some (true, zlen pre + zlen (encode_unsigned n x), x)) /\
  (- 2 ^ (w - 1) <= x < 2 ^ (w - 1) ->
    decodeInt w (pre ++ encode_signed n x ++ rest) (zlen pre) result = Some (true, zlen pre + zlen (encode_signed n x), x)).
Proof.
  intros Hw n. pose proof (maxByteLength_spec w Hw) as Hmax. pose proof (zlen_nonneg pre).
  assert (Z.of_nat n = maxByteLength w) as Hn by lia.
  split; intros Hx; [rewrite decodeUInt_spec by done|rewrite decodeInt_spec by done]; unfold leb_at; fold n; rewrite drop_zlen by done.
  - assert (2 ^ w <= 2 ^ (7 * Z.of_nat n)) by (apply Z.pow_le_mono_r; lia).
    destruct (encode_unsigned_spec n x rest) as [-> ->]; [lia|lia|]. unfold to_unsigned. by rewrite Z.mod_small.
  - assert (2 ^ (w - 1) <= 2 ^ (7 * Z.of_nat n - 1)) by (apply Z.pow_le_mono_r; lia).
    destruct (encode_signed_spec n x rest) as (-> & -> & _); [lia|lia|]. by rewrite (to_signed_unique w x x 0) by lia.
Qed.

Lemma LEB_decode_correct_witness :
  (decodeUInt 32 [7; 0xe5; 0x8e; 0x26; 9] 1 0 = Some (true, 4, 624485) /\
   decodeInt 32 [7; 0xc0; 0xbb; 0x78; 9] 1 0 = Some (true, 4, -123456)) /\
  (decodeUInt 32 [0xff; 0xff] 0 0 = Some (false, 2, 16383) /\ decodeInt 32 [0xff; 0xff] 2 5 = Some (false, 2, 5)).
Proof.
  split; split.
  - exact (proj1 (LEB_decode_correct 32 [7; 0xe5; 0x8e; 0x26; 9] 1 0 ltac:(lia) ltac:(lia))).
  - exact (proj2 (LEB_decode_correct 32 [7; 0xc0; 0xbb; 0x78; 9] 1 0 ltac:(lia) ltac:(lia))).
  - exact (proj1 (LEB_decode_correct 32 [0xff; 0xff] 0 0 ltac:(lia) ltac:(lia))).
  - exact (proj2 (LEB_decode_correct 32 [0xff; 0xff] 2 5 ltac:(lia) ltac:(lia))).
Defined.

Lemma LEB_roundtrip_witness :
  decodeInt 64 ([1; 2] ++ encode_signed 10 (- 2 ^ 63) ++ [3]) 2 0 = Some (true, 12, - 2 ^ 63).
Proof. apply (proj2 (LEB_roundtrip 64 [1; 2] [3] 0 (- 2 ^ 63) ltac:(lia))). lia. Defined.
