(* ===== verification/Doubles.v ===== *)
(** * Doubles: IEEE 754 double precision numbers by their bits, the reference for the conversions of the engine *)
From S2P Require Import Prelude.
From Stdlib Require Import SpecFloat.
Local Open Scope Z_scope.

Definition is_u64 (x : Z) : Prop := 0 <= x < 2 ^ 64.

(** The number that the bits of an IEEE 754 binary64 denote. *)
Definition decode_double (bits : Z) : spec_float :=
  let s := 2 ^ 63 <=? bits in
  let e := bits / 2 ^ 52 mod 2 ^ 11 in
  let m := bits mod 2 ^ 52 in
  if e =? 0 then (if m =? 0 then S754_zero s else S754_finite s (Z.to_pos m) (-1074))
  else if e =? 2047 then (if m =? 0 then S754_infinity s else S754_nan)
  else S754_finite s (Z.to_pos (2 ^ 52 + m)) (e - 1075).

(** The magnitude of the integer part; infinities and NaN count as 0. *)
Definition trunc_abs (x : spec_float) : Z :=
  match x with
  | S754_finite _ m e => if 0 <=? e then Z.pos m * 2 ^ e else Z.pos m / 2 ^ (- e)
  | _ => 0
  end.

Definition negative (x : spec_float) : bool :=
  match x with S754_zero s | S754_infinity s | S754_finite s _ _ => s | S754_nan => false end.

Definition trunc (x : spec_float) : Z := if negative x then - trunc_abs x else trunc_abs x.

(** The three fields of a double. *)
Lemma double_fields bits :
  is_u64 bits ->
  let e := bits / 2 ^ 52 mod 2 ^ 11 in let m := bits mod 2 ^ 52 in let s := if 2 ^ 63 <=? bits then 1 else 0 in
  bits = s * 2 ^ 63 + e * 2 ^ 52 + m /\ 0 <= e < 2048 /\ 0 <= m < 2 ^ 52.
Proof.
  intros Hb e m s. unfold e, m, s, is_u64 in *. destruct (2 ^ 63 <=? bits) eqn:E; bool_prop; Z.to_euclidean_division_equations; lia.
Qed.

(** The double of an integer of less than 2^53 in magnitude. *)
Definition double_of_int (n : Z) : Z :=
  if n =? 0 then 0
  else
    let a := Z.abs n in
    let k := Z.log2 a in
    (if n <? 0 then 2 ^ 63 else 0) + (k + 1023) * 2 ^ 52 + (a - 2 ^ k) * 2 ^ (52 - k).

(** The comparison [==] of two doubles. *)
Definition double_eq (a b : Z) : bool := SFeqb (decode_double a) (decode_double b).

Definition is_nan (bits : Z) : bool := match decode_double bits with S754_nan => true | _ => false end.
Definition is_zero (bits : Z) : bool := match decode_double bits with S754_zero _ => true | _ => false end.
Definition signbit (bits : Z) : bool := 2 ^ 63 <=? bits.

(** ** Facts *)
(** The bits of a finite number other than zero, and of infinities. *)
Definition finite_bits (s : bool) (m e : Z) : Z :=
  (if s then 2 ^ 63 else 0) + (if m <? 2 ^ 52 then m else (e + 1075) * 2 ^ 52 + (m - 2 ^ 52)).
Definition infinity_bits (s : bool) : Z := (if s then 2 ^ 63 else 0) + 2047 * 2 ^ 52.

Lemma decode_inv a :
  is_u64 a ->
  match decode_double a with
  | S754_finite s m e => a = finite_bits s (Z.pos m) e /\ s = signbit a
  | S754_zero s => a = (if s then 2 ^ 63 else 0) /\ s = signbit a
  | S754_infinity s => a = infinity_bits s /\ s = signbit a
  | S754_nan => True
  end.
Proof.
  intros Ha. destruct (double_fields a Ha) as (Ea & Hea & Hma). unfold decode_double, signbit.
  set (ea := a / 2 ^ 52 mod 2 ^ 11) in *. set (ma := a mod 2 ^ 52) in *.
  assert ((if 2 ^ 63 <=? a then 1 else 0) * 2 ^ 63 = if 2 ^ 63 <=? a then 2 ^ 63 else 0) as Hs by (by destruct (2 ^ 63 <=? a)).
  destruct (ea =? 0) eqn:E1; [|destruct (ea =? 2047) eqn:E3]; bool_prop.
  - destruct (ma =? 0) eqn:E2; bool_prop; (split; [|done]); [lia|]. unfold finite_bits. rewrite Z2Pos.id, Z_ltb_true by lia. lia.
  - destruct (ma =? 0) eqn:E2; bool_prop; [|done]. split; [|done]. unfold infinity_bits. lia.
  - split; [|done]. unfold finite_bits. rewrite Z2Pos.id, Z_ltb_false by lia. lia.
Qed.

(** Two doubles are equal when they have the same bits and are not NaN, or are both zeros. *)
Lemma double_eq_spec a b :
  is_u64 a -> is_u64 b -> double_eq a b = true <-> (a = b /\ is_nan a = false) \/ (is_zero a = true /\ is_zero b = true).
Proof.
  intros Ha Hb. pose proof (decode_inv a Ha) as Hda. pose proof (decode_inv b Hb) as Hdb. unfold double_eq, is_nan, is_zero.
  assert (forall s m e, SFeqb (S754_finite s m e) (S754_finite s m e) = true) as Hrefl.
  { intros s m e. unfold SFeqb, SFcompare. rewrite Z.compare_refl, Pos.compare_cont_refl. by destruct s. }
  split.
  - intros H. destruct (decode_double a) as [s|s| |s m e] eqn:Ea, (decode_double b) as [s'|s'| |s' m' e'] eqn:Eb; try (by destruct s, s'); try (by destruct s); try (by destruct s'); try done.
    + by right.
    + left. split; [|done]. destruct Hda as [-> _], Hdb as [-> _]. by destruct s, s'.
    + left. split; [|done]. destruct Hda as [-> _], Hdb as [-> _]. unfold SFeqb, SFcompare in H.
      change (Pos.compare_cont Eq m m') with (m ?= m')%positive in H.
      destruct s, s'; try done; destruct (Z.compare_spec e e') as [->| |]; try done; destruct (Pos.compare_spec m m') as [->| |]; done.
  - intros [[-> Hn]|[H1 H2]].
    + destruct (decode_double b) as [s|s| |s m e]; [done|by destruct s|done|apply Hrefl].
    + by destruct (decode_double a), (decode_double b).
Qed.

Lemma is_nan_bits a : is_u64 a -> is_nan a = true -> 0x7ff0000000000000 < a mod 2 ^ 63.
Proof.
  intros Ha. destruct (double_fields a Ha) as (Ea & Hea & Hma). unfold is_nan, decode_double.
  set (ea := a / 2 ^ 52 mod 2 ^ 11) in *. set (ma := a mod 2 ^ 52) in *. destruct (ea =? 0) eqn:E1; [by destruct (ma =? 0)|].
  destruct (ea =? 2047) eqn:E2; [|done]. destruct (ma =? 0) eqn:E3; [done|]. bool_prop. intros _.
  rewrite Ea. replace ((if 2 ^ 63 <=? a then 1 else 0) * 2 ^ 63 + ea * 2 ^ 52 + ma) with (ea * 2 ^ 52 + ma + (if 2 ^ 63 <=? a then 1 else 0) * 2 ^ 63) by lia.
  rewrite Z.mod_add by lia. rewrite Z.mod_small by lia. lia.
Qed.

(** ** Doubles of integers *)
Lemma double_of_int_spec n :
  n <> 0 -> Z.abs n < 2 ^ 53 ->
  let a := Z.abs n in let k := Z.log2 a in
  is_u64 (double_of_int n) /\
  decode_double (double_of_int n) = S754_finite (n <? 0) (Z.to_pos (a * 2 ^ (52 - k))) (k - 52).
Proof.
  intros Hn Hmax a k. assert (0 < a) as Ha by (unfold a; lia). pose proof (Z.log2_spec a Ha) as Hk. fold k in Hk.
  assert (0 <= k) as Hk0 by apply Z.log2_nonneg. assert (k < 53) as Hk1 by (apply (Z.pow_lt_mono_r_iff 2); unfold a in *; lia).
  rewrite Z.pow_succ_r in Hk by lia. assert (2 ^ 52 = 2 ^ k * 2 ^ (52 - k)) as Hp by (rewrite <- Z.pow_add_r by lia; f_equal; lia).
  assert (0 < 2 ^ (52 - k)) as Hp0 by (apply Z.pow_pos_nonneg; lia). unfold double_of_int. rewrite (proj2 (Z.eqb_neq n 0) Hn). fold a k.
  set (m := (a - 2 ^ k) * 2 ^ (52 - k)). assert (0 <= m < 2 ^ 52) as Hm by (unfold m; nia).
  assert (a * 2 ^ (52 - k) = 2 ^ 52 + m) as -> by (unfold m; lia).
  set (bits := (if n <? 0 then 2 ^ 63 else 0) + (k + 1023) * 2 ^ 52 + m). assert (is_u64 bits) as Hu by (unfold is_u64, bits; destruct (n <? 0); lia).
  split; [done|]. unfold decode_double. assert (bits / 2 ^ 52 mod 2 ^ 11 = k + 1023) as ->.
  { assert (bits / 2 ^ 52 = (if n <? 0 then 2 ^ 11 else 0) + (k + 1023)) as ->.
    - unfold bits. replace ((if n <? 0 then 2 ^ 63 else 0) + (k + 1023) * 2 ^ 52 + m) with (m + ((if n <? 0 then 2 ^ 11 else 0) + (k + 1023)) * 2 ^ 52) by (destruct (n <? 0); lia).
      rewrite Z.div_add, Z.div_small by lia. lia.
    - destruct (n <? 0); [rewrite Z.add_comm, <- (Z.mul_1_l (2 ^ 11)) at 1; rewrite Z.mod_add by lia|]; rewrite Z.mod_small; lia. }
  assert (bits mod 2 ^ 52 = m) as ->.
  { unfold bits. replace ((if n <? 0 then 2 ^ 63 else 0) + (k + 1023) * 2 ^ 52 + m) with (m + ((if n <? 0 then 2 ^ 11 else 0) + (k + 1023)) * 2 ^ 52) by (destruct (n <? 0); lia).
    rewrite Z.mod_add, Z.mod_small by lia. done. }
  rewrite (proj2 (Z.eqb_neq (k + 1023) 0)), (proj2 (Z.eqb_neq (k + 1023) 2047)) by lia. replace (k + 1023 - 1075) with (k - 52) by lia. f_equal.
  unfold bits. destruct (n <? 0); [rewrite Z_leb_true by lia; done|rewrite Z_leb_false by lia; done].
Qed.

Lemma double_of_int_u64 n : Z.abs n < 2 ^ 53 -> is_u64 (double_of_int n).
Proof. intros Hn. destruct (decide (n = 0)) as [->|]; [done|]. by apply double_of_int_spec. Qed.

(** Truncation gives the integer back. *)
Lemma trunc_of_int n : Z.abs n < 2 ^ 53 -> trunc (decode_double (double_of_int n)) = n.
Proof.
  intros Hn. destruct (decide (n = 0)) as [->|Hn0]; [done|]. destruct (double_of_int_spec n Hn0 Hn) as [_ ->]. set (a := Z.abs n). set (k := Z.log2 a).
  assert (0 < a) as Ha by (unfold a; lia). pose proof (Z.log2_spec a Ha) as Hk. fold k in Hk. assert (0 <= k) as Hk0 by apply Z.log2_nonneg.
  assert (k < 53) as Hk1 by (apply (Z.pow_lt_mono_r_iff 2); unfold a in *; lia). assert (0 < 2 ^ (52 - k)) as Hp0 by (apply Z.pow_pos_nonneg; lia).
  assert (trunc_abs (S754_finite (n <? 0) (Z.to_pos (a * 2 ^ (52 - k))) (k - 52)) = a) as Ht.
  { unfold trunc_abs. rewrite Z2Pos.id by nia. destruct (0 <=? k - 52) eqn:E; bool_prop.
    - assert (k = 52) as -> by lia. change (2 ^ (52 - 52)) with 1. lia.
    - replace (- (k - 52)) with (52 - k) by lia. by rewrite Z.div_mul by lia. }
  unfold trunc. rewrite Ht. cbn [negative]. unfold a. destruct (n <? 0) eqn:E; bool_prop; lia.
Qed.

(** A number that is neither a NaN nor an infinity has an exponent below the largest. *)
Lemma finite_exponent a :
  is_u64 a -> match decode_double a with S754_zero _ | S754_finite _ _ _ => True | _ => False end -> a mod 2 ^ 63 < 0x7ff0000000000000.
Proof.
  intros Ha. destruct (double_fields a Ha) as (Ea & Hea & Hma). unfold decode_double.
  set (ea := a / 2 ^ 52 mod 2 ^ 11) in *. set (ma := a mod 2 ^ 52) in *. intros Hd. assert (ea <> 2047) as He.
  { intros E. rewrite E in Hd. cbn [Z.eqb Pos.eqb] in Hd. by destruct (ma =? 0). }
  rewrite Ea. replace ((if 2 ^ 63 <=? a then 1 else 0) * 2 ^ 63 + ea * 2 ^ 52 + ma) with (ea * 2 ^ 52 + ma + (if 2 ^ 63 <=? a then 1 else 0) * 2 ^ 63) by lia.
  rewrite Z.mod_add, Z.mod_small by lia. lia.
Qed.

Lemma double_of_int_finite n : Z.abs n < 2 ^ 53 -> match decode_double (double_of_int n) with S754_zero _ | S754_finite _ _ _ => True | _ => False end.
Proof. intros Hn. destruct (decide (n = 0)) as [->|Hn0]; [done|]. by destruct (double_of_int_spec n Hn0 Hn) as [_ ->]. Qed.

Lemma double_of_int_not_nan n : Z.abs n < 2 ^ 53 -> is_nan (double_of_int n) = false.
Proof. intros Hn. pose proof (double_of_int_finite n Hn) as H. unfold is_nan. by destruct (decode_double _). Qed.

Lemma double_of_int_inj n m : Z.abs n < 2 ^ 53 -> Z.abs m < 2 ^ 53 -> double_of_int n = double_of_int m -> n = m.
Proof. intros Hn Hm E. rewrite <- (trunc_of_int n), <- (trunc_of_int m) by done. by rewrite E. Qed.

Lemma double_of_int_zero n : Z.abs n < 2 ^ 53 -> is_zero (double_of_int n) = true -> n = 0.
Proof.
  intros Hn Hz. rewrite <- (trunc_of_int n) by done. unfold is_zero in Hz. destruct (decode_double _); try done. by destruct s.
Qed.

(** The comparison of two integers as doubles is their comparison. *)
Lemma double_eq_of_int n m : Z.abs n < 2 ^ 53 -> Z.abs m < 2 ^ 53 -> double_eq (double_of_int n) (double_of_int m) = (n =? m).
Proof.
  intros Hn Hm. apply eq_true_iff_eq. rewrite double_eq_spec, Z.eqb_eq by (by apply double_of_int_u64). split.
  - intros [[E _]|[H1 H2]]; [by apply double_of_int_inj|]. by rewrite (double_of_int_zero n), (double_of_int_zero m).
  - intros ->. left. split; [done|]. by apply double_of_int_not_nan.
Qed.
