(* ===== verification/ToInt32.v ===== *)
(** * ToInt32: conversion of a double to a 32-bit integer
      (src/Source/JavaScriptCore/runtime/MathCommon.h)

    A double is given by its 64 bits.  The reference is IEEE 754: the bits are
    decoded to a number, which is truncated and taken modulo 2^32.  [None] is the negation of the
    least 32-bit integer, whose overflow the language leaves undefined. *)
From S2P Require Import Prelude Doubles.
From Stdlib Require Import SpecFloat.
Local Open Scope Z_scope.

Inductive ToInt32Mode : Type := Generic | AfterSensibleConversionAttempt.

Definition toInt32Internal (Mode : ToInt32Mode) (bits : Z) : option Z :=
  let exp := Z.land (Z.shiftr bits 52) 0x7ff - 0x3ff in
  if u32 exp >? 83 then Some 0
  else
    let result := if exp >? 52 then u32 (u64 (Z.shiftl bits (exp - 52))) else u32 (Z.shiftr bits (52 - exp)) in
    let result :=
      match Mode with
      | AfterSensibleConversionAttempt =>
          if exp =? 31 then
            let missingOne := u32 (Z.shiftl 1 31) in
            u32 (Z.land result (missingOne - 1) + missingOne)
          else result
      | Generic =>
          if exp <? 32 then
            let missingOne := u32 (Z.shiftl 1 exp) in
            u32 (Z.land result (missingOne - 1) + missingOne)
          else result
      end in
    if s64 bits <? 0 then chk32 (- s32 result) else Some (s32 result).

Definition toInt32 (bits : Z) : option Z := toInt32Internal Generic bits.
Definition toUInt32 (bits : Z) : option Z := r ← toInt32 bits; Some (u32 r).
Definition operationToInt32SensibleSlow (bits : Z) : option Z := toInt32Internal AfterSensibleConversionAttempt bits.

(** ** The reference *)

(** ToInt32 of ECMA-262, section 9.5 *)
Definition ToInt32 (x : spec_float) : Z := s32 (trunc x).

(** ** Proofs *)
Lemma s32_mod x y : x mod 2 ^ 32 = y mod 2 ^ 32 -> s32 x = s32 y.
Proof. intros H. unfold s32. by rewrite <- Z.add_mod_idemp_l, H, Z.add_mod_idemp_l by lia. Qed.

Lemma s32_u32 x : s32 (u32 x) = s32 x.
Proof. apply s32_mod. unfold u32. by rewrite Z.mod_mod by lia. Qed.

(** Negation of a 32-bit integer, as far as it is defined. *)
Lemma chk32_neg x : chk32 (- s32 x) = if s32 (- x) =? - 2 ^ 31 then None else Some (s32 (- x)).
Proof.
  unfold chk32, is_s32, s32. case_decide as H; destruct (_ =? - 2 ^ 31) eqn:E; bool_prop; revert H E;
    Z.to_euclidean_division_equations; intros; try done; first [f_equal; lia | lia].
Qed.

(** With the fields apart, the shifted bits are those of the truncated number, up to a multiple of 2^32
    or, below 2^32, up to the bit that the format leaves out. *)
Lemma shifted_high top m k : 0 < k -> u32 (u64 (Z.shiftl (top * 2 ^ 52 + m) k)) = u32 ((2 ^ 52 + m) * 2 ^ k).
Proof.
  intros Hk. unfold u32, u64. rewrite Z.shiftl_mul_pow2 by lia. rewrite Z.mod_mod_divide by (exists (2 ^ 32); lia).
  replace ((2 ^ 52 + m) * 2 ^ k) with ((top * 2 ^ 52 + m) * 2 ^ k + ((1 - top) * 2 ^ 20 * 2 ^ k) * 2 ^ 32) by lia.
  by rewrite Z.mod_add by lia.
Qed.

Lemma shifted_low top m exp :
  0 <= exp <= 52 -> (top * 2 ^ 52 + m) / 2 ^ (52 - exp) = top * 2 ^ exp + m / 2 ^ (52 - exp).
Proof.
  intros He. assert (0 < 2 ^ (52 - exp)) by (apply Z.pow_pos_nonneg; lia).
  replace (2 ^ 52) with (2 ^ exp * 2 ^ (52 - exp)) by (rewrite <- Z.pow_add_r by lia; f_equal; lia).
  replace (top * (2 ^ exp * 2 ^ (52 - exp)) + m) with (m + top * 2 ^ exp * 2 ^ (52 - exp)) by lia. rewrite Z.div_add by lia. lia.
Qed.

Lemma low_part m exp : 0 <= exp <= 52 -> 0 <= m < 2 ^ 52 -> 0 <= m / 2 ^ (52 - exp) < 2 ^ exp.
Proof.
  intros He Hm. assert (0 < 2 ^ (52 - exp)) by (apply Z.pow_pos_nonneg; lia). split; [apply Z.div_pos; lia|].
  apply Z.div_lt_upper_bound; [lia|]. rewrite <- Z.pow_add_r by lia. replace (52 - exp + exp) with 52 by lia. lia.
Qed.

(** Masking, and adding the bit that the format leaves out. *)
Lemma missing_one top m exp :
  0 <= exp < 32 -> 0 <= m < 2 ^ 52 ->
  u32 (Z.land (u32 (top * 2 ^ exp + m / 2 ^ (52 - exp))) (u32 (Z.shiftl 1 exp) - 1) + u32 (Z.shiftl 1 exp)) = 2 ^ exp + m / 2 ^ (52 - exp).
Proof.
  intros He Hm. pose proof (low_part m exp ltac:(lia) Hm) as Hl. rewrite Z.shiftl_1_l.
  assert (0 < 2 ^ exp) by (apply Z.pow_pos_nonneg; lia). assert (2 ^ exp <= 2 ^ 31) by (apply Z.pow_le_mono_r; lia).
  rewrite (u32_small (2 ^ exp)) by lia. rewrite Z_land_ones by lia. unfold u32 at 2. rewrite Z.mod_mod_divide.
  - rewrite (Z.add_comm (top * 2 ^ exp)), Z.mod_add, (Z.mod_small (m / _)) by lia. rewrite u32_small by lia. lia.
  - exists (2 ^ (32 - exp)). rewrite <- Z.pow_add_r by lia. f_equal. lia.
Qed.

(** The bits of the result before the sign is applied. *)
Definition magnitude_bits (Mode : ToInt32Mode) (bits exp : Z) : Z :=
  let result := if exp >? 52 then u32 (u64 (Z.shiftl bits (exp - 52))) else u32 (Z.shiftr bits (52 - exp)) in
  match Mode with
  | AfterSensibleConversionAttempt =>
      if exp =? 31 then let missingOne := u32 (Z.shiftl 1 31) in u32 (Z.land result (missingOne - 1) + missingOne) else result
  | Generic => if exp <? 32 then let missingOne := u32 (Z.shiftl 1 exp) in u32 (Z.land result (missingOne - 1) + missingOne) else result
  end.

Lemma magnitude_spec Mode top m exp :
  0 <= m < 2 ^ 52 -> 0 <= exp -> Mode = Generic \/ 31 <= exp ->
  u32 (magnitude_bits Mode (top * 2 ^ 52 + m) exp) = u32 (if 0 <=? exp - 52 then (2 ^ 52 + m) * 2 ^ (exp - 52) else (2 ^ 52 + m) / 2 ^ (- (exp - 52))).
Proof.
  intros Hm He Hmode. unfold magnitude_bits. destruct (exp >? 52) eqn:E52; bool_prop.
  - rewrite (Z_leb_true 0 (exp - 52)) by lia. rewrite shifted_high by lia.
    rewrite (proj2 (Z.eqb_neq exp 31)), Z_ltb_false by lia. destruct Mode; unfold u32; by rewrite Z.mod_mod by lia.
  - assert (u32 ((2 ^ 52 + m) / 2 ^ (52 - exp)) = u32 (if 0 <=? exp - 52 then (2 ^ 52 + m) * 2 ^ (exp - 52) else (2 ^ 52 + m) / 2 ^ (- (exp - 52)))) as <-.
    { f_equal. replace (- (exp - 52)) with (52 - exp) by lia. destruct (0 <=? exp - 52) eqn:E; bool_prop; [|done].
      assert (exp = 52) as -> by lia. change (2 ^ (52 - 52)) with 1. by rewrite Z.div_1_r, Z.mul_1_r. }
    rewrite Z.shiftr_div_pow2, shifted_low by lia.
    assert ((2 ^ 52 + m) / 2 ^ (52 - exp) = 2 ^ exp + m / 2 ^ (52 - exp)) as -> by (rewrite <- (Z.mul_1_l (2 ^ 52)), shifted_low by lia; lia).
    destruct (decide (exp < 32)).
    + destruct Mode; [rewrite Z_ltb_true by lia; by rewrite missing_one by lia|].
      assert (exp = 31) as -> by (destruct Hmode; [done|lia]). rewrite Z.eqb_refl. by rewrite (missing_one top m 31) by lia.
    + assert (u32 (top * 2 ^ exp + m / 2 ^ (52 - exp)) = u32 (2 ^ exp + m / 2 ^ (52 - exp))) as Hu.
      { unfold u32. replace (2 ^ exp + m / 2 ^ (52 - exp)) with (top * 2 ^ exp + m / 2 ^ (52 - exp) + ((1 - top) * 2 ^ (exp - 32)) * 2 ^ 32).
        - by rewrite Z.mod_add by lia.
        - replace (2 ^ exp) with (2 ^ (exp - 32) * 2 ^ 32) by (rewrite <- Z.pow_add_r by lia; f_equal; lia). lia. }
      rewrite (proj2 (Z.eqb_neq exp 31)), Z_ltb_false by lia. destruct Mode; rewrite Hu; unfold u32; by rewrite Z.mod_mod by lia.
Qed.

(** When the conversion instruction of the processor reports that it failed. *)
Definition sensible_conversion_fails (x : spec_float) : Prop :=
  match x with
  | S754_nan | S754_infinity _ => True
  | _ => trunc x <= - 2 ^ 31 \/ 2 ^ 31 <= trunc x
  end.

Definition reference_result (x : spec_float) : option Z :=
  if negative x && (ToInt32 x =? - 2 ^ 31) then None else Some (ToInt32 x).

Lemma reference_zero x : u32 (trunc_abs x) = 0 -> reference_result x = Some 0.
Proof.
  unfold u32. intros H. assert (ToInt32 x = 0) as E.
  { unfold ToInt32, trunc. change 0 with (s32 0). apply s32_mod. destruct (negative x); [|by rewrite H].
    rewrite Z.mod_opp_l_z by (lia || done). done. }
  unfold reference_result. rewrite E. by rewrite andb_false_r.
Qed.

Lemma internal_unfold Mode bits top m :
  bits = top * 2 ^ 52 + m -> 0 <= m < 2 ^ 52 -> is_u64 bits ->
  let exp := top mod 2 ^ 11 - 1023 in
  toInt32Internal Mode bits =
    if u32 exp >? 83 then Some 0
    else if 2 ^ 63 <=? bits then chk32 (- s32 (magnitude_bits Mode bits exp)) else Some (s32 (magnitude_bits Mode bits exp)).
Proof.
  intros Hb Hm Hu exp. unfold toInt32Internal. change 0x7ff with (2 ^ 11 - 1). rewrite Z_land_ones, Z.shiftr_div_pow2 by lia.
  assert (bits / 2 ^ 52 = top) as -> by (rewrite Hb; Z.to_euclidean_division_equations; lia). fold exp.
  assert ((s64 bits <? 0) = (2 ^ 63 <=? bits)) as ->.
  { unfold s64, is_u64 in *. destruct (2 ^ 63 <=? bits) eqn:E; bool_prop; [apply Z.ltb_lt|apply Z.ltb_ge]; Z.to_euclidean_division_equations; lia. }
  done.
Qed.

Lemma toInt32_normal Mode bits top m s :
  let e := top mod 2 ^ 11 in let x := S754_finite s (Z.to_pos (2 ^ 52 + m)) (e - 1075) in
  bits = top * 2 ^ 52 + m -> 0 <= m < 2 ^ 52 -> is_u64 bits -> s = (2 ^ 63 <=? bits) ->
  Mode = Generic \/ sensible_conversion_fails x -> toInt32Internal Mode bits = reference_result x.
Proof.
  intros e x Hb Hm Hu Hs Hmode. rewrite (internal_unfold Mode bits top m Hb Hm Hu). fold e. set (exp := e - 1023).
  assert (0 <= e < 2048) as He by (apply Z.mod_pos_bound; lia).
  assert (trunc_abs x = if 0 <=? exp - 52 then (2 ^ 52 + m) * 2 ^ (exp - 52) else (2 ^ 52 + m) / 2 ^ (- (exp - 52))) as Ht.
  { unfold x, trunc_abs. rewrite Z2Pos.id by lia. by replace (e - 1075) with (exp - 52) by (unfold exp; lia). }
  destruct (u32 exp >? 83) eqn:E83; bool_prop.
  - symmetry. apply reference_zero. rewrite Ht. destruct (0 <=? exp - 52) eqn:E; bool_prop.
    + rewrite u32_small in E83 by (unfold exp; lia). unfold u32. replace (exp - 52) with (exp - 84 + 32) by lia. rewrite Z.pow_add_r by lia.
      rewrite Z.mul_assoc. by rewrite Z.mod_mul by lia.
    + destruct (decide (exp < 0)); [|rewrite u32_small in E83; lia]. rewrite Z.div_small; [done|].
      assert (2 ^ 53 <= 2 ^ (- (exp - 52))) by (apply Z.pow_le_mono_r; lia). lia.
  - assert (0 <= exp) as He0 by (destruct (decide (exp < 0)); [unfold u32, exp in *; Z.to_euclidean_division_equations; lia|lia]).
    assert (Mode = Generic \/ 31 <= exp) as Hm'.
    { destruct Hmode as [|Hf]; [by left|right]. unfold sensible_conversion_fails, x, trunc in Hf. fold x in Hf. rewrite Ht in Hf.
      destruct (decide (31 <= exp)); [done|]. exfalso. rewrite Z_leb_false in Hf by lia. replace (- (exp - 52)) with (52 - exp) in Hf by lia.
      rewrite <- (Z.mul_1_l (2 ^ 52)), shifted_low in Hf by lia. pose proof (low_part m exp ltac:(lia) Hm).
      assert (2 ^ (exp + 1) <= 2 ^ 31) by (apply Z.pow_le_mono_r; lia). rewrite Z.pow_add_r in * by lia. destruct (negative x); lia. }
    pose proof (magnitude_spec Mode top m exp Hm He0 Hm') as Hmag. rewrite <- Ht, <- Hb in Hmag. unfold reference_result, ToInt32, trunc.
    replace (negative x) with s by done. rewrite <- Hs. destruct s.
    + rewrite chk32_neg, andb_true_l. assert (s32 (- magnitude_bits Mode bits exp) = s32 (- trunc_abs x)) as ->; [|done].
      apply s32_mod. unfold u32 in Hmag. rewrite <- (Z.sub_0_l (magnitude_bits _ _ _)), <- (Z.sub_0_l (trunc_abs x)).
      by rewrite Zminus_mod, Hmag, <- Zminus_mod.
    + cbn [andb]. f_equal. by apply s32_mod.
Qed.

(** Zeros, denormal numbers, infinities and NaN. *)
Lemma toInt32_special Mode bits top m :
  bits = top * 2 ^ 52 + m -> 0 <= m < 2 ^ 52 -> is_u64 bits -> top mod 2 ^ 11 = 0 \/ top mod 2 ^ 11 = 2047 -> toInt32Internal Mode bits = Some 0.
Proof. intros Hb Hm Hu He. rewrite (internal_unfold Mode bits top m Hb Hm Hu). by destruct He as [-> | ->]. Qed.

Lemma toInt32Internal_spec Mode bits :
  is_u64 bits -> Mode = Generic \/ sensible_conversion_fails (decode_double bits) ->
  toInt32Internal Mode bits = reference_result (decode_double bits).
Proof.
  intros Hu. set (top := bits / 2 ^ 52). set (m := bits mod 2 ^ 52).
  assert (bits = top * 2 ^ 52 + m) as Hb by (unfold top, m; rewrite Z.mul_comm; apply Z.div_mod; lia).
  assert (0 <= m < 2 ^ 52) as Hm by (apply Z.mod_pos_bound; lia). unfold decode_double. fold top m.
  destruct (top mod 2 ^ 11 =? 0) eqn:E0; bool_prop.
  { intros _. rewrite (toInt32_special Mode bits top m) by auto. symmetry. apply reference_zero. destruct (m =? 0) eqn:E; bool_prop; [done|].
    cbn [trunc_abs]. change (0 <=? -1074) with false. rewrite Z2Pos.id by lia. cbn [Z.opp]. rewrite Z.div_small; [done|].
    assert (2 ^ 52 <= 2 ^ 1074) by (apply Z.pow_le_mono_r; lia). lia. }
  destruct (top mod 2 ^ 11 =? 2047) eqn:E1; bool_prop.
  { intros _. rewrite (toInt32_special Mode bits top m) by auto. symmetry. apply reference_zero. by destruct (m =? 0). }
  intros Hmode. by apply (toInt32_normal Mode bits top m).
Qed.

(** C23: for every double, [toInt32] computes ToInt32 of ECMA-262: the number the bits denote, truncated and taken modulo 2^32
    into the signed range; only where this is the least integer for a negative number
    is the negation that the code ends with undefined.  The slow path of the JIT computes the same
    wherever the instruction of the fast path fails. *)
Theorem toInt32_correct bits :
  is_u64 bits ->
  let x := decode_double bits in
  toInt32 bits = (if negative x && (ToInt32 x =? - 2 ^ 31) then None else Some (ToInt32 x)) /\
  toUInt32 bits = (if negative x && (ToInt32 x =? - 2 ^ 31) then None else Some (trunc x mod 2 ^ 32)) /\
  (sensible_conversion_fails x -> operationToInt32SensibleSlow bits = toInt32 bits).
Proof.
  intros Hu x. assert (toInt32 bits = reference_result x) as H by (apply toInt32Internal_spec; auto). split; [done|].
  unfold toUInt32. rewrite H. unfold reference_result. split.
  - destruct (negative x && _); [done|]. mstep. f_equal. unfold ToInt32, u32, s32. Z.to_euclidean_division_equations; lia.
  - intros Hf. apply toInt32Internal_spec; auto.
Qed.

(** The bits of -1.5e10 and of -2^31 *)
Lemma toInt32_correct_witness :
  toInt32 13982533963730649088 = Some (-2115098112) /\ operationToInt32SensibleSlow 13982533963730649088 = Some (-2115098112) /\
  toInt32 13970166044103278592 = None.
Proof.
  split; [|split].
  - exact (proj1 (toInt32_correct 13982533963730649088 ltac:(unfold is_u64; lia))).
  - rewrite (proj2 (proj2 (toInt32_correct 13982533963730649088 ltac:(unfold is_u64; lia)))).
    + exact (proj1 (toInt32_correct 13982533963730649088 ltac:(unfold is_u64; lia))).
    + left. vm_compute. discriminate.
  - exact (proj1 (toInt32_correct 13970166044103278592 ltac:(unfold is_u64; lia))).
Defined.
