(* ===== verification/JSONString.v ===== *)
(** * JSONString: quoting of strings for JSON
      (src/Source/WTF/wtf/text/StringBuilderJSON.cpp, ASCIICType.h, MathExtras.h)

    A string is the list of its 8-bit or 16-bit code units. *)
From S2P Require Import Prelude Utf8 MathExtras.
Local Open Scope Z_scope.

(** ** Characters *)
Definition isASCIIDigit (c : Z) : bool := (48 <=? c) && (c <=? 57).
Definition isASCIILower (c : Z) : bool := (97 <=? c) && (c <=? 122).
Definition toASCIILowerUnchecked (c : Z) : Z := Z.lor c 0x20.
Definition isASCIIAlpha (c : Z) : bool := isASCIILower (toASCIILowerUnchecked c).
Definition isASCIIAlphanumeric (c : Z) : bool := isASCIIDigit c || isASCIIAlpha c.
Definition isASCIIHexDigit (c : Z) : bool :=
  isASCIIDigit c || ((97 <=? toASCIILowerUnchecked c) && (toASCIILowerUnchecked c <=? 102)).
Definition toASCIIHexValue (c : Z) : Z := u8 (if c <? 65 then c - 48 else Z.land (c - 65 + 10) 0xF).
Definition lowerNibbleToLowercaseASCIIHexDigit (value : Z) : Z :=
  let nibble := Z.land value 0xF in nibble + (if nibble <? 10 then 48 else 97 - 10).
Definition upperNibbleToLowercaseASCIIHexDigit (value : Z) : Z :=
  let nibble := Z.shiftr value 4 in nibble + (if nibble <? 10 then 48 else 97 - 10).

Definition U16_IS_SURROGATE (c : Z) : bool := U_IS_SURROGATE c.
Definition U16_IS_SURROGATE_LEAD (c : Z) : bool := Z.land c 0x400 =? 0.
Definition U16_IS_TRAIL (c : Z) : bool := Z.land c 0xfffffc00 =? 0xdc00.

(** ** Quoting *)

(** The letter of the escape sequence of a Latin-1 character, or 0. *)
Definition escapedFormsForJSON : list Z :=
  [
   117; 117; 117; 117; 117; 117; 117; 117; 98; 116; 110; 117; 102; 114; 117; 117;
   117; 117; 117; 117; 117; 117; 117; 117; 117; 117; 117; 117; 117; 117; 117; 117;
   0; 0; 34; 0; 0; 0; 0; 0; 0; 0; 0; 0; 0; 0; 0; 0;
   0; 0; 0; 0; 0; 0; 0; 0; 0; 0; 0; 0; 0; 0; 0; 0;
   0; 0; 0; 0; 0; 0; 0; 0; 0; 0; 0; 0; 0; 0; 0; 0;
   0; 0; 0; 0; 0; 0; 0; 0; 0; 0; 0; 0; 92; 0; 0; 0] ++ replicate 160 0.

(** The units that one turn of the loop appends. *)
Definition quote_latin1 (character : Z) : list Z :=
  let escaped := default 0 (escapedFormsForJSON.[character]) in
  if escaped =? 0 then [character]
  else
    [92; escaped] ++
    (if escaped =? 117
     then [48; 48; upperNibbleToLowercaseASCIIHexDigit character; lowerNibbleToLowercaseASCIIHexDigit character]
     else []).

Definition quote_unit (character : Z) : list Z :=
  let upper := u8 (Z.shiftr character 8) in
  let lower := u8 character in
  [92; 117; upperNibbleToLowercaseASCIIHexDigit upper; lowerNibbleToLowercaseASCIIHexDigit upper;
   upperNibbleToLowercaseASCIIHexDigit lower; lowerNibbleToLowercaseASCIIHexDigit lower].

Fixpoint appendQuotedJSONStringInternal (input : list Z) : list Z :=
  match input with
  | [] => []
  | character :: input =>
      if character <=? 0xFF then quote_latin1 character ++ appendQuotedJSONStringInternal input
      else if negb (U16_IS_SURROGATE character) then character :: appendQuotedJSONStringInternal input
      else
        match input with
        | next :: input' =>
            if U16_IS_SURROGATE_LEAD character && U16_IS_TRAIL next
            then character :: next :: appendQuotedJSONStringInternal input'
            else quote_unit character ++ appendQuotedJSONStringInternal input
        | [] => quote_unit character
        end
  end.

Definition MaxLength : Z := 2 ^ 31 - 1.

(** The size of the buffer that is reserved for a builder of [length] units and a
    string of [stringLength]; [None] is an overflow. *)
Definition quotedAllocationSize (length stringLength : Z) : option Z :=
  let maximumCapacityRequired := length + (2 + stringLength * 6) in
  if (stringLength * 6 >=? 2 ^ 32) || (2 + stringLength * 6 >=? 2 ^ 32) || (maximumCapacityRequired >=? 2 ^ 32) then None
  else
    let allocationSize := Z.max maximumCapacityRequired (roundUpToPowerOfTwo maximumCapacityRequired) in
    if allocationSize >? MaxLength then None else Some allocationSize.

(** A builder that has overflowed, or the units it holds. *)
Definition builder : Type := option (list Z).

Definition appendQuotedJSONString (b : builder) (string : list Z) : builder :=
  chars ← b;
  _ ← quotedAllocationSize (zlen chars) (zlen string);
  Some (chars ++ [34] ++ appendQuotedJSONStringInternal string ++ [34]).
