(* ===== verification/LiteralParser.v ===== *)
(** * LiteralParser: the parser of JSON.parse and of literal scripts
      (src/Source/JavaScriptCore/runtime/LiteralParser.h, LiteralParser.cpp)

    A pointer into the text is the list of the characters from it to the end of
    the text.  The number that [parseDouble] gives for a text is represented by the
    text.  An array is the list of its elements and an object the sequence of the
    puts that built it.  Running out of memory is not modelled.  [None] is a read
    outside the text or of an empty stack. *)
From S2P Require Import Prelude JSONString.
Local Open Scope Z_scope.

Inductive ParserMode : Type := StrictJSON | NonStrictJSON | JSONP.

Inductive ParserState : Type :=
  | StartParseObject | StartParseArray | StartParseExpression
  | StartParseStatement | StartParseStatementEndStatement
  | DoParseObjectStartExpression | DoParseObjectEndExpression
  | DoParseArrayStartExpression | DoParseArrayEndExpression.

Inductive TokenType : Type :=
  | TokLBracket | TokRBracket | TokLBrace | TokRBrace
  | TokString | TokIdentifier | TokNumber | TokColon
  | TokLParen | TokRParen | TokComma | TokTrue | TokFalse
  | TokNull | TokEnd | TokDot | TokAssign | TokSemi | TokError.

#[export] Instance ParserMode_eq_dec : EqDecision ParserMode.
Proof. solve_decision. Defined.
#[export] Instance TokenType_eq_dec : EqDecision TokenType.
Proof. solve_decision. Defined.

Definition mode_eqb (a b : ParserMode) : bool := bool_decide (a = b).
Definition tok_eqb (a b : TokenType) : bool := bool_decide (a = b).

(** The double of a number token: from a 32-bit integer, minus zero, or by [parseDouble]. *)
Inductive number : Type := FromInt32 (n : Z) | MinusZero | ParsedDouble (text : list Z).

Inductive lex_error : Type :=
  | SingleQuotesNotAllowed | UnrecognizedToken (c : Z) | UnterminatedString | ShortUnicodeEscape
  | InvalidUnicodeEscape (text : list Z) | InvalidEscapeCharacter (c : Z)
  | InvalidNumber | InvalidDigitsAfterPoint | InvalidExponent.

(** A token with the text from its start to its end. *)
Record LiteralParserToken : Type := mkToken {
  type : TokenType;
  token_string : list Z;
  numberToken : number
}.

Definition plain (t : TokenType) : LiteralParserToken := mkToken t [] (FromInt32 0).
Definition string_token (t : TokenType) (s : list Z) : LiteralParserToken := mkToken t s (FromInt32 0).
Definition number_token (n : number) : LiteralParserToken := mkToken TokNumber [] n.

Definition isJSONWhiteSpace (c : Z) : bool := (c =? 32) || (c =? 0x9) || (c =? 0xA) || (c =? 0xD).

(** Codes 0 to 127; the others are errors. *)
Definition TokenTypesOfLatin1Characters : list TokenType :=
  replicate 34 TokError
  ++ [TokString; TokError; TokIdentifier; TokError; TokError; TokString; TokLParen; TokRParen; TokError; TokError;
      TokComma; TokNumber; TokDot; TokError]
  ++ replicate 10 TokNumber
  ++ [TokColon; TokSemi; TokError; TokAssign; TokError; TokError; TokError]
  ++ replicate 26 TokIdentifier
  ++ [TokLBracket; TokError; TokRBracket; TokError; TokIdentifier; TokError]
  ++ replicate 26 TokIdentifier
  ++ [TokLBrace; TokError; TokRBrace; TokError; TokError]
  ++ replicate 128 TokError.

(** [while (m_ptr < m_end && test( *m_ptr)) ++m_ptr]: what is passed, and the pointer. *)
Fixpoint scan (test : Z -> bool) (ptr : list Z) : list Z * list Z :=
  match ptr with
  | c :: ptr' => if test c then let '(run, rest) := scan test ptr' in (c :: run, rest) else ([], ptr)
  | [] => ([], [])
  end.

Definition at_char (ptr : list Z) (c : Z) : bool := match ptr with c' :: _ => c' =? c | [] => false end.

(** ** The lexer *)
Section lexer.
Context (wide : bool) (mode : ParserMode).

(** The two instances of [isSafeStringCharacter], for 8-bit and 16-bit characters. *)
Definition isSafeStringCharacter (terminator c : Z) : bool :=
  let strict := mode_eqb mode StrictJSON in
  ((32 <=? c) && (negb wide || strict || (c <=? 0xff)) && negb (c =? 92) && negb (c =? terminator)) || ((c =? 9) && negb strict).

Definition convertHex (c1 c2 : Z) : Z := u8 (Z.lor (Z.shiftl (toASCIIHexValue c1) 4) (toASCIIHexValue c2)).
Definition convertUnicode (c1 c2 c3 c4 : Z) : Z := u16 (Z.lor (Z.shiftl (convertHex c1 c2) 8) (convertHex c3 c4)).

(** The characters after a backslash: the character they stand for and the pointer after them. *)
Definition lexEscape (ptr : list Z) : lex_error + (Z * list Z) :=
  match ptr with
  | [] => inl UnterminatedString
  | c :: rest =>
      if c =? 34 then inr (34, rest)
      else if c =? 92 then inr (92, rest)
      else if c =? 47 then inr (47, rest)
      else if c =? 98 then inr (8, rest)
      else if c =? 102 then inr (12, rest)
      else if c =? 110 then inr (10, rest)
      else if c =? 114 then inr (13, rest)
      else if c =? 116 then inr (9, rest)
      else if c =? 117 then
        match rest with
        | h1 :: h2 :: h3 :: h4 :: rest' =>
            if isASCIIHexDigit h1 && isASCIIHexDigit h2 && isASCIIHexDigit h3 && isASCIIHexDigit h4
            then inr (convertUnicode h1 h2 h3 h4, rest')
            else inl (InvalidUnicodeEscape [c; h1; h2; h3; h4])
        | _ => inl ShortUnicodeEscape
        end
      else if (c =? 39) && negb (mode_eqb mode StrictJSON) then inr (39, rest)
      else inl (InvalidEscapeCharacter c)
  end.

(** [lexStringSlow] from the label [slowPathBegin]: [run] is the text from [runStart] to [ptr].
    The results of the lexer's functions are the token, or the error, and the pointer. *)
Fixpoint lexStringSlow (fuel : nat) (buffer run ptr : list Z) (terminator : Z) : option ((lex_error + LiteralParserToken) * list Z) :=
  match fuel with
  | O => None
  | S fuel =>
      let finish (buffer run ptr : list Z) :=
        if at_char ptr terminator
        then Some (inr (string_token TokString (match buffer with [] => run | _ => buffer end)), drop 1 ptr)
        else Some (inl UnterminatedString, ptr) in
      let again (moved : bool) (buffer run ptr : list Z) :=
        if negb (mode_eqb mode NonStrictJSON) && moved && negb (bool_decide (ptr = [])) && negb (at_char ptr terminator)
        then
          let '(run, ptr) := scan (isSafeStringCharacter terminator) ptr in
          lexStringSlow fuel (match buffer with [] => [] | _ => buffer ++ run end) run ptr terminator
        else finish buffer run ptr in
      if negb (mode_eqb mode NonStrictJSON) && at_char ptr 92 then
        let buffer := match buffer with [] => run | _ => buffer end in
        match lexEscape (drop 1 ptr) with
        | inl e => Some (inl e, drop 1 ptr)
        | inr (c, ptr) => again true (buffer ++ [c]) run ptr
        end
      else again (negb (bool_decide (run = []))) buffer run ptr
  end.

Definition lexString (ptr : list Z) (terminator : Z) : option ((lex_error + LiteralParserToken) * list Z) :=
  let ptr := drop 1 ptr in
  let '(run, ptr) := scan (isSafeStringCharacter terminator) ptr in
  if at_char ptr terminator then Some (inr (string_token TokString run), drop 1 ptr)
  else lexStringSlow (S (S (length ptr))) [] run ptr terminator.

Definition isIdentifierPart (c : Z) : bool :=
  isASCIIAlphanumeric c || (c =? 95) || (c =? 36) || (wide && ((c =? 0x200C) || (c =? 0x200D))).

Definition lexIdentifier (ptr : list Z) : (lex_error + LiteralParserToken) * list Z :=
  let '(run, ptr) := scan isIdentifierPart ptr in (inr (string_token TokIdentifier run), ptr).

(** *** Numbers *)
Definition NumberOfDigitsForSafeInt32 : Z := 9.

(** [result = result * 10 + digit - '0'], at 32 bits *)
Fixpoint accumulate (result : Z) (digits : list Z) : option Z :=
  match digits with
  | [] => Some result
  | d :: digits =>
      r ← chk32 (result * 10); r ← chk32 (r + d); r ← chk32 (r - 48);
      accumulate r digits
  end.

(** [(0 | [1-9][0-9]* )]: what is passed and the pointer; [None] is an error *)
Definition lexInteger (ptr : list Z) : option (list Z * list Z) :=
  match ptr with
  | c :: ptr' =>
      if c =? 48 then Some ([c], ptr')
      else if (49 <=? c) && (c <=? 57) then let '(ds, rest) := scan isASCIIDigit ptr' in Some (c :: ds, rest)
      else None
  | [] => None
  end.

(** [[0-9]+] *)
Definition lexDigits (ptr : list Z) : option (list Z * list Z) :=
  match ptr with
  | c :: ptr' => if isASCIIDigit c then let '(ds, rest) := scan isASCIIDigit ptr' in Some (c :: ds, rest) else None
  | [] => None
  end.

Definition at_exponent (ptr : list Z) : bool := at_char ptr 101 || at_char ptr 69.

(** [([eE][+-]? [0-9]+)?] and the end of the function; [text] is what has been passed. *)
Definition lexExponent (text ptr : list Z) : (lex_error + LiteralParserToken) * list Z :=
  if at_exponent ptr then
    let text := text ++ take 1 ptr in
    let ptr := drop 1 ptr in
    let sign := if at_char ptr 45 || at_char ptr 43 then take 1 ptr else [] in
    let text := text ++ sign in
    let ptr := drop (length sign) ptr in
    match lexDigits ptr with
    | Some (ds, rest) => (inr (number_token (ParsedDouble (text ++ ds))), rest)
    | None => (inl InvalidExponent, ptr)
    end
  else (inr (number_token (ParsedDouble text)), ptr).

Definition lexNumber (ptr : list Z) : option ((lex_error + LiteralParserToken) * list Z) :=
  let negative := at_char ptr 45 in
  let minus := if negative then take 1 ptr else [] in
  let ptr := drop (length minus) ptr in
  match lexInteger ptr with
  | None => Some (inl InvalidNumber, ptr)
  | Some (digits, ptr) =>
      let text := minus ++ digits in
      if at_char ptr 46 then
        let dot := take 1 ptr in
        let ptr := drop 1 ptr in
        match lexDigits ptr with
        | None => Some (inl InvalidDigitsAfterPoint, ptr)
        | Some (fraction, ptr) => Some (lexExponent (text ++ dot ++ fraction) ptr)
        end
      else if negb (bool_decide (ptr = [])) && negb (at_exponent ptr) && (zlen text <=? NumberOfDigitsForSafeInt32) then
        result ← accumulate 0 digits;
        Some (inr (number_token
          (if negb negative then FromInt32 result else if result =? 0 then MinusZero else FromInt32 (- result))), ptr)
      else Some (lexExponent text ptr)
  end.

(** *** Tokens *)
Definition starts_with (ptr word : list Z) : bool := bool_decide (take (length word) ptr = word).

Definition lex (ptr : list Z) : option ((lex_error + LiteralParserToken) * list Z) :=
  let ptr := snd (scan isJSONWhiteSpace ptr) in
  match ptr with
  | [] => Some (inr (plain TokEnd), ptr)
  | character :: ptr' =>
      if character <? 256 then
        tokenType ← TokenTypesOfLatin1Characters.[character];
        match tokenType with
        | TokString =>
            if (character =? 39) && mode_eqb mode StrictJSON then Some (inl SingleQuotesNotAllowed, ptr)
            else lexString ptr character
        | TokIdentifier =>
            if starts_with ptr [116; 114; 117; 101] then Some (inr (plain TokTrue), drop 4 ptr)
            else if starts_with ptr [102; 97; 108; 115; 101] then Some (inr (plain TokFalse), drop 5 ptr)
            else if starts_with ptr [110; 117; 108; 108] then Some (inr (plain TokNull), drop 4 ptr)
            else Some (lexIdentifier ptr)
        | TokNumber => lexNumber ptr
        | TokError => Some (inl (UnrecognizedToken character), ptr)
        | t => Some (inr (plain t), ptr')
        end
      else Some (inl (UnrecognizedToken character), ptr)
  end.

(** The lexer between two tokens: the pointer, the current token, and the last error message. *)
Record Lexer : Type := mkLexer { m_ptr : list Z; m_currentToken : LiteralParserToken; m_lexErrorMessage : option lex_error }.

Definition next (lx : Lexer) : option Lexer :=
  '(r, ptr) ← lex (m_ptr lx);
  Some match r with
       | inr token => mkLexer ptr token (m_lexErrorMessage lx)
       | inl e => mkLexer ptr (plain TokError) (Some e)
       end.

Definition cur (lx : Lexer) : TokenType := type (m_currentToken lx).
End lexer.

(** ** The parser *)
Unset Elimination Schemes.
Inductive json : Type :=
  | JNull | JBool (b : bool) | JNumber (n : number) | JString (s : list Z)
  | JArray (elements : list json) | JObject (puts : list (list Z * json)).
Set Elimination Schemes.

Inductive parse_error : Type :=
  | UnexpectedCommaAtEnd | ExpectedRBracket | ExpectedColonBeforeValue | ExpectedRBrace | PropertyNameMustBeString
  | ExpectedColon | RedefinedProto | UnexpectedToken (t : TokenType) | UnexpectedIdentifier (s : list Z)
  | CouldNotParseValue | CouldNotParseStatement | UnexpectedContentAtEnd.

(** An array or an object under construction; the flag says that the object is in
    [visitedUnderscoreProto]. *)
Inductive frame : Type := FArray (elements : list json) | FObject (puts : list (list Z * json)) (visited : bool).

Definition frame_value (f : frame) : json :=
  match f with FArray es => JArray es | FObject ps _ => JObject ps end.

(** "__proto__" *)
Definition underscoreProto : list Z := [95; 95; 112; 114; 111; 116; 111; 95; 95].

(** The value, or the empty value with an error message; and the lexer. *)
Definition outcome : Type := (option parse_error + json) * Lexer.

Section parser.
Context (wide : bool) (mode : ParserMode).
Local Abbreviation next := (next wide mode).

Definition is_name (t : TokenType) : bool :=
  tok_eqb t TokString || (negb (mode_eqb mode StrictJSON) && tok_eqb t TokIdentifier).

(** The value of a token in [StartParseExpression]. *)
Definition scalar (token : LiteralParserToken) : parse_error + json :=
  match type token with
  | TokString => inr (JString (token_string token))
  | TokNumber => inr (JNumber (numberToken token))
  | TokNull => inr JNull
  | TokTrue => inr (JBool true)
  | TokFalse => inr (JBool false)
  | TokIdentifier => inl (UnexpectedIdentifier (token_string token))
  | TokError => inl CouldNotParseValue
  | t => inl (UnexpectedToken t)
  end.

(** One put of [DoParseObjectEndExpression]. *)
Definition put_property (f : frame) (ident : list Z) (v : json) : option (parse_error + frame) :=
  match f with
  | FArray _ => None
  | FObject puts visited =>
      if negb (mode_eqb mode StrictJSON) && bool_decide (ident = underscoreProto) then
        Some (if visited then inl RedefinedProto else inr (FObject (puts ++ [(ident, v)]) true))
      else Some (inr (FObject (puts ++ [(ident, v)]) visited))
  end.

(** The loop of [parse]: a label is its state, [goto] continues with that state, and
    [break] with the state on top of the stack. *)
Fixpoint parse_loop (fuel : nat) (state : ParserState) (lx : Lexer) (objectStack : list frame) (lastValue : json)
    (stateStack : list ParserState) (identifierStack : list (list Z)) : option outcome :=
  match fuel with
  | O => None
  | S fuel =>
      let break (lx : Lexer) (objectStack : list frame) (lastValue : json) (identifierStack : list (list Z)) :=
        match stateStack with
        | [] => Some (inr lastValue, lx)
        | state :: stateStack => parse_loop fuel state lx objectStack lastValue stateStack identifierStack
        end in
      let fail (lx : Lexer) (e : parse_error) : option outcome := Some (inl (Some e), lx) in
      match state with
      | StartParseArray =>
          parse_loop fuel DoParseArrayStartExpression lx (FArray [] :: objectStack) lastValue stateStack identifierStack
      | DoParseArrayStartExpression =>
          let lastToken := cur lx in
          lx ← next lx;
          if tok_eqb (cur lx) TokRBracket then
            if tok_eqb lastToken TokComma then fail lx UnexpectedCommaAtEnd
            else
              lx ← next lx;
              match objectStack with
              | f :: objectStack => break lx objectStack (frame_value f) identifierStack
              | [] => None
              end
          else parse_loop fuel StartParseExpression lx objectStack lastValue (DoParseArrayEndExpression :: stateStack) identifierStack
      | DoParseArrayEndExpression =>
          match objectStack with
          | FArray es :: objectStack =>
              let f := FArray (es ++ [lastValue]) in
              if tok_eqb (cur lx) TokComma then
                parse_loop fuel DoParseArrayStartExpression lx (f :: objectStack) lastValue stateStack identifierStack
              else if negb (tok_eqb (cur lx) TokRBracket) then fail lx ExpectedRBracket
              else lx ← next lx; break lx objectStack (frame_value f) identifierStack
          | _ => None
          end
      | StartParseObject =>
          lx ← next lx;
          if is_name (cur lx) then
            let identifierStack := token_string (m_currentToken lx) :: identifierStack in
            lx ← next lx;
            if negb (tok_eqb (cur lx) TokColon) then fail lx ExpectedColonBeforeValue
            else
              lx ← next lx;
              parse_loop fuel StartParseExpression lx (FObject [] false :: objectStack) lastValue
                (DoParseObjectEndExpression :: stateStack) identifierStack
          else if negb (tok_eqb (cur lx) TokRBrace) then fail lx ExpectedRBrace
          else lx ← next lx; break lx objectStack (JObject []) identifierStack
      | DoParseObjectStartExpression =>
          lx ← next lx;
          if negb (is_name (cur lx)) then fail lx PropertyNameMustBeString
          else
            let identifierStack := token_string (m_currentToken lx) :: identifierStack in
            lx ← next lx;
            if negb (tok_eqb (cur lx) TokColon) then fail lx ExpectedColon
            else
              lx ← next lx;
              parse_loop fuel StartParseExpression lx objectStack lastValue (DoParseObjectEndExpression :: stateStack) identifierStack
      | DoParseObjectEndExpression =>
          match objectStack, identifierStack with
          | f :: objectStack, ident :: identifierStack =>
              r ← put_property f ident lastValue;
              match r with
              | inl e => fail lx e
              | inr f =>
                  if tok_eqb (cur lx) TokComma then
                    parse_loop fuel DoParseObjectStartExpression lx (f :: objectStack) lastValue stateStack identifierStack
                  else if negb (tok_eqb (cur lx) TokRBrace) then fail lx ExpectedRBrace
                  else lx ← next lx; break lx objectStack (frame_value f) identifierStack
              end
          | _, _ => None
          end
      | StartParseExpression =>
          if tok_eqb (cur lx) TokLBracket then parse_loop fuel StartParseArray lx objectStack lastValue stateStack identifierStack
          else if tok_eqb (cur lx) TokLBrace then parse_loop fuel StartParseObject lx objectStack lastValue stateStack identifierStack
          else
            match scalar (m_currentToken lx) with
            | inl e => fail lx e
            | inr v => lx ← next lx; break lx objectStack v identifierStack
            end
      | StartParseStatement =>
          match cur lx with
          | TokLBracket | TokNumber | TokString =>
              parse_loop fuel StartParseExpression lx objectStack lastValue stateStack identifierStack
          | TokLParen =>
              lx ← next lx;
              parse_loop fuel StartParseExpression lx objectStack lastValue (StartParseStatementEndStatement :: stateStack) identifierStack
          | TokError => fail lx CouldNotParseStatement
          | t => fail lx (UnexpectedToken t)
          end
      | StartParseStatementEndStatement =>
          if negb (tok_eqb (cur lx) TokRParen) then Some (inl None, lx)
          else
            lx ← next lx;
            if tok_eqb (cur lx) TokEnd then Some (inr lastValue, lx) else fail lx UnexpectedContentAtEnd
      end
  end.

(** Enough turns for every text: see [LiteralParserProps]. *)
Definition parse_fuel (lx : Lexer) : nat := 3 * length (m_ptr lx) + 8.

Definition parse (initialState : ParserState) (lx : Lexer) : option outcome :=
  parse_loop (parse_fuel lx) initialState lx [] JNull [] [].

(** The value, or [None] for the empty value, with the messages of the parser and of the lexer. *)
Definition tryLiteralParse (text : list Z) : option (option json * option parse_error * option lex_error) :=
  lx ← next (mkLexer text (plain TokError) None);
  '(result, lx) ← parse (if mode_eqb mode StrictJSON then StartParseExpression else StartParseStatement) lx;
  lx ← (if tok_eqb (cur lx) TokSemi then next lx else Some lx);
  let message := match result with inl m => m | inr _ => None end in
  Some (if negb (tok_eqb (cur lx) TokEnd) then None else match result with inl _ => None | inr v => Some v end,
        message, m_lexErrorMessage lx).
End parser.
