(* ===== verification/LiteralParserFacts.v ===== *)
(** * LiteralParserFacts: the lexer of the literal parser ends, makes progress, and reads strings as a
      character-by-character decoder does *)
From S2P Require Import Prelude Utf8 JSONString LiteralParser.
Local Open Scope Z_scope.

(** ** Scanning *)
Lemma scan_app test ptr run rest : scan test ptr = (run, rest) -> ptr = run ++ rest.
Proof.
  revert run rest. induction ptr as [|c ptr IH]; intros run rest; cbn [scan]; [by intros [= <- <-]|].
  destruct (test c); [|by intros [= <- <-]]. destruct (scan test ptr) as [run' rest']. intros [= <- <-]. cbn [app]. f_equal. by apply IH.
Qed.

Lemma scan_run test ptr run rest : scan test ptr = (run, rest) -> Forall (fun c => test c = true) run.
Proof.
  revert run rest. induction ptr as [|c ptr IH]; intros run rest; cbn [scan]; [by intros [= <- <-]|].
  destruct (test c) eqn:E; [|by intros [= <- <-]]. destruct (scan test ptr) as [run' rest'] eqn:Es. intros [= <- <-]. constructor; eauto.
Qed.

Lemma scan_stop test ptr run rest : scan test ptr = (run, rest) -> scan test rest = ([], rest).
Proof.
  revert run rest. induction ptr as [|c ptr IH]; intros run rest; cbn [scan]; [by intros [= <- <-]|].
  destruct (test c) eqn:E; [|intros [= <- <-]; cbn [scan]; by rewrite E]. destruct (scan test ptr) as [run' rest'] eqn:Es. intros [= <- <-]. eauto.
Qed.

Lemma scan_all test run c rest :
  Forall (fun x => test x = true) run -> test c = false -> scan test (run ++ c :: rest) = (run, c :: rest).
Proof.
  intros Hrun Hc. induction Hrun as [|x run Hx _ IH]; cbn [app scan]; [by rewrite Hc|]. by rewrite Hx, IH.
Qed.

Lemma scan_length test ptr run rest : scan test ptr = (run, rest) -> (length rest <= length ptr)%nat.
Proof. intros ->%scan_app. rewrite length_app. lia. Qed.

Lemma at_char_true ptr c : at_char ptr c = true -> exists rest, ptr = c :: rest.
Proof. destruct ptr as [|c' rest]; [done|]. cbn [at_char]. intros ->%Z.eqb_eq. by exists rest. Qed.

(** ** Strings *)
Section strings.
Context (wide : bool) (mode : ParserMode) (terminator : Z).
Local Abbreviation safe := (isSafeStringCharacter wide mode terminator).
Local Abbreviation escape := (lexEscape mode).

(** The reference: one character or escape sequence after the other; [acc] is what has been read. *)
Fixpoint decode_string (fuel : nat) (acc ptr : list Z) : option ((lex_error + LiteralParserToken) * list Z) :=
  match fuel with
  | O => None
  | S fuel =>
      match ptr with
      | [] => Some (inl UnterminatedString, [])
      | c :: rest =>
          if c =? terminator then Some (inr (string_token TokString acc), rest)
          else if c =? 92 then
            match escape rest with
            | inl e => Some (inl e, rest)
            | inr (x, rest) => decode_string fuel (acc ++ [x]) rest
            end
          else if safe c then decode_string fuel (acc ++ [c]) rest
          else Some (inl UnterminatedString, ptr)
      end
  end.

Lemma escape_length rest x rest' : escape rest = inr (x, rest') -> (length rest' < length rest)%nat.
Proof using.
  unfold lexEscape. destruct rest as [|c rest]; [done|]. repeat if_cases; try done; try (intros [= <- <-]; cbn [length]; lia).
  destruct rest as [|h1 [|h2 [|h3 [|h4 rest]]]]; try done. if_cases; [|done]. intros [= <- <-]. cbn [length]. lia.
Qed.

Lemma decode_fuel fuel fuel' : forall acc ptr, (length ptr < fuel)%nat -> (length ptr < fuel')%nat ->
  decode_string fuel acc ptr = decode_string fuel' acc ptr.
Proof using.
  revert fuel'. induction fuel as [|fuel IH]; intros fuel' acc ptr H H'; [lia|]. destruct fuel' as [|fuel']; [lia|]. cbn [decode_string].
  destruct ptr as [|c rest]; [done|]. cbn [length] in *. if_cases; [done|]. if_cases.
  - destruct (escape rest) as [e|[x rest']] eqn:Ee; [done|]. apply escape_length in Ee. apply IH; lia.
  - if_cases; [|done]. apply IH; lia.
Qed.

(** Reading a run of plain characters. *)
Context (Hterm : terminator <> 92).

Lemma safe_plain c : safe c = true -> c <> 92 -> c <> terminator \/ c = 9.
Proof using.
  unfold isSafeStringCharacter. intros H%orb_true_iff Hc. destruct H as [H|H]; bool_prop; [|by right]. left. done.
Qed.

Context (Hterm9 : terminator <> 9).

Lemma safe_not c : safe c = true -> c <> 92 /\ c <> terminator.
Proof using Hterm9.
  unfold isSafeStringCharacter. intros H%orb_true_iff. destruct H as [H|H]; bool_prop; [done|]. subst c. split; [lia|congruence].
Qed.

Lemma decode_run run : forall fuel acc rest, Forall (fun c => safe c = true) run ->
  decode_string (length run + fuel) acc (run ++ rest) = decode_string fuel (acc ++ run) rest.
Proof using Hterm9.
  induction run as [|c run IH]; intros fuel acc rest Hrun; cbn [length plus app]; [by rewrite (app_nil_r acc)|].
  apply Forall_cons in Hrun as [Hc Hrun]. cbn [decode_string]. destruct (safe_not c Hc) as [H1 H2].
  rewrite (proj2 (Z.eqb_neq c terminator) H2), (proj2 (Z.eqb_neq c 92) H1), Hc. rewrite IH by done. by rewrite <- app_assoc.
Qed.

Definition content (buffer run : list Z) : list Z := match buffer with [] => run | _ => buffer end.

(** The slow path continues the decoder from where the text has no more plain characters. *)
Lemma lexStringSlow_spec fuel : forall fuel' buffer run ptr,
  mode <> NonStrictJSON -> scan safe ptr = ([], ptr) -> (length ptr + (if decide (run = []) then 0 else 1) < fuel)%nat -> (length ptr < fuel')%nat ->
  lexStringSlow wide mode fuel buffer run ptr terminator = decode_string fuel' (content buffer run) ptr.
Proof using Hterm Hterm9.
  induction fuel as [|fuel IH]; intros fuel' buffer run ptr Hmode Hstop Hf Hf'; [lia|]. destruct fuel' as [|fuel']; [lia|].
  cbn [lexStringSlow]. assert (mode_eqb mode NonStrictJSON = false) as Hm by (by apply bool_decide_eq_false). rewrite Hm. cbn [negb andb].
  destruct ptr as [|c rest].
  { cbn [at_char decode_string]. rewrite (bool_decide_true (@nil Z = [])) by done. cbn [negb]. by rewrite andb_false_r. }
  cbn [at_char decode_string]. rewrite (bool_decide_false (c :: rest = [])) by done. cbn [negb]. cbn [scan] in Hstop.
  assert (safe c = false) as Hs by (destruct (safe c); [by destruct (scan safe rest)|done]). rewrite Hs.
  destruct (c =? 92) eqn:E92; bool_prop.
  - subst c. rewrite (proj2 (Z.eqb_neq 92 terminator)) by congruence. change (drop 1 (92 :: rest)) with rest.
    destruct (escape rest) as [e|[x rest']] eqn:Ee; [done|]. apply escape_length in Ee. cbn [length] in Hf, Hf'. cbn [andb].
    fold (content buffer run). set (acc := content buffer run ++ [x]).
    assert (acc <> []) as Hacc by (by destruct (content buffer run)).
    assert (forall (l : list Z), match acc with [] => [] | _ => acc ++ l end = acc ++ l) as Hm1 by (intros l; by destruct acc).
    assert (forall l, content acc l = acc) as Hm2 by (intros l; unfold content; by destruct acc).
    destruct rest' as [|d rest'].
    { rewrite (bool_decide_true (@nil Z = [])) by done. cbn [negb andb at_char]. destruct fuel'; [lia|]. done. }
    rewrite (bool_decide_false (d :: rest' = [])) by done. cbn [negb andb at_char]. destruct (d =? terminator) eqn:Ed; cbn [negb].
    { destruct fuel'; [lia|]. cbn [decode_string]. rewrite Ed. fold (content acc run). by rewrite Hm2. }
    destruct (scan safe (d :: rest')) as [run2 ptr2] eqn:Es. pose proof (scan_app _ _ _ _ Es) as Happ. rewrite Happ in *.
    rewrite length_app in Ee. rewrite Hm1.
    rewrite (IH (length ptr2 + 1)%nat); [|done|by eapply scan_stop|destruct (decide (run2 = [])) as [->|]; cbn [length] in *; [lia|]|lia].
    2: { destruct run2; [done|]. cbn [length] in *. lia. }
    assert (content (acc ++ run2) run2 = acc ++ run2) as -> by (unfold content; by destruct acc).
    rewrite (decode_fuel fuel' (length run2 + (length ptr2 + 1))) by (rewrite length_app; lia). by rewrite decode_run by (by eapply scan_run).
  - destruct (c =? terminator) eqn:Et; cbn [negb andb].
    { rewrite andb_false_r. done. }
    rewrite andb_true_r. destruct (decide (run = [])) as [->|Hrun].
    { rewrite bool_decide_true by done. done. }
    rewrite bool_decide_false by done. cbn [negb andb scan]. rewrite Hs.
    rewrite (IH (length (c :: rest) + 1)%nat); [|done|cbn [scan]; by rewrite Hs|rewrite decide_True by done; lia|lia].
    rewrite Nat.add_comm. cbn [plus decode_string]. by rewrite Et, (proj2 (Z.eqb_neq c 92) E92), Hs.
Qed.

(** The fast path and the slow path together read a string as the decoder does. *)
Lemma lexString_spec ptr :
  mode <> NonStrictJSON -> ptr <> [] -> lexString wide mode ptr terminator = decode_string (length ptr) [] (drop 1 ptr).
Proof using Hterm Hterm9.
  intros Hmode Hptr. unfold lexString. destruct ptr as [|q ptr]; [done|]. change (drop 1 (q :: ptr)) with ptr. cbn [length].
  destruct (scan safe ptr) as [run rest] eqn:Es. pose proof (scan_app _ _ _ _ Es) as ->. pose proof (scan_run _ _ _ _ Es) as Hrun.
  rewrite length_app. replace (S (length run + length rest)) with (length run + S (length rest))%nat by lia. rewrite decode_run by done. cbn [app].
  destruct (at_char rest terminator) eqn:Et.
  - apply at_char_true in Et as [rest' ->]. cbn [drop decode_string]. by rewrite Z.eqb_refl.
  - rewrite (lexStringSlow_spec _ (S (length rest))); [done|done|by eapply scan_stop| |lia]. case_decide; lia.
Qed.
End strings.

(** ** Progress *)

(** [rest] is what is left of [ptr] after some characters, and after at least one if [real]. *)
Definition advances (real : bool) (ptr rest : list Z) : Prop := exists pre, ptr = pre ++ rest /\ (real = true -> pre <> []).

Lemma advances_refl ptr : advances false ptr ptr.
Proof. by exists []. Qed.

Lemma advances_cons c ptr rest b : advances b ptr rest -> advances true (c :: ptr) rest.
Proof. intros (pre & -> & _). by exists (c :: pre). Qed.

Lemma advances_trans a b p q r : advances a p q -> advances b q r -> advances (a || b) p r.
Proof.
  intros (x & -> & Hx) (y & -> & Hy). exists (x ++ y). split; [by rewrite app_assoc|].
  intros H. destruct a; cbn in H; [destruct x; [by destruct Hx|done]|]. destruct y; [by destruct Hy|]. by destruct x.
Qed.

Lemma advances_weaken b p q : advances b p q -> advances false p q.
Proof. intros (x & -> & _). by exists x. Qed.

Lemma advances_scan test ptr run rest : scan test ptr = (run, rest) -> advances false ptr rest.
Proof. intros ->%scan_app. by exists run. Qed.

Lemma advances_drop n ptr : advances false ptr (drop n ptr).
Proof. exists (take n ptr). split; [by rewrite take_drop|done]. Qed.

Lemma advances_length b p q : advances b p q -> (length q + (if b then 1 else 0) <= length p)%nat.
Proof.
  intros (x & -> & Hx). rewrite length_app. destruct b; [|lia]. destruct x; [by destruct Hx|]. cbn [length]. lia.
Qed.

Lemma advances_Forall P b p q : advances b p q -> Forall P p -> Forall P q.
Proof. intros (x & -> & _) [_ H]%Forall_app. done. Qed.

Create HintDb literal.
#[export] Hint Resolve advances_refl advances_cons advances_scan advances_drop : literal.

(** What every function of the lexer gives: a token or an error, and how far it has read. *)
Definition lexed (r : option ((lex_error + LiteralParserToken) * list Z)) (ptr : list Z) : Prop :=
  exists res rest, r = Some (res, rest) /\
  match res with
  | inl _ => advances false ptr rest
  | inr t => advances true ptr rest /\ type t <> TokEnd /\ type t <> TokError
  end.

Lemma lexed_error e ptr rest : advances false ptr rest -> lexed (Some (inl e, rest)) ptr.
Proof. intros H. by exists (inl e), rest. Qed.

Lemma lexed_token t ptr rest : advances true ptr rest -> type t <> TokEnd -> type t <> TokError -> lexed (Some (inr t, rest)) ptr.
Proof. intros H. by exists (inr t), rest. Qed.

Lemma lexed_advance b r p q : lexed r q -> advances b p q -> lexed r p.
Proof.
  intros (res & rest & -> & H) Hp. exists res, rest. split; [done|]. destruct res.
  - apply (advances_weaken (b || false)). by eapply advances_trans.
  - destruct H as [H ?]. split; [|done]. rewrite <- (orb_true_r b). by eapply advances_trans.
Qed.

Lemma escape_advances mode ptr x rest : lexEscape mode ptr = inr (x, rest) -> advances true ptr rest.
Proof.
  unfold lexEscape. destruct ptr as [|c ptr]; [done|]. repeat if_cases; try done; try (intros [= <- <-]; eauto with literal).
  destruct ptr as [|h1 [|h2 [|h3 [|h4 ptr]]]]; try done. if_cases; [|done]. intros [= <- <-]. by exists [c; h1; h2; h3; h4].
Qed.

Lemma decode_lexed wide mode terminator fuel : forall acc ptr, (length ptr < fuel)%nat ->
  lexed (decode_string wide mode terminator fuel acc ptr) ptr.
Proof.
  induction fuel as [|fuel IH]; intros acc ptr Hf; [lia|]. cbn [decode_string]. destruct ptr as [|c rest].
  { apply lexed_error. apply advances_refl. }
  cbn [length] in Hf. assert (advances true (c :: rest) rest) as Hc by eauto with literal. if_cases; [by apply lexed_token|]. if_cases.
  - destruct (lexEscape mode rest) as [e|[x rest']] eqn:Ee; [apply lexed_error; by eapply advances_weaken|].
    apply escape_advances in Ee. pose proof (advances_length _ _ _ Ee). eapply lexed_advance; [apply IH; cbn in *; lia|].
    by eapply (advances_trans true true).
  - if_cases; [|apply lexed_error, advances_refl]. eapply lexed_advance; [apply IH; lia|done].
Qed.

Lemma lexString_lexed wide mode ptr terminator :
  terminator = 34 \/ terminator = 39 -> ptr <> [] -> lexed (lexString wide mode ptr terminator) ptr.
Proof.
  intros Ht Hptr. destruct ptr as [|q ptr]; [done|]. destruct (decide (mode = NonStrictJSON)) as [->|Hmode].
  - unfold lexString. change (drop 1 (q :: ptr)) with ptr. destruct (scan _ ptr) as [run rest] eqn:Es.
    assert (advances true (q :: ptr) rest) as Hr by eauto with literal.
    destruct (at_char rest terminator) eqn:E.
    + apply lexed_token; [|done|done]. eapply (advances_trans true false); [done|apply advances_drop].
    + cbn [lexStringSlow]. assert (mode_eqb NonStrictJSON NonStrictJSON = true) as -> by done. rewrite E. cbn [negb andb].
      apply lexed_error. by eapply advances_weaken.
  - rewrite lexString_spec by (done || (destruct Ht; lia)). change (drop 1 (q :: ptr)) with ptr.
    apply (lexed_advance true _ _ ptr); [|eauto with literal]. apply decode_lexed. cbn [length]. lia.
Qed.

(** Nine digits fit an [int32_t]. *)
Lemma accumulate_spec ds : forall r k, Forall (fun d => isASCIIDigit d = true) ds -> 0 <= r < 10 ^ k -> 0 <= k -> k + zlen ds <= 9 ->
  exists r', accumulate r ds = Some r' /\ 0 <= r'.
Proof.
  induction ds as [|d ds IH]; intros r k Hds Hr Hk Hlen; [exists r; split; [done|lia]|]. apply Forall_cons in Hds as [Hd Hds].
  unfold isASCIIDigit in Hd. bool_prop. cbn [accumulate]. rewrite zlen_cons in Hlen. pose proof (zlen_nonneg ds).
  assert (10 ^ k <= 10 ^ 8) by (apply Z.pow_le_mono_r; lia). assert (10 ^ 8 = 100000000) by done.
  rewrite (chk32_ok (r * 10)) by lia. mstep. rewrite (chk32_ok (r * 10 + d)) by lia. mstep. rewrite (chk32_ok (r * 10 + d - 48)) by lia. mstep.
  apply (IH _ (k + 1)); [done| |lia|lia]. rewrite Z.pow_add_r by lia. lia.
Qed.

Lemma lexInteger_advances ptr ds rest :
  lexInteger ptr = Some (ds, rest) -> ptr = ds ++ rest /\ ds <> [] /\ Forall (fun d => isASCIIDigit d = true) ds.
Proof.
  unfold lexInteger. destruct ptr as [|c ptr]; [done|]. destruct (c =? 48) eqn:E; bool_prop.
  { intros [= <- <-]. subst c. split; [done|]. split; [done|]. by constructor. }
  if_cases; [|done]. destruct (scan isASCIIDigit ptr) as [ds' rest'] eqn:Es. intros [= <- <-]. split; [by rewrite (scan_app _ _ _ _ Es)|]. split; [done|].
  constructor; [|by eapply scan_run]. unfold isASCIIDigit. bool_prop. rewrite !Z_leb_true by lia. done.
Qed.

Lemma lexDigits_advances ptr ds rest : lexDigits ptr = Some (ds, rest) -> advances true ptr rest.
Proof.
  unfold lexDigits. destruct ptr as [|c ptr]; [done|]. if_cases; [|done]. destruct (scan isASCIIDigit ptr) as [ds' rest'] eqn:Es. intros [= <- <-].
  eauto with literal.
Qed.

Lemma lexExponent_lexed text ptr p : advances true p ptr -> lexed (Some (lexExponent text ptr)) p.
Proof.
  intros Hp. unfold lexExponent. destruct (at_exponent ptr); [|by apply lexed_token].
  set (sign := if at_char (drop 1 ptr) 45 || at_char (drop 1 ptr) 43 then take 1 (drop 1 ptr) else []). assert (advances true p (drop (length sign) (drop 1 ptr))) as Hs.
  { eapply (advances_trans true false); [|apply advances_drop]. eapply (advances_trans true false); [done|apply advances_drop]. }
  destruct (lexDigits _) as [[ds rest]|] eqn:Ed; [|apply lexed_error; by eapply advances_weaken]. apply lexDigits_advances in Ed.
  apply lexed_token; [|done|done]. by eapply (advances_trans true true).
Qed.

Lemma lexNumber_lexed ptr : lexed (lexNumber ptr) ptr.
Proof.
  unfold lexNumber. set (minus := if at_char ptr 45 then take 1 ptr else []).
  assert (advances false ptr (drop (length minus) ptr)) as Hm by apply advances_drop.
  destruct (lexInteger _) as [[ds rest]|] eqn:Ei; [|by apply lexed_error]. destruct (lexInteger_advances _ _ _ Ei) as (Hds & Hne & Hdig).
  assert (advances true ptr rest) as Hr by (eapply (advances_trans false true); [exact Hm|]; by exists ds).
  destruct (at_char rest 46).
  - assert (advances true ptr (drop 1 rest)) as Hd by (eapply (advances_trans true false); [done|apply advances_drop]).
    destruct (lexDigits (drop 1 rest)) as [[fr rest']|] eqn:Ef; [|apply lexed_error; by eapply advances_weaken].
    apply lexExponent_lexed. eapply (advances_trans true true); [done|by eapply lexDigits_advances].
  - if_cases; [|by apply lexExponent_lexed]. bool_prop. unfold NumberOfDigitsForSafeInt32 in *.
    destruct (accumulate_spec ds 0 0) as (r & -> & _); [done|lia|lia|zlia|]. mstep. by apply lexed_token.
Qed.

(** A text is made of code units. *)
Definition is_text (text : list Z) : Prop := Forall (fun c => 0 <= c) text.

(** What the table of token types says of a character. *)
Definition token_ok (t : TokenType) (c : Z) : bool :=
  match t with
  | TokEnd | TokTrue | TokFalse | TokNull => false
  | TokString => (c =? 34) || (c =? 39)
  | TokIdentifier => isIdentifierPart false c
  | _ => true
  end.

Lemma token_table c t : TokenTypesOfLatin1Characters.[c] = Some t -> token_ok t c = true.
Proof.
  intros H. pose proof (zget_lt _ _ _ H) as Hc. change (zlen TokenTypesOfLatin1Characters) with 256 in Hc.
  assert (forallb (fun i => match TokenTypesOfLatin1Characters.[i] with Some t => token_ok t i | None => false end) (seqZ 0 256) = true) as Hall
    by (vm_compute; reflexivity).
  pose proof (forallb_seqZ _ _ _ c Hall ltac:(lia)) as Hok. cbv beta in Hok. by rewrite H in Hok.
Qed.

(** [lex] always gives a token or an error; only the end of the text is a token without characters. *)
Lemma lex_spec wide mode ptr :
  is_text ptr ->
  exists res rest, lex wide mode ptr = Some (res, rest) /\
  match res with
  | inl _ => advances false ptr rest
  | inr t => type t <> TokError /\ (type t = TokEnd /\ rest = [] \/ type t <> TokEnd /\ advances true ptr rest)
  end.
Proof.
  intros Htext. unfold lex. destruct (scan isJSONWhiteSpace ptr) as [ws p] eqn:Es. apply advances_scan in Es. cbn [snd].
  destruct p as [|c p].
  { eexists _, _. split; [done|]. cbn. auto. }
  assert (forall r, lexed r (c :: p) -> exists res rest, r = Some (res, rest) /\
    match res with inl _ => advances false ptr rest
    | inr t => type t <> TokError /\ (type t = TokEnd /\ rest = [] \/ type t <> TokEnd /\ advances true ptr rest) end) as Hl.
  { intros r Hr. destruct (lexed_advance false _ _ _ Hr Es) as (res & rest & -> & H). exists res, rest. split; [done|]. destruct res; tauto. }
  assert (lexed (Some (inl (UnrecognizedToken c), c :: p)) (c :: p)) as Herr by (apply lexed_error, advances_refl).
  assert (0 <= c) as Hc by (pose proof (advances_Forall _ _ _ _ Es Htext) as H; by apply Forall_cons in H as [H _]).
  destruct (c <? 256) eqn:E; [|by apply Hl]. bool_prop.
  destruct (zget_is_Some TokenTypesOfLatin1Characters c) as [t Ht]; [done|]. rewrite Ht. mstep. apply Hl.
  assert (forall t, t <> TokEnd -> t <> TokError -> lexed (Some (inr (plain t), p)) (c :: p)) as Hp by (intros; apply lexed_token; [eauto with literal|done|done]).
  pose proof (token_table c t Ht) as Hok. clear Ht.
  destruct t; try (by apply Hp); try discriminate Hok.
  - if_cases; [apply lexed_error, advances_refl|]. apply lexString_lexed; [|done]. apply orb_true_iff in Hok as [Hok|Hok]; bool_prop; auto.
  - assert (forall w tk n, n <> 0%nat -> tk <> TokEnd -> tk <> TokError -> starts_with (c :: p) w = true -> lexed (Some (inr (plain tk), drop n (c :: p))) (c :: p)) as Hw.
    { intros w tk n Hn Hk1 Hk2 _. apply lexed_token; [|done|done]. destruct n; [done|]. change (drop (S n) (c :: p)) with (drop n p). eapply advances_cons, advances_drop. }
    if_cases; [by eapply Hw|]. if_cases; [by eapply Hw|]. if_cases; [by eapply Hw|]. unfold lexIdentifier.
    assert (isIdentifierPart wide c = true) as Hpart.
    { unfold token_ok, isIdentifierPart in *. rewrite orb_false_r in Hok. by rewrite Hok. }
    cbn [scan]. rewrite Hpart. destruct (scan _ p) as [run rest] eqn:Er. apply lexed_token; [|done|done]. eauto with literal.
  - apply lexNumber_lexed.
  - done.
Qed.

(** ** The parser's state machine always ends, and what it accepts *)

(** ** Termination *)
Section total.
Context (wide : bool) (mode : ParserMode).
Local Abbreviation next := (next wide mode).
Local Abbreviation parse_loop := (parse_loop wide mode).

Definition lexer_ok (lx : Lexer) : Prop := is_text (m_ptr lx).
Definition at_end (t : TokenType) : bool := tok_eqb t TokEnd || tok_eqb t TokError.

(** The characters ahead, and one for the current token. *)
Definition weight (lx : Lexer) : nat := (length (m_ptr lx) + if at_end (cur lx) then 0 else 1)%nat.

Lemma at_end_false t : t <> TokEnd -> t <> TokError -> at_end t = false.
Proof using. intros. unfold at_end, tok_eqb. by rewrite !bool_decide_false. Qed.

Lemma next_spec lx : lexer_ok lx -> exists lx', next lx = Some lx' /\ lexer_ok lx' /\ (weight lx' <= length (m_ptr lx))%nat.
Proof using.
  intros Hok. unfold LiteralParser.next. destruct (lex_spec wide mode (m_ptr lx) Hok) as (res & rest & -> & Hres). mstep. eexists. split; [done|].
  unfold weight, cur, lexer_ok. destruct res as [e|t]; cbn [m_ptr m_currentToken].
  - split; [by eapply advances_Forall|]. apply advances_length in Hres. change (at_end (type (plain TokError))) with true. cbv iota in *. lia.
  - destruct Hres as [Herr [[Ht ->]|[Ht Hadv]]].
    + split; [constructor|]. rewrite Ht. change (at_end TokEnd) with true. cbn [length]. lia.
    + split; [by eapply advances_Forall|]. apply advances_length in Hadv. rewrite at_end_false by done. cbv iota in *. lia.
Qed.

Lemma next_step lx t :
  lexer_ok lx -> cur lx = t -> t <> TokEnd -> t <> TokError ->
  exists lx', next lx = Some lx' /\ lexer_ok lx' /\ (weight lx' < weight lx)%nat.
Proof using.
  intros Hok Ht H1 H2. destruct (next_spec lx Hok) as (lx' & Hn & Hok' & Hw). exists lx'. split; [done|]. split; [done|].
  unfold weight at 2. rewrite Ht, at_end_false by done. lia.
Qed.

Lemma tok_eqb_true a b : tok_eqb a b = true -> a = b.
Proof using. apply bool_decide_eq_true_1. Qed.

Lemma is_name_real t : is_name mode t = true -> t <> TokEnd /\ t <> TokError.
Proof using.
  unfold is_name. intros [H%tok_eqb_true|H]%orb_true_iff; [by subst t|]. apply andb_true_iff in H as [_ H%tok_eqb_true]. by subst t.
Qed.

(** The three stacks fit each other. *)
Inductive stacks_ok : list frame -> list ParserState -> list (list Z) -> Prop :=
  | ok_empty : stacks_ok [] [] []
  | ok_statement : stacks_ok [] [StartParseStatementEndStatement] []
  | ok_array es objs sts ids : stacks_ok objs sts ids -> stacks_ok (FArray es :: objs) (DoParseArrayEndExpression :: sts) ids
  | ok_object ps b i objs sts ids :
      stacks_ok objs sts ids -> stacks_ok (FObject ps b :: objs) (DoParseObjectEndExpression :: sts) (i :: ids).

(** What holds when the loop is at a state. *)
Inductive state_ok : ParserState -> TokenType -> list frame -> list ParserState -> list (list Z) -> Prop :=
  | at_expression t objs sts ids : stacks_ok objs sts ids -> state_ok StartParseExpression t objs sts ids
  | at_array objs sts ids : stacks_ok objs sts ids -> state_ok StartParseArray TokLBracket objs sts ids
  | at_object objs sts ids : stacks_ok objs sts ids -> state_ok StartParseObject TokLBrace objs sts ids
  | at_array_start t es objs sts ids :
      t = TokLBracket \/ t = TokComma -> stacks_ok objs sts ids -> state_ok DoParseArrayStartExpression t (FArray es :: objs) sts ids
  | at_array_end t es objs sts ids : stacks_ok objs sts ids -> state_ok DoParseArrayEndExpression t (FArray es :: objs) sts ids
  | at_object_start ps b objs sts ids :
      stacks_ok objs sts ids -> state_ok DoParseObjectStartExpression TokComma (FObject ps b :: objs) sts ids
  | at_object_end t ps b i objs sts ids :
      stacks_ok objs sts ids -> state_ok DoParseObjectEndExpression t (FObject ps b :: objs) sts (i :: ids)
  | at_statement t : state_ok StartParseStatement t [] [] []
  | at_statement_end t : state_ok StartParseStatementEndStatement t [] [] [].

Definition state_weight (state : ParserState) : nat :=
  match state with
  | StartParseStatement => 4
  | StartParseExpression => 3
  | StartParseArray | DoParseArrayEndExpression | DoParseObjectEndExpression | StartParseStatementEndStatement => 2
  | StartParseObject | DoParseArrayStartExpression | DoParseObjectStartExpression => 1
  end.

(** [break]: the value is handed to the state on top of the stack. *)
Definition resume (fuel : nat) (lx : Lexer) (objs : list frame) (v : json) (sts : list ParserState) (ids : list (list Z)) : option outcome :=
  match sts with
  | [] => Some (inr v, lx)
  | st :: sts => parse_loop fuel st lx objs v sts ids
  end.

Definition done_ok (r : option outcome) : Prop := exists res lx, r = Some (res, lx) /\ lexer_ok lx.

Lemma resume_ok fuel :
  (forall state lx objs v sts ids, lexer_ok lx -> state_ok state (cur lx) objs sts ids -> (3 * weight lx + state_weight state < fuel)%nat ->
     done_ok (parse_loop fuel state lx objs v sts ids)) ->
  forall lx objs v sts ids, lexer_ok lx -> stacks_ok objs sts ids -> (3 * weight lx + 2 < fuel)%nat -> done_ok (resume fuel lx objs v sts ids).
Proof using.
  intros IH lx objs v sts ids Hok Hst Hw. destruct Hst; cbn [resume].
  - by eexists _, _.
  - apply IH; [done|constructor|cbn; lia].
  - apply IH; [done|by constructor|cbn; lia].
  - apply IH; [done|by constructor|cbn; lia].
Qed.

Lemma fail_ok lx e : lexer_ok lx -> done_ok (Some (inl e, lx)).
Proof using. intros. by eexists _, _. Qed.

(** Enough fuel for the characters ahead gives an outcome. *)
Lemma parse_loop_total fuel : forall state lx objs v sts ids,
  lexer_ok lx -> state_ok state (cur lx) objs sts ids -> (3 * weight lx + state_weight state < fuel)%nat ->
  done_ok (parse_loop fuel state lx objs v sts ids).
Proof using.
  induction fuel as [|fuel IH]; intros state lx objs v sts ids Hok Hst Hw; [lia|].
  pose proof (resume_ok fuel IH) as Hres. remember (cur lx) as tk eqn:Htk.
  destruct Hst as [t objs sts ids Hs|objs sts ids Hs|objs sts ids Hs|t es objs sts ids Ht' Hs|t es objs sts ids Hs|ps b objs sts ids Hs|t ps b id objs sts ids Hs|t|t];
    cbn [state_weight] in Hw; cbn [LiteralParser.parse_loop]; try subst t; try rename Htk into Ht.
  - (* StartParseExpression *)
    destruct (tok_eqb (cur lx) TokLBracket) eqn:E1; [apply tok_eqb_true in E1; apply IH; [done|rewrite E1; by constructor|cbn; lia]|].
    destruct (tok_eqb (cur lx) TokLBrace) eqn:E2; [apply tok_eqb_true in E2; apply IH; [done|rewrite E2; by constructor|cbn; lia]|].
    destruct (scalar (m_currentToken lx)) as [e|v'] eqn:Es; [by apply fail_ok|].
    assert (cur lx <> TokEnd /\ cur lx <> TokError) as [He1 He2] by (unfold scalar, cur in *; by destruct (type (m_currentToken lx))).
    destruct (next_step lx _ Hok eq_refl He1 He2) as (lx1 & -> & Hok1 & Hw1). mstep. apply Hres; [done|done|lia].
  - apply IH; [done|rewrite <- Ht; constructor; auto|cbn; lia].
  - (* StartParseObject *)
    destruct (next_step lx _ Hok (eq_sym Ht) ltac:(done) ltac:(done)) as (lx1 & -> & Hok1 & Hw1). mstep.
    destruct (is_name mode (cur lx1)) eqn:E1.
    + apply is_name_real in E1 as [He1 He2]. destruct (next_step lx1 _ Hok1 eq_refl He1 He2) as (lx2 & -> & Hok2 & Hw2). mstep.
      if_cases; [by apply fail_ok|]. apply negb_false_iff, tok_eqb_true in E.
      destruct (next_step lx2 _ Hok2 E ltac:(done) ltac:(done)) as (lx3 & -> & Hok3 & Hw3). mstep.
      apply IH; [done|do 2 constructor; done|cbn; lia].
    + if_cases; [by apply fail_ok|]. apply negb_false_iff, tok_eqb_true in E.
      destruct (next_step lx1 _ Hok1 E ltac:(done) ltac:(done)) as (lx2 & -> & Hok2 & Hw2). mstep. apply Hres; [done|done|lia].
  - (* DoParseArrayStartExpression *)
    assert (cur lx <> TokEnd /\ cur lx <> TokError) as [He1 He2] by (by destruct Ht' as [-> | ->]).
    destruct (next_step lx _ Hok eq_refl He1 He2) as (lx1 & -> & Hok1 & Hw1). mstep.
    destruct (tok_eqb (cur lx1) TokRBracket) eqn:E1.
    + if_cases; [by apply fail_ok|]. destruct (next_spec lx1 Hok1) as (lx2 & -> & Hok2 & Hw2). mstep. apply Hres; [done|done|unfold weight in *; lia].
    + apply IH; [done|do 2 constructor; done|cbn; lia].
  - (* DoParseArrayEndExpression *)
    destruct (tok_eqb (cur lx) TokComma) eqn:E1; [apply tok_eqb_true in E1; apply IH; [done|constructor; auto|cbn; lia]|].
    if_cases; [by apply fail_ok|]. apply negb_false_iff, tok_eqb_true in E.
    destruct (next_step lx _ Hok E ltac:(done) ltac:(done)) as (lx2 & -> & Hok2 & Hw2). mstep. apply Hres; [done|done|lia].
  - (* DoParseObjectStartExpression *)
    destruct (next_step lx _ Hok (eq_sym Ht) ltac:(done) ltac:(done)) as (lx1 & -> & Hok1 & Hw1). mstep.
    if_cases; [by apply fail_ok|]. apply negb_false_iff, is_name_real in E as [He1 He2].
    destruct (next_step lx1 _ Hok1 eq_refl He1 He2) as (lx2 & -> & Hok2 & Hw2). mstep.
    if_cases; [by apply fail_ok|]. apply negb_false_iff, tok_eqb_true in E.
    destruct (next_step lx2 _ Hok2 E ltac:(done) ltac:(done)) as (lx3 & -> & Hok3 & Hw3). mstep.
    apply IH; [done|do 2 constructor; done|cbn; lia].
  - (* DoParseObjectEndExpression *)
    assert (exists r, put_property mode (FObject ps b) id v = Some r /\ (match r with inl _ => True | inr f => exists ps' b', f = FObject ps' b' end)) as (r & -> & Hr).
    { unfold put_property. if_cases; [destruct b|]; eexists; split; try done; by eexists _, _. }
    mstep. destruct r as [e|f]; [by apply fail_ok|]. destruct Hr as (ps' & b' & ->).
    destruct (tok_eqb (cur lx) TokComma) eqn:E1; [apply tok_eqb_true in E1; apply IH; [done|rewrite E1; by constructor|cbn; lia]|].
    if_cases; [by apply fail_ok|]. apply negb_false_iff, tok_eqb_true in E.
    destruct (next_step lx _ Hok E ltac:(done) ltac:(done)) as (lx2 & -> & Hok2 & Hw2). mstep. apply Hres; [done|done|lia].
  - (* StartParseStatement *)
    destruct (cur lx) eqn:Ec; try (by apply fail_ok); try (apply IH; [done|do 2 constructor|cbn; lia]).
    destruct (next_step lx _ Hok Ec ltac:(done) ltac:(done)) as (lx1 & -> & Hok1 & Hw1). mstep. apply IH; [done|do 2 constructor|cbn; lia].
  - if_cases; [by apply fail_ok|]. destruct (next_spec lx Hok) as (lx1 & -> & Hok1 & _). mstep. if_cases; [by eexists _, _|by apply fail_ok].
Qed.
End total.
