(* ===== verification/LiteralGrammar.v ===== *)
(** * LiteralGrammar: the grammar of JSON and the texts that the parser accepts *)
From S2P Require Import Prelude JSONString LiteralParser LiteralParserFacts.
Local Open Scope Z_scope.

Section grammar.
Context (wide : bool).
Local Abbreviation next := (next wide StrictJSON).
Local Abbreviation parse_loop := (parse_loop wide StrictJSON).
Local Abbreviation resume := (resume wide StrictJSON).

(** [p] starts with a token of type [t], and [r] follows it. *)
Definition token (p : list Z) (tk : LiteralParserToken) (t : TokenType) (r : list Z) : Prop :=
  lex wide StrictJSON p = Some (inr tk, r) /\ type tk = t.

(** ** The grammar: [p] starts with the text of a value, and [r] follows it *)
Inductive value : list Z -> json -> list Z -> Prop :=
  | value_scalar p tk r v : lex wide StrictJSON p = Some (inr tk, r) -> scalar tk = inr v -> value p v r
  | value_array p tk r vs r' : token p tk TokLBracket r -> array_body r vs r' -> value p (JArray vs) r'
  | value_object p tk r kvs r' : token p tk TokLBrace r -> object_body r kvs r' -> value p (JObject kvs) r'
with array_body : list Z -> list json -> list Z -> Prop :=
  | array_empty p tk r : token p tk TokRBracket r -> array_body p [] r
  | array_first p v r vs r' : value p v r -> array_tail r vs r' -> array_body p (v :: vs) r'
with array_tail : list Z -> list json -> list Z -> Prop :=
  | array_last p tk r : token p tk TokRBracket r -> array_tail p [] r
  | array_next p tk r v r1 vs r' : token p tk TokComma r -> value r v r1 -> array_tail r1 vs r' -> array_tail p (v :: vs) r'
with object_body : list Z -> list (list Z * json) -> list Z -> Prop :=
  | object_empty p tk r : token p tk TokRBrace r -> object_body p [] r
  | object_first p tk r ck r1 v r2 kvs r' :
      token p tk TokString r -> token r ck TokColon r1 -> value r1 v r2 -> object_tail r2 kvs r' ->
      object_body p ((token_string tk, v) :: kvs) r'
with object_tail : list Z -> list (list Z * json) -> list Z -> Prop :=
  | object_last p tk r : token p tk TokRBrace r -> object_tail p [] r
  | object_next p cm r tk r1 ck r2 v r3 kvs r' :
      token p cm TokComma r -> token r tk TokString r1 -> token r1 ck TokColon r2 -> value r2 v r3 -> object_tail r3 kvs r' ->
      object_tail p ((token_string tk, v) :: kvs) r'.

Scheme value_mind := Minimality for value Sort Prop
with array_body_mind := Minimality for array_body Sort Prop
with array_tail_mind := Minimality for array_tail Sort Prop
with object_body_mind := Minimality for object_body Sort Prop
with object_tail_mind := Minimality for object_tail Sort Prop.
Combined Scheme grammar_mind from value_mind, array_body_mind, array_tail_mind, object_body_mind, object_tail_mind.

(** Nothing but white space is left. *)
Definition ends (p : list Z) : Prop := exists tk, token p tk TokEnd [].

(** ** The lexer at a text *)

(** The lexer has just read the token at the front of [p]. *)
Definition reads (p : list Z) (e : option lex_error) (lx : Lexer) : Prop := next (mkLexer p (plain TokError) e) = Some lx.

Lemma reads_next lx lx' : next lx = Some lx' <-> reads (m_ptr lx) (m_lexErrorMessage lx) lx'.
Proof using. done. Qed.

Lemma reads_token p e lx tk r : reads p e lx -> lex wide StrictJSON p = Some (inr tk, r) -> lx = mkLexer r tk e.
Proof using. unfold reads, LiteralParser.next. cbn [m_ptr]. intros H Hl. rewrite Hl in H. by injection H as <-. Qed.

Lemma reads_real p e lx : is_text p -> reads p e lx -> cur lx <> TokError -> exists tk r, lex wide StrictJSON p = Some (inr tk, r) /\ lx = mkLexer r tk e.
Proof using.
  intros Hp H Hc. destruct (lex_spec wide StrictJSON p Hp) as ([er|tk] & r & Hl & _).
  - unfold reads, LiteralParser.next in H. cbn [m_ptr] in H. rewrite Hl in H. injection H as <-. done.
  - exists tk, r. split; [done|]. by eapply reads_token.
Qed.

Lemma reads_total p e : is_text p -> exists lx, reads p e lx.
Proof using. intros Hp. destruct (next_spec wide StrictJSON (mkLexer p (plain TokError) e) Hp) as (lx & H & _). by exists lx. Qed.

Lemma token_text p tk r : is_text p -> lex wide StrictJSON p = Some (inr tk, r) -> is_text r.
Proof using.
  intros Hp Hl. destruct (lex_spec wide StrictJSON p Hp) as (res & rest & Hl' & H). rewrite Hl in Hl'. injection Hl' as <- <-.
  destruct H as [_ [[_ ->]|[_ H]]]; [constructor|by eapply advances_Forall].
Qed.

Lemma token_text' p tk t r : is_text p -> token p tk t r -> is_text r.
Proof using. intros Hp [Hl _]. by eapply token_text. Qed.

Lemma tok_eqb_refl t : tok_eqb t t = true.
Proof using. by apply bool_decide_eq_true_2. Qed.

Lemma tok_eqb_false a b : a <> b -> tok_eqb a b = false.
Proof using. by apply bool_decide_eq_false_2. Qed.

Lemma is_name_string t : is_name StrictJSON t = tok_eqb t TokString.
Proof using. unfold is_name. change (mode_eqb StrictJSON StrictJSON) with true. apply orb_false_r. Qed.

Lemma put_strict ps b i v : put_property StrictJSON (FObject ps b) i v = Some (inr (FObject (ps ++ [(i, v)]) b)).
Proof using. done. Qed.

(** ** Completeness *)

Lemma grammar_text :
  (forall p v r, value p v r -> is_text p -> is_text r) /\
  (forall p vs r, array_body p vs r -> is_text p -> is_text r) /\
  (forall p vs r, array_tail p vs r -> is_text p -> is_text r) /\
  (forall p kvs r, object_body p kvs r -> is_text p -> is_text r) /\
  (forall p kvs r, object_tail p kvs r -> is_text p -> is_text r).
Proof using.
  apply grammar_mind; intros;
    repeat match goal with
    | H : token ?p _ _ ?r, Hp : is_text ?p |- _ => pose proof (token_text' _ _ _ _ Hp H); clear H
    | IH : is_text ?p -> is_text ?r, Hp : is_text ?p |- _ => specialize (IH Hp)
    end; eauto using token_text.
Qed.

(** Any number of turns, given that the loop gets that much more fuel. *)
Definition runs (state : ParserState) (lx : Lexer) (objs : list frame) (ids : list (list Z)) (v : json)
    (lx' : Lexer) (objs' : list frame) (v' : json) (ids' : list (list Z)) : Prop :=
  exists n, forall fuel sts, parse_loop (n + fuel) state lx objs v sts ids = resume fuel lx' objs' v' sts ids'.

(** A value does not start with a closing bracket. *)
Lemma value_start p v r e lx : value p v r -> reads p e lx -> cur lx <> TokRBracket.
Proof using.
  intros Hv Hlx. destruct Hv as [p tk r v Hl Hs|p tk r vs r' [Hl Ht] _|p tk r kvs r' [Hl Ht] _]; rewrite (reads_token _ _ _ _ _ Hlx Hl);
    unfold cur; cbn [m_currentToken]; [|congruence|congruence]. unfold scalar in Hs. by destruct (type tk).
Qed.

Lemma next_token p tk0 e tk t r : token p tk t r -> next (mkLexer p tk0 e) = Some (mkLexer r tk e).
Proof using. intros [Hl _]. unfold LiteralParser.next. cbn [m_ptr]. by rewrite Hl. Qed.

(** What the parser does with each phrase of the grammar. *)
Definition complete_value (p : list Z) (v : json) (r : list Z) : Prop :=
  forall e lx lx' objs ids v0, is_text p -> reads p e lx -> reads r e lx' -> runs StartParseExpression lx objs ids v0 lx' objs v ids.
Definition complete_array_body (p : list Z) (vs : list json) (r : list Z) : Prop :=
  forall e tk lx' objs ids v0, is_text p -> type tk = TokLBracket -> reads r e lx' ->
  runs DoParseArrayStartExpression (mkLexer p tk e) (FArray [] :: objs) ids v0 lx' objs (JArray vs) ids.
Definition complete_array_tail (p : list Z) (vs : list json) (r : list Z) : Prop :=
  forall e lx lx' es objs ids v, is_text p -> reads p e lx -> reads r e lx' ->
  runs DoParseArrayEndExpression lx (FArray es :: objs) ids v lx' objs (JArray (es ++ v :: vs)) ids.
Definition complete_object_body (p : list Z) (kvs : list (list Z * json)) (r : list Z) : Prop :=
  forall e tk lx' objs ids v0, is_text p -> type tk = TokLBrace -> reads r e lx' ->
  runs StartParseObject (mkLexer p tk e) objs ids v0 lx' objs (JObject kvs) ids.
Definition complete_object_tail (p : list Z) (kvs : list (list Z * json)) (r : list Z) : Prop :=
  forall e lx lx' ps b i objs ids v, is_text p -> reads p e lx -> reads r e lx' ->
  runs DoParseObjectEndExpression lx (FObject ps b :: objs) (i :: ids) v lx' objs (JObject (ps ++ (i, v) :: kvs)) ids.

Lemma complete_scalar p tk r v :
  lex wide StrictJSON p = Some (inr tk, r) -> scalar tk = inr v -> complete_value p v r.
Proof using.
  intros Hl Hs e lx lx' objs ids v0 Hp Hlx Hlx'. rewrite (reads_token _ _ _ _ _ Hlx Hl). exists 1%nat. intros fuel sts.
  cbn [plus LiteralParser.parse_loop cur m_currentToken]. unfold cur. cbn [m_currentToken].
  rewrite !tok_eqb_false by (intros E; unfold scalar in Hs; by rewrite E in Hs). rewrite Hs.
  change (next (mkLexer r tk e)) with (next (mkLexer r (plain TokError) e)). rewrite Hlx'. done.
Qed.

Lemma complete_array p tk r vs r' :
  token p tk TokLBracket r -> array_body r vs r' -> complete_array_body r vs r' -> complete_value p (JArray vs) r'.
Proof using.
  intros [Hl Ht] Hb IH e lx lx' objs ids v0 Hp Hlx Hlx'. rewrite (reads_token _ _ _ _ _ Hlx Hl).
  destruct (IH e tk lx' objs ids v0) as [n Hn]; [by eapply token_text|done|done|]. exists (S (S n)). intros fuel sts.
  cbn [plus LiteralParser.parse_loop]. unfold cur. cbn [m_currentToken]. rewrite Ht, tok_eqb_refl. apply Hn.
Qed.

Lemma complete_object p tk r kvs r' :
  token p tk TokLBrace r -> object_body r kvs r' -> complete_object_body r kvs r' -> complete_value p (JObject kvs) r'.
Proof using.
  intros [Hl Ht] Hb IH e lx lx' objs ids v0 Hp Hlx Hlx'. rewrite (reads_token _ _ _ _ _ Hlx Hl).
  destruct (IH e tk lx' objs ids v0) as [n Hn]; [by eapply token_text|done|done|]. exists (S n). intros fuel sts.
  cbn [plus]. rewrite <- Hn. cbn [LiteralParser.parse_loop]. unfold cur. cbn [m_currentToken]. rewrite Ht, tok_eqb_refl, tok_eqb_false by done. done.
Qed.

Lemma complete_array_empty p tk r :
  token p tk TokRBracket r -> complete_array_body p [] r.
Proof using.
  intros Htk e tk0 lx' objs ids v0 Hp Ht0 Hlx'. exists 1%nat. intros fuel sts. cbn [plus LiteralParser.parse_loop].
  rewrite (next_token _ _ _ _ _ _ Htk). mstep. unfold cur. cbn [m_currentToken]. rewrite (proj2 Htk), Ht0, tok_eqb_refl, tok_eqb_false by done.
  change (next (mkLexer r tk e)) with (next (mkLexer r (plain TokError) e)). rewrite Hlx'. done.
Qed.

Lemma complete_array_first p v r vs r' :
  value p v r -> complete_value p v r -> array_tail r vs r' -> complete_array_tail r vs r' -> complete_array_body p (v :: vs) r'.
Proof using.
  intros Hv IHv Hta IHt e tk0 lx' objs ids v0 Hp Ht0 Hlx'. destruct (reads_total p e Hp) as [lx1 Hlx1].
  destruct (reads_total r e) as [lx2 Hlx2]; [by eapply (proj1 grammar_text)|]. destruct (IHv e lx1 lx2 (FArray [] :: objs) ids v0 Hp Hlx1 Hlx2) as [n1 Hn1].
  destruct (IHt e lx2 lx' [] objs ids v) as [n2 Hn2]; [by eapply (proj1 grammar_text)|done|done|]. exists (S (n1 + n2)). intros fuel sts. cbn [plus LiteralParser.parse_loop].
  change (next (mkLexer p tk0 e)) with (next (mkLexer p (plain TokError) e)). rewrite Hlx1. mstep.
  rewrite (tok_eqb_false (cur lx1)) by (by eapply value_start). rewrite <- Nat.add_assoc, Hn1. apply Hn2.
Qed.

Lemma complete_array_last p tk r :
  token p tk TokRBracket r -> complete_array_tail p [] r.
Proof using.
  intros Htk e lx lx' es objs ids v Hp Hlx Hlx'. exists 1%nat. intros fuel sts. rewrite (reads_token _ _ _ _ _ Hlx (proj1 Htk)).
  cbn [plus LiteralParser.parse_loop]. unfold cur. cbn [m_currentToken]. rewrite (proj2 Htk), tok_eqb_refl, tok_eqb_false by done. cbn [negb].
  change (next (mkLexer r tk e)) with (next (mkLexer r (plain TokError) e)). rewrite Hlx'. done.
Qed.

Lemma complete_array_next p tk r v r1 vs r' :
  token p tk TokComma r -> value r v r1 -> complete_value r v r1 -> array_tail r1 vs r' -> complete_array_tail r1 vs r' -> complete_array_tail p (v :: vs) r'.
Proof using.
  intros Htk Hv IHv Hta IHt e lx lx' es objs ids v0 Hp Hlx Hlx'. assert (is_text r) as Hr by (by eapply token_text').
  destruct (reads_total r e Hr) as [lx1 Hlx1]. destruct (reads_total r1 e) as [lx2 Hlx2]; [by eapply (proj1 grammar_text)|].
  destruct (IHv e lx1 lx2 (FArray (es ++ [v0]) :: objs) ids v0 Hr Hlx1 Hlx2) as [n1 Hn1].
  destruct (IHt e lx2 lx' (es ++ [v0]) objs ids v) as [n2 Hn2]; [by eapply (proj1 grammar_text)|done|done|]. exists (S (S (n1 + n2))). intros fuel sts.
  rewrite (reads_token _ _ _ _ _ Hlx (proj1 Htk)). cbn [plus LiteralParser.parse_loop]. unfold cur at 1. cbn [m_currentToken]. rewrite (proj2 Htk), tok_eqb_refl.
  change (next (mkLexer r tk e)) with (next (mkLexer r (plain TokError) e)). rewrite Hlx1. mstep.
  rewrite (tok_eqb_false (cur lx1)) by (by eapply value_start). rewrite <- Nat.add_assoc, Hn1. cbn [LiteralParserFacts.resume]. rewrite Hn2.
  by rewrite <- app_assoc.
Qed.

Lemma complete_object_empty p tk r :
  token p tk TokRBrace r -> complete_object_body p [] r.
Proof using.
  intros Htk e tk0 lx' objs ids v0 Hp Ht0 Hlx'. exists 1%nat. intros fuel sts. cbn [plus LiteralParser.parse_loop].
  rewrite (next_token _ _ _ _ _ _ Htk). mstep. unfold cur. cbn [m_currentToken]. rewrite is_name_string, (proj2 Htk), tok_eqb_refl, tok_eqb_false by done. cbn [negb].
  change (next (mkLexer r tk e)) with (next (mkLexer r (plain TokError) e)). rewrite Hlx'. done.
Qed.

Lemma complete_object_first p tk r ck r1 v r2 kvs r' :
  token p tk TokString r -> token r ck TokColon r1 -> value r1 v r2 -> complete_value r1 v r2 ->
  object_tail r2 kvs r' -> complete_object_tail r2 kvs r' -> complete_object_body p ((token_string tk, v) :: kvs) r'.
Proof using.
  intros Htk Hck Hv IHv Hta IHt e tk0 lx' objs ids v0 Hp Ht0 Hlx'.
  assert (is_text r) as Hr by (by eapply token_text'). assert (is_text r1) as Hr1 by (by eapply token_text').
  destruct (reads_total r1 e Hr1) as [lx1 Hlx1]. destruct (reads_total r2 e) as [lx2 Hlx2]; [by eapply (proj1 grammar_text)|].
  destruct (IHv e lx1 lx2 (FObject [] false :: objs) (token_string tk :: ids) v0 Hr1 Hlx1 Hlx2) as [n1 Hn1].
  destruct (IHt e lx2 lx' [] false (token_string tk) objs ids v) as [n2 Hn2]; [by eapply (proj1 grammar_text)|done|done|]. exists (S (n1 + n2)). intros fuel sts. cbn [plus LiteralParser.parse_loop].
  rewrite (next_token _ _ _ _ _ _ Htk). mstep. unfold cur at 1. cbn [m_currentToken]. rewrite is_name_string, (proj2 Htk), tok_eqb_refl.
  rewrite (next_token _ _ _ _ _ _ Hck). mstep. unfold cur at 1. cbn [m_currentToken]. rewrite (proj2 Hck), tok_eqb_refl. cbn [negb].
  change (next (mkLexer r1 ck e)) with (next (mkLexer r1 (plain TokError) e)). rewrite Hlx1. mstep. rewrite <- Nat.add_assoc, Hn1. apply Hn2.
Qed.

Lemma complete_object_last p tk r :
  token p tk TokRBrace r -> complete_object_tail p [] r.
Proof using.
  intros Htk e lx lx' ps b i objs ids v Hp Hlx Hlx'. exists 1%nat. intros fuel sts. rewrite (reads_token _ _ _ _ _ Hlx (proj1 Htk)).
  cbn [plus LiteralParser.parse_loop]. rewrite put_strict. mstep. unfold cur. cbn [m_currentToken]. rewrite (proj2 Htk), tok_eqb_refl, tok_eqb_false by done. cbn [negb].
  change (next (mkLexer r tk e)) with (next (mkLexer r (plain TokError) e)). rewrite Hlx'. done.
Qed.

Lemma complete_object_next p cm r tk r1 ck r2 v r3 kvs r' :
  token p cm TokComma r -> token r tk TokString r1 -> token r1 ck TokColon r2 -> value r2 v r3 -> complete_value r2 v r3 ->
  object_tail r3 kvs r' -> complete_object_tail r3 kvs r' -> complete_object_tail p ((token_string tk, v) :: kvs) r'.
Proof using.
  intros Hcm Htk Hck Hv IHv Hta IHt e lx lx' ps b i objs ids v0 Hp Hlx Hlx'.
  assert (is_text r) as Hr by (by eapply token_text'). assert (is_text r1) as Hr1 by (by eapply token_text'). assert (is_text r2) as Hr2 by (by eapply token_text').
  destruct (reads_total r2 e Hr2) as [lx1 Hlx1]. destruct (reads_total r3 e) as [lx2 Hlx2]; [by eapply (proj1 grammar_text)|].
  destruct (IHv e lx1 lx2 (FObject (ps ++ [(i, v0)]) b :: objs) (token_string tk :: ids) v0 Hr2 Hlx1 Hlx2) as [n1 Hn1].
  destruct (IHt e lx2 lx' (ps ++ [(i, v0)]) b (token_string tk) objs ids v) as [n2 Hn2]; [by eapply (proj1 grammar_text)|done|done|]. exists (S (S (n1 + n2))). intros fuel sts.
  rewrite (reads_token _ _ _ _ _ Hlx (proj1 Hcm)). cbn [plus LiteralParser.parse_loop]. rewrite put_strict. mstep.
  unfold cur at 1. cbn [m_currentToken]. rewrite (proj2 Hcm), tok_eqb_refl. rewrite (next_token _ _ _ _ _ _ Htk). mstep.
  unfold cur at 1. cbn [m_currentToken]. rewrite is_name_string, (proj2 Htk), tok_eqb_refl. cbn [negb].
  rewrite (next_token _ _ _ _ _ _ Hck). mstep. unfold cur at 1. cbn [m_currentToken]. rewrite (proj2 Hck), tok_eqb_refl. cbn [negb].
  change (next (mkLexer r2 ck e)) with (next (mkLexer r2 (plain TokError) e)). rewrite Hlx1. mstep. rewrite <- Nat.add_assoc, Hn1. cbn [LiteralParserFacts.resume]. rewrite Hn2.
  by rewrite <- app_assoc.
Qed.

Lemma value_runs p v r : value p v r -> complete_value p v r.
Proof using.
  apply (value_mind complete_value complete_array_body complete_array_tail complete_object_body complete_object_tail);
    eauto using complete_scalar, complete_array, complete_object, complete_array_empty, complete_array_first, complete_array_last,
      complete_array_next, complete_object_empty, complete_object_first, complete_object_last, complete_object_next.
Qed.

(** ** Soundness *)

(** A run that ends with a value has passed a phrase of the grammar and gone on with less fuel. *)
Definition sound (fuel : nat) (phrase : list Z -> list Z -> json -> Prop) (p : list Z) (e : option lex_error) (objs : list frame)
    (sts : list ParserState) (ids : list (list Z)) (r : option outcome) : Prop :=
  forall V lxf, r = Some (inr V, lxf) ->
  exists v q lx' fuel', (fuel' < fuel)%nat /\ phrase p q v /\ reads q e lx' /\ resume fuel' lx' objs v sts ids = Some (inr V, lxf).

Definition sound_value (fuel : nat) : Prop := forall p e lx objs v0 sts ids, is_text p -> reads p e lx ->
  sound fuel (fun p q v => value p v q) p e objs sts ids (parse_loop fuel StartParseExpression lx objs v0 sts ids).
Definition sound_array (fuel : nat) : Prop := forall p e lx es objs v0 sts ids, is_text p -> reads p e lx ->
  sound fuel (fun p q v => exists vs, array_tail p vs q /\ v = JArray (es ++ v0 :: vs)) p e objs sts ids
    (parse_loop fuel DoParseArrayEndExpression lx (FArray es :: objs) v0 sts ids).
Definition sound_object (fuel : nat) : Prop := forall p e lx ps b i objs v0 sts ids, is_text p -> reads p e lx ->
  sound fuel (fun p q v => exists kvs, object_tail p kvs q /\ v = JObject (ps ++ (i, v0) :: kvs)) p e objs sts ids
    (parse_loop fuel DoParseObjectEndExpression lx (FObject ps b :: objs) v0 sts (i :: ids)).

(** The next token, if the parser goes on only at one of type [t]. *)
Lemma reads_expect p e lx t : is_text p -> reads p e lx -> tok_eqb (cur lx) t = true -> t <> TokError ->
  exists tk r, token p tk t r /\ lx = mkLexer r tk e /\ is_text r.
Proof using.
  intros Hp Hlx Ht%tok_eqb_true Hne. destruct (reads_real p e lx Hp Hlx ltac:(congruence)) as (tk & r & Hl & ->). exists tk, r.
  split; [by split|]. split; [done|]. by eapply token_text.
Qed.

(** What an array does after its bracket or a comma, a value being next. *)
Lemma sound_elements fuel p e lx es objs v0 sts ids :
  (forall f, (f < S fuel)%nat -> sound_value f /\ sound_array f /\ sound_object f) -> is_text p -> reads p e lx ->
  sound (S fuel) (fun p q v => exists v1 r vs, value p v1 r /\ array_tail r vs q /\ v = JArray (es ++ v1 :: vs)) p e objs sts ids
    (parse_loop fuel StartParseExpression lx (FArray es :: objs) v0 (DoParseArrayEndExpression :: sts) ids).
Proof using.
  intros IH Hp Hlx V lxf Hrun. destruct (IH fuel ltac:(lia)) as [IHv _].
  destruct (IHv _ _ _ _ _ _ _ Hp Hlx _ _ Hrun) as (v & q & lx' & f1 & Hf1 & Hv & Hlx' & Hres). cbn [LiteralParserFacts.resume] in Hres.
  assert (is_text q) as Hq by (by eapply (proj1 grammar_text)). destruct (IH f1 ltac:(lia)) as (_ & IHa & _).
  destruct (IHa _ _ _ _ _ _ _ _ Hq Hlx' _ _ Hres) as (w & q' & lx2 & f2 & Hf2 & (vs & Hvs & ->) & Hlx2 & Hres2).
  exists (JArray (es ++ v :: vs)), q', lx2, f2. split; [lia|]. split; [by eexists _, _, _|done].
Qed.

Lemma sound_members fuel p e lx ps b i objs v0 sts ids :
  (forall f, (f < S fuel)%nat -> sound_value f /\ sound_array f /\ sound_object f) -> is_text p -> reads p e lx ->
  sound (S fuel) (fun p q v => exists v1 r kvs, value p v1 r /\ object_tail r kvs q /\ v = JObject (ps ++ (i, v1) :: kvs)) p e objs sts ids
    (parse_loop fuel StartParseExpression lx (FObject ps b :: objs) v0 (DoParseObjectEndExpression :: sts) (i :: ids)).
Proof using.
  intros IH Hp Hlx V lxf Hrun. destruct (IH fuel ltac:(lia)) as [IHv _].
  destruct (IHv _ _ _ _ _ _ _ Hp Hlx _ _ Hrun) as (v & q & lx' & f1 & Hf1 & Hv & Hlx' & Hres). cbn [LiteralParserFacts.resume] in Hres.
  assert (is_text q) as Hq by (by eapply (proj1 grammar_text)). destruct (IH f1 ltac:(lia)) as (_ & _ & IHo).
  destruct (IHo _ _ _ _ _ _ _ _ _ _ Hq Hlx' _ _ Hres) as (w & q' & lx2 & f2 & Hf2 & (kvs & Hkvs & ->) & Hlx2 & Hres2).
  exists (JObject (ps ++ (i, v) :: kvs)), q', lx2, f2. split; [lia|]. split; [by eexists _, _, _|done].
Qed.

Lemma read_next p tk e : is_text p -> exists lx, next (mkLexer p tk e) = Some lx /\ reads p e lx.
Proof using. intros Hp. destruct (reads_total p e Hp) as [lx Hlx]. by exists lx. Qed.

(** The loop of a container, from a bracket or a comma on. *)
Lemma sound_array_start fuel p tk e es objs v0 sts ids :
  (forall f, (f < fuel)%nat -> sound_value f /\ sound_array f /\ sound_object f) -> is_text p ->
  sound fuel (fun p q v => (type tk <> TokComma /\ (exists tk', token p tk' TokRBracket q) /\ v = JArray es) \/
      exists v1 r vs, value p v1 r /\ array_tail r vs q /\ v = JArray (es ++ v1 :: vs)) p e objs sts ids
    (parse_loop fuel DoParseArrayStartExpression (mkLexer p tk e) (FArray es :: objs) v0 sts ids).
Proof using.
  intros IH Hp V lxf Hrun. destruct fuel as [|fuel]; [done|]. cbn [LiteralParser.parse_loop] in Hrun.
  destruct (read_next p tk e Hp) as (lx1 & Hn & Hlx1). rewrite Hn in Hrun. cbn [mbind option_bind] in Hrun.
  destruct (tok_eqb (cur lx1) TokRBracket) eqn:E1.
  - destruct (tok_eqb (cur (mkLexer p tk e)) TokComma) eqn:E2; [done|].
    destruct (reads_expect _ _ _ _ Hp Hlx1 E1) as (tk1 & r & Htk1 & -> & Hr); [done|].
    destruct (read_next r tk1 e Hr) as (lx2 & Hn2 & Hlx2). rewrite Hn2 in Hrun. cbn [mbind option_bind] in Hrun.
    exists (JArray es), r, lx2, fuel. split; [lia|]. split; [|done]. left. split; [|by split; [exists tk1|]].
    intros E. unfold cur in E2. cbn [m_currentToken] in E2. rewrite E in E2. done.
  - destruct (sound_elements fuel p e lx1 es objs v0 sts ids IH Hp Hlx1 V lxf Hrun) as (v & q & lx' & f' & Hf & Hph & Hrest).
    exists v, q, lx', f'. split; [done|]. split; [by right|done].
Qed.

(** A property name, its colon, and the value and members after it. *)
Lemma sound_member fuel lx1 p e ps b objs v0 sts ids err V lxf :
  (forall f, (f < S fuel)%nat -> sound_value f /\ sound_array f /\ sound_object f) -> is_text p -> reads p e lx1 -> tok_eqb (cur lx1) TokString = true ->
  (lx ← next lx1; if negb (tok_eqb (cur lx) TokColon) then Some (inl err, lx)
   else lx ← next lx; parse_loop fuel StartParseExpression lx (FObject ps b :: objs) v0 (DoParseObjectEndExpression :: sts) (token_string (m_currentToken lx1) :: ids))
   = Some (inr V, lxf) ->
  exists v q lx' fuel' tk r ck r1 v1 r2 kvs, (fuel' < S fuel)%nat /\ token p tk TokString r /\ token r ck TokColon r1 /\ value r1 v1 r2 /\
    object_tail r2 kvs q /\ v = JObject (ps ++ (token_string tk, v1) :: kvs) /\ reads q e lx' /\ resume fuel' lx' objs v sts ids = Some (inr V, lxf).
Proof using.
  intros IH Hp Hlx1 E1 Hrun. destruct (reads_expect _ _ _ _ Hp Hlx1 E1) as (tk & r & Htk & -> & Hr); [done|]. cbn [m_currentToken] in Hrun.
  destruct (read_next r tk e Hr) as (lx2 & Hn2 & Hlx2). rewrite Hn2 in Hrun. cbn [mbind option_bind] in Hrun.
  destruct (tok_eqb (cur lx2) TokColon) eqn:E2; [|done]. cbn [negb] in Hrun.
  destruct (reads_expect _ _ _ _ Hr Hlx2 E2) as (ck & r1 & Hck & -> & Hr1); [done|].
  destruct (read_next r1 ck e Hr1) as (lx3 & Hn3 & Hlx3). rewrite Hn3 in Hrun. cbn [mbind option_bind] in Hrun.
  destruct (sound_members fuel r1 e lx3 ps b (token_string tk) objs v0 sts ids IH Hr1 Hlx3 V lxf Hrun)
    as (v & q & lx' & f' & Hf & (v1 & r2 & kvs & Hv1 & Hkvs & ->) & Hlx' & Hres).
  by exists (JObject (ps ++ (token_string tk, v1) :: kvs)), q, lx', f', tk, r, ck, r1, v1, r2, kvs.
Qed.

Lemma sound_value_step fuel : (forall f, (f < fuel)%nat -> sound_value f /\ sound_array f /\ sound_object f) -> sound_value fuel.
Proof using.
  intros IH.
  intros p e lx objs v0 sts ids Hp Hlx V lxf Hrun. destruct fuel as [|fuel]; [done|]. cbn [LiteralParser.parse_loop] in Hrun.
  destruct (tok_eqb (cur lx) TokLBracket) eqn:E1; [|destruct (tok_eqb (cur lx) TokLBrace) eqn:E2].
  - destruct (reads_expect _ _ _ _ Hp Hlx E1) as (tk & r & Htk & -> & Hr); [done|]. destruct fuel as [|fuel]; [done|]. cbn [LiteralParser.parse_loop] in Hrun.
    destruct (sound_array_start fuel r tk e [] objs v0 sts ids ltac:(intros; apply IH; lia) Hr V lxf Hrun) as (v & q & lx' & f' & Hf & Hph & Hlx' & Hres).
    exists v, q, lx', f'. split; [lia|]. split; [|done]. destruct Hph as [(_ & (tk' & Htk') & ->)|(v1 & r1 & vs & Hv & Hvs & ->)];
      (eapply value_array; [done|]); by econstructor.
  - destruct (reads_expect _ _ _ _ Hp Hlx E2) as (tk & r & Htk & -> & Hr); [done|]. destruct fuel as [|fuel]; [done|]. cbn [LiteralParser.parse_loop] in Hrun.
    destruct (read_next r tk e Hr) as (lx1 & Hn & Hlx1). rewrite Hn in Hrun. cbn [mbind option_bind] in Hrun. rewrite is_name_string in Hrun.
    destruct (tok_eqb (cur lx1) TokString) eqn:E3.
    + destruct (sound_member fuel lx1 r e [] false objs v0 sts ids _ V lxf ltac:(intros; apply IH; lia) Hr Hlx1 E3 Hrun)
        as (v & q & lx' & f' & tk1 & r1 & ck & r2 & v1 & r3 & kvs & Hf & H1 & H2 & H3 & H4 & -> & Hlx' & Hres).
      exists (JObject ([] ++ (token_string tk1, v1) :: kvs)), q, lx', f'. split; [lia|]. split; [|done]. eapply value_object; [done|]. by econstructor.
    + destruct (tok_eqb (cur lx1) TokRBrace) eqn:E4; [|done]. cbn [negb] in Hrun.
      destruct (reads_expect _ _ _ _ Hr Hlx1 E4) as (tk1 & r1 & Htk1 & -> & Hr1); [done|].
      destruct (read_next r1 tk1 e Hr1) as (lx2 & Hn2 & Hlx2). rewrite Hn2 in Hrun. cbn [mbind option_bind] in Hrun.
      exists (JObject []), r1, lx2, fuel. split; [lia|]. split; [|done]. eapply value_object; [done|]. by econstructor.
  - destruct (scalar (m_currentToken lx)) as [er|v] eqn:Es; [done|].
    destruct (reads_real p e lx Hp Hlx) as (tk & r & Hl & ->); [unfold scalar, cur in *; by destruct (type (m_currentToken lx))|].
    destruct (read_next r tk e (token_text _ _ _ Hp Hl)) as (lx2 & Hn2 & Hlx2). rewrite Hn2 in Hrun. cbn [mbind option_bind] in Hrun.
    exists v, r, lx2, fuel. split; [lia|]. split; [by eapply value_scalar|done].
Qed.

Lemma sound_array_step fuel : (forall f, (f < fuel)%nat -> sound_value f /\ sound_array f /\ sound_object f) -> sound_array fuel.
Proof using.
  intros IH.
  intros p e lx es objs v0 sts ids Hp Hlx V lxf Hrun. destruct fuel as [|fuel]; [done|]. cbn [LiteralParser.parse_loop] in Hrun.
  destruct (tok_eqb (cur lx) TokComma) eqn:E1.
  - destruct (reads_expect _ _ _ _ Hp Hlx E1) as (tk & r & Htk & -> & Hr); [done|].
    destruct (sound_array_start fuel r tk e (es ++ [v0]) objs v0 sts ids ltac:(intros; apply IH; lia) Hr V lxf Hrun) as (v & q & lx' & f' & Hf & Hph & Hlx' & Hres).
    exists v, q, lx', f'. split; [lia|]. split; [|done]. destruct Hph as [(Hne & _)|(v1 & r1 & vs & Hv & Hvs & ->)]; [by destruct Hne, Htk|].
    exists (v1 :: vs). split; [by econstructor|]. by rewrite <- app_assoc.
  - destruct (tok_eqb (cur lx) TokRBracket) eqn:E2; [|done]. cbn [negb] in Hrun.
    destruct (reads_expect _ _ _ _ Hp Hlx E2) as (tk & r & Htk & -> & Hr); [done|].
    destruct (read_next r tk e Hr) as (lx2 & Hn2 & Hlx2). rewrite Hn2 in Hrun. cbn [mbind option_bind] in Hrun.
    exists (JArray (es ++ [v0])), r, lx2, fuel. split; [lia|]. split; [|done]. exists []. split; [by econstructor|done].
Qed.

Lemma sound_object_step fuel : (forall f, (f < fuel)%nat -> sound_value f /\ sound_array f /\ sound_object f) -> sound_object fuel.
Proof using.
  intros IH.
  intros p e lx ps b i objs v0 sts ids Hp Hlx V lxf Hrun. destruct fuel as [|fuel]; [done|]. cbn [LiteralParser.parse_loop] in Hrun.
  rewrite put_strict in Hrun. cbn [mbind option_bind] in Hrun. destruct (tok_eqb (cur lx) TokComma) eqn:E1.
  - destruct (reads_expect _ _ _ _ Hp Hlx E1) as (tk & r & Htk & -> & Hr); [done|]. destruct fuel as [|fuel]; [done|]. cbn [LiteralParser.parse_loop] in Hrun.
    destruct (read_next r tk e Hr) as (lx1 & Hn & Hlx1). rewrite Hn in Hrun. cbn [mbind option_bind] in Hrun. rewrite is_name_string in Hrun.
    destruct (tok_eqb (cur lx1) TokString) eqn:E3; [|done]. cbn [negb] in Hrun.
    destruct (sound_member fuel lx1 r e (ps ++ [(i, v0)]) b objs v0 sts ids _ V lxf ltac:(intros; apply IH; lia) Hr Hlx1 E3 Hrun)
      as (v & q & lx' & f' & tk1 & r1 & ck & r2 & v1 & r3 & kvs & Hf & H1 & H2 & H3 & H4 & -> & Hlx' & Hres).
    eexists _, q, lx', f'. split; [lia|]. split; [|done]. exists ((token_string tk1, v1) :: kvs). split; [by econstructor|]. by rewrite <- app_assoc.
  - destruct (tok_eqb (cur lx) TokRBrace) eqn:E2; [|done]. cbn [negb] in Hrun.
    destruct (reads_expect _ _ _ _ Hp Hlx E2) as (tk & r & Htk & -> & Hr); [done|].
    destruct (read_next r tk e Hr) as (lx2 & Hn2 & Hlx2). rewrite Hn2 in Hrun. cbn [mbind option_bind] in Hrun.
    exists (JObject (ps ++ [(i, v0)])), r, lx2, fuel. split; [lia|]. split; [|done]. exists []. split; [by econstructor|done].
Qed.

Lemma parse_sound fuel : sound_value fuel /\ sound_array fuel /\ sound_object fuel.
Proof using.
  induction fuel as [fuel IH] using lt_wf_ind. split; [|split]; [by apply sound_value_step|by apply sound_array_step|by apply sound_object_step].
Qed.
End grammar.
