(* ===== verification/LiteralParserProps.v ===== *)
(** * LiteralParserProps: JSON.parse accepts the grammar of JSON and gives back what was quoted *)
From S2P Require Import Prelude Utf8 Utf8Facts JSONString LiteralParser LiteralParserFacts LiteralGrammar.
Local Open Scope Z_scope.

(** ** Fuel *)
Section fuel.
Context (wide : bool) (mode : ParserMode).
Local Abbreviation parse_loop := (parse_loop wide mode).

Lemma parse_loop_step fuel F :
  (forall st lx objs v sts ids r, parse_loop fuel st lx objs v sts ids = Some r -> parse_loop F st lx objs v sts ids = Some r) ->
  forall st lx objs v sts ids r, parse_loop (S fuel) st lx objs v sts ids = Some r -> parse_loop (S F) st lx objs v sts ids = Some r.
Proof using.
  intros IH st lx objs v sts ids r. cbn [LiteralParser.parse_loop].
  destruct st; try (by apply IH);
    repeat first
    [ done
    | solve [eauto]
    | match goal with
      | |- context [mbind _ (LiteralParser.next wide mode ?x)] => destruct (LiteralParser.next wide mode x); mstep
      | |- context [mbind _ (put_property mode ?f ?i ?x)] => destruct (put_property mode f i x) as [[?|?]|]; mstep
      | |- context [match ?x with _ => _ end] => is_var x; destruct x
      | |- context [if ?b then _ else _] => destruct b
      | |- context [match scalar ?t with _ => _ end] => destruct (scalar t)
      | |- context [match cur ?l with _ => _ end] => destruct (cur l)
      end ].
Qed.

Lemma parse_loop_mono k fuel st lx objs v sts ids r :
  parse_loop fuel st lx objs v sts ids = Some r -> parse_loop (k + fuel) st lx objs v sts ids = Some r.
Proof using.
  revert st lx objs v sts ids r. induction fuel as [|fuel IH]; intros st lx objs v sts ids r; [done|].
  rewrite Nat.add_succ_r. by apply parse_loop_step.
Qed.
End fuel.

(** ** The texts that are accepted *)

(** The text of a value, white space, and at most one semicolon. *)
Definition accepted (wide : bool) (text : list Z) (v : json) : Prop :=
  exists r, value wide text v r /\ (ends wide r \/ exists tk r', token wide r tk TokSemi r' /\ ends wide r').

Lemma reads_end wide p e lx : is_text p -> reads wide p e lx -> cur lx = TokEnd <-> ends wide p.
Proof.
  intros Hp Hlx. split.
  - intros Hc. destruct (reads_real wide p e lx Hp Hlx ltac:(congruence)) as (tk & r & Hl & ->). unfold cur in Hc. cbn [m_currentToken] in Hc.
    destruct (lex_spec wide StrictJSON p Hp) as (res & rest & Hl' & H). rewrite Hl in Hl'. injection Hl' as <- <-.
    destruct H as [_ [[_ ->]|[Hne _]]]; [|done]. by exists tk.
  - intros (tk & Hl & Ht). by rewrite (reads_token wide _ _ _ _ _ Hlx Hl).
Qed.

(** What [tryLiteralParse] does after [parse]. *)
Lemma finish_spec wide q lx :
  is_text q -> reads wide q None lx ->
  exists lx', (if tok_eqb (cur lx) TokSemi then next wide StrictJSON lx else Some lx) = Some lx' /\
    (cur lx' = TokEnd <-> (ends wide q \/ exists tk r', token wide q tk TokSemi r' /\ ends wide r')).
Proof.
  intros Hq Hlx. destruct (tok_eqb (cur lx) TokSemi) eqn:E.
  - destruct (reads_expect wide _ _ _ _ Hq Hlx E) as (tk & r & Htk & -> & Hr); [done|].
    destruct (read_next wide r tk None Hr) as (lx' & -> & Hlx'). exists lx'. split; [done|]. rewrite (reads_end wide _ _ _ Hr Hlx'). split; [by right; exists tk, r|].
    intros [(tk' & Hl & Ht)|(tk' & r' & (Hl & _) & Hend)].
    + destruct Htk as [Hl' Ht']. rewrite Hl' in Hl. injection Hl as <- _. congruence.
    + destruct Htk as [Hl' _]. rewrite Hl' in Hl. by injection Hl as _ <-.
  - exists lx. split; [done|]. rewrite (reads_end wide _ _ _ Hq Hlx). split; [by left|]. intros [|(tk & r & (Hl & Ht) & _)]; [done|].
    rewrite (reads_token wide _ _ _ _ _ Hlx Hl) in E. unfold cur in E. cbn [m_currentToken] in E. by rewrite Ht in E.
Qed.

Lemma parse_outcome wide text lx :
  is_text text -> reads wide text None lx ->
  exists res lxf, parse wide StrictJSON StartParseExpression lx = Some (res, lxf) /\ lexer_ok lxf /\
  forall v, (res = inr v -> exists r, value wide text v r /\ reads wide r None lxf) /\
    (forall r, value wide text v r -> res = inr v /\ reads wide r None lxf).
Proof.
  intros Htext Hlx. assert (lexer_ok lx) as Hok.
  { destruct (next_spec wide StrictJSON (mkLexer text (plain TokError) None) Htext) as (lx' & H & Hok & _). unfold reads in Hlx. congruence. }
  destruct (parse_loop_total wide StrictJSON (parse_fuel lx) StartParseExpression lx [] JNull [] [] Hok) as (res & lxf & Hrun & Hokf).
  { do 2 constructor. } { unfold weight, parse_fuel. cbn [state_weight]. destruct (at_end (cur lx)); lia. }
  exists res, lxf. split; [exact Hrun|]. split; [done|]. intros v. split.
  - intros ->. destruct (parse_sound wide (parse_fuel lx)) as [Hs _].
    destruct (Hs _ _ _ _ _ _ _ Htext Hlx _ _ Hrun) as (v' & q & lx' & f' & _ & Hv & Hlx' & Hres). injection Hres as -> ->. by exists q.
  - intros r Hv. assert (is_text r) as Hr by (by eapply (proj1 (grammar_text wide))). destruct (reads_total wide r None Hr) as [lx' Hlx'].
    destruct (value_runs wide _ _ _ Hv None lx lx' [] [] JNull Htext Hlx Hlx') as [n Hn]. specialize (Hn (parse_fuel lx) []).
    pose proof (parse_loop_mono wide StrictJSON n _ _ _ _ _ _ _ _ Hrun) as Hm. rewrite Hn in Hm. injection Hm as <- <-. done.
Qed.

Lemma JSON_parse_spec wide text :
  is_text text ->
  exists res parseMessage lexMessage, tryLiteralParse wide StrictJSON text = Some (res, parseMessage, lexMessage) /\
    forall v, res = Some v <-> accepted wide text v.
Proof.
  intros Htext. unfold tryLiteralParse. destruct (reads_total wide text None Htext) as [lx Hlx]. rewrite Hlx. mstep.
  change (mode_eqb StrictJSON StrictJSON) with true. cbv iota. destruct (parse_outcome wide text lx Htext Hlx) as (res & lxf & -> & Hokf & Hv). mstep.
  assert (exists lx', (if tok_eqb (cur lxf) TokSemi then next wide StrictJSON lxf else Some lxf) = Some lx') as [lx' Hnext].
  { destruct (tok_eqb (cur lxf) TokSemi); [|by exists lxf]. destruct (next_spec wide StrictJSON lxf Hokf) as (lx' & H & _). by exists lx'. }
  rewrite Hnext. mstep. eexists _, _, _. split; [done|]. intros v. specialize (Hv v) as [Hv1 Hv2]. split.
  - destruct (tok_eqb (cur lx') TokEnd) eqn:E; [|done]. apply tok_eqb_true in E. cbn [negb]. destruct res as [m|v']; [done|]. intros [= ->].
    destruct Hv1 as (r & Hr & Hlxf); [done|]. exists r. split; [done|]. assert (is_text r) as Htr by (by eapply (proj1 (grammar_text wide))).
    destruct (finish_spec wide r lxf Htr Hlxf) as (lx2 & Hn2 & Hiff). rewrite Hn2 in Hnext. injection Hnext as ->. by apply Hiff.
  - intros (r & Hr & Hend). destruct (Hv2 r Hr) as [-> Hlxf]. assert (is_text r) as Htr by (by eapply (proj1 (grammar_text wide))).
    destruct (finish_spec wide r lxf Htr Hlxf) as (lx2 & Hn2 & Hiff). rewrite Hn2 in Hnext. injection Hnext as ->.
    apply Hiff in Hend. rewrite Hend. by rewrite tok_eqb_refl.
Qed.


(** The grammar of JSON has no semicolon, but JSON.parse accepts one after the value:
    the statement parser of literal scripts shares this function. *)
Theorem JSON_parse_semicolon wide : tryLiteralParse wide StrictJSON [49; 59] = Some (Some (JNumber (FromInt32 1)), None, None).
Proof. destruct wide; vm_compute; reflexivity. Qed.

(** [{"a":[1,null]} ] *)
Definition sample_text : list Z := [32; 123; 34; 97; 34; 58; 91; 49; 44; 110; 117; 108; 108; 93; 125; 32].

