(* ===== verification/JSONRoundtrip.v ===== *)
(** * JSONRoundtrip: what is quoted and printed is read back *)
From S2P Require Import Prelude Utf8 Utf8Facts MathExtras JSONString LiteralParser LiteralParserFacts LiteralGrammar LiteralParserProps.
Local Open Scope Z_scope.

(** ** Reading quoted strings *)
Section read.
Context (wide : bool).
Local Abbreviation safe := (isSafeStringCharacter wide StrictJSON 34).

(** The decoder's result, whatever the fuel. *)
Definition decodes (acc ptr s rest : list Z) : Prop :=
  forall fuel, (length ptr < fuel)%nat -> decode_string wide StrictJSON 34 fuel acc ptr = Some (inr (string_token TokString s), rest).

Lemma decodes_end acc rest : decodes acc (34 :: rest) acc rest.
Proof using. intros [|fuel] H; [lia|]. done. Qed.

Lemma decodes_safe acc c ptr s rest : safe c = true -> decodes (acc ++ [c]) ptr s rest -> decodes acc (c :: ptr) s rest.
Proof using.
  intros Hc H [|fuel] Hf; [lia|]. cbn [decode_string length] in *. destruct (safe_not wide StrictJSON 34 ltac:(lia) c Hc) as [H1 H2].
  rewrite (proj2 (Z.eqb_neq c 34) H2), (proj2 (Z.eqb_neq c 92) H1), Hc. apply H. lia.
Qed.

Lemma decodes_escape acc tail x ptr s rest :
  lexEscape StrictJSON (tail ++ ptr) = inr (x, ptr) -> decodes (acc ++ [x]) ptr s rest -> decodes acc (92 :: tail ++ ptr) s rest.
Proof using.
  intros He H [|fuel] Hf; [lia|]. cbn [decode_string length] in *. change (92 =? 34) with false. change (92 =? 92) with true. cbv iota.
  rewrite He. apply H. rewrite length_app in Hf. lia.
Qed.

(** An escape sequence that is read to its end. *)
Lemma lexEscape_app tail x ptr : lexEscape StrictJSON tail = inr (x, []) -> lexEscape StrictJSON (tail ++ ptr) = inr (x, ptr).
Proof using.
  unfold lexEscape. destruct tail as [|c tail]; [done|]. cbn [app].
  repeat (if_cases; [try done; try (intros [= <- ->]; done)|]); try done.
  destruct tail as [|h1 [|h2 [|h3 [|h4 tail]]]]; try done. cbn [app]. if_cases; [|done]. intros [= <- ->]. done.
Qed.

Lemma safe_spec c : 32 <= c -> c <> 34 -> c <> 92 -> safe c = true.
Proof using.
  intros H1 H2 H3. unfold isSafeStringCharacter. change (mode_eqb StrictJSON StrictJSON) with true.
  rewrite Z_leb_true by lia. rewrite (proj2 (Z.eqb_neq c 92) H3), (proj2 (Z.eqb_neq c 34) H2). by rewrite orb_true_r.
Qed.

(** A check of the pieces that are appended for a character. *)
Definition piece_ok (piece : list Z) (c : Z) : bool :=
  match piece with
  | [] => false
  | x :: [] => (x =? c) && (32 <=? c) && negb (c =? 34) && negb (c =? 92)
  | x :: tail => (x =? 92) && match lexEscape StrictJSON tail with inr (y, []) => y =? c | _ => false end
  end.

Lemma piece_decodes piece c acc ptr s rest :
  piece_ok piece c = true -> decodes (acc ++ [c]) ptr s rest -> decodes acc (piece ++ ptr) s rest.
Proof using.
  intros Hok H. destruct piece as [|x [|y tail]]; [done| |].
  - cbn [piece_ok] in Hok. bool_prop. subst x. cbn [app]. apply decodes_safe; [by apply safe_spec|done].
  - cbn [piece_ok] in Hok. apply andb_true_iff in Hok as [->%Z.eqb_eq Hok]. apply (decodes_escape acc (y :: tail) c); [|done]. apply lexEscape_app.
    destruct (lexEscape StrictJSON (y :: tail)) as [e|[z [|w l]]]; [done| |done]. by apply Z.eqb_eq in Hok as ->.
Qed.

Lemma latin1_ok c : 0 <= c <= 255 -> piece_ok (quote_latin1 c) c = true.
Proof using.
  intros Hc. assert (forallb (fun c => piece_ok (quote_latin1 c) c) (seqZ 0 256) = true) as H by (vm_compute; reflexivity).
  exact (forallb_seqZ _ _ _ c H ltac:(lia)).
Qed.

Lemma unit_ok c : 0xd800 <= c <= 0xdfff -> piece_ok (quote_unit c) c = true.
Proof using.
  intros Hc. assert (forallb (fun c => piece_ok (quote_unit c) c) (seqZ 0xd800 2048) = true) as H by (vm_compute; reflexivity).
  exact (forallb_seqZ _ _ _ c H ltac:(lia)).
Qed.

(** Lists of code units, two of which may be taken at once. *)
Lemma pairs_ind (P : list Z -> Prop) :
  P [] -> (forall c l, P l -> (forall d l', l = d :: l' -> P l') -> P (c :: l)) -> forall l, P l.
Proof using.
  intros H0 Hc l. enough (P l /\ forall d l', l = d :: l' -> P l') by tauto. induction l as [|c l [IH IH']]; [done|].
  split; [by apply Hc|]. intros d l' [= -> ->]. done.
Qed.

Definition is_units (s : list Z) : Prop := Forall (fun c => 0 <= c < 2 ^ 16) s.

Lemma quoted_decodes s : is_units s -> forall acc rest, decodes acc (appendQuotedJSONStringInternal s ++ 34 :: rest) (acc ++ s) rest.
Proof using.
  induction s as [|c s IH IH'] using pairs_ind; intros Hs acc rest; [rewrite (app_nil_r acc); apply decodes_end|].
  apply Forall_cons in Hs as [Hc Hs]. assert (acc ++ c :: s = (acc ++ [c]) ++ s) as Hacc by (by rewrite <- app_assoc). cbn [appendQuotedJSONStringInternal].
  destruct (c <=? 0xFF) eqn:E1; bool_prop.
  { rewrite <- app_assoc, Hacc. apply (piece_decodes _ c); [apply latin1_ok; lia|]. by apply IH. }
  assert (safe c = true) as Hsafe by (apply safe_spec; lia).
  destruct (U16_IS_SURROGATE c) eqn:E2; cbn [negb].
  2: { cbn [app]. rewrite Hacc. apply decodes_safe; [done|]. by apply IH. }
  apply U_IS_SURROGATE_spec in E2; [|lia]. unfold surrogate in E2.
  destruct s as [|d s].
  { apply (piece_decodes _ c); [apply unit_ok; lia|]. apply decodes_end. }
  apply Forall_cons in Hs as [Hd Hs]. destruct (U16_IS_SURROGATE_LEAD c && U16_IS_TRAIL d) eqn:E3.
  - apply andb_true_iff in E3 as [_ Ht]. cbn [app]. apply decodes_safe; [done|]. apply decodes_safe.
    + apply safe_spec; [|intros ->; done|intros ->; done]. destruct (decide (32 <= d)); [done|]. exfalso. unfold U16_IS_TRAIL in Ht.
      change 0xfffffc00 with (Z.shiftl (2 ^ 22 - 1) 10) in Ht. rewrite Z_land_field in Ht by lia. rewrite (Z.div_small d) in Ht by lia. done.
    + replace (acc ++ c :: d :: s) with (((acc ++ [c]) ++ [d]) ++ s) by (by rewrite <- !app_assoc). by apply (IH' d s).
  - rewrite <- app_assoc, Hacc. apply (piece_decodes _ c); [apply unit_ok; lia|]. apply IH. by constructor.
Qed.
End read.

(** ** The buffer *)

(** A UTF-16 string without unpaired surrogates. *)
Fixpoint well_formed_utf16 (s : list Z) : bool :=
  match s with
  | [] => true
  | c :: s =>
      if U16_IS_SURROGATE c then
        match s with d :: s => U16_IS_SURROGATE_LEAD c && U16_IS_TRAIL d && well_formed_utf16 s | [] => false end
      else well_formed_utf16 s
  end.

(** Printable and without surrogates, as every piece for a single unit is. *)
Definition piece_plain (piece : list Z) : bool := forallb (fun x => (32 <=? x) && (x <=? 255)) piece && (zlen piece <=? 6).

Lemma latin1_plain c : 0 <= c <= 255 -> piece_plain (quote_latin1 c) = true.
Proof.
  intros Hc. assert (forallb (fun c => piece_plain (quote_latin1 c)) (seqZ 0 256) = true) as H by (vm_compute; reflexivity).
  exact (forallb_seqZ _ _ _ c H ltac:(lia)).
Qed.

Lemma unit_plain c : 0xd800 <= c <= 0xdfff -> piece_plain (quote_unit c) = true.
Proof.
  intros Hc. assert (forallb (fun c => piece_plain (quote_unit c)) (seqZ 0xd800 2048) = true) as H by (vm_compute; reflexivity).
  exact (forallb_seqZ _ _ _ c H ltac:(lia)).
Qed.

(** What quoting promises of its output. *)
Record quoted_ok (out : list Z) (n : Z) : Prop := {
  quoted_printable : Forall (fun x => 32 <= x < 2 ^ 16) out;
  quoted_well_formed : forall rest, well_formed_utf16 rest = true -> well_formed_utf16 (out ++ rest) = true;
  quoted_length : zlen out <= 6 * n
}.

Lemma not_surrogate x : 0 <= x < 0xd800 -> U16_IS_SURROGATE x = false.
Proof. intros Hx. apply not_true_is_false. intros H%U_IS_SURROGATE_spec; [|lia]. unfold surrogate in H. lia. Qed.

Lemma piece_quoted piece out n : piece_plain piece = true -> quoted_ok out n -> quoted_ok (piece ++ out) (1 + n).
Proof.
  unfold piece_plain. intros [Hp Hl]%andb_true_iff [H1 H2 H3]. bool_prop. rewrite forallb_forall in Hp.
  assert (Forall (fun x => 32 <= x <= 255) piece) as Hf.
  { apply Forall_forall. intros x Hx%list_elem_of_In. specialize (Hp x Hx). bool_prop. lia. }
  split.
  - apply Forall_app. split; [|done]. eapply Forall_impl; [exact Hf|]. cbn. lia.
  - intros rest Hr. rewrite <- app_assoc. clear Hp Hl. induction Hf as [|x piece Hx _ IH]; [by apply H2|].
    cbn [app well_formed_utf16]. by rewrite not_surrogate by lia.
  - zlia.
Qed.

Lemma quote_ok s : is_units s -> quoted_ok (appendQuotedJSONStringInternal s) (zlen s).
Proof.
  induction s as [|c s IH IH'] using pairs_ind; intros Hs; [by split|].
  apply Forall_cons in Hs as [Hc Hs]. cbn [appendQuotedJSONStringInternal]. rewrite zlen_cons. destruct (c <=? 0xFF) eqn:E1; bool_prop.
  { apply piece_quoted; [apply latin1_plain; lia|by apply IH]. }
  destruct (U16_IS_SURROGATE c) eqn:E2; cbn [negb].
  2: { destruct (IH Hs) as [H1 H2 H3]. split; [constructor; [lia|done]| |zlia].
       intros rest Hr. cbn [app well_formed_utf16]. rewrite E2. by apply H2. }
  pose proof E2 as Hsur. apply U_IS_SURROGATE_spec in Hsur; [|lia]. unfold surrogate in Hsur.
  destruct s as [|d s].
  { rewrite <- (app_nil_r (quote_unit c)). apply piece_quoted; [apply unit_plain; lia|]. by split. }
  destruct (U16_IS_SURROGATE_LEAD c && U16_IS_TRAIL d) eqn:E3; [|apply piece_quoted; [apply unit_plain; lia|by apply IH]].
  apply Forall_cons in Hs as [Hd Hs]. destruct (IH' d s eq_refl Hs) as [H1 H2 H3]. split.
  - constructor; [lia|]. constructor; [|done]. apply andb_true_iff in E3 as [_ Ht]. unfold U16_IS_TRAIL in Ht.
    destruct (decide (32 <= d)); [lia|]. exfalso. change 0xfffffc00 with (Z.shiftl (2 ^ 22 - 1) 10) in Ht. rewrite Z_land_field in Ht by lia.
    rewrite (Z.div_small d) in Ht by lia. done.
  - intros rest Hr. cbn [app well_formed_utf16]. rewrite E2, E3. by apply H2.
  - zlia.
Qed.

(** C37: quoting a string for JSON writes within the buffer that was reserved, whose size does not overflow,
    or reports an overflow; the output has no control characters and no unpaired surrogates, whatever the string has. *)
Theorem JSON_quote_fits chars s :
  is_units s ->
  match appendQuotedJSONString (Some chars) s with
  | None => quotedAllocationSize (zlen chars) (zlen s) = None
  | Some out => exists size quoted, quotedAllocationSize (zlen chars) (zlen s) = Some size /\ zlen out <= size <= MaxLength /\
      out = chars ++ quoted /\ Forall (fun x => 32 <= x < 2 ^ 16) quoted /\ well_formed_utf16 quoted = true
  end.
Proof.
  intros Hs. unfold appendQuotedJSONString. cbn [mbind option_bind]. destruct (quotedAllocationSize _ _) as [size|] eqn:Ea; [|done]. mstep.
  destruct (quote_ok s Hs) as [H1 H2 H3]. exists size, ([34] ++ appendQuotedJSONStringInternal s ++ [34]). split; [done|].
  assert (zlen (chars ++ [34] ++ appendQuotedJSONStringInternal s ++ [34]) <= zlen chars + (2 + zlen s * 6)) by zlia.
  unfold quotedAllocationSize in Ea. destruct (_ || _); [done|]. destruct (_ >? MaxLength) eqn:E; [done|]. injection Ea as <-. bool_prop.
  split; [lia|]. split; [done|]. split.
  - cbn [app]. constructor; [lia|]. apply Forall_app. split; [done|]. constructor; [lia|constructor].
  - cbn [app well_formed_utf16]. rewrite not_surrogate by lia. by apply H2.
Qed.

(** ** Printing *)
Fixpoint digits_of (fuel : nat) (n : Z) : list Z :=
  match fuel with
  | O => []
  | S fuel => if n <? 10 then [48 + n] else digits_of fuel (n / 10) ++ [48 + n mod 10]
  end.

Definition print_number (n : number) : list Z :=
  match n with
  | FromInt32 n => if n <? 0 then 45 :: digits_of 9 (- n) else digits_of 9 n
  | MinusZero => [45; 48]
  | ParsedDouble text => text
  end.

Definition quote (s : list Z) : list Z := default [] (appendQuotedJSONString (Some []) s).

Fixpoint print (v : json) : list Z :=
  match v with
  | JNull => [110; 117; 108; 108]
  | JBool true => [116; 114; 117; 101]
  | JBool false => [102; 97; 108; 115; 101]
  | JNumber n => print_number n
  | JString s => quote s
  | JArray [] => [91; 93]
  | JArray (e :: es) => 91 :: print e ++ flat_map (fun x => 44 :: print x) es ++ [93]
  | JObject [] => [123; 125]
  | JObject ((k, v) :: kvs) =>
      123 :: quote k ++ 58 :: print v ++ flat_map (fun kv => 44 :: quote (fst kv) ++ 58 :: print (snd kv)) kvs ++ [125]
  end.

(** Strings whose quoted form fits a buffer, and numbers that are printed without [parseDouble]. *)
Definition quotable (s : list Z) : Prop := is_units s /\ zlen s < 2 ^ 27.
Definition int_number (n : number) : Prop :=
  match n with FromInt32 n => - 10 ^ 8 < n < 10 ^ 9 | MinusZero => True | ParsedDouble _ => False end.

Fixpoint printable (v : json) : Prop :=
  match v with
  | JNull | JBool _ => True
  | JNumber n => int_number n
  | JString s => quotable s
  | JArray es => (fix all (l : list json) := match l with [] => True | x :: l => printable x /\ all l end) es
  | JObject kvs => (fix all (l : list (list Z * json)) := match l with [] => True | (k, x) :: l => quotable k /\ printable x /\ all l end) kvs
  end.

(** Induction on values. *)
Lemma json_induction (P : json -> Prop) :
  P JNull -> (forall b, P (JBool b)) -> (forall n, P (JNumber n)) -> (forall s, P (JString s)) ->
  (forall es, Forall P es -> P (JArray es)) -> (forall kvs, Forall (fun kv => P (snd kv)) kvs -> P (JObject kvs)) -> forall v, P v.
Proof.
  intros H1 H2 H3 H4 H5 H6. fix IH 1. intros [| | | |es|kvs]; [done|auto..| |].
  - apply H5. induction es; constructor; [apply IH|done].
  - apply H6. induction kvs as [|[k v] kvs IHk]; constructor; [apply IH|done].
Qed.

Lemma printable_array es : printable (JArray es) <-> Forall printable es.
Proof. induction es as [|e es IH]; [done|]. rewrite Forall_cons, <- IH. done. Qed.

Lemma printable_object kvs : printable (JObject kvs) <-> Forall (fun kv => quotable (fst kv) /\ printable (snd kv)) kvs.
Proof. induction kvs as [|[k v] kvs IH]; [done|]. rewrite Forall_cons, <- IH. cbn. tauto. Qed.

(** *** Tokens of the printed text *)
Lemma quote_size n : 0 <= n < 2 ^ 27 -> exists size, quotedAllocationSize 0 n = Some size.
Proof.
  intros Hn. unfold quotedAllocationSize. rewrite !Z.geb_leb, !Z_leb_false by lia. cbn [orb].
  destruct (roundUpToPowerOfTwo_spec (0 + (2 + n * 6))) as (p & Hp & -> & H1 & H2); [lia|].
  assert (2 ^ p < 2 ^ 31) by (apply Z.pow_lt_mono_r; [lia|lia|]; destruct (decide (p < 31)); [done|]; assert (2 ^ 31 <= 2 ^ p) by (apply Z.pow_le_mono_r; lia); lia).
  rewrite Z.gtb_ltb, Z_ltb_false by (unfold MaxLength; lia). by eexists.
Qed.

Lemma quote_eq s : quotable s -> quote s = 34 :: appendQuotedJSONStringInternal s ++ [34].
Proof.
  intros [_ Hl]. unfold quote, appendQuotedJSONString. cbn [mbind option_bind]. change (zlen (@nil Z)) with 0.
  destruct (quote_size (zlen s)) as [size ->]; [zlia|]. done.
Qed.

Lemma lex_quote wide s rest : quotable s -> lex wide StrictJSON (quote s ++ rest) = Some (inr (string_token TokString s), rest).
Proof.
  intros Hs. rewrite quote_eq by done. rewrite <- app_comm_cons, <- app_assoc. cbn [app].
  change (lex wide StrictJSON (34 :: appendQuotedJSONStringInternal s ++ 34 :: rest))
    with (lexString wide StrictJSON (34 :: appendQuotedJSONStringInternal s ++ 34 :: rest) 34).
  rewrite lexString_spec by (done || lia). apply quoted_decodes; [apply Hs|]. cbn [length drop]. lia.
Qed.

(** *** Numbers *)
Definition dec_value (ds : list Z) : Z := fold_left (fun r d => r * 10 + (d - 48)) ds 0.

Lemma digits_spec fuel : forall n k, (0 < k <= fuel)%nat -> 0 <= n < 10 ^ Z.of_nat k ->
  dec_value (digits_of fuel n) = n /\ Forall (fun d => isASCIIDigit d = true) (digits_of fuel n) /\ 1 <= zlen (digits_of fuel n) <= Z.of_nat k /\
  (n <> 0 -> exists d ds, digits_of fuel n = d :: ds /\ 49 <= d <= 57).
Proof.
  induction fuel as [|fuel IH]; intros n k Hk Hn; [lia|]. cbn [digits_of]. destruct (n <? 10) eqn:E; bool_prop.
  - split; [unfold dec_value; cbn [fold_left]; lia|]. split; [constructor; [|constructor]; unfold isASCIIDigit; rewrite !Z_leb_true by lia; done|].
    split; [zlia|]. intros H0. exists (48 + n), []. split; [done|lia].
  - destruct k as [|[|k]]; [lia|change (10 ^ Z.of_nat 1) with 10 in Hn; lia|].
    assert (0 <= n mod 10 < 10) by (apply Z.mod_pos_bound; lia).
    destruct (IH (n / 10) (S k)) as (Hv & Hd & Hl & Hf); [lia| |].
    { replace (Z.of_nat (S (S k))) with (1 + Z.of_nat (S k)) in Hn by lia. rewrite Z.pow_add_r in Hn by lia. change (10 ^ 1) with 10 in Hn.
      Z.to_euclidean_division_equations; lia. }
    split; [|split; [|split]].
    + unfold dec_value in *. rewrite fold_left_app, Hv. cbn [fold_left]. Z.to_euclidean_division_equations; lia.
    + apply Forall_app. split; [done|]. constructor; [|constructor]. unfold isASCIIDigit. rewrite !Z_leb_true by lia. done.
    + zlia.
    + intros _. destruct Hf as (d & ds & -> & Hd'); [Z.to_euclidean_division_equations; lia|]. by exists d, (ds ++ [48 + n mod 10]).
Qed.

Lemma accumulate_value ds : forall r k, Forall (fun d => isASCIIDigit d = true) ds -> 0 <= r < 10 ^ k -> 0 <= k -> k + zlen ds <= 9 ->
  accumulate r ds = Some (fold_left (fun r d => r * 10 + (d - 48)) ds r).
Proof.
  induction ds as [|d ds IH]; intros r k Hds Hr Hk Hlen; [done|]. apply Forall_cons in Hds as [Hd Hds].
  unfold isASCIIDigit in Hd. bool_prop. cbn [accumulate fold_left]. rewrite zlen_cons in Hlen. pose proof (zlen_nonneg ds).
  assert (10 ^ k <= 10 ^ 8) by (apply Z.pow_le_mono_r; lia). assert (10 ^ 8 = 100000000) by done.
  rewrite (chk32_ok (r * 10)) by lia. mstep. rewrite (chk32_ok (r * 10 + d)) by lia. mstep. rewrite (chk32_ok (r * 10 + d - 48)) by lia. mstep.
  rewrite (IH _ (k + 1)); [f_equal; f_equal; lia|done| |lia|lia]. rewrite Z.pow_add_r by lia. lia.
Qed.

(** A character that ends a number. *)
Definition follows (c : Z) : bool := (c =? 44) || (c =? 93) || (c =? 125) || (c =? 10).

Lemma follows_cases c : follows c = true -> c = 44 \/ c = 93 \/ c = 125 \/ c = 10.
Proof. unfold follows. intros H. bool_prop. destruct H as [H|H]; [bool_prop; destruct H as [H|H]; [bool_prop; destruct H as [H|H]; bool_prop|]|]; bool_prop; auto. Qed.

Lemma lexInteger_digits n c rest : 0 <= n < 10 ^ 9 -> follows c = true -> lexInteger (digits_of 9 n ++ c :: rest) = Some (digits_of 9 n, c :: rest).
Proof.
  intros Hn Hc. destruct (digits_spec 9 n 9 ltac:(lia) Hn) as (_ & Hd & _ & Hf). destruct (decide (n = 0)) as [->|Hn0].
  { done. }
  destruct (Hf Hn0) as (d & ds & Hds & Hrange). rewrite Hds in *. cbn [app lexInteger]. rewrite (proj2 (Z.eqb_neq d 48)) by lia.
  rewrite !Z_leb_true by lia. cbn [andb]. apply Forall_cons in Hd as [_ Hd]. rewrite scan_all; [done|done|].
  destruct (follows_cases c Hc) as [-> | [-> | [-> | ->]]]; done.
Qed.

Lemma lexNumber_digits minus n c rest :
  follows c = true -> (minus = [] /\ 0 <= n < 10 ^ 9) \/ (minus = [45] /\ 0 <= n < 10 ^ 8) ->
  lexNumber (minus ++ digits_of 9 n ++ c :: rest) =
  Some (inr (number_token (if bool_decide (minus = []) then FromInt32 n else if n =? 0 then MinusZero else FromInt32 (- n))), c :: rest).
Proof.
  intros Hc Hcase. assert (0 <= n < 10 ^ 9) as Hn by (destruct Hcase as [[_ ?]|[_ ?]]; lia).
  destruct (digits_spec 9 n 9 ltac:(lia) Hn) as (Hv & Hd & Hl & _).
  assert (zlen (minus ++ digits_of 9 n) <= 9) as Hlen.
  { destruct Hcase as [[-> _]|[-> H8]]; [exact (proj2 Hl)|]. destruct (digits_spec 9 n 8 ltac:(lia) H8) as (_ & _ & Hl8 & _). zlia. }
  assert (at_char (minus ++ digits_of 9 n ++ c :: rest) 45 = negb (bool_decide (minus = []))) as Hneg.
  { destruct Hcase as [[-> _]|[-> _]]; [|done]. cbn [app]. destruct (digits_of 9 n) as [|d ds]; [zlia|]. cbn [app at_char].
    apply Forall_cons in Hd as [Hd _]. unfold isASCIIDigit in Hd. bool_prop. apply Z.eqb_neq. lia. }
  unfold lexNumber. rewrite Hneg.
  assert ((if negb (bool_decide (minus = [])) then take 1 (minus ++ digits_of 9 n ++ c :: rest) else []) = minus) as ->
    by (by destruct Hcase as [[-> _]|[-> _]]).
  rewrite drop_app_length, lexInteger_digits by done. cbv beta iota.
  assert (at_char (c :: rest) 46 = false /\ at_exponent (c :: rest) = false) as [-> ->]
    by (unfold at_exponent; destruct (follows_cases c Hc) as [-> | [-> | [-> | ->]]]; done).
  rewrite bool_decide_false by done. cbn [negb andb]. rewrite Z_leb_true by (unfold NumberOfDigitsForSafeInt32; lia).
  rewrite (accumulate_value _ 0 0) by (done || lia). mstep. fold (dec_value (digits_of 9 n)). rewrite Hv, negb_involutive. done.
Qed.

Lemma lex_number_start wide c p : c = 45 \/ isASCIIDigit c = true -> lex wide StrictJSON (c :: p) = lexNumber (c :: p).
Proof.
  intros Hc. assert (c = 45 \/ c = 48 \/ c = 49 \/ c = 50 \/ c = 51 \/ c = 52 \/ c = 53 \/ c = 54 \/ c = 55 \/ c = 56 \/ c = 57) as H.
  { destruct Hc as [|Hc]; [by left|]. unfold isASCIIDigit in Hc. bool_prop. lia. }
  destruct H as [->|[->|[->|[->|[->|[->|[->|[->|[->|[->| ->]]]]]]]]]]; reflexivity.
Qed.

Lemma lex_print_number wide n c rest :
  int_number n -> follows c = true -> lex wide StrictJSON (print_number n ++ c :: rest) = Some (inr (number_token n), c :: rest).
Proof.
  intros Hn Hc. destruct n as [n| |text]; cbn [print_number int_number] in *; [|exact (eq_trans (lex_number_start wide 45 (48 :: c :: rest) ltac:(auto)) (lexNumber_digits [45] 0 c rest Hc ltac:(right; split; [done|lia])))|done].
  destruct (n <? 0) eqn:E; bool_prop.
  - change ((45 :: digits_of 9 (- n)) ++ c :: rest) with (45 :: digits_of 9 (- n) ++ c :: rest). rewrite lex_number_start by auto.
    change (45 :: digits_of 9 (- n) ++ c :: rest) with ([45] ++ digits_of 9 (- n) ++ c :: rest).
    rewrite (lexNumber_digits [45] (- n) c rest) by (done || (right; split; [done|lia])). rewrite bool_decide_false by done.
    rewrite (proj2 (Z.eqb_neq (- n) 0)) by lia. by rewrite Z.opp_involutive.
  - destruct (digits_spec 9 n 9 ltac:(lia) ltac:(lia)) as (_ & Hd & Hl & _).
    destruct (digits_of 9 n) as [|d ds] eqn:Ed; [zlia|]. cbn [app]. apply Forall_cons in Hd as [Hd _]. rewrite lex_number_start by auto.
    change (d :: ds ++ c :: rest) with ([] ++ (d :: ds) ++ c :: rest). rewrite <- Ed. rewrite (lexNumber_digits [] n c rest) by (done || (left; split; [done|lia])). done.
Qed.

(** *** Values *)
Section print.
Context (wide : bool).

Definition prints (v : json) : Prop := printable v -> forall c rest, follows c = true -> value wide (print v ++ c :: rest) v (c :: rest).

Lemma punctuation c t rest :
  (c, t) ∈ [(91, TokLBracket); (93, TokRBracket); (123, TokLBrace); (125, TokRBrace); (44, TokComma); (58, TokColon)] ->
  token wide (c :: rest) (plain t) t rest.
Proof using.
  intros H. split; [|done]. apply list_elem_of_In in H. destruct H as [H|[H|[H|[H|[H|[H|[]]]]]]]; injection H as <- <-; reflexivity.
Qed.

Lemma array_tail_print es rest :
  Forall prints es -> Forall printable es -> array_tail wide (flat_map (fun x => 44 :: print x) es ++ 93 :: rest) es rest.
Proof using.
  intros Hes. induction Hes as [|e es He Hes IH]; intros Hp; cbn [flat_map].
  { cbn [app]. eapply array_last, punctuation. set_solver. }
  apply Forall_cons in Hp as [Hpe Hp]. cbn [app]. rewrite <- app_assoc.
  assert (exists c l, flat_map (fun x => 44 :: print x) es ++ 93 :: rest = c :: l /\ follows c = true) as (c & l & Hcl & Hc).
  { destruct es; cbn [flat_map app]; by eexists _, _. }
  eapply array_next; [apply punctuation; set_solver| |by apply IH]. rewrite Hcl. by apply He.
Qed.

Lemma object_tail_print kvs rest :
  Forall (fun kv => prints (snd kv)) kvs -> Forall (fun kv => quotable (fst kv) /\ printable (snd kv)) kvs ->
  object_tail wide (flat_map (fun kv => 44 :: quote (fst kv) ++ 58 :: print (snd kv)) kvs ++ 125 :: rest) kvs rest.
Proof using.
  intros Hkvs. induction Hkvs as [|[k v] kvs Hv Hkvs IH]; intros Hp; cbn [flat_map].
  { cbn [app]. eapply object_last, punctuation. set_solver. }
  apply Forall_cons in Hp as [[Hk Hpv] Hp]. cbn [fst snd] in *.
  assert (exists c l, flat_map (fun kv => 44 :: quote (fst kv) ++ 58 :: print (snd kv)) kvs ++ 125 :: rest = c :: l /\ follows c = true) as (c & l & Hcl & Hc).
  { destruct kvs; cbn [flat_map app]; by eexists _, _. }
  rewrite <- app_assoc. cbn [app]. rewrite <- app_assoc. cbn [app]. specialize (IH Hp). rewrite Hcl in *.
  eapply (object_next wide _ _ _ (string_token TokString k)); [apply punctuation; set_solver|split; [by apply lex_quote|done]|apply punctuation; set_solver|by apply Hv|done].
Qed.

Lemma value_print v : prints v.
Proof using.
  induction v as [|b|n|s|es IH|kvs IH] using json_induction; intros Hp c rest Hc.
  - eapply value_scalar; reflexivity.
  - destruct b; eapply value_scalar; reflexivity.
  - eapply value_scalar; [by apply lex_print_number|done].
  - eapply value_scalar; [by apply lex_quote|done].
  - apply printable_array in Hp. destruct es as [|e es]; cbn [print app].
    { eapply value_array; [apply punctuation; set_solver|]. eapply array_empty, punctuation. set_solver. }
    apply Forall_cons in IH as [IHe IH]. apply Forall_cons in Hp as [Hpe Hp]. rewrite <- !app_assoc. cbn [app].
    eapply value_array; [apply punctuation; set_solver|]. pose proof (array_tail_print es (c :: rest) IH Hp) as Ht.
    eapply array_first; [|exact Ht]. destruct es; cbn [flat_map app]; by apply IHe.
  - apply printable_object in Hp. destruct kvs as [|[k v] kvs]; cbn [print app].
    { eapply value_object; [apply punctuation; set_solver|]. eapply object_empty, punctuation. set_solver. }
    apply Forall_cons in IH as [IHv IH]. apply Forall_cons in Hp as [[Hk Hpv] Hp]. cbn [fst snd] in *.
    rewrite <- app_assoc. cbn [app]. rewrite <- !app_assoc. cbn [app].
    eapply value_object; [apply punctuation; set_solver|]. pose proof (object_tail_print kvs (c :: rest) IH Hp) as Ht.
    eapply (object_first wide _ (string_token TokString k)); [split; [by apply lex_quote|done]|apply punctuation; set_solver| |exact Ht].
    destruct kvs; cbn [flat_map app]; by apply IHv.
Qed.
End print.

Lemma quote_text s : quotable s -> is_text (quote s).
Proof.
  intros Hs. rewrite quote_eq by done. constructor; [lia|]. apply Forall_app. split; [|constructor; [lia|constructor]].
  destruct (quote_ok s (proj1 Hs)) as [H _ _]. eapply Forall_impl; [exact H|]. cbn. lia.
Qed.

Lemma digits_text fuel n : Forall (fun d => isASCIIDigit d = true) (digits_of fuel n) -> is_text (digits_of fuel n).
Proof. intros H. eapply Forall_impl; [exact H|]. unfold isASCIIDigit. cbn. intros x Hx. bool_prop. lia. Qed.

Lemma print_text v : printable v -> is_text (print v).
Proof.
  assert (forall l, forallb (fun c => 0 <=? c) l = true -> is_text l) as Hb.
  { intros l H. rewrite forallb_forall in H. apply Forall_forall. intros x Hx%list_elem_of_In. by apply Z.leb_le, H. }
  induction v as [|b|n|s|es IH|kvs IH] using json_induction; intros Hp.
  - by apply Hb.
  - destruct b; by apply Hb.
  - destruct n as [n| |text]; cbn [print print_number printable int_number] in *; [|by apply Hb|done].
    destruct (n <? 0) eqn:E; bool_prop; [constructor; [lia|]|]; apply digits_text; eapply (digits_spec 9 _ 9); lia.
  - by apply quote_text.
  - apply printable_array in Hp. destruct es as [|e es]; [by apply Hb|]. apply Forall_cons in IH as [IHe IH]. apply Forall_cons in Hp as [Hpe Hp].
    cbn [print]. constructor; [lia|]. apply Forall_app. split; [by apply IHe|]. apply Forall_app. split; [|by apply Hb].
    clear IHe. induction es as [|x es IHes]; cbn [flat_map]; [constructor|]. apply Forall_cons in IH as [IHx IH]. apply Forall_cons in Hp as [Hx Hp].
    cbn [app]. constructor; [lia|]. apply Forall_app. split; [by apply IHx|by apply IHes].
  - apply printable_object in Hp. destruct kvs as [|[k v] kvs]; [by apply Hb|]. apply Forall_cons in IH as [IHv IH]. apply Forall_cons in Hp as [[Hk Hpv] Hp].
    cbn [print fst snd] in *. constructor; [lia|]. apply Forall_app. split; [by apply quote_text|]. constructor; [lia|]. apply Forall_app. split; [by apply IHv|].
    apply Forall_app. split; [|by apply Hb]. clear IHv. induction kvs as [|[k' v'] kvs IHk]; cbn [flat_map]; [constructor|].
    apply Forall_cons in IH as [IHx IH]. apply Forall_cons in Hp as [[Hk' Hx] Hp]. cbn [fst snd app] in *. constructor; [lia|].
    apply Forall_app. split; [|by apply IHk]. apply Forall_app. split; [by apply quote_text|]. constructor; [lia|]. by apply IHx.
Qed.


(** ** Witnesses *)

(** A lone surrogate, a control character, a quote, a backslash and a surrogate pair. *)
Definition sample_string : list Z := [0xd800; 65; 1; 34; 92; 0xd83d; 0xde00; 0x3b1].

Definition sample_value : json :=
  JObject [(sample_string, JArray [JNumber (FromInt32 (-12)); JNumber MinusZero; JArray []; JObject []]); ([], JString sample_string); ([97], JBool true)].

Lemma sample_printable : printable sample_value.
Proof.
  assert (quotable sample_string /\ quotable [] /\ quotable [97]) as (H1 & H2 & H3).
  { unfold quotable, is_units. split; [|split]; (split; [repeat constructor; lia|vm_compute; reflexivity]). }
  cbn. repeat split; try done; try lia; apply H1 || apply H2 || apply H3.
Qed.


Lemma JSON_quote_fits_witness :
  exists size quoted, quotedAllocationSize 1 8 = Some size /\ zlen ([44] ++ quoted) <= size <= MaxLength /\
    appendQuotedJSONString (Some [44]) sample_string = Some ([44] ++ quoted) /\
    Forall (fun x => 32 <= x < 2 ^ 16) quoted /\ well_formed_utf16 quoted = true.
Proof.
  assert (is_units sample_string) as Hs by (repeat constructor; lia). pose proof (JSON_quote_fits [44] sample_string Hs) as H.
  destruct (appendQuotedJSONString (Some [44]) sample_string) as [out|] eqn:E; [|discriminate E].
  destruct H as (size & quoted & H1 & H2 & -> & H4 & H5). exists size, quoted. auto.
Defined.
