(* ===== verification/BigInt.v ===== *)
(** * BigInt: the arbitrary-precision integers of the engine
      (src/Source/JavaScriptCore/runtime/JSBigInt.h, JSBigInt.cpp)

    A [JSBigInt] is a sign and its digits, the least significant one first.  A digit is an unsigned integer of
    [digitBits] bits.  [Fault] is a failed assertion or an access outside of the digits, [Throw] an exception of the
    language.  The contents of fresh memory is a parameter of the configuration. *)
From S2P Require Import Prelude Doubles.
Local Open Scope Z_scope.

(** ** Results *)
Inductive exception : Type := OutOfMemoryError | DivisionByZero | TooBig | SyntaxError.
Inductive res (A : Type) : Type := Ok (a : A) | Throw (e : exception) | Fault.
Arguments Ok {A} a.
Arguments Throw {A} e.
Arguments Fault {A}.

#[export] Instance res_ret : MRet res := fun A a => Ok a.
#[export] Instance res_bind : MBind res := fun A B f m => match m with Ok a => f a | Throw e => Throw e | Fault => Fault end.

Definition ASSERT (b : bool) : res unit := if b then Ok tt else Fault.

(** ** Loops *)
(** [for (i; n times; i++)] and [for (i; n times; i--)]. *)
Fixpoint for_up {S} (n : nat) (i : Z) (body : Z -> S -> res S) (s : S) : res S :=
  match n with O => Ok s | Datatypes.S n => s' ← body i s; for_up n (i + 1) body s' end.
Fixpoint for_down {S} (n : nat) (i : Z) (body : Z -> S -> res S) (s : S) : res S :=
  match n with O => Ok s | Datatypes.S n => s' ← body i s; for_down n (i - 1) body s' end.
Definition for_range {S} (lo hi : Z) (body : Z -> S -> res S) (s : S) : res S := for_up (Z.to_nat (hi - lo)) lo body s.
Definition for_range_down {S} (hi lo : Z) (body : Z -> S -> res S) (s : S) : res S := for_down (Z.to_nat (hi - lo + 1)) hi body s.

(** [while (test s) s = body s]; running out of fuel is a [Fault]. *)
Fixpoint while {S} (fuel : nat) (test : S -> res bool) (body : S -> res S) (s : S) : res S :=
  match fuel with
  | O => Fault
  | Datatypes.S fuel => b ← test s; if b : bool then s' ← body s; while fuel test body s' else Ok s
  end.

(** ** The configuration *)
Class DigitConfig : Type := {
  digitBits : Z;
  digitBits_ok : digitBits = 32 \/ digitBits = 64;
  (** A type for two digits, and an instruction that divides two digits by one, are not available everywhere. *)
  have_two_digit : bool;
  have_div_instruction : bool;
  (** What fresh memory for some digits, or characters, holds. *)
  fresh_digits : Z -> list Z;
  fresh_digits_ok n : 0 <= n -> zlen (fresh_digits n) = n /\ Forall (fun d => 0 <= d < 2 ^ digitBits) (fresh_digits n);
  fresh_chars : Z -> list Z;
  fresh_chars_ok n : 0 <= n -> zlen (fresh_chars n) = n
}.

Section bigint.
Context `{DigitConfig}.

Definition Digit (x : Z) : Z := x mod 2 ^ digitBits.
Definition halfDigitBits : Z := digitBits / 2.
Definition halfDigitMask : Z := Z.shiftl 1 halfDigitBits - 1.
Definition maxInt : Z := 0x7FFFFFFF.
Definition maxLength : Z := 1024 * 1024 / digitBits.
Definition maxLengthBits : Z := maxInt - digitBits - 1.

Record JSBigInt : Type := mkBigInt { sign : bool; digits : list Z }.

Definition m_length (x : JSBigInt) : Z := zlen (digits x).
Definition setSign (x : JSBigInt) (s : bool) : JSBigInt := mkBigInt s (digits x).
Definition digit (x : JSBigInt) (n : Z) : res Z := match zget (digits x) n with Some d => Ok d | None => Fault end.
Definition setDigit (x : JSBigInt) (n value : Z) : res JSBigInt :=
  match zset (digits x) n value with Some l => Ok (mkBigInt (sign x) l) | None => Fault end.
Definition isZero (x : JSBigInt) : bool := m_length x =? 0.

(** ** Creation *)
Definition createWithLengthUnchecked (n : Z) : res JSBigInt := ASSERT (n <=? maxLength);; Ok (mkBigInt false (fresh_digits n)).
Definition createZero : res JSBigInt := createWithLengthUnchecked 0.
Definition tryCreateWithLength (n : Z) : res JSBigInt := if maxLength <? n then Throw OutOfMemoryError else createWithLengthUnchecked n.
Definition initialize_with_zero (x : JSBigInt) : JSBigInt := mkBigInt (sign x) (replicate (Z.to_nat (m_length x)) 0).

Definition createFrom_int32 (value : Z) : res JSBigInt :=
  if value =? 0 then createZero
  else
    bigInt ← createWithLengthUnchecked 1;
    if value <? 0 then bigInt ← setDigit bigInt 0 (Digit (s64 (-1 * value))); Ok (setSign bigInt true)
    else setDigit bigInt 0 (Digit value).

Definition createFrom_uint32 (value : Z) : res JSBigInt :=
  if value =? 0 then createZero
  else bigInt ← createWithLengthUnchecked 1; setDigit bigInt 0 (Digit value).

Definition createFrom_int64 (value : Z) : res JSBigInt :=
  if value =? 0 then createZero
  else if digitBits =? 64 then
    bigInt ← createWithLengthUnchecked 1;
    if value <? 0 then bigInt ← setDigit bigInt 0 (Digit (u64 (u64 (- (value + 1)) + 1))); Ok (setSign bigInt true)
    else setDigit bigInt 0 (Digit value)
  else
    bigInt ← createWithLengthUnchecked 2;
    let tempValue := if value <? 0 then u64 (u64 (- (value + 1)) + 1) else value in
    let sign := value <? 0 in
    let lowBits := Digit (Z.land tempValue 0xffffffff) in
    let highBits := Digit (Z.land (Z.shiftr tempValue 32) 0xffffffff) in
    bigInt ← setDigit bigInt 0 lowBits;
    bigInt ← setDigit bigInt 1 highBits;
    Ok (setSign bigInt sign).

Definition createFrom_bool (value : bool) : res JSBigInt :=
  if negb value then createZero
  else bigInt ← createWithLengthUnchecked 1; setDigit bigInt 0 (Digit 1).

Definition copy (x : JSBigInt) : res JSBigInt :=
  ASSERT (negb (isZero x));;
  result ← createWithLengthUnchecked (m_length x);
  Ok (mkBigInt (sign x) (take (Z.to_nat (m_length x)) (digits x) ++ drop (Z.to_nat (m_length x)) (digits result))).

Definition unaryMinus (x : JSBigInt) : res JSBigInt :=
  if isZero x then Ok x else result ← copy x; Ok (setSign result (negb (sign x))).

(** The index of the last digit that is not zero, or -1. *)
Definition rightTrim_index (x : JSBigInt) : res Z :=
  while (S (Z.to_nat (m_length x)))
    (fun i => if 0 <=? i then d ← digit x i; Ok (d =? 0) else Ok false)
    (fun i => Ok (i - 1)) (m_length x - 1).

Definition rightTrim (x : JSBigInt) : res JSBigInt :=
  if isZero x then ASSERT (negb (sign x));; Ok x
  else
    nonZeroIndex ← rightTrim_index x;
    if nonZeroIndex <? 0 then createZero
    else if nonZeroIndex =? m_length x - 1 then Ok x
    else
      let newLength := nonZeroIndex + 1 in
      trimmed ← createWithLengthUnchecked newLength;
      Ok (mkBigInt (sign x) (take (Z.to_nat newLength) (digits x) ++ drop (Z.to_nat newLength) (digits trimmed))).

(** ** Digits *)
(** The result and the carry, or borrow. *)
Definition digitAdd (a b carry : Z) : Z * Z :=
  let result := Digit (a + b) in (result, Digit (carry + Z.b2z (result <? a))).
Definition digitSub (a b borrow : Z) : Z * Z :=
  let result := Digit (a - b) in (result, Digit (borrow + Z.b2z (a <? result))).

(** The low half of the product and the high one. *)
Definition digitMul_two (a b : Z) : Z * Z :=
  let result := (a * b) mod 2 ^ (2 * digitBits) in (Digit result, Digit (Z.shiftr result digitBits)).

Definition digitMul_half (a b : Z) : Z * Z :=
  let aLow := Z.land a halfDigitMask in
  let aHigh := Z.shiftr a halfDigitBits in
  let bLow := Z.land b halfDigitMask in
  let bHigh := Z.shiftr b halfDigitBits in
  let rLow := Digit (aLow * bLow) in
  let rMid1 := Digit (aLow * bHigh) in
  let rMid2 := Digit (aHigh * bLow) in
  let rHigh := Digit (aHigh * bHigh) in
  let carry := 0 in
  let '(low, carry) := digitAdd rLow (Digit (Z.shiftl rMid1 halfDigitBits)) carry in
  let '(low, carry) := digitAdd low (Digit (Z.shiftl rMid2 halfDigitBits)) carry in
  let high := Digit (Z.shiftr rMid1 halfDigitBits + Z.shiftr rMid2 halfDigitBits + rHigh + carry) in
  (low, high).

Definition digitMul (a b : Z) : Z * Z := if have_two_digit then digitMul_two a b else digitMul_half a b.

Fixpoint digitPow_loop (fuel : nat) (result base exponent : Z) : res Z :=
  match fuel with
  | O => Fault
  | S fuel =>
    if 0 <? exponent then
      let result := if negb (Z.land exponent 1 =? 0) then Digit (result * base) else result in
      digitPow_loop fuel result (Digit (base * base)) (Z.shiftr exponent 1)
    else Ok result
  end.
Definition digitPow (base exponent : Z) : res Z := digitPow_loop (S (Z.to_nat digitBits)) 1 base exponent.

(** [clz] of a digit: the bits are tested from the top. *)
Fixpoint clz_loop (n : nat) (value i zeroCount : Z) : Z :=
  match n with
  | O => zeroCount
  | S n => if negb (Z.shiftr value i =? 0) then zeroCount else clz_loop n value (i - 1) (zeroCount + 1)
  end.
Definition clz (value : Z) : Z := clz_loop (Z.to_nat digitBits) value (digitBits - 1) 0.

(** The quotient digit [q] is corrected while it is too large. *)
Fixpoint digitDiv_correct (fuel : nat) (vn1 vn0 un q rhat : Z) : res (Z * Z) :=
  let halfDigitBase := 2 ^ halfDigitBits in
  match fuel with
  | O => Fault
  | S fuel =>
    if (halfDigitBase <=? q) || (Digit (Digit (rhat * halfDigitBase) + un) <? Digit (q * vn0)) then
      let q := Digit (q - 1) in
      let rhat := Digit (rhat + vn1) in
      if halfDigitBase <=? rhat then Ok (q, rhat) else digitDiv_correct fuel vn1 vn0 un q rhat
    else Ok (q, rhat)
  end.

Definition digitDiv_portable (high low divisor : Z) : res (Z * Z) :=
  let halfDigitBase := 2 ^ halfDigitBits in
  let s := clz divisor in
  ASSERT (negb (s =? digitBits));;
  let divisor := Digit (Z.shiftl divisor s) in
  let vn1 := Z.shiftr divisor halfDigitBits in
  let vn0 := Z.land divisor halfDigitMask in
  let sZeroMask := Digit (Z.shiftr (- s) (digitBits - 1)) in
  let shiftMask := digitBits - 1 in
  let un32 := Z.lor (Digit (Z.shiftl high s)) (Z.land (Z.shiftr low (Z.land (digitBits - s) shiftMask)) sZeroMask) in
  let un10 := Digit (Z.shiftl low s) in
  let un1 := Z.shiftr un10 halfDigitBits in
  let un0 := Z.land un10 halfDigitMask in
  if vn1 =? 0 then Fault
  else
    let q1 := un32 / vn1 in
    let rhat := Digit (un32 - Digit (q1 * vn1)) in
    '(q1, rhat) ← digitDiv_correct 4 vn1 vn0 un1 q1 rhat;
    let un21 := Digit (Digit (Digit (un32 * halfDigitBase) + un1) - Digit (q1 * divisor)) in
    let q0 := un21 / vn1 in
    let rhat := Digit (un21 - Digit (q0 * vn1)) in
    '(q0, rhat) ← digitDiv_correct 4 vn1 vn0 un0 q0 rhat;
    let remainder := Z.shiftr (Digit (Digit (Digit (un21 * halfDigitBase) + un0) - Digit (q0 * divisor))) s in
    Ok (Digit (Digit (q1 * halfDigitBase) + q0), remainder).

(** The division instruction of the processor, of two digits by one. *)
Definition div_instruction (high low divisor : Z) : res (Z * Z) :=
  let n := high * 2 ^ digitBits + low in
  if (divisor =? 0) || (2 ^ digitBits <=? n / divisor) then Fault else Ok (n / divisor, n mod divisor).

(** The quotient and the remainder. *)
Definition digitDiv (high low divisor : Z) : res (Z * Z) :=
  ASSERT (high <? divisor);;
  if have_div_instruction then div_instruction high low divisor else digitDiv_portable high low divisor.

(** ** Products *)
(** [source] is [None] when it is [result] itself. *)
Definition internalMultiplyAdd (source : option JSBigInt) (factor summand n : Z) (result : JSBigInt) : res JSBigInt :=
  ASSERT (n <=? m_length (default result source));;
  ASSERT (n <=? m_length result);;
  '(result, carry, high) ← for_range 0 n (fun i '(result, carry, high) =>
    current ← digit (default result source) i;
    let newCarry := 0 in
    let '(current, newHigh) := digitMul current factor in
    let '(current, newCarry) := digitAdd current high newCarry in
    let '(current, newCarry) := digitAdd current carry newCarry in
    result ← setDigit result i current;
    Ok (result, newCarry, newHigh)) (result, summand, 0);
  if n <? m_length result then
    result ← setDigit result n (Digit (carry + high));
    for_range (n + 1) (m_length result) (fun i result => setDigit result i 0) result
  else ASSERT (Digit (carry + high) =? 0);; Ok result.

Definition inplaceMultiplyAdd (this : JSBigInt) (factor summand : Z) : res JSBigInt :=
  internalMultiplyAdd None factor summand (m_length this) this.

Definition multiplyAccumulate (multiplicand : JSBigInt) (multiplier : Z) (accumulator : JSBigInt) (accumulatorIndex : Z) : res JSBigInt :=
  ASSERT (m_length multiplicand + accumulatorIndex <? m_length accumulator);;
  if multiplier =? 0 then Ok accumulator
  else
    '(accumulator, accumulatorIndex, carry, high) ← for_range 0 (m_length multiplicand)
      (fun i '(accumulator, accumulatorIndex, carry, high) =>
        acc ← digit accumulator accumulatorIndex;
        let newCarry := 0 in
        let '(acc, newCarry) := digitAdd acc high newCarry in
        let '(acc, newCarry) := digitAdd acc carry newCarry in
        multiplicandDigit ← digit multiplicand i;
        let '(low, high) := digitMul multiplier multiplicandDigit in
        let '(acc, newCarry) := digitAdd acc low newCarry in
        accumulator ← setDigit accumulator accumulatorIndex acc;
        Ok (accumulator, accumulatorIndex + 1, newCarry, high)) (accumulator, accumulatorIndex, 0, 0);
    '(accumulator, _, _, _) ← while (S (Z.to_nat (m_length accumulator)))
      (fun '(_, _, carry, high) => Ok (negb (carry =? 0) || negb (high =? 0)))
      (fun '(accumulator, accumulatorIndex, carry, high) =>
        ASSERT (accumulatorIndex <? m_length accumulator);;
        acc ← digit accumulator accumulatorIndex;
        let newCarry := 0 in
        let '(acc, newCarry) := digitAdd acc high newCarry in
        let high := 0 in
        let '(acc, newCarry) := digitAdd acc carry newCarry in
        accumulator ← setDigit accumulator accumulatorIndex acc;
        Ok (accumulator, accumulatorIndex + 1, newCarry, high)) (accumulator, accumulatorIndex, carry, high);
    Ok accumulator.

Definition multiply (x y : JSBigInt) : res JSBigInt :=
  if isZero x then Ok x
  else if isZero y then Ok y
  else
    let resultLength := m_length x + m_length y in
    result ← tryCreateWithLength resultLength;
    let result := initialize_with_zero result in
    result ← for_range 0 (m_length x) (fun i result => d ← digit x i; multiplyAccumulate y d result i) result;
    rightTrim (setSign result (negb (Bool.eqb (sign x) (sign y)))).

(** ** Comparison *)
Inductive ComparisonResult : Type := Equal | Undefined | GreaterThan | LessThan.

#[export] Instance ComparisonResult_eq_dec : EqDecision ComparisonResult.
Proof using. solve_decision. Defined.

Fixpoint equals_loop (n : nat) (i : Z) (x y : JSBigInt) : res bool :=
  match n with
  | O => Ok true
  | S n => a ← digit x i; b ← digit y i; if negb (a =? b) then Ok false else equals_loop n (i + 1) x y
  end.

Definition equals (x y : JSBigInt) : res bool :=
  if negb (Bool.eqb (sign x) (sign y)) then Ok false
  else if negb (m_length x =? m_length y) then Ok false
  else equals_loop (Z.to_nat (m_length x)) 0 x y.

(** No leading digit is zero. *)
Definition last_digit_nonzero (x : JSBigInt) : res bool :=
  if m_length x =? 0 then Ok true else d ← digit x (m_length x - 1); Ok (negb (d =? 0)).

Definition absoluteCompare (x y : JSBigInt) : res ComparisonResult :=
  b ← last_digit_nonzero x; ASSERT b;;
  b ← last_digit_nonzero y; ASSERT b;;
  let diff := m_length x - m_length y in
  if negb (diff =? 0) then Ok (if diff <? 0 then LessThan else GreaterThan)
  else
    i ← while (S (Z.to_nat (m_length x)))
      (fun i => if 0 <=? i then a ← digit x i; b ← digit y i; Ok (a =? b) else Ok false)
      (fun i => Ok (i - 1)) (m_length x - 1);
    if i <? 0 then Ok Equal
    else a ← digit x i; b ← digit y i; Ok (if b <? a then GreaterThan else LessThan).

Definition compare (x y : JSBigInt) : res ComparisonResult :=
  let xSign := sign x in
  if negb (Bool.eqb xSign (sign y)) then Ok (if xSign then LessThan else GreaterThan)
  else
    result ← absoluteCompare x y;
    match result with
    | GreaterThan => Ok (if xSign then LessThan else GreaterThan)
    | LessThan => Ok (if xSign then GreaterThan else LessThan)
    | _ => Ok Equal
    end.

(** ** Sums and differences *)
(** [x] is at least as long as [y]. *)
Definition absoluteAdd_ordered (x y : JSBigInt) (resultSign : bool) : res JSBigInt :=
  if isZero x then ASSERT (isZero y);; Ok x
  else if isZero y then if Bool.eqb resultSign (sign x) then Ok x else unaryMinus x
  else
    result ← tryCreateWithLength (m_length x + 1);
    '(result, carry) ← for_range 0 (m_length y) (fun i '(result, carry) =>
      a ← digit x i; b ← digit y i;
      let '(sum, newCarry) := digitAdd a b 0 in
      let '(sum, newCarry) := digitAdd sum carry newCarry in
      result ← setDigit result i sum;
      Ok (result, newCarry)) (result, 0);
    '(result, carry) ← for_range (m_length y) (m_length x) (fun i '(result, carry) =>
      a ← digit x i;
      let '(sum, newCarry) := digitAdd a carry 0 in
      result ← setDigit result i sum;
      Ok (result, newCarry)) (result, carry);
    result ← setDigit result (m_length x) carry;
    rightTrim (setSign result resultSign).

Definition absoluteAdd (x y : JSBigInt) (resultSign : bool) : res JSBigInt :=
  if m_length x <? m_length y then absoluteAdd_ordered y x resultSign else absoluteAdd_ordered x y resultSign.

Definition absoluteSub (x y : JSBigInt) (resultSign : bool) : res JSBigInt :=
  comparisonResult ← absoluteCompare x y;
  ASSERT (m_length y <=? m_length x);;
  ASSERT (bool_decide (comparisonResult = GreaterThan) || bool_decide (comparisonResult = Equal));;
  if isZero x then ASSERT (isZero y);; Ok x
  else if isZero y then if Bool.eqb resultSign (sign x) then Ok x else unaryMinus x
  else if bool_decide (comparisonResult = Equal) then createZero
  else
    result ← createWithLengthUnchecked (m_length x);
    '(result, borrow) ← for_range 0 (m_length y) (fun i '(result, borrow) =>
      a ← digit x i; b ← digit y i;
      let '(difference, newBorrow) := digitSub a b 0 in
      let '(difference, newBorrow) := digitSub difference borrow newBorrow in
      result ← setDigit result i difference;
      Ok (result, newBorrow)) (result, 0);
    '(result, borrow) ← for_range (m_length y) (m_length x) (fun i '(result, borrow) =>
      a ← digit x i;
      let '(difference, newBorrow) := digitSub a borrow 0 in
      result ← setDigit result i difference;
      Ok (result, newBorrow)) (result, borrow);
    ASSERT (borrow =? 0);;
    rightTrim (setSign result resultSign).

Definition at_least (c : ComparisonResult) : bool := bool_decide (c = GreaterThan) || bool_decide (c = Equal).

Definition add (x y : JSBigInt) : res JSBigInt :=
  let xSign := sign x in
  if Bool.eqb xSign (sign y) then absoluteAdd x y xSign
  else
    comparisonResult ← absoluteCompare x y;
    if at_least comparisonResult then absoluteSub x y xSign else absoluteSub y x (negb xSign).

Definition sub (x y : JSBigInt) : res JSBigInt :=
  let xSign := sign x in
  if negb (Bool.eqb xSign (sign y)) then absoluteAdd x y xSign
  else
    comparisonResult ← absoluteCompare x y;
    if at_least comparisonResult then absoluteSub x y xSign else absoluteSub y x (negb xSign).

(** ** Division *)
(** No quotient is wanted, a new one is allocated, or the dividend is overwritten. *)
Inductive QuotientMode : Type := NoQuotient | NewQuotient | InPlace.

Definition absoluteDivWithDigitDivisor (x : JSBigInt) (divisor : Z) (mode : QuotientMode) : res (option JSBigInt * Z) :=
  ASSERT (negb (divisor =? 0));;
  ASSERT (negb (isZero x));;
  let remainder := 0 in
  if divisor =? 1 then Ok (match mode with NoQuotient => None | _ => Some x end, remainder)
  else
    match mode with
    | NoQuotient =>
      remainder ← for_range_down (m_length x - 1) 0 (fun i remainder =>
        d ← digit x i; '(_, remainder) ← digitDiv remainder d divisor; Ok remainder) remainder;
      Ok (None, remainder)
    | _ =>
      quotient ← match mode with InPlace => Ok x | _ => createWithLengthUnchecked (m_length x) end;
      '(quotient, remainder) ← for_range_down (m_length x - 1) 0 (fun i '(quotient, remainder) =>
        d ← digit (match mode with InPlace => quotient | _ => x end) i;
        '(q, remainder) ← digitDiv remainder d divisor;
        quotient ← setDigit quotient i q;
        Ok (quotient, remainder)) (quotient, remainder);
      Ok (Some quotient, remainder)
    end.

Definition productGreaterThan (factor1 factor2 high low : Z) : bool :=
  let '(resultLow, resultHigh) := digitMul factor1 factor2 in
  (high <? resultHigh) || ((resultHigh =? high) && (low <? resultLow)).

Definition absoluteInplaceAdd (this summand : JSBigInt) (startIndex : Z) : res (JSBigInt * Z) :=
  let n := m_length summand in
  ASSERT (startIndex + n <=? m_length this);;
  for_range 0 n (fun i '(this, carry) =>
    a ← digit this (startIndex + i); b ← digit summand i;
    let '(sum, newCarry) := digitAdd a b 0 in
    let '(sum, newCarry) := digitAdd sum carry newCarry in
    this ← setDigit this (startIndex + i) sum;
    Ok (this, newCarry)) (this, 0).

Definition absoluteInplaceSub (this subtrahend : JSBigInt) (startIndex : Z) : res (JSBigInt * Z) :=
  let n := m_length subtrahend in
  ASSERT (startIndex + n <=? m_length this);;
  for_range 0 n (fun i '(this, borrow) =>
    a ← digit this (startIndex + i); b ← digit subtrahend i;
    let '(difference, newBorrow) := digitSub a b 0 in
    let '(difference, newBorrow) := digitSub difference borrow newBorrow in
    this ← setDigit this (startIndex + i) difference;
    Ok (this, newBorrow)) (this, 0).

Definition inplaceRightShift (this : JSBigInt) (shift : Z) : res JSBigInt :=
  ASSERT (shift <? digitBits);;
  d0 ← digit this 0;
  ASSERT (Z.land d0 (Digit (Z.shiftl 1 shift) - 1) =? 0);;
  if shift =? 0 then Ok this
  else
    let carry := Z.shiftr d0 shift in
    let last := m_length this - 1 in
    '(this, carry) ← for_range 0 last (fun i '(this, carry) =>
      d ← digit this (i + 1);
      this ← setDigit this i (Z.lor (Digit (Z.shiftl d (digitBits - shift))) carry);
      Ok (this, Z.shiftr d shift)) (this, carry);
    setDigit this last carry.

Inductive LeftShiftMode : Type := SameSizeResult | AlwaysAddOneDigit.

Definition absoluteLeftShiftAlwaysCopy (x : JSBigInt) (shift : Z) (mode : LeftShiftMode) : res JSBigInt :=
  ASSERT (shift <? digitBits);;
  ASSERT (negb (isZero x));;
  let n := m_length x in
  let resultLength := match mode with AlwaysAddOneDigit => n + 1 | SameSizeResult => n end in
  result ← tryCreateWithLength resultLength;
  if shift =? 0 then
    result ← for_range 0 n (fun i result => d ← digit x i; setDigit result i d) result;
    match mode with AlwaysAddOneDigit => setDigit result n 0 | SameSizeResult => Ok result end
  else
    '(result, carry) ← for_range 0 n (fun i '(result, carry) =>
      d ← digit x i;
      result ← setDigit result i (Z.lor (Digit (Z.shiftl d shift)) carry);
      Ok (result, Z.shiftr d (digitBits - shift))) (result, 0);
    match mode with
    | AlwaysAddOneDigit => setDigit result n carry
    | SameSizeResult => ASSERT (carry =? 0);; Ok result
    end.

(** The estimate of a quotient digit is decremented as needed. *)
Fixpoint qhat_loop (fuel : nat) (vn1 vn2 ujn2 qhat rhat : Z) : res Z :=
  match fuel with
  | O => Fault
  | S fuel =>
    if productGreaterThan qhat vn2 rhat ujn2 then
      let qhat := Digit (qhat - 1) in
      let prevRhat := rhat in
      let rhat := Digit (rhat + vn1) in
      if rhat <? prevRhat then Ok qhat else qhat_loop fuel vn1 vn2 ujn2 qhat rhat
    else Ok qhat
  end.

Definition estimate_qhat (u divisor : JSBigInt) (n vn1 j : Z) : res Z :=
  let qhat := 2 ^ digitBits - 1 in
  ujn ← digit u (j + n);
  if negb (ujn =? vn1) then
    ujn1 ← digit u (j + n - 1);
    '(qhat, rhat) ← digitDiv ujn ujn1 vn1;
    vn2 ← digit divisor (n - 2);
    ujn2 ← digit u (j + n - 2);
    qhat_loop 4 vn1 vn2 ujn2 qhat rhat
  else Ok qhat.

(** One digit of the quotient: [u] and [qhatv] are updated. *)
Definition division_step (divisor : JSBigInt) (n vn1 j : Z) (u qhatv : JSBigInt) : res (JSBigInt * JSBigInt * Z) :=
  qhat ← estimate_qhat u divisor n vn1 j;
  qhatv ← internalMultiplyAdd (Some divisor) qhat 0 n qhatv;
  '(u, c) ← absoluteInplaceSub u qhatv j;
  if negb (c =? 0) then
    '(u, c) ← absoluteInplaceAdd u divisor j;
    top ← digit u (j + n);
    u ← setDigit u (j + n) (Digit (top + c));
    Ok (u, qhatv, Digit (qhat - 1))
  else Ok (u, qhatv, qhat).

Definition absoluteDivWithBigIntDivisor (dividend divisor : JSBigInt) (quotient remainder : bool) : res (option JSBigInt * option JSBigInt) :=
  ASSERT (2 <=? m_length divisor);;
  ASSERT (m_length divisor <=? m_length dividend);;
  let n := m_length divisor in
  let m := m_length dividend - n in
  q ← (if quotient then q ← createWithLengthUnchecked (m + 1); Ok (Some q) else Ok None);
  qhatv ← tryCreateWithLength (n + 1);
  lastDigit ← digit divisor (n - 1);
  let shift := clz lastDigit in
  divisor ← (if 0 <? shift then absoluteLeftShiftAlwaysCopy divisor shift SameSizeResult else Ok divisor);
  u ← absoluteLeftShiftAlwaysCopy dividend shift AlwaysAddOneDigit;
  vn1 ← digit divisor (n - 1);
  '(u, _, q) ← for_range_down m 0 (fun j '(u, qhatv, q) =>
    '(u, qhatv, qhat) ← division_step divisor n vn1 j u qhatv;
    q ← match q with Some q => q ← setDigit q j qhat; Ok (Some q) | None => Ok None end;
    Ok (u, qhatv, q)) (u, qhatv, q);
  r ← (if remainder then u ← inplaceRightShift u shift; Ok (Some u) else Ok None);
  Ok (q, r).

(** The pointer that a callee has set. *)
Definition deref {A} (x : option A) : res A := match x with Some a => Ok a | None => Fault end.

Definition divide (x y : JSBigInt) : res JSBigInt :=
  if isZero y then Throw DivisionByZero
  else
    c ← absoluteCompare x y;
    if bool_decide (c = LessThan) then createZero
    else
      let resultSign := negb (Bool.eqb (sign x) (sign y)) in
      let finish quotient := rightTrim (setSign quotient resultSign) in
      if m_length y =? 1 then
        divisor ← digit y 0;
        if divisor =? 1 then if Bool.eqb resultSign (sign x) then Ok x else unaryMinus x
        else '(quotient, _) ← absoluteDivWithDigitDivisor x divisor NewQuotient; quotient ← deref quotient; finish quotient
      else '(quotient, _) ← absoluteDivWithBigIntDivisor x y true false; quotient ← deref quotient; finish quotient.

Definition remainder (x y : JSBigInt) : res JSBigInt :=
  if isZero y then Throw DivisionByZero
  else
    c ← absoluteCompare x y;
    if bool_decide (c = LessThan) then Ok x
    else
      let finish remainder := rightTrim (setSign remainder (sign x)) in
      if m_length y =? 1 then
        divisor ← digit y 0;
        if divisor =? 1 then createZero
        else
          '(_, remainderDigit) ← absoluteDivWithDigitDivisor x divisor NoQuotient;
          if remainderDigit =? 0 then createZero
          else remainder ← createWithLengthUnchecked 1; remainder ← setDigit remainder 0 remainderDigit; finish remainder
      else '(_, remainder) ← absoluteDivWithBigIntDivisor x y false true; remainder ← deref remainder; finish remainder.
End bigint.
