(* ===== verification/BigIntFacts.v ===== *)
(** * BigIntFacts: the number that digits denote, and the rules of loops *)
From S2P Require Import Prelude Doubles BigInt.
Local Open Scope Z_scope.

(** ** Loops *)
Lemma for_range_inv {S} (P : Z -> S -> Prop) lo hi body s :
  lo <= hi -> P lo s -> (forall i s, lo <= i < hi -> P i s -> exists s', body i s = Ok s' /\ P (i + 1) s') ->
  exists s', for_range lo hi body s = Ok s' /\ P hi s'.
Proof.
  intros Hle Hs Hbody. unfold for_range. remember (Z.to_nat (hi - lo)) as n eqn:Hn. assert (hi = lo + Z.of_nat n) as -> by lia. clear Hn Hle.
  revert lo s Hs Hbody. induction n as [|n IH]; intros lo s Hs Hbody; cbn [for_up].
  - exists s. split; [done|]. by replace (lo + Z.of_nat 0) with lo by lia.
  - destruct (Hbody lo s ltac:(lia) Hs) as (s1 & -> & H1). cbn [mbind res_bind]. destruct (IH (lo + 1) s1 H1) as (s2 & -> & H2).
    + intros i s' Hi. apply Hbody. lia.
    + exists s2. split; [done|]. by replace (lo + Z.of_nat (Datatypes.S n)) with (lo + 1 + Z.of_nat n) by lia.
Qed.

Lemma for_range_down_inv {S} (P : Z -> S -> Prop) hi lo body s :
  lo <= hi + 1 -> P hi s -> (forall i s, lo <= i <= hi -> P i s -> exists s', body i s = Ok s' /\ P (i - 1) s') ->
  exists s', for_range_down hi lo body s = Ok s' /\ P (lo - 1) s'.
Proof.
  intros Hle Hs Hbody. unfold for_range_down. remember (Z.to_nat (hi - lo + 1)) as n eqn:Hn. assert (lo = hi + 1 - Z.of_nat n) as -> by lia. clear Hn Hle.
  revert hi s Hs Hbody. induction n as [|n IH]; intros hi s Hs Hbody; cbn [for_down].
  - exists s. split; [done|]. by replace (hi + 1 - Z.of_nat 0 - 1) with hi by lia.
  - destruct (Hbody hi s ltac:(lia) Hs) as (s1 & -> & H1). cbn [mbind res_bind]. destruct (IH (hi - 1) s1 H1) as (s2 & -> & H2).
    + intros i s' Hi. apply Hbody. lia.
    + exists s2. split; [done|]. by replace (hi + 1 - Z.of_nat (Datatypes.S n) - 1) with (hi - 1 + 1 - Z.of_nat n - 1) by lia.
Qed.

(** A loop that ends within [fuel] rounds: the measure decreases. *)
Lemma while_inv {S} (P : S -> Prop) (m : S -> Z) fuel test body s :
  P s -> 0 <= m s < Z.of_nat fuel ->
  (forall s, P s -> exists b, test s = Ok b /\ (b = true -> exists s', body s = Ok s' /\ P s' /\ 0 <= m s' < m s)) ->
  exists s', while fuel test body s = Ok s' /\ P s' /\ test s' = Ok false.
Proof.
  intros Hs Hm Hbody. revert s Hs Hm. induction fuel as [|fuel IH]; intros s Hs Hm; [lia|]. cbn [while].
  destruct (Hbody s Hs) as (b & Hb & Hstep). rewrite Hb. cbn [mbind res_bind]. destruct b.
  - destruct (Hstep eq_refl) as (s' & -> & Hs' & Hm'). cbn [mbind res_bind]. apply IH; [done|lia].
  - by exists s.
Qed.

(** Name the test and the body of a loop, or the body of a counted loop. *)
Ltac name_while test body :=
  match goal with |- context [mbind _ (while _ ?t ?b _)] => set (test := t); set (body := b) | |- context [while _ ?t ?b _] => set (test := t); set (body := b) end.
Ltac name_for body :=
  match goal with
  | |- context [mbind _ (for_range _ _ ?b _)] => set (body := b)
  | |- context [mbind _ (for_range_down _ _ ?b _)] => set (body := b)
  | |- context [for_range _ _ ?b _] => set (body := b)
  | |- context [for_range_down _ _ ?b _] => set (body := b)
  end.

(** ** Digits *)
Definition dig (l : list Z) (i : Z) : Z := default 0 (zget l i).
Definition upd (l : list Z) (i v : Z) : list Z := <[Z.to_nat i := v]> l.

Lemma zlen_upd l i v : zlen (upd l i v) = zlen l.
Proof. unfold zlen, upd. by rewrite length_insert. Qed.

Lemma zget_dig l i : 0 <= i < zlen l -> zget l i = Some (dig l i).
Proof. intros Hi. unfold dig. by destruct (zget_is_Some l i Hi) as [x ->]. Qed.

Lemma dig_upd l i j v : 0 <= i < zlen l -> dig (upd l i v) j = if decide (i = j) then v else dig l j.
Proof.
  intros Hi. unfold dig. rewrite (zget_zset l i v (upd l i v) j); [by case_decide|]. by apply zset_Some.
Qed.

Lemma dig_upd_eq l i v : 0 <= i < zlen l -> dig (upd l i v) i = v.
Proof. intros Hi. rewrite dig_upd by done. by case_decide. Qed.

Lemma dig_upd_ne l i j v : 0 <= i < zlen l -> i <> j -> dig (upd l i v) j = dig l j.
Proof. intros Hi Hj. rewrite dig_upd by done. by case_decide. Qed.

Lemma dig_out l i : zlen l <= i -> dig l i = 0.
Proof. intros Hi. unfold dig. destruct (zget l i) eqn:E; [|done]. apply zget_lt in E. lia. Qed.

Lemma take_upd l i j v : 0 <= j <= i -> take (Z.to_nat j) (upd l i v) = take (Z.to_nat j) l.
Proof. intros Hj. unfold upd. apply take_insert_ge. lia. Qed.

Lemma drop_upd l i j v : 0 <= i < j -> drop (Z.to_nat j) (upd l i v) = drop (Z.to_nat j) l.
Proof. intros Hj. unfold upd. apply drop_insert_lt. lia. Qed.

Lemma drop_dig l i : 0 <= i < zlen l -> drop (Z.to_nat i) l = dig l i :: drop (Z.to_nat (i + 1)) l.
Proof.
  intros Hi. pose proof (zget_dig l i Hi) as H. apply zget_Some in H as [_ H]. replace (Z.to_nat (i + 1)) with (S (Z.to_nat i)) by lia. by apply drop_S.
Qed.

Lemma take_dig l i : 0 <= i < zlen l -> take (Z.to_nat (i + 1)) l = take (Z.to_nat i) l ++ [dig l i].
Proof.
  intros Hi. pose proof (zget_dig l i Hi) as H. apply zget_Some in H as [_ H]. replace (Z.to_nat (i + 1)) with (S (Z.to_nat i)) by lia. by apply take_S_r.
Qed.

Section facts.
Context `{DigitConfig}.
Local Abbreviation B := (2 ^ digitBits).

Lemma B_pos : 1 < B.
Proof. destruct digitBits_ok as [-> | ->]; done. Qed.

Lemma pow_B_pos i : 0 <= i -> 0 < B ^ i.
Proof. intros Hi. pose proof B_pos. apply Z.pow_pos_nonneg; lia. Qed.

Lemma pow_B_succ i : 0 <= i -> B ^ (i + 1) = B * B ^ i.
Proof. intros Hi. pose proof B_pos. rewrite Z.pow_add_r, Z.pow_1_r by lia. lia. Qed.

Lemma pow_B_1 : B ^ 1 = B.
Proof. apply Z.pow_1_r. Qed.

Definition is_digit (d : Z) : Prop := 0 <= d < B.
Definition digits_ok (l : list Z) : Prop := Forall is_digit l.

Fixpoint val (l : list Z) : Z := match l with [] => 0 | d :: l => d + B * val l end.

Lemma Digit_small x : is_digit x -> Digit x = x.
Proof. apply Z.mod_small. Qed.

Lemma Digit_is_digit x : is_digit (Digit x).
Proof. pose proof B_pos. apply Z.mod_pos_bound. lia. Qed.

Lemma is_digit_0 : is_digit 0.
Proof. pose proof B_pos. unfold is_digit. lia. Qed.

Lemma is_digit_1 : is_digit 1.
Proof. pose proof B_pos. unfold is_digit. lia. Qed.

Lemma dig_ok l i : digits_ok l -> is_digit (dig l i).
Proof.
  intros Hl. unfold dig. destruct (zget l i) as [d|] eqn:E; cbn [default]; [|apply is_digit_0]. apply zget_Some in E as [_ E].
  by eapply Forall_lookup_1 in E.
Qed.

Lemma upd_ok l i v : digits_ok l -> is_digit v -> digits_ok (upd l i v).
Proof. intros Hl Hv. by apply Forall_insert. Qed.

(** ** Values *)
Lemma val_app l1 l2 : val (l1 ++ l2) = val l1 + B ^ zlen l1 * val l2.
Proof.
  induction l1 as [|d l1 IH]; cbn [app val]; [change (zlen []) with 0; rewrite Z.pow_0_r; lia|]. rewrite IH, zlen_cons.
  replace (1 + zlen l1) with (zlen l1 + 1) by lia. rewrite pow_B_succ by apply zlen_nonneg. lia.
Qed.

Lemma val_bound l : digits_ok l -> 0 <= val l < B ^ zlen l.
Proof.
  induction 1 as [|d l Hd Hl IH]; cbn [val]; [change (zlen []) with 0; rewrite Z.pow_0_r; lia|]. rewrite zlen_cons.
  replace (1 + zlen l) with (zlen l + 1) by lia. rewrite pow_B_succ by apply zlen_nonneg. unfold is_digit in Hd. nia.
Qed.

(** The number of the first [i] digits, and of the others. *)
Definition low (l : list Z) (i : Z) : Z := val (take (Z.to_nat i) l).
Definition high (l : list Z) (i : Z) : Z := val (drop (Z.to_nat i) l).

Lemma low_0 l : low l 0 = 0.
Proof. done. Qed.

Lemma low_succ l i : 0 <= i < zlen l -> low l (i + 1) = low l i + dig l i * B ^ i.
Proof.
  intros Hi. unfold low. rewrite take_dig, val_app by done. unfold zlen in *. rewrite length_take, Nat.min_l by lia. rewrite Z2Nat.id by lia. cbn [val]. lia.
Qed.

Lemma low_upd l i j v : 0 <= j <= i -> low (upd l i v) j = low l j.
Proof. intros Hj. unfold low. by rewrite take_upd. Qed.

Lemma low_upd_succ l i v : 0 <= i < zlen l -> low (upd l i v) (i + 1) = low l i + v * B ^ i.
Proof. intros Hi. rewrite low_succ by (by rewrite zlen_upd). by rewrite low_upd, dig_upd_eq by lia. Qed.

Lemma low_all l i : zlen l <= i -> low l i = val l.
Proof. intros Hi. unfold low, zlen in *. rewrite take_ge; [done|lia]. Qed.

Lemma low_high l i : 0 <= i <= zlen l -> val l = low l i + B ^ i * high l i.
Proof.
  intros Hi. unfold low, high. rewrite <- (take_drop (Z.to_nat i) l) at 1. rewrite val_app. unfold zlen in *. rewrite length_take, Nat.min_l by lia.
  by rewrite Z2Nat.id by lia.
Qed.

Lemma low_bound l i : digits_ok l -> 0 <= i -> 0 <= low l i < B ^ i.
Proof.
  intros Hl Hi. assert (digits_ok (take (Z.to_nat i) l)) as Ht by (by apply Forall_take). pose proof (val_bound _ Ht) as Hv. unfold low. split; [lia|].
  eapply Z.lt_le_trans; [apply Hv|]. pose proof B_pos. apply Z.pow_le_mono_r; [lia|]. unfold zlen. rewrite length_take. lia.
Qed.

Lemma high_nonneg l i : digits_ok l -> 0 <= high l i.
Proof. intros Hl. apply val_bound. by apply Forall_drop. Qed.

Lemma high_succ l i : 0 <= i < zlen l -> high l i = dig l i + B * high l (i + 1).
Proof. intros Hi. unfold high. by rewrite drop_dig. Qed.

Lemma high_upd l i j v : 0 <= i < j -> high (upd l i v) j = high l j.
Proof. intros Hj. unfold high. by rewrite drop_upd. Qed.

Lemma high_all l i : zlen l <= i -> high l i = 0.
Proof. intros Hi. unfold high, zlen in *. rewrite drop_ge; [done|lia]. Qed.

Lemma high_0 l : high l 0 = val l.
Proof. done. Qed.

Lemma val_upd l i v : 0 <= i < zlen l -> val (upd l i v) = val l + (v - dig l i) * B ^ i.
Proof.
  intros Hi. rewrite (low_high (upd l i v) i), (low_high l i) by (rewrite ?zlen_upd; lia). rewrite low_upd by lia.
  rewrite (high_succ (upd l i v)), (high_succ l i) by (rewrite ?zlen_upd; lia). rewrite dig_upd_eq, high_upd by lia. lia.
Qed.

(** ** Accesses *)
Lemma digit_dig x i : 0 <= i < m_length x -> digit x i = Ok (dig (digits x) i).
Proof. intros Hi. unfold digit. by rewrite zget_dig. Qed.

Lemma setDigit_upd x i v : 0 <= i < m_length x -> setDigit x i v = Ok (mkBigInt (sign x) (upd (digits x) i v)).
Proof. intros Hi. unfold setDigit. by rewrite zset_Some. Qed.

(** ** Numbers *)
Definition value (x : JSBigInt) : Z := if sign x then - val (digits x) else val (digits x).

(** No leading digit is zero. *)
Definition trimmed (l : list Z) : Prop := forall i, i = zlen l - 1 -> 0 <= i -> dig l i <> 0.

(** The invariant of big integers. *)
Record wf (x : JSBigInt) : Prop := {
  wf_digits : digits_ok (digits x);
  wf_trimmed : trimmed (digits x);
  wf_sign : digits x = [] -> sign x = false;
  wf_length : m_length x <= maxLength
}.

Lemma trimmed_bound l : digits_ok l -> trimmed l -> l <> [] -> B ^ (zlen l - 1) <= val l.
Proof.
  intros Hl Ht Hn. assert (0 < zlen l) as Hlen. { destruct l; [done|zlia]. }
  rewrite (low_high l (zlen l - 1)) by lia. rewrite high_succ, high_all by lia. pose proof (low_bound l (zlen l - 1) Hl ltac:(lia)).
  pose proof (Ht _ eq_refl ltac:(lia)). pose proof (dig_ok l (zlen l - 1) Hl) as Hd. unfold is_digit in Hd. pose proof (pow_B_pos (zlen l - 1) ltac:(lia)). nia.
Qed.

Lemma val_zero l : digits_ok l -> trimmed l -> val l = 0 -> l = [].
Proof.
  intros Hl Ht Hv. destruct (decide (l = [])) as [|Hn]; [done|]. pose proof (trimmed_bound l Hl Ht Hn). zlens.
  assert (0 < zlen l) by (destruct l; [done|zlia]). pose proof (pow_B_pos (zlen l - 1) ltac:(lia)). lia.
Qed.

Lemma isZero_spec x : isZero x = bool_decide (digits x = []).
Proof.
  unfold isZero, m_length. destruct (digits x) as [|d l]; [done|]. rewrite (proj2 (Z.eqb_neq _ 0)) by zlia. done.
Qed.

Lemma isZero_value x : wf x -> isZero x = true <-> value x = 0.
Proof.
  intros [H1 H2 H3 H4]. rewrite isZero_spec, bool_decide_eq_true. unfold value. split.
  - intros ->. by destruct (sign x).
  - intros Hv. apply val_zero; [done..|]. by destruct (sign x); lia.
Qed.

Lemma createWithLength_ok n : 0 <= n <= maxLength -> createWithLengthUnchecked n = Ok (mkBigInt false (fresh_digits n)).
Proof. intros Hn. unfold createWithLengthUnchecked, ASSERT. by rewrite Z_leb_true by lia. Qed.

Lemma maxLength_pos : 2 <= maxLength.
Proof. unfold maxLength. destruct digitBits_ok as [-> | ->]; done. Qed.

Lemma createZero_ok : createZero = Ok (mkBigInt false []).
Proof.
  unfold createZero. pose proof maxLength_pos. rewrite createWithLength_ok by lia. destruct (fresh_digits_ok 0 ltac:(lia)) as [Hf _].
  by rewrite (zlen_0_nil (fresh_digits 0)) by lia.
Qed.

Lemma wf_zero : wf (mkBigInt false []).
Proof. split; [by apply Forall_nil|intros i -> Hi; by destruct Hi|done|]. pose proof maxLength_pos. unfold m_length. cbn [digits]. rewrite zlen_nil. lia. Qed.

(** [rightTrim] removes the leading zeros. *)
Lemma rightTrim_index_spec x :
  exists i, rightTrim_index x = Ok i /\ -1 <= i <= m_length x - 1 /\ high (digits x) (i + 1) = 0 /\ (0 <= i -> dig (digits x) i <> 0).
Proof.
  unfold rightTrim_index. name_while test body. pose proof (zlen_nonneg (digits x)) as Hn. fold (m_length x) in Hn.
  destruct (while_inv (fun i => -1 <= i <= m_length x - 1 /\ high (digits x) (i + 1) = 0) (fun i => i + 1) (S (Z.to_nat (m_length x))) test body (m_length x - 1))
    as (i & Hw & [Hi Hh] & Ht).
  - split; [lia|]. rewrite high_all; [done|]. unfold m_length. lia.
  - lia.
  - intros i [Hi Hh]. unfold test. destruct (0 <=? i) eqn:E; bool_prop; [|by exists false].
    rewrite digit_dig by lia. cbn [mbind res_bind]. eexists. split; [done|]. intros Hz. bool_prop. exists (i - 1). split; [done|]. split; [|lia]. split; [lia|].
    replace (i - 1 + 1) with i by lia. rewrite high_succ by (unfold m_length in *; lia). lia.
  - exists i. split_and!; [done|lia|lia|done|]. intros Hi0 Hz. unfold test in Ht. rewrite Z_leb_true, digit_dig in Ht by lia. cbn [mbind res_bind] in Ht. by rewrite Hz in Ht.
Qed.

Lemma rightTrim_spec x :
  digits_ok (digits x) -> m_length x <= maxLength -> (digits x = [] -> sign x = false) ->
  exists y, rightTrim x = Ok y /\ wf y /\ value y = value x /\ m_length y <= m_length x.
Proof.
  intros Hd Hmax Hs. unfold rightTrim. rewrite isZero_spec. case_bool_decide as Hz.
  - rewrite (Hs Hz). exists x. split; [done|]. split; [|done]. split; [done| |done|done]. intros i ->. rewrite Hz. intros Hi. by destruct Hi.
  - destruct (rightTrim_index_spec x) as (i & -> & Hi & Hh & Hnz). cbn [mbind res_bind].
    assert (low (digits x) (i + 1) = val (digits x)) as Hlow by (rewrite (low_high _ (i + 1)) by (unfold m_length in *; lia); lia).
    destruct (i <? 0) eqn:E; bool_prop.
    + rewrite createZero_ok. eexists. split; [done|]. split; [apply wf_zero|]. split; [|unfold m_length; cbn [digits]; zlia]. assert (i = -1) as -> by lia.
      unfold value. cbn [sign digits val]. rewrite <- Hlow. change (-1 + 1) with 0. rewrite low_0. by destruct (sign x).
    + destruct (i =? m_length x - 1) eqn:E2; bool_prop.
      * exists x. split; [done|]. split; [|done]. split; [done| |done|done]. intros j -> _. unfold m_length in E2. rewrite <- E2. by apply Hnz.
      * rewrite createWithLength_ok by lia. cbn [mbind res_bind digits]. destruct (fresh_digits_ok (i + 1) ltac:(lia)) as [Hf _].
        rewrite (drop_ge (fresh_digits _)), app_nil_r by (unfold zlen in Hf; lia). eexists. split; [done|].
        assert (zlen (take (Z.to_nat (i + 1)) (digits x)) = i + 1) as Hlen by (unfold zlen, m_length in *; rewrite length_take; unfold zlen in *; lia).
        split; [split|].
        -- by apply Forall_take.
        -- intros j -> _. cbn [digits]. rewrite Hlen. replace (i + 1 - 1) with i by lia. intros Hdz. apply (Hnz E). rewrite <- Hdz. unfold dig, zget.
           rewrite Z_leb_true, lookup_take_lt by lia. done.
        -- cbn [digits]. intros Ht. rewrite Ht in Hlen. change (0 = i + 1) in Hlen. lia.
        -- unfold m_length in *. cbn [digits]. lia.
        -- unfold value. cbn [sign digits]. fold (low (digits x) (i + 1)). rewrite Hlow. split; [done|]. unfold m_length in *. cbn [digits]. lia.
Qed.

(** Results that are built digit by digit. *)
Lemma trim_signed_spec s l : digits_ok l -> 0 < zlen l <= maxLength -> exists y, rightTrim (mkBigInt s l) = Ok y /\ wf y /\ value y = (if s then - val l else val l) /\ m_length y <= zlen l.
Proof. intros Hl Hn. apply (rightTrim_spec (mkBigInt s l)); [done|unfold m_length; cbn [digits]; lia|]. cbn [digits]. intros ->. change (0 < 0 <= maxLength) in Hn. lia. Qed.

Lemma fresh_spec n : 0 <= n <= maxLength -> createWithLengthUnchecked n = Ok (mkBigInt false (fresh_digits n)) /\ zlen (fresh_digits n) = n /\ digits_ok (fresh_digits n).
Proof. intros Hn. split; [by apply createWithLength_ok|]. apply fresh_digits_ok. lia. Qed.

Lemma tryCreate_spec n :
  0 <= n -> if decide (n <= maxLength) then tryCreateWithLength n = Ok (mkBigInt false (fresh_digits n)) else tryCreateWithLength n = Throw OutOfMemoryError.
Proof.
  intros Hn. unfold tryCreateWithLength. case_decide as Hd; [|by rewrite Z_ltb_true by lia]. rewrite Z_ltb_false by lia. by apply createWithLength_ok.
Qed.

(** ** Copies *)
Lemma unaryMinus_spec x : wf x -> exists y, unaryMinus x = Ok y /\ wf y /\ value y = - value x.
Proof.
  intros Hx. unfold unaryMinus. rewrite isZero_spec. case_bool_decide as Hz.
  - exists x. split; [done|]. split; [done|]. unfold value. rewrite Hz. by destruct (sign x).
  - destruct Hx as [H1 H2 H3 H4]. unfold copy. rewrite isZero_spec, bool_decide_eq_false_2 by done. cbn [negb]. unfold ASSERT at 1. cbn [mbind res_bind].
    pose proof (zlen_nonneg (digits x)) as Hn. rewrite createWithLength_ok by (unfold m_length in *; lia). cbn [mbind res_bind digits].
    destruct (fresh_digits_ok (m_length x) ltac:(done)) as [Hf _]. rewrite (drop_ge (fresh_digits _)), app_nil_r by (unfold zlen in Hf; lia).
    unfold setSign. cbn [sign digits]. rewrite take_ge by (unfold m_length, zlen; lia). eexists. split; [done|]. split; [split|].
    + done. + done. + done. + done.
    + unfold value. cbn [sign digits]. destruct (sign x); cbn [negb]; lia.
Qed.
End facts.
