(* ===== verification/BigIntAdd.v ===== *)
(** * BigIntAdd: sums, differences and comparisons of big integers *)
From S2P Require Import Prelude Doubles BigInt BigIntFacts.
Local Open Scope Z_scope.

Section add.
Context `{DigitConfig}.
Local Abbreviation B := (2 ^ digitBits).

(** ** Digits *)
Lemma B_large : 2 ^ 32 <= B.
Proof. destruct digitBits_ok as [-> | ->]; lia. Qed.

Lemma digitAdd_spec a b c :
  is_digit a -> is_digit b -> 0 <= c <= 2 -> exists r k, digitAdd a b c = (r, c + k) /\ (k = 0 \/ k = 1) /\ is_digit r /\ a + b = r + B * k.
Proof.
  unfold is_digit. intros Ha Hb Hc. pose proof B_large. unfold digitAdd. destruct (decide (a + b < B)) as [Hlt|Hge].
  - rewrite (Digit_small (a + b)) by (unfold is_digit; lia). rewrite Z_ltb_false by lia. exists (a + b), 0. cbn [Z.b2z].
    rewrite Digit_small by (unfold is_digit; lia). split_and!; [done|by left|lia|lia|lia].
  - assert (Digit (a + b) = a + b - B) as ->. { unfold Digit. symmetry. apply (Z.mod_unique _ _ 1); lia. }
    rewrite Z_ltb_true by lia. exists (a + b - B), 1. cbn [Z.b2z]. rewrite Digit_small by (unfold is_digit; lia). split_and!; [done|by right|lia|lia|lia].
Qed.

Lemma digitSub_spec a b c :
  is_digit a -> is_digit b -> 0 <= c <= 2 -> exists r k, digitSub a b c = (r, c + k) /\ (k = 0 \/ k = 1) /\ is_digit r /\ a - b = r - B * k.
Proof.
  unfold is_digit. intros Ha Hb Hc. pose proof B_large. unfold digitSub. destruct (decide (b <= a)) as [Hle|Hgt].
  - rewrite (Digit_small (a - b)) by (unfold is_digit; lia). rewrite Z_ltb_false by lia. exists (a - b), 0. cbn [Z.b2z].
    rewrite Digit_small by (unfold is_digit; lia). split_and!; [done|by left|lia|lia|lia].
  - assert (Digit (a - b) = a - b + B) as ->. { unfold Digit. symmetry. apply (Z.mod_unique _ _ (-1)); lia. }
    rewrite Z_ltb_true by lia. exists (a - b + B), 1. cbn [Z.b2z]. rewrite Digit_small by (unfold is_digit; lia). split_and!; [done|by right|lia|lia|lia].
Qed.

(** A carry, or a borrow. *)
Definition is_carry (c : Z) : Prop := c = 0 \/ c = 1.

Lemma carry_digit c : is_carry c -> is_digit c.
Proof. pose proof B_pos. unfold is_carry, is_digit. lia. Qed.

Lemma digitAdd_carry a c : is_digit a -> is_carry c -> exists r c', digitAdd a c 0 = (r, c') /\ is_carry c' /\ is_digit r /\ a + c = r + B * c'.
Proof.
  intros Ha Hc. destruct (digitAdd_spec a c 0 Ha (carry_digit c Hc) ltac:(lia)) as (r & k & E & Hk & Hr & Hs). by exists r, k.
Qed.

Lemma digitSub_borrow a c : is_digit a -> is_carry c -> exists r c', digitSub a c 0 = (r, c') /\ is_carry c' /\ is_digit r /\ a - c = r - B * c'.
Proof.
  intros Ha Hc. destruct (digitSub_spec a c 0 Ha (carry_digit c Hc) ltac:(lia)) as (r & k & E & Hk & Hr & Hs). by exists r, k.
Qed.

(** Two digits and a carry. *)
Lemma digitAdd_digitAdd a b c :
  is_digit a -> is_digit b -> is_carry c ->
  exists s k r c', digitAdd a b 0 = (s, k) /\ digitAdd s c k = (r, c') /\ is_carry c' /\ is_digit r /\ a + b + c = r + B * c'.
Proof.
  intros Ha Hb Hc. destruct (digitAdd_spec a b 0 Ha Hb ltac:(lia)) as (s & k & E1 & Hk & Hs & Es).
  destruct (digitAdd_spec s c (0 + k) Hs (carry_digit c Hc) ltac:(lia)) as (r & k' & E2 & Hk' & Hr & Er). exists s, (0 + k), r, (0 + k + k').
  split_and!; [done|done| |apply Hr..|lia]. unfold is_carry, is_digit in *. nia.
Qed.

Lemma digitSub_digitSub a b c :
  is_digit a -> is_digit b -> is_carry c ->
  exists s k r c', digitSub a b 0 = (s, k) /\ digitSub s c k = (r, c') /\ is_carry c' /\ is_digit r /\ a - b - c = r - B * c'.
Proof.
  intros Ha Hb Hc. destruct (digitSub_spec a b 0 Ha Hb ltac:(lia)) as (s & k & E1 & Hk & Hs & Es).
  destruct (digitSub_spec s c (0 + k) Hs (carry_digit c Hc) ltac:(lia)) as (r & k' & E2 & Hk' & Hr & Er). exists s, (0 + k), r, (0 + k + k').
  split_and!; [done|done| |apply Hr..|lia]. unfold is_carry, is_digit in *. nia.
Qed.

(** ** Arrays of digits that are being written *)
Record arr (s : bool) (n : Z) (x : JSBigInt) : Prop := { arr_sign : sign x = s; arr_length : m_length x = n; arr_digits : digits_ok (digits x) }.

Lemma arr_set s n x i v :
  arr s n x -> 0 <= i < n -> is_digit v -> setDigit x i v = Ok (mkBigInt s (upd (digits x) i v)) /\ arr s n (mkBigInt s (upd (digits x) i v)).
Proof.
  intros [<- <- H3] Hi Hv. split; [by apply setDigit_upd|]. split; [done| |by apply upd_ok]. unfold m_length. cbn [digits]. apply zlen_upd.
Qed.

Lemma arr_fresh n : 0 <= n -> arr false n (mkBigInt false (fresh_digits n)).
Proof. intros Hn. destruct (fresh_digits_ok n Hn). by split. Qed.

Lemma arr_zlen s n x : arr s n x -> zlen (digits x) = n.
Proof. by intros [_ <- _]. Qed.

Lemma arr_get s n x i : arr s n x -> 0 <= i < n -> digit x i = Ok (dig (digits x) i) /\ is_digit (dig (digits x) i).
Proof. intros [_ <- Hd] Hi. split; [by apply digit_dig|by apply dig_ok]. Qed.

Lemma wf_arr x : wf x -> arr (sign x) (m_length x) x.
Proof. by intros [Hd _ _ _]. Qed.

Lemma arr_eta s n x : arr s n x -> x = mkBigInt s (digits x).
Proof. intros [<- _ _]. by destruct x. Qed.

(** ** Loops that write one digit a round and hand on a carry *)
Lemma drop_eq_dig (l l' : list Z) i : 0 <= i < zlen l -> zlen l = zlen l' -> drop (Z.to_nat i) l = drop (Z.to_nat i) l' -> dig l i = dig l' i.
Proof. intros Hi Hl E. rewrite !(drop_dig _ i) in E by lia. by injection E. Qed.

Lemma drop_eq_succ (l l' : list Z) i : 0 <= i < zlen l -> zlen l = zlen l' -> drop (Z.to_nat i) l = drop (Z.to_nat i) l' -> drop (Z.to_nat (i + 1)) l = drop (Z.to_nat (i + 1)) l'.
Proof. intros Hi Hl E. rewrite !(drop_dig _ i) in E by lia. by injection E. Qed.

(** [F i] is what round [i] adds, [G i] the sum of the rounds before [i]; [sg] is 1 for a carry and -1 for a borrow. *)
Lemma carry_loop (C : Z -> Prop) (sg : Z) s n start lo hi (F G : Z -> Z) body r0 c0 :
  arr s n r0 -> C c0 -> 0 <= start -> 0 <= lo <= hi -> start + hi <= n ->
  (forall i, lo <= i < hi -> G (i + 1) = G i + F i * B ^ i) ->
  (forall i r c, lo <= i < hi -> arr s n r -> C c -> dig (digits r) (start + i) = dig (digits r0) (start + i) ->
    exists d c', body i (r, c) = Ok (mkBigInt s (upd (digits r) (start + i) d), c') /\ is_digit d /\ C c' /\ d + sg * B * c' = F i + sg * c) ->
  exists r c, for_range lo hi body (r0, c0) = Ok (r, c) /\ arr s n r /\ C c /\
    take (Z.to_nat (start + lo)) (digits r) = take (Z.to_nat (start + lo)) (digits r0) /\
    drop (Z.to_nat (start + hi)) (digits r) = drop (Z.to_nat (start + hi)) (digits r0) /\
    low (digits r) (start + hi) = low (digits r0) (start + lo) + B ^ start * (G hi - G lo + sg * (c0 * B ^ lo - c * B ^ hi)).
Proof.
  intros A0 HC0 Hst Hlo Hn HG Hbody.
  destruct (for_range_inv (fun i '(r, c) => arr s n r /\ C c /\ take (Z.to_nat (start + lo)) (digits r) = take (Z.to_nat (start + lo)) (digits r0) /\
    drop (Z.to_nat (start + i)) (digits r) = drop (Z.to_nat (start + i)) (digits r0) /\
    low (digits r) (start + i) = low (digits r0) (start + lo) + B ^ start * (G i - G lo + sg * (c0 * B ^ lo - c * B ^ i))) lo hi body (r0, c0))
    as ([r c] & E & Hinv); [lia|split_and!; [done|done|done|done|lia]| |by exists r, c].
  intros i [r c] Hi (Ar & HC & Htake & Hdrop & Hlow). pose proof (arr_zlen _ _ _ Ar) as Hlr. pose proof (arr_zlen _ _ _ A0) as Hl0.
  destruct (Hbody i r c Hi Ar HC) as (d & c' & -> & Hd & HC' & Ed); [apply drop_eq_dig; [lia|lia|done]|].
  eexists. split; [done|]. destruct (arr_set _ _ r (start + i) d Ar ltac:(lia) Hd) as [_ Ar']. replace (start + (i + 1)) with (start + i + 1) by lia.
  split; [done|]. split; [done|]. cbn [digits]. split; [by rewrite take_upd by lia|]. split; [rewrite drop_upd by lia; apply drop_eq_succ; [lia|lia|done]|].
  rewrite low_upd_succ, Hlow, HG, pow_B_succ by lia. pose proof B_pos. rewrite Z.pow_add_r by lia. nia.
Qed.

(** Loops that write one digit a round. *)
Lemma write_loop s n start lo hi (F G : Z -> Z) body r0 :
  arr s n r0 -> 0 <= start -> 0 <= lo <= hi -> start + hi <= n ->
  (forall i, lo <= i < hi -> G (i + 1) = G i + F i * B ^ i) ->
  (forall i r, lo <= i < hi -> arr s n r -> body i r = Ok (mkBigInt s (upd (digits r) (start + i) (F i))) /\ is_digit (F i)) ->
  exists r, for_range lo hi body r0 = Ok r /\ arr s n r /\
    drop (Z.to_nat (start + hi)) (digits r) = drop (Z.to_nat (start + hi)) (digits r0) /\
    low (digits r) (start + hi) = low (digits r0) (start + lo) + B ^ start * (G hi - G lo).
Proof.
  intros A0 Hst Hlo Hn HG Hbody.
  destruct (for_range_inv (fun i r => arr s n r /\ drop (Z.to_nat (start + i)) (digits r) = drop (Z.to_nat (start + i)) (digits r0) /\
    low (digits r) (start + i) = low (digits r0) (start + lo) + B ^ start * (G i - G lo)) lo hi body r0)
    as (r & E & Hinv); [lia|split_and!; [done|done|lia]| |by exists r].
  intros i r Hi (Ar & Hdrop & Hlow). pose proof (arr_zlen _ _ _ Ar) as Hlr. pose proof (arr_zlen _ _ _ A0) as Hl0.
  destruct (Hbody i r Hi Ar) as [-> Hd].
  eexists. split; [done|]. destruct (arr_set _ _ r (start + i) _ Ar ltac:(lia) Hd) as [_ Ar']. replace (start + (i + 1)) with (start + i + 1) by lia.
  split; [done|]. cbn [digits]. split; [rewrite drop_upd by lia; apply drop_eq_succ; [lia|lia|done]|].
  rewrite low_upd_succ, Hlow, HG by lia. pose proof B_pos. rewrite Z.pow_add_r by lia. nia.
Qed.

(** The number with the absolute value of [x] and a given sign. *)
Lemma with_sign x s :
  wf x -> exists z, (if Bool.eqb s (sign x) then Ok x else unaryMinus x) = Ok z /\ wf z /\ value z = (if s then - val (digits x) else val (digits x)).
Proof.
  intros Hx. destruct (Bool.eqb s (sign x)) eqn:E.
  - apply eqb_prop in E as ->. exists x. split; [done|]. split; [done|]. unfold value. destruct (sign x); lia.
  - destruct (unaryMinus_spec x Hx) as (z & -> & Hz & Hv). exists z. split; [done|]. split; [done|]. rewrite Hv. unfold value. destruct s, (sign x); try done; lia.
Qed.

(** ** Addition *)
Lemma absoluteAdd_ordered_spec x y s :
  wf x -> wf y -> m_length y <= m_length x ->
  (absoluteAdd_ordered x y s = Throw OutOfMemoryError /\ maxLength < m_length x + 1 /\ digits y <> []) \/
  exists z, absoluteAdd_ordered x y s = Ok z /\ wf z /\ value z = (if s then - (val (digits x) + val (digits y)) else val (digits x) + val (digits y)).
Proof.
  intros Hx Hy Hle. unfold absoluteAdd_ordered. rewrite !isZero_spec. case_bool_decide as Hzx.
  { assert (digits y = []) as Hzy by (apply zlen_0_nil; unfold m_length in Hle; by rewrite Hzx in Hle). rewrite Hzx, Hzy. right. exists x.
    split; [done|]. split; [done|]. unfold value. rewrite Hzx. by destruct s, (sign x). }
  case_bool_decide as Hzy.
  { right. rewrite Hzy. cbn [val]. rewrite Z.add_0_r. by apply with_sign. }
  pose proof (zlen_nonneg (digits y)) as Hny. fold (m_length y) in Hny. pose proof (tryCreate_spec (m_length x + 1) ltac:(lia)) as Hc. case_decide as Hmax.
  2:{ left. rewrite Hc. split; [done|]. split; [lia|done]. }
  right. rewrite Hc. cbn [mbind res_bind]. pose proof (wf_arr x Hx) as Ax. pose proof (wf_arr y Hy) as Ay. name_for body.
  destruct (carry_loop is_carry 1 false (m_length x + 1) 0 0 (m_length y) (fun i => dig (digits x) i + dig (digits y) i) (fun i => low (digits x) i + low (digits y) i)
    body (mkBigInt false (fresh_digits (m_length x + 1))) 0) as (r & c & -> & Ar & Hcar & _ & _ & Hr).
  { apply arr_fresh. lia. } { by left. } { lia. } { lia. } { lia. } { intros i Hi. rewrite !low_succ by (unfold m_length in *; lia). lia. }
  { intros i r c Hi Ar Hcar _. unfold body. destruct (arr_get _ _ x i Ax ltac:(lia)) as [-> Ha], (arr_get _ _ y i Ay Hi) as [-> Hb]. cbn [mbind res_bind].
    destruct (digitAdd_digitAdd _ _ c Ha Hb Hcar) as (s1 & k & d & c' & -> & -> & Hc' & Hd & E). exists d, c'.
    destruct (arr_set _ _ r i d Ar ltac:(lia) Hd) as [-> _]. split_and!; [done|apply Hd..|done|lia]. }
  clear body. cbn [mbind res_bind]. name_for body.
  destruct (carry_loop is_carry 1 false (m_length x + 1) 0 (m_length y) (m_length x) (dig (digits x)) (low (digits x)) body r c) as (r' & c' & -> & Ar' & Hcar' & _ & _ & Hr').
  { done. } { done. } { lia. } { lia. } { lia. } { intros i Hi. by rewrite low_succ by (unfold m_length in *; lia). }
  { intros i r1 c1 Hi Ar1 Hcar1 _. unfold body. destruct (arr_get _ _ x i Ax ltac:(lia)) as [-> Ha]. cbn [mbind res_bind].
    destruct (digitAdd_carry _ c1 Ha Hcar1) as (d & c' & -> & Hc' & Hd & E). exists d, c'.
    destruct (arr_set _ _ r1 i d Ar1 ltac:(lia) Hd) as [-> _]. split_and!; [done|apply Hd..|done|lia]. }
  cbn [mbind res_bind]. destruct (arr_set _ _ r' (m_length x) c' Ar' ltac:(lia) (carry_digit _ Hcar')) as [-> Ar'']. cbn [mbind res_bind]. unfold setSign. cbn [digits].
  destruct (trim_signed_spec s (upd (digits r') (m_length x) c') (arr_digits _ _ _ Ar'')) as (z & -> & Hz & Hv & _); [rewrite zlen_upd, (arr_zlen _ _ _ Ar'); lia|].
  exists z. split; [done|]. split; [done|]. rewrite Hv. rewrite <- (low_all (upd (digits r') (m_length x) c') (m_length x + 1)) by (rewrite zlen_upd, (arr_zlen _ _ _ Ar'); lia).
  rewrite low_upd_succ by (rewrite (arr_zlen _ _ _ Ar'); lia). rewrite !Z.add_0_l in *. rewrite Hr', Hr, Z.pow_0_r, !low_0.
  rewrite (low_all (digits x) (m_length x)), (low_all (digits y)) by (unfold m_length; lia). destruct s; lia.
Qed.

Lemma absoluteAdd_spec x y s :
  wf x -> wf y ->
  (absoluteAdd x y s = Throw OutOfMemoryError /\ maxLength = Z.max (m_length x) (m_length y) /\ digits x <> [] /\ digits y <> []) \/
  exists z, absoluteAdd x y s = Ok z /\ wf z /\ value z = (if s then - (val (digits x) + val (digits y)) else val (digits x) + val (digits y)).
Proof.
  intros Hx Hy. unfold absoluteAdd. pose proof (wf_length x Hx). pose proof (wf_length y Hy). pose proof maxLength_pos. destruct (m_length x <? m_length y) eqn:E; bool_prop.
  - destruct (absoluteAdd_ordered_spec y x s Hy Hx ltac:(lia)) as [(Et & Hm & Hn)|(z & Ez & Hz & Hv)].
    + left. split; [done|]. split; [lia|]. split; [done|]. intros Ey. unfold m_length in *. rewrite Ey in *. change (zlen []) with 0 in *. lia.
    + right. exists z. split; [done|]. split; [done|]. rewrite Hv. destruct s; lia.
  - destruct (absoluteAdd_ordered_spec x y s Hx Hy ltac:(lia)) as [(Et & Hm & Hn)|(z & Ez & Hz & Hv)].
    + left. split; [done|]. split; [lia|]. split; [|done]. intros Ey. unfold m_length in *. rewrite Ey in *. change (zlen []) with 0 in *. lia.
    + right. by exists z.
Qed.

(** ** Comparison *)
Lemma last_digit_nonzero_ok x : wf x -> last_digit_nonzero x = Ok true.
Proof.
  intros [H1 H2 H3 H4]. unfold last_digit_nonzero. pose proof (zlen_nonneg (digits x)) as Hn. fold (m_length x) in Hn. destruct (m_length x =? 0) eqn:E; bool_prop; [done|].
  rewrite digit_dig by lia. cbn [mbind res_bind]. pose proof (H2 _ eq_refl) as Hd. fold (m_length x) in Hd. by rewrite (proj2 (Z.eqb_neq _ 0) (Hd ltac:(lia))).
Qed.

(** A number with fewer digits is smaller. *)
Lemma shorter_smaller a b : wf a -> wf b -> m_length a < m_length b -> val (digits a) < val (digits b).
Proof.
  intros Ha Hb Hab. pose proof (val_bound _ (wf_digits a Ha)) as Ba. fold (m_length a) in Ba. pose proof (zlen_nonneg (digits a)) as Hna. fold (m_length a) in Hna.
  pose proof (trimmed_bound _ (wf_digits b Hb) (wf_trimmed b Hb)) as Tb. fold (m_length b) in Tb. assert (B ^ m_length a <= B ^ (m_length b - 1)) by (pose proof B_pos; apply Z.pow_le_mono_r; lia).
  assert (digits b <> []). { intros Eb. unfold m_length in *. rewrite Eb in *. change (zlen []) with 0 in *. lia. } specialize (Tb ltac:(done)). lia.
Qed.

Definition compare_Z (a b : Z) : ComparisonResult := if a <? b then LessThan else if b <? a then GreaterThan else Equal.

Lemma absoluteCompare_spec x y : wf x -> wf y -> absoluteCompare x y = Ok (compare_Z (val (digits x)) (val (digits y))).
Proof.
  intros Hx Hy. unfold absoluteCompare. rewrite (last_digit_nonzero_ok x Hx), (last_digit_nonzero_ok y Hy). cbn [mbind res_bind ASSERT].
  pose proof (zlen_nonneg (digits x)) as Hnx. pose proof (zlen_nonneg (digits y)) as Hny. fold (m_length x) in Hnx. fold (m_length y) in Hny.
  pose proof (val_bound _ (wf_digits x Hx)) as Bx. pose proof (val_bound _ (wf_digits y Hy)) as By. fold (m_length x) in Bx. fold (m_length y) in By.
  destruct (m_length x - m_length y =? 0) eqn:E; bool_prop; cbn [negb].
  - name_while test body. assert (m_length x = m_length y) as El by lia.
    destruct (while_inv (fun i => -1 <= i <= m_length x - 1 /\ high (digits x) (i + 1) = high (digits y) (i + 1)) (fun i => i + 1) (S (Z.to_nat (m_length x))) test body (m_length x - 1))
      as (i & -> & [Hi Hh] & Ht).
    { split; [lia|]. rewrite !high_all by (unfold m_length in *; lia). done. } { lia. }
    { intros i [Hi Hh]. unfold test. destruct (0 <=? i) eqn:E0; bool_prop; [|by exists false]. rewrite !digit_dig by lia. cbn [mbind res_bind]. eexists. split; [done|].
      intros Hd. bool_prop. exists (i - 1). split; [done|]. split; [|lia]. split; [lia|]. replace (i - 1 + 1) with i by lia. rewrite !(high_succ _ i) by (unfold m_length in *; lia). lia. }
    cbn [mbind res_bind]. destruct (i <? 0) eqn:E0; bool_prop.
    + assert (i = -1) as -> by lia. change (-1 + 1) with 0 in Hh. rewrite !high_0 in Hh. unfold compare_Z. rewrite Hh, Z.ltb_irrefl. done.
    + unfold test in Ht. rewrite Z_leb_true, !digit_dig in Ht by lia. cbn [mbind res_bind] in Ht. injection Ht as Ht. bool_prop. rewrite !digit_dig by lia. cbn [mbind res_bind].
      rewrite (low_high (digits x) i), (low_high (digits y) i) by (unfold m_length in *; lia). rewrite !(high_succ _ i) by (unfold m_length in *; lia). rewrite Hh.
      pose proof (low_bound (digits x) i (wf_digits x Hx) E0). pose proof (low_bound (digits y) i (wf_digits y Hy) E0). unfold compare_Z.
      destruct (dig (digits y) i <? dig (digits x) i) eqn:Ed; bool_prop; [rewrite Z_ltb_false, Z_ltb_true by nia|rewrite Z_ltb_true by nia]; done.
  - unfold compare_Z. destruct (m_length x - m_length y <? 0) eqn:Ed; bool_prop.
    + by rewrite Z_ltb_true by (apply shorter_smaller; [done..|lia]).
    + pose proof (shorter_smaller y x Hy Hx ltac:(lia)). by rewrite Z_ltb_false, Z_ltb_true by lia.
Qed.

Lemma value_sign x : wf x -> if sign x then value x < 0 else 0 <= value x.
Proof.
  intros Hx. pose proof (val_bound _ (wf_digits x Hx)) as Bx. unfold value. destruct (sign x) eqn:E; [|lia].
  assert (val (digits x) <> 0); [|lia]. intros Hz. pose proof (wf_sign x Hx (val_zero _ (wf_digits x Hx) (wf_trimmed x Hx) Hz)). congruence.
Qed.

Lemma compare_spec x y : wf x -> wf y -> compare x y = Ok (compare_Z (value x) (value y)).
Proof.
  intros Hx Hy. unfold compare. pose proof (value_sign x Hx) as Sx. pose proof (value_sign y Hy) as Sy. rewrite absoluteCompare_spec by done. cbn [mbind res_bind].
  unfold value, compare_Z in *. destruct (sign x), (sign y); cbn [Bool.eqb negb].
  - repeat if_cases; bool_prop; first [done|lia].
  - by rewrite Z_ltb_true by lia.
  - by rewrite Z_ltb_false, Z_ltb_true by lia.
  - repeat if_cases; bool_prop; first [done|lia].
Qed.

Lemma equals_loop_spec n i x y :
  0 <= i -> i + Z.of_nat n = m_length x -> m_length x = m_length y ->
  equals_loop n i x y = Ok (bool_decide (drop (Z.to_nat i) (digits x) = drop (Z.to_nat i) (digits y))).
Proof.
  revert i. induction n as [|n IH]; intros i Hi Hn El; cbn [equals_loop].
  - rewrite !drop_ge by (unfold m_length, zlen in *; lia). done.
  - rewrite !digit_dig by lia. cbn [mbind res_bind]. rewrite !(drop_dig _ i) by (unfold m_length in *; lia). destruct (dig (digits x) i =? dig (digits y) i) eqn:E; bool_prop; cbn [negb].
    + rewrite IH, E by lia. f_equal. apply bool_decide_ext. split; [by intros ->|by intros [=]].
    + rewrite bool_decide_eq_false_2; [done|]. by intros [=].
Qed.

(** Numbers have one representation. *)
Lemma val_inj l l' : digits_ok l -> digits_ok l' -> zlen l = zlen l' -> val l = val l' -> l = l'.
Proof.
  intros Hl. revert l'. induction Hl as [|d l Hd Hl IH]; intros l' Hl' En Ev.
  - symmetry. apply zlen_0_nil. rewrite <- En. done.
  - destruct Hl' as [|d' l' Hd' Hl']; [rewrite zlen_cons, zlen_nil in En; zlia|]. cbn [val] in Ev. rewrite !zlen_cons in En. unfold is_digit in *.
    assert (val l = val l') as E by (destruct (Z.lt_trichotomy (val l) (val l')) as [|[|]]; [nia|done|nia]). assert (d = d') as -> by lia. f_equal. apply IH; [done|lia|done].
Qed.

Lemma wf_inj x y : wf x -> wf y -> value x = value y -> x = y.
Proof.
  intros Hx Hy E. pose proof (value_sign x Hx) as Sx. pose proof (value_sign y Hy) as Sy. assert (sign x = sign y) as Es by (destruct (sign x), (sign y); [done|lia|lia|done]).
  assert (val (digits x) = val (digits y)) as Ev by (unfold value in E; rewrite Es in E; destruct (sign y); lia). assert (zlen (digits x) = zlen (digits y)) as El.
  { destruct (Z.lt_trichotomy (m_length x) (m_length y)) as [Hl|[Hl|Hl]]; [apply shorter_smaller in Hl; [lia|done..]|done|apply shorter_smaller in Hl; [lia|done..]]. }
  pose proof (val_inj _ _ (wf_digits x Hx) (wf_digits y Hy) El Ev). destruct x as [sx lx], y as [sy ly]. cbn [sign digits] in *. congruence.
Qed.

Lemma equals_spec x y : wf x -> wf y -> equals x y = Ok (bool_decide (value x = value y)).
Proof.
  intros Hx Hy. unfold equals. destruct (Bool.eqb (sign x) (sign y)) eqn:Es; cbn [negb].
  2:{ rewrite bool_decide_eq_false_2; [done|]. intros E%wf_inj; [|done..]. subst y. by rewrite eqb_reflx in Es. }
  destruct (m_length x =? m_length y) eqn:El; bool_prop; cbn [negb].
  2:{ rewrite bool_decide_eq_false_2; [done|]. intros E%wf_inj; [|done..]. by subst y. }
  pose proof (zlen_nonneg (digits x)). rewrite equals_loop_spec by (unfold m_length in *; lia). f_equal. apply bool_decide_ext. cbn [Z.to_nat]. rewrite !drop_0. apply eqb_prop in Es. split.
  - intros E. unfold value. by rewrite Es, E.
  - intros E%wf_inj; [|done..]. by subst y.
Qed.

(** ** Subtraction *)
Lemma absoluteSub_spec x y s :
  wf x -> wf y -> val (digits y) <= val (digits x) ->
  exists z, absoluteSub x y s = Ok z /\ wf z /\ value z = (if s then - (val (digits x) - val (digits y)) else val (digits x) - val (digits y)).
Proof.
  intros Hx Hy Hle. unfold absoluteSub. rewrite absoluteCompare_spec by done. cbn [mbind res_bind].
  assert (m_length y <= m_length x) as Hlen. { destruct (Z.le_gt_cases (m_length y) (m_length x)) as [|Hl]; [done|]. apply shorter_smaller in Hl; [lia|done..]. }
  rewrite Z_leb_true by done. cbn [ASSERT mbind res_bind]. rewrite !isZero_spec. set (c := compare_Z _ _).
  assert (bool_decide (c = GreaterThan) || bool_decide (c = Equal) = true) as ->. { unfold c, compare_Z. rewrite Z_ltb_false by done. by destruct (_ <? _). }
  cbn [ASSERT mbind res_bind]. case_bool_decide as Hzx.
  { assert (digits y = []) as Hzy by (apply zlen_0_nil; unfold m_length in *; by rewrite Hzx in Hlen). rewrite Hzx, Hzy. exists x.
    split; [done|]. split; [done|]. unfold value. rewrite Hzx. by destruct s, (sign x). }
  case_bool_decide as Hzy.
  { rewrite Hzy. cbn [val]. rewrite Z.sub_0_r. by apply with_sign. }
  case_bool_decide as Hc.
  { unfold c, compare_Z in Hc. destruct (_ <? _) eqn:E1 in Hc; [done|]. destruct (_ <? _) eqn:E2 in Hc; [done|]. bool_prop. rewrite createZero_ok.
    exists (mkBigInt false []). split; [done|]. split; [apply wf_zero|]. unfold value. cbn [sign digits val]. destruct s; lia. }
  pose proof (zlen_nonneg (digits y)) as Hny. fold (m_length y) in Hny. pose proof (wf_length x Hx). rewrite createWithLength_ok by lia. cbn [mbind res_bind].
  assert (0 < m_length x) as Hpos by (unfold m_length; destruct (digits x); [done|zlia]).
  pose proof (wf_arr x Hx) as Ax. pose proof (wf_arr y Hy) as Ay. name_for body.
  destruct (carry_loop is_carry (-1) false (m_length x) 0 0 (m_length y) (fun i => dig (digits x) i - dig (digits y) i) (fun i => low (digits x) i - low (digits y) i)
    body (mkBigInt false (fresh_digits (m_length x))) 0) as (r & b & -> & Ar & Hb & _ & _ & Hr).
  { apply arr_fresh. lia. } { by left. } { lia. } { lia. } { lia. } { intros i Hi. rewrite !low_succ by (unfold m_length in *; lia). lia. }
  { intros i r b Hi Ar Hb _. unfold body. destruct (arr_get _ _ x i Ax ltac:(lia)) as [-> Da], (arr_get _ _ y i Ay Hi) as [-> Db]. cbn [mbind res_bind].
    destruct (digitSub_digitSub _ _ b Da Db Hb) as (s1 & k & d & b' & -> & -> & Hb' & Hd & E). exists d, b'.
    destruct (arr_set _ _ r i d Ar ltac:(lia) Hd) as [-> _]. split_and!; [done|apply Hd..|done|lia]. }
  clear body. cbn [mbind res_bind]. name_for body.
  destruct (carry_loop is_carry (-1) false (m_length x) 0 (m_length y) (m_length x) (dig (digits x)) (low (digits x)) body r b) as (r' & b' & -> & Ar' & Hb' & _ & _ & Hr').
  { done. } { done. } { lia. } { lia. } { lia. } { intros i Hi. by rewrite low_succ by (unfold m_length in *; lia). }
  { intros i r1 b1 Hi Ar1 Hb1 _. unfold body. destruct (arr_get _ _ x i Ax ltac:(lia)) as [-> Ha]. cbn [mbind res_bind].
    destruct (digitSub_borrow _ b1 Ha Hb1) as (d & b' & -> & Hb' & Hd & E). exists d, b'.
    destruct (arr_set _ _ r1 i d Ar1 ltac:(lia) Hd) as [-> _]. split_and!; [done|apply Hd..|done|lia]. }
  cbn [mbind res_bind]. rewrite !Z.add_0_l in *. rewrite Z.pow_0_r, !low_0, ?(low_all (digits x) (m_length x)), ?(low_all (digits y)) in * by (unfold m_length; lia).
  rewrite (low_all (digits r')) in Hr' by (rewrite (arr_zlen _ _ _ Ar'); lia). pose proof (val_bound _ (arr_digits _ _ _ Ar')) as Br. rewrite (arr_zlen _ _ _ Ar') in Br.
  assert (b' = 0) as -> by (unfold is_carry in Hb'; lia). cbn [ASSERT mbind res_bind]. unfold setSign.
  destruct (trim_signed_spec s (digits r') (arr_digits _ _ _ Ar')) as (z & -> & Hz & Hv & _); [rewrite (arr_zlen _ _ _ Ar'); lia|].
  exists z. split; [done|]. split; [done|]. rewrite Hv. destruct s; lia.
Qed.

(** ** Signed operations *)
Lemma at_least_spec a b : at_least (compare_Z a b) = (b <=? a).
Proof. unfold compare_Z, at_least. destruct (a <? b) eqn:E1; [|destruct (b <? a) eqn:E2]; bool_prop; [by rewrite Z_leb_false|rewrite Z_leb_true by lia; done..]. Qed.

(** The sum of a number and one of the given sign and absolute value: both [add] and [sub] compute it. *)
Lemma signed_sum x y s :
  wf x -> wf y ->
  let r := if Bool.eqb (sign x) s then absoluteAdd x y (sign x)
           else c ← absoluteCompare x y; if at_least c then absoluteSub x y (sign x) else absoluteSub y x (negb (sign x)) in
  (r = Throw OutOfMemoryError /\ maxLength = Z.max (m_length x) (m_length y) /\ digits x <> [] /\ digits y <> [] /\ sign x = s) \/
  exists z, r = Ok z /\ wf z /\ value z = value x + (if s then - val (digits y) else val (digits y)).
Proof.
  intros Hx Hy r. unfold r. destruct (Bool.eqb (sign x) s) eqn:E.
  - apply eqb_prop in E as <-. destruct (absoluteAdd_spec x y (sign x) Hx Hy) as [(-> & H1 & H2 & H3)|(z & -> & Hz & Hv)]; [by left|right].
    exists z. split; [done|]. split; [done|]. rewrite Hv. unfold value. destruct (sign x); lia.
  - right. rewrite absoluteCompare_spec by done. cbn [mbind res_bind]. rewrite at_least_spec. assert (s = negb (sign x)) as -> by (by destruct s, (sign x)). unfold value at 2.
    destruct (val (digits y) <=? val (digits x)) eqn:El; bool_prop.
    + destruct (absoluteSub_spec x y (sign x) Hx Hy ltac:(lia)) as (z & -> & Hz & Hv). exists z. split; [done|]. split; [done|]. rewrite Hv. destruct (sign x); cbn [negb]; lia.
    + destruct (absoluteSub_spec y x (negb (sign x)) Hy Hx ltac:(lia)) as (z & -> & Hz & Hv). exists z. split; [done|]. split; [done|]. rewrite Hv. destruct (sign x); cbn [negb]; lia.
Qed.

Lemma bigint_add_spec x y :
  wf x -> wf y ->
  (add x y = Throw OutOfMemoryError /\ maxLength = Z.max (m_length x) (m_length y) /\ digits x <> [] /\ digits y <> [] /\ sign x = sign y) \/
  exists z, add x y = Ok z /\ wf z /\ value z = value x + value y.
Proof. intros Hx Hy. apply (signed_sum x y (sign y) Hx Hy). Qed.

Lemma sub_spec x y :
  wf x -> wf y ->
  (sub x y = Throw OutOfMemoryError /\ maxLength = Z.max (m_length x) (m_length y) /\ digits x <> [] /\ digits y <> [] /\ sign x <> sign y) \/
  exists z, sub x y = Ok z /\ wf z /\ value z = value x - value y.
Proof.
  intros Hx Hy. pose proof (signed_sum x y (negb (sign y)) Hx Hy) as Hs. cbv zeta in Hs. unfold sub.
  assert (negb (Bool.eqb (sign x) (sign y)) = Bool.eqb (sign x) (negb (sign y))) as -> by (by destruct (sign x), (sign y)).
  destruct Hs as [(Er & H1 & H2 & H3 & H4)|(z & Er & Hz & Hv)].
  - left. split_and!; [done..|]. rewrite H4. by destruct (sign y).
  - right. exists z. split; [done|]. split; [done|]. rewrite Hv. unfold value. destruct (sign y); cbn [negb]; lia.
Qed.
End add.
