(* ===== verification/BigIntMul.v ===== *)
(** * BigIntMul: products of digits and of big integers *)
From S2P Require Import Prelude Doubles BigInt BigIntFacts BigIntAdd.
Local Open Scope Z_scope.

Section mul.
Context `{DigitConfig}.
Local Abbreviation B := (2 ^ digitBits).
Local Abbreviation hb := (2 ^ halfDigitBits).

(** ** Products of digits *)
Lemma half_digit : 0 <= halfDigitBits /\ B = hb * hb /\ 2 ^ 16 <= hb.
Proof. unfold halfDigitBits. destruct digitBits_ok as [-> | ->]; done. Qed.

Lemma halfDigitMask_land a : Z.land a halfDigitMask = a mod hb.
Proof. unfold halfDigitMask. rewrite Z.shiftl_1_l. apply Z_land_ones. apply half_digit. Qed.

Lemma shiftr_half a : Z.shiftr a halfDigitBits = a / hb.
Proof. apply Z.shiftr_div_pow2, half_digit. Qed.

Lemma shiftl_half a : Z.shiftl a halfDigitBits = a * hb.
Proof. apply Z.shiftl_mul_pow2, half_digit. Qed.

Lemma half_split a : is_digit a -> exists h l, a = h * hb + l /\ 0 <= h < hb /\ 0 <= l < hb /\ a / hb = h /\ a mod hb = l.
Proof.
  intros Ha. destruct half_digit as (_ & HB & Hh). exists (a / hb), (a mod hb). unfold is_digit in Ha. rewrite HB in Ha.
  pose proof (Z.div_mod a hb) as E1. pose proof (Z.mod_pos_bound a hb) as E2. specialize (E1 ltac:(lia)). specialize (E2 ltac:(lia)). split; [lia|]. split; [|done].
  split; [apply Z.div_pos; lia|apply Z.div_lt_upper_bound; lia].
Qed.

Lemma Digit_shiftl_half a : is_digit a -> Digit (Z.shiftl a halfDigitBits) = a mod hb * hb.
Proof.
  intros Ha. destruct (half_split a Ha) as (h & l & -> & Hh & Hl & _ & ->). rewrite shiftl_half. unfold Digit. destruct half_digit as (_ & -> & Hb). symmetry.
  apply (Z.mod_unique _ _ h); [left; nia|lia].
Qed.

Lemma digitMul_two_spec a b : is_digit a -> is_digit b -> digitMul_two a b = ((a * b) mod B, a * b / B).
Proof.
  unfold is_digit. intros Ha Hb. pose proof B_pos. unfold digitMul_two, Digit. assert (2 ^ (2 * digitBits) = B * B) as ->.
  { replace (2 * digitBits) with (digitBits + digitBits) by lia. apply Z.pow_add_r; destruct digitBits_ok as [-> | ->]; lia. }
  rewrite (Z.mod_small (a * b) (B * B)) by nia. rewrite Z.shiftr_div_pow2 by (destruct digitBits_ok as [-> | ->]; lia). f_equal.
  apply Z.mod_small. split; [apply Z.div_pos; nia|apply Z.div_lt_upper_bound; nia].
Qed.

Lemma product_digit a b : 0 <= a < hb -> 0 <= b < hb -> is_digit (a * b).
Proof. intros Ha Hb. unfold is_digit. destruct half_digit as (_ & -> & _). nia. Qed.

(** The portable product is the product. *)
Lemma digitMul_half_spec a b : is_digit a -> is_digit b -> digitMul_half a b = ((a * b) mod B, a * b / B).
Proof.
  intros Ha Hb. destruct half_digit as (_ & HB & Hh). unfold digitMul_half. rewrite !halfDigitMask_land, !shiftr_half.
  destruct (half_split a Ha) as (aH & aL & Ea & HaH & HaL & -> & ->), (half_split b Hb) as (bH & bL & Eb & HbH & HbL & -> & ->).
  rewrite (Digit_small (aL * bL)), (Digit_small (aL * bH)), (Digit_small (aH * bL)), (Digit_small (aH * bH)) by (by apply product_digit). pose proof (product_digit aL bH HaL HbH) as D1. pose proof (product_digit aH bL HaH HbL) as D2. rewrite (Digit_shiftl_half (aL * bH)), (Digit_shiftl_half (aH * bL)) by done.
  destruct (half_split _ D1) as (p1 & q1 & E1 & Hp1 & Hq1 & -> & ->), (half_split _ D2) as (p2 & q2 & E2 & Hp2 & Hq2 & -> & ->).
  assert (is_digit (q1 * hb)) as D3 by (unfold is_digit; nia). assert (is_digit (q2 * hb)) as D4 by (unfold is_digit; nia).
  destruct (digitAdd_spec (aL * bL) (q1 * hb) 0 (product_digit aL bL HaL HbL) D3 ltac:(lia)) as (r1 & k1 & -> & Hk1 & Hr1 & S1).
  destruct (digitAdd_spec r1 (q2 * hb) (0 + k1) Hr1 D4 ltac:(lia)) as (r2 & k2 & -> & Hk2 & Hr2 & S2).
  assert (0 <= aH * bH) as P0 by (apply Z.mul_nonneg_nonneg; lia). set (X := p1 + p2 + aH * bH + (0 + k1 + k2)). assert (0 <= X) as HX by (unfold X; lia).
  assert (a * b = B * X + r2) as Eab.
  { assert (a * b = aH * bH * (hb * hb) + (aH * bL) * hb + (aL * bH) * hb + aL * bL) as -> by (rewrite Ea, Eb; ring). rewrite E1, E2, <- HB. unfold X.
    replace ((p2 * hb + q2) * hb) with (B * p2 + q2 * hb) by (rewrite HB; ring). replace ((p1 * hb + q1) * hb) with (B * p1 + q1 * hb) by (rewrite HB; ring). lia. }
  assert (is_digit X) as Dh by (clear - HX Eab Ha Hb Hr2; unfold is_digit in *; nia). rewrite (Digit_small _ Dh). f_equal.
  - by apply (Z.mod_unique _ _ X); [left|].
  - by apply (Z.div_unique _ _ _ r2); [left|].
Qed.

Lemma digitMul_spec a b : is_digit a -> is_digit b -> exists l h, digitMul a b = (l, h) /\ is_digit l /\ is_digit h /\ a * b = l + B * h.
Proof.
  intros Ha Hb. exists ((a * b) mod B), (a * b / B). split; [unfold digitMul; destruct have_two_digit; [by apply digitMul_two_spec|by apply digitMul_half_spec]|].
  unfold is_digit in *. pose proof B_pos. pose proof (Z.div_mod (a * b) B) as E1. pose proof (Z.mod_pos_bound (a * b) B) as E2. specialize (E1 ltac:(lia)). specialize (E2 ltac:(lia)).
  split; [done|]. split; [|lia]. split; [apply Z.div_pos; nia|apply Z.div_lt_upper_bound; nia].
Qed.

(** ** Products by a digit *)
Lemma internalMultiplyAdd_spec s N n source factor summand result :
  arr s N result -> 0 <= n <= N -> n <= m_length (default result source) -> digits_ok (digits (default result source)) ->
  is_digit factor -> is_digit summand ->
  let total := factor * low (digits (default result source)) n + summand in
  (n < N \/ total < B ^ n) ->
  exists r, internalMultiplyAdd source factor summand n result = Ok r /\ arr s N r /\ val (digits r) = total.
Proof.
  intros Ar Hn Hsrc Dsrc Df Ds total Hfit. unfold internalMultiplyAdd. set (src := default result source) in *. rewrite (Z_leb_true n (m_length src)) by done. cbn [ASSERT mbind res_bind].
  rewrite (arr_length _ _ _ Ar), (Z_leb_true n N) by lia. cbn [ASSERT mbind res_bind]. name_for body.
  destruct (for_range_inv (fun i '(r, c, h) => arr s N r /\ is_digit c /\ is_digit h /\ drop (Z.to_nat i) (digits r) = drop (Z.to_nat i) (digits result) /\
    low (digits r) i + (c + h) * B ^ i = factor * low (digits src) i + summand) 0 n body (result, summand, 0)) as ([[r c] h] & -> & Ar' & Dc & Dh & _ & Hr).
  { lia. } { refine (conj Ar (conj Ds (conj is_digit_0 (conj eq_refl _)))). rewrite !low_0, Z.pow_0_r. lia. }
  { intros i [[r c] h] Hi (Ar' & Dc & Dh & Hdrop & Hr). unfold body. assert (digit (default r source) i = Ok (dig (digits src) i)) as ->.
    { unfold src. destruct source as [y|]; cbn [default]; [apply digit_dig; unfold src in *; cbn [default] in *; lia|].
      destruct (arr_get _ _ r i Ar' ltac:(lia)) as [-> _]. f_equal. cbn. apply drop_eq_dig; [rewrite (arr_zlen _ _ _ Ar'); lia|by rewrite (arr_zlen _ _ _ Ar'), (arr_zlen _ _ _ Ar)|done]. }
    cbn [mbind res_bind]. destruct (digitMul_spec _ factor (dig_ok _ i Dsrc) Df) as (lo & h' & -> & Dl & Dh' & Em).
    destruct (digitAdd_spec lo h 0 Dl Dh ltac:(lia)) as (r1 & k1 & -> & Hk1 & Dr1 & S1). destruct (digitAdd_spec r1 c (0 + k1) Dr1 Dc ltac:(lia)) as (r2 & k2 & -> & Hk2 & Dr2 & S2).
    destruct (arr_set _ _ r i r2 Ar' ltac:(lia) Dr2) as [-> Ar'']. cbn [mbind res_bind]. eexists. split; [done|]. split; [done|].
    pose proof B_large. split; [unfold is_digit; lia|]. split; [done|]. cbn [digits].
    split; [rewrite drop_upd by lia; apply drop_eq_succ; [rewrite (arr_zlen _ _ _ Ar'); lia|by rewrite (arr_zlen _ _ _ Ar'), (arr_zlen _ _ _ Ar)|done]|].
    rewrite low_upd_succ by (rewrite (arr_zlen _ _ _ Ar'); lia). rewrite low_succ by (fold (m_length src); lia). rewrite pow_B_succ by lia. nia. }
  cbn [mbind res_bind]. fold total in Hr. pose proof (low_bound _ n (arr_digits _ _ _ Ar') ltac:(lia)) as Br. pose proof (pow_B_pos n ltac:(lia)) as Pn.
  rewrite (arr_length _ _ _ Ar'). destruct (n <? N) eqn:E; bool_prop.
  - pose proof (low_bound _ n Dsrc ltac:(lia)) as Bs. assert (is_digit (c + h)) as Dch by (unfold is_digit, total in *; nia). rewrite (Digit_small _ Dch).
    destruct (arr_set _ _ r n (c + h) Ar' ltac:(lia) Dch) as [-> Ar'']. cbn [mbind res_bind]. rewrite (arr_length _ _ _ Ar''). clear body. name_for body.
    destruct (write_loop s N 0 (n + 1) N (fun _ => 0) (fun _ => 0) body _ Ar'') as (r' & -> & Ar3 & _ & Hr').
    { lia. } { lia. } { lia. } { lia. } { intros i r' Hi A'. unfold body. split; [|apply is_digit_0]. by destruct (arr_set _ _ r' i 0 A' ltac:(lia) is_digit_0) as [-> _]. }
    exists r'. split; [done|]. split; [done|]. rewrite !Z.add_0_l in Hr'. rewrite low_all in Hr' by (rewrite (arr_zlen _ _ _ Ar3); lia). rewrite Hr'. cbn [digits].
    rewrite low_upd_succ by (rewrite (arr_zlen _ _ _ Ar'); lia). lia.
  - assert (c + h = 0) as E0 by (unfold is_digit in *; nia). rewrite E0, Digit_small by apply is_digit_0. cbn [Z.eqb ASSERT mbind res_bind]. exists r. split; [done|]. split; [done|].
    rewrite <- Hr, E0, low_all by (rewrite (arr_zlen _ _ _ Ar'); lia). lia.
Qed.

(** ** Products *)
Lemma multiplyAccumulate_spec s N y m acc idx :
  arr s N acc -> digits_ok (digits y) -> is_digit m -> 0 <= idx -> m_length y + idx < N ->
  let total := val (digits acc) + m * val (digits y) * B ^ idx in total < B ^ N ->
  exists r, multiplyAccumulate y m acc idx = Ok r /\ arr s N r /\ val (digits r) = total.
Proof.
  intros Aa Dy Dm Hidx Hlen total Hfit. unfold multiplyAccumulate. rewrite (arr_length _ _ _ Aa), Z_ltb_true by done. cbn [ASSERT mbind res_bind].
  destruct (m =? 0) eqn:Em; bool_prop. { exists acc. split; [done|]. split; [done|]. unfold total. rewrite Em. lia. }
  pose proof (zlen_nonneg (digits y)) as Hny. fold (m_length y) in Hny. pose proof B_large as HB. name_for body.
  destruct (for_range_inv (fun i '(r, j, c, h) => arr s N r /\ j = idx + i /\ 0 <= c <= 3 /\ is_digit h /\
    val (digits r) + (c + h) * B ^ j = val (digits acc) + m * low (digits y) i * B ^ idx) 0 (m_length y) body (acc, idx, 0, 0)) as ([[[r j] c] h] & -> & Ar & -> & Hc & Dh & Hr).
  { lia. } { refine (conj Aa (conj _ (conj _ (conj is_digit_0 _)))); [lia|lia|]. rewrite low_0. lia. }
  { intros i [[[r j] c] h] Hi (Ar & -> & Hc & Dh & Hr). unfold body. destruct (arr_get _ _ r (idx + i) Ar ltac:(lia)) as [-> Da]. cbn [mbind res_bind].
    destruct (digitAdd_spec _ h 0 Da Dh ltac:(lia)) as (r1 & k1 & -> & Hk1 & Dr1 & S1).
    destruct (digitAdd_spec r1 c (0 + k1) Dr1 ltac:(unfold is_digit; lia) ltac:(lia)) as (r2 & k2 & -> & Hk2 & Dr2 & S2).
    rewrite digit_dig by done. cbn [mbind res_bind]. destruct (digitMul_spec m _ Dm (dig_ok _ i Dy)) as (lo & h' & -> & Dl & Dh' & Ep).
    destruct (digitAdd_spec r2 lo (0 + k1 + k2) Dr2 Dl ltac:(lia)) as (r3 & k3 & -> & Hk3 & Dr3 & S3).
    destruct (arr_set _ _ r (idx + i) r3 Ar ltac:(lia) Dr3) as [-> Ar']. cbn [mbind res_bind]. eexists. split; [done|]. split; [done|]. split; [lia|]. split; [lia|]. split; [done|].
    cbn [digits]. rewrite val_upd by (rewrite (arr_zlen _ _ _ Ar); lia). rewrite low_succ by done. rewrite pow_B_succ by lia. rewrite !(Z.pow_add_r _ idx i) in * by lia. nia. }
  cbn [mbind res_bind]. rewrite (low_all (digits y)) in Hr by (unfold m_length; lia). fold total in Hr. rewrite (arr_length _ _ _ Ar). clear body. name_while test body.
  destruct (while_inv (fun '(r, j, c, h) => arr s N r /\ 0 <= j <= N /\ 0 <= c <= 3 /\ is_digit h /\ val (digits r) + (c + h) * B ^ j = total) (fun '(r, j, c, h) => N - j)
    (S (Z.to_nat N)) test body (r, idx + m_length y, c, h)) as ([[[r' j'] c'] h'] & -> & (Ar' & Hj' & Hc' & Dh' & Hr') & Ht).
  { refine (conj Ar (conj _ (conj Hc (conj Dh Hr)))). lia. } { lia. }
  { clear dependent r c h. intros [[[r j] c] h] (Ar & Hj & Hc & Dh & Hr). unfold test. eexists. split; [done|]. intros Hgo. unfold body. rewrite (arr_length _ _ _ Ar).
    assert (0 < c + h) as Hpos by (unfold is_digit in Dh; apply orb_true_iff in Hgo as [Hgo|Hgo]; bool_prop; lia).
    pose proof (val_bound _ (arr_digits _ _ _ Ar)). assert (B ^ j < B ^ N) as Hlt by (pose proof (pow_B_pos j ltac:(lia)); nia).
    apply Z.pow_lt_mono_r_iff in Hlt; [|lia..]. rewrite Z_ltb_true by done. cbn [ASSERT mbind res_bind]. destruct (arr_get _ _ r j Ar ltac:(lia)) as [-> Da]. cbn [mbind res_bind].
    destruct (digitAdd_spec _ h 0 Da Dh ltac:(lia)) as (r1 & k1 & -> & Hk1 & Dr1 & S1).
    destruct (digitAdd_spec r1 c (0 + k1) Dr1 ltac:(unfold is_digit; lia) ltac:(lia)) as (r2 & k2 & -> & Hk2 & Dr2 & S2).
    destruct (arr_set _ _ r j r2 Ar ltac:(lia) Dr2) as [-> Ar']. cbn [mbind res_bind]. eexists. split; [done|]. split; [|lia]. split; [done|]. split; [lia|]. split; [lia|].
    split; [apply is_digit_0|]. cbn [digits]. rewrite val_upd by (rewrite (arr_zlen _ _ _ Ar); lia). rewrite pow_B_succ by lia. nia. }
  cbn [mbind res_bind]. exists r'. split; [done|]. split; [done|]. unfold test in Ht. injection Ht as Ht. bool_prop. rewrite <- Hr'. lia.
Qed.

Lemma inplaceMultiplyAdd_spec s N x factor summand :
  arr s N x -> is_digit factor -> is_digit summand -> factor * val (digits x) + summand < B ^ N ->
  exists r, inplaceMultiplyAdd x factor summand = Ok r /\ arr s N r /\ val (digits r) = factor * val (digits x) + summand.
Proof.
  intros Ax Df Ds Hfit. pose proof (zlen_nonneg (digits x)) as Hn. rewrite (arr_zlen _ _ _ Ax) in Hn.
  destruct (internalMultiplyAdd_spec s N N None factor summand x Ax ltac:(lia)) as (r & E & Ar & Hv); cbn [default];
    rewrite ?(arr_length _ _ _ Ax), ?(low_all (digits x) N) in * by (rewrite (arr_zlen _ _ _ Ax); lia); [lia|apply Ax|done|done|by right|].
  exists r. unfold inplaceMultiplyAdd. rewrite (arr_length _ _ _ Ax). split; [done|]. split; [done|]. rewrite Hv. cbn [default] in *. by rewrite ?low_all by (rewrite (arr_zlen _ _ _ Ax); lia).
Qed.

Lemma val_replicate n : val (replicate n 0) = 0.
Proof. induction n as [|n IH]; cbn [replicate val]; lia. Qed.

Lemma multiply_spec x y :
  wf x -> wf y ->
  (multiply x y = Throw OutOfMemoryError /\ maxLength < m_length x + m_length y /\ digits x <> [] /\ digits y <> []) \/
  exists z, multiply x y = Ok z /\ wf z /\ value z = value x * value y.
Proof.
  intros Hx Hy. unfold multiply. rewrite !isZero_spec. case_bool_decide as Hzx.
  { right. exists x. split; [done|]. split; [done|]. unfold value. rewrite Hzx. by destruct (sign x), (sign y). }
  case_bool_decide as Hzy.
  { right. exists y. split; [done|]. split; [done|]. unfold value. rewrite Hzy. destruct (sign x), (sign y); cbn [val]; lia. }
  assert (0 < m_length x) as Px by (unfold m_length; destruct (digits x); [done|zlia]). assert (0 < m_length y) as Py by (unfold m_length; destruct (digits y); [done|zlia]).
  pose proof (tryCreate_spec (m_length x + m_length y) ltac:(lia)) as Hc. case_decide as Hmax; rewrite Hc.
  2:{ left. split; [done|]. split; [lia|done]. }
  right. cbn [mbind res_bind]. set (N := m_length x + m_length y) in *. unfold initialize_with_zero. cbn [sign digits]. destruct (fresh_digits_ok N ltac:(lia)) as [Hf _].
  unfold m_length at 2. cbn [digits]. rewrite Hf. name_for body. pose proof (val_bound _ (wf_digits y Hy)) as By. fold (m_length y) in By.
  destruct (for_range_inv (fun i r => arr false N r /\ val (digits r) = low (digits x) i * val (digits y)) 0 (m_length x) body (mkBigInt false (replicate (Z.to_nat N) 0)))
    as (r & -> & Ar & Hr).
  { lia. } { split; [|cbn [digits]; by rewrite low_0, val_replicate]. split; [done|unfold m_length, zlen; cbn [digits]; rewrite length_replicate; lia|]. apply Forall_replicate, is_digit_0. }
  { intros i r Hi (Ar & Hr). unfold body. rewrite digit_dig by done. cbn [mbind res_bind]. pose proof (dig_ok _ i (wf_digits x Hx)) as Dx.
    pose proof (low_bound (digits x) (i + 1) (wf_digits x Hx) ltac:(lia)) as Bx. rewrite low_succ in Bx by done. pose proof B_pos.
    destruct (multiplyAccumulate_spec false N y (dig (digits x) i) r i Ar (wf_digits y Hy) Dx ltac:(lia) ltac:(lia)) as (r' & -> & Ar' & Hr').
    - rewrite Hr. apply Z.lt_le_trans with (B ^ (i + 1) * B ^ m_length y); [nia|]. rewrite <- Z.pow_add_r by lia. apply Z.pow_le_mono_r; lia.
    - exists r'. split; [done|]. split; [done|]. rewrite Hr', Hr, low_succ by done. lia. }
  cbn [mbind res_bind]. rewrite low_all in Hr by (unfold m_length; lia). unfold setSign.
  destruct (trim_signed_spec (negb (Bool.eqb (sign x) (sign y))) (digits r) (arr_digits _ _ _ Ar)) as (z & -> & Hz & Hv & _); [rewrite (arr_zlen _ _ _ Ar); lia|].
  exists z. split; [done|]. split; [done|]. rewrite Hv, Hr. unfold value. destruct (sign x), (sign y); cbn [Bool.eqb negb]; lia.
Qed.
End mul.
