(* ===== verification/BigIntDivide.v ===== *)
(** * BigIntDivide: division: of two digits by one, of big integers by a digit, Algorithm D, and quotients and remainders *)
From S2P Require Import Prelude Doubles BigInt BigIntFacts BigIntAdd BigIntMul.
Local Open Scope Z_scope.

Section digit_div.
Context `{DigitConfig}.
Local Abbreviation B := (2 ^ digitBits).
Local Abbreviation hb := (2 ^ halfDigitBits).

Lemma digitBits_pos : 0 < digitBits.
Proof. destruct digitBits_ok as [-> | ->]; lia. Qed.

(** ** Leading zeros *)
Lemma clz_loop_spec n v c : 0 < v < 2 ^ Z.of_nat n -> clz_loop n v (Z.of_nat n - 1) c = c + (Z.of_nat n - 1 - Z.log2 v).
Proof.
  revert c. induction n as [|n IH]; intros c Hv; [cbn in Hv; lia|]. cbn [clz_loop]. replace (Z.of_nat (S n) - 1) with (Z.of_nat n) by lia.
  rewrite Z.shiftr_div_pow2 by lia. pose proof (Z.pow_pos_nonneg 2 (Z.of_nat n) ltac:(lia) ltac:(lia)) as Hp. rewrite Nat2Z.inj_succ, Z.pow_succ_r in Hv by lia.
  destruct (decide (v < 2 ^ Z.of_nat n)) as [Hlt|Hge].
  - rewrite Z.div_small by lia. cbn [Z.eqb negb]. rewrite IH by lia. lia.
  - assert (v / 2 ^ Z.of_nat n = 1) as -> by (symmetry; apply (Z.div_unique _ _ _ (v - 2 ^ Z.of_nat n)); lia). cbn [Z.eqb negb].
    rewrite (Z.log2_unique v (Z.of_nat n)); [lia|lia|]. rewrite Z.pow_succ_r by lia. lia.
Qed.

Lemma clz_spec v : is_digit v -> v <> 0 -> clz v = digitBits - 1 - Z.log2 v.
Proof.
  unfold is_digit. intros Hv Hz. pose proof digitBits_pos. unfold clz. pose proof (clz_loop_spec (Z.to_nat digitBits) v 0) as E.
  rewrite Z2Nat.id in E by lia. rewrite E by lia. lia.
Qed.

(** The shift that moves the leading bit to the top. *)
Lemma clz_normalizes v : is_digit v -> v <> 0 -> 0 <= clz v < digitBits /\ v * 2 ^ clz v < B /\ B <= 2 * (v * 2 ^ clz v).
Proof.
  intros Hd Hz. rewrite clz_spec by done. unfold is_digit in Hd. pose proof (Z.log2_spec v ltac:(lia)) as Hl. pose proof (Z.log2_nonneg v) as Hn.
  assert (Z.log2 v < digitBits) as Hlt by (apply Z.log2_lt_pow2; lia). rewrite Z.pow_succ_r in Hl by lia. split; [lia|].
  assert (B = 2 * (2 ^ Z.log2 v * 2 ^ (digitBits - 1 - Z.log2 v))) as ->.
  { rewrite <- Z.pow_add_r by lia. replace (Z.log2 v + (digitBits - 1 - Z.log2 v)) with (digitBits - 1) by lia. rewrite <- Z.pow_succ_r by lia. f_equal. lia. }
  assert (0 < 2 ^ (digitBits - 1 - Z.log2 v)) by (apply Z.pow_pos_nonneg; lia). nia.
Qed.

(** ** One half digit of the quotient *)
Lemma digit_of_halves a b : 0 <= a < hb -> 0 <= b < hb -> is_digit (a * hb) /\ is_digit (a * hb + b) /\ is_digit (a * b).
Proof. intros Ha Hb. destruct half_digit as (_ & HB & Hh). unfold is_digit. rewrite HB. assert (a * hb <= (hb - 1) * hb) by (apply Z.mul_le_mono_nonneg_r; lia). nia. Qed.

Lemma B_hb : 2 * hb <= B.
Proof. destruct half_digit as (_ & HB & Hh). rewrite HB. apply Z.mul_le_mono_nonneg_r; lia. Qed.

(** A quotient that is not too small and leaves a remainder is the quotient. *)
Lemma quotient_exact n V q : 0 < V -> n / V <= q -> V * q <= n -> q = n / V.
Proof. intros HV Hle Hlow. apply Z.le_antisymm; [|done]. by apply Z.div_le_lower_bound. Qed.

Lemma quotient_too_large n V q : 0 < V -> n < V * q -> n / V <= q - 1.
Proof. intros HV Hlt. assert (n / V < q); [|lia]. by apply Z.div_lt_upper_bound. Qed.

Section half.
Context (vn1 vn0 : Z) (Hv1 : hb <= 2 * vn1) (Hv1' : vn1 < hb) (Hv0 : 0 <= vn0 < hb).
Local Abbreviation V := (vn1 * hb + vn0).

Lemma V_pos : 0 < vn1 /\ 0 < V < B.
Proof using Hv1 Hv1' Hv0.
  destruct half_digit as (_ & HB & Hh). split; [lia|]. destruct (digit_of_halves vn1 vn0 ltac:(lia) Hv0) as (_ & [_ Hlt] & _). split; [|done].
  assert (0 < vn1 * hb) by (apply Z.mul_pos_pos; lia). lia.
Qed.

(** [q * V] in terms of the estimate. *)
Lemma estimate_V q rhat u : q * vn1 + rhat = u -> V * q = u * hb - rhat * hb + q * vn0.
Proof using. intros <-. ring. Qed.

Lemma digitDiv_correct_spec fuel u un q rhat :
  0 <= u < V -> 0 <= un < hb -> 0 <= rhat < hb -> 0 <= q < B -> q * vn1 + rhat = u -> (u * hb + un) / V <= q ->
  hb <= rhat + (Z.of_nat fuel - 1) * vn1 ->
  exists rhat', digitDiv_correct fuel vn1 vn0 un q rhat = Ok ((u * hb + un) / V, rhat').
Proof using Hv1 Hv1' Hv0.
  destruct half_digit as (_ & HB & Hh). pose proof B_hb as H2. destruct V_pos as (Hp & HV & HVB). intros Hu Hun. set (n := u * hb + un).
  assert (n / V < hb) as Ht by (apply Z.div_lt_upper_bound; [done|]; unfold n; assert (u * hb <= (V - 1) * hb) by (apply Z.mul_le_mono_nonneg_r; lia); lia).
  assert (0 <= n / V) as Ht0 by (apply Z.div_pos; [unfold n; apply Z.add_nonneg_nonneg; [apply Z.mul_nonneg_nonneg; lia|lia]|lia]).
  revert q rhat. induction fuel as [|fuel IH]; intros q rhat Hr Hq Eq Hle Hf; [lia|]. cbn [digitDiv_correct].
  destruct (digit_of_halves rhat un Hr Hun) as (D1 & D2 & _). rewrite (Digit_small (rhat * hb)), (Digit_small (rhat * hb + un)) by done.
  pose proof (estimate_V q rhat u Eq) as EV.
  destruct ((hb <=? q) || _) eqn:Eb.
  - assert (n / V <= q - 1) as Hgo.
    { destruct (Z.le_gt_cases hb q) as [Hq'|Hq']; [lia|]. bool_prop. destruct Eb as [Eb|Eb]; bool_prop; [lia|].
      rewrite Digit_small in Eb by (apply product_digit; lia). apply quotient_too_large; [done|]. unfold n. lia. }
    rewrite (Digit_small (q - 1)), (Digit_small (rhat + vn1)) by (unfold is_digit; lia). assert ((q - 1) * vn1 + (rhat + vn1) = u) as Eq' by lia.
    destruct (hb <=? rhat + vn1) eqn:Ebr; bool_prop; [|apply IH; [lia|lia|done|done|lia]]. eexists. do 2 f_equal. apply quotient_exact; [done|done|].
    rewrite (estimate_V _ _ _ Eq'). assert (q - 1 < hb) as Hqh by (destruct (Z.le_gt_cases hb (q - 1)) as [Hge|]; [|done]; assert (hb * vn1 <= (q - 1) * vn1) by (apply Z.mul_le_mono_nonneg_r; lia); lia).
    assert ((q - 1) * vn0 <= hb * hb) by (apply Z.mul_le_mono_nonneg; lia). assert (hb * hb <= (rhat + vn1) * hb) by (apply Z.mul_le_mono_nonneg_r; lia). unfold n. lia.
  - bool_prop. rewrite Digit_small in H1 by (apply product_digit; lia). eexists. do 2 f_equal. apply quotient_exact; [done|done|]. unfold n. lia.
Qed.

(** The estimate and its correction. *)
Lemma half_quotient u un :
  0 <= u < V -> 0 <= un < hb ->
  let q := u / vn1 in
  exists rhat, digitDiv_correct 4 vn1 vn0 un q (Digit (u - Digit (q * vn1))) = Ok ((u * hb + un) / V, rhat).
Proof using Hv1 Hv1' Hv0.
  destruct half_digit as (_ & HB & Hh). destruct V_pos as (Hp & HV & HVB). intros Hu Hun q. pose proof (Z.div_mod u vn1 ltac:(lia)) as Ed. fold q in Ed.
  pose proof (Z.mod_pos_bound u vn1 Hp) as Hm. assert (0 <= q) as Hq by (apply Z.div_pos; lia). assert (q <= u) as Hqu by nia.
  rewrite (Digit_small (q * vn1)), (Digit_small (u - q * vn1)) by (unfold is_digit; lia).
  apply digitDiv_correct_spec; [done|done|lia|lia|lia| |lia].
  apply Z.lt_succ_r. apply Z.div_lt_upper_bound; [done|]. assert ((u + 1) * hb <= (q + 1) * vn1 * hb) by (apply Z.mul_le_mono_nonneg_r; lia).
  assert (0 <= (q + 1) * vn0) by (apply Z.mul_nonneg_nonneg; lia). lia.
Qed.
End half.

(** ** The division *)
(** The dividend, shifted like the divisor. *)
Lemma shifted_high_digit high low d :
  is_digit high -> is_digit low -> is_digit d -> high < d ->
  let s := clz d in
  let un32 := Z.lor (Digit (Z.shiftl high s)) (Z.land (Z.shiftr low (Z.land (digitBits - s) (digitBits - 1))) (Digit (Z.shiftr (- s) (digitBits - 1)))) in
  un32 = high * 2 ^ s + low / 2 ^ (digitBits - s) /\ un32 * B + Digit (Z.shiftl low s) = (high * B + low) * 2 ^ s.
Proof.
  intros Hh Hl Hd Hlt s un32. unfold is_digit in *. pose proof digitBits_pos as Hb. destruct (clz_normalizes d Hd ltac:(lia)) as (Hs & Hs1 & Hs2). fold s in Hs, Hs1, Hs2.
  pose proof (Z.pow_pos_nonneg 2 s ltac:(lia) ltac:(lia)) as Ps.
  assert (un32 = high * 2 ^ s + low / 2 ^ (digitBits - s)) as Eu.
  { unfold un32. rewrite Z.shiftl_mul_pow2 by lia. rewrite (Digit_small (high * 2 ^ s)) by (unfold is_digit; nia). destruct (decide (s = 0)) as [E0|E0].
    - rewrite E0. cbn [Z.opp]. rewrite Z.shiftr_0_l, Digit_small, Z.land_0_r, Z.lor_0_r by apply is_digit_0. rewrite Z.sub_0_r, Z.div_small by lia. lia.
    - assert (Z.shiftr (- s) (digitBits - 1) = -1) as ->.
      { rewrite Z.shiftr_div_pow2 by lia. symmetry. apply (Z.div_unique _ _ _ (2 ^ (digitBits - 1) - s)); [left|lia]. split; [|lia]. assert (digitBits - 1 < 2 ^ (digitBits - 1)) by (apply Z.pow_gt_lin_r; lia). lia. }
      assert (Digit (-1) = B - 1) as ->. { unfold Digit. symmetry. apply (Z.mod_unique _ _ (-1)); lia. }
      assert (Z.land (digitBits - s) (digitBits - 1) = digitBits - s) as ->.
      { clearbody s. destruct digitBits_ok as [E|E]; rewrite E; rewrite E in Hs.
        - change (32 - 1) with (2 ^ 5 - 1). rewrite Z_land_ones by lia. apply Z.mod_small. lia.
        - change (64 - 1) with (2 ^ 6 - 1). rewrite Z_land_ones by lia. apply Z.mod_small. lia. }
      rewrite Z_land_ones, Z.shiftr_div_pow2 by lia. assert (0 <= low / 2 ^ (digitBits - s) < 2 ^ s) as Hq.
      { split; [apply Z.div_pos; [lia|apply Z.pow_pos_nonneg; lia]|]. apply Z.div_lt_upper_bound; [apply Z.pow_pos_nonneg; lia|]. rewrite <- Z.pow_add_r by lia. replace (digitBits - s + s) with digitBits by lia. lia. }
      assert (2 ^ s < B) by (apply Z.pow_lt_mono_r; lia). rewrite (Z.mod_small (low / _)) by lia. rewrite <- (Z.shiftl_mul_pow2 high) by lia. rewrite Z_lor_shiftl, Z.shiftl_mul_pow2 by lia. done. }
  split; [done|]. rewrite Eu, Z.shiftl_mul_pow2 by lia. unfold Digit. assert (B = 2 ^ (digitBits - s) * 2 ^ s) as EB by (rewrite <- Z.pow_add_r by lia; f_equal; lia).
  rewrite EB, Z.mul_mod_distr_r by (apply Z.pow_nonzero; lia). rewrite <- EB. pose proof (Z.div_mod low (2 ^ (digitBits - s))) as Edm.
  specialize (Edm ltac:(apply Z.pow_nonzero; lia)). rewrite Edm at 3. rewrite EB. ring.
Qed.

Lemma normalized_half vn1 vn0 : 0 <= vn0 < hb -> B <= 2 * (vn1 * hb + vn0) -> hb <= 2 * vn1.
Proof.
  intros Hv0 HB2. destruct half_digit as (Hh0 & HB & Hh). assert (exists k, hb = 2 * k) as [k Ek].
  { exists (2 ^ (halfDigitBits - 1)). rewrite <- Z.pow_succ_r; [f_equal; lia|]. destruct (decide (halfDigitBits = 0)) as [E|]; [rewrite E in Hh; lia|lia]. }
  destruct (Z.le_gt_cases k vn1) as [|Hlt]; [lia|]. assert (vn1 * hb <= (k - 1) * hb) by (apply Z.mul_le_mono_nonneg_r; lia). lia.
Qed.

(** The division of a shifted dividend by the shifted divisor. *)
Lemma unshift n p d q rem : 0 < p -> n * p = d * p * q + rem -> 0 <= rem < d * p -> exists r, rem = r * p /\ n = d * q + r /\ 0 <= r < d.
Proof.
  intros Hp E Hr. exists (n - d * q). assert (rem = (n - d * q) * p) as Er by lia. split; [done|]. split; [lia|]. rewrite Er in Hr.
  split; [apply (Z.mul_le_mono_pos_r _ _ p); lia|apply (Z.mul_lt_mono_pos_r p); lia].
Qed.

(** The high digit of a dividend that is smaller than [d] is. *)
Lemma quotient_bound u l high low d p :
  u * B + l = (high * B + low) * p -> 0 <= l < B -> 0 <= low < B -> 0 <= high < d -> 0 < p -> 0 < d * p -> 0 <= u < d * p.
Proof.
  intros E Hl Hlow Hh Hp Hd. pose proof B_pos. assert (0 <= (high * B + low) * p) by (apply Z.mul_nonneg_nonneg; nia).
  assert ((high * B + low) * p < d * B * p) by (apply Z.mul_lt_mono_pos_r; [done|]; assert (high * B <= (d - 1) * B) by (apply Z.mul_le_mono_nonneg_r; lia); lia).
  split; [apply Z.lt_succ_r, (Z.mul_lt_mono_pos_r B); lia|apply (Z.mul_lt_mono_pos_r B); lia].
Qed.

Lemma digitDiv_portable_spec high low d :
  is_digit high -> is_digit low -> is_digit d -> high < d ->
  digitDiv_portable high low d = Ok ((high * B + low) / d, (high * B + low) mod d).
Proof.
  intros Hh Hl Hd Hlt. unfold digitDiv_portable. pose proof digitBits_pos as Hb. destruct half_digit as (Hh0 & HB & Hhb).
  assert (d <> 0) as Hd0 by (unfold is_digit in *; lia). destruct (clz_normalizes d Hd Hd0) as (Hs & Hs1 & Hs2).
  destruct (shifted_high_digit high low d Hh Hl Hd Hlt) as [_ EN]. set (s := clz d) in *. set (un32 := Z.lor _ _) in *. set (un10 := Digit (Z.shiftl low s)) in *.
  rewrite (proj2 (Z.eqb_neq s digitBits)) by lia. cbn [negb ASSERT mbind res_bind]. rewrite Z.shiftl_mul_pow2 by lia. set (V := d * 2 ^ s) in *.
  pose proof (Z.pow_pos_nonneg 2 s ltac:(lia) ltac:(lia)) as Ps. unfold is_digit in Hh, Hl, Hd. assert (0 < V) as HV by (unfold V; nia). assert (is_digit V) as DV by (unfold is_digit; lia).
  rewrite (Digit_small V DV). rewrite !shiftr_half, !halfDigitMask_land. destruct (half_split V DV) as (vn1 & vn0 & EV & Hv1 & Hv0 & -> & ->).
  assert (is_digit un10) as D10 by apply Digit_is_digit. destruct (half_split un10 D10) as (un1 & un0 & E10 & Hun1 & Hun0 & -> & ->).
  assert (hb <= 2 * vn1) as Hn1 by (apply (normalized_half vn1 vn0); lia). rewrite (proj2 (Z.eqb_neq vn1 0)) by lia. unfold is_digit in D10.
  assert (0 <= un32 < V) as HuV by (apply (quotient_bound un32 un10 high low d (2 ^ s)); [done|lia|lia|lia|lia|done]).
  destruct (half_quotient vn1 vn0 Hn1 ltac:(lia) Hv0 un32 un1 ltac:(by rewrite <- EV) Hun1) as (r1 & ->). cbn [mbind res_bind]. rewrite <- EV.
  pose proof (Z.div_mod (un32 * hb + un1) V ltac:(lia)) as E1. pose proof (Z.mod_pos_bound (un32 * hb + un1) V HV) as M1. set (q1 := (un32 * hb + un1) / V) in *. set (un21 := (un32 * hb + un1) mod V) in *.
  assert (Digit (Digit (Digit (un32 * hb) + un1) - Digit (q1 * V)) = un21) as ->.
  { unfold Digit. rewrite Zplus_mod_idemp_l, <- Zminus_mod. replace (un32 * hb + un1 - q1 * V) with un21 by lia. apply Z.mod_small. unfold is_digit in DV. lia. }
  destruct (half_quotient vn1 vn0 Hn1 ltac:(lia) Hv0 un21 un0 ltac:(by rewrite <- EV) Hun0) as (r0 & ->). cbn [mbind res_bind]. rewrite <- EV.
  pose proof (Z.div_mod (un21 * hb + un0) V ltac:(lia)) as E0. pose proof (Z.mod_pos_bound (un21 * hb + un0) V HV) as M0. set (q0 := (un21 * hb + un0) / V) in *. set (rem := (un21 * hb + un0) mod V) in *.
  assert (Digit (Digit (Digit (un21 * hb) + un0) - Digit (q0 * V)) = rem) as ->.
  { unfold Digit. rewrite Zplus_mod_idemp_l, <- Zminus_mod. replace (un21 * hb + un0 - q0 * V) with rem by lia. apply Z.mod_small. unfold is_digit in DV. lia. }
  assert ((high * B + low) * 2 ^ s = V * (q1 * hb + q0) + rem) as ET.
  { rewrite <- EN, HB, E10. replace (un32 * (hb * hb) + (un1 * hb + un0)) with ((un32 * hb + un1) * hb + un0) by ring. rewrite E1. replace ((V * q1 + un21) * hb + un0) with (V * q1 * hb + (un21 * hb + un0)) by ring.
    rewrite E0. ring. }
  destruct (unshift (high * B + low) (2 ^ s) d (q1 * hb + q0) rem Ps ET M0) as (rr & Er & EF & Hrr).
  rewrite Z.shiftr_div_pow2, Er, Z.div_mul by lia. rewrite <- (Z.mod_unique (high * B + low) d (q1 * hb + q0) rr), <- (Z.div_unique (high * B + low) d (q1 * hb + q0) rr) by (by try left).
  assert (0 <= q1) as P1 by (apply Z.div_pos; [|done]; apply Z.add_nonneg_nonneg; [apply Z.mul_nonneg_nonneg|]; lia).
  assert (0 <= q0) as P0 by (apply Z.div_pos; [|done]; apply Z.add_nonneg_nonneg; [apply Z.mul_nonneg_nonneg|]; lia).
  assert (is_digit (q1 * hb + q0)) as DQ.
  { split; [apply Z.add_nonneg_nonneg; [apply Z.mul_nonneg_nonneg|]; lia|]. apply (Z.mul_lt_mono_pos_l d); [lia|]. assert (high * B <= (d - 1) * B) by (apply Z.mul_le_mono_nonneg_r; lia). lia. }
  assert (0 <= q1 * hb) by (apply Z.mul_nonneg_nonneg; lia). rewrite (Digit_small (q1 * hb)) by (unfold is_digit in *; lia). by rewrite (Digit_small _ DQ).
Qed.

Lemma digitDiv_spec high low d :
  is_digit high -> is_digit low -> is_digit d -> high < d -> digitDiv high low d = Ok ((high * B + low) / d, (high * B + low) mod d).
Proof.
  intros Hh Hl Hd Hlt. unfold digitDiv. rewrite Z_ltb_true by done. cbn [ASSERT mbind res_bind]. destruct have_div_instruction; [|by apply digitDiv_portable_spec].
  unfold div_instruction, is_digit in *. rewrite (proj2 (Z.eqb_neq d 0)) by lia. rewrite Z_leb_false; [done|]. apply Z.div_lt_upper_bound; nia.
Qed.
End digit_div.

(** ** The long division of big integers *)

Section div.
Context `{DigitConfig}.
Local Abbreviation B := (2 ^ digitBits).

(** ** Division by a digit *)
Lemma digit_division_step u d r : is_digit d -> 0 <= r < d -> is_digit u -> is_digit ((r * B + u) / d) /\ 0 <= (r * B + u) mod d < d.
Proof.
  unfold is_digit. intros Hd Hr Hu. pose proof B_pos. split; [|apply Z.mod_pos_bound; lia].
  assert (r * B <= (d - 1) * B) by (apply Z.mul_le_mono_nonneg_r; lia). split; [apply Z.div_pos; nia|apply Z.div_lt_upper_bound; lia].
Qed.

(** The loop that keeps the quotient; the digits of the dividend are read from [src]. *)
Lemma quotient_loop_spec x d src q0 s :
  digits_ok (digits x) -> is_digit d -> d <> 0 -> arr s (m_length x) q0 ->
  (forall i q, arr s (m_length x) q -> 0 <= i < m_length x -> dig (digits q) i = dig (digits q0) i -> digit (src q) i = Ok (dig (digits x) i)) ->
  exists q, for_range_down (m_length x - 1) 0 (fun i '(q, r) => d' ← digit (src q) i; '(t, r) ← digitDiv r d' d; q ← setDigit q i t; Ok (q, r)) (q0, 0)
    = Ok (q, val (digits x) mod d) /\ arr s (m_length x) q /\ val (digits q) = val (digits x) / d.
Proof.
  intros Dx Dd Hd A0 Hsrc. pose proof (zlen_nonneg (digits x)) as Hn. fold (m_length x) in Hn.
  name_for body.
  destruct (for_range_down_inv (fun i '(q, r) => arr s (m_length x) q /\ (forall k, 0 <= k <= i -> dig (digits q) k = dig (digits q0) k) /\
    high (digits q) (i + 1) * d + r = high (digits x) (i + 1) /\ 0 <= r < d) (m_length x - 1) 0 body (q0, 0)) as ([q r] & -> & Aq & _ & E & Hr).
  { lia. } { split; [done|]. split; [done|]. rewrite !high_all by (rewrite ?(arr_zlen _ _ _ A0); unfold m_length in *; lia). unfold is_digit in Dd. lia. }
  { intros i [q r] Hi (Aq & Heq & E & Hr). unfold body. rewrite (Hsrc i q Aq ltac:(lia) (Heq i ltac:(lia))). cbn [mbind res_bind]. pose proof (dig_ok _ i Dx) as Di.
    rewrite digitDiv_spec by (unfold is_digit in *; lia). cbn [mbind res_bind]. destruct (digit_division_step _ d r Dd Hr Di) as [Dq Hm].
    destruct (arr_set _ _ q i _ Aq ltac:(lia) Dq) as [-> Aq']. cbn [mbind res_bind]. eexists. split; [done|]. split; [done|]. cbn [digits].
    pose proof (arr_zlen _ _ _ Aq) as Hlq. split; [intros k Hk; rewrite dig_upd_ne by lia; apply Heq; lia|]. split; [|done]. replace (i - 1 + 1) with i by lia.
    rewrite (high_succ (digits x) i) by (unfold m_length in *; lia). rewrite (high_succ (upd _ _ _) i) by (rewrite zlen_upd; lia). rewrite dig_upd_eq, high_upd by lia.
    pose proof (Z.div_mod (r * B + dig (digits x) i) d Hd) as Edm. rewrite <- E. lia. }
  change (0 - 1 + 1) with 0 in E. rewrite !high_0 in E. exists q. assert (val (digits x) mod d = r) as -> by (symmetry; apply (Z.mod_unique _ _ (val (digits q))); [by left|lia]).
  split; [done|]. split; [done|]. apply (Z.div_unique _ _ _ r); [by left|lia].
Qed.

Lemma remainder_loop_spec x d :
  digits_ok (digits x) -> is_digit d -> d <> 0 ->
  for_range_down (m_length x - 1) 0 (fun i r => d' ← digit x i; '(_, r) ← digitDiv r d' d; Ok r) 0 = Ok (val (digits x) mod d).
Proof.
  intros Dx Dd Hd. pose proof (zlen_nonneg (digits x)) as Hn. fold (m_length x) in Hn. name_for body.
  destruct (for_range_down_inv (fun i r => exists Q, Q * d + r = high (digits x) (i + 1) /\ 0 <= r < d) (m_length x - 1) 0 body 0) as (r & -> & Q & E & Hr).
  { lia. } { exists 0. rewrite high_all by (unfold m_length; lia). unfold is_digit in Dd. lia. }
  { intros i r Hi (Q & E & Hr). unfold body. pose proof (dig_ok _ i Dx) as Di. rewrite digit_dig by lia. cbn [mbind res_bind].
    rewrite digitDiv_spec by (unfold is_digit in *; lia). cbn [mbind res_bind]. eexists. split; [done|]. replace (i - 1 + 1) with i by lia. rewrite high_succ by (unfold m_length in *; lia).
    destruct (digit_division_step _ d r Dd Hr Di) as [_ Hm]. pose proof (Z.div_mod (r * B + dig (digits x) i) d Hd) as Edm.
    exists (Q * B + (r * B + dig (digits x) i) / d). split; [|done]. rewrite <- E. lia. }
  f_equal. change (0 - 1 + 1) with 0 in E. rewrite high_0 in E. apply (Z.mod_unique _ _ Q); [by left|lia].
Qed.

Lemma absoluteDivWithDigitDivisor_spec x d mode :
  digits_ok (digits x) -> digits x <> [] -> m_length x <= maxLength -> is_digit d -> d <> 0 ->
  exists q, absoluteDivWithDigitDivisor x d mode = Ok (q, val (digits x) mod d) /\
    match mode with
    | NoQuotient => True
    | _ => exists q', q = Some q' /\ arr (sign q') (m_length x) q' /\ val (digits q') = val (digits x) / d
    end.
Proof.
  intros Dx Hz Hmax Dd Hd. unfold absoluteDivWithDigitDivisor. rewrite (proj2 (Z.eqb_neq d 0) Hd). cbn [negb ASSERT mbind res_bind].
  rewrite isZero_spec, bool_decide_eq_false_2 by done. cbn [negb ASSERT mbind res_bind]. pose proof (zlen_nonneg (digits x)) as Hn. fold (m_length x) in Hn.
  destruct (d =? 1) eqn:E1; bool_prop.
  { rewrite E1, Z.mod_1_r. destruct mode; eexists; (split; [done|]); [done|exists x|exists x]; by rewrite Z.div_1_r. }
  destruct mode; cbn [mbind res_bind].
  - rewrite remainder_loop_spec by done. by eexists.
  - rewrite createWithLength_ok by lia. cbn [mbind res_bind].
    destruct (quotient_loop_spec x d (fun _ => x) (mkBigInt false (fresh_digits (m_length x))) false Dx Dd Hd) as (q & -> & Aq & Hq); [by apply arr_fresh|intros; by apply digit_dig|].
    eexists. split; [done|]. exists q. rewrite (arr_sign _ _ _ Aq). done.
  - destruct (quotient_loop_spec x d (fun q => q) x (sign x) Dx Dd Hd) as (q & -> & Aq & Hq); [done| |].
    + intros i q Aq Hi E. destruct (arr_get _ _ q i Aq Hi) as [-> _]. by rewrite E.
    + eexists. split; [done|]. exists q. rewrite (arr_sign _ _ _ Aq). done.
Qed.

(** ** In-place sums and differences *)
(** The digits from [a] on. *)
Definition seg (l : list Z) (a k : Z) : Z := val (take (Z.to_nat k) (drop (Z.to_nat a) l)).

Lemma seg_low l a k : 0 <= a -> 0 <= k -> a + k <= zlen l -> low l (a + k) = low l a + B ^ a * seg l a k.
Proof.
  intros Ha Hk Hl. unfold low, seg. rewrite Z2Nat.inj_add by lia. rewrite <- (take_take_drop l (Z.to_nat a) (Z.to_nat k)). rewrite val_app. unfold zlen in *.
  rewrite length_take, Nat.min_l, Z2Nat.id by lia. done.
Qed.

Lemma seg_succ l a k : 0 <= a -> 0 <= k -> a + k < zlen l -> seg l a (k + 1) = seg l a k + dig l (a + k) * B ^ k.
Proof.
  intros Ha Hk Hl. apply (Z.mul_reg_l _ _ (B ^ a)); [pose proof (pow_B_pos a Ha); lia|]. pose proof (seg_low l a (k + 1) Ha ltac:(lia) ltac:(lia)) as E1.
  pose proof (seg_low l a k Ha Hk ltac:(lia)) as E2. replace (a + (k + 1)) with (a + k + 1) in E1 by lia. rewrite low_succ in E1 by lia. pose proof B_pos. rewrite Z.pow_add_r in E1 by lia. lia.
Qed.

(** What a loop that changes [k] digits from [j] on does to the digits from [j] on. *)
Lemma high_after_loop (l l' : list Z) j k d :
  0 <= j -> 0 <= k -> j + k <= zlen l -> zlen l' = zlen l ->
  take (Z.to_nat j) l' = take (Z.to_nat j) l -> drop (Z.to_nat (j + k)) l' = drop (Z.to_nat (j + k)) l ->
  low l' (j + k) = low l j + B ^ j * (seg l j k + d) -> high l' j = high l j + d.
Proof.
  intros Hj Hk Hl El Et Ed Elow. apply (Z.mul_reg_l _ _ (B ^ j)); [pose proof (pow_B_pos j Hj); lia|].
  pose proof (low_high l j ltac:(lia)) as E1. pose proof (low_high l' j ltac:(lia)) as E2. pose proof (low_high l (j + k) ltac:(lia)) as E3. pose proof (low_high l' (j + k) ltac:(lia)) as E4.
  pose proof (seg_low l j k Hj Hk ltac:(lia)) as E5. assert (low l' j = low l j) as E6 by (unfold low; by rewrite Et). assert (high l' (j + k) = high l (j + k)) as E7 by (unfold high; by rewrite Ed).
  rewrite E7 in E4. lia.
Qed.

Lemma absoluteInplaceSub_spec s N u w j :
  arr s N u -> digits_ok (digits w) -> 0 <= j -> j + m_length w <= N ->
  exists u' c, absoluteInplaceSub u w j = Ok (u', c) /\ arr s N u' /\ is_carry c /\ take (Z.to_nat j) (digits u') = take (Z.to_nat j) (digits u) /\
    drop (Z.to_nat (j + m_length w)) (digits u') = drop (Z.to_nat (j + m_length w)) (digits u) /\
    high (digits u') j = high (digits u) j + (c * B ^ m_length w - val (digits w)).
Proof.
  intros Au Dw Hj Hl. pose proof (zlen_nonneg (digits w)) as Hn. fold (m_length w) in Hn. pose proof (arr_zlen _ _ _ Au) as Hlu.
  unfold absoluteInplaceSub. rewrite (arr_length _ _ _ Au), Z_leb_true by lia. cbn [ASSERT mbind res_bind]. name_for body.
  destruct (carry_loop is_carry (-1) s N j 0 (m_length w) (fun i => dig (digits u) (j + i) - dig (digits w) i) (fun i => seg (digits u) j i - low (digits w) i) body u 0)
    as (u' & c & E & Au' & Hc & Ht & Hd & Hlow).
  { done. } { by left. } { done. } { lia. } { lia. } { intros i Hi. rewrite seg_succ, low_succ by (unfold m_length in *; lia). lia. }
  { intros i r c Hi Ar Hc Edig. unfold body. destruct (arr_get _ _ r (j + i) Ar ltac:(lia)) as [-> Da]. cbn [mbind res_bind]. rewrite digit_dig by lia. cbn [mbind res_bind].
    destruct (digitSub_digitSub _ _ c Da (dig_ok _ i Dw) Hc) as (s1 & k & d & c' & -> & -> & Hc' & Hd & Ed). exists d, c'.
    destruct (arr_set _ _ r (j + i) d Ar ltac:(lia) Hd) as [-> _]. split; [done|]. split; [done|]. split; [done|]. rewrite <- Edig. lia. }
  rewrite Z.add_0_r in *. exists u', c. split; [done|]. split; [done|]. split; [done|]. split; [done|]. split; [done|].
  apply (high_after_loop (digits u) (digits u') j (m_length w)); [done|done|lia|by rewrite Hlu, (arr_zlen _ _ _ Au')|done|done|].
  rewrite Hlow, (low_all (digits w)) by (unfold m_length; lia). rewrite low_0, Z.pow_0_r. replace (seg (digits u) j 0) with 0 by done. lia.
Qed.

Lemma absoluteInplaceAdd_spec s N u w j :
  arr s N u -> digits_ok (digits w) -> 0 <= j -> j + m_length w <= N ->
  exists u' c, absoluteInplaceAdd u w j = Ok (u', c) /\ arr s N u' /\ is_carry c /\ take (Z.to_nat j) (digits u') = take (Z.to_nat j) (digits u) /\
    drop (Z.to_nat (j + m_length w)) (digits u') = drop (Z.to_nat (j + m_length w)) (digits u) /\
    high (digits u') j = high (digits u) j + (val (digits w) - c * B ^ m_length w).
Proof.
  intros Au Dw Hj Hl. pose proof (zlen_nonneg (digits w)) as Hn. fold (m_length w) in Hn. pose proof (arr_zlen _ _ _ Au) as Hlu.
  unfold absoluteInplaceAdd. rewrite (arr_length _ _ _ Au), Z_leb_true by lia. cbn [ASSERT mbind res_bind]. name_for body.
  destruct (carry_loop is_carry 1 s N j 0 (m_length w) (fun i => dig (digits u) (j + i) + dig (digits w) i) (fun i => seg (digits u) j i + low (digits w) i) body u 0)
    as (u' & c & E & Au' & Hc & Ht & Hd & Hlow).
  { done. } { by left. } { done. } { lia. } { lia. } { intros i Hi. rewrite seg_succ, low_succ by (unfold m_length in *; lia). lia. }
  { intros i r c Hi Ar Hc Edig. unfold body. destruct (arr_get _ _ r (j + i) Ar ltac:(lia)) as [-> Da]. cbn [mbind res_bind]. rewrite digit_dig by lia. cbn [mbind res_bind].
    destruct (digitAdd_digitAdd _ _ c Da (dig_ok _ i Dw) Hc) as (s1 & k & d & c' & -> & -> & Hc' & Hd & Ed). exists d, c'.
    destruct (arr_set _ _ r (j + i) d Ar ltac:(lia) Hd) as [-> _]. split; [done|]. split; [done|]. split; [done|]. rewrite <- Edig. lia. }
  rewrite Z.add_0_r in *. exists u', c. split; [done|]. split; [done|]. split; [done|]. split; [done|]. split; [done|].
  apply (high_after_loop (digits u) (digits u') j (m_length w)); [done|done|lia|by rewrite Hlu, (arr_zlen _ _ _ Au')|done|done|].
  rewrite Hlow, (low_all (digits w)) by (unfold m_length; lia). rewrite low_0, Z.pow_0_r. replace (seg (digits u) j 0) with 0 by done. lia.
Qed.
End div.

(** ** Algorithm D, the division of a big integer by one of at least two digits *)

Section knuth.
Context `{DigitConfig}.
Local Abbreviation B := (2 ^ digitBits).

(** ** The estimate of a quotient digit *)
Lemma productGreaterThan_spec a b high low :
  is_digit a -> is_digit b -> is_digit low -> productGreaterThan a b high low = (high * B + low <? a * b).
Proof.
  intros Ha Hb Hl. unfold productGreaterThan. destruct (digitMul_spec a b Ha Hb) as (l & h & -> & Dl & Dh & ->). unfold is_digit in *.
  apply eq_true_iff_eq. rewrite orb_true_iff, andb_true_iff, !Z.ltb_lt, Z.eqb_eq. split; [nia|]. intros Hlt. destruct (Z.lt_trichotomy high h) as [|[|]]; [by left|right; lia|nia].
Qed.

(** The divisor has its top bit set; [vn1] and [vn2] are its two leading digits. *)
Section estimate.
Context (vn1 vn2 : Z) (Hv1 : B <= 2 * vn1) (Dv1 : is_digit vn1) (Dv2 : is_digit vn2).
Local Abbreviation V := (vn1 * B + vn2).

Lemma V2_pos : 0 < vn1 /\ 0 < V.
Proof using Hv1 Dv1 Dv2. pose proof B_pos. unfold is_digit in *. split; [lia|]. assert (0 < vn1 * B) by (apply Z.mul_pos_pos; lia). lia. Qed.

Lemma estimate_V2 q rhat u : q * vn1 + rhat = u -> V * q = u * B - rhat * B + q * vn2.
Proof using. intros <-. ring. Qed.

Lemma qhat_loop_spec fuel u un q rhat :
  is_digit un -> is_digit rhat -> is_digit q -> q * vn1 + rhat = u -> 0 <= (u * B + un) / V <= q ->
  B <= rhat + (Z.of_nat fuel - 1) * vn1 ->
  qhat_loop fuel vn1 vn2 un q rhat = Ok ((u * B + un) / V).
Proof using Hv1 Dv1 Dv2.
  intros Dun. destruct V2_pos as [Hp HV]. set (n := u * B + un). revert q rhat. induction fuel as [|fuel IH]; intros q rhat Hr Hq Eq Hle Hf; [unfold is_digit in *; lia|]. cbn [qhat_loop].
  rewrite productGreaterThan_spec by done. pose proof (estimate_V2 q rhat u Eq) as EV. unfold is_digit in Hr, Hq, Dun, Dv1, Dv2. destruct (_ <? _) eqn:Eb; bool_prop.
  - assert (n / V <= q - 1) as Hgo by (apply quotient_too_large; [done|unfold n; lia]). rewrite (Digit_small (q - 1)) by (unfold is_digit; lia).
    assert ((q - 1) * vn1 + (rhat + vn1) = u) as Eq' by lia. destruct (decide (rhat + vn1 < B)) as [Hlt|Hge].
    + rewrite (Digit_small (rhat + vn1)) by (unfold is_digit; lia). rewrite Z_ltb_false by lia. apply IH; [unfold is_digit; lia|unfold is_digit; lia|done|lia|lia].
    + assert (Digit (rhat + vn1) = rhat + vn1 - B) as -> by (unfold Digit; symmetry; apply (Z.mod_unique _ _ 1); lia). rewrite Z_ltb_true by lia. f_equal. apply quotient_exact; [done|lia|].
      rewrite (estimate_V2 _ _ _ Eq'). assert ((q - 1) * vn2 <= B * B) by (apply Z.mul_le_mono_nonneg; lia). assert (B * B <= (rhat + vn1) * B) by (apply Z.mul_le_mono_nonneg_r; lia). unfold n. lia.
  - f_equal. apply quotient_exact; [done|lia|]. unfold n. lia.
Qed.

(** The first estimate is not too small. *)
Lemma first_estimate ujn ujn1 ujn2 :
  0 <= ujn < vn1 -> is_digit ujn1 -> is_digit ujn2 ->
  let u := ujn * B + ujn1 in
  qhat_loop 4 vn1 vn2 ujn2 (u / vn1) (u mod vn1) = Ok ((u * B + ujn2) / V).
Proof using Hv1 Dv1 Dv2.
  intros Hu D1 D2 u. destruct V2_pos as [Hp HV]. pose proof B_pos. unfold is_digit in D1, D2. assert (0 <= u) as Hu0 by (unfold u; assert (0 <= ujn * B) by (apply Z.mul_nonneg_nonneg; lia); lia).
  assert (u < vn1 * B) as HuV by (unfold u; assert (ujn * B <= (vn1 - 1) * B) by (apply Z.mul_le_mono_nonneg_r; lia); lia).
  pose proof (Z.div_mod u vn1 ltac:(lia)) as Ed. pose proof (Z.mod_pos_bound u vn1 Hp) as Hm. unfold is_digit in Dv1.
  apply qhat_loop_spec; [done|unfold is_digit; lia| |lia| |lia].
  - split; [apply Z.div_pos; lia|apply Z.div_lt_upper_bound; lia].
  - split; [apply Z.div_pos; [|done]; assert (0 <= u * B) by (apply Z.mul_nonneg_nonneg; lia); lia|]. unfold is_digit in Dv2.
    apply Z.lt_succ_r. apply Z.div_lt_upper_bound; [done|]. assert ((u + 1) * B <= (u / vn1 + 1) * vn1 * B) by (apply Z.mul_le_mono_nonneg_r; lia).
    assert (0 <= (u / vn1 + 1) * vn2) by (apply Z.mul_nonneg_nonneg; [apply Z.add_nonneg_nonneg; [apply Z.div_pos; lia|lia]|lia]). lia.
Qed.
End estimate.

(** Knuth's theorem: the quotient of the leading digits is the quotient digit, or one more. *)
Lemma leading_quotient A v p T V : 0 < p -> 0 < V -> V * p <= v -> v < (V + 1) * p -> T * p <= A -> A < (T + 1) * p -> 0 <= T -> T / V <= V + 1 -> A / v <= T / V <= A / v + 1.
Proof.
  intros Hp HV Hv1 Hv2 HA1 HA2 HT Hq. assert (0 < v) as Hv by nia. split.
  - apply Z.div_le_lower_bound; [done|]. pose proof (Z.mul_div_le A v Hv) as Hle. assert (0 <= A / v) by (apply Z.div_pos; nia). apply Z.lt_succ_r, (Z.mul_lt_mono_pos_r p); [done|].
    assert (V * p * (A / v) <= v * (A / v)) by (apply Z.mul_le_mono_nonneg_r; lia). lia.
  - pose proof (Z.mul_div_le T V HV) as Hle. set (q := T / V) in *. assert (q - 1 <= A / v); [|lia]. apply Z.div_le_lower_bound; [done|].
    assert (0 <= q) by (apply Z.div_pos; lia). destruct (decide (q = 0)) as [->|]; [nia|]. assert (v * (q - 1) <= (V + 1) * p * (q - 1)) by (apply Z.mul_le_mono_nonneg_r; lia). nia.
Qed.

(** When the leading digits are equal, the largest digit is a good estimate. *)
Lemma equal_leading A v p vn1 : 0 < p -> B <= 2 * vn1 -> vn1 * p <= v -> v < (vn1 + 1) * p -> vn1 * (B * p) <= A -> A < v * B -> A / v <= B - 1 <= A / v + 1.
Proof.
  intros Hp Hv1 Hv Hv' HA HA'. pose proof B_pos. assert (0 < v) by nia. split; [assert (A / v < B); [apply Z.div_lt_upper_bound; lia|lia]|].
  assert (B - 2 <= A / v); [|lia]. apply Z.div_le_lower_bound; [done|]. assert (v * (B - 2) <= (vn1 + 1) * p * (B - 2)); [|nia]. 
  destruct (decide (B = 1)); [lia|]. apply Z.mul_le_mono_nonneg_r; lia.
Qed.

Lemma high_split l j k : 0 <= j -> 0 <= k -> j + k <= zlen l -> digits_ok l -> high l j = seg l j k + B ^ k * high l (j + k) /\ 0 <= seg l j k < B ^ k.
Proof.
  intros Hj Hk Hl Dl. split.
  - apply (Z.mul_reg_l _ _ (B ^ j)); [pose proof (pow_B_pos j Hj); lia|]. pose proof (low_high l j ltac:(lia)). pose proof (low_high l (j + k) ltac:(lia)) as E. pose proof (seg_low l j k Hj Hk Hl).
    pose proof B_pos. rewrite Z.pow_add_r in E by lia. lia.
  - unfold seg. fold (low (drop (Z.to_nat j) l) k). apply low_bound; [by apply Forall_drop|done].
Qed.

(** The digits of a number below [B ^ k] are zero from [k] on. *)
Lemma high_small l j k : 0 <= j -> 0 <= k -> j + k <= zlen l -> digits_ok l -> high l j < B ^ k -> high l (j + k) = 0.
Proof.
  intros Hj Hk Hl Dl Hlt. destruct (high_split l j k Hj Hk Hl Dl) as [E Hs]. pose proof (high_nonneg l (j + k) Dl). pose proof (pow_B_pos k Hk). nia.
Qed.

(** The divisor of Algorithm D: [n] digits, and its top bit is set. *)
Record normalized (n : Z) (v : JSBigInt) : Prop := {
  norm_length : m_length v = n;
  norm_two : 2 <= n;
  norm_digits : digits_ok (digits v);
  norm_top : B <= 2 * dig (digits v) (n - 1)
}.

Lemma normalized_split n v :
  normalized n v -> let p := B ^ (n - 2) in let V := dig (digits v) (n - 1) * B + dig (digits v) (n - 2) in
  0 < p /\ V * p <= val (digits v) < (V + 1) * p /\ B ^ n = B * B * p /\ val (digits v) < B ^ n.
Proof.
  intros [Hn H2 Dv _] p V. pose proof B_pos. assert (0 < p) as Hp by (apply pow_B_pos; lia). pose proof (low_high (digits v) (n - 2) ltac:(unfold m_length in *; lia)) as E.
  rewrite (high_succ _ (n - 2)) in E by (unfold m_length in *; lia). replace (n - 2 + 1) with (n - 1) in E by lia. rewrite (high_succ _ (n - 1)) in E by (unfold m_length in *; lia).
  replace (n - 1 + 1) with n in E by lia. rewrite (high_all _ n) in E by (unfold m_length in *; lia). pose proof (low_bound (digits v) (n - 2) Dv ltac:(lia)) as Hl. fold p in E, Hl.
  split; [done|]. split; [unfold V; lia|]. split; [|pose proof (val_bound _ Dv) as Hb; unfold m_length in Hn; rewrite Hn in Hb; lia].
  replace n with (n - 2 + 1 + 1) at 1 by lia. rewrite !pow_B_succ by lia. fold p. ring.
Qed.

Lemma normalized_pos n v : normalized n v -> 0 < val (digits v).
Proof.
  intros Hv. destruct (normalized_split n v Hv) as (Hp & [Hv1 _] & _ & _). pose proof (norm_top n v Hv). pose proof B_pos. pose proof (dig_ok _ (n - 2) (norm_digits n v Hv)) as D2. unfold is_digit in D2.
  eapply Z.lt_le_trans; [|apply Hv1]. apply Z.mul_pos_pos; [|done]. assert (0 < dig (digits v) (n - 1) * B) by (apply Z.mul_pos_pos; lia). lia.
Qed.

(** The quotient digit [A / v] is estimated at most one too large. *)
Lemma estimate_qhat_spec s N n u v j :
  arr s N u -> normalized n v -> 0 <= j -> j + n + 1 <= N -> high (digits u) j < val (digits v) * B ->
  let q := high (digits u) j / val (digits v) in
  exists qhat, estimate_qhat u v n (dig (digits v) (n - 1)) j = Ok qhat /\ is_digit qhat /\ q <= qhat <= q + 1.
Proof.
  intros Au Nv Hj Hjn HA q. destruct (normalized_split n v Nv) as (Hp & [Hv1 Hv2] & EBn & Hvn). pose proof (normalized_pos n v Nv) as Hv0. destruct Nv as [Hn H2 Dv Htop]. pose proof B_pos as HB.
  pose proof (arr_zlen _ _ _ Au) as Hlu. pose proof (arr_digits _ _ _ Au) as Du. set (vn1 := dig (digits v) (n - 1)) in *. set (vn2 := dig (digits v) (n - 2)) in *. set (p := B ^ (n - 2)) in *.
  pose proof (dig_ok _ (n - 1) Dv) as D1. pose proof (dig_ok _ (n - 2) Dv) as D2. fold vn1 in D1. fold vn2 in D2.
  assert (high (digits u) (j + n + 1) = 0) as Hz.
  { replace (j + n + 1) with (j + (n + 1)) by lia. apply high_small; [done|lia|lia|done|]. rewrite pow_B_succ by lia. assert (val (digits v) * B < B ^ n * B) by (apply Z.mul_lt_mono_pos_r; lia). lia. }
  destruct (high_split (digits u) j (n - 2) Hj ltac:(lia) ltac:(lia) Du) as [EA Hseg]. fold p in EA, Hseg.
  replace (j + (n - 2)) with (j + n - 2) in EA by lia. rewrite (high_succ _ (j + n - 2)) in EA by lia. replace (j + n - 2 + 1) with (j + n - 1) in EA by lia.
  rewrite (high_succ _ (j + n - 1)) in EA by lia. replace (j + n - 1 + 1) with (j + n) in EA by lia. rewrite (high_succ _ (j + n)), Hz in EA by lia.
  destruct (arr_get _ _ u (j + n) Au ltac:(lia)) as [Gn Dn], (arr_get _ _ u (j + n - 1) Au ltac:(lia)) as [Gn1 Dn1], (arr_get _ _ u (j + n - 2) Au ltac:(lia)) as [Gn2 Dn2].
  unfold estimate_qhat. rewrite Gn. cbn [mbind res_bind]. set (ujn := dig (digits u) (j + n)) in *. set (ujn1 := dig (digits u) (j + n - 1)) in *. set (ujn2 := dig (digits u) (j + n - 2)) in *.
  set (T := (ujn * B + ujn1) * B + ujn2). assert (T * p <= high (digits u) j < (T + 1) * p) as [HA1 HA2] by (unfold T; lia). unfold is_digit in D1, D2, Dn, Dn1, Dn2.
  assert (0 <= ujn * B) as P1 by (apply Z.mul_nonneg_nonneg; lia). assert (0 <= (ujn * B + ujn1) * B) as P2 by (apply Z.mul_nonneg_nonneg; lia). set (V := vn1 * B + vn2) in *.
  assert (ujn <= vn1) as Hle.
  { apply Z.lt_succ_r. apply (Z.mul_lt_mono_pos_r (B * B * p)); [apply Z.mul_pos_pos; [nia|done]|]. assert (val (digits v) * B < (V + 1) * p * B) by (apply Z.mul_lt_mono_pos_r; lia).
    assert ((V + 1) * p * B <= (vn1 + 1) * B * p * B) by (apply Z.mul_le_mono_nonneg_r; [lia|]; apply Z.mul_le_mono_nonneg_r; [lia|]; unfold V; lia).
    assert (ujn * B * B * p <= T * p) by (apply Z.mul_le_mono_nonneg_r; [lia|]; unfold T; lia). lia. }
  destruct (ujn =? vn1) eqn:E; bool_prop; cbn [negb].
  - exists (B - 1). split; [done|]. split; [unfold is_digit; lia|]. apply (equal_leading _ _ (B * p) vn1); [apply Z.mul_pos_pos; lia|lia| | | |done].
    + apply Z.le_trans with (V * p); [|done]. unfold V. assert (0 <= vn2 * p) by (apply Z.mul_nonneg_nonneg; lia). lia.
    + apply Z.lt_le_trans with ((V + 1) * p); [done|]. replace ((vn1 + 1) * (B * p)) with ((vn1 + 1) * B * p) by ring. apply Z.mul_le_mono_nonneg_r; [lia|]. unfold V. lia.
    + apply Z.le_trans with (T * p); [|done]. replace (vn1 * (B * (B * p))) with (vn1 * B * B * p) by ring. apply Z.mul_le_mono_nonneg_r; [lia|]. unfold T. rewrite E. lia.
  - rewrite Gn1. cbn [mbind res_bind]. rewrite digitDiv_spec by (unfold is_digit; lia). cbn [mbind res_bind]. rewrite (digit_dig v) by lia. cbn [mbind res_bind]. rewrite Gn2. cbn [mbind res_bind].
    fold vn2. rewrite first_estimate by (unfold is_digit; lia). fold T V. assert (0 < V) as HV by (unfold V; assert (0 < vn1 * B) by (apply Z.mul_pos_pos; lia); lia).
    assert (T < V * B) as HT. { unfold T, V. assert ((ujn * B + ujn1) * B <= (vn1 * B - 1) * B); [|assert (0 <= vn2 * B) by (apply Z.mul_nonneg_nonneg; lia); lia]. apply Z.mul_le_mono_nonneg_r; [lia|]. assert (ujn * B <= (vn1 - 1) * B) by (apply Z.mul_le_mono_nonneg_r; lia). lia. }
    assert (T / V < B) as Hq by (apply Z.div_lt_upper_bound; [done|lia]). assert (B <= V) by (unfold V; assert (1 * B <= vn1 * B) by (apply Z.mul_le_mono_nonneg_r; lia); lia).
    exists (T / V). split; [done|]. split; [split; [apply Z.div_pos; [unfold T; lia|done]|done]|]. apply (leading_quotient _ _ p); try done; [unfold T; lia|lia].
Qed.

(** ** One step *)
(** Adding the divisor back after a borrow: [X] is what the subtraction left in [n + 1] digits. *)
Lemma add_back_top n r vv X c top l :
  0 <= n -> 0 <= r < vv -> vv < B ^ n -> X = r - vv + B ^ (n + 1) -> is_carry c -> 0 <= l < B ^ n -> is_digit top ->
  X + (vv - c * B ^ n) = l + B ^ n * top -> c = 1 /\ top = B - 1 /\ l = r.
Proof.
  intros Hn Hr Hv -> Hc Hl Ht E. rewrite pow_B_succ in E by done. set (P := B ^ n) in *. unfold is_digit in Ht.
  assert (P * top <= P * (B - 1)) by (apply Z.mul_le_mono_nonneg_l; lia). destruct Hc as [-> | ->]; [lia|]. split; [done|].
  assert (top = B - 1) as ->; [|lia]. destruct (decide (top = B - 1)) as [|Hne]; [done|]. assert (P * top <= P * (B - 2)) by (apply Z.mul_le_mono_nonneg_l; lia). lia.
Qed.

Lemma division_step_spec s N n u v w j :
  arr s N u -> normalized n v -> arr false (n + 1) w -> 0 <= j -> j + n + 1 <= N -> high (digits u) (j + 1) < val (digits v) ->
  exists u' w', division_step v n (dig (digits v) (n - 1)) j u w = Ok (u', w', high (digits u) j / val (digits v)) /\
    arr s N u' /\ arr false (n + 1) w' /\ take (Z.to_nat j) (digits u') = take (Z.to_nat j) (digits u) /\
    high (digits u') j = high (digits u) j mod val (digits v).
Proof.
  intros Au Nv Aw Hj HjN Hlt. pose proof (normalized_pos n v Nv) as Hv0. destruct (normalized_split n v Nv) as (_ & _ & _ & Hvn). pose proof Nv as [Hn H2 Dv Htop]. pose proof B_pos as HB.
  pose proof (arr_zlen _ _ _ Au) as Hlu. pose proof (arr_digits _ _ _ Au) as Du. set (vv := val (digits v)) in *. set (A := high (digits u) j).
  assert (A < vv * B) as HA. { unfold A. rewrite high_succ by lia. pose proof (dig_ok _ j Du) as Dj. unfold is_digit in Dj. assert (B * high (digits u) (j + 1) <= B * (vv - 1)) by (apply Z.mul_le_mono_nonneg_l; lia). lia. }
  assert (0 <= A) as HA0 by (by apply high_nonneg). destruct (estimate_qhat_spec s N n u v j Au Nv Hj HjN HA) as (qhat & Eq & Dq & Hq). unfold division_step. rewrite Eq. cbn [mbind res_bind]. fold vv A in Hq.
  destruct (internalMultiplyAdd_spec false (n + 1) n (Some v) qhat 0 w Aw ltac:(lia)) as (w1 & Ew & Aw1 & Hw1); cbn [from_option id]; [lia|done|done|apply is_digit_0|left; lia|].
  rewrite Ew. cbn [mbind res_bind]. cbn [from_option id] in Hw1. rewrite (low_all (digits v)), Z.add_0_r in Hw1 by (unfold m_length in Hn; lia). fold vv in Hw1.
  destruct (absoluteInplaceSub_spec s N u w1 j Au (arr_digits _ _ _ Aw1) Hj ltac:(rewrite (arr_length _ _ _ Aw1); lia)) as (u1 & c & -> & Au1 & Hc & Ht1 & Hd1 & Hh1).
  rewrite (arr_length _ _ _ Aw1), Hw1 in *. fold A in Hh1. cbn [mbind res_bind]. pose proof (arr_zlen _ _ _ Au1) as Hlu1. pose proof (arr_digits _ _ _ Au1) as Du1.
  assert (B ^ (n + 1) = B * B ^ n) as EP by (apply pow_B_succ; lia). assert (vv * B < B ^ (n + 1)) as HvP by (rewrite EP, (Z.mul_comm vv); apply Z.mul_lt_mono_pos_l; lia).
  assert (high (digits u1) j < B ^ (n + 1)) as HX.
  { destruct (high_split (digits u1) j (n + 1) Hj ltac:(lia) ltac:(lia) Du1) as [E1 E2]. rewrite E1. replace (high (digits u1) (j + (n + 1))) with (high (digits u) (j + (n + 1))) by (unfold high; by rewrite Hd1).
    rewrite (high_small (digits u) j (n + 1)) by (try done; fold A; lia). lia. }
  pose proof (high_nonneg (digits u1) j Du1) as HX0. pose proof (Z.div_mod A vv ltac:(lia)) as Ed. pose proof (Z.mod_pos_bound A vv Hv0) as Hm. set (q := A / vv) in *. set (r := A mod vv) in *.
  destruct (c =? 0) eqn:E0; bool_prop; cbn [negb].
  - rewrite E0 in Hh1. assert (qhat = q) as ->; [|exists u1, w1; split_and!; try done; lia]. destruct (decide (qhat = q)) as [|Hne]; [done|]. assert (qhat = q + 1) as -> by lia. lia.
  - assert (c = 1) as -> by (destruct Hc; lia). assert (qhat = q + 1) as ->. { destruct (decide (qhat = q)) as [->|]; [lia|lia]. }
    destruct (absoluteInplaceAdd_spec s N u1 v j Au1 Dv Hj ltac:(lia)) as (u2 & c2 & -> & Au2 & Hc2 & Ht2 & Hd2 & Hh2). cbn [mbind res_bind]. fold vv in Hh2. rewrite Hn in Hh2, Hd2.
    pose proof (arr_zlen _ _ _ Au2) as Hlu2. pose proof (arr_digits _ _ _ Au2) as Du2. destruct (arr_get _ _ u2 (j + n) Au2 ltac:(lia)) as [-> Dtop]. cbn [mbind res_bind].
    destruct (high_split (digits u2) j n Hj ltac:(lia) ltac:(lia) Du2) as [E2 Hs2]. rewrite (high_succ _ (j + n)) in E2 by lia. assert (high (digits u2) (j + n + 1) = 0) as Ez.
    { assert (drop (Z.to_nat (j + n + 1)) (digits u2) = drop (Z.to_nat (j + n + 1)) (digits u1)) as Edr by (apply drop_eq_succ; [lia|lia|done]). unfold high. rewrite Edr. fold (high (digits u1) (j + n + 1)).
      replace (j + n + 1) with (j + (n + 1)) by lia. apply high_small; try done; lia. }
    rewrite Ez in E2. destruct (add_back_top n r vv (high (digits u1) j) c2 (dig (digits u2) (j + n)) (seg (digits u2) j n)) as (-> & Etop & Eseg); [lia|done|done|lia|done|done|done|lia|].
    rewrite Etop. assert (Digit (B - 1 + 1) = 0) as -> by (unfold Digit; replace (B - 1 + 1) with (1 * B) by lia; apply Z.mod_mul; lia).
    destruct (arr_set _ _ u2 (j + n) 0 Au2 ltac:(lia) is_digit_0) as [-> Au3]. cbn [mbind res_bind]. rewrite (Digit_small (q + 1 - 1)) by (unfold is_digit in *; split; [|lia]; replace (q + 1 - 1) with q by lia; apply Z.div_pos; lia).
    replace (q + 1 - 1) with q by lia. eexists _, w1. split; [done|]. split; [done|]. split; [done|]. cbn [digits]. split; [rewrite take_upd by lia; by rewrite Ht2|].
    destruct (high_split (upd (digits u2) (j + n) 0) j n Hj ltac:(lia) ltac:(rewrite zlen_upd; lia) (arr_digits _ _ _ Au3)) as [E3 _]. rewrite E3. rewrite (high_succ _ (j + n)) by (rewrite zlen_upd; lia).
    rewrite dig_upd_eq, high_upd, Ez by lia. rewrite <- Eseg. unfold seg, upd. rewrite drop_insert_ge by lia. rewrite take_insert_ge by lia. lia.
Qed.
End knuth.

(** ** Shifts by less than a digit *)

Section shift.
Context `{DigitConfig}.
Local Abbreviation B := (2 ^ digitBits).

Lemma pow_split_digit s : 0 <= s <= digitBits -> 0 < 2 ^ s /\ 0 < 2 ^ (digitBits - s) /\ B = 2 ^ (digitBits - s) * 2 ^ s.
Proof. intros Hs. split; [apply Z.pow_pos_nonneg; lia|]. split; [apply Z.pow_pos_nonneg; lia|]. rewrite <- Z.pow_add_r by lia. f_equal. lia. Qed.

(** One digit of a left shift: the bits that leave it are the next carry. *)
Lemma shl_digit d s c :
  is_digit d -> 0 < s < digitBits -> 0 <= c < 2 ^ s ->
  let r := Z.lor (Digit (Z.shiftl d s)) c in let c' := Z.shiftr d (digitBits - s) in is_digit r /\ 0 <= c' < 2 ^ s /\ r + 1 * B * c' = d * 2 ^ s + 1 * c.
Proof.
  intros Dd Hs Hc r c'. destruct (pow_split_digit s ltac:(lia)) as (P1 & P2 & EB). unfold is_digit in Dd. unfold r, c'. rewrite Z.shiftl_mul_pow2, Z.shiftr_div_pow2 by lia. unfold Digit.
  rewrite EB, Z.mul_mod_distr_r by lia. pose proof (Z.div_mod d (2 ^ (digitBits - s))) as Ed. specialize (Ed ltac:(lia)). pose proof (Z.mod_pos_bound d (2 ^ (digitBits - s))) as Hm. specialize (Hm ltac:(lia)).
  set (h := d / 2 ^ (digitBits - s)) in *. set (l := d mod 2 ^ (digitBits - s)) in *. assert (0 <= h < 2 ^ s) as Hh by (split; [apply Z.div_pos; lia|apply Z.div_lt_upper_bound; lia]).
  rewrite <- (Z.shiftl_mul_pow2 l) by lia. rewrite Z_lor_shiftl by lia. rewrite <- EB.
  assert (l * 2 ^ s <= (2 ^ (digitBits - s) - 1) * 2 ^ s) by (apply Z.mul_le_mono_nonneg_r; lia). assert (0 <= l * 2 ^ s) by (apply Z.mul_nonneg_nonneg; lia).
  split; [unfold is_digit; lia|]. split; [lia|]. rewrite Ed. lia.
Qed.

(** One digit of a right shift: the carry is what remains of the digit, and the bits of the next one enter above it. *)
Lemma shr_digit d s c :
  is_digit d -> 0 < s < digitBits -> 0 <= c < 2 ^ (digitBits - s) ->
  let r := Z.lor (Digit (Z.shiftl d (digitBits - s))) c in let c' := Z.shiftr d s in
  is_digit r /\ 0 <= c' < 2 ^ (digitBits - s) /\ 2 ^ s * r + 2 ^ s * B * c' = 2 ^ s * c + B * d.
Proof.
  intros Dd Hs Hc r c'. assert (0 < digitBits - s < digitBits) as Hs' by lia. destruct (shl_digit d (digitBits - s) c Dd Hs' Hc) as (H1 & H2 & H3). replace (digitBits - (digitBits - s)) with s in * by lia. fold r c' in H1, H2, H3.
  split; [done|]. split; [done|]. destruct (pow_split_digit s ltac:(lia)) as (P1 & P2 & EB). rewrite EB at 2. assert (2 ^ s * (r + 1 * B * c') = 2 ^ s * (d * 2 ^ (digitBits - s) + 1 * c)) as E by (by rewrite H3). lia.
Qed.

Lemma shr_carry d s : is_digit d -> 0 <= s < digitBits -> 0 <= Z.shiftr d s < 2 ^ (digitBits - s).
Proof.
  intros Dd Hs. destruct (pow_split_digit s ltac:(lia)) as (P1 & P2 & EB). unfold is_digit in Dd. rewrite Z.shiftr_div_pow2 by lia.
  split; [apply Z.div_pos; lia|apply Z.div_lt_upper_bound; lia].
Qed.

(** ** Copies shifted to the left *)
Lemma absoluteLeftShiftAlwaysCopy_spec x s mode :
  digits_ok (digits x) -> digits x <> [] -> 0 <= s < digitBits ->
  let N := m_length x + match mode with AlwaysAddOneDigit => 1 | SameSizeResult => 0 end in
  (mode = SameSizeResult -> val (digits x) * 2 ^ s < B ^ m_length x) ->
  if decide (N <= maxLength) then exists r, absoluteLeftShiftAlwaysCopy x s mode = Ok r /\ arr false N r /\ val (digits r) = val (digits x) * 2 ^ s
  else absoluteLeftShiftAlwaysCopy x s mode = Throw OutOfMemoryError.
Proof.
  intros Dx Hz Hs N Hfit. unfold absoluteLeftShiftAlwaysCopy. rewrite Z_ltb_true by lia. cbn [ASSERT mbind res_bind]. rewrite isZero_spec, bool_decide_eq_false_2 by done. cbn [negb ASSERT mbind res_bind].
  pose proof (zlen_nonneg (digits x)) as Hn. fold (m_length x) in Hn. assert (match mode with AlwaysAddOneDigit => m_length x + 1 | SameSizeResult => m_length x end = N) as -> by (unfold N; destruct mode; lia).
  assert (0 <= N - m_length x <= 1) as HN by (unfold N; destruct mode; lia). pose proof (tryCreate_spec N ltac:(lia)) as Hc. case_decide as Hmax; rewrite Hc; [|done]. cbn [mbind res_bind].
  pose proof (arr_fresh N ltac:(lia)) as A0. destruct (s =? 0) eqn:E0; bool_prop.
  - name_for body. destruct (write_loop false N 0 0 (m_length x) (dig (digits x)) (low (digits x)) body _ A0) as (r & -> & Ar & _ & Hr).
    { lia. } { lia. } { lia. } { intros i Hi. by apply low_succ. }
    { intros i r Hi Ar. unfold body. rewrite digit_dig by done. cbn [mbind res_bind]. pose proof (dig_ok _ i Dx) as Di. destruct (arr_set _ _ r i _ Ar ltac:(lia) Di) as [-> _]. done. }
    cbn [mbind res_bind]. rewrite !Z.add_0_l, !low_0, Z.pow_0_r, (low_all (digits x)) in Hr by (unfold m_length; lia). rewrite E0, Z.pow_0_r. destruct mode; unfold N in *.
    + exists r. split; [done|]. split; [done|]. rewrite low_all in Hr by (rewrite (arr_zlen _ _ _ Ar); lia). lia.
    + destruct (arr_set _ _ r (m_length x) 0 Ar ltac:(lia) is_digit_0) as [-> Ar']. eexists. split; [done|]. split; [done|]. cbn [digits].
      rewrite <- (low_all _ (m_length x + 1)) by (rewrite zlen_upd, (arr_zlen _ _ _ Ar); lia). rewrite low_upd_succ by (rewrite (arr_zlen _ _ _ Ar); lia). lia.
  - name_for body. assert (0 < s < digitBits) as Hs' by lia. destruct (pow_split_digit s ltac:(lia)) as (Ps & _ & _).
    destruct (carry_loop (fun c => 0 <= c < 2 ^ s) 1 false N 0 0 (m_length x) (fun i => dig (digits x) i * 2 ^ s) (fun i => low (digits x) i * 2 ^ s) body _ 0 A0) as (r & c & -> & Ar & Hcar & _ & _ & Hr).
    { lia. } { lia. } { lia. } { lia. } { intros i Hi. rewrite low_succ by done. lia. }
    { intros i r c Hi Ar Hcar _. unfold body. rewrite digit_dig by done. cbn [mbind res_bind]. destruct (shl_digit _ s c (dig_ok _ i Dx) Hs' Hcar) as (D1 & D2 & E).
      destruct (arr_set _ _ r i _ Ar ltac:(lia) D1) as [-> _]. cbn [mbind res_bind]. eexists _, _. split; [done|]. done. }
    cbn [mbind res_bind]. rewrite !Z.add_0_l, !low_0, Z.pow_0_r, (low_all (digits x)) in Hr by (unfold m_length; lia). destruct mode; unfold N in *.
    + rewrite low_all in Hr by (rewrite (arr_zlen _ _ _ Ar); lia). pose proof (val_bound _ (arr_digits _ _ _ Ar)) as Br. specialize (Hfit eq_refl). assert (c = 0) as ->.
      { destruct (decide (c = 0)) as [|Hne]; [done|]. assert (1 * B ^ m_length x <= c * B ^ m_length x) by (apply Z.mul_le_mono_nonneg_r; [pose proof (pow_B_pos (m_length x) Hn); lia|lia]). lia. }
      cbn [Z.eqb ASSERT mbind res_bind]. exists r. split; [done|]. split; [done|]. lia.
    + assert (is_digit c) as Dc by (unfold is_digit; assert (2 ^ s < B) by (apply Z.pow_lt_mono_r; lia); lia). destruct (arr_set _ _ r (m_length x) c Ar ltac:(lia) Dc) as [-> Ar'].
      eexists. split; [done|]. split; [done|]. cbn [digits].
      rewrite <- (low_all _ (m_length x + 1)) by (rewrite zlen_upd, (arr_zlen _ _ _ Ar); lia). rewrite low_upd_succ by (rewrite (arr_zlen _ _ _ Ar); lia). lia.
Qed.

(** ** Shifts to the right, in place *)
Lemma inplaceRightShift_spec sg N u s k :
  arr sg N u -> 0 < N -> 0 <= s < digitBits -> val (digits u) = k * 2 ^ s ->
  exists r, inplaceRightShift u s = Ok r /\ arr sg N r /\ val (digits r) = k.
Proof.
  intros Au HN Hs Hk. pose proof (arr_zlen _ _ _ Au) as Hlu. pose proof (arr_digits _ _ _ Au) as Du. destruct (pow_split_digit s ltac:(lia)) as (P1 & P2 & EB). pose proof B_pos as HB.
  unfold inplaceRightShift. rewrite Z_ltb_true by lia. cbn [ASSERT mbind res_bind]. destruct (arr_get _ _ u 0 Au ltac:(lia)) as [-> D0]. cbn [mbind res_bind].
  assert (dig (digits u) 0 mod 2 ^ s = 0) as Hmod.
  { rewrite <- high_0, high_succ in Hk by lia. replace (dig (digits u) 0) with ((k - 2 ^ (digitBits - s) * high (digits u) (0 + 1)) * 2 ^ s) by lia. apply Z.mod_mul. lia. }
  rewrite Z.shiftl_1_l, (Digit_small (2 ^ s)) by (unfold is_digit; split; [lia|apply Z.pow_lt_mono_r; lia]). rewrite Z_land_ones, Hmod by lia. cbn [Z.eqb ASSERT mbind res_bind].
  destruct (s =? 0) eqn:E0; bool_prop. { exists u. split; [done|]. split; [done|]. rewrite Hk, E0. lia. }
  rewrite (arr_length _ _ _ Au). assert (0 < s < digitBits) as Hs' by lia. name_for body.
  destruct (for_range_inv (fun i '(r, c) => arr sg N r /\ 0 <= c < 2 ^ (digitBits - s) /\ drop (Z.to_nat (i + 1)) (digits r) = drop (Z.to_nat (i + 1)) (digits u) /\
    2 ^ s * (low (digits r) i + c * B ^ i) = low (digits u) (i + 1)) 0 (N - 1) body (u, Z.shiftr (dig (digits u) 0) s)) as ([r c] & -> & Ar & Hc & _ & Hr).
  { lia. } { split; [done|]. split; [apply shr_carry; [done|lia]|]. split; [done|]. rewrite low_0, low_succ, low_0, Z.pow_0_r, Z.shiftr_div_pow2 by lia.
    pose proof (Z.div_mod (dig (digits u) 0) (2 ^ s) ltac:(lia)). lia. }
  { intros i [r c] Hi (Ar & Hc & Hd & Hr). pose proof (arr_zlen _ _ _ Ar) as Hlr. unfold body. destruct (arr_get _ _ r (i + 1) Ar ltac:(lia)) as [-> Dd]. cbn [mbind res_bind].
    destruct (shr_digit _ s c Dd Hs' Hc) as (D1 & D2 & E). destruct (arr_set _ _ r i _ Ar ltac:(lia) D1) as [-> Ar']. cbn [mbind res_bind]. eexists. split; [done|]. split; [done|]. split; [done|].
    cbn [digits]. split; [rewrite drop_upd by lia; apply drop_eq_succ; [lia|lia|done]|]. rewrite low_upd_succ by lia. rewrite (low_succ (digits u) (i + 1)) by lia.
    rewrite <- (drop_eq_dig (digits r) (digits u) (i + 1)) by (try done; lia). rewrite <- Hr, pow_B_succ by lia. set (d := dig (digits r) (i + 1)) in *. set (r' := Z.lor _ _) in *. set (c' := Z.shiftr d s) in *.
    transitivity (2 ^ s * low (digits r) i + (2 ^ s * r' + 2 ^ s * B * c') * B ^ i); [ring|]. rewrite E. ring. }
  cbn [mbind res_bind]. pose proof (arr_zlen _ _ _ Ar) as Hlr. assert (is_digit c) as Dc by (unfold is_digit; assert (2 ^ (digitBits - s) < B) by (apply Z.pow_lt_mono_r; lia); lia).
  destruct (arr_set _ _ r (N - 1) c Ar ltac:(lia) Dc) as [-> Ar']. eexists. split; [done|]. split; [done|]. cbn [digits].
  rewrite <- (low_all _ (N - 1 + 1)) by (rewrite zlen_upd; lia). rewrite low_upd_succ by lia. apply (Z.mul_reg_l _ _ (2 ^ s)); [lia|]. rewrite Hr, low_all by lia. lia.
Qed.
End shift.

(** ** Quotients and remainders of big integers *)

Section divide.
Context `{DigitConfig}.
Local Abbreviation B := (2 ^ digitBits).

(** The divisor after the shift. *)
Lemma normalize_spec y :
  wf y -> 2 <= m_length y ->
  let top := dig (digits y) (m_length y - 1) in let s := clz top in
  exists v, (if 0 <? s then absoluteLeftShiftAlwaysCopy y s SameSizeResult else Ok y) = Ok v /\ normalized (m_length y) v /\ val (digits v) = val (digits y) * 2 ^ s.
Proof.
  intros Hy Hn top s. pose proof (wf_digits y Hy) as Dy. pose proof (dig_ok _ (m_length y - 1) Dy) as Dtop. assert (top <> 0) as Ht by (apply (wf_trimmed y Hy); [done|lia]).
  destruct (clz_normalizes top Dtop Ht) as (Hs & Hs1 & Hs2). fold s in Hs, Hs1, Hs2. destruct (pow_split_digit s) as (Ps & _ & EB); [lia|].
  assert (digits y <> []) as Hz by (intros E; unfold m_length in Hn; rewrite E in Hn; by destruct Hn).
  assert (val (digits y) * 2 ^ s < B ^ m_length y) as Hfit.
  { rewrite (low_high (digits y) (m_length y - 1)) by (unfold m_length in *; lia). rewrite high_succ, high_all by (unfold m_length in *; lia). fold top. pose proof (low_bound (digits y) (m_length y - 1) Dy ltac:(lia)) as Hl.
    replace (m_length y) with (m_length y - 1 + 1) at 3 by lia. rewrite pow_B_succ by lia. set (P := B ^ (m_length y - 1)) in *.
    assert ((low (digits y) (m_length y - 1) + P * (top + B * 0)) * 2 ^ s < (P + P * top) * 2 ^ s) as Hlt by (apply Z.mul_lt_mono_pos_r; lia).
    assert ((1 + top) * 2 ^ s <= B) as Hb. { rewrite EB in *. apply Z.mul_le_mono_nonneg_r; [lia|]. assert (top < 2 ^ (digitBits - s)); [|lia]. apply (Z.mul_lt_mono_pos_r (2 ^ s)); lia. }
    assert (P * ((1 + top) * 2 ^ s) <= P * B) by (apply Z.mul_le_mono_nonneg_l; lia). lia. }
  destruct (0 <? s) eqn:E; bool_prop.
  - pose proof (absoluteLeftShiftAlwaysCopy_spec y s SameSizeResult Dy Hz ltac:(lia)) as Hcopy. cbv zeta in Hcopy. rewrite Z.add_0_r in Hcopy. rewrite decide_True in Hcopy by apply (wf_length y Hy).
    destruct (Hcopy ltac:(done)) as (v & -> & Av & Hv). exists v. split; [done|]. split; [|done]. split; [apply Av|done|apply Av|].
    pose proof (low_high (digits v) (m_length y - 1) ltac:(rewrite (arr_zlen _ _ _ Av); lia)) as Ev. rewrite high_succ, high_all in Ev by (rewrite (arr_zlen _ _ _ Av); lia).
    pose proof (low_bound (digits v) (m_length y - 1) (arr_digits _ _ _ Av) ltac:(lia)) as Hlv.
    pose proof (low_high (digits y) (m_length y - 1) ltac:(unfold m_length in *; lia)) as Ey. rewrite high_succ, high_all in Ey by (unfold m_length in *; lia). fold top in Ey.
    pose proof (low_bound (digits y) (m_length y - 1) Dy ltac:(lia)) as Hly. rewrite Hv, Ey in Ev. set (P := B ^ (m_length y - 1)) in *. set (t := dig (digits v) (m_length y - 1)) in *.
    assert (top * 2 ^ s <= t); [|lia]. apply Z.lt_succ_r. apply (Z.mul_lt_mono_pos_l P); [lia|]. assert (0 <= low (digits y) (m_length y - 1) * 2 ^ s) by (apply Z.mul_nonneg_nonneg; lia). lia.
  - assert (s = 0) as E0 by lia. rewrite E0, Z.pow_0_r, Z.mul_1_r in *. exists y. split; [done|]. split; [|done]. split; [done|done|done|lia].
Qed.

(** The loop over the digits of the dividend, from the top. *)
Lemma knuth_loop N n m v u0 w0 q0 body :
  normalized n v -> arr false N u0 -> N = m + n + 1 -> 0 <= m -> arr false (n + 1) w0 -> high (digits u0) (m + 1) < val (digits v) ->
  (forall q, q0 = Some q -> arr false (m + 1) q) ->
  body = (fun j '(u, qhatv, q) =>
    '(u, qhatv, qhat) ← division_step v n (dig (digits v) (n - 1)) j u qhatv;
    q ← match q with Some q => q ← setDigit q j qhat; Ok (Some q) | None => Ok None end;
    Ok (u, qhatv, q)) ->
  exists u w q, for_range_down m 0 body (u0, w0, q0) = Ok (u, w, q) /\ arr false N u /\ val (digits u) = val (digits u0) mod val (digits v) /\
    match q0 with Some _ => exists q', q = Some q' /\ arr false (m + 1) q' /\ val (digits q') = val (digits u0) / val (digits v) | None => q = None end.
Proof.
  intros Nv A0 HN Hm Aw Hlt Hq0 ->. pose proof (normalized_pos n v Nv) as Hv0. pose proof (norm_two n v Nv) as Hn2. set (vv := val (digits v)) in *. name_for body.
  destruct (for_range_down_inv (fun j '(u, w, q) => arr false N u /\ arr false (n + 1) w /\ high (digits u) (j + 1) < vv /\
      exists Q, val (digits u0) = vv * (B ^ (j + 1) * Q) + val (digits u) /\
      match q0 with Some _ => exists q', q = Some q' /\ arr false (m + 1) q' /\ high (digits q') (j + 1) = Q | None => q = None end)
    m 0 body (u0, w0, q0)) as ([[u w] q] & -> & Au & _ & Hu & Q & EQ & Hq).
  { lia. } { split; [done|]. split; [done|]. split; [done|]. exists 0. split; [lia|]. destruct q0 as [q|]; [|done]. exists q. split; [done|]. pose proof (Hq0 q eq_refl) as Aq. split; [done|].
    apply high_all. rewrite (arr_zlen _ _ _ Aq). lia. }
  { intros j [[u w] q] Hj (Au & Aw' & Hu & Q & EQ & Hq). unfold body. destruct (division_step_spec false N n u v w j Au Nv Aw' ltac:(lia) ltac:(lia) Hu) as (u' & w' & -> & Au' & Aw'' & Ht & Hh).
    cbn [mbind res_bind]. fold vv in Hh |- *. pose proof (arr_zlen _ _ _ Au) as Hlu. pose proof (arr_zlen _ _ _ Au') as Hlu'. set (A := high (digits u) j) in *. pose proof (Z.div_mod A vv ltac:(lia)) as Ed.
    pose proof (Z.mod_pos_bound A vv Hv0) as Hm'. assert (is_digit (A / vv)) as Dq.
    { split; [apply Z.div_pos; [apply high_nonneg; apply Au|done]|]. apply Z.div_lt_upper_bound; [done|]. unfold A. rewrite high_succ by lia. pose proof (dig_ok _ j (arr_digits _ _ _ Au)) as Dj. unfold is_digit in Dj.
      pose proof B_pos. assert (B * high (digits u) (j + 1) <= B * (vv - 1)) by (apply Z.mul_le_mono_nonneg_l; lia). lia. }
    assert (val (digits u0) = vv * (B ^ j * (A / vv + B * Q)) + val (digits u')) as EQ'.
    { rewrite EQ, (low_high (digits u) j), (low_high (digits u') j) by lia. fold A. rewrite Hh. replace (low (digits u') j) with (low (digits u) j) by (unfold low; by rewrite Ht). rewrite pow_B_succ by lia. rewrite Ed at 1. ring. }
    replace (j - 1 + 1) with j by lia. destruct q0 as [q00|].
    - destruct Hq as (q' & -> & Aq & Hq'). destruct (arr_set _ _ q' j (A / vv) Aq ltac:(lia) Dq) as [-> Aq']. cbn [mbind res_bind]. eexists. split; [done|]. replace (j - 1 + 1) with j by lia. split; [done|]. split; [done|]. split; [lia|]. exists (A / vv + B * Q). split; [done|].
      eexists. split; [done|]. split; [done|]. cbn [digits]. pose proof (arr_zlen _ _ _ Aq). rewrite high_succ by (rewrite zlen_upd; lia). rewrite dig_upd_eq, high_upd by lia. by rewrite Hq'.
    - rewrite Hq. cbn [mbind res_bind]. eexists. split; [done|]. replace (j - 1 + 1) with j by lia. split; [done|]. split; [done|]. split; [lia|]. exists (A / vv + B * Q). done. }
  change (0 - 1 + 1) with 0 in *. rewrite high_0 in Hu. rewrite Z.pow_0_r, Z.mul_1_l in EQ. pose proof (val_bound _ (arr_digits _ _ _ Au)) as [Hu0 _]. exists u, w, q. split; [done|]. split; [done|].
  split; [apply (Z.mod_unique _ _ Q); [left; lia|done]|]. destruct q0; [|done]. destruct Hq as (q' & -> & Aq & Hq'). exists q'. split; [done|]. split; [done|]. rewrite high_0 in Hq'. rewrite Hq'.
  apply (Z.div_unique _ _ _ (val (digits u))); [left; lia|done].
Qed.

Lemma nonempty x : 0 < m_length x -> digits x <> [].
Proof. intros Hn E. unfold m_length in Hn. rewrite E in Hn. change (0 < 0) in Hn. lia. Qed.

Lemma absoluteDivWithBigIntDivisor_spec x y wantq wantr :
  wf x -> wf y -> 2 <= m_length y -> m_length y <= m_length x ->
  if decide (m_length x < maxLength)
  then exists q r, absoluteDivWithBigIntDivisor x y wantq wantr = Ok (q, r) /\
    (wantq = true -> exists q' n, q = Some q' /\ arr false n q' /\ 0 < n <= maxLength /\ val (digits q') = val (digits x) / val (digits y)) /\
    (wantr = true -> exists r' n, r = Some r' /\ arr false n r' /\ 0 < n <= maxLength /\ val (digits r') = val (digits x) mod val (digits y))
  else absoluteDivWithBigIntDivisor x y wantq wantr = Throw OutOfMemoryError.
Proof.
  intros Hx Hy Hn Hle. pose proof (wf_length x Hx) as Lx. pose proof (wf_digits x Hx) as Dx. pose proof (wf_digits y Hy) as Dy.
  unfold absoluteDivWithBigIntDivisor. rewrite (Z_leb_true 2), (Z_leb_true (m_length y)) by done. cbn [ASSERT mbind res_bind]. set (n := m_length y) in *. set (m := m_length x - n).
  set (q0 := if wantq then Some (mkBigInt false (fresh_digits (m + 1))) else None).
  assert ((if wantq then q ← createWithLengthUnchecked (m + 1); Ok (Some q) else Ok None) = Ok q0) as -> by (unfold q0; destruct wantq; [by rewrite createWithLength_ok by (unfold m; lia)|done]). cbn [mbind res_bind].
  pose proof (tryCreate_spec (n + 1) ltac:(lia)) as Hc. destruct (decide (n + 1 <= maxLength)) as [Hnm|]; rewrite Hc; cbn [mbind res_bind]; [|by rewrite decide_False by lia].
  rewrite (digit_dig y) by lia. cbn [mbind res_bind]. destruct (normalize_spec y Hy Hn) as (v & Ev & Nv & Hv). fold n in Ev, Nv, Hv. rewrite Ev. cbn [mbind res_bind]. set (top := dig (digits y) (n - 1)) in *.
  assert (top <> 0) as Ht by (apply (wf_trimmed y Hy); [done|lia]). destruct (clz_normalizes top (dig_ok _ _ Dy) Ht) as (Hs & _ & _). set (s := clz top) in *. destruct (pow_split_digit s) as (Ps & _ & EB); [lia|].
  pose proof (absoluteLeftShiftAlwaysCopy_spec x s AlwaysAddOneDigit Dx (nonempty x ltac:(lia)) Hs ltac:(done)) as Hcopy. destruct (decide (m_length x < maxLength)) as [Hmax|Hmax].
  2:{ rewrite decide_False in Hcopy by lia. by rewrite Hcopy. }
  rewrite decide_True in Hcopy by lia. destruct Hcopy as (u & -> & Au & Hu). cbn [mbind res_bind]. rewrite (digit_dig v) by (rewrite (norm_length n v Nv); lia). cbn [mbind res_bind].
  assert (0 < val (digits y)) as Vy by (pose proof (trimmed_bound _ Dy (wf_trimmed y Hy) (nonempty y ltac:(fold n; lia))) as Tb; fold (m_length y) in Tb; fold n in Tb; pose proof (pow_B_pos (n - 1) ltac:(lia)); lia).
  match goal with |- context [for_range_down m 0 ?b _] => set (body := b) end.
  destruct (knuth_loop (m_length x + 1) n m v u (mkBigInt false (fresh_digits (n + 1))) q0 body Nv Au) as (u' & w & q & -> & Au' & Hu' & Hq).
  { unfold m. lia. } { unfold m. lia. } { apply arr_fresh. lia. }
  { rewrite Hv. pose proof (low_high (digits u) (m + 1) ltac:(rewrite (arr_zlen _ _ _ Au); unfold m; lia)) as Eu. pose proof (low_bound (digits u) (m + 1) (arr_digits _ _ _ Au) ltac:(unfold m; lia)) as [Hl _].
    pose proof (val_bound _ Dx) as [_ Bx]. fold (m_length x) in Bx. pose proof (trimmed_bound _ Dy (wf_trimmed y Hy) (nonempty y ltac:(fold n; lia))) as Ty. fold (m_length y) in Ty. fold n in Ty.
    apply (Z.mul_lt_mono_pos_l (B ^ (m + 1))); [apply pow_B_pos; unfold m; lia|]. apply Z.le_lt_trans with (val (digits x) * 2 ^ s); [lia|].
    apply Z.lt_le_trans with (B ^ m_length x * 2 ^ s); [apply Z.mul_lt_mono_pos_r; lia|]. replace (m_length x) with (m + 1 + (n - 1)) by (unfold m; lia). pose proof B_pos. rewrite Z.pow_add_r by (unfold m; lia).
    assert (B ^ (n - 1) * 2 ^ s <= val (digits y) * 2 ^ s) by (apply Z.mul_le_mono_nonneg_r; lia). rewrite <- Z.mul_assoc. apply Z.mul_le_mono_nonneg_l; [pose proof (pow_B_pos (m + 1) ltac:(unfold m; lia)); lia|done]. }
  { unfold q0. destruct wantq; [|done]. intros q [= <-]. apply arr_fresh. unfold m. lia. } { done. }
  cbn [mbind res_bind]. rewrite Hu, Hv in *. rewrite Z.mul_mod_distr_r in Hu' by lia.
  assert (exists r, (if wantr then u ← inplaceRightShift u' s; Ok (Some u) else Ok None) = Ok r /\
    (wantr = true -> exists r', r = Some r' /\ arr false (m_length x + 1) r' /\ val (digits r') = val (digits x) mod val (digits y))) as (r & -> & Hr).
  { destruct wantr; [|by exists None]. destruct (inplaceRightShift_spec false _ u' s _ Au' ltac:(lia) Hs Hu') as (r & -> & Ar & Hvr). exists (Some r). split; [done|]. intros _. by exists r. }
  cbn [mbind res_bind]. exists q, r. split; [done|]. split.
  - intros ->. unfold q0 in Hq. destruct Hq as (q' & -> & Aq & Hq'). exists q', (m + 1). split; [done|]. split; [done|]. split; [unfold m; lia|]. rewrite Hq'. apply Z.div_mul_cancel_r; lia.
  - intros ->. destruct (Hr eq_refl) as (r' & -> & Ar & Hvr). exists r', (m_length x + 1). split; [done|]. split; [done|]. split; [lia|done].
Qed.

(** ** Quotients and remainders *)
(** Algorithm D cannot allocate the copy of a dividend of the largest size. *)
Definition division_too_long (x y : JSBigInt) : Prop := m_length x = maxLength /\ 2 <= m_length y /\ val (digits y) <= val (digits x).

Lemma signed_quot x y : value y <> 0 -> Z.quot (value x) (value y) = (if negb (Bool.eqb (sign x) (sign y)) then - Z.quot (val (digits x)) (val (digits y)) else Z.quot (val (digits x)) (val (digits y))).
Proof.
  unfold value. intros Hy. assert (val (digits y) <> 0) by (destruct (sign y); lia).
  destruct (sign x), (sign y); cbn [Bool.eqb negb]; rewrite ?Z.quot_opp_opp, ?Z.quot_opp_l, ?Z.quot_opp_r by done; done.
Qed.

Lemma signed_rem x y : value y <> 0 -> Z.rem (value x) (value y) = (if sign x then - Z.rem (val (digits x)) (val (digits y)) else Z.rem (val (digits x)) (val (digits y))).
Proof.
  unfold value. intros Hy. assert (val (digits y) <> 0) by (destruct (sign y); lia).
  destruct (sign x), (sign y); rewrite ?Z.rem_opp_opp, ?Z.rem_opp_l, ?Z.rem_opp_r by done; done.
Qed.

Lemma divide_spec x y :
  wf x -> wf y ->
  (divide x y = Throw DivisionByZero /\ value y = 0) \/
  (divide x y = Throw OutOfMemoryError /\ division_too_long x y) \/
  (value y <> 0 /\ exists z, divide x y = Ok z /\ wf z /\ value z = Z.quot (value x) (value y)).
Proof.
  intros Hx Hy. unfold divide. destruct (isZero y) eqn:Ez; [left; split; [done|by apply isZero_value]|right].
  assert (value y <> 0) as Hy0 by (rewrite <- isZero_value by done; by rewrite Ez). rewrite signed_quot by done. rewrite isZero_spec in Ez. apply bool_decide_eq_false in Ez.
  pose proof (val_bound _ (wf_digits x Hx)) as [Bx _]. pose proof (val_bound _ (wf_digits y Hy)) as [By _]. assert (val (digits y) <> 0) as Vy by (unfold value in Hy0; destruct (sign y); lia).
  pose proof (zlen_nonneg (digits y)) as Hny. fold (m_length y) in Hny. assert (0 < m_length y) as Hpy by (unfold m_length; destruct (digits y); [done|zlia]).
  rewrite absoluteCompare_spec by done. cbn [mbind res_bind]. rewrite !Z.quot_div_nonneg by lia. set (rs := negb (Bool.eqb (sign x) (sign y))). unfold compare_Z. destruct (val (digits x) <? val (digits y)) eqn:Ec; bool_prop.
  { rewrite bool_decide_eq_true_2, createZero_ok by done. right. split; [done|]. eexists. split; [done|]. split; [apply wf_zero|]. unfold value. cbn [sign digits val]. rewrite Z.div_small by lia. by destruct rs. }
  rewrite bool_decide_eq_false_2 by (by destruct (_ <? _)).
  assert (m_length y <= m_length x) as Hlen by (destruct (Z.le_gt_cases (m_length y) (m_length x)) as [|Hl]; [done|]; apply shorter_smaller in Hl; [lia|done..]). pose proof (wf_length x Hx) as Lx.
  destruct (m_length y =? 1) eqn:E1; bool_prop.
  - right. split; [done|]. rewrite digit_dig by lia. cbn [mbind res_bind]. pose proof (dig_ok _ 0 (wf_digits y Hy)) as D0. assert (val (digits y) = dig (digits y) 0) as Ey.
    { rewrite <- high_0, high_succ, high_all by (unfold m_length in *; lia). lia. }
    rewrite Ey in *. set (d := dig (digits y) 0) in *. destruct (d =? 1) eqn:Ed; bool_prop; [rewrite Ed, Z.div_1_r; by apply with_sign|].
    destruct (absoluteDivWithDigitDivisor_spec x d NewQuotient (wf_digits x Hx) (nonempty x ltac:(lia)) Lx D0 Vy) as (q & -> & q' & -> & Aq & Hq). cbn [mbind res_bind deref]. unfold setSign. rewrite <- Hq.
    destruct (trim_signed_spec rs (digits q') (arr_digits _ _ _ Aq)) as (z & -> & Hz & Hv & _); [rewrite (arr_zlen _ _ _ Aq); lia|]. by exists z.
  - pose proof (absoluteDivWithBigIntDivisor_spec x y true false Hx Hy ltac:(lia) Hlen) as Hd. case_decide as Hmax.
    + right. split; [done|]. destruct Hd as (q & r & -> & Hq & _). destruct (Hq eq_refl) as (q' & k & -> & Aq & Hk & Hvq). cbn [mbind res_bind deref]. unfold setSign. rewrite <- Hvq.
      destruct (trim_signed_spec rs (digits q') (arr_digits _ _ _ Aq)) as (z & -> & Hz & Hv & _); [rewrite (arr_zlen _ _ _ Aq); lia|]. by exists z.
    + left. rewrite Hd. split; [done|]. split; [lia|]. split; [lia|done].
Qed.

Lemma remainder_spec x y :
  wf x -> wf y ->
  (remainder x y = Throw DivisionByZero /\ value y = 0) \/
  (remainder x y = Throw OutOfMemoryError /\ division_too_long x y) \/
  (value y <> 0 /\ exists z, remainder x y = Ok z /\ wf z /\ value z = Z.rem (value x) (value y)).
Proof.
  intros Hx Hy. unfold remainder. destruct (isZero y) eqn:Ez; [left; split; [done|by apply isZero_value]|right].
  assert (value y <> 0) as Hy0 by (rewrite <- isZero_value by done; by rewrite Ez). rewrite signed_rem by done. rewrite isZero_spec in Ez. apply bool_decide_eq_false in Ez.
  pose proof (val_bound _ (wf_digits x Hx)) as [Bx _]. pose proof (val_bound _ (wf_digits y Hy)) as [By _]. assert (val (digits y) <> 0) as Vy by (unfold value in Hy0; destruct (sign y); lia).
  assert (0 < m_length y) as Hpy by (unfold m_length; destruct (digits y); [done|zlia]).
  rewrite absoluteCompare_spec by done. cbn [mbind res_bind]. rewrite !Z.rem_mod_nonneg by lia. unfold compare_Z. destruct (val (digits x) <? val (digits y)) eqn:Ec; bool_prop.
  { rewrite bool_decide_eq_true_2 by done. right. split; [done|]. exists x. split; [done|]. split; [done|]. rewrite Z.mod_small by lia. done. }
  rewrite bool_decide_eq_false_2 by (by destruct (_ <? _)).
  assert (m_length y <= m_length x) as Hlen by (destruct (Z.le_gt_cases (m_length y) (m_length x)) as [|Hl]; [done|]; apply shorter_smaller in Hl; [lia|done..]). pose proof (wf_length x Hx) as Lx.
  assert (forall b : bool, (if b then - 0 else 0) = 0) as Hz0 by (by intros []). pose proof maxLength_pos.
  destruct (m_length y =? 1) eqn:E1; bool_prop.
  - right. split; [done|]. rewrite digit_dig by lia. cbn [mbind res_bind]. pose proof (dig_ok _ 0 (wf_digits y Hy)) as D0. assert (val (digits y) = dig (digits y) 0) as Ey.
    { rewrite <- high_0, high_succ, high_all by (unfold m_length in *; lia). lia. }
    rewrite Ey in *. set (d := dig (digits y) 0) in *. destruct (d =? 1) eqn:Ed; bool_prop; [rewrite Ed, Z.mod_1_r, createZero_ok, Hz0; eexists; split; [done|]; split; [apply wf_zero|done]|].
    destruct (absoluteDivWithDigitDivisor_spec x d NoQuotient (wf_digits x Hx) (nonempty x ltac:(lia)) Lx D0 Vy) as (q & -> & _). cbn [mbind res_bind]. set (r := val (digits x) mod d) in *.
    destruct (r =? 0) eqn:Er; bool_prop; [rewrite Er, createZero_ok, Hz0; eexists; split; [done|]; split; [apply wf_zero|done]|].
    assert (is_digit r) as Dr by (unfold is_digit in *; pose proof (Z.mod_pos_bound (val (digits x)) d ltac:(lia)); unfold r; lia).
    rewrite createWithLength_ok by lia. cbn [mbind res_bind]. destruct (arr_set _ _ _ 0 r (arr_fresh 1 ltac:(lia)) ltac:(lia) Dr) as [-> Ar]. cbn [mbind res_bind]. unfold setSign. cbn [digits].
    pose proof (arr_zlen _ _ _ Ar) as Hlr. cbn [digits] in Hlr.
    destruct (trim_signed_spec (sign x) (upd (fresh_digits 1) 0 r) (arr_digits _ _ _ Ar)) as (z & -> & Hz & Hv & _); [lia|]. exists z. split; [done|]. split; [done|]. rewrite Hv.
    assert (val (upd (fresh_digits 1) 0 r) = r) as ->; [|done]. destruct (fresh_digits_ok 1 ltac:(lia)) as [Hf _]. rewrite <- high_0, high_succ, high_all by (rewrite zlen_upd; lia). rewrite dig_upd_eq by lia. lia.
  - pose proof (absoluteDivWithBigIntDivisor_spec x y false true Hx Hy ltac:(lia) Hlen) as Hd. case_decide as Hmax.
    + right. split; [done|]. destruct Hd as (q & r & -> & _ & Hr). destruct (Hr eq_refl) as (r' & k & -> & Ar & Hk & Hvr). cbn [mbind res_bind deref]. unfold setSign. rewrite <- Hvr.
      destruct (trim_signed_spec (sign x) (digits r') (arr_digits _ _ _ Ar)) as (z & -> & Hz & Hv & _); [rewrite (arr_zlen _ _ _ Ar); lia|]. by exists z.
    + left. rewrite Hd. split; [done|]. split; [lia|]. split; [lia|done].
Qed.
End divide.
