(* ===== verification/BigIntBits.v ===== *)
(** * BigIntBits: the bitwise operations and the shifts of big integers
      (src/Source/JavaScriptCore/runtime/JSBigInt.cpp)

    The operations are those of infinite two's complement, computed on signs and absolute values. *)
From S2P Require Import Prelude Doubles BigInt.
Local Open Scope Z_scope.

Section bits.
Context `{DigitConfig}.

Inductive ExtraDigitsHandling : Type := Copy | Skip.
Inductive SymmetricOp : Type := Symmetric | NotSymmetric.
Inductive SignOption : Type := Signed | Unsigned.

Definition absoluteBitwiseOp (x y : JSBigInt) (extraDigits : ExtraDigitsHandling) (symmetric : SymmetricOp) (op : Z -> Z -> Z) : res JSBigInt :=
  let xLength := m_length x in
  let yLength := m_length y in
  let numPairs := yLength in
  let '(x, y, xLength, yLength, numPairs) :=
    if xLength <? yLength then
      let numPairs := xLength in
      match symmetric with Symmetric => (y, x, yLength, xLength, numPairs) | NotSymmetric => (x, y, xLength, yLength, numPairs) end
    else (x, y, xLength, yLength, numPairs) in
  ASSERT (numPairs =? Z.min xLength yLength);;
  let resultLength := match extraDigits with Copy => xLength | Skip => numPairs end in
  result ← createWithLengthUnchecked resultLength;
  result ← for_range 0 numPairs (fun i result => a ← digit x i; b ← digit y i; setDigit result i (op a b)) result;
  result ← match extraDigits with
    | Copy => for_range numPairs xLength (fun i result => a ← digit x i; setDigit result i a) result
    | Skip => Ok result
    end;
  let i := match extraDigits with Copy => Z.max numPairs xLength | Skip => numPairs end in
  result ← for_range i resultLength (fun i result => setDigit result i 0) result;
  rightTrim result.

Definition absoluteAnd (x y : JSBigInt) : res JSBigInt := absoluteBitwiseOp x y Skip Symmetric Z.land.
Definition absoluteOr (x y : JSBigInt) : res JSBigInt := absoluteBitwiseOp x y Copy Symmetric Z.lor.
Definition absoluteAndNot (x y : JSBigInt) : res JSBigInt :=
  absoluteBitwiseOp x y Copy NotSymmetric (fun a b => Z.land a (Digit (Z.lnot b))).
Definition absoluteXor (x y : JSBigInt) : res JSBigInt := absoluteBitwiseOp x y Copy Symmetric Z.lxor.

Fixpoint all_digits_max (n : nat) (i : Z) (x : JSBigInt) : res bool :=
  match n with
  | O => Ok true
  | S n => d ← digit x i; if negb (2 ^ digitBits - 1 =? d) then Ok false else all_digits_max n (i + 1) x
  end.

Definition absoluteAddOne (x : JSBigInt) (signOption : SignOption) : res JSBigInt :=
  let inputLength := m_length x in
  willOverflow ← all_digits_max (Z.to_nat inputLength) 0 x;
  let resultLength := inputLength + Z.b2z willOverflow in
  result ← tryCreateWithLength resultLength;
  '(result, carry) ← for_range 0 inputLength (fun i '(result, carry) =>
    d ← digit x i;
    let '(sum, newCarry) := digitAdd d carry 0 in
    result ← setDigit result i sum;
    Ok (result, newCarry)) (result, 1);
  result ← (if inputLength <? resultLength then setDigit result inputLength carry else ASSERT (carry =? 0);; Ok result);
  rightTrim (setSign result (match signOption with Signed => true | Unsigned => false end)).

Definition absoluteSubOne (x : JSBigInt) (resultLength : Z) : res JSBigInt :=
  ASSERT (negb (isZero x));;
  ASSERT (m_length x <=? resultLength);;
  result ← tryCreateWithLength resultLength;
  let length := m_length x in
  '(result, borrow) ← for_range 0 length (fun i '(result, borrow) =>
    d ← digit x i;
    let '(difference, newBorrow) := digitSub d borrow 0 in
    result ← setDigit result i difference;
    Ok (result, newBorrow)) (result, 1);
  ASSERT (borrow =? 0);;
  result ← for_range length resultLength (fun i result => setDigit result i borrow) result;
  rightTrim result.

Definition bitwiseAnd (x y : JSBigInt) : res JSBigInt :=
  if negb (sign x) && negb (sign y) then absoluteAnd x y
  else if sign x && sign y then
    let resultLength := Z.max (m_length x) (m_length y) + 1 in
    result ← absoluteSubOne x resultLength;
    y1 ← absoluteSubOne y (m_length y);
    result ← absoluteOr result y1;
    absoluteAddOne result Signed
  else
    let '(x, y) := if sign x then (y, x) else (x, y) in
    y1 ← absoluteSubOne y (m_length y);
    absoluteAndNot x y1.

Definition bitwiseOr (x y : JSBigInt) : res JSBigInt :=
  let resultLength := Z.max (m_length x) (m_length y) in
  if negb (sign x) && negb (sign y) then absoluteOr x y
  else if sign x && sign y then
    result ← absoluteSubOne x resultLength;
    y1 ← absoluteSubOne y (m_length y);
    result ← absoluteAnd result y1;
    absoluteAddOne result Signed
  else
    let '(x, y) := if sign x then (y, x) else (x, y) in
    result ← absoluteSubOne y resultLength;
    result ← absoluteAndNot result x;
    absoluteAddOne result Signed.

Definition bitwiseXor (x y : JSBigInt) : res JSBigInt :=
  if negb (sign x) && negb (sign y) then absoluteXor x y
  else if sign x && sign y then
    let resultLength := Z.max (m_length x) (m_length y) in
    result ← absoluteSubOne x resultLength;
    y1 ← absoluteSubOne y (m_length y);
    absoluteXor result y1
  else
    let resultLength := Z.max (m_length x) (m_length y) + 1 in
    let '(x, y) := if sign x then (y, x) else (x, y) in
    result ← absoluteSubOne y resultLength;
    result ← absoluteXor result x;
    absoluteAddOne result Signed.

Definition bitwiseNot (x : JSBigInt) : res JSBigInt :=
  if sign x then absoluteSubOne x (m_length x) else absoluteAddOne x Signed.

(** ** Shifts *)
Definition toShiftAmount (x : JSBigInt) : res (option Z) :=
  if 1 <? m_length x then Ok None
  else value ← digit x 0; Ok (if maxLengthBits <? value then None else Some value).

Definition rightShiftByMaximum (sign : bool) : res JSBigInt := if sign then createFrom_int32 (-1) else createZero.

Definition leftShiftByAbsolute (x y : JSBigInt) : res JSBigInt :=
  optionalShift ← toShiftAmount y;
  match optionalShift with
  | None => Throw TooBig
  | Some shift =>
    let digitShift := u32 (shift / digitBits) in
    let bitsShift := u32 (shift mod digitBits) in
    let length := m_length x in
    grow ← (if negb (bitsShift =? 0) then d ← digit x (length - 1); Ok (negb (Z.shiftr d (digitBits - bitsShift) =? 0)) else Ok false);
    let resultLength := s32 (length + digitShift + Z.b2z grow) in
    if maxLength <? u32 resultLength then Throw TooBig
    else
      result ← tryCreateWithLength resultLength;
      result ← for_range 0 digitShift (fun i result => setDigit result i 0) result;
      result ← (if bitsShift =? 0 then
          for_range digitShift (u32 resultLength) (fun i result => d ← digit x (i - digitShift); setDigit result i d) result
        else
          '(result, carry) ← for_range 0 length (fun i '(result, carry) =>
            d ← digit x i;
            result ← setDigit result (i + digitShift) (Z.lor (Digit (Z.shiftl d bitsShift)) carry);
            Ok (result, Z.shiftr d (digitBits - bitsShift))) (result, 0);
          if grow : bool then setDigit result (length + digitShift) carry else ASSERT (carry =? 0);; Ok result);
      rightTrim (setSign result (sign x))
  end.

Fixpoint any_digit_set (n : nat) (i : Z) (x : JSBigInt) : res bool :=
  match n with
  | O => Ok false
  | S n => d ← digit x i; if negb (d =? 0) then Ok true else any_digit_set n (i + 1) x
  end.

(** Some bit of a negative number is shifted out. *)
Definition must_round_down (x : JSBigInt) (digitalShift bitsShift : Z) : res bool :=
  if sign x then
    let mask := Digit (Z.shiftl 1 bitsShift) - 1 in
    d ← digit x digitalShift;
    if negb (Z.land d mask =? 0) then Ok true else any_digit_set (Z.to_nat digitalShift) 0 x
  else Ok false.

Definition rightShiftByAbsolute (x y : JSBigInt) : res JSBigInt :=
  let length := m_length x in
  let sign := BigInt.sign x in
  optionalShift ← toShiftAmount y;
  match optionalShift with
  | None => rightShiftByMaximum sign
  | Some shift =>
    let digitalShift := u32 (shift / digitBits) in
    let bitsShift := u32 (shift mod digitBits) in
    let resultLength := s32 (length - digitalShift) in
    if resultLength <=? 0 then rightShiftByMaximum sign
    else
      mustRoundDown ← must_round_down x digitalShift bitsShift;
      resultLength ← (if (mustRoundDown : bool) && (bitsShift =? 0) then
          msd ← digit x (length - 1);
          let roundingCanOverflow := Digit (Z.lnot msd) =? 0 in
          Ok (if roundingCanOverflow then resultLength + 1 else resultLength)
        else Ok resultLength);
      ASSERT (resultLength <=? length);;
      result ← createWithLengthUnchecked resultLength;
      result ← (if bitsShift =? 0 then
          for_range digitalShift length (fun i result => d ← digit x i; setDigit result (i - digitalShift) d) result
        else
          d ← digit x digitalShift;
          let carry := Z.shiftr d bitsShift in
          let last := length - digitalShift - 1 in
          '(result, carry) ← for_range 0 last (fun i '(result, carry) =>
            d ← digit x (i + digitalShift + 1);
            result ← setDigit result i (Z.lor (Digit (Z.shiftl d (digitBits - bitsShift))) carry);
            Ok (result, Z.shiftr d bitsShift)) (result, carry);
          setDigit result last carry);
      if sign then
        let result := setSign result true in
        if mustRoundDown : bool then result ← rightTrim result; absoluteAddOne result Signed else rightTrim result
      else rightTrim result
  end.

Definition leftShift (x y : JSBigInt) : res JSBigInt :=
  if isZero y || isZero x then Ok x
  else if sign y then rightShiftByAbsolute x y else leftShiftByAbsolute x y.

Definition signedRightShift (x y : JSBigInt) : res JSBigInt :=
  if isZero y || isZero x then Ok x
  else if sign y then leftShiftByAbsolute x y else rightShiftByAbsolute x y.
End bits.
