(* ===== verification/BigIntBitwise.v ===== *)
(** * BigIntBitwise: bitwise operations on digits and on absolute values *)
From S2P Require Import Prelude Doubles BigInt BigIntFacts BigIntAdd BigIntDivide BigIntBits.
Local Open Scope Z_scope.

(** ** Bitwise operations on integers *)
(** [op] works on each bit alone, and keeps zeros. *)
Class Bitwise (op : Z -> Z -> Z) : Prop :=
  bitwise_spec : exists f, f false false = false /\ forall a b k, 0 <= k -> Z.testbit (op a b) k = f (Z.testbit a k) (Z.testbit b k).

#[export] Instance land_bitwise : Bitwise Z.land.
Proof. exists andb. split; [done|]. intros. apply Z.land_spec. Qed.
#[export] Instance lor_bitwise : Bitwise Z.lor.
Proof. exists orb. split; [done|]. intros. apply Z.lor_spec. Qed.
#[export] Instance lxor_bitwise : Bitwise Z.lxor.
Proof. exists xorb. split; [done|]. intros. apply Z.lxor_spec. Qed.
#[export] Instance ldiff_bitwise : Bitwise Z.ldiff.
Proof. exists (fun a b => a && negb b). split; [done|]. intros. apply Z.ldiff_spec. Qed.

Lemma testbit_high a w k : 0 <= a < 2 ^ w -> w <= k -> Z.testbit a k = false.
Proof.
  intros Ha Hk. destruct (decide (0 <= w)); [|rewrite Z.pow_neg_r in Ha by lia; lia]. rewrite <- (Z.mod_small a (2 ^ w)) by done. apply Z.mod_pow2_bits_high. lia.
Qed.

Lemma testbit_split a a' w k :
  0 <= w -> 0 <= a < 2 ^ w -> 0 <= k -> Z.testbit (a + 2 ^ w * a') k = if k <? w then Z.testbit a k else Z.testbit a' (k - w).
Proof.
  intros Hw Ha Hk. rewrite Z.add_comm, Z.mul_comm, <- Z_lor_shiftl by done || (rewrite Z.shiftl_mul_pow2 by lia). rewrite Z.lor_spec. destruct (k <? w) eqn:E; bool_prop.
  - by rewrite Z.shiftl_spec_low by lia.
  - rewrite Z.shiftl_spec by lia. by rewrite (testbit_high a w k), orb_false_r.
Qed.

Lemma bits_bound a w : 0 <= w -> (forall k, w <= k -> Z.testbit a k = false) -> 0 <= a < 2 ^ w.
Proof.
  intros Hw Hb. assert (a = a mod 2 ^ w) as ->; [|apply Z.mod_pos_bound, Z.pow_pos_nonneg; lia]. apply Z.bits_inj'. intros k Hk.
  destruct (decide (k < w)); [by rewrite Z.mod_pow2_bits_low|]. rewrite Z.mod_pow2_bits_high by lia. apply Hb. lia.
Qed.

Lemma bitwise_bound op `{!Bitwise op} a b w : 0 <= w -> 0 <= a < 2 ^ w -> 0 <= b < 2 ^ w -> 0 <= op a b < 2 ^ w.
Proof.
  intros Hw Ha Hb. destruct bitwise_spec as (f & Hf & Hop). apply bits_bound; [done|]. intros k Hk. rewrite Hop by lia. by rewrite !(testbit_high _ w).
Qed.

(** The operation is computed piecewise. *)
Lemma bitwise_split op `{!Bitwise op} a b a' b' w :
  0 <= w -> 0 <= a < 2 ^ w -> 0 <= b < 2 ^ w -> op (a + 2 ^ w * a') (b + 2 ^ w * b') = op a b + 2 ^ w * op a' b'.
Proof.
  intros Hw Ha Hb. pose proof (bitwise_bound op a b w Hw Ha Hb) as Hab. destruct bitwise_spec as (f & Hf & Hop). apply Z.bits_inj'. intros k Hk. rewrite Hop, !testbit_split by done.
  destruct (k <? w) eqn:E; bool_prop; rewrite Hop by lia; done.
Qed.

(** ** On digits *)
Section bits.
Context `{DigitConfig}.
Local Abbreviation B := (2 ^ digitBits).

Lemma pow_B_bits i : 0 <= i -> B ^ i = 2 ^ (digitBits * i).
Proof. intros Hi. symmetry. apply Z.pow_mul_r; [destruct digitBits_ok as [-> | ->]; lia|done]. Qed.

Lemma bits_nonneg i : 0 <= i -> 0 <= digitBits * i.
Proof. intros Hi. destruct digitBits_ok as [-> | ->]; lia. Qed.

Lemma digit_ldiff a b : is_digit a -> is_digit b -> Z.land a (Digit (Z.lnot b)) = Z.ldiff a b.
Proof.
  unfold is_digit. intros Ha Hb. apply Z.bits_inj'. intros k Hk. rewrite Z.land_spec, Z.ldiff_spec. unfold Digit. destruct (decide (k < digitBits)).
  - by rewrite Z.mod_pow2_bits_low, Z.lnot_spec by lia.
  - by rewrite (testbit_high a digitBits) by lia.
Qed.

Lemma low_bitwise op `{!Bitwise op} l l' i :
  digits_ok l -> digits_ok l' -> 0 <= i < zlen l -> i < zlen l' ->
  op (low l (i + 1)) (low l' (i + 1)) = op (low l i) (low l' i) + op (dig l i) (dig l' i) * B ^ i.
Proof.
  intros Dl Dl' Hi Hi'. rewrite !low_succ by lia. pose proof (low_bound l i Dl ltac:(lia)) as H1. pose proof (low_bound l' i Dl' ltac:(lia)) as H2. rewrite pow_B_bits in * by lia.
  rewrite !(Z.mul_comm (dig _ i)). rewrite bitwise_split by (done || (apply bits_nonneg; lia)). lia.
Qed.

Lemma val_bitwise op `{!Bitwise op} l l' n :
  digits_ok l -> digits_ok l' -> 0 <= n <= zlen l -> n <= zlen l' -> op (val l) (val l') = op (low l n) (low l' n) + B ^ n * op (high l n) (high l' n).
Proof.
  intros Dl Dl' Hn Hn'. rewrite (low_high l n), (low_high l' n) by lia. pose proof (low_bound l n Dl ltac:(lia)) as H1. pose proof (low_bound l' n Dl' ltac:(lia)) as H2. rewrite pow_B_bits in * by lia.
  apply bitwise_split; [done|apply bits_nonneg; lia|done|done].
Qed.

(** ** The operation on absolute values *)
(** The digits that both have are combined; those of [x] alone are copied or skipped. *)
Lemma bitwise_loops x y extra op opd n :
  Bitwise op -> wf x -> wf y -> n = Z.min (m_length x) (m_length y) ->
  (forall a b, is_digit a -> is_digit b -> opd a b = op a b) ->
  let N := match extra with Copy => m_length x | Skip => n end in
  exists z, (result ← createWithLengthUnchecked N;
    result ← for_range 0 n (fun i result => a ← digit x i; b ← digit y i; setDigit result i (opd a b)) result;
    result ← match extra with Copy => for_range n (m_length x) (fun i result => a ← digit x i; setDigit result i a) result | Skip => Ok result end;
    result ← for_range (match extra with Copy => Z.max n (m_length x) | Skip => n end) N (fun i result => setDigit result i 0) result;
    rightTrim result) = Ok z /\ wf z /\ sign z = false /\ m_length z <= N /\
    val (digits z) = op (low (digits x) n) (low (digits y) n) + match extra with Copy => B ^ n * high (digits x) n | Skip => 0 end.
Proof.
  intros Hop Hx Hy Hn Hopd N. pose proof (zlen_nonneg (digits x)) as Lx0. pose proof (zlen_nonneg (digits y)) as Ly0. fold (m_length x) in Lx0. fold (m_length y) in Ly0.
  pose proof (wf_digits x Hx) as Dx. pose proof (wf_digits y Hy) as Dy. pose proof (wf_length x Hx) as Lx. assert (0 <= n <= N /\ N <= maxLength) as [HN HN'] by (unfold N; destruct extra; lia).
  rewrite createWithLength_ok by lia. cbn [mbind res_bind]. name_for body. pose proof (arr_fresh N ltac:(lia)) as A0.
  destruct (write_loop false N 0 0 n (fun i => op (dig (digits x) i) (dig (digits y) i)) (fun i => op (low (digits x) i) (low (digits y) i)) body _ A0) as (r & -> & Ar & _ & Hr).
  { lia. } { lia. } { lia. } { intros i Hi. apply low_bitwise; unfold m_length in *; try done; lia. }
  { intros i r Hi Ar. unfold body. rewrite !digit_dig by lia. cbn [mbind res_bind]. pose proof (dig_ok _ i Dx) as D1. pose proof (dig_ok _ i Dy) as D2. rewrite Hopd by done.
    assert (is_digit (op (dig (digits x) i) (dig (digits y) i))) as D3 by (apply bitwise_bound; [done|destruct digitBits_ok as [-> | ->]; lia|done|done]).
    destruct (arr_set _ _ r i _ Ar ltac:(lia) D3) as [-> _]. done. }
  clear body. cbn [mbind res_bind]. rewrite !Z.add_0_l, !low_0, Z.pow_0_r, Z.mul_1_l in Hr.
  assert (op 0 0 = 0) as Hop0 by (pose proof (bitwise_bound op 0 0 0 ltac:(lia) ltac:(lia) ltac:(lia)); lia). rewrite Hop0, Z.sub_0_r in Hr.
  set (extra_val := match extra with Copy => B ^ n * high (digits x) n | Skip => 0 end).
  assert (exists r', match extra with Copy => for_range n (m_length x) (fun i result => a ← digit x i; setDigit result i a) r | Skip => Ok r end = Ok r' /\ arr false N r' /\
    val (digits r') = op (low (digits x) n) (low (digits y) n) + extra_val) as (r' & -> & Ar' & Hr').
  { unfold extra_val, N in *. destruct extra; [|exists r; split; [done|]; split; [done|]; rewrite <- (low_all _ n), Hr by (rewrite (arr_zlen _ _ _ Ar); lia); lia].
    name_for body. destruct (write_loop false (m_length x) 0 n (m_length x) (dig (digits x)) (low (digits x)) body _ Ar) as (r' & -> & Ar' & _ & Hr').
    { lia. } { lia. } { lia. } { intros i Hi. apply low_succ. unfold m_length in *. lia. }
    { intros i r' Hi Ar'. unfold body. rewrite digit_dig by lia. cbn [mbind res_bind]. pose proof (dig_ok _ i Dx) as D1. destruct (arr_set _ _ r' i _ Ar' ltac:(lia) D1) as [-> _]. done. }
    exists r'. split; [done|]. split; [done|]. rewrite !Z.add_0_l, Z.pow_0_r, Z.mul_1_l, Hr in Hr'. rewrite (low_all (digits r')), (low_all (digits x) (m_length x)) in Hr' by (rewrite ?(arr_zlen _ _ _ Ar'); unfold m_length; lia). rewrite Hr'.
    rewrite (low_high (digits x) n) by (unfold m_length in *; lia). lia. }
  cbn [mbind res_bind]. assert (for_range (match extra with Copy => Z.max n (m_length x) | Skip => n end) N (fun i result => setDigit result i 0) r' = Ok r') as ->.
  { unfold for_range. replace (Z.to_nat _) with 0%nat by (unfold N; destruct extra; lia). done. }
  cbn [mbind res_bind]. pose proof (arr_zlen _ _ _ Ar') as Hlr. destruct (rightTrim_spec r' (arr_digits _ _ _ Ar')) as (z & -> & Hz & Hv & Hl); [rewrite (arr_length _ _ _ Ar'); lia|by rewrite (arr_sign _ _ _ Ar')|].
  assert (sign z = false) as Sz.
  { pose proof (value_sign z Hz) as Sv. destruct (sign z); [|done]. rewrite Hv in Sv. unfold value in Sv. rewrite (arr_sign _ _ _ Ar') in Sv. pose proof (val_bound _ (arr_digits _ _ _ Ar')). lia. }
  exists z. split; [done|]. split; [done|]. split; [done|]. split; [by rewrite (arr_length _ _ _ Ar') in Hl|]. unfold value in Hv. rewrite Sz, (arr_sign _ _ _ Ar') in Hv. by rewrite Hv.
Qed.
End bits.

(** ** The bitwise operations are those of two's complement *)

Section bitwise.
Context `{DigitConfig}.
Local Abbreviation B := (2 ^ digitBits).

(** A result with an absolute value. *)
Definition result_is (r : res JSBigInt) (len v : Z) : Prop := exists z, r = Ok z /\ wf z /\ sign z = false /\ m_length z <= len /\ val (digits z) = v.

Lemma absoluteAndNot_spec x y : wf x -> wf y -> result_is (absoluteAndNot x y) (m_length x) (Z.ldiff (val (digits x)) (val (digits y))).
Proof.
  intros Hx Hy. unfold absoluteAndNot, absoluteBitwiseOp. set (n := Z.min (m_length x) (m_length y)). pose proof (zlen_nonneg (digits x)) as Lx. pose proof (zlen_nonneg (digits y)) as Ly. fold (m_length x) in Lx. fold (m_length y) in Ly.
  destruct (bitwise_loops x y Copy Z.ldiff (fun a b => Z.land a (Digit (Z.lnot b))) n _ Hx Hy eq_refl digit_ldiff) as (z & Ez & Hz & Sz & Lz & Hv).
  exists z. split; [|split; [done|]; split; [done|]; split; [done|]].
  - destruct (m_length x <? m_length y) eqn:E; bool_prop.
    + replace (m_length x =? _) with true by (symmetry; apply Z.eqb_eq; lia). cbn [ASSERT mbind res_bind]. replace n with (m_length x) in Ez by (unfold n; lia). apply Ez.
    + replace (m_length y =? _) with true by (symmetry; apply Z.eqb_eq; lia). cbn [ASSERT mbind res_bind]. replace n with (m_length y) in Ez by (unfold n; lia). apply Ez.
  - rewrite Hv. rewrite (val_bitwise Z.ldiff (digits x) (digits y) n) by (try apply Hx; try apply Hy; unfold n, m_length in *; lia). f_equal. f_equal.
    unfold n. destruct (Z.min_spec (m_length x) (m_length y)) as [[Hlt ->]|[Hge ->]].
    + rewrite (high_all (digits x)) by (unfold m_length; lia). by rewrite Z.ldiff_0_l.
    + rewrite (high_all (digits y)) by (unfold m_length; lia). by rewrite Z.ldiff_0_r.
Qed.

(** The symmetric operations put the longer number first. *)
Lemma symmetric_spec x y extra op :
  Bitwise op -> (forall a b, op a b = op b a) -> (forall a, op a 0 = match extra with Copy => a | Skip => 0 end) -> wf x -> wf y ->
  result_is (absoluteBitwiseOp x y extra Symmetric op) (match extra with Copy => Z.max (m_length x) (m_length y) | Skip => Z.min (m_length x) (m_length y) end) (op (val (digits x)) (val (digits y))).
Proof.
  intros Hop Hcomm H0 Hx Hy. unfold absoluteBitwiseOp. pose proof (zlen_nonneg (digits x)) as Lx. pose proof (zlen_nonneg (digits y)) as Ly. fold (m_length x) in Lx. fold (m_length y) in Ly.
  assert (forall u v, wf u -> wf v -> m_length v <= m_length u ->
    result_is (ASSERT (m_length v =? Z.min (m_length u) (m_length v));;
      let resultLength := match extra with Copy => m_length u | Skip => m_length v end in
      result ← createWithLengthUnchecked resultLength;
      result ← for_range 0 (m_length v) (fun i result => a ← digit u i; b ← digit v i; setDigit result i (op a b)) result;
      result ← match extra with Copy => for_range (m_length v) (m_length u) (fun i result => a ← digit u i; setDigit result i a) result | Skip => Ok result end;
      let i := match extra with Copy => Z.max (m_length v) (m_length u) | Skip => m_length v end in
      result ← for_range i resultLength (fun i result => setDigit result i 0) result;
      rightTrim result) (match extra with Copy => m_length u | Skip => m_length v end) (op (val (digits u)) (val (digits v)))) as Hgen.
  { intros u v Hu Hv Hle. rewrite Z.min_r by done. rewrite Z.eqb_refl. cbn [ASSERT mbind res_bind]. pose proof (zlen_nonneg (digits v)) as Lv. fold (m_length v) in Lv.
    destruct (bitwise_loops u v extra op op (m_length v) Hop Hu Hv ltac:(lia) ltac:(done)) as (z & Ez & Hz & Sz & Lz & Hval). exists z. split; [apply Ez|]. split; [done|]. split; [done|]. split; [done|].
    rewrite Hval. rewrite (val_bitwise op (digits u) (digits v) (m_length v)) by (try apply Hu; try apply Hv; unfold m_length in *; lia).
    rewrite (high_all (digits v)), H0 by (unfold m_length; lia). destruct extra; lia. }
  destruct (m_length x <? m_length y) eqn:E; bool_prop.
  - rewrite (Z.min_comm (m_length x)). rewrite Hcomm. replace (match extra with Copy => Z.max (m_length x) (m_length y) | Skip => Z.min (m_length y) (m_length x) end) with (match extra with Copy => m_length y | Skip => m_length x end) by (destruct extra; lia). apply Hgen; [done|done|lia].
  - replace (match extra with Copy => Z.max (m_length x) (m_length y) | Skip => Z.min (m_length x) (m_length y) end) with (match extra with Copy => m_length x | Skip => m_length y end) by (destruct extra; lia). apply Hgen; [done|done|lia].
Qed.

Lemma absoluteAnd_spec x y : wf x -> wf y -> result_is (absoluteAnd x y) (Z.min (m_length x) (m_length y)) (Z.land (val (digits x)) (val (digits y))).
Proof. intros Hx Hy. apply (symmetric_spec x y Skip Z.land _ Z.land_comm Z.land_0_r Hx Hy). Qed.
Lemma absoluteOr_spec x y : wf x -> wf y -> result_is (absoluteOr x y) (Z.max (m_length x) (m_length y)) (Z.lor (val (digits x)) (val (digits y))).
Proof. intros Hx Hy. apply (symmetric_spec x y Copy Z.lor _ Z.lor_comm Z.lor_0_r Hx Hy). Qed.
Lemma absoluteXor_spec x y : wf x -> wf y -> result_is (absoluteXor x y) (Z.max (m_length x) (m_length y)) (Z.lxor (val (digits x)) (val (digits y))).
Proof. intros Hx Hy. apply (symmetric_spec x y Copy Z.lxor _ Z.lxor_comm Z.lxor_0_r Hx Hy). Qed.

(** ** One more and one less *)
Lemma all_digits_max_spec n i x :
  digits_ok (digits x) -> 0 <= i -> i + Z.of_nat n = m_length x -> all_digits_max n i x = Ok (high (digits x) i =? B ^ Z.of_nat n - 1).
Proof.
  intros Dx. revert i. induction n as [|n IH]; intros i Hi Hn; cbn [all_digits_max].
  - rewrite high_all by (unfold m_length in *; lia). rewrite Z.pow_0_r. done.
  - rewrite digit_dig by lia. cbn [mbind res_bind]. pose proof (dig_ok _ i Dx) as Di. unfold is_digit in Di. pose proof (val_bound (drop (Z.to_nat (i + 1)) (digits x)) ltac:(by apply Forall_drop)) as Hh.
    fold (high (digits x) (i + 1)) in Hh. assert (zlen (drop (Z.to_nat (i + 1)) (digits x)) = Z.of_nat n) as El by (unfold m_length, zlen in *; rewrite length_drop; lia). rewrite El in Hh.
    rewrite (high_succ _ i) by (unfold m_length in *; lia). rewrite Nat2Z.inj_succ, <- Z.add_1_r, pow_B_succ by lia. pose proof B_pos. set (P := B ^ Z.of_nat n) in *. set (h := high (digits x) (i + 1)) in *. set (d := dig (digits x) i) in *.
    assert (B * h <= B * (P - 1)) by (apply Z.mul_le_mono_nonneg_l; lia).
    destruct (2 ^ digitBits - 1 =? d) eqn:E; bool_prop; cbn [negb].
    + rewrite IH by lia. fold h P. f_equal. apply eq_true_iff_eq. rewrite !Z.eqb_eq. rewrite <- E. split; [intros ->; lia|]. intros Eh. assert (B * h = B * (P - 1)) as Eb by lia. apply Z.mul_reg_l in Eb; lia.
    + f_equal. symmetry. apply Z.eqb_neq. intros Eh. assert (B * h < B * (P - 1) \/ h = P - 1) as [Hlt| ->]; [|lia|lia]. destruct (decide (h = P - 1)); [by right|left]. apply Z.mul_lt_mono_pos_l; lia.
Qed.

Lemma absoluteAddOne_spec x so :
  wf x ->
  (absoluteAddOne x so = Throw OutOfMemoryError /\ val (digits x) + 1 = B ^ maxLength) \/
  exists z, absoluteAddOne x so = Ok z /\ wf z /\ value z = match so with Signed => - (val (digits x) + 1) | Unsigned => val (digits x) + 1 end.
Proof.
  intros Hx. pose proof (wf_digits x Hx) as Dx. pose proof (zlen_nonneg (digits x)) as Lx. fold (m_length x) in Lx. pose proof (wf_length x Hx) as Lm. pose proof B_pos as HB.
  unfold absoluteAddOne. rewrite all_digits_max_spec by (try done; lia). cbn [mbind res_bind]. rewrite high_0, Z2Nat.id by done. pose proof (val_bound _ Dx) as Bx. fold (m_length x) in Bx.
  set (ov := val (digits x) =? B ^ m_length x - 1). set (N := m_length x + Z.b2z ov). assert (0 <= N) as HN by (unfold N; destruct ov; cbn; lia).
  pose proof (tryCreate_spec N HN) as Hc. case_decide as Hmax; rewrite Hc.
  2:{ left. split; [done|]. destruct ov eqn:Eov; cbn [Z.b2z] in *; [|unfold N in *; lia]. unfold ov in Eov. bool_prop. replace maxLength with (m_length x) by (unfold N in *; lia). lia. }
  right. cbn [mbind res_bind]. name_for body.
  destruct (carry_loop is_carry 1 false N 0 0 (m_length x) (dig (digits x)) (low (digits x)) body _ 1 (arr_fresh N HN)) as (r & c & -> & Ar & Hcar & _ & _ & Hr).
  { by right. } { lia. } { lia. } { unfold N. destruct ov; cbn; lia. } { intros i Hi. by apply low_succ. }
  { intros i r c Hi Ar Hcar _. unfold body. rewrite digit_dig by done. cbn [mbind res_bind]. destruct (digitAdd_carry _ c (dig_ok _ i Dx) Hcar) as (d & c' & -> & Hc' & Hd & E). exists d, c'.
    destruct (arr_set _ _ r i d Ar ltac:(unfold N; destruct ov; cbn; lia) Hd) as [-> _]. split; [done|]. split; [done|]. split; [done|]. lia. }
  cbn [mbind res_bind]. rewrite !Z.add_0_l, !low_0, Z.pow_0_r, (low_all (digits x)) in Hr by (unfold m_length; lia).
  assert (exists r', (if m_length x <? N then setDigit r (m_length x) c else ASSERT (c =? 0);; Ok r) = Ok r' /\ arr false N r' /\ val (digits r') = val (digits x) + 1) as (r' & -> & Ar' & Hr').
  { unfold N in *. pose proof (pow_B_pos (m_length x) Lx). destruct ov eqn:Eov; cbn [Z.b2z] in *.
    - rewrite Z_ltb_true by lia. destruct (arr_set _ _ r (m_length x) c Ar ltac:(lia) (carry_digit c Hcar)) as [-> Ar']. eexists. split; [done|]. split; [done|]. cbn [digits].
      rewrite <- (low_all _ (m_length x + 1)) by (rewrite zlen_upd, (arr_zlen _ _ _ Ar); lia). rewrite low_upd_succ by (rewrite (arr_zlen _ _ _ Ar); lia). lia.
    - rewrite Z_ltb_false by lia. unfold ov in Eov. bool_prop. rewrite low_all in Hr by (rewrite (arr_zlen _ _ _ Ar); lia). pose proof (val_bound _ (arr_digits _ _ _ Ar)) as Br.
      assert (c = 0) as -> by (destruct Hcar as [|Ec]; [done|rewrite Ec in Hr; lia]). cbn [Z.eqb ASSERT mbind res_bind]. exists r. split; [done|]. split; [done|]. lia. }
  cbn [mbind res_bind]. unfold setSign. destruct (trim_signed_spec (match so with Signed => true | Unsigned => false end) (digits r') (arr_digits _ _ _ Ar')) as (z & -> & Hz & Hv & _).
  { rewrite (arr_zlen _ _ _ Ar'). split; [|done]. destruct (decide (m_length x = 0)) as [E0|]; [|unfold N; destruct ov; cbn; lia]. unfold N, ov. rewrite E0, Z.pow_0_r in *.
    replace (val (digits x)) with 0 by lia. done. }
  exists z. split; [done|]. split; [done|]. rewrite Hv, Hr'. by destruct so.
Qed.

Lemma absoluteSubOne_spec x n :
  wf x -> digits x <> [] -> m_length x <= n ->
  if decide (n <= maxLength) then result_is (absoluteSubOne x n) (m_length x) (val (digits x) - 1) else absoluteSubOne x n = Throw OutOfMemoryError.
Proof.
  intros Hx Hz Hn. pose proof (wf_digits x Hx) as Dx. pose proof (zlen_nonneg (digits x)) as Lx. fold (m_length x) in Lx. unfold absoluteSubOne. rewrite isZero_spec, bool_decide_eq_false_2 by done. cbn [negb ASSERT mbind res_bind].
  rewrite Z_leb_true by done. cbn [ASSERT mbind res_bind]. pose proof (tryCreate_spec n ltac:(lia)) as Hc. case_decide as Hmax; rewrite Hc; [|done]. cbn [mbind res_bind]. name_for body.
  destruct (carry_loop is_carry (-1) false n 0 0 (m_length x) (dig (digits x)) (low (digits x)) body _ 1 (arr_fresh n ltac:(lia))) as (r & c & -> & Ar & Hcar & _ & _ & Hr).
  { by right. } { lia. } { lia. } { lia. } { intros i Hi. by apply low_succ. }
  { intros i r c Hi Ar Hcar _. unfold body. rewrite digit_dig by done. cbn [mbind res_bind]. destruct (digitSub_borrow _ c (dig_ok _ i Dx) Hcar) as (d & c' & -> & Hc' & Hd & E). exists d, c'.
    destruct (arr_set _ _ r i d Ar ltac:(lia) Hd) as [-> _]. split; [done|]. split; [done|]. split; [done|]. lia. }
  clear body. cbn [mbind res_bind]. rewrite !Z.add_0_l, !low_0, Z.pow_0_r, (low_all (digits x)) in Hr by (unfold m_length; lia).
  assert (0 < val (digits x)) as Vx. { pose proof (val_bound _ Dx). destruct (decide (val (digits x) = 0)) as [E|]; [|lia]. by apply val_zero in E; [|apply Dx|apply Hx]. }
  pose proof (low_bound (digits r) (m_length x) (arr_digits _ _ _ Ar) Lx) as Br. pose proof (val_bound _ Dx) as Bx. fold (m_length x) in Bx.
  assert (c = 0) as -> by (destruct Hcar as [|Ec]; [done|rewrite Ec in Hr; lia]). cbn [Z.eqb ASSERT mbind res_bind]. name_for body.
  destruct (write_loop false n 0 (m_length x) n (fun _ => 0) (fun _ => 0) body _ Ar) as (r' & -> & Ar' & _ & Hr').
  { lia. } { lia. } { lia. } { lia. } { intros i r' Hi Ar'. unfold body. destruct (arr_set _ _ r' i 0 Ar' ltac:(lia) is_digit_0) as [-> _]. split; [done|apply is_digit_0]. }
  cbn [mbind res_bind]. rewrite !Z.add_0_l, Hr, low_all in Hr' by (rewrite (arr_zlen _ _ _ Ar'); lia). assert (0 < m_length x) as Lp by (unfold m_length; destruct (digits x); [done|zlia]).
  destruct (rightTrim_spec r' (arr_digits _ _ _ Ar')) as (z & -> & Wz & Hv & _); [rewrite (arr_length _ _ _ Ar'); lia|by rewrite (arr_sign _ _ _ Ar')|]. unfold value in Hv at 2. rewrite (arr_sign _ _ _ Ar') in Hv.
  assert (sign z = false) as Sz by (pose proof (value_sign z Wz) as Sv; destruct (sign z); [rewrite Hv in Sv; lia|done]). assert (val (digits z) = val (digits x) - 1) as Ev by (unfold value in Hv; rewrite Sz in Hv; lia).
  exists z. split; [done|]. split; [done|]. split; [done|]. split; [|done]. destruct (Z.le_gt_cases (m_length z) (m_length x)) as [|Hl]; [done|]. apply shorter_smaller in Hl; [lia|done..].
Qed.

(** ** Two's complement *)
Lemma neg_lnot a : - a = Z.lnot (a - 1).
Proof. unfold Z.lnot. lia. Qed.

Lemma and_neg_neg a b : Z.land (- a) (- b) = - (Z.lor (a - 1) (b - 1) + 1).
Proof. rewrite !neg_lnot, <- Z.lnot_lor. unfold Z.lnot. lia. Qed.
Lemma and_pos_neg a b : Z.land a (- b) = Z.ldiff a (b - 1).
Proof. by rewrite neg_lnot, Z.ldiff_land. Qed.
Lemma or_neg_neg a b : Z.lor (- a) (- b) = - (Z.land (a - 1) (b - 1) + 1).
Proof. rewrite !neg_lnot, <- Z.lnot_land. unfold Z.lnot. lia. Qed.
Lemma or_pos_neg a b : Z.lor a (- b) = - (Z.ldiff (b - 1) a + 1).
Proof. rewrite neg_lnot, Z.ldiff_land. rewrite <- (Z.lnot_involutive a) at 1. rewrite <- Z.lnot_land, Z.land_comm. unfold Z.lnot. lia. Qed.
Lemma xor_neg_neg a b : Z.lxor (- a) (- b) = Z.lxor (a - 1) (b - 1).
Proof. by rewrite !neg_lnot, Z.lxor_lnot_lnot. Qed.
Lemma xor_pos_neg a b : Z.lxor a (- b) = - (Z.lxor a (b - 1) + 1).
Proof. rewrite neg_lnot, <- Z.lnot_lxor_r. unfold Z.lnot. lia. Qed.

Lemma negative_nonempty x : wf x -> sign x = true -> digits x <> [].
Proof. intros Hx Hs E. rewrite (wf_sign x Hx E) in Hs. done. Qed.

(** The absolute value of a negative number, less one, in a copy of [n] digits. *)
Lemma minus_one x n : wf x -> sign x = true -> m_length x <= n <= maxLength -> result_is (absoluteSubOne x n) (m_length x) (val (digits x) - 1).
Proof. intros Hx Hs Hn. pose proof (absoluteSubOne_spec x n Hx (negative_nonempty x Hx Hs) ltac:(lia)) as Hr. by rewrite decide_True in Hr by lia. Qed.

Lemma minus_one_throws x n : wf x -> sign x = true -> m_length x <= n -> maxLength < n -> absoluteSubOne x n = Throw OutOfMemoryError.
Proof. intros Hx Hs Hn Hm. pose proof (absoluteSubOne_spec x n Hx (negative_nonempty x Hx Hs) ltac:(lia)) as Hr. by rewrite decide_False in Hr by lia. Qed.

(** The absolute value of a negative result. *)
Lemma plus_one x : wf x -> val (digits x) + 1 < B ^ maxLength -> exists z, absoluteAddOne x Signed = Ok z /\ wf z /\ value z = - (val (digits x) + 1).
Proof. intros Hx Hb. destruct (absoluteAddOne_spec x Signed Hx) as [[_ E]|Hr]; [lia|done]. Qed.

Lemma val_below_max x k : wf x -> m_length x <= k -> val (digits x) < B ^ k.
Proof.
  intros Hx Hk. pose proof (val_bound _ (wf_digits x Hx)) as [_ Hb]. fold (m_length x) in Hb. eapply Z.lt_le_trans; [done|]. pose proof B_pos. apply Z.pow_le_mono_r; lia.
Qed.

Lemma pow_B_mono a b : 0 <= a < b -> B ^ a + 1 <= B ^ b.
Proof. intros Hab. pose proof B_pos. assert (B ^ a < B ^ b); [|lia]. apply Z.pow_lt_mono_r; lia. Qed.

Lemma bitwiseAnd_spec x y :
  wf x -> wf y ->
  (bitwiseAnd x y = Throw OutOfMemoryError /\ maxLength = Z.max (m_length x) (m_length y) /\ sign x = true /\ sign y = true) \/
  exists z, bitwiseAnd x y = Ok z /\ wf z /\ value z = Z.land (value x) (value y).
Proof.
  intros Hx Hy. unfold bitwiseAnd, value. pose proof (wf_length x Hx) as Lx. pose proof (wf_length y Hy) as Ly. pose proof maxLength_pos. destruct (sign x) eqn:Sx, (sign y) eqn:Sy; cbn [negb andb].
  - destruct (decide (Z.max (m_length x) (m_length y) = maxLength)) as [Em|Em].
    { left. rewrite (minus_one_throws x) by (try done; lia). done. }
    right. destruct (minus_one x (Z.max (m_length x) (m_length y) + 1) Hx Sx ltac:(lia)) as (r & -> & Hr & Sr & Lr & Vr). cbn [mbind res_bind].
    destruct (minus_one y (m_length y) Hy Sy ltac:(lia)) as (y1 & -> & Hy1 & Sy1 & Ly1 & Vy1). cbn [mbind res_bind].
    destruct (absoluteOr_spec r y1 Hr Hy1) as (o & -> & Ho & _ & Lo & Vo). cbn [mbind res_bind].
    destruct (plus_one o Ho) as (z & -> & Hz & Vz). { pose proof (val_below_max o (Z.max (m_length x) (m_length y)) Ho ltac:(lia)). pose proof (zlen_nonneg (digits x)) as Nx. fold (m_length x) in Nx. assert (0 <= Z.max (m_length x) (m_length y) < maxLength) as HM by lia. pose proof (pow_B_mono _ _ HM). lia. }
    exists z. split; [done|]. split; [done|]. fold (value z). rewrite Vz, Vo, Vr, Vy1. by rewrite and_neg_neg.
  - right. destruct (minus_one x (m_length x) Hx Sx ltac:(lia)) as (x1 & -> & Hx1 & _ & _ & Vx1). cbn [mbind res_bind].
    destruct (absoluteAndNot_spec y x1 Hy Hx1) as (z & -> & Hz & Sz & _ & Vz). exists z. split; [done|]. split; [done|]. rewrite Sz, Vz, Vx1, Z.land_comm. by rewrite and_pos_neg.
  - right. destruct (minus_one y (m_length y) Hy Sy ltac:(lia)) as (y1 & -> & Hy1 & _ & _ & Vy1). cbn [mbind res_bind].
    destruct (absoluteAndNot_spec x y1 Hx Hy1) as (z & -> & Hz & Sz & _ & Vz). exists z. split; [done|]. split; [done|]. rewrite Sz, Vz, Vy1. by rewrite and_pos_neg.
  - right. destruct (absoluteAnd_spec x y Hx Hy) as (z & -> & Hz & Sz & _ & Vz). exists z. split; [done|]. split; [done|]. by rewrite Sz, Vz.
Qed.

Lemma bitwiseOr_spec x y : wf x -> wf y -> exists z, bitwiseOr x y = Ok z /\ wf z /\ value z = Z.lor (value x) (value y).
Proof.
  intros Hx Hy. pose proof (value_sign x Hx) as Vsx. pose proof (value_sign y Hy) as Vsy. unfold bitwiseOr, value in *. pose proof (wf_length x Hx) as Lx. pose proof (wf_length y Hy) as Ly.
  pose proof (val_below_max x maxLength Hx Lx) as Bx. pose proof (val_below_max y maxLength Hy Ly) as By. destruct (sign x) eqn:Sx, (sign y) eqn:Sy; cbn [negb andb].
  - destruct (minus_one x (Z.max (m_length x) (m_length y)) Hx Sx ltac:(lia)) as (r & -> & Hr & Sr & Lr & Vr). cbn [mbind res_bind].
    destruct (minus_one y (m_length y) Hy Sy ltac:(lia)) as (y1 & -> & Hy1 & Sy1 & Ly1 & Vy1). cbn [mbind res_bind].
    destruct (absoluteAnd_spec r y1 Hr Hy1) as (o & -> & Ho & _ & Lo & Vo). cbn [mbind res_bind].
    destruct (plus_one o Ho) as (z & -> & Hz & Vz). { rewrite Vo. pose proof (land_le (val (digits r)) (val (digits y1))) as Hl. specialize (Hl ltac:(lia)). lia. }
    exists z. split; [done|]. split; [done|]. fold (value z). rewrite Vz, Vo, Vr, Vy1. by rewrite or_neg_neg.
  - destruct (minus_one x (Z.max (m_length x) (m_length y)) Hx Sx ltac:(lia)) as (x1 & -> & Hx1 & _ & _ & Vx1). cbn [mbind res_bind].
    destruct (absoluteAndNot_spec x1 y Hx1 Hy) as (o & -> & Ho & So & _ & Vo). cbn [mbind res_bind].
    destruct (plus_one o Ho) as (z & -> & Hz & Vz). { rewrite Vo, Z.ldiff_land. pose proof (land_le (val (digits x1)) (Z.lnot (val (digits y)))) as Hl. specialize (Hl ltac:(lia)). lia. }
    exists z. split; [done|]. split; [done|]. fold (value z). rewrite Vz, Vo, Vx1, Z.lor_comm. by rewrite or_pos_neg.
  - destruct (minus_one y (Z.max (m_length x) (m_length y)) Hy Sy ltac:(lia)) as (y1 & -> & Hy1 & _ & _ & Vy1). cbn [mbind res_bind].
    destruct (absoluteAndNot_spec y1 x Hy1 Hx) as (o & -> & Ho & So & _ & Vo). cbn [mbind res_bind].
    destruct (plus_one o Ho) as (z & -> & Hz & Vz). { rewrite Vo, Z.ldiff_land. pose proof (land_le (val (digits y1)) (Z.lnot (val (digits x)))) as Hl. specialize (Hl ltac:(lia)). lia. }
    exists z. split; [done|]. split; [done|]. fold (value z). rewrite Vz, Vo, Vy1. by rewrite or_pos_neg.
  - destruct (absoluteOr_spec x y Hx Hy) as (z & -> & Hz & Sz & _ & Vz). exists z. split; [done|]. split; [done|]. by rewrite Sz, Vz.
Qed.

Lemma bitwiseXor_spec x y :
  wf x -> wf y ->
  (bitwiseXor x y = Throw OutOfMemoryError /\ maxLength = Z.max (m_length x) (m_length y) /\ sign x <> sign y) \/
  exists z, bitwiseXor x y = Ok z /\ wf z /\ value z = Z.lxor (value x) (value y).
Proof.
  intros Hx Hy. pose proof (wf_length x Hx) as Lx. pose proof (wf_length y Hy) as Ly. pose proof maxLength_pos. pose proof (zlen_nonneg (digits x)) as Nx. fold (m_length x) in Nx.
  set (M := Z.max (m_length x) (m_length y)).
  assert (forall u v, wf u -> wf v -> sign v = true -> m_length u <= M -> m_length v <= M -> M <= maxLength ->
    ((result ← absoluteSubOne v (M + 1); result ← absoluteXor result u; absoluteAddOne result Signed) = Throw OutOfMemoryError /\ maxLength = M) \/
    exists z, (result ← absoluteSubOne v (M + 1); result ← absoluteXor result u; absoluteAddOne result Signed) = Ok z /\ wf z /\ value z = Z.lxor (val (digits u)) (- val (digits v))) as Hmixed.
  { intros u v Hu Hv Sv Lu Lv HM. destruct (decide (M = maxLength)) as [Em|Em]; [left; rewrite minus_one_throws by (try done; lia); done|]. right.
    destruct (minus_one v (M + 1) Hv Sv ltac:(lia)) as (v1 & -> & Hv1 & _ & Lv1 & Vv1). cbn [mbind res_bind]. destruct (absoluteXor_spec v1 u Hv1 Hu) as (o & -> & Ho & _ & Lo & Vo). cbn [mbind res_bind].
    destruct (plus_one o Ho) as (z & -> & Hz & Vz). { pose proof (val_below_max o M Ho ltac:(lia)). assert (0 <= M < maxLength) as HM' by lia. pose proof (pow_B_mono _ _ HM'). lia. }
    exists z. split; [done|]. split; [done|]. rewrite Vz, Vo, Vv1, Z.lxor_comm. by rewrite xor_pos_neg. }
  unfold bitwiseXor. fold M. destruct (sign x) eqn:Sx, (sign y) eqn:Sy; cbn [negb andb]; unfold value at 2 3; rewrite Sx, Sy.
  - right. destruct (minus_one x M Hx Sx ltac:(lia)) as (r & -> & Hr & _ & _ & Vr). cbn [mbind res_bind]. destruct (minus_one y (m_length y) Hy Sy ltac:(lia)) as (y1 & -> & Hy1 & _ & _ & Vy1). cbn [mbind res_bind].
    destruct (absoluteXor_spec r y1 Hr Hy1) as (z & -> & Hz & Sz & _ & Vz). exists z. split; [done|]. split; [done|]. unfold value. rewrite Sz, Vz, Vr, Vy1. by rewrite xor_neg_neg.
  - rewrite Z.lxor_comm. destruct (Hmixed y x Hy Hx Sx ltac:(lia) ltac:(lia) ltac:(lia)) as [[E Em]|Hz]; [by left|by right].
  - destruct (Hmixed x y Hx Hy Sy ltac:(lia) ltac:(lia) ltac:(lia)) as [[E Em]|Hz]; [by left|by right].
  - right. destruct (absoluteXor_spec x y Hx Hy) as (z & -> & Hz & Sz & _ & Vz). exists z. split; [done|]. split; [done|]. unfold value. by rewrite Sz, Vz.
Qed.

Lemma bitwiseNot_spec x :
  wf x -> (bitwiseNot x = Throw OutOfMemoryError /\ value x + 1 = B ^ maxLength) \/ exists z, bitwiseNot x = Ok z /\ wf z /\ value z = Z.lnot (value x).
Proof.
  intros Hx. unfold bitwiseNot, value. destruct (sign x) eqn:Sx.
  - right. destruct (minus_one x (m_length x) Hx Sx) as (z & -> & Hz & Sz & _ & Vz); [pose proof (wf_length x Hx); lia|]. exists z. split; [done|]. split; [done|]. rewrite Sz, Vz. unfold Z.lnot. lia.
  - destruct (absoluteAddOne_spec x Signed Hx) as [[-> E]|(z & -> & Hz & Vz)]; [by left|right]. exists z. split; [done|]. split; [done|]. fold (value z). rewrite Vz. unfold Z.lnot. lia.
Qed.
End bitwise.
