(* ===== verification/BigIntShifts.v ===== *)
(** * BigIntShifts: the shifts of big integers *)
From S2P Require Import Prelude Doubles BigInt BigIntFacts BigIntAdd BigIntDivide BigIntBits BigIntBitwise.
Local Open Scope Z_scope.

Section shifts.
Context `{DigitConfig}.
Local Abbreviation B := (2 ^ digitBits).

(** The largest big integer has a million bits. *)
Lemma B_maxLength : B ^ maxLength = 2 ^ (2 ^ 20).
Proof.
  unfold maxLength. destruct digitBits_ok as [-> | ->].
  - change (1024 * 1024 / 32) with 32768. change (2 ^ 20) with (32 * 32768). by rewrite Z.pow_mul_r.
  - change (1024 * 1024 / 64) with 16384. change (2 ^ 20) with (64 * 16384). by rewrite Z.pow_mul_r.
Qed.

Lemma maxLengthBits_bound : 2 ^ 20 <= maxLengthBits < 2 ^ 31.
Proof. unfold maxLengthBits, maxInt. destruct digitBits_ok as [-> | ->]; lia. Qed.

Lemma val_pos x : wf x -> digits x <> [] -> 0 < val (digits x).
Proof.
  intros Hx Hz. pose proof (val_bound _ (wf_digits x Hx)). destruct (decide (val (digits x) = 0)) as [E|]; [|lia]. by apply val_zero in E; [|apply Hx|apply Hx].
Qed.

Lemma toShiftAmount_spec y : wf y -> digits y <> [] -> toShiftAmount y = Ok (if maxLengthBits <? val (digits y) then None else Some (val (digits y))).
Proof.
  intros Hy Hz. unfold toShiftAmount. assert (0 < m_length y) as Ly by (unfold m_length; destruct (digits y); [done|zlia]). pose proof maxLengthBits_bound. destruct (1 <? m_length y) eqn:E; bool_prop.
  - rewrite Z_ltb_true; [done|]. pose proof (trimmed_bound _ (wf_digits y Hy) (wf_trimmed y Hy) Hz) as Tb. fold (m_length y) in Tb. pose proof B_large. pose proof B_pos.
    assert (B ^ 1 <= B ^ (m_length y - 1)) as Hp by (apply Z.pow_le_mono_r; lia). rewrite Z.pow_1_r in Hp. lia.
  - rewrite digit_dig by lia. cbn [mbind res_bind]. assert (val (digits y) = dig (digits y) 0) as ->; [|done]. rewrite <- high_0, high_succ, high_all by (unfold m_length in *; lia). lia.
Qed.

(** A shift amount is so many digits and so many bits. *)
Lemma shift_split n :
  0 <= n <= maxLengthBits ->
  let k := n / digitBits in let b := n mod digitBits in
  u32 k = k /\ u32 b = b /\ 0 <= k < 2 ^ 26 /\ 0 <= b < digitBits /\ 2 ^ n = B ^ k * 2 ^ b.
Proof.
  intros Hn k b. pose proof maxLengthBits_bound. pose proof digitBits_pos as Hp. pose proof (Z.div_mod n digitBits) as Ed. specialize (Ed ltac:(lia)). fold k b in Ed. pose proof (Z.mod_pos_bound n digitBits) as Hb. specialize (Hb ltac:(lia)). fold b in Hb.
  assert (0 <= k < 2 ^ 26) as Hk. { split; [apply Z.div_pos; lia|]. apply Z.div_lt_upper_bound; [lia|]. destruct digitBits_ok as [-> | ->]; lia. }
  split; [apply u32_small; lia|]. split; [apply u32_small; destruct digitBits_ok; lia|]. split; [done|]. split; [done|]. rewrite Ed at 1. rewrite Z.pow_add_r, Z.pow_mul_r by lia. done.
Qed.

(** ** To the left *)
Lemma shift_grow_spec x b :
  wf x -> digits x <> [] -> 0 < b < digitBits ->
  let grow := negb (Z.shiftr (dig (digits x) (m_length x - 1)) (digitBits - b) =? 0) in
  if grow then B ^ m_length x <= val (digits x) * 2 ^ b else val (digits x) * 2 ^ b < B ^ m_length x.
Proof.
  intros Hx Hz Hb grow. assert (0 < m_length x) as Lx by (unfold m_length; destruct (digits x); [done|zlia]). destruct (pow_split_digit b) as (P1 & P2 & EB); [lia|]. pose proof (wf_digits x Hx) as Dx.
  pose proof (low_high (digits x) (m_length x - 1) ltac:(unfold m_length in *; lia)) as E. rewrite high_succ, high_all in E by (unfold m_length in *; lia). pose proof (low_bound (digits x) (m_length x - 1) Dx ltac:(lia)) as Hl.
  set (P := B ^ (m_length x - 1)) in *. set (t := dig (digits x) (m_length x - 1)) in *. pose proof (dig_ok _ (m_length x - 1) Dx) as Dt. fold t in Dt. unfold is_digit in Dt.
  assert (B ^ m_length x = P * (2 ^ (digitBits - b) * 2 ^ b)) as -> by (rewrite <- EB; replace (m_length x) with (m_length x - 1 + 1) at 1 by lia; rewrite pow_B_succ by lia; fold P; lia).
  unfold grow. rewrite Z.shiftr_div_pow2 by lia. destruct (t / 2 ^ (digitBits - b) =? 0) eqn:Eg; bool_prop; cbn [negb].
  - assert (t < 2 ^ (digitBits - b)) as Ht by (destruct (Z.lt_ge_cases t (2 ^ (digitBits - b))) as [|Hge]; [done|]; assert (0 < t / 2 ^ (digitBits - b)) by (apply Z.div_str_pos; lia); lia).
    rewrite Z.mul_assoc. apply Z.mul_lt_mono_pos_r; [done|]. rewrite E. assert (P * t <= P * (2 ^ (digitBits - b) - 1)) by (apply Z.mul_le_mono_nonneg_l; lia). lia.
  - assert (2 ^ (digitBits - b) <= t) as Ht by (destruct (Z.le_gt_cases (2 ^ (digitBits - b)) t) as [|Hlt]; [done|]; rewrite Z.div_small in Eg by lia; lia).
    rewrite Z.mul_assoc. apply Z.mul_le_mono_nonneg_r; [lia|]. rewrite E. assert (P * 2 ^ (digitBits - b) <= P * t) by (apply Z.mul_le_mono_nonneg_l; lia). lia.
Qed.

(** The digits of a number after [k] zeros. *)
Lemma shifted_copy_spec x k N r0 :
  digits_ok (digits x) -> arr false N r0 -> 0 <= k -> m_length x + k = N -> low (digits r0) k = 0 ->
  exists r, for_range k N (fun i result => d ← digit x (i - k); setDigit result i d) r0 = Ok r /\ arr false N r /\ val (digits r) = val (digits x) * B ^ k.
Proof.
  intros Dx A0 Hk HN Hlow. pose proof (zlen_nonneg (digits x)) as Lx. fold (m_length x) in Lx. name_for body.
  destruct (write_loop false N 0 k N (fun i => dig (digits x) (i - k)) (fun i => low (digits x) (i - k) * B ^ k) body _ A0) as (r & -> & Ar & _ & Hr).
  { lia. } { lia. } { lia. } { intros i Hi. replace (i + 1 - k) with (i - k + 1) by lia. rewrite low_succ by (unfold m_length in *; lia). pose proof B_pos. replace (B ^ i) with (B ^ (i - k) * B ^ k) by (rewrite <- Z.pow_add_r by lia; f_equal; lia). lia. }
  { intros i r Hi Ar. unfold body. rewrite digit_dig by lia. cbn [mbind res_bind]. pose proof (dig_ok _ (i - k) Dx) as Di. destruct (arr_set _ _ r i _ Ar ltac:(lia) Di) as [-> _]. done. }
  exists r. split; [done|]. split; [done|]. rewrite !Z.add_0_l, Z.pow_0_r, Z.sub_diag, low_0, Hlow in Hr. rewrite (low_all (digits r)), (low_all (digits x)) in Hr by (rewrite ?(arr_zlen _ _ _ Ar); unfold m_length in *; lia). lia.
Qed.

Lemma shifted_bits_spec x k b (grow : bool) N r0 :
  wf x -> digits x <> [] -> arr false N r0 -> 0 <= k -> 0 < b < digitBits -> m_length x + k + Z.b2z grow = N -> low (digits r0) k = 0 ->
  grow = negb (Z.shiftr (dig (digits x) (m_length x - 1)) (digitBits - b) =? 0) ->
  exists r, ('(result, carry) ← for_range 0 (m_length x) (fun i '(result, carry) =>
        d ← digit x i;
        result ← setDigit result (i + k) (Z.lor (Digit (Z.shiftl d b)) carry);
        Ok (result, Z.shiftr d (digitBits - b))) (r0, 0);
      if grow : bool then setDigit result (m_length x + k) carry else ASSERT (carry =? 0);; Ok result) = Ok r /\
    arr false N r /\ val (digits r) = val (digits x) * 2 ^ b * B ^ k.
Proof.
  intros Hx Hz A0 Hk Hb HN Hlow Hg. pose proof (wf_digits x Hx) as Dx. pose proof (zlen_nonneg (digits x)) as Lx. fold (m_length x) in Lx. destruct (pow_split_digit b) as (P1 & P2 & EB); [lia|]. name_for body.
  destruct (carry_loop (fun c => 0 <= c < 2 ^ b) 1 false N k 0 (m_length x) (fun i => dig (digits x) i * 2 ^ b) (fun i => low (digits x) i * 2 ^ b) body r0 0 A0) as (r & c & -> & Ar & Hc & _ & _ & Hr).
  { lia. } { lia. } { lia. } { destruct grow; cbn [Z.b2z] in HN; lia. } { intros i Hi. rewrite low_succ by done. lia. }
  { intros i r c Hi Ar Hc _. unfold body. rewrite digit_dig by done. cbn [mbind res_bind]. destruct (shl_digit _ b c (dig_ok _ i Dx) Hb Hc) as (D1 & D2 & E).
    destruct (arr_set _ _ r (i + k) _ Ar ltac:(destruct grow; cbn [Z.b2z] in HN; lia) D1) as [-> _]. cbn [mbind res_bind]. rewrite (Z.add_comm i k). eexists _, _. split; [done|]. done. }
  cbn [mbind res_bind]. rewrite Z.add_0_r, Hlow, !low_0, Z.pow_0_r, (low_all (digits x)) in Hr by (unfold m_length; lia). pose proof (shift_grow_spec x b Hx Hz Hb) as Hgs. cbv zeta in Hgs. rewrite <- Hg in Hgs.
  pose proof B_pos. pose proof (pow_B_pos k Hk) as Pk. pose proof (pow_B_pos (m_length x) Lx) as Pl. destruct grow; cbn [Z.b2z] in HN.
  - assert (is_digit c) as Dc by (unfold is_digit; assert (2 ^ b < B) by (apply Z.pow_lt_mono_r; lia); lia). rewrite (Z.add_comm (m_length x) k). destruct (arr_set _ _ r (k + m_length x) c Ar ltac:(lia) Dc) as [-> Ar'].
    eexists. split; [done|]. split; [done|]. cbn [digits]. rewrite <- (low_all _ (k + m_length x + 1)) by (rewrite zlen_upd, (arr_zlen _ _ _ Ar); lia).
    rewrite low_upd_succ by (rewrite (arr_zlen _ _ _ Ar); lia). rewrite Hr, Z.pow_add_r by lia. lia.
  - assert (c = 0) as ->. { pose proof (low_bound (digits r) (k + m_length x) (arr_digits _ _ _ Ar) ltac:(lia)) as [Hl _]. rewrite Hr in Hl. destruct (decide (c = 0)) as [|Hne]; [done|].
      assert (1 * B ^ m_length x <= c * B ^ m_length x) by (apply Z.mul_le_mono_nonneg_r; lia). assert (B ^ k * (val (digits x) * 2 ^ b - 0 * 2 ^ b + 1 * (0 * 1 - c * B ^ m_length x)) < B ^ k * 0) by (apply Z.mul_lt_mono_pos_l; lia). lia. }
    cbn [Z.eqb ASSERT mbind res_bind]. exists r. split; [done|]. split; [done|]. rewrite low_all in Hr by (rewrite (arr_zlen _ _ _ Ar); lia). lia.
Qed.

Lemma leftShiftByAbsolute_spec x y :
  wf x -> wf y -> digits x <> [] -> digits y <> [] ->
  let n := val (digits y) in
  (leftShiftByAbsolute x y = Throw TooBig /\ B ^ maxLength <= val (digits x) * 2 ^ n) \/
  exists z, leftShiftByAbsolute x y = Ok z /\ wf z /\ value z = value x * 2 ^ n.
Proof.
  intros Hx Hy Hzx Hzy n. pose proof (val_pos x Hx Hzx) as Vx. pose proof (val_pos y Hy Hzy) as Vy. fold n in Vy. unfold leftShiftByAbsolute. rewrite toShiftAmount_spec by done. cbn [mbind res_bind]. fold n. pose proof maxLengthBits_bound as Hmb.
  destruct (maxLengthBits <? n) eqn:En; bool_prop.
  { left. split; [done|]. apply Z.le_trans with (1 * 2 ^ n); [|apply Z.mul_le_mono_nonneg_r; [apply Z.pow_nonneg; lia|lia]]. rewrite Z.mul_1_l, B_maxLength. apply Z.pow_le_mono_r; lia. }
  destruct (shift_split n ltac:(lia)) as (Ek & Eb & Hk & Hb & Epow). rewrite Ek, Eb. set (k := n / digitBits) in *. set (b := n mod digitBits) in *. pose proof B_pos as HB.
  assert (0 < m_length x) as Lx by (unfold m_length; destruct (digits x); [done|zlia]). pose proof (wf_length x Hx) as Lm. assert (maxLength <= 2 ^ 20) as Hml by (unfold maxLength; destruct digitBits_ok as [-> | ->]; done).
  set (grow := if b =? 0 then false else negb (Z.shiftr (dig (digits x) (m_length x - 1)) (digitBits - b) =? 0)).
  assert ((if negb (b =? 0) then d ← digit x (m_length x - 1); Ok (negb (Z.shiftr d (digitBits - b) =? 0)) else Ok false) = Ok grow) as ->.
  { unfold grow. destruct (b =? 0); cbn [negb]; [done|]. rewrite digit_dig by lia. done. }
  cbn [mbind res_bind]. set (N := m_length x + k + Z.b2z grow). assert (0 <= Z.b2z grow <= 1) as Hg by (destruct grow; cbn; lia). assert (s32 N = N) as -> by (unfold s32, N; rewrite Z.mod_small; lia). rewrite (u32_small N) by (unfold N; lia).
  destruct (maxLength <? N) eqn:EN; bool_prop.
  - left. split; [done|]. rewrite Epow. pose proof (trimmed_bound _ (wf_digits x Hx) (wf_trimmed x Hx) Hzx) as Tb. fold (m_length x) in Tb. assert (0 < 2 ^ b) as Pb by (apply Z.pow_pos_nonneg; lia).
    assert (B ^ (m_length x - 1 + Z.b2z grow) <= val (digits x) * 2 ^ b) as Hlow.
    { unfold grow in *. destruct (b =? 0) eqn:E0; cbn [Z.b2z] in *; bool_prop; [rewrite E0, Z.add_0_r, Z.pow_0_r; lia|]. pose proof (shift_grow_spec x b Hx Hzx ltac:(lia)) as Hgs. cbv zeta in Hgs.
      destruct (negb _); cbn [Z.b2z]; [by replace (m_length x - 1 + 1) with (m_length x) by lia|]. rewrite Z.add_0_r. nia. }
    apply Z.le_trans with (B ^ (m_length x - 1 + Z.b2z grow) * B ^ k); [|assert (0 < B ^ k) by (apply pow_B_pos; lia); nia]. rewrite <- Z.pow_add_r by lia. apply Z.pow_le_mono_r; [lia|]. unfold N in EN. lia.
  - right. pose proof (tryCreate_spec N ltac:(unfold N; lia)) as Hc. rewrite decide_True in Hc by lia. rewrite Hc. cbn [mbind res_bind]. name_for body.
    destruct (write_loop false N 0 0 k (fun _ => 0) (fun _ => 0) body _ (arr_fresh N ltac:(unfold N; lia))) as (r0 & -> & A0 & _ & Hr0).
    { lia. } { lia. } { unfold N. lia. } { lia. } { intros i r Hi Ar. unfold body. destruct (arr_set _ _ r i 0 Ar ltac:(unfold N; lia) is_digit_0) as [-> _]. split; [done|apply is_digit_0]. }
    cbn [mbind res_bind]. rewrite !Z.add_0_l, Z.mul_0_r in Hr0.
    assert (exists r, (if b =? 0 then for_range k N (fun i result => d ← digit x (i - k); setDigit result i d) r0
        else '(result, carry) ← for_range 0 (m_length x) (fun i '(result, carry) =>
            d ← digit x i; result ← setDigit result (i + k) (Z.lor (Digit (Z.shiftl d b)) carry); Ok (result, Z.shiftr d (digitBits - b))) (r0, 0);
          if grow : bool then setDigit result (m_length x + k) carry else ASSERT (carry =? 0);; Ok result) = Ok r /\ arr false N r /\ val (digits r) = val (digits x) * 2 ^ n) as (r & Er & Ar & Hr).
    { rewrite Epow. unfold grow in *. destruct (b =? 0) eqn:E0; bool_prop; cbn [Z.b2z] in *.
      - destruct (shifted_copy_spec x k N r0 (wf_digits x Hx) A0 ltac:(lia) ltac:(unfold N; lia) Hr0) as (r & -> & Ar & Hr). exists r. split; [done|]. split; [done|]. rewrite Hr, E0, Z.pow_0_r. lia.
      - destruct (shifted_bits_spec x k b _ N r0 Hx Hzx A0 ltac:(lia) ltac:(lia) eq_refl Hr0 eq_refl) as (r & -> & Ar & Hr). exists r. split; [done|]. split; [done|]. rewrite Hr. lia. }
    rewrite Er. cbn [mbind res_bind]. unfold setSign. destruct (trim_signed_spec (sign x) (digits r) (arr_digits _ _ _ Ar)) as (z & -> & Hz & Hv & _); [rewrite (arr_zlen _ _ _ Ar); unfold N in *; lia|].
    exists z. split; [done|]. split; [done|]. rewrite Hv, Hr. unfold value. destruct (sign x); lia.
Qed.
End shifts.

(** ** Shifts to the right round down, and one of them reads memory that was never written *)

Section right.
Context `{DigitConfig}.
Local Abbreviation B := (2 ^ digitBits).

Lemma any_digit_set_spec n i x :
  digits_ok (digits x) -> 0 <= i -> i + Z.of_nat n <= m_length x -> any_digit_set n i x = Ok (negb (seg (digits x) i (Z.of_nat n) =? 0)).
Proof.
  intros Dx. revert i. induction n as [|n IH]; intros i Hi Hn; cbn [any_digit_set]; [done|]. rewrite digit_dig by lia. cbn [mbind res_bind]. pose proof (dig_ok _ i Dx) as Di. unfold is_digit in Di.
  assert (seg (digits x) i (Z.of_nat (S n)) = dig (digits x) i + B * seg (digits x) (i + 1) (Z.of_nat n)) as ->.
  { unfold seg. rewrite (drop_dig (digits x) i) by (unfold m_length in *; lia). rewrite !Nat2Z.id. done. }
  destruct (high_split (digits x) (i + 1) (Z.of_nat n) ltac:(lia) ltac:(lia) ltac:(unfold m_length in *; lia) Dx) as [_ Hs]. pose proof B_pos.
  assert (0 <= B * seg (digits x) (i + 1) (Z.of_nat n)) by (apply Z.mul_nonneg_nonneg; lia).
  destruct (dig (digits x) i =? 0) eqn:E; bool_prop; cbn [negb].
  - rewrite IH by lia. rewrite E. f_equal. f_equal. apply eq_true_iff_eq. rewrite !Z.eqb_eq. split; [intros ->; lia|]. intros E0. assert (B * seg (digits x) (i + 1) (Z.of_nat n) = B * 0) as Em by lia. apply Z.mul_reg_l in Em; lia.
  - rewrite (proj2 (Z.eqb_neq (_ + _) 0)) by lia. done.
Qed.

(** The remainder of a number by a power of two. *)
Lemma mod_pow_split x k b :
  digits_ok (digits x) -> 0 <= k < m_length x -> 0 <= b < digitBits ->
  val (digits x) mod (B ^ k * 2 ^ b) = low (digits x) k + B ^ k * (dig (digits x) k mod 2 ^ b) /\
  val (digits x) / (B ^ k * 2 ^ b) = high (digits x) k / 2 ^ b.
Proof.
  intros Dx Hk Hb. pose proof (low_bound (digits x) k Dx ltac:(lia)) as Hl. pose proof (pow_B_pos k ltac:(lia)) as Pk. destruct (pow_split_digit b) as (Pb & Pb' & EB); [lia|].
  pose proof (low_high (digits x) k ltac:(unfold m_length in *; lia)) as E. set (h := high (digits x) k) in *. assert (h mod 2 ^ b = dig (digits x) k mod 2 ^ b) as Em.
  { unfold h. rewrite high_succ by (unfold m_length in *; lia). rewrite EB. replace (2 ^ (digitBits - b) * 2 ^ b * high (digits x) (k + 1)) with (2 ^ (digitBits - b) * high (digits x) (k + 1) * 2 ^ b) by ring. apply Z.mod_add. lia. }
  rewrite <- Em. pose proof (Z.div_mod h (2 ^ b) ltac:(lia)) as Ed. pose proof (Z.mod_pos_bound h (2 ^ b) ltac:(lia)) as Hm.
  assert (val (digits x) = B ^ k * 2 ^ b * (h / 2 ^ b) + (low (digits x) k + B ^ k * (h mod 2 ^ b))) as Ev by (rewrite E; rewrite Ed at 1; ring).
  assert (B ^ k * (h mod 2 ^ b) <= B ^ k * (2 ^ b - 1)) by (apply Z.mul_le_mono_nonneg_l; lia). assert (0 <= B ^ k * (h mod 2 ^ b)) by (apply Z.mul_nonneg_nonneg; lia).
  split; [symmetry; apply (Z.mod_unique _ _ (h / 2 ^ b)); [left; lia|done]|symmetry; apply (Z.div_unique _ _ _ (low (digits x) k + B ^ k * (h mod 2 ^ b))); [left; lia|done]].
Qed.

Lemma must_round_down_spec x k b :
  wf x -> 0 <= k < m_length x -> 0 <= b < digitBits -> must_round_down x k b = Ok (sign x && negb (val (digits x) mod (B ^ k * 2 ^ b) =? 0)).
Proof.
  intros Hx Hk Hb. unfold must_round_down. destruct (sign x); cbn [andb]; [|done]. pose proof (wf_digits x Hx) as Dx. rewrite digit_dig by lia. cbn [mbind res_bind]. destruct (pow_split_digit b) as (Pb & _ & _); [lia|].
  rewrite Z.shiftl_1_l, (Digit_small (2 ^ b)) by (unfold is_digit; split; [lia|apply Z.pow_lt_mono_r; lia]). rewrite Z_land_ones by lia. destruct (mod_pow_split x k b Dx Hk Hb) as [-> _].
  pose proof (low_bound (digits x) k Dx ltac:(lia)) as Hl. pose proof (pow_B_pos k ltac:(lia)) as Pk. pose proof (Z.mod_pos_bound (dig (digits x) k) (2 ^ b) ltac:(lia)) as Hm. set (e := dig (digits x) k mod 2 ^ b) in *.
  destruct (e =? 0) eqn:E; bool_prop; cbn [negb].
  - rewrite any_digit_set_spec by (try done; lia). rewrite Z2Nat.id by lia. rewrite E. pose proof (seg_low (digits x) 0 k ltac:(lia) ltac:(lia) ltac:(unfold m_length in *; lia)) as Es. rewrite Z.add_0_l, low_0, Z.pow_0_r in Es. rewrite Es. do 3 f_equal. lia.
  - assert (1 * B ^ k <= e * B ^ k) by (apply Z.mul_le_mono_nonneg_r; lia). rewrite (proj2 (Z.eqb_neq (_ + _) 0)) by lia. done.
Qed.

(** ** The digits of the quotient *)
Lemma copy_high_spec x k N r0 :
  digits_ok (digits x) -> arr false N r0 -> 0 <= k <= m_length x -> m_length x - k <= N ->
  exists r, for_range k (m_length x) (fun i result => d ← digit x i; setDigit result (i - k) d) r0 = Ok r /\ arr false N r /\
    low (digits r) (m_length x - k) = high (digits x) k /\ drop (Z.to_nat (m_length x - k)) (digits r) = drop (Z.to_nat (m_length x - k)) (digits r0).
Proof.
  intros Dx A0 Hk HN. name_for body.
  destruct (for_range_inv (fun i r => arr false N r /\ low (digits r) (i - k) = seg (digits x) k (i - k) /\ drop (Z.to_nat (i - k)) (digits r) = drop (Z.to_nat (i - k)) (digits r0)) k (m_length x) body r0) as (r & -> & Ar & Hr & Hd).
  { lia. } { split; [done|]. rewrite Z.sub_diag, low_0. done. }
  { intros i r Hi (Ar & Hr & Hd). unfold body. rewrite digit_dig by lia. cbn [mbind res_bind]. pose proof (dig_ok _ i Dx) as Di. pose proof (arr_zlen _ _ _ Ar) as Lr. pose proof (arr_zlen _ _ _ A0) as L0.
    destruct (arr_set _ _ r (i - k) _ Ar ltac:(lia) Di) as [-> Ar']. eexists. split; [done|]. split; [done|]. cbn [digits]. replace (i + 1 - k) with (i - k + 1) by lia.
    split; [rewrite low_upd_succ, Hr, seg_succ by (unfold m_length in *; lia); replace (k + (i - k)) with i by lia; done|]. rewrite drop_upd by lia. apply drop_eq_succ; [lia|lia|done]. }
  exists r. split; [done|]. split; [done|]. split; [|done]. rewrite Hr. destruct (high_split (digits x) k (m_length x - k) ltac:(lia) ltac:(lia) ltac:(unfold m_length in *; lia) Dx) as [-> _].
  rewrite high_all by (unfold m_length in *; lia). lia.
Qed.

Lemma shift_high_spec x k b r0 :
  digits_ok (digits x) -> 0 <= k < m_length x -> 0 < b < digitBits -> arr false (m_length x - k) r0 ->
  exists r, (d ← digit x k;
      '(result, carry) ← for_range 0 (m_length x - k - 1) (fun i '(result, carry) =>
        d ← digit x (i + k + 1);
        result ← setDigit result i (Z.lor (Digit (Z.shiftl d (digitBits - b))) carry);
        Ok (result, Z.shiftr d b)) (r0, Z.shiftr d b);
      setDigit result (m_length x - k - 1) carry) = Ok r /\ arr false (m_length x - k) r /\ val (digits r) = high (digits x) k / 2 ^ b.
Proof.
  intros Dx Hk Hb A0. destruct (pow_split_digit b) as (Pb & Pb' & EB); [lia|]. rewrite digit_dig by lia. cbn [mbind res_bind]. name_for body. set (N := m_length x - k) in *. set (e := dig (digits x) k mod 2 ^ b).
  destruct (for_range_inv (fun i '(r, c) => arr false N r /\ 0 <= c < 2 ^ (digitBits - b) /\ 2 ^ b * (low (digits r) i + c * B ^ i) + e = seg (digits x) k (i + 1)) 0 (N - 1) body (r0, Z.shiftr (dig (digits x) k) b)) as ([r c] & -> & Ar & Hc & Hr).
  { unfold N. lia. }
  { split; [done|]. split; [apply shr_carry; [by apply dig_ok|lia]|]. rewrite low_0, seg_succ, Z.add_0_r, Z.pow_0_r, Z.shiftr_div_pow2 by (unfold m_length in *; lia). change (seg (digits x) k 0) with 0.
    pose proof (Z.div_mod (dig (digits x) k) (2 ^ b) ltac:(lia)) as Ed. fold e in Ed. lia. }
  { intros i [r c] Hi (Ar & Hc & Hr). unfold body. rewrite digit_dig by (unfold N in Hi; lia). cbn [mbind res_bind]. destruct (shr_digit _ b c (dig_ok _ (i + k + 1) Dx) Hb Hc) as (D1 & D2 & E).
    destruct (arr_set _ _ r i _ Ar ltac:(lia) D1) as [-> Ar']. cbn [mbind res_bind]. eexists. split; [done|]. split; [done|]. split; [done|]. cbn [digits]. rewrite low_upd_succ by (rewrite (arr_zlen _ _ _ Ar); lia).
    rewrite (seg_succ _ _ (i + 1)) by (unfold N, m_length in *; lia). rewrite <- Hr, pow_B_succ by lia. replace (k + (i + 1)) with (i + k + 1) by lia. set (d := dig (digits x) (i + k + 1)) in *. set (r' := Z.lor _ _) in *. set (c' := Z.shiftr d b) in *.
    transitivity (2 ^ b * low (digits r) i + (2 ^ b * r' + 2 ^ b * B * c') * B ^ i + e); [ring|]. rewrite E. ring. }
  cbn [mbind res_bind]. assert (is_digit c) as Dc by (unfold is_digit; assert (2 ^ (digitBits - b) < B) by (apply Z.pow_lt_mono_r; lia); lia).
  destruct (arr_set _ _ r (N - 1) c Ar ltac:(unfold N; lia) Dc) as [-> Ar']. eexists. split; [done|]. split; [done|]. cbn [digits]. pose proof (arr_zlen _ _ _ Ar) as Lr.
  rewrite <- (low_all _ (N - 1 + 1)) by (rewrite zlen_upd; lia). rewrite low_upd_succ by (unfold N in *; lia). apply (Z.div_unique _ _ _ e); [left; apply Z.mod_pos_bound; lia|].
  destruct (high_split (digits x) k N ltac:(lia) ltac:(unfold N; lia) ltac:(unfold N, m_length in *; lia) Dx) as [-> _]. rewrite high_all by (unfold N, m_length in *; lia). replace N with (N - 1 + 1) at 1 by lia. rewrite <- Hr. lia.
Qed.

(** ** The shift *)
(** A negative number whose top digit is full, shifted by whole digits, with a bit shifted out. *)
Definition reads_fresh (x : JSBigInt) (n : Z) : bool :=
  sign x && negb (val (digits x) mod 2 ^ n =? 0) && (n mod digitBits =? 0) && (dig (digits x) (m_length x - 1) =? B - 1) && (n / digitBits <? m_length x).

(** The digit that is then added to the result: the code never writes it. *)
Definition stale_digit (x : JSBigInt) (n : Z) : Z :=
  if reads_fresh x n then dig (fresh_digits (m_length x - n / digitBits + 1)) (m_length x - n / digitBits) else 0.

Lemma reads_fresh_pos x n : 0 <= n <= maxLengthBits -> reads_fresh x n = true -> 1 <= n / digitBits.
Proof.
  intros Hn Er. destruct (shift_split n Hn) as (_ & _ & [Hk _] & _ & Ep). unfold reads_fresh in Er. bool_prop. destruct (decide (n / digitBits = 0)) as [E0|]; [|lia].
  match goal with Hm : n mod digitBits = 0 |- _ => rewrite E0, Hm in Ep end. change (B ^ 0 * 2 ^ 0) with (1 * 1) in Ep. match goal with Hm : _ mod 2 ^ n <> 0 |- _ => rewrite Ep, Z.mod_1_r in Hm end. done.
Qed.

Lemma full_digit d : is_digit d -> (Digit (Z.lnot d) =? 0) = (d =? B - 1).
Proof.
  unfold is_digit. intros Hd. assert (Digit (Z.lnot d) = B - 1 - d) as -> by (unfold Digit; symmetry; apply (Z.mod_unique _ _ (-1)); unfold Z.lnot; lia). apply eq_true_iff_eq. rewrite !Z.eqb_eq. lia.
Qed.

Lemma rightShiftByMaximum_spec x n :
  wf x -> digits x <> [] -> 0 <= n -> val (digits x) < 2 ^ n -> exists z, rightShiftByMaximum (sign x) = Ok z /\ wf z /\ value z = Z.shiftr (value x) n.
Proof.
  intros Hx Hz Hn Hlt. pose proof (val_pos x Hx Hz) as Vx. unfold rightShiftByMaximum. rewrite Z.shiftr_div_pow2 by done. pose proof maxLength_pos. destruct (sign x) eqn:S.
  - unfold createFrom_int32. cbn [Z.eqb Z.ltb Z.compare]. rewrite createWithLength_ok by lia. cbn [mbind res_bind]. change (s64 (-1 * -1)) with 1. rewrite (Digit_small 1) by apply is_digit_1.
    destruct (arr_set _ _ _ 0 1 (arr_fresh 1 ltac:(lia)) ltac:(lia) is_digit_1) as [-> Ar]. cbn [mbind res_bind]. unfold setSign. cbn [digits] in *. destruct (fresh_digits_ok 1 ltac:(lia)) as [Hf _].
    assert (val (upd (fresh_digits 1) 0 1) = 1) as Hv by (rewrite <- high_0, high_succ, high_all by (rewrite zlen_upd; lia); rewrite dig_upd_eq by lia; lia).
    eexists. split; [done|]. split.
    + split; [apply Ar| | |unfold m_length; cbn [digits]; rewrite zlen_upd; lia].
      * intros i -> _. cbn [digits]. rewrite zlen_upd, Hf. cbn [Z.sub Z.add Z.opp Z.pos_sub]. by rewrite dig_upd_eq by lia.
      * cbn [digits]. intros E. rewrite <- (zlen_upd (fresh_digits 1) 0 1), E in Hf. done.
    + unfold value. cbn [sign digits]. rewrite Hv, S. change (- (1)) with (-1). apply (Z.div_unique _ _ (-1) (2 ^ n - val (digits x))); [left; lia|lia].
  - rewrite createZero_ok. eexists. split; [done|]. split; [apply wf_zero|]. unfold value. rewrite S. cbn [sign digits val]. by rewrite Z.div_small by lia.
Qed.

(** The result before rounding: the quotient, and perhaps the stale digit. *)
Lemma quotient_digits x n :
  wf x -> 0 <= n <= maxLengthBits ->
  let k := n / digitBits in let b := n mod digitBits in
  let N := m_length x - k + Z.b2z (reads_fresh x n) in
  0 <= k < m_length x ->
  exists r, (if b =? 0 then for_range k (m_length x) (fun i result => d ← digit x i; setDigit result (i - k) d) (mkBigInt false (fresh_digits N))
      else
        d ← digit x k;
        '(result, carry) ← for_range 0 (m_length x - k - 1) (fun i '(result, carry) =>
          d ← digit x (i + k + 1);
          result ← setDigit result i (Z.lor (Digit (Z.shiftl d (digitBits - b))) carry);
          Ok (result, Z.shiftr d b)) (mkBigInt false (fresh_digits N), Z.shiftr d b);
        setDigit result (m_length x - k - 1) carry) = Ok r /\
    arr false N r /\ val (digits r) = val (digits x) / 2 ^ n + stale_digit x n * B ^ (m_length x - k).
Proof.
  intros Hx Hn k b N Hk. destruct (shift_split n Hn) as (_ & _ & _ & Hb & Ep). fold k b in Hb, Ep. pose proof (wf_digits x Hx) as Dx. rewrite Ep. destruct (mod_pow_split x k b Dx Hk Hb) as [_ ->].
  pose proof (arr_fresh N ltac:(unfold N; destruct (reads_fresh x n); cbn; lia)) as A0. destruct (b =? 0) eqn:E0; bool_prop.
  - destruct (copy_high_spec x k N _ Dx A0 ltac:(lia) ltac:(unfold N; destruct (reads_fresh x n); cbn; lia)) as (r & -> & Ar & Hlow & Hd). exists r. split; [done|]. split; [done|].
    pose proof (arr_zlen _ _ _ Ar) as Lr. rewrite E0, Z.pow_0_r, Z.div_1_r. rewrite (low_high (digits r) (m_length x - k)) by (rewrite Lr; unfold N; destruct (reads_fresh x n); cbn; lia). rewrite Hlow. f_equal. rewrite Z.mul_comm. f_equal.
    unfold high. rewrite Hd. fold (high (fresh_digits N) (m_length x - k)). cbn [digits]. fold (high (fresh_digits N) (m_length x - k)). unfold stale_digit, N in *. fold k. destruct (reads_fresh x n); cbn [Z.b2z] in *.
    + destruct (fresh_digits_ok (m_length x - k + 1) ltac:(lia)) as [Lf _]. rewrite high_succ, high_all by lia. lia.
    + rewrite Z.add_0_r. destruct (fresh_digits_ok (m_length x - k) ltac:(lia)) as [Lf _]. by rewrite high_all by lia.
  - assert (reads_fresh x n = false) as Er by (unfold reads_fresh; fold b; rewrite (proj2 (Z.eqb_neq b 0) E0); by rewrite andb_false_r). unfold stale_digit, N in *. rewrite Er in *. cbn [Z.b2z] in *. rewrite Z.add_0_r in *.
    destruct (shift_high_spec x k b _ Dx Hk ltac:(lia) A0) as (r & -> & Ar & Hr). exists r. split; [done|]. split; [done|]. rewrite Hr. lia.
Qed.

Lemma shiftr_negative a n : 0 <= n -> Z.shiftr (- a) n = - (a / 2 ^ n) - Z.b2z (negb (a mod 2 ^ n =? 0)).
Proof.
  intros Hn. rewrite Z.shiftr_div_pow2 by done. assert (0 < 2 ^ n) as Hp by (apply Z.pow_pos_nonneg; lia). destruct (a mod 2 ^ n =? 0) eqn:E; bool_prop; cbn [negb Z.b2z].
  - rewrite Z.div_opp_l_z by lia. lia.
  - rewrite Z.div_opp_l_nz by lia. lia.
Qed.

(** The end of a shift: rounding down, and trimming. *)
Lemma finish_shift (sg mr : bool) N r :
  arr false N r -> 0 < N <= maxLength -> (mr = true -> sg = true) ->
  let out := if sg then
      let result := setSign r true in
      if mr then result ← rightTrim result; absoluteAddOne result Signed else rightTrim result
    else rightTrim r in
  let v := if sg then - val (digits r) - Z.b2z mr else val (digits r) in
  (out = Throw OutOfMemoryError /\ mr = true /\ v = - B ^ maxLength) \/ exists z, out = Ok z /\ wf z /\ value z = v.
Proof.
  intros Ar HN Hmr out v. pose proof (arr_zlen _ _ _ Ar) as Lr. pose proof (arr_digits _ _ _ Ar) as Dr. unfold out, v. clear out v. destruct sg.
  - unfold setSign. destruct (trim_signed_spec true (digits r) Dr ltac:(lia)) as (y & -> & Hy & Vy & _). destruct mr; cbn [mbind res_bind Z.b2z]; [|right; exists y; split; [done|]; split; [done|lia]].
    assert (val (digits y) = val (digits r)) as Ev. { pose proof (val_bound _ (wf_digits y Hy)). pose proof (val_bound _ Dr). unfold value in Vy. destruct (sign y); lia. }
    destruct (absoluteAddOne_spec y Signed Hy) as [[-> E]|(z & -> & Hz & Vz)]; [left|right].
    + split; [done|]. split; [done|]. lia.
    + exists z. split; [done|]. split; [done|]. lia.
  - destruct mr; [by specialize (Hmr eq_refl)|]. right. rewrite (arr_eta _ _ _ Ar). destruct (trim_signed_spec false (digits r) Dr ltac:(lia)) as (z & -> & Hz & Vz & _). by exists z.
Qed.

Lemma rightShiftByAbsolute_spec x y :
  wf x -> wf y -> digits x <> [] -> digits y <> [] ->
  let n := val (digits y) in
  let v := Z.shiftr (value x) n - stale_digit x n * B ^ (m_length x - n / digitBits) in
  (rightShiftByAbsolute x y = Throw OutOfMemoryError /\ reads_fresh x n = true /\ v = - B ^ maxLength) \/
  exists z, rightShiftByAbsolute x y = Ok z /\ wf z /\ value z = v.
Proof.
  intros Hx Hy Hzx Hzy n v. pose proof (val_pos x Hx Hzx) as Vx. pose proof (val_pos y Hy Hzy) as Vy. fold n in Vy. pose proof maxLengthBits_bound as Hmb. pose proof (wf_length x Hx) as Lm.
  assert (0 < m_length x) as Lx by (unfold m_length; destruct (digits x); [done|zlia]). pose proof (val_bound _ (wf_digits x Hx)) as [_ Bx]. fold (m_length x) in Bx. pose proof B_pos as HB.
  assert (m_length x <= n / digitBits -> exists z, rightShiftByMaximum (sign x) = Ok z /\ wf z /\ value z = v) as Hmax.
  { intros Hge. unfold v, stale_digit, reads_fresh. rewrite (Z_ltb_false (n / digitBits) (m_length x)) by done. rewrite andb_false_r, Z.mul_0_l, Z.sub_0_r. apply rightShiftByMaximum_spec; [done|done|lia|].
    apply Z.lt_le_trans with (B ^ m_length x); [done|]. rewrite pow_B_bits by lia. apply Z.pow_le_mono_r; [lia|]. pose proof digitBits_pos. apply Z.le_trans with (digitBits * (n / digitBits)); [nia|apply Z.mul_div_le; lia]. }
  unfold rightShiftByAbsolute. rewrite toShiftAmount_spec by done. cbn [mbind res_bind]. fold n. destruct (maxLengthBits <? n) eqn:En; bool_prop.
  { right. apply Hmax. apply Z.div_le_lower_bound; [apply digitBits_pos|]. assert (digitBits * maxLength = 2 ^ 20) as Em by (unfold maxLength; destruct digitBits_ok as [-> | ->]; done). pose proof digitBits_pos. nia. }
  assert (0 <= n <= maxLengthBits) as Hn by lia. destruct (shift_split n Hn) as (Ek & Eb & Hk & Hb & Ep). rewrite Ek, Eb. set (k := n / digitBits) in *. set (b := n mod digitBits) in *.
  assert (maxLength <= 2 ^ 20) as Hml by (unfold maxLength; destruct digitBits_ok as [-> | ->]; done). assert (s32 (m_length x - k) = m_length x - k) as -> by (unfold s32; rewrite Z.mod_small; lia).
  destruct (m_length x - k <=? 0) eqn:El; bool_prop; [right; apply Hmax; lia|]. rewrite must_round_down_spec by (try done; lia). cbn [mbind res_bind]. rewrite <- Ep. set (mr := sign x && negb (val (digits x) mod 2 ^ n =? 0)).
  set (N := m_length x - k + Z.b2z (reads_fresh x n)).
  assert ((if mr && (b =? 0) then msd ← digit x (m_length x - 1); Ok (if Digit (Z.lnot msd) =? 0 then m_length x - k + 1 else m_length x - k) else Ok (m_length x - k)) = Ok N) as EN.
  { unfold N, reads_fresh. fold mr b k. rewrite (Z_ltb_true k (m_length x)), andb_true_r by lia. destruct (mr && (b =? 0)); cbn [andb]; [|cbn [Z.b2z]; f_equal; lia]. rewrite digit_dig by lia. cbn [mbind res_bind].
    rewrite full_digit by (apply dig_ok, Hx). destruct (_ =? B - 1); cbn [Z.b2z]; f_equal; lia. }
  cbv zeta. rewrite EN. cbn [mbind res_bind]. assert (m_length x - k <= N <= m_length x) as HN.
  { unfold N. destruct (reads_fresh x n) eqn:Er; cbn [Z.b2z]; [|lia]. pose proof (reads_fresh_pos x n Hn Er) as Hk1. fold k in Hk1. lia. }
  rewrite (Z_leb_true N) by lia. cbn [ASSERT mbind res_bind]. rewrite createWithLength_ok by lia. cbn [mbind res_bind].
  assert (0 <= k < m_length x) as Hkx by lia. destruct (quotient_digits x n Hx Hn Hkx) as (r & Er & Ar & Vr). fold k b N in Er, Ar, Vr. rewrite Er. cbn [mbind res_bind].
  assert ((if sign x then - val (digits r) - Z.b2z mr else val (digits r)) = v) as Ev.
  { rewrite Vr. unfold v, value, stale_digit, mr. destruct (sign x) eqn:Sx; cbn [andb]; [rewrite shiftr_negative by lia; lia|]. unfold reads_fresh. rewrite Sx, Z.shiftr_div_pow2 by lia. cbn [andb]. lia. }
  destruct (finish_shift (sign x) mr N r Ar ltac:(lia) ltac:(unfold mr; by destruct (sign x))) as [(Eo & Hmr & Hv)|(z & Eo & Hz & Vz)]; cbv zeta in Eo; rewrite Eo.
  - left. assert (sign x = true) as Sx by (unfold mr in Hmr; by destruct (sign x)). rewrite Sx, Hmr in Hv, Ev. cbn [Z.b2z] in Hv, Ev. split; [done|]. rewrite <- Ev. split; [|lia].
    destruct (reads_fresh x n) eqn:Erf; [done|exfalso]. unfold stale_digit in Vr. rewrite Erf, Z.mul_0_l, Z.add_0_r in Vr. assert (B ^ m_length x <= B ^ maxLength) by (apply Z.pow_le_mono_r; lia).
    assert (val (digits x) / 2 ^ n + 1 <= val (digits x)); [|lia]. pose proof (Z.div_lt (val (digits x)) (2 ^ n) Vx) as Hd. specialize (Hd ltac:(apply (Z.pow_lt_mono_r 2 0); lia)). lia.
  - right. exists z. split; [done|]. split; [done|]. by rewrite Vz.
Qed.
End right.
