(* ===== verification/BigIntText.v ===== *)
(** * BigIntText: big integers as text, and their comparison with doubles
      (src/Source/JavaScriptCore/runtime/JSBigInt.cpp, ParseInt.h, src/Source/JavaScriptCore/parser/Lexer.h,
      src/Source/WTF/wtf/ASCIICType.h)

    A string is the list of its UTF-16 code units. *)
From S2P Require Import Prelude Doubles BigInt.
Local Open Scope Z_scope.

(** ** Characters *)
Definition radixDigits : list Z :=
  [48; 49; 50; 51; 52; 53; 54; 55; 56; 57; 97; 98; 99; 100; 101; 102; 103; 104; 105; 106; 107; 108; 109; 110; 111; 112; 113; 114; 115; 116; 117; 118; 119; 120; 121; 122].

Definition radixDigit (d : Z) : res Z := match zget radixDigits d with Some c => Ok c | None => Fault end.

Definition isWhiteSpace_LChar (ch : Z) : bool := (ch =? 32) || (ch =? 9) || (ch =? 0xB) || (ch =? 0xC) || (ch =? 0xA0).

Section whitespace.
(** The characters of the general category "space separator": data of the Unicode library. *)
Context (isSpaceSeparator : Z -> bool).

Definition isWhiteSpace_UChar (ch : Z) : bool := if ch <? 256 then isWhiteSpace_LChar (u8 ch) else isSpaceSeparator ch || (ch =? 0xFEFF).
Definition isLineTerminator_UChar (ch : Z) : bool := (ch =? 13) || (ch =? 10) || (Z.land ch (Z.lnot 1) =? 0x2028).
Definition isStrWhiteSpace (c : Z) : bool := isWhiteSpace_UChar c || isLineTerminator_UChar c.
End whitespace.

Definition isASCIIAlphaCaselessEqual (inputCharacter expected : Z) : bool := Z.lor inputCharacter 0x20 =? expected.

(** The number of bits a character stands for, times 32 and rounded up. *)
Definition maxBitsPerCharTable : list Z :=
  [0; 0; 32; 51; 64; 75; 83; 90; 96; 102; 107; 111; 115; 119; 122; 126; 128; 131; 134; 136; 139; 141; 143; 145; 147; 149; 151; 153; 154; 156; 158; 159; 160; 162; 163; 165; 166].
Definition maxBitsPerChar (radix : Z) : res Z := match zget maxBitsPerCharTable radix with Some b => Ok b | None => Fault end.
Definition bitsPerCharTableShift : Z := 5.
Definition bitsPerCharTableMultiplier : Z := Z.shiftl 1 bitsPerCharTableShift.
Definition MaxLength : Z := 2 ^ 31 - 1.

Section text.
Context `{DigitConfig}.

Definition calculateMaximumCharactersRequired (length radix lastDigit : Z) (sign : bool) : res Z :=
  let leadingZeros := clz lastDigit in
  let bitLength := length * digitBits - leadingZeros in
  maxBits ← maxBitsPerChar radix;
  let minBitsPerChar := u8 (maxBits - 1) in
  let n := u64 (bitLength * bitsPerCharTableMultiplier) in
  let n := u64 (n + (minBitsPerChar - 1)) in
  if minBitsPerChar =? 0 then Fault else Ok (u64 (n / minBitsPerChar + Z.b2z sign)).

(** [ctz] of a 32-bit integer. *)
Fixpoint ctz_loop (n : nat) (value zeroCount : Z) : Z :=
  match n with
  | O => zeroCount
  | S n => if negb (Z.land value 1 =? 0) then zeroCount else ctz_loop n (Z.shiftr value 1) (zeroCount + 1)
  end.
Definition ctz (value : Z) : Z := ctz_loop 32 value 0.
Definition hasOneBitSet (value : Z) : bool := (Z.land (u32 (value - 1)) value =? 0) && negb (value =? 0).

(** A character of the result, counted from its end. *)
Definition setChar (s : list Z) (pos c : Z) : res (list Z) := match zset s pos c with Some s => Ok s | None => Fault end.

(** [resultString[pos--] = radixDigits[current]] *)
Definition put_digit (s : list Z) (pos current : Z) : res (list Z * Z) := c ← radixDigit current; s ← setChar s pos c; Ok (s, pos - 1).

(** The whole characters of a digit. *)
Definition available_loop (bitsPerChar charMask : Z) (s : list Z) (pos digit availableBits : Z) : res (list Z * Z * Z * Z) :=
  while (S (Z.to_nat digitBits)) (fun '(_, _, _, availableBits) => Ok (bitsPerChar <=? availableBits))
    (fun '(s, pos, digit, availableBits) =>
      '(s, pos) ← put_digit s pos (Z.land digit charMask);
      Ok (s, pos, Z.shiftr digit bitsPerChar, availableBits - bitsPerChar)) (s, pos, digit, availableBits).

(** The digits below the top one; [digit] holds the bits that are left over from a round. *)
Definition low_digits_loop (x : JSBigInt) (bitsPerChar charMask last : Z) (s : list Z) (pos : Z) : res (list Z * Z * Z * Z) :=
  for_range 0 last (fun i '(s, pos, digit, availableBits) =>
    newDigit ← BigInt.digit x i;
    let current := Z.land (Z.lor digit (Digit (Z.shiftl newDigit availableBits))) charMask in
    '(s, pos) ← put_digit s pos current;
    let consumedBits := bitsPerChar - availableBits in
    available_loop bitsPerChar charMask s pos (Z.shiftr newDigit consumedBits) (digitBits - consumedBits)) (s, pos, 0, 0).

(** [while (digit)] *)
Definition top_digit_loop (bitsPerChar charMask : Z) (s : list Z) (pos digit : Z) : res (list Z * Z * Z) :=
  while (S (Z.to_nat digitBits)) (fun '(_, _, digit) => Ok (negb (digit =? 0)))
    (fun '(s, pos, digit) =>
      '(s, pos) ← put_digit s pos (Z.land digit charMask);
      Ok (s, pos, Z.shiftr digit bitsPerChar)) (s, pos, digit).

Definition toStringBasePowerOfTwo (x : JSBigInt) (radix : Z) : res (list Z) :=
  ASSERT (hasOneBitSet radix);;
  ASSERT ((2 <=? radix) && (radix <=? 32));;
  ASSERT (negb (isZero x));;
  let length := m_length x in
  let bitsPerChar := ctz radix in
  let charMask := radix - 1 in
  msd ← digit x (length - 1);
  let msdLeadingZeros := clz msd in
  let bitLength := length * digitBits - msdLeadingZeros in
  let charsRequired := (bitLength + bitsPerChar - 1) / bitsPerChar + Z.b2z (sign x) in
  if MaxLength <? charsRequired then Throw OutOfMemoryError
  else
    let resultString := fresh_chars charsRequired in
    '(s, pos, digit, availableBits) ← low_digits_loop x bitsPerChar charMask (length - 1) resultString (charsRequired - 1);
    let current := Z.land (Z.lor digit (Digit (Z.shiftl msd availableBits))) charMask in
    '(s, pos) ← put_digit s pos current;
    '(s, pos, _) ← top_digit_loop bitsPerChar charMask s pos (Z.shiftr msd (bitsPerChar - availableBits));
    '(s, pos) ← (if sign x then s ← setChar s pos 45; Ok (s, pos - 1) else Ok (s, pos));
    ASSERT (pos =? -1);;
    Ok s.

(** The characters of a chunk, the least significant one first. *)
Definition chunk_loop (radix chunkChars chunk : Z) (out : list Z) : res (list Z * Z) :=
  for_range 0 chunkChars (fun _ '(out, chunk) => c ← radixDigit (chunk mod radix); Ok (out ++ [c], chunk / radix)) (out, chunk).

(** [do ... while (nonZeroDigit > 0)]; the first round divides [x], the others divide the rest in place. *)
Fixpoint rest_loop (fuel : nat) (radix chunkChars chunkDivisor : Z) (dividend : JSBigInt) (mode : QuotientMode) (nonZeroDigit : Z) (out : list Z) : res (JSBigInt * list Z) :=
  match fuel with
  | O => Fault
  | S fuel =>
    '(rest, chunk) ← absoluteDivWithDigitDivisor dividend chunkDivisor mode;
    rest ← deref rest;
    '(out, chunk) ← chunk_loop radix chunkChars chunk out;
    ASSERT (chunk =? 0);;
    d ← digit rest nonZeroDigit;
    let nonZeroDigit := if d =? 0 then nonZeroDigit - 1 else nonZeroDigit in
    d ← digit rest nonZeroDigit;
    ASSERT (negb (d =? 0));;
    if 0 <? nonZeroDigit then rest_loop fuel radix chunkChars chunkDivisor rest InPlace nonZeroDigit out else Ok (rest, out)
  end.

(** [do ... while (lastDigit > 0)] *)
Fixpoint last_digit_loop (fuel : nat) (radix lastDigit : Z) (out : list Z) : res (list Z) :=
  match fuel with
  | O => Fault
  | S fuel =>
    c ← radixDigit (lastDigit mod radix);
    let out := out ++ [c] in
    let lastDigit := lastDigit / radix in
    if 0 <? lastDigit then last_digit_loop fuel radix lastDigit out else Ok out
  end.

Definition remove_leading_zeroes (out : list Z) : res Z :=
  while (S (length out)) (fun n => if 1 <? n then match zget out (n - 1) with Some c => Ok (c =? 48) | None => Fault end else Ok false) (fun n => Ok (n - 1)) (zlen out).

Definition toStringGeneric (x : JSBigInt) (radix : Z) : res (list Z) :=
  ASSERT ((2 <=? radix) && (radix <=? 36));;
  ASSERT (negb (isZero x));;
  let length := m_length x in
  maxBits ← maxBitsPerChar radix;
  top ← digit x (length - 1);
  maximumCharactersRequired ← calculateMaximumCharactersRequired length radix top (sign x);
  if MaxLength <? maximumCharactersRequired then Throw OutOfMemoryError
  else
    '(lastDigit, out) ← (if length =? 1 then d ← digit x 0; Ok (d, [])
      else
        let chunkChars := digitBits * bitsPerCharTableMultiplier / maxBits in
        chunkDivisor ← digitPow radix chunkChars;
        ASSERT (negb (chunkDivisor =? 0));;
        d ← digit x (length - 1);
        ASSERT (negb (d =? 0));;
        '(rest, out) ← rest_loop (S (Z.to_nat (length * digitBits))) radix chunkChars chunkDivisor x NewQuotient (length - 1) [];
        d ← digit rest 0;
        Ok (d, out));
    out ← last_digit_loop (S (Z.to_nat digitBits)) radix lastDigit out;
    ASSERT (0 <? zlen out);;
    ASSERT (zlen out <=? maximumCharactersRequired);;
    newSize ← remove_leading_zeroes out;
    let out := take (Z.to_nat newSize) out in
    let out := if sign x then out ++ [45] else out in
    Ok (rev out).

Definition toString (x : JSBigInt) (radix : Z) : res (list Z) :=
  if isZero x then Ok [48]
  else if hasOneBitSet radix then toStringBasePowerOfTwo x radix
  else toStringGeneric x radix.

Definition singleDigitValueForString (x : JSBigInt) : res (option Z) :=
  if isZero x then Ok (Some 0)
  else if (m_length x =? 1) && negb (sign x) then rDigit ← digit x 0; Ok (if rDigit <=? 9 then Some rDigit else None)
  else Ok None.

(** ** Parsing *)
(** [exec] is false when the code passes a null pointer for it: then nothing is thrown, and the result is the null pointer. *)
Definition allocateFor (exec : bool) (radix charcount : Z) : res (option JSBigInt) :=
  ASSERT ((2 <=? radix) && (radix <=? 36));;
  bitsPerChar ← maxBitsPerChar radix;
  let chars := charcount in
  let roundup := bitsPerCharTableMultiplier - 1 in
  if chars <=? (2 ^ digitBits - 1 - roundup) / bitsPerChar then
    let bitsMin := bitsPerChar * chars in
    let bitsMin := Z.shiftr (bitsMin + roundup) bitsPerCharTableShift in
    if bitsMin <=? maxInt then
      let length := (bitsMin + digitBits - 1) / digitBits in
      if length <=? maxLength then result ← createWithLengthUnchecked length; Ok (Some result)
      else if exec then Throw OutOfMemoryError else Ok None
    else if exec then Throw OutOfMemoryError else Ok None
  else if exec then Throw OutOfMemoryError else Ok None.

Inductive ErrorParseMode : Type := ThrowExceptions | IgnoreExceptions.
Inductive ParseIntMode : Type := DisallowEmptyString | AllowEmptyString.
Inductive ParseIntSign : Type := ParseUnsigned | ParseSigned.

Definition parse_failure (exec : bool) (mode : ErrorParseMode) : res (option JSBigInt) :=
  ASSERT exec;; match mode with ThrowExceptions => Throw SyntaxError | IgnoreExceptions => Ok None end.

(** [data[i]]; the bounds are tested before. *)
Definition char_at (data : list Z) (i : Z) : res Z := match zget data i with Some c => Ok c | None => Fault end.

Definition skip_zeros (data : list Z) (length p : Z) : res Z :=
  while (S (Z.to_nat length)) (fun p => if p <? length then c ← char_at data p; Ok (c =? 48) else Ok false) (fun p => Ok (p + 1)) p.

Definition digit_of_char (c radix : Z) : option Z :=
  let limit0 := u32 (48 + (if radix <? 10 then radix else 10)) in
  let limita := u32 (97 + u32 (radix - 10)) in
  let limitA := u32 (65 + u32 (radix - 10)) in
  if (48 <=? c) && (c <? limit0) then Some (c - 48)
  else if (97 <=? c) && (c <? limita) then Some (c - 97 + 10)
  else if (65 <=? c) && (c <? limitA) then Some (c - 65 + 10)
  else None.

(** The digits from [i] up to [length]; the loop stops at the first character that is not one. *)
Fixpoint digits_loop (n : nat) (data : list Z) (radix i : Z) (result : JSBigInt) : res (JSBigInt * Z) :=
  match n with
  | O => Ok (result, i)
  | S n =>
    c ← char_at data i;
    match digit_of_char c radix with
    | Some digit => result ← inplaceMultiplyAdd result (Digit radix) (Digit digit); digits_loop n data radix (i + 1) result
    | None => Ok (result, i)
    end
  end.

Section parse.
Context (isSpaceSeparator : Z -> bool).
Local Abbreviation isStrWhiteSpace := (isStrWhiteSpace isSpaceSeparator).

Definition skip_spaces_left (data : list Z) (length : Z) : res Z :=
  while (S (Z.to_nat length)) (fun p => if p <? length then c ← char_at data p; Ok (isStrWhiteSpace c) else Ok false) (fun p => Ok (p + 1)) 0.
Definition skip_spaces_right (data : list Z) (p endIndex : Z) : res Z :=
  while (S (Z.to_nat (endIndex + 1))) (fun e => if p <=? e then c ← char_at data e; Ok (isStrWhiteSpace c) else Ok false) (fun e => Ok (e - 1)) endIndex.

(** The digits of a literal; [None] is the null pointer. *)
Definition parseInt_digits (exec : bool) (data : list Z) (startIndex radix : Z) (errorParseMode : ErrorParseMode) (sign : ParseIntSign) (parseMode : ParseIntMode) : res (option JSBigInt) :=
  let length := zlen data in
  let p := startIndex in
  if match parseMode with AllowEmptyString => false | DisallowEmptyString => startIndex =? length end then parse_failure exec errorParseMode
  else
    p ← skip_zeros data length p;
    endIndex ← skip_spaces_right data p (length - 1);
    let length := endIndex + 1 in
    if p =? length then z ← createZero; Ok (Some z)
    else
      result ← allocateFor exec radix (length - p);
      result ← deref result;
      let result := initialize_with_zero result in
      '(result, p) ← digits_loop (Z.to_nat (length - p)) data radix p result;
      let result := setSign result (match sign with ParseSigned => true | ParseUnsigned => false end) in
      if p =? length then r ← rightTrim result; Ok (Some r) else parse_failure exec errorParseMode.

(** A literal with its prefix and sign. *)
Definition parseInt_string (data : list Z) (errorParseMode : ErrorParseMode) : res (option JSBigInt) :=
  let length := zlen data in
  p ← skip_spaces_left data length;
  c0 ← (if p + 1 <? length then char_at data p else Ok 0);
  c1 ← (if p + 1 <? length then char_at data (p + 1) else Ok 0);
  if (p + 1 <? length) && (c0 =? 48) && isASCIIAlphaCaselessEqual c1 98 then parseInt_digits true data (p + 2) 2 errorParseMode ParseUnsigned DisallowEmptyString
  else if (p + 1 <? length) && (c0 =? 48) && isASCIIAlphaCaselessEqual c1 120 then parseInt_digits true data (p + 2) 16 errorParseMode ParseUnsigned DisallowEmptyString
  else if (p + 1 <? length) && (c0 =? 48) && isASCIIAlphaCaselessEqual c1 111 then parseInt_digits true data (p + 2) 8 errorParseMode ParseUnsigned DisallowEmptyString
  else
    c ← (if p <? length then char_at data p else Ok 0);
    let '(sign, p) := if p <? length then if c =? 43 then (ParseUnsigned, p + 1) else if c =? 45 then (ParseSigned, p + 1) else (ParseUnsigned, p) else (ParseUnsigned, p) in
    result ← parseInt_digits true data p 10 errorParseMode sign AllowEmptyString;
    Ok (match result with
        | Some r => Some (if negb (isZero r) then setSign r (match sign with ParseSigned => true | ParseUnsigned => false end) else r)
        | None => None
        end).

Definition parseInt_radix (exec : bool) (data : list Z) (radix : Z) (errorParseMode : ErrorParseMode) (sign : ParseIntSign) : res (option JSBigInt) :=
  parseInt_digits exec data 0 radix errorParseMode sign DisallowEmptyString.

Definition stringToBigInt (data : list Z) : res (option JSBigInt) := parseInt_string data IgnoreExceptions.
End parse.
End text.
