(* ===== verification/BigIntParse.v ===== *)
(** * BigIntParse: the text of a number is read as that number *)
From S2P Require Import Prelude Doubles BigInt BigIntFacts BigIntAdd BigIntMul BigIntDivide BigIntBitwise BigIntText.
Local Open Scope Z_scope.

(** ** Texts *)
Fixpoint drop_while {A} (f : A -> bool) (l : list A) : list A := match l with [] => [] | x :: l' => if f x then drop_while f l' else l end.
Definition drop_while_end {A} (f : A -> bool) (l : list A) : list A := rev (drop_while f (rev l)).

Lemma drop_while_snoc_end {A} (f : A -> bool) l x : f x = true -> drop_while_end f (l ++ [x]) = drop_while_end f l.
Proof. intros Hx. unfold drop_while_end. rewrite rev_unit. cbn [drop_while]. by rewrite Hx. Qed.

Lemma drop_while_end_stop {A} (f : A -> bool) l x : f x = false -> drop_while_end f (l ++ [x]) = l ++ [x].
Proof. intros Hx. unfold drop_while_end. rewrite rev_unit. cbn [drop_while]. rewrite Hx. cbn [rev]. by rewrite rev_involutive. Qed.

(** What is left of a text when leading zeros and trailing spaces are removed, in this order. *)
Definition significant (space : Z -> bool) (text : list Z) : list Z := drop_while_end space (drop_while (fun c => c =? 48) text).

(** The number that digits denote, the most significant one first. *)
Definition number_from (radix acc : Z) (ds : list Z) : Z := fold_left (fun acc d => acc * radix + d) ds acc.

Lemma number_from_bound radix ds acc k :
  2 <= radix -> 0 <= k -> 0 <= acc < radix ^ k -> Forall (fun d => 0 <= d < radix) ds -> 0 <= number_from radix acc ds < radix ^ (k + zlen ds).
Proof.
  intros Hr. revert acc k. induction ds as [|d ds IH]; intros acc k Hk Hacc Hds; cbn [number_from fold_left].
  - change (zlen []) with 0. by rewrite Z.add_0_r.
  - inversion Hds as [|? ? Hd Hds']; subst. rewrite zlen_cons. replace (k + (1 + zlen ds)) with (k + 1 + zlen ds) by lia. apply IH; [lia| |done]. rewrite Z.pow_add_r, Z.pow_1_r by lia. nia.
Qed.

(** ** Characters of digits *)
Definition radix_char (d : Z) : Z := default 0 (zget radixDigits d).

#[export] Instance exception_eq_dec : EqDecision exception.
Proof. solve_decision. Defined.
#[export] Instance res_eq_dec {A} `{EqDecision A} : EqDecision (res A).
Proof. solve_decision. Defined.

Definition digit_chars_ok (radix : Z) : bool :=
  forallb (fun d => (if d <? radix then bool_decide (digit_of_char (radix_char d) radix = Some d) else true) && bool_decide (radixDigit d = Ok (radix_char d))) (seqZ 0 36).

Lemma digit_chars_all : forallb digit_chars_ok (seqZ 2 35) = true.
Proof. vm_compute. reflexivity. Qed.

Lemma radixDigit_ok d : 0 <= d < 36 -> radixDigit d = Ok (radix_char d).
Proof.
  intros Hd. pose proof (forallb_seqZ _ 2 35 36 digit_chars_all ltac:(lia)) as H1. pose proof (forallb_seqZ _ 0 36 d H1 ltac:(lia)) as H2. apply andb_true_iff in H2 as [_ H2]. by apply bool_decide_eq_true in H2.
Qed.

Lemma digit_of_radix_char d radix : 2 <= radix <= 36 -> 0 <= d < radix -> digit_of_char (radix_char d) radix = Some d.
Proof.
  intros Hr Hd. pose proof (forallb_seqZ _ 2 35 radix digit_chars_all ltac:(lia)) as H1. pose proof (forallb_seqZ _ 0 36 d H1 ltac:(lia)) as H2. apply andb_true_iff in H2 as [H2 _].
  rewrite Z_ltb_true in H2 by lia. by apply bool_decide_eq_true in H2.
Qed.

Lemma digit_of_char_range c radix d : 2 <= radix <= 36 -> digit_of_char c radix = Some d -> 0 <= d < radix.
Proof.
  intros Hr. unfold digit_of_char, u32. destruct (radix <? 10) eqn:E; bool_prop.
  - rewrite (Z.mod_small (48 + radix)) by lia. repeat if_cases; intros [= <-]; bool_prop; Z.to_euclidean_division_equations; lia.
  - rewrite (Z.mod_small (48 + 10)), (Z.mod_small (radix - 10)), !Z.mod_small by lia. repeat if_cases; intros [= <-]; bool_prop; lia.
Qed.

(** The table bounds the number of bits of a character from both sides. *)
Definition table_ok (radix : Z) : bool :=
  match maxBitsPerChar radix with Ok b => (radix ^ 32 <=? 2 ^ b) && (2 ^ (b - 1) <=? radix ^ 32) && (32 <=? b) && (b <=? 166) | _ => false end.
Lemma table_all : forallb table_ok (seqZ 2 35) = true.
Proof. vm_compute. reflexivity. Qed.

Lemma maxBitsPerChar_ok radix : 2 <= radix <= 36 -> exists b, maxBitsPerChar radix = Ok b /\ radix ^ 32 <= 2 ^ b /\ 2 ^ (b - 1) <= radix ^ 32 /\ 32 <= b <= 166.
Proof.
  intros Hr. pose proof (forallb_seqZ _ 2 35 radix table_all ltac:(lia)) as H1. unfold table_ok in H1. destruct (maxBitsPerChar radix) as [b| |]; try done. exists b. apply andb_true_iff in H1 as [H1 H4]. apply andb_true_iff in H1 as [H1 H3].
  apply andb_true_iff in H1 as [H1 H2]. apply Z.leb_le in H1, H2, H3, H4. done.
Qed.

Section parse.
Context `{DigitConfig}.
Local Abbreviation B := (2 ^ digitBits).
Context (isSpaceSeparator : Z -> bool).
Local Abbreviation space := (isStrWhiteSpace isSpaceSeparator).

Lemma char_at_ok data i : 0 <= i < zlen data -> char_at data i = Ok (dig data i).
Proof. intros Hi. unfold char_at. by rewrite zget_dig. Qed.

Lemma skip_zeros_spec data start :
  0 <= start <= zlen data ->
  exists p, skip_zeros data (zlen data) start = Ok p /\ start <= p <= zlen data /\ drop (Z.to_nat p) data = drop_while (fun c => c =? 48) (drop (Z.to_nat start) data).
Proof.
  intros Hs. unfold skip_zeros. name_while test body.
  destruct (while_inv (fun p => start <= p <= zlen data /\ drop_while (fun c => c =? 48) (drop (Z.to_nat p) data) = drop_while (fun c => c =? 48) (drop (Z.to_nat start) data))
    (fun p => zlen data - p) (S (Z.to_nat (zlen data))) test body start) as (p & -> & [Hp Hd] & Ht).
  - split; [lia|done].
  - zlens. lia.
  - intros p [Hp Hd]. unfold test. destruct (p <? zlen data) eqn:E; bool_prop; [|by exists false]. rewrite char_at_ok by lia. cbn [mbind res_bind]. eexists. split; [done|]. intros Hc. exists (p + 1). split; [done|]. split; [|lia].
    split; [lia|]. rewrite <- Hd, (drop_dig data p) by lia. cbn [drop_while]. by rewrite Hc.
  - exists p. split; [done|]. split; [done|]. rewrite <- Hd. unfold test in Ht. destruct (p <? zlen data) eqn:E; bool_prop.
    + rewrite char_at_ok in Ht by lia. cbn [mbind res_bind] in Ht. injection Ht as Ht. rewrite (drop_dig data p) by lia. cbn [drop_while]. by rewrite Ht.
    + rewrite drop_ge by (unfold zlen in *; lia). done.
Qed.

(** The characters from [p] up to [e]. *)
Definition slice (data : list Z) (p e : Z) : list Z := take (Z.to_nat (e - p)) (drop (Z.to_nat p) data).

Lemma slice_succ data p e : 0 <= p <= e -> e < zlen data -> slice data p (e + 1) = slice data p e ++ [dig data e].
Proof.
  intros Hp He. unfold slice. assert (drop (Z.to_nat p) data !! Z.to_nat (e - p) = Some (dig data e)) as Hl.
  { rewrite lookup_drop. pose proof (zget_dig data e ltac:(lia)) as Hg. apply zget_Some in Hg as [_ Hg]. by replace (Z.to_nat p + Z.to_nat (e - p))%nat with (Z.to_nat e) by lia. }
  replace (Z.to_nat (e + 1 - p)) with (S (Z.to_nat (e - p))) by lia. by apply take_S_r.
Qed.

Lemma skip_spaces_right_spec data p :
  0 <= p <= zlen data ->
  exists e, skip_spaces_right isSpaceSeparator data p (zlen data - 1) = Ok e /\ p - 1 <= e <= zlen data - 1 /\ slice data p (e + 1) = drop_while_end space (drop (Z.to_nat p) data).
Proof.
  intros Hp. unfold skip_spaces_right. name_while test body.
  destruct (while_inv (fun e => p - 1 <= e <= zlen data - 1 /\ drop_while_end space (slice data p (e + 1)) = drop_while_end space (drop (Z.to_nat p) data))
    (fun e => e + 1) (S (Z.to_nat (zlen data - 1 + 1))) test body (zlen data - 1)) as (e & -> & [He Hd] & Ht).
  - split; [lia|]. unfold slice. rewrite take_ge by (rewrite length_drop; unfold zlen; lia). done.
  - lia.
  - intros e [He Hd]. unfold test. destruct (p <=? e) eqn:E; bool_prop; [|by exists false]. rewrite char_at_ok by lia. cbn [mbind res_bind]. eexists. split; [done|]. intros Hc. exists (e - 1). split; [done|]. split; [|lia].
    split; [lia|]. rewrite <- Hd, (slice_succ data p e) by lia. rewrite drop_while_snoc_end by done. by replace (e - 1 + 1) with e by lia.
  - exists e. split; [done|]. split; [done|]. rewrite <- Hd. unfold test in Ht. destruct (p <=? e) eqn:E; bool_prop.
    + rewrite char_at_ok in Ht by lia. cbn [mbind res_bind] in Ht. injection Ht as Ht. rewrite (slice_succ data p e) by lia. by rewrite drop_while_end_stop.
    + unfold slice. replace (Z.to_nat (e + 1 - p)) with 0%nat by lia. done.
Qed.

(** ** Allocation *)
(** How many digits are allocated for so many characters. *)
Definition digits_for (bits chars : Z) : Z := ((bits * chars + 31) / 32 + digitBits - 1) / digitBits.

Definition too_long (radix chars : Z) : bool := match maxBitsPerChar radix with Ok bits => maxLength <? digits_for bits chars | _ => false end.

Lemma digits_for_enough radix bits chars : 2 <= radix -> 0 <= bits -> radix ^ 32 <= 2 ^ bits -> 0 <= chars -> radix ^ chars <= B ^ digits_for bits chars.
Proof.
  intros Hr Hb Ht Hc. pose proof digitBits_pos as Hp. unfold digits_for. set (m := (bits * chars + 31) / 32). assert (bits * chars <= 32 * m) as Hm by (unfold m; Z.to_euclidean_division_equations; lia). assert (0 <= m) as Hm0 by (unfold m; apply Z.div_pos; nia).
  set (N := (m + digitBits - 1) / digitBits). assert (m <= digitBits * N) as HN by (unfold N; pose proof (Z.mul_succ_div_gt (m + digitBits - 1) digitBits Hp); lia). assert (0 <= N) by (unfold N; apply Z.div_pos; lia).
  rewrite pow_B_bits by done. apply Z.le_trans with (2 ^ m); [|apply Z.pow_le_mono_r; lia]. apply (Z.pow_le_mono_l_iff _ _ 32); [apply Z.pow_nonneg; lia|apply Z.pow_nonneg; lia|lia|].
  rewrite <- !Z.pow_mul_r by lia. rewrite (Z.mul_comm chars), Z.pow_mul_r by lia. apply Z.le_trans with ((2 ^ bits) ^ chars); [apply Z.pow_le_mono_l; split; [apply Z.pow_nonneg; lia|done]|].
  rewrite <- Z.pow_mul_r by lia. apply Z.pow_le_mono_r; lia.
Qed.

Lemma allocateFor_spec exec radix chars :
  2 <= radix <= 36 -> 0 < chars < 2 ^ 31 ->
  if too_long radix chars then allocateFor exec radix chars = if exec then Throw OutOfMemoryError else Ok None
  else exists N, allocateFor exec radix chars = Ok (Some (mkBigInt false (fresh_digits N))) /\ 0 < N <= maxLength /\ radix ^ chars <= B ^ N.
Proof.
  intros Hr Hc. destruct (maxBitsPerChar_ok radix Hr) as (bits & Eb & Hb & _ & Hb'). unfold allocateFor, too_long. rewrite Eb, !Z_leb_true by lia. cbn [andb ASSERT mbind res_bind].
  change (bitsPerCharTableMultiplier - 1) with 31. change bitsPerCharTableShift with 5. rewrite Z.shiftr_div_pow2 by lia. change (2 ^ 5) with 32. set (m := (bits * chars + 31) / 32).
  assert (bits * chars <= 32 * m < bits * chars + 32) as Hm by (unfold m; Z.to_euclidean_division_equations; lia). change (digits_for bits chars) with ((m + digitBits - 1) / digitBits). set (N := (m + digitBits - 1) / digitBits). pose proof digitBits_pos as Hp.
  assert (radix ^ chars <= B ^ N) as Hpow by (apply (digits_for_enough radix bits chars); lia).
  assert (m <= digitBits * N <= m + digitBits - 1) as HN by (unfold N; pose proof (Z.mul_succ_div_gt (m + digitBits - 1) digitBits Hp); pose proof (Z.mul_div_le (m + digitBits - 1) digitBits Hp); lia).
  assert (digitBits * maxLength = 2 ^ 20) as Emax by (unfold maxLength; destruct digitBits_ok as [-> | ->]; done). 
  assert (maxLength < N <-> 2 ^ 20 < m) as Hiff.
  { split; intros Hlt; [|nia]. assert (digitBits * (maxLength + 1) <= digitBits * N) by (apply Z.mul_le_mono_nonneg_l; lia). lia. }
  destruct (maxLength <? N) eqn:EN; bool_prop.
  - repeat if_cases; bool_prop; first [done|lia].
  - assert (m <= 2 ^ 20) as Hm20 by lia. assert (chars <= 2 ^ 20) as Hc20 by nia.
    assert (chars <= (B - 1 - 31) / bits) as Hfit. { apply Z.div_le_lower_bound; [lia|]. pose proof B_large. lia. }
    rewrite (Z_leb_true chars) by done. rewrite (Z_leb_true m) by (unfold maxInt; lia). rewrite (Z_leb_true N) by lia. assert (0 < N) by nia. rewrite createWithLength_ok by lia. cbn [mbind res_bind]. exists N. split; [done|]. split; [lia|done].
Qed.

(** ** Digits *)
Definition digits_of (radix : Z) (text : list Z) : option (list Z) := mapM (fun c => digit_of_char c radix) text.

Lemma digits_of_range radix text ds : 2 <= radix <= 36 -> digits_of radix text = Some ds -> Forall (fun d => 0 <= d < radix) ds.
Proof.
  intros Hr Hm. apply mapM_Some_1 in Hm. induction Hm as [|c d cs ds' Hc _ IH]; constructor; [by eapply digit_of_char_range|done].
Qed.

Lemma parse_digits_loop_spec data radix N text i result done :
  2 <= radix <= 36 -> arr false N result -> 0 <= i -> slice data i (i + zlen text) = text -> 0 <= done ->
  0 <= val (digits result) < radix ^ done -> radix ^ (done + zlen text) <= B ^ N ->
  exists r p, digits_loop (Datatypes.length text) data radix i result = Ok (r, p) /\ arr false N r /\
    match digits_of radix text with
    | Some ds => p = i + zlen text /\ val (digits r) = number_from radix (val (digits result)) ds
    | None => i <= p < i + zlen text
    end.
Proof using Type.
  intros Hr. assert (is_digit radix) as Dr by (pose proof B_large; unfold is_digit; lia).
  revert i result done. induction text as [|c text IH]; intros i result done Ar Hi Hs Hd Hv Hfit; cbn [Datatypes.length digits_loop].
  { exists result, i. split; [done|]. split; [done|]. cbn [digits_of mapM]. split; [by rewrite zlen_nil, Z.add_0_r|done]. }
  rewrite zlen_cons in *. pose proof (zlen_nonneg text) as Hn. assert (zlen data >= i + 1 + zlen text) as Hlen.
  { apply (f_equal (@Datatypes.length Z)) in Hs. unfold slice in Hs. rewrite length_take, length_drop in Hs. cbn [Datatypes.length] in Hs. unfold zlen in *. lia. }
  unfold slice in Hs. rewrite drop_dig in Hs by lia. replace (Z.to_nat (i + (1 + zlen text) - i)) with (S (Z.to_nat (zlen text))) in Hs by lia. cbn [take] in Hs. injection Hs as Hc Hs.
  rewrite char_at_ok, Hc by lia. cbn [mbind res_bind]. unfold digits_of. cbn [mapM]. destruct (digit_of_char c radix) as [d|] eqn:Ed; [|exists result, i; split; [done|]; split; [done|]; cbn [mbind option_bind]; lia].
  pose proof (digit_of_char_range c radix d Hr Ed) as Hdr. assert (is_digit d) as Dd by (unfold is_digit in *; lia). rewrite (Digit_small radix Dr), (Digit_small d Dd).
  assert (radix ^ (done + 1) <= B ^ N) as Hle by (eapply Z.le_trans; [|exact Hfit]; apply Z.pow_le_mono_r; lia). rewrite Z.pow_add_r, Z.pow_1_r in Hle by lia.
  destruct (inplaceMultiplyAdd_spec false N result radix d Ar Dr Dd ltac:(nia)) as (r & -> & Ar' & Hv'). cbn [mbind res_bind].
  destruct (IH (i + 1) r (done + 1) Ar' ltac:(lia)) as (r' & p & -> & Ar'' & Hm).
  { unfold slice. by replace (i + 1 + zlen text - (i + 1)) with (zlen text) by lia. } { lia. } { rewrite Hv', Z.pow_add_r, Z.pow_1_r by lia. nia. } { by replace (done + 1 + zlen text) with (done + (1 + zlen text)) by lia. }
  exists r', p. split; [done|]. split; [done|]. unfold digits_of in Hm. destruct (mapM _ text) as [ds|]; cbn.
  - destruct Hm as [-> ->]. split; [lia|]. rewrite Hv'. cbn [number_from fold_left]. unfold number_from. f_equal. lia.
  - lia.
Qed.

(** What the digits of a literal stand for, or how they fail. *)
Definition parse_result (exec : bool) (mode : ErrorParseMode) (sg : ParseIntSign) (radix : Z) (text : list Z) (r : res (option JSBigInt)) : Prop :=
  match text with
  | [] => r = Ok (Some (mkBigInt false []))
  | _ =>
    if too_long radix (zlen text) then r = if exec then Throw OutOfMemoryError else Fault
    else
      match digits_of radix text with
      | None => r = parse_failure exec mode
      | Some ds => exists z, r = Ok (Some z) /\ wf z /\ value z = match sg with ParseSigned => - number_from radix 0 ds | ParseUnsigned => number_from radix 0 ds end
      end
  end.

Lemma parseInt_digits_spec exec data start radix mode sg pm :
  2 <= radix <= 36 -> 0 <= start <= zlen data -> zlen data < 2 ^ 31 ->
  if match pm with AllowEmptyString => false | DisallowEmptyString => start =? zlen data end
  then parseInt_digits isSpaceSeparator exec data start radix mode sg pm = parse_failure exec mode
  else parse_result exec mode sg radix (significant space (drop (Z.to_nat start) data)) (parseInt_digits isSpaceSeparator exec data start radix mode sg pm).
Proof using Type.
  intros Hr Hs Hlen. unfold parseInt_digits. destruct (match pm with AllowEmptyString => false | DisallowEmptyString => start =? zlen data end); [done|].
  destruct (skip_zeros_spec data start Hs) as (p & -> & Hp & Hd). cbn [mbind res_bind]. destruct (skip_spaces_right_spec data p ltac:(lia)) as (e & -> & He & Hsl). cbn [mbind res_bind].
  unfold significant. rewrite <- Hd, <- Hsl. set (text := slice data p (e + 1)). assert (zlen text = e + 1 - p) as Hlt by (unfold text, slice, zlen in *; rewrite length_take, length_drop; lia).
  destruct (p =? e + 1) eqn:E; bool_prop.
  { rewrite createZero_ok. cbn [mbind res_bind]. unfold parse_result. by rewrite (zlen_0_nil text) by lia. }
  assert (exists c cs, text = c :: cs) as (c & cs & Et) by (destruct text as [|c cs]; [rewrite zlen_nil in Hlt; lia|by exists c, cs]). unfold parse_result. rewrite Et, <- Et. rewrite Hlt.
  pose proof (allocateFor_spec exec radix (e + 1 - p) Hr ltac:(lia)) as Ha. destruct (too_long radix (e + 1 - p)); [rewrite Ha; by destruct exec|]. destruct Ha as (N & -> & HN & Hpow). cbn [mbind res_bind deref].
  unfold initialize_with_zero. cbn [sign digits]. destruct (fresh_digits_ok N ltac:(lia)) as [Hf _]. unfold m_length. cbn [digits]. rewrite Hf.
  assert (arr false N (mkBigInt false (replicate (Z.to_nat N) 0))) as A0 by (split; [done|unfold m_length, zlen; cbn [digits]; rewrite length_replicate; lia|apply Forall_replicate, is_digit_0]).
  destruct (parse_digits_loop_spec data radix N text p (mkBigInt false (replicate (Z.to_nat N) 0)) 0 Hr A0 ltac:(lia)) as (r & p' & Er & Ar & Hm).
  { rewrite Hlt. unfold text. f_equal. lia. } { lia. } { cbn [digits]. rewrite val_replicate, Z.pow_0_r. lia. } { rewrite Hlt. done. }
  replace (Datatypes.length text) with (Z.to_nat (e + 1 - p)) in Er by (unfold zlen in Hlt; lia). rewrite Er. cbn [mbind res_bind]. cbn [digits] in Hm. rewrite val_replicate in Hm. pose proof (arr_zlen _ _ _ Ar) as Lr.
  destruct (digits_of radix text) as [ds|].
  - destruct Hm as [-> Hv]. rewrite (proj2 (Z.eqb_eq (p + zlen text) (e + 1))) by lia. unfold setSign.
    destruct (trim_signed_spec (match sg with ParseSigned => true | ParseUnsigned => false end) (digits r) (arr_digits _ _ _ Ar)) as (z & -> & Hz & Vz & _); [lia|]. cbn [mbind res_bind]. exists z. split; [done|]. split; [done|]. rewrite Vz, Hv. by destruct sg.
  - by rewrite (proj2 (Z.eqb_neq p' (e + 1))) by lia.
Qed.
End parse.
