(* ===== verification/BigIntPrint.v ===== *)
(** * BigIntPrint: the text of a big integer in a radix that is not a power of two *)
From S2P Require Import Prelude Doubles BigInt BigIntFacts BigIntAdd BigIntDivide BigIntBitwise BigIntText BigIntParse.
Local Open Scope Z_scope.

(** ** Numerals *)
(** The number of some digits, the least significant one first, in a radix. *)
Fixpoint lval (radix : Z) (l : list Z) : Z := match l with [] => 0 | d :: l => d + radix * lval radix l end.

(** The digits of a number, the least significant one first. *)
Fixpoint lsb_digits (fuel : nat) (radix n : Z) : list Z :=
  match fuel with O => [] | S fuel => if n =? 0 then [] else n mod radix :: lsb_digits fuel radix (n / radix) end.

(** The text of a number that is not negative. *)
Definition numeral (radix n : Z) : list Z :=
  if n =? 0 then [48] else rev (map radix_char (lsb_digits (S (Z.to_nat (Z.log2 n))) radix n)).

Definition in_radix (radix : Z) (l : list Z) : Prop := Forall (fun d => 0 <= d < radix) l.

Lemma lval_app radix l1 l2 : lval radix (l1 ++ l2) = lval radix l1 + radix ^ zlen l1 * lval radix l2.
Proof.
  induction l1 as [|d l1 IH]; cbn [app lval]; [change (zlen []) with 0; rewrite Z.pow_0_r; lia|]. rewrite IH, zlen_cons.
  rewrite Z.pow_add_r, Z.pow_1_r by (pose proof (zlen_nonneg l1); lia). lia.
Qed.

Lemma lval_bound radix l : 0 < radix -> in_radix radix l -> 0 <= lval radix l < radix ^ zlen l.
Proof.
  intros Hr. induction 1 as [|d l Hd Hl IH]; cbn [lval]; [change (zlen []) with 0; rewrite Z.pow_0_r; lia|].
  rewrite zlen_cons, Z.pow_add_r, Z.pow_1_r by (pose proof (zlen_nonneg l); lia). nia.
Qed.

Lemma number_from_lval radix l acc : number_from radix acc (rev l) = acc * radix ^ zlen l + lval radix l.
Proof.
  unfold number_from. revert acc. induction l as [|d l IH]; intros acc; cbn [rev lval]; [change (zlen []) with 0; cbn; lia|].
  rewrite fold_left_app, IH. cbn [fold_left]. rewrite zlen_cons, Z.pow_add_r, Z.pow_1_r by (pose proof (zlen_nonneg l); lia). lia.
Qed.

(** Without leading zeros there is one way to write a number. *)
Lemma lsb_digits_unique radix l fuel :
  2 <= radix -> in_radix radix l -> (l <> [] -> radix ^ (zlen l - 1) <= lval radix l) -> lval radix l < 2 ^ Z.of_nat fuel -> lsb_digits fuel radix (lval radix l) = l.
Proof.
  intros Hr Hl. revert fuel. induction Hl as [|d l Hd Hl IH]; intros fuel Hc Hf; [by destruct fuel|]. cbn [lval] in *. specialize (Hc ltac:(done)). rewrite zlen_cons in Hc. pose proof (zlen_nonneg l) as Hn. replace (1 + zlen l - 1) with (zlen l) in Hc by lia.
  pose proof (lval_bound radix l ltac:(lia) Hl) as Hb. assert (0 < radix ^ zlen l) as Hp by (apply Z.pow_pos_nonneg; lia). destruct fuel as [|fuel]; [cbn in Hf; lia|]. cbn [lsb_digits]. rewrite (proj2 (Z.eqb_neq _ 0)) by lia.
  rewrite (Z.mul_comm radix), Z_mod_plus_full, Z.mod_small, Z.div_add, Z.div_small, Z.add_0_l by lia. f_equal. apply IH.
  - intros Hne. assert (0 < zlen l) by (destruct l; [done|zlia]). replace (zlen l) with (1 + (zlen l - 1)) in Hc by lia. rewrite Z.pow_add_r, Z.pow_1_r in Hc by lia. nia.
  - rewrite Nat2Z.inj_succ, Z.pow_succ_r in Hf by lia. nia.
Qed.

Lemma numeral_unique radix l : 2 <= radix -> in_radix radix l -> l <> [] -> radix ^ (zlen l - 1) <= lval radix l -> numeral radix (lval radix l) = rev (map radix_char l).
Proof.
  intros Hr Hl Hne Hc. assert (0 < zlen l) as Hn by (destruct l; [done|zlia]). assert (0 < radix ^ (zlen l - 1)) by (apply Z.pow_pos_nonneg; lia). unfold numeral. rewrite (proj2 (Z.eqb_neq _ 0)) by lia. do 2 f_equal. apply lsb_digits_unique; [done..|].
  rewrite Nat2Z.inj_succ, Z2Nat.id by apply Z.log2_nonneg. apply Z.log2_spec. lia.
Qed.

(** ** Digits and their powers *)
Section print.
Context `{DigitConfig}.
Local Abbreviation B := (2 ^ digitBits).

Lemma digitPow_loop_spec fuel result base e :
  is_digit result -> 0 <= e < 2 ^ Z.of_nat fuel -> exists r, digitPow_loop (S fuel) result base e = Ok r /\ is_digit r /\ r = (result * base ^ e) mod B.
Proof.
  revert result base e. induction fuel as [|fuel IH]; intros result base e Dr He.
  { cbn in He. assert (e = 0) as -> by lia. exists result. cbn. split; [done|]. split; [done|]. rewrite Z.mul_1_r. symmetry. by apply Z.mod_small. }
  destruct (0 <? e) eqn:E; bool_prop.
  2:{ assert (e = 0) as -> by lia. exists result. cbn. split; [done|]. split; [done|]. rewrite Z.mul_1_r. symmetry. by apply Z.mod_small. }
  remember (S fuel) as f. cbn [digitPow_loop]. rewrite Z_ltb_true by lia. subst f. rewrite Z.shiftr_div_pow2 by lia. change (2 ^ 1) with 2. rewrite Nat2Z.inj_succ, Z.pow_succ_r in He by lia. change 1 with (Z.ones 1) at 1. rewrite Z.land_ones by lia. change (2 ^ 1) with 2. pose proof B_pos as HB.
  set (result' := if negb (e mod 2 =? 0) then Digit (result * base) else result).
  destruct (IH result' (Digit (base * base)) (e / 2)) as (r & -> & Dr' & ->); [unfold result'; destruct (negb _); [apply Digit_is_digit|done]|Z.to_euclidean_division_equations; lia|].
  eexists. split; [done|]. split; [done|]. unfold Digit. rewrite Zmult_mod, Z.mod_pow_l, <- Zmult_mod. rewrite <- Z.pow_2_r, <- Z.pow_mul_r by (Z.to_euclidean_division_equations; lia).
  unfold result', Digit. pose proof (Z.div_mod e 2 ltac:(lia)) as Ee. pose proof (Z.mod_pos_bound e 2 ltac:(lia)) as Hm. destruct (e mod 2 =? 0) eqn:E2; bool_prop; cbn [negb].
  - rewrite Z.add_0_r in Ee || rewrite E2, Z.add_0_r in Ee. by rewrite <- Ee.
  - rewrite Zmult_mod_idemp_l. f_equal. rewrite <- Z.mul_assoc. f_equal. rewrite <- (Z.pow_1_r base) at 1. rewrite <- Z.pow_add_r by (Z.to_euclidean_division_equations; lia). f_equal. lia.
Qed.

Lemma digitPow_spec base e : 0 <= e < B -> 0 <= base ^ e < B -> digitPow base e = Ok (base ^ e).
Proof.
  intros He Hp. unfold digitPow. pose proof digitBits_pos. destruct (digitPow_loop_spec (Z.to_nat digitBits) 1 base e) as (r & -> & _ & ->); [apply is_digit_1|by rewrite Z2Nat.id by lia|]. f_equal. rewrite Z.mul_1_l. by apply Z.mod_small.
Qed.

(** A chunk of characters fits a digit. *)
Definition chunk_ok (radix bits : Z) : bool :=
  hasOneBitSet radix || match maxBitsPerChar radix with Ok b => let c := bits * bitsPerCharTableMultiplier / b in (1 <=? c) && (c <=? bits) && (radix ^ c <? 2 ^ bits) | _ => false end.
Lemma chunk_all : forallb (fun r => chunk_ok r 32 && chunk_ok r 64) (seqZ 2 35) = true.
Proof. vm_compute. reflexivity. Qed.

Lemma chunk_fits radix b :
  2 <= radix <= 36 -> hasOneBitSet radix = false -> maxBitsPerChar radix = Ok b ->
  let c := digitBits * bitsPerCharTableMultiplier / b in 1 <= c <= digitBits /\ radix ^ c < B.
Proof.
  intros Hr Ho Eb c. pose proof (forallb_seqZ _ 2 35 radix chunk_all ltac:(lia)) as H1. apply andb_true_iff in H1 as [H1 H2]. unfold chunk_ok in H1, H2. rewrite Ho, Eb in H1, H2. cbn [orb] in *. fold c in H1, H2 || idtac.
  unfold c. destruct digitBits_ok as [-> | ->]; [clear H2; rename H1 into H2|]; cbn zeta in H2; apply andb_true_iff in H2 as [H2 H3]; apply andb_true_iff in H2 as [H2 H4]; bool_prop; lia.
Qed.

(** The characters of a number below a power of the radix. *)
Lemma chunk_loop_spec radix n chunk out ds :
  2 <= radix <= 36 -> 0 <= n -> 0 <= chunk < radix ^ n -> out = map radix_char ds -> in_radix radix ds ->
  exists ds', chunk_loop radix n chunk out = Ok (map radix_char (ds ++ ds'), 0) /\ in_radix radix (ds ++ ds') /\ zlen ds' = n /\ lval radix ds' = chunk.
Proof using Type.
  intros Hr Hn Hc -> Hds. unfold chunk_loop. name_for body.
  destruct (for_range_inv (fun i '(out, c) => exists ds', out = map radix_char (ds ++ ds') /\ in_radix radix (ds ++ ds') /\ zlen ds' = i /\ 0 <= c < radix ^ (n - i) /\ lval radix ds' + radix ^ i * c = chunk) 0 n body (map radix_char ds, chunk)) as ([out c] & -> & ds' & -> & Hi & Hl & Hb & Hv); [done| | |].
  - exists []. rewrite app_nil_r, Z.sub_0_r, Z.pow_0_r. cbn [lval]. repeat (split; [done|]). lia.
  - intros i [out c] Hi (ds' & -> & Hin & Hl & Hb & Hv). unfold body. pose proof (Z.mod_pos_bound c radix ltac:(lia)) as Hm. rewrite radixDigit_ok by lia. cbn [mbind res_bind]. eexists. split; [done|].
    exists (ds' ++ [c mod radix]). rewrite app_assoc, (map_app _ (ds ++ ds')). split; [done|]. split; [apply Forall_app_2; [done|by repeat constructor; lia]|]. split; [rewrite zlen_app; change (zlen [c mod radix]) with 1; lia|].
    rewrite lval_app. cbn [lval]. rewrite Hl, Z.pow_add_r, Z.pow_1_r by lia. pose proof (Z.div_mod c radix ltac:(lia)). replace (n - i) with (1 + (n - (i + 1))) in Hb by lia. rewrite Z.pow_add_r, Z.pow_1_r in Hb by lia.
    split; [split; [apply Z.div_pos; lia|apply Z.div_lt_upper_bound; lia]|]. nia.
  - rewrite Z.sub_diag, Z.pow_0_r in Hb. assert (c = 0) as -> by lia. exists ds'. repeat (split; [done|]). lia.
Qed.

(** The top digit of a value. *)
Lemma dig_top l n : digits_ok l -> 0 <= n < zlen l -> val l < B ^ (n + 1) -> dig l n = val l / B ^ n.
Proof.
  intros Dl Hn Hv. pose proof (low_bound l n Dl ltac:(lia)) as Hl. pose proof (pow_B_pos n ltac:(lia)) as Hp. pose proof B_pos as HB. rewrite (low_high l n) in Hv |- * by lia. rewrite high_succ in Hv |- * by lia.
  pose proof (high_nonneg l (n + 1) Dl) as Hh. pose proof (dig_ok l n Dl) as Hd. unfold is_digit in Hd. rewrite pow_B_succ in Hv by lia. assert (high l (n + 1) = 0) as -> by (destruct (Z.eq_dec (high l (n + 1)) 0); [done|exfalso; nia]).
  rewrite Z.mul_comm, Z.div_add, Z.div_small by lia. lia.
Qed.

(** A value with its top digit at [n] has, divided by less than [B], its top digit at [n] or [n - 1]. *)
Lemma rest_loop_spec radix cc fuel x q n mode ds V :
  2 <= radix <= 36 -> 1 <= cc -> radix ^ cc < B -> mode <> NoQuotient ->
  digits_ok (digits x) -> m_length x <= maxLength -> 0 < n < m_length x -> B ^ n <= val (digits x) < B ^ (n + 1) -> val (digits x) < 2 ^ q -> 0 <= q < Z.of_nat fuel ->
  in_radix radix ds -> V = lval radix ds + radix ^ zlen ds * val (digits x) ->
  exists rest ds', rest_loop fuel radix cc (radix ^ cc) x mode n (map radix_char ds) = Ok (rest, map radix_char ds') /\ in_radix radix ds' /\ 0 < m_length rest /\
    is_digit (dig (digits rest) 0) /\ 0 < dig (digits rest) 0 /\ V = lval radix ds' + radix ^ zlen ds' * dig (digits rest) 0.
Proof.
  intros Hr Hcc Hcd. assert (2 <= radix ^ cc) as H2 by (apply Z.le_trans with (radix ^ 1); [rewrite Z.pow_1_r; lia|apply Z.pow_le_mono_r; lia]). pose proof B_pos as HB. assert (is_digit (radix ^ cc)) as Dcd by (unfold is_digit; lia).
  revert x q n mode ds. induction fuel as [|fuel IH]; intros x q n mode ds Hm Dx Lx Hn Hv Hq Hf Hds HV; [lia|]. cbn [rest_loop].
  destruct (absoluteDivWithDigitDivisor_spec x (radix ^ cc) mode Dx) as (q0 & -> & Hq0); [intros E; unfold m_length in Hn; rewrite E in Hn; change (zlen []) with 0 in Hn; lia|done|done|lia|].
  assert (exists q', q0 = Some q' /\ arr (sign q') (m_length x) q' /\ val (digits q') = val (digits x) / radix ^ cc) as (rest & -> & Ar & Hrv) by (by destruct mode). clear Hq0. cbn [mbind res_bind deref].
  destruct (chunk_loop_spec radix cc (val (digits x) mod radix ^ cc) (map radix_char ds) ds Hr ltac:(lia) (Z.mod_pos_bound (val (digits x)) (radix ^ cc) ltac:(lia)) eq_refl Hds) as (ds' & -> & Hin & Hl & Hc). cbn [mbind res_bind Z.eqb ASSERT].
  pose proof (arr_digits _ _ _ Ar) as Drest. pose proof (arr_zlen _ _ _ Ar) as Lrest. pose proof (arr_length _ _ _ Ar) as Mrest. pose proof (Z.div_mod (val (digits x)) (radix ^ cc) ltac:(lia)) as Edm.
  assert (V = lval radix (ds ++ ds') + radix ^ zlen (ds ++ ds') * val (digits rest)) as HV'. { pose proof (zlen_nonneg ds). rewrite zlen_app, lval_app, Hl, Hc, Hrv, Z.pow_add_r by lia. rewrite HV. rewrite Edm at 1. ring. }
  assert (0 <= val (digits x)) as Hv0 by (pose proof (pow_B_pos n ltac:(lia)); lia).
  assert (val (digits rest) < B ^ (n + 1)) as Hup by (rewrite Hrv; eapply Z.le_lt_trans; [apply Z.div_le_upper_bound with (q := val (digits x)); nia|apply Hv]).
  assert (B ^ (n - 1) <= val (digits rest)) as Hlow. { rewrite Hrv. apply Z.div_le_lower_bound; [lia|]. replace n with (n - 1 + 1) in Hv by lia. rewrite pow_B_succ in Hv by lia. pose proof (pow_B_pos (n - 1) ltac:(lia)). nia. }
  assert (val (digits rest) < 2 ^ (q - 1) /\ 1 <= q) as [Hq' Hq1]. { assert (0 < q) as Hq1. { destruct (Z.eq_dec q 0) as [->|]; [|lia]. rewrite Z.pow_0_r in Hq. pose proof (pow_B_pos n ltac:(lia)). lia. } split; [|lia]. rewrite Hrv. apply Z.div_lt_upper_bound; [lia|]. replace q with (1 + (q - 1)) in Hq by lia. rewrite Z.pow_add_r, Z.pow_1_r in Hq by lia. assert (0 < 2 ^ (q - 1)) by (apply Z.pow_pos_nonneg; lia). nia. }
  rewrite (proj1 (arr_get _ _ _ n Ar ltac:(lia))). cbn [mbind res_bind]. pose proof (dig_top (digits rest) n Drest ltac:(lia) Hup) as Etop. pose proof (pow_B_pos n ltac:(lia)) as Hpn.
  set (n' := if dig (digits rest) n =? 0 then n - 1 else n). assert (0 <= n' <= n /\ B ^ n' <= val (digits rest) < B ^ (n' + 1)) as [Hn' Hv'].
  { unfold n'. destruct (dig (digits rest) n =? 0) eqn:E; bool_prop; (split; [lia|]); (split; [|replace (n - 1 + 1) with n by lia || idtac; try done]); [done| |].
    - rewrite E in Etop. pose proof (Z.mul_succ_div_gt (val (digits rest)) (B ^ n) Hpn) as Hg. rewrite <- Etop in Hg. lia.
    - pose proof (Z.mul_div_le (val (digits rest)) (B ^ n) Hpn) as Hml. rewrite <- Etop in Hml. pose proof (dig_ok (digits rest) n Drest) as Hd. unfold is_digit in Hd. nia. }
  rewrite (proj1 (arr_get _ _ _ n' Ar ltac:(lia))). cbn [mbind res_bind]. pose proof (dig_top (digits rest) n' Drest ltac:(lia) (proj2 Hv')) as Etop'. pose proof (pow_B_pos n' ltac:(lia)) as Hpn'.
  assert (0 < dig (digits rest) n') as Hpos by (rewrite Etop'; apply Z.div_str_pos; lia). rewrite (proj2 (Z.eqb_neq _ 0)) by lia. cbn [negb ASSERT mbind res_bind].
  destruct (0 <? n') eqn:E0; bool_prop.
  - apply (IH rest (q - 1) n' InPlace (ds ++ ds')); [done|done|lia|lia|done|done|lia|done|done].
  - assert (n' = 0) as En by lia. rewrite En in *. rewrite Z.pow_0_r, Z.div_1_r in Etop'. exists rest, (ds ++ ds'). split; [done|]. split; [done|]. split; [lia|]. split; [by apply dig_ok|]. split; [done|]. by rewrite Etop'.
Qed.

Lemma last_digit_loop_spec radix fuel d ds :
  2 <= radix <= 36 -> 0 < d < 2 ^ Z.of_nat fuel -> in_radix radix ds ->
  exists ds', last_digit_loop fuel radix d (map radix_char ds) = Ok (map radix_char ds') /\ in_radix radix ds' /\ ds' <> [] /\
    lval radix ds' = lval radix ds + radix ^ zlen ds * d /\ radix ^ (zlen ds' - 1) <= lval radix ds'.
Proof using Type.
  intros Hr. revert d ds. induction fuel as [|fuel IH]; intros d ds Hd Hds; [cbn in Hd; lia|]. cbn [last_digit_loop]. pose proof (Z.mod_pos_bound d radix ltac:(lia)) as Hm. pose proof (Z.div_mod d radix ltac:(lia)) as Ed.
  rewrite radixDigit_ok by lia. cbn [mbind res_bind]. change [radix_char (d mod radix)] with (map radix_char [d mod radix]). rewrite <- map_app. assert (in_radix radix (ds ++ [d mod radix])) as Hin by (apply Forall_app_2; [done|by repeat constructor; lia]).
  assert (lval radix (ds ++ [d mod radix]) = lval radix ds + radix ^ zlen ds * (d mod radix)) as Ev by (rewrite lval_app; cbn [lval]; lia). assert (zlen (ds ++ [d mod radix]) = zlen ds + 1) as El by (rewrite zlen_app; done). pose proof (zlen_nonneg ds) as Hn. assert (0 < radix ^ zlen ds) as Hp by (apply Z.pow_pos_nonneg; lia).
  destruct (0 <? d / radix) eqn:E; bool_prop.
  - rewrite Nat2Z.inj_succ, Z.pow_succ_r in Hd by lia. destruct (IH (d / radix) (ds ++ [d mod radix])) as (ds' & -> & H1 & H2 & H3 & H4); [split; [lia|apply Z.div_lt_upper_bound; nia]|done|]. exists ds'. split; [done|]. split; [done|]. split; [done|]. split; [|done].
    rewrite H3, Ev, El, Z.pow_add_r, Z.pow_1_r by lia. rewrite Ed at 3. ring.
  - assert (d / radix = 0) as E0 by (assert (0 <= d / radix) by (apply Z.div_pos; lia); lia). rewrite E0, Z.mul_0_r, Z.add_0_l in Ed. exists (ds ++ [d mod radix]). split; [done|]. split; [done|]. split; [by destruct ds|]. rewrite El, Ev, <- Ed. split; [done|]. replace (zlen ds + 1 - 1) with (zlen ds) by lia.
    pose proof (lval_bound radix ds ltac:(lia) Hds). nia.
Qed.

(** The top character is not [0]: nothing is removed. *)
Lemma radix_char_nonzero d : 0 < d < 36 -> radix_char d <> 48.
Proof.
  intros Hd E. assert (forallb (fun d => negb (radix_char d =? 48)) (seqZ 1 35) = true) as H1 by (by vm_compute). pose proof (forallb_seqZ _ 1 35 d H1 ltac:(lia)) as H2. cbv beta in H2. by rewrite E in H2.
Qed.

Lemma lval_top radix ds : 2 <= radix -> in_radix radix ds -> ds <> [] -> radix ^ (zlen ds - 1) <= lval radix ds -> exists l d, ds = l ++ [d] /\ 0 < d < radix.
Proof.
  intros Hr Hds Hne Hv. destruct (exists_last Hne) as (l & d & ->). exists l, d. split; [done|]. apply Forall_app in Hds as [Hl Hd]. inversion Hd as [|? ? Hd' _]; subst. split; [|lia].
  rewrite lval_app, zlen_app in Hv. cbn [lval] in Hv. change (zlen [d]) with 1 in Hv. replace (zlen l + 1 - 1) with (zlen l) in Hv by lia. pose proof (lval_bound radix l ltac:(lia) Hl). destruct (Z.eq_dec d 0) as [->|]; lia.
Qed.

Lemma remove_leading_zeroes_none radix ds : 2 <= radix <= 36 -> in_radix radix ds -> ds <> [] -> radix ^ (zlen ds - 1) <= lval radix ds -> remove_leading_zeroes (map radix_char ds) = Ok (zlen (map radix_char ds)).
Proof using Type.
  intros Hr Hds Hne Hv. destruct (lval_top radix ds ltac:(lia) Hds Hne Hv) as (l & d & -> & Hd). unfold remove_leading_zeroes. remember (length (map radix_char (l ++ [d]))) as k. cbn [while]. destruct (1 <? _) eqn:E; [|done]. rewrite map_app. cbn [map].
  rewrite zlen_app. change (zlen [radix_char d]) with 1. rewrite zget_middle by lia. cbn [mbind res_bind]. rewrite (proj2 (Z.eqb_neq _ 48)) by (apply radix_char_nonzero; lia). done.
Qed.

(** ** The size of the text *)
Lemma bitLength_spec x : wf x -> digits x <> [] ->
  let bl := m_length x * digitBits - clz (dig (digits x) (m_length x - 1)) in 0 < bl <= digitBits * m_length x /\ 2 ^ (bl - 1) <= val (digits x) < 2 ^ bl.
Proof.
  intros Hx Hne bl. assert (0 < m_length x) as Hm by (unfold m_length; destruct (digits x); [done|zlia]). pose proof digitBits_pos as Hb. set (n := m_length x) in *. set (d := dig (digits x) (n - 1)) in *.
  pose proof (wf_digits _ Hx) as Dx. assert (is_digit d) as Dd by (by apply dig_ok). assert (d <> 0) as Hd by (apply (wf_trimmed _ Hx); [done|lia]). unfold bl. rewrite clz_spec by done. unfold is_digit in Dd. pose proof (Z.log2_spec d ltac:(lia)) as Hl. pose proof (Z.log2_nonneg d) as Hl0.
  assert (Z.log2 d < digitBits) as Hlb by (apply Z.log2_lt_pow2; lia). assert (val (digits x) = low (digits x) (n - 1) + d * B ^ (n - 1)) as Ev. { rewrite <- (low_all (digits x) n) by (unfold n, m_length; lia). replace n with (n - 1 + 1) at 1 by lia. rewrite low_succ by (unfold n, m_length in *; lia). done. }
  pose proof (low_bound (digits x) (n - 1) Dx ltac:(lia)) as Hlow. rewrite pow_B_bits in Ev, Hlow by lia. replace (n * digitBits - (digitBits - 1 - Z.log2 d) - 1) with (digitBits * (n - 1) + Z.log2 d) by lia. replace (n * digitBits - (digitBits - 1 - Z.log2 d)) with (digitBits * (n - 1) + Z.succ (Z.log2 d)) by lia.
  assert (0 <= digitBits * (n - 1)) as Hnn by (apply bits_nonneg; lia). rewrite !Z.pow_add_r by lia. assert (digitBits * n = digitBits * (n - 1) + digitBits) by ring. split; [lia|]. rewrite Ev. set (P := 2 ^ (digitBits * (n - 1))) in *. split; nia.
Qed.

(** A radix has between [b - 1] and [b] 32nds of a bit. *)
Lemma chars_bound radix b (ds : list Z) bl :
  2 <= radix -> 2 ^ (b - 1) <= radix ^ 32 -> 32 <= b -> 0 < bl -> radix ^ (zlen ds - 1) < 2 ^ bl -> 0 < zlen ds -> (b - 1) * (zlen ds - 1) < 32 * bl.
Proof.
  intros Hr Hb Hb' Hbl Hlt Hn. apply (Z.pow_lt_mono_r_iff 2); [lia|lia|]. rewrite Z.pow_mul_r by lia. apply Z.le_lt_trans with ((radix ^ 32) ^ (zlen ds - 1)).
  - apply Z.pow_le_mono_l. split; [apply Z.pow_nonneg; lia|done].
  - rewrite <- Z.pow_mul_r, (Z.mul_comm 32), Z.pow_mul_r by lia. rewrite (Z.mul_comm 32), (Z.pow_mul_r 2) by lia. apply Z.pow_lt_mono_l; [lia|]. split; [apply Z.pow_nonneg; lia|done].
Qed.

Lemma calculateMaximumCharactersRequired_spec x radix :
  2 <= radix <= 36 -> wf x -> digits x <> [] ->
  exists n, calculateMaximumCharactersRequired (m_length x) radix (dig (digits x) (m_length x - 1)) (sign x) = Ok n /\ n <= MaxLength /\
    (forall ds : list Z, ds <> [] -> radix ^ (zlen ds - 1) <= val (digits x) -> zlen ds <= n).
Proof.
  intros Hr Hx Hne. destruct (maxBitsPerChar_ok radix Hr) as (b & Eb & Hb1 & Hb2 & Hb3). unfold calculateMaximumCharactersRequired. rewrite Eb. cbn [mbind res_bind]. destruct (bitLength_spec x Hx Hne) as (Hbl & Hv). set (bl := m_length x * digitBits - clz _) in *.
  assert (bl <= 2 ^ 20) as Hbl20. { pose proof (wf_length _ Hx) as Hl. assert (digitBits * maxLength = 2 ^ 20) as Emax by (unfold maxLength; destruct digitBits_ok as [-> | ->]; done). pose proof digitBits_pos. assert (digitBits * m_length x <= digitBits * maxLength) by (apply Z.mul_le_mono_nonneg_l; lia). lia. }
  change bitsPerCharTableMultiplier with 32. unfold u8, u64. rewrite (Z.mod_small (b - 1)), (Z.mod_small (bl * 32)), (Z.mod_small (bl * 32 + _)) by lia. rewrite (proj2 (Z.eqb_neq _ 0)) by lia. set (n := (bl * 32 + (b - 1 - 1)) / (b - 1)).
  assert (bl * 32 <= (b - 1) * n <= bl * 32 + (b - 2)) as Hn by (unfold n; Z.to_euclidean_division_equations; lia). assert (0 <= n <= 2 ^ 21) as Hn' by nia. rewrite Z.mod_small by (destruct (sign x); cbn [Z.b2z]; lia). eexists. split; [done|]. split; [unfold MaxLength; destruct (sign x); cbn [Z.b2z]; lia|].
  intros ds Hds Hlt. assert (0 < zlen ds) by (destruct ds; [done|zlia]). pose proof (chars_bound radix b ds bl ltac:(lia) Hb2 ltac:(lia) ltac:(lia) ltac:(lia) ltac:(lia)) as Hc. destruct (sign x); cbn [Z.b2z]; nia.
Qed.

Definition sign_text (x : JSBigInt) : list Z := if sign x then [45] else [].

Lemma toStringGeneric_spec x radix :
  2 <= radix <= 36 -> hasOneBitSet radix = false -> wf x -> digits x <> [] -> toStringGeneric x radix = Ok (sign_text x ++ numeral radix (val (digits x))).
Proof.
  intros Hr Ho Hx Hne. unfold toStringGeneric. rewrite !Z_leb_true by lia. cbn [andb ASSERT mbind res_bind]. rewrite isZero_spec, bool_decide_eq_false_2 by done. cbn [negb ASSERT mbind res_bind].
  destruct (maxBitsPerChar_ok radix Hr) as (b & Eb & _). rewrite Eb. cbn [mbind res_bind]. assert (0 < m_length x) as Hm by (unfold m_length; destruct (digits x); [done|zlia]). rewrite (digit_dig x (m_length x - 1)) by lia. cbn [mbind res_bind].
  destruct (calculateMaximumCharactersRequired_spec x radix Hr Hx Hne) as (n & -> & Hn & Hfit). cbn [mbind res_bind]. rewrite Z_ltb_false by lia. pose proof (wf_digits _ Hx) as Dx. pose proof digitBits_pos as Hb. pose proof B_pos as HB.
  set (first := if m_length x =? 1 then _ else _). assert (exists d ds, first = Ok (d, map radix_char ds) /\ in_radix radix ds /\ is_digit d /\ 0 < d /\ val (digits x) = lval radix ds + radix ^ zlen ds * d) as (d & ds & -> & Hds & Dd & Hd & Hv).
  { unfold first. destruct (m_length x =? 1) eqn:E1; bool_prop.
    - rewrite digit_dig by lia. cbn [mbind res_bind]. exists (dig (digits x) 0), []. split; [done|]. split; [constructor|]. assert (val (digits x) = dig (digits x) 0) as Ev. { rewrite <- high_0, high_succ, high_all by (unfold m_length in *; lia). lia. }
      split; [by apply dig_ok|]. split; [pose proof (trimmed_bound _ Dx (wf_trimmed _ Hx) Hne) as Ht; unfold m_length in E1; rewrite E1, Z.pow_0_r in Ht; lia|]. cbn [lval]. change (zlen []) with 0. rewrite Z.pow_0_r. lia.
    - destruct (chunk_fits radix b Hr Ho Eb) as (Hc & Hcf). set (cc := digitBits * bitsPerCharTableMultiplier / b) in *. assert (0 < radix ^ cc) as Hcp by (apply Z.pow_pos_nonneg; lia). assert (digitBits < B) as HbB by (apply Z.pow_gt_lin_r; lia).
      rewrite digitPow_spec by lia. cbn [mbind res_bind]. rewrite (proj2 (Z.eqb_neq (radix ^ cc) 0)) by lia. cbn [negb ASSERT mbind res_bind]. rewrite (proj2 (Z.eqb_neq (dig (digits x) (m_length x - 1)) 0)) by (apply (wf_trimmed _ Hx); [done|lia]). cbn [negb ASSERT mbind res_bind].
      pose proof (val_bound _ Dx) as Hvb. change (zlen (digits x)) with (m_length x) in Hvb. pose proof (trimmed_bound _ Dx (wf_trimmed _ Hx) Hne) as Ht. change (zlen (digits x)) with (m_length x) in Ht.
      destruct (rest_loop_spec radix cc (S (Z.to_nat (m_length x * digitBits))) x (digitBits * m_length x) (m_length x - 1) NewQuotient [] (val (digits x))) as (rest & ds' & Er & H1 & H2 & H3 & H4 & H5);
        [done|lia|lia|done|done|apply (wf_length _ Hx)|lia|replace (m_length x - 1 + 1) with (m_length x) by lia; lia|rewrite <- pow_B_bits by lia; lia|pose proof (bits_nonneg (m_length x) ltac:(lia)); lia|constructor|cbn [lval]; change (zlen []) with 0; rewrite Z.pow_0_r; lia|].
      cbn [map] in Er. rewrite Er. cbn [mbind res_bind]. rewrite digit_dig by lia. cbn [mbind res_bind]. by exists (dig (digits rest) 0), ds'. }
  cbn [mbind res_bind]. destruct (last_digit_loop_spec radix (S (Z.to_nat digitBits)) d ds Hr) as (ds' & -> & H1 & H2 & H3 & H4); [split; [done|]; unfold is_digit in Dd; rewrite Nat2Z.inj_succ, Z2Nat.id, Z.pow_succ_r by lia; lia|done|].
  cbn [mbind res_bind]. rewrite <- H3 in Hv. assert (zlen (map radix_char ds') = zlen ds') as El by (unfold zlen; by rewrite length_map). assert (0 < zlen ds') by (destruct ds'; [done|zlia]). rewrite El, Z_ltb_true by lia. cbn [ASSERT mbind res_bind]. rewrite Z_leb_true by (apply Hfit; [done|lia]). cbn [ASSERT mbind res_bind].
  rewrite (remove_leading_zeroes_none radix) by done. cbn [mbind res_bind]. rewrite take_ge by (unfold zlen; lia). rewrite Hv, (numeral_unique radix ds') by (done || lia). unfold sign_text. destruct (sign x); [by rewrite rev_unit|done].
Qed.
End print.

(** ** The text of a big integer in a radix that is a power of two *)

Section print_bits.
Context `{DigitConfig}.
Local Abbreviation B := (2 ^ digitBits).

Definition radix_bits_ok (radix : Z) : bool := negb (hasOneBitSet radix) || ((radix =? 2 ^ ctz radix) && (1 <=? ctz radix) && (ctz radix <=? 5)).
Lemma radix_bits_all : forallb radix_bits_ok (seqZ 2 35) = true.
Proof. vm_compute. reflexivity. Qed.

Lemma radix_bits radix : 2 <= radix <= 36 -> hasOneBitSet radix = true -> radix = 2 ^ ctz radix /\ 1 <= ctz radix <= 5.
Proof.
  intros Hr Ho. pose proof (forallb_seqZ _ 2 35 radix radix_bits_all ltac:(lia)) as H1. unfold radix_bits_ok in H1. rewrite Ho in H1. cbn [negb orb] in H1. apply andb_true_iff in H1 as [H1 H3]. apply andb_true_iff in H1 as [H1 H2]. apply Z.eqb_eq in H1. bool_prop. lia.
Qed.

(** The characters [ds] stand at the end of the text, after position [pos]. *)
Definition written (N : Z) (s : list Z) (pos : Z) (ds : list Z) : Prop :=
  zlen s = N /\ pos = N - 1 - zlen ds /\ drop (Z.to_nat (pos + 1)) s = rev (map radix_char ds).

Lemma setChar_upd s pos c : 0 <= pos < zlen s -> setChar s pos c = Ok (upd s pos c).
Proof. intros Hp. unfold setChar, zset. rewrite Z_leb_true, Z_ltb_true by (unfold zlen in *; lia). done. Qed.

Lemma drop_upd_eq s pos c : 0 <= pos < zlen s -> drop (Z.to_nat pos) (upd s pos c) = c :: drop (Z.to_nat (pos + 1)) s.
Proof. intros Hp. rewrite drop_dig by (rewrite zlen_upd; lia). rewrite dig_upd_eq, drop_upd by lia. done. Qed.

Lemma put_digit_spec N s pos ds d : written N s pos ds -> 0 <= pos -> 0 <= d < 36 -> exists s', put_digit s pos d = Ok (s', pos - 1) /\ written N s' (pos - 1) (ds ++ [d]).
Proof using Type.
  intros (Hs & Hp & Hd) Hpos Hd36. pose proof (zlen_nonneg ds) as Hn. unfold put_digit. rewrite radixDigit_ok by done. cbn [mbind res_bind]. rewrite setChar_upd by lia. cbn [mbind res_bind]. eexists. split; [done|].
  split; [by rewrite zlen_upd|]. split; [rewrite zlen_app; change (zlen [d]) with 1; lia|]. replace (pos - 1 + 1) with pos by lia. rewrite drop_upd_eq by lia. rewrite map_app, rev_app_distr, Hd. done.
Qed.

Section radix.
Context (radix b : Z) (Hradix : radix = 2 ^ b) (Hb : 1 <= b <= 5).

(** [ds] are written, and [digit] holds the bits that are left of [V]. *)
Definition emitted (N V : Z) (st : list Z * Z * Z) : Prop :=
  exists ds, let '(s, pos, digit) := st in
    written N s pos ds /\ in_radix radix ds /\ 0 <= digit /\ lval radix ds + radix ^ zlen ds * digit = V.

Lemma radix_range : 2 <= radix <= 32.
Proof using Hradix Hb.
  rewrite Hradix. assert (b = 1 \/ b = 2 \/ b = 3 \/ b = 4 \/ b = 5) as [-> | [-> | [-> | [-> | ->]]]] by lia; lia.
Qed.

Lemma mask_mod x : Z.land x (radix - 1) = x mod radix.
Proof using Hradix Hb. rewrite Hradix. replace (2 ^ b - 1) with (Z.ones b) by (rewrite Z.ones_equiv; lia). apply Z.land_ones. lia. Qed.

Lemma shift_div x : Z.shiftr x b = x / radix.
Proof using Hradix Hb. rewrite Hradix. apply Z.shiftr_div_pow2. lia. Qed.

(** One character is taken off [digit]. *)
Lemma emit_step N V s pos digit :
  emitted N V (s, pos, digit) -> 0 <= pos -> exists s', put_digit s pos (digit mod radix) = Ok (s', pos - 1) /\ emitted N V (s', pos - 1, digit / radix).
Proof using Hradix Hb.
  intros (ds & Hw & Hin & Hd & Hv) Hpos. pose proof radix_range as Hr. pose proof (Z.mod_pos_bound digit radix ltac:(lia)) as Hm. destruct (put_digit_spec N s pos ds (digit mod radix) Hw Hpos ltac:(lia)) as (s' & -> & Hw').
  exists s'. split; [done|]. exists (ds ++ [digit mod radix]). split; [done|]. split; [apply Forall_app_2; [done|by repeat constructor; lia]|]. split; [apply Z.div_pos; lia|].
  pose proof (zlen_nonneg ds) as Hn. rewrite lval_app, zlen_app. cbn [lval]. change (zlen [digit mod radix]) with 1. rewrite Z.pow_add_r, Z.pow_1_r by lia. rewrite <- Hv. rewrite (Z.div_mod digit radix) at 3 by lia. ring.
Qed.

(** A digit of the number joins the bits that are left. *)
Lemma join_mod digit a d : 0 <= a < b -> 0 <= digit < 2 ^ a -> is_digit d -> Z.lor digit (Digit (Z.shiftl d a)) mod radix = (digit + 2 ^ a * d) mod radix.
Proof using Hradix Hb.
  intros Ha Hd Dd. assert (b <= digitBits) as Hbits by (destruct digitBits_ok as [-> | ->]; lia). assert (0 < 2 ^ a) by (apply Z.pow_pos_nonneg; lia). assert (0 < 2 ^ (digitBits - a)) by (apply Z.pow_pos_nonneg; lia).
  assert (B = 2 ^ a * 2 ^ (digitBits - a)) as EB by (rewrite <- Z.pow_add_r by lia; f_equal; lia). assert (Digit (Z.shiftl d a) = Z.shiftl (d mod 2 ^ (digitBits - a)) a) as ->.
  { unfold Digit. rewrite !Z.shiftl_mul_pow2 by lia. rewrite EB, (Z.mul_comm d), Z.mul_mod_distr_l by lia. lia. }
  rewrite Z_lor_above by lia. assert (radix = 2 ^ a * 2 ^ (b - a)) as Er by (rewrite Hradix, <- Z.pow_add_r by lia; f_equal; lia). assert (0 < 2 ^ (b - a)) by (apply Z.pow_pos_nonneg; lia).
  assert (2 ^ (digitBits - a) = 2 ^ (b - a) * 2 ^ (digitBits - b)) as Ed by (rewrite <- Z.pow_add_r by lia; f_equal; lia). rewrite (Z.mod_eq d) by lia. set (q := d / 2 ^ (digitBits - a)). rewrite Ed, Er.
  replace (digit + (d - 2 ^ (b - a) * 2 ^ (digitBits - b) * q) * 2 ^ a) with (digit + 2 ^ a * d + (- (2 ^ (digitBits - b) * q)) * (2 ^ a * 2 ^ (b - a))) by ring.
  apply Z_mod_plus_full.
Qed.

Lemma join_div digit a d : 0 <= a < b -> 0 <= digit < 2 ^ a -> (digit + 2 ^ a * d) / radix = Z.shiftr d (b - a).
Proof using Hradix Hb.
  intros Ha Hd. assert (0 < 2 ^ a) by (apply Z.pow_pos_nonneg; lia). rewrite Z.shiftr_div_pow2 by lia. assert (radix = 2 ^ a * 2 ^ (b - a)) as -> by (rewrite Hradix, <- Z.pow_add_r by lia; f_equal; lia). assert (0 < 2 ^ (b - a)) by (apply Z.pow_pos_nonneg; lia).
  rewrite <- Z.div_div by lia. f_equal. rewrite Z.add_comm, Z.mul_comm, Z.div_add_l, Z.div_small by lia. lia.
Qed.

Lemma emitted_join N V s pos digit a d k :
  emitted N V (s, pos, digit) -> 0 <= a -> 0 <= d -> (N - 1 - pos) * b + a = k -> emitted N (V + d * 2 ^ k) (s, pos, digit + 2 ^ a * d).
Proof using Hradix Hb.
  intros (ds & Hw & Hin & Hd & Hv) Ha Hdd Hk. exists ds. split; [done|]. split; [done|]. assert (0 < 2 ^ a) by (apply Z.pow_pos_nonneg; lia). split; [nia|]. destruct Hw as (_ & Hp & _). pose proof (zlen_nonneg ds) as Hn.
  assert (2 ^ k = radix ^ zlen ds * 2 ^ a) as ->; [|rewrite <- Hv; ring]. rewrite Hradix, <- Z.pow_mul_r, <- Z.pow_add_r by nia. f_equal. subst pos. lia.
Qed.

Lemma available_loop_spec N V T s pos digit a :
  emitted N V (s, pos, digit) -> 0 <= a <= digitBits -> digit < 2 ^ a -> (N - 1 - pos) * b + a = T -> T <= b * N ->
  exists s' pos' digit' a', available_loop b (radix - 1) s pos digit a = Ok (s', pos', digit', a') /\ emitted N V (s', pos', digit') /\
    0 <= a' < b /\ digit' < 2 ^ a' /\ (N - 1 - pos') * b + a' = T.
Proof using Hradix Hb.
  intros He Ha Hd HT HN. pose proof radix_range as Hr. unfold available_loop. name_while test body.
  destruct (while_inv (fun '(s, pos, digit, a) => emitted N V (s, pos, digit) /\ 0 <= a <= digitBits /\ digit < 2 ^ a /\ (N - 1 - pos) * b + a = T) (fun '(_, _, _, a) => a) (S (Z.to_nat digitBits)) test body (s, pos, digit, a))
    as ([[[s' pos'] digit'] a'] & -> & (He' & Ha' & Hd' & HT') & Ht); [done|lia| |].
  - intros [[[s1 p1] d1] a1] (He1 & Ha1 & Hd1 & HT1). unfold test. eexists. split; [done|]. intros E; bool_prop. unfold body. rewrite mask_mod. destruct (emit_step N V s1 p1 d1 He1 ltac:(nia)) as (s2 & -> & He2). cbn [mbind res_bind].
    eexists. split; [done|]. rewrite shift_div. split; [|lia]. split; [done|]. split; [lia|]. split; [|lia]. apply Z.div_lt_upper_bound; [lia|]. rewrite Hradix, <- Z.pow_add_r by lia. by replace (b + (a1 - b)) with a1 by lia.
  - unfold test in Ht. injection Ht as Ht. bool_prop. exists s', pos', digit', a'. split; [done|]. split; [done|]. split; [lia|]. done.
Qed.

(** The characters of the digits below the top one. *)
Lemma low_digits_spec N x top s :
  digits_ok (digits x) -> 0 <= top < m_length x -> zlen s = N -> top * digitBits <= b * N ->
  exists s' pos digit a,
    low_digits_loop x b (radix - 1) top s (N - 1) = Ok (s', pos, digit, a) /\
    emitted N (low (digits x) top) (s', pos, digit) /\ 0 <= a < b /\ digit < 2 ^ a /\ (N - 1 - pos) * b + a = top * digitBits.
Proof using Hradix Hb.
  intros Dx Htop Hs HN. pose proof radix_range as Hr. pose proof digitBits_pos as Hdb. assert (b <= digitBits) as Hbits by (destruct digitBits_ok as [-> | ->]; lia). unfold low_digits_loop. name_for body.
  destruct (for_range_inv (fun i '(s, pos, digit, a) => emitted N (low (digits x) i) (s, pos, digit) /\ 0 <= a < b /\ digit < 2 ^ a /\ (N - 1 - pos) * b + a = i * digitBits) 0 top body (s, N - 1, 0, 0)) as ([[[s' pos] digit] a] & -> & Hinv); [lia| | |by exists s', pos, digit, a].
  - split; [|lia]. exists []. rewrite low_0. split; [|cbn [lval]; split; [constructor|lia]]. split; [done|]. split; [change (zlen []) with 0; lia|]. replace (N - 1 + 1) with N by lia. cbn [map rev]. apply drop_ge. unfold zlen in Hs. lia.
  - intros i [[[s1 p1] d1] a1] Hi (He & Ha & Hd & HT). assert (0 <= d1) as Hd0 by (destruct He as (? & _ & _ & ? & _); done). unfold body. rewrite digit_dig by lia. cbn [mbind res_bind]. cbv zeta. set (nd := dig (digits x) i). pose proof (dig_ok (digits x) i Dx) as Dnd. fold nd in Dnd.
    rewrite mask_mod, join_mod by (done || lia). pose proof (emitted_join N _ s1 p1 d1 a1 nd _ He ltac:(lia) ltac:(unfold is_digit in Dnd; lia) HT) as He1. assert (low (digits x) i + nd * 2 ^ (i * digitBits) = low (digits x) (i + 1)) as El.
    { rewrite low_succ by (unfold m_length in *; lia). rewrite pow_B_bits by lia. by rewrite (Z.mul_comm digitBits). }
    rewrite El in He1. assert (i * digitBits + digitBits <= top * digitBits) as Hit by nia. destruct (emit_step N _ s1 p1 (d1 + 2 ^ a1 * nd) He1 ltac:(nia)) as (s2 & -> & He2). cbn [mbind res_bind]. rewrite join_div in He2 by lia.
    destruct (available_loop_spec N _ ((i + 1) * digitBits) s2 (p1 - 1) (Z.shiftr nd (b - a1)) (digitBits - (b - a1)) He2) as (s' & pos' & digit' & a' & -> & H1 & H2 & H3 & H4); [lia| |lia|nia|].
    + rewrite Z.shiftr_div_pow2 by lia. apply Z.div_lt_upper_bound; [apply Z.pow_pos_nonneg; lia|]. rewrite <- Z.pow_add_r by lia. replace (b - a1 + (digitBits - (b - a1))) with digitBits by lia. apply Dnd.
    + by eexists.
Qed.

(** What is left of the top digit. *)
Lemma top_digit_spec N Nd sg V bl s pos digit :
  emitted N V (s, pos, digit) -> N = Nd + sg -> 0 <= sg -> 0 < bl -> 2 ^ (bl - 1) <= V < 2 ^ bl -> Nd = (bl + b - 1) / b -> sg - 1 <= pos -> digit < 2 ^ digitBits ->
  exists s' ds,
    top_digit_loop b (radix - 1) s pos digit = Ok (s', sg - 1, 0) /\
    written N s' (sg - 1) ds /\ in_radix radix ds /\ zlen ds = Nd /\ lval radix ds = V /\ radix ^ (zlen ds - 1) <= V.
Proof using Hradix Hb.
  intros He HN Hsg Hbl HV HNd Hpos Hd. pose proof radix_range as Hr. pose proof digitBits_pos as Hdb. assert (bl <= b * Nd < bl + b) as HNd' by (rewrite HNd; Z.to_euclidean_division_equations; lia). unfold top_digit_loop. name_while test body.
  destruct (while_inv (fun '(s, pos, digit) => emitted N V (s, pos, digit) /\ sg - 1 <= pos) (fun '(_, _, digit) => Z.log2 (2 * digit + 1)) (S (Z.to_nat digitBits)) test body (s, pos, digit)) as ([[s' pos'] digit'] & -> & ((ds & Hw & Hin & Hd' & Hv) & Hpos') & Ht); [done| | |].
  - assert (0 <= digit) by (destruct He as (? & _ & _ & ? & _); done). split; [apply Z.log2_nonneg|]. rewrite Nat2Z.inj_succ, Z2Nat.id by lia. apply Z.log2_lt_pow2; [lia|]. rewrite Z.pow_succ_r by lia. lia.
  - intros [[s1 p1] d1] [He1 Hp1]. unfold test. eexists. split; [done|]. intros E; bool_prop. unfold body. rewrite mask_mod, shift_div. assert (0 < d1) as Hd1 by (destruct He1 as (? & _ & _ & ? & _); lia).
    assert (sg <= p1) as Hp0.
    { destruct He1 as (ds & (_ & Ep & _) & Hin & _ & Hv). pose proof (lval_bound radix ds ltac:(lia) Hin) as Hlb. pose proof (zlen_nonneg ds) as Hn. assert (0 < radix ^ zlen ds) by (apply Z.pow_pos_nonneg; lia). assert (radix ^ zlen ds < 2 ^ bl) as Hlt by nia.
      rewrite Hradix, <- Z.pow_mul_r in Hlt by lia. apply Z.pow_lt_mono_r_iff in Hlt; [|lia|lia]. nia. }
    destruct (emit_step N V s1 p1 d1 He1 ltac:(lia)) as (s2 & -> & He2). cbn [mbind res_bind]. eexists. split; [done|]. split; [split; [done|lia]|]. split; [apply Z.log2_nonneg|].
    assert (0 <= d1 / radix) as Hq by (apply Z.div_pos; lia). rewrite (Z.log2_succ_double d1) by lia. destruct (Z.eq_dec (d1 / radix) 0) as [->|Hne]; [pose proof (Z.log2_nonneg d1); change (Z.log2 (2 * 0 + 1)) with 0; lia|]. rewrite Z.log2_succ_double by lia.
    assert (2 * (d1 / radix) <= d1) as Hle by (pose proof (Z.mul_div_le d1 radix ltac:(lia)); nia). apply Z.log2_le_mono in Hle. rewrite Z.log2_double in Hle by lia. lia.
  - unfold test in Ht. injection Ht as Ht. bool_prop. subst digit'. rewrite Z.mul_0_r, Z.add_0_r in Hv. pose proof (lval_bound radix ds ltac:(lia) Hin) as Hlb. pose proof (zlen_nonneg ds) as Hn. assert (zlen ds = Nd) as El.
    { destruct Hw as (_ & Ep & _). assert (2 ^ (bl - 1) < radix ^ zlen ds) as Hlt by lia. rewrite Hradix, <- Z.pow_mul_r in Hlt by lia. apply Z.pow_lt_mono_r_iff in Hlt; [|lia|nia]. nia. }
    assert (pos' = sg - 1) as -> by (destruct Hw as (_ & Ep & _); lia). exists s', ds. split; [done|]. split; [done|]. split; [done|]. split; [done|]. split; [done|]. rewrite El. eapply Z.le_trans; [|apply HV]. rewrite Hradix, <- Z.pow_mul_r by nia. apply Z.pow_le_mono_r; nia.
Qed.
End radix.

Lemma toStringBasePowerOfTwo_spec x radix :
  2 <= radix <= 36 -> hasOneBitSet radix = true -> wf x -> digits x <> [] -> toStringBasePowerOfTwo x radix = Ok (sign_text x ++ numeral radix (val (digits x))).
Proof.
  intros Hr Ho Hx Hne. destruct (radix_bits radix Hr Ho) as (Eradix & Hb). unfold toStringBasePowerOfTwo. pose proof (radix_range radix (ctz radix) Eradix Hb) as Hr'. rewrite Ho, !Z_leb_true by lia. cbn [andb ASSERT mbind res_bind]. rewrite isZero_spec, bool_decide_eq_false_2 by done. cbn [negb ASSERT mbind res_bind].
  assert (0 < m_length x) as Hm by (unfold m_length; destruct (digits x); [done|zlia]). rewrite (digit_dig x (m_length x - 1)) by lia. cbn [mbind res_bind]. destruct (bitLength_spec x Hx Hne) as (Hbl & HV). pose proof (wf_digits _ Hx) as Dx. set (msd := dig (digits x) (m_length x - 1)) in *.
  assert (is_digit msd) as Dm by (by apply dig_ok). assert (msd <> 0) as Hm0 by (apply (wf_trimmed _ Hx); [done|lia]). destruct (clz_normalizes msd Dm Hm0) as (Hclz & _ & _). pose proof digitBits_pos as Hdb.
  assert ((m_length x - 1) * digitBits < m_length x * digitBits - clz msd) as Hlast by lia. set (bl := m_length x * digitBits - clz msd) in *. set (b := ctz radix) in *. set (Nd := (bl + b - 1) / b). assert (bl <= b * Nd < bl + b) as HNd by (unfold Nd; Z.to_euclidean_division_equations; lia).
  assert (bl <= 2 ^ 20) as Hbl20. { pose proof (wf_length _ Hx) as Hl. assert (digitBits * maxLength = 2 ^ 20) as Emax by (unfold maxLength; destruct digitBits_ok as [-> | ->]; done). assert (digitBits * m_length x <= digitBits * maxLength) by (apply Z.mul_le_mono_nonneg_l; lia). lia. }
  set (sg := Z.b2z (sign x)). assert (0 <= sg <= 1) as Hsg by (unfold sg; destruct (sign x); cbn; lia). rewrite Z_ltb_false by (unfold MaxLength; nia). pose proof (fresh_chars_ok (Nd + sg) ltac:(nia)) as Hfc.
  destruct (low_digits_spec radix b Eradix Hb (Nd + sg) x (m_length x - 1) (fresh_chars (Nd + sg)) Dx ltac:(lia) Hfc ltac:(nia)) as (s1 & pos & dg & a & E & He & Ha & Hd & HT). rewrite E. clear E. cbn [mbind res_bind].
  assert (0 <= dg) as Hd0 by (destruct He as (? & _ & _ & ? & _); done). rewrite (mask_mod radix b Eradix Hb), (join_mod radix b Eradix Hb) by (done || lia). pose proof (emitted_join radix b Eradix Hb (Nd + sg) _ s1 pos dg a msd _ He ltac:(lia) ltac:(unfold is_digit in Dm; lia) HT) as He1.
  assert (low (digits x) (m_length x - 1) + msd * 2 ^ ((m_length x - 1) * digitBits) = val (digits x)) as El. { rewrite <- (low_all (digits x) (m_length x - 1 + 1)) by (unfold m_length; lia). rewrite low_succ by (unfold m_length in *; lia). rewrite pow_B_bits by lia. by rewrite (Z.mul_comm digitBits). }
  rewrite El in He1. assert (sg <= pos) as Hpos by nia. destruct (emit_step radix b Eradix Hb (Nd + sg) _ s1 pos (dg + 2 ^ a * msd) He1 ltac:(lia)) as (s2 & -> & He2). cbn [mbind res_bind]. rewrite (join_div radix b Eradix Hb) in He2 by lia.
  assert (Z.shiftr msd (b - a) < 2 ^ digitBits) as Hsm. { rewrite Z.shiftr_div_pow2 by lia. unfold is_digit in Dm. assert (0 < 2 ^ (b - a)) by (apply Z.pow_pos_nonneg; lia). eapply Z.le_lt_trans; [apply Z.div_le_upper_bound with (q := msd); nia|lia]. }
  destruct (top_digit_spec radix b Eradix Hb (Nd + sg) Nd sg (val (digits x)) bl s2 (pos - 1) _ He2 eq_refl ltac:(lia) ltac:(lia) HV eq_refl ltac:(lia) Hsm) as (s3 & ds & -> & (Hz & Hp & Hdrop) & Hin & Hl & Hv & Hcan). cbn [mbind res_bind].
  assert (ds <> []) as Hds by (intros ->; change (zlen []) with 0 in Hl; nia). rewrite <- Hv in Hcan |- *. rewrite (numeral_unique radix ds) by (done || lia). unfold sign_text, sg in *. destruct (sign x); cbn [Z.b2z] in *.
  - replace (1 - 1) with 0 in * by lia. rewrite setChar_upd by nia. cbn [mbind res_bind]. rewrite <- Hdrop. change (0 - 1 =? -1) with true. cbn [ASSERT mbind res_bind]. f_equal. cbn [app]. rewrite <- (drop_upd_eq s3 0 45) by nia. done.
  - change (0 - 1 =? -1) with true. cbn [ASSERT mbind res_bind]. rewrite <- Hdrop. done.
Qed.

(** ** Every radix *)
Definition text_of (radix z : Z) : list Z := (if z <? 0 then [45] else []) ++ numeral radix (Z.abs z).

Lemma toString_spec x radix : 2 <= radix <= 36 -> wf x -> toString x radix = Ok (text_of radix (value x)).
Proof.
  intros Hr Hx. unfold toString, text_of. destruct (isZero x) eqn:Ez; [by rewrite (proj1 (isZero_value x Hx) Ez)|]. rewrite isZero_spec in Ez. apply bool_decide_eq_false in Ez.
  assert (0 < m_length x) as Hm by (unfold m_length; destruct (digits x); [done|zlia]). pose proof (trimmed_bound _ (wf_digits _ Hx) (wf_trimmed _ Hx) Ez) as Ht. pose proof (pow_B_pos (zlen (digits x) - 1) ltac:(unfold m_length in Hm; lia)) as Hp.
  assert (sign_text x ++ numeral radix (val (digits x)) = (if value x <? 0 then [45] else []) ++ numeral radix (Z.abs (value x))) as <-.
  { unfold sign_text, value. destruct (sign x); [rewrite Z_ltb_true, Z.abs_opp|rewrite Z_ltb_false]; rewrite ?Z.abs_eq by lia; (done || lia). }
  destruct (hasOneBitSet radix) eqn:Eo; [by apply toStringBasePowerOfTwo_spec|by apply toStringGeneric_spec].
Qed.
End print_bits.
