(* ===== verification/BigIntRoundtrip.v ===== *)
(** * BigIntRoundtrip: the literals that are read, and the text of a number read back *)
From S2P Require Import Prelude Doubles BigInt BigIntFacts BigIntAdd BigIntDivide BigIntBitwise BigIntText BigIntParse BigIntPrint.
Local Open Scope Z_scope.

(** ** The grammar of literals *)
(** A prefix chooses the radix; its letter may be of either case. *)
Definition prefix_radix (text : list Z) : option (Z * list Z) :=
  match text with
  | 48 :: c :: rest =>
    if (c =? 66) || (c =? 98) then Some (2, rest)
    else if (c =? 88) || (c =? 120) then Some (16, rest)
    else if (c =? 79) || (c =? 111) then Some (8, rest)
    else None
  | _ => None
  end.

Lemma prefix_radix_none c text : c <> 48 -> prefix_radix (c :: text) = None.
Proof. intros Hc. unfold prefix_radix. repeat case_match; simplify_eq; done. Qed.

Lemma prefix_radix_short c : prefix_radix [c] = None.
Proof. unfold prefix_radix. repeat case_match; simplify_eq; done. Qed.

Definition signed (text : list Z) : ParseIntSign * list Z :=
  match text with 43 :: rest => (ParseUnsigned, rest) | 45 :: rest => (ParseSigned, rest) | _ => (ParseUnsigned, text) end.

Section roundtrip.
Context `{DigitConfig} (isSpaceSeparator : Z -> bool).
Local Abbreviation space := (isStrWhiteSpace isSpaceSeparator).
Local Abbreviation B := (2 ^ digitBits).

(** What [parseInt] makes of a string. *)
Definition literal_result (mode : ErrorParseMode) (data : list Z) (r : res (option JSBigInt)) : Prop :=
  let text := drop_while space data in
  match prefix_radix text with
  | Some (radix, []) => r = parse_failure true mode
  | Some (radix, rest) => parse_result true mode ParseUnsigned radix (significant space rest) r
  | None => let '(sg, rest) := signed text in parse_result true mode sg 10 (significant space rest) r
  end.

Lemma skip_spaces_left_spec data :
  exists p, skip_spaces_left isSpaceSeparator data (zlen data) = Ok p /\ 0 <= p <= zlen data /\ drop (Z.to_nat p) data = drop_while space data.
Proof using Type.
  unfold skip_spaces_left. pose proof (zlen_nonneg data) as Hn. name_while test body.
  destruct (while_inv (fun p => 0 <= p <= zlen data /\ drop_while space (drop (Z.to_nat p) data) = drop_while space data) (fun p => zlen data - p) (S (Z.to_nat (zlen data))) test body 0) as (p & -> & [Hp Hd] & Ht).
  - split; [lia|done].
  - lia.
  - intros p [Hp Hd]. unfold test. destruct (p <? zlen data) eqn:E; bool_prop; [|by exists false]. rewrite char_at_ok by lia. cbn [mbind res_bind]. eexists. split; [done|]. intros Hc. exists (p + 1). split; [done|]. split; [|lia].
    split; [lia|]. rewrite <- Hd, (drop_dig data p) by lia. cbn [drop_while]. by rewrite Hc.
  - exists p. split; [done|]. split; [done|]. rewrite <- Hd. unfold test in Ht. destruct (p <? zlen data) eqn:E; bool_prop.
    + rewrite char_at_ok in Ht by lia. cbn [mbind res_bind] in Ht. injection Ht as Ht. rewrite (drop_dig data p) by lia. cbn [drop_while]. by rewrite Ht.
    + rewrite drop_ge by (unfold zlen in *; lia). done.
Qed.

(** The letters of the prefixes, in either case. *)
Lemma caseless c e : e = 98 \/ e = 120 \/ e = 111 -> isASCIIAlphaCaselessEqual c e = (c =? e - 32) || (c =? e).
Proof.
  intros He. unfold isASCIIAlphaCaselessEqual. destruct (decide (0 <= c < 128)) as [Hc|Hc].
  - assert (forallb (fun c => forallb (fun e => Bool.eqb (Z.lor c 32 =? e) ((c =? e - 32) || (c =? e))) [98; 120; 111]) (seqZ 0 128) = true) as Hall by (by vm_compute).
    pose proof (forallb_seqZ _ 0 128 c Hall ltac:(lia)) as H1. rewrite forallb_forall in H1. apply eqb_prop, H1. cbn [In]. destruct He as [-> | [-> | ->]]; auto.
  - rewrite (proj2 (Z.eqb_neq c (e - 32))), (proj2 (Z.eqb_neq c e)) by lia. cbn [orb]. apply Z.eqb_neq. intros E. assert (0 <= c) as Hc0 by (apply (Z.lor_nonneg c 32); lia).
    assert (Z.log2 (Z.lor c 32) = Z.max (Z.log2 c) (Z.log2 32)) as El by (apply Z.log2_lor; lia). assert (7 <= Z.log2 c) by (apply Z.log2_le_pow2; lia). rewrite E in El. change (Z.log2 32) with 5 in El. destruct He as [-> | [-> | ->]]; cbn in El; lia.
Qed.

(** The sign that is set at the end is the one the number has. *)
Lemma parse_result_signed exec mode sg radix text r z : 2 <= radix <= 36 ->
  parse_result exec mode sg radix text r -> r = Ok (Some z) -> z = if negb (isZero z) then setSign z (match sg with ParseSigned => true | ParseUnsigned => false end) else z.
Proof.
  intros Hr Hp ->. unfold parse_result in Hp. destruct text as [|c cs] eqn:Et; [by injection Hp as ->|]. rewrite <- Et in *. destruct (too_long radix (zlen text)); [by destruct exec|]. destruct (digits_of radix text) as [ds|] eqn:Ed.
  2:{ unfold parse_failure in Hp. by destruct exec, mode. }
  destruct Hp as (z' & [= <-] & Hz & Vz). destruct (isZero z) eqn:Ez; [done|]. cbn [negb]. pose proof (digits_of_range radix text ds Hr Ed) as Hds.
  pose proof (number_from_bound radix ds 0 0 ltac:(lia) ltac:(lia) ltac:(rewrite Z.pow_0_r; lia) Hds) as Hb. assert (value z <> 0) as Hnz by (intros E; apply (isZero_value z Hz) in E; congruence).
  pose proof (value_sign z Hz) as Hs. destruct z as [s l]. unfold setSign. cbn [digits sign] in *. f_equal. destruct sg, s; [|done|done|]; lia.
Qed.

Lemma parseInt_string_spec data mode : zlen data < 2 ^ 31 -> literal_result mode data (parseInt_string isSpaceSeparator data mode).
Proof.
  intros Hlen. unfold parseInt_string. destruct (skip_spaces_left_spec data) as (p & -> & Hp & Hd). cbn [mbind res_bind]. unfold literal_result. rewrite <- Hd. clear Hd.
  assert (forall q radix sg, p + q <= zlen data -> 0 <= q -> 2 <= radix <= 36 -> forall rest, drop (Z.to_nat (p + q)) data = rest ->
    match rest with [] => parseInt_digits isSpaceSeparator true data (p + q) radix mode sg DisallowEmptyString = parse_failure true mode
    | _ => parse_result true mode sg radix (significant space rest) (parseInt_digits isSpaceSeparator true data (p + q) radix mode sg DisallowEmptyString) end) as Hpre.
  { intros q radix sg Hq Hq0 Hr rest Erest. pose proof (parseInt_digits_spec isSpaceSeparator true data (p + q) radix mode sg DisallowEmptyString Hr ltac:(lia) Hlen) as Hs. rewrite Erest in Hs. destruct rest as [|c rest].
    - apply (f_equal (@length Z)) in Erest. rewrite length_drop in Erest. cbn in Erest. rewrite (proj2 (Z.eqb_eq (p + q) (zlen data))) in Hs by (unfold zlen in *; lia). done.
    - rewrite (proj2 (Z.eqb_neq (p + q) (zlen data))) in Hs; [done|]. intros E. rewrite drop_ge in Erest by (unfold zlen in *; lia). done. }
  assert (forall q sg rest, p + q <= zlen data -> 0 <= q -> drop (Z.to_nat (p + q)) data = rest ->
    parse_result true mode sg 10 (significant space rest) (result ← parseInt_digits isSpaceSeparator true data (p + q) 10 mode sg AllowEmptyString;
      Ok (match result with Some r => Some (if negb (isZero r) then setSign r (match sg with ParseSigned => true | ParseUnsigned => false end) else r) | None => None end))) as Hdec.
  { intros q sg rest Hq Hq0 <-. pose proof (parseInt_digits_spec isSpaceSeparator true data (p + q) 10 mode sg AllowEmptyString ltac:(lia) ltac:(lia) Hlen) as Hs. cbv iota in Hs. destruct (parseInt_digits _ _ _ _ _ _ _ _) as [[z|]| |] eqn:E; cbn [mbind res_bind]; [|done..].
    by rewrite <- (parse_result_signed true mode sg 10 _ _ z ltac:(lia) Hs eq_refl). }
  destruct (drop (Z.to_nat p) data) as [|c0 t0] eqn:E0.
  { assert (p = zlen data) as Ep by (apply (f_equal (@length Z)) in E0; rewrite length_drop in E0; cbn in E0; unfold zlen in *; lia). rewrite Z_ltb_false by lia. cbn [mbind res_bind andb]. rewrite Z_ltb_false by lia. cbn [mbind res_bind prefix_radix signed].
    specialize (Hdec 0 ParseUnsigned [] ltac:(lia) ltac:(lia)). rewrite Z.add_0_r in Hdec. by apply Hdec. }
  assert (p < zlen data) as Hp1 by (apply (f_equal (@length Z)) in E0; rewrite length_drop in E0; cbn in E0; unfold zlen in *; lia). rewrite drop_dig in E0 by lia. injection E0 as Ec0 E1.
  assert (parse_result true mode (fst (signed (c0 :: t0))) 10 (significant space (snd (signed (c0 :: t0))))
    (c ← (if p <? zlen data then char_at data p else Ok 0);
     let '(sign, p) := if p <? zlen data then if c =? 43 then (ParseUnsigned, p + 1) else if c =? 45 then (ParseSigned, p + 1) else (ParseUnsigned, p) else (ParseUnsigned, p) in
     result ← parseInt_digits isSpaceSeparator true data p 10 mode sign AllowEmptyString;
     Ok (match result with Some r => Some (if negb (isZero r) then setSign r (match sign with ParseSigned => true | ParseUnsigned => false end) else r) | None => None end))) as Hsigned.
  { rewrite Z_ltb_true by lia. rewrite char_at_ok, Ec0 by lia. cbn [mbind res_bind]. destruct (c0 =? 43) eqn:E43; bool_prop; [subst c0; rewrite E43; by apply (Hdec 1 ParseUnsigned t0); [lia|lia|]|]. destruct (c0 =? 45) eqn:E45; bool_prop; [subst c0; rewrite E45; by apply (Hdec 1 ParseSigned t0); [lia|lia|]|].
    assert (signed (c0 :: t0) = (ParseUnsigned, c0 :: t0)) as -> by (unfold signed; repeat case_match; simplify_eq; done || lia). specialize (Hdec 0 ParseUnsigned (c0 :: t0) ltac:(lia) ltac:(lia)). rewrite Z.add_0_r in Hdec. apply Hdec. rewrite drop_dig by lia. by rewrite Ec0, E1. }
  destruct (signed (c0 :: t0)) as [sg rest] eqn:Es. cbn [fst snd] in Hsigned. rewrite (char_at_ok data p), Ec0 in Hsigned by lia. destruct t0 as [|c1 t1].
  { assert (zlen data <= p + 1) by (apply (f_equal (@length Z)) in E1; rewrite length_drop in E1; cbn in E1; unfold zlen in *; lia). rewrite Z_ltb_false by lia. cbn [mbind res_bind andb]. rewrite (char_at_ok data p), Ec0, prefix_radix_short by lia. exact Hsigned. }
  assert (p + 1 < zlen data) as Hp2 by (apply (f_equal (@length Z)) in E1; rewrite length_drop in E1; cbn in E1; unfold zlen in *; lia). rewrite drop_dig in E1 by lia. injection E1 as Ec1 E2. replace (p + 1 + 1) with (p + 2) in E2 by lia.
  rewrite Z_ltb_true by lia. rewrite (char_at_ok data p), (char_at_ok data (p + 1)), Ec0, Ec1 by lia. cbn [mbind res_bind andb]. rewrite !caseless by lia. change (98 - 32) with 66. change (120 - 32) with 88. change (111 - 32) with 79.
  destruct (c0 =? 48) eqn:E48; cbn [andb].
  2:{ by rewrite prefix_radix_none by (bool_prop; lia). }
  bool_prop. rewrite E48 in Hsigned |- *. cbn [prefix_radix]. destruct ((c1 =? 66) || (c1 =? 98)); [specialize (Hpre 2 2 ParseUnsigned ltac:(lia) ltac:(lia) ltac:(lia) t1 E2); by destruct t1|]. destruct ((c1 =? 88) || (c1 =? 120)); [specialize (Hpre 2 16 ParseUnsigned ltac:(lia) ltac:(lia) ltac:(lia) t1 E2); by destruct t1|]. destruct ((c1 =? 79) || (c1 =? 111)); [specialize (Hpre 2 8 ParseUnsigned ltac:(lia) ltac:(lia) ltac:(lia) t1 E2); by destruct t1|]. done.
Qed.

(** ** Numerals are read back *)
Lemma lsb_digits_ok radix fuel n : 2 <= radix -> 0 <= n < 2 ^ Z.of_nat fuel ->
  let l := lsb_digits fuel radix n in in_radix radix l /\ lval radix l = n /\ (0 < n -> l <> [] /\ radix ^ (zlen l - 1) <= n).
Proof.
  intros Hr. revert n. induction fuel as [|fuel IH]; intros n Hn l; [cbn in Hn; split; [constructor|cbn; split; lia]|]. unfold l. cbn [lsb_digits]. destruct (n =? 0) eqn:E; bool_prop; [split; [constructor|cbn; split; lia]|].
  rewrite Nat2Z.inj_succ, Z.pow_succ_r in Hn by lia. pose proof (Z.div_mod n radix ltac:(lia)) as En. pose proof (Z.mod_pos_bound n radix ltac:(lia)) as Hm. assert (0 <= n / radix < 2 ^ Z.of_nat fuel) as Hq by (split; [apply Z.div_pos; lia|apply Z.div_lt_upper_bound; nia]).
  destruct (IH _ Hq) as (H1 & H2 & H3). split; [by constructor|]. split; [cbn [lval]; rewrite H2; lia|]. intros _. split; [done|]. rewrite zlen_cons. replace (1 + zlen (lsb_digits fuel radix (n / radix)) - 1) with (zlen (lsb_digits fuel radix (n / radix))) by lia.
  destruct (Z.eq_dec (n / radix) 0) as [E0|Hne].
  - rewrite E0. assert (lsb_digits fuel radix 0 = []) as -> by (by destruct fuel). change (zlen []) with 0. rewrite Z.pow_0_r. lia.
  - destruct (H3 ltac:(lia)) as [H4 H5]. set (l' := lsb_digits fuel radix (n / radix)) in *. assert (0 < zlen l') by (destruct l'; [done|zlia]). replace (zlen l') with (1 + (zlen l' - 1)) by lia. rewrite Z.pow_add_r, Z.pow_1_r by lia. nia.
Qed.

Lemma numeral_digits radix n : 2 <= radix -> 0 < n -> exists l, numeral radix n = rev (map radix_char l) /\ in_radix radix l /\ lval radix l = n /\ l <> [] /\ radix ^ (zlen l - 1) <= n.
Proof.
  intros Hr Hn. unfold numeral. rewrite (proj2 (Z.eqb_neq n 0)) by lia. eexists. split; [done|]. destruct (lsb_digits_ok radix (S (Z.to_nat (Z.log2 n))) n Hr) as (H1 & H2 & H3); [|by destruct (H3 Hn)].
  rewrite Nat2Z.inj_succ, Z2Nat.id by apply Z.log2_nonneg. pose proof (Z.log2_spec n Hn). lia.
Qed.

Lemma digits_of_chars radix l : 2 <= radix <= 36 -> in_radix radix l -> digits_of radix (map radix_char l) = Some l.
Proof.
  intros Hr. unfold digits_of. induction 1 as [|d l Hd Hl IH]; [done|]. cbn [map mapM]. rewrite digit_of_radix_char by lia. cbn [mbind option_bind]. by rewrite IH.
Qed.

Lemma radix_char_not_space d : 0 <= d < 36 -> space (radix_char d) = false.
Proof.
  intros Hd. assert (forallb (fun d => (radix_char d <? 256) && negb (isWhiteSpace_LChar (u8 (radix_char d))) && negb (isLineTerminator_UChar (radix_char d))) (seqZ 0 36) = true) as Hall by (by vm_compute).
  pose proof (forallb_seqZ _ 0 36 d Hall ltac:(lia)) as H1. cbv beta in H1. apply andb_true_iff in H1 as [H1 H3]. apply andb_true_iff in H1 as [H1 H2]. unfold isStrWhiteSpace, isWhiteSpace_UChar. rewrite H1. by destruct (isWhiteSpace_LChar _), (isLineTerminator_UChar _).
Qed.

Lemma significant_numeral radix l : 2 <= radix <= 36 -> in_radix radix l -> l <> [] -> radix ^ (zlen l - 1) <= lval radix l -> significant space (rev (map radix_char l)) = rev (map radix_char l).
Proof.
  intros Hr Hl Hne Hc. destruct (lval_top radix l ltac:(lia) Hl Hne Hc) as (l' & d & El & Hd). unfold significant. assert (drop_while (fun c => c =? 48) (rev (map radix_char l)) = rev (map radix_char l)) as ->.
  { rewrite El, map_app, rev_app_distr. cbn [map rev app drop_while]. rewrite (proj2 (Z.eqb_neq _ 48)); [done|]. apply radix_char_nonzero. lia. }
  destruct l as [|d0 l0]; [done|]. cbn [map rev]. apply drop_while_end_stop. apply radix_char_not_space. inversion Hl. lia.
Qed.

(** Numbers of up to a million bits are not too long in any radix. *)
Lemma not_too_long radix l bits : 2 <= radix <= 36 -> l <> [] -> radix ^ (zlen l - 1) < 2 ^ bits -> 0 < bits <= 1000000 -> too_long radix (zlen (A := Z) l) = false /\ 0 < zlen l < 2 ^ 30.
Proof.
  intros Hr Hne Hlt Hbits. destruct (maxBitsPerChar_ok radix Hr) as (b & Eb & _ & Hb & Hb'). unfold too_long. rewrite Eb. assert (0 < zlen l) as Hn by (destruct l; [done|zlia]). pose proof (chars_bound radix b l bits ltac:(lia) Hb ltac:(lia) ltac:(lia) Hlt Hn) as Hc.
  assert (zlen l - 1 <= 1032259) as Hn' by nia. split; [|lia]. apply Z.ltb_ge. unfold digits_for. set (m := (b * zlen l + 31) / 32). assert (32 * m <= b * zlen l + 31) as Hm by (unfold m; Z.to_euclidean_division_equations; lia). assert (m <= 2 ^ 20) as Hm20 by lia.
  pose proof digitBits_pos as Hd. assert (digitBits * maxLength = 2 ^ 20) as Emax by (unfold maxLength; destruct digitBits_ok as [-> | ->]; done). apply Z.lt_succ_r. apply Z.div_lt_upper_bound; [lia|]. rewrite Z.mul_succ_r. lia.
Qed.

Lemma value_sign_text x : wf x -> value x <> 0 -> value x = (if sign x then - Z.abs (value x) else Z.abs (value x)) /\ (value x <? 0) = sign x.
Proof. intros Hx Hnz. pose proof (value_sign x Hx) as Hs. destruct (sign x); (split; [lia|]); [apply Z.ltb_lt|apply Z.ltb_ge]; lia. Qed.

Lemma parse_numeral exec mode x radix r :
  2 <= radix <= 36 -> wf x -> value x <> 0 -> digitBits * m_length x <= 1000000 ->
  parse_result exec mode (if sign x then ParseSigned else ParseUnsigned) radix (significant space (numeral radix (Z.abs (value x)))) r -> r = Ok (Some x).
Proof.
  intros Hr Hx Hnz Hbits. assert (0 < Z.abs (value x)) as Habs by lia. destruct (numeral_digits radix (Z.abs (value x)) ltac:(lia) Habs) as (l & -> & Hl & Hv & Hne & Hc). rewrite (significant_numeral radix) by (done || lia). unfold parse_result.
  assert (Z.abs (value x) = val (digits x)) as Ea by (unfold value; pose proof (val_bound _ (wf_digits _ Hx)); destruct (sign x); lia). assert (val (digits x) < 2 ^ (digitBits * m_length x)) as Hvb by (pose proof (val_bound _ (wf_digits _ Hx)) as Hb; change (zlen (digits x)) with (m_length x) in Hb; rewrite pow_B_bits in Hb by apply zlen_nonneg; lia).
  assert (0 < m_length x) as Hm by (unfold m_length; destruct (digits x) eqn:E; [unfold value in Hnz; rewrite E in Hnz; by destruct (sign x)|zlia]). pose proof digitBits_pos as Hdb.
  assert (radix ^ (zlen l - 1) < 2 ^ (digitBits * m_length x)) as Hpl by lia. assert (0 < digitBits * m_length x <= 1000000) as Hb1 by nia. destruct (not_too_long radix l (digitBits * m_length x) Hr Hne Hpl Hb1) as [Htl _]. assert (zlen (rev (map radix_char l)) = zlen l) as El by (unfold zlen; by rewrite length_rev, length_map).
  destruct (rev (map radix_char l)) as [|c cs] eqn:Et; [change (zlen []) with 0 in El; destruct l; [done|zlia]|]. rewrite <- Et in *. rewrite El, Htl. rewrite <- map_rev, digits_of_chars by (done || by apply Forall_rev). intros (z & -> & Hz & Vz).
  do 2 f_equal. apply wf_inj; [done..|]. rewrite Vz, number_from_lval, Hv. destruct (value_sign_text x Hx Hnz) as [Hs _]. destruct (sign x); lia.
Qed.

Lemma zlen_numeral radix x : 2 <= radix <= 36 -> wf x -> value x <> 0 -> digitBits * m_length x <= 1000000 -> 0 < zlen (numeral radix (Z.abs (value x))) < 2 ^ 30.
Proof.
  intros Hr Hx Hnz Hbits. assert (0 < Z.abs (value x)) as Habs by lia. destruct (numeral_digits radix (Z.abs (value x)) ltac:(lia) Habs) as (l & -> & Hl & Hv & Hne & Hc). assert (zlen (rev (map radix_char l)) = zlen l) as -> by (unfold zlen; by rewrite length_rev, length_map).
  assert (Z.abs (value x) = val (digits x)) as Ea by (unfold value; pose proof (val_bound _ (wf_digits _ Hx)); destruct (sign x); lia). pose proof (val_bound _ (wf_digits _ Hx)) as Hb. change (zlen (digits x)) with (m_length x) in Hb. rewrite pow_B_bits in Hb by apply zlen_nonneg.
  assert (0 < m_length x) as Hm by (unfold m_length; destruct (digits x) eqn:E; [unfold value in Hnz; rewrite E in Hnz; by destruct (sign x)|zlia]). pose proof digitBits_pos as Hdb. apply (not_too_long radix l (digitBits * m_length x)); [done|done|lia|nia].
Qed.

(** The text of a number in any radix, read in that radix. *)
Lemma parseInt_radix_numeral exec mode x radix :
  2 <= radix <= 36 -> wf x -> digitBits * m_length x <= 1000000 ->
  parseInt_radix isSpaceSeparator exec (numeral radix (Z.abs (value x))) radix mode (if sign x then ParseSigned else ParseUnsigned) = Ok (Some x).
Proof.
  intros Hr Hx Hbits. destruct (Z.eq_dec (value x) 0) as [E0|Hnz].
  - assert (x = mkBigInt false []) as -> by (apply wf_inj; [done|apply wf_zero|done]). exact (parseInt_digits_spec isSpaceSeparator exec [48] 0 radix mode ParseUnsigned DisallowEmptyString Hr ltac:(done) ltac:(done)).
  - pose proof (zlen_numeral radix x Hr Hx Hnz Hbits) as Hlen. apply (parse_numeral exec mode x radix); [done..|]. unfold parseInt_radix.
    set (text := numeral radix (Z.abs (value x))) in *. pose proof (parseInt_digits_spec isSpaceSeparator exec text 0 radix mode (if sign x then ParseSigned else ParseUnsigned) DisallowEmptyString Hr ltac:(lia) ltac:(lia)) as Hs. rewrite (proj2 (Z.eqb_neq 0 _)) in Hs by lia. done.
Qed.

Lemma numeral_head radix x : 2 <= radix <= 36 -> value x <> 0 -> exists c cs, numeral radix (Z.abs (value x)) = c :: cs /\ exists d, c = radix_char d /\ 0 < d < radix.
Proof.
  intros Hr Hnz. assert (0 < Z.abs (value x)) as Habs by lia. destruct (numeral_digits radix (Z.abs (value x)) ltac:(lia) Habs) as (l & -> & Hl & Hv & Hne & Hc). destruct (lval_top radix l ltac:(lia) Hl Hne ltac:(lia)) as (l' & d & -> & Hd). rewrite map_app, rev_app_distr. eexists _, _. split; [done|]. by exists d.
Qed.

(** The decimal text of a number, read as a literal. *)
Lemma parseInt_string_text mode x : wf x -> digitBits * m_length x <= 1000000 -> parseInt_string isSpaceSeparator (text_of 10 (value x)) mode = Ok (Some x).
Proof.
  intros Hx Hbits. destruct (Z.eq_dec (value x) 0) as [E0|Hnz].
  - assert (x = mkBigInt false []) as -> by (apply wf_inj; [done|apply wf_zero|done]). pose proof (parseInt_string_spec [48] mode ltac:(done)) as Hs. exact Hs.
  - pose proof (zlen_numeral 10 x ltac:(lia) Hx Hnz Hbits) as Hlen. destruct (value_sign_text x Hx Hnz) as [_ Hs]. unfold text_of. rewrite Hs. destruct (numeral_head 10 x ltac:(lia) Hnz) as (c & cs & En & d & Ec & Hd).
    assert (48 < c <= 57) as Hc. { rewrite Ec. assert (forallb (fun d => (48 <? radix_char d) && (radix_char d <=? 57)) (seqZ 1 9) = true) as Hall by (by vm_compute). pose proof (forallb_seqZ _ 1 9 d Hall ltac:(lia)) as H1. cbv beta in H1. apply andb_true_iff in H1 as [H1 H2]. bool_prop. lia. }
    apply (parse_numeral true mode x 10); [lia|done..|]. rewrite En. set (data := (if sign x then [45] else []) ++ c :: cs).
    assert (zlen data < 2 ^ 31) as Hd31. { unfold data. rewrite zlen_app. rewrite En in Hlen. destruct (sign x); [change (zlen [45]) with 1|change (zlen []) with 0]; lia. } pose proof (parseInt_string_spec data mode Hd31) as Hp. unfold literal_result in Hp.
    assert (drop_while space data = data) as Edw. { unfold data. destruct (sign x); cbn [app drop_while]; [done|]. rewrite Ec, radix_char_not_space by lia. done. }
    rewrite Edw in Hp. unfold data in Hp |- *. destruct (sign x); cbn [app] in *.
    + exact Hp.
    + rewrite prefix_radix_none in Hp by lia. assert (signed (c :: cs) = (ParseUnsigned, c :: cs)) as Es by (unfold signed; repeat case_match; simplify_eq; done || lia). by rewrite Es in Hp.
Qed.
End roundtrip.
