(* ===== verification/BigIntDouble.v ===== *)
(** * BigIntDouble: big integers compared with doubles
      (src/Source/JavaScriptCore/runtime/JSBigInt.cpp: [compareToDouble], [equalsToNumber]) *)
From S2P Require Import Prelude Doubles BigInt BigIntFacts BigIntAdd BigIntDivide BigIntBitwise BigIntText BigIntParse BigIntPrint.
From Stdlib Require Import SpecFloat.
Local Open Scope Z_scope.

(** ** The model *)
Definition double_below_zero (y : Z) : bool := match decode_double y with S754_infinity true | S754_finite true _ _ => true | _ => false end.
Definition is_positive_infinity (y : Z) : bool := match decode_double y with S754_infinity false => true | _ => false end.

Section double.
Context `{DigitConfig}.

(** The result when the magnitude of the big integer is the larger one, or the smaller one. *)
Definition magnitude_greater (xSign : bool) : ComparisonResult := if xSign then LessThan else GreaterThan.
Definition magnitude_less (xSign : bool) : ComparisonResult := if xSign then GreaterThan else LessThan.

(** The digits below the most significant one, from [digitIndex] down; the loop ends early when a digit decides. *)
Fixpoint compare_digits_loop (n : nat) (x : JSBigInt) (digitIndex remainingMantissaBits mantissa : Z) : res (ComparisonResult + Z * Z) :=
  match n with
  | O => Ok (inr (remainingMantissaBits, mantissa))
  | S n =>
    let '(remainingMantissaBits, compareMantissa, mantissa) :=
      if 0 <? remainingMantissaBits then
        if negb (digitBits =? 64) then (remainingMantissaBits - digitBits, Digit (Z.shiftr mantissa (64 - digitBits)), u64 (Z.shiftl mantissa (Z.land digitBits 63)))
        else (remainingMantissaBits - digitBits, Digit mantissa, 0)
      else (remainingMantissaBits, 0, mantissa) in
    digit ← BigInt.digit x digitIndex;
    if compareMantissa <? digit then Ok (inl (magnitude_greater (sign x)))
    else if digit <? compareMantissa then Ok (inl (magnitude_less (sign x)))
    else compare_digits_loop n x (digitIndex - 1) remainingMantissaBits mantissa
  end.

(** Both numbers have the same sign and their integer parts as many bits. *)
Definition compare_mantissa (x : JSBigInt) (xMSD msdTopBit mantissa : Z) : res ComparisonResult :=
  let mantissa := Z.lor mantissa 0x0010000000000000 in
  let mantissaTopBit := 52 in
  let '(remainingMantissaBits, compareMantissa, mantissa) :=
    if msdTopBit <? mantissaTopBit then
      let remainingMantissaBits := mantissaTopBit - msdTopBit in
      (remainingMantissaBits, Digit (Z.shiftr mantissa remainingMantissaBits), u64 (Z.shiftl mantissa (64 - remainingMantissaBits)))
    else (0, Digit (u64 (Z.shiftl mantissa (msdTopBit - mantissaTopBit))), 0) in
  if compareMantissa <? xMSD then Ok (magnitude_greater (sign x))
  else if xMSD <? compareMantissa then Ok (magnitude_less (sign x))
  else
    r ← compare_digits_loop (Z.to_nat (m_length x - 1)) x (m_length x - 2) remainingMantissaBits mantissa;
    match r with
    | inl result => Ok result
    | inr (remainingMantissaBits, mantissa) =>
      if negb (mantissa =? 0) then ASSERT (0 <? remainingMantissaBits);; Ok (magnitude_less (sign x)) else Ok Equal
    end.

Definition compareToDouble (x : JSBigInt) (y : Z) : res ComparisonResult :=
  let rawExponent := Z.land (s32 (Z.shiftr y 52)) 0x7FF in
  if rawExponent =? 0x7FF then Ok (if is_nan y then Undefined else if is_positive_infinity y then LessThan else GreaterThan)
  else
    let xSign := sign x in
    let ySign := double_below_zero y in
    if negb (Bool.eqb xSign ySign) then Ok (if xSign then LessThan else GreaterThan)
    else if is_zero y then ASSERT (negb xSign);; Ok (if isZero x then Equal else GreaterThan)
    else if isZero x then Ok LessThan
    else
      let mantissa := Z.land y 0x000FFFFFFFFFFFFF in
      let exponent := rawExponent - 0x3FF in
      if exponent <? 0 then Ok (if xSign then LessThan else GreaterThan)
      else
        let xLength := m_length x in
        xMSD ← digit x (xLength - 1);
        let msdLeadingZeros := clz xMSD in
        let xBitLength := xLength * digitBits - msdLeadingZeros in
        let yBitLength := exponent + 1 in
        if xBitLength <? yBitLength then Ok (if xSign then GreaterThan else LessThan)
        else if yBitLength <? xBitLength then Ok (if xSign then LessThan else GreaterThan)
        else
          let msdTopBit := digitBits - 1 - msdLeadingZeros in
          ASSERT (msdTopBit =? (xBitLength - 1) mod digitBits);;
          compare_mantissa x xMSD msdTopBit mantissa.

(** A number is an [int32_t] or a double. *)
Definition equalsToNumber (x : JSBigInt) (numValue : Z + Z) : res bool :=
  match numValue with
  | inl value =>
    if value =? 0 then Ok (isZero x)
    else if (m_length x =? 1) && Bool.eqb (sign x) (value <? 0) then d ← digit x 0; Ok (d =? Digit (Z.abs value))
    else Ok false
  | inr value => c ← compareToDouble x value; Ok (bool_decide (c = Equal))
  end.

(** ** The specification *)
(** A finite double is a multiple of 2^-1074. *)
Definition scaled (y : spec_float) : Z := match y with S754_finite s m e => (if s then -1 else 1) * (Z.pos m * 2 ^ (e + 1074)) | _ => 0 end.

Definition of_comparison (c : comparison) : ComparisonResult := match c with Eq => Equal | Lt => LessThan | Gt => GreaterThan end.

(** The comparison of an integer with a double. *)
Definition compare_real (v : Z) (y : spec_float) : ComparisonResult :=
  match y with
  | S754_nan => Undefined
  | S754_infinity s => if s then GreaterThan else LessThan
  | _ => of_comparison (v * 2 ^ 1074 ?= scaled y)
  end.

(** ** The proof *)
Local Abbreviation B := (2 ^ digitBits).

Definition magnitude (s : bool) (c : comparison) : ComparisonResult := match c with Eq => Equal | Gt => magnitude_greater s | Lt => magnitude_less s end.

Lemma mod_pow_weaken x a b : 0 <= a <= b -> (x mod 2 ^ b) mod 2 ^ a = x mod 2 ^ a.
Proof. intros Hab. apply Z.mod_mod_divide. exists (2 ^ (b - a)). rewrite <- Z.pow_add_r by lia. f_equal. lia. Qed.

Lemma compare_magnitude_spec (s : bool) V M : of_comparison ((if s then - V else V) ?= (if s then -1 else 1) * M) = magnitude s (V ?= M).
Proof using Type.
  destruct s; cbn [magnitude magnitude_greater magnitude_less].
  - replace (-1 * M) with (- M) by lia. rewrite Z.compare_opp, (Z.compare_antisym V M). unfold magnitude. by destruct (V ?= M).
  - rewrite Z.mul_1_l. by destruct (V ?= M).
Qed.

(** The leading part of two numbers decides. *)
Lemma leading_decides P low hd h mant : 0 <= low < P -> 0 <= mant < 2 ^ 64 -> hd <> h -> ((low + P * hd) * 2 ^ 64 ?= P * (h * 2 ^ 64 + mant)) = (hd ?= h).
Proof.
  intros Hl Hm Hne. destruct (Z.compare_spec hd h) as [E|Hlt|Hgt]; [done|apply Z.compare_lt_iff|apply Z.compare_gt_iff]; [assert (P * hd + P <= P * h) by nia|assert (P * h + P <= P * hd) by nia]; nia.
Qed.

(** What is left of the mantissa stands at the top of its 64 bits. *)
Definition mantissa_left (r mant : Z) : Prop := 0 <= mant < 2 ^ 64 /\ (if 0 <? r then r <= 52 /\ mant mod 2 ^ (64 - r) = 0 else mant = 0).

Lemma compare_digits_loop_spec n x i r mant W :
  digits_ok (digits x) -> Z.of_nat n = i + 1 -> i < m_length x -> mantissa_left r mant -> W = B ^ (i + 1) * (high (digits x) (i + 1) * 2 ^ 64 + mant) ->
  let c := val (digits x) * 2 ^ 64 ?= W in
  (c <> Eq /\ compare_digits_loop n x i r mant = Ok (inl (magnitude (sign x) c))) \/
  exists r' mant', compare_digits_loop n x i r mant = Ok (inr (r', mant')) /\ mantissa_left r' mant' /\ W = val (digits x) * 2 ^ 64 + mant'.
Proof.
  intros Dx. revert i r mant. induction n as [|n IH]; intros i r mant Hn Hi Hm HW c.
  { right. exists r, mant. split; [done|]. split; [done|]. rewrite HW. replace (i + 1) with 0 by lia. rewrite high_0, Z.pow_0_r. lia. }
  cbn [compare_digits_loop]. set (next := if 0 <? r then _ else _). assert (exists r' cm mant', next = (r', cm, mant') /\ mantissa_left r' mant' /\ B * mant = cm * 2 ^ 64 + mant') as (r' & cm & mant' & -> & Hm' & Ecm).
  { unfold next. destruct Hm as [Hm Hr]. destruct (0 <? r) eqn:E; bool_prop; [|exists r, 0, mant; split; [done|]; split; [split; [done|]; by rewrite (proj2 (Z.ltb_ge 0 r)) by lia|lia]]. destruct Hr as [Hr52 Hmod].
    unfold Digit. destruct digitBits_ok as [Edb | Edb]; rewrite Edb; cbn [Z.eqb Pos.eqb negb].
    - change (64 - 32) with 32. change (Z.land 32 63) with 32. rewrite Z.shiftr_div_pow2, Z.shiftl_mul_pow2 by lia. unfold u64. eexists _, _, _. split; [done|]. rewrite (Z.mod_small (mant / 2 ^ 32)) by (Z.to_euclidean_division_equations; lia).
      assert ((mant * 2 ^ 32) mod 2 ^ 64 = mant mod 2 ^ 32 * 2 ^ 32) as Ems. { change (2 ^ 64) with (2 ^ 32 * 2 ^ 32). rewrite Z.mul_mod_distr_r by lia. done. }
      split; [|rewrite Ems; pose proof (Z.div_mod mant (2 ^ 32) ltac:(lia)); lia]. split; [apply Z.mod_pos_bound; lia|]. rewrite Ems. destruct (0 <? r - 32) eqn:E2; bool_prop.
      + split; [lia|]. replace (64 - (r - 32)) with (64 - r + 32) by lia. rewrite Z.pow_add_r by lia. rewrite Z.mul_mod_distr_r by (try apply Z.pow_nonzero; lia). rewrite mod_pow_weaken by lia. by rewrite Hmod.
      + assert (mant mod 2 ^ 32 = 0) as ->; [|done]. apply Z.mod_divide in Hmod; [|apply Z.pow_nonzero; lia]. apply Z.mod_divide; [lia|]. etransitivity; [|exact Hmod]. exists (2 ^ (64 - r - 32)). rewrite <- Z.pow_add_r by lia. f_equal. lia.
    - eexists _, _, _. split; [done|]. rewrite Z.mod_small by lia. split; [|lia]. split; [lia|]. rewrite (proj2 (Z.ltb_ge 0 (r - 64))) by lia. done. }
  rewrite digit_dig by lia. cbn [mbind res_bind]. set (d := dig (digits x) i). assert (high (digits x) i = d + B * high (digits x) (i + 1)) as Eh by (apply high_succ; unfold m_length in Hi; lia). assert (0 <= i) as Hi0 by lia.
  rewrite pow_B_succ in HW by lia. assert (W = B ^ i * ((cm + B * high (digits x) (i + 1)) * 2 ^ 64 + mant')) as HW' by (rewrite HW, <- Z.mul_assoc, (Z.mul_comm B), <- Z.mul_assoc; f_equal; lia).
  pose proof (low_bound (digits x) i Dx Hi0) as Hl. assert (val (digits x) = low (digits x) i + B ^ i * high (digits x) i) as Ev by (apply low_high; unfold m_length in Hi; lia). assert (forall h', high (digits x) i <> cm + B * high (digits x) (i + 1) -> h' = (d ?= cm) -> c = h') as Hdec.
  { intros h' Hne ->. unfold c. rewrite Ev, HW', leading_decides by (done || apply Hm'). rewrite Eh. destruct (Z.compare_spec d cm) as [->|Hlt|Hgt]; [by apply Z.compare_eq_iff|apply Z.compare_lt_iff; lia|apply Z.compare_gt_iff; lia]. }
  destruct (cm <? d) eqn:E1; bool_prop; [left; rewrite (Hdec Gt) by (try symmetry; try apply Z.compare_gt_iff; lia); done|]. destruct (d <? cm) eqn:E2; bool_prop; [left; rewrite (Hdec Lt) by (try symmetry; try apply Z.compare_lt_iff; lia); done|].
  assert (d = cm) as Ed by lia. apply (IH (i - 1) r' mant'); [lia|lia|done|]. replace (i - 1 + 1) with i by lia. by rewrite HW', Eh, Ed.
Qed.

(** Both integer parts have their top bit at the same place. *)
Lemma compare_mantissa_spec x t frac W :
  wf x -> digits x <> [] -> 0 <= t < digitBits -> 2 ^ t <= dig (digits x) (m_length x - 1) < 2 ^ (t + 1) -> 0 <= frac < 2 ^ 52 -> W = B ^ (m_length x - 1) * ((2 ^ 52 + frac) * 2 ^ (t + 12)) ->
  compare_mantissa x (dig (digits x) (m_length x - 1)) t frac = Ok (magnitude (sign x) (val (digits x) * 2 ^ 64 ?= W)).
Proof.
  intros Hx Hne Ht Hmsd Hf HW. pose proof (wf_digits _ Hx) as Dx. assert (0 < m_length x) as Hm by (unfold m_length; destruct (digits x); [done|zlia]). unfold compare_mantissa. assert (Z.lor frac 4503599627370496 = 2 ^ 52 + frac) as ->.
  { change 4503599627370496 with (Z.shiftl 1 52). rewrite Z_lor_above by lia. lia. }
  set (m := 2 ^ 52 + frac) in *. set (first := if t <? 52 then _ else _). assert (exists r cm mant, first = (r, cm, mant) /\ mantissa_left r mant /\ m * 2 ^ (t + 12) = cm * 2 ^ 64 + mant) as (r & cm & mant & -> & Hml & Ecm).
  { unfold first. pose proof digitBits_pos as Hdb. destruct (t <? 52) eqn:E; bool_prop.
    - eexists _, _, _. split; [done|]. replace (64 - (52 - t)) with (t + 12) by lia. rewrite Z.shiftr_div_pow2, Z.shiftl_mul_pow2 by lia. unfold u64, Digit. assert (2 ^ 64 = 2 ^ (52 - t) * 2 ^ (t + 12)) as E64 by (rewrite <- Z.pow_add_r by lia; f_equal; lia). assert (0 < 2 ^ (t + 12)) by (apply Z.pow_pos_nonneg; lia). assert (0 < 2 ^ (52 - t)) as Hpr by (apply Z.pow_pos_nonneg; lia).
      assert ((m * 2 ^ (t + 12)) mod 2 ^ 64 = m mod 2 ^ (52 - t) * 2 ^ (t + 12)) as Ems by (rewrite E64, Z.mul_mod_distr_r by lia; done). rewrite (Z.mod_small (m / 2 ^ (52 - t))).
      + split; [|rewrite Ems, E64; rewrite (Z.div_mod m (2 ^ (52 - t))) at 1 by lia; ring]. split; [apply Z.mod_pos_bound; lia|]. rewrite (Z_ltb_true 0 (52 - t)) by lia. split; [lia|]. rewrite Ems. replace (64 - (52 - t)) with (t + 12) by lia. apply Z.mod_mul. lia.
      + split; [apply Z.div_pos; lia|]. apply Z.div_lt_upper_bound; [lia|]. apply Z.lt_le_trans with (2 ^ 53); [lia|]. rewrite <- Z.pow_add_r by lia. apply Z.pow_le_mono_r; lia.
    - assert (digitBits = 64) as E64 by (destruct digitBits_ok as [Ed | Ed]; lia). eexists _, _, _. split; [done|]. split; [by split|]. unfold Digit, u64. rewrite E64, Z.mod_mod, Z.shiftl_mul_pow2 by lia. rewrite Z.mod_small.
      + rewrite Z.add_0_r, <- Z.mul_assoc, <- Z.pow_add_r by lia. do 2 f_equal. lia.
      + split; [nia|]. apply Z.lt_le_trans with (2 ^ 53 * 2 ^ (t - 52)); [apply Z.mul_lt_mono_pos_r; [apply Z.pow_pos_nonneg; lia|lia]|]. rewrite <- Z.pow_add_r by lia. apply Z.pow_le_mono_r; lia. }
  set (msd := dig (digits x) (m_length x - 1)) in *. assert (high (digits x) (m_length x - 1) = msd) as Eh by (rewrite high_succ, high_all by (unfold m_length in *; lia); unfold msd; lia).
  pose proof (low_bound (digits x) (m_length x - 1) Dx ltac:(lia)) as Hl. assert (val (digits x) = low (digits x) (m_length x - 1) + B ^ (m_length x - 1) * msd) as Ev by (rewrite <- Eh; apply low_high; unfold m_length in *; lia). rewrite Ecm in HW.
  assert (msd <> cm -> (val (digits x) * 2 ^ 64 ?= W) = (msd ?= cm)) as Hdec by (intros Hd; rewrite Ev, HW; apply leading_decides; [done|apply Hml|done]).
  destruct (cm <? msd) eqn:E1; bool_prop; [rewrite Hdec by lia; by rewrite (proj2 (Z.compare_gt_iff msd cm)) by lia|]. destruct (msd <? cm) eqn:E2; bool_prop; [rewrite Hdec by lia; by rewrite (proj2 (Z.compare_lt_iff msd cm)) by lia|].
  assert (msd = cm) as Ed by lia. destruct (compare_digits_loop_spec (Z.to_nat (m_length x - 1)) x (m_length x - 2) r mant W Dx ltac:(lia) ltac:(lia) Hml) as [[Hc ->] | (r' & mant' & -> & [Hm' Hr'] & HW')].
  - replace (m_length x - 2 + 1) with (m_length x - 1) by lia. by rewrite HW, Eh, Ed.
  - done.
  - cbn [mbind res_bind]. destruct (mant' =? 0) eqn:E0; bool_prop; cbn [negb].
    + rewrite (proj2 (Z.compare_eq_iff (val (digits x) * 2 ^ 64) W)) by lia. done.
    + destruct (0 <? r'); [|done]. cbn [ASSERT mbind res_bind]. rewrite (proj2 (Z.compare_lt_iff (val (digits x) * 2 ^ 64) W)) by lia. done.
Qed.

Lemma raw_exponent y : is_u64 y -> Z.land (s32 (Z.shiftr y 52)) 0x7FF = y / 2 ^ 52 mod 2 ^ 11.
Proof.
  unfold is_u64. intros Hy. rewrite Z.shiftr_div_pow2 by lia. assert (s32 (y / 2 ^ 52) = y / 2 ^ 52) as -> by (unfold s32; rewrite Z.mod_small; Z.to_euclidean_division_equations; lia). change 0x7FF with (Z.ones 11). by rewrite Z.land_ones by lia.
Qed.

Lemma value_magnitude x : value x = if sign x then - val (digits x) else val (digits x).
Proof. done. Qed.

(** The comparison of two numbers of the same sign is the one of their magnitudes. *)
Lemma compare_real_finite x s m e : sign x = s -> compare_real (value x) (S754_finite s m e) = magnitude s (val (digits x) * 2 ^ 1074 ?= Z.pos m * 2 ^ (e + 1074)).
Proof using Type.
  intros <-. cbn [compare_real scaled]. rewrite <- compare_magnitude_spec. f_equal. f_equal. rewrite value_magnitude. destruct (sign x); lia.
Qed.

(** The bit length decides. *)
Lemma compare_lengths V m k L :
  2 ^ 52 <= m < 2 ^ 53 -> 0 <= k -> 0 < L -> 2 ^ (L - 1) <= V < 2 ^ L ->
  (L < k + 1 -> (V * 2 ^ 1074 ?= m * 2 ^ (k - 52 + 1074)) = Lt) /\ (k + 1 < L -> (V * 2 ^ 1074 ?= m * 2 ^ (k - 52 + 1074)) = Gt).
Proof.
  intros Hm Hk HL HV. replace (k - 52 + 1074) with (k + 1022) by lia. rewrite (Z.pow_add_r 2 k 1022) by lia. assert (0 < 2 ^ k) as Hpk by (apply Z.pow_pos_nonneg; lia). change (2 ^ 1074) with (2 ^ 52 * 2 ^ 1022). set (U := 2 ^ 1022). assert (0 < U) as HU by (by apply Z.pow_pos_nonneg).
  split; intros Hlt.
  - apply Z.compare_lt_iff. assert (2 ^ L <= 2 ^ k) as Hle by (apply Z.pow_le_mono_r; lia). assert (V * 2 ^ 52 < m * 2 ^ k) by nia. replace (V * (2 ^ 52 * U)) with (V * 2 ^ 52 * U) by ring. replace (m * (2 ^ k * U)) with (m * 2 ^ k * U) by ring. by apply Z.mul_lt_mono_pos_r.
  - apply Z.compare_gt_iff. assert (2 * 2 ^ k <= 2 ^ (L - 1)) as Hle by (rewrite <- Z.pow_succ_r by lia; apply Z.pow_le_mono_r; lia). assert (m * 2 ^ k < V * 2 ^ 52) by nia. replace (V * (2 ^ 52 * U)) with (V * 2 ^ 52 * U) by ring. replace (m * (2 ^ k * U)) with (m * 2 ^ k * U) by ring. by apply Z.mul_lt_mono_pos_r.
Qed.

(** The most significant digit and the bit length. *)
Lemma top_bit x : wf x -> digits x <> [] ->
  let msd := dig (digits x) (m_length x - 1) in let t := digitBits - 1 - clz msd in
  0 <= t < digitBits /\ 2 ^ t <= msd < 2 ^ (t + 1) /\ m_length x * digitBits - clz msd - 1 = (m_length x - 1) * digitBits + t.
Proof.
  intros Hx Hne msd t. assert (0 < m_length x) as Hm by (unfold m_length; destruct (digits x); [done|zlia]). assert (is_digit msd) as Dm by (apply dig_ok, (wf_digits _ Hx)). assert (msd <> 0) as Hm0 by (apply (wf_trimmed _ Hx); [done|lia]).
  destruct (clz_normalizes msd Dm Hm0) as (Hc & _ & _). split; [lia|]. split; [|lia]. unfold t. rewrite clz_spec by done. unfold is_digit in Dm. replace (digitBits - 1 - (digitBits - 1 - Z.log2 msd)) with (Z.log2 msd) by lia. apply Z.log2_spec. lia.
Qed.

Lemma compareToDouble_finite x y e m :
  wf x -> digits x <> [] -> is_u64 y -> y / 2 ^ 52 mod 2 ^ 11 = e -> y mod 2 ^ 52 = m -> 0 < e < 2047 -> sign x = (2 ^ 63 <=? y) ->
  compareToDouble x y = Ok (magnitude (sign x) (val (digits x) * 2 ^ 1074 ?= (2 ^ 52 + m) * 2 ^ (e - 1075 + 1074))).
Proof.
  intros Hx Hne Hy Ee Em He Hs. assert (0 <= m < 2 ^ 52) as Hm by (rewrite <- Em; apply Z.mod_pos_bound; lia). unfold compareToDouble. rewrite raw_exponent, Ee by done. rewrite (proj2 (Z.eqb_neq e 0x7FF)) by lia.
  assert (decode_double y = S754_finite (2 ^ 63 <=? y) (Z.to_pos (2 ^ 52 + m)) (e - 1075)) as Ed by (unfold decode_double; rewrite Ee, Em, (proj2 (Z.eqb_neq e 0)), (proj2 (Z.eqb_neq e 2047)) by lia; done).
  assert (double_below_zero y = (2 ^ 63 <=? y)) as -> by (unfold double_below_zero; rewrite Ed; by destruct (2 ^ 63 <=? y)). unfold is_zero. rewrite Ed, Hs, eqb_reflx, <- Hs. cbn [negb]. rewrite isZero_spec, bool_decide_eq_false_2 by done.
  change 0x000FFFFFFFFFFFFF with (Z.ones 52). rewrite Z.land_ones, Em by lia. destruct (bitLength_spec x Hx Hne) as (HL & HV). destruct (top_bit x Hx Hne) as (Ht & Hmsd & Et). assert (0 < m_length x) as Hmx by (unfold m_length; destruct (digits x); [done|zlia]).
  destruct (e - 1023 <? 0) eqn:E0; bool_prop.
  { assert (0 < val (digits x)) as HVpos by (assert (0 < 2 ^ (m_length x * digitBits - clz (dig (digits x) (m_length x - 1)) - 1)) by (apply Z.pow_pos_nonneg; lia); lia). rewrite (proj2 (Z.compare_gt_iff _ _)); [done|]. apply Z.lt_le_trans with (2 ^ 53 * 2 ^ (e - 1075 + 1074)); [apply Z.mul_lt_mono_pos_r; [apply Z.pow_pos_nonneg; lia|lia]|].
    rewrite <- Z.pow_add_r by lia. apply Z.le_trans with (1 * 2 ^ 1074); [rewrite Z.mul_1_l; apply Z.pow_le_mono_r; lia|]. apply Z.mul_le_mono_nonneg_r; [by apply Z.pow_nonneg|lia]. }
  rewrite digit_dig by lia. cbn [mbind res_bind]. set (msd := dig (digits x) (m_length x - 1)) in *. set (L := m_length x * digitBits - clz msd) in *. set (t := digitBits - 1 - clz msd) in *.
  destruct (compare_lengths (val (digits x)) (2 ^ 52 + m) (e - 1023) L ltac:(lia) ltac:(lia) ltac:(lia) HV) as [Hlt Hgt]. replace (e - 1023 - 52) with (e - 1075) in Hlt, Hgt by lia.
  destruct (L <? e - 1023 + 1) eqn:E1; bool_prop; [by rewrite Hlt by lia|]. destruct (e - 1023 + 1 <? L) eqn:E2; bool_prop; [by rewrite Hgt by lia|]. assert (L = e - 1023 + 1) as EL by lia. clear Hlt Hgt E1 E2.
  rewrite Et. assert (((m_length x - 1) * digitBits + t) mod digitBits = t) as -> by (rewrite Z.add_comm, Z_mod_plus_full; apply Z.mod_small; lia). rewrite Z.eqb_refl. cbn [ASSERT mbind res_bind].
  pose proof (compare_mantissa_spec x t m (B ^ (m_length x - 1) * ((2 ^ 52 + m) * 2 ^ (t + 12))) Hx Hne Ht Hmsd Hm eq_refl) as Hcm. fold msd in Hcm. rewrite Hcm. do 2 f_equal. pose proof (bits_nonneg (m_length x - 1) ltac:(lia)) as Hbn.
  assert ((2 ^ 52 + m) * 2 ^ (e - 1075 + 1074) = 2 ^ 1010 * (B ^ (m_length x - 1) * ((2 ^ 52 + m) * 2 ^ (t + 12)))) as ->.
  { rewrite pow_B_bits by lia. replace (e - 1075 + 1074) with (1010 + digitBits * (m_length x - 1) + (t + 12)) by lia. rewrite (Z.pow_add_r 2 (1010 + _)), (Z.pow_add_r 2 1010) by lia. ring. }
  replace (val (digits x) * 2 ^ 1074) with (2 ^ 1010 * (val (digits x) * 2 ^ 64)) by (change (2 ^ 1074) with (2 ^ 1010 * 2 ^ 64); ring). apply Zmult_compare_compat_l. apply Z.lt_gt. by apply Z.pow_pos_nonneg.
Qed.

Lemma compareToDouble_spec x y : wf x -> is_u64 y -> compareToDouble x y = Ok (compare_real (value x) (decode_double y)).
Proof.
  intros Hx Hy. destruct (double_fields y Hy) as (_ & He & Hm). pose proof (raw_exponent y Hy) as Er. set (e := y / 2 ^ 52 mod 2 ^ 11) in *. set (m := y mod 2 ^ 52) in *. pose proof (value_sign x Hx) as Sx. pose proof (isZero_value x Hx) as Zx.
  assert (decode_double y = if e =? 0 then (if m =? 0 then S754_zero (2 ^ 63 <=? y) else S754_finite (2 ^ 63 <=? y) (Z.to_pos m) (-1074)) else if e =? 2047 then (if m =? 0 then S754_infinity (2 ^ 63 <=? y) else S754_nan) else S754_finite (2 ^ 63 <=? y) (Z.to_pos (2 ^ 52 + m)) (e - 1075)) as Ed by done.
  destruct (e =? 2047) eqn:E2.
  { bool_prop. unfold compareToDouble. rewrite Er, E2, Z.eqb_refl. rewrite E2 in Ed. cbn [Z.eqb] in Ed. unfold is_nan, is_positive_infinity. rewrite Ed. destruct (m =? 0); [|done]. by destruct (2 ^ 63 <=? y). }
  bool_prop. destruct (decide (sign x = double_below_zero y)) as [Es|Es].
  2:{ unfold compareToDouble. rewrite Er, (proj2 (Z.eqb_neq e 0x7FF)) by lia. assert (Bool.eqb (sign x) (double_below_zero y) = false) as -> by (by apply eqb_false_iff). cbn [negb]. unfold double_below_zero in Es. rewrite Ed in Es |- *. f_equal.
      assert (0 < 2 ^ 1074) as HS by (by apply Z.pow_pos_nonneg). destruct (e =? 0) eqn:E0; [destruct (m =? 0) eqn:E3|]; bool_prop; cbn [compare_real scaled] in *.
      - destruct (sign x); [|done]. rewrite (proj2 (Z.compare_lt_iff _ _)); [done|]. nia.
      - destruct (2 ^ 63 <=? y), (sign x); try done; [rewrite (proj2 (Z.compare_gt_iff _ _))|rewrite (proj2 (Z.compare_lt_iff _ _))]; [done|lia|done|lia].
      - assert (0 < Z.pos (Z.to_pos (2 ^ 52 + m)) * 2 ^ (e - 1075 + 1074)) by (apply Z.mul_pos_pos; [lia|apply Z.pow_pos_nonneg; lia]). destruct (2 ^ 63 <=? y), (sign x); try done; [rewrite (proj2 (Z.compare_gt_iff _ _))|rewrite (proj2 (Z.compare_lt_iff _ _))]; [done|nia|done|nia]. }
  assert (0 < 2 ^ 1074) as HS by (by apply Z.pow_pos_nonneg). destruct (isZero x) eqn:Ez.
  { unfold compareToDouble. rewrite Er, (proj2 (Z.eqb_neq e 0x7FF)), Es, eqb_reflx, Ez by lia. cbn [negb]. rewrite (proj1 Zx eq_refl) in Sx |- *. unfold is_zero, double_below_zero in *. rewrite Ed in Es |- *.
    assert (0 < 2 ^ (e - 1075 + 1074) \/ e = 0) as Hpe by (destruct (Z.eq_dec e 0); [by right|left; apply Z.pow_pos_nonneg; lia]).
    destruct (e =? 0) eqn:E0; [destruct (m =? 0) eqn:E3|]; bool_prop; cbn [compare_real scaled] in *; [done| |].
    - destruct (2 ^ 63 <=? y); rewrite Es in Sx; [lia|]. rewrite Z.mul_0_l, (proj2 (Z.compare_lt_iff _ _)) by lia. done.
    - destruct (2 ^ 63 <=? y); rewrite Es in Sx; [lia|]. rewrite Z.mul_0_l, (proj2 (Z.compare_lt_iff _ _)) by nia. done. }
  assert (value x <> 0) as Hnz by (intros E; apply Zx in E; congruence). rewrite isZero_spec in Ez. apply bool_decide_eq_false in Ez. destruct (e =? 0) eqn:E0; bool_prop.
  - unfold compareToDouble. rewrite Er, E0. cbn [Z.eqb]. rewrite Es, eqb_reflx, <- Es. cbn [negb]. rewrite isZero_spec, bool_decide_eq_false_2 by done. unfold is_zero, double_below_zero in *. rewrite Ed in Es |- *. destruct (m =? 0) eqn:E3; bool_prop.
    + rewrite Es in Sx |- *. cbn [negb ASSERT mbind res_bind compare_real scaled]. rewrite (proj2 (Z.compare_gt_iff _ _)); [done|]. nia.
    + change (0 - 0x3FF <? 0) with true. cbn iota. assert (sign x = (2 ^ 63 <=? y)) as Es' by (by destruct (2 ^ 63 <=? y)). rewrite compare_real_finite by done. rewrite Z2Pos.id by lia. change (2 ^ (-1074 + 1074)) with 1. rewrite (proj2 (Z.compare_gt_iff _ _)); [by rewrite Es'|].
      assert (1 <= val (digits x)) as HV by (pose proof (val_bound _ (wf_digits _ Hx)); rewrite value_magnitude in Hnz; destruct (sign x); lia). apply Z.lt_le_trans with (1 * 2 ^ 1074); [rewrite Z.mul_1_r; apply Z.lt_trans with (2 ^ 52); [lia|rewrite Z.mul_1_l; apply Z.pow_lt_mono_r; lia]|]. apply Z.mul_le_mono_nonneg_r; lia.
  - assert (sign x = (2 ^ 63 <=? y)) as Es' by (rewrite Es; unfold double_below_zero; rewrite Ed; by destruct (2 ^ 63 <=? y)). rewrite (compareToDouble_finite x y e m) by (done || lia). rewrite Ed, compare_real_finite by done. rewrite Z2Pos.id by lia. by rewrite Es'.
Qed.

(** ** Equality with a number *)
Lemma single_digit x : wf x -> m_length x = 1 -> val (digits x) = dig (digits x) 0.
Proof. intros Hx E. unfold m_length in E. rewrite <- high_0, high_succ, high_all by lia. lia. Qed.

Lemma equals_int x n : wf x -> is_s32 n -> equalsToNumber x (inl n) = Ok (bool_decide (value x = n)).
Proof.
  intros Hx Hn. unfold is_s32 in Hn. cbn [equalsToNumber]. pose proof (value_sign x Hx) as Hs. destruct (n =? 0) eqn:En; bool_prop.
  - f_equal. subst n. apply eq_true_iff_eq. by rewrite bool_decide_eq_true, isZero_value.
  - pose proof B_large as HB. pose proof (zlen_nonneg (digits x)) as Hz. fold (m_length x) in Hz. assert (is_digit (Z.abs n)) as Dn by (unfold is_digit; lia). rewrite (Digit_small _ Dn). destruct (m_length x =? 1) eqn:E1; bool_prop; cbn [andb].
    + pose proof (single_digit x Hx E1) as Ev. destruct (Bool.eqb (sign x) (n <? 0)) eqn:Es.
      * apply eqb_prop in Es. rewrite digit_dig by lia. cbn [mbind res_bind]. f_equal. apply eq_true_iff_eq. rewrite bool_decide_eq_true, Z.eqb_eq, <- Ev, value_magnitude, Es. destruct (n <? 0) eqn:E0; bool_prop; lia.
      * f_equal. symmetry. apply bool_decide_eq_false. intros E. rewrite E in Hs. apply eqb_false_iff in Es. destruct (sign x), (n <? 0) eqn:E0; bool_prop; (done || lia).
    + f_equal. symmetry. apply bool_decide_eq_false. intros E. assert (Z.abs n = val (digits x)) as Ea by (rewrite value_magnitude in E; pose proof (val_bound _ (wf_digits _ Hx)); destruct (sign x); lia).
      assert (digits x <> []) as Hne by (intros E0; rewrite E0 in Ea; cbn in Ea; lia). assert (0 < m_length x) by (unfold m_length; destruct (digits x); [done|zlia]). pose proof (trimmed_bound _ (wf_digits _ Hx) (wf_trimmed _ Hx) Hne) as Ht. change (zlen (digits x)) with (m_length x) in Ht.
      assert (B ^ 1 <= B ^ (m_length x - 1)) as Hp by (apply Z.pow_le_mono_r; lia). rewrite Z.pow_1_r in Hp. lia.
Qed.
End double.
