(* ===== verification/BigIntProps.v ===== *)
(** * BigIntProps: what the big integers of the engine guarantee *)
From S2P Require Import Prelude Doubles BigInt BigIntFacts BigIntAdd BigIntMul BigIntDivide BigIntBits BigIntBitwise BigIntShifts.
From S2P Require Import BigIntText BigIntParse BigIntPrint BigIntRoundtrip BigIntDouble.
From Stdlib Require Import SpecFloat.
Local Open Scope Z_scope.

(** A result is the big integer of a number, and satisfies the invariant. *)
Definition returns `{DigitConfig} (r : res JSBigInt) (v : Z) : Prop := exists z, r = Ok z /\ wf z /\ value z = v.

Section props.
Context `{DigitConfig}.
Local Abbreviation B := (2 ^ digitBits).

(** C12: sums, differences, products and negations of well-formed big integers are the exact ones and well formed; an
    out-of-memory error is thrown only when an operand already has the largest number of digits, or the factors have more
    than that together.  No digit outside of an operand is read. *)
Theorem BigInt_arithmetic x y :
  wf x -> wf y ->
  (returns (add x y) (value x + value y) \/ (add x y = Throw OutOfMemoryError /\ Z.max (m_length x) (m_length y) = maxLength)) /\
  (returns (sub x y) (value x - value y) \/ (sub x y = Throw OutOfMemoryError /\ Z.max (m_length x) (m_length y) = maxLength)) /\
  (returns (multiply x y) (value x * value y) \/ (multiply x y = Throw OutOfMemoryError /\ maxLength < m_length x + m_length y)) /\
  returns (unaryMinus x) (- value x).
Proof.
  intros Hx Hy. split; [destruct (bigint_add_spec x y Hx Hy) as [(-> & -> & _)|?]; auto|]. split; [destruct (sub_spec x y Hx Hy) as [(-> & -> & _)|?]; auto|].
  split; [destruct (multiply_spec x y Hx Hy) as [(-> & ? & _)|?]; auto|]. by apply unaryMinus_spec.
Qed.

(** C9: [divide] and [remainder] give the quotient rounded towards zero and its remainder, by the division of one digit or
    by Knuth's algorithm D; a divisor of zero throws, and a dividend of the largest number of digits runs out of memory
    when it is divided by a shorter one of at least two digits.  All the estimates of quotient digits are corrected. *)
Theorem BigInt_division x y :
  wf x -> wf y ->
  (value y = 0 -> divide x y = Throw DivisionByZero /\ remainder x y = Throw DivisionByZero) /\
  (value y <> 0 ->
    (returns (divide x y) (Z.quot (value x) (value y)) \/ (divide x y = Throw OutOfMemoryError /\ division_too_long x y)) /\
    (returns (remainder x y) (Z.rem (value x) (value y)) \/ (remainder x y = Throw OutOfMemoryError /\ division_too_long x y))).
Proof.
  intros Hx Hy. unfold returns. pose proof (divide_spec x y Hx Hy) as Hd. pose proof (remainder_spec x y Hx Hy) as Hr. split.
  - intros Ez. unfold divide, remainder. by rewrite (proj2 (isZero_value y Hy) Ez).
  - intros Hnz. split; [destruct Hd as [[_ Ez]|[Hd|[_ Hd]]]|destruct Hr as [[_ Ez]|[Hr|[_ Hr]]]]; (done || by auto).
Qed.

(** C16: the bitwise operations are those of the two's complement of unbounded length, on operands of either sign; only an
    operand of the largest number of digits can make [bitwiseAnd], [bitwiseXor] and [bitwiseNot] run out of memory. *)
Theorem BigInt_bitwise x y :
  wf x -> wf y ->
  (returns (bitwiseAnd x y) (Z.land (value x) (value y)) \/ (bitwiseAnd x y = Throw OutOfMemoryError /\ Z.max (m_length x) (m_length y) = maxLength)) /\
  returns (bitwiseOr x y) (Z.lor (value x) (value y)) /\
  (returns (bitwiseXor x y) (Z.lxor (value x) (value y)) \/ (bitwiseXor x y = Throw OutOfMemoryError /\ Z.max (m_length x) (m_length y) = maxLength)) /\
  (returns (bitwiseNot x) (Z.lnot (value x)) \/ (bitwiseNot x = Throw OutOfMemoryError /\ value x + 1 = B ^ maxLength)).
Proof.
  intros Hx Hy. split; [destruct (bitwiseAnd_spec x y Hx Hy) as [(-> & -> & _)|?]; auto|]. split; [by apply bitwiseOr_spec|].
  split; [destruct (bitwiseXor_spec x y Hx Hy) as [(-> & -> & _)|?]; auto|]. destruct (bitwiseNot_spec x Hx) as [?|?]; auto.
Qed.

(** The value of a shift by so many bits to the left, or to the right. *)
Lemma value_nonzero x : wf x -> isZero x = false -> digits x <> [] /\ value x <> 0.
Proof.
  intros Hx Hz. split; [|rewrite <- isZero_value by done; by rewrite Hz]. intros E. rewrite isZero_spec in Hz. by apply bool_decide_eq_false in Hz.
Qed.

Lemma abs_value x : wf x -> Z.abs (value x) = val (digits x).
Proof. intros Hx. pose proof (val_bound _ (wf_digits _ Hx)). unfold value. destruct (sign x); lia. Qed.

Lemma left_case x y : wf x -> wf y -> isZero x = false -> isZero y = false ->
  returns (leftShiftByAbsolute x y) (Z.shiftl (value x) (Z.abs (value y))) \/ (leftShiftByAbsolute x y = Throw TooBig /\ B ^ maxLength <= Z.abs (value x) * 2 ^ Z.abs (value y)).
Proof.
  intros Hx Hy Zx Zy. destruct (value_nonzero x Hx Zx) as [Dx Vx], (value_nonzero y Hy Zy) as [Dy Vy]. rewrite !abs_value by done. rewrite Z.shiftl_mul_pow2 by (pose proof (abs_value y Hy); lia).
  destruct (leftShiftByAbsolute_spec x y Hx Hy Dx Dy) as [[-> ?]|?]; auto.
Qed.

Lemma right_case x y : wf x -> wf y -> isZero x = false -> isZero y = false ->
  returns (rightShiftByAbsolute x y) (Z.shiftr (value x) (Z.abs (value y))) \/ reads_fresh x (Z.abs (value y)) = true.
Proof.
  intros Hx Hy Zx Zy. destruct (value_nonzero x Hx Zx) as [Dx Vx], (value_nonzero y Hy Zy) as [Dy Vy]. rewrite !abs_value by done. pose proof (rightShiftByAbsolute_spec x y Hx Hy Dx Dy) as Hs. cbv zeta in Hs. unfold stale_digit in Hs.
  destruct (reads_fresh x (val (digits y))); [by right|left]. rewrite Z.mul_0_l, Z.sub_0_r in Hs. by destruct Hs as [(_ & ? & _)|?].
Qed.

(** C17: shifts multiply by a power of two, or divide by one and round down, for operands and amounts of either sign; a
    result of more than the largest number of digits throws.  The exception is a right shift of a negative number by whole
    digits that shifts out a bit and whose top digit has all its bits set: there the code adds a digit to the result that
    it does not write ([reads_fresh]). *)
Theorem BigInt_shifts x y :
  wf x -> wf y ->
  (returns (leftShift x y) (Z.shiftl (value x) (value y)) \/
   (leftShift x y = Throw TooBig /\ 0 < value y /\ B ^ maxLength <= Z.abs (value x) * 2 ^ value y) \/
   (value y < 0 /\ reads_fresh x (- value y) = true)) /\
  (returns (signedRightShift x y) (Z.shiftr (value x) (value y)) \/
   (signedRightShift x y = Throw TooBig /\ value y < 0 /\ B ^ maxLength <= Z.abs (value x) * 2 ^ (- value y)) \/
   (0 < value y /\ reads_fresh x (value y) = true)).
Proof.
  intros Hx Hy. unfold leftShift, signedRightShift. destruct (isZero y) eqn:Zy; cbn [orb].
  { rewrite (proj1 (isZero_value y Hy) Zy). split; left; exists x; [by rewrite Z.shiftl_0_r|by rewrite Z.shiftr_0_r]. }
  destruct (isZero x) eqn:Zx; [rewrite (proj1 (isZero_value x Hx) Zx); split; left; exists x; rewrite (proj1 (isZero_value x Hx) Zx); [by rewrite Z.shiftl_0_l|by rewrite Z.shiftr_0_l]|].
  pose proof (left_case x y Hx Hy Zx Zy) as Hl. pose proof (right_case x y Hx Hy Zx Zy) as Hr. destruct (value_nonzero y Hy Zy) as [_ Vy]. pose proof (value_sign y Hy) as Sy. destruct (sign y).
  - rewrite Z.abs_neq in Hl, Hr by lia. replace (Z.shiftl (value x) (value y)) with (Z.shiftr (value x) (- value y)) by (by rewrite Z.shiftr_opp_r). replace (Z.shiftr (value x) (value y)) with (Z.shiftl (value x) (- value y)) by (by rewrite Z.shiftl_opp_r). split; [destruct Hr as [?|?]|destruct Hl as [?|[? ?]]]; auto.
  - rewrite (Z.abs_eq (value y)) in Hl, Hr by lia. assert (0 < value y) by lia. split; [destruct Hl as [?|[? ?]]|destruct Hr as [?|?]]; auto.
Qed.

(** C18: [compare], [equals], [compareToDouble] and [equalsToNumber] are the comparisons of the numbers: of two big integers,
    of a big integer with an [int32_t] and with the exact value of a double, infinities and NaN included. *)
Theorem BigInt_comparisons x y n d :
  wf x -> wf y -> is_s32 n -> is_u64 d ->
  compare x y = Ok (compare_Z (value x) (value y)) /\ equals x y = Ok (bool_decide (value x = value y)) /\
  compareToDouble x d = Ok (compare_real (value x) (decode_double d)) /\
  equalsToNumber x (inl n) = Ok (bool_decide (value x = n)) /\
  equalsToNumber x (inr d) = Ok (bool_decide (compare_real (value x) (decode_double d) = Equal)).
Proof.
  intros Hx Hy Hn Hd. split; [by apply compare_spec|]. split; [by apply equals_spec|]. split; [by apply compareToDouble_spec|]. split; [by apply equals_int|]. cbn [equalsToNumber]. by rewrite compareToDouble_spec.
Qed.

(** C19: the portable multiplication of two digits by their halves gives the two digits of the product as the one with a
    type of two digits does, and the portable division of two digits by one, after normalisation and with at most two
    corrections for each half of the quotient, agrees with the division instruction. *)
Theorem BigInt_digit_equivalence a b high low d :
  is_digit a -> is_digit b -> is_digit high -> is_digit low -> is_digit d -> high < d ->
  digitMul_half a b = digitMul_two a b /\ digitMul_two a b = ((a * b) mod B, a * b / B) /\
  digitDiv_portable high low d = div_instruction high low d /\ div_instruction high low d = Ok ((high * B + low) / d, (high * B + low) mod d).
Proof.
  intros Ha Hb Hh Hl Hd Hlt. rewrite digitMul_half_spec, digitMul_two_spec, digitDiv_portable_spec by done. assert (div_instruction high low d = Ok ((high * B + low) / d, (high * B + low) mod d)) as ->; [|done].
  unfold div_instruction, is_digit in *. rewrite (proj2 (Z.eqb_neq d 0)) by lia. rewrite Z_leb_false; [done|]. apply Z.div_lt_upper_bound; nia.
Qed.

(** C13: the text of a big integer in every radix from 2 to 36, made bit by bit or by dividing by the largest power of the
    radix that fits a digit, is the numeral of its value: a minus sign when it is negative and the digits without leading
    zeros.  The text fits what was computed for it in advance, and no assertion fails. *)
Theorem BigInt_toString x radix : wf x -> 2 <= radix <= 36 -> toString x radix = Ok (text_of radix (value x)).
Proof. intros. by apply toString_spec. Qed.


(** C14: a big integer of up to a million bits that is printed is read back: in decimal with its sign, and in any radix when
    the sign is given apart. *)
Theorem BigInt_roundtrip isSpaceSeparator x radix mode :
  wf x -> 2 <= radix <= 36 -> digitBits * m_length x <= 1000000 ->
  (text ← toString x 10; parseInt_string isSpaceSeparator text mode) = Ok (Some x) /\
  exists text, toString x radix = Ok (sign_text x ++ text) /\
    forall exec, parseInt_radix isSpaceSeparator exec text radix mode (if sign x then ParseSigned else ParseUnsigned) = Ok (Some x).
Proof.
  intros Hx Hr Hb. split; [rewrite toString_spec by (done || lia); cbn [mbind res_bind]; by apply parseInt_string_text|]. exists (numeral radix (Z.abs (value x))). rewrite toString_spec by done. unfold text_of. split; [|intros exec; by apply parseInt_radix_numeral].
  do 2 f_equal. unfold sign_text. pose proof (value_sign x Hx) as Hs. destruct (sign x); [by rewrite Z_ltb_true by lia|by rewrite Z_ltb_false by lia].
Qed.
End props.

(** ** Examples *)
#[export] Instance config32 : DigitConfig.
Proof.
  refine {| digitBits := 32; have_two_digit := false; have_div_instruction := false; fresh_digits n := replicate (Z.to_nat n) 7; fresh_chars n := replicate (Z.to_nat n) 0 |}; [by left|..].
  - intros n Hn. unfold zlen. rewrite length_replicate. split; [lia|]. by apply Forall_replicate.
  - intros n Hn. unfold zlen. rewrite length_replicate. lia.
Defined.

(** The invariant as a test. *)
Definition wf_test `{DigitConfig} (x : JSBigInt) : bool :=
  forallb (fun d => (0 <=? d) && (d <? 2 ^ digitBits)) (digits x) && (m_length x <=? maxLength) &&
  match rev (digits x) with [] => negb (sign x) | d :: _ => negb (d =? 0) end.

Lemma wf_test_ok `{DigitConfig} x : wf_test x = true -> wf x.
Proof.
  unfold wf_test. intros Ht. apply andb_true_iff in Ht as [Ht H3]. apply andb_true_iff in Ht as [H1 H2]. bool_prop. split.
  - apply Forall_forall. intros d Hd. rewrite forallb_forall in H1. specialize (H1 d). rewrite <- list_elem_of_In in H1. specialize (H1 Hd). apply andb_true_iff in H1 as [? ?]. unfold is_digit. bool_prop. lia.
  - intros i -> Hi E. destruct (rev (digits x)) as [|d l] eqn:Er; [apply (f_equal (@rev Z)) in Er; rewrite rev_involutive in Er; rewrite Er in Hi; exfalso; by apply Hi|]. apply (f_equal (@rev Z)) in Er. rewrite rev_involutive in Er. cbn [rev] in Er.
    unfold dig in E. rewrite Er, zget_middle in E by (rewrite zlen_app; change (zlen [d]) with 1; lia). cbn in E. subst d. done.
  - intros E. rewrite E in H3. by destruct (sign x).
  - done.
Qed.

(** Two numbers of two digits. *)
Definition sample_x : JSBigInt := mkBigInt true [1; 4294967295].
Definition sample_y : JSBigInt := mkBigInt false [5; 3].
Definition sample_shift : JSBigInt := mkBigInt false [33].

Lemma BigInt_arithmetic_witness : returns (unaryMinus sample_x) (- value sample_x).
Proof. exact (proj2 (proj2 (proj2 (BigInt_arithmetic sample_x sample_y (wf_test_ok sample_x eq_refl) (wf_test_ok sample_y eq_refl))))). Defined.

Lemma BigInt_division_witness :
  (returns (divide sample_x sample_y) (Z.quot (value sample_x) (value sample_y)) \/ (divide sample_x sample_y = Throw OutOfMemoryError /\ division_too_long sample_x sample_y)).
Proof.
  assert (value sample_y <> 0) as Hnz by (by vm_compute). exact (proj1 (proj2 (BigInt_division sample_x sample_y (wf_test_ok sample_x eq_refl) (wf_test_ok sample_y eq_refl)) Hnz)).
Defined.

Lemma BigInt_bitwise_witness : returns (bitwiseOr sample_x sample_y) (Z.lor (value sample_x) (value sample_y)).
Proof. exact (proj1 (proj2 (BigInt_bitwise sample_x sample_y (wf_test_ok sample_x eq_refl) (wf_test_ok sample_y eq_refl)))). Defined.

Lemma BigInt_shifts_witness :
  returns (leftShift sample_x sample_shift) (Z.shiftl (value sample_x) (value sample_shift)) \/
  (leftShift sample_x sample_shift = Throw TooBig /\ 0 < value sample_shift /\ (2 ^ digitBits) ^ maxLength <= Z.abs (value sample_x) * 2 ^ value sample_shift) \/
  (value sample_shift < 0 /\ reads_fresh sample_x (- value sample_shift) = true).
Proof. exact (proj1 (BigInt_shifts sample_x sample_shift (wf_test_ok sample_x eq_refl) (wf_test_ok sample_shift eq_refl))). Defined.

Lemma BigInt_comparisons_witness : compare sample_x sample_y = Ok LessThan /\ compareToDouble sample_y (double_of_int 12884901893) = Ok Equal.
Proof.
  assert (is_s32 7) as Hn by (by split). assert (is_u64 (double_of_int 12884901893)) as Hd by (by vm_compute).
  assert (wf sample_x) as Hx by exact (wf_test_ok sample_x eq_refl). assert (wf sample_y) as Hy by exact (wf_test_ok sample_y eq_refl).
  destruct (BigInt_comparisons sample_x sample_y 7 (double_of_int 12884901893) Hx Hy Hn Hd) as (E & _).
  destruct (BigInt_comparisons sample_y sample_y 7 (double_of_int 12884901893) Hy Hy Hn Hd) as (_ & _ & E' & _). rewrite E, E'. split; reflexivity.
Defined.

Lemma BigInt_digit_equivalence_witness : digitMul_half 4294967295 4294967295 = digitMul_two 4294967295 4294967295.
Proof.
  assert (is_digit 4294967295) as Ha by (by split). assert (is_digit 5) as Hd by (by split). assert (is_digit 4) as Hh by (by split).
  exact (proj1 (BigInt_digit_equivalence 4294967295 4294967295 4 4294967295 5 Ha Ha Hh Ha Hd eq_refl)).
Defined.

Lemma BigInt_toString_witness : toString sample_x 10 = Ok (text_of 10 (value sample_x)).
Proof. apply (BigInt_toString sample_x 10); [exact (wf_test_ok sample_x eq_refl)|lia]. Defined.


Lemma BigInt_roundtrip_witness : (text ← toString sample_x 10; parseInt_string (fun _ => false) text IgnoreExceptions) = Ok (Some sample_x).
Proof.
  assert (2 <= 36 <= 36) as Hr by lia. assert (digitBits * m_length sample_x <= 1000000) as Hb by (by vm_compute). exact (proj1 (BigInt_roundtrip (fun _ => false) sample_x 36 IgnoreExceptions (wf_test_ok sample_x eq_refl) Hr Hb)).
Defined.

(** ** Defects *)
(** A right shift of a negative number of two 32-bit digits, the upper one with all bits set, by one digit returns a number that depends on the contents of fresh memory:
    [roundingCanOverflow] lengthens the result by a digit that is never written before it is incremented. *)
Theorem BigInt_shift_reads_fresh_memory :
  wf sample_x /\ wf (mkBigInt false [32]) /\ Z.shiftr (value sample_x) 32 = - 2 ^ 32 /\
  signedRightShift sample_x (mkBigInt false [32]) = Ok (mkBigInt true [0; 8]).
Proof. split; [by apply wf_test_ok|]. split; [by apply wf_test_ok|]. split; vm_compute; reflexivity. Qed.

(** A prefix followed by spaces, and a sign alone, are read as zero, although a prefix alone is a syntax error. *)
Lemma parse_prefix_and_spaces :
  parseInt_string (fun _ => false) [48; 120; 32] ThrowExceptions = Ok (Some (mkBigInt false [])) /\ parseInt_string (fun _ => false) [45] ThrowExceptions = Ok (Some (mkBigInt false [])) /\
  parseInt_string (fun _ => false) [48; 120] ThrowExceptions = Throw SyntaxError.
Proof. split; [|split]; vm_compute; reflexivity. Qed.

(** Without an [ExecState] a literal that needs too much space makes the code dereference the null pointer. *)
Lemma parse_null_pointer `{DigitConfig} isSpaceSeparator data radix mode sg :
  2 <= radix <= 36 -> 0 < zlen data < 2 ^ 31 -> significant (isStrWhiteSpace isSpaceSeparator) data <> [] -> too_long radix (zlen (significant (isStrWhiteSpace isSpaceSeparator) data)) = true ->
  parseInt_radix isSpaceSeparator false data radix mode sg = Fault.
Proof.
  intros Hr Hl Hne Ht. pose proof (parseInt_digits_spec isSpaceSeparator false data 0 radix mode sg DisallowEmptyString Hr ltac:(lia) ltac:(lia)) as Hs. rewrite (proj2 (Z.eqb_neq 0 _)) in Hs by lia. unfold parse_result in Hs.
  change (drop (Z.to_nat 0) data) with data in Hs. destruct (significant _ data) as [|c l] eqn:E; [done|]. by rewrite Ht in Hs.
Qed.
