(* ===== verification/ParkingBucket.v ===== *)
(** * ParkingBucket: the queue of the threads that are parked in a bucket
      (src/Source/WTF/wtf/ParkingLot.cpp: [ThreadData], [Bucket])

    The queue is a singly linked list through the data of the threads, with a pointer to its first and its last element.
    The data of threads are on a heap; a dangling pointer or a failed assertion is [None]. *)
From stdpp Require Import gmap.
From S2P Require Import Prelude.
Local Open Scope Z_scope.

(** Threads are known by the addresses of their data. *)
Definition tid : Type := positive.

Record ThreadData : Type := mkThreadData { address : option Z; nextInQueue : option tid; token : Z }.

Inductive DequeueResult : Type := Ignore | RemoveAndContinue | RemoveAndStop.

Record Bucket : Type := mkBucket { queueHead : option tid; queueTail : option tid; nextFairTime : Z }.

(** The bucket and the heap of thread data. *)
Record lot : Type := mkLot { bucket : Bucket; threads : gmap tid ThreadData }.

Definition set_head (b : Bucket) (p : option tid) : Bucket := mkBucket p (queueTail b) (nextFairTime b).
Definition set_tail (b : Bucket) (p : option tid) : Bucket := mkBucket (queueHead b) p (nextFairTime b).
Definition set_fair (b : Bucket) (t : Z) : Bucket := mkBucket (queueHead b) (queueTail b) t.
Definition set_next (h : gmap tid ThreadData) (t : tid) (p : option tid) : option (gmap tid ThreadData) :=
  d ← h !! t; Some (<[t := mkThreadData (address d) p (token d)]> h).

Definition guard (b : bool) : option unit := if b then Some () else None.
Definition is_null {A} (p : option A) : bool := match p with None => true | Some _ => false end.

Definition Bucket_enqueue (l : lot) (data : tid) : option lot :=
  d ← threads l !! data;
  _ ← guard (negb (is_null (address d)));
  _ ← guard (is_null (nextInQueue d));
  match queueTail (bucket l) with
  | Some tail => h ← set_next (threads l) tail (Some data); Some (mkLot (set_tail (bucket l) (Some data)) h)
  | None => Some (mkLot (mkBucket (Some data) (Some data) (nextFairTime (bucket l))) (threads l))
  end.

(** [currentPtr] points to [queueHead] or to the link of an element. *)
Inductive link : Type := HeadLink | NextLink (t : tid).

Definition deref_link (l : lot) (p : link) : option (option tid) :=
  match p with HeadLink => Some (queueHead (bucket l)) | NextLink t => d ← threads l !! t; Some (nextInQueue d) end.
Definition store_link (l : lot) (p : link) (v : option tid) : option lot :=
  match p with
  | HeadLink => Some (mkLot (set_head (bucket l) v) (threads l))
  | NextLink t => h ← set_next (threads l) t v; Some (mkLot (bucket l) h)
  end.

Section dequeue.
(** The functor, with the variables it captures; of an element it reads the address. *)
Context {S : Type} (functor : S -> tid -> option Z -> bool -> S * DequeueResult).

(** [current] is taken out of the queue. *)
Definition remove_current (l : lot) (currentPtr : link) (previous : option tid) (current : tid) : option lot :=
  let l := if bool_decide (Some current = queueTail (bucket l)) then mkLot (set_tail (bucket l) previous) (threads l) else l in
  d ← threads l !! current;
  l ← store_link l currentPtr (nextInQueue d);
  h ← set_next (threads l) current None;
  Some (mkLot (bucket l) h).

Fixpoint dequeue_loop (fuel : nat) (l : lot) (s : S) (timeToBeFair : bool) (currentPtr : link) (previous : option tid) (didDequeue : bool) : option (lot * S * bool) :=
  match fuel with
  | O => None
  | Datatypes.S fuel =>
    current ← deref_link l currentPtr;
    match current with
    | None => Some (l, s, didDequeue)
    | Some current =>
      d ← threads l !! current;
      let '(s, result) := functor s current (address d) timeToBeFair in
      match result with
      | Ignore => dequeue_loop fuel l s timeToBeFair (NextLink current) (Some current) didDequeue
      | RemoveAndContinue => l ← remove_current l currentPtr previous current; dequeue_loop fuel l s timeToBeFair currentPtr previous true
      | RemoveAndStop => l ← remove_current l currentPtr previous current; Some (l, s, true)
      end
    end
  end.

(** [time] is the present and [random] the milliseconds until the next fair time. *)
Definition genericDequeue (fuel : nat) (l : lot) (s : S) (time random : Z) : option (lot * S) :=
  match queueHead (bucket l) with
  | None => Some (l, s)
  | Some _ =>
    let timeToBeFair := nextFairTime (bucket l) <? time in
    '(l, s, didDequeue) ← dequeue_loop fuel l s timeToBeFair HeadLink None false;
    let l := if timeToBeFair && didDequeue then mkLot (set_fair (bucket l) (time + random)) (threads l) else l in
    _ ← guard (Bool.eqb (is_null (queueHead (bucket l))) (is_null (queueTail (bucket l))));
    Some (l, s)
  end.
End dequeue.

(** ** What the callers take out *)
Definition dequeue_functor (s : option tid) (element : tid) (addr : option Z) (_ : bool) : option tid * DequeueResult := (Some element, RemoveAndStop).

(** The thread found, and whether it is time to be fair. *)
Definition unparkOne_functor (parked : Z) (s : option tid * bool) (element : tid) (addr : option Z) (passedTimeToBeFair : bool) : (option tid * bool) * DequeueResult :=
  if negb (bool_decide (addr = Some parked)) then (s, Ignore) else ((Some element, passedTimeToBeFair), RemoveAndStop).

Definition unparkCount_functor (parked count : Z) (s : list tid) (element : tid) (addr : option Z) (_ : bool) : list tid * DequeueResult :=
  if negb (bool_decide (addr = Some parked)) then (s, Ignore)
  else let s := s ++ [element] in (s, if zlen s =? count then RemoveAndStop else RemoveAndContinue).

(** A thread that timed out removes itself. *)
Definition timeout_functor (me : tid) (s : bool) (element : tid) (addr : option Z) (_ : bool) : bool * DequeueResult :=
  if bool_decide (element = me) then (true, RemoveAndStop) else (s, Ignore).

(** ** Operations on a bucket, each under its lock *)
Definition update (h : gmap tid ThreadData) (t : tid) (f : ThreadData -> ThreadData) : option (gmap tid ThreadData) := d ← h !! t; Some (<[t := f d]> h).
Definition set_address (a : option Z) (d : ThreadData) : ThreadData := mkThreadData a (nextInQueue d) (token d).
Definition set_token (k : Z) (d : ThreadData) : ThreadData := mkThreadData (address d) (nextInQueue d) k.

(** [parkConditionallyImpl] up to the sleep; [validation] is what the functor returned. *)
Definition park (l : lot) (me : tid) (addr : Z) (validation : bool) : option (lot * bool) :=
  h ← update (threads l) me (set_token 0);
  d ← h !! me;
  _ ← guard (is_null (address d));
  let l := mkLot (bucket l) h in
  if validation then
    h ← update h me (set_address (Some addr));
    l ← Bucket_enqueue (mkLot (bucket l) h) me;
    Some (l, true)
  else Some (l, false).

Record UnparkResult : Type := mkUnparkResult { didUnparkThread : bool; mayHaveMoreThreads : bool; timeToBeFair : bool }.

Definition has_queue (l : lot) : bool := negb (is_null (queueHead (bucket l))).

(** The thread is woken up: its address is cleared. *)
Definition wake (l : lot) (t : tid) : option lot :=
  d ← threads l !! t;
  _ ← guard (negb (is_null (address d)));
  h ← update (threads l) t (set_address None);
  Some (mkLot (bucket l) h).

Definition unparkOneImpl (fuel : nat) (l : lot) (addr time random : Z) (callback : UnparkResult -> Z) : option (lot * UnparkResult * option tid) :=
  '(l, (threadData, timeToBeFair)) ← genericDequeue (unparkOne_functor addr) fuel l (None, false) time random;
  let didUnparkThread := negb (is_null threadData) in
  _ ← guard (negb timeToBeFair || didUnparkThread);
  let result := mkUnparkResult didUnparkThread (didUnparkThread && has_queue l) timeToBeFair in
  match threadData with
  | Some t =>
    h ← update (threads l) t (set_token (callback result));
    l ← wake (mkLot (bucket l) h) t;
    Some (l, result, threadData)
  | None => Some (l, result, threadData)
  end.

Fixpoint wake_all (l : lot) (ts : list tid) : option lot :=
  match ts with [] => Some l | t :: ts => l ← wake l t; wake_all l ts end.

Definition unparkCount (fuel : nat) (l : lot) (addr count time random : Z) : option (lot * list tid) :=
  if count =? 0 then Some (l, [])
  else
    '(l, threadDatas) ← genericDequeue (unparkCount_functor addr count) fuel l [] time random;
    l ← wake_all l threadDatas;
    Some (l, threadDatas).

(** A thread whose time is over; the result says whether it was still in the queue.  When it was not, it waits until its
    address is cleared, which is so when the one who dequeued it has woken it up. *)
Definition park_timeout (fuel : nat) (l : lot) (me : tid) (time random : Z) : option (lot * bool) :=
  '(l, didDequeue) ← genericDequeue (timeout_functor me) fuel l false time random;
  d ← threads l !! me;
  _ ← guard (is_null (nextInQueue d));
  h ← update (threads l) me (set_address None);
  Some (mkLot (bucket l) h, didDequeue).
