(* ===== verification/ParkingBucketProps.v ===== *)
(** * ParkingBucketProps: the linked queue of a bucket is a sequence, and dequeuing takes elements out of it in order *)
From stdpp Require Import gmap.
From S2P Require Import Prelude ParkingBucket.
Local Open Scope Z_scope.

(** ** Chains *)
Definition or_end (p q : option tid) : option tid := match p with Some _ => p | None => q end.

(** The links lead through the elements of [q] and end with [e]. *)
Fixpoint chain (h : gmap tid ThreadData) (q : list tid) (e : option tid) : Prop :=
  match q with [] => True | t :: q => (exists d, h !! t = Some d /\ nextInQueue d = or_end (head q) e) /\ chain h q e end.

Lemma chain_app h q1 q2 e : chain h (q1 ++ q2) e <-> chain h q1 (or_end (head q2) e) /\ chain h q2 e.
Proof.
  induction q1 as [|t q1 IH]; cbn [app chain]; [tauto|]. rewrite IH. destruct q1 as [|t' q1]; cbn [app head or_end]; [|tauto]. destruct q2; cbn; tauto.
Qed.

Lemma chain_frame h t d q e : t ∉ q -> chain (<[t := d]> h) q e <-> chain h q e.
Proof.
  induction q as [|t' q IH]; cbn [chain]; [done|]. intros [Hne Hnq]%not_elem_of_cons. rewrite IH by done. by rewrite lookup_insert_ne by done.
Qed.

Record queue_rep (l : lot) (q : list tid) : Prop := {
  rep_head : queueHead (bucket l) = head q;
  rep_tail : queueTail (bucket l) = last q;
  rep_nodup : NoDup q;
  rep_chain : chain (threads l) q None;
  rep_free t d : threads l !! t = Some d -> t ∉ q -> nextInQueue d = None
}.

(** Everything but the links stays. *)
Definition same_data (l l' : lot) : Prop :=
  (forall t, (fun d => (address d, token d)) <$> (threads l !! t) = (fun d => (address d, token d)) <$> (threads l' !! t)) /\ nextFairTime (bucket l) = nextFairTime (bucket l').

#[export] Instance same_data_pre : PreOrder same_data.
Proof. split; [by split|]. intros a b c [H1 H2] [H3 H4]. split; [intros t; by rewrite H1, H3|congruence]. Qed.

Lemma same_data_next l l' t d p :
  nextFairTime (bucket l) = nextFairTime (bucket l') -> threads l !! t = Some d -> threads l' = <[t := mkThreadData (address d) p (token d)]> (threads l) -> same_data l l'.
Proof.
  intros Hf Ht Hl. split; [|done]. intros t'. rewrite Hl. destruct (decide (t = t')) as [<-|Hne]; [by rewrite lookup_insert_eq, Ht|by rewrite lookup_insert_ne].
Qed.

Lemma chain_elem h q e t : chain h q e -> t ∈ q -> is_Some (h !! t).
Proof. induction q as [|t' q IH]; cbn [chain]; intros Hc Ht; [by apply not_elem_of_nil in Ht|]. destruct Hc as [(d & Hd & _) Hc]. apply elem_of_cons in Ht as [->|Ht]; [by eexists|by apply IH]. Qed.

Lemma enqueue_spec l q t d :
  queue_rep l q -> threads l !! t = Some d -> address d <> None -> t ∉ q ->
  exists l', Bucket_enqueue l t = Some l' /\ queue_rep l' (q ++ [t]) /\ same_data l l'.
Proof.
  intros [Hh Ht Hn Hc Hf] Hd Ha Hnt. unfold Bucket_enqueue. rewrite Hd. cbn [mbind option_bind]. destruct (address d) as [a|] eqn:Ea; [|done]. cbn [is_null negb guard]. rewrite (Hf t d Hd Hnt). cbn [is_null guard]. rewrite Ht.
  assert (NoDup (q ++ [t])) as Hn' by (apply NoDup_app; split; [done|]; split; [intros x Hx ->%list_elem_of_singleton; done|apply NoDup_singleton]).
  destruct (last q) as [u|] eqn:El.
  - apply last_Some in El as [q' ->]. apply chain_app in Hc as [Hc1 [(du & Hu & Hnu) _]]. unfold set_next. rewrite Hu. cbn [mbind option_bind]. eexists. split; [done|]. split; [|by apply (same_data_next l _ u du (Some t))].
    apply NoDup_app in Hn as (Hn1 & Hn2 & _). assert (u ∉ q') as Hu' by set_solver. assert (u <> t) as Hut by set_solver. split; cbn [bucket queueHead queueTail set_tail threads].
    + rewrite Hh. by destruct q'.
    + by rewrite last_snoc.
    + done.
    + rewrite <- app_assoc. apply chain_app. cbn [head app or_end] in Hc1 |- *. split; [by apply chain_frame|]. cbn [chain]. split; [eexists; split; [apply lookup_insert_eq|done]|]. split; [|done]. exists d. rewrite lookup_insert_ne by done. split; [done|]. by apply (Hf t).
    + intros t' d' Hd' Hnt'. rewrite lookup_insert_ne in Hd' by set_solver. apply (Hf t'); [done|set_solver].
  - apply last_None in El as ->. eexists. split; [done|]. split; [|by split]. split; cbn; try done.
    + split; [|done]. exists d. split; [done|]. by apply (Hf t).
    + intros t' d' Hd' Hnt'. apply (Hf t'); [done|set_solver].
Qed.

(** ** Taking out *)
(** The link that leads to the first element after [kept]. *)
Definition link_after (kept : list tid) : link := match last kept with None => HeadLink | Some t => NextLink t end.

Lemma last_middle (kept : list tid) c rest : last (kept ++ c :: rest) = last (c :: rest).
Proof. rewrite last_app. destruct (last (c :: rest)) eqn:E; [done|by apply last_None in E]. Qed.

Lemma remove_current_spec l kept c rest :
  queue_rep l (kept ++ c :: rest) -> exists l', remove_current l (link_after kept) (last kept) c = Some l' /\ queue_rep l' (kept ++ rest) /\ same_data l l'.
Proof.
  intros [Hh Ht Hn Hc Hf]. unfold remove_current. set (l1 := if bool_decide _ then _ else l). assert (threads l1 = threads l) as E1 by (unfold l1; by case_bool_decide). assert (queueHead (bucket l1) = queueHead (bucket l) /\ nextFairTime (bucket l1) = nextFairTime (bucket l)) as [E2 E3] by (unfold l1; by case_bool_decide).
  assert (NoDup (kept ++ rest) /\ (c ∉ kept) /\ (c ∉ rest)) as (Hn' & Hck & Hcr). { apply NoDup_app in Hn as (Hn1 & Hn2 & Hn3). apply NoDup_cons in Hn3 as [Hn3 Hn4]. split; [|set_solver]. apply NoDup_app. split; [done|]. split; [set_solver|done]. }
  assert (queueTail (bucket l1) = last (kept ++ rest)) as E4.
  { unfold l1. rewrite Ht, last_middle. case_bool_decide as Eb.
    - destruct rest as [|r rest]; [by rewrite app_nil_r|]. exfalso. apply Hcr. rewrite last_cons_cons in Eb. symmetry in Eb. apply last_Some_elem_of in Eb. done.
    - cbn [bucket]. rewrite Ht, last_middle. destruct rest as [|r rest]; [done|]. by rewrite last_middle. }
  apply chain_app in Hc as [Hc1 [(d & Hd & Hnd) Hc2]]. cbn [head or_end] in Hc1. rewrite E1, Hd. cbn [mbind option_bind]. assert (nextInQueue d = head rest) as End by (rewrite Hnd; by destruct rest). rewrite End. unfold link_after.
  destruct (last kept) as [u|] eqn:El; cbn [store_link].
  - apply last_Some in El as [k ->]. apply chain_app in Hc1 as [Hc1 [(du & Hu & Hnu) _]]. unfold set_next. rewrite E1, Hu. cbn [mbind option_bind threads bucket]. assert (u <> c) as Huc by set_solver. rewrite lookup_insert_ne by done. rewrite Hd. cbn [mbind option_bind]. eexists. split; [done|].
    rewrite <- !app_assoc in *. apply NoDup_app in Hn' as (Hn1 & Hn2 & Hn3). cbn [app] in Hn2, Hn3. apply NoDup_cons in Hn3 as [Hn3 Hn4]. assert (u ∉ k) as Huk by set_solver. split.
    + split; cbn [bucket threads].
      * rewrite E2, Hh. by destruct k.
      * done.
      * apply NoDup_app. split; [done|]. split; [done|]. by apply NoDup_cons.
      * apply chain_app. cbn [app head or_end]. split; [apply chain_frame; [set_solver|]; apply chain_frame; [done|]; exact Hc1|]. cbn [chain]. split.
        -- eexists. rewrite lookup_insert_ne by done. split; [apply lookup_insert_eq|]. cbn [nextInQueue]. by destruct rest.
        -- apply chain_frame; [done|]. apply chain_frame; [done|]. done.
      * intros t d' Hd' Hnt. destruct (decide (t = c)) as [->|Htc]; [rewrite lookup_insert_eq in Hd'; by injection Hd' as <-|]. rewrite lookup_insert_ne in Hd' by done. rewrite lookup_insert_ne in Hd' by set_solver. apply (Hf t); [done|set_solver].
    + etransitivity; [by apply (same_data_next l (mkLot (bucket l1) (<[u := mkThreadData (address du) (head rest) (token du)]> (threads l))) u du (head rest))|].
      apply (same_data_next _ _ c d None); [done| |done]. cbn [threads]. by rewrite lookup_insert_ne.
  - apply last_None in El as ->. cbn [app] in *. cbn [mbind option_bind threads bucket]. unfold set_next. rewrite E1, Hd. cbn [mbind option_bind]. eexists. split; [done|]. split.
    + split; cbn [bucket threads set_head queueHead queueTail]; try done.
      * by apply chain_frame.
      * intros t d' Hd' Hnt. destruct (decide (t = c)) as [->|Htc]; [rewrite lookup_insert_eq in Hd'; by injection Hd' as <-|]. rewrite lookup_insert_ne in Hd' by done. apply (Hf t); [done|set_solver].
    + by apply (same_data_next l _ c d None).
Qed.

(** ** The loop on the sequence *)
Section dequeue.
Context {S : Type} (functor : S -> tid -> option Z -> bool -> S * DequeueResult).

(** What the functor makes of the elements in order: its variables, the elements that stay, and those taken out. *)
Fixpoint list_dequeue (addr : tid -> option Z) (fair : bool) (s : S) (q : list tid) : S * list tid * list tid :=
  match q with
  | [] => (s, [], [])
  | t :: q =>
    let '(s, r) := functor s t (addr t) fair in
    match r with
    | Ignore => let '(s, kept, removed) := list_dequeue addr fair s q in (s, t :: kept, removed)
    | RemoveAndContinue => let '(s, kept, removed) := list_dequeue addr fair s q in (s, kept, t :: removed)
    | RemoveAndStop => (s, q, [t])
    end
  end.

Definition address_of (l : lot) (t : tid) : option Z := d ← threads l !! t; address d.

Lemma same_data_address l l' t : same_data l l' -> address_of l t = address_of l' t.
Proof. intros [Hd _]. specialize (Hd t). unfold address_of. destruct (threads l !! t), (threads l' !! t); cbn in *; congruence. Qed.

Lemma deref_link_spec l kept rest : queue_rep l (kept ++ rest) -> deref_link l (link_after kept) = Some (head rest).
Proof.
  intros [Hh _ _ Hc _]. unfold link_after. destruct (last kept) as [u|] eqn:El; cbn [deref_link].
  - apply last_Some in El as [k ->]. rewrite <- app_assoc in Hc. apply chain_app in Hc as [_ [(d & Hd & Hn) _]]. rewrite Hd. cbn [mbind option_bind]. rewrite Hn. by destruct rest.
  - apply last_None in El as ->. by rewrite Hh.
Qed.

Lemma dequeue_loop_spec fuel l s fair kept rest b :
  queue_rep l (kept ++ rest) -> (length rest < fuel)%nat ->
  exists l', let '(s', kept', removed) := list_dequeue (address_of l) fair s rest in
    dequeue_loop functor fuel l s fair (link_after kept) (last kept) b = Some (l', s', b || negb (bool_decide (removed = []))) /\ queue_rep l' (kept ++ kept') /\ same_data l l'.
Proof.
  revert l s kept rest b. induction fuel as [|fuel IH]; intros l s kept rest b Hr Hf; [lia|]. cbn [dequeue_loop]. rewrite (deref_link_spec l kept rest Hr). cbn [mbind option_bind]. destruct rest as [|c rest]; cbn [head list_dequeue].
  { exists l. rewrite bool_decide_eq_true_2, orb_false_r by done. done. }
  destruct (chain_elem _ _ _ c (rep_chain _ _ Hr)) as [d Hd]; [set_solver|]. unfold address_of at 1. rewrite Hd. cbn [mbind option_bind length] in *. destruct (functor s c (address d) fair) as [s1 r]. destruct r.
  - replace (kept ++ c :: rest) with ((kept ++ [c]) ++ rest) in Hr by (by rewrite <- app_assoc). destruct (IH l s1 (kept ++ [c]) rest b Hr ltac:(lia)) as (l' & Hl). exists l'. destruct (list_dequeue _ _ s1 rest) as [[s' kept'] removed]. unfold link_after in Hl |- *. rewrite last_snoc, <- app_assoc in Hl. done.
  - destruct (remove_current_spec l kept c rest Hr) as (l1 & -> & Hr1 & Hs1). cbn [mbind option_bind]. destruct (IH l1 s1 kept rest true Hr1 ltac:(lia)) as (l' & Hl). exists l'.
    assert (list_dequeue (address_of l1) fair s1 rest = list_dequeue (address_of l) fair s1 rest) as E.
    { clear -Hs1. revert s1. induction rest as [|t rest IH]; intros s1; cbn [list_dequeue]; [done|]. rewrite (same_data_address l l1 t Hs1). destruct (functor _ _ _ _) as [s2 []]; [by rewrite IH|by rewrite IH|done]. }
    rewrite E in Hl. destruct (list_dequeue _ _ s1 rest) as [[s' kept'] removed]. destruct Hl as (-> & Hr' & Hs'). cbn [orb]. rewrite (bool_decide_eq_false_2 (c :: removed = [])) by done. cbn [negb]. rewrite orb_true_r. split; [done|]. split; [done|by etransitivity].
  - destruct (remove_current_spec l kept c rest Hr) as (l1 & -> & Hr1 & Hs1). cbn [mbind option_bind]. exists l1. rewrite bool_decide_eq_false_2, orb_true_r by done. done.
Qed.

Lemma genericDequeue_spec fuel l s q time random :
  queue_rep l q -> (length q < fuel)%nat ->
  exists l', let fair := nextFairTime (bucket l) <? time in let '(s', kept, removed) := list_dequeue (address_of l) fair s q in
    genericDequeue functor fuel l s time random = Some (l', s') /\ queue_rep l' kept /\
    (forall t, (fun d => (address d, token d)) <$> (threads l !! t) = (fun d => (address d, token d)) <$> (threads l' !! t)) /\
    nextFairTime (bucket l') = if fair && negb (bool_decide (removed = [])) then time + random else nextFairTime (bucket l).
Proof.
  intros Hr Hf. unfold genericDequeue. rewrite (rep_head _ _ Hr). destruct q as [|c q]; cbn [head].
  { exists l. cbn [list_dequeue]. rewrite bool_decide_eq_true_2, andb_false_r by done. done. }
  destruct (dequeue_loop_spec fuel l s (nextFairTime (bucket l) <? time) [] (c :: q) false Hr Hf) as (l1 & Hl). cbv zeta. destruct (list_dequeue _ _ _ _) as [[s' kept] removed]. destruct Hl as (E & Hr1 & Hs1 & Hf1). change HeadLink with (link_after []). change (@None tid) with (last (@nil tid)) at 1. rewrite E. cbn [mbind option_bind orb]. clear E.
  destruct ((nextFairTime (bucket l) <? time) && negb (bool_decide (removed = []))) eqn:Ef.
  - eexists. cbn [bucket set_fair queueHead queueTail]. rewrite (rep_head _ _ Hr1), (rep_tail _ _ Hr1). cbn [app]. assert (Bool.eqb (is_null (head kept)) (is_null (last kept)) = true) as -> by (destruct kept as [|k kept]; [done|]; destruct (last (k :: kept)) eqn:El; [done|by apply last_None in El]). cbn [guard mbind option_bind].
    split; [done|]. split; [|done]. destruct Hr1. by split.
  - exists l1. rewrite (rep_head _ _ Hr1), (rep_tail _ _ Hr1). cbn [app]. assert (Bool.eqb (is_null (head kept)) (is_null (last kept)) = true) as -> by (destruct kept as [|k kept]; [done|]; destruct (last (k :: kept)) eqn:El; [done|by apply last_None in El]). cbn [guard mbind option_bind].
    split; [done|]. split; [done|]. split; [done|]. congruence.
Qed.
End dequeue.

(** ** The callers *)
Definition at_address (addr : tid -> option Z) (a : Z) (t : tid) : bool := bool_decide (addr t = Some a).

(** The first element at an address and what is left. *)
Fixpoint take_first {A} (p : A -> bool) (q : list A) : option A * list A :=
  match q with [] => (None, []) | t :: q => if p t then (Some t, q) else let '(r, q) := take_first p q in (r, t :: q) end.

(** Up to [n] elements at an address and what is left. *)
Fixpoint take_some {A} (p : A -> bool) (n : Z) (q : list A) : list A * list A :=
  match q with
  | [] => ([], [])
  | t :: q => if p t && (0 <? n) then let '(r, q) := take_some p (n - 1) q in (t :: r, q) else let '(r, q) := take_some p n q in (r, t :: q)
  end.

Lemma unparkOne_list addr a fair q s :
  list_dequeue (unparkOne_functor a) addr fair s q =
  match take_first (at_address addr a) q with (Some t, q') => ((Some t, fair), q', [t]) | (None, q') => (s, q', []) end.
Proof.
  revert s. induction q as [|t q IH]; intros s; cbn [list_dequeue take_first]; [done|]. unfold unparkOne_functor at 1, at_address at 1. case_bool_decide; cbn [negb]; [done|]. rewrite IH. by destruct (take_first _ q) as [[t'|] q'].
Qed.

Lemma take_some_zero {A} (p : A -> bool) q : take_some p 0 q = ([], q).
Proof. induction q as [|t q IH]; cbn [take_some]; [done|]. rewrite andb_false_r, IH. done. Qed.

Lemma unparkCount_list addr a count fair q s : zlen s < count ->
  list_dequeue (unparkCount_functor a count) addr fair s q = let '(r, q') := take_some (at_address addr a) (count - zlen s) q in (s ++ r, q', r).
Proof.
  revert s. induction q as [|t q IH]; intros s Hs; cbn [list_dequeue take_some]; [by rewrite app_nil_r|]. unfold unparkCount_functor at 1, at_address at 1. case_bool_decide; cbn [negb andb].
  - rewrite (Z_ltb_true 0) by lia. cbn [andb]. rewrite zlen_app. change (zlen [t]) with 1. destruct (zlen s + 1 =? count) eqn:E; bool_prop.
    + replace (count - zlen s - 1) with 0 by lia. by rewrite take_some_zero.
    + rewrite IH by (rewrite zlen_app; change (zlen [t]) with 1; lia). rewrite zlen_app. change (zlen [t]) with 1. replace (count - (zlen s + 1)) with (count - zlen s - 1) by lia. destruct (take_some _ _ q) as [r q']. by rewrite <- app_assoc.
  - rewrite IH by done. by destruct (take_some _ _ q) as [r q'].
Qed.

Lemma filter_ne_notin (me : tid) (q : list tid) : me ∉ q -> filter (.≠ me) q = q.
Proof. induction q as [|t q IH]; [done|]. intros [Hne Hnq]%not_elem_of_cons. rewrite filter_cons_True by done. by rewrite IH. Qed.

Lemma timeout_list addr me fair q s : NoDup q ->
  list_dequeue (timeout_functor me) addr fair s q = if decide (me ∈ q) then (true, filter (.≠ me) q, [me]) else (s, q, []).
Proof.
  revert s. induction q as [|t q IH]; intros s Hn; cbn [list_dequeue]; [by rewrite decide_False by apply not_elem_of_nil|]. apply NoDup_cons in Hn as [Hn1 Hn2]. unfold timeout_functor at 1. case_bool_decide as E.
  - subst t. rewrite decide_True by set_solver. rewrite filter_cons_False by tauto. by rewrite filter_ne_notin.
  - rewrite IH by done. destruct (decide (me ∈ q)); [rewrite decide_True by set_solver|rewrite decide_False by set_solver; done]. rewrite filter_cons_True by done. done.
Qed.

(** ** Histories *)
(** A thread parks at an address, when the validation lets it; threads are unparked; a thread times out. *)
Inductive event : Type :=
  | Park (t : tid) (a : Z) (validation : bool)
  | UnparkOne (a time random token : Z)
  | UnparkCount (a count time random : Z)
  | Timeout (t : tid) (time random : Z).

(** The state afterwards, the threads that left the queue, and whether more may be parked. *)
Definition run_event (l : lot) (e : event) : option (lot * list tid * bool) :=
  let fuel := S (size (threads l)) in
  match e with
  | Park t a v => '(l, _) ← park l t a v; Some (l, [], false)
  | UnparkOne a time random k => '(l, r, t) ← unparkOneImpl fuel l a time random (fun _ => k); Some (l, option_list t, mayHaveMoreThreads r)
  | UnparkCount a n time random => '(l, ts) ← unparkCount fuel l a n time random; Some (l, ts, false)
  | Timeout t time random => '(l, b) ← park_timeout fuel l t time random; Some (l, if b : bool then [t] else [], false)
  end.

(** The same on the sequence of the parked threads and their addresses. *)
Definition spec_event (q : list (tid * Z)) (e : event) : list (tid * Z) * list tid * bool :=
  match e with
  | Park t a v => (if v : bool then q ++ [(t, a)] else q, [], false)
  | UnparkOne a _ _ _ => let '(r, q') := take_first (fun e => snd e =? a) q in (q', option_list (fst <$> r), negb (is_null r) && negb (bool_decide (q' = [])))
  | UnparkCount a n _ _ => let '(r, q') := take_some (fun e => snd e =? a) n q in (q', map fst r, false)
  | Timeout t _ _ => (filter (fun e => fst e <> t) q, if bool_decide (t ∈ map fst q) then [t] else [], false)
  end.

(** A thread that parks or times out exists, and one that parks is not parked. *)
Definition enabled (known : gset tid) (q : list (tid * Z)) (e : event) : Prop :=
  match e with
  | Park t _ _ => t ∈ known /\ t ∉ map fst q
  | UnparkCount _ n _ _ => 0 <= n
  | Timeout t _ _ => t ∈ known
  | _ => True
  end.

Record parked_rep (l : lot) (q : list (tid * Z)) : Prop := {
  parked_queue : queue_rep l (map fst q);
  parked_address t a : (t, a) ∈ q -> address_of l t = Some a;
  parked_free t : t ∉ map fst q -> address_of l t = None
}.

Lemma take_first_pairs l q a :
  (forall t b, (t, b) ∈ q -> address_of l t = Some b) -> take_first (at_address (address_of l) a) (map fst q) = let '(r, q') := take_first (fun e => snd e =? a) q in (fst <$> r, map fst q').
Proof.
  intros Ha. induction q as [|[t b] q IH]; cbn [map take_first fst snd]; [done|]. unfold at_address at 1. rewrite (Ha t b) by set_solver. destruct (b =? a) eqn:E; bool_prop.
  - subst b. by rewrite bool_decide_eq_true_2.
  - rewrite bool_decide_eq_false_2 by congruence. rewrite IH by (intros; apply Ha; set_solver). by destruct (take_first _ q).
Qed.

Lemma take_some_pairs l q a n :
  parked_rep l q -> take_some (at_address (address_of l) a) n (map fst q) = let '(r, q') := take_some (fun e => snd e =? a) n q in (map fst r, map fst q').
Proof.
  intros [_ Ha _]. revert n. induction q as [|[t b] q IH]; intros n; cbn [map take_some fst snd]; [done|]. unfold at_address at 1. rewrite (Ha t b) by set_solver. assert (bool_decide (Some b = Some a) = (b =? a)) as ->.
  { apply eq_true_iff_eq. rewrite bool_decide_eq_true, Z.eqb_eq. split; congruence. }
  destruct ((b =? a) && (0 <? n)); rewrite IH by (intros; apply Ha; set_solver); by destruct (take_some _ _ q).
Qed.

Lemma take_first_sublist {A} (p : A -> bool) q r q' : take_first p q = (r, q') -> q' `sublist_of` q /\ match r with Some t => t ∈ q /\ p t = true /\ Permutation q (t :: q') | None => q' = q end.
Proof.
  revert r q'. induction q as [|t q IH]; intros r q'; cbn [take_first]; [by intros [= <- <-]|]. destruct (p t) eqn:Ep; [intros [= <- <-]; split; [by apply sublist_cons|]; split; [set_solver|done]|].
  destruct (take_first p q) as [r1 q1]. intros [= <- <-]. destruct (IH r1 q1 eq_refl) as [H1 H2]. split; [by apply sublist_skip|]. destruct r1 as [t1|]; [|congruence]. destruct H2 as (H3 & H4 & H5). split; [set_solver|]. split; [done|]. rewrite H5. apply perm_swap.
Qed.

Lemma take_some_sublist {A} (p : A -> bool) n q r q' : take_some p n q = (r, q') -> q' `sublist_of` q /\ Permutation q (r ++ q').
Proof.
  revert n r q'. induction q as [|t q IH]; intros n r q'; cbn [take_some]; [by intros [= <- <-]|]. destruct (p t && (0 <? n)).
  - destruct (take_some p (n - 1) q) as [r1 q1] eqn:E. intros [= <- <-]. destruct (IH _ _ _ E) as [H1 H2]. split; [by apply sublist_cons|]. cbn [app]. by rewrite H2 at 1.
  - destruct (take_some p n q) as [r1 q1] eqn:E. intros [= <- <-]. destruct (IH _ _ _ E) as [H1 H2]. split; [by apply sublist_skip|]. rewrite H2 at 1. by rewrite Permutation_middle.
Qed.

(** Waking a thread that was taken out of the queue. *)
Lemma update_free l q t f d :
  queue_rep l q -> threads l !! t = Some d -> (forall d, nextInQueue (f d) = nextInQueue d) ->
  exists h, update (threads l) t f = Some h /\ h = <[t := f d]> (threads l) /\ queue_rep (mkLot (bucket l) h) q.
Proof.
  intros [Hh Ht Hn Hc Hf] Hd Hx. unfold update. rewrite Hd. cbn [mbind option_bind]. eexists. split; [done|]. split; [done|]. split; cbn [bucket threads]; [done|done|done| |].
  - clear -Hc Hd Hx. induction q as [|t' q IH]; cbn [chain] in *; [done|]. destruct Hc as [(d' & Hd' & Hn') Hc]. split; [|by apply IH]. destruct (decide (t = t')) as [<-|Hne].
    + exists (f d). rewrite lookup_insert_eq. split; [done|]. rewrite Hx. congruence.
    + exists d'. by rewrite lookup_insert_ne.
  - intros t' d' Hd' Hnt. destruct (decide (t = t')) as [<-|Hne].
    + rewrite lookup_insert_eq in Hd'. injection Hd' as <-. rewrite Hx. by apply (Hf t).
    + rewrite lookup_insert_ne in Hd' by done. by apply (Hf t').
Qed.

Lemma wake_all_spec l q ts :
  queue_rep l q -> NoDup ts -> (forall t, t ∈ ts -> address_of l t <> None) ->
  exists l', wake_all l ts = Some l' /\ queue_rep l' q /\ dom (threads l') = dom (threads l) /\
    (forall t, address_of l' t = if decide (t ∈ ts) then None else address_of l t) /\ nextFairTime (bucket l') = nextFairTime (bucket l).
Proof.
  revert l. induction ts as [|t ts IH]; intros l Hr Hn Ha; cbn [wake_all].
  { exists l. split; [done|]. split; [done|]. split; [done|]. split; [|done]. intros t. by rewrite decide_False by apply not_elem_of_nil. }
  apply NoDup_cons in Hn as [Hn1 Hn2]. assert (exists d a, threads l !! t = Some d /\ address d = Some a) as (d & a & Hd & Ea).
  { specialize (Ha t ltac:(set_solver)). unfold address_of in Ha. destruct (threads l !! t) as [d|]; [|done]. cbn in Ha. destruct (address d) as [a|] eqn:Ea; [|done]. by exists d, a. }
  unfold wake. rewrite Hd. cbn [mbind option_bind]. rewrite Ea. cbn [is_null negb guard mbind option_bind]. destruct (update_free l q t (set_address None) d Hr Hd ltac:(done)) as (h & -> & -> & Hr1). cbn [mbind option_bind].
  set (l1 := mkLot _ _) in *. assert (forall t', address_of l1 t' = if decide (t' = t) then None else address_of l t') as Ha1.
  { intros t'. unfold address_of, l1. cbn [threads]. destruct (decide (t' = t)) as [->|Hne]; [by rewrite lookup_insert_eq|by rewrite lookup_insert_ne]. }
  destruct (IH l1 Hr1 Hn2) as (l' & -> & Hr' & Hdom & Ha' & Hf).
  { intros t' Ht'. rewrite Ha1, decide_False by set_solver. apply Ha. set_solver. }
  exists l'. split; [done|]. split; [done|]. split; [rewrite Hdom; unfold l1; cbn [threads]; rewrite dom_insert_L; apply elem_of_dom_2 in Hd; set_solver|]. split; [|done]. intros t'. rewrite Ha', Ha1. destruct (decide (t' ∈ ts)); [by rewrite decide_True by set_solver|]. destruct (decide (t' = t)); [by rewrite decide_True by set_solver|by rewrite decide_False by set_solver].
Qed.

Lemma queue_size l q : queue_rep l q -> (length q < S (size (threads l)))%nat.
Proof.
  intros Hr. assert (length q <= size (threads l))%nat; [|lia]. rewrite <- size_dom. rewrite <- (size_list_to_set (C := gset tid)) by apply (rep_nodup _ _ Hr). apply subseteq_size. intros t Ht. apply elem_of_list_to_set in Ht. apply elem_of_dom. by eapply chain_elem; [apply (rep_chain _ _ Hr)|].
Qed.

Lemma dom_of_data l l' : (forall t, (fun d => (address d, token d)) <$> (threads l !! t) = (fun d => (address d, token d)) <$> (threads l' !! t)) -> dom (threads l') = dom (threads l) /\ forall t, address_of l' t = address_of l t.
Proof.
  intros Hd. split.
  - apply set_eq. intros t. rewrite !elem_of_dom. specialize (Hd t). destruct (threads l !! t), (threads l' !! t); cbn in Hd; by (split; intros [? ?]).
  - intros t. specialize (Hd t). unfold address_of. destruct (threads l !! t), (threads l' !! t); cbn in *; congruence.
Qed.

Lemma elem_of_map_fst (t : tid) (q : list (tid * Z)) : t ∈ map fst q <-> exists a, (t, a) ∈ q.
Proof.
  rewrite list_elem_of_In, in_map_iff. split; [intros ([t' a] & <- & Hin); exists a; by apply list_elem_of_In|intros [a Hin]; exists (t, a); split; [done|by apply list_elem_of_In]].
Qed.

Lemma filter_map_fst (t : tid) (q : list (tid * Z)) : filter (.≠ t) (map fst q) = map fst (filter (fun e => fst e <> t) q).
Proof. induction q as [|[u b] q IH]; [done|]. cbn [map fst]. destruct (decide (u = t)) as [->|Hne]; [rewrite !filter_cons_False by (cbn; tauto); done|rewrite !filter_cons_True by done; cbn [map fst]; by rewrite IH]. Qed.

(** Threads leave the queue and are woken up. *)
Lemma parked_leave l q l1 r q' :
  parked_rep l q -> (forall t, address_of l1 t = address_of l t) -> queue_rep l1 (map fst q') -> Permutation q (r ++ q') ->
  exists l', wake_all l1 (map fst r) = Some l' /\ parked_rep l' q' /\ dom (threads l') = dom (threads l1).
Proof.
  intros [Hq Ha Hf] Haddr Hr1 Hp. assert (NoDup (map fst (r ++ q'))) as Hn by (rewrite <- Hp; apply (rep_nodup _ _ Hq)). rewrite map_app in Hn. apply NoDup_app in Hn as (Hn1 & Hn2 & Hn3).
  destruct (wake_all_spec l1 (map fst q') (map fst r) Hr1 Hn1) as (l' & E & Hr' & Hdom & Ha' & _).
  { intros t Ht. rewrite Haddr. apply elem_of_map_fst in Ht as [a Ht]. rewrite (Ha t a); [done|]. rewrite Hp. set_solver. }
  exists l'. split; [done|]. split; [|done]. split; [done| |].
  - intros t a Ht. rewrite Ha', decide_False; [rewrite Haddr; apply Ha; rewrite Hp; set_solver|]. intros Htr. apply (Hn2 t Htr). apply elem_of_map_fst. by exists a.
  - intros t Ht. rewrite Ha'. destruct (decide (t ∈ map fst r)) as [|Htr]; [done|]. rewrite Haddr. apply Hf. rewrite Hp, map_app. set_solver.
Qed.

Lemma address_token l t d k : threads l !! t = Some d -> forall t', address_of (mkLot (bucket l) (<[t := set_token k d]> (threads l))) t' = address_of l t'.
Proof. intros Hd t'. unfold address_of. cbn [threads]. destruct (decide (t = t')) as [<-|Hne]; [by rewrite lookup_insert_eq, Hd|by rewrite lookup_insert_ne]. Qed.

Lemma dom_update l t d f : threads l !! t = Some d -> dom (<[t := f d]> (threads l)) = dom (threads l).
Proof. intros Hd. rewrite dom_insert_L. apply elem_of_dom_2 in Hd. set_solver. Qed.

Lemma has_queue_spec l q : queue_rep l q -> has_queue l = negb (bool_decide (q = [])).
Proof. intros [Hh _ _ _ _]. unfold has_queue. rewrite Hh. by destruct q. Qed.

Lemma map_nil_decide (q : list (tid * Z)) : bool_decide (map fst q = []) = bool_decide (q = []).
Proof. by destruct q. Qed.

Lemma park_step l q t a v : parked_rep l q -> t ∈ dom (threads l) -> t ∉ map fst q ->
  exists l', park l t a v = Some (l', v) /\ parked_rep l' (if v then q ++ [(t, a)] else q) /\ dom (threads l') = dom (threads l).
Proof.
  intros [Hq Ha Hf] Ht Hnt. apply elem_of_dom in Ht as [d Hd]. unfold park. destruct (update_free l (map fst q) t (set_token 0) d Hq Hd ltac:(done)) as (h & -> & -> & Hr1). cbn [mbind option_bind]. rewrite lookup_insert_eq. cbn [mbind option_bind].
  assert (address d = None) as Ead by (pose proof (Hf t Hnt) as E; unfold address_of in E; by rewrite Hd in E). change (address (set_token 0 d)) with (address d). rewrite Ead. cbn [is_null guard mbind option_bind].
  pose proof (address_token l t d 0 Hd) as Hat. set (l1 := mkLot (bucket l) (<[t := set_token 0 d]> (threads l))) in *. assert (dom (threads l1) = dom (threads l)) as Hdom1 by (by apply dom_update). destruct v.
  - assert (threads l1 !! t = Some (set_token 0 d)) as Hd1 by apply lookup_insert_eq. destruct (update_free l1 (map fst q) t (set_address (Some a)) _ Hr1 Hd1 ltac:(done)) as (h2 & E2 & -> & Hr2). change (threads l1) with (<[t := set_token 0 d]> (threads l)) in E2. rewrite E2. cbn [mbind option_bind].
    set (l2 := mkLot (bucket l1) _) in *. destruct (enqueue_spec l2 (map fst q) t _ Hr2 (lookup_insert_eq _ _ _) ltac:(done) Hnt) as (l3 & -> & Hr3 & Hs3). cbn [mbind option_bind]. exists l3. split; [done|]. destruct (dom_of_data l2 l3 (proj1 Hs3)) as [Hdom3 Ha3]. split.
    + assert (forall t', address_of l2 t' = if decide (t' = t) then Some a else address_of l t') as Ha2.
      { intros t'. unfold l2, address_of at 1. cbn [threads]. destruct (decide (t' = t)) as [->|Hne]; [by rewrite lookup_insert_eq|]. rewrite lookup_insert_ne by done. apply Hat. }
      split; [by rewrite map_app| |].
      * intros t' a' Hin. rewrite Ha3, Ha2. apply elem_of_app in Hin as [Hin|Hin]; [|apply list_elem_of_singleton in Hin; injection Hin as -> ->; by rewrite decide_True].
        rewrite decide_False; [by apply Ha|]. intros ->. apply Hnt. apply elem_of_map_fst. by exists a'.
      * intros t' Hnt'. rewrite map_app in Hnt'. rewrite Ha3, Ha2, decide_False by set_solver. apply Hf. set_solver.
    + rewrite Hdom3. unfold l2. cbn [threads]. rewrite (dom_update l1 t _ (set_address (Some a)) Hd1). done.
  - exists l1. split; [done|]. split; [|done]. split; [done| |]; intros; rewrite Hat; auto.
Qed.

Lemma event_step l q e :
  parked_rep l q -> enabled (dom (threads l)) q e ->
  exists l', let '(q', removed, more) := spec_event q e in run_event l e = Some (l', removed, more) /\ parked_rep l' q' /\ dom (threads l') = dom (threads l).
Proof.
  intros Hp He. pose proof (parked_queue _ _ Hp) as Hq. pose proof (queue_size l _ Hq) as Hfuel. destruct e as [t a v|a time random k|a n time random|t time random]; cbn [run_event spec_event].
  - destruct He as [H1 H2]. destruct (park_step l q t a v Hp H1 H2) as (l' & -> & H3 & H4). cbn [mbind option_bind]. by exists l'.
  - unfold unparkOneImpl. destruct (genericDequeue_spec (unparkOne_functor a) _ l (None, false) (map fst q) time random Hq Hfuel) as (l1 & Hg). cbv zeta in Hg. rewrite unparkOne_list, (take_first_pairs l q a (parked_address _ _ Hp)) in Hg. destruct (take_first (fun e => snd e =? a) q) as [r q'] eqn:Ef. destruct (take_first_sublist _ _ _ _ Ef) as [_ Hr].
    destruct r as [[t b]|]; cbn [fmap option_fmap option_map fst] in Hg |- *.
    + destruct Hg as (-> & Hr1 & Hd1 & _). cbn [mbind option_bind is_null negb orb guard]. rewrite orb_true_r. cbn [guard mbind option_bind andb]. destruct (dom_of_data l l1 Hd1) as [Hdom1 Ha1]. destruct Hr as (Hin & _ & Hperm).
      assert (exists d, threads l1 !! t = Some d) as [d Hd] by (pose proof (parked_address _ _ Hp t b Hin) as E; rewrite <- Ha1 in E; unfold address_of in E; destruct (threads l1 !! t) as [d|]; [by exists d|done]).
      destruct (update_free l1 (map fst q') t (set_token k) d Hr1 Hd ltac:(done)) as (h & -> & -> & Hr2). cbn [mbind option_bind]. set (l2 := mkLot _ _) in *.
      destruct (parked_leave l q l2 [(t, b)] q' Hp) as (l' & E & H1 & H2); [intros t'; unfold l2; by rewrite (address_token l1 t d k Hd), Ha1|done|done|]. cbn [map fst wake_all] in E. destruct (wake l2 t) as [l3|]; [|done]. cbn [mbind option_bind] in E |- *. injection E as ->. exists l'. split; [|split; [done|]].
      * cbn [mayHaveMoreThreads]. rewrite (has_queue_spec l1 (map fst q') Hr1), map_nil_decide. done.
      * rewrite H2. unfold l2. cbn [threads]. by rewrite (dom_update l1 t d (set_token k) Hd).
    + destruct Hg as (-> & Hr1 & Hd1 & _). cbn [mbind option_bind is_null negb orb andb guard]. exists l1. split; [done|]. destruct (dom_of_data l l1 Hd1) as [Hdom1 Ha1]. split; [|done]. rewrite Hr in *. split; [done| |]; intros; rewrite Ha1; by (apply (parked_address _ _ Hp) || apply (parked_free _ _ Hp)).
  - unfold unparkCount. cbn [enabled] in He. destruct (n =? 0) eqn:En; bool_prop.
    + subst n. rewrite take_some_zero. cbn [mbind option_bind map]. by exists l.
    + destruct (genericDequeue_spec (unparkCount_functor a n) _ l [] (map fst q) time random Hq Hfuel) as (l1 & Hg). cbv zeta in Hg. rewrite unparkCount_list in Hg by (change (zlen []) with 0; lia). change (zlen []) with 0 in Hg. rewrite Z.sub_0_r, (take_some_pairs l q a n Hp) in Hg. destruct (take_some (fun e => snd e =? a) n q) as [r q'] eqn:Ef. destruct (take_some_sublist _ _ _ _ _ Ef) as [_ Hperm].
      cbn [app] in Hg. destruct Hg as (-> & Hr1 & Hd1 & _). cbn [mbind option_bind]. destruct (dom_of_data l l1 Hd1) as [Hdom1 Ha1]. destruct (parked_leave l q l1 r q' Hp Ha1 Hr1 Hperm) as (l' & -> & H1 & H2). cbn [mbind option_bind]. exists l'. split; [done|]. split; [done|]. congruence.
  - unfold park_timeout. destruct (genericDequeue_spec (timeout_functor t) _ l false (map fst q) time random Hq Hfuel) as (l1 & Hg). cbv zeta in Hg. rewrite timeout_list in Hg by apply (rep_nodup _ _ Hq). cbn [enabled] in He.
    assert (exists l1 b, genericDequeue (timeout_functor t) (S (size (threads l))) l false time random = Some (l1, b) /\ b = bool_decide (t ∈ map fst q) /\ queue_rep l1 (map fst (filter (fun e => fst e <> t) q)) /\ dom (threads l1) = dom (threads l) /\ forall t', address_of l1 t' = address_of l t') as (l2 & b & -> & -> & Hr2 & Hdom2 & Ha2).
    { pose proof (filter_map_fst t q) as Efm.
      destruct (decide (t ∈ map fst q)) as [Hin|Hin].
      - destruct Hg as (E & Hr1 & Hd1 & _). rewrite Efm in Hr1. destruct (dom_of_data l l1 Hd1). exists l1, true. rewrite bool_decide_eq_true_2 by done. done.
      - destruct Hg as (E & Hr1 & Hd1 & _). rewrite <- (filter_ne_notin t (map fst q) Hin), Efm in Hr1. destruct (dom_of_data l l1 Hd1). exists l1, false. rewrite bool_decide_eq_false_2 by done. done. }
    clear Hg l1. cbn [mbind option_bind]. rewrite <- Hdom2 in He. apply elem_of_dom in He as [d Hd]. rewrite Hd. cbn [mbind option_bind]. set (q' := filter _ q) in *. assert (t ∉ map fst q') as Hnt by (intros [a Hin]%elem_of_map_fst; unfold q' in Hin; apply list_elem_of_filter in Hin as [Hne _]; done).
    rewrite (rep_free _ _ Hr2 t d Hd Hnt). cbn [is_null guard mbind option_bind]. destruct (update_free l2 (map fst q') t (set_address None) d Hr2 Hd ltac:(done)) as (h & -> & -> & Hr3). cbn [mbind option_bind]. eexists. split; [case_bool_decide; done|]. split; [|cbn [threads]; by rewrite (dom_update l2 t d (set_address None) Hd)].
    assert (forall t', address_of (mkLot (bucket l2) (<[t := set_address None d]> (threads l2))) t' = if decide (t' = t) then None else address_of l t') as Ha3.
    { intros t'. unfold address_of at 1. cbn [threads]. destruct (decide (t' = t)) as [->|Hne]; [by rewrite lookup_insert_eq|]. rewrite lookup_insert_ne by done. apply Ha2. }
    split; [done| |].
    + intros t' a Hin. rewrite Ha3. unfold q' in Hin. apply list_elem_of_filter in Hin as [Hne Hin]. cbn in Hne. rewrite decide_False by done. by apply (parked_address _ _ Hp).
    + intros t' Hnt'. rewrite Ha3. destruct (decide (t' = t)) as [|Hne]; [done|]. apply (parked_free _ _ Hp). intros [a Hin]%elem_of_map_fst. apply Hnt', elem_of_map_fst. exists a. by apply list_elem_of_filter.
Qed.

Fixpoint run_history (l : lot) (es : list event) : option (lot * list (list tid * bool)) :=
  match es with [] => Some (l, []) | e :: es => '(l, ts, more) ← run_event l e; '(l, outs) ← run_history l es; Some (l, (ts, more) :: outs) end.
Fixpoint spec_history (q : list (tid * Z)) (es : list event) : list (tid * Z) * list (list tid * bool) :=
  match es with [] => (q, []) | e :: es => let '(q, ts, more) := spec_event q e in let '(q, outs) := spec_history q es in (q, (ts, more) :: outs) end.
Fixpoint all_enabled (known : gset tid) (q : list (tid * Z)) (es : list event) : Prop :=
  match es with [] => True | e :: es => enabled known q e /\ all_enabled known (fst (fst (spec_event q e))) es end.

(** Some threads, none of them parked. *)
Definition no_one_parked (known : gset tid) (fairTime : Z) : lot := mkLot (mkBucket None None fairTime) (gset_to_gmap (mkThreadData None None 0) known).

Lemma no_one_parked_rep known fairTime : parked_rep (no_one_parked known fairTime) [] /\ dom (threads (no_one_parked known fairTime)) = known.
Proof.
  split; [|apply dom_gset_to_gmap]. split; [split| |]; cbn; try done; [constructor|..].
  - intros t d Hd _. apply lookup_gset_to_gmap_Some in Hd as [_ <-]. done.
  - intros t a Hin. by apply not_elem_of_nil in Hin.
  - intros t _. unfold address_of. cbn. destruct (gset_to_gmap _ _ !! t) as [d|] eqn:E; [|done]. apply lookup_gset_to_gmap_Some in E as [_ <-]. done.
Qed.

Lemma history_step l q es :
  parked_rep l q -> all_enabled (dom (threads l)) q es ->
  exists l', run_history l es = Some (l', snd (spec_history q es)) /\ parked_rep l' (fst (spec_history q es)).
Proof.
  revert l q. induction es as [|e es IH]; intros l q Hp He; [by exists l|]. destruct He as [He Hes]. destruct (event_step l q e Hp He) as (l1 & Hl). cbn [run_history spec_history]. destruct (spec_event q e) as [[q1 ts] more]. destruct Hl as (-> & Hp1 & Hd1). cbn [mbind option_bind fst] in *. rewrite <- Hd1 in Hes.
  destruct (IH l1 q1 Hp1 Hes) as (l' & -> & Hp'). cbn [mbind option_bind]. destruct (spec_history q1 es) as [q' outs]. by exists l'.
Qed.

(** C38: under any history of threads that park at addresses, are unparked, one or several at a time, and time out, the
    linked queue of a bucket is the sequence of the parked threads in the order in which they parked: an unparked thread is
    the one that has been parked the longest at its address, the others stay in order, and the result says truly whether
    the bucket holds more threads.  No assertion on the links fails. *)
Theorem Bucket_history (known : gset tid) (fairTime : Z) (es : list event) :
  all_enabled known [] es ->
  exists l, run_history (no_one_parked known fairTime) es = Some (l, snd (spec_history [] es)) /\ parked_rep l (fst (spec_history [] es)).
Proof. intros He. destruct (no_one_parked_rep known fairTime) as [Hp Hd]. rewrite <- Hd in He. by apply history_step. Qed.

(** Three threads at two addresses. *)
Definition sample_events : list event :=
  [Park 1%positive 8 true; Park 2%positive 16 true; Park 3%positive 8 true; UnparkOne 8 5 1 1; Timeout 2%positive 6 1; Park 1%positive 8 false; UnparkCount 8 2 7 1].

Lemma Bucket_history_witness :
  exists l, run_history (no_one_parked {[1; 2; 3]}%positive 0) sample_events = Some (l, snd (spec_history [] sample_events)) /\ parked_rep l (fst (spec_history [] sample_events)).
Proof.
  apply (Bucket_history {[1; 2; 3]}%positive 0 sample_events). cbn. split_and!; done || set_solver.
Defined.
