(* ===== verification/LockAlgorithm.v ===== *)
(** * LockAlgorithm: the lock of a byte, on top of the parking lot
      (src/Source/WTF/wtf: LockAlgorithm.h, LockAlgorithmInlines.h, Lock.h, Lock.cpp, and [Atomic::transaction] of Atomics.h)

    Threads run the operations of one lock in steps; a step is one access of the byte, or one action on the bucket of the
    lock under the lock of that bucket.  The memory is sequentially consistent.  A thread is where its program counter says;
    the local variables that are still needed are arguments of the program counter.  The bucket is behind an interface, so
    that the lock can be run on the linked queue of [ParkingBucket] and on a sequence. *)
From stdpp Require Import gmap functions.
From S2P Require Import Prelude ParkingBucket.
Local Open Scope Z_scope.

(** ** What the lock uses of a bucket of the parking lot *)
Class BucketOps (Q : Type) : Type := {
  (** the thread resets its token, and asserts that it is not parked *)
  bk_prepare : Q -> tid -> option Q;
  (** it stores the address and is put at the end of the queue *)
  bk_enqueue : Q -> tid -> Z -> option Q;
  (** the first thread at an address is taken out; is it time to be fair? *)
  bk_dequeue : Q -> Z -> Z -> Z -> option (Q * option tid * bool);
  (** is there a thread in the queue? *)
  bk_more : Q -> bool;
  bk_set_token : Q -> tid -> Z -> option Q;
  bk_token : Q -> tid -> option Z;
  (** the address of a thread is cleared, and the thread is signalled *)
  bk_wake : Q -> tid -> option Q;
  bk_address : Q -> tid -> option (option Z);
  (** a thread that timed out takes itself out *)
  bk_cancel : Q -> tid -> Z -> Z -> option Q
}.

(** ** The byte *)
Definition isHeldBit : Z := 1.
Definition hasParkedBit : Z := 2.
Definition mask : Z := Z.lor isHeldBit hasParkedBit.
Definition held (v : Z) : bool := negb (Z.land v isHeldBit =? 0).
Definition parked (v : Z) : bool := negb (Z.land v hasParkedBit =? 0).
Definition spinLimit : Z := 40.

Inductive Fairness : Type := Unfair | Fair.

(** The tokens. *)
Definition BargingOpportunity : Z := 0.
Definition DirectHandoff : Z := 1.

(** ** Threads *)
(** Who unlocks: [Lock::unlock] or [Lock::unlockFairly], or [safepointSlow], which locks again. *)
Inductive unlocker : Type := Unlocking (f : Fairness) | InSafepoint.
Definition fairness_of (k : unlocker) : Fairness := match k with Unlocking f => f | InSafepoint => Fair end.

Inductive pc : Type :=
  | Idle                                                    (* in no operation, without the lock *)
  | Holding                                                 (* in no operation, with the lock *)
  | LockFast                                                (* lockFastAssumingZero *)
  | LockFastLoad | LockFastCAS (v : Z)                      (* lockFast *)
  | LockLoad (spinCount : Z)                                (* lockSlow: the load at the head of the loop *)
  | LockBarge (spinCount v : Z)
  | LockSetParked (spinCount v : Z)
  | LockPark (spinCount v : Z)                              (* compareAndPark: up to the lock of the bucket *)
  | LockAcquire (spinCount v : Z)
  | LockValidate (spinCount v : Z)
  | LockAbort (spinCount : Z)                               (* validation failed: the bucket is unlocked *)
  | LockEnqueue (spinCount : Z)
  | LockRelease (spinCount : Z)
  | LockSleep (spinCount : Z)                               (* until the address is cleared *)
  | LockHandoff                                             (* the assertion after a direct hand-off *)
  | TryLoad | TryCAS (v : Z)                                (* tryLock *)
  | SafepointLoad                                           (* safepointFast *)
  | UnlockFast (f : Fairness)                               (* unlockFastAssumingZero *)
  | UnlockFastLoad | UnlockFastCAS (v : Z)                  (* unlockFast *)
  | UnlockLoad (k : unlocker)                               (* unlockSlow: the load at the head of the loop *)
  | UnlockCAS (k : unlocker) (v : Z)
  | UnlockAcquire (k : unlocker)                            (* unparkOne: up to the lock of the bucket *)
  | UnlockDequeue (k : unlocker)
  | UnlockCallback (k : unlocker) (threadData : option tid) (result : UnparkResult)
  | UnlockTransLoad (k : unlocker) (threadData : option tid) (more : bool)
  | UnlockTransCAS (k : unlocker) (threadData : option tid) (more : bool) (v : Z)
  | UnlockToken (k : unlocker) (threadData : option tid) (token : Z)
  | UnlockRelease (k : unlocker) (threadData : option tid)
  | UnlockWake (k : unlocker) (threadData : tid)
  | OtherParked                                             (* parked at another address of the bucket *)
  | Fault.                                                  (* an assertion failed *)

#[export] Instance Fairness_eq_dec : EqDecision Fairness.
Proof. solve_decision. Defined.
#[export] Instance unlocker_eq_dec : EqDecision unlocker.
Proof. solve_decision. Defined.
#[export] Instance UnparkResult_eq_dec : EqDecision UnparkResult.
Proof. solve_decision. Defined.
#[export] Instance pc_eq_dec : EqDecision pc.
Proof. solve_decision. Defined.

(** A thread calls an operation, takes a step of it, or uses the bucket for something else.  A weak compare-and-exchange
    may fail although the value is the expected one, which [cas = false] says; [time] is the present, [random] the
    milliseconds until the next fair time. *)
Inductive action : Type :=
  | CallLock | CallTryLock | CallUnlock (f : Fairness) | CallSafepoint
  | Go (cas : bool) (time random : Z)
  | OtherPark (a : Z) | OtherUnpark (a time random : Z) | OtherTimeout (time random : Z).

Record state (Q : Type) : Type := mkState { word : Z; bucket_lock : option tid; parking : Q; pcs : tid -> pc }.
Arguments mkState {Q}. Arguments word {Q}. Arguments bucket_lock {Q}. Arguments parking {Q}. Arguments pcs {Q}.

Section lock.
Context {Q : Type} `{BucketOps Q} (this : Z).

Definition at_pc (s : state Q) (t : tid) (p : pc) : state Q := mkState (word s) (bucket_lock s) (parking s) (<[t := p]> (pcs s)).
Definition with_word (s : state Q) (v : Z) : state Q := mkState v (bucket_lock s) (parking s) (pcs s).
Definition with_bucket (s : state Q) (b : option tid) : state Q := mkState (word s) b (parking s) (pcs s).
Definition with_parking (s : state Q) (q : Q) : state Q := mkState (word s) (bucket_lock s) q (pcs s).

(** A weak compare-and-exchange of the byte, with where to go on. *)
Definition CAS (s : state Q) (t : tid) (cas : bool) (expected desired : Z) (success failure : pc) : state Q :=
  if cas && (word s =? expected) then at_pc (with_word s desired) t success else at_pc s t failure.

(** The bucket is locked and unlocked; locking waits until it is free. *)
Definition lock_bucket (s : state Q) (t : tid) (p : pc) : option (state Q) :=
  match bucket_lock s with None => Some (at_pc (with_bucket s (Some t)) t p) | Some _ => None end.
Definition unlock_bucket (s : state Q) (t : tid) (p : pc) : state Q := at_pc (with_bucket s None) t p.

(** An action on the bucket that can fail an assertion. *)
Definition on_parking (s : state Q) (t : tid) (r : option Q) (p : pc) : state Q :=
  match r with Some q => at_pc (with_parking s q) t p | None => at_pc s t Fault end.

Definition assert_pc (b : bool) (p : pc) : pc := if b then p else Fault.

(** Where the thread is when it has unlocked: [safepointSlow] goes on with [lock]. *)
Definition unlocked (k : unlocker) : pc := match k with Unlocking _ => Idle | InSafepoint => LockFastLoad end.

(** The assertions before the thread parks. *)
Definition to_park (spinCount v : Z) : pc := assert_pc (held v) (assert_pc (parked v) (LockPark spinCount v)).

(** One iteration of [lockSlow] after the load. *)
Definition lock_loop (spinCount v : Z) : pc :=
  if negb (held v) then LockBarge spinCount v
  else if negb (parked v) && (spinCount <? spinLimit) then LockLoad (u32 (spinCount + 1))
  else if negb (parked v) then LockSetParked spinCount v
  else to_park spinCount v.

(** One iteration of [unlockSlow] after the load. *)
Definition unlock_loop (k : unlocker) (v : Z) : pc :=
  if negb (Z.land v mask =? isHeldBit) && negb (Z.land v mask =? Z.lor isHeldBit hasParkedBit) then Fault
  else if Z.land v mask =? isHeldBit then UnlockCAS k v
  else UnlockAcquire k.

(** The callback of [unparkOne]: the transaction of a hand-off changes nothing, as the hook is the identity. *)
Definition unpark_callback (k : unlocker) (threadData : option tid) (result : UnparkResult) (v : Z) : pc :=
  assert_pc (Z.land v mask =? Z.lor isHeldBit hasParkedBit)
    (if didUnparkThread result && (match fairness_of k with Fair => true | Unfair => false end || timeToBeFair result)
     then UnlockToken k threadData DirectHandoff else UnlockTransLoad k threadData (mayHaveMoreThreads result)).

(** The new value in the transaction of [unlockSlow]. *)
Definition unlock_value (more : bool) (v : Z) : Z :=
  let v := Z.land v (Z.lnot mask) in if more then Z.lor v hasParkedBit else v.

(** The fast paths: one compare-and-exchange that expects a lock without parked threads, or a loop of a load and a
    compare-and-exchange. *)
Definition lockFastAssumingZero (s : state Q) (t : tid) (cas : bool) : state Q := CAS s t cas 0 isHeldBit Holding (LockLoad 0).
Definition lockFast_load (v : Z) : pc := if held v then LockLoad 0 else LockFastCAS v.
Definition tryLock_load (v : Z) : pc := if held v then Idle else TryCAS v.
Definition safepointFast (v : Z) : pc := if parked v then UnlockFastLoad else Holding.
Definition unlockFastAssumingZero (s : state Q) (t : tid) (cas : bool) (f : Fairness) : state Q := CAS s t cas isHeldBit 0 Idle (UnlockLoad (Unlocking f)).
Definition unlockFast_load (v : Z) : pc := if negb (Z.land v mask =? isHeldBit) then UnlockLoad InSafepoint else UnlockFastCAS v.

(** The next step of the operation in which the thread is; [None] when it has to wait. *)
Definition go (s : state Q) (t : tid) (cas : bool) (time random : Z) : option (state Q) :=
  match pcs s t with
  | Idle | Holding | Fault => None
  | LockFast => Some (lockFastAssumingZero s t cas)
  | LockFastLoad => Some (at_pc s t (lockFast_load (word s)))
  | LockFastCAS v => Some (CAS s t cas v (Z.lor v isHeldBit) Holding LockFastLoad)
  | LockLoad n => Some (at_pc s t (lock_loop n (word s)))
  | LockBarge n v => Some (CAS s t cas v (Z.lor v isHeldBit) Holding (LockLoad n))
  | LockSetParked n v => Some (CAS s t cas v (Z.lor v hasParkedBit) (to_park n (Z.lor v hasParkedBit)) (LockLoad n))
  | LockPark n v => Some (on_parking s t (bk_prepare (parking s) t) (LockAcquire n v))
  | LockAcquire n v => lock_bucket s t (LockValidate n v)
  | LockValidate n v => Some (at_pc s t (if word s =? v then LockEnqueue n else LockAbort n))
  | LockAbort n => Some (unlock_bucket s t (LockLoad n))
  | LockEnqueue n => Some (on_parking s t (bk_enqueue (parking s) t this) (LockRelease n))
  | LockRelease n => Some (unlock_bucket s t (LockSleep n))
  | LockSleep n =>
    match bk_address (parking s) t with
    | Some (Some _) => None
    | Some None =>
      match bk_token (parking s) t with
      | Some k => Some (at_pc s t (if k =? DirectHandoff then LockHandoff else LockLoad n))
      | None => Some (at_pc s t Fault)
      end
    | None => Some (at_pc s t Fault)
    end
  | LockHandoff => Some (at_pc s t (assert_pc (held (word s)) Holding))
  | TryLoad => Some (at_pc s t (tryLock_load (word s)))
  | TryCAS v => Some (CAS s t cas v (Z.lor v isHeldBit) Holding TryLoad)
  | SafepointLoad => Some (at_pc s t (safepointFast (word s)))
  | UnlockFast f => Some (unlockFastAssumingZero s t cas f)
  | UnlockFastLoad => Some (at_pc s t (unlockFast_load (word s)))
  | UnlockFastCAS v => Some (CAS s t cas v (Z.land v (Z.lnot isHeldBit)) (unlocked InSafepoint) UnlockFastLoad)
  | UnlockLoad k => Some (at_pc s t (unlock_loop k (word s)))
  | UnlockCAS k v => Some (CAS s t cas v (Z.land v (Z.lnot isHeldBit)) (unlocked k) (UnlockLoad k))
  | UnlockAcquire k => lock_bucket s t (UnlockDequeue k)
  | UnlockDequeue k =>
    match bk_dequeue (parking s) this time random with
    | Some (q, threadData, fair) =>
      let did := negb (is_null threadData) in
      Some (at_pc (with_parking s q) t (assert_pc (negb fair || did) (UnlockCallback k threadData (mkUnparkResult did (did && bk_more q) fair))))
    | None => Some (at_pc s t Fault)
    end
  | UnlockCallback k threadData result => Some (at_pc s t (unpark_callback k threadData result (word s)))
  | UnlockTransLoad k threadData more => Some (at_pc s t (UnlockTransCAS k threadData more (word s)))
  | UnlockTransCAS k threadData more v => Some (CAS s t cas v (unlock_value more v) (UnlockToken k threadData BargingOpportunity) (UnlockTransLoad k threadData more))
  | UnlockToken k (Some u) token => Some (on_parking s t (bk_set_token (parking s) u token) (UnlockRelease k (Some u)))
  | UnlockToken k None _ => Some (at_pc s t (UnlockRelease k None))
  | UnlockRelease k threadData => Some (unlock_bucket s t (match threadData with Some u => UnlockWake k u | None => unlocked k end))
  | UnlockWake k u => Some (on_parking s t (bk_wake (parking s) u) (unlocked k))
  | OtherParked => match bk_address (parking s) t with Some (Some _) => None | Some None => Some (at_pc s t Idle) | None => Some (at_pc s t Fault) end
  end.

(** Other uses of the bucket, by threads that do not hold this lock; each is one action while the bucket is free. *)
Definition when_free (s : state Q) (s' : state Q) : option (state Q) := match bucket_lock s with None => Some s' | Some _ => None end.

Definition other_unpark (s : state Q) (a time random : Z) : option Q :=
  '(q, threadData, _) ← bk_dequeue (parking s) a time random;
  match threadData with Some u => q ← bk_set_token q u 0; bk_wake q u | None => Some q end.

Definition lock_next (s : state Q) (t : tid) (a : action) : option (state Q) :=
  match a, pcs s t with
  | CallLock, Idle => Some (at_pc s t LockFast)
  | CallTryLock, Idle => Some (at_pc s t TryLoad)
  | CallUnlock f, Holding => Some (at_pc s t (UnlockFast f))
  | CallSafepoint, Holding => Some (at_pc s t SafepointLoad)
  | Go cas time random, _ => go s t cas time random
  | OtherPark b, Idle => if b =? this then None else when_free s (on_parking s t (q ← bk_prepare (parking s) t; bk_enqueue q t b) OtherParked)
  | OtherUnpark b time random, Idle => if b =? this then None else when_free s (on_parking s t (other_unpark s b time random) Idle)
  | OtherTimeout time random, OtherParked => when_free s (on_parking s t (bk_cancel (parking s) t time random) Idle)
  | _, _ => None
  end.

Fixpoint run (s : state Q) (es : list (tid * action)) : option (state Q) :=
  match es with [] => Some s | (t, a) :: es => s ← lock_next s t a; run s es end.
End lock.

(** ** The bucket of [ParkingBucket] *)
(** The data of a thread are made when the thread asks for them the first time. *)
Definition myThreadData (h : gmap tid ThreadData) (t : tid) : gmap tid ThreadData :=
  match h !! t with Some _ => h | None => <[t := mkThreadData None None 0]> h end.

Definition lot_prepare (l : lot) (me : tid) : option lot :=
  h ← update (myThreadData (threads l) me) me (set_token 0);
  d ← h !! me;
  _ ← guard (is_null (address d));
  Some (mkLot (bucket l) h).

Definition lot_enqueue (l : lot) (me : tid) (a : Z) : option lot :=
  h ← update (threads l) me (set_address (Some a));
  Bucket_enqueue (mkLot (bucket l) h) me.

Definition lot_dequeue (l : lot) (a time random : Z) : option (lot * option tid * bool) :=
  '(l, (threadData, fair)) ← genericDequeue (unparkOne_functor a) (S (size (threads l))) l (None, false) time random;
  Some (l, threadData, fair).

Definition lot_set_token (l : lot) (t : tid) (k : Z) : option lot := h ← update (threads l) t (set_token k); Some (mkLot (bucket l) h).

#[export] Instance lot_ops : BucketOps lot := {|
  bk_prepare := lot_prepare;
  bk_enqueue := lot_enqueue;
  bk_dequeue := lot_dequeue;
  bk_more := has_queue;
  bk_set_token := lot_set_token;
  bk_token l t := token <$> threads l !! t;
  bk_wake := wake;
  bk_address l t := address <$> threads l !! t;
  bk_cancel l t time random := fst <$> park_timeout (S (size (threads l))) l t time random
|}.

(** The lock is free, nobody is parked, and no thread is in an operation. *)
Definition free_lock {Q} (q : Q) : state Q := mkState 0 None q (fun _ => Idle).
Definition empty_lot (fairTime : Z) : lot := mkLot (mkBucket None None fairTime) ∅.
