(* ===== verification/LockInvariant.v ===== *)
(** * LockInvariant: the invariant of the lock on a bucket that is a sequence *)
From stdpp Require Import gmap functions.
From S2P Require Import Prelude ParkingBucket ParkingBucketProps LockAlgorithm.
Local Open Scope Z_scope.

(** ** A bucket as a sequence of threads and addresses *)
Record wait_queue : Type := mkWait { entries : list (tid * Z); addresses : tid -> option Z; tokens : tid -> Z; known : gset tid; fair_time : Z }.

Definition wq_prepare (w : wait_queue) (t : tid) : option wait_queue :=
  _ ← guard (is_null (addresses w t));
  Some (mkWait (entries w) (addresses w) (<[t := 0]> (tokens w)) ({[t]} ∪ known w) (fair_time w)).

Definition wq_enqueue (w : wait_queue) (t : tid) (a : Z) : option wait_queue :=
  _ ← guard (bool_decide (t ∈ known w) && bool_decide (t ∉ map fst (entries w)));
  Some (mkWait (entries w ++ [(t, a)]) (<[t := Some a]> (addresses w)) (tokens w) (known w) (fair_time w)).

Definition wq_dequeue (w : wait_queue) (a time random : Z) : option (wait_queue * option tid * bool) :=
  let '(r, q) := take_first (fun e => snd e =? a) (entries w) in
  let fair := (fair_time w <? time) && negb (is_null r) in
  Some (mkWait q (addresses w) (tokens w) (known w) (if fair then time + random else fair_time w), fst <$> r, fair).

Definition wq_set_token (w : wait_queue) (t : tid) (k : Z) : option wait_queue :=
  _ ← guard (bool_decide (t ∈ known w)); Some (mkWait (entries w) (addresses w) (<[t := k]> (tokens w)) (known w) (fair_time w)).

Definition wq_wake (w : wait_queue) (t : tid) : option wait_queue :=
  _ ← guard (negb (is_null (addresses w t)) && bool_decide (t ∈ known w) && bool_decide (t ∉ map fst (entries w)));
  Some (mkWait (entries w) (<[t := None]> (addresses w)) (tokens w) (known w) (fair_time w)).

Definition wq_cancel (w : wait_queue) (t : tid) (time random : Z) : option wait_queue :=
  _ ← guard (bool_decide (t ∈ known w));
  Some (mkWait (filter (fun e => fst e <> t) (entries w)) (<[t := None]> (addresses w)) (tokens w) (known w)
    (if (fair_time w <? time) && bool_decide (t ∈ map fst (entries w)) then time + random else fair_time w)).

#[export] Instance wait_ops : BucketOps wait_queue := {|
  bk_prepare := wq_prepare;
  bk_enqueue := wq_enqueue;
  bk_dequeue := wq_dequeue;
  bk_more w := negb (bool_decide (entries w = []));
  bk_set_token := wq_set_token;
  bk_token w t := if bool_decide (t ∈ known w) then Some (tokens w t) else None;
  bk_wake := wq_wake;
  bk_address w t := if bool_decide (t ∈ known w) then Some (addresses w t) else None;
  bk_cancel := wq_cancel
|}.

Definition empty_wait (fairTime : Z) : wait_queue := mkWait [] (fun _ => None) (fun _ => 0) ∅ fairTime.

(** ** What a program counter says *)
(** The thread has the lock. *)
Definition owner_pc (p : pc) : bool :=
  match p with
  | Holding | LockHandoff | SafepointLoad | UnlockFast _ | UnlockFastLoad | UnlockFastCAS _ | UnlockLoad _ | UnlockCAS _ _ | UnlockAcquire _ | UnlockDequeue _ | UnlockCallback _ _ _ | UnlockTransLoad _ _ _ | UnlockTransCAS _ _ _ _ => true
  | UnlockToken _ _ k => k =? DirectHandoff
  | _ => false
  end.

(** The thread has the lock of the bucket. *)
Definition bucket_pc (p : pc) : bool :=
  match p with
  | LockValidate _ _ | LockAbort _ | LockEnqueue _ | LockRelease _ | UnlockDequeue _ | UnlockCallback _ _ _ | UnlockTransLoad _ _ _ | UnlockTransCAS _ _ _ _ | UnlockToken _ _ _ | UnlockRelease _ _ => true
  | _ => false
  end.

(** The thread is about to wake up another. *)
Definition wakes (p : pc) : option tid :=
  match p with
  | UnlockCallback _ r _ | UnlockTransLoad _ r _ | UnlockTransCAS _ r _ _ | UnlockToken _ r _ | UnlockRelease _ r => r
  | UnlockWake _ u => Some u
  | _ => None
  end.

(** It has not yet set the token of the other. *)
Definition before_token (p : pc) : bool :=
  match p with UnlockCallback _ _ _ | UnlockTransLoad _ _ _ | UnlockTransCAS _ _ _ _ | UnlockToken _ _ _ => true | _ => false end.

(** The thread is in [lock]. *)
Definition locking (p : pc) : bool :=
  match p with
  | LockFast | LockFastLoad | LockFastCAS _ | LockLoad _ | LockBarge _ _ | LockSetParked _ _ | LockPark _ _ | LockAcquire _ _ | LockValidate _ _ | LockAbort _ | LockEnqueue _ | LockRelease _ | LockSleep _ | LockHandoff => true
  | _ => false
  end.

(** The kinds of program counters at which the data of the thread matter. *)
Inductive parking_kind : Type := NotParking | Prepared | Enqueued | Sleeping | Elsewhere.
#[export] Instance parking_kind_eq_dec : EqDecision parking_kind.
Proof. solve_decision. Defined.

Definition kind (p : pc) : parking_kind :=
  match p with
  | LockAcquire _ _ | LockValidate _ _ | LockEnqueue _ => Prepared
  | LockRelease _ => Enqueued
  | LockSleep _ => Sleeping
  | OtherParked => Elsewhere
  | _ => NotParking
  end.

(** The byte is known to have both bits at these. *)
Definition both_bits (p : pc) : bool :=
  match p with LockEnqueue _ | UnlockAcquire _ | UnlockDequeue _ | UnlockCallback _ _ _ | UnlockTransLoad _ _ _ | UnlockTransCAS _ _ _ _ => true | _ => false end.

(** What is known of the local variables. *)
Definition local_ok (p : pc) : Prop :=
  match p with
  | LockFastCAS v | LockBarge _ v | TryCAS v => v = 0 \/ v = 2
  | LockSetParked _ v | UnlockFastCAS v | UnlockCAS _ v => v = 1
  | LockPark _ v | LockAcquire _ v | LockValidate _ v => v = 3
  | UnlockCallback _ r res => didUnparkThread res = negb (is_null r) /\ (mayHaveMoreThreads res = true -> r <> None)
  | UnlockTransLoad _ r more => more = true -> r <> None
  | UnlockTransCAS _ r more v => v = 3 /\ (more = true -> r <> None)
  | UnlockToken _ r k => k = BargingOpportunity \/ (k = DirectHandoff /\ r <> None)
  | Fault => False
  | _ => True
  end.

(** No more threads, as far as the unlocking thread is told. *)
Definition told_none (p : pc) : bool :=
  match p with
  | UnlockCallback _ _ res => negb (mayHaveMoreThreads res)
  | UnlockTransLoad _ _ more | UnlockTransCAS _ _ more _ => negb more
  | _ => false
  end.

(** ** The invariant *)
Section invariant.
Context (this : Z).

Definition queued (s : state wait_queue) (t : tid) : Prop := (t, this) ∈ entries (parking s).

(** A thread that was handed the lock has it while it still sleeps. *)
Definition owns (s : state wait_queue) (t : tid) : Prop :=
  owner_pc (pcs s t) = true \/ (kind (pcs s t) = Sleeping /\ tokens (parking s) t = DirectHandoff).

(** The thread is in [lock] and not in the queue. *)
Definition contender (s : state wait_queue) (t : tid) : Prop := locking (pcs s t) = true /\ ~ queued s t.

(** The data of a thread. *)
Definition data_ok (s : state wait_queue) (t : tid) : Prop :=
  let w := parking s in
  match kind (pcs s t) with
  | NotParking => addresses w t = None
  | Prepared => addresses w t = None /\ tokens w t = 0 /\ t ∈ known w
  | Enqueued => queued s t
  | Sleeping => t ∈ known w /\ (tokens w t = 0 \/ tokens w t = 1) /\ (addresses w t = None \/ queued s t \/ exists u, wakes (pcs s u) = Some t)
  | Elsewhere => t ∈ known w /\ (addresses w t = None \/ exists a, a <> this /\ (t, a) ∈ entries w)
  end.

Record inv (s : state wait_queue) : Prop := {
  inv_word : 0 <= word s < 4;
  inv_local t : local_ok (pcs s t);
  inv_unique t t' : owns s t -> owns s t' -> t = t';
  inv_held : held (word s) = true <-> exists t, owns s t;
  inv_bucket t : bucket_pc (pcs s t) = true <-> bucket_lock s = Some t;
  inv_both t : both_bits (pcs s t) = true -> word s = 3;
  inv_nodup : NoDup (map fst (entries (parking s)));
  inv_entries t a : (t, a) ∈ entries (parking s) ->
    t ∈ known (parking s) /\ addresses (parking s) t = Some a /\ (a = this -> (kind (pcs s t) = Enqueued \/ kind (pcs s t) = Sleeping) /\ tokens (parking s) t = 0) /\ (a <> this -> kind (pcs s t) = Elsewhere);
  inv_data t : data_ok s t;
  inv_wakes u t : wakes (pcs s u) = Some t ->
    kind (pcs s t) = Sleeping /\ addresses (parking s) t = Some this /\ t ∉ map fst (entries (parking s)) /\ t ∈ known (parking s) /\ (before_token (pcs s u) = true -> tokens (parking s) t = 0);
  inv_waker u u' t : wakes (pcs s u) = Some t -> wakes (pcs s u') = Some t -> u = u';
  inv_parked t : queued s t -> parked (word s) = true;
  inv_told t t' : told_none (pcs s t) = true -> ~ queued s t';
  inv_contender t : queued s t -> held (word s) = false -> exists c, contender s c
}.

(** ** Steps that leave the bucket as it is *)
(** Whether a thread at [p] has the lock, with the token that it has. *)
Definition owns_at (s : state wait_queue) (t : tid) (p : pc) : Prop := owner_pc p = true \/ (kind p = Sleeping /\ tokens (parking s) t = DirectHandoff).

Record step_ok (s : state wait_queue) (t : tid) (p : pc) (v : Z) (b : option tid) : Prop := {
  ok_word : 0 <= v < 4;
  ok_local : local_ok p;
  ok_owner : (held v = held (word s) /\ (owns_at s t p <-> owns s t)) \/ (held (word s) = false /\ held v = true /\ owns_at s t p) \/ (owns s t /\ held v = false /\ ~ owns_at s t p);
  ok_bucket : (b = bucket_lock s /\ bucket_pc p = bucket_pc (pcs s t)) \/ (bucket_lock s = None /\ b = Some t /\ bucket_pc p = true) \/ (bucket_lock s = Some t /\ b = None /\ bucket_pc p = false);
  ok_both : both_bits p = true -> v = 3;
  ok_both_other u : v <> word s -> u <> t -> both_bits (pcs s u) = false;
  ok_entry a : (t, a) ∈ entries (parking s) -> (a = this -> kind p = Enqueued \/ kind p = Sleeping) /\ (a <> this -> kind p = Elsewhere);
  ok_data : data_ok (at_pc s t p) t;
  ok_wakes : wakes p = wakes (pcs s t) /\ (before_token p = true -> before_token (pcs s t) = true);
  ok_parked u : queued s u -> parked v = true;
  ok_told u : told_none p = true -> ~ queued s u;
  ok_contender u : queued s u -> held v = false -> exists c, contender s c /\ (c = t -> locking p = true)
}.

Lemma pcs_eq (f : tid -> pc) t p : (<[t := p]> f) t = p.
Proof. apply fn_lookup_insert. Qed.
Lemma pcs_ne (f : tid -> pc) t u p : t <> u -> (<[t := p]> f) u = f u.
Proof. apply fn_lookup_insert_ne. Qed.

Lemma inv_step s t p v b : inv s -> step_ok s t p v b -> inv (mkState v b (parking s) (<[t := p]> (pcs s))).
Proof.
  intros I K. set (s' := mkState _ _ _ _).
  assert (forall u, u <> t -> pcs s' u = pcs s u) as Hne by (intros; by apply pcs_ne). assert (pcs s' t = p) as Heq by apply pcs_eq.
  assert (forall u, u <> t -> owns s' u <-> owns s u) as Hown by (intros u Hu; unfold owns; by rewrite Hne). assert (owns s' t <-> owns_at s t p) as Hown' by (unfold owns; by rewrite Heq).
  assert (forall u, wakes (pcs s' u) = wakes (pcs s u)) as Hw by (intros u; destruct (decide (u = t)) as [->|Hu]; [rewrite Heq; apply (ok_wakes _ _ _ _ _ K)|by rewrite Hne]).
  assert (forall u, wakes (pcs s u) = Some t -> kind p = Sleeping) as Hwk.
  { intros u Hu. destruct (inv_wakes _ I u t Hu) as (Hk & Ha & Hn & _). pose proof (ok_data _ _ _ _ _ K) as Hd. unfold data_ok in Hd. cbn [at_pc pcs parking] in Hd. rewrite pcs_eq in Hd. destruct (kind p); try tauto; [by rewrite Ha in Hd|destruct Hd; by rewrite Ha in *| |].
    - exfalso. apply Hn, elem_of_map_fst. by exists this.
    - exfalso. destruct Hd as [_ [Hd|(a & _ & Hin)]]; [by rewrite Ha in Hd|]. apply Hn, elem_of_map_fst. by exists a. }
  split.
  - apply (ok_word _ _ _ _ _ K).
  - intros u. destruct (decide (u = t)) as [->|Hu]; [rewrite Heq; apply (ok_local _ _ _ _ _ K)|rewrite Hne by done; apply (inv_local _ I)].
  - assert (forall u, u <> t -> owns s u -> owns_at s t p -> False) as Hx.
    { intros u Hu Ho Hp. destruct (ok_owner _ _ _ _ _ K) as [[_ Hiff]|[(Hh & _)|(_ & _ & Hn)]]; [apply Hu, (inv_unique _ I); tauto| |tauto]. assert (held (word s) = true) as E by (apply (inv_held _ I); by exists u). by rewrite E in Hh. }
    intros u u' H1 H2. destruct (decide (u = t)) as [->|Hu], (decide (u' = t)) as [->|Hu']; [done| | |].
    + exfalso. apply (Hx u' Hu'); [by apply Hown|by apply Hown'].
    + exfalso. apply (Hx u Hu); [by apply Hown|by apply Hown'].
    + apply (inv_unique _ I); by apply Hown.
  - cbn [word s']. split.
    + intros Hv. destruct (ok_owner _ _ _ _ _ K) as [[Hs Hiff]|[(_ & _ & Ho)|(_ & Hn & _)]]; [|exists t; by apply Hown'|by rewrite Hv in Hn]. rewrite Hs in Hv. apply (inv_held _ I) in Hv as [u Hu]. exists u. destruct (decide (u = t)) as [->|Hut]; [by apply Hown', Hiff|by apply Hown].
    + intros [u Hu]. destruct (ok_owner _ _ _ _ _ K) as [[Hs Hiff]|[(_ & Hv & _)|(Ho & _ & Hn)]]; [|done|]; destruct (decide (u = t)) as [->|Hut].
      * rewrite Hs. apply (inv_held _ I). exists t. by apply Hiff, Hown'.
      * rewrite Hs. apply (inv_held _ I). exists u. by apply Hown.
      * by apply Hown' in Hu.
      * exfalso. apply Hut, (inv_unique _ I); [by apply Hown|done].
  - intros u. cbn [bucket_lock s']. pose proof (inv_bucket _ I u) as Hb. pose proof (inv_bucket _ I t) as Hbt. destruct (decide (u = t)) as [->|Hut]; [rewrite Heq|rewrite Hne by done]; destruct (ok_bucket _ _ _ _ _ K) as [[-> Hs]|[(H1 & -> & H3)|(H1 & -> & H3)]].
    + by rewrite Hs.
    + by rewrite H3.
    + by rewrite H3.
    + done.
    + rewrite H1 in Hb. split; [intros E%Hb; done|congruence].
    + split; [intros E%Hb; congruence|done].
  - intros u Hu. cbn [word s']. destruct (decide (u = t)) as [->|Hut]; [rewrite Heq in Hu; by apply (ok_both _ _ _ _ _ K)|]. rewrite Hne in Hu by done. destruct (decide (v = word s)) as [->|Hv]; [by apply (inv_both _ I u)|]. rewrite (ok_both_other _ _ _ _ _ K u Hv Hut) in Hu. done.
  - apply (inv_nodup _ I).
  - intros u a Hin. destruct (inv_entries _ I u a Hin) as (H1 & H2 & H3 & H4). destruct (decide (u = t)) as [->|Hut]; [rewrite Heq|rewrite Hne by done; done]. destruct (ok_entry _ _ _ _ _ K a Hin). split; [done|]. split; [done|]. split; [|done]. intros Ha. split; [auto|]. by apply H3.
  - intros u. destruct (decide (u = t)) as [->|Hut].
    + exact (ok_data _ _ _ _ _ K).
    + pose proof (inv_data _ I u) as Hd. unfold data_ok in *. rewrite Hne by done. destruct (kind (pcs s u)); try done. destruct Hd as (H1 & H2 & H3). split; [done|]. split; [done|]. destruct H3 as [H3|[H3|[u' Hu']]]; auto. right. right. exists u'. by rewrite Hw.
  - intros u u' Hu. rewrite Hw in Hu. destruct (inv_wakes _ I u u' Hu) as (H1 & H2 & H3 & H4 & H5). split.
    + destruct (decide (u' = t)) as [->|Hut]; [rewrite Heq; by apply (Hwk u)|by rewrite Hne].
    + split; [done|]. split; [done|]. split; [done|]. intros Hb. apply H5. destruct (decide (u = t)) as [->|Hut]; [rewrite Heq in Hb; by apply (ok_wakes _ _ _ _ _ K)|by rewrite Hne in Hb].
  - intros u u' x. rewrite !Hw. apply (inv_waker _ I).
  - apply (ok_parked _ _ _ _ _ K).
  - intros u u'. destruct (decide (u = t)) as [->|Hut]; [rewrite Heq; apply (ok_told _ _ _ _ _ K)|rewrite Hne by done; apply (inv_told _ I)].
  - intros u Hq Hh. destruct (ok_contender _ _ _ _ _ K u Hq Hh) as (c & [Hc1 Hc2] & Hc). exists c. split; [|done]. destruct (decide (c = t)) as [->|Hct]; [rewrite Heq; auto|by rewrite Hne].
Qed.
End invariant.
