(* ===== verification/LockPreserve.v ===== *)
(** * LockPreserve: every step of every thread keeps the invariant of the lock *)
From stdpp Require Import gmap functions.
From S2P Require Import Prelude ParkingBucket ParkingBucketProps LockAlgorithm LockInvariant.
Local Open Scope Z_scope.

(** ** The byte *)
Lemma word_cases v : 0 <= v < 4 -> v = 0 \/ v = 1 \/ v = 2 \/ v = 3.
Proof. lia. Qed.

(** Decide a goal about the byte by its four values. *)
Ltac by_word H := destruct (word_cases _ H) as [-> | [-> | [-> | ->]]]; try done.

Lemma lock_loop_spec n v : 0 <= v < 4 ->
  lock_loop n v = LockBarge n v /\ held v = false \/ (exists n', lock_loop n v = LockLoad n') \/ lock_loop n v = LockSetParked n v /\ v = 1 \/ lock_loop n v = LockPark n v /\ v = 3.
Proof.
  intros Hv. unfold lock_loop, to_park. by_word Hv; cbn [held parked negb]; eauto. change (parked 1) with false. change (held 1) with true. cbn [negb andb]. destruct (n <? spinLimit); eauto.
Qed.

Lemma unlock_loop_spec k v : 0 <= v < 4 -> held v = true -> unlock_loop k v = UnlockCAS k v /\ v = 1 \/ unlock_loop k v = UnlockAcquire k /\ v = 3.
Proof. intros Hv. unfold unlock_loop. by_word Hv; auto. Qed.

Section steps.
Context (this : Z).
Notation inv := (inv this).
Notation queued := (queued this).

(** ** Consequences of the invariant *)
Lemma inv_not_entry s t : inv s -> addresses (parking s) t = None -> t ∉ map fst (entries (parking s)).
Proof. intros I Ha [a Hin]%elem_of_map_fst. destruct (inv_entries _ _ I t a Hin) as (_ & E & _). congruence. Qed.

Lemma inv_not_queued s t : inv s -> addresses (parking s) t = None -> ~ queued s t.
Proof. intros I Ha Hq. apply (inv_not_entry s t I Ha), elem_of_map_fst. by exists this. Qed.

Lemma inv_not_waked s t u : inv s -> addresses (parking s) t = None -> wakes (pcs s u) <> Some t.
Proof. intros I Ha Hw. destruct (inv_wakes _ _ I u t Hw) as (_ & E & _). congruence. Qed.

Lemma inv_both_owner s t : inv s -> both_bits (pcs s t) = true -> owns s t \/ bucket_lock s = Some t.
Proof. intros I Hb. rewrite <- (inv_bucket _ _ I t). unfold owns. destruct (pcs s t); try done; by auto. Qed.

Lemma inv_owner_held s t : inv s -> owns s t -> held (word s) = true.
Proof. intros I Ho. apply (inv_held _ _ I). by exists t. Qed.

Lemma held_iff v : 0 <= v < 4 -> held v = true <-> v = 1 \/ v = 3.
Proof. intros Hv. destruct (word_cases v Hv) as [-> | [-> | [-> | ->]]]; (split; [intros E|]); try (by auto); try (by vm_compute in E); lia. Qed.

(** ** Steps that change only where the thread is *)
Lemma inv_silent s t p :
  inv s -> local_ok p -> owner_pc p = owner_pc (pcs s t) -> bucket_pc p = bucket_pc (pcs s t) -> (both_bits p = true -> word s = 3) ->
  kind p = kind (pcs s t) \/ kind p = NotParking /\ kind (pcs s t) = Prepared ->
  wakes p = wakes (pcs s t) -> (before_token p = true -> before_token (pcs s t) = true) -> (forall u, told_none p = true -> ~ queued s u) ->
  (locking (pcs s t) = true -> locking p = true \/ held (word s) = true) -> inv (at_pc s t p).
Proof.
  intros I Hl Ho Hb H3 Hk Hw Hbt Ht Hlk. apply (inv_step this s); [done|]. pose proof (inv_data _ _ I t) as Hd. split; try done.
  - apply (inv_word _ _ I).
  - left. split; [done|]. unfold owns_at, owns. rewrite Ho. destruct Hk as [->|[-> ->]]; [done|]. split; (intros [|[? _]]; [by left|done]).
  - by left.
  - intros a Hin. destruct (inv_entries _ _ I t a Hin) as (_ & Ha & H1 & H2). destruct Hk as [->|[-> E]]; [split; [intros; by apply H1|done]|]. unfold data_ok in Hd. rewrite E in Hd. destruct Hd. congruence.
  - unfold data_ok in *. cbn [at_pc pcs parking]. rewrite pcs_eq. destruct Hk as [->|[-> E]]; [|rewrite E in Hd; by destruct Hd]. destruct (kind (pcs s t)); try done. destruct Hd as (H1 & H2 & [H4|[H4|[u Hu]]]); split; try done; (split; [done|]); auto. right. right. exists u. destruct (decide (u = t)) as [->|Hut]; [by rewrite pcs_eq, Hw|by rewrite pcs_ne].
  - apply (inv_parked _ _ I).
  - intros u Hq Hh. destruct (inv_contender _ _ I u Hq Hh) as (c & Hc). exists c. split; [done|]. intros ->. destruct Hlk as [|E]; [apply Hc|done|congruence].
Qed.

(** ** Steps that change the byte *)
(** A thread takes the lock. *)
Lemma inv_acquire s t : inv s -> held (word s) = false -> owner_pc (pcs s t) = false -> bucket_pc (pcs s t) = false -> kind (pcs s t) = NotParking -> wakes (pcs s t) = None ->
  inv (at_pc (with_word s (Z.lor (word s) isHeldBit)) t Holding).
Proof.
  intros I Hh Ho Hb Hk Hw. pose proof (inv_word _ _ I) as Hr. pose proof (inv_data _ _ I t) as Hd. unfold data_ok in Hd. rewrite Hk in Hd.
  assert (0 <= Z.lor (word s) isHeldBit < 4 /\ held (Z.lor (word s) isHeldBit) = true /\ (parked (word s) = true -> parked (Z.lor (word s) isHeldBit) = true) /\ word s <> 3) as (H1 & H2 & H3 & H4) by (destruct (word_cases _ Hr) as [E|[E|[E|E]]]; rewrite E in *; split_and!; done).
  apply (inv_step this s); [done|]. split; try done.
  - right. left. split; [done|]. split; [done|]. by left.
  - left. cbn. by rewrite Hb.
  - intros u _ _. destruct (both_bits (pcs s u)) eqn:E; [|done]. by apply (inv_both _ _ I) in E.
  - intros a Hin. destruct (inv_entries _ _ I t a Hin) as (_ & Ha & _). congruence.
  - unfold data_ok. cbn [at_pc pcs parking]. rewrite pcs_eq. done.
  - intros u Hq. by apply H3, (inv_parked _ _ I u).
  - intros u _ Hv. cbn [word with_word] in Hv; congruence.
Qed.

(** A thread sets the parked bit of a lock that is held. *)
Lemma inv_set_parked s t n m v : inv s -> pcs s t = LockSetParked m v -> word s = 1 -> inv (at_pc (with_word s 3) t (LockPark n 3)).
Proof.
  intros I E Hw. apply (inv_step this s); [done|]. pose proof (inv_data _ _ I t) as Hd. unfold data_ok in Hd. rewrite E in Hd. split; rewrite ?E; try done.
  - left. rewrite Hw. split; [done|]. unfold owns_at, owns. by rewrite E.
  - by left.
  - intros u _ _. destruct (both_bits (pcs s u)) eqn:Eb; [|done]. apply (inv_both _ _ I) in Eb. congruence.
  - intros a Hin. destruct (inv_entries _ _ I t a Hin) as (_ & Ha & _). congruence.
  - unfold data_ok. cbn [at_pc pcs parking]. rewrite pcs_eq. done.
Qed.

(** The owner clears the held bit of a lock at which nobody is parked. *)
Lemma inv_unlock s t p : inv s -> word s = 1 -> owner_pc (pcs s t) = true -> bucket_pc (pcs s t) = false -> kind (pcs s t) = NotParking -> wakes (pcs s t) = None ->
  p = Idle \/ p = LockFastLoad -> inv (at_pc (with_word s 0) t p).
Proof.
  intros I Hw Ho Hb Hk Hwk Hp. apply (inv_step this s); [done|]. pose proof (inv_data _ _ I t) as Hd. unfold data_ok in Hd. rewrite Hk in Hd.
  assert (local_ok p /\ owner_pc p = false /\ bucket_pc p = false /\ kind p = NotParking /\ wakes p = None /\ both_bits p = false /\ told_none p = false /\ before_token p = false) as (P1 & P2 & P3 & P4 & P5 & P6 & P7 & P8) by (by destruct Hp as [-> | ->]).
  assert (forall u, ~ queued s u) as Hnq by (intros u Hq%(inv_parked _ _ I); by rewrite Hw in Hq). split; rewrite ?P5, ?P6, ?P7, ?P8; try done.
  - right. right. split; [by left|]. split; [done|]. unfold owns_at. rewrite P2, P4. by intros [|[]].
  - left. by rewrite P3, Hb.
  - intros u _ _. destruct (both_bits (pcs s u)) eqn:Eb; [|done]. apply (inv_both _ _ I) in Eb. congruence.
  - intros a Hin. destruct (inv_entries _ _ I t a Hin) as (_ & Ha & _). congruence.
  - unfold data_ok. cbn [at_pc pcs parking]. by rewrite pcs_eq, P4.
  - intros u Hq. by apply Hnq in Hq.
  - intros u Hq. by apply Hnq in Hq.
Qed.

(** The owner ends the transaction of [unlockSlow]. *)
Lemma inv_transaction s t k r more : inv s -> pcs s t = UnlockTransCAS k r more 3 -> inv (at_pc (with_word s (unlock_value more 3)) t (UnlockToken k r BargingOpportunity)).
Proof.
  intros I E. pose proof (inv_local _ _ I t) as Hl. pose proof (inv_data _ _ I t) as Hd. pose proof (inv_both _ _ I t) as Hw. pose proof (inv_bucket _ _ I t) as Hb. pose proof (inv_told _ _ I t) as Ht. unfold data_ok in Hd. rewrite E in Hl, Hd, Hw, Hb, Ht. cbn in Hl, Hd, Hw, Hb, Ht. specialize (Hw eq_refl). destruct Hb as [Hb _]. specialize (Hb eq_refl).
  assert (owns s t) as Ho by (left; by rewrite E).
  apply (inv_step this s); [done|]. split; rewrite ?E; try done.
  - by destruct more.
  - by left.
  - right. right. split; [done|]. split; [by destruct more|]. by intros [|[]].
  - by left.
  - intros u _ Hu. destruct (both_bits (pcs s u)) eqn:Eb; [|done]. exfalso. destruct (inv_both_owner s u I Eb) as [Hou|Hbu]; [by apply Hu, (inv_unique _ _ I)|congruence].
  - intros a Hin. destruct (inv_entries _ _ I t a Hin) as (_ & Ha & _). congruence.
  - unfold data_ok. cbn [at_pc pcs parking]. by rewrite pcs_eq.
  - intros u Hq. destruct more; [done|]. exfalso. by apply (Ht u).
  - intros u Hq _. destruct more; [|exfalso; by apply (Ht u)]. destruct r as [x|]; [|by destruct (proj2 Hl eq_refl)]. destruct (inv_wakes _ _ I t x ltac:(by rewrite E)) as (Hk & _ & Hn & _). exists x. split; [|intros ->; by rewrite E in Hk]. split; [by destruct (pcs s x)|]. intros Hx. apply Hn, elem_of_map_fst. by exists this.
Qed.

(** ** The lock of the bucket *)
Lemma inv_lock_bucket s t p :
  inv s -> bucket_lock s = None -> bucket_pc p = true -> local_ok p -> owner_pc p = owner_pc (pcs s t) -> (both_bits p = true -> word s = 3) -> kind p = kind (pcs s t) -> kind p = NotParking \/ kind p = Prepared ->
  wakes p = None -> wakes (pcs s t) = None -> before_token p = false -> told_none p = false -> locking p = locking (pcs s t) -> inv (at_pc (with_bucket s (Some t)) t p).
Proof.
  intros I Hb Hbp Hl Ho H3 Hk Hkp Hw Hw0 Hbt Ht Hlk. pose proof (inv_data _ _ I t) as Hd. unfold data_ok in Hd. rewrite <- Hk in Hd. assert (addresses (parking s) t = None) as Ha by (destruct Hkp as [E|E]; rewrite E in Hd; [done|by destruct Hd]).
  apply (inv_step this s); [done|]. split; try done.
  - apply (inv_word _ _ I).
  - left. split; [done|]. unfold owns_at, owns. by rewrite Ho, Hk.
  - by right; left.
  - intros a Hin. destruct (inv_entries _ _ I t a Hin) as (_ & E & _). congruence.
  - unfold data_ok. cbn [at_pc pcs parking]. rewrite pcs_eq. by destruct Hkp as [E|E]; rewrite E in *.
  - by rewrite Hw, Hw0, Hbt.
  - apply (inv_parked _ _ I).
  - intros u. by rewrite Ht.
  - intros u Hq Hh. destruct (inv_contender _ _ I u Hq Hh) as (c & Hc). exists c. split; [done|]. intros ->. rewrite Hlk. apply Hc.
Qed.

Lemma inv_unlock_bucket s t p :
  inv s -> bucket_lock s = Some t -> bucket_pc p = false -> local_ok p -> owner_pc p = owner_pc (pcs s t) -> both_bits p = false -> kind p = kind (pcs s t) \/ kind p = Sleeping /\ kind (pcs s t) = Enqueued ->
  wakes p = wakes (pcs s t) -> before_token p = false -> told_none p = false -> (locking (pcs s t) = true -> locking p = true) -> inv (at_pc (with_bucket s None) t p).
Proof.
  intros I Hb Hbp Hl Ho H3 Hk Hw Hbt Ht Hlk. pose proof (inv_data _ _ I t) as Hd. unfold data_ok in Hd.
  apply (inv_step this s); [done|]. split; try done.
  - apply (inv_word _ _ I).
  - left. split; [done|]. unfold owns_at, owns. rewrite Ho. destruct Hk as [->|[-> E]]; [done|]. rewrite E in Hd |- *. destruct (inv_entries _ _ I t this Hd) as (_ & _ & Ht' & _). destruct (Ht' eq_refl) as [_ ->]. split; (intros [|[]]; [by left|done]).
  - by right; right.
  - by rewrite H3.
  - intros a Hin. destruct (inv_entries _ _ I t a Hin) as (_ & _ & H1 & H2). destruct Hk as [->|[-> E]]; [split; [intros; by apply H1|done]|]. split; [by right|]. intros Ha. rewrite (H2 Ha) in E. done.
  - unfold data_ok in *. cbn [at_pc pcs parking]. rewrite pcs_eq. destruct Hk as [->|[-> E]].
    + destruct (kind (pcs s t)); try done. destruct Hd as (H4 & H5 & [H6|[H6|[u Hu]]]); split; try done; (split; [done|]); auto. right. right. exists u. destruct (decide (u = t)) as [->|Hut]; [by rewrite pcs_eq, Hw|by rewrite pcs_ne].
    + rewrite E in Hd. destruct (inv_entries _ _ I t this Hd) as (H4 & _ & H5 & _). destruct (H5 eq_refl) as [_ ->]. auto.
  - by rewrite Hbt.
  - apply (inv_parked _ _ I).
  - intros u. by rewrite Ht.
  - intros u Hq Hh. destruct (inv_contender _ _ I u Hq Hh) as (c & Hc). exists c. split; [done|]. intros ->. apply Hlk, Hc.
Qed.
End steps.

(** ** The actions on the bucket keep the invariant of the lock *)

Lemma take_first_none {A} (p : A -> bool) q q' : take_first p q = (None, q') -> forall e, e ∈ q -> p e = false.
Proof.
  revert q'. induction q as [|x q IH]; intros q' E e He; [by apply not_elem_of_nil in He|]. cbn [take_first] in E. destruct (p x) eqn:Ep; [done|]. destruct (take_first p q) as [r q1]. injection E as -> <-. apply elem_of_cons in He as [->|He]; [done|by apply (IH q1)].
Qed.

Lemma told_bucket p : told_none p = true -> bucket_pc p = true.
Proof. by destruct p. Qed.

Section parking.
Context (this : Z).
Notation inv := (inv this).
Notation queued := (queued this).

(** The parts of the invariant that do not depend on the bucket. *)
Lemma control_frame s t p w :
  inv s -> local_ok p -> bucket_pc p = bucket_pc (pcs s t) -> (both_bits p = true -> word s = 3) ->
  let s' := at_pc (with_parking s w) t p in
  0 <= word s' < 4 /\ (forall u, local_ok (pcs s' u)) /\ (forall u, bucket_pc (pcs s' u) = true <-> bucket_lock s' = Some u) /\ (forall u, both_bits (pcs s' u) = true -> word s' = 3).
Proof.
  intros I Hl Hb H3. cbn. split; [apply (inv_word _ _ I)|]. split_and!; intros u; destruct (decide (u = t)) as [->|Hu]; rewrite ?pcs_eq, ?pcs_ne by done; try done.
  - apply (inv_local _ _ I).
  - rewrite Hb. apply (inv_bucket _ _ I).
  - apply (inv_bucket _ _ I).
  - apply (inv_both _ _ I).
Qed.

(** The owners are the same when tokens of sleeping threads and the classes of program counters are. *)
Lemma owner_frame s s' :
  inv s -> word s' = word s -> (forall u, owns s' u <-> owns s u) ->
  (forall u u', owns s' u -> owns s' u' -> u = u') /\ (held (word s') = true <-> exists u, owns s' u).
Proof.
  intros I Hw Ho. split.
  - intros u u' H1%Ho H2%Ho. by apply (inv_unique _ _ I).
  - rewrite Hw, (inv_held _ _ I). split; intros [u Hu]; exists u; by apply Ho.
Qed.

Ltac at_thread t := intros u; destruct (decide (u = t)) as [->|Hu]; rewrite ?pcs_eq, ?pcs_ne by done.

Lemma prepare_frame s t : inv s -> kind (pcs s t) = NotParking -> wq_prepare (parking s) t = Some (mkWait (entries (parking s)) (addresses (parking s)) (<[t := 0]> (tokens (parking s))) ({[t]} ∪ known (parking s)) (fair_time (parking s))).
Proof. intros I Hk. pose proof (inv_data _ _ I t) as Hd. unfold data_ok in Hd. rewrite Hk in Hd. unfold wq_prepare. by rewrite Hd. Qed.

(** Updates of addresses and tokens. *)
Lemma fn_eq {A} (f : tid -> A) t x : (<[t := x]> f) t = x.
Proof. apply fn_lookup_insert. Qed.
Lemma fn_ne {A} (f : tid -> A) t u x : u <> t -> (<[t := x]> f) u = f u.
Proof. intros. by apply fn_lookup_insert_ne. Qed.

(** A thread gets ready to park. *)
Lemma inv_prepare s t n v : inv s -> pcs s t = LockPark n v ->
  exists w, bk_prepare (parking s) t = Some w /\ inv (at_pc (with_parking s w) t (LockAcquire n v)).
Proof.
  intros I E. cbn [bk_prepare wait_ops]. rewrite prepare_frame by (done || by rewrite E). eexists. split; [done|]. set (s' := at_pc _ _ _).
  pose proof (inv_data _ _ I t) as Hd. pose proof (inv_local _ _ I t) as Hl. unfold data_ok in Hd. rewrite E in Hd, Hl. cbn in Hd, Hl.
  assert (forall u, u <> t -> pcs s' u = pcs s u /\ tokens (parking s') u = tokens (parking s) u) as Hne by (intros; split; [by apply pcs_ne|by apply fn_ne]). assert (pcs s' t = LockAcquire n v) as Heq by apply pcs_eq.
  assert (forall u, owns s' u <-> owns s u) as Ho. { intros u. unfold owns. destruct (decide (u = t)) as [->|Hu]; [rewrite Heq, E; split; by intros [?|[? ?]]|by destruct (Hne u Hu) as [-> ->]]. }
  assert (forall u, wakes (pcs s' u) = wakes (pcs s u)) as Hw. { intros u. destruct (decide (u = t)) as [->|Hu]; [by rewrite Heq, E|by destruct (Hne u Hu) as [-> _]]. }
  assert (forall u, u ∈ known (parking s) -> u ∈ known (parking s')) as Hkn by (intros u Hu; cbn; clear -Hu; set_solver).
  destruct (control_frame s t (LockAcquire n v) (parking s') I Hl ltac:(by rewrite E) ltac:(done)) as (C1 & C2 & C3 & C4). destruct (owner_frame s s' I eq_refl Ho) as [O1 O2].
  split; try done.
  - apply (inv_nodup _ _ I).
  - intros u a Hin. destruct (inv_entries _ _ I u a Hin) as (H1 & H2 & H3). assert (u <> t) as Hu by congruence. destruct (Hne u Hu) as [-> ->]. split; [auto|done].
  - intros u. pose proof (inv_data _ _ I u) as Hdu. unfold data_ok in *. destruct (decide (u = t)) as [->|Hu]; [rewrite Heq; cbn; rewrite fn_eq; clear -Hd; set_solver|]. destruct (Hne u Hu) as [-> ->]. destruct (kind (pcs s u)); try done.
    { destruct Hdu as (H1 & H2 & H3). auto. }
    2: { destruct Hdu as (H1 & H2). auto. }
    destruct Hdu as (H1 & H2 & H3). split; [auto|]. split; [done|]. destruct H3 as [H3|[H3|[x Hx]]]; auto. right. right. exists x. by rewrite Hw.
  - intros u x Hx. rewrite Hw in Hx. destruct (inv_wakes _ _ I u x Hx) as (H1 & H2 & H3 & H4 & H5). assert (x <> t) as Hxt by congruence. destruct (Hne x Hxt) as [-> ->]. split_and!; try done; [auto|]. destruct (decide (u = t)) as [->|Hu]; [by rewrite Heq|by destruct (Hne u Hu) as [-> _]].
  - intros u u' x. rewrite !Hw. apply (inv_waker _ _ I).
  - apply (inv_parked _ _ I).
  - intros u u'. destruct (decide (u = t)) as [->|Hu]; [by rewrite Heq|destruct (Hne u Hu) as [-> _]; apply (inv_told _ _ I)].
  - intros u Hq Hh. destruct (inv_contender _ _ I u Hq Hh) as (c & Hc1 & Hc2). exists c. split; [|done]. destruct (decide (c = t)) as [->|Hu]; [by rewrite Heq|by destruct (Hne c Hu) as [-> _]].
Qed.

(** A thread parks at the address of the lock. *)
Lemma inv_enqueue s t n : inv s -> pcs s t = LockEnqueue n ->
  exists w, bk_enqueue (parking s) t this = Some w /\ inv (at_pc (with_parking s w) t (LockRelease n)).
Proof.
  intros I E. pose proof (inv_data _ _ I t) as Hd. pose proof (inv_both _ _ I t) as H3. pose proof (inv_bucket _ _ I t) as Hb. unfold data_ok in Hd. rewrite E in Hd, H3, Hb. cbn in Hd, H3, Hb. destruct Hd as (Hd1 & Hd2 & Hd3). specialize (H3 eq_refl). destruct Hb as [Hb _]. specialize (Hb eq_refl). pose proof (inv_not_entry _ s t I Hd1) as Hn.
  cbn [bk_enqueue wait_ops]. unfold wq_enqueue. rewrite !bool_decide_eq_true_2 by done. cbn [andb guard mbind option_bind]. eexists. split; [done|]. set (s' := at_pc _ _ _).
  assert (forall u, u <> t -> pcs s' u = pcs s u /\ addresses (parking s') u = addresses (parking s) u) as Hne by (intros; split; [by apply pcs_ne|by apply fn_ne]). assert (pcs s' t = LockRelease n) as Heq by apply pcs_eq.
  assert (forall u, owns s' u <-> owns s u) as Ho. { intros u. unfold owns. destruct (decide (u = t)) as [->|Hu]; [rewrite Heq, E; split; by intros [?|[? ?]]|by destruct (Hne u Hu) as [-> _]]. }
  assert (forall u, wakes (pcs s' u) = wakes (pcs s u)) as Hw. { intros u. destruct (decide (u = t)) as [->|Hu]; [by rewrite Heq, E|by destruct (Hne u Hu) as [-> _]]. }
  assert (forall u a, (u, a) ∈ entries (parking s') <-> (u, a) ∈ entries (parking s) \/ (u = t /\ a = this)) as Hent by (intros; cbn; set_solver).
  destruct (control_frame s t (LockRelease n) (parking s') I ltac:(done) ltac:(by rewrite E) ltac:(done)) as (C1 & C2 & C3 & C4). destruct (owner_frame s s' I eq_refl Ho) as [O1 O2].
  split; try done.
  - cbn. rewrite map_app. apply NoDup_app. split; [apply (inv_nodup _ _ I)|]. split; [intros x Hx ->%list_elem_of_singleton; done|apply NoDup_singleton].
  - intros u a [Hin|[-> ->]]%Hent; [|rewrite Heq; split_and!; [done|apply fn_eq|auto|done]]. destruct (inv_entries _ _ I u a Hin) as (H1 & H2 & H4). assert (u <> t) as Hu by congruence. destruct (Hne u Hu) as [-> ->]. done.
  - intros u. pose proof (inv_data _ _ I u) as Hdu. unfold data_ok in *. destruct (decide (u = t)) as [->|Hu]; [rewrite Heq; apply Hent; auto|]. destruct (Hne u Hu) as [-> ->]. unfold LockInvariant.queued in *. destruct (kind (pcs s u)); try done.
    + apply Hent. auto.
    + destruct Hdu as (H4 & H5 & H6). split; [done|]. split; [done|]. destruct H6 as [H6|[H6|[x Hx]]]; auto; [right; left; apply Hent; auto|]. right. right. exists x. by rewrite Hw.
    + destruct Hdu as (H4 & H5). split; [done|]. destruct H5 as [H5|(a & H5 & H6)]; auto. right. exists a. split; [done|]. apply Hent. auto.
  - intros u x Hx. rewrite Hw in Hx. destruct (inv_wakes _ _ I u x Hx) as (H1 & H2 & H4 & H5 & H6). assert (x <> t) as Hxt by congruence. destruct (Hne x Hxt) as [-> ->]. split_and!; try done.
    + cbn. rewrite map_app. set_solver.
    + destruct (decide (u = t)) as [->|Hu]; [by rewrite Heq|by destruct (Hne u Hu) as [-> _]].
  - intros u u' x. rewrite !Hw. apply (inv_waker _ _ I).
  - intros u _. cbn. by rewrite H3.
  - intros u u' Hu. destruct (decide (u = t)) as [->|Hut]; [by rewrite Heq in Hu|]. destruct (Hne u Hut) as [Hp _]. rewrite Hp in Hu. apply told_bucket in Hu. apply (inv_bucket _ _ I) in Hu. congruence.
  - intros u _. cbn. by rewrite H3.
Qed.

(** The state of the bucket after the first thread at an address was taken out. *)
Lemma dequeue_cases w a time random : exists w' r fair,
  bk_dequeue w a time random = Some (w', r, fair) /\ addresses w' = addresses w /\ tokens w' = tokens w /\ known w' = known w /\ (fair = true -> r <> None) /\
  match r with
  | Some x => (x, a) ∈ entries w /\ Permutation (entries w) ((x, a) :: entries w')
  | None => entries w' = entries w /\ forall x, (x, a) ∉ entries w
  end.
Proof.
  cbn [bk_dequeue wait_ops]. unfold wq_dequeue. destruct (take_first _ _) as [r q] eqn:E. destruct (take_first_sublist _ _ _ _ E) as [_ H]. eexists _, _, _. split; [done|]. split_and!; try done; cbn [entries].
  - destruct r; cbn; [done|]. by rewrite andb_false_r.
  - destruct r as [[x b]|]; cbn.
    + destruct H as (H1 & H2 & H3). cbn in H2. bool_prop. by subst b.
    + split; [done|]. intros x Hx. pose proof (take_first_none _ _ _ E _ Hx) as F. cbn in F. bool_prop. done.
Qed.

(** Removing one entry of a thread removes the thread. *)
Lemma perm_entries (x : tid) (a : Z) q q' : NoDup (map fst q) -> Permutation q ((x, a) :: q') ->
  NoDup (map fst q') /\ x ∉ map fst q' /\ (forall u b, (u, b) ∈ q' -> (u, b) ∈ q) /\ (forall u b, u <> x -> (u, b) ∈ q -> (u, b) ∈ q').
Proof.
  intros Hn Hp. rewrite Hp in Hn. cbn in Hn. apply NoDup_cons in Hn as [H1 H2]. split; [done|]. split; [done|]. split.
  - intros u b Hu. rewrite Hp. by right.
  - intros u b Hu Hin. rewrite Hp in Hin. apply elem_of_cons in Hin as [[= -> ->]|Hin]; done.
Qed.

(** The unlocking thread takes the first thread at the lock out of the queue. *)
Lemma inv_dequeue s t k time random : inv s -> pcs s t = UnlockDequeue k ->
  exists w r fair, bk_dequeue (parking s) this time random = Some (w, r, fair) /\ (negb fair || negb (is_null r) = true) /\
    inv (at_pc (with_parking s w) t (UnlockCallback k r (mkUnparkResult (negb (is_null r)) (negb (is_null r) && bk_more w) fair))).
Proof.
  intros I E. pose proof (inv_both _ _ I t) as H3. pose proof (inv_bucket _ _ I t) as Hb. pose proof (inv_data _ _ I t) as Hdt. unfold data_ok in Hdt. rewrite E in H3, Hb, Hdt. specialize (H3 eq_refl). destruct Hb as [Hb _]. specialize (Hb eq_refl). cbn in Hdt.
  destruct (dequeue_cases (parking s) this time random) as (w & r & fair & D & Da & Dt & Dk & Df & Dq). exists w, r, fair. split; [done|]. split; [destruct fair, r; try done; by destruct (Df eq_refl)|]. set (p := UnlockCallback _ _ _). set (s' := at_pc _ _ _).
  assert (forall u, u <> t -> pcs s' u = pcs s u) as Hne by (intros; by apply pcs_ne). assert (pcs s' t = p) as Heq by apply pcs_eq.
  assert (forall u, owns s' u <-> owns s u) as Ho. { intros u. unfold owns. cbn [parking s' at_pc with_parking]. rewrite Dt. destruct (decide (u = t)) as [->|Hu]; [rewrite Heq, E; split; by left|by rewrite (Hne u Hu)]. }
  assert (NoDup (map fst (entries w)) /\ (forall u b, (u, b) ∈ entries w -> (u, b) ∈ entries (parking s)) /\ (forall u b, r <> Some u -> (u, b) ∈ entries (parking s) -> (u, b) ∈ entries w)) as (Q1 & Q2 & Q3).
  { destruct r as [x|]; [|destruct Dq as [-> _]; split; [apply (inv_nodup _ _ I)|done]]. destruct Dq as [_ Dp]. destruct (perm_entries x this _ _ (inv_nodup _ _ I) Dp) as (P1 & P2 & P3 & P4). split_and!; try done. intros u b Hu. apply P4. congruence. }
  assert (forall x, r = Some x -> x ∉ map fst (entries w) /\ (x, this) ∈ entries (parking s) /\ kind (pcs s x) = Sleeping) as Hx.
  { intros x ->. destruct Dq as [Din Dp]. destruct (perm_entries x this _ _ (inv_nodup _ _ I) Dp) as (_ & P2 & _). split; [done|]. split; [done|]. destruct (inv_entries _ _ I x this Din) as (_ & _ & F & _). destruct (F eq_refl) as [[F1|F1] _]; [|done]. assert (bucket_pc (pcs s x) = true) as Fb by (destruct (pcs s x); done). apply (inv_bucket _ _ I) in Fb. assert (x = t) as -> by congruence. by rewrite E in F1. }
  assert (forall u x, wakes (pcs s u) = Some x -> r <> Some x) as Hnr. { intros u x Hu ->. destruct (inv_wakes _ _ I u x Hu) as (_ & _ & Hn & _). apply Hn, elem_of_map_fst. exists this. by apply Hx. }
  destruct (control_frame s t p w I) as (C1 & C2 & C3 & C4); [split; [done|]; cbn; destruct r; done|by rewrite E|done|]. destruct (owner_frame s s' I eq_refl Ho) as [O1 O2].
  split; try done.
  - intros u a Hin. cbn [parking s' at_pc with_parking]. rewrite Da, Dt, Dk. assert (u <> t) as Hu. { intros ->. destruct (inv_entries _ _ I t a (Q2 _ _ Hin)) as (_ & F & _). congruence. } rewrite (Hne u Hu). apply (inv_entries _ _ I), Q2, Hin.
  - intros u. pose proof (inv_data _ _ I u) as Hdu. unfold data_ok, LockInvariant.queued in *. cbn [parking s' at_pc with_parking]. rewrite Da, Dt, Dk. destruct (decide (u = t)) as [->|Hu]; [by rewrite Heq|]. rewrite (Hne u Hu). destruct (kind (pcs s u)) eqn:Ek; try done.
    + apply Q3; [|done]. intros F. destruct (Hx u F) as (_ & _ & F2). congruence.
    + destruct Hdu as (H4 & H5 & H6). split; [done|]. split; [done|]. destruct H6 as [H6|[H6|[x H6]]]; [auto| |].
      * destruct (decide (r = Some u)) as [->|F]; [|right; left; by apply Q3]. right. right. exists t. by rewrite Heq.
      * right. right. exists x. rewrite Hne; [done|]. intros ->. by rewrite E in H6.
    + destruct Hdu as (H4 & H5). split; [done|]. destruct H5 as [H5|(a & H5 & H6)]; auto. right. exists a. split; [done|]. apply Q3; [|done]. intros F. destruct (Hx u F) as (_ & _ & F2). congruence.
  - intros u x Hu. cbn [parking s' at_pc with_parking]. rewrite Da, Dt, Dk. destruct (decide (u = t)) as [->|Hut].
    + rewrite Heq in Hu. cbn in Hu. destruct (Hx x Hu) as (F1 & F2 & F3). destruct (inv_entries _ _ I x this F2) as (G1 & G2 & G3 & _). destruct (G3 eq_refl) as [_ G4]. rewrite Hne by congruence. done.
    + rewrite (Hne u Hut) in *. destruct (inv_wakes _ _ I u x Hu) as (H4 & H5 & H6 & H7 & H8). rewrite Hne by congruence. split_and!; try done. intros [b F]%elem_of_map_fst. apply H6, elem_of_map_fst. exists b. by apply Q2.
  - intros u u' x. destruct (decide (u = t)) as [->|Hut], (decide (u' = t)) as [->|Hut']; rewrite ?Heq, ?Hne by done; cbn; [done| | |apply (inv_waker _ _ I)]; intros F1 F2; exfalso; eapply Hnr; eauto.
  - intros u Hq. apply (inv_parked _ _ I u), Q2, Hq.
  - intros u u' Hu Hq. destruct (decide (u = t)) as [->|Hut].
    + rewrite Heq in Hu. cbn in Hu. unfold LockInvariant.queued in Hq. cbn in Hq. destruct r as [x|]; cbn in Hu; bool_prop; [apply bool_decide_eq_true in Hu; rewrite Hu in Hq; by apply not_elem_of_nil in Hq|]. destruct Dq as [Dq1 Dq2]. rewrite Dq1 in Hq. by apply Dq2 in Hq.
    + rewrite (Hne u Hut) in Hu. by apply (inv_told _ _ I u u' Hu), Q2.
  - intros u _ Hh. cbn in Hh. by rewrite H3 in Hh.
Qed.

(** The unlocking thread gives the token. *)
Lemma inv_token s t k x n : inv s -> pcs s t = UnlockToken k (Some x) n ->
  exists w, bk_set_token (parking s) x n = Some w /\ inv (at_pc (with_parking s w) t (UnlockRelease k (Some x))).
Proof.
  intros I E. pose proof (inv_local _ _ I t) as Hl. destruct (inv_wakes _ _ I t x ltac:(by rewrite E)) as (X1 & X2 & X3 & X4 & X5). specialize (X5 ltac:(by rewrite E)). rewrite E in Hl. cbn in Hl. assert (x <> t) as Hxt by (intros ->; by rewrite E in X1).
  cbn [bk_set_token wait_ops]. unfold wq_set_token. rewrite bool_decide_eq_true_2 by done. cbn [guard mbind option_bind]. eexists. split; [done|]. set (s' := at_pc _ _ _). set (p := UnlockRelease _ _) in *.
  assert (forall u, u <> t -> pcs s' u = pcs s u) as Hne by (intros; by apply pcs_ne). assert (pcs s' t = p) as Heq by apply pcs_eq. assert (forall u, u <> x -> tokens (parking s') u = tokens (parking s) u) as Htk by (intros; by apply fn_ne). assert (tokens (parking s') x = n) as Htx by apply fn_eq.
  assert (forall u, wakes (pcs s' u) = wakes (pcs s u)) as Hw. { intros u. destruct (decide (u = t)) as [->|Hu]; [by rewrite Heq, E|by rewrite (Hne u Hu)]. }
  assert (forall u, u <> t -> u <> x -> owns s' u <-> owns s u) as Ho by (intros u H1 H2; unfold owns; by rewrite Hne, Htk). assert (~ owns s' t) as Hnt by (unfold owns; rewrite Heq; by intros [|[]]). assert (~ owns s x) as Hnx. { unfold owns. rewrite X5. intros [F|[_ F]]; [|done]. by destruct (pcs s x). }
  assert (owns s t <-> n = DirectHandoff) as Ht. { unfold owns. rewrite E. cbn. split; [intros [F|[]]; [by bool_prop|done]|intros ->; by left]. } assert (owns s' x <-> n = DirectHandoff) as Hx. { unfold owns. rewrite Htx, Hne by done. split; [|auto]. intros [F|[_ F]]; [by destruct (pcs s x)|done]. }
  destruct (control_frame s t p (parking s') I ltac:(done) ltac:(by rewrite E) ltac:(done)) as (C1 & C2 & C3 & C4).
  assert (forall u, owns s' u <-> (u = x /\ n = DirectHandoff) \/ (u <> x /\ u <> t /\ owns s u)) as Hown.
  { intros u. destruct (decide (u = x)) as [->|Hux]; [rewrite Hx; tauto|]. destruct (decide (u = t)) as [->|Hut]; [tauto|]. rewrite Ho by done. tauto. }
  split; try done.
  - intros u u' [[-> H1]|(H1 & H2 & H3)]%Hown [[-> H4]|(H4 & H5 & H6)]%Hown; [done| | |by apply (inv_unique _ _ I)]; exfalso.
    + by apply H5, (inv_unique _ _ I), Ht.
    + by apply H2, (inv_unique _ _ I), Ht.
  - cbn [word s' at_pc with_parking]. rewrite (inv_held _ _ I). split.
    + intros [u Hu]. destruct (decide (u = t)) as [->|Hut]; [exists x; by apply Hx, Ht|]. exists u. apply Ho; [done| |done]. by intros ->.
    + intros [u [[-> H1]|(H1 & H2 & H3)]%Hown]; [exists t; by apply Ht|by exists u].
  - apply (inv_nodup _ _ I).
  - intros u a Hin. destruct (inv_entries _ _ I u a Hin) as (H1 & H2 & H3 & H4). assert (u <> x) as Hux by (intros ->; apply X3, elem_of_map_fst; by exists a). rewrite (Htk u Hux). destruct (decide (u = t)) as [->|Hut]; [|by rewrite (Hne u Hut)]. rewrite E in H3, H4. cbn in H3, H4. destruct (decide (a = this)) as [Ha|Ha]; [destruct (H3 Ha) as [[] _]; done|by specialize (H4 Ha)].
  - intros u. pose proof (inv_data _ _ I u) as Hdu. unfold data_ok in *. destruct (decide (u = t)) as [->|Hut]; [rewrite Heq; by rewrite E in Hdu|]. rewrite (Hne u Hut). destruct (decide (u = x)) as [->|Hux].
    + rewrite X1, Htx. split; [done|]. split; [destruct Hl as [->|[-> _]]; auto|]. right. right. exists t. by rewrite Heq.
    + rewrite (Htk u Hux). destruct (kind (pcs s u)); try done. destruct Hdu as (H4 & H5 & H6). split; [done|]. split; [done|]. destruct H6 as [H6|[H6|[y H6]]]; auto. right. right. exists y. by rewrite Hw.
  - intros u y Hu. rewrite Hw in Hu. destruct (inv_wakes _ _ I u y Hu) as (H1 & H2 & H3 & H4 & H5). assert (y <> t) as Hyt by (intros ->; by rewrite E in H1). rewrite (Hne y Hyt). split_and!; try done. destruct (decide (u = t)) as [->|Hut]; [by rewrite Heq|]. rewrite (Hne u Hut), Htk; [done|]. intros ->. apply Hut, (inv_waker _ _ I u t x Hu). by rewrite E.
  - intros u u' y. rewrite !Hw. apply (inv_waker _ _ I).
  - apply (inv_parked _ _ I).
  - intros u u'. destruct (decide (u = t)) as [->|Hut]; [by rewrite Heq|rewrite (Hne u Hut); apply (inv_told _ _ I)].
  - intros u Hq Hh. destruct (inv_contender _ _ I u Hq Hh) as (c & Hc1 & Hc2). exists c. split; [|done]. rewrite Hne; [done|]. intros ->. by rewrite E in Hc1.
Qed.

(** The unlocking thread wakes the other up and is done. *)
Lemma inv_wake s t k x : inv s -> pcs s t = UnlockWake k x ->
  exists w, bk_wake (parking s) x = Some w /\ inv (at_pc (with_parking s w) t (unlocked k)).
Proof.
  intros I E. pose proof (inv_data _ _ I t) as Hdt. destruct (inv_wakes _ _ I t x ltac:(by rewrite E)) as (X1 & X2 & X3 & X4 & _). unfold data_ok in Hdt. rewrite E in Hdt. cbn in Hdt. assert (x <> t) as Hxt by congruence.
  cbn [bk_wake wait_ops]. unfold wq_wake. rewrite X2, !bool_decide_eq_true_2 by done. cbn [is_null negb andb guard mbind option_bind]. eexists. split; [done|]. set (s' := at_pc _ _ _).
  assert (local_ok (unlocked k) /\ owner_pc (unlocked k) = false /\ bucket_pc (unlocked k) = false /\ kind (unlocked k) = NotParking /\ wakes (unlocked k) = None /\ both_bits (unlocked k) = false /\ told_none (unlocked k) = false) as (P1 & P2 & P3 & P4 & P5 & P6 & P7) by (by destruct k).
  assert (forall u, u <> t -> pcs s' u = pcs s u) as Hne by (intros; by apply pcs_ne). assert (pcs s' t = unlocked k) as Heq by apply pcs_eq. assert (forall u, u <> x -> addresses (parking s') u = addresses (parking s) u) as Hax by (intros; by apply fn_ne). assert (addresses (parking s') x = None) as Hxx by apply fn_eq.
  assert (forall u, owns s' u <-> owns s u) as Ho. { intros u. unfold owns. destruct (decide (u = t)) as [->|Hu]; [rewrite Heq, E, P2, P4; split; by intros [?|[? ?]]|by rewrite (Hne u Hu)]. }
  assert (forall u y, wakes (pcs s' u) = Some y <-> u <> t /\ wakes (pcs s u) = Some y) as Hw. { intros u y. destruct (decide (u = t)) as [->|Hu]; [rewrite Heq, P5; split; [done|tauto]|rewrite (Hne u Hu); tauto]. }
  destruct (control_frame s t (unlocked k) (parking s') I P1 ltac:(by rewrite E) ltac:(by rewrite P6)) as (C1 & C2 & C3 & C4). destruct (owner_frame s s' I eq_refl Ho) as [O1 O2].
  split; try done.
  - apply (inv_nodup _ _ I).
  - intros u a Hin. destruct (inv_entries _ _ I u a Hin) as (H1 & H2 & H3 & H4). rewrite Hax, Hne; [done|congruence|]. intros ->. apply X3, elem_of_map_fst. by exists a.
  - intros u. pose proof (inv_data _ _ I u) as Hdu. unfold data_ok in *. destruct (decide (u = t)) as [->|Hut]; [rewrite Heq, P4, Hax by done; done|]. rewrite (Hne u Hut). destruct (decide (u = x)) as [->|Hux].
    + rewrite X1 in Hdu |- *. destruct Hdu as (H1 & H2 & _). auto.
    + rewrite (Hax u Hux). destruct (kind (pcs s u)); try done. destruct Hdu as (H4 & H5 & H6). split; [done|]. split; [done|]. destruct H6 as [H6|[H6|[y H6]]]; auto. right. right. exists y. apply Hw. split; [|done]. intros ->. rewrite E in H6. cbn in H6. congruence.
  - intros u y [Hut Hu]%Hw. destruct (inv_wakes _ _ I u y Hu) as (H1 & H2 & H3 & H4 & H5). rewrite (Hne u Hut), Hax, Hne; [done|congruence|]. intros ->. apply Hut, (inv_waker _ _ I u t x Hu). by rewrite E.
  - intros u u' y [_ H1]%Hw [_ H2]%Hw. by apply (inv_waker _ _ I u u' y).
  - apply (inv_parked _ _ I).
  - intros u u'. destruct (decide (u = t)) as [->|Hut]; [by rewrite Heq, P7|rewrite (Hne u Hut); apply (inv_told _ _ I)].
  - intros u Hq Hh. destruct (inv_contender _ _ I u Hq Hh) as (c & Hc1 & Hc2). exists c. split; [|done]. rewrite Hne; [done|]. intros ->. by rewrite E in Hc1.
Qed.
End parking.

(** ** Every step of every thread keeps the invariant of the lock *)

Section preserve.
Context (this : Z).
Notation inv := (inv this).
Notation queued := (queued this).

(** ** A thread whose address was cleared goes on *)
Lemma inv_awake s t p :
  inv s -> addresses (parking s) t = None -> kind (pcs s t) = Sleeping \/ kind (pcs s t) = Elsewhere -> kind p = NotParking -> local_ok p -> (owner_pc p = true <-> owns s t) ->
  bucket_pc p = false -> both_bits p = false -> wakes p = None -> told_none p = false -> before_token p = false -> (locking (pcs s t) = true -> locking p = true) -> inv (at_pc s t p).
Proof.
  intros I Ha Hk Hp Hl Ho Hb H3 Hw Ht Hbt Hlk. assert (bucket_pc (pcs s t) = false /\ wakes (pcs s t) = None) as [K1 K2] by (destruct Hk, (pcs s t); done). apply (inv_step this s); [done|]. split; rewrite ?Hw, ?Hbt, ?H3; try done.
  - apply (inv_word _ _ I).
  - left. split; [done|]. unfold owns_at. rewrite Hp, <- Ho. split; [by intros [|[]]|by left].
  - left. by rewrite Hb, K1.
  - intros a Hin. destruct (inv_entries _ _ I t a Hin) as (_ & E & _). congruence.
  - unfold data_ok. cbn [at_pc pcs parking]. by rewrite pcs_eq, Hp.
  - apply (inv_parked _ _ I).
  - intros u. by rewrite Ht.
  - intros u Hq Hh. destruct (inv_contender _ _ I u Hq Hh) as (c & Hc). exists c. split; [done|]. intros ->. apply Hlk, Hc.
Qed.

(** ** Other uses of the bucket *)
(** A thread [t] parks at, or leaves, another address; its program counter and its data change. *)
Record other_use (s : state wait_queue) (t : tid) (p : pc) (x : tid) (w : wait_queue) : Prop := {
  other_pc : local_ok p /\ owner_pc p = false /\ bucket_pc p = false /\ both_bits p = false /\ wakes p = None /\ told_none p = false /\ locking p = false;
  other_pc_old : owner_pc (pcs s t) = false /\ bucket_pc (pcs s t) = false /\ wakes (pcs s t) = None /\ locking (pcs s t) = false;
  other_kinds : kind p = NotParking \/ kind p = Elsewhere;
  other_kind_old : kind (pcs s t) = NotParking \/ kind (pcs s t) = Elsewhere;
  (** only the data of [x] change, which is not at this lock *)
  other_thread : x <> t -> kind (pcs s x) = Elsewhere;
  other_known u : u ∈ known (parking s) -> u ∈ known w;
  other_data u : u <> x -> addresses w u = addresses (parking s) u /\ tokens w u = tokens (parking s) u;
  other_nodup : NoDup (map fst (entries w));
  other_entries u a : u <> x -> (u, a) ∈ entries w <-> (u, a) ∈ entries (parking s);
  other_entry a : (x, a) ∈ entries w -> a <> this /\ addresses w x = Some a /\ x ∈ known w /\ (x = t -> kind p = Elsewhere);
  other_elsewhere : (x <> t \/ kind p = Elsewhere) -> x ∈ known w /\ (addresses w x = None \/ exists a, a <> this /\ (x, a) ∈ entries w);
  other_none : x = t -> kind p = NotParking -> addresses w x = None;
  other_same : x <> t -> p = pcs s t
}.

Lemma inv_other s t p x w : inv s -> other_use s t p x w -> inv (at_pc (with_parking s w) t p).
Proof.
  intros I K. set (s' := at_pc _ _ _). destruct (other_pc _ _ _ _ _ K) as (P1 & P2 & P3 & P4 & P5 & P6 & P7). destruct (other_pc_old _ _ _ _ _ K) as (Q1 & Q2 & Q3 & Q4).
  assert (forall u, u <> t -> pcs s' u = pcs s u) as Hne by (intros; by apply pcs_ne). assert (pcs s' t = p) as Heq by apply pcs_eq.
  assert (forall u, wakes (pcs s' u) = wakes (pcs s u)) as Hw. { intros u. destruct (decide (u = t)) as [->|Hu]; [by rewrite Heq, P5, Q3|by rewrite (Hne u Hu)]. }
  assert (kind (pcs s x) = NotParking \/ kind (pcs s x) = Elsewhere) as Hkx. { destruct (decide (x = t)) as [->|Hxt]; [apply (other_kind_old _ _ _ _ _ K)|right; by apply (other_thread _ _ _ _ _ K)]. }
  assert (kind (pcs s' x) = NotParking \/ kind (pcs s' x) = Elsewhere) as Hkx'. { destruct (decide (x = t)) as [->|Hxt]; [rewrite Heq; apply (other_kinds _ _ _ _ _ K)|rewrite Hne by done; right; by apply (other_thread _ _ _ _ _ K)]. }
  assert (forall u, kind (pcs s' u) = Sleeping <-> kind (pcs s u) = Sleeping) as Hsl. { intros u. destruct (decide (u = t)) as [->|Hu]; [|by rewrite Hne]. rewrite Heq. destruct (other_kinds _ _ _ _ _ K) as [-> | ->], (other_kind_old _ _ _ _ _ K) as [-> | ->]; done. }
  assert (forall u, kind (pcs s u) = Sleeping -> u <> x) as Hslx by (intros u Hu ->; destruct Hkx; congruence).
  assert (forall u, owns s' u <-> owns s u) as Ho.
  { intros u. unfold owns. rewrite Hsl. assert (owner_pc (pcs s' u) = owner_pc (pcs s u)) as -> by (destruct (decide (u = t)) as [->|Hu]; [by rewrite Heq, P2, Q1|by rewrite Hne]). split; (intros [F|[F1 F2]]; [by left|right; split; [done|]]); destruct (other_data _ _ _ _ _ K u (Hslx u F1)) as [_ G]; cbn in *; congruence. }
  assert (forall u, queued s' u <-> queued s u) as Hq.
  { intros u. unfold LockInvariant.queued. destruct (decide (u = x)) as [->|Hux]; [|by apply (other_entries _ _ _ _ _ K)]. split; intros F; exfalso; [by apply (other_entry _ _ _ _ _ K) in F as [? _]|]. destruct (inv_entries _ _ I x this F) as (_ & _ & G & _). destruct (G eq_refl) as [[G1|G1] _]; destruct Hkx; congruence. }
  destruct (control_frame this s t p w I P1 ltac:(congruence) ltac:(by rewrite P4)) as (C1 & C2 & C3 & C4). destruct (owner_frame this s s' I eq_refl Ho) as [O1 O2].
  split; try done.
  - apply (other_nodup _ _ _ _ _ K).
  - intros u a Hin. destruct (decide (u = x)) as [->|Hux].
    + destruct (other_entry _ _ _ _ _ K a Hin) as (H1 & H2 & H3 & H4). split; [done|]. split; [done|]. split; [done|]. intros _. destruct (decide (x = t)) as [->|Hxt]; [rewrite Heq; auto|rewrite Hne by done; by apply (other_thread _ _ _ _ _ K)].
    + apply (other_entries _ _ _ _ _ K u a Hux) in Hin. destruct (inv_entries _ _ I u a Hin) as (H1 & H2 & H3). destruct (other_data _ _ _ _ _ K u Hux) as [D1 D2]. cbn [parking s' at_pc with_parking]. rewrite D1, D2. split; [by apply (other_known _ _ _ _ _ K)|]. split; [done|].
      destruct (decide (u = t)) as [->|Hut]; [|by rewrite Hne]. rewrite Heq, (other_same _ _ _ _ _ K); done.
  - intros u. unfold data_ok. cbn [parking s' at_pc with_parking]. destruct (decide (u = x)) as [->|Hux].
    + destruct (decide (x = t)) as [->|Hxt].
      * rewrite Heq. destruct (other_kinds _ _ _ _ _ K) as [F|F]; rewrite F; [by apply (other_none _ _ _ _ _ K)|apply (other_elsewhere _ _ _ _ _ K); auto].
      * rewrite Hne, (other_thread _ _ _ _ _ K) by done. apply (other_elsewhere _ _ _ _ _ K). auto.
    + destruct (other_data _ _ _ _ _ K u Hux) as [D1 D2]. rewrite D1, D2. pose proof (inv_data _ _ I u) as Hdu. unfold data_ok in Hdu. assert (pcs s' u = pcs s u) as -> by (destruct (decide (u = t)) as [->|Hut]; [rewrite Heq; apply (other_same _ _ _ _ _ K); done|by apply Hne]).
      destruct (kind (pcs s u)); try done.
      * destruct Hdu as (H1 & H2 & H3). split_and!; try done. by apply (other_known _ _ _ _ _ K).
      * by apply Hq.
      * destruct Hdu as (H1 & H2 & H3). split; [by apply (other_known _ _ _ _ _ K)|]. split; [done|]. rewrite Hq. destruct H3 as [H3|[H3|[y H3]]]; auto. right. right. exists y. by rewrite Hw.
      * destruct Hdu as (H1 & H2). split; [by apply (other_known _ _ _ _ _ K)|]. destruct H2 as [H2|(a & H2 & H3)]; auto. right. exists a. split; [done|]. by apply (other_entries _ _ _ _ _ K).
  - intros u y Hy. rewrite Hw in Hy. destruct (inv_wakes _ _ I u y Hy) as (H1 & H2 & H3 & H4 & H5). pose proof (Hslx y H1) as Hyx. destruct (other_data _ _ _ _ _ K y Hyx) as [D1 D2]. cbn [parking s' at_pc with_parking]. rewrite D1, D2, Hsl. split_and!; try done.
    + intros [a F]%elem_of_map_fst. apply (other_entries _ _ _ _ _ K y a Hyx) in F. apply H3, elem_of_map_fst. by exists a.
    + by apply (other_known _ _ _ _ _ K).
    + destruct (decide (u = t)) as [->|Hut]; [|by rewrite Hne]. rewrite Q3 in Hy. done.
  - intros u u' y. rewrite !Hw. apply (inv_waker _ _ I).
  - intros u F%Hq. by apply (inv_parked _ _ I u).
  - intros u u' F G%Hq. destruct (decide (u = t)) as [->|Hut]; [rewrite Heq in F; congruence|]. rewrite Hne in F by done. by apply (inv_told _ _ I u u').
  - intros u F%Hq Hh. destruct (inv_contender _ _ I u F Hh) as (c & Hc1 & Hc2). exists c. split; [|by rewrite Hq]. rewrite Hne; [done|]. intros ->. congruence.
Qed.

Lemma inv_other_park s t b : inv s -> pcs s t = Idle -> b <> this ->
  exists w, (q ← bk_prepare (parking s) t; bk_enqueue q t b) = Some w /\ inv (at_pc (with_parking s w) t OtherParked).
Proof.
  intros I E Hb. pose proof (inv_data _ _ I t) as Hd. unfold data_ok in Hd. rewrite E in Hd. pose proof (inv_not_entry _ s t I Hd) as Hn. cbn [bk_prepare bk_enqueue wait_ops]. rewrite (prepare_frame this) by (done || by rewrite E). cbn [mbind option_bind]. unfold wq_enqueue. cbn [entries addresses tokens known fair_time]. rewrite !bool_decide_eq_true_2 by (done || clear; set_solver). cbn [andb guard mbind option_bind].
  eexists. split; [done|]. apply (inv_other s t _ t); [done|]. split; rewrite ?E; cbn [entries addresses tokens known fair_time]; try done; auto.
  - clear. set_solver.
  - intros u Hu. by rewrite !fn_ne.
  - rewrite map_app. apply NoDup_app. split; [apply (inv_nodup _ _ I)|]. split; [intros x Hx ->%list_elem_of_singleton; done|apply NoDup_singleton].
  - intros u a Hu. rewrite elem_of_app, list_elem_of_singleton. split; [intros [|[= -> ->]]; done|by left].
  - intros a [F|F]%elem_of_app; [exfalso; apply Hn, elem_of_map_fst; by exists a|]. apply list_elem_of_singleton in F as [= ->]. rewrite fn_eq. split_and!; try done. clear. set_solver.
  - intros _. split; [clear; set_solver|]. right. exists b. split; [done|]. rewrite elem_of_app, list_elem_of_singleton. by right.
Qed.

Lemma inv_other_unpark s t b time random : inv s -> pcs s t = Idle -> b <> this ->
  exists w, other_unpark s b time random = Some w /\ inv (at_pc (with_parking s w) t Idle).
Proof.
  intros I E Hb. pose proof (inv_data _ _ I t) as Hd. unfold data_ok in Hd. rewrite E in Hd. unfold other_unpark. destruct (dequeue_cases (parking s) b time random) as (w & r & fair & -> & Da & Dt & Dk & _ & Dq). cbn [mbind option_bind]. destruct r as [x|].
  - destruct Dq as [Din Dp]. destruct (perm_entries x b _ _ (inv_nodup _ _ I) Dp) as (P1 & P2 & P3 & P4). destruct (inv_entries _ _ I x b Din) as (X1 & X2 & _ & X3). specialize (X3 Hb). assert (x <> t) as Hxt by congruence.
    cbn [bk_set_token bk_wake wait_ops]. unfold wq_set_token. rewrite bool_decide_eq_true_2 by congruence. cbn [guard mbind option_bind]. unfold wq_wake. cbn [entries addresses tokens known fair_time]. rewrite Da, X2, !bool_decide_eq_true_2 by congruence. cbn [is_null negb andb guard mbind option_bind].
    eexists. split; [done|]. apply (inv_other s t _ x); [done|]. split; rewrite ?E; cbn [entries addresses tokens known fair_time]; try done; auto.
    + intros u. by rewrite Dk.
    + intros u Hu. by rewrite !fn_ne, Dt.
    + intros u a Hu. split; [apply P3|by apply P4].
    + intros a F. exfalso. apply P2, elem_of_map_fst. by exists a.
    + intros _. rewrite Dk, fn_eq. auto.
  - destruct Dq as [Dq _]. eexists. split; [done|]. apply (inv_other s t _ t); [done|]. split; rewrite ?E, ?Da, ?Dt, ?Dk, ?Dq; try done; auto.
    + apply (inv_nodup _ _ I).
    + intros a F. destruct (inv_entries _ _ I t a F) as (_ & G & _). congruence.
    + by intros [|].
Qed.

Lemma inv_other_timeout s t time random : inv s -> pcs s t = OtherParked ->
  exists w, bk_cancel (parking s) t time random = Some w /\ inv (at_pc (with_parking s w) t Idle).
Proof.
  intros I E. pose proof (inv_data _ _ I t) as Hd. unfold data_ok in Hd. rewrite E in Hd. destruct Hd as [Hd1 Hd2]. cbn [bk_cancel wait_ops]. unfold wq_cancel. rewrite (bool_decide_eq_true_2 (t ∈ known (parking s))) by done. cbn [guard mbind option_bind].
  assert (forall u a, (u, a) ∈ filter (fun e => fst e <> t) (entries (parking s)) <-> u <> t /\ (u, a) ∈ entries (parking s)) as Hf by (intros; by rewrite list_elem_of_filter).
  eexists. split; [done|]. apply (inv_other s t _ t); [done|]. split; rewrite ?E; cbn [entries addresses tokens known fair_time]; try done; auto.
  - intros u Hu. by rewrite fn_ne.
  - pose proof (inv_nodup _ _ I) as Hn. clear -Hn. induction (entries (parking s)) as [|[u a] q IH]; [done|]. cbn in Hn. apply NoDup_cons in Hn as [Hn1 Hn2]. destruct (decide (u = t)) as [->|Hu]; [rewrite filter_cons_False by (cbn; tauto); by apply IH|]. rewrite filter_cons_True by done. cbn. apply NoDup_cons. split; [|by apply IH]. intros [b F]%elem_of_map_fst. apply list_elem_of_filter in F as [_ F]. apply Hn1, elem_of_map_fst. by exists b.
  - intros u a Hu. rewrite Hf. tauto.
  - intros a F%Hf. by destruct F.
  - by intros [|].
  - intros _ _. apply fn_eq.
Qed.

(** ** All steps *)
(** A weak compare-and-exchange either does its work or goes to where the loop begins again. *)
Lemma inv_CAS s t cas expected desired success failure :
  (word s = expected -> inv (at_pc (with_word s desired) t success)) -> inv (at_pc s t failure) -> inv (CAS s t cas expected desired success failure).
Proof. intros H1 H2. unfold CAS. destruct (cas && (word s =? expected)) eqn:E; bool_prop; auto. Qed.

Lemma to_park_3 n : to_park n 3 = LockPark n 3.
Proof. done. Qed.

(** Side conditions on the classes of program counters. *)
Ltac classes E := rewrite ?E; (done || by auto || (intros; congruence)).

Lemma inv_lock_loop s t n : inv s -> pcs s t = LockLoad n -> inv (at_pc s t (lock_loop n (word s))).
Proof.
  intros I E. pose proof (inv_word _ _ I) as Hw. assert (forall v, v = word s -> held v = false -> v = 0 \/ v = 2) as Hb by (intros v -> Hh; destruct (word_cases _ Hw) as [F|[F|[F|F]]]; rewrite F in Hh |- *; auto; done).
  destruct (lock_loop_spec n (word s) Hw) as [[-> Hh]|[[n' ->]|[[-> F]|[-> F]]]]; apply inv_silent; rewrite ?E; cbn; auto; try done.
Qed.

Lemma inv_unlock_loop s t k : inv s -> pcs s t = UnlockLoad k -> inv (at_pc s t (unlock_loop k (word s))).
Proof.
  intros I E. assert (owns s t) as Ho by (left; by rewrite E). destruct (unlock_loop_spec k (word s) (inv_word _ _ I) (inv_owner_held _ _ _ I Ho)) as [[-> F]|[-> F]]; apply inv_silent; rewrite ?E; cbn; auto; done.
Qed.

Lemma inv_callback s t k r res : inv s -> pcs s t = UnlockCallback k r res -> inv (at_pc s t (unpark_callback k r res (word s))).
Proof.
  intros I E. pose proof (inv_local _ _ I t) as Hl. pose proof (inv_both _ _ I t) as H3. pose proof (inv_told _ _ I t) as Ht. rewrite E in Hl, H3, Ht. cbn in Hl, Ht. destruct Hl as [L1 L2]. unfold unpark_callback. rewrite (H3 eq_refl). change (Z.land 3 mask =? Z.lor isHeldBit hasParkedBit) with true. cbn [assert_pc].
  destruct (didUnparkThread res && _) eqn:Ed; bool_prop; apply inv_silent; rewrite ?E; cbn; auto; try done.
  right. split; [done|]. rewrite L1 in *. by destruct r.
Qed.

Ltac silent E := apply inv_silent; rewrite ?E; cbn; auto; try done.

Lemma free_values s : inv s -> held (word s) = false -> word s = 0 \/ word s = 2.
Proof. intros I Hh. destruct (word_cases _ (inv_word _ _ I)) as [F|[F|[F|F]]]; rewrite F in Hh |- *; auto; done. Qed.

Lemma fast_values s t : inv s -> owns s t -> (Z.land (word s) mask =? isHeldBit) = true -> word s = 1.
Proof. intros I Ho. pose proof (inv_owner_held _ _ _ I Ho) as Hh. destruct (word_cases _ (inv_word _ _ I)) as [F|[F|[F|F]]]; rewrite F in Hh |- *; done. Qed.

(** A step of an operation that locks. *)
Lemma go_lock_inv s t cas time random s' : inv s -> locking (pcs s t) = true -> go this s t cas time random = Some s' -> inv s'.
Proof.
  intros I Hlk. pose proof (inv_local _ _ I t) as Hl. pose proof (inv_data _ _ I t) as Hd. pose proof (inv_bucket _ _ I t) as Hb. pose proof (inv_word _ _ I) as Hw. unfold go, lockFastAssumingZero, lockFast_load, tryLock_load, safepointFast, unlockFastAssumingZero, unlockFast_load, data_ok in *. destruct (pcs s t) eqn:E; try done; cbn in Hl, Hd, Hb; clear Hlk.
  - intros [= <-]. apply inv_CAS; [|silent E]. intros Hv. assert (1 = Z.lor (word s) isHeldBit) as F by (by rewrite Hv). rewrite F at 1. apply inv_acquire; rewrite ?E; try done. by rewrite Hv.
  - intros [= <-]. destruct (held (word s)) eqn:Eh; silent E. by apply free_values.
  - intros [= <-]. apply inv_CAS; [|silent E]. intros <-. apply inv_acquire; rewrite ?E; try done. by destruct Hl as [-> | ->].
  - intros [= <-]. by apply inv_lock_loop.
  - intros [= <-]. apply inv_CAS; [|silent E]. intros <-. apply inv_acquire; rewrite ?E; try done. by destruct Hl as [-> | ->].
  - intros [= <-]. subst v. apply inv_CAS; [|silent E]. intros Hv. change (Z.lor 1 hasParkedBit) with 3. rewrite to_park_3. by eapply inv_set_parked.
  - intros [= <-]. destruct (inv_prepare this s t _ _ I E) as (w & Hp & Hi). cbn [bk_prepare bk_enqueue bk_set_token bk_wake bk_cancel wait_ops] in Hp. by rewrite Hp.
  - unfold lock_bucket. destruct (bucket_lock s) eqn:Eb; [done|]. intros [= <-]. apply inv_lock_bucket; rewrite ?E; try done. by right.
  - intros [= <-]. subst v. destruct (word s =? 3) eqn:E3; bool_prop; silent E.
  - intros [= <-]. apply inv_unlock_bucket; rewrite ?E; try done; [by apply Hb|by left].
  - intros [= <-]. destruct (inv_enqueue this s t _ I E) as (w & Hp & Hi). cbn [bk_prepare bk_enqueue bk_set_token bk_wake bk_cancel wait_ops] in Hp. by rewrite Hp.
  - intros [= <-]. apply inv_unlock_bucket; rewrite ?E; try done; [by apply Hb|by right].
  - destruct Hd as (H1 & H2 & _). cbn [bk_address bk_token wait_ops]. rewrite !bool_decide_eq_true_2 by done. destruct (addresses (parking s) t) eqn:Ea; [done|]. intros [= <-]. apply inv_awake; rewrite ?E; try done; try (destruct (_ =? DirectHandoff); done); [by left|]. unfold owns. rewrite E. cbn [owner_pc kind].
    destruct (_ =? DirectHandoff) eqn:Et; bool_prop; cbn; [tauto|]. split; [done|]. intros [|[]]; done.
  - intros [= <-]. assert (held (word s) = true) as Hh by (apply (inv_owner_held this s t I); left; by rewrite E). rewrite Hh. silent E.
Qed.

(** A step of an operation that unlocks. *)
Lemma go_unlock_inv s t cas time random s' : inv s -> locking (pcs s t) = false -> go this s t cas time random = Some s' -> inv s'.
Proof.
  intros I Hlk. pose proof (inv_local _ _ I t) as Hl. pose proof (inv_data _ _ I t) as Hd. pose proof (inv_bucket _ _ I t) as Hb. pose proof (inv_word _ _ I) as Hw. pose proof (inv_both _ _ I t) as H3. pose proof (inv_told _ _ I t) as Ht. unfold go, lockFastAssumingZero, lockFast_load, tryLock_load, safepointFast, unlockFastAssumingZero, unlockFast_load, data_ok in *. destruct (pcs s t) eqn:E; try done; cbn in Hl, Hd, Hb, H3, Ht; clear Hlk.
  - intros [= <-]. destruct (held (word s)) eqn:Eh; silent E. by apply free_values.
  - intros [= <-]. apply inv_CAS; [|silent E]. intros <-. apply inv_acquire; rewrite ?E; try done. by destruct Hl as [-> | ->].
  - intros [= <-]. destruct (parked (word s)); silent E.
  - intros [= <-]. apply inv_CAS; [|silent E]. intros Hv. apply inv_unlock; rewrite ?E; auto.
  - intros [= <-]. assert (owns s t) as Ho by (left; by rewrite E). pose proof (fast_values s t I Ho) as F. destruct (Z.land (word s) mask =? isHeldBit) eqn:Em; cbn [negb]; silent E.
  - intros [= <-]. subst v. apply inv_CAS; [|silent E]. intros Hv. apply inv_unlock; rewrite ?E; cbn; auto.
  - intros [= <-]. by apply inv_unlock_loop.
  - intros [= <-]. subst v. apply inv_CAS; [|silent E]. intros Hv. apply inv_unlock; rewrite ?E; auto. destruct k; cbn; auto.
  - unfold lock_bucket. destruct (bucket_lock s) eqn:Eb; [done|]. intros [= <-]. apply inv_lock_bucket; rewrite ?E; auto.
  - destruct (inv_dequeue this s t k time random I E) as (w & r & fair & Hp & Hf & Hi). rewrite Hp, Hf. by intros [= <-].
  - intros [= <-]. by apply inv_callback.
  - intros [= <-]. rewrite (H3 eq_refl). silent E.
  - intros [= <-]. destruct Hl as [-> Hl]. apply inv_CAS; [|silent E]. intros Hv. by apply inv_transaction.
  - destruct threadData as [x|]; intros [= <-]; [|silent E; destruct Hl as [->|[_ F]]; done]. destruct (inv_token this s t k x token I E) as (w & Hp & Hi). cbn [bk_prepare bk_enqueue bk_set_token bk_wake bk_cancel wait_ops] in Hp. by rewrite Hp.
  - intros [= <-]. apply inv_unlock_bucket; rewrite ?E; try (destruct threadData; [done|by destruct k]); [by apply Hb|left; destruct threadData; [done|by destruct k]].
  - intros [= <-]. destruct (inv_wake this s t k _ I E) as (w & Hp & Hi). cbn [bk_prepare bk_enqueue bk_set_token bk_wake bk_cancel wait_ops] in Hp. by rewrite Hp.
  - destruct Hd as (H1 & _). cbn [bk_address wait_ops]. rewrite bool_decide_eq_true_2 by done. destruct (addresses (parking s) t) eqn:Ea; [done|]. intros [= <-]. apply inv_awake; rewrite ?E; try done; [by right|]. unfold owns. rewrite E. cbn. split; [done|]. by intros [|[]].
Qed.

Lemma next_inv s t a s' : inv s -> lock_next this s t a = Some s' -> inv s'.
Proof.
  intros I. unfold lock_next. destruct a; [| | | |intros H; destruct (locking (pcs s t)) eqn:E; [by eapply go_lock_inv|by eapply go_unlock_inv]| | |]; destruct (pcs s t) eqn:E; try done.
  - intros [= <-]. silent E.
  - intros [= <-]. silent E.
  - intros [= <-]. silent E.
  - intros [= <-]. silent E.
  - destruct (a =? this) eqn:Ea; [done|]. bool_prop. unfold when_free. destruct (bucket_lock s); [done|]. intros [= <-]. destruct (inv_other_park s t a I E Ea) as (w & Hp & Hi). cbn [bk_prepare bk_enqueue bk_set_token bk_wake bk_cancel wait_ops] in Hp. by rewrite Hp.
  - destruct (a =? this) eqn:Ea; [done|]. bool_prop. unfold when_free. destruct (bucket_lock s); [done|]. intros [= <-]. destruct (inv_other_unpark s t a time random I E Ea) as (w & Hp & Hi). cbn [bk_prepare bk_enqueue bk_set_token bk_wake bk_cancel wait_ops] in Hp. by rewrite Hp.
  - unfold when_free. destruct (bucket_lock s); [done|]. intros [= <-]. destruct (inv_other_timeout s t time random I E) as (w & Hp & Hi). cbn [bk_prepare bk_enqueue bk_set_token bk_wake bk_cancel wait_ops] in Hp. by rewrite Hp.
Qed.

Lemma free_inv fairTime : inv (free_lock (empty_wait fairTime)).
Proof.
  split; cbn; try done.
  - intros t t' [|[]]; done.
  - split; [done|]. intros [t [|[]]]; done.
  - constructor.
  - intros t a H. by apply not_elem_of_nil in H.
  - intros t H. by apply not_elem_of_nil in H.
  - intros t H. by apply not_elem_of_nil in H.
Qed.

Lemma run_inv s es s' : inv s -> run this s es = Some s' -> inv s'.
Proof.
  revert s. induction es as [|[t a] es IH]; intros s I; cbn [run]; [by intros [= <-]|]. destruct (lock_next this s t a) as [s1|] eqn:E; [|done]. cbn [mbind option_bind]. apply IH. by eapply next_inv.
Qed.
End preserve.
