(* ===== verification/LockLiveness.v ===== *)
(** * LockLiveness: a thread that waits for the lock can always still get it *)
From stdpp Require Import gmap functions relations.
From S2P Require Import Prelude ParkingBucket ParkingBucketProps LockAlgorithm LockInvariant LockPreserve.
Local Open Scope Z_scope.

Section liveness.
Context (this : Z).
Notation inv := (inv this).
Notation queued := (queued this).

(** Threads go on with their operations, and threads other than [t] that have the lock call [unlock]. *)
Definition progress (t : tid) (s s' : state wait_queue) : Prop :=
  exists u a, ((exists cas time random, a = Go cas time random) \/ (u <> t /\ a = CallUnlock Unfair)) /\ lock_next this s u a = Some s'.

Lemma progress_inv t s s' : inv s -> rtc (progress t) s s' -> inv s'.
Proof. intros I H. induction H as [|s s1 s' (u & a & _ & Hn)]; [done|]. apply IHrtc. by eapply next_inv. Qed.

Lemma go_progress t s u time s' : go this s u true time 0 = Some s' -> progress t s s'.
Proof. intros H. exists u, (Go true time 0). split; [left; by eexists _, _, _|done]. Qed.

(** ** Getting the bucket unlocked *)
Definition bucket_distance (p : pc) : nat :=
  match p with
  | LockValidate _ _ => 3 | LockEnqueue _ => 2 | LockAbort _ | LockRelease _ => 1
  | UnlockDequeue _ => 6 | UnlockCallback _ _ _ => 5 | UnlockTransLoad _ _ _ => 4 | UnlockTransCAS _ _ _ _ => 3 | UnlockToken _ _ _ => 2 | UnlockRelease _ _ => 1
  | _ => 0
  end.

(** The state of a step is a new state of the thread. *)
Definition moves (s s' : state wait_queue) (u : tid) : Prop := forall x, x <> u -> pcs s' x = pcs s x.

Ltac moved := intros ? ?; by apply pcs_ne.

Ltac closer := split; [by auto|right; split; [done|lia]].

Lemma bucket_step s u time : inv s -> bucket_lock s = Some u ->
  exists s', go this s u true time 0 = Some s' /\ moves s s' u /\ (locking (pcs s u) = true -> locking (pcs s' u) = true) /\
    (bucket_lock s' = None \/ bucket_lock s' = Some u /\ (bucket_distance (pcs s' u) < bucket_distance (pcs s u))%nat).
Proof.
  intros I Hb. pose proof (inv_local _ _ I u) as Hl. pose proof (inv_both _ _ I u) as H3. pose proof (proj2 (inv_bucket _ _ I u) Hb) as Hp. unfold go, lockFastAssumingZero, lockFast_load, tryLock_load, safepointFast, unlockFastAssumingZero, unlockFast_load. destruct (pcs s u) eqn:E; try done; cbn in Hl, H3.
  - eexists. split; [done|]. split; [moved|]. cbn [at_pc pcs bucket_lock]. rewrite pcs_eq. destruct (word s =? v); cbn; closer.
  - eexists. split; [done|]. split; [moved|]. cbn. rewrite pcs_eq. auto.
  - destruct (inv_enqueue this s u _ I E) as (w & -> & _). eexists. split; [done|]. split; [moved|]. cbn. rewrite pcs_eq. cbn. closer.
  - eexists. split; [done|]. split; [moved|]. cbn. rewrite pcs_eq. auto.
  - destruct (inv_dequeue this s u k time 0 I E) as (w & r & fair & -> & -> & _). eexists. split; [done|]. split; [moved|]. cbn. rewrite pcs_eq. cbn. closer.
  - eexists. split; [done|]. split; [moved|]. cbn [at_pc pcs bucket_lock]. rewrite pcs_eq. unfold unpark_callback. rewrite (H3 eq_refl). change (Z.land 3 mask =? Z.lor isHeldBit hasParkedBit) with true. cbn [assert_pc]. destruct (_ && _); cbn; closer.
  - eexists. split; [done|]. split; [moved|]. cbn. rewrite pcs_eq. cbn. closer.
  - destruct Hl as [-> Hl]. unfold CAS. rewrite (H3 eq_refl). cbn. eexists. split; [done|]. split; [moved|]. cbn. rewrite pcs_eq. cbn. closer.
  - destruct threadData as [x|].
    + destruct (inv_token this s u k x _ I E) as (w & -> & _). eexists. split; [done|]. split; [moved|]. cbn. rewrite pcs_eq. cbn. closer.
    + eexists. split; [done|]. split; [moved|]. cbn. rewrite pcs_eq. cbn. closer.
  - eexists. split; [done|]. split; [moved|]. cbn. split; [done|by left].
Qed.

Lemma reach_bucket_free t s : inv s -> locking (pcs s t) = true -> exists s', rtc (progress t) s s' /\ inv s' /\ locking (pcs s' t) = true /\ bucket_lock s' = None.
Proof.
  intros I Hl. destruct (bucket_lock s) as [u|] eqn:Hb; [|by exists s]. remember (bucket_distance (pcs s u)) as d eqn:Hd. revert s I Hl Hb Hd. induction (lt_wf d) as [d _ IH]. intros s I Hl Hb Hd.
  destruct (bucket_step s u 0 I Hb) as (s1 & Hn & Hm & Hlk & Hs). assert (inv s1) as I1 by (eapply (next_inv this s u (Go true 0 0)); eauto). assert (locking (pcs s1 t) = true) as Hl1. { destruct (decide (t = u)) as [->|Htu]; [auto|by rewrite Hm]. } pose proof (go_progress t s u 0 s1 Hn) as Hp.
  destruct Hs as [Hs|[Hs Hdist]]; [exists s1; split; [by apply rtc_once|done]|]. destruct (IH (bucket_distance (pcs s1 u)) ltac:(lia) s1 I1 Hl1 Hs eq_refl) as (s2 & H1 & H2). exists s2. split; [by eapply rtc_l|done].
Qed.

(** ** A thread that nothing keeps from the lock takes it *)
(** The lock is free and the thread is not in the queue, or the thread was handed the lock. *)
Definition can_take (s : state wait_queue) (c : tid) : Prop := locking (pcs s c) = true /\ (held (word s) = false /\ ~ queued s c \/ owns s c).

Definition take_distance (s : state wait_queue) (c : tid) : nat :=
  match pcs s c with
  | LockSleep _ => if addresses (parking s) c then 41 else 40
  | LockPark _ _ => 20 | LockAcquire _ _ => 19 | LockValidate _ _ => 18 | LockAbort _ => 17
  | LockFastCAS v => if word s =? v then 6 else 8 | LockFastLoad => 7 | LockFast => 5
  | LockSetParked _ _ => 4 | LockBarge _ v => if word s =? v then 2 else 4 | LockLoad _ => 3
  | LockHandoff => 1
  | _ => 0
  end.

(** What a step on the way to the lock keeps. *)
Definition quiet (s s' : state wait_queue) (c : tid) : Prop :=
  entries (parking s') = entries (parking s) /\ fair_time (parking s') = fair_time (parking s) /\ forall x, x <> c -> locking (pcs s x) = true -> pcs s' x = pcs s x.

Ltac quiet_step := split; [done|split; [done|intros ? ? _; by apply pcs_ne]].

(** A sleeping thread that is not in the queue and whose address is set is about to be woken up. *)
Lemma waker_step s c n : inv s -> pcs s c = LockSleep n -> addresses (parking s) c <> None -> ~ queued s c -> bucket_lock s = None ->
  exists u s', go this s u true 0 0 = Some s' /\ quiet s s' c /\ bucket_lock s' = None /\ word s' = word s /\ pcs s' c = pcs s c /\ addresses (parking s') c = None /\ tokens (parking s') c = tokens (parking s) c.
Proof.
  intros I E Ha Hq Hb. pose proof (inv_data _ _ I c) as Hd. unfold data_ok in Hd. rewrite E in Hd. destruct Hd as (_ & _ & [Hd|[Hd|[u Hu]]]); [done|done|]. pose proof (inv_bucket _ _ I u) as Hbu. rewrite Hb in Hbu. exists u.
  assert (exists k, pcs s u = UnlockWake k c) as [k Ek]. { destruct (pcs s u); cbn in Hu, Hbu; try done; try (pose proof (proj1 Hbu eq_refl); done). injection Hu as ->. by eexists. }
  destruct (inv_wakes _ _ I u c Hu) as (_ & Ea & Hn & Hkn & _). unfold go, lockFastAssumingZero, lockFast_load, tryLock_load, safepointFast, unlockFastAssumingZero, unlockFast_load. rewrite Ek. cbn [bk_wake wait_ops]. unfold wq_wake. rewrite Ea, !bool_decide_eq_true_2 by done. cbn [is_null negb andb guard mbind option_bind on_parking]. assert (c <> u) as Hcu by (intros ->; congruence).
  eexists. split; [done|]. cbn [at_pc with_parking bucket_lock word parking pcs addresses tokens]. rewrite fn_eq, pcs_ne by done. split; [|done]. split; [done|]. split; [done|]. intros x Hx Hlx. cbn. rewrite pcs_ne; [done|]. intros ->. by rewrite Ek in Hlx.
Qed.

Lemma not_owner_sleep s c n : inv s -> pcs s c = LockSleep n -> ~ queued s c \/ owns s c -> ~ queued s c.
Proof.
  intros I E [H|H]; [done|]. intros Hq. destruct (inv_entries _ _ I c this Hq) as (_ & _ & F & _). destruct (F eq_refl) as [_ F2]. destruct H as [H|[_ H]]; [by rewrite E in H|by rewrite F2 in H].
Qed.

Lemma take_silent s c p b : held (word s) = false -> ~ queued s c -> locking p = true -> can_take (mkState (word s) b (parking s) (<[c := p]> (pcs s))) c.
Proof. intros H1 H2 H3. split; [cbn; by rewrite pcs_eq|]. by left. Qed.

Ltac distances := unfold take_distance; cbn [at_pc on_parking unlock_bucket with_bucket with_word with_parking pcs word parking]; rewrite pcs_eq, ?Z.eqb_refl; cbn; repeat if_cases; lia.

(** A compare-and-exchange on the way to the lock, from a loop. *)
Lemma take_CAS s c v d failure (Hb : bucket_lock s = None) :
  held (word s) = false -> ~ queued s c -> locking failure = true ->
  quiet s (CAS s c true v d Holding failure) c /\
  let s' := CAS s c true v d Holding failure in
  (pcs s' c = Holding /\ bucket_lock s' = None \/ can_take s' c /\ bucket_lock s' = None /\ word s <> v /\ s' = at_pc s c failure).
Proof.
  intros H1 H2 H3. unfold CAS. cbn [andb]. destruct (word s =? v) eqn:E; bool_prop.
  - split; [quiet_step|]. left. cbn. by rewrite pcs_eq.
  - split; [quiet_step|]. right. split; [by apply take_silent|done].
Qed.

(** A thread in the slow path of a free lock. *)
Lemma take_loop s n : inv s -> held (word s) = false -> lock_loop n (word s) = LockBarge n (word s).
Proof. intros I H. unfold lock_loop. by rewrite H. Qed.

Lemma take_step s c : inv s -> can_take s c -> bucket_lock s = None \/ bucket_lock s = Some c ->
  exists u s', go this s u true 0 0 = Some s' /\ quiet s s' c /\
    (pcs s' c = Holding /\ bucket_lock s' = None \/ can_take s' c /\ (bucket_lock s' = None \/ bucket_lock s' = Some c) /\ (take_distance s' c < take_distance s c)%nat).
Proof.
  intros I [Hl Hc] Hb. pose proof (inv_local _ _ I c) as Hlo. pose proof (inv_bucket _ _ I c) as Hbu. pose proof (inv_both _ _ I c) as H3. pose proof (inv_data _ _ I c) as Hd. pose proof (inv_word _ _ I) as Hw.
  assert (bucket_pc (pcs s c) = false -> bucket_lock s = None) as Hfree. { intros Hp. destruct Hb as [|Hb']; [done|]. apply Hbu in Hb'. congruence. }
  assert (owner_pc (pcs s c) = false -> kind (pcs s c) <> Sleeping -> held (word s) = false /\ ~ queued s c) as Hno. { intros F1 F2. destruct Hc as [|[F|[F _]]]; [done|congruence|done]. }
  unfold take_distance at 2. unfold data_ok in Hd. destruct (pcs s c) eqn:E; try done; cbn in Hlo, Hbu, H3, Hd; try (specialize (Hfree eq_refl)); try (destruct (Hno eq_refl ltac:(done)) as [Hh Hq]).
  - exists c. unfold go, lockFastAssumingZero, lockFast_load, tryLock_load, safepointFast, unlockFastAssumingZero, unlockFast_load. rewrite E. eexists. split; [done|]. destruct (take_CAS s c 0 isHeldBit (LockLoad 0) Hfree Hh Hq eq_refl) as [Hqu Ht]. split; [done|]. destruct Ht as [|(H1 & H2 & H4 & H5)]; [by left|right]. split; [done|]. split; [by left|]. rewrite H5. distances.
  - exists c. unfold go, lockFastAssumingZero, lockFast_load, tryLock_load, safepointFast, unlockFastAssumingZero, unlockFast_load. rewrite E, Hh. eexists. split; [done|]. split; [quiet_step|]. right. split; [by apply take_silent|]. split; [by left|]. distances.
  - exists c. unfold go, lockFastAssumingZero, lockFast_load, tryLock_load, safepointFast, unlockFastAssumingZero, unlockFast_load. rewrite E. eexists. split; [done|]. destruct (take_CAS s c v (Z.lor v isHeldBit) LockFastLoad Hfree Hh Hq eq_refl) as [Hqu Ht]. split; [done|]. destruct Ht as [|(H1 & H2 & H4 & H5)]; [by left|right]. split; [done|]. split; [by left|]. rewrite H5. apply Z.eqb_neq in H4. rewrite H4. distances.
  - exists c. unfold go, lockFastAssumingZero, lockFast_load, tryLock_load, safepointFast, unlockFastAssumingZero, unlockFast_load. rewrite E, take_loop by done. eexists. split; [done|]. split; [quiet_step|]. right. split; [by apply take_silent|]. split; [by left|]. distances.
  - exists c. unfold go, lockFastAssumingZero, lockFast_load, tryLock_load, safepointFast, unlockFastAssumingZero, unlockFast_load. rewrite E. eexists. split; [done|]. destruct (take_CAS s c v (Z.lor v isHeldBit) (LockLoad spinCount) Hfree Hh Hq eq_refl) as [Hqu Ht]. split; [done|]. destruct Ht as [|(H1 & H2 & H4 & H5)]; [by left|right]. split; [done|]. split; [by left|]. rewrite H5. apply Z.eqb_neq in H4. rewrite H4. distances.
  - exists c. unfold go, lockFastAssumingZero, lockFast_load, tryLock_load, safepointFast, unlockFastAssumingZero, unlockFast_load. rewrite E. subst v. unfold CAS. assert ((word s =? 1) = false) as -> by (apply Z.eqb_neq; intros F; by rewrite F in Hh). cbn [andb]. eexists. split; [done|]. split; [quiet_step|]. right. split; [by apply take_silent|]. split; [by left|]. distances.
  - exists c. unfold go, lockFastAssumingZero, lockFast_load, tryLock_load, safepointFast, unlockFastAssumingZero, unlockFast_load. rewrite E. cbn [bk_prepare wait_ops]. rewrite (prepare_frame this) by (done || by rewrite E). eexists. split; [done|]. split; [split; [done|]; split; [done|]; intros x Hx _; by apply pcs_ne|]. right. split; [split; [cbn; by rewrite pcs_eq|by left]|]. split; [by left|]. distances.
  - exists c. unfold go, lockFastAssumingZero, lockFast_load, tryLock_load, safepointFast, unlockFastAssumingZero, unlockFast_load. rewrite E. unfold lock_bucket. rewrite Hfree. eexists. split; [done|]. split; [quiet_step|]. right. split; [by apply take_silent|]. split; [by right|]. distances.
  - exists c. unfold go, lockFastAssumingZero, lockFast_load, tryLock_load, safepointFast, unlockFastAssumingZero, unlockFast_load. rewrite E. subst v. assert ((word s =? 3) = false) as -> by (apply Z.eqb_neq; intros F; by rewrite F in Hh). eexists. split; [done|]. split; [quiet_step|]. right. split; [by apply take_silent|]. split; [done|]. distances.
  - exists c. unfold go, lockFastAssumingZero, lockFast_load, tryLock_load, safepointFast, unlockFastAssumingZero, unlockFast_load. rewrite E. eexists. split; [done|]. split; [quiet_step|]. right. split; [by apply take_silent|]. split; [by left|]. distances.
  - rewrite (H3 eq_refl) in Hh. done.
  - done.
  - assert (~ queued s c) as Hq by (eapply not_owner_sleep; [done|done|]; destruct Hc as [[_ F]|F]; auto). destruct Hd as (K1 & K2 & _). destruct (addresses (parking s) c) as [a|] eqn:Ea.
    + destruct (waker_step s c _ I E ltac:(by rewrite Ea) Hq Hfree) as (u & s' & G1 & G2 & G3 & G4 & G5 & G6 & G7). exists u, s'. split; [done|]. split; [done|]. right. rewrite E in G5. split; [|split; [by left|unfold take_distance; rewrite G5, G6; lia]]. split; [by rewrite G5|]. rewrite G4. destruct Hc as [[F1 F2]|F]; [left; split; [done|]; unfold LockInvariant.queued; destruct G2 as [-> _]; done|right]. unfold owns in *. rewrite G5, G7. by rewrite E in F.
    + exists c. unfold go, lockFastAssumingZero, lockFast_load, tryLock_load, safepointFast, unlockFastAssumingZero, unlockFast_load. rewrite E. cbn [bk_address bk_token wait_ops]. rewrite !bool_decide_eq_true_2, Ea by done. eexists. split; [done|]. split; [quiet_step|]. right. split; [|split; [by left|destruct (_ =? DirectHandoff); distances]].
      destruct (_ =? DirectHandoff) eqn:Et; bool_prop; (split; [cbn; by rewrite pcs_eq|]).
      * right. left. cbn. by rewrite pcs_eq.
      * left. split; [|done]. destruct Hc as [[F _]|[F|[_ F]]]; [done|by rewrite E in F|done].
  - exists c. unfold go, lockFastAssumingZero, lockFast_load, tryLock_load, safepointFast, unlockFastAssumingZero, unlockFast_load. rewrite E. assert (held (word s) = true) as -> by (apply (inv_owner_held this s c I); left; by rewrite E). eexists. split; [done|]. split; [quiet_step|]. left. cbn. by rewrite pcs_eq.
Qed.

Lemma quiet_trans s s1 s2 c : quiet s s1 c -> quiet s1 s2 c -> quiet s s2 c.
Proof. intros (H1 & H2 & H3) (H4 & H5 & H6). split; [congruence|]. split; [congruence|]. intros x Hx Hl. rewrite H6, H3; [done|done|done|done|]. by rewrite H3. Qed.

Lemma reach_taken t s c : inv s -> can_take s c -> bucket_lock s = None ->
  exists s', rtc (progress t) s s' /\ inv s' /\ quiet s s' c /\ pcs s' c = Holding /\ bucket_lock s' = None.
Proof.
  intros I Hc Hb. assert (bucket_lock s = None \/ bucket_lock s = Some c) as Hb' by (by left). clear Hb. remember (take_distance s c) as d eqn:Hd. revert s I Hc Hb' Hd. induction (lt_wf d) as [d _ IH]. intros s I Hc Hb Hd.
  destruct (take_step s c I Hc Hb) as (u & s1 & Hn & Hq & Hs). assert (inv s1) as I1 by (eapply (next_inv this s u (Go true 0 0)); eauto). pose proof (go_progress t s u 0 s1 Hn) as Hp.
  destruct Hs as [[H1 H2]|(H1 & H2 & H3)]; [exists s1; split; [by apply rtc_once|done]|]. destruct (IH (take_distance s1 c) ltac:(lia) s1 I1 H1 H2 eq_refl) as (s2 & G1 & G2 & G3 & G4). exists s2. split; [by eapply rtc_l|]. split; [done|]. split; [by eapply quiet_trans|done].
Qed.

(** ** The owner unlocks *)
(** The number of threads that are parked at the lock. *)
Definition waiting (w : wait_queue) : nat := length (filter (fun e => snd e = this) (entries w)).

Lemma waiting_zero s : waiting (parking s) = 0%nat <-> forall u, ~ queued s u.
Proof.
  unfold waiting, LockInvariant.queued. rewrite length_zero_iff_nil. split.
  - intros H u Hu. assert ((u, this) ∈ filter (fun e => snd e = this) (entries (parking s))) as F by (by apply list_elem_of_filter). rewrite H in F. by apply not_elem_of_nil in F.
  - intros H. destruct (filter _ _) as [|[u a] q] eqn:E; [done|]. assert ((u, a) ∈ filter (fun e => snd e = this) (entries (parking s))) as F by (rewrite E; by left). apply list_elem_of_filter in F as [F1 F2]. cbn in F1. subst a. by apply H in F2.
Qed.

Lemma waiting_perm w w' x : Permutation (entries w) ((x, this) :: entries w') -> waiting w = S (waiting w').
Proof. unfold waiting. intros H. rewrite H. by rewrite filter_cons_True. Qed.

Definition release_distance (s : state wait_queue) (o : tid) : nat :=
  match pcs s o with
  | LockSleep _ => if addresses (parking s) o then 41 else 40
  | LockHandoff | SafepointLoad => 30 | Holding => 20
  | UnlockFast _ => 19 | UnlockFastLoad => 18 | UnlockFastCAS v => if word s =? v then 17 else 19
  | UnlockLoad _ => 16 | UnlockCAS _ v => if word s =? v then 15 else 17
  | UnlockAcquire _ => 14 | UnlockDequeue _ => 13 | UnlockCallback _ _ _ => 12 | UnlockTransLoad _ _ _ => 11 | UnlockTransCAS _ _ _ _ => 10 | UnlockToken _ _ _ => 9 | UnlockRelease _ _ => 8
  | _ => 0
  end.

(** The thread [o] is about to unlock, with at most [n] threads parked when it began. *)
Definition releasing (s : state wait_queue) (o : tid) (n : nat) : Prop :=
  match pcs s o with
  | UnlockCallback _ _ _ | UnlockTransLoad _ _ _ | UnlockTransCAS _ _ _ _ => (waiting (parking s) <= pred n)%nat /\ (n = 0%nat -> wakes (pcs s o) = None)
  | UnlockToken _ _ _ | UnlockRelease _ _ => (waiting (parking s) <= pred n)%nat /\ (n = 0%nat -> held (word s) = false)
  | _ => (waiting (parking s) <= n)%nat /\ owns s o
  end.

Definition released (s : state wait_queue) (n : nat) : Prop := bucket_lock s = None /\ (waiting (parking s) <= pred n)%nat /\ (n = 0%nat -> held (word s) = false).

(** The other threads in [lock] stay where they are. *)
Definition others (s s' : state wait_queue) (o : tid) : Prop := forall x, x <> o -> locking (pcs s x) = true -> pcs s' x = pcs s x.

Ltac others_step := intros ? ? _; by apply pcs_ne.
Ltac release_distances := unfold release_distance; cbn [at_pc on_parking unlock_bucket with_bucket with_word with_parking pcs word parking]; rewrite pcs_eq, ?Z.eqb_refl; cbn; repeat if_cases; lia.
Ltac releases := unfold releasing, owns; cbn [at_pc on_parking unlock_bucket with_bucket with_word with_parking pcs word parking]; rewrite ?pcs_eq; cbn [wakes owner_pc].

Lemma unlocked_word s : inv s -> word s = 1 -> waiting (parking s) = 0%nat.
Proof. intros I Hw. apply waiting_zero. intros u Hq%(inv_parked _ _ I). by rewrite Hw in Hq. Qed.

(** A compare-and-exchange that unlocks a lock at which nobody is parked. *)
Lemma release_CAS s o n d success failure : inv s -> bucket_lock s = None ->
  let s' := CAS s o true 1 d success failure in held d = false -> others s s' o /\ (released s' n \/ (word s =? 1) = false /\ s' = at_pc s o failure).
Proof.
  intros I Hb s' Hd. unfold s', CAS. cbn [andb]. destruct (word s =? 1) eqn:E; bool_prop; (split; [others_step|]); [|by right]. left. split; [done|]. cbn [at_pc with_word parking word]. rewrite (unlocked_word s I E). split; [lia|done].
Qed.

Lemma release_step_owner s o n : inv s -> releasing s o n -> owns s o -> kind (pcs s o) <> Sleeping -> pcs s o <> Holding -> bucket_lock s = None \/ bucket_lock s = Some o ->
  exists s', go this s o true (fair_time (parking s)) 0 = Some s' /\ others s s' o /\
    (released s' n \/ releasing s' o n /\ (bucket_lock s' = None \/ bucket_lock s' = Some o) /\ (release_distance s' o < release_distance s o)%nat).
Proof.
  intros I Hr Ho Hk Hnh Hb. pose proof (inv_local _ _ I o) as Hlo. pose proof (inv_bucket _ _ I o) as Hbu. pose proof (inv_both _ _ I o) as H3. pose proof (inv_word _ _ I) as Hw. pose proof (inv_owner_held _ _ _ I Ho) as Hh. destruct Ho as [Ho|[Ho _]]; [|done].
  assert (bucket_pc (pcs s o) = false -> bucket_lock s = None) as Hfree. { intros Hp. destruct Hb as [|Hb']; [done|]. apply Hbu in Hb'. congruence. }
  unfold go, lockFastAssumingZero, lockFast_load, tryLock_load, safepointFast, unlockFastAssumingZero, unlockFast_load, release_distance at 2. unfold releasing in Hr. destruct (pcs s o) eqn:E; try done; cbn in Hlo, Hbu, H3; try (specialize (Hfree eq_refl)); clear Hnh Hk Ho.
  - rewrite Hh. cbn [assert_pc]. eexists. split; [done|]. split; [others_step|]. right. split; [releases; tauto|]. split; [by left|]. release_distances.
  - eexists. split; [done|]. split; [others_step|]. right. split; [releases; destruct (parked (word s)); cbn; tauto|]. split; [by left|]. destruct (parked (word s)); release_distances.
  - eexists. split; [done|]. destruct (release_CAS s o n 0 Idle (UnlockLoad (Unlocking f)) I Hfree eq_refl) as [H1 [H2|[H2 H4]]]; split; try done; [by left|right]. unfold isHeldBit. rewrite H4. split; [releases; tauto|]. split; [by left|]. release_distances.
  - eexists. split; [done|]. split; [others_step|]. right. split; [releases; destruct (negb _); cbn; tauto|]. split; [by left|]. destruct (negb _); release_distances.
  - subst v. eexists. split; [done|]. destruct (release_CAS s o n (Z.land 1 (Z.lnot isHeldBit)) (unlocked InSafepoint) UnlockFastLoad I Hfree eq_refl) as [H1 [H2|[H2 H4]]]; split; try done; [by left|right]. rewrite H4. split; [releases; tauto|]. split; [by left|]. rewrite H2. release_distances.
  - eexists. split; [done|]. split; [others_step|]. right. destruct (unlock_loop_spec k (word s) Hw Hh) as [[-> F]|[-> F]]; (split; [releases; tauto|]); (split; [by left|]); release_distances.
  - subst v. eexists. split; [done|]. destruct (release_CAS s o n (Z.land 1 (Z.lnot isHeldBit)) (unlocked k) (UnlockLoad k) I Hfree eq_refl) as [H1 [H2|[H2 H4]]]; split; try done; [by left|right]. rewrite H4. split; [releases; tauto|]. split; [by left|]. rewrite H2. release_distances.
  - unfold lock_bucket. rewrite Hfree. eexists. split; [done|]. split; [others_step|]. right. split; [releases; tauto|]. split; [by right|]. release_distances.
  - destruct (dequeue_cases (parking s) this (fair_time (parking s)) 0) as (w & r & fair & Hq & _ & _ & _ & Df & Dq). rewrite Hq. assert (negb fair || negb (is_null r) = true) as -> by (destruct fair, r; try done; by destruct (Df eq_refl)). eexists. split; [done|]. split; [others_step|]. right. split; [|split; [done|release_distances]].
    releases. destruct Hr as [Hr _]. destruct r as [x|].
    + destruct Dq as [_ Dq]. rewrite (waiting_perm _ _ x Dq) in Hr. split; [lia|]. intros ->. lia.
    + destruct Dq as [Dq1 Dq2]. assert (waiting (parking s) = 0%nat) as F by (apply waiting_zero; intros u Hu; by apply (Dq2 u)). unfold waiting in F |- *. rewrite Dq1, F. split; [lia|done].
  - unfold unpark_callback. rewrite (H3 eq_refl). change (Z.land 3 mask =? Z.lor isHeldBit hasParkedBit) with true. cbn [assert_pc]. eexists. split; [done|]. split; [others_step|]. right. cbn [wakes] in Hr. destruct Hr as [R1 R2], Hlo as [L1 L2]. destruct (didUnparkThread result && _) eqn:Ed; bool_prop; (split; [|split; [done|release_distances]]); releases; (split; [done|]); [|done].
    intros ->. rewrite (R2 eq_refl) in L1. cbn in L1. congruence.
  - eexists. split; [done|]. split; [others_step|]. right. split; [releases; tauto|]. split; [done|]. release_distances.
  - destruct Hlo as [-> Hlo]. unfold CAS. rewrite (H3 eq_refl). cbn [andb]. change (3 =? 3) with true. cbn iota. eexists. split; [done|]. split; [others_step|]. right. split; [|split; [done|release_distances]]. releases. split; [tauto|]. intros _. by destruct more.
  - destruct threadData as [x|].
    + destruct (inv_token this s o k x _ I E) as (w & Hq & _). pose proof Hq as Hq'. cbn [bk_set_token wait_ops] in Hq'. unfold wq_set_token in Hq'. destruct (guard _); [|done]. cbn in Hq'. injection Hq' as Hq'. rewrite Hq. eexists. split; [done|]. split; [others_step|]. right. split; [|split; [done|release_distances]]. releases. rewrite <- Hq'. tauto.
    + eexists. split; [done|]. split; [others_step|]. right. split; [releases; tauto|]. split; [done|]. release_distances.
Qed.

(** The thread has given up the lock and still has the bucket. *)
Lemma release_step_token s o n : inv s -> releasing s o n -> ~ owns s o -> bucket_lock s = None \/ bucket_lock s = Some o ->
  exists s', go this s o true 0 0 = Some s' /\ others s s' o /\
    (released s' n \/ releasing s' o n /\ (bucket_lock s' = None \/ bucket_lock s' = Some o) /\ (release_distance s' o < release_distance s o)%nat).
Proof.
  intros I Hr Ho Hb. unfold go, lockFastAssumingZero, lockFast_load, tryLock_load, safepointFast, unlockFastAssumingZero, unlockFast_load, release_distance at 2. unfold releasing in Hr. destruct (pcs s o) eqn:E; try (by destruct Hr); try (by destruct Ho; left; rewrite E).
  - destruct threadData as [x|].
    + destruct (inv_token this s o k x _ I E) as (w & Hq & _). pose proof Hq as Hq'. cbn [bk_set_token wait_ops] in Hq'. unfold wq_set_token in Hq'. destruct (guard _); [|done]. cbn in Hq'. injection Hq' as Hq'. rewrite Hq. eexists. split; [done|]. split; [others_step|]. right. split; [|split; [done|release_distances]]. releases. rewrite <- Hq'. tauto.
    + eexists. split; [done|]. split; [others_step|]. right. split; [releases; tauto|]. split; [done|]. release_distances.
  - eexists. split; [done|]. split; [others_step|]. left. split; done.
Qed.

(** A step of the thread that has been handed the lock in its sleep, or of the one that wakes it up. *)
Lemma release_step_sleep s o n m : inv s -> pcs s o = LockSleep m -> owns s o -> (waiting (parking s) <= n)%nat -> bucket_lock s = None ->
  exists u s', go this s u true 0 0 = Some s' /\ others s s' o /\ releasing s' o n /\ bucket_lock s' = None /\ (release_distance s' o < release_distance s o)%nat.
Proof.
  intros I E Ho Hr Hb. pose proof (not_owner_sleep s o m I E (or_intror Ho)) as Hq. pose proof (inv_data _ _ I o) as Hd. unfold data_ok in Hd. rewrite E in Hd. destruct Hd as (K1 & K2 & _). destruct Ho as [Ho|[_ Ho]]; [by rewrite E in Ho|]. unfold release_distance at 2. rewrite E. destruct (addresses (parking s) o) as [a|] eqn:Ea.
  - destruct (waker_step s o m I E ltac:(by rewrite Ea) Hq Hb) as (u & s' & G1 & (G2 & _ & G3) & G4 & G5 & G6 & G7 & G8). exists u, s'. rewrite E in G6. split; [done|]. split; [done|]. split; [|split; [done|unfold release_distance; rewrite G6, G7; lia]]. unfold releasing, owns, waiting. rewrite G6, G2, G8. split; [done|]. by right.
  - exists o. unfold go, lockFastAssumingZero, lockFast_load, tryLock_load, safepointFast, unlockFastAssumingZero, unlockFast_load. rewrite E. cbn [bk_address bk_token wait_ops]. rewrite !bool_decide_eq_true_2, Ea, Ho, Z.eqb_refl by done. eexists. split; [done|]. split; [others_step|]. split; [releases; auto|]. split; [done|]. release_distances.
Qed.

Lemma release_step t s o n : inv s -> o <> t -> releasing s o n -> bucket_lock s = None \/ bucket_lock s = Some o ->
  exists s', progress t s s' /\ others s s' o /\
    (released s' n \/ releasing s' o n /\ (bucket_lock s' = None \/ bucket_lock s' = Some o) /\ (release_distance s' o < release_distance s o)%nat).
Proof.
  intros I Hot Hr Hb. destruct (decide (owner_pc (pcs s o) = true)) as [Ho|Ho].
  - destruct (decide (pcs s o = Holding)) as [E|E].
    + eexists. split; [exists o, (CallUnlock Unfair); split; [by right|]; unfold lock_next; by rewrite E|]. split; [others_step|]. right. unfold releasing in Hr. rewrite E in Hr. split; [releases; tauto|]. split; [|unfold release_distance at 2; rewrite E; release_distances]. done.
    + destruct (release_step_owner s o n I Hr) as (s' & H1 & H2); [by left|by destruct (pcs s o)|done|done|]. exists s'. split; [by eapply go_progress|done].
  - destruct (decide (kind (pcs s o) = Sleeping)) as [Hk|Hk].
    + destruct (pcs s o) eqn:E; try done. unfold releasing in Hr. rewrite E in Hr. destruct Hr as [R1 R2]. assert (bucket_lock s = None) as Hb'. { destruct Hb as [|Hb]; [done|]. apply (inv_bucket _ _ I) in Hb. by rewrite E in Hb. } destruct (release_step_sleep s o n _ I E R2 R1 Hb') as (u & s' & H1 & H2 & H3 & H4 & H5). exists s'. split; [by eapply go_progress|]. split; [done|]. auto.
    + destruct (release_step_token s o n I Hr) as (s' & H1 & H2); [intros [|[]]; done|done|]. exists s'. split; [by eapply go_progress|done].
Qed.

Lemma others_trans s s1 s2 o : others s s1 o -> others s1 s2 o -> others s s2 o.
Proof. intros H1 H2 x Hx Hl. rewrite H2, H1; [done|done|done|done|]. by rewrite H1. Qed.

Lemma reach_released t s o n : inv s -> o <> t -> owns s o -> (waiting (parking s) <= n)%nat -> bucket_lock s = None ->
  exists s', rtc (progress t) s s' /\ inv s' /\ others s s' o /\ released s' n.
Proof.
  intros I Hot Ho Hn Hb. assert (releasing s o n) as Hr. { unfold releasing. destruct (pcs s o) eqn:E; try done; (assert (bucket_lock s = Some o) as F by (apply (inv_bucket _ _ I); by rewrite E)); congruence. }
  assert (bucket_lock s = None \/ bucket_lock s = Some o) as Hb' by (by left). clear Hb Ho Hn. remember (release_distance s o) as d eqn:Hd. revert s I Hr Hb' Hd. induction (lt_wf d) as [d _ IH]. intros s I Hr Hb Hd.
  destruct (release_step t s o n I Hot Hr Hb) as (s1 & Hp & Hq & Hs). assert (inv s1) as I1 by (eapply (progress_inv t s); [done|by apply rtc_once]).
  destruct Hs as [H1|(H1 & H2 & H3)]; [exists s1; split; [by apply rtc_once|done]|]. destruct (IH (release_distance s1 o) ltac:(lia) s1 I1 H1 H2 eq_refl) as (s2 & G1 & G2 & G3 & G4). exists s2. split; [by eapply rtc_l|]. split; [done|]. split; [by eapply others_trans|done].
Qed.

(** ** Every waiting thread can get the lock *)
Lemma reach_holding_free t n s : inv s -> bucket_lock s = None -> locking (pcs s t) = true -> (waiting (parking s) <= n)%nat ->
  exists s', rtc (progress t) s s' /\ pcs s' t = Holding.
Proof.
  revert s. induction n as [|n IH]; intros s I Hb Hl Hn.
  - assert (forall s', inv s' -> bucket_lock s' = None -> locking (pcs s' t) = true -> (waiting (parking s') <= 0)%nat -> held (word s') = false -> exists s2, rtc (progress t) s' s2 /\ pcs s2 t = Holding) as Hfree.
    { intros s1 I1 Hb1 Hl1 Hn1 Hh1. destruct (reach_taken t s1 t I1) as (s2 & H1 & _ & _ & H2 & _); [|done|by exists s2]. split; [done|]. left. split; [done|]. apply waiting_zero. lia. }
    destruct (held (word s)) eqn:Hh; [|by apply Hfree]. apply (inv_held _ _ I) in Hh as [o Ho]. destruct (decide (o = t)) as [->|Hot].
    + destruct (reach_taken t s t I) as (s2 & H1 & _ & _ & H2 & _); [split; auto|done|by exists s2].
    + destruct (reach_released t s o 0 I Hot Ho Hn Hb) as (s1 & H1 & I1 & H2 & H3 & H4 & H5). destruct (Hfree s1 I1 H3) as (s2 & G1 & G2); [rewrite H2; done|done|auto|]. exists s2. split; [by etransitivity|done].
  - assert (forall s' o, inv s' -> bucket_lock s' = None -> locking (pcs s' t) = true -> (waiting (parking s') <= S n)%nat -> o <> t -> owns s' o -> exists s2, rtc (progress t) s' s2 /\ pcs s2 t = Holding) as Hheld.
    { intros s1 o I1 Hb1 Hl1 Hn1 Hot Ho. destruct (reach_released t s1 o (S n) I1 Hot Ho Hn1 Hb1) as (s2 & H1 & I2 & H2 & H3 & H4 & _). destruct (IH s2 I2 H3) as (s3 & G1 & G2); [by rewrite H2|done|]. exists s3. split; [by etransitivity|done]. }
    destruct (held (word s)) eqn:Hh.
    + apply (inv_held _ _ I) in Hh as [o Ho]. destruct (decide (o = t)) as [->|Hot]; [|by apply (Hheld s o)]. destruct (reach_taken t s t I) as (s2 & H1 & _ & _ & H2 & _); [split; auto|done|by exists s2].
    + destruct (decide ((t, this) ∈ entries (parking s))) as [Hq|Hq].
      * destruct (inv_contender _ _ I t Hq Hh) as (c & Hc1 & Hc2). assert (c <> t) as Hct by (by intros ->). destruct (reach_taken t s c I) as (s1 & H1 & I1 & (H2 & _ & H3) & H4 & H5); [split; auto|done|]. destruct (Hheld s1 c I1 H5) as (s2 & G1 & G2); [rewrite H3; done|unfold waiting; by rewrite H2|done|left; by rewrite H4|]. exists s2. split; [by etransitivity|done].
      * destruct (reach_taken t s t I) as (s2 & H1 & _ & _ & H2 & _); [split; auto|done|by exists s2].
Qed.

Lemma reach_holding t s : inv s -> locking (pcs s t) = true -> exists s', rtc (progress t) s s' /\ pcs s' t = Holding.
Proof.
  intros I Hl. destruct (reach_bucket_free t s I Hl) as (s1 & H1 & I1 & Hl1 & Hb1). destruct (reach_holding_free t _ s1 I1 Hb1 Hl1 (le_n _)) as (s2 & H2 & H3). exists s2. split; [by etransitivity|done].
Qed.
End liveness.
