(* ===== verification/LockRefine.v ===== *)
(** * LockRefine: the lock on the linked queue of a bucket runs in step with the lock on a sequence *)
From stdpp Require Import gmap functions.
From S2P Require Import Prelude ParkingBucket ParkingBucketProps LockAlgorithm LockInvariant.
Local Open Scope Z_scope.

(** ** What a bucket promises to the lock *)
Class BucketRefines (Q : Type) `{BucketOps Q} (rep : Q -> wait_queue -> Prop) : Prop := {
  ref_prepare q w t w' : rep q w -> wq_prepare w t = Some w' -> exists q', bk_prepare q t = Some q' /\ rep q' w';
  ref_enqueue q w t a w' : rep q w -> wq_enqueue w t a = Some w' -> exists q', bk_enqueue q t a = Some q' /\ rep q' w';
  ref_dequeue q w a time random w' r fair : rep q w -> wq_dequeue w a time random = Some (w', r, fair) -> exists q', bk_dequeue q a time random = Some (q', r, fair) /\ rep q' w';
  ref_more q w : rep q w -> bk_more q = bk_more w;
  ref_set_token q w t k w' : rep q w -> wq_set_token w t k = Some w' -> exists q', bk_set_token q t k = Some q' /\ rep q' w';
  ref_token q w t : rep q w -> bk_token q t = bk_token w t;
  ref_wake q w t w' : rep q w -> wq_wake w t = Some w' -> exists q', bk_wake q t = Some q' /\ rep q' w';
  ref_address q w t : rep q w -> bk_address q t = bk_address w t;
  ref_cancel q w t time random w' : rep q w -> wq_cancel w t time random = Some w' -> exists q', bk_cancel q t time random = Some q' /\ rep q' w'
}.

Section simulation.
Context {Q : Type} `{BucketOps Q} (rep : Q -> wait_queue -> Prop) `{!BucketRefines Q rep} (this : Z).

Record sim (s : state Q) (a : state wait_queue) : Prop := {
  sim_word : word s = word a;
  sim_bucket : bucket_lock s = bucket_lock a;
  sim_pcs : pcs s = pcs a;
  sim_rep : rep (parking s) (parking a)
}.

(** The same result, up to the representation, unless an assertion fails. *)
Definition same_result (r : option (state Q)) (r' : option (state wait_queue)) (t : tid) : Prop :=
  match r' with Some a => pcs a t = Fault \/ (exists s, r = Some s /\ sim s a) | None => r = None end.

Lemma sim_at s a t p : sim s a -> sim (at_pc s t p) (at_pc a t p).
Proof. intros [H1 H2 H3 H4]. split; cbn; congruence. Qed.
Lemma sim_word_at s a t v p : sim s a -> sim (at_pc (with_word s v) t p) (at_pc (with_word a v) t p).
Proof. intros [H1 H2 H3 H4]. split; cbn; congruence. Qed.
Lemma sim_bucket_at s a t b p : sim s a -> sim (at_pc (with_bucket s b) t p) (at_pc (with_bucket a b) t p).
Proof. intros [H1 H2 H3 H4]. split; cbn; congruence. Qed.
Lemma sim_parking_at s a t q w p : sim s a -> rep q w -> sim (at_pc (with_parking s q) t p) (at_pc (with_parking a w) t p).
Proof. intros [H1 H2 H3 H4] H5. split; cbn; congruence. Qed.

Lemma same_some s a t : sim s a -> same_result (Some s) (Some a) t.
Proof. intros. right. by exists s. Qed.

Lemma same_CAS s a t cas e d p1 p2 : sim s a -> same_result (Some (CAS s t cas e d p1 p2)) (Some (CAS a t cas e d p1 p2)) t.
Proof. intros S. apply same_some. unfold CAS. rewrite (sim_word _ _ S). destruct (_ && _); [by apply sim_word_at|by apply sim_at]. Qed.

Lemma same_lock_bucket s a t p : sim s a -> same_result (lock_bucket s t p) (lock_bucket a t p) t.
Proof. intros S. unfold lock_bucket. rewrite (sim_bucket _ _ S). destruct (bucket_lock a); [done|]. by apply same_some, sim_bucket_at. Qed.

Lemma same_on_parking s a t r r' p : sim s a -> (forall w, r' = Some w -> exists q, r = Some q /\ rep q w) -> same_result (Some (on_parking s t r p)) (Some (on_parking a t r' p)) t.
Proof.
  intros S Hr. unfold on_parking. destruct r' as [w|]; [|left; cbn; apply fn_lookup_insert]. destruct (Hr w eq_refl) as (q & -> & Hq). apply same_some. by apply sim_parking_at.
Qed.

Lemma go_same s a t cas time random : sim s a -> same_result (go this s t cas time random) (go this a t cas time random) t.
Proof.
  intros S. pose proof (sim_rep _ _ S) as R. pose proof (sim_word _ _ S) as Ew. unfold go, lockFastAssumingZero, lockFast_load, tryLock_load, safepointFast, unlockFastAssumingZero, unlockFast_load. rewrite (sim_pcs _ _ S), Ew.
  destruct (pcs a t); try done; try (by apply same_CAS); try (by apply same_some, sim_at); try (by apply same_lock_bucket); try (by apply same_some, sim_bucket_at).
  - apply same_on_parking; [done|]. intros w. by apply ref_prepare.
  - apply same_on_parking; [done|]. intros w. by apply ref_enqueue.
  - rewrite (ref_address (parking s) (parking a) t R), (ref_token (parking s) (parking a) t R). destruct (bk_address _ t) as [[|]|]; [done| |by apply same_some, sim_at]. destruct (bk_token _ t); by apply same_some, sim_at.
  - destruct (bk_dequeue (parking a) this time random) as [[[w r] fair]|] eqn:E; [|by left; apply fn_lookup_insert]. destruct (ref_dequeue _ _ _ _ _ _ _ _ R E) as (q & -> & Hq). apply same_some. rewrite (ref_more q w Hq). by apply sim_parking_at.
  - destruct threadData as [u|]; [|by apply same_some, sim_at]. apply same_on_parking; [done|]. intros w. by apply ref_set_token.
  - apply same_on_parking; [done|]. intros w. by apply ref_wake.
  - rewrite (ref_address (parking s) (parking a) t R). destruct (bk_address _ t) as [[|]|]; [done| |]; by apply same_some, sim_at.
Qed.

Lemma next_same s a t act : sim s a -> same_result (lock_next this s t act) (lock_next this a t act) t.
Proof.
  intros S. pose proof (sim_rep _ _ S) as R. unfold lock_next. destruct act; [| | | |by apply go_same| | |]; rewrite (sim_pcs _ _ S); destruct (pcs a t); try done; try (by apply same_some, sim_at).
  - destruct (a0 =? this); [done|]. unfold when_free. rewrite (sim_bucket _ _ S). destruct (bucket_lock a); [done|]. apply same_on_parking; [done|]. intros w Hw. cbn [bk_prepare bk_enqueue wait_ops] in Hw. destruct (wq_prepare (parking a) t) as [w1|] eqn:E1; [|done]. cbn [mbind option_bind] in Hw. destruct (ref_prepare _ _ _ _ R E1) as (q1 & -> & R1). cbn [mbind option_bind]. by apply (ref_enqueue q1 w1).
  - destruct (a0 =? this); [done|]. unfold when_free. rewrite (sim_bucket _ _ S). destruct (bucket_lock a); [done|]. apply same_on_parking; [done|]. intros w Hw. unfold other_unpark in *. cbn [bk_dequeue bk_set_token bk_wake wait_ops] in Hw. destruct (wq_dequeue (parking a) a0 time random) as [[[w1 r] fair]|] eqn:E1; [|done]. destruct (ref_dequeue _ _ _ _ _ _ _ _ R E1) as (q1 & -> & R1). cbn [mbind option_bind] in *. destruct r as [u|]; [|injection Hw as <-; by exists q1].
    destruct (wq_set_token w1 u 0) as [w2|] eqn:E2; [|done]. destruct (ref_set_token _ _ _ _ _ R1 E2) as (q2 & -> & R2). cbn [mbind option_bind] in *. by apply (ref_wake q2 w2).
  - unfold when_free. rewrite (sim_bucket _ _ S). destruct (bucket_lock a); [done|]. apply same_on_parking; [done|]. intros w. by apply ref_cancel.
Qed.
End simulation.

(** ** The linked queue keeps the promise *)
Definition token_of (l : lot) (t : tid) : Z := default 0 (token <$> threads l !! t).

Record lot_rep (l : lot) (w : wait_queue) : Prop := {
  lr_queue : queue_rep l (map fst (entries w));
  lr_address t : address_of l t = addresses w t;
  lr_token t : token_of l t = tokens w t;
  lr_known : dom (threads l) = known w;
  lr_fair : nextFairTime (bucket l) = fair_time w;
  lr_entries t a : (t, a) ∈ entries w -> addresses w t = Some a
}.

(** The data of one thread change, but not its link. *)
Lemma insert_rep l q t d : queue_rep l q -> nextInQueue d = default None (nextInQueue <$> threads l !! t) -> queue_rep (mkLot (bucket l) (<[t := d]> (threads l))) q.
Proof.
  intros [Hh Ht Hn Hc Hf] Hd. split; cbn [bucket threads]; [done|done|done| |].
  - clear -Hc Hd. induction q as [|u q IH]; cbn [chain] in *; [done|]. destruct Hc as [(e & He & Hne) Hc]. split; [|by apply IH]. destruct (decide (t = u)) as [<-|Htu].
    + exists d. rewrite lookup_insert_eq. split; [done|]. rewrite He in Hd. cbn in Hd. congruence.
    + exists e. by rewrite lookup_insert_ne.
  - intros u e He Hu. destruct (decide (t = u)) as [<-|Htu].
    + rewrite lookup_insert_eq in He. injection He as <-. rewrite Hd. destruct (threads l !! t) as [d0|] eqn:E; [|done]. by apply (Hf t).
    + rewrite lookup_insert_ne in He by done. by apply (Hf u).
Qed.

Lemma address_insert l b t d u : address_of (mkLot b (<[t := d]> (threads l))) u = if decide (u = t) then address d else address_of l u.
Proof. unfold address_of. cbn [threads]. destruct (decide (u = t)) as [->|Hu]; [by rewrite lookup_insert_eq|by rewrite lookup_insert_ne]. Qed.

Lemma token_insert l b t d u : token_of (mkLot b (<[t := d]> (threads l))) u = if decide (u = t) then token d else token_of l u.
Proof. unfold token_of. cbn [threads]. destruct (decide (u = t)) as [->|Hu]; [by rewrite lookup_insert_eq|by rewrite lookup_insert_ne]. Qed.

Lemma dom_insert_known l t d : t ∈ dom (threads l) -> dom (<[t := d]> (threads l)) = dom (threads l).
Proof. intros H. rewrite dom_insert_L. set_solver. Qed.

Lemma fn_insert_decide {A} (f : tid -> A) t x u : (<[t := x]> f) u = if decide (u = t) then x else f u.
Proof. destruct (decide (u = t)) as [->|Hu]; [apply fn_lookup_insert|by rewrite fn_lookup_insert_ne]. Qed.

Lemma lot_data l w t : lot_rep l w -> t ∈ known w -> exists d, threads l !! t = Some d /\ address d = addresses w t /\ token d = tokens w t.
Proof.
  intros R Ht. rewrite <- (lr_known _ _ R) in Ht. apply elem_of_dom in Ht as [d Hd]. exists d. rewrite <- (lr_address _ _ R t), <- (lr_token _ _ R t). unfold address_of, token_of. by rewrite Hd.
Qed.

(** The lot and the sequence after the data of [t] were set. *)
Lemma insert_lot_rep l w t d a k : lot_rep l w -> nextInQueue d = default None (nextInQueue <$> threads l !! t) -> address d = a -> token d = k -> (forall b, (t, b) ∈ entries w -> a = Some b) ->
  lot_rep (mkLot (bucket l) (<[t := d]> (threads l))) (mkWait (entries w) (<[t := a]> (addresses w)) (<[t := k]> (tokens w)) ({[t]} ∪ known w) (fair_time w)).
Proof.
  intros R Hd Ha Hk He. split; cbn [entries addresses tokens known fair_time bucket threads].
  - by apply insert_rep; [apply (lr_queue _ _ R)|].
  - intros u. rewrite address_insert, fn_insert_decide, Ha. destruct (decide (u = t)); [done|apply (lr_address _ _ R)].
  - intros u. rewrite token_insert, fn_insert_decide, Hk. destruct (decide (u = t)); [done|apply (lr_token _ _ R)].
  - rewrite dom_insert_L. by rewrite (lr_known _ _ R).
  - apply (lr_fair _ _ R).
  - intros u b Hin. rewrite fn_insert_decide. destruct (decide (u = t)) as [->|Hu]; [by apply He|by apply (lr_entries _ _ R)].
Qed.

(** Two sequences that differ only in how their functions are written. *)
Lemma lot_rep_ext l w w' : lot_rep l w -> entries w = entries w' -> (forall t, addresses w t = addresses w' t) -> (forall t, tokens w t = tokens w' t) -> known w = known w' -> fair_time w = fair_time w' -> lot_rep l w'.
Proof.
  intros R H1 H2 H3 H4 H5. split.
  - rewrite <- H1. apply (lr_queue _ _ R).
  - intros t. rewrite <- H2. apply (lr_address _ _ R).
  - intros t. rewrite <- H3. apply (lr_token _ _ R).
  - rewrite <- H4. apply (lr_known _ _ R).
  - rewrite <- H5. apply (lr_fair _ _ R).
  - intros t a. rewrite <- H1, <- H2. apply (lr_entries _ _ R).
Qed.

Lemma lot_prepare_rep l w t w' : lot_rep l w -> wq_prepare w t = Some w' -> exists l', lot_prepare l t = Some l' /\ lot_rep l' w'.
Proof.
  intros R Hw. unfold wq_prepare in Hw. destruct (addresses w t) eqn:Ea; [done|]. cbn in Hw. injection Hw as <-. unfold lot_prepare, myThreadData, update. pose proof (lr_address _ _ R t) as Hat. unfold address_of in Hat. rewrite Ea in Hat.
  destruct (threads l !! t) as [d|] eqn:Ed; cbn [mbind option_bind] in *.
  - rewrite Ed. cbn [mbind option_bind]. rewrite lookup_insert_eq. cbn [mbind option_bind]. change (address (set_token 0 d)) with (address d). rewrite Hat. cbn [is_null guard mbind option_bind]. eexists. split; [done|].
    eapply lot_rep_ext; [apply (insert_lot_rep l w t (set_token 0 d) None 0 R)|..]; cbn; try done; [by rewrite Ed|intros b Hb; by rewrite (lr_entries _ _ R t b Hb) in Ea|]. intros u. rewrite fn_insert_decide. destruct (decide (u = t)) as [->|]; done.
  - rewrite lookup_insert_eq. cbn [mbind option_bind]. rewrite lookup_insert_eq. cbn [mbind option_bind set_token address is_null guard]. rewrite insert_insert_eq. eexists. split; [done|].
    eapply lot_rep_ext; [apply (insert_lot_rep l w t (mkThreadData None None 0) None 0 R)|..]; cbn; try done; [by rewrite Ed|intros b Hb; by rewrite (lr_entries _ _ R t b Hb) in Ea|]. intros u. rewrite fn_insert_decide. destruct (decide (u = t)) as [->|]; done.
Qed.

Lemma known_again (t : tid) (X : gset tid) : t ∈ X -> {[t]} ∪ X = X.
Proof. set_solver. Qed.

Lemma lot_set_token_rep l w t k w' : lot_rep l w -> wq_set_token w t k = Some w' -> exists l', lot_set_token l t k = Some l' /\ lot_rep l' w'.
Proof.
  intros R Hw. unfold wq_set_token in Hw. case_bool_decide as Ht; [|done]. cbn in Hw. injection Hw as <-. destruct (lot_data l w t R Ht) as (d & Hd & Hda & Hdt). unfold lot_set_token, update. rewrite Hd. cbn [mbind option_bind]. eexists. split; [done|].
  eapply lot_rep_ext; [apply (insert_lot_rep l w t (set_token k d) (addresses w t) k R)|..]; cbn; try done; [by rewrite Hd|by apply (lr_entries _ _ R)| |by apply known_again]. intros u. rewrite fn_insert_decide. destruct (decide (u = t)) as [->|]; done.
Qed.

Lemma lot_wake_rep l w t w' : lot_rep l w -> wq_wake w t = Some w' -> exists l', wake l t = Some l' /\ lot_rep l' w'.
Proof.
  intros R Hw. unfold wq_wake in Hw. destruct (negb _ && _ && _) eqn:E; [|done]. bool_prop. cbn in Hw. injection Hw as <-. rewrite !bool_decide_eq_true in *. destruct (lot_data l w t R ltac:(done)) as (d & Hd & Hda & Hdt). unfold wake, update. rewrite Hd. cbn [mbind option_bind]. rewrite Hda. destruct (addresses w t) as [a|] eqn:Ea; [|done]. cbn [is_null negb guard mbind option_bind]. eexists. split; [done|].
  eapply lot_rep_ext; [apply (insert_lot_rep l w t (set_address None d) None (tokens w t) R)|..]; cbn; try done; [by rewrite Hd|intros b Hb; exfalso| |by apply known_again].
  - match goal with Hn : t ∉ _ |- _ => apply Hn, elem_of_map_fst; by exists b end.
  - intros u. rewrite fn_insert_decide. destruct (decide (u = t)) as [->|]; done.
Qed.

(** What two lots with the same addresses and tokens have in common. *)
Lemma token_of_data l l' : (forall t, (fun d => (address d, token d)) <$> (threads l !! t) = (fun d => (address d, token d)) <$> (threads l' !! t)) -> forall t, token_of l' t = token_of l t.
Proof. intros Hd t. specialize (Hd t). unfold token_of. destruct (threads l !! t), (threads l' !! t); cbn in *; congruence. Qed.

Lemma data_lot_rep l l' w q fair : lot_rep l w -> (forall t, (fun d => (address d, token d)) <$> (threads l !! t) = (fun d => (address d, token d)) <$> (threads l' !! t)) ->
  queue_rep l' (map fst q) -> (forall t a, (t, a) ∈ q -> addresses w t = Some a) -> nextFairTime (bucket l') = fair -> lot_rep l' (mkWait q (addresses w) (tokens w) (known w) fair).
Proof.
  intros R Hd Hq He Hf. destruct (dom_of_data l l' Hd) as [D1 D2]. split; cbn [entries addresses tokens known fair_time]; try done.
  - intros t. rewrite D2. apply (lr_address _ _ R).
  - intros t. rewrite (token_of_data l l' Hd). apply (lr_token _ _ R).
  - rewrite D1. apply (lr_known _ _ R).
Qed.

Lemma lot_enqueue_rep l w t a w' : lot_rep l w -> wq_enqueue w t a = Some w' -> exists l', lot_enqueue l t a = Some l' /\ lot_rep l' w'.
Proof.
  intros R Hw. unfold wq_enqueue in Hw. destruct (_ && _) eqn:E; [|done]. bool_prop. cbn in Hw. injection Hw as <-. rewrite !bool_decide_eq_true in *. destruct (lot_data l w t R ltac:(done)) as (d & Hd & Hda & Hdt). unfold lot_enqueue, update. rewrite Hd. cbn [mbind option_bind].
  assert (lot_rep (mkLot (bucket l) (<[t := set_address (Some a) d]> (threads l))) (mkWait (entries w) (<[t := Some a]> (addresses w)) (<[t := tokens w t]> (tokens w)) ({[t]} ∪ known w) (fair_time w))) as R1.
  { apply insert_lot_rep; try done; [by rewrite Hd|]. intros b Hb. exfalso. match goal with Hn : t ∉ _ |- _ => apply Hn, elem_of_map_fst; by exists b end. }
  destruct (enqueue_spec _ (map fst (entries w)) t (set_address (Some a) d) (lr_queue _ _ R1) (lookup_insert_eq _ _ _) ltac:(done) ltac:(done)) as (l' & -> & Hq & Hs & Hf). exists l'. split; [done|].
  eapply lot_rep_ext; [apply (data_lot_rep _ l' _ (entries w ++ [(t, a)]) (fair_time w) R1 Hs)|..]; cbn [entries addresses tokens known fair_time]; try done.
  - by rewrite map_app.
  - intros u b Hb. rewrite fn_insert_decide. apply elem_of_app in Hb as [Hb|Hb]; [|apply list_elem_of_singleton in Hb as [= -> ->]; by rewrite decide_True]. rewrite decide_False; [by apply (lr_entries _ _ R)|]. intros ->. match goal with Hn : t ∉ _ |- _ => apply Hn, elem_of_map_fst; by exists b end.
  - rewrite <- Hf. apply (lr_fair _ _ R).
  - intros u. rewrite fn_insert_decide. destruct (decide (u = t)) as [->|]; done.
  - by apply known_again.
Qed.

Lemma lot_dequeue_rep l w a time random w' r fair : lot_rep l w -> wq_dequeue w a time random = Some (w', r, fair) -> exists l', lot_dequeue l a time random = Some (l', r, fair) /\ lot_rep l' w'.
Proof.
  intros R Hw. unfold wq_dequeue in Hw. unfold lot_dequeue. pose proof (lr_queue _ _ R) as Hq. pose proof (queue_size l _ Hq) as Hfuel.
  assert (forall t b, (t, b) ∈ entries w -> address_of l t = Some b) as Ha by (intros; rewrite (lr_address _ _ R); by apply (lr_entries _ _ R)).
  destruct (genericDequeue_spec (unparkOne_functor a) _ l (None, false) _ time random Hq Hfuel) as (l' & Hg). cbv zeta in Hg. rewrite unparkOne_list, (take_first_pairs l (entries w) a Ha), (lr_fair _ _ R) in Hg. destruct (take_first _ (entries w)) as [e q] eqn:Ef. destruct (take_first_sublist _ _ _ _ Ef) as [Hsub _].
  assert (forall t b, (t, b) ∈ q -> addresses w t = Some b) as Hsubq by (intros t b Hb; apply (lr_entries _ _ R); by eapply elem_of_sublist).
  destruct e as [[x b]|]; cbn [fmap option_fmap option_map fst is_null negb] in *; injection Hw as <- <- <-; destruct Hg as (-> & H1 & H2 & H3); cbn [mbind option_bind]; exists l'.
  - rewrite andb_true_r in *. split; [done|]. by apply (data_lot_rep l).
  - rewrite andb_false_r in *. split; [done|]. by apply (data_lot_rep l).
Qed.

Lemma lot_cancel_rep l w t time random w' : lot_rep l w -> wq_cancel w t time random = Some w' -> exists l', bk_cancel l t time random = Some l' /\ lot_rep l' w'.
Proof.
  intros R Hw. unfold wq_cancel in Hw. destruct (bool_decide (t ∈ known w)) eqn:Ht; [|done]. apply bool_decide_eq_true in Ht. cbn in Hw. injection Hw as <-. cbn [bk_cancel lot_ops]. unfold park_timeout. pose proof (lr_queue _ _ R) as Hq. pose proof (queue_size l _ Hq) as Hfuel.
  destruct (genericDequeue_spec (timeout_functor t) _ l false _ time random Hq Hfuel) as (l1 & Hg). cbv zeta in Hg. rewrite timeout_list, (lr_fair _ _ R) in Hg by apply (rep_nodup _ _ Hq). set (q := filter (fun e => fst e <> t) (entries w)) in *.
  assert (exists b, genericDequeue (timeout_functor t) (S (size (threads l))) l false time random = Some (l1, b) /\ lot_rep l1 (mkWait q (addresses w) (tokens w) (known w) (if (fair_time w <? time) && bool_decide (t ∈ map fst (entries w)) then time + random else fair_time w))) as (b & -> & R1).
  { assert (forall u b, (u, b) ∈ q -> addresses w u = Some b) as Hsubq by (intros u b [_ Hb]%list_elem_of_filter; by apply (lr_entries _ _ R)).
    destruct (decide (t ∈ map fst (entries w))) as [Hin|Hin].
    - rewrite filter_map_fst in Hg. fold q in Hg. destruct Hg as (-> & H1 & H2 & H3). exists true. split; [done|]. apply (data_lot_rep l); try done. by rewrite bool_decide_eq_true_2.
    - rewrite <- (filter_ne_notin t _ Hin), filter_map_fst in Hg. fold q in Hg. destruct Hg as (-> & H1 & H2 & H3). exists false. split; [done|]. apply (data_lot_rep l); try done. by rewrite bool_decide_eq_false_2. }
  clear Hg. cbn [mbind option_bind]. destruct (lot_data l1 _ t R1 Ht) as (d & Hd & Hda & Hdt). rewrite Hd. cbn [mbind option_bind].
  assert (t ∉ map fst q) as Hnt by (intros [c Hc]%elem_of_map_fst; by apply list_elem_of_filter in Hc as [? _]). rewrite (rep_free _ _ (lr_queue _ _ R1) t d Hd Hnt). cbn [is_null guard mbind option_bind]. unfold update. rewrite Hd. cbn [mbind option_bind fmap option_fmap option_map fst]. eexists. split; [done|].
  eapply lot_rep_ext; [apply (insert_lot_rep l1 _ t (set_address None d) None (tokens w t) R1)|..]; cbn [entries addresses tokens known fair_time]; try done; [by rewrite Hd|intros c Hc; by apply list_elem_of_filter in Hc as [? _]| |by apply known_again]. intros u. rewrite fn_insert_decide. destruct (decide (u = t)) as [->|]; done.
Qed.

#[export] Instance lot_refines : BucketRefines lot lot_rep.
Proof.
  split; intros.
  - by apply (lot_prepare_rep q w).
  - by apply (lot_enqueue_rep q w).
  - by apply (lot_dequeue_rep q w).
  - cbn [bk_more lot_ops wait_ops]. rewrite (has_queue_spec q (map fst (entries w))) by (by apply lr_queue). by rewrite map_nil_decide.
  - by apply (lot_set_token_rep q w).
  - cbn [bk_token lot_ops wait_ops]. rewrite <- (lr_token q w H t), <- (lr_known q w H). unfold token_of. case_bool_decide as F; [apply elem_of_dom in F as [d ->]; done|]. by apply not_elem_of_dom in F as ->.
  - by apply (lot_wake_rep q w).
  - cbn [bk_address lot_ops wait_ops]. rewrite <- (lr_address q w H t), <- (lr_known q w H). unfold address_of. case_bool_decide as F; [apply elem_of_dom in F as [d ->]; done|]. by apply not_elem_of_dom in F as ->.
  - by apply (lot_cancel_rep q w).
Qed.

Lemma empty_lot_rep fairTime : lot_rep (empty_lot fairTime) (empty_wait fairTime).
Proof.
  split; cbn; try done.
  - split; cbn; try done. constructor.
  - intros t a H. by apply not_elem_of_nil in H.
Qed.
