(* ===== verification/LockProps.v ===== *)
(** * LockProps: mutual exclusion and freedom from deadlock of the lock on the linked queue of a bucket *)
From stdpp Require Import gmap functions relations.
From S2P Require Import Prelude ParkingBucket ParkingBucketProps LockAlgorithm LockInvariant LockPreserve LockLiveness LockRefine.
Local Open Scope Z_scope.

(** The thread has the lock: it is in the critical section, on its way out of it, or it was handed the lock in its sleep. *)
Definition has_lock (s : state lot) (t : tid) : Prop :=
  owner_pc (pcs s t) = true \/ (kind (pcs s t) = Sleeping /\ token_of (parking s) t = DirectHandoff).

Section transfer.
Context (this : Z).

Lemma inv_no_fault a t : inv this a -> pcs a t <> Fault.
Proof. intros I E. pose proof (inv_local _ _ I t) as Hl. by rewrite E in Hl. Qed.

Lemma run_sim s a es s' : sim lot_rep s a -> inv this a -> run this s es = Some s' -> exists a', sim lot_rep s' a' /\ inv this a'.
Proof.
  revert s a. induction es as [|[t act] es IH]; intros s a S I; cbn [run]; [intros [= <-]; by exists a|]. pose proof (next_same lot_rep this s a t act S) as Hn. unfold same_result in Hn. destruct (lock_next this a t act) as [a1|] eqn:Ea; [|by rewrite Hn].
  pose proof (next_inv this a t act a1 I Ea) as I1. destruct Hn as [Hf|(s1 & -> & S1)]; [by apply inv_no_fault in Hf|]. cbn [mbind option_bind]. by apply IH with a1.
Qed.

Lemma free_sim fairTime : sim lot_rep (free_lock (empty_lot fairTime)) (free_lock (empty_wait fairTime)).
Proof. split; try done. apply empty_lot_rep. Qed.

Lemma sim_owns s a t : sim lot_rep s a -> has_lock s t <-> owns a t.
Proof. intros S. unfold has_lock, owns. by rewrite (sim_pcs _ _ _ S), (lr_token _ _ (sim_rep _ _ _ S)). Qed.

(** A step towards the lock that [t] waits for. *)
Definition helps (t : tid) (e : tid * action) : Prop := (exists cas time random, snd e = Go cas time random) \/ (fst e <> t /\ snd e = CallUnlock Unfair).

Lemma progress_run t s a a' : sim lot_rep s a -> inv this a -> rtc (progress this t) a a' -> exists es s', run this s es = Some s' /\ Forall (helps t) es /\ sim lot_rep s' a'.
Proof.
  intros S I H. revert s S. induction H as [a|a a1 a' (u & act & Hh & Hn) H IH]; intros s S; [by exists [], s|]. pose proof (next_same lot_rep this s a u act S) as Hs. rewrite Hn in Hs. pose proof (next_inv this a u act a1 I Hn) as I1. destruct Hs as [Hf|(s1 & Hn1 & S1)]; [by apply inv_no_fault in Hf|].
  destruct (IH I1 s1 S1) as (es & s' & H1 & H2 & H3). exists ((u, act) :: es), s'. cbn [run]. rewrite Hn1. cbn [mbind option_bind]. split; [done|]. split; [|done]. by constructor.
Qed.
End transfer.

(** C7: whatever the threads do and in whatever order their steps come, at most one of them has the lock, the held bit of the
    byte says whether one has it, and no assertion of the lock or of the parking lot fails; this includes weak
    compare-and-exchange operations that fail without reason, threads that are handed the lock in their sleep, and other uses
    of the same bucket. *)
Theorem Lock_mutual_exclusion (this fairTime : Z) (es : list (tid * action)) (s : state lot) :
  run this (free_lock (empty_lot fairTime)) es = Some s ->
  (forall t t', has_lock s t -> has_lock s t' -> t = t') /\ (held (word s) = true <-> exists t, has_lock s t) /\ forall t, pcs s t <> Fault.
Proof.
  intros H. destruct (run_sim this _ _ es s (free_sim fairTime) (free_inv this fairTime) H) as (a & S & I). split; [|split].
  - intros t t' H1 H2. apply (inv_unique _ _ I); by apply (sim_owns s a).
  - rewrite (sim_word _ _ _ S), (inv_held _ _ I). split; intros [t Ht]; exists t; by apply (sim_owns s a).
  - intros t. rewrite (sim_pcs _ _ _ S). by eapply inv_no_fault.
Qed.

(** C6: in every state that can be reached, every thread that is in [lock], spinning, parked or about to be, can still get the
    lock: there is a continuation in which threads only go on with their operations, and in which other threads that have the
    lock call [unlock], at the end of which the thread holds it.  No wake-up is ever lost. *)
Theorem Lock_no_deadlock (this fairTime : Z) (es : list (tid * action)) (s : state lot) (t : tid) :
  run this (free_lock (empty_lot fairTime)) es = Some s -> locking (pcs s t) = true ->
  exists es' s', Forall (helps t) es' /\ run this s es' = Some s' /\ pcs s' t = Holding.
Proof.
  intros H Hl. destruct (run_sim this _ _ es s (free_sim fairTime) (free_inv this fairTime) H) as (a & S & I). rewrite (sim_pcs _ _ _ S) in Hl.
  destruct (reach_holding this t a I Hl) as (a' & H1 & H2). destruct (progress_run this t s a a' S I H1) as (es' & s' & H3 & H4 & S'). exists es', s'. split; [done|]. split; [done|]. by rewrite (sim_pcs _ _ _ S').
Qed.

(** ** A run of two threads *)
Definition steps (t : tid) (n : nat) : list (tid * action) := repeat (t, Go true 0 0) n.

(** The first thread takes the lock, the second one spins, sets the parked bit and parks. *)
Definition contended : list (tid * action) := (1%positive, CallLock) :: steps 1%positive 1%nat ++ (2%positive, CallLock) :: steps 2%positive 48%nat.

(** The first thread unlocks fairly and hands the lock over. *)
Definition handed_over : list (tid * action) := contended ++ (1%positive, CallUnlock Fair) :: steps 1%positive 6%nat.

Definition state_after (es : list (tid * action)) : option (state lot) := run 8 (free_lock (empty_lot 100)) es.
Definition view (s : state lot) : Z * pc * pc * Z * option tid := (word s, pcs s 1%positive, pcs s 2%positive, token_of (parking s) 2%positive, queueHead (bucket (parking s))).

Example contended_view : view <$> state_after contended = Some (3, Holding, LockSleep 40, 0, Some 2%positive).
Proof. vm_compute. reflexivity. Qed.
Example handed_over_view : view <$> state_after handed_over = Some (3, UnlockRelease (Unlocking Fair) (Some 2%positive), LockSleep 40, 1, None).
Proof. vm_compute. reflexivity. Qed.

Lemma Lock_mutual_exclusion_witness : exists s, state_after handed_over = Some s /\
  (forall t t', has_lock s t -> has_lock s t' -> t = t') /\ (held (word s) = true <-> exists t, has_lock s t) /\ forall t, pcs s t <> Fault.
Proof. eexists. split; [vm_compute; reflexivity|]. apply (Lock_mutual_exclusion 8 100 handed_over). vm_compute. reflexivity. Defined.

Lemma Lock_no_deadlock_witness : exists s, state_after contended = Some s /\
  exists es' s', Forall (helps 2%positive) es' /\ run 8 s es' = Some s' /\ pcs s' 2%positive = Holding.
Proof. eexists. split; [vm_compute; reflexivity|]. apply (Lock_no_deadlock 8 100 contended); vm_compute; reflexivity. Defined.
