(* ===== verification/ParkingTable.v ===== *)
(** * ParkingTable: the hash table of buckets of the parking lot (src/Source/WTF/wtf/ParkingLot.cpp, from [Hashtable] on)

    Addresses of objects hash to buckets; the table grows with the number of threads.  Buckets and thread data are on heaps;
    each operation runs alone, as it does in the code once it has the locks of the buckets it needs. *)
From stdpp Require Import gmap sorting.
From S2P Require Import Prelude ParkingBucket.
Local Open Scope Z_scope.

(** Buckets are known by their addresses. *)
Definition bid : Type := positive.

(** [hashtable] is null until it is needed; a slot of the table is null until its bucket is. *)
Record parking_lot : Type := mkParkingLot { hashtable : option (list (option bid)); buckets : gmap bid Bucket; threadDatas : gmap tid ThreadData; numThreads : Z }.

Definition maxLoadFactor : Z := 3.
Definition growthFactor : Z := 2.

(** The hash of a pointer of 64 bits. *)
Definition intHash (key : Z) : Z :=
  let key := u64 (key + Z.lxor (u64 (Z.shiftl key 32)) (2 ^ 64 - 1)) in
  let key := Z.lxor key (Z.shiftr key 22) in
  let key := u64 (key + Z.lxor (u64 (Z.shiftl key 13)) (2 ^ 64 - 1)) in
  let key := Z.lxor key (Z.shiftr key 8) in
  let key := u64 (key + u64 (Z.shiftl key 3)) in
  let key := Z.lxor key (Z.shiftr key 15) in
  let key := u64 (key + Z.lxor (u64 (Z.shiftl key 27)) (2 ^ 64 - 1)) in
  let key := Z.lxor key (Z.shiftr key 31) in
  u32 key.
Definition hashAddress (address : Z) : Z := intHash (u64 address).

Section table.
(** A new bucket gets an address that no other one has. *)
Context (alloc : gset bid -> bid).

Definition Hashtable_create (size : Z) : option (list (option bid)) := _ ← guard (1 <=? size); Some (replicate (Z.to_nat size) None).

Definition with_table (p : parking_lot) (h : list (option bid)) : parking_lot := mkParkingLot (Some h) (buckets p) (threadDatas p) (numThreads p).

Definition ensureHashtable (p : parking_lot) : option (parking_lot * list (option bid)) :=
  match hashtable p with
  | Some h => Some (p, h)
  | None => h ← Hashtable_create maxLoadFactor; Some (with_table p h, h)
  end.

(** A new bucket: an empty queue, and a fair time that has passed. *)
Definition new_Bucket (m : gmap bid Bucket) : gmap bid Bucket * bid := let b := alloc (dom m) in (<[b := mkBucket None None 0]> m, b).

(** The bucket of a slot, which is made when it is not there. *)
Definition ensure_bucket (p : parking_lot) (h : list (option bid)) (index : Z) : option (parking_lot * list (option bid) * bid) :=
  slot ← zget h index;
  match slot with
  | Some b => Some (p, h, b)
  | None =>
    let '(m, b) := new_Bucket (buckets p) in
    h ← zset h index (Some b);
    Some (mkParkingLot (Some h) m (threadDatas p) (numThreads p), h, b)
  end.

(** The buckets of all slots, from the last slot on. *)
Fixpoint ensure_buckets (n : nat) (p : parking_lot) (h : list (option bid)) (bs : list bid) : option (parking_lot * list (option bid) * list bid) :=
  match n with
  | O => Some (p, h, bs)
  | S n => '(p, h, b) ← ensure_bucket p h (Z.of_nat n); ensure_buckets n p h (bs ++ [b])
  end.

(** The locks are taken in the order of the addresses. *)
Definition lockHashtable (p : parking_lot) : option (parking_lot * list (option bid) * list bid) :=
  '(p, h) ← ensureHashtable p;
  '(p, h, bs) ← ensure_buckets (length h) p h [];
  Some (p, h, merge_sort Pos.le bs).

(** An action on one bucket. *)
Definition on_bucket {A} (p : parking_lot) (b : bid) (f : lot -> option (lot * A)) : option (parking_lot * A) :=
  k ← buckets p !! b;
  '(l, x) ← f (mkLot k (threadDatas p));
  Some (mkParkingLot (hashtable p) (<[b := bucket l]> (buckets p)) (threads l) (numThreads p), x).

(** [Bucket::dequeue]. *)
Definition Bucket_dequeue (fuel : nat) (time random : Z) (l : lot) : option (lot * option tid) := genericDequeue dequeue_functor fuel l None time random.

(** All threads of a bucket are taken out, then those of the next. *)
Fixpoint drain (fuel : nat) (time random : Z) (p : parking_lot) (b : bid) (ts : list tid) : option (parking_lot * list tid) :=
  match fuel with
  | O => None
  | S fuel' =>
    '(p, t) ← on_bucket p b (Bucket_dequeue fuel time random);
    match t with Some t => drain fuel' time random p b (ts ++ [t]) | None => Some (p, ts) end
  end.
Fixpoint drain_all (fuel : nat) (time random : Z) (p : parking_lot) (bs : list bid) (ts : list tid) : option (parking_lot * list tid) :=
  match bs with [] => Some (p, ts) | b :: bs => '(p, ts) ← drain fuel time random p b ts; drain_all fuel time random p bs ts end.

(** A bucket for a slot of the new table: the last of the reusable ones, or a new one. *)
Definition take_bucket (m : gmap bid Bucket) (reusable : list bid) : gmap bid Bucket * bid * list bid :=
  match last reusable with
  | Some b => (m, b, removelast reusable)
  | None => let '(m, b) := new_Bucket m in (m, b, [])
  end.

(** The bucket of a slot of the new table. *)
Definition refill_bucket (p : parking_lot) (h : list (option bid)) (reusable : list bid) (index : Z) : option (parking_lot * list (option bid) * list bid * bid) :=
  slot ← zget h index;
  match slot with
  | Some b => Some (p, h, reusable, b)
  | None =>
    let '(m, b, reusable) := take_bucket (buckets p) reusable in
    h ← zset h index (Some b);
    Some (mkParkingLot (hashtable p) m (threadDatas p) (numThreads p), h, reusable, b)
  end.

Definition enqueue_at (t : tid) (l : lot) : option (lot * unit) := l ← Bucket_enqueue l t; Some (l, ()).

Definition refill_one (p : parking_lot) (h : list (option bid)) (reusable : list bid) (t : tid) : option (parking_lot * list (option bid) * list bid) :=
  d ← threadDatas p !! t;
  a ← address d;
  '(p, h, reusable, b) ← refill_bucket p h reusable (hashAddress a mod zlen h);
  '(p, _) ← on_bucket p b (enqueue_at t);
  Some (p, h, reusable).

(** The threads are put into the new table. *)
Fixpoint refill (p : parking_lot) (h : list (option bid)) (reusable : list bid) (ts : list tid) {struct ts} : option (parking_lot * list (option bid) * list bid) :=
  match ts with
  | [] => Some (p, h, reusable)
  | t :: ts =>
    match refill_one p h reusable t with Some (p, h, reusable) => refill p h reusable ts | None => None end
  end.

(** The buckets that are left go into free slots. *)
Fixpoint place_rest (n : nat) (i : Z) (h : list (option bid)) (reusable : list bid) : option (list (option bid) * list bid) :=
  match n with
  | O => Some (h, reusable)
  | S n =>
    match last reusable with
    | None => Some (h, reusable)
    | Some b =>
      slot ← zget h i;
      match slot with
      | Some _ => place_rest n (i + 1) h reusable
      | None => h ← zset h i (Some b); place_rest n (i + 1) h (removelast reusable)
      end
    end
  end.

(** Is the table large enough?  The code divides the size by the number of threads in doubles; as both have 32 bits, the
    quotient is not rounded up to 3. *)
Definition large_enough (size n : Z) : bool := maxLoadFactor * n <=? size.

Definition ensureHashtableSize (fuel : nat) (p : parking_lot) (n time random : Z) : option parking_lot :=
  if match hashtable p with Some h => large_enough (zlen h) n | None => false end then Some p
  else
    '(p, h, bs) ← lockHashtable p;
    if large_enough (zlen h) n then Some p
    else
      '(p, ts) ← drain_all fuel time random p bs [];
      let newSize := u32 (u32 (n * growthFactor) * maxLoadFactor) in
      _ ← guard (zlen h <? newSize);
      h' ← Hashtable_create newSize;
      '(p, h', reusable) ← refill p h' bs ts;
      '(h', reusable) ← place_rest (length h') 0 h' reusable;
      _ ← guard (bool_decide (reusable = []));
      Some (with_table p h').

(** The constructor of the data of a thread, and the destructor. *)
Definition new_thread (fuel : nat) (p : parking_lot) (t : tid) (time random : Z) : option parking_lot :=
  let n := u32 (numThreads p + 1) in
  ensureHashtableSize fuel (mkParkingLot (hashtable p) (buckets p) (<[t := mkThreadData None None 0]> (threadDatas p)) n) n time random.

Definition end_thread (p : parking_lot) (t : tid) : parking_lot := mkParkingLot (hashtable p) (buckets p) (delete t (threadDatas p)) (u32 (numThreads p - 1)).

(** [enqueue] and [dequeue] with a non-empty bucket. *)
Definition at_bucket {A} (p : parking_lot) (a : Z) (f : lot -> option (lot * A)) : option (parking_lot * A) :=
  '(p, h) ← ensureHashtable p;
  '(p, h, b) ← ensure_bucket p h (hashAddress a mod zlen h);
  on_bucket p b f.

(** [dequeue] that does nothing when there is no bucket. *)
Definition at_bucket_ignore {A} (p : parking_lot) (a : Z) (nothing : A) (f : lot -> option (lot * A)) : option (parking_lot * A) :=
  '(p, h) ← ensureHashtable p;
  slot ← zget h (hashAddress a mod zlen h);
  match slot with Some b => on_bucket p b f | None => Some (p, nothing) end.

Definition lot_park (p : parking_lot) (t : tid) (a : Z) (validation : bool) : option (parking_lot * bool) := at_bucket p a (fun l => park l t a validation).

Definition lot_unparkOne (fuel : nat) (p : parking_lot) (a time random : Z) (callback : UnparkResult -> Z) : option (parking_lot * (UnparkResult * option tid)) :=
  at_bucket p a (fun l => '(l, r, t) ← unparkOneImpl fuel l a time random callback; Some (l, (r, t))).

Definition lot_unparkCount (fuel : nat) (p : parking_lot) (a count time random : Z) : option (parking_lot * list tid) :=
  if count =? 0 then Some (p, []) else at_bucket_ignore p a [] (fun l => unparkCount fuel l a count time random).
Definition lot_unparkAll (fuel : nat) (p : parking_lot) (a time random : Z) : option (parking_lot * list tid) := lot_unparkCount fuel p a (2 ^ 32 - 1) time random.

(** A thread parked at [a] times out. *)
Definition lot_timeout (fuel : nat) (p : parking_lot) (t : tid) (a time random : Z) : option (parking_lot * bool) :=
  '(p, b) ← at_bucket_ignore p a false (fun l => genericDequeue (timeout_functor t) fuel l false time random);
  d ← threadDatas p !! t;
  _ ← guard (is_null (nextInQueue d));
  h ← update (threadDatas p) t (set_address None);
  Some (mkParkingLot (hashtable p) (buckets p) h (numThreads p), b).

(** [forEachImpl]: the parked threads, bucket by bucket. *)
Fixpoint queue_threads (fuel : nat) (m : gmap tid ThreadData) (t : option tid) : option (list (tid * option Z)) :=
  match t with
  | None => Some []
  | Some t => match fuel with O => None | S fuel => d ← m !! t; r ← queue_threads fuel m (nextInQueue d); Some ((t, address d) :: r) end
  end.
Fixpoint forEach_loop (fuel : nat) (p : parking_lot) (h : list (option bid)) (n : nat) : option (list (tid * option Z)) :=
  match n with
  | O => Some []
  | S n =>
    slot ← zget h (Z.of_nat n);
    l ← match slot with Some b => k ← buckets p !! b; queue_threads fuel (threadDatas p) (queueHead k) | None => Some [] end;
    r ← forEach_loop fuel p h n;
    Some (l ++ r)
  end.
Definition forEachImpl (fuel : nat) (p : parking_lot) : option (parking_lot * list (tid * option Z)) :=
  '(p, h, _) ← lockHashtable p;
  r ← forEach_loop fuel p h (length h);
  Some (p, r).
End table.

Definition empty_parking_lot : parking_lot := mkParkingLot None ∅ ∅ 0.
