(* ===== verification/ParkingTableFacts.v ===== *)
(** * ParkingTableFacts: operations on buckets and the growth of the table keep the queues of threads *)
From stdpp Require Import gmap.
From stdpp Require Import gmap sorting.
From S2P Require Import Prelude ParkingBucket ParkingBucketProps ParkingTable.
Local Open Scope Z_scope.
#[local] Opaque intHash hashAddress.

(** ** An operation on a bucket leaves the rest of the heap alone *)
(** The lot with more thread data. *)
Definition extend (l : lot) (m : gmap tid ThreadData) : lot := mkLot (bucket l) (threads l ∪ m).

Lemma lookup_more (h m : gmap tid ThreadData) t d : h !! t = Some d -> (h ∪ m) !! t = Some d.
Proof. apply lookup_union_Some_l. Qed.

Lemma set_next_more h m t p h' : set_next h t p = Some h' -> set_next (h ∪ m) t p = Some (h' ∪ m).
Proof.
  unfold set_next. destruct (h !! t) as [d|] eqn:E; [|done]. rewrite (lookup_more _ m _ _ E). cbn [mbind option_bind]. intros [= <-]. by rewrite insert_union_l.
Qed.

Lemma enqueue_more l m t l' : Bucket_enqueue l t = Some l' -> Bucket_enqueue (extend l m) t = Some (extend l' m).
Proof.
  unfold Bucket_enqueue, extend. cbn [threads bucket]. destruct (threads l !! t) as [d|] eqn:E; [|done]. rewrite (lookup_more _ m _ _ E). cbn [mbind option_bind]. destruct (guard (negb _)) as [[]|]; [|done]. cbn [mbind option_bind]. destruct (guard _) as [[]|]; [|done]. cbn [mbind option_bind].
  destruct (queueTail (bucket l)) as [u|]; [|by intros [= <-]]. destruct (set_next (threads l) u (Some t)) as [h|] eqn:Es; [|done]. rewrite (set_next_more _ m _ _ _ Es). cbn [mbind option_bind]. by intros [= <-].
Qed.

Lemma deref_more l m p v : deref_link l p = Some v -> deref_link (extend l m) p = Some v.
Proof. destruct p as [|t]; [done|]. cbn. destruct (threads l !! t) as [d|] eqn:E; [|done]. by rewrite (lookup_more _ m _ _ E). Qed.

Lemma store_more l m p v l' : store_link l p v = Some l' -> store_link (extend l m) p v = Some (extend l' m).
Proof.
  destruct p as [|t]; cbn [store_link]; [by intros [= <-]|]. destruct (set_next (threads l) t v) as [h|] eqn:Es; [|done]. cbn [extend threads]. rewrite (set_next_more _ m _ _ _ Es). cbn [mbind option_bind]. by intros [= <-].
Qed.

Lemma remove_more l m p previous t l' : remove_current l p previous t = Some l' -> remove_current (extend l m) p previous t = Some (extend l' m).
Proof.
  unfold remove_current. cbn [extend bucket]. set (l1 := if bool_decide _ then _ else l). assert ((if bool_decide (Some t = queueTail (bucket l)) then mkLot (set_tail (bucket l) previous) (threads (extend l m)) else extend l m) = extend l1 m) as -> by (unfold l1; by case_bool_decide).
  cbn [extend threads]. destruct (threads l1 !! t) as [d|] eqn:E; [|done]. rewrite (lookup_more _ m _ _ E). cbn [mbind option_bind]. destruct (store_link l1 p (nextInQueue d)) as [l2|] eqn:Es; [|done]. change (mkLot (bucket l1) (threads l1 ∪ m)) with (extend l1 m). rewrite (store_more _ m _ _ _ Es). cbn [mbind option_bind].
  destruct (set_next (threads l2) t None) as [h|] eqn:En; [|done]. cbn [extend threads]. rewrite (set_next_more _ m _ _ _ En). cbn [mbind option_bind]. by intros [= <-].
Qed.

Section dequeue.
Context {S : Type} (functor : S -> tid -> option Z -> bool -> S * DequeueResult).

Lemma dequeue_loop_more fuel l m s fair p previous b l' s' b' :
  dequeue_loop functor fuel l s fair p previous b = Some (l', s', b') -> dequeue_loop functor fuel (extend l m) s fair p previous b = Some (extend l' m, s', b').
Proof.
  revert l s p previous b. induction fuel as [|fuel IH]; intros l s p previous b; cbn [dequeue_loop]; [done|]. destruct (deref_link l p) as [[t|]|] eqn:Ed; [| |done]; rewrite (deref_more _ m _ _ Ed); cbn [mbind option_bind]; [|by intros [= <- <- <-]].
  cbn [extend threads]. destruct (threads l !! t) as [d|] eqn:E; [|done]. rewrite (lookup_more _ m _ _ E). cbn [mbind option_bind]. destruct (functor s t (address d) fair) as [s1 []].
  - apply IH.
  - destruct (remove_current l p previous t) as [l1|] eqn:Er; [|done]. change (mkLot (bucket l) (threads l ∪ m)) with (extend l m). rewrite (remove_more _ m _ _ _ _ Er). cbn [mbind option_bind]. apply IH.
  - destruct (remove_current l p previous t) as [l1|] eqn:Er; [|done]. change (mkLot (bucket l) (threads l ∪ m)) with (extend l m). rewrite (remove_more _ m _ _ _ _ Er). cbn [mbind option_bind]. by intros [= <- <- <-].
Qed.

Lemma genericDequeue_more fuel l m s time random l' s' :
  genericDequeue functor fuel l s time random = Some (l', s') -> genericDequeue functor fuel (extend l m) s time random = Some (extend l' m, s').
Proof.
  unfold genericDequeue. cbn [extend bucket]. destruct (queueHead (bucket l)); [|by intros [= <- <-]]. cbv zeta. destruct (dequeue_loop _ _ l _ _ _ _ _) as [[[l1 s1] b1]|] eqn:Ed; [|done]. change (mkLot (bucket l) (threads l ∪ m)) with (extend l m). rewrite (dequeue_loop_more _ _ m _ _ _ _ _ _ _ _ Ed). cbn [mbind option_bind].
  destruct (_ && _); cbn [extend bucket threads set_fair queueHead queueTail]; (destruct (guard _); [|done]); cbn [mbind option_bind]; by intros [= <- <-].
Qed.

(** What the functor sees is the addresses of the elements. *)
Lemma list_dequeue_ext addr addr' fair s q : (forall t, t ∈ q -> addr t = addr' t) -> list_dequeue functor addr fair s q = list_dequeue functor addr' fair s q.
Proof.
  revert s. induction q as [|t q IH]; intros s Ha; cbn [list_dequeue]; [done|]. rewrite (Ha t) by set_solver. assert (forall s, list_dequeue functor addr fair s q = list_dequeue functor addr' fair s q) as E by (intros; apply IH; set_solver). destruct (functor _ _ _ _) as [s1 []]; by rewrite ?E.
Qed.
End dequeue.

(** ** Disjoint queues *)
Record links (B : gmap bid Bucket) (h : gmap tid ThreadData) (Q : bid -> list tid) : Prop := {
  links_bucket b k : B !! b = Some k -> queueHead k = head (Q b) /\ queueTail k = last (Q b) /\ chain h (Q b) None /\ NoDup (Q b);
  links_none b : B !! b = None -> Q b = [];
  links_unique b c t : t ∈ Q b -> t ∈ Q c -> b = c;
  links_free t d : h !! t = Some d -> (forall b, t ∉ Q b) -> nextInQueue d = None
}.

(** The threads in the queues of other buckets. *)
Definition elsewhere (B : gmap bid Bucket) (Q : bid -> list tid) (b : bid) : gset tid := list_to_set (concat (map Q (elements (dom B ∖ {[b]})))).

Lemma elem_of_concat_map (Q : bid -> list tid) (l : list bid) t : t ∈ concat (map Q l) <-> exists c, c ∈ l /\ t ∈ Q c.
Proof.
  induction l as [|c l IH]; cbn; [split; [intros H; by apply not_elem_of_nil in H|intros (c & H & _); by apply not_elem_of_nil in H]|]. rewrite elem_of_app, IH. split.
  - intros [H|(x & H1 & H2)]; [exists c; split; [by left|done]|exists x; split; [by right|done]].
  - intros (x & [->|H1]%elem_of_cons & H2); [by left|right; by exists x].
Qed.

Lemma elem_of_elsewhere B h Q b t : links B h Q -> t ∈ elsewhere B Q b <-> exists c, c <> b /\ t ∈ Q c.
Proof.
  intros L. unfold elsewhere. rewrite elem_of_list_to_set, elem_of_concat_map. split.
  - intros (c & Hc & Ht). exists c. split; [|done]. apply elem_of_elements in Hc. set_solver.
  - intros (c & Hc & Ht). exists c. split; [|done]. apply elem_of_elements. apply elem_of_difference. split; [|set_solver]. apply elem_of_dom. destruct (B !! c) eqn:E; [by eexists|]. rewrite (links_none _ _ _ L c E) in Ht. by apply not_elem_of_nil in Ht.
Qed.

(** The heap without the threads in other queues. *)
Definition own_heap (B : gmap bid Bucket) (h : gmap tid ThreadData) (Q : bid -> list tid) (b : bid) : gmap tid ThreadData := filter (fun e => fst e ∉ elsewhere B Q b) h.

Lemma own_heap_lookup B h Q b t : links B h Q -> (~ exists c, c <> b /\ t ∈ Q c) -> own_heap B h Q b !! t = h !! t.
Proof.
  intros L Hn. unfold own_heap. destruct (h !! t) as [d|] eqn:E.
  - apply map_lookup_filter_Some. split; [done|]. cbn. by rewrite (elem_of_elsewhere B h Q b t L).
  - apply map_lookup_filter_None. by left.
Qed.

Lemma own_heap_other B h Q b c t : links B h Q -> c <> b -> t ∈ Q c -> own_heap B h Q b !! t = None.
Proof. intros L Hc Ht. unfold own_heap. apply map_lookup_filter_None. right. intros d _ Hn. cbn in Hn. apply Hn. apply (elem_of_elsewhere B h Q b t L). by exists c. Qed.

Lemma own_heap_union B h Q b : own_heap B h Q b ∪ h = h.
Proof. apply map_subseteq_union. apply map_filter_subseteq. Qed.

Lemma chain_agree h h' q e : (forall t, t ∈ q -> h' !! t = h !! t) -> chain h q e -> chain h' q e.
Proof.
  intros Ha. induction q as [|t q IH]; cbn [chain]; [done|]. intros [(d & Hd & Hn) Hc]. split; [|apply IH; [set_solver|done]]. exists d. rewrite Ha by set_solver. done.
Qed.

Lemma own_rep B h Q b k : links B h Q -> B !! b = Some k -> queue_rep (mkLot k (own_heap B h Q b)) (Q b).
Proof.
  intros L Hb. destruct (links_bucket _ _ _ L b k Hb) as (H1 & H2 & H3 & H4). split; cbn [bucket threads]; try done.
  - eapply chain_agree; [|done]. intros t Ht. apply own_heap_lookup; [done|]. intros (c & Hc & Htc). apply Hc. by eapply links_unique.
  - intros t d Hd Ht. unfold own_heap in Hd. apply map_lookup_filter_Some in Hd as [Hd Hn]. cbn in Hn. rewrite (elem_of_elsewhere B h Q b t L) in Hn. apply (links_free _ _ _ L t d Hd). intros c Hc. destruct (decide (c = b)) as [->|Hcb]; [done|]. apply Hn. by exists c.
Qed.

Definition set_queue (Q : bid -> list tid) (b : bid) (q : list tid) : bid -> list tid := fun c => if decide (c = b) then q else Q c.
Lemma set_queue_eq Q b q : set_queue Q b q b = q.
Proof. unfold set_queue. by rewrite decide_True. Qed.
Lemma set_queue_ne Q b c q : c <> b -> set_queue Q b q c = Q c.
Proof. intros. unfold set_queue. by rewrite decide_False. Qed.

(** An operation on a bucket and its own part of the heap is one on the whole. *)
Lemma links_update B h Q b k l q :
  links B h Q -> B !! b = Some k -> queue_rep l q -> dom (threads l) = dom (own_heap B h Q b) -> links (<[b := bucket l]> B) (threads l ∪ h) (set_queue Q b q).
Proof.
  intros L Hb [Hh Ht Hn Hc Hf] Hdom.
  assert (forall c t, c <> b -> t ∈ Q c -> (threads l ∪ h) !! t = h !! t) as Hother. { intros c t Hcb Htc. assert (threads l !! t = None) as E by (apply not_elem_of_dom; rewrite Hdom; apply not_elem_of_dom; by eapply own_heap_other). by rewrite lookup_union_r. }
  assert (forall t, t ∈ q -> exists d, threads l !! t = Some d) as Hin by (intros t Hq; by eapply chain_elem).
  assert (forall t c, t ∈ q -> c <> b -> t ∉ Q c) as Hnot. { intros t c Hq Hcb Htc. destruct (Hin t Hq) as [d Hd]. apply elem_of_dom_2 in Hd. rewrite Hdom in Hd. apply elem_of_dom in Hd as [e He]. by rewrite (own_heap_other B h Q b c t L Hcb Htc) in He. }
  split.
  - intros c k' Hk'. destruct (decide (c = b)) as [->|Hcb].
    + rewrite lookup_insert_eq in Hk'. injection Hk' as <-. rewrite set_queue_eq. split_and!; try done. eapply chain_agree; [|done]. intros t Hq. destruct (Hin t Hq) as [d Hd]. rewrite Hd. by apply lookup_union_Some_l.
    + rewrite lookup_insert_ne in Hk' by done. rewrite set_queue_ne by done. destruct (links_bucket _ _ _ L c k' Hk') as (H1 & H2 & H3 & H4). split_and!; try done. eapply chain_agree; [|done]. intros t Hq. by apply (Hother c).
  - intros c Hnone. destruct (decide (c = b)) as [->|Hcb]; [by rewrite lookup_insert_eq in Hnone|]. rewrite lookup_insert_ne in Hnone by done. rewrite set_queue_ne by done. by apply (links_none _ _ _ L).
  - intros c c' t. destruct (decide (c = b)) as [->|Hcb], (decide (c' = b)) as [->|Hcb']; rewrite ?set_queue_eq, ?set_queue_ne by done; [done| | |apply (links_unique _ _ _ L)]; intros H1 H2; exfalso; [by apply (Hnot t c')|by apply (Hnot t c)].
  - intros t d Hd Hq. apply lookup_union_Some_raw in Hd as [Hd|[Hd1 Hd2]].
    + apply (Hf t d Hd). intros F. apply (Hq b). by rewrite set_queue_eq.
    + apply (links_free _ _ _ L t d Hd2). intros c Hcq. assert (t ∉ dom (own_heap B h Q b)) as F by (rewrite <- Hdom; by apply not_elem_of_dom). destruct (decide (c = b)) as [->|Hcb]; [|apply (Hq c); by rewrite set_queue_ne]. apply F, elem_of_dom. exists d. rewrite own_heap_lookup; [done|done|]. intros (x & Hx & Htx). apply Hx. by eapply links_unique.
Qed.

(** The data of the threads, without the links. *)
Definition same_threads (h h' : gmap tid ThreadData) : Prop := forall t, (fun d => (address d, token d)) <$> (h !! t) = (fun d => (address d, token d)) <$> (h' !! t).
Definition address_in (h : gmap tid ThreadData) (t : tid) : option Z := d ← h !! t; address d.

#[export] Instance same_threads_pre : PreOrder same_threads.
Proof. split; [by intros h t|]. intros a b c H1 H2 t. by rewrite H1, H2. Qed.

Lemma same_threads_dom h h' : same_threads h h' -> dom h' = dom h.
Proof. intros H. apply set_eq. intros t. rewrite !elem_of_dom. specialize (H t). destruct (h !! t), (h' !! t); cbn in H; by (split; intros [? ?]). Qed.
Lemma same_threads_address h h' t : same_threads h h' -> address_in h' t = address_in h t.
Proof. intros H. specialize (H t). unfold address_in. destruct (h !! t), (h' !! t); cbn in *; congruence. Qed.

Lemma same_threads_union B h Q b l : same_threads (own_heap B h Q b) (threads l) -> same_threads h (threads l ∪ h).
Proof.
  intros H t. destruct (threads l !! t) as [d|] eqn:E.
  - rewrite (lookup_union_Some_l _ _ _ _ E). specialize (H t). rewrite E in H. destruct (own_heap B h Q b !! t) as [e|] eqn:Eo; [|done]. unfold own_heap in Eo. apply map_lookup_filter_Some in Eo as [-> _]. done.
  - by rewrite lookup_union_r.
Qed.

Lemma links_enqueue B h Q b k t d :
  links B h Q -> B !! b = Some k -> h !! t = Some d -> address d <> None -> (forall c, t ∉ Q c) ->
  exists l, Bucket_enqueue (mkLot k h) t = Some l /\ links (<[b := bucket l]> B) (threads l) (set_queue Q b (Q b ++ [t])) /\ same_threads h (threads l).
Proof.
  intros L Hb Hd Ha Hn. assert (own_heap B h Q b !! t = Some d) as Ho by (rewrite own_heap_lookup; [done|done|]; intros (c & _ & Hc); by apply (Hn c)).
  destruct (enqueue_spec _ _ t d (own_rep B h Q b k L Hb) Ho Ha (Hn b)) as (l & He & Hr & Hs & _). exists (extend l h). pose proof (enqueue_more _ h _ _ He) as Hm. unfold extend in Hm at 1. cbn [bucket threads] in Hm. rewrite own_heap_union in Hm. split; [done|]. split.
  - cbn [extend bucket threads]; apply (links_update B h Q b k); try done. apply (same_threads_dom _ _ Hs).
  - by apply (same_threads_union B h Q b).
Qed.

Lemma links_dequeue {S} (functor : S -> tid -> option Z -> bool -> S * DequeueResult) B h Q b k fuel s time random :
  links B h Q -> B !! b = Some k -> (length (Q b) < fuel)%nat ->
  exists l, let fair := nextFairTime k <? time in let '(s', kept, removed) := list_dequeue functor (address_in h) fair s (Q b) in
    genericDequeue functor fuel (mkLot k h) s time random = Some (l, s') /\ links (<[b := bucket l]> B) (threads l) (set_queue Q b kept) /\ same_threads h (threads l).
Proof.
  intros L Hb Hf. destruct (genericDequeue_spec functor fuel _ s (Q b) time random (own_rep B h Q b k L Hb) Hf) as (l & Hl). exists (extend l h). cbv zeta in *. cbn [bucket] in Hl.
  assert (list_dequeue functor (address_of (mkLot k (own_heap B h Q b))) (nextFairTime k <? time) s (Q b) = list_dequeue functor (address_in h) (nextFairTime k <? time) s (Q b)) as E.
  { apply list_dequeue_ext. intros t Ht. unfold address_of, address_in. cbn [threads]. rewrite own_heap_lookup; [done|done|]. intros (c & Hc & Htc). apply Hc. by eapply links_unique. }
  rewrite E in Hl. destruct (list_dequeue _ _ _ _ _) as [[s' kept] removed]. destruct Hl as (Hg & Hr & Hs & _). pose proof (genericDequeue_more _ _ _ h _ _ _ _ _ Hg) as Hm. unfold extend in Hm at 1. cbn [bucket threads] in Hm. rewrite own_heap_union in Hm. split; [done|]. split.
  - cbn [extend bucket threads]; apply (links_update B h Q b k); try done. apply (same_threads_dom _ _ Hs).
  - by apply (same_threads_union B h Q b).
Qed.

(** ** The table of buckets and its growth keep the order of the threads at each address *)

(** The bucket to which an address leads. *)
Definition index_of (H : list (option bid)) (a : Z) : nat := Z.to_nat (hashAddress a mod zlen H).
Definition slot_of (H : list (option bid)) (a : Z) : option bid := mjoin (H !! index_of H a).
Definition queue_at (H : list (option bid)) (Q : bid -> list tid) (a : Z) : list tid := match slot_of H a with Some b => Q b | None => [] end.

(** The threads parked at an address, in order. *)
Definition threads_at (q : list (tid * Z)) (a : Z) : list tid := map fst (filter (fun e => snd e = a) q).
Definition only_at (h : gmap tid ThreadData) (a : Z) (l : list tid) : list tid := filter (fun t => address_in h t = Some a) l.

(** The table [H] with the buckets [R] that are not in it, the queues [Q], and the threads [rest] that are in no queue for the
    time being, for the parked threads [q]. *)
Record table_inv (p : parking_lot) (H : list (option bid)) (R : list bid) (Q : bid -> list tid) (rest : list tid) (q : list (tid * Z)) : Prop := {
  ti_links : links (buckets p) (threadDatas p) Q;
  ti_size : 1 <= zlen H;
  ti_buckets b : is_Some (buckets p !! b) <-> Some b ∈ H \/ b ∈ R;
  ti_reusable : NoDup R;
  ti_disjoint b : b ∈ R -> Some b ∉ H;
  ti_inj i j b : H !! i = Some (Some b) -> H !! j = Some (Some b) -> i = j;
  ti_empty b : b ∈ R -> Q b = [];
  ti_home b t : t ∈ Q b -> exists a, address_in (threadDatas p) t = Some a /\ slot_of H a = Some b;
  ti_order a : only_at (threadDatas p) a (queue_at H Q a) ++ only_at (threadDatas p) a rest = threads_at q a;
  ti_address t a : address_in (threadDatas p) t = Some a <-> (t, a) ∈ q;
  ti_nodup : NoDup (map fst q);
  ti_rest : NoDup rest;
  ti_rest_address t : t ∈ rest -> exists a, address_in (threadDatas p) t = Some a;
  ti_rest_free t b : t ∈ rest -> t ∉ Q b
}.

Lemma only_at_app h a l l' : only_at h a (l ++ l') = only_at h a l ++ only_at h a l'.
Proof. apply filter_app. Qed.

Lemma index_bound H a : 1 <= zlen H -> (index_of H a < length H)%nat.
Proof. intros. unfold index_of. pose proof (Z.mod_pos_bound (hashAddress a) (zlen H) ltac:(lia)). unfold zlen in *. lia. Qed.

Lemma index_length H H' a : length H = length H' -> index_of H a = index_of H' a.
Proof. intros E. unfold index_of, zlen. by rewrite E. Qed.

Lemma zget_index (H : list (option bid)) i : (i < length H)%nat -> zget H (Z.of_nat i) = H !! i.
Proof. intros Hi. unfold zget. replace (0 <=? Z.of_nat i) with true by lia. by rewrite Nat2Z.id. Qed.

Lemma zset_index (H : list (option bid)) i x : (i < length H)%nat -> zset H (Z.of_nat i) x = Some (<[i := x]> H).
Proof. intros Hi. unfold zset. replace ((0 <=? Z.of_nat i) && (Z.of_nat i <? Z.of_nat (length H))) with true by lia. by rewrite Nat2Z.id. Qed.

Lemma hash_index (H : list (option bid)) a : 1 <= zlen H -> hashAddress a mod zlen H = Z.of_nat (index_of H a).
Proof. intros. unfold index_of. pose proof (Z.mod_pos_bound (hashAddress a) (zlen H) ltac:(lia)). lia. Qed.

(** ** Filling slots *)
Lemma elem_of_insert_slot (H : list (option bid)) i b c : H !! i = Some None -> Some c ∈ <[i := Some b]> H <-> c = b \/ Some c ∈ H.
Proof.
  intros Hi. pose proof (lookup_lt_Some _ _ _ Hi) as Hl. rewrite !list_elem_of_lookup. split.
  - intros [j Hj]. destruct (decide (j = i)) as [->|Hji]; [rewrite list_lookup_insert_eq in Hj by done; left; congruence|]. rewrite list_lookup_insert_ne in Hj by done. right. by exists j.
  - intros [->|[j Hj]]; [exists i; by apply list_lookup_insert_eq|]. exists j. rewrite list_lookup_insert_ne; [done|]. intros <-. congruence.
Qed.

Lemma slot_insert (H : list (option bid)) i b a : H !! i = Some None -> 1 <= zlen H -> slot_of (<[i := Some b]> H) a = if decide (index_of H a = i) then Some b else slot_of H a.
Proof.
  intros Hi Hs. unfold slot_of. rewrite (index_length (<[i := Some b]> H) H) by apply length_insert. destruct (decide (index_of H a = i)) as [->|Hne]; [by rewrite list_lookup_insert_eq by (by eapply lookup_lt_Some)|]. by rewrite list_lookup_insert_ne.
Qed.

(** The last bucket that is in no slot goes into a free one. *)
Lemma fill_slot_inv p H R b Q rest q i t' : table_inv p H (R ++ [b]) Q rest q -> H !! i = Some None ->
  table_inv (mkParkingLot t' (buckets p) (threadDatas p) (numThreads p)) (<[i := Some b]> H) R Q rest q.
Proof.
  intros T Hi. pose proof (ti_size _ _ _ _ _ _ T) as Hs. pose proof (ti_reusable _ _ _ _ _ _ T) as Hn. apply NoDup_app in Hn as (Hn1 & Hn2 & _). assert (Q b = []) as Hb by (apply (ti_empty _ _ _ _ _ _ T); set_solver). pose proof (ti_disjoint _ _ _ _ _ _ T b ltac:(set_solver)) as Hbh.
  assert (forall a, index_of H a = i -> slot_of H a = None) as Hnone by (intros a E; unfold slot_of; by rewrite E, Hi).
  split; cbn [buckets threadDatas]; try apply T.
  - unfold zlen. rewrite length_insert. exact Hs.
  - intros c. rewrite (ti_buckets _ _ _ _ _ _ T), elem_of_insert_slot, elem_of_app, list_elem_of_singleton by done. tauto.
  - done.
  - intros c Hc. rewrite elem_of_insert_slot by done. intros [->|F]; [by apply (Hn2 b Hc); set_solver|]. apply (ti_disjoint _ _ _ _ _ _ T c); [set_solver|done].
  - assert (forall y c, y <> i -> <[i := Some b]> H !! y = Some (Some c) -> <[i := Some b]> H !! i = Some (Some c) -> False) as Hx.
    { intros y c Hy H1 H2. rewrite list_lookup_insert_ne in H1 by done. rewrite list_lookup_insert_eq in H2 by (by eapply lookup_lt_Some). injection H2 as <-. apply Hbh, list_elem_of_lookup. by exists y. }
    intros x y c H1 H2. destruct (decide (x = i)) as [->|Hxi], (decide (y = i)) as [->|Hyi]; [done|by destruct (Hx y c)|by destruct (Hx x c)|]. rewrite list_lookup_insert_ne in H1, H2 by done. by apply (ti_inj _ _ _ _ _ _ T x y c).
  - intros c Hc. apply (ti_empty _ _ _ _ _ _ T). set_solver.
  - intros c t Ht. destruct (ti_home _ _ _ _ _ _ T c t Ht) as (a & Ha & Hsl). exists a. split; [done|]. rewrite slot_insert by done. rewrite decide_False; [done|]. intros E. rewrite (Hnone a E) in Hsl. done.
  - intros a. rewrite <- (ti_order _ _ _ _ _ _ T a). f_equal. unfold queue_at. rewrite slot_insert by done. destruct (decide (index_of H a = i)) as [E|E]; [|done]. by rewrite (Hnone a E), Hb.
Qed.

Section facts.
Context (alloc : gset bid -> bid) (alloc_fresh : forall X, alloc X ∉ X).

(** A new bucket, in no slot yet. *)
Lemma new_bucket_inv p H R Q rest q : table_inv p H R Q rest q ->
  let '(m, b) := new_Bucket alloc (buckets p) in table_inv (mkParkingLot (hashtable p) m (threadDatas p) (numThreads p)) H (R ++ [b]) Q rest q.
Proof.
  intros T. unfold new_Bucket. set (b := alloc (dom (buckets p))). assert (buckets p !! b = None) as Hb by (apply not_elem_of_dom, alloc_fresh). pose proof (ti_links _ _ _ _ _ _ T) as L. pose proof (links_none _ _ _ L b Hb) as Hq.
  assert (Some b ∉ H /\ b ∉ R) as [Hn1 Hn2]. { split; intros F; (assert (is_Some (buckets p !! b)) as [k Hk] by (apply (ti_buckets _ _ _ _ _ _ T); auto)); congruence. }
  split; cbn [buckets threadDatas]; try apply T.
  - split.
    + intros c k Hc. destruct (decide (c = b)) as [->|Hcb]; [|rewrite lookup_insert_ne in Hc by done; by apply (links_bucket _ _ _ L)]. rewrite lookup_insert_eq in Hc. injection Hc as <-. rewrite Hq. split_and!; try done. constructor.
    + intros c Hc. destruct (decide (c = b)) as [->|Hcb]; [done|]. rewrite lookup_insert_ne in Hc by done. by apply (links_none _ _ _ L).
    + apply (links_unique _ _ _ L).
    + apply (links_free _ _ _ L).
  - intros c. rewrite elem_of_app, list_elem_of_singleton. destruct (decide (c = b)) as [->|Hcb]; [rewrite lookup_insert_eq; split; [auto|by eexists]|]. rewrite lookup_insert_ne, (ti_buckets _ _ _ _ _ _ T) by done. tauto.
  - apply NoDup_app. split; [apply T|]. split; [intros x Hx ->%list_elem_of_singleton; done|apply NoDup_singleton].
  - intros c [Hc|Hc]%elem_of_app; [by apply (ti_disjoint _ _ _ _ _ _ T)|]. apply list_elem_of_singleton in Hc as ->. done.
  - intros c [Hc|Hc]%elem_of_app; [by apply (ti_empty _ _ _ _ _ _ T)|]. apply list_elem_of_singleton in Hc as ->. done.
Qed.

Lemma ensure_bucket_inv p H R Q rest q i : table_inv p H R Q rest q -> (i < length H)%nat -> hashtable p = Some H ->
  exists p' H' b, ensure_bucket alloc p H (Z.of_nat i) = Some (p', H', b) /\ table_inv p' H' R Q rest q /\ hashtable p' = Some H' /\ threadDatas p' = threadDatas p /\ numThreads p' = numThreads p /\
    length H' = length H /\ H' !! i = Some (Some b) /\ forall j, j <> i -> H' !! j = H !! j.
Proof.
  intros T Hi Ht. unfold ensure_bucket. rewrite zget_index by done. destruct (lookup_lt_is_Some_2 H i Hi) as [[b|] E]; rewrite E; cbn [mbind option_bind].
  - exists p, H, b. done.
  - pose proof (new_bucket_inv p H R Q rest q T) as N. destruct (new_Bucket alloc (buckets p)) as [m b]. rewrite zset_index by done. cbn [mbind option_bind]. eexists _, _, _. split; [done|]. split; [by apply (fill_slot_inv _ H R b Q rest q i (Some (<[i := Some b]> H)) N)|]. split; [done|]. split; [done|]. split; [done|].
    split; [apply length_insert|]. split; [by apply list_lookup_insert_eq|]. intros j Hj. by apply list_lookup_insert_ne.
Qed.

(** All slots are filled, and the buckets listed. *)
Lemma ensure_buckets_inv n p H R Q rest q bs : table_inv p H R Q rest q -> (n <= length H)%nat -> hashtable p = Some H ->
  (forall i, (n <= i < length H)%nat -> exists b, H !! i = Some (Some b)) -> NoDup bs -> (forall b, b ∈ bs <-> exists i, (n <= i)%nat /\ H !! i = Some (Some b)) -> (length bs + n = length H)%nat ->
  exists p' H' bs', ensure_buckets alloc n p H bs = Some (p', H', bs') /\ table_inv p' H' R Q rest q /\ hashtable p' = Some H' /\ threadDatas p' = threadDatas p /\ numThreads p' = numThreads p /\
    length H' = length H /\ NoDup bs' /\ (forall b, b ∈ bs' <-> Some b ∈ H') /\ length bs' = length H.
Proof.
  revert p H bs. induction n as [|n IH]; intros p H bs T Hn Ht Hf Hnd Hbs Hlen; cbn [ensure_buckets].
  { exists p, H, bs. split_and!; try done; [|lia]. intros b. rewrite Hbs, list_elem_of_lookup. split; [intros (i & _ & Hi); by exists i|intros [i Hi]; exists i; split; [lia|done]]. }
  destruct (ensure_bucket_inv p H R Q rest q n T ltac:(lia) Ht) as (p1 & H1 & b & -> & T1 & E1 & E2 & E3 & E4 & E5 & E6). cbn [mbind option_bind].
  destruct (IH p1 H1 (bs ++ [b]) T1 ltac:(lia) E1) as (p' & H' & bs' & H2 & H3 & H4 & H5 & H6 & H7 & H8 & H9 & H10).
  - intros i Hi. destruct (decide (i = n)) as [->|Hin]; [by exists b|]. rewrite E6 by done. apply Hf. lia.
  - apply NoDup_app. split; [done|]. split; [|apply NoDup_singleton]. intros x (i & Hi & Hx)%Hbs ->%list_elem_of_singleton. assert (i = n) as -> by (apply (ti_inj _ _ _ _ _ _ T1 i n b); [rewrite E6 by lia; done|done]). lia.
  - intros x. rewrite elem_of_app, list_elem_of_singleton, Hbs. split.
    + intros [(i & Hi & Hx)| ->]; [exists i; split; [lia|]; rewrite E6 by lia; done|exists n; split; [lia|done]].
    + intros (i & Hi & Hx). destruct (decide (i = n)) as [->|Hin]; [right; congruence|]. left. exists i. rewrite E6 in Hx by done. split; [lia|done].
  - rewrite length_app. cbn. lia.
  - exists p', H', bs'. split_and!; try done; congruence.
Qed.
End facts.

(** ** Taking all threads out *)
Lemma links_ext B h Q Q' : (forall b, Q b = Q' b) -> links B h Q -> links B h Q'.
Proof.
  intros E [H1 H2 H3 H4]. split.
  - intros b k Hb. rewrite <- E. by apply H1.
  - intros b Hb. rewrite <- E. by apply H2.
  - intros b c t. rewrite <- !E. apply H3.
  - intros t d Hd Hq. apply (H4 t d Hd). intros b. rewrite E. apply Hq.
Qed.

(** What an action on a bucket changes besides the queue. *)
Definition same_lot (p p' : parking_lot) : Prop :=
  hashtable p' = hashtable p /\ numThreads p' = numThreads p /\ same_threads (threadDatas p) (threadDatas p') /\ forall b, is_Some (buckets p' !! b) <-> is_Some (buckets p !! b).

Lemma same_lot_trans p1 p2 p3 : same_lot p1 p2 -> same_lot p2 p3 -> same_lot p1 p3.
Proof. intros (H1 & H2 & H3 & H4) (G1 & G2 & G3 & G4). split; [congruence|]. split; [congruence|]. split; [by etransitivity|]. intros b. by rewrite G4. Qed.

Lemma dequeue_first addr fair s q : list_dequeue dequeue_functor addr fair s q = match q with [] => (s, [], []) | t :: q => (Some t, q, [t]) end.
Proof. by destruct q. Qed.

Lemma drain_links fuel time random p b Q ts : links (buckets p) (threadDatas p) Q -> is_Some (buckets p !! b) -> (length (Q b) < fuel)%nat ->
  exists p', drain fuel time random p b ts = Some (p', ts ++ Q b) /\ links (buckets p') (threadDatas p') (set_queue Q b []) /\ same_lot p p'.
Proof.
  revert p Q ts. induction fuel as [|fuel IH]; intros p Q ts L [k Hk] Hf; [lia|]. cbn [drain]. unfold on_bucket. rewrite Hk. cbn [mbind option_bind]. unfold Bucket_dequeue.
  destruct (links_dequeue dequeue_functor _ _ Q b k (S fuel) None time random L Hk Hf) as (l & Hl). cbv zeta in Hl. rewrite dequeue_first in Hl.
  assert (same_threads (threadDatas p) (threads l) -> same_lot p (mkParkingLot (hashtable p) (<[b := bucket l]> (buckets p)) (threads l) (numThreads p))) as Hsame.
  { intros Hs. split_and!; try done. intros c. cbn. destruct (decide (c = b)) as [->|Hcb]; [rewrite lookup_insert_eq, Hk; split; by eexists|by rewrite lookup_insert_ne]. }
  destruct (Q b) as [|t q] eqn:Eq.
  - destruct Hl as (-> & HL & Hs). cbn [mbind option_bind]. eexists. rewrite app_nil_r. split; [done|]. split; [done|]. by apply Hsame.
  - destruct Hl as (-> & HL & Hs). cbn [mbind option_bind length] in *. destruct (IH (mkParkingLot (hashtable p) (<[b := bucket l]> (buckets p)) (threads l) (numThreads p)) (set_queue Q b q) (ts ++ [t])) as (p' & H1 & H2 & H3); cbn [buckets threadDatas]; [done|rewrite lookup_insert_eq; by eexists|rewrite set_queue_eq; lia|].
    exists p'. rewrite set_queue_eq, <- app_assoc in H1. split; [done|]. split; [|by eapply same_lot_trans; [apply Hsame|]]. eapply links_ext; [|done]. intros c. unfold set_queue. by destruct (decide (c = b)).
Qed.

Lemma only_at_same h h' a l : same_threads h h' -> only_at h' a l = only_at h a l.
Proof. intros Hs. unfold only_at. apply list_filter_iff. intros t. by rewrite (same_threads_address h h' t Hs). Qed.

(** The threads in [rest] come from buckets that are empty by now. *)
Definition drained (p : parking_lot) (H : list (option bid)) (Q : bid -> list tid) (rest : list tid) : Prop :=
  forall t a c, t ∈ rest -> address_in (threadDatas p) t = Some a -> slot_of H a = Some c -> Q c = [].

Lemma only_at_nil h a l : (forall t, t ∈ l -> address_in h t <> Some a) -> only_at h a l = [].
Proof. intros Hn. unfold only_at. destruct (filter _ l) as [|t l'] eqn:E; [done|]. assert (t ∈ filter (fun t => address_in h t = Some a) l) as F by (rewrite E; by left). apply list_elem_of_filter in F as [F1 F2]. by apply Hn in F2. Qed.

Lemma drain_inv fuel time random p H R Q rest q b : table_inv p H R Q rest q -> drained p H Q rest -> Some b ∈ H -> (length (Q b) < fuel)%nat ->
  exists p', drain fuel time random p b rest = Some (p', rest ++ Q b) /\ table_inv p' H R (set_queue Q b []) (rest ++ Q b) q /\ drained p' H (set_queue Q b []) (rest ++ Q b) /\ same_lot p p'.
Proof.
  intros T Dr Hb Hf. pose proof (ti_links _ _ _ _ _ _ T) as L. assert (is_Some (buckets p !! b)) as Hbs by (apply (ti_buckets _ _ _ _ _ _ T); auto). destruct (drain_links fuel time random p b Q rest L Hbs Hf) as (p' & H1 & H2 & H3). exists p'. split; [done|]. pose proof H3 as (E1 & E2 & E3 & E4).
  assert (forall c t, t ∈ set_queue Q b [] c -> t ∈ Q c /\ c <> b) as Hsub. { intros c t. unfold set_queue. destruct (decide (c = b)); [intros F; by apply not_elem_of_nil in F|done]. }
  assert (forall t, address_in (threadDatas p') t = address_in (threadDatas p) t) as Ha by (intros; by apply same_threads_address).
  assert (forall c, Q c = [] -> set_queue Q b [] c = []) as Hnil by (intros c Hc; unfold set_queue; by destruct (decide (c = b))).
  destruct Hbs as [k Hk]. destruct (links_bucket _ _ _ L b k Hk) as (_ & _ & _ & Hnd).
  split; [|split; [|done]].
  - split; try apply T; try done.
    + intros c. rewrite E4. apply T.
    + intros c Hc. apply Hnil, (ti_empty _ _ _ _ _ _ T c Hc).
    + intros c t [Ht _]%Hsub. destruct (ti_home _ _ _ _ _ _ T c t Ht) as (a & F1 & F2). exists a. by rewrite Ha.
    + intros a. rewrite !only_at_app, !(only_at_same _ _ _ _ E3). rewrite <- (ti_order _ _ _ _ _ _ T a). unfold queue_at. destruct (slot_of H a) as [c|] eqn:Es.
      * destruct (decide (c = b)) as [->|Hcb].
        -- rewrite set_queue_eq. cbn [app]. change (only_at (threadDatas p) a []) with (@nil tid). cbn [app]. destruct (Q b) as [|x qb] eqn:Eq; [cbn; by rewrite app_nil_r|]. rewrite (only_at_nil _ a rest); [by rewrite app_nil_r|]. intros t Ht Hta. pose proof (Dr t a b Ht Hta Es). congruence.
        -- rewrite set_queue_ne by done. rewrite (only_at_nil _ a (Q b)); [by rewrite app_nil_r|]. intros t Ht Hta. destruct (ti_home _ _ _ _ _ _ T b t Ht) as (a' & F1 & F2). congruence.
      * rewrite (only_at_nil _ a (Q b)); [by rewrite app_nil_r|]. intros t Ht Hta. destruct (ti_home _ _ _ _ _ _ T b t Ht) as (a' & F1 & F2). congruence.
    + intros t a. rewrite Ha. apply T.
    + apply NoDup_app. split; [apply T|]. split; [|done]. intros t Ht. by apply (ti_rest_free _ _ _ _ _ _ T).
    + intros t [Ht|Ht]%elem_of_app; rewrite Ha; [by apply (ti_rest_address _ _ _ _ _ _ T)|]. destruct (ti_home _ _ _ _ _ _ T b t Ht) as (a & F1 & _). by exists a.
    + intros t c [Ht|Ht]%elem_of_app [F Hcb]%Hsub; [by apply (ti_rest_free _ _ _ _ _ _ T t c Ht)|]. by apply Hcb, (links_unique _ _ _ L c b t).
  - intros t a c [Ht|Ht]%elem_of_app Hta Hsl; rewrite Ha in Hta; [by apply Hnil, (Dr t a c)|]. destruct (ti_home _ _ _ _ _ _ T b t Ht) as (a' & F1 & F2). assert (c = b) as -> by congruence. apply set_queue_eq.
Qed.

Lemma queue_total p H R Q rest q b fuel : table_inv p H R Q rest q -> (length q < fuel)%nat -> (length (Q b) < fuel)%nat.
Proof.
  intros T Hf. destruct (buckets p !! b) as [k|] eqn:Ek; [|rewrite (links_none _ _ _ (ti_links _ _ _ _ _ _ T) b Ek); cbn; lia]. destruct (links_bucket _ _ _ (ti_links _ _ _ _ _ _ T) b k Ek) as (_ & _ & _ & Hnd). assert (length (Q b) <= length (map fst q))%nat as F; [|rewrite length_map in F; lia].
  apply submseteq_length, NoDup_submseteq; [done|]. intros t Ht. destruct (ti_home _ _ _ _ _ _ T b t Ht) as (a & F1 & _). apply elem_of_map_fst. exists a. by apply (ti_address _ _ _ _ _ _ T).
Qed.

Lemma drain_all_inv fuel time random bs p H R Q rest q : table_inv p H R Q rest q -> drained p H Q rest -> (forall b, b ∈ bs -> Some b ∈ H) -> (length q < fuel)%nat ->
  exists p' Q' rest', drain_all fuel time random p bs rest = Some (p', rest') /\ table_inv p' H R Q' rest' q /\ same_lot p p' /\ (forall b, b ∈ bs -> Q' b = []) /\ (forall b, Q b = [] -> Q' b = []).
Proof.
  revert p Q rest. induction bs as [|b bs IH]; intros p Q rest T Dr Hbs Hf; cbn [drain_all].
  { exists p, Q, rest. split; [done|]. split; [done|]. split; [split_and!; done|]. split; [intros b Hb; by apply not_elem_of_nil in Hb|done]. }
  destruct (drain_inv fuel time random p H R Q rest q b T Dr (Hbs b ltac:(set_solver)) (queue_total _ _ _ _ _ _ b fuel T Hf)) as (p1 & -> & T1 & D1 & S1). cbn [mbind option_bind].
  destruct (IH p1 _ _ T1 D1 ltac:(set_solver) Hf) as (p' & Q' & rest' & H1 & H2 & H3 & H4 & H5). exists p', Q', rest'. split; [done|]. split; [done|]. split; [by eapply same_lot_trans|]. split.
  - intros c [->|Hc]%elem_of_cons; [apply H5, set_queue_eq|by apply H4].
  - intros c Hc. apply H5. unfold set_queue. by destruct (decide (c = b)).
Qed.

(** ** Filling the new table *)
Section filling.
Context (alloc : gset bid -> bid) (alloc_fresh : forall X, alloc X ∉ X).
(** The slots with a bucket. *)
Definition filled (H : list (option bid)) : nat := length (filter (fun x => x <> None) H).

Lemma filled_insert H i b : H !! i = Some None -> filled (<[i := Some b]> H) = S (filled H).
Proof.
  intros Hi. unfold filled. rewrite insert_take_drop by (by eapply lookup_lt_Some). rewrite <- (take_drop_middle H i None Hi) at 3. rewrite !filter_app, filter_cons_True, filter_cons_False, !length_app by (done || tauto). cbn. lia.
Qed.

Lemma filled_replicate n : filled (replicate n None) = 0%nat.
Proof. unfold filled. induction n as [|n IH]; [done|]. cbn [replicate]. by rewrite filter_cons_False by tauto. Qed.

Lemma filled_bound H : (filled H <= length H)%nat.
Proof. apply length_filter. Qed.

(** As long as buckets are left, all that are in the table were taken from them. *)
Definition account (H : list (option bid)) (R : list bid) (n : nat) : Prop := R = [] \/ (filled H + length R = n)%nat.

Lemma removelast_snoc {A} (l : list A) x : removelast (l ++ [x]) = l.
Proof. apply removelast_last. Qed.

Lemma refill_bucket_inv p H R Q rest q a n : table_inv p H R Q rest q -> account H R n ->
  exists p' H' R' b, refill_bucket alloc p H R (hashAddress a mod zlen H) = Some (p', H', R', b) /\ table_inv p' H' R' Q rest q /\ account H' R' n /\ slot_of H' a = Some b /\
    hashtable p' = hashtable p /\ threadDatas p' = threadDatas p /\ numThreads p' = numThreads p /\ length H' = length H.
Proof.
  intros T Ac. pose proof (ti_size _ _ _ _ _ _ T) as Hs. unfold refill_bucket. rewrite hash_index by done. pose proof (index_bound H a Hs) as Hi. rewrite zget_index by done. destruct (lookup_lt_is_Some_2 H (index_of H a) Hi) as [[b|] E]; rewrite E; cbn [mbind option_bind].
  - exists p, H, R, b. split_and!; try done. unfold slot_of. by rewrite E.
  - unfold take_bucket. destruct (last R) as [b|] eqn:El.
    + apply last_Some in El as [R1 ->]. rewrite zset_index by done. cbn [mbind option_bind]. eexists _, _, _, b. split; [done|]. rewrite removelast_snoc. split; [by apply (fill_slot_inv p H R1 b Q rest q _ (hashtable p))|]. split; [|split; [rewrite slot_insert by done; by rewrite decide_True|split_and!; try done; apply length_insert]].
      destruct Ac as [F|F]; [by destruct R1|]. right. rewrite filled_insert by done. rewrite length_app in F. cbn in F. lia.
    + apply last_None in El as ->. pose proof (new_bucket_inv alloc alloc_fresh p H [] Q rest q T) as N. destruct (new_Bucket alloc (buckets p)) as [m b]. rewrite zset_index by done. cbn [mbind option_bind]. eexists _, _, _, b. split; [done|]. split; [by apply (fill_slot_inv _ H [] b Q rest q _ (hashtable p) N)|]. split; [by left|]. split; [rewrite slot_insert by done; by rewrite decide_True|]. split_and!; try done. apply length_insert.
Qed.

Lemma mbind_Some {A B} (x : option A) v (f : A -> option B) : x = Some v -> (x ≫= f) = f v.
Proof. by intros ->. Qed.

Lemma refill_one_eq p H R t d a p1 H1 R1 b p2 : threadDatas p !! t = Some d -> address d = Some a ->
  refill_bucket alloc p H R (hashAddress a mod zlen H) = Some (p1, H1, R1, b) -> on_bucket p1 b (enqueue_at t) = Some (p2, ()) -> refill_one alloc p H R t = Some (p2, H1, R1).
Proof. intros E1 E2 E3 E4. unfold refill_one. rewrite (mbind_Some _ _ _ E1), (mbind_Some _ _ _ E2), (mbind_Some _ _ _ E3). by rewrite (mbind_Some _ _ _ E4). Qed.

Lemma refill_one_inv p H R Q t rest q n : table_inv p H R Q (t :: rest) q -> account H R n ->
  exists p' H' R' Q', refill_one alloc p H R t = Some (p', H', R') /\ table_inv p' H' R' Q' rest q /\ account H' R' n /\ length H' = length H /\ hashtable p' = hashtable p /\ numThreads p' = numThreads p /\ same_threads (threadDatas p) (threadDatas p').
Proof.
  intros T Ac. destruct (ti_rest_address _ _ _ _ _ _ T t ltac:(set_solver)) as [a Ha]. pose proof Ha as Ha'. unfold address_in in Ha'. destruct (threadDatas p !! t) as [d|] eqn:Ed; [|done]. cbn [mbind option_bind] in Ha'.
  destruct (refill_bucket_inv p H R Q (t :: rest) q a n T Ac) as (p1 & H1 & R1 & b & Hrb & T1 & Ac1 & Hsl & E1 & E2 & E3 & E4). pose proof Ed as Ed'. rewrite <- E2 in Ed, Ha. assert (Some b ∈ H1) as Hbh. { unfold slot_of in Hsl. destruct (H1 !! index_of H1 a) as [x|] eqn:F; [|done]. cbn in Hsl. subst x. by eapply list_elem_of_lookup_2. }
  assert (is_Some (buckets p1 !! b)) as [k Hk] by (apply (ti_buckets _ _ _ _ _ _ T1); auto). pose proof (ti_links _ _ _ _ _ _ T1) as L1.
  destruct (links_enqueue _ _ Q b k t d L1 Hk Ed ltac:(by rewrite Ha')) as (l & Hen & HL & Hs); [intros c; apply (ti_rest_free _ _ _ _ _ _ T1); set_solver|]. set (p2 := mkParkingLot (hashtable p1) (<[b := bucket l]> (buckets p1)) (threads l) (numThreads p1)).
  assert (on_bucket p1 b (enqueue_at t) = Some (p2, ())) as Hob by (unfold on_bucket, enqueue_at; rewrite Hk; cbn [mbind option_bind]; by rewrite Hen). exists p2, H1, R1, (set_queue Q b (Q b ++ [t])). split; [by eapply refill_one_eq|]. split; [|split_and!; try done; unfold p2; cbn; by rewrite <- E2].
  assert (forall u, address_in (threads l) u = address_in (threadDatas p1) u) as Hadd by (intros; by apply same_threads_address). pose proof (ti_rest _ _ _ _ _ _ T1) as Hnd. apply NoDup_cons in Hnd as [Hnd1 Hnd2].
  assert (forall c u, u ∈ set_queue Q b (Q b ++ [t]) c <-> u ∈ Q c \/ (c = b /\ u = t)) as Hmem. { intros c u. unfold set_queue. destruct (decide (c = b)) as [->|]; [rewrite elem_of_app, list_elem_of_singleton; tauto|tauto]. }
  split; unfold p2; cbn [buckets threadDatas]; try apply T1; try done.
  - intros c. rewrite <- (ti_buckets _ _ _ _ _ _ T1). destruct (decide (c = b)) as [->|Hcb]; [rewrite lookup_insert_eq, Hk; split; by eexists|by rewrite lookup_insert_ne].
  - intros c Hc. unfold set_queue. rewrite decide_False; [by apply (ti_empty _ _ _ _ _ _ T1)|]. intros ->. by apply (ti_disjoint _ _ _ _ _ _ T1 b).
  - intros c u [Hu|[-> ->]]%Hmem; rewrite Hadd; [by apply (ti_home _ _ _ _ _ _ T1)|]. by exists a.
  - intros a'. rewrite !(only_at_same _ _ _ _ Hs), <- (ti_order _ _ _ _ _ _ T1 a'). unfold queue_at. destruct (decide (a' = a)) as [->|Haa].
    + rewrite Hsl, set_queue_eq, only_at_app, <- app_assoc. f_equal. unfold only_at. rewrite !filter_cons_True by done. done.
    + assert (only_at (threadDatas p1) a' (t :: rest) = only_at (threadDatas p1) a' rest) as -> by (unfold only_at; rewrite filter_cons_False; [done|congruence]). destruct (slot_of H1 a') as [c|] eqn:Ec; [|done]. destruct (decide (c = b)) as [->|Hcb]; [|by rewrite set_queue_ne]. rewrite set_queue_eq, only_at_app. f_equal. rewrite (only_at_nil _ a' [t]); [by rewrite app_nil_r|]. intros u ->%list_elem_of_singleton. congruence.
  - intros u a'. rewrite Hadd. apply T1.
  - intros u Hu. rewrite Hadd. apply (ti_rest_address _ _ _ _ _ _ T1). set_solver.
  - intros u c Hu [F|[-> ->]]%Hmem; [|done]. by apply (ti_rest_free _ _ _ _ _ _ T1 u c ltac:(set_solver)).
Qed.

Lemma refill_inv rest p H R Q q n : table_inv p H R Q rest q -> account H R n ->
  exists p' H' R' Q', refill alloc p H R rest = Some (p', H', R') /\ table_inv p' H' R' Q' [] q /\ account H' R' n /\ length H' = length H /\ numThreads p' = numThreads p /\ same_threads (threadDatas p) (threadDatas p').
Proof.
  revert p H R Q. induction rest as [|t rest IH]; intros p H R Q T Ac; cbn [refill]; [exists p, H, R, Q; split_and!; done|].
  destruct (refill_one_inv p H R Q t rest q n T Ac) as (p1 & H1 & R1 & Q1 & -> & T1 & Ac1 & E1 & _ & E2 & E3). destruct (IH p1 H1 R1 Q1 T1 Ac1) as (p' & H' & R' & Q' & F1 & F2 & F3 & F4 & F5 & F6). exists p', H', R', Q'. split_and!; try done; [congruence|congruence|by etransitivity].
Qed.

(** There is room for the buckets that are left. *)
Lemma place_rest_inv n i p H R Q q : table_inv p H R Q [] q -> (i + n = length H)%nat -> (length R + filled (drop i H) <= n)%nat ->
  exists H', place_rest n (Z.of_nat i) H R = Some (H', []) /\ table_inv p H' [] Q [] q /\ length H' = length H.
Proof.
  revert i H R. induction n as [|n IH]; intros i H R T Hlen Hc; cbn [place_rest].
  { destruct R as [|r R]; [|cbn in Hc; lia]. by exists H. }
  destruct (last R) as [b|] eqn:El; [|apply last_None in El as ->; by exists H]. apply last_Some in El as [R1 ->]. rewrite zget_index by lia. destruct (lookup_lt_is_Some_2 H i ltac:(lia)) as [x E]. rewrite E. cbn [mbind option_bind]. rewrite (drop_S _ _ _ E) in Hc. rewrite length_app in Hc. cbn [length] in Hc. replace (Z.of_nat i + 1) with (Z.of_nat (S i)) by lia. destruct x as [c|].
  - unfold filled in Hc. rewrite filter_cons_True in Hc by done. cbn [length] in Hc. apply IH; [done|lia|rewrite length_app; cbn; unfold filled; lia].
  - unfold filled in Hc. rewrite filter_cons_False in Hc by tauto. rewrite zset_index by lia. cbn [mbind option_bind]. rewrite removelast_snoc. destruct (IH (S i) (<[i := Some b]> H) R1) as (H' & F1 & F2 & F3).
    + pose proof (fill_slot_inv p H R1 b Q [] q i (hashtable p) T E) as F. by destruct p.
    + rewrite length_insert. lia.
    + rewrite drop_insert_lt by lia. unfold filled. lia.
    + exists H'. split; [done|]. split; [done|]. rewrite F3. apply length_insert.
Qed.
End filling.

(** ** The parking lot is a queue of threads for each address, also while its table grows *)

(** The parked threads are [q]. *)
Definition lot_ok (p : parking_lot) (q : list (tid * Z)) : Prop :=
  match hashtable p with
  | Some H => exists Q, table_inv p H [] Q [] q
  | None => buckets p = ∅ /\ q = [] /\ forall t d, threadDatas p !! t = Some d -> nextInQueue d = None /\ address d = None
  end.

(** A table without buckets. *)
Lemma fresh_table_inv p n R Q rest q :
  links (buckets p) (threadDatas p) Q -> (forall b, Q b = []) -> 1 <= n -> (forall b, is_Some (buckets p !! b) <-> b ∈ R) -> NoDup R -> (forall a, only_at (threadDatas p) a rest = threads_at q a) ->
  (forall t a, address_in (threadDatas p) t = Some a <-> (t, a) ∈ q) -> NoDup (map fst q) -> NoDup rest -> (forall t, t ∈ rest -> exists a, address_in (threadDatas p) t = Some a) ->
  table_inv p (replicate (Z.to_nat n) None) R Q rest q.
Proof.
  intros L HQ Hn HR HRn Ho Ha Hq Hr Hra. assert (forall b, Some b ∉ replicate (Z.to_nat n) (@None bid)) as Hno by (intros b F; by apply elem_of_replicate in F as [F _]).
  split; try done.
  - unfold zlen. rewrite length_replicate. lia.
  - intros b. rewrite HR. specialize (Hno b). tauto.
  - intros i j b Hi. apply list_elem_of_lookup_2 in Hi. by apply Hno in Hi.
  - intros b t Ht. rewrite HQ in Ht. by apply not_elem_of_nil in Ht.
  - intros a. rewrite <- Ho. unfold queue_at, slot_of. assert (mjoin (replicate (Z.to_nat n) None !! index_of (replicate (Z.to_nat n) None) a) = @None bid) as ->; [|done]. destruct (_ !! _) as [x|] eqn:E; [|done]. apply lookup_replicate in E as [-> _]. done.
  - intros t b _. rewrite HQ. apply not_elem_of_nil.
Qed.

Section props.
Context (alloc : gset bid -> bid) (alloc_fresh : forall X, alloc X ∉ X).

Lemma ensureHashtable_ok p q : lot_ok p q ->
  exists p' H Q, ensureHashtable p = Some (p', H) /\ hashtable p' = Some H /\ table_inv p' H [] Q [] q /\ threadDatas p' = threadDatas p /\ numThreads p' = numThreads p /\ (forall H0, hashtable p = Some H0 -> H = H0).
Proof.
  intros K. unfold ensureHashtable, lot_ok in *. destruct (hashtable p) as [H|] eqn:E.
  - destruct K as [Q T]. exists p, H, Q. split_and!; try done. by intros H0 [= ->].
  - destruct K as (Hb & -> & Hd). eexists _, _, (fun _ => []). split; [done|]. split; [done|]. split; [|split_and!; done]. apply (fresh_table_inv _ 3); cbn [with_table buckets threadDatas]; try done.
    + split.
      * intros b k. by rewrite Hb, lookup_empty.
      * done.
      * intros b c t F. by apply not_elem_of_nil in F.
      * intros t d Ht _. by apply (Hd t d).
    + intros b. rewrite Hb, lookup_empty. split; [by intros []|intros F; by apply not_elem_of_nil in F].
    + constructor.
    + intros t a. unfold address_in. split; [|intros F; by apply not_elem_of_nil in F]. destruct (threadDatas p !! t) as [d|] eqn:Ed; [|done]. cbn. destruct (Hd t d Ed) as [_ ->]. done.
    + constructor.
    + constructor.
    + intros t F. by apply not_elem_of_nil in F.
Qed.

Lemma lockHashtable_ok p q : lot_ok p q ->
  exists p' H Q bs, lockHashtable alloc p = Some (p', H, bs) /\ hashtable p' = Some H /\ table_inv p' H [] Q [] q /\ threadDatas p' = threadDatas p /\ numThreads p' = numThreads p /\
    NoDup bs /\ (forall b, b ∈ bs <-> Some b ∈ H) /\ length bs = length H.
Proof.
  intros K. destruct (ensureHashtable_ok p q K) as (p1 & H1 & Q & E1 & Ht & T & E2 & E3 & _). unfold lockHashtable. rewrite (mbind_Some _ _ _ E1).
  destruct (ensure_buckets_inv alloc alloc_fresh (length H1) p1 H1 [] Q [] q [] T ltac:(lia) Ht) as (p' & H' & bs & F1 & F2 & F3 & F4 & F5 & F6 & F7 & F8 & F9); [lia|constructor| |done|].
  - intros b. split; [intros F; by apply not_elem_of_nil in F|]. intros (i & Hi & F). apply lookup_lt_Some in F. lia.
  - rewrite (mbind_Some _ _ _ F1). exists p', H', Q, (merge_sort Pos.le bs). pose proof (merge_sort_Permutation Pos.le bs) as P. split; [done|]. split_and!; try done; try congruence.
    + by rewrite P.
    + intros b. by rewrite P.
    + rewrite P. congruence.
Qed.

Lemma grown_size n : 1 <= n -> 6 * n < 2 ^ 32 -> u32 (u32 (n * growthFactor) * maxLoadFactor) = 6 * n.
Proof. intros. unfold growthFactor, maxLoadFactor. rewrite (u32_small (n * 2)), u32_small by lia. lia. Qed.

(** The table has room for the threads afterwards, and they are parked as before. *)
Lemma ensureHashtableSize_ok fuel p q n time random : lot_ok p q -> 1 <= n -> 6 * n < 2 ^ 32 -> (length q < fuel)%nat ->
  exists p', ensureHashtableSize alloc fuel p n time random = Some p' /\ lot_ok p' q /\ numThreads p' = numThreads p /\ same_threads (threadDatas p) (threadDatas p') /\ exists H, hashtable p' = Some H /\ 3 * n <= zlen H.
Proof.
  intros K Hn Hmax Hf. unfold ensureHashtableSize. destruct (match hashtable p with Some h => large_enough (zlen h) n | None => false end) eqn:Elarge.
  { exists p. split; [done|]. split; [done|]. split; [done|]. split; [done|]. destruct (hashtable p) as [H|]; [|done]. exists H. split; [done|]. unfold large_enough, maxLoadFactor in Elarge. bool_prop. lia. }
  destruct (lockHashtable_ok p q K) as (p1 & H & Q & bs & E1 & Ht & T & E2 & E3 & B1 & B2 & B3). rewrite (mbind_Some _ _ _ E1). cbv beta iota. destruct (large_enough (zlen H) n) eqn:El; unfold large_enough, maxLoadFactor in El; bool_prop.
  { exists p1. split; [done|]. split; [unfold lot_ok; rewrite Ht; by exists Q|]. split; [done|]. split; [by rewrite E2|]. exists H. split; [done|lia]. }
  destruct (drain_all_inv fuel time random bs p1 H [] Q [] q T) as (p2 & Q2 & ts & F1 & T2 & S2 & F2 & _); [intros t a c F; by apply not_elem_of_nil in F|intros b; apply B2|done|]. rewrite (mbind_Some _ _ _ F1). cbv beta iota zeta. rewrite grown_size by done.
  replace (zlen H <? 6 * n) with true by lia. cbn [guard mbind option_bind]. unfold Hashtable_create. replace (1 <=? 6 * n) with true by lia. cbn [guard mbind option_bind].
  assert (forall b, Q2 b = []) as HQ2. { intros b. destruct (buckets p2 !! b) as [k|] eqn:Ek; [|by apply (links_none _ _ _ (ti_links _ _ _ _ _ _ T2))]. apply F2, B2. assert (is_Some (buckets p2 !! b)) as F by (rewrite Ek; by eexists). apply (ti_buckets _ _ _ _ _ _ T2) in F as [F|F]; [done|by apply not_elem_of_nil in F]. }
  assert (table_inv p2 (replicate (Z.to_nat (6 * n)) None) bs Q2 ts q) as T3.
  { apply fresh_table_inv; try done; try apply T2; [lia| |].
    - intros b. rewrite (ti_buckets _ _ _ _ _ _ T2), B2. split; [intros [|F]; [done|by apply not_elem_of_nil in F]|auto].
    - intros a. rewrite <- (ti_order _ _ _ _ _ _ T2 a). unfold queue_at. destruct (slot_of H a) as [c|]; [by rewrite HQ2|done]. }
  destruct (refill_inv alloc alloc_fresh ts p2 _ bs Q2 q (length bs) T3) as (p3 & H3 & R3 & Q3 & G1 & T4 & G2 & G3 & G4 & G5).
  { right. by rewrite filled_replicate. }
  rewrite (mbind_Some _ _ _ G1). cbv beta iota. rewrite length_replicate in G3. destruct (place_rest_inv (length H3) 0 p3 H3 R3 Q3 q T4) as (H4 & I1 & I2 & I3); [lia| |].
  { rewrite drop_0. pose proof (filled_bound H3) as Hfb. destruct G2 as [->|G2]; [cbn; lia|]. unfold zlen in El. lia. }
  rewrite (mbind_Some _ _ _ I1). cbv beta iota. rewrite bool_decide_eq_true_2 by done. cbn [guard mbind option_bind]. destruct S2 as (S21 & S22 & S23 & S24).
  exists (with_table p3 H4). split; [done|]. split; [unfold lot_ok; cbn; exists Q3; destruct I2; split; done|]. cbn [numThreads threadDatas with_table hashtable]. split; [congruence|]. split; [rewrite <- E2; by etransitivity|]. exists H4. split; [done|]. unfold zlen. lia.
Qed.
End props.
