(* ===== verification/ParkingTableOps.v ===== *)
(** * ParkingTableOps: parking, unparking and timing out in the table of buckets *)
From stdpp Require Import gmap sorting.
From S2P Require Import Prelude ParkingBucket ParkingBucketProps ParkingTable ParkingTableFacts.
Local Open Scope Z_scope.

#[local] Opaque intHash hashAddress.

(** ** What is left in order *)
Lemma take_first_filter {A} (p : A -> bool) (P : A -> Prop) `{!forall x, Decision (P x)} q r q' : (forall x, P x <-> p x = true) -> take_first p q = (r, q') ->
  r = head (filter P q) /\ filter P q' = tail (filter P q) /\ forall (P' : A -> Prop) `{!forall x, Decision (P' x)}, (forall x, P' x -> ~ P x) -> filter P' q' = filter P' q.
Proof.
  intros HP. revert r q'. induction q as [|x q IH]; intros r q'; cbn [take_first]; [by intros [= <- <-]|]. destruct (p x) eqn:Ep.
  - intros [= <- <-]. rewrite filter_cons_True by (by apply HP). split; [done|]. split; [done|]. intros P' ? Hd. rewrite filter_cons_False; [done|]. intros F. apply (Hd x F). by apply HP.
  - destruct (take_first p q) as [r1 q1] eqn:E. intros [= <- <-]. destruct (IH r1 q1 eq_refl) as (H1 & H2 & H3). assert (~ P x) as Hx by (rewrite HP; congruence). rewrite !filter_cons_False by done. split; [done|]. split; [done|]. intros P' ? Hd. destruct (decide (P' x)); [rewrite !filter_cons_True by done|rewrite !filter_cons_False by done]; by rewrite H3.
Qed.

Lemma take_some_filter {A} (p : A -> bool) (P : A -> Prop) `{!forall x, Decision (P x)} n q r q' : (forall x, P x <-> p x = true) -> 0 <= n -> take_some p n q = (r, q') ->
  r = take (Z.to_nat n) (filter P q) /\ filter P q' = drop (Z.to_nat n) (filter P q) /\ forall (P' : A -> Prop) `{!forall x, Decision (P' x)}, (forall x, P' x -> ~ P x) -> filter P' q' = filter P' q.
Proof.
  intros HP. revert n r q'. induction q as [|x q IH]; intros n r q' Hn; cbn [take_some]; [intros [= <- <-]; by rewrite filter_nil, take_nil, drop_nil|]. destruct (p x) eqn:Ep; cbn [andb].
  - rewrite (filter_cons_True P x q) by (by apply HP). destruct (0 <? n) eqn:E0; bool_prop.
    + destruct (take_some p (n - 1) q) as [r1 q1] eqn:E. intros [= <- <-]. destruct (IH (n - 1) r1 q1 ltac:(lia) E) as (H1 & H2 & H3). replace (Z.to_nat n) with (S (Z.to_nat (n - 1))) by lia. cbn [take drop]. rewrite H1. split; [done|]. split; [done|]. intros P' ? Hd. rewrite (filter_cons_False P'); [by apply H3|]. intros F. apply (Hd x F). by apply HP.
    + assert (n = 0) as -> by lia. rewrite take_some_zero. intros [= <- <-]. change (Z.to_nat 0) with 0%nat. cbn [take drop]. rewrite filter_cons_True by (by apply HP). done.
  - destruct (take_some p n q) as [r1 q1] eqn:E. intros [= <- <-]. destruct (IH _ _ _ Hn E) as (H1 & H2 & H3). assert (~ P x) as Hx by (rewrite HP; congruence). rewrite !(filter_cons_False P) by done. split; [done|]. split; [done|]. intros P' ? Hd. destruct (decide (P' x)); [rewrite !filter_cons_True by done|rewrite !filter_cons_False by done]; by rewrite H3.
Qed.

Lemma take_some_nil {A} (p : A -> bool) n q q' : take_some p n q = ([], q') -> q' = q.
Proof.
  revert n q'. induction q as [|x q IH]; intros n q'; cbn [take_some]; [by intros [= <-]|]. destruct (p x && (0 <? n)); [by destruct (take_some p (n - 1) q)|]. destruct (take_some p n q) as [r1 q1] eqn:E. intros [= -> <-]. f_equal. by eapply IH.
Qed.

(** ** The data of a thread *)
Lemma links_data B h Q t d d' : links B h Q -> h !! t = Some d -> nextInQueue d' = nextInQueue d -> links B (<[t := d']> h) Q.
Proof.
  intros L Hd Hn. split; try apply L.
  - intros b k Hb. destruct (links_bucket _ _ _ L b k Hb) as (H1 & H2 & H3 & H4). split_and!; try done. clear -H3 Hd Hn. induction (Q b) as [|u q IH]; cbn [chain] in *; [done|]. destruct H3 as [(e & He & Hne) Hc]. split; [|by apply IH]. destruct (decide (t = u)) as [<-|Htu].
    + exists d'. rewrite lookup_insert_eq. split; [done|]. rewrite Hn. congruence.
    + exists e. by rewrite lookup_insert_ne.
  - intros u e He Hq. destruct (decide (t = u)) as [<-|Htu].
    + rewrite lookup_insert_eq in He. injection He as <-. rewrite Hn. by apply (links_free _ _ _ L t).
    + rewrite lookup_insert_ne in He by done. by apply (links_free _ _ _ L u).
Qed.

Lemma address_in_insert h t d u : address_in (<[t := d]> h) u = if decide (u = t) then address d else address_in h u.
Proof. unfold address_in. destruct (decide (u = t)) as [->|Hu]; [by rewrite lookup_insert_eq|by rewrite lookup_insert_ne]. Qed.

(** Threads that are in no queue any more are woken up. *)
Lemma wake_all_links B k h Q ts : links B h Q -> NoDup ts -> (forall t, t ∈ ts -> address_in h t <> None) ->
  exists h', wake_all (mkLot k h) ts = Some (mkLot k h') /\ links B h' Q /\ dom h' = dom h /\ forall t, address_in h' t = if decide (t ∈ ts) then None else address_in h t.
Proof.
  revert h. induction ts as [|t ts IH]; intros h L Hn Ha; cbn [wake_all].
  { exists h. split; [done|]. split; [done|]. split; [done|]. intros t. by rewrite decide_False by apply not_elem_of_nil. }
  apply NoDup_cons in Hn as [Hn1 Hn2]. pose proof (Ha t ltac:(set_solver)) as Hat. unfold address_in in Hat. destruct (h !! t) as [d|] eqn:Hd; [|done]. cbn in Hat. destruct (address d) as [a|] eqn:Ea; [|done]. unfold wake, update. cbn [threads bucket]. rewrite Hd. cbn [mbind option_bind]. rewrite Ea. cbn [is_null negb guard mbind option_bind].
  destruct (IH (<[t := set_address None d]> h)) as (h' & H1 & H2 & H3 & H4); [by eapply links_data|done| |].
  { intros u Hu. rewrite address_in_insert, decide_False by set_solver. apply Ha. set_solver. }
  exists h'. split; [done|]. split; [done|]. split; [rewrite H3, dom_insert_L; apply elem_of_dom_2 in Hd; set_solver|]. intros u. rewrite H4, address_in_insert. destruct (decide (u ∈ ts)); [by rewrite decide_True by set_solver|]. destruct (decide (u = t)); [by rewrite decide_True by set_solver|by rewrite decide_False by set_solver].
Qed.

Lemma table_data p H Q q t d d' : table_inv p H [] Q [] q -> threadDatas p !! t = Some d -> nextInQueue d' = nextInQueue d -> address d' = address d ->
  table_inv (mkParkingLot (hashtable p) (buckets p) (<[t := d']> (threadDatas p)) (numThreads p)) H [] Q [] q.
Proof.
  intros T Hd Hn Ha. assert (forall u, address_in (<[t := d']> (threadDatas p)) u = address_in (threadDatas p) u) as Hadd. { intros u. rewrite address_in_insert. destruct (decide (u = t)) as [->|]; [|done]. unfold address_in. by rewrite Hd. }
  split; cbn [buckets threadDatas]; try apply T.
  - eapply links_data; [apply T|done|done].
  - intros b u Hu. rewrite Hadd. by apply (ti_home _ _ _ _ _ _ T).
  - intros a. rewrite <- (ti_order _ _ _ _ _ _ T a). f_equal; unfold only_at; apply list_filter_iff; intros u; by rewrite Hadd.
  - intros u a. rewrite Hadd. apply T.
  - intros u Hu. by apply not_elem_of_nil in Hu.
Qed.

(** ** Leaving a queue *)
Lemma threads_at_perm (q : list (tid * Z)) (ts : list tid) (a : Z) (q' : list (tid * Z)) : Permutation q (map (fun t => (t, a)) ts ++ q') -> forall t b, (t, b) ∈ q <-> (t ∈ ts /\ b = a) \/ (t, b) ∈ q'.
Proof.
  intros P t b. rewrite P, elem_of_app. assert ((t, b) ∈ map (fun t => (t, a)) ts <-> t ∈ ts /\ b = a) as ->; [|done]. rewrite list_elem_of_In, in_map_iff. split.
  - intros (x & [= <- <-] & Hx). split; [by apply list_elem_of_In|done].
  - intros [Hx ->]. exists t. split; [done|by apply list_elem_of_In].
Qed.

(** Threads at an address leave their queue; their addresses are cleared. *)
Lemma leave_inv p H Q q a b ts kept q' h' B' :
  table_inv p H [] Q [] q -> slot_of H a = Some b -> links B' h' (set_queue Q b kept) -> (forall c, is_Some (B' !! c) <-> is_Some (buckets p !! c)) ->
  (forall t, address_in h' t = if decide (t ∈ ts) then None else address_in (threadDatas p) t) -> Permutation (Q b) (ts ++ kept) ->
  only_at (threadDatas p) a kept = threads_at q' a -> (forall a', a' <> a -> only_at (threadDatas p) a' kept = only_at (threadDatas p) a' (Q b)) -> (forall a', a' <> a -> threads_at q' a' = threads_at q a') ->
  Permutation q (map (fun t => (t, a)) ts ++ q') ->
  table_inv (mkParkingLot (hashtable p) B' h' (numThreads p)) H [] (set_queue Q b kept) [] q'.
Proof.
  intros T Hsl L HB Ha HQ H1 H2 H3 Hq. pose proof (threads_at_perm q ts a q' Hq) as Hmem. pose proof (ti_nodup _ _ _ _ _ _ T) as Hnd. rewrite Hq, map_app in Hnd. apply NoDup_app in Hnd as (N1 & N2 & N3).
  assert (map fst (map (fun t : tid => (t, a)) ts) = ts) as Ets by (rewrite map_map; cbn; by rewrite map_id). rewrite Ets in N1, N2.
  assert (forall t, t ∈ kept -> t ∈ Q b /\ t ∉ ts) as Hkept. { intros t Ht. split; [rewrite HQ; set_solver|]. intros F. assert (is_Some (buckets p !! b)) as [k Hk]. { apply (ti_buckets _ _ _ _ _ _ T). left. unfold slot_of in Hsl. destruct (H !! index_of H a) as [x|] eqn:E; [|done]. cbn in Hsl. subst x. by eapply list_elem_of_lookup_2. } destruct (links_bucket _ _ _ (ti_links _ _ _ _ _ _ T) b k Hk) as (_ & _ & _ & Hn). rewrite HQ in Hn. apply NoDup_app in Hn as (_ & Hn & _). by apply (Hn t). }
  assert (forall c t, t ∈ set_queue Q b kept c -> t ∈ Q c /\ t ∉ ts) as Hsub. { intros c t. unfold set_queue. destruct (decide (c = b)) as [->|Hcb]; [apply Hkept|]. intros Ht. split; [done|]. intros F. apply Hcb, (links_unique _ _ _ (ti_links _ _ _ _ _ _ T) c b t Ht). rewrite HQ. set_solver. }
  assert (forall a' l, (forall t, t ∈ l -> t ∉ ts) -> only_at h' a' l = only_at (threadDatas p) a' l) as Honly. { intros a' l Hl. unfold only_at. induction l as [|t l IH]; [done|]. assert (address_in h' t = address_in (threadDatas p) t) as E by (rewrite Ha, decide_False; [done|apply Hl; set_solver]). destruct (decide (address_in (threadDatas p) t = Some a')) as [F|F]; [rewrite !filter_cons_True by congruence|rewrite !filter_cons_False by congruence]; [f_equal|]; apply IH; set_solver. }
  split; cbn [buckets threadDatas]; try apply T; try done.
  - intros c. rewrite HB. apply T.
  - intros c Hc. by apply not_elem_of_nil in Hc.
  - intros c t [Ht Hn]%Hsub. rewrite Ha, decide_False by done. by apply (ti_home _ _ _ _ _ _ T).
  - intros a'. change (only_at h' a' []) with (@nil tid). rewrite app_nil_r. unfold queue_at. destruct (slot_of H a') as [c|] eqn:Ec.
    + rewrite Honly by (intros t Ht; by apply (Hsub c t)). pose proof (ti_order _ _ _ _ _ _ T a') as Ho. unfold queue_at in Ho. rewrite Ec, app_nil_r in Ho. destruct (decide (c = b)) as [->|Hcb].
      * rewrite set_queue_eq. destruct (decide (a' = a)) as [->|Haa]; [done|]. rewrite H2, H3 by done. done.
      * rewrite set_queue_ne by done. rewrite H3; [done|]. intros ->. congruence.
    + pose proof (ti_order _ _ _ _ _ _ T a') as Ho. unfold queue_at in Ho. rewrite Ec in Ho. cbn in Ho. cbn. rewrite H3; [done|]. intros ->. congruence.
  - intros t a'. rewrite Ha. specialize (Hmem t a'). rewrite <- (ti_address _ _ _ _ _ _ T) in Hmem. destruct (decide (t ∈ ts)) as [F|F]; [|tauto]. split; [done|]. intros G. exfalso. apply (N2 t F), elem_of_map_fst. by exists a'.
  - intros t Ht. by apply not_elem_of_nil in Ht.
  - intros t c Ht. by apply not_elem_of_nil in Ht.
Qed.

(** ** The operations *)
(** What all operations keep. *)
Definition kept_lot (p p' : parking_lot) : Prop :=
  dom (threadDatas p') = dom (threadDatas p) /\ numThreads p' = numThreads p /\ (forall H, hashtable p = Some H -> exists H', hashtable p' = Some H' /\ length H' = length H).

Lemma slot_bucket p H R Q rest q a b : table_inv p H R Q rest q -> slot_of H a = Some b -> exists k, buckets p !! b = Some k.
Proof. intros T Hsl. apply (ti_buckets _ _ _ _ _ _ T). left. unfold slot_of in Hsl. destruct (H !! index_of H a) as [x|] eqn:E; [|done]. cbn in Hsl. subst x. by eapply list_elem_of_lookup_2. Qed.

Lemma table_lot_ok p H Q q : table_inv p H [] Q [] q -> hashtable p = Some H -> lot_ok p q.
Proof. intros T E. unfold lot_ok. rewrite E. by exists Q. Qed.

Lemma on_bucket_eq {A} p b k (f : lot -> option (lot * A)) l x : buckets p !! b = Some k -> f (mkLot k (threadDatas p)) = Some (l, x) ->
  on_bucket p b f = Some (mkParkingLot (hashtable p) (<[b := bucket l]> (buckets p)) (threads l) (numThreads p), x).
Proof. intros E1 E2. unfold on_bucket. rewrite E1. cbn [mbind option_bind]. by rewrite E2. Qed.

Lemma insert_bucket_same (B : gmap bid Bucket) b k k' : B !! b = Some k -> forall c, is_Some (<[b := k']> B !! c) <-> is_Some (B !! c).
Proof. intros Hk c. destruct (decide (c = b)) as [->|Hcb]; [rewrite lookup_insert_eq, Hk; split; by eexists|by rewrite lookup_insert_ne]. Qed.

Section ops.
Context (alloc : gset bid -> bid) (alloc_fresh : forall X, alloc X ∉ X).

Lemma at_bucket_ok p q a : lot_ok p q ->
  exists p1 H Q b k, (forall A (f : lot -> option (lot * A)), at_bucket alloc p a f = on_bucket p1 b f) /\ hashtable p1 = Some H /\ table_inv p1 H [] Q [] q /\ slot_of H a = Some b /\ buckets p1 !! b = Some k /\
    threadDatas p1 = threadDatas p /\ numThreads p1 = numThreads p /\ forall H0, hashtable p = Some H0 -> length H = length H0.
Proof.
  intros K. destruct (ensureHashtable_ok p q K) as (p1 & H1 & Q & E1 & Ht & T & E2 & E3 & E4). pose proof (ti_size _ _ _ _ _ _ T) as Hs. destruct (ensure_bucket_inv alloc alloc_fresh p1 H1 [] Q [] q (index_of H1 a) T (index_bound H1 a Hs) Ht) as (p2 & H2 & b & F1 & F2 & F3 & F4 & F5 & F6 & F7 & F8).
  rewrite <- hash_index in F1 by done. assert (slot_of H2 a = Some b) as Hsl by (unfold slot_of; rewrite (index_length H2 H1 a F6), F7; done). destruct (slot_bucket _ _ _ _ _ _ a b F2 Hsl) as [k Hk]. exists p2, H2, Q, b, k. split.
  - intros A f. unfold at_bucket. rewrite (mbind_Some _ _ _ E1). cbv beta iota. by rewrite (mbind_Some _ _ _ F1).
  - split_and!; try done; try congruence. intros H0 F. by rewrite F6, (E4 H0 F).
Qed.

Lemma at_bucket_ignore_ok p q a : lot_ok p q ->
  exists p1 H Q, hashtable p1 = Some H /\ table_inv p1 H [] Q [] q /\ threadDatas p1 = threadDatas p /\ numThreads p1 = numThreads p /\ (forall H0, hashtable p = Some H0 -> length H = length H0) /\
    forall A (nothing : A) (f : lot -> option (lot * A)), at_bucket_ignore p a nothing f = match slot_of H a with Some b => on_bucket p1 b f | None => Some (p1, nothing) end.
Proof.
  intros K. destruct (ensureHashtable_ok p q K) as (p1 & H1 & Q & E1 & Ht & T & E2 & E3 & E4). pose proof (ti_size _ _ _ _ _ _ T) as Hs. exists p1, H1, Q. split_and!; try done; [intros H0 F; by rewrite (E4 H0 F)|]. intros A nothing f. unfold at_bucket_ignore. rewrite (mbind_Some _ _ _ E1). cbv beta iota. rewrite hash_index, zget_index by (done || by apply index_bound). unfold slot_of.
  destruct (lookup_lt_is_Some_2 H1 (index_of H1 a) (index_bound H1 a Hs)) as [x E]. rewrite E. cbn [mbind option_bind mjoin option_join]. done.
Qed.

Lemma park_ok p q t a v : lot_ok p q -> t ∈ dom (threadDatas p) -> t ∉ map fst q -> exists p', lot_park alloc p t a v = Some (p', v) /\ lot_ok p' (if v then q ++ [(t, a)] else q) /\ kept_lot p p'.
Proof.
  intros K Ht Hn. destruct (at_bucket_ok p q a K) as (p1 & H & Q & b & k & E1 & Eh & T & Hsl & Hk & E2 & E3 & E4). unfold lot_park. rewrite E1. rewrite <- E2 in Ht. pose proof Ht as Ht'. apply elem_of_dom in Ht' as [d Hd].
  assert (address d = None) as Ea. { destruct (address d) as [x|] eqn:F; [|done]. exfalso. apply Hn, elem_of_map_fst. exists x. apply (ti_address _ _ _ _ _ _ T). unfold address_in. by rewrite Hd. }
  pose proof (table_data p1 H Q q t d (set_token 0 d) T Hd eq_refl eq_refl) as T1. set (h1 := <[t := set_token 0 d]> (threadDatas p1)) in *. assert (h1 !! t = Some (set_token 0 d)) as Hd1 by apply lookup_insert_eq. assert (dom h1 = dom (threadDatas p)) as Hdom1 by (unfold h1; rewrite dom_insert_L, <- E2; apply elem_of_dom_2 in Hd; set_solver).
  destruct v.
  - set (d2 := set_address (Some a) (set_token 0 d)). set (h2 := <[t := d2]> h1). assert (forall c, t ∉ Q c) as Hnq. { intros c F. destruct (ti_home _ _ _ _ _ _ T c t F) as (x & F1 & _). unfold address_in in F1. rewrite Hd in F1. cbn in F1. congruence. }
    assert (links (buckets p1) h2 Q) as L2 by (apply (links_data _ h1 _ t (set_token 0 d)); [apply T1|done|done]).
    destruct (links_enqueue (buckets p1) h2 Q b k t d2 L2 Hk (lookup_insert_eq _ _ _) ltac:(done) Hnq) as (l & He & HL & Hs).
    assert (park (mkLot k (threadDatas p1)) t a true = Some (l, true)) as Hpark. { unfold park, update. cbn [threads bucket]. rewrite Hd. cbn [mbind option_bind]. fold h1. rewrite Hd1. cbn [mbind option_bind]. change (address (set_token 0 d)) with (address d). rewrite Ea. cbn [is_null guard mbind option_bind]. fold d2 h2. by rewrite He. }
    rewrite (on_bucket_eq p1 b k _ l true Hk Hpark). eexists. split; [done|]. assert (dom (threads l) = dom (threadDatas p)) as Hdl by (rewrite (same_threads_dom _ _ Hs); unfold h2; rewrite dom_insert_L, Hdom1; rewrite <- E2; apply elem_of_dom_2 in Hd; set_solver). split; [|split_and!; [done|done|intros H0 F; exists H; split; [done|by apply E4]]].
    apply (table_lot_ok _ H (set_queue Q b (Q b ++ [t]))); [|done]. assert (forall u, address_in (threads l) u = if decide (u = t) then Some a else address_in (threadDatas p1) u) as Hadd. { intros u. rewrite (same_threads_address _ _ u Hs). unfold h2, h1. rewrite !address_in_insert. by destruct (decide (u = t)). }
    assert (forall c u, u ∈ set_queue Q b (Q b ++ [t]) c <-> u ∈ Q c \/ (c = b /\ u = t)) as Hmem. { intros c u. unfold set_queue. destruct (decide (c = b)) as [->|]; [rewrite elem_of_app, list_elem_of_singleton; tauto|tauto]. }
    assert (forall a' c, only_at (threads l) a' (Q c) = only_at (threadDatas p1) a' (Q c)) as Honly. { intros a' c. unfold only_at. specialize (Hnq c). induction (Q c) as [|u qc IH]; [done|]. assert (address_in (threads l) u = address_in (threadDatas p1) u) as E by (rewrite Hadd, decide_False; [done|set_solver]). destruct (decide (address_in (threadDatas p1) u = Some a')); [rewrite !filter_cons_True by congruence|rewrite !filter_cons_False by congruence]; [f_equal|]; apply IH; set_solver. }
    split; cbn [buckets threadDatas]; try apply T; try done.
    + intros c. rewrite (insert_bucket_same _ b k _ Hk). apply T.
    + intros c Hc. by apply not_elem_of_nil in Hc.
    + intros c u [Hu|[-> ->]]%Hmem; rewrite Hadd; [|rewrite decide_True by done; by exists a]. rewrite decide_False by (intros ->; by apply (Hnq c)). by apply (ti_home _ _ _ _ _ _ T).
    + intros a'. unfold threads_at. rewrite filter_app, map_app. fold (threads_at q a'). rewrite <- (ti_order _ _ _ _ _ _ T a'), !app_nil_r. unfold queue_at. destruct (decide (a' = a)) as [->|Haa].
      * rewrite Hsl, set_queue_eq, only_at_app, Honly. f_equal. rewrite filter_cons_True by done. unfold only_at. rewrite filter_cons_True by (by rewrite Hadd, decide_True). done.
      * rewrite (filter_cons_False (fun e => e.2 = a') (t, a) []) by (cbn; congruence). cbn [map filter list_filter]. rewrite app_nil_r. destruct (slot_of H a') as [c|] eqn:Ec; [|done]. destruct (decide (c = b)) as [->|Hcb]; [|rewrite set_queue_ne by done; apply Honly]. rewrite set_queue_eq, only_at_app, Honly. rewrite (only_at_nil _ a' [t]); [by rewrite app_nil_r|]. intros u ->%list_elem_of_singleton. rewrite Hadd, decide_True by done. congruence.
    + intros u a'. rewrite Hadd, elem_of_app, list_elem_of_singleton. rewrite <- (ti_address _ _ _ _ _ _ T). destruct (decide (u = t)) as [->|Hut]; [|split; [auto|by intros [|[= ]]]]. unfold address_in. rewrite Hd. cbn [mbind option_bind]. rewrite Ea. split; [intros [= ->]; by right|by intros [|[= ->]]].
    + rewrite map_app. apply NoDup_app. split; [apply T|]. split; [intros x Hx ->%list_elem_of_singleton; done|apply NoDup_singleton].
    + intros u Hu. by apply not_elem_of_nil in Hu.
    + intros u c Hu. by apply not_elem_of_nil in Hu.
  - assert (park (mkLot k (threadDatas p1)) t a false = Some (mkLot k h1, false)) as Hpark. { unfold park, update. cbn [threads bucket]. rewrite Hd. cbn [mbind option_bind]. fold h1. rewrite Hd1. cbn [mbind option_bind]. change (address (set_token 0 d)) with (address d). rewrite Ea. done. }
    rewrite (on_bucket_eq p1 b k _ _ false Hk Hpark). cbn [bucket threads]. rewrite (insert_id (buckets p1) b k Hk). eexists. split; [done|]. split; [by apply (table_lot_ok _ H Q)|]. split_and!; [done|done|]. intros H0 F. exists H. split; [done|by apply E4].
Qed.

Lemma only_at_full p H Q q a b : table_inv p H [] Q [] q -> slot_of H a = Some b -> only_at (threadDatas p) a (Q b) = threads_at q a.
Proof. intros T Hsl. pose proof (ti_order _ _ _ _ _ _ T a) as Ho. unfold queue_at in Ho. by rewrite Hsl, app_nil_r in Ho. Qed.

Lemma threads_at_first q a r q' : take_first (fun e => snd e =? a) q = (r, q') ->
  fst <$> r = head (threads_at q a) /\ threads_at q' a = tail (threads_at q a) /\ (forall a', a' <> a -> threads_at q' a' = threads_at q a') /\ Permutation q (map (fun t => (t, a)) (option_list (fst <$> r)) ++ q').
Proof.
  intros E. destruct (take_first_filter _ (fun e => snd e = a) _ _ _ (fun e => iff_sym (Z.eqb_eq (snd e) a)) E) as (H1 & H2 & H3). destruct (take_first_sublist _ _ _ _ E) as [_ Hp]. unfold threads_at. split_and!.
  - rewrite H1. by destruct (filter _ q).
  - rewrite H2. by destruct (filter _ q).
  - intros a' Ha. rewrite (H3 (fun e => snd e = a')); [done|]. cbn. congruence.
  - destruct r as [[t x]|]; cbn; [|by rewrite Hp]. destruct Hp as (_ & Hx & Hp). cbn in Hx. bool_prop. by subst x.
Qed.

(** What is taken out of the bucket is what is first in the sequence. *)
Lemma bucket_first p H Q q a b r kept : table_inv p H [] Q [] q -> slot_of H a = Some b -> take_first (at_address (address_in (threadDatas p)) a) (Q b) = (r, kept) ->
  r = head (threads_at q a) /\ only_at (threadDatas p) a kept = tail (threads_at q a) /\ (forall a', a' <> a -> only_at (threadDatas p) a' kept = only_at (threadDatas p) a' (Q b)) /\ Permutation (Q b) (option_list r ++ kept).
Proof.
  intros T Hsl E. rewrite <- (only_at_full _ _ _ _ _ _ T Hsl). destruct (take_first_filter _ (fun t => address_in (threadDatas p) t = Some a) _ _ _ (fun t => iff_sym (bool_decide_eq_true (address_in (threadDatas p) t = Some a))) E) as (H1 & H2 & H3). destruct (take_first_sublist _ _ _ _ E) as [_ Hp]. split_and!; try done.
  - intros a' Ha. apply H3. congruence.
  - destruct r; [apply Hp|by rewrite Hp].
Qed.

Lemma unparkOne_ok fuel p q a time random callback : lot_ok p q -> (length q < fuel)%nat ->
  let '(r, q') := take_first (fun e => snd e =? a) q in
  exists p' res, lot_unparkOne alloc fuel p a time random callback = Some (p', (res, fst <$> r)) /\ lot_ok p' q' /\ kept_lot p p' /\ didUnparkThread res = negb (is_null r) /\ (mayHaveMoreThreads res = false -> threads_at q' a = []).
Proof.
  intros K Hf. destruct (take_first (fun e => snd e =? a) q) as [r q'] eqn:Eq. destruct (threads_at_first q a r q' Eq) as (S1 & S2 & S3 & S4). destruct (at_bucket_ok p q a K) as (p1 & H & Q & b & k & E1 & Eh & T & Hsl & Hk & E2 & E3 & E4). unfold lot_unparkOne. rewrite E1.
  destruct (links_dequeue (unparkOne_functor a) _ _ Q b k fuel (None, false) time random (ti_links _ _ _ _ _ _ T) Hk (queue_total _ _ _ _ _ _ b fuel T Hf)) as (l & Hl). cbv zeta in Hl. rewrite unparkOne_list in Hl. destruct (take_first (at_address _ a) (Q b)) as [r1 kept] eqn:Ek. destruct (bucket_first _ _ _ _ _ _ _ _ T Hsl Ek) as (B1 & B2 & B3 & B4). rewrite <- B1 in S1. rewrite S1. clear B1.
  assert (has_queue l = negb (bool_decide (kept = []))) as Hhq. { destruct r1; destruct Hl as (_ & HL & _); destruct (links_bucket _ _ _ HL b (bucket l) (lookup_insert_eq _ _ _)) as (F & _); unfold has_queue; rewrite F, set_queue_eq; by destruct kept. }
  assert (is_null r = is_null r1) as Hnull by (rewrite <- S1; by destruct r). destruct r1 as [t|].
  - destruct Hl as (Hg & HL & Hs). assert (address_in (threads l) t = Some a) as Hta. { rewrite (same_threads_address _ _ t Hs). assert (t ∈ threads_at q a) as F. { rewrite <- (only_at_full _ _ _ _ _ _ T Hsl). destruct (take_first_sublist _ _ _ _ Ek) as [_ (F1 & F2 & _)]. apply bool_decide_eq_true in F2. by apply list_elem_of_filter. } rewrite <- (only_at_full _ _ _ _ _ _ T Hsl) in F. by apply list_elem_of_filter in F as [F _]. }
    pose proof Hta as Hta'. unfold address_in in Hta'. destruct (threads l !! t) as [d|] eqn:Ed; [|done]. cbn in Hta'.
    set (res := mkUnparkResult true (has_queue l) (nextFairTime k <? time)). set (h1 := <[t := set_token (callback res) d]> (threads l)).
    assert (links (<[b := bucket l]> (buckets p1)) h1 (set_queue Q b kept)) as L1 by (by eapply links_data).
    assert (forall u, address_in h1 u = address_in (threadDatas p1) u) as Ha1. { intros u. unfold h1. rewrite address_in_insert. rewrite <- (same_threads_address _ _ u Hs). destruct (decide (u = t)) as [->|]; [|done]. rewrite Hta. done. }
    destruct (wake_all_links _ (bucket l) h1 _ [t] L1 (NoDup_singleton t)) as (h2 & W1 & W2 & W3 & W4); [intros u ->%list_elem_of_singleton; rewrite Ha1, <- (same_threads_address _ _ t Hs); by rewrite Hta|].
    assert (unparkOneImpl fuel (mkLot k (threadDatas p1)) a time random callback = Some (mkLot (bucket l) h2, res, Some t)) as Hun.
    { unfold unparkOneImpl. rewrite Hg. cbn [mbind option_bind is_null negb orb andb]. rewrite orb_true_r. cbn [guard mbind option_bind]. fold res. unfold update at 1. rewrite Ed. cbn [mbind option_bind]. fold h1. cbn [wake_all] in W1. destruct (wake (mkLot (bucket l) h1) t) as [l2|]; [|done]. cbn [mbind option_bind] in W1 |- *. by injection W1 as ->. }
    assert (('(l, r, t) ← unparkOneImpl fuel (mkLot k (threadDatas p1)) a time random callback; Some (l, (r, t))) = Some (mkLot (bucket l) h2, (res, Some t))) as Hf2 by (by rewrite Hun). rewrite (on_bucket_eq p1 b k _ _ _ Hk Hf2). eexists _, res. split; [done|]. cbn [bucket threads]. split; [|split; [|split]].
    + apply (table_lot_ok _ H (set_queue Q b kept)); [|done]. apply (leave_inv p1 H Q q a b [t] kept q'); try done.
      * apply (insert_bucket_same _ b k _ Hk).
      * intros u. rewrite W4, Ha1. done.
      * by rewrite B2, S2.
      * by rewrite S1 in S4.
    + split_and!; [|done|intros H0 F; exists H; split; [done|by apply E4]]. cbn. rewrite W3. unfold h1. rewrite dom_insert_L, (same_threads_dom _ _ Hs), E2. apply elem_of_dom_2 in Ed. rewrite (same_threads_dom _ _ Hs), E2 in Ed. set_solver.
    + by rewrite Hnull.
    + cbn. intros F. rewrite S2, <- B2. rewrite Hhq in F. bool_prop. apply bool_decide_eq_true in F as ->. done.
  - destruct Hl as (Hg & HL & Hs). set (res := mkUnparkResult false false false).
    assert (('(l, r, t) ← unparkOneImpl fuel (mkLot k (threadDatas p1)) a time random callback; Some (l, (r, t))) = Some (l, (res, None))) as Hf2 by (unfold unparkOneImpl; by rewrite Hg). rewrite (on_bucket_eq p1 b k _ _ _ Hk Hf2). eexists _, res. split; [done|]. rewrite S1 in S4. cbn in S4. split; [|split; [|split]].
    + apply (table_lot_ok _ H (set_queue Q b kept)); [|done]. apply (leave_inv p1 H Q q a b [] kept q'); try done.
      * apply (insert_bucket_same _ b k _ Hk).
      * intros u. rewrite decide_False by apply not_elem_of_nil. by apply same_threads_address.
      * by rewrite B2, S2.
    + split_and!; [|done|intros H0 F; exists H; split; [done|by apply E4]]. cbn. by rewrite (same_threads_dom _ _ Hs), E2.
    + by rewrite Hnull.
    + intros _. rewrite S2. destruct (take_first_filter _ (fun t => address_in (threadDatas p1) t = Some a) _ _ _ (fun t => iff_sym (bool_decide_eq_true (address_in (threadDatas p1) t = Some a))) Ek) as (F & _). rewrite <- (only_at_full _ _ _ _ _ _ T Hsl). unfold only_at. by destruct (filter _ (Q b)).
Qed.

Lemma threads_at_some q a n r q' : 0 <= n -> take_some (fun e => snd e =? a) n q = (r, q') ->
  map fst r = take (Z.to_nat n) (threads_at q a) /\ threads_at q' a = drop (Z.to_nat n) (threads_at q a) /\ (forall a', a' <> a -> threads_at q' a' = threads_at q a') /\ Permutation q (map (fun t => (t, a)) (map fst r) ++ q').
Proof.
  intros Hn E. destruct (take_some_filter _ (fun e => snd e = a) n _ _ _ (fun e => iff_sym (Z.eqb_eq (snd e) a)) Hn E) as (H1 & H2 & H3). destruct (take_some_sublist _ _ _ _ _ E) as [_ Hp]. unfold threads_at. split_and!.
  - by rewrite H1, <- firstn_map.
  - by rewrite H2, <- skipn_map.
  - intros a' Ha. rewrite (H3 (fun e => snd e = a')); [done|]. cbn. congruence.
  - assert (map (fun t => (t, a)) (map fst r) = r) as ->; [|done]. assert (forall e, e ∈ r -> snd e = a) as Hr. { intros e He. rewrite H1 in He. eapply elem_of_sublist in He; [|apply sublist_take]. apply list_elem_of_filter in He. tauto. } clear -Hr. induction r as [|[t x] r IH]; [done|]. cbn. rewrite IH by set_solver. pose proof (Hr (t, x) ltac:(set_solver)) as F. cbn in F. by subst x.
Qed.

Lemma bucket_some p H Q q a b n r kept : table_inv p H [] Q [] q -> slot_of H a = Some b -> 0 <= n -> take_some (at_address (address_in (threadDatas p)) a) n (Q b) = (r, kept) ->
  r = take (Z.to_nat n) (threads_at q a) /\ only_at (threadDatas p) a kept = drop (Z.to_nat n) (threads_at q a) /\ (forall a', a' <> a -> only_at (threadDatas p) a' kept = only_at (threadDatas p) a' (Q b)) /\ Permutation (Q b) (r ++ kept).
Proof.
  intros T Hsl Hn E. rewrite <- (only_at_full _ _ _ _ _ _ T Hsl). destruct (take_some_filter _ (fun t => address_in (threadDatas p) t = Some a) n _ _ _ (fun t => iff_sym (bool_decide_eq_true (address_in (threadDatas p) t = Some a))) Hn E) as (H1 & H2 & H3). destruct (take_some_sublist _ _ _ _ _ E) as [_ Hp]. split_and!; try done. intros a' Ha. apply H3. congruence.
Qed.

(** Nobody is parked at an address whose slot is empty. *)
Lemma empty_slot p H Q q a : table_inv p H [] Q [] q -> slot_of H a = None -> threads_at q a = [].
Proof. intros T Hsl. pose proof (ti_order _ _ _ _ _ _ T a) as Ho. unfold queue_at in Ho. by rewrite Hsl in Ho. Qed.

Lemma unparkCount_ok fuel p q a n time random : lot_ok p q -> (length q < fuel)%nat -> 0 <= n ->
  let '(r, q') := take_some (fun e => snd e =? a) n q in
  exists p', lot_unparkCount fuel p a n time random = Some (p', map fst r) /\ lot_ok p' q' /\ kept_lot p p'.
Proof.
  intros K Hf Hn. destruct (take_some (fun e => snd e =? a) n q) as [r q'] eqn:Eq. destruct (threads_at_some q a n r q' Hn Eq) as (S1 & S2 & S3 & S4). unfold lot_unparkCount. destruct (n =? 0) eqn:En; bool_prop.
  { subst n. rewrite take_some_zero in Eq. injection Eq as <- <-. exists p. split; [done|]. split; [done|]. split_and!; try done. intros H F. by exists H. }
  destruct (at_bucket_ignore_ok p q a K) as (p1 & H & Q & Eh & T & E2 & E3 & E4 & E1). rewrite E1. destruct (slot_of H a) as [b|] eqn:Hsl.
  - destruct (slot_bucket _ _ _ _ _ _ a b T Hsl) as [k Hk]. destruct (links_dequeue (unparkCount_functor a n) _ _ Q b k fuel [] time random (ti_links _ _ _ _ _ _ T) Hk (queue_total _ _ _ _ _ _ b fuel T Hf)) as (l & Hl). cbv zeta in Hl. rewrite unparkCount_list in Hl by (change (zlen []) with 0; lia). change (zlen []) with 0 in Hl. rewrite Z.sub_0_r in Hl. destruct (take_some (at_address _ a) n (Q b)) as [ts kept] eqn:Ek. destruct (bucket_some _ _ _ _ _ _ _ _ _ T Hsl Hn Ek) as (B1 & B2 & B3 & B4). cbn [app] in Hl. destruct Hl as (Hg & HL & Hs). rewrite S1, <- B1 in *.
    assert (NoDup ts /\ forall t, t ∈ ts -> address_in (threads l) t <> None) as [N1 N2].
    { destruct (links_bucket _ _ _ (ti_links _ _ _ _ _ _ T) b k Hk) as (_ & _ & _ & Hnd). rewrite B4 in Hnd. apply NoDup_app in Hnd as (Hnd & _ & _). split; [done|]. intros t Ht. rewrite (same_threads_address _ _ t Hs). destruct (ti_home _ _ _ _ _ _ T b t) as (x & -> & _); [rewrite B4; set_solver|done]. }
    destruct (wake_all_links _ (bucket l) (threads l) _ ts HL N1 N2) as (h2 & W1 & W2 & W3 & W4).
    assert (unparkCount fuel (mkLot k (threadDatas p1)) a n time random = Some (mkLot (bucket l) h2, ts)) as Hun. { unfold unparkCount. replace (n =? 0) with false by lia. rewrite Hg. cbn [mbind option_bind]. destruct l as [lb lt]. cbn [bucket threads] in W1 |- *. rewrite W1. done. }
    rewrite (on_bucket_eq p1 b k _ _ _ Hk Hun). eexists. split; [done|]. cbn [bucket threads]. split; [|split_and!; [cbn; by rewrite W3, (same_threads_dom _ _ Hs), E2|done|intros H0 F; exists H; split; [done|by apply E4]]].
    apply (table_lot_ok _ H (set_queue Q b kept)); [|done]. apply (leave_inv p1 H Q q a b ts kept q'); try done.
    + apply (insert_bucket_same _ b k _ Hk).
    + intros u. rewrite W4, (same_threads_address _ _ u Hs). done.
    + by rewrite B2, S2.
  - rewrite (empty_slot _ _ _ _ _ T Hsl), take_nil in S1. rewrite S1 in S4. cbn in S4. exists p1. rewrite S1. split; [done|]. split; [|split_and!; [by rewrite E2|done|intros H0 F; exists H; split; [done|by apply E4]]]. apply (table_lot_ok _ H Q); [|done]. assert (r = []) as -> by (by destruct r). by rewrite (take_some_nil _ _ _ _ Eq).
Qed.

Lemma threads_at_leave q t a : (t, a) ∈ q -> NoDup (map fst q) -> let q' := filter (fun e => fst e <> t) q in
  threads_at q' a = filter (.≠ t) (threads_at q a) /\ (forall a', a' <> a -> threads_at q' a' = threads_at q a') /\ Permutation q ((t, a) :: q').
Proof.
  intros Hin Hn q'. unfold q'. clear q'. induction q as [|[u x] q IH]; [by apply not_elem_of_nil in Hin|]. cbn in Hn. apply NoDup_cons in Hn as [Hn1 Hn2]. unfold threads_at in *. destruct (decide (u = t)) as [->|Hut].
  - assert (x = a) as ->. { apply elem_of_cons in Hin as [[= ->]|Hin]; [done|]. exfalso. apply Hn1, elem_of_map_fst. by exists a. }
    assert (filter (fun e => fst e <> t) q = q) as Ef. { clear -Hn1. induction q as [|[v y] q IH]; [done|]. cbn in Hn1. rewrite filter_cons_True by (cbn; set_solver). f_equal. apply IH. set_solver. }
    rewrite (filter_cons_False (fun e => fst e <> t)) by (cbn; tauto). rewrite Ef. rewrite (filter_cons_True (fun e => snd e = a)) by done. cbn [map fst]. rewrite filter_cons_False by tauto. split_and!.
    + symmetry. apply filter_ne_notin. intros [y Hy]%elem_of_map_fst. apply list_elem_of_filter in Hy as [_ Hy]. apply Hn1, elem_of_map_fst. by exists y.
    + intros a' Ha. by rewrite (filter_cons_False (fun e => snd e = a') (t, a) q) by (cbn; congruence).
    + done.
  - assert ((t, a) ∈ q) as Hin' by (apply elem_of_cons in Hin as [[= -> ->]|]; done). destruct (IH Hin' Hn2) as (H1 & H2 & H3). rewrite (filter_cons_True (fun e => fst e <> t)) by done. split_and!.
    + destruct (decide (x = a)) as [->|Hx]; [rewrite !(filter_cons_True (fun e => snd e = a)) by done; cbn [map fst]; rewrite (filter_cons_True (.≠ t)) by done; by rewrite H1|rewrite !(filter_cons_False (fun e => snd e = a)) by done; done].
    + intros a' Ha. destruct (decide (x = a')) as [->|Hx]; [rewrite !(filter_cons_True (fun e => snd e = a')) by done; cbn [map]; f_equal; by apply H2|rewrite !(filter_cons_False (fun e => snd e = a')) by done; by apply H2].
    + rewrite H3 at 1. apply perm_swap.
Qed.

Lemma filter_comm_at h a t l : only_at h a (filter (.≠ t) l) = filter (.≠ t) (only_at h a l).
Proof. unfold only_at. rewrite !list_filter_filter. apply list_filter_iff. tauto. Qed.

Lemma address_none p H Q q t : table_inv p H [] Q [] q -> t ∉ map fst q -> address_in (threadDatas p) t = None.
Proof. intros T Hn. destruct (address_in (threadDatas p) t) as [x|] eqn:E; [|done]. exfalso. apply Hn, elem_of_map_fst. exists x. by apply (ti_address _ _ _ _ _ _ T). Qed.

Lemma timeout_ok fuel p q t a time random : lot_ok p q -> (length q < fuel)%nat -> t ∈ dom (threadDatas p) -> (t ∈ map fst q -> (t, a) ∈ q) ->
  exists p', lot_timeout fuel p t a time random = Some (p', bool_decide (t ∈ map fst q)) /\ lot_ok p' (filter (fun e => fst e <> t) q) /\ kept_lot p p'.
Proof.
  intros K Hf Ht Hta. destruct (at_bucket_ignore_ok p q a K) as (p1 & H & Q & Eh & T & E2 & E3 & E4 & E1). unfold lot_timeout. rewrite E1. rewrite <- E2 in Ht. clear E1. destruct (decide (t ∈ map fst q)) as [Hin|Hin].
  - rewrite bool_decide_eq_true_2 by done. specialize (Hta Hin). assert (t ∈ threads_at q a) as Hat by (apply elem_of_map_fst; exists a; by apply list_elem_of_filter). destruct (threads_at_leave q t a Hta (ti_nodup _ _ _ _ _ _ T)) as (S1 & S2 & S3). set (q' := filter _ q) in *.
    destruct (slot_of H a) as [b|] eqn:Hsl; [|by rewrite (empty_slot _ _ _ _ _ T Hsl) in Hat; apply not_elem_of_nil in Hat]. destruct (slot_bucket _ _ _ _ _ _ a b T Hsl) as [k Hk]. destruct (links_bucket _ _ _ (ti_links _ _ _ _ _ _ T) b k Hk) as (_ & _ & _ & Hnd). rewrite <- (only_at_full _ _ _ _ _ _ T Hsl) in Hat, S1. apply list_elem_of_filter in Hat as [Hat HQt].
    destruct (links_dequeue (timeout_functor t) _ _ Q b k fuel false time random (ti_links _ _ _ _ _ _ T) Hk (queue_total _ _ _ _ _ _ b fuel T Hf)) as (l & Hl). cbv zeta in Hl. rewrite timeout_list, decide_True in Hl by done. destruct Hl as (Hg & HL & Hs). rewrite (on_bucket_eq p1 b k _ _ _ Hk Hg). cbn [mbind option_bind threadDatas buckets hashtable numThreads].
    rewrite <- (same_threads_dom _ _ Hs) in Ht. apply elem_of_dom in Ht as [d Hd]. rewrite Hd. cbn [mbind option_bind]. rewrite (links_free _ _ _ HL t d Hd); [|intros c; unfold set_queue; destruct (decide (c = b)) as [->|Hcb]; [rewrite list_elem_of_filter; tauto|intros F; by apply Hcb, (links_unique _ _ _ (ti_links _ _ _ _ _ _ T) c b t)]]. cbn [is_null guard mbind option_bind]. unfold update. rewrite Hd. cbn [mbind option_bind].
    eexists. split; [done|]. split; [|split_and!; [cbn; rewrite dom_insert_L, (same_threads_dom _ _ Hs), E2; apply elem_of_dom_2 in Hd; rewrite (same_threads_dom _ _ Hs), E2 in Hd; set_solver|done|intros H0 F; exists H; split; [done|by apply E4]]].
    apply (table_lot_ok _ H (set_queue Q b (filter (.≠ t) (Q b)))); [|done]. apply (leave_inv p1 H Q q a b [t] _ q'); try done.
    + by eapply links_data.
    + apply (insert_bucket_same _ b k _ Hk).
    + intros u. rewrite address_in_insert, (same_threads_address _ _ u Hs). destruct (decide (u = t)) as [->|Hut]; [by rewrite decide_True by set_solver|by rewrite decide_False by set_solver].
    + cbn [app]. clear -Hnd HQt. induction (Q b) as [|u l IH]; [by apply not_elem_of_nil in HQt|]. apply NoDup_cons in Hnd as [Hn1 Hn2]. destruct (decide (u = t)) as [->|Hut]; [rewrite filter_cons_False by tauto; by rewrite filter_ne_notin|]. rewrite filter_cons_True by done. rewrite IH at 1; [apply perm_swap|done || set_solver..].
    + by rewrite filter_comm_at, S1.
    + intros a' Ha. rewrite filter_comm_at. apply filter_ne_notin. intros F. apply list_elem_of_filter in F as [F _]. congruence.
  - rewrite bool_decide_eq_false_2 by done. pose proof (address_none _ _ _ _ _ T Hin) as Hnone. assert (forall c, t ∉ Q c) as Hnq by (intros c F; destruct (ti_home _ _ _ _ _ _ T c t F) as (x & F1 & _); congruence).
    assert (filter (fun e => fst e <> t) q = q) as ->. { clear -Hin. induction q as [|[v y] q IH]; [done|]. cbn in Hin. rewrite filter_cons_True by (cbn; set_solver). f_equal. apply IH. set_solver. }
    assert (exists p2 Q2, match slot_of H a with Some b => on_bucket p1 b (fun l => genericDequeue (timeout_functor t) fuel l false time random) | None => Some (p1, false) end = Some (p2, false) /\ hashtable p2 = Some H /\ table_inv p2 H [] Q2 [] q /\ (forall c, t ∉ Q2 c) /\ same_threads (threadDatas p1) (threadDatas p2) /\ numThreads p2 = numThreads p1) as (p2 & Q2 & -> & Eh2 & T2 & Hnq2 & Hs2 & En2).
    { destruct (slot_of H a) as [b|] eqn:Hsl; [|exists p1, Q; split_and!; try done; reflexivity]. destruct (slot_bucket _ _ _ _ _ _ a b T Hsl) as [k Hk]. destruct (links_bucket _ _ _ (ti_links _ _ _ _ _ _ T) b k Hk) as (_ & _ & _ & Hnd). destruct (links_dequeue (timeout_functor t) _ _ Q b k fuel false time random (ti_links _ _ _ _ _ _ T) Hk (queue_total _ _ _ _ _ _ b fuel T Hf)) as (l & Hl). cbv zeta in Hl. rewrite timeout_list, decide_False in Hl by done. destruct Hl as (Hg & HL & Hs). rewrite (on_bucket_eq p1 b k _ _ _ Hk Hg). eexists _, (set_queue Q b (Q b)). split; [done|]. split; [done|]. split; [|split_and!; try done].
      - apply (leave_inv p1 H Q q a b [] (Q b) q); try done; [apply (insert_bucket_same _ b k _ Hk)|intros u; rewrite decide_False by apply not_elem_of_nil; by apply same_threads_address|by apply only_at_full with H].
      - intros c. unfold set_queue. destruct (decide (c = b)); apply Hnq. }
    cbn [mbind option_bind]. rewrite <- (same_threads_dom _ _ Hs2) in Ht. apply elem_of_dom in Ht as [d Hd]. rewrite Hd. cbn [mbind option_bind]. rewrite (links_free _ _ _ (ti_links _ _ _ _ _ _ T2) t d Hd Hnq2). cbn [is_null guard mbind option_bind]. unfold update. rewrite Hd. cbn [mbind option_bind]. eexists. split; [done|].
    split; [|split_and!; [cbn; rewrite dom_insert_L, (same_threads_dom _ _ Hs2), E2; apply elem_of_dom_2 in Hd; rewrite (same_threads_dom _ _ Hs2), E2 in Hd; set_solver|cbn; congruence|intros H0 F; exists H; split; [done|by apply E4]]].
    apply (table_lot_ok _ H Q2); [|done]. apply (table_data p2 H Q2 q t d); try done. pose proof (same_threads_address _ _ t Hs2) as F. rewrite Hnone in F. unfold address_in in F. rewrite Hd in F. cbn in *. congruence.
Qed.

(** ** Threads come and go *)
Lemma heap_change p h q n : lot_ok p q -> (forall t, is_Some (threadDatas p !! t) -> t ∈ map fst q -> h !! t = threadDatas p !! t) -> (forall t d, h !! t = Some d -> t ∉ map fst q -> nextInQueue d = None /\ address d = None) ->
  lot_ok (mkParkingLot (hashtable p) (buckets p) h n) q.
Proof.
  intros K H1 H2. unfold lot_ok in *. cbn [hashtable buckets threadDatas]. destruct (hashtable p) as [H|].
  - destruct K as [Q T]. exists Q. pose proof (ti_links _ _ _ _ _ _ T) as L.
    assert (forall c t, t ∈ Q c -> t ∈ map fst q) as Hq by (intros c t Ht; destruct (ti_home _ _ _ _ _ _ T c t Ht) as (a & Ha & _); apply elem_of_map_fst; exists a; by apply (ti_address _ _ _ _ _ _ T)).
    assert (forall t, t ∈ map fst q -> is_Some (threadDatas p !! t)) as His. { intros t [a Ha]%elem_of_map_fst. apply (ti_address _ _ _ _ _ _ T) in Ha. unfold address_in in Ha. destruct (threadDatas p !! t); [by eexists|done]. }
    assert (forall t, address_in h t = address_in (threadDatas p) t) as Hadd. { intros t. destruct (decide (t ∈ map fst q)) as [F|F]; [unfold address_in; by rewrite H1 by auto|]. rewrite (address_none _ _ _ _ _ T F). unfold address_in. destruct (h !! t) as [d|] eqn:E; [|done]. cbn. by apply (H2 t d). }
    split; cbn [buckets threadDatas]; try apply T.
    + split; try apply L.
      * intros b k Hb. destruct (links_bucket _ _ _ L b k Hb) as (F1 & F2 & F3 & F4). split_and!; try done. eapply chain_agree; [|done]. intros t Ht. apply H1; [apply His|]; by apply (Hq b).
      * intros t d Ht Hn. destruct (decide (t ∈ map fst q)) as [F|F]; [|by apply (H2 t d)]. rewrite H1 in Ht by auto. by apply (links_free _ _ _ L t d).
    + intros b t Ht. rewrite Hadd. by apply (ti_home _ _ _ _ _ _ T).
    + intros a. rewrite <- (ti_order _ _ _ _ _ _ T a). f_equal; unfold only_at; apply list_filter_iff; intros u; by rewrite Hadd.
    + intros t a. rewrite Hadd. apply T.
    + intros t Ht. by apply not_elem_of_nil in Ht.
  - destruct K as (K1 & -> & K3). split; [done|]. split; [done|]. intros t d Hd. apply (H2 t d Hd). apply not_elem_of_nil.
Qed.
End ops.
