(* ===== verification/ParkingLotProps.v ===== *)
(** * ParkingLotProps: histories of the parking lot *)
From stdpp Require Import gmap sorting.
From S2P Require Import Prelude ParkingBucket ParkingBucketProps ParkingTable ParkingTableFacts ParkingTableOps.
Local Open Scope Z_scope.

#[local] Opaque intHash hashAddress.

(** ** Enumeration *)
Lemma queue_threads_spec h q fuel : chain h q None -> (length q <= fuel)%nat -> queue_threads fuel h (head q) = Some (map (fun t => (t, address_in h t)) q).
Proof.
  revert fuel. induction q as [|t q IH]; intros fuel Hc Hf; [by destruct fuel|]. destruct fuel as [|fuel]; [cbn in Hf; lia|]. cbn [chain] in Hc. destruct Hc as [(d & Hd & Hn) Hc]. cbn [head queue_threads]. rewrite Hd. cbn [mbind option_bind]. assert (nextInQueue d = head q) as -> by (rewrite Hn; by destruct q).
  rewrite IH by (done || cbn in Hf; lia). cbn [mbind option_bind map]. unfold address_in at 2. by rewrite Hd.
Qed.

Lemma forEach_loop_spec p H Q q fuel n : table_inv p H [] Q [] q -> (length q <= fuel)%nat -> (n <= length H)%nat ->
  exists r, forEach_loop fuel p H n = Some r /\ (forall t x, (t, x) ∈ r <-> x = address_in (threadDatas p) t /\ exists i b, (i < n)%nat /\ H !! i = Some (Some b) /\ t ∈ Q b) /\ NoDup (map fst r).
Proof.
  intros T Hf. induction n as [|n IH]; intros Hn; cbn [forEach_loop].
  { exists []. split; [done|]. split; [|constructor]. intros t x. split; [intros F; by apply not_elem_of_nil in F|]. intros (_ & i & b & Hi & _). lia. }
  rewrite zget_index by lia. destruct (lookup_lt_is_Some_2 H n ltac:(lia)) as [x E]. rewrite E. cbn [mbind option_bind]. destruct (IH ltac:(lia)) as (r & -> & R1 & R2). destruct x as [b|].
  - assert (is_Some (buckets p !! b)) as [k Hk] by (apply (ti_buckets _ _ _ _ _ _ T); left; by eapply list_elem_of_lookup_2). destruct (links_bucket _ _ _ (ti_links _ _ _ _ _ _ T) b k Hk) as (L1 & _ & L3 & L4). rewrite Hk. cbn [mbind option_bind]. rewrite L1, queue_threads_spec by (done || pose proof (queue_total _ _ _ _ _ _ b (S (length q)) T ltac:(lia)); lia). cbn [mbind option_bind].
    assert (forall t x, (t, x) ∈ map (fun t => (t, address_in (threadDatas p) t)) (Q b) <-> x = address_in (threadDatas p) t /\ t ∈ Q b) as Hm. { intros t x. rewrite list_elem_of_In, in_map_iff. split; [intros (u & [= <- <-] & Hu); split; [done|by apply list_elem_of_In]|intros [-> Ht]; exists t; split; [done|by apply list_elem_of_In]]. }
    eexists. split; [done|]. split.
    + intros t x. rewrite elem_of_app, Hm, R1. split.
      * intros [[-> Ht]|[-> (i & c & Hi & Hc & Ht)]]; (split; [done|]); [exists n, b|exists i, c]; split_and!; try done; lia.
      * intros [-> (i & c & Hi & Hc & Ht)]. destruct (decide (i = n)) as [->|Hin]; [left; assert (c = b) as -> by congruence; done|right]. split; [done|]. exists i, c. split_and!; try done. lia.
    + rewrite map_app, map_map. cbn [fst]. rewrite map_id. apply NoDup_app. split; [done|]. split; [|done]. intros t Ht [x F]%list_elem_of_In%in_map_iff. destruct x as [u x]. destruct F as [Eu F]. cbn in Eu. subst u. apply list_elem_of_In, R1 in F as [_ (i & c & Hi & Hc & Htc)]. assert (c = b) as -> by (by apply (links_unique _ _ _ (ti_links _ _ _ _ _ _ T) c b t)). assert (i = n) as -> by (by apply (ti_inj _ _ _ _ _ _ T i n b)). lia.
  - cbn [mbind option_bind app]. exists r. split; [done|]. split; [|done]. intros t x. rewrite R1. split; intros [-> (i & c & Hi & Hc & Ht)]; (split; [done|]); exists i, c; split_and!; try done; [lia|]. assert (i <> n) by congruence. lia.
Qed.

Section history.
Context (alloc : gset bid -> bid) (alloc_fresh : forall X, alloc X ∉ X).

Lemma forEachImpl_ok p q fuel : lot_ok p q -> (length q <= fuel)%nat -> exists p' r, forEachImpl alloc fuel p = Some (p', r) /\ lot_ok p' q /\ Permutation r (map (fun e => (fst e, Some (snd e))) q).
Proof.
  intros K Hf. destruct (lockHashtable_ok alloc alloc_fresh p q K) as (p1 & H & Q & bs & E1 & Eh & T & _). unfold forEachImpl. rewrite (mbind_Some _ _ _ E1). cbv beta iota. destruct (forEach_loop_spec p1 H Q q fuel (length H) T Hf (le_n _)) as (r & E2 & R1 & R2). rewrite (mbind_Some _ _ _ E2). exists p1, r. split; [done|]. split; [by apply (table_lot_ok p1 H Q)|].
  apply NoDup_Permutation; [by eapply NoDup_fmap_1|apply NoDup_fmap_2_strong; [|by eapply NoDup_fmap_1, (ti_nodup _ _ _ _ _ _ T)]; intros [t a] [u x] _ _ [= -> ->]; done|]. intros [t x]. rewrite R1, (list_elem_of_In _ (t, x)), in_map_iff. split.
  - intros [-> (i & b & _ & _ & Ht)]. destruct (ti_home _ _ _ _ _ _ T b t Ht) as (a & Ha & _). exists (t, a). cbn. rewrite Ha. split; [done|]. apply list_elem_of_In. by apply (ti_address _ _ _ _ _ _ T).
  - intros ([u a] & [= <- <-] & Hin). apply list_elem_of_In in Hin. split; [symmetry; by apply (ti_address _ _ _ _ _ _ T)|]. assert (u ∈ threads_at q a) as F by (apply elem_of_map_fst; exists a; by apply list_elem_of_filter). destruct (slot_of H a) as [b|] eqn:Hsl; [|rewrite (empty_slot _ _ _ _ _ T Hsl) in F; by apply not_elem_of_nil in F]. rewrite <- (only_at_full _ _ _ _ _ _ T Hsl) in F. apply list_elem_of_filter in F as [_ F].
    unfold slot_of in Hsl. destruct (H !! index_of H a) as [y|] eqn:Ey; [|done]. cbn in Hsl. subst y. exists (index_of H a), b. split_and!; try done. by eapply lookup_lt_Some.
Qed.

(** ** Histories *)
Inductive lot_event : Type :=
  | NewThread (t : tid) (time random : Z)
  | EndThread (t : tid)
  | ParkAt (t : tid) (a : Z) (validation : bool)
  | UnparkOneAt (a time random token : Z)
  | UnparkCountAt (a count time random : Z)
  | TimeoutAt (t : tid) (a time random : Z).

(** The threads that left a queue, and whether more may be parked at the address. *)
Definition run_lot_event (p : parking_lot) (e : lot_event) : option (parking_lot * (list tid * bool)) :=
  let fuel := S (size (threadDatas p)) in
  match e with
  | NewThread t time random => p ← new_thread alloc (S fuel) p t time random; Some (p, ([], false))
  | EndThread t => Some (end_thread p t, ([], false))
  | ParkAt t a v => '(p, _) ← lot_park alloc p t a v; Some (p, ([], false))
  | UnparkOneAt a time random k => '(p, (r, t)) ← lot_unparkOne alloc fuel p a time random (fun _ => k); Some (p, (option_list t, mayHaveMoreThreads r))
  | UnparkCountAt a n time random => '(p, ts) ← lot_unparkCount fuel p a n time random; Some (p, (ts, false))
  | TimeoutAt t a time random => '(p, b) ← lot_timeout fuel p t a time random; Some (p, (if b : bool then [t] else [], false))
  end.

(** The same on the set of threads and the sequence of the parked ones: a queue for each address. *)
Definition spec_lot_event (K : gset tid) (q : list (tid * Z)) (e : lot_event) : gset tid * list (tid * Z) * (list tid * bool) :=
  match e with
  | NewThread t _ _ => ({[t]} ∪ K, q, ([], false))
  | EndThread t => (K ∖ {[t]}, q, ([], false))
  | ParkAt t a v => (K, if v : bool then q ++ [(t, a)] else q, ([], false))
  | UnparkOneAt a _ _ _ => let '(r, q') := take_first (fun e => snd e =? a) q in (K, q', (option_list (fst <$> r), negb (bool_decide (threads_at q' a = []))))
  | UnparkCountAt a n _ _ => let '(r, q') := take_some (fun e => snd e =? a) n q in (K, q', (map fst r, false))
  | TimeoutAt t _ _ _ => (K, filter (fun e => fst e <> t) q, (if bool_decide (t ∈ map fst q) then [t] else [], false))
  end.

(** There are fewer threads than 2^32 / 6; a thread that ends or parks is not parked; one that times out gives its address. *)
Definition lot_enabled (K : gset tid) (q : list (tid * Z)) (e : lot_event) : Prop :=
  match e with
  | NewThread t _ _ => t ∉ K /\ 6 * (Z.of_nat (size K) + 1) < 2 ^ 32
  | EndThread t | ParkAt t _ _ => t ∈ K /\ t ∉ map fst q
  | UnparkOneAt _ _ _ _ => True
  | UnparkCountAt _ n _ _ => 0 <= n
  | TimeoutAt t a _ _ => t ∈ K /\ (t ∈ map fst q -> (t, a) ∈ q)
  end.

Fixpoint run_lot (p : parking_lot) (es : list lot_event) : option (parking_lot * list (list tid * bool)) :=
  match es with [] => Some (p, []) | e :: es => '(p, o) ← run_lot_event p e; '(p, os) ← run_lot p es; Some (p, o :: os) end.
Fixpoint spec_lot (K : gset tid) (q : list (tid * Z)) (es : list lot_event) : gset tid * list (tid * Z) * list (list tid * bool) :=
  match es with [] => (K, q, []) | e :: es => let '(K, q, o) := spec_lot_event K q e in let '(K, q, os) := spec_lot K q es in (K, q, o :: os) end.
Fixpoint lot_all_enabled (K : gset tid) (q : list (tid * Z)) (es : list lot_event) : Prop :=
  match es with [] => True | e :: es => lot_enabled K q e /\ let '(K, q, _) := spec_lot_event K q e in lot_all_enabled K q es end.

(** The same threads; the code may say that more are parked although they are at another address. *)
Definition same_out (o s : list tid * bool) : Prop := fst o = fst s /\ (snd s = true -> snd o = true).

(** The threads are [K], the parked ones [q], and the table has at least three buckets for each thread. *)
Record lot_state (p : parking_lot) (K : gset tid) (q : list (tid * Z)) : Prop := {
  ls_ok : lot_ok p q;
  ls_known : dom (threadDatas p) = K;
  ls_count : numThreads p = Z.of_nat (size K) /\ 6 * Z.of_nat (size K) < 2 ^ 32;
  ls_load : K <> ∅ -> exists H, hashtable p = Some H /\ 3 * numThreads p <= zlen H
}.

Lemma lot_size p q : lot_ok p q -> (length q <= size (threadDatas p))%nat /\ forall t, t ∈ map fst q -> t ∈ dom (threadDatas p).
Proof.
  intros K. assert (NoDup (map fst q) /\ forall t, t ∈ map fst q -> t ∈ dom (threadDatas p)) as [H1 H2].
  { unfold lot_ok in K. destruct (hashtable p) as [H|]; [|destruct K as (_ & -> & _); split; [constructor|]; intros t F; by apply not_elem_of_nil in F]. destruct K as [Q T]. split; [apply T|]. intros t [a Ha]%elem_of_map_fst. apply (ti_address _ _ _ _ _ _ T) in Ha. unfold address_in in Ha. apply elem_of_dom. destruct (threadDatas p !! t); [by eexists|done]. }
  split; [|done]. rewrite <- size_dom, <- (length_map fst q), <- (size_list_to_set (C := gset tid)) by done. apply subseteq_size. intros t Ht. apply elem_of_list_to_set in Ht. by apply H2.
Qed.

Lemma kept_state p p' K q q' : lot_state p K q -> lot_ok p' q' -> kept_lot p p' -> lot_state p' K q'.
Proof.
  intros [S1 S2 S3 S4] H (K1 & K2 & K3). split; [done|congruence|by rewrite K2|]. intros HK. destruct (S4 HK) as (H0 & E & F). destruct (K3 H0 E) as (H1 & E1 & E2). exists H1. split; [done|]. rewrite K2. unfold zlen in *. lia.
Qed.

Lemma new_thread_step p K q t time random : lot_state p K q -> t ∉ K -> 6 * (Z.of_nat (size K) + 1) < 2 ^ 32 ->
  exists p', new_thread alloc (S (S (size (threadDatas p)))) p t time random = Some p' /\ lot_state p' ({[t]} ∪ K) q.
Proof.
  intros [S1 S2 S3 S4] Ht Hmax. destruct (lot_size p q S1) as [Hsz Hin]. unfold new_thread. destruct S3 as [S3 S3']. rewrite S3, u32_small by lia. set (n := Z.of_nat (size K) + 1) in *. assert (threadDatas p !! t = None) as Hnone by (apply not_elem_of_dom; by rewrite S2).
  assert (size ({[t]} ∪ K) = S (size K)) as Hsize by (rewrite size_union, size_singleton by set_solver; lia).
  destruct (ensureHashtableSize_ok alloc alloc_fresh (S (S (size (threadDatas p)))) (mkParkingLot (hashtable p) (buckets p) (<[t := mkThreadData None None 0]> (threadDatas p)) n) q n time random) as (p' & E & K' & En & Es & H & Eh & El); [|lia|lia|lia|].
  - apply (heap_change p _ q n S1).
    + intros u Hu Huq. rewrite lookup_insert_ne; [done|]. intros <-. rewrite Hnone in Hu. by destruct Hu.
    + intros u d Hd Hu. destruct (decide (u = t)) as [->|Hut]; [rewrite lookup_insert_eq in Hd; by injection Hd as <-|]. rewrite lookup_insert_ne in Hd by done. pose proof (S1 : lot_ok p q) as L. unfold lot_ok in L. destruct (hashtable p) as [H|]; [|by apply L with u]. destruct L as [Q T]. pose proof (address_none _ _ _ _ _ T Hu) as Ha. assert (address d = None) as Ead by (unfold address_in in Ha; by rewrite Hd in Ha). split; [|done].
      apply (links_free _ _ _ (ti_links _ _ _ _ _ _ T) u d Hd). intros b F. destruct (ti_home _ _ _ _ _ _ T b u F) as (a & Fa & _). congruence.
  - exists p'. split; [done|]. split; [done| | |].
    + rewrite (same_threads_dom _ _ Es). cbn [threadDatas]. by rewrite dom_insert_L, S2.
    + rewrite En, Hsize. cbn [numThreads]. unfold n. lia.
    + intros _. exists H. split; [done|]. rewrite En. exact El.
Qed.

Lemma end_thread_step p K q t : lot_state p K q -> t ∈ K -> t ∉ map fst q -> lot_state (end_thread p t) (K ∖ {[t]}) q.
Proof.
  intros [S1 S2 S3 S4] Ht Hn. assert (size (K ∖ {[t]}) = pred (size K)) as Hsize by (rewrite size_difference by set_solver; rewrite size_singleton; lia). assert (size K <> 0%nat) as Hpos by (intros F%size_empty_inv; set_solver). destruct S3 as [S3 S3']. unfold end_thread. split; cbn [threadDatas numThreads hashtable].
  - apply (heap_change p _ q _ S1).
    + intros u Hu Huq. rewrite lookup_delete_ne; [done|]. by intros <-.
    + intros u d Hd Hu. apply lookup_delete_Some in Hd as [Hut Hd]. pose proof (S1 : lot_ok p q) as L. unfold lot_ok in L. destruct (hashtable p) as [H|]; [|by apply L with u]. destruct L as [Q T]. pose proof (address_none _ _ _ _ _ T Hu) as Ha. assert (address d = None) as Ead by (unfold address_in in Ha; by rewrite Hd in Ha). split; [|done].
      apply (links_free _ _ _ (ti_links _ _ _ _ _ _ T) u d Hd). intros b F. destruct (ti_home _ _ _ _ _ _ T b u F) as (a & Fa & _). congruence.
  - by rewrite dom_delete_L, S2.
  - rewrite u32_small by lia. lia.
  - intros _. destruct S4 as (H & E & F); [set_solver|]. exists H. split; [done|]. rewrite u32_small by lia. lia.
Qed.

Lemma lot_step p K q e : lot_state p K q -> lot_enabled K q e ->
  exists p' o, run_lot_event p e = Some (p', o) /\ let '(K', q', s) := spec_lot_event K q e in lot_state p' K' q' /\ same_out o s.
Proof.
  intros St He. pose proof (ls_ok _ _ _ St) as L. destruct (lot_size p q L) as [Hsz _]. pose proof (ls_known _ _ _ St) as Hk. destruct e as [t time random|t|t a v|a time random k|a n time random|t a time random]; cbn [run_lot_event spec_lot_event lot_enabled] in *.
  - destruct He as [H1 H2]. destruct (new_thread_step p K q t time random St H1 H2) as (p' & E & St'). rewrite (mbind_Some _ _ _ E). by eexists _, _.
  - destruct He as [H1 H2]. eexists _, _. split; [done|]. split; [by apply end_thread_step|done].
  - destruct He as [H1 H2]. destruct (park_ok alloc alloc_fresh p q t a v L ltac:(by rewrite Hk) H2) as (p' & E & L' & Hkept). rewrite (mbind_Some _ _ _ E). eexists _, _. split; [done|]. split; [by eapply kept_state|done].
  - pose proof (unparkOne_ok alloc alloc_fresh (S (size (threadDatas p))) p q a time random (fun _ => k) L ltac:(lia)) as Hu. destruct (take_first _ q) as [r q']. destruct Hu as (p' & res & E & L' & Hkept & _ & Hmore). rewrite (mbind_Some _ _ _ E). eexists _, _. split; [done|]. split; [by eapply kept_state|]. split; [done|]. cbn. intros F. bool_prop. apply bool_decide_eq_false in F. destruct (mayHaveMoreThreads res); [done|]. by destruct F; apply Hmore.
  - pose proof (unparkCount_ok alloc alloc_fresh (S (size (threadDatas p))) p q a n time random L ltac:(lia) He) as Hu. destruct (take_some _ n q) as [r q']. destruct Hu as (p' & E & L' & Hkept). rewrite (mbind_Some _ _ _ E). eexists _, _. split; [done|]. split; [by eapply kept_state|done].
  - destruct He as [H1 H2]. destruct (timeout_ok alloc alloc_fresh (S (size (threadDatas p))) p q t a time random L ltac:(lia) ltac:(by rewrite Hk) H2) as (p' & E & L' & Hkept). rewrite (mbind_Some _ _ _ E). eexists _, _. split; [done|]. split; [by eapply kept_state|]. split; [|done]. cbn. by case_bool_decide.
Qed.

Lemma lot_history p K q es : lot_state p K q -> lot_all_enabled K q es ->
  exists p' os, run_lot p es = Some (p', os) /\ let '(K', q', ss) := spec_lot K q es in lot_state p' K' q' /\ Forall2 same_out os ss.
Proof.
  revert p K q. induction es as [|e es IH]; intros p K q St He; cbn [run_lot spec_lot]; [by exists p, []|]. destruct He as [He Hes]. destruct (lot_step p K q e St He) as (p1 & o & E & Hs). rewrite (mbind_Some _ _ _ E). cbv beta iota. destruct (spec_lot_event K q e) as [[K1 q1] s]. destruct Hs as [St1 Ho]. destruct (IH p1 K1 q1 St1 Hes) as (p' & os & E' & Hs). rewrite (mbind_Some _ _ _ E').
  destruct (spec_lot K1 q1 es) as [[K' q'] ss]. destruct Hs as [St' Hos]. eexists _, _. split; [done|]. split; [done|by constructor].
Qed.

Lemma empty_state : lot_state empty_parking_lot ∅ [].
Proof. split; cbn; done. Qed.

(** C39: under any history in which threads begin and end, park at addresses, are unparked one or several at a time and time
    out, the parking lot is a queue for each address: an unparked thread is the one that has been parked at the address the
    longest, and the code says that no more threads are parked there only when none is.  The growth of the hash table on
    the way loses no thread and keeps the order at each address; it always ends with at least three buckets for each
    thread; no assertion fails; and the enumeration of the lot gives exactly the parked threads. *)
Theorem ParkingLot_history (es : list lot_event) : lot_all_enabled ∅ [] es ->
  let '(K, q, ss) := spec_lot ∅ [] es in
  exists p os, run_lot empty_parking_lot es = Some (p, os) /\ Forall2 same_out os ss /\ (K <> ∅ -> exists H, hashtable p = Some H /\ 3 * Z.of_nat (size K) <= zlen H) /\
    exists p' r, forEachImpl alloc (length q) p = Some (p', r) /\ Permutation r (map (fun e => (fst e, Some (snd e))) q).
Proof.
  intros He. destruct (lot_history empty_parking_lot ∅ [] es empty_state He) as (p & os & E & Hs). destruct (spec_lot ∅ [] es) as [[K q] ss]. destruct Hs as [St Hos]. exists p, os. split; [done|]. split; [done|]. split.
  - intros HK. destruct (ls_load _ _ _ St HK) as (H & E1 & E2). exists H. split; [done|]. destruct (ls_count _ _ _ St) as [Ec _]. lia.
  - destruct (forEachImpl_ok p q (length q) (ls_ok _ _ _ St) (le_n _)) as (p' & r & E1 & _ & E2). by exists p', r.
Qed.
End history.

(** Four threads at two addresses, with growth of the table while threads are parked. *)
Definition sample_history : list lot_event :=
  [NewThread 1%positive 5 1; ParkAt 1%positive 8 true; NewThread 2%positive 5 1; ParkAt 2%positive 8 true; NewThread 3%positive 5 1; ParkAt 3%positive 16 true; NewThread 4%positive 6 1;
   UnparkOneAt 8 7 1 0; ParkAt 4%positive 8 true; TimeoutAt 2%positive 8 8 1; EndThread 2%positive; UnparkCountAt 16 4294967295 9 1].

Lemma ParkingLot_history_witness :
  let '(K, q, ss) := spec_lot ∅ [] sample_history in
  exists p os, run_lot fresh empty_parking_lot sample_history = Some (p, os) /\ Forall2 same_out os ss /\ (K <> ∅ -> exists H, hashtable p = Some H /\ 3 * Z.of_nat (size K) <= zlen H) /\
    exists p' r, forEachImpl fresh (length q) p = Some (p', r) /\ Permutation r (map (fun e => (fst e, Some (snd e))) q).
Proof.
  apply (ParkingLot_history fresh); [intros X; apply is_fresh|]. cbn. split_and!; (done || set_solver).
Defined.
