(* ===== verification/B3Value.v ===== *)
(** * B3Value: values and procedures of the B3 compiler (src/Source/JavaScriptCore/b3)

    A value is known by its index in the procedure; its children are indices, so that values are shared and a change of a
    value is seen by all its users.  Functions run in a monad with the procedure as its state; [None] is a failed assertion or a
    read outside of the procedure.  The opcodes are those of operations on integers; every other one is [OtherOp]. *)
From stdpp Require Import gmap.
From S2P Require Import Prelude.
Local Open Scope Z_scope.

Inductive B3Type : Type := Void | Int32 | Int64 | Float | Double.
Inductive Width : Type := Width8 | Width16 | Width32 | Width64.

(** [OtherOp]: a value outside of the integer operations. *)
Inductive Opcode : Type :=
  | Identity | Const32 | Const64 | ConstDouble | ConstFloat
  | Add | Sub | Mul | Div | UDiv | Mod | UMod | Neg
  | BitAnd | BitOr | BitXor | Shl | SShr | ZShr | RotR | RotL
  | SExt8 | SExt16 | SExt32 | ZExt32 | Trunc | Select
  | Equal | NotEqual | LessThan | GreaterThan | LessEqual | GreaterEqual | Above | Below | AboveEqual | BelowEqual
  | EqualOrUnordered | AtomicWeakCAS | AtomicStrongCAS | AtomicXchgOp (accessWidth : Width)
  | CheckAdd | CheckSub | CheckMul | OtherOp.

#[export] Instance B3Type_eq_dec : EqDecision B3Type.
Proof. solve_decision. Defined.
#[export] Instance Width_eq_dec : EqDecision Width.
Proof. solve_decision. Defined.
#[export] Instance Opcode_eq_dec : EqDecision Opcode.
Proof. solve_decision. Defined.

(** [m_value] is the number of a constant. *)
Record Value : Type := mkValue { m_opcode : Opcode; m_isChill : bool; m_type : B3Type; m_children : list Z; m_value : Z }.

(** The procedure and what a pass keeps of its work: the values it inserted before the current one, oldest first, and whether
    it changed anything.  The last element of [m_indexFreeList] is first in the list. *)
Record Proc : Type := mkProc { m_vector : gmap Z Value; m_size : Z; m_indexFreeList : list Z; m_insertions : list Z; m_changed : bool }.

Definition is_int (t : B3Type) : bool := match t with Int32 | Int64 => true | _ => false end.
Definition bits (t : B3Type) : Z := match t with Int32 => 32 | _ => 64 end.
(** The conversion to the signed integers of a type. *)
Definition wrap (t : B3Type) (x : Z) : Z := match t with Int32 => s32 x | _ => s64 x end.
(** The conversion to its unsigned integers. *)
Definition unsigned (t : B3Type) (x : Z) : Z := match t with Int32 => u32 x | _ => u64 x end.

Definition sizeofType (t : B3Type) : Z := match t with Void => 0 | Int32 | Float => 4 | Int64 | Double => 8 end.

(** ** The monad *)
Definition M (A : Type) : Type := Proc -> option (A * Proc).
Definition ret {A} (a : A) : M A := fun p => Some (a, p).
Definition bind {A B} (c : M A) (k : A -> M B) : M B := fun p => '(a, p) ← c p; k a p.
Definition need {A} (o : option A) : M A := fun p => a ← o; Some (a, p).
Definition skip : M unit := ret tt.

Declare Scope b3_scope.
Delimit Scope b3_scope with b3.
Notation "x <- c ;; k" := (bind c (fun x => k)) (at level 100, c at next level, right associativity) : b3_scope.
Notation "c ;;; k" := (bind c (fun _ => k)) (at level 100, right associativity) : b3_scope.
Open Scope b3_scope.

Definition get (v : Z) : M Value := fun p => n ← m_vector p !! v; Some (n, p).
Definition set_vector (f : gmap Z Value -> gmap Z Value) (p : Proc) : Proc := mkProc (f (m_vector p)) (m_size p) (m_indexFreeList p) (m_insertions p) (m_changed p).
(** Write over the value at an index of the procedure. *)
Definition put (v : Z) (n : Value) : M unit := fun p => _ ← m_vector p !! v; Some (tt, set_vector <[v := n]> p).
Definition changed : M unit := fun p => Some (tt, mkProc (m_vector p) (m_size p) (m_indexFreeList p) (m_insertions p) true).

(** [SparseCollection::add]: an index that was given back, or a new one. *)
Definition proc_add (n : Value) : M Z := fun p =>
  match m_indexFreeList p with
  | [] =>
    _ ← guard (m_vector p !! m_size p = None);
    Some (m_size p, mkProc (<[m_size p := n]> (m_vector p)) (m_size p + 1) [] (m_insertions p) (m_changed p))
  | i :: free =>
    _ ← guard (m_vector p !! i = None);
    Some (i, mkProc (<[i := n]> (m_vector p)) (m_size p) free (m_insertions p) (m_changed p))
  end.

(** [InsertionSet::insertValue] before the current value. *)
Definition insertValue (v : Z) : M Z := fun p => Some (v, mkProc (m_vector p) (m_size p) (m_indexFreeList p) (m_insertions p ++ [v]) (m_changed p)).

(** ** Questions to a value *)
Definition child (n : Value) (i : nat) : M Z := need (m_children n !! i).
(** The value that is a child. *)
Definition child_value (n : Value) (i : nat) : M Value := c <- child n i ;; get c.

Definition isConstant (n : Value) : bool := match m_opcode n with Const32 | Const64 | ConstDouble | ConstFloat => true | _ => false end.
Definition isInteger (n : Value) : bool := is_int (m_type n).
Definition hasInt32 (n : Value) : bool := match m_opcode n with Const32 => true | _ => false end.
Definition hasInt64 (n : Value) : bool := match m_opcode n with Const64 => true | _ => false end.
Definition hasInt (n : Value) : bool := hasInt32 n || hasInt64 n.
(** The number of a constant; callers ask [hasInt32], [hasInt64] or [hasInt] before. *)
Definition asInt (n : Value) : Z := m_value n.
Definition isInt32 (n : Value) (z : Z) : bool := hasInt32 n && (asInt n =? z).
Definition isInt64 (n : Value) (z : Z) : bool := hasInt64 n && (asInt n =? z).
Definition isInt (n : Value) (z : Z) : bool := hasInt n && (asInt n =? z).
Definition is_op (n : Value) (op : Opcode) : bool := bool_decide (m_opcode n = op).
Definition isAtomicXchg8 (n : Value) : bool := is_op n (AtomicXchgOp Width8).
Definition isAtomicXchg16 (n : Value) : bool := is_op n (AtomicXchgOp Width16).

(** [returnsBool]: the recursion ends because values have no cycles; the fuel is the number of values. *)
Fixpoint returnsBool_loop (fuel : nat) (p : Proc) (v : Z) : option bool :=
  match fuel with
  | O => None
  | S fuel =>
    n ← m_vector p !! v;
    if negb (bool_decide (m_type n = Int32)) then Some false else
    let rec (i : nat) := (m_children n !! i) ≫= returnsBool_loop fuel p in
    match m_opcode n with
    | Const32 => Some ((asInt n =? 0) || (asInt n =? 1))
    | BitAnd => a ← rec 0%nat; if (a : bool) then Some true else rec 1%nat
    | BitOr | BitXor => a ← rec 0%nat; if (a : bool) then rec 1%nat else Some false
    | Select => a ← rec 1%nat; if (a : bool) then rec 2%nat else Some false
    | Identity => rec 0%nat
    | Equal | NotEqual | LessThan | GreaterThan | LessEqual | GreaterEqual | Above | Below | AboveEqual | BelowEqual
    | EqualOrUnordered | AtomicWeakCAS => Some true
    | _ => Some false
    end
  end.
Definition returnsBool (v : Z) : M bool := fun p => b ← returnsBool_loop (size (m_vector p)) p v; Some (b, p).

(** ** Making values *)
Definition const32 (z : Z) : Value := mkValue Const32 false Int32 [] z.
Definition const64 (z : Z) : Value := mkValue Const64 false Int64 [] z.

(** [Procedure::addIntConstant], for the integer types. *)
Definition addIntConstant (t : B3Type) (z : Z) : M Z :=
  match t with
  | Int32 => proc_add (const32 (s32 z))
  | Int64 => proc_add (const64 (s64 z))
  | _ => need None
  end.

(** The type of a new value from its first two children. *)
Definition typeFor (op : Opcode) (first : B3Type) (second : option B3Type) : option B3Type :=
  match op with
  | Identity | Add | Sub | Mul | Div | UDiv | Mod | UMod | Neg | BitAnd | BitOr | BitXor | Shl | SShr | ZShr | RotR | RotL
  | CheckAdd | CheckSub | CheckMul => Some first
  | SExt8 | SExt16 | Equal | NotEqual | LessThan | GreaterThan | LessEqual | GreaterEqual | Above | Below | AboveEqual | BelowEqual
  | EqualOrUnordered => Some Int32
  | Trunc => Some (if decide (first = Int64) then Int32 else Float)
  | SExt32 | ZExt32 => Some Int64
  | Select => second
  | _ => None
  end.

(** The constructor of a value from an opcode and its children. *)
Definition makeValue (op : Opcode) (chill : bool) (cs : list Z) : M Value :=
  first <- (c <- need (cs !! 0%nat) ;; get c) ;;
  second <- match cs !! 1%nat with Some c => n <- get c ;; ret (Some (m_type n)) | None => ret None end ;;
  t <- need (typeFor op (m_type first) second) ;;
  ret (mkValue op chill t cs 0).
Definition newValue (op : Opcode) (cs : list Z) : M Z := n <- makeValue op false cs ;; proc_add n.

(** [m_insertionSet.insert<Value>], [insert<Const32Value>] and [insert<Const64Value>]. *)
Definition insertNew (op : Opcode) (cs : list Z) : M Z := v <- newValue op cs ;; insertValue v.
Definition insertConst32 (z : Z) : M Z := v <- proc_add (const32 (s32 z)) ;; insertValue v.
Definition insertConst64 (z : Z) : M Z := v <- proc_add (const64 (s64 z)) ;; insertValue v.

(** ** Changing a value *)
Definition list_set (l : list Z) (i : nat) (v : Z) : option (list Z) := _ ← l !! i; Some (<[i := v]> l).
Definition set_child (m : Z) (i : nat) (v : Z) : M unit :=
  n <- get m ;; cs <- need (list_set (m_children n) i v) ;; put m (mkValue (m_opcode n) (m_isChill n) (m_type n) cs (m_value n)).

(** [Value::replaceWithIdentity]; the values of these operations have a type other than [Void]. *)
Definition value_replaceWithIdentity (m v : Z) : M unit :=
  n <- get m ;; nv <- get v ;;
  need (guard (m_type n = m_type nv)) ;;; need (guard (v <> m)) ;;; need (guard (m_type n <> Void)) ;;;
  put m (mkValue Identity false (m_type n) [v] 0).

(** [CheckValue::convertToAdd]. *)
Definition convertToAdd (m : Z) : M unit :=
  n <- get m ;;
  need (guard (m_opcode n = CheckAdd \/ m_opcode n = CheckSub \/ m_opcode n = CheckMul)) ;;;
  put m (mkValue CheckAdd false (m_type n) (m_children n) (m_value n)).

(** [Value::foldIdentity] and [performSubstitution]. *)
Fixpoint foldIdentity_loop (fuel : nat) (p : Proc) (v : Z) : option Z :=
  match fuel with
  | O => None
  | S fuel =>
    n ← m_vector p !! v;
    if is_op n Identity then c ← m_children n !! 0%nat; foldIdentity_loop fuel p c else Some v
  end.
Definition foldIdentity (v : Z) : M Z := fun p => w ← foldIdentity_loop (size (m_vector p)) p v; Some (w, p).

Fixpoint substitute_children (cs : list Z) : M (list Z) :=
  match cs with
  | [] => ret []
  | c :: cs => c' <- foldIdentity c ;; cs' <- substitute_children cs ;; ret (c' :: cs')
  end.
Definition performSubstitution (m : Z) : M unit :=
  n <- get m ;; cs <- substitute_children (m_children n) ;; put m (mkValue (m_opcode n) (m_isChill n) (m_type n) cs (m_value n)).

(** [Value::invertedCompare]: a new value with the opposite comparison. *)
Definition invertedCompare_opcode (op : Opcode) (t : B3Type) : option Opcode :=
  match op with
  | Equal => Some NotEqual
  | NotEqual => Some Equal
  | LessThan => if is_int t then Some GreaterEqual else None
  | GreaterThan => if is_int t then Some LessEqual else None
  | LessEqual => if is_int t then Some GreaterThan else None
  | GreaterEqual => if is_int t then Some LessThan else None
  | Above => Some BelowEqual
  | Below => Some AboveEqual
  | AboveEqual => Some Below
  | BelowEqual => Some Above
  | _ => None
  end.
Definition invertedCompare (n : Value) : M (option Z) :=
  match m_children n with
  | [] => ret None
  | c :: _ =>
    nc <- get c ;;
    match invertedCompare_opcode (m_opcode n) (m_type nc) with
    | Some op => v <- proc_add (mkValue op false (m_type n) (m_children n) 0) ;; ret (Some v)
    | None => ret None
    end
  end.
