(* ===== verification/B3Const.v ===== *)
(** * B3Const: constants of 32 and 64 bits and their folding (b3/B3Const32Value.cpp, B3Const64Value.cpp, B3Common.h,
    wtf/CheckedArithmetic.h)

    The methods of the two classes of constants, and the virtual calls on a value that choose between them.  Signed
    arithmetic of the methods wraps around, as the instructions do that it stands for. *)
From stdpp Require Import gmap.
From S2P Require Import Prelude B3Value.
Local Open Scope Z_scope.

(** ** Checked arithmetic *)
Record Checked : Type := mkChecked { unsafeGet : Z; hasOverflowed : bool }.
Definition in_type (t : B3Type) (x : Z) : bool := match t with Int32 => (- 2 ^ 31 <=? x) && (x <? 2 ^ 31) | _ => (- 2 ^ 63 <=? x) && (x <? 2 ^ 63) end.
(** The constructor from a number of 64 bits. *)
Definition checked (t : B3Type) (x : Z) : Checked := mkChecked (wrap t x) (negb (in_type t x)).
(** The operators: an overflow of an operand or of the operation. *)
Definition checked_op (t : B3Type) (f : Z -> Z -> Z) (a b : Checked) : Checked :=
  let result := f (unsafeGet a) (unsafeGet b) in
  let overflowed := hasOverflowed a || hasOverflowed b || negb (in_type t result) in
  if overflowed then mkChecked 0 true else mkChecked result false.
Definition checked_add (t : B3Type) (x y : Z) : Checked := checked_op t Z.add (checked t x) (checked t y).
Definition checked_sub (t : B3Type) (x y : Z) : Checked := checked_op t Z.sub (checked t x) (checked t y).
Definition checked_mul (t : B3Type) (x y : Z) : Checked := checked_op t Z.mul (checked t x) (checked t y).
Definition sumOverflows (t : B3Type) (x y : Z) : bool := hasOverflowed (checked_add t x y).
Definition differenceOverflows (t : B3Type) (x y : Z) : bool := hasOverflowed (checked_sub t x y).
Definition productOverflows (t : B3Type) (x y : Z) : bool := hasOverflowed (checked_mul t x y).

(** ** Division that does not trap, and rotation *)
Definition chillDiv (t : B3Type) (numerator denominator : Z) : Z :=
  if denominator =? 0 then 0 else
  if (denominator =? -1) && (numerator =? - 2 ^ (bits t - 1)) then - 2 ^ (bits t - 1) else Z.quot numerator denominator.
Definition chillMod (t : B3Type) (numerator denominator : Z) : Z :=
  if denominator =? 0 then 0 else
  if (denominator =? -1) && (numerator =? - 2 ^ (bits t - 1)) then 0 else Z.rem numerator denominator.
Definition chillUDiv (t : B3Type) (numerator denominator : Z) : Z :=
  if unsigned t denominator =? 0 then 0 else wrap t (unsigned t numerator / unsigned t denominator).
Definition chillUMod (t : B3Type) (numerator denominator : Z) : Z :=
  if unsigned t denominator =? 0 then 0 else wrap t (unsigned t numerator mod unsigned t denominator).
Definition rotateRight (t : B3Type) (value shift : Z) : Z :=
  let mask := bits t - 1 in let shift := Z.land shift mask in
  wrap t (Z.lor (Z.shiftr (unsigned t value) shift) (unsigned t (Z.shiftl (unsigned t value) (Z.land (bits t - shift) mask)))).
Definition rotateLeft (t : B3Type) (value shift : Z) : Z :=
  let mask := bits t - 1 in let shift := Z.land shift mask in
  wrap t (Z.lor (unsigned t (Z.shiftl (unsigned t value) shift)) (Z.shiftr (unsigned t value) (Z.land (bits t - shift) mask))).

Inductive TriState : Type := FalseTriState | TrueTriState | MixedTriState.
Definition triState (b : bool) : TriState := if b then TrueTriState else FalseTriState.
Definition tri_of (o : option bool) : TriState := match o with Some b => triState b | None => MixedTriState end.

(** ** The two classes *)
Module Const32Value.

(** The methods of a constant [v] of 32 bits; [None] is a null pointer: the other value is not such a constant. *)
Definition if_const {A} (other : Value) (f : Z -> A) : option A := if hasInt32 other then Some (f (asInt other)) else None.
Definition if_amount {A} (other : Value) (f : Z -> A) : option A := if hasInt32 other then Some (f (asInt other)) else None.
Definition negConstant (v : Z) : Z := s32 (- v).
Definition addConstant (v : Z) (other : Value) : option Z := if_const other (fun x => s32 (v + x)).
Definition subConstant (v : Z) (other : Value) : option Z := if_const other (fun x => s32 (v - x)).
Definition mulConstant (v : Z) (other : Value) : option Z := if_const other (fun x => s32 (v * x)).
Definition checkAddConstant (v : Z) (other : Value) : option Z := x ← if_const other (fun x => x); let result := checked_add Int32 v x in if hasOverflowed result then None else Some (unsafeGet result).
Definition checkSubConstant (v : Z) (other : Value) : option Z := x ← if_const other (fun x => x); let result := checked_sub Int32 v x in if hasOverflowed result then None else Some (unsafeGet result).
Definition checkMulConstant (v : Z) (other : Value) : option Z := x ← if_const other (fun x => x); let result := checked_mul Int32 v x in if hasOverflowed result then None else Some (unsafeGet result).
Definition checkNegConstant (v : Z) : option Z := if v =? negConstant v then None else Some (negConstant v).
Definition divConstant (v : Z) (other : Value) : option Z := if_const other (fun x => chillDiv Int32 v x).
Definition uDivConstant (v : Z) (other : Value) : option Z := if_const other (fun x => chillUDiv Int32 v x).
Definition modConstant (v : Z) (other : Value) : option Z := if_const other (fun x => chillMod Int32 v x).
Definition uModConstant (v : Z) (other : Value) : option Z := if_const other (fun x => chillUMod Int32 v x).
Definition bitAndConstant (v : Z) (other : Value) : option Z := if_const other (fun x => Z.land v x).
Definition bitOrConstant (v : Z) (other : Value) : option Z := if_const other (fun x => Z.lor v x).
Definition bitXorConstant (v : Z) (other : Value) : option Z := if_const other (fun x => Z.lxor v x).
Definition shlConstant (v : Z) (other : Value) : option Z := if_amount other (fun x => s32 (Z.shiftl v (Z.land x 31))).
Definition sShrConstant (v : Z) (other : Value) : option Z := if_amount other (fun x => Z.shiftr v (Z.land x 31)).
Definition zShrConstant (v : Z) (other : Value) : option Z := if_amount other (fun x => s32 (Z.shiftr (u32 v) (Z.land x 31))).
Definition rotRConstant (v : Z) (other : Value) : option Z := if_amount other (fun x => rotateRight Int32 v x).
Definition rotLConstant (v : Z) (other : Value) : option Z := if_amount other (fun x => rotateLeft Int32 v x).
Definition equalConstant (v : Z) (other : Value) : TriState := tri_of (if_const other (fun x => v =? x)).
Definition notEqualConstant (v : Z) (other : Value) : TriState := tri_of (if_const other (fun x => negb (v =? x))).
Definition lessThanConstant (v : Z) (other : Value) : TriState := if v =? 2 ^ 31 - 1 then FalseTriState else tri_of (if_const other (fun x => v <? x)).
Definition greaterThanConstant (v : Z) (other : Value) : TriState := if v =? - 2 ^ 31 then FalseTriState else tri_of (if_const other (fun x => x <? v)).
Definition lessEqualConstant (v : Z) (other : Value) : TriState := if v =? - 2 ^ 31 then TrueTriState else tri_of (if_const other (fun x => v <=? x)).
Definition greaterEqualConstant (v : Z) (other : Value) : TriState := if v =? 2 ^ 31 - 1 then TrueTriState else tri_of (if_const other (fun x => x <=? v)).
Definition aboveConstant (v : Z) (other : Value) : TriState := if u32 v =? 0 then FalseTriState else tri_of (if_const other (fun x => u32 x <? u32 v)).
Definition belowConstant (v : Z) (other : Value) : TriState := if u32 v =? 2 ^ 32 - 1 then FalseTriState else tri_of (if_const other (fun x => u32 v <? u32 x)).
Definition aboveEqualConstant (v : Z) (other : Value) : TriState := if u32 v =? 2 ^ 32 - 1 then TrueTriState else tri_of (if_const other (fun x => u32 x <=? u32 v)).
Definition belowEqualConstant (v : Z) (other : Value) : TriState := if u32 v =? 0 then TrueTriState else tri_of (if_const other (fun x => u32 v <=? u32 x)).

End Const32Value.

Module Const64Value.

(** The methods of a constant [v] of 64 bits; [None] is a null pointer: the other value is not such a constant. *)
Definition if_const {A} (other : Value) (f : Z -> A) : option A := if hasInt64 other then Some (f (asInt other)) else None.
Definition if_amount {A} (other : Value) (f : Z -> A) : option A := if hasInt32 other then Some (f (asInt other)) else None.
Definition negConstant (v : Z) : Z := s64 (- v).
Definition addConstant (v : Z) (other : Value) : option Z := if_const other (fun x => s64 (v + x)).
Definition subConstant (v : Z) (other : Value) : option Z := if_const other (fun x => s64 (v - x)).
Definition mulConstant (v : Z) (other : Value) : option Z := if_const other (fun x => s64 (v * x)).
Definition checkAddConstant (v : Z) (other : Value) : option Z := x ← if_const other (fun x => x); let result := checked_add Int64 v x in if hasOverflowed result then None else Some (unsafeGet result).
Definition checkSubConstant (v : Z) (other : Value) : option Z := x ← if_const other (fun x => x); let result := checked_sub Int64 v x in if hasOverflowed result then None else Some (unsafeGet result).
Definition checkMulConstant (v : Z) (other : Value) : option Z := x ← if_const other (fun x => x); let result := checked_mul Int64 v x in if hasOverflowed result then None else Some (unsafeGet result).
Definition checkNegConstant (v : Z) : option Z := if v =? negConstant v then None else Some (negConstant v).
Definition divConstant (v : Z) (other : Value) : option Z := if_const other (fun x => chillDiv Int64 v x).
Definition uDivConstant (v : Z) (other : Value) : option Z := if_const other (fun x => chillUDiv Int64 v x).
Definition modConstant (v : Z) (other : Value) : option Z := if_const other (fun x => chillMod Int64 v x).
Definition uModConstant (v : Z) (other : Value) : option Z := if_const other (fun x => chillUMod Int64 v x).
Definition bitAndConstant (v : Z) (other : Value) : option Z := if_const other (fun x => Z.land v x).
Definition bitOrConstant (v : Z) (other : Value) : option Z := if_const other (fun x => Z.lor v x).
Definition bitXorConstant (v : Z) (other : Value) : option Z := if_const other (fun x => Z.lxor v x).
Definition shlConstant (v : Z) (other : Value) : option Z := if_amount other (fun x => s64 (Z.shiftl v (Z.land x 63))).
Definition sShrConstant (v : Z) (other : Value) : option Z := if_amount other (fun x => Z.shiftr v (Z.land x 63)).
Definition zShrConstant (v : Z) (other : Value) : option Z := if_amount other (fun x => s64 (Z.shiftr (u64 v) (Z.land x 63))).
Definition rotRConstant (v : Z) (other : Value) : option Z := if_amount other (fun x => rotateRight Int64 v x).
Definition rotLConstant (v : Z) (other : Value) : option Z := if_amount other (fun x => rotateLeft Int64 v x).
Definition equalConstant (v : Z) (other : Value) : TriState := tri_of (if_const other (fun x => v =? x)).
Definition notEqualConstant (v : Z) (other : Value) : TriState := tri_of (if_const other (fun x => negb (v =? x))).
Definition lessThanConstant (v : Z) (other : Value) : TriState := if v =? 2 ^ 63 - 1 then FalseTriState else tri_of (if_const other (fun x => v <? x)).
Definition greaterThanConstant (v : Z) (other : Value) : TriState := if v =? - 2 ^ 63 then FalseTriState else tri_of (if_const other (fun x => x <? v)).
Definition lessEqualConstant (v : Z) (other : Value) : TriState := if v =? - 2 ^ 63 then TrueTriState else tri_of (if_const other (fun x => v <=? x)).
Definition greaterEqualConstant (v : Z) (other : Value) : TriState := if v =? 2 ^ 63 - 1 then TrueTriState else tri_of (if_const other (fun x => x <=? v)).
Definition aboveConstant (v : Z) (other : Value) : TriState := if u64 v =? 0 then FalseTriState else tri_of (if_const other (fun x => u64 x <? u64 v)).
Definition belowConstant (v : Z) (other : Value) : TriState := if u64 v =? 2 ^ 64 - 1 then FalseTriState else tri_of (if_const other (fun x => u64 v <? u64 x)).
Definition aboveEqualConstant (v : Z) (other : Value) : TriState := if u64 v =? 2 ^ 64 - 1 then TrueTriState else tri_of (if_const other (fun x => u64 x <=? u64 v)).
Definition belowEqualConstant (v : Z) (other : Value) : TriState := if u64 v =? 0 then TrueTriState else tri_of (if_const other (fun x => u64 v <=? u64 x)).

End Const64Value.

(** ** The virtual calls: the methods of the class of the value; other values have no constant. *)
Definition fold1 (f32 f64 : Z -> option Z) (n : Value) : option Value :=
  match m_opcode n with
  | Const32 => const32 <$> f32 (m_value n)
  | Const64 => const64 <$> f64 (m_value n)
  | _ => None
  end.
Definition fold2 (f32 f64 : Z -> Value -> option Z) (n other : Value) : option Value := fold1 (fun v => f32 v other) (fun v => f64 v other) n.
Definition fold_tri (f32 f64 : Z -> Value -> TriState) (n other : Value) : TriState :=
  match m_opcode n with
  | Const32 => f32 (m_value n) other
  | Const64 => f64 (m_value n) other
  | _ => MixedTriState
  end.

Definition negConstant (n : Value) : option Value := fold1 (fun v => Some (Const32Value.negConstant v)) (fun v => Some (Const64Value.negConstant v)) n.
Definition checkNegConstant (n : Value) : option Value := fold1 Const32Value.checkNegConstant Const64Value.checkNegConstant n.
Definition addConstant (n other : Value) : option Value := fold2 Const32Value.addConstant Const64Value.addConstant n other.
Definition subConstant (n other : Value) : option Value := fold2 Const32Value.subConstant Const64Value.subConstant n other.
Definition mulConstant (n other : Value) : option Value := fold2 Const32Value.mulConstant Const64Value.mulConstant n other.
Definition checkAddConstant (n other : Value) : option Value := fold2 Const32Value.checkAddConstant Const64Value.checkAddConstant n other.
Definition checkSubConstant (n other : Value) : option Value := fold2 Const32Value.checkSubConstant Const64Value.checkSubConstant n other.
Definition checkMulConstant (n other : Value) : option Value := fold2 Const32Value.checkMulConstant Const64Value.checkMulConstant n other.
Definition divConstant (n other : Value) : option Value := fold2 Const32Value.divConstant Const64Value.divConstant n other.
Definition uDivConstant (n other : Value) : option Value := fold2 Const32Value.uDivConstant Const64Value.uDivConstant n other.
Definition modConstant (n other : Value) : option Value := fold2 Const32Value.modConstant Const64Value.modConstant n other.
Definition uModConstant (n other : Value) : option Value := fold2 Const32Value.uModConstant Const64Value.uModConstant n other.
Definition bitAndConstant (n other : Value) : option Value := fold2 Const32Value.bitAndConstant Const64Value.bitAndConstant n other.
Definition bitOrConstant (n other : Value) : option Value := fold2 Const32Value.bitOrConstant Const64Value.bitOrConstant n other.
Definition bitXorConstant (n other : Value) : option Value := fold2 Const32Value.bitXorConstant Const64Value.bitXorConstant n other.
Definition shlConstant (n other : Value) : option Value := fold2 Const32Value.shlConstant Const64Value.shlConstant n other.
Definition sShrConstant (n other : Value) : option Value := fold2 Const32Value.sShrConstant Const64Value.sShrConstant n other.
Definition zShrConstant (n other : Value) : option Value := fold2 Const32Value.zShrConstant Const64Value.zShrConstant n other.
Definition rotRConstant (n other : Value) : option Value := fold2 Const32Value.rotRConstant Const64Value.rotRConstant n other.
Definition rotLConstant (n other : Value) : option Value := fold2 Const32Value.rotLConstant Const64Value.rotLConstant n other.
Definition equalConstant (n other : Value) : TriState := fold_tri Const32Value.equalConstant Const64Value.equalConstant n other.
Definition notEqualConstant (n other : Value) : TriState := fold_tri Const32Value.notEqualConstant Const64Value.notEqualConstant n other.
Definition lessThanConstant (n other : Value) : TriState := fold_tri Const32Value.lessThanConstant Const64Value.lessThanConstant n other.
Definition greaterThanConstant (n other : Value) : TriState := fold_tri Const32Value.greaterThanConstant Const64Value.greaterThanConstant n other.
Definition lessEqualConstant (n other : Value) : TriState := fold_tri Const32Value.lessEqualConstant Const64Value.lessEqualConstant n other.
Definition greaterEqualConstant (n other : Value) : TriState := fold_tri Const32Value.greaterEqualConstant Const64Value.greaterEqualConstant n other.
Definition aboveConstant (n other : Value) : TriState := fold_tri Const32Value.aboveConstant Const64Value.aboveConstant n other.
Definition belowConstant (n other : Value) : TriState := fold_tri Const32Value.belowConstant Const64Value.belowConstant n other.
Definition aboveEqualConstant (n other : Value) : TriState := fold_tri Const32Value.aboveEqualConstant Const64Value.aboveEqualConstant n other.
Definition belowEqualConstant (n other : Value) : TriState := fold_tri Const32Value.belowEqualConstant Const64Value.belowEqualConstant n other.

(** A new constant is added to the procedure where the method is called. *)
Definition makeConstant (o : option Value) : M (option Z) :=
  match o with
  | Some n => v <- proc_add n ;; ret (Some v)
  | None => ret None
  end.
Definition addBoolConstant (t : TriState) : M (option Z) :=
  match t with
  | FalseTriState => v <- addIntConstant Int32 0 ;; ret (Some v)
  | TrueTriState => v <- addIntConstant Int32 1 ;; ret (Some v)
  | MixedTriState => ret None
  end.
