(* ===== verification/B3IntRange.v ===== *)
(** * B3IntRange: ranges of integer values (b3/B3ReduceStrength.cpp, class IntRange and rangeFor)

    The range of a value is found by a search of bounded depth through its operands.  A shift by an amount outside of the
    width of the type is undefined in the code and [None] here, like a type that is not an integer type. *)
From stdpp Require Import gmap.
From S2P Require Import Prelude B3Value B3Const.
Local Open Scope Z_scope.

Record IntRange : Type := mkIntRange { m_min : Z; m_max : Z }.

Definition type_min (t : B3Type) : Z := - 2 ^ (bits t - 1).
Definition type_max (t : B3Type) : Z := 2 ^ (bits t - 1) - 1.

(** The switch on the type that every operation has. *)
Definition int_type {A} (t : B3Type) (a : A) : option A := if is_int t then Some a else None.
(** A shift whose amount is not below the width is undefined. *)
Definition shift_amount_ok (t : B3Type) (shiftAmount : Z) : bool := (0 <=? shiftAmount) && (shiftAmount <? bits t).

Definition range_top (t : B3Type) : option IntRange := int_type t (mkIntRange (type_min t) (type_max t)).

Definition rangeForMask (t : B3Type) (mask : Z) : option IntRange :=
  let mask := wrap t mask in
  if wrap t (mask + 1) =? 0 then range_top t else int_type t (mkIntRange 0 mask).

Definition rangeForZShr (t : B3Type) (shiftAmount : Z) : option IntRange :=
  if shift_amount_ok t shiftAmount then rangeForMask t (Z.shiftr (2 ^ bits t - 1) shiftAmount) else None.

Definition couldOverflow (overflows : Z -> Z -> bool) (a b : IntRange) : bool :=
  overflows (m_min a) (m_min b) || overflows (m_min a) (m_max b) || overflows (m_max a) (m_min b) || overflows (m_max a) (m_max b).
Definition couldOverflowAdd (t : B3Type) (a b : IntRange) : bool := if is_int t then couldOverflow (sumOverflows t) a b else true.
Definition couldOverflowSub (t : B3Type) (a b : IntRange) : bool := if is_int t then couldOverflow (differenceOverflows t) a b else true.
Definition couldOverflowMul (t : B3Type) (a b : IntRange) : bool := if is_int t then couldOverflow (productOverflows t) a b else true.

Definition range_shl (t : B3Type) (r : IntRange) (shiftAmount : Z) : option IntRange :=
  if shift_amount_ok t shiftAmount then
    let newMin := wrap t (Z.shiftl (wrap t (m_min r)) shiftAmount) in
    let newMax := wrap t (Z.shiftl (wrap t (m_max r)) shiftAmount) in
    let newMin' := if Z.shiftr newMin shiftAmount =? wrap t (m_min r) then newMin else type_min t in
    let newMax' := if Z.shiftr newMax shiftAmount =? wrap t (m_max r) then newMax else type_max t in
    int_type t (mkIntRange newMin' newMax')
  else None.

Definition range_sShr (t : B3Type) (r : IntRange) (shiftAmount : Z) : option IntRange :=
  if shift_amount_ok t shiftAmount
  then int_type t (mkIntRange (Z.shiftr (wrap t (m_min r)) shiftAmount) (Z.shiftr (wrap t (m_max r)) shiftAmount))
  else None.

Definition range_zShr (t : B3Type) (r : IntRange) (shiftAmount : Z) : option IntRange :=
  if shiftAmount =? 0 then int_type t r else
  if m_min r <? 0 then rangeForZShr t shiftAmount else
  if shift_amount_ok t shiftAmount
  then int_type t (mkIntRange (s64 (Z.shiftr (unsigned t (m_min r)) shiftAmount)) (s64 (Z.shiftr (unsigned t (m_max r)) shiftAmount)))
  else None.

Definition range_add (t : B3Type) (a b : IntRange) : option IntRange :=
  if couldOverflowAdd t a b then range_top t else Some (mkIntRange (m_min a + m_min b) (m_max a + m_max b)).
Definition range_sub (t : B3Type) (a b : IntRange) : option IntRange :=
  if couldOverflowSub t a b then range_top t else Some (mkIntRange (m_min a - m_max b) (m_max a - m_min b)).
Definition range_mul (t : B3Type) (a b : IntRange) : option IntRange :=
  if couldOverflowMul t a b then range_top t else
  Some (mkIntRange (Z.min (Z.min (m_min a * m_min b) (m_min a * m_max b)) (Z.min (m_max a * m_min b) (m_max a * m_max b)))
                   (Z.max (Z.max (m_min a * m_min b) (m_min a * m_max b)) (Z.max (m_max a * m_min b) (m_max a * m_max b)))).

(** The range of a value; [timeToLive] bounds the depth of the search. *)
Fixpoint rangeFor (timeToLive : nat) (p : Proc) (v : Z) : option IntRange :=
  n ← m_vector p !! v;
  match timeToLive with
  | O => range_top (m_type n)
  | S ttl =>
    let shift f :=
      c0 ← m_children n !! 0%nat; c1 ← m_children n !! 1%nat; amount ← m_vector p !! c1;
      if hasInt32 amount then r ← rangeFor ttl p c0; f (m_type n) r (asInt amount) else range_top (m_type n) in
    let binary f :=
      c0 ← m_children n !! 0%nat; c1 ← m_children n !! 1%nat; a ← rangeFor ttl p c0; b ← rangeFor ttl p c1; f (m_type n) a b in
    match m_opcode n with
    | Const32 | Const64 => Some (mkIntRange (asInt n) (asInt n))
    | BitAnd =>
      c1 ← m_children n !! 1%nat; mask ← m_vector p !! c1;
      if hasInt mask then rangeForMask (m_type n) (asInt mask) else range_top (m_type n)
    | SShr => shift range_sShr
    | ZShr => shift range_zShr
    | Shl => shift range_shl
    | Add => binary range_add
    | Sub => binary range_sub
    | Mul => binary range_mul
    | _ => range_top (m_type n)
    end
  end.
