(* ===== verification/B3DivisionMagic.v ===== *)
(** * B3DivisionMagic: the numbers that replace a division by a multiplication (b3/B3ComputeDivisionMagic.h)

    [computeDivisionMagic] for a type of integers; all variables are unsigned and wrap around, as in the code. *)
From S2P Require Import Prelude B3Value.
Local Open Scope Z_scope.

Record DivisionMagic : Type := mkDivisionMagic { magicMultiplier : Z; magic_shift : Z }.

(** The variables of the loop. *)
Record magic_state : Type := mkMagic { mp : Z; q1 : Z; r1 : Z; q2 : Z; r2 : Z }.

Section magic.
Context (t : B3Type).

(** One run of the loop body. *)
Definition magic_step (ad anc : Z) (s : magic_state) : magic_state :=
  let p := mp s + 1 in
  let q1 := unsigned t (Z.shiftl (q1 s) 1) in
  let r1 := unsigned t (Z.shiftl (r1 s) 1) in
  let '(q1, r1) := if anc <=? r1 then (unsigned t (q1 + 1), unsigned t (r1 - anc)) else (q1, r1) in
  let q2 := unsigned t (Z.shiftl (q2 s) 1) in
  let r2 := unsigned t (Z.shiftl (r2 s) 1) in
  let '(q2, r2) := if ad <=? r2 then (unsigned t (q2 + 1), unsigned t (r2 - ad)) else (q2, r2) in
  mkMagic p q1 r1 q2 r2.

Definition magic_again (ad : Z) (s : magic_state) : bool :=
  let delta := unsigned t (ad - r2 s) in
  (q1 s <? delta) || ((q1 s =? delta) && (r1 s =? 0)).

(** do { ... } while (...). *)
Fixpoint magic_loop (fuel : nat) (ad anc : Z) (s : magic_state) : option magic_state :=
  match fuel with
  | O => None
  | S fuel => let s := magic_step ad anc s in if magic_again ad s then magic_loop fuel ad anc s else Some s
  end.

Definition computeDivisionMagic (divisor : Z) : option DivisionMagic :=
  let d := unsigned t divisor in
  let signedMin := 2 ^ (bits t - 1) in
  let ad := unsigned t (if divisor <? 0 then wrap t (- divisor) else divisor) in
  let tt := unsigned t (signedMin + Z.shiftr d (bits t - 1)) in
  let anc := unsigned t (tt - 1 - tt mod ad) in
  let p := bits t - 1 in
  let q1 := signedMin / anc in
  let r1 := unsigned t (signedMin - q1 * anc) in
  let q2 := signedMin / ad in
  let r2 := unsigned t (signedMin - q2 * ad) in
  '(mkMagic p _ _ q2 _) ← magic_loop (Z.to_nat (bits t)) ad anc (mkMagic p q1 r1 q2 r2);
  let multiplier := wrap t (q2 + 1) in
  Some (mkDivisionMagic (if divisor <? 0 then wrap t (- multiplier) else multiplier) (p - bits t)).

End magic.
