(* ===== verification/B3Reduce.v ===== *)
(** * B3Reduce: strength reduction of integer values (b3/B3ReduceStrength.cpp, reduceValueStrength)

    One function per case of the switch, in the order of its rules; a case whose rules are many is cut where the code falls
    through to the next rule.  Rules for floating point, memory, atomics other than the sign extension of an exchange, calls
    and control flow are not here: their values are [OtherOp], and no rule applies to them. *)
From stdpp Require Import gmap.
From S2P Require Import Prelude B3Value B3Const B3IntRange B3DivisionMagic.
Local Open Scope Z_scope.

(** ** Helpers of the pass *)
Definition replaceWithIdentity (m v : Z) : M unit := value_replaceWithIdentity m v ;;; changed.
Definition replaceWithNewValue (m v : Z) : M unit := insertValue v ;;; value_replaceWithIdentity m v ;;; changed.
Definition replaceWithNew (m : Z) (op : Opcode) (cs : list Z) : M unit := v <- newValue op cs ;; replaceWithNewValue m v.
(** [if (Value* constant = ...) { replaceWithNewValue(constant); break; }]; [k] is what follows. *)
Definition replace_or (m : Z) (c : M (option Z)) (k : M unit) : M unit :=
  c <- c ;; match c with Some v => replaceWithNewValue m v | None => k end.
Definition fold_or (m : Z) (o : option Value) (k : M unit) : M unit := replace_or m (makeConstant o) k.

(** The value, its first two children and the values they are. *)
Definition operands (m : Z) (k : Value -> Z -> Z -> Value -> Value -> M unit) : M unit :=
  n <- get m ;; c0 <- child n 0 ;; c1 <- child n 1 ;; a <- get c0 ;; b <- get c1 ;; k n c0 c1 a b.
(** The value, its only child and the value it is. *)
Definition operand (m : Z) (k : Value -> Z -> Value -> M unit) : M unit := n <- get m ;; c0 <- child n 0 ;; a <- get c0 ;; k n c0 a.

Definition set_children (m c0 c1 : Z) : M unit := set_child m 0 c0 ;;; set_child m 1 c1 ;;; changed.

Definition shouldSwapBinaryOperands (c0 c1 : Z) (a b : Value) : bool :=
  if isConstant b || is_op a AtomicStrongCAS then false else
  if isConstant a then true else
  if is_op b AtomicStrongCAS then true else
  c1 <? c0.

Definition handleCommutativity (m : Z) : M unit :=
  operands m (fun n c0 c1 a b => if shouldSwapBinaryOperands c0 c1 a b then set_children m c1 c0 else skip).

(** The common operand of two products or conjunctions, and the two others. *)
Definition common_operand (x0 x1 y0 y1 : Z) : option (Z * Z * Z) :=
  if x0 =? y0 then Some (x0, x1, y1) else
  if x1 =? y0 then Some (x1, x0, y1) else
  if x0 =? y1 then Some (x0, x1, y0) else
  if x1 =? y1 then Some (x1, x0, y0) else None.

(** Op(Mul(x1, x2), Mul(x1, x3)) and its variants become Mul(x1, Op(x2, x3)). *)
Definition handleMulDistributivity (m : Z) : M unit :=
  operands m (fun n c0 c1 a b =>
  if is_op a Mul && is_op b Mul then
    a0 <- child a 0 ;; a1 <- child a 1 ;; b0 <- child b 0 ;; b1 <- child b 1 ;;
    match common_operand a0 a1 b0 b1 with
    | Some (x1, x2, x3) => newOp <- insertNew (m_opcode n) [x2; x3] ;; replaceWithNew m Mul [x1; newOp]
    | None => skip
    end
  else skip).

(** Op(BitAnd(x1, x2), BitAnd(x1, x3)) and its variants become BitAnd(x1, Op(x2, x3)); an operand x1 counts as
    BitAnd(x1, x1). *)
Definition handleBitAndDistributivity (m : Z) : M unit :=
  operands m (fun n c0 c1 a b =>
  found <-
    (if is_op a BitAnd && is_op b BitAnd then
      a0 <- child a 0 ;; a1 <- child a 1 ;; b0 <- child b 0 ;; b1 <- child b 1 ;; ret (common_operand a0 a1 b0 b1)
    else if is_op a BitAnd then
      a0 <- child a 0 ;; a1 <- child a 1 ;;
      ret (if a0 =? c1 then Some (c1, a1, c1) else if a1 =? c1 then Some (c1, a0, c1) else None)
    else if is_op b BitAnd then
      b0 <- child b 0 ;; b1 <- child b 1 ;;
      ret (if b0 =? c0 then Some (c0, b1, c0) else if b1 =? c0 then Some (c0, b0, c0) else None)
    else ret None) ;;
  match found with
  | Some (x1, x2, x3) => bitOp <- insertNew (m_opcode n) [x2; x3] ;; replaceWithNew m BitAnd [x1; bitOp]
  | None => skip
  end).

Definition handleShiftAmount (m : Z) : M unit :=
  operands m (fun n c0 c1 a b =>
  if isInt32 b 0 then replaceWithIdentity m c0 else
  let mask := sizeofType (m_type n) * 8 - 1 in
  if is_op b BitAnd then
    b1 <- child_value b 1 ;;
    if hasInt32 b1 && (Z.land (asInt b1) mask =? mask) then b0 <- child b 0 ;; set_child m 1 b0 ;;; changed else skip
  else skip).

(** ** Add *)
Definition reduceAdd_identities (m : Z) : M unit :=
  operands m (fun n c0 c1 a b =>
  if isInt b 0 then replaceWithIdentity m c0 else
  if isInteger n then
    if is_op b Neg then x <- child b 0 ;; replaceWithNew m Sub [c0; x] else
    if is_op a Neg then x <- child a 0 ;; replaceWithNew m Sub [c1; x] else
    subZero <- (if is_op a Sub && isInt b (-1) then a0 <- child_value a 0 ;; ret (isInt a0 0) else ret false) ;;
    if subZero : bool then x <- child a 1 ;; replaceWithNew m BitXor [x; c1] else
    handleMulDistributivity m
  else skip).

Definition reduceAdd_constants (m : Z) : M unit :=
  operands m (fun n c0 c1 a b =>
  fold_or m (addConstant a b) (
  if isInteger n && (c0 =? c1) then one <- insertConst32 1 ;; replaceWithNew m Shl [c0; one] else
  reduceAdd_identities m)).

Definition reduceAdd_right (m : Z) : M unit :=
  operands m (fun n c0 c1 a b =>
  if isInteger n && negb (hasInt a) && is_op b Add then
    b1 <- child_value b 1 ;;
    if hasInt b1 then
      value <- child b 0 ;; constant <- child b 1 ;; sum <- insertNew Add [value; c0] ;; set_children m sum constant
    else reduceAdd_constants m
  else reduceAdd_constants m).

Definition reduceAdd (m : Z) : M unit :=
  handleCommutativity m ;;;
  operands m (fun n c0 c1 a b =>
  if is_op a Add && isInteger n then
    value <- child a 0 ;; constant <- child a 1 ;; a1 <- get constant ;;
    newSum <- makeConstant (addConstant b a1) ;;
    match newSum with
    | Some s => insertValue s ;;; set_children m value s
    | None =>
      if negb (hasInt b) && hasInt a1 then sum <- insertNew Add [value; c1] ;; set_children m sum constant
      else reduceAdd_right m
    end
  else reduceAdd_right m).

(** ** Sub *)
Definition reduceSub (m : Z) : M unit :=
  operands m (fun n c0 c1 a b =>
  fold_or m (subConstant a b) (
  if isInteger n then
    negatedConstant <- makeConstant (negConstant b) ;;
    match negatedConstant with
    | Some c => insertValue c ;;; replaceWithNew m Add [c0; c]
    | None =>
      if isInt a 0 then replaceWithNew m Neg [c1] else
      if c0 =? c1 then v <- addIntConstant (m_type n) 0 ;; replaceWithNewValue m v else
      if is_op b Neg then x <- child b 0 ;; replaceWithNew m Add [c0; x] else
      handleMulDistributivity m
    end
  else skip)).

(** ** Neg *)
Definition reduceNeg (m : Z) : M unit :=
  operand m (fun n c0 a =>
  fold_or m (negConstant a) (
  if is_op a Neg then x <- child a 0 ;; replaceWithIdentity m x else
  if isInteger n then
    if is_op a Sub then x <- child a 0 ;; y <- child a 1 ;; replaceWithNew m Sub [y; x] else
    if is_op a Mul then
      x <- child a 0 ;; c <- child_value a 1 ;;
      if hasInt c then
        let factor := asInt c in
        if bool_decide (m_type n = Int32) && negb (factor =? type_min Int32)
        then newFactor <- insertConst32 (- factor) ;; replaceWithNew m Mul [x; newFactor]
        else if bool_decide (m_type n = Int64) && negb (factor =? type_min Int64)
        then newFactor <- insertConst64 (- factor) ;; replaceWithNew m Mul [x; newFactor]
        else skip
      else skip
    else skip
  else skip)).

(** ** Mul *)
Definition hasOneBitSet (value : Z) : bool := (Z.land (s64 (value - 1)) value =? 0) && negb (value =? 0).

(** [fastLog2] of 32 bits: halves of the number while they are not zero, rounded up. *)
Definition log2_half (k : Z) (s : Z * Z) : Z * Z := let '(log2, i) := s in if Z.shiftr i k =? 0 then (log2, i) else (log2 + k, Z.shiftr i k).
Definition fastLog2_32 (i : Z) : Z :=
  let log2 := if Z.land i (u32 (i - 1)) =? 0 then 0 else 1 in
  let '(log2, i) := log2_half 4 (log2_half 8 (log2_half 16 (log2, i))) in
  let '(log2, i) := log2_half 2 (log2, i) in
  if Z.shiftr i 1 =? 0 then log2 else log2 + 1.
Definition fastLog2_64 (value : Z) : Z :=
  let high := Z.shiftr value 32 in
  if high =? 0 then fastLog2_32 (u32 value) else fastLog2_32 high + 32.

Definition reduceMul_neg (m : Z) : M unit :=
  operands m (fun n c0 c1 a b =>
  if isInteger n then
    if is_op b Neg then x <- child b 0 ;; newMul <- insertNew Mul [c0; x] ;; replaceWithNew m Neg [newMul] else
    if is_op a Neg then x <- child a 0 ;; newMul <- insertNew Mul [x; c1] ;; replaceWithNew m Neg [newMul] else
    skip
  else skip).

Definition reduceMul (m : Z) : M unit :=
  handleCommutativity m ;;;
  operands m (fun n c0 c1 a b =>
  fold_or m (mulConstant a b) (
  if hasInt b then
    let factor := asInt b in
    if factor =? 0 then replaceWithIdentity m c1 else
    if factor =? 1 then replaceWithIdentity m c0 else
    if factor =? -1 then replaceWithNew m Neg [c0] else
    if hasOneBitSet factor then shiftAmount <- insertConst32 (fastLog2_64 (u64 factor)) ;; replaceWithNew m Shl [c0; shiftAmount]
    else reduceMul_neg m
  else reduceMul_neg m)).

(** ** Division *)
Section levels.
Context (optLevel : Z) (hasQuirks : bool).

(** Division by a constant: the high half of a product, corrected, shifted and rounded towards zero. *)
Definition reduceDiv_magic (m c0 : Z) (divisor : Z) : M unit :=
  magic <- need (computeDivisionMagic Int32 divisor) ;;
  wide <- insertNew SExt32 [c0] ;;
  multiplier <- insertConst64 (magicMultiplier magic) ;;
  product <- insertNew Mul [wide; multiplier] ;;
  thirtyTwo <- insertConst32 32 ;;
  high <- insertNew ZShr [product; thirtyTwo] ;;
  q <- insertNew Trunc [high] ;;
  q <- (if (0 <? divisor) && (magicMultiplier magic <? 0) then insertNew Add [q; c0] else ret q) ;;
  q <- (if (divisor <? 0) && (0 <? magicMultiplier magic) then insertNew Sub [q; c0] else ret q) ;;
  q <- (if 0 <? magic_shift magic then s <- insertConst32 (magic_shift magic) ;; insertNew SShr [q; s] else ret q) ;;
  thirtyOne <- insertConst32 31 ;;
  sign <- insertNew ZShr [q; thirtyOne] ;;
  result <- insertNew Add [q; sign] ;;
  replaceWithIdentity m result.

Definition reduceDiv (m : Z) : M unit :=
  operands m (fun n c0 c1 a b =>
  fold_or m (divConstant a b) (
  if hasInt b then
    if asInt b =? -1 then replaceWithNew m Neg [c0] else
    if asInt b =? 0 then replaceWithIdentity m c1 else
    if asInt b =? 1 then replaceWithIdentity m c0 else
    if negb (bool_decide (m_type n = Int32)) then skip else
    if optLevel <? 2 then skip else
    reduceDiv_magic m c0 (asInt b)
  else skip)).

Definition reduceUDiv (m : Z) : M unit :=
  operands m (fun n c0 c1 a b =>
  fold_or m (uDivConstant a b) (
  if hasInt b then
    if asInt b =? 0 then replaceWithIdentity m c1 else
    if asInt b =? 1 then replaceWithIdentity m c0 else skip
  else skip)).

Definition reduceMod (m : Z) : M unit :=
  operands m (fun n c0 c1 a b =>
  fold_or m (modConstant a b) (
  if hasInt b then
    if asInt b =? 0 then replaceWithIdentity m c1 else
    if optLevel <? 2 then skip else
    div <- (d <- makeValue Div (m_isChill n) [c0; c1] ;; v <- proc_add d ;; insertValue v) ;;
    mul <- insertNew Mul [div; c1] ;;
    sub <- insertNew Sub [c0; mul] ;;
    replaceWithIdentity m sub
  else skip)).

Definition reduceUMod (m : Z) : M unit := operands m (fun n c0 c1 a b => fold_or m (uModConstant a b) skip).

(** ** BitAnd *)
(** [isInt(std::numeric_limits<uint64_t>::max())] or [isInt(std::numeric_limits<uint32_t>::max())], by the type: the argument
    of [isInt] has 64 bits with a sign. *)
Definition isAllOnes (t : B3Type) (n : Value) : bool :=
  match t with
  | Int64 => isInt n (s64 (2 ^ 64 - 1))
  | Int32 => isInt n (s64 (2 ^ 32 - 1))
  | _ => false
  end.

(** The second child, as a value, is all ones; asked of a BitXor. *)
Definition inverts (t : B3Type) (a : Value) : M bool := a1 <- child_value a 1 ;; ret (isAllOnes t a1).

(** De Morgan: [op] of two complements is the complement of [dual] of the values; and of a complement and a constant. *)
Definition deMorgan (m : Z) (dual : Opcode) (k : M unit) : M unit :=
  operands m (fun n c0 c1 a b =>
  if is_op a BitXor && is_op b BitXor then
    both <- (x <- inverts (m_type n) a ;; if (x : bool) then inverts (m_type n) b else ret false) ;;
    if both : bool then
      x1 <- child a 0 ;; x2 <- child b 0 ;; bitOp <- insertNew dual [x1; x2] ;;
      ones <- child b 1 ;; replaceWithNew m BitXor [bitOp; ones]
    else k
  else k).
Definition deMorgan_constant (m : Z) (dual : Opcode) (k : M unit) : M unit :=
  operands m (fun n c0 c1 a b =>
  if is_op a BitXor && hasInt b then
    x <- inverts (m_type n) a ;;
    if x : bool then
      x1 <- child a 0 ;; ones <- child a 1 ;; a1 <- get ones ;;
      c <- makeConstant (bitXorConstant b a1) ;;
      c <- need c ;;
      bitOp <- insertNew dual [x1; c] ;;
      replaceWithNew m BitXor [bitOp; ones]
    else k
  else k).

Definition reduceBitAnd_constant (m : Z) : M unit :=
  operands m (fun n c0 c1 a b =>
  if hasInt b then
    match m_opcode a with
    | BitOr | BitXor =>
      a1 <- child_value a 1 ;;
      if hasInt a1 && (Z.land (asInt a1) (asInt b) =? 0) then x <- child a 0 ;; set_child m 0 x ;;; changed else skip
    | _ => skip
    end
  else deMorgan m BitOr (deMorgan_constant m BitOr skip)).

Definition reduceBitAnd_extend (m : Z) : M unit :=
  operands m (fun n c0 c1 a b =>
  if isInt64 b (2 ^ 32 - 1) then t <- insertNew Trunc [c0] ;; z <- insertNew ZExt32 [t] ;; replaceWithIdentity m z else
  if is_op a SExt8 && hasInt32 b && (Z.land (u32 (asInt b)) (u32 (-256)) =? 0) then x <- child a 0 ;; set_child m 0 x ;;; changed else
  if is_op a SExt16 && hasInt32 b && (Z.land (u32 (asInt b)) (u32 (-65536)) =? 0) then x <- child a 0 ;; set_child m 0 x ;;; changed else
  if is_op a SExt32 && hasInt32 b && (Z.land (u64 (asInt b)) (u64 (- 2 ^ 32)) =? 0)
  then x <- child a 0 ;; y <- child a 1 ;; z <- insertNew ZExt32 [x; y] ;; set_child m 0 z ;;; changed else
  reduceBitAnd_constant m).

Definition reduceBitAnd_identities (m : Z) : M unit :=
  operands m (fun n c0 c1 a b =>
  if c0 =? c1 then replaceWithIdentity m c0 else
  if isInt b 0 then replaceWithIdentity m c1 else
  if isAllOnes (m_type n) b then replaceWithIdentity m c0 else
  reduceBitAnd_extend m).

(** Op(Op(value, constant1), constant2) becomes Op(value, constant1 op constant2), and the rules that follow are tried on
    the result. *)
Definition reassociate (m : Z) (op : Opcode) (f : Value -> Value -> option Value) : M unit :=
  operands m (fun n c0 c1 a b =>
  if is_op a op then
    value <- child a 0 ;; a1 <- child_value a 1 ;; newConstant <- makeConstant (f b a1) ;;
    match newConstant with
    | Some c => insertValue c ;;; set_children m value c
    | None => skip
    end
  else skip).

Definition reduceBitAnd (m : Z) : M unit :=
  handleCommutativity m ;;;
  operands m (fun n c0 c1 a b =>
  fold_or m (bitAndConstant a b) (reassociate m BitAnd bitAndConstant ;;; reduceBitAnd_identities m)).

(** ** BitOr *)
Definition reduceBitOr_identities (m : Z) : M unit :=
  operands m (fun n c0 c1 a b =>
  if c0 =? c1 then replaceWithIdentity m c0 else
  if isInt b 0 then replaceWithIdentity m c0 else
  if isAllOnes (m_type n) b then replaceWithIdentity m c1 else
  deMorgan m BitAnd (deMorgan_constant m BitAnd (handleBitAndDistributivity m))).
Definition reduceBitOr (m : Z) : M unit :=
  handleCommutativity m ;;;
  operands m (fun n c0 c1 a b =>
  fold_or m (bitOrConstant a b) (reassociate m BitOr bitOrConstant ;;; reduceBitOr_identities m)).

(** ** BitXor *)
Definition reduceBitXor_identities (m : Z) : M unit :=
  operands m (fun n c0 c1 a b =>
  replace_or m (if isInt32 b 1 then invertedCompare a else ret None) (
  if c0 =? c1 then v <- addIntConstant (m_type n) 0 ;; replaceWithNewValue m v else
  if isInt b 0 then replaceWithIdentity m c0 else
  handleBitAndDistributivity m)).
Definition reduceBitXor (m : Z) : M unit :=
  handleCommutativity m ;;;
  operands m (fun n c0 c1 a b =>
  fold_or m (bitXorConstant a b) (reassociate m BitXor bitXorConstant ;;; reduceBitXor_identities m)).

(** ** Shifts *)
Definition reduceShl (m : Z) : M unit :=
  operands m (fun n c0 c1 a b =>
  fold_or m (shlConstant a b) (
  same <- (if (is_op a SShr || is_op a ZShr) && hasInt b then a1 <- child_value a 1 ;; ret (hasInt a1 && (asInt a1 =? asInt b)) else ret false) ;;
  if same : bool then
    let shiftAmount := Z.land (asInt b) (if decide (m_type n = Int32) then 31 else 63) in
    newConst <- addIntConstant (m_type n) (- s64 (Z.shiftl 1 shiftAmount)) ;;
    insertValue newConst ;;;
    x <- child a 0 ;; replaceWithNew m BitAnd [x; newConst]
  else handleShiftAmount m)).

Definition reduceSShr (m : Z) : M unit :=
  operands m (fun n c0 c1 a b =>
  fold_or m (sShrConstant a b) (
  same <- (if hasInt32 b && is_op a Shl then a1 <- child_value a 1 ;; ret (hasInt32 a1 && (asInt b =? asInt a1)) else ret false) ;;
  if (same : bool) && (asInt b =? 16) && bool_decide (m_type n = Int32) then x <- child a 0 ;; replaceWithNew m SExt16 [x] else
  if (same : bool) && (asInt b =? 24) && bool_decide (m_type n = Int32) then x <- child a 0 ;; replaceWithNew m SExt8 [x] else
  if (same : bool) && (asInt b =? 32) && bool_decide (m_type n = Int64) then x <- child a 0 ;; t <- insertNew Trunc [x] ;; replaceWithNew m SExt32 [t] else
  handleShiftAmount m)).

Definition reduceZShr (m : Z) : M unit := operands m (fun n c0 c1 a b => fold_or m (zShrConstant a b) (handleShiftAmount m)).
Definition reduceRotR (m : Z) : M unit := operands m (fun n c0 c1 a b => fold_or m (rotRConstant a b) (handleShiftAmount m)).
Definition reduceRotL (m : Z) : M unit := operands m (fun n c0 c1 a b => fold_or m (rotLConstant a b) (handleShiftAmount m)).

(** ** Extension and truncation *)
(** SExt of a mask: the mask keeps all the bits, or it clears the sign; then the exchange of that width. *)
Definition reduceSExt_mask (m : Z) (ones sign : Z) (xchg : Value -> bool) : M unit :=
  operand m (fun n c0 a =>
  let rest := if negb hasQuirks && xchg a then replaceWithIdentity m c0 else skip in
  if is_op a BitAnd then
    a1 <- child_value a 1 ;;
    if hasInt32 a1 then
      input <- child a 0 ;;
      let mask := asInt a1 in
      if Z.land mask ones =? ones then set_child m 0 input ;;; changed else
      if Z.land mask sign =? 0 then c <- insertConst32 (Z.land mask (sign - 1)) ;; replaceWithNew m BitAnd [input; c] else
      rest
    else rest
  else rest).

Definition s16 (x : Z) : Z := (x + 2 ^ 15) mod 2 ^ 16 - 2 ^ 15.

Definition reduceSExt8 (m : Z) : M unit :=
  operand m (fun n c0 a =>
  if hasInt32 a then v <- addIntConstant (m_type n) (s8 (asInt a)) ;; replaceWithNewValue m v else
  (if is_op a SExt8 || is_op a SExt16 then x <- child a 0 ;; set_child m 0 x ;;; changed else skip) ;;;
  reduceSExt_mask m 255 128 isAtomicXchg8).

Definition reduceSExt16_8 (m : Z) : M unit :=
  operand m (fun n c0 a => if is_op a SExt8 then replaceWithIdentity m c0 else reduceSExt_mask m 65535 32768 isAtomicXchg16).
Definition reduceSExt16 (m : Z) : M unit :=
  operand m (fun n c0 a =>
  if hasInt32 a then v <- addIntConstant (m_type n) (s16 (asInt a)) ;; replaceWithNewValue m v else
  (if is_op a SExt16 then x <- child a 0 ;; set_child m 0 x ;;; changed else skip) ;;;
  reduceSExt16_8 m).

Definition reduceSExt32 (m : Z) : M unit :=
  operand m (fun n c0 a =>
  if hasInt32 a then v <- addIntConstant (m_type n) (asInt a) ;; replaceWithNewValue m v else
  if is_op a BitAnd then
    a1 <- child_value a 1 ;;
    if hasInt32 a1 && (Z.land (u32 (asInt a1)) (2 ^ 31) =? 0) then replaceWithNew m ZExt32 [c0] else skip
  else skip).

Definition reduceZExt32 (m : Z) : M unit :=
  operand m (fun n c0 a => if hasInt32 a then v <- addIntConstant (m_type n) (u32 (asInt a)) ;; replaceWithNewValue m v else skip).

Definition reduceTrunc (m : Z) : M unit :=
  operand m (fun n c0 a =>
  if hasInt64 a then v <- addIntConstant (m_type n) (s32 (asInt a)) ;; replaceWithNewValue m v else
  if is_op a SExt32 || is_op a ZExt32 then x <- child a 0 ;; replaceWithIdentity m x else
  match m_opcode a with
  | Add | Sub | BitOr | BitXor =>
    a1 <- child_value a 1 ;;
    if hasInt64 a1 && (Z.land (asInt a1) (2 ^ 32 - 1) =? 0) then x <- child a 0 ;; set_child m 0 x ;;; changed else skip
  | _ => skip
  end).

(** ** Select *)
Definition set_select (m c x y : Z) : M unit := set_child m 0 c ;;; set_child m 1 x ;;; set_child m 2 y ;;; changed.

Definition reduceSelect (m : Z) : M unit :=
  operand m (fun n c0 a =>
  x <- child n 1 ;; y <- child n 2 ;;
  if hasInt32 a then replaceWithIdentity m (if asInt a =? 0 then y else x) else
  equalsZero <- (if is_op a Equal then a1 <- child_value a 1 ;; ret (isInt a1 0) else ret false) ;;
  if equalsZero : bool then c <- child a 0 ;; set_select m c y x else
  inverted <- (if is_op a BitXor then a1 <- child_value a 1 ;; if isInt32 a1 1 then c <- child a 0 ;; returnsBool c else ret false else ret false) ;;
  if inverted : bool then c <- child a 0 ;; set_select m c y x else
  masked <- (if is_op a BitAnd then a1 <- child_value a 1 ;; if hasInt a1 && Z.odd (asInt a1) then c <- child a 0 ;; returnsBool c else ret false else ret false) ;;
  if masked : bool then c <- child a 0 ;; set_child m 0 c ;;; changed else
  if x =? y then replaceWithIdentity m x else skip).

(** ** Comparisons *)
Definition reduceEqual (m : Z) : M unit :=
  handleCommutativity m ;;;
  operands m (fun n c0 c1 a b =>
  isBool <- returnsBool c0 ;;
  if (isBool : bool) && isInt32 b 0 then one <- insertConst32 1 ;; replaceWithNew m BitXor [c0; one] else
  if (isBool : bool) && isInt32 b 1 then replaceWithIdentity m c0 else
  replace_or m (addBoolConstant (equalConstant a b)) skip).

Definition reduceNotEqual (m : Z) : M unit :=
  handleCommutativity m ;;;
  operands m (fun n c0 c1 a b =>
  isBool <- returnsBool c0 ;;
  if (isBool : bool) && isInt32 b 0 then replaceWithIdentity m c0 else
  if (isBool : bool) && isInt32 b 1 then zero <- insertConst32 0 ;; replaceWithNew m Equal [c0; zero] else
  replace_or m (addBoolConstant (notEqualConstant a b)) skip).

Definition flip (op : Opcode) : Opcode :=
  match op with
  | LessThan => GreaterThan | GreaterThan => LessThan | LessEqual => GreaterEqual | GreaterEqual => LessEqual
  | Above => Below | Below => Above | AboveEqual => BelowEqual | BelowEqual => AboveEqual
  | _ => op
  end.

(** What the comparison is when its second operand decides it. *)
Definition compareConstant (op : Opcode) (first second : Value) : option TriState :=
  match op with
  | LessThan => Some (greaterThanConstant second first)
  | GreaterThan => Some (lessThanConstant second first)
  | LessEqual => Some (greaterEqualConstant second first)
  | GreaterEqual => Some (lessEqualConstant second first)
  | Above => Some (belowConstant second first)
  | Below => Some (aboveConstant second first)
  | AboveEqual => Some (belowEqualConstant second first)
  | BelowEqual => Some (aboveEqualConstant second first)
  | _ => None
  end.

Definition reduceComparison (m : Z) : M unit :=
  operands m (fun n c0 c1 a b =>
  let '(op, x, y, nx, ny) := if shouldSwapBinaryOperands c0 c1 a b then (flip (m_opcode n), c1, c0, b, a) else (m_opcode n, c0, c1, a, b) in
  result <- need (compareConstant op nx ny) ;;
  replace_or m (addBoolConstant result) (
  if bool_decide (op <> m_opcode n) then replaceWithNew m op [x; y] else skip)).

(** ** Arithmetic that exits on overflow *)
Definition rangesFor (c0 c1 : Z) : M (IntRange * IntRange) := fun p => l ← rangeFor 5 p c0; r ← rangeFor 5 p c1; Some ((l, r), p).

Definition reduceCheckAdd (m : Z) : M unit :=
  operands m (fun n c0 c1 a b =>
  fold_or m (checkAddConstant a b) (
  handleCommutativity m ;;;
  operands m (fun n c0 c1 a b =>
  if isInt b 0 then replaceWithIdentity m c0 else
  r <- rangesFor c0 c1 ;;
  if couldOverflowAdd (m_type n) (fst r) (snd r) then skip else replaceWithNew m Add [c0; c1]))).

Definition reduceCheckSub (m : Z) : M unit :=
  operands m (fun n c0 c1 a b =>
  fold_or m (checkSubConstant a b) (
  if isInt b 0 then replaceWithIdentity m c0 else
  negatedConstant <- makeConstant (checkNegConstant b) ;;
  match negatedConstant with
  | Some c => insertValue c ;;; convertToAdd m ;;; set_child m 1 c ;;; changed
  | None =>
    r <- rangesFor c0 c1 ;;
    if couldOverflowSub (m_type n) (fst r) (snd r) then skip else replaceWithNew m Sub [c0; c1]
  end)).

Definition reduceCheckMul (m : Z) : M unit :=
  operands m (fun n c0 c1 a b =>
  fold_or m (checkMulConstant a b) (
  handleCommutativity m ;;;
  operands m (fun n c0 c1 a b =>
  let ranges :=
    r <- rangesFor c0 c1 ;;
    if couldOverflowMul (m_type n) (fst r) (snd r) then skip else replaceWithNew m Mul [c0; c1] in
  if hasInt b then
    if asInt b =? 0 then v <- addIntConstant (m_type n) 0 ;; replaceWithNewValue m v else
    if asInt b =? 1 then replaceWithIdentity m c0 else
    if asInt b =? 2 then convertToAdd m ;;; set_child m 1 c0 ;;; changed else
    ranges
  else ranges))).

(** ** The switch *)
Definition reduceValueStrength (m : Z) : M unit :=
  n <- get m ;;
  match m_opcode n with
  | Add => reduceAdd m
  | Sub => reduceSub m
  | Neg => reduceNeg m
  | Mul => reduceMul m
  | Div => reduceDiv m
  | UDiv => reduceUDiv m
  | Mod => reduceMod m
  | UMod => reduceUMod m
  | BitAnd => reduceBitAnd m
  | BitOr => reduceBitOr m
  | BitXor => reduceBitXor m
  | Shl => reduceShl m
  | SShr => reduceSShr m
  | ZShr => reduceZShr m
  | RotR => reduceRotR m
  | RotL => reduceRotL m
  | SExt8 => reduceSExt8 m
  | SExt16 => reduceSExt16 m
  | SExt32 => reduceSExt32 m
  | ZExt32 => reduceZExt32 m
  | Trunc => reduceTrunc m
  | Select => reduceSelect m
  | Equal => reduceEqual m
  | NotEqual => reduceNotEqual m
  | LessThan | GreaterThan | LessEqual | GreaterEqual | Above | Below | AboveEqual | BelowEqual => reduceComparison m
  | CheckAdd => reduceCheckAdd m
  | CheckSub => reduceCheckSub m
  | CheckMul => reduceCheckMul m
  | _ => skip
  end.

(** What the loop over a block does with one value. *)
Definition visit (m : Z) : M unit := performSubstitution m ;;; reduceValueStrength m.

End levels.
