(* ===== verification/B3Semantics.v ===== *)
(** * B3Semantics: what the values of a procedure compute, and when a procedure is well formed

    The meaning of an integer operation is written here from the description of the opcodes; values that are not integer
    operations have any result that fits their type, as a function of the results of their children ([env]).  A value has no
    outcome where B3 leaves it undefined (division by zero that is not chill) and when a child of it exits. *)
From stdpp Require Import gmap.
From S2P Require Import Prelude B3Value B3Const B3IntRange B3Reduce.
Local Open Scope Z_scope.

(** A result, or the exit of a checked operation with the values of its stackmap. *)
Inductive outcome : Type := Val (z : Z) | Exit (stackmap : list Z).

Definition bool_value (b : bool) : Z := if b then 1 else 0.
Definition shift_mask (t : B3Type) (y : Z) : Z := Z.land y (bits t - 1).

(** Division is undefined for a zero divisor and when the quotient does not fit; a chill division gives a number there. *)
Definition sem_div (chill : bool) (t : B3Type) (f : B3Type -> Z -> Z -> Z) (x y : Z) : option Z :=
  if negb chill && ((y =? 0) || ((y =? -1) && (x =? type_min t))) then None else Some (f t x y).

(** Operations on two numbers; [t] is the type of the first. *)
Definition sem2 (op : Opcode) (chill : bool) (t : B3Type) (x y : Z) : option Z :=
  match op with
  | Add => Some (wrap t (x + y))
  | Sub => Some (wrap t (x - y))
  | Mul => Some (wrap t (x * y))
  | Div => sem_div chill t chillDiv x y
  | Mod => sem_div chill t chillMod x y
  | UDiv => if y =? 0 then None else Some (wrap t (unsigned t x / unsigned t y))
  | UMod => if y =? 0 then None else Some (wrap t (unsigned t x mod unsigned t y))
  | BitAnd => Some (Z.land x y)
  | BitOr => Some (Z.lor x y)
  | BitXor => Some (Z.lxor x y)
  | Shl => Some (wrap t (Z.shiftl x (shift_mask t y)))
  | SShr => Some (Z.shiftr x (shift_mask t y))
  | ZShr => Some (wrap t (Z.shiftr (unsigned t x) (shift_mask t y)))
  | RotR => Some (rotateRight t x y)
  | RotL => Some (rotateLeft t x y)
  | Equal => Some (bool_value (x =? y))
  | NotEqual => Some (bool_value (negb (x =? y)))
  | LessThan => Some (bool_value (x <? y))
  | GreaterThan => Some (bool_value (y <? x))
  | LessEqual => Some (bool_value (x <=? y))
  | GreaterEqual => Some (bool_value (y <=? x))
  | Above => Some (bool_value (unsigned t y <? unsigned t x))
  | Below => Some (bool_value (unsigned t x <? unsigned t y))
  | AboveEqual => Some (bool_value (unsigned t y <=? unsigned t x))
  | BelowEqual => Some (bool_value (unsigned t x <=? unsigned t y))
  | _ => None
  end.
Definition sem1 (op : Opcode) (t : B3Type) (x : Z) : option Z :=
  match op with
  | Identity => Some x
  | Neg => Some (wrap t (- x))
  | SExt8 => Some (s8 x)
  | SExt16 => Some (s16 x)
  | SExt32 => Some x
  | ZExt32 => Some (u32 x)
  | Trunc => Some (s32 x)
  | _ => None
  end.
Definition sem_check (op : Opcode) (x y : Z) : option Z :=
  match op with CheckAdd => Some (x + y) | CheckSub => Some (x - y) | CheckMul => Some (x * y) | _ => None end.

(** Values whose results the environment gives. *)
Definition is_other (op : Opcode) : bool :=
  match op with
  | ConstDouble | ConstFloat | EqualOrUnordered | AtomicWeakCAS | AtomicStrongCAS | AtomicXchgOp _ | OtherOp => true
  | _ => false
  end.

(** The type that an operation works on: that of its first child, where the value has another. *)
Definition operand_type (g : gmap Z Value) (n : Value) : B3Type :=
  match m_opcode n with
  | Equal | NotEqual | LessThan | GreaterThan | LessEqual | GreaterEqual | Above | Below | AboveEqual | BelowEqual =>
    match m_children n ≫= fun c => option_list (g !! c) with a :: _ => m_type a | [] => m_type n end
  | _ => m_type n
  end.

Definition node_sem (env : Z -> list Z -> Z) (g : gmap Z Value) (v : Z) (n : Value) (args : list Z) : option outcome :=
  if is_other (m_opcode n) then Some (Val (env v args)) else
  match m_opcode n, args with
  | (Const32 | Const64), _ => Some (Val (m_value n))
  | Select, [c; x; y] => Some (Val (if c =? 0 then y else x))
  | (CheckAdd | CheckSub | CheckMul) as op, x :: y :: rest =>
    z ← sem_check op x y; Some (if in_type (m_type n) z then Val z else Exit rest)
  | op, [x] => Val <$> sem1 op (operand_type g n) x
  | op, [x; y] => Val <$> sem2 op (m_isChill n) (operand_type g n) x y
  | _, _ => None
  end.

Fixpoint eval (fuel : nat) (env : Z -> list Z -> Z) (g : gmap Z Value) (v : Z) : option outcome :=
  match fuel with
  | O => None
  | S fuel =>
    n ← g !! v;
    args ← mapM (fun c => o ← eval fuel env g c; match o with Val x => Some x | Exit _ => None end) (m_children n);
    node_sem env g v n args
  end.

(** [v] has the outcome [o]. *)
Definition run (env : Z -> list Z -> Z) (g : gmap Z Value) (v : Z) (o : outcome) : Prop := exists fuel, eval fuel env g v = Some o.

(** Results of the other values fit their types, and are booleans or sign extended where the compiler takes them to be. *)
Definition good_result (n : Value) (z : Z) : Prop :=
  (is_int (m_type n) = true -> in_type (m_type n) z = true) /\
  match m_opcode n with
  | EqualOrUnordered | AtomicWeakCAS => z = 0 \/ z = 1
  | AtomicXchgOp Width8 => s8 z = z
  | AtomicXchgOp Width16 => s16 z = z
  | _ => True
  end.
Definition good_env (env : Z -> list Z -> Z) (g : gmap Z Value) : Prop :=
  forall v n args, g !! v = Some n -> is_other (m_opcode n) = true -> good_result n (env v args).

(** ** Well-formed procedures *)
(** The types of a value and its children [ts], as B3Validate.cpp asks; [z] is the number of a constant. *)
Definition typing (op : Opcode) (t : B3Type) (ts : list B3Type) (z : Z) : bool :=
  match op, ts with
  | Identity, [t0] => bool_decide (t0 = t) && negb (bool_decide (t = Void))
  | Const32, [] => bool_decide (t = Int32) && in_type t z
  | Const64, [] => bool_decide (t = Int64) && in_type t z
  | (Add | Sub | Mul | Div | UDiv | Mod | UMod | BitAnd | BitOr | BitXor), [t0; t1] => is_int t && bool_decide (t0 = t) && bool_decide (t1 = t)
  | Neg, [t0] => is_int t && bool_decide (t0 = t)
  | (Shl | SShr | ZShr | RotR | RotL), [t0; t1] => is_int t && bool_decide (t0 = t) && bool_decide (t1 = Int32)
  | (SExt8 | SExt16), [t0] => bool_decide (t = Int32) && bool_decide (t0 = Int32)
  | (SExt32 | ZExt32), [t0] => bool_decide (t = Int64) && bool_decide (t0 = Int32)
  | Trunc, [t0] => bool_decide (t = Int32) && bool_decide (t0 = Int64)
  | Select, [t0; t1; t2] => is_int t0 && bool_decide (t1 = t) && bool_decide (t2 = t) && negb (bool_decide (t = Void))
  | (Equal | NotEqual | LessThan | GreaterThan | LessEqual | GreaterEqual | Above | Below | AboveEqual | BelowEqual), [t0; t1] =>
    bool_decide (t = Int32) && is_int t0 && bool_decide (t1 = t0)
  | (CheckAdd | CheckSub | CheckMul), t0 :: t1 :: _ => is_int t && bool_decide (t0 = t) && bool_decide (t1 = t)
  | op, _ => is_other op
  end.
Definition validate (g : gmap Z Value) (n : Value) : bool :=
  match mapM (fun c => m_type <$> g !! c) (m_children n) with
  | None => false
  | Some ts => typing (m_opcode n) (m_type n) ts (m_value n)
  end.

(** The values under [v] end after [fuel] steps: there is no cycle. *)
Fixpoint down (fuel : nat) (g : gmap Z Value) (v : Z) : bool :=
  match fuel with
  | O => false
  | S fuel => match g !! v with Some n => forallb (down fuel g) (m_children n) | None => false end
  end.

Record wf (p : Proc) : Prop := {
  wf_valid v n : m_vector p !! v = Some n -> validate (m_vector p) n = true;
  wf_down v n : m_vector p !! v = Some n -> exists fuel, down fuel (m_vector p) v = true;
  wf_below v n : m_vector p !! v = Some n -> v < m_size p;
  wf_free i : i ∈ m_indexFreeList p -> m_vector p !! i = None /\ i < m_size p;
  wf_nodup : NoDup (m_indexFreeList p)
}.

(** Every outcome of the first procedure is one of the second. *)
Record preserves (p p' : Proc) : Prop := {
  pres_type v n : m_vector p !! v = Some n -> exists n', m_vector p' !! v = Some n' /\ m_type n' = m_type n;
  pres_env env : good_env env (m_vector p) -> good_env env (m_vector p');
  pres_run env v o : good_env env (m_vector p) -> run env (m_vector p) v o -> run env (m_vector p') v o
}.

#[export] Instance preserves_preorder : PreOrder preserves.
Proof.
  split.
  - intros p. split; eauto.
  - intros p q r [T1 E1 R1] [T2 E2 R2]. split; eauto.
    intros v n H. destruct (T1 v n H) as (n1 & H1 & <-). destruct (T2 v n1 H1) as (n2 & H2 & <-). eauto.
Qed.

(** ** Outcomes *)
Definition result (o : outcome) : option Z := match o with Val x => Some x | Exit _ => None end.

Lemma eval_mono f env g v o : eval f env g v = Some o -> forall f', (f <= f')%nat -> eval f' env g v = Some o.
Proof.
  revert v o. induction f as [|f IH]; intros v o E f' L; [discriminate|]. destruct f' as [|f']; [lia|]. cbn in *.
  apply bind_Some in E as (n & G & E). rewrite G. cbn. apply bind_Some in E as (args & A & E).
  apply mapM_Some in A. assert (mapM (fun c => o ← eval f' env g c; match o with Val x => Some x | Exit _ => None end) (m_children n) = Some args) as ->; [|exact E].
  apply mapM_Some. eapply Forall2_impl; [exact A|]. cbn. intros c x H. apply bind_Some in H as (o' & H & R).
  rewrite (IH _ _ H) by lia. exact R.
Qed.

Lemma run_det env g v o o' : run env g v o -> run env g v o' -> o = o'.
Proof.
  intros [f H] [f' H']. eapply eval_mono with (f' := (f + f')%nat) in H; [|lia]. eapply eval_mono with (f' := (f + f')%nat) in H'; [|lia].
  congruence.
Qed.

Lemma run_children env g cs args :
  Forall2 (fun c x => run env g c (Val x)) cs args ->
  exists f, forall f', (f <= f')%nat -> mapM (fun c => o ← eval f' env g c; match o with Val x => Some x | Exit _ => None end) cs = Some args.
Proof.
  induction 1 as [|c x cs args [f H] _ (fs & IH)]; [exists O; reflexivity|].
  exists (f + fs)%nat. intros f' L. cbn. rewrite (eval_mono _ _ _ _ _ H) by lia. cbn. rewrite IH by lia. reflexivity.
Qed.

(** An outcome is one of the operation on results of the children. *)
Lemma run_iff env g v o :
  run env g v o <-> exists n args, g !! v = Some n /\ Forall2 (fun c x => run env g c (Val x)) (m_children n) args /\ node_sem env g v n args = Some o.
Proof.
  split.
  - intros [f E]. destruct f as [|f]; [discriminate|]. cbn in E. apply bind_Some in E as (n & G & E). apply bind_Some in E as (args & A & E).
    exists n, args. split_and!; [done| |done]. apply mapM_Some in A. eapply Forall2_impl; [exact A|]. cbn. intros c x H.
    apply bind_Some in H as ([y|] & H & R); simplify_eq. exists f. exact H.
  - intros (n & args & G & A & E). destruct (run_children _ _ _ _ A) as (f & H). exists (S f). cbn. rewrite G. cbn.
    rewrite H by lia. exact E.
Qed.

(** ** Well-formedness, decided *)
Definition wfb (p : Proc) : bool :=
  forallb (fun '(v, n) => validate (m_vector p) n && down (size (m_vector p)) (m_vector p) v && (v <? m_size p)) (map_to_list (m_vector p)) &&
  forallb (fun i => bool_decide (m_vector p !! i = None) && (i <? m_size p)) (m_indexFreeList p) && bool_decide (NoDup (m_indexFreeList p)).

Lemma wfb_wf p : wfb p = true -> wf p.
Proof.
  unfold wfb. rewrite !andb_true_iff, !forallb_forall. intros [[V F] N]. apply bool_decide_eq_true in N.
  assert (forall v n, m_vector p !! v = Some n -> validate (m_vector p) n = true /\ down (size (m_vector p)) (m_vector p) v = true /\ v < m_size p) as H.
  { intros v n G. specialize (V (v, n)). cbn in V. rewrite !andb_true_iff, Z.ltb_lt in V. destruct V as [[? ?] ?]; [|done]. apply list_elem_of_In. by apply elem_of_map_to_list. }
  split; [apply H|intros v n G; eexists; by eapply H|apply H| |done].
  intros i I. apply list_elem_of_In, F in I. apply andb_true_iff in I as [I1 I2]. apply bool_decide_eq_true in I1. apply Z.ltb_lt in I2. done.
Qed.
