(* ===== verification/B3Graph.v ===== *)
(** * B3Graph: adding values to a procedure and changing one keeps it well formed and keeps its outcomes

    The current value [m] of the pass can be changed to any operation of the same type on values that do not depend on it
    ([Safe]), as long as it has the outcomes that [m] had. *)
From stdpp Require Import gmap.
From S2P Require Import Prelude B3Value B3Const B3IntRange B3Reduce B3Semantics.
Local Open Scope Z_scope.

Notation graph := (gmap Z Value).

(** ** Graphs without cycles *)
Lemma down_mono f g v f' : down f g v = true -> (f <= f')%nat -> down f' g v = true.
Proof.
  revert v f'. induction f as [|f IH]; intros v f' H L; [discriminate|]. destruct f' as [|f']; [lia|]. cbn in *.
  destruct (g !! v) as [n|]; [|discriminate]. rewrite forallb_forall in *. eauto with lia.
Qed.

Lemma down_weaken f g g' v : g ⊆ g' -> down f g v = true -> down f g' v = true.
Proof.
  intros S. revert v. induction f as [|f IH]; intros v H; [discriminate|]. cbn in *.
  destruct (g !! v) as [n|] eqn:G; [|discriminate]. rewrite (lookup_weaken _ _ _ _ G S). rewrite forallb_forall in *. auto.
Qed.

Lemma down_all g cs : (forall c, c ∈ cs -> exists f, down f g c = true) -> exists f, forallb (down f g) cs = true.
Proof.
  induction cs as [|c cs IH]; intros H; [exists O; reflexivity|].
  destruct (H c) as [f Hf]; [left|]. destruct IH as [fs Hs]; [intros; apply H; by right|].
  exists (f + fs)%nat. rewrite forallb_forall in *. intros x [<- | I]; eapply down_mono; eauto with lia.
Qed.

Lemma down_intro g v n : g !! v = Some n -> (forall c, c ∈ m_children n -> exists f, down f g c = true) -> exists f, down f g v = true.
Proof. intros G H. destruct (down_all _ _ H) as [f F]. exists (S f). cbn. by rewrite G. Qed.

Lemma down_children f g v n c : down (S f) g v = true -> g !! v = Some n -> c ∈ m_children n -> down f g c = true.
Proof. cbn. intros H G I. rewrite G, forallb_forall in H. apply H. by apply list_elem_of_In. Qed.

(** The least depth of a value. *)
Lemma down_least f g v : down f g v = true -> exists k, (k < f)%nat /\ down k g v = false /\ down (S k) g v = true.
Proof.
  induction f as [|f IH]; intros H; [discriminate|]. destruct (down f g v) eqn:E; [|exists f; split_and!; auto].
  destruct (IH eq_refl) as (k & ? & ? & ?). exists k. auto.
Qed.

(** A value of a depth above [k] has one below it for each depth up to [k]. *)
Lemma down_deep k g v : down (S k) g v = true -> down k g v = false -> (k <= size (filter (fun w => down k g w = true) (dom g)))%nat.
Proof.
  revert v. induction k as [|k IH]; intros v H F; [lia|].
  assert (exists c, down (S k) g c = true /\ down k g c = false) as (c & C1 & C2).
  { rewrite <- not_true_iff_false in F. cbn in H, F. destruct (g !! v) as [n|]; [|discriminate].
    destruct (forallb (down k g) (m_children n)) eqn:E; [by contradict F|]. clear F.
    induction (m_children n) as [|c cs IHc]; [discriminate|]. cbn [forallb] in H, E.
    apply andb_true_iff in H as [H1 H2]. destruct (down k g c) eqn:D; [|exists c; auto]. auto. }
  specialize (IH c C1 C2).
  assert (filter (fun w => down k g w = true) (dom g) ⊂ filter (fun w => down (S k) g w = true) (dom g)) as L.
  { split; [intros w; rewrite !elem_of_filter; intros [D ?]; split; auto; eapply down_mono; eauto|].
    intros I. specialize (I c). rewrite !elem_of_filter in I.
    assert (c ∈ dom g) as Dc by (cbn in C1; destruct (g !! c) eqn:G; [apply elem_of_dom; eauto|discriminate]).
    destruct (I (conj C1 Dc)). congruence. }
  apply subset_size in L. lia.
Qed.

Lemma down_size f g v : down f g v = true -> down (size g) g v = true.
Proof.
  intros H. destruct (down_least _ _ _ H) as (k & _ & F & D). pose proof (down_deep _ _ _ D F) as L.
  eapply down_mono; [exact D|]. rewrite <- size_dom. apply Nat.le_succ_l. eapply Nat.le_lt_trans; [exact L|]. apply subset_size. split; [set_solver|].
  intros I. assert (v ∈ dom g) as Dv by (cbn in D; destruct (g !! v) eqn:G; [apply elem_of_dom; eauto|discriminate]).
  apply I, elem_of_filter in Dv. destruct Dv. congruence.
Qed.

(** [v] does not depend on [m]. *)
Inductive Safe (g : graph) (m : Z) : Z -> Prop :=
  | Safe_intro v n : v <> m -> g !! v = Some n -> (forall c, c ∈ m_children n -> Safe g m c) -> Safe g m v.

Lemma Safe_weaken g g' m v : g ⊆ g' -> Safe g m v -> Safe g' m v.
Proof. intros S. induction 1 as [v n N G _ IH]. econstructor; eauto using lookup_weaken. Qed.

Lemma Safe_child g m v n c : Safe g m v -> g !! v = Some n -> c ∈ m_children n -> Safe g m c.
Proof. intros [w n' _ G H] G' I. simplify_eq. auto. Qed.

Lemma Safe_ne g m v : Safe g m v -> v <> m.
Proof. by intros []. Qed.

Lemma Safe_children p m n c : wf p -> m_vector p !! m = Some n -> c ∈ m_children n -> Safe (m_vector p) m c.
Proof.
  intros W G I. destruct (wf_down p W m n G) as [f D]. destruct (down_least _ _ _ D) as (k & _ & F & D').
  assert (forall j v, (j <= k)%nat -> down j (m_vector p) v = true -> Safe (m_vector p) m v) as H.
  { induction j as [|j IH]; intros v L E; [discriminate|]. destruct (m_vector p !! v) as [nv|] eqn:Gv; [|cbn in E; by rewrite Gv in E].
    econstructor; [|exact Gv|]; [intros ->; erewrite down_mono in F; [discriminate|exact E|lia]|].
    intros c' I'. apply IH; [lia|]. eapply down_children; eauto. }
  apply (H k); [lia|]. eapply down_children; eauto.
Qed.

(** ** Types *)
(** [g'] has the values of [g], with their types. *)
Definition types_kept (g g' : graph) : Prop := forall v n, g !! v = Some n -> exists n', g' !! v = Some n' /\ m_type n' = m_type n.

Lemma types_kept_sub g g' : g ⊆ g' -> types_kept g g'.
Proof. intros S v n G. exists n. split; [|done]. by eapply lookup_weaken. Qed.

Lemma types_kept_put g m n n' : g !! m = Some n -> m_type n' = m_type n -> types_kept g (<[m := n']> g).
Proof. intros G T v a H. destruct (decide (v = m)) as [-> | N]; simplify_map_eq; eauto. Qed.

Lemma validate_kept g g' n : types_kept g g' -> validate g n = true -> validate g' n = true.
Proof.
  intros K. unfold validate. destruct (mapM (fun c => m_type <$> g !! c) (m_children n)) as [ts|] eqn:E; [|done].
  assert (mapM (fun c => m_type <$> g' !! c) (m_children n) = Some ts) as ->; [|done].
  apply mapM_Some in E. apply mapM_Some. eapply Forall2_impl; [exact E|]. cbn. intros c t H. apply fmap_Some in H as (a & G & ->).
  destruct (K _ _ G) as (a' & -> & <-). done.
Qed.

Lemma validate_children g n c : validate g n = true -> c ∈ m_children n -> exists a, g !! c = Some a.
Proof.
  unfold validate. destruct (mapM _ (m_children n)) as [ts|] eqn:E; [|done]. intros _ I. apply mapM_Some in E.
  apply list_elem_of_lookup in I as [i I]. destruct (Forall2_lookup_l _ _ _ _ _ E I) as (t & _ & H). apply fmap_Some in H as (a & H & _). eauto.
Qed.

Lemma node_sem_kept env g g' v n args : types_kept g g' -> validate g n = true -> node_sem env g' v n args = node_sem env g v n args.
Proof.
  intros K V. assert (operand_type g' n = operand_type g n) as E; [|unfold node_sem; by rewrite E].
  unfold operand_type. destruct (m_opcode n); try done; unfold validate in V;
    (destruct (m_children n) as [|c cs]; [done|]; cbn in *;
     destruct (g !! c) as [a|] eqn:G; [|done]; destruct (K _ _ G) as (a' & -> & T); cbn; exact T).
Qed.

Lemma run_sub env g g' v o : g ⊆ g' -> (forall w n, g !! w = Some n -> validate g n = true) -> run env g v o -> run env g' v o.
Proof.
  intros S V [f E]. revert v o E. induction f as [|f IH]; intros v o E; [discriminate|]. cbn in E.
  apply bind_Some in E as (n & G & E). apply bind_Some in E as (args & A & E). apply run_iff. exists n, args.
  split_and!; [by eapply lookup_weaken| |rewrite (node_sem_kept _ g); eauto using types_kept_sub].
  apply mapM_Some in A. eapply Forall2_impl; [exact A|]. cbn. intros c x H. apply bind_Some in H as ([y|] & H & R); simplify_eq. auto.
Qed.

(** ** Adding a value *)
Lemma add_wf p v n size free :
  wf p -> m_vector p !! v = None -> validate (m_vector p) n = true -> v < size -> m_size p <= size ->
  (forall i, i ∈ free -> i ∈ m_indexFreeList p /\ i <> v) -> NoDup free ->
  wf (mkProc (<[v := n]> (m_vector p)) size free (m_insertions p) (m_changed p)).
Proof.
  intros W N V L1 L2 F D. assert (m_vector p ⊆ <[v := n]> (m_vector p)) as S by by apply insert_subseteq.
  assert (forall c, c ∈ m_children n -> exists f, down f (<[v := n]> (m_vector p)) c = true) as C.
  { intros c I. destruct (validate_children _ _ _ V I) as [a G]. destruct (wf_down p W _ _ G) as [f E]. eauto using down_weaken. }
  split; cbn.
  - intros w a G. apply lookup_insert_Some in G as [[<- <-] | [? G]]; eapply validate_kept; eauto using types_kept_sub, wf_valid.
  - intros w a G. apply lookup_insert_Some in G as [[<- <-] | [? G]].
    + eapply down_intro; [apply lookup_insert_eq|exact C].
    + destruct (wf_down p W _ _ G) as [f E]. eauto using down_weaken.
  - intros w a G. apply lookup_insert_Some in G as [[<- <-] | [? G]]; [done|]. pose proof (wf_below p W _ _ G). lia.
  - intros i I. destruct (F i I) as [I' ?]. destruct (wf_free p W i I'). rewrite lookup_insert_ne by done. split; [done|lia].
  - done.
Qed.

Lemma sub_preserves p p' : wf p -> m_vector p ⊆ m_vector p' ->
  (forall v n, m_vector p' !! v = Some n -> m_vector p !! v = None -> is_other (m_opcode n) = false) -> preserves p p'.
Proof.
  intros W S O. split; [by apply types_kept_sub| |].
  - intros env E v n args G H. destruct (m_vector p !! v) as [n'|] eqn:G'.
    + rewrite (lookup_weaken _ _ _ _ G' S) in G. simplify_eq. eapply E; eauto.
    + rewrite (O _ _ G G') in H. discriminate.
  - intros env v o _ R. eapply run_sub; eauto using wf_valid.
Qed.

Lemma proc_add_spec p n : wf p -> validate (m_vector p) n = true -> is_other (m_opcode n) = false ->
  exists v p', proc_add n p = Some (v, p') /\ m_vector p !! v = None /\ m_vector p' = <[v := n]> (m_vector p) /\
    m_insertions p' = m_insertions p /\ wf p' /\ preserves p p'.
Proof.
  intros W V O. unfold proc_add.
  assert (forall v size free, m_vector p !! v = None -> preserves p (mkProc (<[v := n]> (m_vector p)) size free (m_insertions p) (m_changed p))) as P.
  { intros v size free N. apply sub_preserves; [done|by apply insert_subseteq|]. cbn. intros w a G G'.
    apply lookup_insert_Some in G as [[<- <-] | [? G]]; [done|congruence]. }
  destruct (m_indexFreeList p) as [|i free] eqn:F.
  - assert (m_vector p !! m_size p = None) as N.
    { destruct (m_vector p !! m_size p) eqn:G; [|done]. apply (wf_below p W) in G. lia. }
    rewrite option_guard_True by done. eexists _, _. split; [reflexivity|]. cbn. split_and!; auto.
    apply add_wf; auto; [lia|lia| |constructor]. intros i I. by apply elem_of_nil in I.
  - destruct (wf_free p W i) as [N L]; [rewrite F; left|]. pose proof (wf_nodup p W) as D. rewrite F in D. inversion D as [|?? NI D']; subst.
    rewrite option_guard_True by done. eexists _, _. split; [reflexivity|]. cbn. split_and!; auto.
    apply add_wf; auto; [lia|]. intros j J. split; [rewrite F; by right|]. by intros ->.
Qed.

(** ** Changing the current value *)
Section put.
Context (p : Proc) (m : Z) (n n' : Value) (W : wf p) (G : m_vector p !! m = Some n) (T : m_type n' = m_type n).
Context (V : validate (m_vector p) n' = true) (S : forall c, c ∈ m_children n' -> Safe (m_vector p) m c) (O : is_other (m_opcode n') = false \/ m_opcode n' = m_opcode n).
Let g := m_vector p.
Let g' := <[m := n']> (m_vector p).

Lemma put_kept : types_kept g g'.
Proof. eapply types_kept_put; eauto. Qed.

Lemma put_down_safe v : Safe g m v -> exists f, down f g' v = true.
Proof. induction 1 as [v a N Gv _ IH]. eapply down_intro; [|exact IH]. subst g'. by rewrite lookup_insert_ne. Qed.

Lemma put_down v a : g' !! v = Some a -> exists f, down f g' v = true.
Proof.
  assert (exists f, down f g' m = true) as D.
  { eapply down_intro; [apply lookup_insert_eq|]. intros c I. apply put_down_safe, S, I. }
  assert (forall f v, down f g v = true -> exists f', down f' g' v = true) as H.
  { induction f as [|f IH]; intros w E; [discriminate|]. destruct (decide (w = m)) as [-> | N]; [done|].
    cbn in E. destruct (g !! w) as [b|] eqn:Gw; [|discriminate]. eapply down_intro; [subst g'; rewrite lookup_insert_ne; done|].
    intros c I. apply (IH c). rewrite forallb_forall in E. apply E. by apply list_elem_of_In. }
  intros Gv. apply lookup_insert_Some in Gv as [[<- <-] | [? Gv]]; [done|]. destruct (wf_down p W _ _ Gv) as [f E]. eauto.
Qed.

Lemma put_wf : wf (set_vector <[m := n']> p).
Proof.
  split; cbn.
  - intros v a Gv. eapply validate_kept; [apply put_kept|]. apply lookup_insert_Some in Gv as [[<- <-] | [? Gv]]; [done|]. eapply wf_valid; eauto.
  - apply put_down.
  - intros v a Gv. apply lookup_insert_Some in Gv as [[<- <-] | [? Gv]]; eapply wf_below; eauto.
  - intros i I. destruct (wf_free p W i I) as [N L]. split; [|done]. rewrite lookup_insert_ne; [done|]. intros ->. congruence.
  - by apply wf_nodup.
Qed.

Lemma put_preserves :
  (forall env o, good_env env g -> run env g m o -> exists args, Forall2 (fun c x => run env g c (Val x)) (m_children n') args /\ node_sem env g m n' args = Some o) ->
  preserves p (set_vector <[m := n']> p).
Proof.
  intros R. split; cbn.
  - apply put_kept.
  - intros env E v a args Gv H. apply lookup_insert_Some in Gv as [[<- <-] | [? Gv]]; [|eapply E; eauto].
    destruct O as [O' | O']; [congruence|]. rewrite O' in H. pose proof (E m n args G H) as R'. unfold good_result in *. by rewrite T, O'.
  - intros env v o E Rv. assert (exists f, down f g' v = true) as [f D].
    { apply run_iff in Rv as (a & _ & Gv & _). destruct (put_kept v a Gv) as (a' & Gv' & _). eapply put_down; eauto. }
    revert v o D Rv. induction f as [|f IH]; intros v o D Rv; [discriminate|]. apply run_iff.
    destruct (decide (v = m)) as [-> | N].
    + destruct (R env o E Rv) as (args & A & Sm). exists n', args. split_and!; [apply lookup_insert_eq| |].
      * apply Forall2_same_length_lookup_2; [by eapply Forall2_length|]. intros i c x Ic Ix. apply IH; [|exact (Forall2_lookup_lr _ _ _ _ _ _ A Ic Ix)].
        eapply down_children; [exact D|apply lookup_insert_eq|by eapply list_elem_of_lookup_2].
      * change (node_sem env g' m n' args = Some o). rewrite (node_sem_kept _ g); [done|apply put_kept|done].
    + apply run_iff in Rv as (a & args & Gv & A & Sm). exists a, args. assert (g' !! v = Some a) as Gv' by (subst g'; by rewrite lookup_insert_ne).
      split_and!; [done| |].
      * apply Forall2_same_length_lookup_2; [by eapply Forall2_length|]. intros i c x Ic Ix. apply IH; [|exact (Forall2_lookup_lr _ _ _ _ _ _ A Ic Ix)].
        eapply down_children; [exact D|done|by eapply list_elem_of_lookup_2].
      * change (node_sem env g' v a args = Some o). rewrite (node_sem_kept _ g); [done|apply put_kept|by eapply wf_valid].
Qed.

End put.
