(* ===== verification/B3Arith.v ===== *)
(** * B3Arith: arithmetic of the integer types

    Wrapping around, sign extension, masks and shifts, as the rules of strength reduction use them. *)
From S2P Require Import Prelude B3Value B3Const B3IntRange B3Reduce B3Semantics.
Local Open Scope Z_scope.

Lemma bits_pos t : 0 < bits t.
Proof. destruct t; reflexivity. Qed.

Lemma wrap_eq t x : wrap t x = (x + 2 ^ (bits t - 1)) mod 2 ^ bits t - 2 ^ (bits t - 1).
Proof. destruct t; reflexivity. Qed.

Lemma unsigned_eq t x : unsigned t x = x mod 2 ^ bits t.
Proof. destruct t; reflexivity. Qed.

Lemma in_type_iff t x : in_type t x = true <-> - 2 ^ (bits t - 1) <= x < 2 ^ (bits t - 1).
Proof. unfold in_type. destruct t; cbn [bits]; rewrite andb_true_iff, Z.leb_le, Z.ltb_lt; lia. Qed.

Lemma pow_bits t : 2 ^ bits t = 2 * 2 ^ (bits t - 1).
Proof. destruct t; reflexivity. Qed.

Lemma pow_half_pos t : 0 < 2 ^ (bits t - 1).
Proof. destruct t; reflexivity. Qed.

Lemma wrap_range t x : in_type t (wrap t x) = true.
Proof. rewrite in_type_iff, wrap_eq. pose proof (pow_bits t). pose proof (pow_half_pos t). Z.div_mod_to_equations. lia. Qed.

Lemma wrap_id t x : in_type t x = true -> wrap t x = x.
Proof. rewrite in_type_iff, wrap_eq. intros. rewrite Z.mod_small; [lia|]. rewrite pow_bits. lia. Qed.

Lemma wrap_mod t x : exists k, wrap t x = x + k * 2 ^ bits t.
Proof. rewrite wrap_eq. exists (- ((x + 2 ^ (bits t - 1)) / 2 ^ bits t)). rewrite Z.mod_eq; [lia|]. pose proof (pow_bits t). pose proof (pow_half_pos t). lia. Qed.

Lemma wrap_add_mul t x k : wrap t (x + k * 2 ^ bits t) = wrap t x.
Proof. rewrite !wrap_eq. rewrite <- (Z.mod_add (x + 2 ^ (bits t - 1)) k (2 ^ bits t)); [do 2 f_equal; lia|]. pose proof (pow_bits t). pose proof (pow_half_pos t). lia. Qed.

Lemma wrap_add_l t x y : wrap t (wrap t x + y) = wrap t (x + y).
Proof. destruct (wrap_mod t x) as [k ->]. rewrite <- (wrap_add_mul t (x + y) k). f_equal. lia. Qed.
Lemma wrap_add_r t x y : wrap t (x + wrap t y) = wrap t (x + y).
Proof. rewrite Z.add_comm, wrap_add_l. f_equal. lia. Qed.
Lemma wrap_opp t x : wrap t (- wrap t x) = wrap t (- x).
Proof. destruct (wrap_mod t x) as [k ->]. rewrite <- (wrap_add_mul t (- x) (- k)). f_equal. lia. Qed.
Lemma wrap_sub_l t x y : wrap t (wrap t x - y) = wrap t (x - y).
Proof. apply wrap_add_l. Qed.
Lemma wrap_sub_r t x y : wrap t (x - wrap t y) = wrap t (x - y).
Proof. destruct (wrap_mod t y) as [k ->]. rewrite <- (wrap_add_mul t (x - y) (- k)). f_equal. lia. Qed.
Lemma wrap_mul_l t x y : wrap t (wrap t x * y) = wrap t (x * y).
Proof. destruct (wrap_mod t x) as [k ->]. rewrite <- (wrap_add_mul t (x * y) (k * y)). f_equal. lia. Qed.
Lemma wrap_mul_r t x y : wrap t (x * wrap t y) = wrap t (x * y).
Proof. rewrite Z.mul_comm, wrap_mul_l. f_equal. lia. Qed.
Lemma wrap_wrap t x : wrap t (wrap t x) = wrap t x.
Proof. apply wrap_id, wrap_range. Qed.
Lemma wrap_unsigned t x : wrap t (unsigned t x) = wrap t x.
Proof.
  rewrite unsigned_eq, <- (wrap_add_mul t _ (x / 2 ^ bits t)). f_equal.
  rewrite (Z.div_mod x (2 ^ bits t)) at 3; [lia|]. pose proof (pow_bits t). pose proof (pow_half_pos t). lia.
Qed.
#[export] Hint Rewrite wrap_add_l wrap_add_r wrap_opp wrap_sub_l wrap_sub_r wrap_mul_l wrap_mul_r wrap_wrap wrap_unsigned : wrap.
(** Equations between results that wrap around. *)
Ltac wrap_ring := autorewrite with wrap; f_equal; ring.

Lemma unsigned_range t x : 0 <= unsigned t x < 2 ^ bits t.
Proof. rewrite unsigned_eq. apply Z.mod_pos_bound. pose proof (pow_bits t). pose proof (pow_half_pos t). lia. Qed.

Lemma unsigned_nonneg t x : in_type t x = true -> 0 <= x -> unsigned t x = x.
Proof. rewrite in_type_iff, unsigned_eq. intros. apply Z.mod_small. pose proof (pow_bits t). lia. Qed.

Lemma unsigned_inj t x y : in_type t x = true -> in_type t y = true -> unsigned t x = unsigned t y -> x = y.
Proof. intros X Y E. rewrite <- (wrap_id t x X), <- (wrap_id t y Y), <- (wrap_unsigned t x), <- (wrap_unsigned t y). by rewrite E. Qed.

(** ** Bitwise operations stay in the type *)
Lemma in_type_bits t x : in_type t x = true <-> forall i, bits t - 1 <= i -> Z.testbit x i = Z.testbit x (bits t - 1).
Proof.
  pose proof (bits_pos t). rewrite in_type_iff. split.
  - set (k := bits t - 1) in *. intros R. assert (forall i, k <= i -> Z.testbit x i = Z.testbit (Z.shiftr x k) (i - k)) as B.
    { intros i I. rewrite Z.shiftr_spec by lia. f_equal. lia. }
    assert (Z.shiftr x k = 0 \/ Z.shiftr x k = -1) as E.
    { rewrite Z.shiftr_div_pow2 by lia. assert (0 < 2 ^ k) by (apply Z.pow_pos_nonneg; lia). destruct (Z_lt_le_dec x 0); [right|left]; Z.div_mod_to_equations; nia. }
    intros i I. rewrite (B i I), (B k) by lia. destruct E as [-> | ->]; [by rewrite !Z.bits_0|by rewrite !Z.bits_m1 by lia].
  - intros B. set (k := bits t - 1) in *. assert (0 <= k) by lia. pose proof (Z.div_mod x (2 ^ k)). pose proof (Z.mod_pos_bound x (2 ^ k)).
    assert (x / 2 ^ k = 0 \/ x / 2 ^ k = -1) as [E | E]; [|lia..].
    rewrite <- !Z.shiftr_div_pow2 by lia. destruct (Z.testbit x k) eqn:S; [right|left]; apply Z.bits_inj'; intros i I; rewrite Z.shiftr_spec, B by lia.
    + rewrite Z.bits_m1 by lia. done.
    + by rewrite Z.bits_0.
Qed.

Lemma in_type_land t x y : in_type t x = true -> in_type t y = true -> in_type t (Z.land x y) = true.
Proof. rewrite !in_type_bits. intros X Y i I. by rewrite !Z.land_spec, X, Y. Qed.
Lemma in_type_lor t x y : in_type t x = true -> in_type t y = true -> in_type t (Z.lor x y) = true.
Proof. rewrite !in_type_bits. intros X Y i I. by rewrite !Z.lor_spec, X, Y. Qed.
Lemma in_type_lxor t x y : in_type t x = true -> in_type t y = true -> in_type t (Z.lxor x y) = true.
Proof. rewrite !in_type_bits. intros X Y i I. by rewrite !Z.lxor_spec, X, Y. Qed.

Lemma shift_mask_range t y : 0 <= shift_mask t y < bits t.
Proof.
  unfold shift_mask. destruct t; cbn [bits]; [change (64 - 1) with (Z.ones 6)|change (32 - 1) with (Z.ones 5)|change (64 - 1) with (Z.ones 6)..];
    rewrite Z.land_ones by lia; apply Z.mod_pos_bound; reflexivity.
Qed.

Lemma shift_mask_small t k : 0 <= k < bits t -> shift_mask t k = k.
Proof.
  intros H. unfold shift_mask. destruct t; cbn [bits] in *; [change (64 - 1) with (Z.ones 6)|change (32 - 1) with (Z.ones 5)|change (64 - 1) with (Z.ones 6)..];
    rewrite Z.land_ones by lia; apply Z.mod_small; lia.
Qed.

Lemma shift_mask_low t k : 0 <= k < 32 -> shift_mask t k = k.
Proof. intros. apply shift_mask_small. destruct t; cbn; lia. Qed.

Lemma shift_mask_land t y k : Z.land k (bits t - 1) = bits t - 1 -> shift_mask t (Z.land y k) = shift_mask t y.
Proof. intros H. unfold shift_mask. by rewrite <- Z.land_assoc, H. Qed.

Lemma in_type_shiftr t x k : 0 <= k -> in_type t x = true -> in_type t (Z.shiftr x k) = true.
Proof.
  rewrite !in_type_iff. intros K R. rewrite Z.shiftr_div_pow2 by done. pose proof (pow_half_pos t). assert (0 < 2 ^ k) by (apply Z.pow_pos_nonneg; lia).
  split; [apply Z.div_le_lower_bound; nia|apply Z.div_lt_upper_bound; nia].
Qed.

Lemma in_type_bool t b : in_type t (bool_value b) = true.
Proof. destruct t, b; reflexivity. Qed.

Lemma in_type_quot t x y : in_type t x = true -> y <> 0 -> ~ (x = type_min t /\ y = -1) -> in_type t (Z.quot x y) = true.
Proof.
  rewrite !in_type_iff. unfold type_min. intros R N M. pose proof (pow_half_pos t).
  assert (Z.abs (Z.quot x y) <= Z.abs x) by (rewrite <- Z.quot_abs, Z.quot_div_nonneg by lia; apply Z.div_le_upper_bound; nia).
  destruct (Z.eq_dec (Z.quot x y) (2 ^ (bits t - 1))) as [E|]; [|lia].
  exfalso. apply M. assert (x = - 2 ^ (bits t - 1)) as -> by lia. split; [done|]. pose proof (Z.quot_rem' (- 2 ^ (bits t - 1)) y).
  pose proof (Z.rem_bound_abs (- 2 ^ (bits t - 1)) y). pose proof (Z.rem_nonpos (- 2 ^ (bits t - 1)) y). rewrite E in *.
  destruct (Z_lt_le_dec y 0); nia.
Qed.

Lemma in_type_rem t x y : in_type t x = true -> in_type t (Z.rem x y) = true.
Proof.
  rewrite !in_type_iff. intros R. pose proof (pow_half_pos t). destruct (Z.eq_dec y 0) as [-> | N]; [by destruct x|].
  assert (Z.abs (Z.rem x y) <= Z.abs x) by (rewrite <- Z.rem_abs, Z.rem_mod_nonneg by lia; apply Z.mod_le; lia).
  destruct (Z_lt_le_dec x 0); [pose proof (Z.rem_nonpos x y)|pose proof (Z.rem_nonneg x y)]; lia.
Qed.
