(* ===== verification/B3Rules.v ===== *)
(** * B3Rules: how to prove a rule of the pass

    [wp g c Q]: on any well-formed procedure whose values are [g], [c] succeeds, keeps the procedure well formed and its
    outcomes, and [Q] holds of the result and the values after it.  A rule is proved by running it symbolically; what remains
    is an equation between results. *)
From stdpp Require Import gmap.
From S2P Require Import Prelude B3Value B3Const B3IntRange B3Reduce B3Semantics B3Graph B3Arith.
Local Open Scope Z_scope.

Record wfg (g : graph) : Prop := {
  wfg_valid v n : g !! v = Some n -> validate g n = true;
  wfg_safe m n c : g !! m = Some n -> c ∈ m_children n -> Safe g m c
}.
Lemma wf_wfg p : wf p -> wfg (m_vector p).
Proof. intros W. split; [apply (wf_valid p W)|]. intros. by eapply Safe_children. Qed.

Definition wp {A} (g : graph) (c : M A) (Q : A -> graph -> Prop) : Prop :=
  forall p, m_vector p = g -> wf p -> exists a p', c p = Some (a, p') /\ wf p' /\ preserves p p' /\ Q a (m_vector p').
(** Nothing is asked of the end. *)
Notation ok g c := (wp g c (fun (_ : unit) (_ : graph) => True)).

Lemma wp_wfg {A} g (c : M A) Q : (wfg g -> wp g c Q) -> wp g c Q.
Proof. intros H p <- W. apply H; auto using wf_wfg. Qed.

Lemma wp_ret {A} g (a : A) (Q : A -> graph -> Prop) : Q a g -> wp g (ret a) Q.
Proof. intros H p <- W. exists a, p. split_and!; [done|done|reflexivity|done]. Qed.

Lemma wp_skip g (Q : unit -> graph -> Prop) : Q tt g -> wp g skip Q.
Proof. apply wp_ret. Qed.

Lemma wp_bind {A B} g (c : M A) (k : A -> M B) Q : wp g c (fun a g' => wp g' (k a) Q) -> wp g (bind c k) Q.
Proof.
  intros H p E W. destruct (H p E W) as (a & p1 & C & W1 & P1 & K). destruct (K p1 eq_refl W1) as (b & p2 & C2 & W2 & P2 & HQ).
  exists b, p2. unfold bind. rewrite C. cbn. split_and!; auto. by etrans.
Qed.

Lemma wp_mono {A} g (c : M A) (Q Q' : A -> graph -> Prop) : (forall a g', Q a g' -> Q' a g') -> wp g c Q -> wp g c Q'.
Proof. intros I H p E W. destruct (H p E W) as (a & p' & ? & ? & ? & ?). exists a, p'. auto. Qed.

Lemma wp_get g v n (Q : Value -> graph -> Prop) : g !! v = Some n -> Q n g -> wp g (get v) Q.
Proof. intros G H p <- W. exists n, p. unfold get. rewrite G. split_and!; [done|done|reflexivity|done]. Qed.

Lemma wp_need {A} g (o : option A) a (Q : A -> graph -> Prop) : o = Some a -> Q a g -> wp g (need o) Q.
Proof. intros -> H p <- W. exists a, p. split_and!; [done|done|reflexivity|done]. Qed.

Lemma wp_guard g (P : Prop) `{!Decision P} (Q : P -> graph -> Prop) : P -> (forall H, Q H g) -> wp g (need (guard P)) Q.
Proof. intros H K p <- W. unfold need. case_guard; [|done]. eexists _, p. split_and!; [reflexivity|done|reflexivity|done]. Qed.

Lemma wp_read {A} g (f : Proc -> option A) a (Q : A -> graph -> Prop) :
  (forall p, m_vector p = g -> f p = Some a) -> Q a g -> wp g (fun p => x ← f p; Some (x, p)) Q.
Proof. intros F H p <- W. exists a, p. rewrite (F p eq_refl). split_and!; [done|done|reflexivity|done]. Qed.

(** Steps that keep the values. *)
Lemma same_values p p' : m_vector p' = m_vector p -> m_size p' = m_size p -> m_indexFreeList p' = m_indexFreeList p -> wf p -> wf p' /\ preserves p p'.
Proof.
  intros E1 E2 E3 [V D B F N]. split; [split; rewrite ?E1, ?E2, ?E3; auto|]. split; rewrite E1; eauto.
Qed.

Lemma wp_insertValue g v (Q : Z -> graph -> Prop) : Q v g -> wp g (insertValue v) Q.
Proof.
  intros H p <- W. eexists _, _. split; [reflexivity|]. edestruct (same_values p) as [? ?]; [| | |exact W|split_and!; [done|done|]]; cbn; done.
Qed.

Lemma wp_changed g (Q : unit -> graph -> Prop) : Q tt g -> wp g changed Q.
Proof.
  intros H p <- W. eexists _, _. split; [reflexivity|]. edestruct (same_values p) as [? ?]; [| | |exact W|split_and!; [done|done|]]; cbn; done.
Qed.

(** A new value: the values before are among those after. *)
Lemma wp_add g n (Q : Z -> graph -> Prop) :
  validate g n = true -> is_other (m_opcode n) = false ->
  (forall v g', g ⊆ g' -> g' !! v = Some n -> (forall m, g !! m <> None -> (forall c, c ∈ m_children n -> Safe g m c) -> Safe g' m v) -> Q v g') ->
  wp g (proc_add n) Q.
Proof.
  intros V O H p <- W. destruct (proc_add_spec p n W V O) as (v & p' & E & N & G & _ & W' & P).
  exists v, p'. split_and!; [done..|]. rewrite G. assert (m_vector p ⊆ <[v := n]> (m_vector p)) by by apply insert_subseteq.
  apply H; [done|apply lookup_insert_eq|]. intros m M S. econstructor; [|apply lookup_insert_eq|eauto using Safe_weaken]. intros ->. congruence.
Qed.

(** A new content of the current value. *)
Lemma wp_put_gen g m n n' (Q : unit -> graph -> Prop) :
  g !! m = Some n -> m_type n' = m_type n -> validate g n' = true -> is_other (m_opcode n') = false \/ m_opcode n' = m_opcode n -> (forall c, c ∈ m_children n' -> Safe g m c) ->
  (forall env o, good_env env g -> run env g m o -> exists args, Forall2 (fun c x => run env g c (Val x)) (m_children n') args /\ node_sem env g m n' args = Some o) ->
  Q tt (<[m := n']> g) -> wp g (put m n') Q.
Proof.
  intros G T V O S R H p <- W. eexists tt, _. split; [unfold put; rewrite G; reflexivity|].
  split_and!; [by eapply put_wf|by eapply put_preserves|done].
Qed.
Lemma wp_put g m n n' (Q : unit -> graph -> Prop) :
  g !! m = Some n -> m_type n' = m_type n -> validate g n' = true -> is_other (m_opcode n') = false -> (forall c, c ∈ m_children n' -> Safe g m c) ->
  (forall env o, good_env env g -> run env g m o -> exists args, Forall2 (fun c x => run env g c (Val x)) (m_children n') args /\ node_sem env g m n' args = Some o) ->
  Q tt (<[m := n']> g) -> wp g (put m n') Q.
Proof. eauto using wp_put_gen. Qed.

(** The current value becomes another one. *)
Lemma wp_identity g m n v nv (Q : unit -> graph -> Prop) :
  g !! m = Some n -> g !! v = Some nv -> m_type nv = m_type n -> m_type n <> Void -> Safe g m v ->
  (forall env o, good_env env g -> run env g m o -> exists z, o = Val z /\ run env g v (Val z)) ->
  Q tt (<[m := mkValue Identity false (m_type n) [v] 0]> g) -> wp g (value_replaceWithIdentity m v) Q.
Proof.
  intros G Gv T NV S R H. unfold value_replaceWithIdentity.
  apply wp_bind. eapply wp_get; [exact G|]. apply wp_bind. eapply wp_get; [exact Gv|].
  apply wp_bind, wp_guard; [done|]. intros _. apply wp_bind, wp_guard; [by eapply Safe_ne|]. intros _.
  apply wp_bind, wp_guard; [done|]. intros _. eapply wp_put; [exact G|done| |done| | |exact H]; cbn.
  - unfold validate. cbn. rewrite Gv. cbn. rewrite bool_decide_true by done. by rewrite bool_decide_false.
  - intros c I. apply list_elem_of_singleton in I as ->. done.
  - intros env o E Rm. destruct (R env o E Rm) as (z & -> & Rv). exists [z]. split; [by repeat constructor|reflexivity].
Qed.

(** ** Outcomes by the number of operands *)
Section runs.
Context (env : Z -> list Z -> Z) (g : graph).

Definition is_binary (op : Opcode) : bool :=
  match op with
  | Add | Sub | Mul | Div | UDiv | Mod | UMod | BitAnd | BitOr | BitXor | Shl | SShr | ZShr | RotR | RotL
  | Equal | NotEqual | LessThan | GreaterThan | LessEqual | GreaterEqual | Above | Below | AboveEqual | BelowEqual => true
  | _ => false
  end.
Definition is_unary (op : Opcode) : bool :=
  match op with Identity | Neg | SExt8 | SExt16 | SExt32 | ZExt32 | Trunc => true | _ => false end.
Definition is_check (op : Opcode) : bool := match op with CheckAdd | CheckSub | CheckMul => true | _ => false end.

Lemma run_binary v op ch t a b z o : g !! v = Some (mkValue op ch t [a; b] z) -> is_binary op = true ->
  run env g v o <-> exists x y r, run env g a (Val x) /\ run env g b (Val y) /\ sem2 op ch (operand_type g (mkValue op ch t [a; b] z)) x y = Some r /\ o = Val r.
Proof.
  intros G B. rewrite run_iff. split.
  - intros (n & args & G' & A & E). simplify_eq. cbn in A. inversion A as [|? x ? ? Ha A']; subst. inversion A' as [|? y ? ? Hb A'']; subst. inversion A''; subst.
    exists x, y. destruct op; try discriminate B; cbn in E; (apply fmap_Some in E as (r & E & ->) || (simplify_eq; eexists; eauto)); exists r; auto.
  - intros (x & y & r & Ha & Hb & E & ->). eexists _, [x; y]. split_and!; [exact G|by repeat constructor|].
    destruct op; try discriminate B; unfold node_sem; cbn [m_opcode is_other m_isChill]; by rewrite E.
Qed.

Lemma run_unary v op ch t a z o : g !! v = Some (mkValue op ch t [a] z) -> is_unary op = true ->
  run env g v o <-> exists x r, run env g a (Val x) /\ sem1 op t x = Some r /\ o = Val r.
Proof.
  intros G B. rewrite run_iff. split.
  - intros (n & args & G' & A & E). simplify_eq. cbn in A. inversion A as [|? x ? ? Ha A']; subst. inversion A'; subst. exists x.
    destruct op; try discriminate B; cbn in E; simplify_eq; eauto.
  - intros (x & r & Ha & E & ->). eexists _, [x]. split_and!; [exact G|by repeat constructor|]. destruct op; try discriminate B; cbn in *; by simplify_eq.
Qed.

Lemma run_const v op ch t cs z o : g !! v = Some (mkValue op ch t cs z) -> op = Const32 \/ op = Const64 -> validate g (mkValue op ch t cs z) = true ->
  run env g v o <-> o = Val z.
Proof.
  intros G B V. assert (cs = []) as ->.
  { unfold validate in V. cbn in V. destruct cs as [|c cs]; [done|]. exfalso. cbn in V.
    destruct (g !! c); cbn in V; [|done]. destruct (mapM _ cs); cbn in V; [|done]. destruct B as [-> | ->]; done. }
  rewrite run_iff. split.
  - intros (n & args & G' & A & E). simplify_eq. destruct B as [-> | ->]; cbn in E; by simplify_eq.
  - intros ->. eexists _, []. split_and!; [exact G|constructor|]. destruct B as [-> | ->]; reflexivity.
Qed.

Lemma run_select v ch t c a b z o : g !! v = Some (mkValue Select ch t [c; a; b] z) ->
  run env g v o <-> exists x y w, run env g c (Val w) /\ run env g a (Val x) /\ run env g b (Val y) /\ o = Val (if w =? 0 then y else x).
Proof.
  intros G. rewrite run_iff. split.
  - intros (n & args & G' & A & E). simplify_eq. cbn in A. inversion A as [|? w ? ? Hc A']; subst. inversion A' as [|? x ? ? Ha A'']; subst.
    inversion A'' as [|? y ? ? Hb A3]; subst. inversion A3; subst. cbn in E. simplify_eq. exists x, y, w. auto.
  - intros (x & y & w & Hc & Ha & Hb & ->). eexists _, [w; x; y]. split_and!; [exact G|by repeat constructor|reflexivity].
Qed.

Lemma run_check v op ch t a b rest z o : g !! v = Some (mkValue op ch t (a :: b :: rest) z) -> is_check op = true ->
  run env g v o <-> exists x y r args, run env g a (Val x) /\ run env g b (Val y) /\ Forall2 (fun c x => run env g c (Val x)) rest args /\
    sem_check op x y = Some r /\ o = (if in_type t r then Val r else Exit args).
Proof.
  intros G B. rewrite run_iff. split.
  - intros (n & args & G' & A & E). simplify_eq. cbn in A. inversion A as [|? x ? ? Ha A']; subst. inversion A' as [|? y ? args' Hb A'']; subst.
    exists x, y. destruct op; try discriminate B; cbn in E; simplify_eq; eexists _, args'; split_and!; eauto; reflexivity.
  - intros (x & y & r & args & Ha & Hb & A & E & ->). eexists _, (x :: y :: args). split_and!; [exact G|by repeat constructor|].
    destruct op; try discriminate B; cbn in *; by simplify_eq.
Qed.

End runs.

(** ** the shape of well-formed values, the range of their results, and the steps that rules are made of *)

(** Booleans about types in the context become equations. *)
Ltac types :=
  repeat match goal with
  | H : typing _ _ _ _ = true |- _ => progress cbn [typing is_other] in H
  | H : _ && _ = true |- _ => apply andb_true_iff in H as [? H]
  | H : bool_decide _ = true |- _ => apply bool_decide_eq_true in H
  | H : negb (bool_decide _) = true |- _ => apply negb_true_iff, bool_decide_eq_false in H
  end.

(** ** Shapes *)
Lemma validate_types g n : validate g n = true ->
  exists ts, Forall2 (fun c t => exists a, g !! c = Some a /\ m_type a = t) (m_children n) ts /\ typing (m_opcode n) (m_type n) ts (m_value n) = true.
Proof.
  unfold validate. destruct (mapM _ (m_children n)) as [ts|] eqn:E; [|done]. intros T. exists ts. split; [|done].
  apply mapM_Some in E. eapply Forall2_impl; [exact E|]. cbn. intros c t H. apply fmap_Some in H as (a & ? & ->). eauto.
Qed.

Lemma types_validate g n ts : Forall2 (fun c t => exists a, g !! c = Some a /\ m_type a = t) (m_children n) ts ->
  typing (m_opcode n) (m_type n) ts (m_value n) = true -> validate g n = true.
Proof.
  intros F T. unfold validate. assert (mapM (fun c => m_type <$> g !! c) (m_children n) = Some ts) as ->; [|done].
  apply mapM_Some. eapply Forall2_impl; [exact F|]. cbn. by intros c t (a & -> & <-).
Qed.

Section views.
Context {g : graph} (W : wfg g).

Lemma view2 {v op ch t cs z} : g !! v = Some (mkValue op ch t cs z) -> is_binary op = true ->
  exists a b na nb, cs = [a; b] /\ g !! a = Some na /\ g !! b = Some nb /\ typing op t [m_type na; m_type nb] 0 = true.
Proof.
  intros G B. destruct (validate_types _ _ (wfg_valid g W _ _ G)) as (ts & F & T). cbn in *.
  destruct ts as [|t0 [|t1 [|t2 ts]]]; try (by destruct op).
  inversion F as [|a ? ? ? (na & Ga & <-) F']; subst. inversion F' as [|b ? ? ? (nb & Gb & <-) F'']; subst. inversion F''; subst.
  exists a, b, na, nb. split_and!; auto; destruct op; done.
Qed.

Lemma view1 {v op ch t cs z} : g !! v = Some (mkValue op ch t cs z) -> is_unary op = true ->
  exists a na, cs = [a] /\ g !! a = Some na /\ typing op t [m_type na] 0 = true.
Proof.
  intros G B. destruct (validate_types _ _ (wfg_valid g W _ _ G)) as (ts & F & T). cbn in *.
  destruct ts as [|t0 [|t1 ts]]; try (by destruct op).
  inversion F as [|a ? ? ? (na & Ga & <-) F']; subst. inversion F'; subst. exists a, na. split_and!; auto; destruct op; done.
Qed.

Lemma view_select {v ch t cs z} : g !! v = Some (mkValue Select ch t cs z) ->
  exists c a b nc na nb, cs = [c; a; b] /\ g !! c = Some nc /\ g !! a = Some na /\ g !! b = Some nb /\
    is_int (m_type nc) = true /\ m_type na = t /\ m_type nb = t /\ t <> Void.
Proof.
  intros G. destruct (validate_types _ _ (wfg_valid g W _ _ G)) as (ts & F & T). cbn in *. destruct ts as [|t0 [|t1 [|t2 [|t3 ts]]]]; try done.
  inversion F as [|c ? ? ? (nc & Gc & <-) F1]; subst. inversion F1 as [|a ? ? ? (na & Ga & <-) F2]; subst.
  inversion F2 as [|b ? ? ? (nb & Gb & <-) F3]; subst. inversion F3; subst. types. exists c, a, b, nc, na, nb. split_and!; auto.
Qed.

Lemma view_check {v op ch t cs z} : g !! v = Some (mkValue op ch t cs z) -> is_check op = true ->
  exists a b rest na nb, cs = a :: b :: rest /\ g !! a = Some na /\ g !! b = Some nb /\ is_int t = true /\ m_type na = t /\ m_type nb = t /\
    (forall c, c ∈ rest -> exists n, g !! c = Some n).
Proof.
  intros G B. pose proof (wfg_valid g W _ _ G) as V. destruct (validate_types _ _ V) as (ts & F & T). cbn in *.
  destruct ts as [|t0 [|t1 ts]]; try (by destruct op).
  inversion F as [|a ? ? ? (na & Ga & <-) F1]; subst. inversion F1 as [|b ? rest ? (nb & Gb & <-) F2]; subst.
  exists a, b, rest, na, nb. assert (is_int t && bool_decide (m_type na = t) && bool_decide (m_type nb = t) = true) by (by destruct op).
  types. split_and!; auto. intros c I. eapply validate_children; [exact V|]. cbn. set_solver.
Qed.

(** Constants. *)
Lemma view_int {v n} : g !! v = Some n -> hasInt n = true ->
  in_type (m_type n) (asInt n) = true /\ forall env o, run env g v o <-> o = Val (asInt n).
Proof.
  intros G H. destruct n as [op ch t cs z]. unfold hasInt, hasInt32, hasInt64 in H. cbn in *. pose proof (wfg_valid g W _ _ G) as V. split.
  - destruct (validate_types _ _ V) as (ts & _ & T). cbn in T. destruct op; try done; destruct ts; try done; types; subst; done.
  - intros env o. unfold asInt. cbn. eapply run_const; [exact G| |exact V]. destruct op; auto; done.
Qed.

Lemma view_type32 {v n} : g !! v = Some n -> hasInt32 n = true -> m_type n = Int32.
Proof.
  intros G H. destruct n as [op ch t cs z]. destruct op; try done. destruct (validate_types _ _ (wfg_valid g W _ _ G)) as (ts & _ & T). cbn in *.
  destruct ts; types; done.
Qed.
Lemma view_type64 {v n} : g !! v = Some n -> hasInt64 n = true -> m_type n = Int64.
Proof.
  intros G H. destruct n as [op ch t cs z]. destruct op; try done. destruct (validate_types _ _ (wfg_valid g W _ _ G)) as (ts & _ & T). cbn in *.
  destruct ts; types; done.
Qed.

Lemma operand_type_cmp {op ch t a b z na} : is_binary op = true -> g !! a = Some na -> typing op t [m_type na; m_type na] 0 = true ->
  operand_type g (mkValue op ch t [a; b] z) = m_type na.
Proof. intros B G T. destruct op; try done; cbn in *; types; rewrite ?G; done. Qed.

End views.

(** The operand type of a binary operation is the type of its first child. *)
Lemma operand_type_first g op ch t a b z na : is_binary op = true -> g !! a = Some na -> (exists t1, typing op t [m_type na; t1] 0 = true) ->
  operand_type g (mkValue op ch t [a; b] z) = m_type na.
Proof. intros B G [t1 T]. destruct op; try done; cbn in *; types; rewrite ?G; done. Qed.

Lemma run2 env g v op ch t a b z na nb o : g !! v = Some (mkValue op ch t [a; b] z) -> is_binary op = true -> g !! a = Some na ->
  typing op t [m_type na; m_type nb] 0 = true ->
  run env g v o <-> exists x y r, run env g a (Val x) /\ run env g b (Val y) /\ sem2 op ch (m_type na) x y = Some r /\ o = Val r.
Proof. intros G B Ga T. rewrite (run_binary env g v op ch t a b z o G B). by erewrite operand_type_first by eauto. Qed.

(** ** The range of results *)
Lemma s16_eq x : s16 x = (x + 2 ^ 15) mod 2 ^ 16 - 2 ^ 15.
Proof. reflexivity. Qed.

Lemma sem1_range op t t0 x r : is_unary op = true -> op <> Identity -> typing op t [t0] 0 = true -> in_type t0 x = true -> sem1 op t x = Some r -> in_type t r = true.
Proof.
  intros B N T R E. destruct op; try done; cbn in *; types; subst; simplify_eq; try apply wrap_range;
    revert R; unfold s8, s16, u32, s32, in_type; rewrite !andb_true_iff, !Z.leb_le, !Z.ltb_lt; Z.div_mod_to_equations; lia.
Qed.

Lemma chillDiv_range t x y : in_type t x = true -> in_type t (chillDiv t x y) = true.
Proof.
  intros R. unfold chillDiv. if_cases; [by destruct t|]. destruct (_ && _) eqn:E2; [destruct t; reflexivity|]. bool_prop.
  apply in_type_quot; auto. unfold type_min. intros [-> ->]. destruct E2 as [E2|E2]; lia.
Qed.
Lemma chillMod_range t x y : in_type t x = true -> in_type t (chillMod t x y) = true.
Proof. intros R. unfold chillMod. repeat if_cases; [by destruct t..|]. by apply in_type_rem. Qed.

Lemma sem2_range op ch t t0 t1 x y r : is_binary op = true -> typing op t [t0; t1] 0 = true -> in_type t0 x = true -> in_type t1 y = true ->
  sem2 op ch t0 x y = Some r -> in_type t r = true.
Proof.
  intros B T X Y E. destruct op; try done; cbn in *; types; subst; simplify_eq; try apply wrap_range; try apply in_type_bool;
    auto using in_type_land, in_type_lor, in_type_lxor.
  - unfold sem_div in E. case_match; simplify_eq. by apply chillDiv_range.
  - repeat case_match; simplify_eq; apply wrap_range.
  - unfold sem_div in E. case_match; simplify_eq. by apply chillMod_range.
  - repeat case_match; simplify_eq; apply wrap_range.
  - apply in_type_shiftr; [apply shift_mask_range|done].
Qed.

Lemma run_range env g v n z : wfg g -> good_env env g -> g !! v = Some n -> is_int (m_type n) = true -> run env g v (Val z) -> in_type (m_type n) z = true.
Proof.
  intros W E G I [f R]. revert v n z G I R. induction f as [|f IH]; intros v n z G I R; [discriminate|].
  assert (run env g v (Val z)) as R' by (eexists; exact R). destruct n as [op ch t cs k]. cbn [m_type] in *.
  destruct (is_other op) eqn:O.
  { apply run_iff in R' as (n' & args & G' & _ & S). simplify_eq. unfold node_sem in S. cbn in S. rewrite O in S. simplify_eq. by apply (E v _ args G O). }
  assert (forall c x a, c ∈ cs -> g !! c = Some a -> is_int (m_type a) = true -> run env g c (Val x) -> in_type (m_type a) x = true) as IHc.
  { intros c x a Ic Gc Ia Rc. cbn in R. rewrite G in R. cbn in R. apply bind_Some in R as (args & A & _). apply mapM_Some in A.
    apply list_elem_of_lookup in Ic as [i Ic]. destruct (Forall2_lookup_l _ _ _ _ _ A Ic) as (y & _ & H). apply bind_Some in H as ([w|] & H & ?); simplify_eq.
    assert (Val y = Val x) as [= <-] by (eapply run_det; [eexists; exact H|exact Rc]). eauto. }
  destruct (is_binary op) eqn:B2.
  { destruct (view2 W G B2) as (a & b & na & nb & -> & Ga & Gb & T).
    apply (run2 _ _ _ _ _ _ _ _ _ na nb _ G B2 Ga T) in R' as (x & y & r & Ra & Rb & S & [= <-]).
    assert (is_int (m_type na) = true /\ is_int (m_type nb) = true) as [Ia Ib].
    { destruct op; try done; cbn in T; types; repeat match goal with H : m_type _ = _ |- _ => rewrite H end; auto. }
    eapply sem2_range; [exact B2|exact T| | |exact S]; eapply IHc; eauto; set_solver. }
  destruct (is_unary op) eqn:B1.
  { destruct (view1 W G B1) as (a & na & -> & Ga & T). apply (run_unary _ _ _ _ _ _ _ _ _ G B1) in R' as (x & r & Ra & S & [= <-]).
    assert (is_int (m_type na) = true) as Ia.
    { destruct op; try done; cbn in T; types; repeat match goal with H : m_type _ = _ |- _ => rewrite H end; auto. }
    assert (in_type (m_type na) x = true) as X by (eapply IHc; eauto; set_solver).
    destruct (decide (op = Identity)) as [-> | N]; [|by eapply sem1_range]. cbn in T, S. types. simplify_eq. congruence. }
  destruct (is_check op) eqn:BC.
  { destruct (view_check W G BC) as (a & b & rest & na & nb & -> & Ga & Gb & _).
    apply (run_check _ _ _ _ _ _ _ _ _ _ _ G BC) in R' as (x & y & r & args & _ & _ & _ & S & H). destruct (in_type t r) eqn:In; congruence. }
  destruct op; try discriminate; cbn in O.
  - destruct (view_int W G eq_refl) as [Rg Ru]. apply Ru in R'. by simplify_eq.
  - destruct (view_int W G eq_refl) as [Rg Ru]. apply Ru in R'. by simplify_eq.
  - destruct (view_select W G) as (c & a & b & nc & na & nb & -> & Gc & Ga & Gb & _ & <- & Tb & _).
    apply (run_select _ _ _ _ _ _ _ _ _ _ G) in R' as (x & y & w & Rc & Ra & Rb & [= ->]).
    if_cases; [rewrite <- Tb; apply (IHc b y nb); [set_solver|exact Gb|by rewrite Tb|done]|apply (IHc a x na); [set_solver|exact Ga|done|done]].
Qed.
