(* ===== verification/B3Steps.v ===== *)
(** * B3Steps: the steps that the rules of strength reduction share: new values, replacement, folding of constants *)
From stdpp Require Import gmap.
From S2P Require Import Prelude B3Value B3Const B3IntRange B3Reduce B3Semantics B3Graph B3Arith B3Rules.
Local Open Scope Z_scope.

Definition const_of (t : B3Type) (z : Z) : Value := match t with Int32 => const32 z | _ => const64 z end.

Lemma const_of_fields t z : is_int t = true -> hasInt (const_of t z) = true /\ asInt (const_of t z) = z /\ m_type (const_of t z) = t /\ m_children (const_of t z) = [].
Proof. by destruct t. Qed.

Lemma const_type t z : is_int t = true -> m_type (const_of t z) = t.
Proof. by destruct t. Qed.
Lemma const_children t z : m_children (const_of t z) = [].
Proof. by destruct t. Qed.

(** ** Symbolic execution *)
Lemma wp_child {g n i v} {Q : Z -> graph -> Prop} : m_children n !! i = Some v -> Q v g -> wp g (child n i) Q.
Proof. apply wp_need. Qed.

Lemma wp_operands {g m n c0 c1 rest a b k} {Q : unit -> graph -> Prop} :
  g !! m = Some n -> m_children n = c0 :: c1 :: rest -> g !! c0 = Some a -> g !! c1 = Some b -> wp g (k n c0 c1 a b) Q -> wp g (operands m k) Q.
Proof.
  intros G C Ga Gb H. unfold operands. apply wp_bind. eapply wp_get; [done|]. apply wp_bind. eapply wp_child; [by rewrite C|].
  apply wp_bind. eapply wp_child; [by rewrite C|]. apply wp_bind. eapply wp_get; [done|]. apply wp_bind. eapply wp_get; [done|]. exact H.
Qed.

Lemma wp_operand {g m n c0 rest a k} {Q : unit -> graph -> Prop} :
  g !! m = Some n -> m_children n = c0 :: rest -> g !! c0 = Some a -> wp g (k n c0 a) Q -> wp g (operand m k) Q.
Proof.
  intros G C Ga H. unfold operand. apply wp_bind. eapply wp_get; [done|]. apply wp_bind. eapply wp_child; [by rewrite C|].
  apply wp_bind. eapply wp_get; [done|]. exact H.
Qed.

Lemma wp_ext {A} g (c c' : M A) Q : (forall p, m_vector p = g -> c p = c' p) -> wp g c' Q -> wp g c Q.
Proof. intros E H p P W. rewrite (E p P). by apply H. Qed.

(** ** New values *)
(** What is known of the values after a new one: the old ones are there and the new one does not depend on [m]. *)
Definition added (g g' : graph) (v : Z) (n : Value) : Prop :=
  g ⊆ g' /\ g' !! v = Some n /\ forall m, g !! m <> None -> (forall c, c ∈ m_children n -> Safe g m c) -> Safe g' m v.

Lemma wp_new1 g op a na t (Q : Z -> graph -> Prop) :
  g !! a = Some na -> typeFor op (m_type na) None = Some t -> typing op t [m_type na] 0 = true -> is_other op = false ->
  (forall v g', added g g' v (mkValue op false t [a] 0) -> Q v g') -> wp g (newValue op [a]) Q.
Proof.
  intros Ga F T O H. unfold newValue, makeValue. apply wp_bind. apply wp_bind. apply wp_bind. eapply wp_need; [reflexivity|].
  eapply wp_get; [exact Ga|]. apply wp_bind. cbn. apply wp_ret. apply wp_bind. eapply wp_need; [exact F|]. apply wp_ret.
  apply wp_add; [|done|intros v g' S G K; apply H; split_and!; auto]. eapply types_validate; [repeat constructor; eauto|done].
Qed.

Lemma wp_newkind g op ch a b na nb t (Q : Z -> graph -> Prop) :
  g !! a = Some na -> g !! b = Some nb -> typeFor op (m_type na) (Some (m_type nb)) = Some t -> typing op t [m_type na; m_type nb] 0 = true -> is_other op = false ->
  (forall v g', added g g' v (mkValue op ch t [a; b] 0) -> Q v g') -> wp g (n <- makeValue op ch [a; b] ;; proc_add n) Q.
Proof.
  intros Ga Gb F T O H. unfold makeValue. apply wp_bind. apply wp_bind. apply wp_bind. eapply wp_need; [reflexivity|].
  eapply wp_get; [exact Ga|]. apply wp_bind. cbn. apply wp_bind. eapply wp_get; [exact Gb|]. apply wp_ret. apply wp_bind. eapply wp_need; [exact F|]. apply wp_ret.
  apply wp_add; [|done|intros v g' S G K; apply H; split_and!; auto]. eapply types_validate; [repeat constructor; eauto|done].
Qed.

Lemma wp_new2 g op a b na nb t (Q : Z -> graph -> Prop) :
  g !! a = Some na -> g !! b = Some nb -> typeFor op (m_type na) (Some (m_type nb)) = Some t -> typing op t [m_type na; m_type nb] 0 = true -> is_other op = false ->
  (forall v g', added g g' v (mkValue op false t [a; b] 0) -> Q v g') -> wp g (newValue op [a; b]) Q.
Proof. intros. by eapply wp_newkind. Qed.

Lemma wp_const g t z (Q : Z -> graph -> Prop) :
  is_int t = true -> in_type t z = true -> (forall v g', added g g' v (const_of t z) -> Q v g') -> wp g (proc_add (const_of t z)) Q.
Proof.
  intros I R H. apply wp_add; [|by destruct t|intros v g' S G K; apply H; split_and!; auto].
  destruct t; try done; unfold validate; cbn [const_of const32 const64 m_children mapM typing m_opcode m_type m_value]; by rewrite R.
Qed.

Lemma wp_addIntConstant g t z (Q : Z -> graph -> Prop) :
  is_int t = true -> (forall v g', added g g' v (const_of t (wrap t z)) -> Q v g') -> wp g (addIntConstant t z) Q.
Proof. intros I H. pose proof (wp_const g t (wrap t z) Q I (wrap_range t z) H). by destruct t. Qed.

Lemma wp_insertConst32 g z (Q : Z -> graph -> Prop) : (forall v g', added g g' v (const_of Int32 (s32 z)) -> Q v g') -> wp g (insertConst32 z) Q.
Proof. intros H. apply wp_bind. apply (wp_const g Int32); [done|apply (wrap_range Int32)|]. intros v g' A. apply wp_insertValue; auto. Qed.
Lemma wp_insertConst64 g z (Q : Z -> graph -> Prop) : (forall v g', added g g' v (const_of Int64 (s64 z)) -> Q v g') -> wp g (insertConst64 z) Q.
Proof. intros H. apply wp_bind. apply (wp_const g Int64); [done|apply (wrap_range Int64)|]. intros v g' A. apply wp_insertValue; auto. Qed.
Lemma wp_insertNew1 g op a na t (Q : Z -> graph -> Prop) :
  g !! a = Some na -> typeFor op (m_type na) None = Some t -> typing op t [m_type na] 0 = true -> is_other op = false ->
  (forall v g', added g g' v (mkValue op false t [a] 0) -> Q v g') -> wp g (insertNew op [a]) Q.
Proof. intros. apply wp_bind. eapply wp_new1; eauto. intros v g' A. apply wp_insertValue; auto. Qed.
Lemma wp_insertNew2 g op a b na nb t (Q : Z -> graph -> Prop) :
  g !! a = Some na -> g !! b = Some nb -> typeFor op (m_type na) (Some (m_type nb)) = Some t -> typing op t [m_type na; m_type nb] 0 = true -> is_other op = false ->
  (forall v g', added g g' v (mkValue op false t [a; b] 0) -> Q v g') -> wp g (insertNew op [a; b]) Q.
Proof. intros. apply wp_bind. eapply wp_new2; eauto. intros v g' A. apply wp_insertValue; auto. Qed.

(** ** Replacement *)
(** [v] has the outcomes of [m], and they are results. *)
Definition same_result (g : graph) (m v : Z) : Prop :=
  forall env o, wfg g -> good_env env g -> run env g m o -> exists z, o = Val z /\ run env g v (Val z).

Lemma ok_replaceWithIdentity g m n v nv :
  g !! m = Some n -> g !! v = Some nv -> m_type nv = m_type n -> m_type n <> Void -> Safe g m v -> same_result g m v -> ok g (replaceWithIdentity m v).
Proof.
  intros G Gv T N S R. apply wp_wfg. intros W. apply wp_bind. eapply wp_identity; eauto. by apply wp_changed.
Qed.

Lemma ok_replaceWithNewValue g m n v nv :
  g !! m = Some n -> g !! v = Some nv -> m_type nv = m_type n -> m_type n <> Void -> Safe g m v -> same_result g m v -> ok g (replaceWithNewValue m v).
Proof. intros. apply wp_bind, wp_insertValue. by eapply ok_replaceWithIdentity. Qed.

Lemma int_not_void t : is_int t = true -> t <> Void.
Proof. by intros H ->. Qed.

(** Outcomes before values were added. *)
Lemma run_sub_inv env g g' v n o : wfg g -> g ⊆ g' -> g !! v = Some n -> run env g' v o -> run env g v o.
Proof.
  intros W S G [f E]. revert v n o G E. induction f as [|f IH]; intros v n o G E; [discriminate|]. cbn in E.
  rewrite (lookup_weaken _ _ _ _ G S) in E. cbn in E. apply bind_Some in E as (args & A & E). apply run_iff. exists n, args.
  pose proof (wfg_valid g W _ _ G) as V. split_and!; [done| |rewrite <- E; symmetry; apply node_sem_kept; [by apply types_kept_sub|done]].
  apply mapM_Some in A. apply Forall2_same_length_lookup_2; [by eapply Forall2_length|]. intros i c x Ic Ix.
  pose proof (Forall2_lookup_lr _ _ _ _ _ _ A Ic Ix) as H. cbn in H. apply bind_Some in H as ([y|] & H & ?); simplify_eq.
  destruct (validate_children _ _ c V) as [a Ga]; [by eapply list_elem_of_lookup_2|]. eauto.
Qed.
Lemma good_env_sub env g g' : g ⊆ g' -> good_env env g' -> good_env env g.
Proof. intros S E v n args G O. eapply E; [|exact O]. by eapply lookup_weaken. Qed.

Lemma added_run2 env g g' v op t a b na nb x y r : wfg g -> g !! a = Some na -> g !! b = Some nb -> is_binary op = true -> typing op t [m_type na; m_type nb] 0 = true ->
  added g g' v (mkValue op false t [a; b] 0) -> run env g a (Val x) -> run env g b (Val y) -> sem2 op false (m_type na) x y = Some r -> run env g' v (Val r).
Proof.
  intros W Ga Gb B T (S & G & _) Rx Ry E. assert (g' !! a = Some na) as Ga' by by eapply lookup_weaken.
  apply (run2 _ _ _ _ _ _ _ _ _ na nb _ G B Ga' T). exists x, y, r. split_and!; eauto; eapply run_sub; eauto using wfg_valid.
Qed.

Lemma added_safe g g' m n v k : g !! m = Some n -> added g g' v k -> (forall c, c ∈ m_children k -> Safe g m c) -> Safe g' m v.
Proof. intros G (_ & _ & S) H. apply S; [congruence|done]. Qed.

(** Replacement of [m] by a new operation on two values. *)
Lemma ok_new2 g m n op a b na nb :
  g !! m = Some n -> is_int (m_type n) = true -> g !! a = Some na -> g !! b = Some nb -> Safe g m a -> Safe g m b -> is_binary op = true ->
  typeFor op (m_type na) (Some (m_type nb)) = Some (m_type n) -> typing op (m_type n) [m_type na; m_type nb] 0 = true ->
  (forall env o, wfg g -> good_env env g -> run env g m o ->
     exists x y z, run env g a (Val x) /\ run env g b (Val y) /\ sem2 op false (m_type na) x y = Some z /\ o = Val z) ->
  ok g (replaceWithNew m op [a; b]).
Proof.
  intros G I Ga Gb Sa Sb B F T R. apply wp_wfg. intros W. apply wp_bind. eapply wp_new2; eauto; [by destruct op|].
  intros v g' A. pose proof A as (S & Gv & _). eapply ok_replaceWithNewValue; [by eapply lookup_weaken|exact Gv|done|by apply int_not_void| |].
  - eapply added_safe; eauto. cbn. intros c H. apply list_elem_of_In in H as [<- | [<- | []]]; done.
  - intros env o W' E Rm. assert (run env g m o) as Rm' by by eapply run_sub_inv.
    destruct (R env o W (good_env_sub _ _ _ S E) Rm') as (x & y & z & Rx & Ry & Sm & ->). exists z. split; [done|].
    by eapply (added_run2 env g g' v op (m_type n) a b na nb).
Qed.

Lemma ok_new1 g m n op a na :
  g !! m = Some n -> is_int (m_type n) = true -> g !! a = Some na -> Safe g m a -> is_unary op = true ->
  typeFor op (m_type na) None = Some (m_type n) -> typing op (m_type n) [m_type na] 0 = true ->
  (forall env o, wfg g -> good_env env g -> run env g m o -> exists x z, run env g a (Val x) /\ sem1 op (m_type n) x = Some z /\ o = Val z) ->
  ok g (replaceWithNew m op [a]).
Proof.
  intros G I Ga Sa B F T R. apply wp_wfg. intros W. apply wp_bind. eapply wp_new1; eauto; [by destruct op|].
  intros v g' A. pose proof A as (S & Gv & _). eapply ok_replaceWithNewValue; [by eapply lookup_weaken|exact Gv|done|by apply int_not_void| |].
  - eapply added_safe; eauto. cbn. intros c H. apply list_elem_of_In in H as [<- | []]; done.
  - intros env o W' E Rm. assert (run env g m o) as Rm' by by eapply run_sub_inv.
    destruct (R env o W (good_env_sub _ _ _ S E) Rm') as (x & z & Rx & Sm & ->). exists z. split; [done|].
    apply (run_unary env g' v _ _ _ _ _ _ Gv B). exists x, z. split_and!; auto. eapply run_sub; eauto using wfg_valid.
Qed.

(** Replacement by a new constant. *)
Lemma ok_newconst g m n z (c : M Z) :
  g !! m = Some n -> is_int (m_type n) = true ->
  (forall Q : Z -> graph -> Prop, (forall v g', added g g' v (const_of (m_type n) z) -> Q v g') -> wp g c Q) ->
  (forall env o, wfg g -> good_env env g -> run env g m o -> o = Val z) ->
  ok g (v <- c ;; replaceWithNewValue m v).
Proof.
  intros G I C R. apply wp_wfg. intros W. apply wp_bind, C. intros v g' A. pose proof A as (S & Gv & _). destruct (const_of_fields _ z I) as (H1 & H2 & H3 & H4).
  eapply ok_replaceWithNewValue; [by eapply lookup_weaken|exact Gv|done|by apply int_not_void| |].
  - eapply added_safe; eauto. rewrite H4. intros c' H. by apply elem_of_nil in H.
  - intros env o W' E Rm. assert (run env g m o) as Rm' by by eapply run_sub_inv. rewrite (R env o W (good_env_sub _ _ _ S E) Rm').
    exists z. split; [done|]. destruct (view_int W' Gv H1) as [_ V]. apply V. by rewrite H2.
Qed.

(** ** the constants that operations on constants fold to, and the exchange of operands *)

(** ** Changing children *)
Lemma put_put p m n n1 n2 : m_vector p !! m = Some n -> (put m n1 ;;; put m n2) p = put m n2 p.
Proof. intros G. unfold put, bind. rewrite G. cbn. rewrite lookup_insert_eq. cbn. unfold set_vector. cbn. by rewrite insert_insert_eq. Qed.

Lemma set_child_put p m op ch t cs z i v cs' : m_vector p !! m = Some (mkValue op ch t cs z) -> list_set cs i v = Some cs' ->
  set_child m i v p = put m (mkValue op ch t cs' z) p.
Proof. intros G E. unfold set_child, bind, get, need. rewrite G. cbn. by rewrite E. Qed.

Lemma bind_assoc {A B C} (c : M A) (k : A -> M B) (k' : B -> M C) p : (x <- (y <- c ;; k y) ;; k' x) p = (y <- c ;; x <- k y ;; k' x) p.
Proof. unfold bind. destruct (c p) as [[a p']|]; [|done]. cbn. done. Qed.

Lemma bind_ext {A B} (c c' : M A) (k k' : A -> M B) p : c p = c' p -> (forall a p', c' p = Some (a, p') -> k a p' = k' a p') -> bind c k p = bind c' k' p.
Proof. intros E H. unfold bind. rewrite E. destruct (c' p) as [[a p']|]; [|done]. cbn. by apply H. Qed.

Lemma put_after p m n n' a p' : m_vector p !! m = Some n -> put m n' p = Some (a, p') -> m_vector p' !! m = Some n'.
Proof. unfold put. intros ->. cbn. intros [= _ <-]. apply lookup_insert_eq. Qed.

Lemma set_child_changed g m op ch t cs z i v cs' (Q : unit -> graph -> Prop) : g !! m = Some (mkValue op ch t cs z) -> list_set cs i v = Some cs' ->
  wp g (put m (mkValue op ch t cs' z)) Q -> wp g (set_child m i v ;;; changed) Q.
Proof.
  intros G E H. apply wp_bind. eapply wp_ext; [intros p <-; by eapply set_child_put|]. eapply wp_mono; [|exact H].
  intros [] g' HQ. by apply wp_changed.
Qed.

Lemma set_children_put g m op ch t c0 c1 rest z a b (Q : unit -> graph -> Prop) : g !! m = Some (mkValue op ch t (c0 :: c1 :: rest) z) ->
  wp g (put m (mkValue op ch t (a :: b :: rest) z)) Q -> wp g (set_children m a b) Q.
Proof.
  intros G H. apply wp_ext with (c' := put m (mkValue op ch t (a :: b :: rest) z) ;;; changed).
  - intros p <-. unfold set_children. rewrite <- (bind_assoc (set_child m 0 a) (fun _ => set_child m 1 b) (fun _ => changed)). apply bind_ext; [|done].
    rewrite <- (put_put p m _ (mkValue op ch t (a :: c1 :: rest) z) _ G). apply bind_ext; [by eapply set_child_put|].
    intros u p' E. eapply set_child_put; [by eapply put_after|done].
  - apply wp_bind. eapply wp_mono; [|exact H]. intros [] g' HQ. by apply wp_changed.
Qed.

Lemma wp_put2 g m op ch t cs z a b na nb (Q : unit -> graph -> Prop) :
  g !! m = Some (mkValue op ch t cs z) -> is_binary op = true -> g !! a = Some na -> g !! b = Some nb -> Safe g m a -> Safe g m b ->
  typing op t [m_type na; m_type nb] 0 = true ->
  (forall env o, wfg g -> good_env env g -> run env g m o ->
     exists x y r, run env g a (Val x) /\ run env g b (Val y) /\ sem2 op ch (m_type na) x y = Some r /\ o = Val r) ->
  Q tt (<[m := mkValue op ch t [a; b] z]> g) -> wp g (put m (mkValue op ch t [a; b] z)) Q.
Proof.
  intros G B Ga Gb Sa Sb T R HQ. apply wp_wfg. intros W. eapply wp_put; [exact G|done| |by destruct op| | |exact HQ].
  - eapply types_validate; [repeat constructor; eauto|]. by destruct op.
  - cbn. intros c H. apply list_elem_of_In in H as [<- | [<- | []]]; done.
  - intros env o E Rm. destruct (R env o W E Rm) as (x & y & r & Rx & Ry & S & ->). exists [x; y]. split; [by repeat constructor|].
    rewrite <- (operand_type_first g op ch t a b z na B Ga) in S by eauto. destruct op; try done; unfold node_sem; cbn [m_opcode is_other m_isChill]; by rewrite S.
Qed.

Lemma wp_put1 g m op ch t cs z a na (Q : unit -> graph -> Prop) :
  g !! m = Some (mkValue op ch t cs z) -> is_unary op = true -> g !! a = Some na -> Safe g m a -> typing op t [m_type na] 0 = true ->
  (forall env o, wfg g -> good_env env g -> run env g m o -> exists x r, run env g a (Val x) /\ sem1 op t x = Some r /\ o = Val r) ->
  Q tt (<[m := mkValue op ch t [a] z]> g) -> wp g (put m (mkValue op ch t [a] z)) Q.
Proof.
  intros G B Ga Sa T R HQ. apply wp_wfg. intros W. eapply wp_put; [exact G|done| |by destruct op| | |exact HQ].
  - eapply types_validate; [repeat constructor; eauto|]. by destruct op.
  - cbn. intros c H. apply list_elem_of_In in H as [<- | []]; done.
  - intros env o E Rm. destruct (R env o W E Rm) as (x & r & Rx & S & ->). exists [x]. split; [by repeat constructor|].
    destruct op; try done; unfold node_sem, operand_type; cbn [m_opcode is_other m_type]; by rewrite S.
Qed.

(** ** Exchange of operands *)
Definition commutes (op : Opcode) : bool := match op with Add | Mul | BitAnd | BitOr | BitXor | Equal | NotEqual => true | _ => false end.

Lemma sem2_comm op ch t x y : commutes op = true -> sem2 op ch t x y = sem2 op ch t y x.
Proof.
  destruct op; try done; intros _; cbn;
    [by rewrite Z.add_comm|by rewrite Z.mul_comm|by rewrite Z.land_comm|by rewrite Z.lor_comm|by rewrite Z.lxor_comm|by rewrite Z.eqb_sym|by rewrite Z.eqb_sym].
Qed.

Lemma wp_commute g m op ch t c0 c1 z : g !! m = Some (mkValue op ch t [c0; c1] z) -> commutes op = true ->
  wp g (handleCommutativity m) (fun _ g' => exists a b, g' !! m = Some (mkValue op ch t [a; b] z)).
Proof.
  intros G C. apply wp_wfg. intros W. assert (is_binary op = true) as B by by destruct op.
  destruct (view2 W G B) as (a & b & na & nb & [= <- <-] & Ga & Gb & T). eapply wp_operands; [exact G|reflexivity|exact Ga|exact Gb|].
  assert (m_type nb = m_type na) as TT by (destruct op; try done; types; congruence).
  if_cases; [|apply wp_skip; eauto]. eapply set_children_put; [exact G|].
  eapply wp_put2; [exact G|exact B|exact Gb|exact Ga| | | | |].
  - eapply (wfg_safe g W); [exact G|]. set_solver.
  - eapply (wfg_safe g W); [exact G|]. set_solver.
  - by rewrite TT in *.
  - intros env o _ _ R. apply (run2 _ _ _ _ _ _ _ _ _ na nb _ G B Ga T) in R as (x & y & r & Rx & Ry & S & ->). exists y, x, r.
    rewrite TT, sem2_comm; auto.
  - exists c1, c0. apply lookup_insert_eq.
Qed.

(** ** Folding *)
(** [c] is the constant of type [t] that [op] gives on the constants [a] and [b]. *)
Definition folded (op : Opcode) (t : B3Type) (a b c : Value) : Prop :=
  hasInt a = true /\ hasInt b = true /\ exists z, c = const_of t z /\ in_type t z = true /\ forall ch r, sem2 op ch (m_type a) (asInt a) (asInt b) = Some r -> r = z.
Definition folds (op : Opcode) (f : Value -> Value -> option Value) : Prop :=
  forall t a b c, (hasInt32 a = true -> m_type a = Int32) -> (hasInt64 a = true -> m_type a = Int64) -> (hasInt a = true -> in_type (m_type a) (asInt a) = true) ->
    (hasInt32 b = true -> m_type b = Int32) -> (hasInt64 b = true -> m_type b = Int64) -> (hasInt b = true -> in_type (m_type b) (asInt b) = true) ->
    typing op t [m_type a; m_type b] 0 = true -> f a b = Some c -> folded op t a b c.

Lemma unsigned_zero t x : in_type t x = true -> unsigned t x = 0 -> x = 0.
Proof. intros R E. apply (unsigned_inj t); [done|by destruct t|]. rewrite E. by destruct t. Qed.

(** The result of folding is the result of the operation. *)
Ltac fold_total :=
  intros t [oa cha ta csa za] [ob chb tb csb zb] c A1 A2 A3 B1 B2 B3 T E; unfold hasInt, hasInt32, hasInt64, asInt in *; cbn in *;
  destruct oa; try discriminate E; destruct ob; try discriminate E;
  (specialize (A1 eq_refl) || specialize (A2 eq_refl)); (specialize (B1 eq_refl) || specialize (B2 eq_refl)); specialize (A3 eq_refl); specialize (B3 eq_refl);
  subst; types; subst; try discriminate; cbn in E; simplify_eq;
  (split; [reflexivity|]; split; [reflexivity|]; eexists; split; [reflexivity|]; split).

Lemma folds_add : folds Add addConstant.
Proof. fold_total; try (apply (wrap_range Int32) || apply (wrap_range Int64)); intros ch r H; cbn in H; by simplify_eq. Qed.
Lemma folds_sub : folds Sub subConstant.
Proof. fold_total; try (apply (wrap_range Int32) || apply (wrap_range Int64)); intros ch r H; cbn in H; by simplify_eq. Qed.
Lemma folds_mul : folds Mul mulConstant.
Proof. fold_total; try (apply (wrap_range Int32) || apply (wrap_range Int64)); intros ch r H; cbn in H; by simplify_eq. Qed.
Lemma folds_div : folds Div divConstant.
Proof. fold_total; try (by apply chillDiv_range); intros ch r H; cbn in H; unfold sem_div in H; case_match; by simplify_eq. Qed.
Lemma folds_mod : folds Mod modConstant.
Proof. fold_total; try (by apply chillMod_range); intros ch r H; cbn in H; unfold sem_div in H; case_match; by simplify_eq. Qed.
Lemma chillU_range t (f : Z -> Z -> Z) x y : in_type t (if unsigned t y =? 0 then 0 else wrap t (f x y)) = true.
Proof. if_cases; [by destruct t|apply wrap_range]. Qed.
Lemma folds_udiv : folds UDiv uDivConstant.
Proof.
  fold_total; try (apply (chillU_range _ (fun x y => unsigned _ x / unsigned _ y))); intros ch r H; cbn -[unsigned wrap] in H; case_match; simplify_eq; bool_prop;
    unfold chillUDiv; rewrite (proj2 (Z.eqb_neq _ _)); try done; intros U; by apply unsigned_zero in U.
Qed.
Lemma folds_umod : folds UMod uModConstant.
Proof.
  fold_total; try (apply (chillU_range _ (fun x y => unsigned _ x mod unsigned _ y))); intros ch r H; cbn -[unsigned wrap] in H; case_match; simplify_eq; bool_prop;
    unfold chillUMod; rewrite (proj2 (Z.eqb_neq _ _)); try done; intros U; by apply unsigned_zero in U.
Qed.
Lemma folds_bitand : folds BitAnd bitAndConstant.
Proof. fold_total; try (by apply in_type_land); intros ch r H; cbn in H; by simplify_eq. Qed.
Lemma folds_bitor : folds BitOr bitOrConstant.
Proof. fold_total; try (by apply in_type_lor); intros ch r H; cbn in H; by simplify_eq. Qed.
Lemma folds_bitxor : folds BitXor bitXorConstant.
Proof. fold_total; try (by apply in_type_lxor); intros ch r H; cbn in H; by simplify_eq. Qed.
Lemma folds_shl : folds Shl shlConstant.
Proof. fold_total; try (apply (wrap_range Int32) || apply (wrap_range Int64)); intros ch r H; cbn in H; by simplify_eq. Qed.
Lemma folds_sshr : folds SShr sShrConstant.
Proof. fold_total; try (apply (in_type_shiftr Int32) || apply (in_type_shiftr Int64); [apply (shift_mask_range Int32) || apply (shift_mask_range Int64)|done]); intros ch r H; cbn in H; by simplify_eq. Qed.
Lemma folds_zshr : folds ZShr zShrConstant.
Proof. fold_total; try (apply (wrap_range Int32) || apply (wrap_range Int64)); intros ch r H; cbn in H; by simplify_eq. Qed.
Lemma folds_rotr : folds RotR rotRConstant.
Proof. fold_total; try (apply (wrap_range Int32) || apply (wrap_range Int64)); intros ch r H; cbn in H; by simplify_eq. Qed.
Lemma folds_rotl : folds RotL rotLConstant.
Proof. fold_total; try (apply (wrap_range Int32) || apply (wrap_range Int64)); intros ch r H; cbn in H; by simplify_eq. Qed.

(** ** symbolic execution of the rules and inversion of outcomes *)

(** ** Outcomes of values whose shape is known *)
Section inversion.
Context {env : Z -> list Z -> Z} {g : graph} (W : wfg g).

Lemma run2_inv {v op ch t a b z o} : g !! v = Some (mkValue op ch t [a; b] z) -> is_binary op = true -> run env g v o ->
  exists na nb x y r, g !! a = Some na /\ g !! b = Some nb /\ run env g a (Val x) /\ run env g b (Val y) /\ sem2 op ch (m_type na) x y = Some r /\ o = Val r.
Proof.
  intros G B R. destruct (view2 W G B) as (a' & b' & na & nb & [= <- <-] & Ga & Gb & T).
  apply (run2 _ _ _ _ _ _ _ _ _ na nb _ G B Ga T) in R. destruct R as (x & y & r & Rx & Ry & S & E). exists na, nb, x, y, r. auto 10.
Qed.

Lemma run2_mk {v op ch t a b z na x y r} : g !! v = Some (mkValue op ch t [a; b] z) -> is_binary op = true -> g !! a = Some na ->
  run env g a (Val x) -> run env g b (Val y) -> sem2 op ch (m_type na) x y = Some r -> run env g v (Val r).
Proof.
  intros G B Ga Rx Ry S. destruct (view2 W G B) as (a' & b' & na' & nb & [= <- <-] & Ga' & Gb & T). simplify_eq.
  apply (run2 _ _ _ _ _ _ _ _ _ na nb _ G B Ga T). eauto 8.
Qed.

Lemma run1_mk {v op ch t a z x r} : g !! v = Some (mkValue op ch t [a] z) -> is_unary op = true -> run env g a (Val x) -> sem1 op t x = Some r -> run env g v (Val r).
Proof. intros G B Rx S. apply (run_unary _ _ _ _ _ _ _ _ _ G B). eauto. Qed.

Lemma run_int {v n x} : g !! v = Some n -> hasInt n = true -> run env g v (Val x) -> x = asInt n.
Proof. intros G H R. destruct (view_int W G H) as [_ V]. apply V in R. congruence. Qed.
Lemma run_int_mk {v n} : g !! v = Some n -> hasInt n = true -> run env g v (Val (asInt n)).
Proof. intros G H. by apply (view_int W G H). Qed.
Lemma run_const_of {v t z} : g !! v = Some (const_of t z) -> is_int t = true -> run env g v (Val z).
Proof. intros G I. destruct (const_of_fields t z I) as (H & E & _). pose proof (run_int_mk G H) as R. by rewrite E in R. Qed.

Lemma in_range {v n x} : good_env env g -> g !! v = Some n -> is_int (m_type n) = true -> run env g v (Val x) -> in_type (m_type n) x = true.
Proof. intros. by eapply run_range. Qed.

End inversion.

Lemma is_op_true n op : is_op n op = true -> exists ch t cs z, n = mkValue op ch t cs z.
Proof. unfold is_op. intros H. apply bool_decide_eq_true in H as <-. destruct n. eauto. Qed.

Lemma isInt_true n z : isInt n z = true -> hasInt n = true /\ asInt n = z.
Proof. unfold isInt. intros H. by bool_prop. Qed.
Lemma isInt32_true n z : isInt32 n z = true -> hasInt32 n = true /\ asInt n = z.
Proof. unfold isInt32. intros H. by bool_prop. Qed.
Lemma isInt64_true n z : isInt64 n z = true -> hasInt64 n = true /\ asInt n = z.
Proof. unfold isInt64. intros H. by bool_prop. Qed.
Lemma hasInt32_int n : hasInt32 n = true -> hasInt n = true.
Proof. unfold hasInt. by intros ->. Qed.
Lemma hasInt64_int n : hasInt64 n = true -> hasInt n = true.
Proof. unfold hasInt. intros ->. apply orb_true_r. Qed.

(** ** Folding in a rule *)
Lemma fold_args g v n : wfg g -> g !! v = Some n ->
  (hasInt32 n = true -> m_type n = Int32) /\ (hasInt64 n = true -> m_type n = Int64) /\ (hasInt n = true -> in_type (m_type n) (asInt n) = true).
Proof. intros W G. split_and!; [apply (view_type32 W G)|apply (view_type64 W G)|intros H; by apply (view_int W G)]. Qed.

Lemma folded_of g op t c0 c1 a b c f : wfg g -> g !! c0 = Some a -> g !! c1 = Some b -> typing op t [m_type a; m_type b] 0 = true -> folds op f -> f a b = Some c ->
  folded op t a b c.
Proof. intros W Ga Gb T F E. destruct (fold_args g c0 a W Ga) as (? & ? & ?). destruct (fold_args g c1 b W Gb) as (? & ? & ?). by apply (F t a b c). Qed.

(** The result type of a typed operation, from its operands. *)
Definition result_int (op : Opcode) (t : B3Type) (ts : list B3Type) : Prop := typing op t ts 0 = true -> is_int t = true.
Lemma binary_int op t t0 t1 : is_binary op = true -> typing op t [t0; t1] 0 = true -> is_int t = true.
Proof. destruct op; try done; intros _ T; types; subst; done. Qed.

Lemma wp_makeConstant g n t z (Q : option Z -> graph -> Prop) : n = const_of t z -> is_int t = true -> in_type t z = true ->
  (forall v g', added g g' v n -> Q (Some v) g') -> wp g (makeConstant (Some n)) Q.
Proof. intros -> I R H. apply wp_bind. apply wp_const; auto. intros v g' A. apply wp_ret. auto. Qed.

Lemma ok_replace_const g m n t z k : g !! m = Some n -> m_type n = t -> is_int t = true -> in_type t z = true ->
  (forall env o, wfg g -> good_env env g -> run env g m o -> o = Val z) -> ok g (replace_or m (makeConstant (Some (const_of t z))) k).
Proof.
  intros G <- I R H. apply wp_ext with (c' := v <- proc_add (const_of (m_type n) z) ;; replaceWithNewValue m v);
    [intros p _; unfold replace_or, makeConstant, bind; by destruct (proc_add _ p) as [[??]|]|].
  eapply ok_newconst; eauto. intros Q K. by apply wp_const.
Qed.
Lemma ok_int_const g m n t z : g !! m = Some n -> m_type n = t -> is_int t = true ->
  (forall env o, wfg g -> good_env env g -> run env g m o -> o = Val (wrap t z)) -> ok g (v <- addIntConstant t z ;; replaceWithNewValue m v).
Proof. intros G <- I H. eapply ok_newconst; eauto. intros Q K. by apply wp_addIntConstant. Qed.

Lemma ok_fold g m op ch t c0 c1 z a b f k :
  g !! m = Some (mkValue op ch t [c0; c1] z) -> is_binary op = true -> g !! c0 = Some a -> g !! c1 = Some b -> folds op f -> ok g k -> ok g (fold_or m (f a b) k).
Proof.
  intros G B Ga Gb F K. apply wp_wfg. intros W. destruct (view2 W G B) as (? & ? & na & nb & [= <- <-] & Ga' & Gb' & T). simplify_eq.
  unfold fold_or, replace_or. destruct (f a b) as [c|] eqn:E; [|apply wp_bind, wp_ret; exact K].
  destruct (folded_of g op t c0 c1 a b c f W Ga Gb T F E) as (Ha & Hb & w & -> & R & S). pose proof (binary_int _ _ _ _ B T) as I.
  eapply ok_replace_const; [exact G|done|done|done|]. intros env o _ _ Rm. apply (run2_inv W G B) in Rm as (na & nb & x & y & r & ? & ? & Rx & Ry & Sm & ->). simplify_eq.
  rewrite (run_int W Ga Ha Rx), (run_int W Gb Hb Ry) in Sm. apply S in Sm. congruence.
Qed.

(** ** Tactics *)
(** The type of a child of a typed value. *)
Ltac view G :=
  lazymatch type of G with
  | ?g !! ?v = Some (mkValue ?op ?ch ?t ?cs ?z) =>
    match goal with W : wfg g |- _ =>
      let T := fresh "T" in let a := fresh "c" in let b := fresh "c" in let na := fresh "n" in let nb := fresh "n" in let Ga := fresh "G" in let Gb := fresh "G" in
      lazymatch eval cbv in (is_binary op) with
      | true => destruct (view2 W G eq_refl) as (a & b & na & nb & ? & Ga & Gb & T)
      | false => destruct (view1 W G eq_refl) as (a & na & ? & Ga & T)
      end; try subst cs; simplify_eq; types
    end
  end.

(** A node with a known opcode. *)
Ltac op_node H := apply is_op_true in H as (? & ? & ? & ? & ->); cbn [m_type m_children m_opcode] in *.

Ltac lift A :=
  lazymatch type of A with added ?g ?g' ?v ?n =>
    let S := fresh "S" in let Gn := fresh "Gn" in destruct A as (S & Gn & _);
    repeat match goal with
    | H : g !! ?x = Some ?y |- _ => apply (fun H => lookup_weaken _ _ _ _ H S) in H
    | H : Safe g ?m ?x |- _ => apply (Safe_weaken _ _ _ _ S) in H
    end
  end.

Ltac inv_run R :=
  lazymatch type of R with
  | run ?env ?g ?v ?o =>
    match goal with
    | W : wfg g, G : g !! v = Some (mkValue ?op ?ch ?t [?a; ?b] ?z) |- _ =>
      let na := fresh "n" in let nb := fresh "n" in let x := fresh "x" in let y := fresh "y" in let r := fresh "r" in let Rx := fresh "R" in let Ry := fresh "R" in let Sm := fresh "S" in
      apply (run2_inv W G eq_refl) in R as (na & nb & x & y & r & ? & ? & Rx & Ry & Sm & ?)
    | G : g !! v = Some (mkValue ?op ?ch ?t [?a] ?z) |- _ =>
      let x := fresh "x" in let r := fresh "r" in let Rx := fresh "R" in let Sm := fresh "S" in
      apply (run_unary _ _ _ _ _ _ _ _ _ G eq_refl) in R as (x & r & Rx & Sm & ?)
    | W : wfg g, G : g !! v = Some ?n, H : hasInt ?n = true |- _ => let E := fresh "E" in pose proof (run_int W G H R) as E; clear R
    end; simplify_eq; cbn [sem1 sem2] in *; simplify_eq
  end.

(** All outcomes of known values, and equal results of equal values. *)
Ltac inv_runs :=
  repeat match goal with
  | R : run _ _ _ _ |- _ => inv_run R
  end;
  repeat match goal with
  | R1 : run ?env ?g ?v (Val ?x), R2 : run ?env ?g ?v (Val ?y) |- _ =>
    let E := fresh "E" in pose proof (run_det _ _ _ _ _ R1 R2) as E; injection E as E; clear R2; try subst
  end.

Ltac mk_run :=
  match goal with
  | |- run ?env ?g ?v (Val _) =>
    first [ eassumption
          | match goal with
            | W : wfg g, G : g !! v = Some (mkValue _ _ _ [_; _] _) |- _ => eapply (run2_mk W G eq_refl); [eassumption|mk_run|mk_run|reflexivity]
            | W : wfg g, G : g !! v = Some (mkValue _ _ _ [_] _) |- _ => eapply (run1_mk G eq_refl); [mk_run|reflexivity]
            | W : wfg g, G : g !! v = Some (const_of _ _) |- _ => apply (run_const_of W G); first [reflexivity | assumption]
            | W : wfg g, G : g !! v = Some ?n, H : hasInt ?n = true |- _ => exact (run_int_mk W G H)
            end ]
  end.

(** Types of the operands of a new value. *)
Ltac typ := cbn [typing typeFor is_int m_type m_opcode]; rewrite ?const_type by first [assumption | reflexivity];
  do 6 (try match goal with H : m_type ?n = ?t |- context [m_type ?n] => rewrite H end); rewrite ?decide_True by congruence; rewrite ?bool_decide_true by congruence;
  rewrite ?bool_decide_false by congruence; repeat match goal with H : is_int ?t = true |- context [is_int ?t] => rewrite H end; try reflexivity; try congruence.

(** A child of a value that does not depend on [m] does not either; nor does a child of [m]. *)
Ltac member := apply list_elem_of_In; cbn [In m_children]; solve [repeat first [left; reflexivity | right]].
Ltac safe :=
  first [ assumption
        | match goal with W : wfg ?g, G : ?g !! ?m = Some _ |- Safe ?g ?m ?c => apply (wfg_safe g W m _ c G); member end
        | match goal with W : wfg ?g, G : ?g !! ?m = Some _, Gc : ?g !! ?v = Some (mkValue _ _ _ (_ :: _) _) |- Safe ?g ?m ?c =>
            eapply (Safe_child g m v _ c); [apply (wfg_safe g W m _ v G); member|exact Gc|member] end ].

Lemma run_eq env g v x y : run env g v (Val x) -> x = y -> run env g v (Val y).
Proof. by intros R <-. Qed.

(** The range of the result [x] of a value. *)
Ltac range x :=
  match goal with
  | W : wfg ?g, E : good_env ?env ?g, R : run ?env ?g ?v (Val x), G : ?g !! ?v = Some ?n |- _ =>
    let B := fresh "B" in assert (B : in_type (m_type n) x = true) by (apply (in_range W E G); [typ|exact R]); cbn [m_type] in B;
    repeat match goal with H : ?y = ?y |- _ => clear H end; repeat match goal with H : m_type ?k = _ |- _ => rewrite H in B end
  end.
(** The result that a known value has, up to an equation. *)
Ltac give_run := eapply run_eq; [mk_run|cbn [asInt m_value const_of const32 const64]].

(** One step that reads, or all of them. *)
Ltac stp :=
  lazymatch goal with
  | |- wp _ (bind _ _) _ => apply wp_bind; stp
  | |- wp _ (child_value _ _) _ => unfold child_value; stp
  | |- wp _ (child _ _) _ => eapply wp_child; [reflexivity|]
  | |- wp _ (get _) _ => eapply wp_get; [eassumption|]
  | |- wp _ (ret _) _ => apply wp_ret
  end; cbn beta iota zeta.
Ltac stps := repeat stp.
Ltac is_integer := unfold isInteger; cbn [m_type]; match goal with H : is_int ?t = true |- context [is_int ?t] => rewrite H end; cbn [andb negb].
(** Cases of the next test of the code. *)
Ltac test E := cbv beta zeta; lazymatch goal with |- wp _ (if ?b then _ else _) _ => destruct b eqn:E end.
(** The shape of the value that the test [O] found. *)
Ltac found O := op_node O; match goal with G : _ !! _ = Some (mkValue _ _ _ ?cs _) |- _ => is_var cs; view G end; subst.
(** All members of a list of children are safe. *)
Ltac all_safe := cbn; let c := fresh "c" in let H := fresh "H" in intros c H; apply list_elem_of_In in H; cbn in H; repeat destruct H as [<- | H]; [safe..|destruct H].
(** Go on after the value [v] was added: it does not depend on [m], and what was known is known of the new graph. *)
Ltac new_at m g' A :=
  let W' := fresh "W" in let Sv := fresh "Safe_v" in
  apply wp_wfg; intros W';
  lazymatch type of A with added ?g _ ?v _ =>
    match goal with G : g !! m = Some _ |- _ => assert (Sv : Safe g' m v) by (eapply added_safe; [exact G|exact A|first [let c := fresh in let H := fresh in intros c H; rewrite const_children in H; by apply elem_of_nil in H | all_safe]]) end;
    lift A; try match goal with W : wfg g |- _ => clear W end; try match goal with S : g ⊆ g' |- _ => clear S end
  end.
Ltac new m v := let g' := fresh "g" in let A := fresh "A" in intros v g' A; new_at m g' A.
(** Equations between types of operands, in the goal. *)
Ltac same_types := cbn [m_type]; repeat match goal with H : ?x = ?x |- _ => clear H end; repeat match goal with H : m_type ?n = ?t |- context [m_type ?n] => rewrite H end.
Ltac arith := same_types; wrap_ring.
(** The current value becomes a new operation; an equation between the results remains. *)
Ltac outcome2 := let env := fresh "env" in let o := fresh "o" in let E := fresh "E" in let R := fresh "R" in
  intros env o _ E R; inv_runs; eexists _, _, _; split_and!; [mk_run|mk_run|reflexivity|f_equal].
Ltac outcome1 := let env := fresh "env" in let o := fresh "o" in let E := fresh "E" in let R := fresh "R" in
  intros env o _ E R; inv_runs; eexists _, _; split_and!; [mk_run|reflexivity|f_equal].
Ltac become2 := eapply ok_new2; [eassumption|typ|eassumption|eassumption|safe|safe|reflexivity|typ|typ|outcome2].
Ltac become1 := eapply ok_new1; [eassumption|typ|eassumption|safe|reflexivity|typ|typ|outcome1].
(** The current value becomes a value that is there. *)
Ltac become := first [eapply ok_replaceWithIdentity | eapply ok_replaceWithNewValue]; [eassumption|eassumption|typ|apply int_not_void; typ|safe|
  let env := fresh "env" in let o := fresh "o" in let E := fresh "E" in let R := fresh "R" in intros env o _ E R; inv_runs; eexists; split; [reflexivity|give_run]].
(** The children of the current value change. *)
Ltac rewire2 := eapply set_children_put; [eassumption|]; eapply wp_put2; [eassumption|reflexivity|eassumption|eassumption|safe|safe|typ|outcome2|].
(** A result that is in its range does not wrap around. *)
Ltac fits := same_types; first [apply wrap_id | symmetry; apply wrap_id]; assumption.
