(* ===== verification/B3ReduceAdd.v ===== *)
(** * B3ReduceAdd: the rules for Add, Sub, Neg and Mul keep the outcomes of a procedure *)
From stdpp Require Import gmap.
From S2P Require Import Prelude B3Value B3Const B3IntRange B3Reduce B3Semantics B3Graph B3Arith B3Rules B3Steps.
Local Open Scope Z_scope.

Lemma negConstant_spec n c t : (hasInt32 n = true -> m_type n = Int32) -> (hasInt64 n = true -> m_type n = Int64) -> negConstant n = Some c -> m_type n = t ->
  hasInt n = true /\ is_int t = true /\ c = const_of t (wrap t (- asInt n)).
Proof.
  intros A B E <-. destruct n as [op ch t cs z]. destruct op; try discriminate E; cbn in *; [rewrite A in * by done|rewrite B in * by done]; by simplify_eq.
Qed.

Lemma ok_neg g m ch t cs z : g !! m = Some (mkValue Neg ch t cs z) -> ok g (reduceNeg m).
Proof.
  intros G. apply wp_wfg. intros W. view G. eapply wp_operand; [exact G|reflexivity|exact G0|].
  unfold fold_or. destruct (negConstant n) as [k|] eqn:F.
  { destruct (fold_args g c n W G0) as (F1 & F2 & _). destruct (negConstant_spec n k t F1 F2 F) as (Hn & I & ->); [congruence|].
    eapply ok_replace_const; [exact G|done|done|apply wrap_range|]. intros env o _ _ R. by inv_runs. }
  clear F. apply wp_bind, wp_ret. test K.
  { found K. stps. become. range x1. autorewrite with wrap. rewrite Z.opp_involutive. symmetry. by apply wrap_id. }
  clear K. is_integer. test K; [found K; stps; become2; arith|].
  clear K. test K; [|by apply wp_skip]. found K. stps. test F; [|by apply wp_skip].
  test K; [|clear K; test K; [|by apply wp_skip]]; types.
  - apply wp_bind, wp_insertConst32. new m v. become2. same_types. change s32 with (wrap Int32). wrap_ring.
  - apply wp_bind, wp_insertConst64. new m v. become2. same_types. change s64 with (wrap Int64). wrap_ring.
Qed.

(** The rule for products with a common operand. *)
Lemma common_operand_spec x0 x1 y0 y1 u v w : common_operand x0 x1 y0 y1 = Some (u, v, w) ->
  ((x0 = u /\ x1 = v) \/ (x1 = u /\ x0 = v)) /\ ((y0 = u /\ y1 = w) \/ (y1 = u /\ y0 = w)).
Proof. unfold common_operand. repeat if_cases; intros [= <- <- <-]; bool_prop; subst; auto. Qed.

Lemma ok_distribute g m op ch t cs z : op = Add \/ op = Sub -> g !! m = Some (mkValue op ch t cs z) -> ok g (handleMulDistributivity m).
Proof.
  intros O G. apply wp_wfg. intros W. destruct O as [-> | ->]; view G; (eapply wp_operands; [exact G|reflexivity|exact G0|exact G1|]);
    (test K; [|by apply wp_skip]); apply andb_true_iff in K as [K1 K2]; op_node K1; op_node K2; view G0; view G1; subst; stps;
    (destruct (common_operand _ _ _ _) as [[[u1 u2] u3]|] eqn:C; [|by apply wp_skip]); apply common_operand_spec in C as [[[<- <-] | [<- <-]] [[? ?] | [? ?]]]; subst; simplify_eq;
    cbn [m_opcode]; (apply wp_bind; eapply wp_insertNew2; [eassumption|eassumption|typ|typ|reflexivity|]; new m v; become2; arith).
Qed.

(** ** Sub *)
Lemma ok_sub g m ch t cs z : g !! m = Some (mkValue Sub ch t cs z) -> ok g (reduceSub m).
Proof.
  intros G. apply wp_wfg. intros W. view G. eapply wp_operands; [exact G|reflexivity|exact G0|exact G1|].
  eapply ok_fold; [exact G|reflexivity|exact G0|exact G1|apply folds_sub|]. is_integer. apply wp_bind.
  destruct (negConstant n0) as [k|] eqn:F.
  { destruct (fold_args g c0 n0 W G1) as (F1 & F2 & _). destruct (negConstant_spec n0 k t F1 F2 F) as (Hn & _ & ->); [congruence|]. clear F F1 F2.
    eapply wp_makeConstant; [reflexivity|done|apply wrap_range|]. new m v. apply wp_bind, wp_insertValue. become2. arith. }
  clear F. apply wp_ret. test K; [apply isInt_true in K as [K1 K2]; become1; rewrite K2; arith|].
  clear K. test K.
  { apply Z.eqb_eq in K as ->. simplify_eq. eapply ok_int_const; [exact G|reflexivity|typ|]. intros env o _ E R. inv_runs. f_equal. arith. }
  clear K. test K; [found K; stps; become2; arith|]. eapply ok_distribute; [|exact G]. auto.
Qed.

(** ** Add *)
Lemma add_minus_one x : Z.lxor x (-1) = - x - 1.
Proof. rewrite Z.lxor_m1_r. unfold Z.lnot. lia. Qed.

Lemma ok_add_identities g m ch t cs z : g !! m = Some (mkValue Add ch t cs z) -> ok g (reduceAdd_identities m).
Proof.
  intros G. apply wp_wfg. intros W. view G. eapply wp_operands; [exact G|reflexivity|exact G0|exact G1|].
  test K; [apply isInt_true in K as [K1 K2]; become; range x; rewrite K2, Z.add_0_r; fits|].
  clear K. is_integer. test K; [found K; stps; become2; arith|].
  clear K. test K; [found K; stps; become2; arith|].
  clear K. apply wp_bind. test K.
  - apply andb_true_iff in K as [K1 K2]. apply isInt_true in K2 as [K2 K3]. found K1. stps. test K; [|eapply ok_distribute; [|exact G]; auto].
    apply isInt_true in K as [K4 K5]. stps. become2. rewrite K3, K5, add_minus_one. range y. same_types. autorewrite with wrap.
    transitivity (wrap (m_type n0) (- y - 1)); [f_equal; lia|]. apply wrap_id. apply in_type_iff in B. apply in_type_iff. lia.
  - apply wp_ret. eapply ok_distribute; [|exact G]. auto.
Qed.

Lemma ok_add_constants g m ch t cs z : g !! m = Some (mkValue Add ch t cs z) -> ok g (reduceAdd_constants m).
Proof.
  intros G. apply wp_wfg. intros W. view G. eapply wp_operands; [exact G|reflexivity|exact G0|exact G1|].
  eapply ok_fold; [exact G|reflexivity|exact G0|exact G1|apply folds_add|]. is_integer. test K; [|by eapply ok_add_identities].
  apply Z.eqb_eq in K as ->. simplify_eq. apply wp_bind, wp_insertConst32. new m v. become2. change (s32 1) with 1.
  rewrite shift_mask_low, Z.shiftl_mul_pow2 by lia. arith.
Qed.

Lemma ok_add_right g m ch t cs z : g !! m = Some (mkValue Add ch t cs z) -> ok g (reduceAdd_right m).
Proof.
  intros G. apply wp_wfg. intros W. view G. eapply wp_operands; [exact G|reflexivity|exact G0|exact G1|]. is_integer.
  test K; [|by eapply ok_add_constants]. apply andb_true_iff in K as [_ K]. found K. stps. test K; [|by eapply ok_add_constants].
  stps. apply wp_bind. eapply wp_insertNew2; [eassumption|eassumption|typ|typ|reflexivity|]. new m v. rewire2; [arith|done].
Qed.

Lemma ok_add g m ch t cs z : g !! m = Some (mkValue Add ch t cs z) -> ok g (reduceAdd m).
Proof.
  intros G. apply wp_wfg. intros W. view G. apply wp_bind. eapply wp_mono; [|eapply wp_commute; [exact G|reflexivity]].
  clear. intros [] g' (c0 & c1 & G). apply wp_wfg. intros W. view G. eapply wp_operands; [exact G|reflexivity|exact G0|exact G1|]. is_integer.
  test K; [|by eapply ok_add_right]. rewrite andb_true_r in K. found K. stps. apply wp_bind.
  destruct (addConstant n0 n1) as [k|] eqn:F.
  - apply (folded_of g' Add (m_type n0) c2 c1 n0 n1 k addConstant W G1 G3) in F as (Ha & Hb & w & -> & Rw & Sw); [|typ|apply folds_add].
    eapply wp_makeConstant; [reflexivity|typ|exact Rw|]. new m v. apply wp_bind, wp_insertValue. rewire2; [|done].
    rewrite <- (Sw false (wrap (m_type n0) (asInt n0 + asInt n1)) eq_refl). arith.
  - apply wp_ret. test K; [|by eapply ok_add_right].
    apply wp_bind. eapply wp_insertNew2; [eassumption|eassumption|typ|typ|reflexivity|]. new m v. apply andb_true_iff in K as [_ K]. rewire2; [arith|done].
Qed.

(** ** Mul *)
Lemma one_bit_pos f : 0 < f -> Z.land (f - 1) f = 0 -> exists k, 0 <= k /\ f = 2 ^ k.
Proof.
  intros P H. exists (Z.log2 f). split; [apply Z.log2_nonneg|]. destruct (Z.log2_spec f P) as [L U].
  destruct (Z.eq_dec f (2 ^ Z.log2 f)) as [E|N]; [done|]. exfalso.
  assert (Z.log2 (f - 1) = Z.log2 f) as E by (apply Z.log2_unique; [apply Z.log2_nonneg|lia]).
  assert (Z.testbit (Z.land (f - 1) f) (Z.log2 f) = true) as B; [|by rewrite H, Z.bits_0 in B].
  assert (0 < f - 1) by (pose proof (Z.pow_pos_nonneg 2 (Z.log2 f)); pose proof (Z.log2_nonneg f); lia).
  rewrite Z.land_spec, Z.bit_log2 by lia. rewrite <- E at 1. by rewrite Z.bit_log2.
Qed.

Lemma fastLog2_pow : forallb (fun k => fastLog2_64 (2 ^ Z.of_nat k) =? Z.of_nat k) (seq 0 64) = true.
Proof. vm_compute. reflexivity. Qed.

Lemma fastLog2_spec k : 0 <= k < 64 -> fastLog2_64 (2 ^ k) = k.
Proof.
  intros H. pose proof fastLog2_pow as F. rewrite forallb_forall in F. specialize (F (Z.to_nat k)).
  rewrite Z2Nat.id in F by lia. apply Z.eqb_eq, F, in_seq. lia.
Qed.

(** A number with one bit: a power of two, or the least number of 64 bits. *)
Lemma one_bit t f : is_int t = true -> in_type t f = true -> hasOneBitSet f = true ->
  exists k, 0 <= k < bits t /\ fastLog2_64 (u64 f) = k /\ forall x, wrap t (x * f) = wrap t (x * 2 ^ k).
Proof.
  intros I R H. unfold hasOneBitSet in H. bool_prop. pose proof (proj1 (in_type_iff t f) R) as B.
  assert (- 2 ^ 63 <= f < 2 ^ 63) as B64 by (destruct t; try done; cbn in B; lia). destruct (Z_lt_le_dec f 0).
  - destruct (Z.eq_dec f (- 2 ^ 63)) as [-> | N].
    + assert (bits t = 64) as Bt by (destruct t; try done; cbn in B; lia). exists 63. split; [lia|]. split; [reflexivity|]. intros x.
      rewrite <- (wrap_add_mul t (x * - 2 ^ 63) x). f_equal. rewrite Bt. lia.
    + exfalso. change s64 with (wrap Int64) in H. rewrite wrap_id in H by (apply in_type_iff; cbn; lia).
      assert (Z.land (f - 1) f < 0) by (apply Z.land_neg; lia). lia.
  - change s64 with (wrap Int64) in H. rewrite wrap_id in H by (apply in_type_iff; cbn; lia). destruct (one_bit_pos f) as (k & K & ->); [lia|done|].
    assert (k < bits t - 1) by (apply (Z.pow_lt_mono_r_iff 2); [lia|destruct t; cbn; lia|lia]). exists k. split; [lia|]. split; [|done].
    unfold u64. rewrite Z.mod_small by lia. apply fastLog2_spec. destruct t; try done; cbn in *; lia.
Qed.

Lemma ok_mul_neg g m ch t cs z : g !! m = Some (mkValue Mul ch t cs z) -> ok g (reduceMul_neg m).
Proof.
  intros G. apply wp_wfg. intros W. view G. eapply wp_operands; [exact G|reflexivity|exact G0|exact G1|]. is_integer.
  test K; [|clear K; test K; [|by apply wp_skip]]; found K; stps;
    (apply wp_bind; eapply wp_insertNew2; [eassumption|eassumption|typ|typ|reflexivity|]; new m v; become1; arith).
Qed.

Lemma ok_mul g m ch t cs z : g !! m = Some (mkValue Mul ch t cs z) -> ok g (reduceMul m).
Proof.
  intros G. apply wp_wfg. intros W. view G. apply wp_bind. eapply wp_mono; [|eapply wp_commute; [exact G|reflexivity]].
  clear. intros [] g' (c0 & c1 & G). apply wp_wfg. intros W. view G. eapply wp_operands; [exact G|reflexivity|exact G0|exact G1|].
  eapply ok_fold; [exact G|reflexivity|exact G0|exact G1|apply folds_mul|]. test Hi; [|by eapply ok_mul_neg].
  test K; [apply Z.eqb_eq in K; become; rewrite K, Z.mul_0_r; by destruct (m_type n)|]. clear K.
  test K; [apply Z.eqb_eq in K; become; range x; rewrite K, Z.mul_1_r; fits|]. clear K.
  test K; [apply Z.eqb_eq in K; become1; rewrite K; arith|]. clear K.
  test K; [|by eapply ok_mul_neg]. pose proof (proj1 (view_int W G1 Hi)) as R1. rewrite T in R1. destruct (one_bit _ _ H0 R1 K) as (k & B & -> & M).
  apply wp_bind, wp_insertConst32. new m v. become2. same_types. assert (s32 k = k) as -> by (apply (wrap_id Int32); apply in_type_iff; destruct (m_type n); cbn in *; lia).
  rewrite shift_mask_small, Z.shiftl_mul_pow2 by lia. apply M.
Qed.
