(* ===== verification/B3ReduceBits.v ===== *)
(** * B3ReduceBits: the rules for bitwise operations, shifts and extensions keep the outcomes of a procedure *)
From stdpp Require Import gmap.
From S2P Require Import Prelude B3Value B3Const B3IntRange B3Reduce B3Semantics B3Graph B3Arith B3Rules B3Steps B3ReduceAdd.
Local Open Scope Z_scope.

(** ** Masks *)
Lemma land_low x m k : 0 <= k -> 0 <= m < 2 ^ k -> Z.land x m = Z.land (x mod 2 ^ k) m.
Proof.
  intros K M. rewrite <- Z.land_ones by done. rewrite <- Z.land_assoc. f_equal. rewrite Z.land_comm, Z.land_ones by done. by rewrite Z.mod_small.
Qed.

Lemma high_bits_clear u k w : 0 <= k <= w -> 0 <= u < 2 ^ w -> Z.land u (2 ^ w - 2 ^ k) = 0 -> u < 2 ^ k.
Proof.
  intros K U H. destruct (Z_lt_le_dec u (2 ^ k)) as [|L]; [done|]. exfalso. assert (0 < 2 ^ k) by (apply Z.pow_pos_nonneg; lia).
  assert (k <= Z.log2 u < w) as B by (split; [apply Z.log2_le_pow2|apply Z.log2_lt_pow2]; lia).
  assert (Z.testbit (Z.land u (2 ^ w - 2 ^ k)) (Z.log2 u) = true) as T; [|by rewrite H, Z.bits_0 in T].
  rewrite Z.land_spec, Z.bit_log2 by lia. cbn. replace (2 ^ w - 2 ^ k) with (Z.shiftl (Z.ones (w - k)) k).
  - rewrite Z.shiftl_spec, Z.ones_spec_low by lia. done.
  - rewrite Z.shiftl_mul_pow2, Z.ones_equiv by lia. unfold Z.pred. rewrite Z.mul_add_distr_r, <- Z.pow_add_r by lia. replace (w - k + k) with w by lia. lia.
Qed.

Lemma mask32 m k : in_type Int32 m = true -> 0 <= k < 32 -> Z.land (u32 m) (2 ^ 32 - 2 ^ k) = 0 -> 0 <= m < 2 ^ k.
Proof.
  intros R K H. apply in_type_iff in R. cbn in R. assert (0 <= u32 m < 2 ^ 32) as U by (apply Z.mod_pos_bound; lia).
  pose proof (high_bits_clear (u32 m) k 32 ltac:(lia) U H). assert (2 ^ k <= 2 ^ 31) by (apply Z.pow_le_mono_r; lia). unfold u32 in *.
  destruct (Z_lt_le_dec m 0); [|rewrite Z.mod_small in * by lia; lia].
  rewrite <- (Z.mod_add m 1) in * by lia. rewrite (Z.mod_small (m + 1 * 2 ^ 32)) in * by lia. lia.
Qed.

Lemma mod_eq_s8 x y : x mod 2 ^ 8 = y mod 2 ^ 8 -> s8 x = s8 y.
Proof. unfold s8. intros. rewrite <- Z.add_mod_idemp_l, H, Z.add_mod_idemp_l by lia. reflexivity. Qed.
Lemma mod_eq_s16 x y : x mod 2 ^ 16 = y mod 2 ^ 16 -> s16 x = s16 y.
Proof. unfold s16. intros. rewrite <- Z.add_mod_idemp_l, H, Z.add_mod_idemp_l by lia. reflexivity. Qed.
Lemma mod_eq_s32 x y : x mod 2 ^ 32 = y mod 2 ^ 32 -> s32 x = s32 y.
Proof. unfold s32. intros. rewrite <- Z.add_mod_idemp_l, H, Z.add_mod_idemp_l by lia. reflexivity. Qed.
Lemma s8_mod x : s8 x mod 2 ^ 8 = x mod 2 ^ 8.
Proof. unfold s8. rewrite Zminus_mod_idemp_l. f_equal. lia. Qed.
Lemma s16_mod x : s16 x mod 2 ^ 16 = x mod 2 ^ 16.
Proof. unfold s16. rewrite Zminus_mod_idemp_l. f_equal. lia. Qed.
Lemma s32_mod32 x : s32 x mod 2 ^ 32 = x mod 2 ^ 32.
Proof. unfold s32. rewrite Zminus_mod_idemp_l. f_equal. lia. Qed.
Lemma u32_s32 x : u32 (s32 x) = Z.land x (2 ^ 32 - 1).
Proof. unfold u32. rewrite s32_mod32. change (2 ^ 32 - 1) with (Z.ones 32). by rewrite Z.land_ones. Qed.

Lemma land_mod x m k : 0 <= k -> (Z.land x m) mod 2 ^ k = Z.land x (Z.land m (Z.ones k)).
Proof. intros K. by rewrite <- Z.land_ones, Z.land_assoc by done. Qed.

(** A mask that keeps the low bits, and one that clears the sign among them. *)
Lemma mask_keeps x m k : 0 <= k -> Z.land m (2 ^ k - 1) = 2 ^ k - 1 -> (Z.land x m) mod 2 ^ k = x mod 2 ^ k.
Proof.
  intros K H. rewrite land_mod by done. assert (Z.ones k = 2 ^ k - 1) as O by (rewrite Z.ones_equiv; lia). rewrite O, H, <- O. by apply Z.land_ones.
Qed.
Lemma mask_clears x m k : 0 <= k -> Z.land m (2 ^ k) = 0 -> (Z.land x m) mod 2 ^ (k + 1) = Z.land x (Z.land m (2 ^ k - 1)) /\ 0 <= Z.land m (2 ^ k - 1) < 2 ^ k.
Proof.
  intros K H. assert (2 ^ k - 1 = Z.ones k) as -> by (rewrite Z.ones_equiv; lia). split; [|rewrite Z.land_ones by done; apply Z.mod_pos_bound, Z.pow_pos_nonneg; lia].
  rewrite land_mod by lia. f_equal. apply Z.bits_inj'. intros i I. rewrite !Z.land_spec. destruct (Z_lt_le_dec i k).
  - by rewrite !Z.ones_spec_low by lia.
  - rewrite (Z.ones_spec_high k) by lia. destruct (Z.eq_dec i k) as [-> |]; [|rewrite Z.ones_spec_high by lia; done].
    assert (Z.testbit (Z.land m (2 ^ k)) k = false) as B by by rewrite H, Z.bits_0. rewrite Z.land_spec, Z.pow2_bits_true, andb_true_r in B by done. by rewrite B.
Qed.

Lemma land_range_low x m k : 0 <= k -> 0 <= m < 2 ^ k -> 0 <= Z.land x m < 2 ^ k.
Proof.
  intros K M. split; [apply Z.land_nonneg; lia|]. rewrite (land_low x m k) by done. rewrite <- (Z.mod_small m (2 ^ k)) by done.
  rewrite <- !Z.land_ones, Z.land_assoc by done. rewrite (Z.land_ones _ k) by done. apply Z.mod_pos_bound, Z.pow_pos_nonneg; lia.
Qed.

Lemma land_lxor_r x y z : Z.land x (Z.lxor y z) = Z.lxor (Z.land x y) (Z.land x z).
Proof. apply Z.bits_inj'. intros i I. rewrite Z.land_spec, !Z.lxor_spec, !Z.land_spec. by destruct (Z.testbit x i), (Z.testbit y i), (Z.testbit z i). Qed.

(** ** Shifts *)
Lemma shiftl_shiftr x s : 0 <= s -> Z.shiftl (Z.shiftr x s) s = Z.land x (- 2 ^ s).
Proof.
  intros S. rewrite <- Z.ldiff_ones_r by done. rewrite <- (Z.lnot_involutive (- 2 ^ s)), <- Z.ldiff_land. f_equal. rewrite Z.ones_equiv. unfold Z.lnot. lia.
Qed.

Lemma shift_const t s : is_int t = true -> 0 <= s < bits t -> wrap t (- s64 (Z.shiftl 1 s)) = - 2 ^ s.
Proof.
  intros I S. rewrite Z.shiftl_1_l. assert (wrap t (- s64 (2 ^ s)) = wrap t (- 2 ^ s)) as ->.
  { destruct t; try done; [|apply (wrap_opp Int64)]. cbn in S. f_equal. f_equal. apply (wrap_id Int64), in_type_iff. cbn.
    assert (2 ^ s <= 2 ^ 31) by (apply Z.pow_le_mono_r; lia). assert (0 < 2 ^ s) by (apply Z.pow_pos_nonneg; lia). lia. }
  apply wrap_id, in_type_iff. assert (2 ^ s <= 2 ^ (bits t - 1)) by (apply Z.pow_le_mono_r; lia). assert (0 < 2 ^ s) by (apply Z.pow_pos_nonneg; lia). lia.
Qed.

Lemma shl_zshr t x s : in_type t x = true -> 0 <= s < bits t -> wrap t (Z.shiftl (wrap t (Z.shiftr (unsigned t x) s)) s) = Z.land x (- 2 ^ s).
Proof.
  intros R S. rewrite Z.shiftl_mul_pow2 by lia. rewrite wrap_mul_l, <- Z.shiftl_mul_pow2, shiftl_shiftr by lia.
  rewrite unsigned_eq. assert (Z.land (x mod 2 ^ bits t) (- 2 ^ s) = Z.land x (- 2 ^ s) mod 2 ^ bits t) as ->.
  { rewrite <- !Z.land_ones by lia. rewrite <- !Z.land_assoc. f_equal. apply Z.land_comm. }
  rewrite <- unsigned_eq, wrap_unsigned. apply wrap_id, in_type_land; [done|]. apply in_type_iff.
  assert (2 ^ s <= 2 ^ (bits t - 1)) by (apply Z.pow_le_mono_r; lia). assert (0 < 2 ^ s) by (apply Z.pow_pos_nonneg; lia). lia.
Qed.

Definition is_shift (op : Opcode) : bool := match op with Shl | SShr | ZShr | RotR | RotL => true | _ => false end.

Lemma sem2_shift op ch t x y y' : is_shift op = true -> shift_mask t y = shift_mask t y' -> sem2 op ch t x y = sem2 op ch t x y'.
Proof.
  intros S M. destruct op; try done; cbn [sem2]; rewrite ?M; try done; unfold rotateRight, rotateLeft; unfold shift_mask in M; by rewrite M.
Qed.

Lemma sem2_shift_zero op ch t x : is_shift op = true -> in_type t x = true -> sem2 op ch t x 0 = Some x.
Proof.
  intros S R. assert (shift_mask t 0 = 0) as M by by destruct t. pose proof (wrap_id t x R).
  destruct op; try done; cbn [sem2]; rewrite ?M, ?Z.shiftl_0_r, ?Z.shiftr_0_r, ?wrap_unsigned; try congruence; unfold rotateRight, rotateLeft;
    (assert (Z.land (bits t - Z.land 0 (bits t - 1)) (bits t - 1) = 0) as -> by by destruct t); rewrite Z.land_0_l, Z.shiftl_0_r, Z.shiftr_0_r;
    rewrite (unsigned_eq t (unsigned t x)), Z.mod_small, Z.lor_diag, wrap_unsigned by apply unsigned_range; congruence.
Qed.

Ltac rewire := eapply set_child_changed; [eassumption|reflexivity|]; first [eapply wp_put2; [eassumption|reflexivity|eassumption|eassumption|safe|safe|typ|outcome2|] | eapply wp_put1; [eassumption|reflexivity|eassumption|safe|typ|outcome1|]].

Lemma ok_shift_amount g m op ch t cs z : is_shift op = true -> g !! m = Some (mkValue op ch t cs z) -> ok g (handleShiftAmount m).
Proof.
  intros S G. apply wp_wfg. intros W. destruct op; try discriminate S; view G; (eapply wp_operands; [exact G|reflexivity|exact G0|exact G1|]);
    (test K;
     [ apply isInt32_true in K as [K1 K2]; apply hasInt32_int in K1; become; range x; rewrite K2;
       match type of G with _ = Some (mkValue ?op _ _ _ _) => pose proof (sem2_shift_zero op ch _ x eq_refl B) as Z0 end; cbn [sem2] in Z0; congruence
     | clear K; test K; [|by apply wp_skip]; found K; stps; test K; [|by apply wp_skip]; apply andb_true_iff in K as [K1 K2]; apply Z.eqb_eq in K2;
       apply hasInt32_int in K1; stps; rewire; [|done];
       match type of G with _ = Some (mkValue ?op _ _ _ _) =>
         match goal with R : run _ _ ?c (Val ?u), Rx : run _ _ _ (Val ?v) |- _ = ?rhs =>
           assert (sem2 op ch (m_type n) v (Z.land u (asInt n1)) = sem2 op ch (m_type n) v u) as Z0
             by (apply sem2_shift; [reflexivity|]; apply shift_mask_land; revert K2; cbn [m_type]; destruct (m_type n); cbn; auto; done);
           cbn [sem2] in Z0; injection Z0 as Z0; exact Z0 end end ]).
Qed.

(** ** BitAnd, BitOr, BitXor *)
Definition is_bitwise (op : Opcode) : bool := match op with BitAnd | BitOr | BitXor => true | _ => false end.

Lemma ok_reassociate g m op ch t cs z f : is_bitwise op = true -> folds op f -> g !! m = Some (mkValue op ch t cs z) ->
  wp g (reassociate m op f) (fun _ g' => exists a b, g' !! m = Some (mkValue op ch t [a; b] z)).
Proof.
  intros O F G. apply wp_wfg. intros W.
  destruct op; try discriminate O; view G; (eapply wp_operands; [exact G|reflexivity|exact G0|exact G1|]);
    (test K; [|apply wp_skip; eauto]); found K; stps; apply wp_bind;
    match goal with G1 : g !! ?cb = Some ?b, Gc : g !! ?ck = Some ?k |- wp g (makeConstant (f ?b ?k)) _ =>
      destruct (f b k) as [c'|] eqn:E; [|apply wp_ret, wp_skip; eauto];
      match type of F with folds ?op f => apply (folded_of g op (m_type b) cb ck b k c' f W G1 Gc) in E as (Ha & Hb & w & -> & Rw & Sw); [|typ|exact F] end
    end; (eapply wp_makeConstant; [reflexivity|typ|exact Rw|]; new m v; apply wp_bind, wp_insertValue; rewire2; [|eexists _, _; apply lookup_insert_eq]);
    specialize (Sw false _ eq_refl); rewrite <- Sw, <- ?Z.land_assoc, <- ?Z.lor_assoc, ?Z.lxor_assoc; f_equal; auto using Z.land_comm, Z.lor_comm, Z.lxor_comm.
Qed.

(** A value that is all ones. *)
Lemma all_ones g v n t : wfg g -> g !! v = Some n -> m_type n = t -> isAllOnes t n = true -> hasInt n = true /\ asInt n = -1.
Proof.
  intros W G T A. unfold isAllOnes in A. destruct t; try done; apply isInt_true in A as [H E]; [|done].
  exfalso. pose proof (proj1 (view_int W G H)) as R. rewrite T, E in R. done.
Qed.

Lemma lxor_lnot x : Z.lxor x (-1) = Z.lnot x.
Proof. apply Z.lxor_m1_r. Qed.

Lemma ok_deMorgan g m op dual ch t cs z k : (op = BitAnd /\ dual = BitOr) \/ (op = BitOr /\ dual = BitAnd) -> g !! m = Some (mkValue op ch t cs z) ->
  ok g k -> ok g (deMorgan m dual k).
Proof.
  intros O G Hk. apply wp_wfg. intros W.
  destruct O as [[-> ->] | [-> ->]]; view G; (eapply wp_operands; [exact G|reflexivity|exact G0|exact G1|]);
    (test K; [|done]); apply andb_true_iff in K as [K1 K2]; op_node K1; op_node K2; view G0; view G1; subst; apply wp_bind, wp_bind; unfold inverts; stps;
    (test A; [|apply wp_ret; done]); stps; (test A2; [|done]); cbn [m_type] in *;
    (eapply all_ones in A as [Ha Ea]; [|exact W|eassumption|typ]); (eapply all_ones in A2 as [Hb Eb]; [|exact W|eassumption|typ]); stps;
    (apply wp_bind; eapply wp_insertNew2; [eassumption|eassumption|typ|typ|reflexivity|]); new m v; stps; become2; rewrite ?Ea, ?Eb, !lxor_lnot, ?Z.lnot_lor, ?Z.lnot_land; reflexivity.
Qed.

Lemma bitXorConstant_total g v w a b : wfg g -> g !! v = Some a -> g !! w = Some b -> hasInt a = true -> hasInt b = true -> m_type a = m_type b -> bitXorConstant a b <> None.
Proof.
  intros W Ga Gb Ha Hb T. destruct (fold_args g v a W Ga) as (A1 & A2 & _). destruct (fold_args g w b W Gb) as (B1 & B2 & _).
  destruct a as [oa ? ta ? ?], b as [ob ? tb ? ?]. cbn in *. subst ta. destruct oa; try discriminate Ha; destruct ob; try discriminate Hb; cbn in *; try done;
    [rewrite A1 in B2 by done|rewrite A2 in B1 by done]; [discriminate (B2 eq_refl)|discriminate (B1 eq_refl)].
Qed.

Lemma ok_deMorgan_constant g m op dual ch t cs z k : (op = BitAnd /\ dual = BitOr) \/ (op = BitOr /\ dual = BitAnd) -> g !! m = Some (mkValue op ch t cs z) ->
  ok g k -> ok g (deMorgan_constant m dual k).
Proof.
  intros O G Hk. apply wp_wfg. intros W.
  destruct O as [[-> ->] | [-> ->]]; view G; (eapply wp_operands; [exact G|reflexivity|exact G0|exact G1|]);
    (test K; [|done]); apply andb_true_iff in K as [K1 K2]; op_node K1; view G0; subst; apply wp_bind; unfold inverts; stps;
    (test A; [|done]); cbn [m_type] in *; (eapply all_ones in A as [Ha Ea]; [|exact W|eassumption|typ]); stps; apply wp_bind;
    match goal with G1 : g !! ?cb = Some ?b, Gc : g !! ?ck = Some ?a1, K2 : hasInt ?b = true, Ha : hasInt ?a1 = true |- wp g (makeConstant (bitXorConstant ?b ?a1)) _ =>
      destruct (bitXorConstant b a1) as [c'|] eqn:F;
      [apply (folded_of g BitXor (m_type b) cb ck b a1 c' bitXorConstant W G1 Gc) in F as (_ & _ & w & -> & Rw & Sw); [|typ|apply folds_bitxor]
      |by apply (bitXorConstant_total g cb ck b a1 W G1 Gc K2 Ha) in F; [|typ]]
    end;
    (eapply wp_makeConstant; [reflexivity|typ|exact Rw|]); new m v; (apply wp_bind; eapply wp_need; [reflexivity|]);
    (apply wp_bind; eapply wp_insertNew2; [eassumption|eassumption|typ|typ|reflexivity|]); new m u; become2; specialize (Sw false _ eq_refl);
    rewrite <- Sw, ?Ea, !lxor_lnot, ?Z.lnot_lor, ?Z.lnot_land, Z.lnot_involutive; reflexivity.
Qed.

(** The two operands are conjunctions of [x1] with [x2] and with [x3]. *)
Definition common (g : graph) (m : Z) (t : B3Type) (c0 c1 : Z) (x : Z * Z * Z) : Prop :=
  let '(x1, x2, x3) := x in
  Safe g m x1 /\ Safe g m x2 /\ Safe g m x3 /\
  (exists n1 n2 n3, g !! x1 = Some n1 /\ g !! x2 = Some n2 /\ g !! x3 = Some n3 /\ m_type n1 = t /\ m_type n2 = t /\ m_type n3 = t) /\
  forall env u w, run env g c0 (Val u) -> run env g c1 (Val w) ->
    exists a b c, run env g x1 (Val a) /\ run env g x2 (Val b) /\ run env g x3 (Val c) /\
      ((u = Z.land a b /\ w = Z.land a c) \/ (u = Z.land a c /\ w = Z.land a b)).

Ltac solve_common :=
  unfold common; split_and!; [safe|safe|safe|eexists _, _, _; split_and!; [eassumption..|typ|typ|typ]|];
  let env := fresh "env" in let u := fresh "u" in let w := fresh "w" in let R1 := fresh "R" in let R2 := fresh "R" in
  intros env u w R1 R2; try inv_run R1; try inv_run R2; inv_runs; eexists _, _, _; split_and!; [mk_run..|].

Lemma ok_distribute_and g m op ch t cs z : op = BitOr \/ op = BitXor -> g !! m = Some (mkValue op ch t cs z) -> ok g (handleBitAndDistributivity m).
Proof.
  intros O G. apply wp_wfg. intros W. assert (is_binary op = true) as B by by destruct O as [-> | ->].
  destruct (view2 W G B) as (c0 & c1 & a & b & -> & G0 & G1 & T). assert (is_int t = true /\ m_type a = t /\ m_type b = t) as (I & Ta & Tb) by (destruct O as [-> | ->]; types; done).
  clear T. eapply wp_operands; [exact G|reflexivity|exact G0|exact G1|]. apply wp_bind.
  apply wp_mono with (Q := fun f g' => g' = g /\ match f with Some x => common g m t c0 c1 x | None => True end).
  { intros [[[x1 x2] x3]|] g' [-> H]; [|by apply wp_skip]. destruct H as (S1 & S2 & S3 & (n1 & n2 & n3 & X1 & X2 & X3 & T1 & T2 & T3) & R).
    apply wp_bind. cbn [m_opcode]. destruct O as [-> | ->]; (eapply wp_insertNew2; [eassumption|eassumption|typ|typ|reflexivity|]).
    all: intros v g' A; pose proof A as (S & Gv & _); (assert (Safe g' m v) by (eapply added_safe; [exact G|exact A|cbn; intros c H; apply list_elem_of_In in H as [<- | [<- | []]]; done])).
    all: eapply ok_new2; [by eapply lookup_weaken|typ|by eapply lookup_weaken|exact Gv|by eapply Safe_weaken|done|reflexivity|typ|typ|].
    all: intros env o W' E Rm; eapply run_sub_inv in Rm; [|exact W|exact S|exact G]; apply (run2_inv W G eq_refl) in Rm as (na & nb & u & w & r & ? & ? & Ru & Rw & Sm & ->); simplify_eq.
    all: destruct (R env u w Ru Rw) as (p & q & k & Rp & Rq & Rk & U); cbn [sem2] in Sm; simplify_eq.
    all: assert (forall x y, run env g x (Val y) -> run env g' x (Val y)) as L by (intros x y Rx; eapply run_sub; eauto using wfg_valid).
    all: eexists p, _, _; split_and!; [by apply L|eapply (run2_mk W' Gv eq_refl); [by eapply lookup_weaken|by apply L|by apply L|reflexivity]|reflexivity|f_equal].
    - rewrite Z.land_lor_distr_r. destruct U as [[-> ->] | [-> ->]]; [done|apply Z.lor_comm].
    - rewrite land_lxor_r. destruct U as [[-> ->] | [-> ->]]; [done|apply Z.lxor_comm]. }
  test K; [|clear K; test K; [|clear K; test K; [|apply wp_ret; done]]].
  - apply andb_true_iff in K as [K1 K2]. op_node K1. op_node K2. view G0. view G1. subst. stps. split; [done|].
    destruct (common_operand _ _ _ _) as [[[u1 u2] u3]|] eqn:C; [|done]. apply common_operand_spec in C as [[[<- <-] | [<- <-]] [[? ?] | [? ?]]]; subst; simplify_eq; solve_common; auto 6 using Z.land_comm, eq_sym, Z.land_diag.
  - found K. stps. split; [done|]. repeat if_cases; [| |done]; apply Z.eqb_eq in E || apply Z.eqb_eq in E0; subst; simplify_eq; solve_common; auto 6 using Z.land_comm, eq_sym, Z.land_diag.
  - found K. stps. split; [done|]. repeat if_cases; [| |done]; apply Z.eqb_eq in E || apply Z.eqb_eq in E0; subst; simplify_eq; solve_common; auto 6 using Z.land_comm, eq_sym, Z.land_diag.
Qed.

Lemma land_or_clear x c d : Z.land c d = 0 -> Z.land (Z.lor x c) d = Z.land x d.
Proof. intros H. by rewrite Z.land_lor_distr_l, H, Z.lor_0_r. Qed.
Lemma land_xor_clear x c d : Z.land c d = 0 -> Z.land (Z.lxor x c) d = Z.land x d.
Proof. intros H. by rewrite Z.land_comm, land_lxor_r, (Z.land_comm d c), H, Z.lxor_0_r, Z.land_comm. Qed.

Lemma ok_and_constant g m ch t cs z : g !! m = Some (mkValue BitAnd ch t cs z) -> ok g (reduceBitAnd_constant m).
Proof.
  intros G. apply wp_wfg. intros W. view G. eapply wp_operands; [exact G|reflexivity|exact G0|exact G1|].
  test K; [|eapply ok_deMorgan; [|exact G|]; [auto|]; eapply ok_deMorgan_constant; [|exact G|]; [auto|]; by apply wp_skip].
  destruct n as [op ch0 t0 cs0 z0]; cbn [m_opcode m_type] in *. destruct op; try (by apply wp_skip); subst; view G0; stps; (test F; [|by apply wp_skip]);
    apply andb_true_iff in F as [F1 F2]; apply Z.eqb_eq in F2; stps; (rewire; [|done]); [by apply land_or_clear|by apply land_xor_clear].
Qed.

Lemma ok_and_extend g m ch t cs z : g !! m = Some (mkValue BitAnd ch t cs z) -> ok g (reduceBitAnd_extend m).
Proof.
  intros G. apply wp_wfg. intros W. view G. eapply wp_operands; [exact G|reflexivity|exact G0|exact G1|].
  test K.
  { apply isInt64_true in K as [K1 K2]. pose proof (view_type64 W G1 K1) as T64. apply hasInt64_int in K1. assert (m_type n = Int64) by congruence.
    apply wp_bind. eapply wp_insertNew1; [eassumption|typ|typ|reflexivity|]. new m v.
    apply wp_bind. eapply wp_insertNew1; [eassumption|typ|typ|reflexivity|]. new m u. become. rewrite K2, u32_s32. done. }
  clear K. test K.
  { apply andb_true_iff in K as [K F]. apply andb_true_iff in K as [K K1]. apply Z.eqb_eq in F. pose proof (view_type32 W G1 K1) as T32. apply hasInt32_int in K1.
    pose proof (proj1 (view_int W G1 K1)) as R1. rewrite T32 in R1. apply (mask32 _ 8) in F; [|done|lia]. found K. stps. rewire; [|done].
    rewrite (land_low (s8 x1) _ 8), (land_low x1 _ 8), s8_mod by lia. done. }
  clear K. test K.
  { apply andb_true_iff in K as [K F]. apply andb_true_iff in K as [K K1]. apply Z.eqb_eq in F. pose proof (view_type32 W G1 K1) as T32. apply hasInt32_int in K1.
    pose proof (proj1 (view_int W G1 K1)) as R1. rewrite T32 in R1. apply (mask32 _ 16) in F; [|done|lia]. found K. stps. rewire; [|done].
    rewrite (land_low (s16 x1) _ 16), (land_low x1 _ 16), s16_mod by lia. done. }
  clear K. test K; [|by eapply ok_and_constant].
  apply andb_true_iff in K as [K F]. apply andb_true_iff in K as [K K1]. exfalso. pose proof (view_type32 W G1 K1). op_node K. view G0. congruence.
Qed.

Lemma ok_and_identities g m ch t cs z : g !! m = Some (mkValue BitAnd ch t cs z) -> ok g (reduceBitAnd_identities m).
Proof.
  intros G. apply wp_wfg. intros W. view G. eapply wp_operands; [exact G|reflexivity|exact G0|exact G1|].
  test K; [apply Z.eqb_eq in K as ->; simplify_eq; become; symmetry; apply Z.land_diag|]. clear K.
  test K; [apply isInt_true in K as [K1 K2]; become; by rewrite K2, Z.land_0_r|]. clear K.
  test K; [|by eapply ok_and_extend]. eapply all_ones in K as [K1 K2]; [|exact W|exact G1|done]. become. rewrite K2. symmetry. apply Z.land_m1_r.
Qed.

Lemma ok_bitand g m ch t cs z : g !! m = Some (mkValue BitAnd ch t cs z) -> ok g (reduceBitAnd m).
Proof.
  intros G. apply wp_wfg. intros W. view G. apply wp_bind. eapply wp_mono; [|eapply wp_commute; [exact G|reflexivity]].
  clear. intros [] g' (c0 & c1 & G). apply wp_wfg. intros W. view G. eapply wp_operands; [exact G|reflexivity|exact G0|exact G1|].
  eapply ok_fold; [exact G|reflexivity|exact G0|exact G1|apply folds_bitand|]. apply wp_bind.
  eapply wp_mono; [|eapply ok_reassociate; [reflexivity|apply folds_bitand|exact G]]. intros [] g2 (a & b & G2). by eapply ok_and_identities.
Qed.

Lemma ok_or_identities g m ch t cs z : g !! m = Some (mkValue BitOr ch t cs z) -> ok g (reduceBitOr_identities m).
Proof.
  intros G. apply wp_wfg. intros W. view G. eapply wp_operands; [exact G|reflexivity|exact G0|exact G1|].
  test K; [apply Z.eqb_eq in K as ->; simplify_eq; become; symmetry; apply Z.lor_diag|]. clear K.
  test K; [apply isInt_true in K as [K1 K2]; become; by rewrite K2, Z.lor_0_r|]. clear K.
  test K; [eapply all_ones in K as [K1 K2]; [|exact W|exact G1|done]; become; rewrite K2; symmetry; apply Z.lor_m1_r|].
  eapply ok_deMorgan; [|exact G|]; [auto|]. eapply ok_deMorgan_constant; [|exact G|]; [auto|]. eapply ok_distribute_and; [|exact G]. auto.
Qed.

Lemma ok_bitor g m ch t cs z : g !! m = Some (mkValue BitOr ch t cs z) -> ok g (reduceBitOr m).
Proof.
  intros G. apply wp_wfg. intros W. view G. apply wp_bind. eapply wp_mono; [|eapply wp_commute; [exact G|reflexivity]].
  clear. intros [] g' (c0 & c1 & G). apply wp_wfg. intros W. view G. eapply wp_operands; [exact G|reflexivity|exact G0|exact G1|].
  eapply ok_fold; [exact G|reflexivity|exact G0|exact G1|apply folds_bitor|]. apply wp_bind.
  eapply wp_mono; [|eapply ok_reassociate; [reflexivity|apply folds_bitor|exact G]]. intros [] g2 (a & b & G2). by eapply ok_or_identities.
Qed.

(** ** BitXor *)
(** The opposite comparison of a value, if it is one. *)
Lemma inverted_sem op op' ch t x y r : is_int t = true -> invertedCompare_opcode op t = Some op' -> sem2 op ch t x y = Some r -> sem2 op' false t x y = Some (Z.lxor r 1).
Proof.
  intros I E S. destruct op; try discriminate E; cbn in E; rewrite ?I in E; simplify_eq; cbn [sem2] in *; simplify_eq; f_equal;
    rewrite <- ?Z.ltb_antisym, <- ?Z.leb_antisym, ?negb_involutive; rewrite ?Z.leb_antisym; (by destruct (_ =? _)) || by destruct (_ <? _).
Qed.

Lemma wp_invertedCompare g c0 a (Q : option Z -> graph -> Prop) : wfg g -> g !! c0 = Some a -> m_type a = Int32 ->
  Q None g ->
  (forall op ch p q z na op' v g', a = mkValue op ch Int32 [p; q] z -> is_binary op = true -> is_binary op' = true -> g !! p = Some na -> is_int (m_type na) = true ->
     invertedCompare_opcode op (m_type na) = Some op' -> added g g' v (mkValue op' false Int32 [p; q] 0) -> Q (Some v) g') ->
  wp g (invertedCompare a) Q.
Proof.
  intros W G T N S. unfold invertedCompare. destruct a as [op ch t cs z]. cbn [m_type m_children m_opcode] in *. subst t.
  destruct cs as [|p cs]; [by apply wp_ret|]. destruct (validate_children _ _ p (wfg_valid g W _ _ G)) as [na Gp]; [left|].
  apply wp_bind. eapply wp_get; [exact Gp|]. destruct (invertedCompare_opcode op (m_type na)) as [op'|] eqn:E; [|by apply wp_ret].
  assert (is_binary op = true) as B by by destruct op. destruct (view2 W G B) as (p' & q & na' & nb & [= <- ->] & Gp' & Gq & Ty). simplify_eq.
  assert (is_int (m_type na) = true /\ m_type nb = m_type na) as [I Tb] by (destruct op; try discriminate E; types; done).
  assert (is_binary op' = true /\ typing op' Int32 [m_type na; m_type nb] 0 = true) as [B' Ty'].
  { destruct op; try discriminate E; cbn in E; rewrite ?I in E; simplify_eq; split; try reflexivity; cbn [typing]; rewrite Tb, I; by rewrite !bool_decide_true. }
  apply wp_bind. apply wp_add; [apply (types_validate _ _ [m_type na; m_type nb]); [cbn; repeat constructor; eauto|exact Ty']|by destruct op'|].
  intros v g' Su Gv Sv. apply wp_ret. eapply S; eauto. split_and!; auto.
Qed.

Lemma ok_xor_identities g m ch t cs z : g !! m = Some (mkValue BitXor ch t cs z) -> ok g (reduceBitXor_identities m).
Proof.
  intros G. apply wp_wfg. intros W. view G. eapply wp_operands; [exact G|reflexivity|exact G0|exact G1|]. unfold replace_or. apply wp_bind.
  match goal with |- wp g _ (fun a g' => ok g' (match a with Some v => _ | None => ?K end)) => assert (ok g K) as HK end.
  { test K; [apply Z.eqb_eq in K as ->; simplify_eq; eapply ok_int_const; [exact G|reflexivity|typ|]; intros env o _ E R; inv_runs; f_equal; rewrite Z.lxor_nilpotent; by destruct (m_type _)|].
    clear K. test K; [apply isInt_true in K as [K1 K2]; become; by rewrite K2, Z.lxor_0_r|]. eapply ok_distribute_and; [|exact G]. auto. }
  test K; [|apply wp_ret; exact HK]. apply isInt32_true in K as [K1 K2]. pose proof (view_type32 W G1 K1) as T32. apply hasInt32_int in K1.
  eapply wp_invertedCompare; [exact W|exact G0|congruence|exact HK|]. clear HK. intros op chc p q zc na op' v g' -> B B' Gp Ip E A. cbn [m_type] in *. subst t.
  pose proof A as (S & Gv & _). eapply ok_replaceWithNewValue; [by eapply lookup_weaken|exact Gv|done|done| |].
  - eapply added_safe; [exact G|exact A|]. all_safe.
  - intros env o W' En R. eapply run_sub_inv in R; [|exact W|exact S|exact G].
    apply (run2_inv W G eq_refl) in R as (n1 & n2 & x & y & r & ? & ? & Rx & Ry & Sm & ->). simplify_eq.
    apply (run2_inv W G0 B) in Rx as (n1 & n3 & x1 & y1 & r1 & ? & ? & Rx1 & Ry1 & Sm1 & [= ->]). simplify_eq.
    rewrite (run_int W G1 K1 Ry), K2 in *. cbn [sem2] in Sm. simplify_eq. eexists. split; [done|].
    assert (forall u w, run env g u (Val w) -> run env g' u (Val w)) as L by (intros u w Ru; eapply run_sub; eauto using wfg_valid).
    eapply (run2_mk W' Gv B'); [by eapply lookup_weaken|by apply L|by apply L|]. by eapply inverted_sem.
Qed.

Lemma ok_bitxor g m ch t cs z : g !! m = Some (mkValue BitXor ch t cs z) -> ok g (reduceBitXor m).
Proof.
  intros G. apply wp_wfg. intros W. view G. apply wp_bind. eapply wp_mono; [|eapply wp_commute; [exact G|reflexivity]].
  clear. intros [] g' (c0 & c1 & G). apply wp_wfg. intros W. view G. eapply wp_operands; [exact G|reflexivity|exact G0|exact G1|].
  eapply ok_fold; [exact G|reflexivity|exact G0|exact G1|apply folds_bitxor|]. apply wp_bind.
  eapply wp_mono; [|eapply ok_reassociate; [reflexivity|apply folds_bitxor|exact G]]. intros [] g2 (a & b & G2). by eapply ok_xor_identities.
Qed.

(** ** Shifts *)
Lemma ok_shl g m ch t cs z : g !! m = Some (mkValue Shl ch t cs z) -> ok g (reduceShl m).
Proof.
  intros G. apply wp_wfg. intros W. view G. eapply wp_operands; [exact G|reflexivity|exact G0|exact G1|].
  eapply ok_fold; [exact G|reflexivity|exact G0|exact G1|apply folds_shl|]. apply wp_bind.
  assert (ok g (handleShiftAmount m)) as HS by (eapply ok_shift_amount; [|exact G]; reflexivity).
  test K; [|apply wp_ret; exact HS]. apply andb_true_iff in K as [K F]. apply orb_true_iff in K as [K | K]; found K; stps;
    (test A; [|exact HS]); apply andb_true_iff in A as [A1 A2]; apply Z.eqb_eq in A2; cbn [m_type];
    match goal with |- context [Z.land ?b (if ?D then 31 else 63)] =>
      replace (Z.land b (if D then 31 else 63)) with (shift_mask (m_type n) b) by (unfold shift_mask; destruct (m_type n); try done; reflexivity) end;
    pose proof (shift_mask_range (m_type n) (asInt n0)) as Sh; (apply wp_bind; eapply wp_addIntConstant; [typ|]); new m v; rewrite shift_const in Gn by done;
    apply wp_bind, wp_insertValue; stps; become2; same_types; rewrite A2; range x1.
  - rewrite shiftl_shiftr by lia. apply wrap_id, in_type_land; [done|]. apply in_type_iff.
    assert (2 ^ shift_mask (m_type n) (asInt n0) <= 2 ^ (bits (m_type n) - 1)) by (apply Z.pow_le_mono_r; lia).
    assert (0 < 2 ^ shift_mask (m_type n) (asInt n0)) by (apply Z.pow_pos_nonneg; lia). lia.
  - by apply shl_zshr.
Qed.

Lemma sext_shifts x : Z.shiftr (s32 (Z.shiftl x 16)) 16 = s16 x /\ Z.shiftr (s32 (Z.shiftl x 24)) 24 = s8 x /\ Z.shiftr (s64 (Z.shiftl x 32)) 32 = s32 x.
Proof.
  rewrite !Z.shiftl_mul_pow2, !Z.shiftr_div_pow2 by lia. unfold s8, s16, s32, s64.
  split_and!; Z.div_mod_to_equations; lia.
Qed.

Lemma ok_sshr g m ch t cs z : g !! m = Some (mkValue SShr ch t cs z) -> ok g (reduceSShr m).
Proof.
  intros G. apply wp_wfg. intros W. view G. eapply wp_operands; [exact G|reflexivity|exact G0|exact G1|].
  eapply ok_fold; [exact G|reflexivity|exact G0|exact G1|apply folds_sshr|]. apply wp_bind.
  assert (ok g (handleShiftAmount m)) as HS by (eapply ok_shift_amount; [|exact G]; reflexivity).
  test K; [|apply wp_ret; exact HS]. apply andb_true_iff in K as [K1 K]. apply hasInt32_int in K1. found K. stps.
  assert (forall b : bool, b = hasInt32 n1 && (asInt n0 =? asInt n1) -> b = true -> hasInt n1 = true /\ asInt n1 = asInt n0) as Same.
  { intros b -> H2. apply andb_true_iff in H2 as [H2 H3]. apply Z.eqb_eq in H3. split; [by apply hasInt32_int|done]. }
  pose proof (sext_shifts) as X.
  test A.
  { apply andb_true_iff in A as [A A3]. apply andb_true_iff in A as [A A2]. apply bool_decide_eq_true in A3. apply Z.eqb_eq in A2. destruct (Same _ eq_refl A) as [S1 S2]. cbn [m_type] in *.
    stps. become1. same_types. rewrite S2, A2, !shift_mask_small by (cbn; lia). exact (proj1 (X _)). }
  clear A. test A.
  { apply andb_true_iff in A as [A A3]. apply andb_true_iff in A as [A A2]. apply bool_decide_eq_true in A3. apply Z.eqb_eq in A2. destruct (Same _ eq_refl A) as [S1 S2]. cbn [m_type] in *.
    stps. become1. same_types. rewrite S2, A2, !shift_mask_small by (cbn; lia). exact (proj1 (proj2 (X _))). }
  clear A. test A; [|exact HS].
  apply andb_true_iff in A as [A A3]. apply andb_true_iff in A as [A A2]. apply bool_decide_eq_true in A3. apply Z.eqb_eq in A2. destruct (Same _ eq_refl A) as [S1 S2]. cbn [m_type] in *.
  stps. apply wp_bind. eapply wp_insertNew1; [eassumption|typ|typ|reflexivity|]. new m v. become1. same_types. rewrite S2, A2, !shift_mask_small by (cbn; lia). exact (proj2 (proj2 (X _))).
Qed.

Lemma ok_zshr g m ch t cs z : g !! m = Some (mkValue ZShr ch t cs z) -> ok g (reduceZShr m).
Proof.
  intros G. apply wp_wfg. intros W. view G. eapply wp_operands; [exact G|reflexivity|exact G0|exact G1|].
  eapply ok_fold; [exact G|reflexivity|exact G0|exact G1|apply folds_zshr|]. eapply ok_shift_amount; [|exact G]. reflexivity.
Qed.
Lemma ok_rotr g m ch t cs z : g !! m = Some (mkValue RotR ch t cs z) -> ok g (reduceRotR m).
Proof.
  intros G. apply wp_wfg. intros W. view G. eapply wp_operands; [exact G|reflexivity|exact G0|exact G1|].
  eapply ok_fold; [exact G|reflexivity|exact G0|exact G1|apply folds_rotr|]. eapply ok_shift_amount; [|exact G]. reflexivity.
Qed.
Lemma ok_rotl g m ch t cs z : g !! m = Some (mkValue RotL ch t cs z) -> ok g (reduceRotL m).
Proof.
  intros G. apply wp_wfg. intros W. view G. eapply wp_operands; [exact G|reflexivity|exact G0|exact G1|].
  eapply ok_fold; [exact G|reflexivity|exact G0|exact G1|apply folds_rotl|]. eapply ok_shift_amount; [|exact G]. reflexivity.
Qed.
