(* ===== verification/B3ReduceCompare.v ===== *)
(** * B3ReduceCompare: the rules for extensions, truncation, Select and comparisons keep the outcomes of a procedure *)
From stdpp Require Import gmap.
From S2P Require Import Prelude B3Value B3Const B3IntRange B3Reduce B3Semantics B3Graph B3Arith B3Rules B3Steps B3ReduceBits.
Local Open Scope Z_scope.

(** ** Sign extension *)
Lemma s8_small x w : 0 <= w < 2 ^ 7 -> x mod 2 ^ 8 = w -> s8 x = w.
Proof. intros W E. transitivity (s8 w); [apply mod_eq_s8; rewrite E; symmetry; apply Z.mod_small; lia|]. unfold s8. rewrite Z.mod_small; lia. Qed.
Lemma s16_small x w : 0 <= w < 2 ^ 15 -> x mod 2 ^ 16 = w -> s16 x = w.
Proof. intros W E. transitivity (s16 w); [apply mod_eq_s16; rewrite E; symmetry; apply Z.mod_small; lia|]. unfold s16. rewrite Z.mod_small; lia. Qed.

(** A mask that clears the sign bit: the extension is the rest of the mask. *)
Lemma s8_masked x m : Z.land m 128 = 0 -> s8 (Z.land x m) = Z.land x (s32 (Z.land m 127)).
Proof.
  intros H. destruct (mask_clears x m 7 ltac:(lia) H) as [E R]. change (2 ^ 7 - 1) with 127 in *. change s32 with (wrap Int32). rewrite wrap_id.
  - apply s8_small; [|exact E]. apply (land_range_low _ _ 7); [lia|exact R].
  - apply in_type_iff. change (2 ^ (bits Int32 - 1)) with 2147483648. lia.
Qed.
Lemma s16_masked x m : Z.land m 32768 = 0 -> s16 (Z.land x m) = Z.land x (s32 (Z.land m 32767)).
Proof.
  intros H. destruct (mask_clears x m 15 ltac:(lia) H) as [E R]. change (2 ^ 15 - 1) with 32767 in *. change s32 with (wrap Int32). rewrite wrap_id.
  - apply s16_small; [|exact E]. apply (land_range_low _ _ 15); [lia|exact R].
  - apply in_type_iff. change (2 ^ (bits Int32 - 1)) with 2147483648. lia.
Qed.

Lemma s8_s16 x : s8 (s16 x) = s8 x.
Proof. unfold s8, s16. Z.div_mod_to_equations. lia. Qed.
Lemma s16_s8 x : s16 (s8 x) = s8 x.
Proof. unfold s8, s16. Z.div_mod_to_equations. lia. Qed.

(** The environment gives the results of the other values. *)
Lemma run_other env g v n x : good_env env g -> g !! v = Some n -> is_other (m_opcode n) = true -> run env g v (Val x) -> good_result n x.
Proof.
  intros E G O R. apply run_iff in R as (n' & args & G' & _ & S). simplify_eq. unfold node_sem in S. rewrite O in S. simplify_eq. by apply (E v n args).
Qed.

Lemma ok_sext8_mask g m q ch t cs z : g !! m = Some (mkValue SExt8 ch t cs z) -> ok g (reduceSExt_mask q m 255 128 isAtomicXchg8).
Proof.
  intros G. apply wp_wfg. intros W. view G. subst. eapply wp_operand; [exact G|reflexivity|exact G0|]. cbv zeta.
  assert (ok g (if negb q && isAtomicXchg8 n then replaceWithIdentity m c else skip)) as Rest.
  { test K; [|by apply wp_skip]. apply andb_true_iff in K as [_ K]. op_node K. subst. become.
    match goal with R : run _ _ c (Val ?y) |- _ => destruct (run_other _ _ _ _ _ E G0 eq_refl R) as [_ X]; cbn in X; by rewrite X end. }
  test K; [|exact Rest]. found K. stps. test F; [|exact Rest]. apply hasInt32_int in F. stps. test K.
  { apply Z.eqb_eq in K. rewire; [|done]. apply mod_eq_s8. by apply (mask_keeps _ _ 8). }
  clear K. test K; [|exact Rest]. apply Z.eqb_eq in K. apply wp_bind, wp_insertConst32. new m v. become2. by apply s8_masked.
Qed.

Lemma ok_sext16_mask g m q ch t cs z : g !! m = Some (mkValue SExt16 ch t cs z) -> ok g (reduceSExt_mask q m 65535 32768 isAtomicXchg16).
Proof.
  intros G. apply wp_wfg. intros W. view G. subst. eapply wp_operand; [exact G|reflexivity|exact G0|]. cbv zeta.
  assert (ok g (if negb q && isAtomicXchg16 n then replaceWithIdentity m c else skip)) as Rest.
  { test K; [|by apply wp_skip]. apply andb_true_iff in K as [_ K]. op_node K. subst. become.
    match goal with R : run _ _ c (Val ?y) |- _ => destruct (run_other _ _ _ _ _ E G0 eq_refl R) as [_ X]; cbn in X; by rewrite X end. }
  test K; [|exact Rest]. found K. stps. test F; [|exact Rest]. apply hasInt32_int in F. stps. test K.
  { apply Z.eqb_eq in K. rewire; [|done]. apply mod_eq_s16. by apply (mask_keeps _ _ 16). }
  clear K. test K; [|exact Rest]. apply Z.eqb_eq in K. apply wp_bind, wp_insertConst32. new m v. become2. by apply s16_masked.
Qed.

Lemma ok_sext8 g m q ch t cs z : g !! m = Some (mkValue SExt8 ch t cs z) -> ok g (reduceSExt8 q m).
Proof.
  intros G. apply wp_wfg. intros W. view G. subst. eapply wp_operand; [exact G|reflexivity|exact G0|].
  test K; [apply hasInt32_int in K; eapply ok_int_const; [exact G|reflexivity|typ|]; intros env o _ E R; inv_runs; f_equal; symmetry; apply wrap_id;
    subst; apply in_type_iff; cbn; unfold s8; Z.div_mod_to_equations; lia|].
  clear K. apply wp_bind. test K; [|apply wp_skip; by eapply ok_sext8_mask].
  apply orb_true_iff in K as [K | K]; found K; stps; (rewire; [|eapply ok_sext8_mask; apply lookup_insert_eq]); [by apply mod_eq_s8; rewrite s8_mod|by rewrite s8_s16].
Qed.

Lemma ok_sext16_8 g m q ch t cs z : g !! m = Some (mkValue SExt16 ch t cs z) -> ok g (reduceSExt16_8 q m).
Proof.
  intros G. apply wp_wfg. intros W. view G. subst. eapply wp_operand; [exact G|reflexivity|exact G0|].
  test K; [|by eapply ok_sext16_mask]. found K. become. by rewrite s16_s8.
Qed.
Lemma ok_sext16 g m q ch t cs z : g !! m = Some (mkValue SExt16 ch t cs z) -> ok g (reduceSExt16 q m).
Proof.
  intros G. apply wp_wfg. intros W. view G. subst. eapply wp_operand; [exact G|reflexivity|exact G0|].
  test K; [apply hasInt32_int in K; eapply ok_int_const; [exact G|reflexivity|typ|]; intros env o _ E R; inv_runs; f_equal; symmetry; apply wrap_id;
    subst; apply in_type_iff; cbn; unfold s16; Z.div_mod_to_equations; lia|].
  clear K. apply wp_bind. test K; [|apply wp_skip; by eapply ok_sext16_8].
  found K; stps; (rewire; [|eapply ok_sext16_8; apply lookup_insert_eq]). by apply mod_eq_s16; rewrite s16_mod.
Qed.

Lemma ok_sext32 g m ch t cs z : g !! m = Some (mkValue SExt32 ch t cs z) -> ok g (reduceSExt32 m).
Proof.
  intros G. apply wp_wfg. intros W. view G. subst. eapply wp_operand; [exact G|reflexivity|exact G0|].
  test K.
  { apply hasInt32_int in K. pose proof (proj1 (view_int W G0 K)) as B. rewrite T in B. eapply ok_int_const; [exact G|reflexivity|typ|].
    intros env o _ E R. inv_runs. f_equal. symmetry. apply wrap_id. apply in_type_iff in B. apply in_type_iff. cbn in *. lia. }
  clear K. test K; [|by apply wp_skip]. found K. stps. test F; [|by apply wp_skip]. apply andb_true_iff in F as [F F1]. apply Z.eqb_eq in F1.
  pose proof (view_type32 W G2 F) as T32. apply hasInt32_int in F. pose proof (proj1 (view_int W G2 F)) as B. rewrite T32 in B.
  apply (mask32 _ 31) in F1; [|done|lia]. become1. symmetry. apply Z.mod_small.
  match goal with |- 0 <= Z.land ?u ?w < _ => pose proof (land_range_low u w 31 ltac:(lia) F1); lia end.
Qed.

Lemma ok_zext32 g m ch t cs z : g !! m = Some (mkValue ZExt32 ch t cs z) -> ok g (reduceZExt32 m).
Proof.
  intros G. apply wp_wfg. intros W. view G. subst. eapply wp_operand; [exact G|reflexivity|exact G0|]. test K; [|by apply wp_skip].
  apply hasInt32_int in K. eapply ok_int_const; [exact G|reflexivity|typ|]. intros env o _ E R. inv_runs. f_equal. symmetry. apply wrap_id.
  apply in_type_iff. cbn. unfold u32. Z.div_mod_to_equations. lia.
Qed.

(** ** Truncation *)
Lemma s64_mod32 x : s64 x mod 2 ^ 32 = x mod 2 ^ 32.
Proof. unfold s64. Z.div_mod_to_equations. lia. Qed.
Lemma low_half_zero c : Z.land c (2 ^ 32 - 1) = 0 -> c mod 2 ^ 32 = 0.
Proof. change (2 ^ 32 - 1) with (Z.ones 32). by rewrite Z.land_ones by lia. Qed.
Lemma trunc_add x c : Z.land c (2 ^ 32 - 1) = 0 -> s32 (s64 (x + c)) = s32 x /\ s32 (s64 (x - c)) = s32 x.
Proof. intros H%low_half_zero. split; apply mod_eq_s32; rewrite s64_mod32; Z.div_mod_to_equations; lia. Qed.
Lemma trunc_bits x c : Z.land c (2 ^ 32 - 1) = 0 -> s32 (Z.lor x c) = s32 x /\ s32 (Z.lxor x c) = s32 x.
Proof.
  intros H. split; apply mod_eq_s32; rewrite <- !(Z.land_ones _ 32) by lia; [by apply land_or_clear|by apply land_xor_clear].
Qed.

Lemma ok_trunc g m ch t cs z : g !! m = Some (mkValue Trunc ch t cs z) -> ok g (reduceTrunc m).
Proof.
  intros G. apply wp_wfg. intros W. view G. subst. eapply wp_operand; [exact G|reflexivity|exact G0|].
  test K; [apply hasInt64_int in K; eapply ok_int_const; [exact G|reflexivity|typ|]; intros env o _ E R; inv_runs; f_equal; symmetry; apply (wrap_wrap Int32)|].
  clear K. test K.
  { apply orb_true_iff in K as [K | K]; found K; stps; become; match goal with R : run _ _ _ (Val ?y) |- _ => range y end; symmetry; change s32 with (wrap Int32).
    - fits.
    - change u32 with (unsigned Int32). rewrite wrap_unsigned. fits. }
  clear K. destruct n as [op ch0 t0 cs0 z0]; cbn [m_opcode m_type] in *. subst t0.
  destruct op; try (by apply wp_skip); view G0; stps; (test F; [|by apply wp_skip]); apply andb_true_iff in F as [F F1]; apply hasInt64_int in F; apply Z.eqb_eq in F1;
    stps; (rewire; [|done]).
  - rewrite H. apply (proj1 (trunc_add _ _ F1)).
  - rewrite H. apply (proj2 (trunc_add _ _ F1)).
  - apply (proj1 (trunc_bits _ _ F1)).
  - apply (proj2 (trunc_bits _ _ F1)).
Qed.

(** ** Values that are booleans *)
Definition boolean (g : graph) (v : Z) : Prop := forall env x, good_env env g -> run env g v (Val x) -> x = 0 \/ x = 1.

Lemma returnsBool_total f p v : wfg (m_vector p) -> down f (m_vector p) v = true -> exists b, returnsBool_loop f p v = Some b.
Proof.
  intros W. revert v. induction f as [|f IH]; intros v D; [discriminate|]. destruct (m_vector p !! v) as [[op ch t cs z]|] eqn:G; [|cbn in D; by rewrite G in D].
  assert (forall c, c ∈ cs -> exists b, returnsBool_loop f p c = Some b) as IHc by (intros c I; apply IH; by eapply down_children). clear IH D.
  cbn [returnsBool_loop]. rewrite G. cbn -[returnsBool_loop lookup]. if_cases; [eauto|]. destruct op; eauto.
  - view G. cbn. apply IHc. set_solver.
  - view G. cbn. destruct (IHc c) as [b0 E0]; [set_solver|]. destruct (IHc c0) as [b1 E1]; [set_solver|]. rewrite E0. cbn. destruct b0; eauto.
  - view G. cbn. destruct (IHc c) as [b0 E0]; [set_solver|]. destruct (IHc c0) as [b1 E1]; [set_solver|]. rewrite E0. cbn. destruct b0; eauto.
  - view G. cbn. destruct (IHc c) as [b0 E0]; [set_solver|]. destruct (IHc c0) as [b1 E1]; [set_solver|]. rewrite E0. cbn. destruct b0; eauto.
  - destruct (view_select W G) as (c & a & b & nc & na & nb & -> & _). cbn. destruct (IHc a) as [b0 E0]; [set_solver|]. destruct (IHc b) as [b1 E1]; [set_solver|].
    rewrite E0. cbn. destruct b0; eauto.
Qed.

Lemma bit_bool x y : x = 0 \/ x = 1 -> Z.land x y = 0 \/ Z.land x y = 1.
Proof. intros [-> | ->]; [auto|]. rewrite Z.land_comm. assert (Z.land y 1 = y mod 2) as -> by (apply (Z.land_ones y 1); lia). Z.div_mod_to_equations. lia. Qed.
Lemma bool_value_bool b : bool_value b = 0 \/ bool_value b = 1.
Proof. destruct b; auto. Qed.

Lemma returnsBool_sound f p v : wfg (m_vector p) -> returnsBool_loop f p v = Some true -> boolean (m_vector p) v.
Proof.
  intros W. revert v. induction f as [|f IH]; intros v E env r En R; [discriminate|]. cbn [returnsBool_loop] in E.
  apply bind_Some in E as ([op ch t cs z] & G & E). cbn -[returnsBool_loop lookup] in E. destruct (bool_decide (t = Int32)); [|discriminate].
  assert (forall i, (cs !! i) ≫= returnsBool_loop f p = Some true -> exists c, cs !! i = Some c /\ forall x, run env (m_vector p) c (Val x) -> x = 0 \/ x = 1) as IHc.
  { intros i H. apply bind_Some in H as (c & Hc & H). exists c. split; [done|]. intros x Rx. by eapply IH. }
  destruct (is_other op) eqn:O.
  { destruct (run_other _ _ _ _ _ En G O R) as [_ X]. destruct op; done. }
  destruct op; try discriminate; try solve [destruct (view2 W G eq_refl) as (a & b & na & nb & -> & _); inv_run R; apply bool_value_bool].
  - destruct (view1 W G eq_refl) as (a & na & -> & _). destruct (IHc _ E) as (c & [= <-] & B). inv_run R. auto.
  - apply (run_const _ _ _ _ _ _ _ _ _ G) in R; [|auto|by eapply wfg_valid]. simplify_eq. cbn in E. unfold asInt in E. cbn in E. destruct (_ || _) eqn:Z; [|done]. bool_prop. lia.
  - destruct (view2 W G eq_refl) as (a & b & na & nb & -> & _). inv_run R. apply bind_Some in E as ([|] & E0 & E).
    + destruct (IHc _ E0) as (c & [= <-] & B). apply bit_bool. eauto.
    + destruct (IHc _ E) as (c & [= <-] & B). rewrite Z.land_comm. apply bit_bool. eauto.
  - destruct (view2 W G eq_refl) as (a & b & na & nb & -> & _). inv_run R. apply bind_Some in E as ([|] & E0 & E); [|discriminate].
    destruct (IHc _ E0) as (c & [= <-] & B). destruct (IHc _ E) as (c' & [= <-] & B'). destruct (B _ R0) as [-> | ->], (B' _ R1) as [-> | ->]; cbn; auto.
  - destruct (view2 W G eq_refl) as (a & b & na & nb & -> & _). inv_run R. apply bind_Some in E as ([|] & E0 & E); [|discriminate].
    destruct (IHc _ E0) as (c & [= <-] & B). destruct (IHc _ E) as (c' & [= <-] & B'). destruct (B _ R0) as [-> | ->], (B' _ R1) as [-> | ->]; cbn; auto.
  - destruct (view_select W G) as (c & a & b & nc & na & nb & -> & _). apply (run_select _ _ _ _ _ _ _ _ _ _ G) in R as (x & y & w & Rc & Ra & Rb & [= ->]).
    apply bind_Some in E as ([|] & E0 & E); [|discriminate]. destruct (IHc _ E0) as (d & [= <-] & B). destruct (IHc _ E) as (d' & [= <-] & B'). if_cases; eauto.
Qed.

Lemma wp_returnsBool g v n (Q : bool -> graph -> Prop) : g !! v = Some n -> (forall b, (b = true -> boolean g v) -> Q b g) -> wp g (returnsBool v) Q.
Proof.
  intros G H p <- W. pose proof (wf_wfg p W) as Wg. destruct (wf_down p W v n G) as [f D]. apply down_size in D.
  destruct (returnsBool_total _ _ _ Wg D) as [b E]. exists b, p. unfold returnsBool. rewrite E. split_and!; [done|done|reflexivity|].
  apply H. intros ->. by eapply returnsBool_sound.
Qed.

(** ** Select *)
Lemma set_select_put g m ch t c x y z c' x' y' (Q : unit -> graph -> Prop) : g !! m = Some (mkValue Select ch t [c; x; y] z) ->
  wp g (put m (mkValue Select ch t [c'; x'; y'] z)) Q -> wp g (set_select m c' x' y') Q.
Proof.
  intros G H. apply wp_ext with (c' := put m (mkValue Select ch t [c'; x'; y'] z) ;;; changed).
  - intros p <-. unfold set_select.
    rewrite <- (bind_assoc (set_child m 0 c') (fun _ => set_child m 1 x') (fun _ => set_child m 2 y' ;;; changed)).
    rewrite <- (bind_assoc (set_child m 0 c' ;;; set_child m 1 x') (fun _ => set_child m 2 y') (fun _ => changed)). apply bind_ext; [|done].
    rewrite <- (put_put p m _ (mkValue Select ch t [c'; x'; y] z) _ G). apply bind_ext; [|intros u p' E; eapply set_child_put; [by eapply put_after|done]].
    rewrite <- (put_put p m _ (mkValue Select ch t [c'; x; y] z) _ G). apply bind_ext; [by eapply set_child_put|].
    intros u p' E. eapply set_child_put; [by eapply put_after|done].
  - apply wp_bind. eapply wp_mono; [|exact H]. intros [] g' HQ. by apply wp_changed.
Qed.

Lemma wp_put3 g m ch t cs z c x y nc nx ny (Q : unit -> graph -> Prop) :
  g !! m = Some (mkValue Select ch t cs z) -> g !! c = Some nc -> g !! x = Some nx -> g !! y = Some ny -> Safe g m c -> Safe g m x -> Safe g m y ->
  is_int (m_type nc) = true -> m_type nx = t -> m_type ny = t -> t <> Void ->
  (forall env o, wfg g -> good_env env g -> run env g m o ->
     exists w u v, run env g c (Val w) /\ run env g x (Val u) /\ run env g y (Val v) /\ o = Val (if w =? 0 then v else u)) ->
  Q tt (<[m := mkValue Select ch t [c; x; y] z]> g) -> wp g (put m (mkValue Select ch t [c; x; y] z)) Q.
Proof.
  intros G Gc Gx Gy Sc Sx Sy I Tx Ty N R HQ. apply wp_wfg. intros W. eapply wp_put; [exact G|done| |done| | |exact HQ].
  - apply (types_validate _ _ [m_type nc; t; t]); [cbn; repeat constructor; eauto|]. cbn [typing m_opcode m_type]. rewrite I, (bool_decide_true (t = t)), bool_decide_false; done.
  - cbn. intros k H. apply list_elem_of_In in H as [<- | [<- | [<- | []]]]; done.
  - intros env o E Rm. destruct (R env o W E Rm) as (w & u & v & Rc & Rx & Ry & ->). exists [w; u; v]. split; [by repeat constructor|reflexivity].
Qed.

(** The condition [c] becomes [c'], and the two values change places when [sw]. *)
Lemma ok_condition g m ch t c x y z c' nc' (sw : bool) : g !! m = Some (mkValue Select ch t [c; x; y] z) -> g !! c' = Some nc' -> is_int (m_type nc') = true -> Safe g m c' ->
  (forall env w, wfg g -> good_env env g -> run env g c (Val w) -> exists w', run env g c' (Val w') /\ (w' =? 0) = (if sw then negb (w =? 0) else w =? 0)) ->
  ok g (put m (mkValue Select ch t [c'; (if sw then y else x); (if sw then x else y)] z)).
Proof.
  intros G Gc' I' Sc' H. apply wp_wfg. intros W. destruct (view_select W G) as (? & ? & ? & nc & nx & ny & [= <- <- <-] & Gc & Gx & Gy & I & Tx & Ty & N).
  assert (Safe g m x /\ Safe g m y) as (Sx & Sy) by (split_and!; safe).
  eapply (wp_put3 _ _ _ _ _ _ _ _ _ _ (if sw then ny else nx) (if sw then nx else ny)); [exact G|exact Gc'|destruct sw; eauto..| |done].
  intros env o _ E R. apply (run_select _ _ _ _ _ _ _ _ _ _ G) in R as (u & v & w & Rc & Ra & Rb & ->). destruct (H env w W E Rc) as (w' & Rc' & Hw).
  exists w', (if sw then v else u), (if sw then u else v). split_and!; [done|by destruct sw..|]. rewrite Hw. destruct sw; by destruct (w =? 0).
Qed.

Lemma odd_mask w k : Z.odd k = true -> w = 0 \/ w = 1 -> (w =? 0) = (Z.land w k =? 0).
Proof.
  intros O [-> | ->]; [done|]. rewrite Z.land_comm. assert (Z.land k 1 = k mod 2) as -> by (apply (Z.land_ones k 1); lia). by rewrite Zmod_odd, O.
Qed.

Lemma ok_select_bits g m ch t c x y z nc : g !! m = Some (mkValue Select ch t [c; x; y] z) -> g !! c = Some nc ->
  ok g (masked <- (if is_op nc BitAnd then a1 <- child_value nc 1 ;; if hasInt a1 && Z.odd (asInt a1) then c <- child nc 0 ;; returnsBool c else ret false else ret false) ;;
        if masked : bool then c <- child nc 0 ;; set_child m 0 c ;;; changed else if x =? y then replaceWithIdentity m x else skip).
Proof.
  intros G Gc. apply wp_wfg. intros W. destruct (view_select W G) as (? & ? & ? & ? & nx & ny & [= <- <- <-] & Gc' & Gx & Gy & I & Tx & Ty & N). simplify_eq.
  assert (ok g (if x =? y then replaceWithIdentity m x else skip)) as Same.
  { test K; [|by apply wp_skip]. apply Z.eqb_eq in K as <-. eapply ok_replaceWithIdentity; [exact G|exact Gx|done|done|safe|]. intros env o _ E R.
    apply (run_select _ _ _ _ _ _ _ _ _ _ G) in R as (u & v & w & Rc & Ra & Rb & ->). pose proof (run_det _ _ _ _ _ Ra Rb) as [= <-]. eexists. split; [done|]. by destruct (w =? 0). }
  apply wp_bind. test K; [|apply wp_ret; exact Same]. found K. stps. test F; [|apply wp_ret; exact Same]. apply andb_true_iff in F as [F1 F2]. stps.
  eapply wp_returnsBool; [eassumption|]. intros [|] Hb; [|exact Same]. specialize (Hb eq_refl). stps. eapply set_child_changed; [exact G|reflexivity|].
  eapply (ok_condition _ _ _ _ _ _ _ _ _ _ false); [exact G|eassumption|typ|safe|]. intros env w _ E R. inv_runs.
  eexists. split; [eassumption|]. apply odd_mask; [done|]. by eapply Hb.
Qed.

Lemma ok_select g m ch t cs z : g !! m = Some (mkValue Select ch t cs z) -> ok g (reduceSelect m).
Proof.
  intros G. apply wp_wfg. intros W. destruct (view_select W G) as (c & x & y & nc & nx & ny & -> & Gc & Gx & Gy & I & Tx & Ty & N).
  eapply wp_operand; [exact G|reflexivity|exact Gc|]. stps. test K.
  { apply hasInt32_int in K. destruct (asInt nc =? 0) eqn:E0; (eapply ok_replaceWithIdentity; [exact G|eassumption|done|done|safe|]); intros env o _ E R;
      apply (run_select _ _ _ _ _ _ _ _ _ _ G) in R as (u & v & w & Rc & Ra & Rb & ->); rewrite (run_int W Gc K Rc), E0; eexists; (split; [done|]); done. }
  clear K. pose proof (ok_select_bits _ _ _ _ _ _ _ _ _ G Gc) as Bits.
  apply wp_bind. match goal with |- wp g _ (fun b g' => ok g' (if b then _ else ?K)) => assert (ok g K) as Rest end.
  { apply wp_bind. test K; [|apply wp_ret; exact Bits]. found K. stps. test F; [|apply wp_ret; exact Bits]. apply isInt32_true in F as [F1 F2]. apply hasInt32_int in F1. stps.
    eapply wp_returnsBool; [eassumption|]. intros [|] Hb; [|exact Bits]. specialize (Hb eq_refl). stps. eapply set_select_put; [exact G|].
    eapply (ok_condition _ _ _ _ _ _ _ _ _ _ true); [exact G|eassumption|typ|safe|]. intros env w _ E R. inv_runs.
    eexists. split; [eassumption|]. rewrite F2. edestruct Hb as [-> | ->]; [exact E|eassumption|done|done]. }
  test K; [|apply wp_ret; exact Rest]. found K. stps. test F; [|exact Rest]. apply isInt_true in F as [F1 F2]. stps. eapply set_select_put; [exact G|].
  eapply (ok_condition _ _ _ _ _ _ _ _ _ _ true); [exact G|eassumption|typ|safe|]. intros env w _ E R. inv_runs.
  eexists. split; [eassumption|]. rewrite F2. by destruct (_ =? 0).
Qed.

(** ** Comparisons *)
Definition tri_result (r : TriState) : option Z := match r with FalseTriState => Some 0 | TrueTriState => Some 1 | MixedTriState => None end.

Lemma ok_bool_const g m n r k : g !! m = Some n -> m_type n = Int32 ->
  (forall z env o, tri_result r = Some z -> wfg g -> good_env env g -> run env g m o -> o = Val z) -> ok g k -> ok g (replace_or m (addBoolConstant r) k).
Proof.
  intros G T H K. assert (forall z, tri_result r = Some z -> s32 z = z -> ok g (v <- addIntConstant Int32 z ;; replaceWithNewValue m v)) as C.
  { intros z E S. eapply ok_int_const; [exact G|exact T|done|]. intros env o W En R. rewrite (H z env o E W En R). f_equal. symmetry. exact S. }
  destruct r; [apply wp_ext with (c' := v <- addIntConstant Int32 0 ;; replaceWithNewValue m v)|apply wp_ext with (c' := v <- addIntConstant Int32 1 ;; replaceWithNewValue m v)|exact K];
    [intros p _; unfold replace_or, addBoolConstant, bind; by destruct (addIntConstant _ _ p) as [[??]|]|by apply C|
     intros p _; unfold replace_or, addBoolConstant, bind; by destruct (addIntConstant _ _ p) as [[??]|]|by apply C].
Qed.

(** What is known of a value that a comparison asks for a constant. *)
Definition known (t : B3Type) (n : Value) (x : Z) : Prop :=
  (hasInt32 n = true -> m_type n = Int32) /\ (hasInt64 n = true -> m_type n = Int64) /\ m_type n = t /\ in_type t x = true /\ (hasInt n = true -> asInt n = x).

Lemma known_run env g v n t x : wfg g -> good_env env g -> g !! v = Some n -> m_type n = t -> is_int t = true -> run env g v (Val x) -> known t n x.
Proof.
  intros W E G T I R. split_and!; [apply (view_type32 W G)|apply (view_type64 W G)|done|rewrite <- T in *; by apply (in_range W E G)|].
  intros H. symmetry. by eapply (run_int W G H).
Qed.

(** [f] is the comparison [r] of a constant with another value, where it gives an answer. *)
Definition decides (f : Value -> Value -> TriState) (r : B3Type -> Z -> Z -> bool) : Prop :=
  forall t a b x y z, known t a x -> known t b y -> tri_result (f a b) = Some z -> bool_value (r t x y) = z.

Lemma decides_fold f32 f64 r :
  (forall v b y z, known Int32 b y -> in_type Int32 v = true -> tri_result (f32 v b) = Some z -> bool_value (r Int32 v y) = z) ->
  (forall v b y z, known Int64 b y -> in_type Int64 v = true -> tri_result (f64 v b) = Some z -> bool_value (r Int64 v y) = z) -> decides (fold_tri f32 f64) r.
Proof.
  intros H32 H64 t [oa cha ta csa za] b x y z (A1 & A2 & A3 & A4 & A5) B E. unfold fold_tri, hasInt, hasInt32, hasInt64, asInt in *. cbn in *.
  destruct oa; try discriminate E; [specialize (A1 eq_refl)|specialize (A2 eq_refl)]; specialize (A5 eq_refl); subst; eauto.
Qed.

Lemma tri_const32 b y (f : Z -> bool) z : known Int32 b y -> tri_result (tri_of (Const32Value.if_const b f)) = Some z -> bool_value (f y) = z.
Proof.
  intros (_ & _ & _ & _ & K). unfold Const32Value.if_const. destruct (hasInt32 b) eqn:H; [|discriminate]. rewrite K by (by apply hasInt32_int).
  cbn. by destruct (f y); intros [= <-].
Qed.
Lemma tri_const64 b y (f : Z -> bool) z : known Int64 b y -> tri_result (tri_of (Const64Value.if_const b f)) = Some z -> bool_value (f y) = z.
Proof.
  intros (_ & _ & _ & _ & K). unfold Const64Value.if_const. destruct (hasInt64 b) eqn:H; [|discriminate]. rewrite K by (by apply hasInt64_int).
  cbn. by destruct (f y); intros [= <-].
Qed.

(** The answer of one constant at the end of the range, or of two. *)
Ltac decide_tri :=
  apply decides_fold; intros v b y z K V E; match type of E with tri_result (?f v b) = _ => unfold f in E end;
  lazymatch type of E with
  | tri_result (if ?c then _ else _) = _ =>
    destruct c eqn:T; [destruct K as (_ & _ & _ & Y & _); apply Z.eqb_eq in T; apply in_type_iff in V, Y; cbn [bits] in *; injection E as <-|]
  | _ => idtac
  end; try first [exact (tri_const32 b y _ z K E) | exact (tri_const64 b y _ z K E)].

Lemma decides_equal : decides equalConstant (fun _ x y => x =? y).
Proof. decide_tri. Qed.
Lemma decides_notEqual : decides notEqualConstant (fun _ x y => negb (x =? y)).
Proof. decide_tri. Qed.
Lemma decides_lessThan : decides lessThanConstant (fun _ x y => x <? y).
Proof. decide_tri; rewrite (proj2 (Z.ltb_ge _ _)); auto; lia. Qed.
Lemma decides_greaterThan : decides greaterThanConstant (fun _ x y => y <? x).
Proof. decide_tri; rewrite (proj2 (Z.ltb_ge _ _)); auto; lia. Qed.
Lemma decides_lessEqual : decides lessEqualConstant (fun _ x y => x <=? y).
Proof. decide_tri; rewrite (proj2 (Z.leb_le _ _)); auto; lia. Qed.
Lemma decides_greaterEqual : decides greaterEqualConstant (fun _ x y => y <=? x).
Proof. decide_tri; rewrite (proj2 (Z.leb_le _ _)); auto; lia. Qed.
Lemma decides_above : decides aboveConstant (fun t x y => unsigned t y <? unsigned t x).
Proof. decide_tri; cbn [unsigned]; rewrite (proj2 (Z.ltb_ge _ _)); auto; rewrite T; unfold u32, u64; Z.div_mod_to_equations; lia. Qed.
Lemma decides_below : decides belowConstant (fun t x y => unsigned t x <? unsigned t y).
Proof. decide_tri; cbn [unsigned]; rewrite (proj2 (Z.ltb_ge _ _)); auto; rewrite T; unfold u32, u64; Z.div_mod_to_equations; lia. Qed.
Lemma decides_aboveEqual : decides aboveEqualConstant (fun t x y => unsigned t y <=? unsigned t x).
Proof. decide_tri; cbn [unsigned]; rewrite (proj2 (Z.leb_le _ _)); auto; rewrite T; unfold u32, u64; Z.div_mod_to_equations; lia. Qed.
Lemma decides_belowEqual : decides belowEqualConstant (fun t x y => unsigned t x <=? unsigned t y).
Proof. decide_tri; cbn [unsigned]; rewrite (proj2 (Z.leb_le _ _)); auto; rewrite T; unfold u32, u64; Z.div_mod_to_equations; lia. Qed.

Lemma compare_sound op ch t nx ny x y r z : compareConstant op nx ny = Some r -> known t nx x -> known t ny y -> tri_result r = Some z -> sem2 op ch t x y = Some z.
Proof.
  intros C X Y E. destruct op; try discriminate C; injection C as <-; cbn [sem2]; f_equal;
    eauto using decides_lessThan, decides_greaterThan, decides_lessEqual, decides_greaterEqual, decides_above, decides_below, decides_aboveEqual, decides_belowEqual.
Qed.

Lemma boolean_added g g' c n v k : wfg g -> g !! c = Some n -> added g g' v k -> boolean g c -> boolean g' c.
Proof. intros W G (S & _) B env x E R. apply (B env); [by eapply good_env_sub|]. by eapply run_sub_inv. Qed.

Lemma bool_not x : x = 0 \/ x = 1 -> bool_value (x =? 0) = Z.lxor x 1 /\ bool_value (x =? 1) = x /\ bool_value (negb (x =? 0)) = x /\ bool_value (negb (x =? 1)) = bool_value (x =? 0).
Proof. by intros [-> | ->]. Qed.

Lemma ok_equal g m ch t cs z : g !! m = Some (mkValue Equal ch t cs z) -> ok g (reduceEqual m).
Proof.
  intros G. apply wp_wfg. intros W. view G. apply wp_bind. eapply wp_mono; [|eapply wp_commute; [exact G|reflexivity]].
  clear. intros [] g' (c0 & c1 & G). apply wp_wfg. intros W. view G. subst. eapply wp_operands; [exact G|reflexivity|exact G0|exact G1|].
  apply wp_bind. eapply wp_returnsBool; [exact G0|]. intros b Hb. test K.
  { apply andb_true_iff in K as [-> K]. specialize (Hb eq_refl). apply isInt32_true in K as [K1 K2]. pose proof (view_type32 W G1 K1) as T32. apply hasInt32_int in K1.
    assert (m_type n = Int32) by congruence. apply wp_bind, wp_insertConst32. intros v g1 A. pose proof (boolean_added _ _ _ _ _ _ W G0 A Hb) as Hb'. new_at m g1 A.
    become2. rewrite K2. apply bool_not. by eapply Hb'. }
  clear K. test K.
  { apply andb_true_iff in K as [-> K]. specialize (Hb eq_refl). apply isInt32_true in K as [K1 K2]. pose proof (view_type32 W G1 K1) as T32. apply hasInt32_int in K1.
    assert (m_type n = Int32) by congruence. become. rewrite K2. symmetry. apply bool_not. by eapply Hb. }
  eapply ok_bool_const; [exact G|done| |by apply wp_skip]. intros r env o Tr _ E R. inv_run R. f_equal.
  eapply decides_equal; [| |exact Tr]; (eapply known_run; [exact W|exact E|eassumption|reflexivity || typ|typ|eassumption]).
Qed.

Lemma ok_notequal g m ch t cs z : g !! m = Some (mkValue NotEqual ch t cs z) -> ok g (reduceNotEqual m).
Proof.
  intros G. apply wp_wfg. intros W. view G. apply wp_bind. eapply wp_mono; [|eapply wp_commute; [exact G|reflexivity]].
  clear. intros [] g' (c0 & c1 & G). apply wp_wfg. intros W. view G. subst. eapply wp_operands; [exact G|reflexivity|exact G0|exact G1|].
  apply wp_bind. eapply wp_returnsBool; [exact G0|]. intros b Hb. test K.
  { apply andb_true_iff in K as [-> K]. specialize (Hb eq_refl). apply isInt32_true in K as [K1 K2]. pose proof (view_type32 W G1 K1) as T32. apply hasInt32_int in K1.
    assert (m_type n = Int32) by congruence. become. rewrite K2. symmetry. apply bool_not. by eapply Hb. }
  clear K. test K.
  { apply andb_true_iff in K as [-> K]. specialize (Hb eq_refl). apply isInt32_true in K as [K1 K2]. pose proof (view_type32 W G1 K1) as T32. apply hasInt32_int in K1.
    assert (m_type n = Int32) by congruence. apply wp_bind, wp_insertConst32. intros v g1 A. pose proof (boolean_added _ _ _ _ _ _ W G0 A Hb) as Hb'. new_at m g1 A.
    become2. rewrite K2. apply bool_not. by eapply Hb'. }
  eapply ok_bool_const; [exact G|done| |by apply wp_skip]. intros r env o Tr _ E R. inv_run R. f_equal.
  eapply decides_notEqual; [| |exact Tr]; (eapply known_run; [exact W|exact E|eassumption|reflexivity || typ|typ|eassumption]).
Qed.

Definition is_order (op : Opcode) : bool := match op with LessThan | GreaterThan | LessEqual | GreaterEqual | Above | Below | AboveEqual | BelowEqual => true | _ => false end.

Lemma flip_sem op ch t x y : is_order op = true -> sem2 (flip op) ch t y x = sem2 op ch t x y.
Proof. by destruct op. Qed.
Lemma flip_order op : is_order op = true -> is_order (flip op) = true.
Proof. by destruct op. Qed.

(** The comparison [op] of [x] and [y], which has the results of the current value. *)
Lemma ok_compare g m op0 ch t cs z op x y nx ny : g !! m = Some (mkValue op0 ch t cs z) -> is_order op = true -> t = Int32 ->
  g !! x = Some nx -> g !! y = Some ny -> is_int (m_type nx) = true -> m_type ny = m_type nx -> Safe g m x -> Safe g m y ->
  (forall env o, wfg g -> good_env env g -> run env g m o -> exists u v r, run env g x (Val u) /\ run env g y (Val v) /\ sem2 op false (m_type nx) u v = Some r /\ o = Val r) ->
  ok g (result <- need (compareConstant op nx ny) ;; replace_or m (addBoolConstant result) (if bool_decide (op <> op0) then replaceWithNew m op [x; y] else skip)).
Proof.
  intros G O -> Gx Gy I T Sx Sy H. assert (exists r, compareConstant op nx ny = Some r) as [r C] by (destruct op; try discriminate O; cbn; eauto).
  apply wp_bind. eapply wp_need; [exact C|]. eapply ok_bool_const; [exact G|done| |].
  - intros k env o Tr W E R. destruct (H env o W E R) as (u & v & w & Ru & Rv & Sm & ->). f_equal.
    assert (sem2 op false (m_type nx) u v = Some k); [|congruence]. eapply compare_sound; [exact C| | |exact Tr]; by eapply known_run.
  - if_cases; [|by apply wp_skip]. eapply ok_new2; [exact G|done|exact Gx|exact Gy|done|done|by destruct op|by destruct op| |exact H].
    destruct op; try discriminate O; cbn [typing m_type]; by rewrite I, T, !bool_decide_true.
Qed.

Lemma ok_comparison g m op ch t cs z : is_order op = true -> g !! m = Some (mkValue op ch t cs z) -> ok g (reduceComparison m).
Proof.
  intros O G. apply wp_wfg. intros W. assert (is_binary op = true) as B by by destruct op.
  destruct (view2 W G B) as (a & b & na & nb & -> & Ga & Gb & T).
  assert (t = Int32 /\ is_int (m_type na) = true /\ m_type nb = m_type na) as (-> & I & Tb) by (destruct op; try discriminate O; types; done).
  eapply wp_operands; [exact G|reflexivity|exact Ga|exact Gb|].
  assert (forall env o, run env g m o -> exists u v r, run env g a (Val u) /\ run env g b (Val v) /\ sem2 op false (m_type na) u v = Some r /\ o = Val r) as H.
  { intros env o R. apply (run2_inv W G B) in R as (? & ? & u & v & r & ? & ? & Ru & Rv & Sm & ->). simplify_eq. exists u, v, r. split_and!; auto. by destruct op. }
  destruct (shouldSwapBinaryOperands a b na nb).
  - eapply ok_compare; [exact G|by apply flip_order|done|exact Gb|exact Ga|by rewrite Tb|done|safe|safe|]. intros env o _ E R.
    destruct (H env o R) as (u & v & r & Ru & Rv & Sm & ->). exists v, u, r. rewrite Tb, flip_sem; auto.
  - eapply ok_compare; [exact G|done|done|exact Ga|exact Gb|done|done|safe|safe|]. intros env o _ E R. apply (H env o R).
Qed.
