(* ===== verification/B3ReduceDiv.v ===== *)
(** * B3ReduceDiv: division by a constant is a multiplication, a shift and a correction; the rules for Div, UDiv, Mod and UMod
    keep the outcomes of a procedure

    [computeDivisionMagic] ends, its unsigned variables never wrap around, and the high part of the product with the number it
    finds, shifted and rounded towards zero, is the quotient (Hacker's Delight, 10-1). *)
From Stdlib Require Import Znumtheory.
From stdpp Require Import gmap.
From S2P Require Import Prelude B3Value B3Const B3IntRange B3DivisionMagic B3Reduce B3Semantics B3Graph B3Arith B3Rules B3Steps.
Local Open Scope Z_scope.

(** ** The numbers of the division *)
Section magic.
Context (t : B3Type).
Local Notation W := (bits t).
Local Notation N := (2 ^ (W - 1)).

Lemma half_big : 2 ^ 31 <= N.
Proof. by destruct t. Qed.
Lemma width : 32 <= W.
Proof. by destruct t. Qed.
Lemma half_even : N = 2 * 2 ^ (W - 2).
Proof. by destruct t. Qed.

(** A divisor: its absolute value [ad] is at least 2; [top] is the largest dividend of its sign, plus one; [anc] is the largest
    number below it that is one less than a multiple. *)
Context (ad top : Z).
Definition divisor_ok : Prop := 2 <= ad <= N /\ (top = N \/ top = N + 1) /\ ad < top.
Local Notation anc := (top - 1 - top mod ad).
Context (D : divisor_ok).

Lemma anc_facts : anc + 1 = ad * (top / ad) /\ ad - 1 <= anc /\ top - ad <= anc <= N /\ N <= 2 * anc /\ (ad = N -> anc <= N - 1).
Proof.
  destruct D as (A & T & L). pose proof half_big. pose proof (Z.div_mod top ad ltac:(lia)) as E. pose proof (Z.mod_pos_bound top ad ltac:(lia)) as B. pose proof half_even.
  assert (1 <= top / ad) by (apply Z.div_le_lower_bound; lia). assert (ad <= ad * (top / ad)) by nia.
  assert (anc + 1 = ad * (top / ad)) by lia. split_and!; lia.
Qed.

(** ** The loop *)
Record magic_inv (s : magic_state) : Prop := {
  inv_p : W - 1 <= mp s;
  inv_q1 : q1 s = 2 ^ mp s / anc;
  inv_r1 : r1 s = 2 ^ mp s mod anc;
  inv_q2 : q2 s = 2 ^ mp s / ad;
  inv_r2 : r2 s = 2 ^ mp s mod ad
}.
(** The next quotients fit the type. *)
Definition fits_next (p : Z) : Prop := 2 ^ (p + 1) / anc < 2 ^ W /\ 2 ^ (p + 1) / ad + 1 < 2 ^ W.

Lemma unsigned_small x : 0 <= x < 2 ^ W -> unsigned t x = x.
Proof. intros. rewrite unsigned_eq. by apply Z.mod_small. Qed.

(** Doubling a quotient and a remainder. *)
Lemma double_div a x : 0 < a -> 2 * (x mod a) < a -> (2 * x) / a = 2 * (x / a) /\ (2 * x) mod a = 2 * (x mod a).
Proof.
  intros A L. pose proof (Z.div_mod x a ltac:(lia)). pose proof (Z.mod_pos_bound x a A).
  assert (2 * x / a = 2 * (x / a)) as E by (symmetry; apply (Z.div_unique _ _ _ (2 * (x mod a))); lia). split; [done|]. rewrite Z.mod_eq, E by lia. lia.
Qed.
Lemma double_div1 a x : 0 < a -> a <= 2 * (x mod a) -> (2 * x) / a = 2 * (x / a) + 1 /\ (2 * x) mod a = 2 * (x mod a) - a.
Proof.
  intros A L. pose proof (Z.div_mod x a ltac:(lia)). pose proof (Z.mod_pos_bound x a A).
  assert (2 * x / a = 2 * (x / a) + 1) as E by (symmetry; apply (Z.div_unique _ _ _ (2 * (x mod a) - a)); lia). split; [done|]. rewrite Z.mod_eq, E by lia. lia.
Qed.

Lemma half_step a p q r : 0 < a <= N -> 0 <= p -> q = 2 ^ p / a -> r = 2 ^ p mod a -> 2 ^ (p + 1) / a < 2 ^ W ->
  (if a <=? unsigned t (Z.shiftl r 1) then (unsigned t (unsigned t (Z.shiftl q 1) + 1), unsigned t (unsigned t (Z.shiftl r 1) - a))
   else (unsigned t (Z.shiftl q 1), unsigned t (Z.shiftl r 1))) = (2 ^ (p + 1) / a, 2 ^ (p + 1) mod a).
Proof.
  intros A P -> -> F. rewrite !Z.shiftl_mul_pow2, !(Z.mul_comm _ (2 ^ 1)) by lia. change (2 ^ 1) with 2.
  rewrite Z.pow_add_r, (Z.mul_comm (2 ^ p) (2 ^ 1)) in * by lia. change (2 ^ 1) with 2 in *. pose proof (pow_bits t) as PW.
  pose proof (Z.mod_pos_bound (2 ^ p) a ltac:(lia)). assert (0 <= 2 ^ p / a) by (apply Z.div_pos; lia).
  rewrite (unsigned_small (2 * (2 ^ p mod a))) by lia. destruct (a <=? 2 * (2 ^ p mod a)) eqn:L; bool_prop.
  - destruct (double_div1 a (2 ^ p)) as [E1 E2]; [lia|lia|]. rewrite E1 in F. rewrite E1, E2, (unsigned_small (2 * (2 ^ p / a))) by lia. by rewrite !unsigned_small by lia.
  - destruct (double_div a (2 ^ p)) as [E1 E2]; [lia|lia|]. rewrite E1 in F. by rewrite E1, E2, unsigned_small by lia.
Qed.

Lemma step_inv s : magic_inv s -> fits_next (mp s) -> magic_inv (magic_step t ad anc s) /\ mp (magic_step t ad anc s) = mp s + 1.
Proof.
  intros [P Q1 R1 Q2 R2] [F1 F2]. destruct D as (A & _). destruct anc_facts as (_ & ? & ? & ? & _). pose proof width. pose proof half_big.
  unfold magic_step. rewrite (half_step anc (mp s)), (half_step ad (mp s)) by (lia || done). split; [|done]. split; cbn; (done || lia).
Qed.

(** The test: go on while 2^p <= anc * delta. *)
Lemma again_iff s : magic_inv s -> magic_again t ad s = true <-> 2 ^ mp s <= anc * (ad - 2 ^ mp s mod ad).
Proof.
  intros [P Q1 R1 Q2 R2]. destruct D as (A & _). destruct anc_facts as (_ & ? & ? & ? & _). pose proof half_big. pose proof (pow_bits t).
  unfold magic_again. rewrite R2, Q1, R1. pose proof (Z.mod_pos_bound (2 ^ mp s) ad ltac:(lia)). rewrite unsigned_small by lia.
  set (delta := ad - 2 ^ mp s mod ad) in *. pose proof (Z.div_mod (2 ^ mp s) anc ltac:(lia)) as E. pose proof (Z.mod_pos_bound (2 ^ mp s) anc ltac:(lia)).
  set (q := 2 ^ mp s / anc) in *. rewrite orb_true_iff, andb_true_iff, Z.ltb_lt, !Z.eqb_eq. split; [intros [? | [? ?]]; nia|].
  intros L. destruct (Z.lt_trichotomy q delta) as [? | [? | ?]]; [auto|right; split; nia|nia].
Qed.

(** A divisor of N + 1 is odd, and divides no power of two. *)
Lemma odd_divisor p : 0 <= p -> anc = N -> 1 <= 2 ^ p mod ad.
Proof.
  intros P E. destruct D as (A & _). pose proof (Z.mod_pos_bound (2 ^ p) ad ltac:(lia)). destruct (Z.eq_dec (2 ^ p mod ad) 0) as [Z0|]; [|lia]. exfalso.
  destruct anc_facts as (F & _). rewrite E in F.
  assert (rel_prime ad 2) as RP.
  { apply bezout_rel_prime. apply Bezout_intro with (u := top / ad) (v := - 2 ^ (W - 2)).
    pose proof half_even. lia. }
  apply Z.mod_divide in Z0; [|lia]. revert Z0. pattern p. apply natlike_ind; [|intros k K IH|done].
  - intros D1%Z.divide_1_r_nonneg; lia.
  - rewrite Z.pow_succ_r by done. intros Dk. apply IH. by apply (Gauss _ 2).
Qed.

(** While the loop goes on, the next quotients fit. *)
Lemma pow_double p : 0 <= p -> 2 ^ (p + 1) = 2 * 2 ^ p.
Proof. intros. rewrite Z.pow_add_r by lia. lia. Qed.

Lemma again_fits p : 0 <= p -> 2 ^ p <= anc * (ad - 2 ^ p mod ad) -> fits_next p /\ p <= 2 * W - 3.
Proof.
  intros P L. destruct D as (A & T & _). destruct anc_facts as (F & F1 & F2 & F3 & F4). pose proof half_big. pose proof (pow_bits t) as PW. pose proof width.
  pose proof (Z.mod_pos_bound (2 ^ p) ad ltac:(lia)) as R. pose proof (odd_divisor p P) as O. unfold fits_next. rewrite pow_double by done.
  assert (anc * (ad - 2 ^ p mod ad) < N * N) as LN.
  { destruct (Z.eq_dec anc N) as [E|].
    - rewrite E. apply Z.mul_lt_mono_pos_l; [lia|]. specialize (O E). lia.
    - apply Z.le_lt_trans with ((N - 1) * N); [apply Z.mul_le_mono_nonneg; lia|lia]. }
  assert (p < 2 * W - 2) as Pb.
  { apply (Z.pow_lt_mono_r_iff 2); [lia|lia|]. replace (2 * W - 2) with ((W - 1) + (W - 1)) by lia. rewrite Z.pow_add_r by lia. lia. }
  split; [|lia]. split.
  - apply Z.div_lt_upper_bound; [lia|]. destruct (Z.eq_dec ad N) as [E|]; [|nia]. specialize (F4 E).
    assert (2 * 2 ^ p <= N * N) by (rewrite <- pow_double, <- Z.pow_add_r by lia; apply Z.pow_le_mono_r; lia). nia.
  - apply (Zmult_gt_0_lt_reg_r _ _ ad); [lia|]. rewrite PW. set (r := 2 ^ p mod ad) in *.
    assert (anc * (ad - r) <= (N - 1) * (ad - r) \/ (anc * (ad - r) = N * (ad - r) /\ 1 <= r)) as B.
    { destruct (Z.eq_dec anc N) as [E|]; [right; rewrite E; auto|left; apply Z.mul_le_mono_nonneg_r; lia]. }
    assert (N <= N * r \/ r < 1) by (destruct (Z_lt_le_dec r 1); [auto|left; rewrite <- (Z.mul_1_r N) at 1; apply Z.mul_le_mono_nonneg_l; lia]).
    pose proof (Z.div_mod (2 * 2 ^ p) ad ltac:(lia)) as E. destruct (Z_lt_le_dec (2 * r) ad) as [C|C].
    + destruct (double_div ad (2 ^ p)) as [_ E2]; [lia|done|]. rewrite E2 in E. fold r in E. lia.
    + destruct (double_div1 ad (2 ^ p)) as [_ E2]; [lia|done|]. rewrite E2 in E. fold r in E. assert (N * ad <= N * (2 * r)) by (apply Z.mul_le_mono_nonneg_l; lia). lia.
Qed.

Lemma start_fits : fits_next (W - 1).
Proof.
  destruct D as (A & _). destruct anc_facts as (_ & _ & _ & F3 & _). pose proof half_big. pose proof (pow_bits t) as PW. unfold fits_next.
  replace (W - 1 + 1) with W by lia. split; [apply Z.div_lt_upper_bound; [lia|]; rewrite <- (Z.mul_1_l (2 ^ W)) at 1; apply Z.mul_lt_mono_pos_r; lia|].
  assert (2 ^ W / ad <= N); [|lia]. apply Z.div_le_upper_bound; [lia|]. rewrite PW. apply Z.mul_le_mono_nonneg_r; lia.
Qed.

(** The loop ends within its fuel, at the first [p] with anc * delta < 2^p. *)
Lemma magic_loop_spec fuel s : magic_inv s -> fits_next (mp s) -> mp s <= 2 * W - 3 -> 2 * W - 2 - mp s <= Z.of_nat fuel ->
  exists s', magic_loop t fuel ad anc s = Some s' /\ magic_inv s' /\ anc * (ad - 2 ^ mp s' mod ad) < 2 ^ mp s' /\ W <= mp s' <= 2 * W - 2 /\ 2 ^ mp s' / ad + 1 < 2 ^ W.
Proof.
  revert s. induction fuel as [|fuel IH]; intros s V F P L; [lia|]. destruct (step_inv s V F) as [V' E]. cbn [magic_loop]. destruct V as [V _ _ _ _]. pose proof width.
  destruct (magic_again t ad (magic_step t ad anc s)) eqn:Ag.
  - apply (again_iff _ V') in Ag. apply again_fits in Ag as [F' P']; [|lia]. apply IH; auto. lia.
  - eexists. split; [reflexivity|]. split; [done|]. rewrite E. destruct F as [_ F]. split_and!; try lia.
    apply Z.nle_gt. intros C. rewrite <- E in C. apply (again_iff _ V') in C. congruence.
Qed.

(** ** The quotient *)
Section quotient.
Context (p : Z) (P : W <= p) (L : anc * (ad - 2 ^ p mod ad) < 2 ^ p).
Local Notation delta := (ad - 2 ^ p mod ad).
Local Notation M := (2 ^ p / ad + 1).

Lemma multiplier_eq : M * ad = 2 ^ p + delta /\ 1 <= delta <= ad.
Proof. destruct D as (A & _). pose proof (Z.div_mod (2 ^ p) ad ltac:(lia)). pose proof (Z.mod_pos_bound (2 ^ p) ad ltac:(lia)). split; lia. Qed.

(** The error of the product is less than what is missing to the next multiple. *)
Lemma close a : 0 <= a <= top - 1 -> a * delta < (ad - a mod ad) * 2 ^ p.
Proof.
  intros A. destruct D as (Ad & _). destruct multiplier_eq as [_ De]. destruct anc_facts as (F & F1 & F2 & _ & _). assert (0 < 2 ^ p) by (apply Z.pow_pos_nonneg; pose proof width; lia).
  pose proof (Z.mod_pos_bound a ad ltac:(lia)) as R. destruct (Z_le_gt_dec a anc) as [C|C].
  - assert (a * delta <= anc * delta) by (apply Z.mul_le_mono_nonneg_r; lia). assert (1 * 2 ^ p <= (ad - a mod ad) * 2 ^ p) by (apply Z.mul_le_mono_nonneg_r; lia). lia.
  - assert (a mod ad = a - (anc + 1)) as E. { pose proof (Z.mod_pos_bound top ad ltac:(lia)). symmetry. apply (Z.mod_unique _ _ (top / ad)); lia. }
    assert (2 * 2 ^ p <= (ad - a mod ad) * 2 ^ p) by (pose proof (Z.mod_pos_bound top ad ltac:(lia)); apply Z.mul_le_mono_nonneg_r; lia).
    assert (a * delta <= (2 * anc) * delta) by (apply Z.mul_le_mono_nonneg_r; lia). lia.
Qed.

(** The dividend -N of a positive divisor. *)
Lemma close_min : top = N -> N * delta <= (ad - N mod ad) * 2 ^ p.
Proof.
  intros E. pose proof half_big. destruct D as (Ad & _). destruct multiplier_eq as [_ De]. destruct anc_facts as (F & F1 & F2 & _ & _). assert (0 < 2 ^ p) by (apply Z.pow_pos_nonneg; pose proof width; lia).
  pose proof (Z.mod_pos_bound N ad ltac:(lia)) as R. rewrite E in *. destruct (Z.eq_dec (N mod ad) (ad - 1)) as [C|C].
  - replace (ad - N mod ad) with 1 by lia. assert (2 ^ p = N * 2 ^ (p - W + 1)) as Ep by (rewrite <- Z.pow_add_r by (pose proof width; lia); f_equal; lia).
    set (k := 2 ^ (p - W + 1)) in *. assert (0 < k) by (apply Z.pow_pos_nonneg; lia).
    pose proof (Z.div_mod N ad ltac:(lia)) as EN. pose proof (Z.div_mod (2 ^ p) ad ltac:(lia)) as EP. pose proof (Z.mod_pos_bound (2 ^ p) ad ltac:(lia)).
    set (y := (N / ad + 1) * k - 2 ^ p / ad). assert (2 ^ p mod ad = ad * y - k) as Ey by (subst y; assert (N * k = (ad * (N / ad) + (ad - 1)) * k) by (f_equal; lia); lia).
    assert (0 < y) by (apply (Z.mul_pos_cancel_l ad); lia). assert (ad * 1 <= ad * y) by (apply Z.mul_le_mono_nonneg_l; lia). apply Z.le_trans with (N * k); [apply Z.mul_le_mono_nonneg_l|]; lia.
  - assert (2 * 2 ^ p <= (ad - N mod ad) * 2 ^ p) by (apply Z.mul_le_mono_nonneg_r; lia). assert (N * delta <= (2 * (N - 1 - N mod ad)) * delta) by (apply Z.mul_le_mono_nonneg_r; lia). lia.
Qed.

Lemma quotient_pos a : 0 <= a <= top - 1 -> (a * M) / 2 ^ p = a / ad.
Proof.
  intros A. destruct D as (Ad & _). pose proof (close a A) as C. destruct multiplier_eq as [E De]. assert (0 < 2 ^ p) by (apply Z.pow_pos_nonneg; pose proof width; lia).
  pose proof (Z.div_mod a ad ltac:(lia)) as Ea. pose proof (Z.mod_pos_bound a ad ltac:(lia)).
  symmetry. apply (Z.div_unique_pos _ _ _ (a * M - 2 ^ p * (a / ad))); [|lia].
  assert (ad * (a * M - 2 ^ p * (a / ad)) = (a mod ad) * 2 ^ p + a * delta) as X.
  { transitivity (a * (M * ad) - 2 ^ p * (ad * (a / ad))); [ring|]. rewrite E. replace (ad * (a / ad)) with (a - a mod ad) by lia. ring. }
  assert (0 <= (a mod ad) * 2 ^ p) by (apply Z.mul_nonneg_nonneg; lia). assert (0 <= a * delta) by (apply Z.mul_nonneg_nonneg; lia).
  split; [apply (Z.mul_nonneg_cancel_l ad); lia|]. apply (Z.mul_lt_mono_pos_l ad); lia.
Qed.

Lemma quotient_neg a : 0 < a -> a <= top - 1 \/ (a = N /\ top = N) -> (- (a * M)) / 2 ^ p = - (a / ad) - 1.
Proof.
  intros A B. destruct D as (Ad & _). destruct multiplier_eq as [E De]. assert (0 < 2 ^ p) by (apply Z.pow_pos_nonneg; pose proof width; lia).
  assert (a * delta <= (ad - a mod ad) * 2 ^ p) as C by (destruct B as [B | [-> B]]; [apply Z.lt_le_incl, close; lia|by apply close_min]).
  pose proof (Z.div_mod a ad ltac:(lia)) as Ea. pose proof (Z.mod_pos_bound a ad ltac:(lia)).
  symmetry. apply (Z.div_unique_pos _ _ _ (2 ^ p - (a * M - 2 ^ p * (a / ad)))); [|lia].
  assert (ad * (a * M - 2 ^ p * (a / ad)) = (a mod ad) * 2 ^ p + a * delta) as X.
  { transitivity (a * (M * ad) - 2 ^ p * (ad * (a / ad))); [ring|]. rewrite E. replace (ad * (a / ad)) with (a - a mod ad) by lia. ring. }
  assert (0 <= (a mod ad) * 2 ^ p) by (apply Z.mul_nonneg_nonneg; lia). assert (0 < a * delta) by (apply Z.mul_pos_pos; lia).
  split; [apply (Z.mul_le_mono_pos_l _ _ ad); lia|]. apply (Z.mul_lt_mono_pos_l ad); lia.
Qed.

End quotient.
End magic.

(** ** The result *)
(** The product with a multiplier [m], divided by 2^p and rounded towards zero. *)
Definition magic_quotient (m p n : Z) : Z := let q := n * m / 2 ^ p in q + (if q <? 0 then 1 else 0).

Section result.
Context (t : B3Type) (d : Z) (R : in_type t d = true) (A : 2 <= Z.abs d).
Local Notation N := (2 ^ (bits t - 1)).
Local Notation ad := (Z.abs d).
Local Notation top := (N + (if d <? 0 then 1 else 0)).
Local Notation anc := (top - 1 - top mod ad).

Lemma divisor_abs : divisor_ok t ad top.
Proof. apply in_type_iff in R. unfold divisor_ok. destruct (d <? 0) eqn:S; bool_prop; lia. Qed.

Lemma unsigned_wrap x : unsigned t (wrap t x) = unsigned t x.
Proof. destruct (wrap_mod t x) as [k ->]. rewrite !unsigned_eq. apply Z.mod_add. pose proof (pow_bits t). pose proof (pow_half_pos t). lia. Qed.

Lemma abs_code : unsigned t (if d <? 0 then wrap t (- d) else d) = ad.
Proof.
  apply in_type_iff in R. pose proof (pow_bits t) as PW. destruct (d <? 0) eqn:S; bool_prop; rewrite ?unsigned_wrap, unsigned_small by lia; lia.
Qed.
Lemma top_code : unsigned t (N + Z.shiftr (unsigned t d) (bits t - 1)) = top.
Proof.
  apply in_type_iff in R. pose proof (pow_bits t) as PW. pose proof (half_big t). pose proof (width t). rewrite Z.shiftr_div_pow2 by lia.
  assert (unsigned t d / N = if d <? 0 then 1 else 0) as ->; [|destruct (d <? 0); apply unsigned_small; lia].
  destruct (d <? 0) eqn:S; bool_prop.
  - replace (unsigned t d) with (d + 2 ^ bits t) by (rewrite unsigned_eq; apply (Z.mod_unique _ _ (-1)); lia). symmetry. apply (Z.div_unique _ _ _ (d + N)); lia.
  - rewrite unsigned_small by lia. apply Z.div_small. lia.
Qed.

Lemma magic_runs : exists s, magic_inv t ad top s /\ anc * (ad - 2 ^ mp s mod ad) < 2 ^ mp s /\ bits t <= mp s <= 2 * bits t - 2 /\ 2 ^ mp s / ad + 1 < 2 ^ bits t /\
  computeDivisionMagic t d = Some (mkDivisionMagic (wrap t (Z.sgn d * (2 ^ mp s / ad + 1))) (mp s - bits t)).
Proof.
  pose proof divisor_abs as D. pose proof (pow_bits t) as PW. pose proof (half_big t) as HB. pose proof (width t) as HW. destruct (anc_facts t ad top D) as (F & F1 & F2 & F3 & _).
  destruct (magic_loop_spec t ad top D (Z.to_nat (bits t)) (mkMagic (bits t - 1) (N / anc) (N mod anc) (N / ad) (N mod ad))) as (s & E & V & L & P & B);
    [split; cbn; done || lia|apply (start_fits t ad top D)|cbn; lia|cbn; lia|].
  exists s. split_and!; try done; try lia. unfold computeDivisionMagic. rewrite abs_code, top_code, (unsigned_small t anc) by lia.
  assert (forall a, 0 < a <= N -> unsigned t (N - N / a * a) = N mod a) as Md.
  { intros a Ha. pose proof (Z.mod_pos_bound N a ltac:(lia)). rewrite unsigned_small; rewrite Z.mod_eq in * by lia; lia. }
  destruct D as (D1 & _). rewrite !Md, E by lia. destruct V as [_ _ _ Q2 _]. destruct s as [p0 ? ? q ?]. cbn in Q2 |- *. subst q. do 2 f_equal.
  destruct (d <? 0) eqn:S; bool_prop; [rewrite wrap_opp, Z.sgn_neg by lia|rewrite Z.sgn_pos by lia]; f_equal; lia.
Qed.

Lemma magic_quotient_spec p n : bits t <= p -> anc * (ad - 2 ^ p mod ad) < 2 ^ p -> in_type t n = true -> magic_quotient (2 ^ p / ad + 1) p (Z.sgn d * n) = Z.quot n d.
Proof.
  intros P L Rn. pose proof divisor_abs as D. pose proof (quotient_pos t ad top D p P L) as Qp. pose proof (quotient_neg t ad top D p P L) as Qn.
  apply in_type_iff in R. apply in_type_iff in Rn. pose proof (half_big t) as HB. rewrite Z.quot_div by lia. unfold magic_quotient. cbv zeta.
  assert (Z.sgn d = (if d <? 0 then -1 else 1)) as -> by (destruct (d <? 0) eqn:Sd; bool_prop; [apply Z.sgn_neg|apply Z.sgn_pos]; lia).
  assert (0 <= Z.abs n / ad) by (apply Z.div_pos; lia).
  assert (forall x, x = - Z.abs n -> n <> 0 -> Z.abs n <= top - 1 \/ (Z.abs n = N /\ top = N) -> x * (2 ^ p / ad + 1) / 2 ^ p = - (Z.abs n / ad) - 1) as Neg.
  { intros x -> ? ?. rewrite Z.mul_opp_l. apply Qn; [lia|done]. }
  assert (forall x, x = Z.abs n -> Z.abs n <= top - 1 -> x * (2 ^ p / ad + 1) / 2 ^ p = Z.abs n / ad) as Pos by (intros x -> ?; apply Qp; lia).
  destruct (d <? 0) eqn:Sd; bool_prop.
  - destruct (Z_lt_le_dec 0 n); [rewrite Neg by lia|rewrite Pos by lia]; (destruct (_ <? 0) eqn:C; bool_prop; [|try lia]); try lia.
    destruct (Z.eq_dec n 0) as [-> | ?]; [done|]. rewrite Z.sgn_neg by lia. lia.
  - destruct (Z_lt_le_dec n 0); [rewrite Neg by lia|rewrite Pos by lia]; (destruct (_ <? 0) eqn:C; bool_prop; [|try lia]); try lia.
    destruct (Z.eq_dec n 0) as [-> | ?]; [done|]. rewrite Z.sgn_pos by lia. lia.
Qed.

(** The number and the shift give every quotient. *)
Lemma magic_spec : exists m p, computeDivisionMagic t d = Some (mkDivisionMagic (wrap t (Z.sgn d * m)) (p - bits t)) /\ bits t <= p <= 2 * bits t - 2 /\ 0 < m < 2 ^ bits t /\
    forall n, in_type t n = true -> magic_quotient m p (Z.sgn d * n) = Z.quot n d.
Proof.
  destruct magic_runs as (s & V & L & P & B & E). exists (2 ^ mp s / ad + 1), (mp s). split_and!; try lia; [done| |].
  - assert (0 <= 2 ^ mp s / ad) by (apply Z.div_pos; lia). lia.
  - intros n Rn. apply magic_quotient_spec; [lia|done|done].
Qed.

End result.

(** ** The instructions of a division by a constant *)
(** The high half of a product. *)
Lemma high_half x k : in_type Int32 x = true -> in_type Int32 k = true -> s32 (s64 (Z.shiftr (u64 (s64 (x * k))) 32)) = x * k / 2 ^ 32 /\ - 2 ^ 30 <= x * k / 2 ^ 32 <= 2 ^ 30.
Proof.
  rewrite !in_type_iff. cbn [bits]. intros X K. assert (- 2 ^ 62 <= x * k <= 2 ^ 62) as B by nia.
  rewrite Z.shiftr_div_pow2 by lia. generalize dependent (x * k). intros z B. unfold s32, s64, u64. Z.div_mod_to_equations. lia.
Qed.

(** Rounding towards zero. *)
Lemma round_up q : in_type Int32 q = true -> s32 (q + s32 (Z.shiftr (u32 q) 31)) = q + (if q <? 0 then 1 else 0).
Proof.
  rewrite in_type_iff. cbn [bits]. intros Q. rewrite Z.shiftr_div_pow2 by lia. destruct (q <? 0) eqn:S; bool_prop; unfold s32, u32; Z.div_mod_to_equations; lia.
Qed.

Lemma corrected d x m k : in_type Int32 x = true -> d <> 0 -> 0 < m < 2 ^ 32 -> k = s32 (Z.sgn d * m) ->
  let q := x * k / 2 ^ 32 in
  let q := if (0 <? d) && (k <? 0) then s32 (q + x) else q in
  let q := if (d <? 0) && (0 <? k) then s32 (q - x) else q in
  q = Z.sgn d * x * m / 2 ^ 32 /\ in_type Int32 q = true.
Proof.
  intros X D M K. cbv zeta. rewrite !in_type_iff in *. cbn [bits] in *.
  assert (forall y, Z.abs y <= 2 ^ 31 -> - Z.abs y <= y * m / 2 ^ 32 /\ (y * m / 2 ^ 32 < 2 ^ 31)) as B.
  { intros y Y. split; [apply Z.div_le_lower_bound; nia|apply Z.div_lt_upper_bound; nia]. }
  assert (forall y, - 2 ^ 31 <= y < 2 ^ 31 -> s32 y = y) as S32 by (intros y Y; apply (wrap_id Int32), in_type_iff; exact Y).
  destruct (Z_lt_le_dec d 0) as [Dn|Dp].
  - rewrite (Z.sgn_neg d) in * by lia. rewrite (proj2 (Z.ltb_ge 0 d)), (proj2 (Z.ltb_lt d 0)) by lia. cbn [andb].
    destruct (B (- x)) as [B1 B2]; [lia|]. replace (-1 * x) with (- x) by lia. destruct (0 <? k) eqn:E; bool_prop.
    + assert (k = 2 ^ 32 - m) as -> by (revert K E; unfold s32; Z.div_mod_to_equations; lia).
      assert (x * (2 ^ 32 - m) / 2 ^ 32 = x + - x * m / 2 ^ 32) as -> by (replace (x * (2 ^ 32 - m)) with (- x * m + x * 2 ^ 32) by ring; rewrite Z.div_add by lia; lia).
      rewrite S32; lia.
    + assert (k = - m) as -> by (revert K E; unfold s32; Z.div_mod_to_equations; lia). replace (x * - m) with (- x * m) by ring. lia.
  - rewrite (Z.sgn_pos d) in * by lia. rewrite (proj2 (Z.ltb_lt 0 d)), (proj2 (Z.ltb_ge d 0)) by lia. cbn [andb].
    destruct (B x) as [B1 B2]; [lia|]. rewrite Z.mul_1_l. destruct (k <? 0) eqn:E; bool_prop.
    + assert (k = m - 2 ^ 32) as -> by (revert K E; unfold s32; Z.div_mod_to_equations; lia).
      assert (x * (m - 2 ^ 32) / 2 ^ 32 = - x + x * m / 2 ^ 32) as -> by (replace (x * (m - 2 ^ 32)) with (x * m + (- x) * 2 ^ 32) by ring; rewrite Z.div_add by lia; lia).
      rewrite S32; lia.
    + assert (k = m) as -> by (revert K E; unfold s32; Z.div_mod_to_equations; lia). lia.
Qed.

(** All of it: [q] has the results of the instructions that the rule inserts. *)
Lemma magic_code d x : in_type Int32 x = true -> in_type Int32 d = true -> 2 <= Z.abs d ->
  exists k s, computeDivisionMagic Int32 d = Some (mkDivisionMagic k s) /\ in_type Int32 k = true /\ 0 <= s < 31 /\
    let q := s32 (s64 (Z.shiftr (u64 (s64 (x * k))) 32)) in
    let q := if (0 <? d) && (k <? 0) then s32 (q + x) else q in
    let q := if (d <? 0) && (0 <? k) then s32 (q - x) else q in
    let q := if 0 <? s then Z.shiftr q s else q in
    s32 (q + s32 (Z.shiftr (u32 q) 31)) = Z.quot x d.
Proof.
  intros X R A. destruct (magic_spec Int32 d R A) as (m & p & E & P & M & Q). pose proof (wrap_range Int32 (Z.sgn d * m)) as Rk. cbn [bits wrap] in *.
  remember (s32 (Z.sgn d * m)) as k eqn:K. exists k, (p - 32). split; [exact E|]. split; [done|]. split; [lia|]. cbv zeta. rewrite (proj1 (high_half x k X Rk)).
  destruct (corrected d x m k X ltac:(lia) M K) as [C1 C2]. cbv zeta in C1, C2. rewrite C1 in *. rewrite <- (Q x X). unfold magic_quotient.
  assert ((if 0 <? p - 32 then Z.shiftr (Z.sgn d * x * m / 2 ^ 32) (p - 32) else Z.sgn d * x * m / 2 ^ 32) = Z.sgn d * x * m / 2 ^ p) as ->.
  { destruct (0 <? p - 32) eqn:S; bool_prop; [|f_equal; f_equal; lia]. rewrite Z.shiftr_div_pow2, Z.div_div, <- Z.pow_add_r by (lia || apply Z.pow_pos_nonneg; lia).
    do 2 f_equal. lia. }
  apply round_up. replace p with (32 + (p - 32)) by lia. rewrite Z.pow_add_r, <- Z.div_div by (lia || apply Z.pow_pos_nonneg; lia).
  rewrite <- Z.shiftr_div_pow2 by lia. apply in_type_shiftr; [lia|done].
Qed.

(** ** Div *)
Lemma div_outcome ch t f x y r : sem_div ch t f x y = Some r -> r = f t x y /\ (ch = true \/ (y <> 0 /\ ~ (y = -1 /\ x = type_min t))).
Proof.
  unfold sem_div. destruct (negb ch && _) eqn:E; [discriminate|]. intros [= <-]. split; [done|]. destruct ch; [auto|right]. cbn in E. apply orb_false_iff in E as [E1 E2].
  apply Z.eqb_neq in E1. split; [done|]. intros [-> ->]. by rewrite !Z.eqb_refl in E2.
Qed.

Lemma chillDiv_neg t x : in_type t x = true -> wrap t (- x) = chillDiv t x (-1).
Proof.
  intros R. unfold chillDiv. cbn. destruct (x =? _) eqn:E; bool_prop.
  - subst. destruct t; reflexivity.
  - assert (Z.quot x (-1) = - x) as -> by (transitivity (- Z.quot x 1); [by apply (Z.quot_opp_r x 1)|by rewrite Z.quot_1_r]). apply wrap_id. apply in_type_iff in R. apply in_type_iff. lia.
Qed.
Lemma chillDiv_one t x : chillDiv t x 1 = x.
Proof. unfold chillDiv. cbn. apply Z.quot_1_r. Qed.
Lemma chillDiv_quot t x y : y <> 0 -> y <> -1 -> chillDiv t x y = Z.quot x y.
Proof. intros. unfold chillDiv. rewrite (proj2 (Z.eqb_neq y 0)), (proj2 (Z.eqb_neq y (-1))) by done. reflexivity. Qed.

(** A new operation on two values, or on one. *)
Ltac insert2 := eapply wp_insertNew2; [eassumption|eassumption|typ|typ|reflexivity|].
Ltac insert1 := eapply wp_insertNew1; [eassumption|typ|typ|reflexivity|].

Lemma ok_div_magic g m ch cs z c0 c1 a b : g !! m = Some (mkValue Div ch Int32 cs z) -> cs = [c0; c1] -> g !! c0 = Some a -> g !! c1 = Some b -> m_type a = Int32 ->
  hasInt b = true -> in_type Int32 (asInt b) = true -> 2 <= Z.abs (asInt b) -> ok g (reduceDiv_magic m c0 (asInt b)).
Proof.
  intros G -> Ga Gb Ta Hb R A. apply wp_wfg. intros W. unfold reduceDiv_magic. destruct (magic_code (asInt b) 0 eq_refl R A) as (k & s & E & Rk & Rs & _).
  assert (forall x, in_type Int32 x = true -> _) as Code by (intros x X; exact (magic_code (asInt b) x X R A)). rewrite E in Code |- *.
  assert (s64 k = k) as K64 by (apply (wrap_id Int64); apply in_type_iff in Rk; apply in_type_iff; cbn in *; lia).
  assert (shift_mask Int32 (s32 s) = s) as Ks by (change (s32 s) with (wrap Int32 s); rewrite wrap_id; [apply shift_mask_small; cbn; lia|apply in_type_iff; cbn; lia]).
  apply wp_bind. eapply wp_need; [reflexivity|]. cbn [magicMultiplier magic_shift].
  apply wp_bind. insert1. new m wide.
  apply wp_bind, wp_insertConst64. new m multiplier.
  apply wp_bind. insert2. new m product.
  apply wp_bind, wp_insertConst32. new m thirtyTwo.
  apply wp_bind. insert2. new m high.
  apply wp_bind. insert1. new m q.
  apply wp_bind. destruct ((0 <? asInt b) && (k <? 0)) eqn:E1; [insert2; new m qa|apply wp_ret]; apply wp_bind;
    (destruct ((asInt b <? 0) && (0 <? k)) eqn:E2; [insert2; new m qb|apply wp_ret]); apply wp_bind;
    (destruct (0 <? s) eqn:E3; [apply wp_bind, wp_insertConst32; new m sh; insert2; new m qc|apply wp_ret]);
    apply wp_bind, wp_insertConst32; new m thirtyOne; apply wp_bind; insert2; new m sign; apply wp_bind; insert2; new m quo; become;
    (match goal with H : sem_div _ _ _ ?y _ = Some _, R : run _ _ c0 (Val ?y) |- _ => range y; destruct (Code y B) as (k' & s' & [= <- <-] & _ & _ & C); apply div_outcome in H as [-> _] end);
    cbv zeta in C; rewrite E1, E2, E3 in C; rewrite Ta, chillDiv_quot, <- C by lia; cbn [m_type wrap unsigned];
    rewrite ?K64, ?Ks; reflexivity.
Qed.

Lemma ok_div g m lvl ch t cs z : g !! m = Some (mkValue Div ch t cs z) -> ok g (reduceDiv lvl m).
Proof.
  intros G. apply wp_wfg. intros W. view G. eapply wp_operands; [exact G|reflexivity|exact G0|exact G1|].
  eapply ok_fold; [exact G|reflexivity|exact G0|exact G1|apply folds_div|]. test Hi; [|by apply wp_skip]. pose proof (proj1 (view_int W G1 Hi)) as Rb.
  test K; [apply Z.eqb_eq in K; become1; rewrite K in *; range x; same_types; match goal with D : sem_div _ _ _ _ _ = Some _ |- _ => apply div_outcome in D as [-> _] end; by rewrite <- chillDiv_neg; same_types|].
  test K0; [apply Z.eqb_eq in K0; become; rewrite K0 in *; match goal with D : sem_div _ _ _ _ _ = Some _ |- _ => apply div_outcome in D as [-> _] end; done|].
  test K1; [apply Z.eqb_eq in K1; become; rewrite K1 in *; match goal with D : sem_div _ _ _ _ _ = Some _ |- _ => apply div_outcome in D as [-> _] end; by rewrite chillDiv_one|].
  test K2; [by apply wp_skip|]. test K3; [by apply wp_skip|]. apply negb_false_iff, bool_decide_eq_true in K2. cbn in K2. apply Z.eqb_neq in K, K0, K1.
  subst. eapply ok_div_magic; [rewrite <- K2; exact G|reflexivity|exact G0|exact G1|congruence|done| |lia]. rewrite <- K2. congruence.
Qed.

Lemma ok_udiv g m ch t cs z : g !! m = Some (mkValue UDiv ch t cs z) -> ok g (reduceUDiv m).
Proof.
  intros G. apply wp_wfg. intros W. view G. eapply wp_operands; [exact G|reflexivity|exact G0|exact G1|].
  eapply ok_fold; [exact G|reflexivity|exact G0|exact G1|apply folds_udiv|]. test Hi; [|by apply wp_skip].
  test K0; [apply Z.eqb_eq in K0; become; by rewrite K0 in *|].
  test K1; [|by apply wp_skip]. apply Z.eqb_eq in K1. become. rewrite K1 in *. cbn [Z.eqb] in *. simplify_eq. range x.
  assert (unsigned (m_type n) 1 = 1) as -> by by destruct (m_type n). rewrite Z.div_1_r, wrap_unsigned. symmetry. fits.
Qed.

(** The remainder from the quotient. *)
Lemma mod_from_div t x y : in_type t x = true -> y <> 0 -> wrap t (x - wrap t (chillDiv t x y * y)) = chillMod t x y.
Proof.
  intros R N. autorewrite with wrap. unfold chillDiv, chillMod. rewrite (proj2 (Z.eqb_neq y 0)) by done. destruct (_ && _) eqn:E.
  - apply andb_true_iff in E as [E1 E2]. apply Z.eqb_eq in E1 as ->. apply Z.eqb_eq in E2 as ->. by destruct t.
  - pose proof (Z.quot_rem' x y). replace (x - _) with (Z.rem x y) by lia. by apply wrap_id, in_type_rem.
Qed.

Lemma ok_mod g m lvl ch t cs z : g !! m = Some (mkValue Mod ch t cs z) -> ok g (reduceMod lvl m).
Proof.
  intros G. apply wp_wfg. intros W. view G. eapply wp_operands; [exact G|reflexivity|exact G0|exact G1|].
  eapply ok_fold; [exact G|reflexivity|exact G0|exact G1|apply folds_mod|]. test Hi; [|by apply wp_skip].
  test K0; [apply Z.eqb_eq in K0; become; rewrite K0 in *; match goal with D : sem_div _ _ _ _ _ = Some _ |- _ => apply div_outcome in D as [-> _] end; done|].
  apply Z.eqb_neq in K0. test K; [by apply wp_skip|]. apply wp_bind. cbn [m_isChill].
  eapply wp_ext; [intros p _; symmetry; apply (bind_assoc (makeValue Div ch [c; c0]) proc_add insertValue p)|]. apply wp_bind.
  eapply wp_newkind; [exact G0|exact G1|typ|typ|reflexivity|]. new m div. apply wp_insertValue.
  apply wp_bind. insert2. new m mul. apply wp_bind. insert2. new m sub.
  eapply ok_replaceWithIdentity; [eassumption|eassumption|typ|apply int_not_void; typ|safe|]. intros env o _ E R. inv_runs.
  match goal with D : sem_div _ _ _ ?u _ = Some _ |- _ => range u; pose proof (div_outcome _ _ _ _ _ _ D) as [-> _]; unfold sem_div in D; destruct (negb ch && _) eqn:U; [discriminate|] end.
  eexists. split; [done|]. eapply run_eq.
  - eapply run2_mk; [eassumption|eassumption|reflexivity|eassumption|eassumption| |reflexivity].
    eapply run2_mk; [eassumption|eassumption|reflexivity|eassumption| |mk_run|reflexivity].
    eapply run2_mk; [eassumption|eassumption|reflexivity|eassumption|eassumption|mk_run|]. cbn [sem2]. unfold sem_div. by rewrite U.
  - cbn [m_type]. same_types. rewrite <- mod_from_div; [same_types|..]; auto.
Qed.

Lemma ok_umod g m ch t cs z : g !! m = Some (mkValue UMod ch t cs z) -> ok g (reduceUMod m).
Proof.
  intros G. apply wp_wfg. intros W. view G. eapply wp_operands; [exact G|reflexivity|exact G0|exact G1|].
  eapply ok_fold; [exact G|reflexivity|exact G0|exact G1|apply folds_umod|]. by apply wp_skip.
Qed.


