(* ===== verification/B3ReduceCheck.v ===== *)
(** * B3ReduceCheck: ranges of values, and the rules for arithmetic that exits on overflow

    [rangeFor] finds a range of a value, except where it meets a mask that is negative and not -1, a shift by an amount outside
    of the width, or a left shift in which one end of the range overflows and the other does not; [range_safe] excludes them. *)
From stdpp Require Import gmap.
From S2P Require Import Prelude B3Value B3Const B3IntRange B3Reduce B3Semantics B3Graph B3Arith B3Rules B3Steps.
Local Open Scope Z_scope.

(** ** Ranges *)
(** [r] has both ends in the type, and [x] in it. *)
Definition in_range_of (t : B3Type) (r : IntRange) (x : Z) : Prop := in_type t (m_min r) = true /\ in_type t (m_max r) = true /\ m_min r <= x <= m_max r.

Lemma top_range t r x : range_top t = Some r -> in_type t x = true -> in_range_of t r x.
Proof.
  unfold range_top, int_type. destruct (is_int t) eqn:I; [|discriminate]. intros [= <-] R. unfold in_range_of. rewrite !in_type_iff in *. unfold type_min, type_max. cbn.
  pose proof (pow_half_pos t). lia.
Qed.

Lemma mask_bounds x m : 0 <= m -> 0 <= Z.land x m <= m.
Proof. rewrite Z.land_comm. apply land_le. Qed.

Lemma mask_range t m r x : rangeForMask t m = Some r -> in_type t m = true -> 0 <= m \/ m = -1 -> in_type t x = true -> in_range_of t r (Z.land x m).
Proof.
  intros E M S X. unfold rangeForMask in E. cbv zeta in E. rewrite (wrap_id t m M) in E. assert (in_type t (Z.land x m) = true) by by apply in_type_land.
  destruct (wrap t (m + 1) =? 0) eqn:W; [by eapply top_range|]. destruct S as [S | ->]; [|by destruct t].
  unfold int_type in E. destruct (is_int t); [|discriminate]. injection E as <-. pose proof (mask_bounds x m S). pose proof (pow_half_pos t). unfold in_range_of. cbn.
  split_and!; [apply in_type_iff; lia|done|lia|lia].
Qed.

Lemma shiftr_le x y s : 0 <= s -> x <= y -> Z.shiftr x s <= Z.shiftr y s.
Proof. intros S L. rewrite !Z.shiftr_div_pow2 by done. apply Z.div_le_mono; [apply Z.pow_pos_nonneg; lia|done]. Qed.

Lemma amount_ok t s : shift_amount_ok t s = true -> 0 <= s < bits t.
Proof. unfold shift_amount_ok. rewrite andb_true_iff, Z.leb_le, Z.ltb_lt. lia. Qed.

Lemma sShr_range t r0 s r x : range_sShr t r0 s = Some r -> in_range_of t r0 x -> in_range_of t r (Z.shiftr x s).
Proof.
  unfold range_sShr, int_type. destruct (shift_amount_ok t s) eqn:S; [|discriminate]. apply amount_ok in S. destruct (is_int t); [|discriminate]. intros [= <-] (A & B & C).
  unfold in_range_of. cbn. rewrite !wrap_id by done. split_and!; auto using in_type_shiftr with lia; apply shiftr_le; lia.
Qed.

Lemma zShr_mask_range t s r x : rangeForZShr t s = Some r -> s <> 0 -> in_range_of t r (wrap t (Z.shiftr (unsigned t x) s)).
Proof.
  unfold rangeForZShr, rangeForMask. destruct (shift_amount_ok t s) eqn:S; [|discriminate]. apply amount_ok in S. intros E N. pose proof (pow_bits t) as PW. pose proof (pow_half_pos t).
  rewrite Z.shiftr_div_pow2 in * by lia. pose proof (unsigned_range t x) as U. assert (2 ^ 1 <= 2 ^ s) by (apply Z.pow_le_mono_r; lia).
  assert (0 <= (2 ^ bits t - 1) / 2 ^ s < 2 ^ (bits t - 1)) as B by (split; [apply Z.div_pos; lia|apply Z.div_lt_upper_bound; nia]).
  assert (0 <= unsigned t x / 2 ^ s <= (2 ^ bits t - 1) / 2 ^ s) as L by (split; [apply Z.div_pos; lia|apply Z.div_le_mono; lia]).
  cbv zeta in E. set (mask := (2 ^ bits t - 1) / 2 ^ s) in *. rewrite (wrap_id t mask) in E by (apply in_type_iff; lia).
  rewrite (wrap_id t (unsigned t x / 2 ^ s)) by (apply in_type_iff; lia).
  destruct (wrap t (mask + 1) =? 0); [eapply top_range; [done|apply in_type_iff; lia]|]. unfold int_type in E. destruct (is_int t); [|discriminate]. injection E as <-.
  unfold in_range_of. cbn. rewrite !in_type_iff. lia.
Qed.

Lemma zShr_range t r0 s r x : range_zShr t r0 s = Some r -> in_range_of t r0 x -> in_range_of t r (wrap t (Z.shiftr (unsigned t x) s)).
Proof.
  unfold range_zShr. intros E (A & B & C). assert (in_type t x = true) as X by (rewrite in_type_iff in *; lia). destruct (s =? 0) eqn:Z; bool_prop.
  { subst. rewrite Z.shiftr_0_r, wrap_unsigned, wrap_id by done. unfold int_type in E. destruct (is_int t); [|discriminate]. by injection E as <-. }
  destruct (m_min r0 <? 0) eqn:M; [by apply zShr_mask_range|]. bool_prop. destruct (shift_amount_ok t s) eqn:S; [|discriminate]. apply amount_ok in S.
  unfold int_type in E. destruct (is_int t) eqn:I; [|discriminate]. injection E as <-. unfold in_range_of. cbn. rewrite !(unsigned_nonneg t) by (done || lia).
  assert (forall y, in_type t y = true -> s64 (Z.shiftr y s) = Z.shiftr y s /\ wrap t (Z.shiftr y s) = Z.shiftr y s /\ in_type t (Z.shiftr y s) = true) as S64.
  { intros y Y. apply (in_type_shiftr t y s) in Y; [|lia]. split_and!; [|by apply wrap_id|done]. apply (wrap_id Int64). apply in_type_iff in Y. apply in_type_iff.
    destruct t; try done; cbn in *; lia. }
  destruct (S64 _ A) as (-> & _ & ?), (S64 _ B) as (-> & _ & ?), (S64 _ X) as (_ & -> & _). split_and!; auto; apply shiftr_le; lia.
Qed.

(** A left shift loses no bits of [x]. *)
Definition shl_exact (t : B3Type) (x s : Z) : bool := Z.shiftr (wrap t (Z.shiftl (wrap t x) s)) s =? wrap t x.
(** Both ends of the range overflow, or none. *)
Definition shl_even (t : B3Type) (r : IntRange) (s : Z) : bool := Bool.eqb (shl_exact t (m_min r) s) (shl_exact t (m_max r) s).

Lemma shl_exact_eq t x s : 0 <= s < bits t -> in_type t x = true -> shl_exact t x s = true -> wrap t (Z.shiftl (wrap t x) s) = x * 2 ^ s.
Proof.
  unfold shl_exact. intros S X E. rewrite (wrap_id t x X) in *. apply Z.eqb_eq in E. rewrite Z.shiftl_mul_pow2, Z.shiftr_div_pow2 in * by lia.
  destruct (wrap_mod t (x * 2 ^ s)) as [k K]. rewrite K in *. assert (2 ^ bits t = 2 ^ (bits t - s) * 2 ^ s) as P by (rewrite <- Z.pow_add_r by lia; f_equal; lia).
  rewrite P in *. replace (x * 2 ^ s + k * (2 ^ (bits t - s) * 2 ^ s)) with ((x + k * 2 ^ (bits t - s)) * 2 ^ s) in * by ring.
  rewrite Z.div_mul in E by (apply Z.pow_nonzero; lia). rewrite E. reflexivity.
Qed.

Lemma shl_range t r0 s r x : range_shl t r0 s = Some r -> shl_even t r0 s = true -> in_range_of t r0 x -> in_range_of t r (wrap t (Z.shiftl x s)).
Proof.
  unfold range_shl. destruct (shift_amount_ok t s) eqn:S; [|discriminate]. apply amount_ok in S. cbv zeta. intros E Ev (A & B & C). pose proof (pow_half_pos t).
  fold (shl_exact t (m_min r0) s) in E. fold (shl_exact t (m_max r0) s) in E. apply eqb_prop in Ev. unfold int_type in E. destruct (is_int t) eqn:I; [|discriminate]. injection E as <-.
  unfold in_range_of. cbn. rewrite Ev. destruct (shl_exact t (m_max r0) s) eqn:X.
  - assert (in_type t (wrap t (Z.shiftl (wrap t (m_min r0)) s)) = true) as R1 by apply wrap_range. assert (in_type t (wrap t (Z.shiftl (wrap t (m_max r0)) s)) = true) as R2 by apply wrap_range.
    rewrite (shl_exact_eq t (m_min r0)), (shl_exact_eq t (m_max r0)) in * by done. rewrite Z.shiftl_mul_pow2 by lia. assert (0 < 2 ^ s) by (apply Z.pow_pos_nonneg; lia).
    assert (m_min r0 * 2 ^ s <= x * 2 ^ s <= m_max r0 * 2 ^ s) by (split; apply Z.mul_le_mono_nonneg_r; lia). rewrite in_type_iff in R1, R2.
    rewrite (wrap_id t (x * 2 ^ s)); rewrite !in_type_iff; lia.
  - pose proof (wrap_range t (Z.shiftl x s)) as R. rewrite in_type_iff in R. rewrite !in_type_iff. unfold type_min, type_max. lia.
Qed.

(** ** Ranges of sums, differences and products *)
Lemma no_overflow t f x y : in_type t x = true -> in_type t y = true -> hasOverflowed (checked_op t f (checked t x) (checked t y)) = false -> in_type t (f x y) = true.
Proof.
  intros X Y. unfold checked_op, checked. cbn. rewrite X, Y, !wrap_id by done. cbn. by destruct (in_type t (f x y)).
Qed.

(** The corners of two ranges do not overflow under [f]. *)
Definition corners (t : B3Type) (f : Z -> Z -> Z) (a b : IntRange) : Prop :=
  in_type t (f (m_min a) (m_min b)) = true /\ in_type t (f (m_min a) (m_max b)) = true /\ in_type t (f (m_max a) (m_min b)) = true /\ in_type t (f (m_max a) (m_max b)) = true.

Lemma corners_fit t f a b x y : in_range_of t a x -> in_range_of t b y -> couldOverflow (fun x y => hasOverflowed (checked_op t f (checked t x) (checked t y))) a b = false -> corners t f a b.
Proof.
  intros (A1 & A2 & _) (B1 & B2 & _). unfold couldOverflow. rewrite !orb_false_iff. intros [[[H1 H2] H3] H4]. split_and!; by apply no_overflow.
Qed.

Lemma add_fits t a b x y : is_int t = true -> in_range_of t a x -> in_range_of t b y -> couldOverflowAdd t a b = false -> in_range_of t (mkIntRange (m_min a + m_min b) (m_max a + m_max b)) (x + y).
Proof.
  intros I A B. unfold couldOverflowAdd. rewrite I. intros H. destruct (corners_fit t Z.add a b x y A B H) as (C1 & _ & _ & C2).
  destruct A as (_ & _ & ?), B as (_ & _ & ?). split_and!; cbn; auto; lia.
Qed.
Lemma sub_fits t a b x y : is_int t = true -> in_range_of t a x -> in_range_of t b y -> couldOverflowSub t a b = false -> in_range_of t (mkIntRange (m_min a - m_max b) (m_max a - m_min b)) (x - y).
Proof.
  intros I A B. unfold couldOverflowSub. rewrite I. intros H. destruct (corners_fit t Z.sub a b x y A B H) as (_ & C1 & C2 & _).
  destruct A as (_ & _ & ?), B as (_ & _ & ?). split_and!; cbn; auto; lia.
Qed.

(** A product is between the products of the ends. *)
Lemma between_mul a0 a1 x y : a0 <= x <= a1 -> Z.min (a0 * y) (a1 * y) <= x * y <= Z.max (a0 * y) (a1 * y).
Proof. intros. destruct (Z_le_gt_dec 0 y); nia. Qed.

Definition mul_range (a b : IntRange) : IntRange :=
  mkIntRange (Z.min (Z.min (m_min a * m_min b) (m_min a * m_max b)) (Z.min (m_max a * m_min b) (m_max a * m_max b)))
             (Z.max (Z.max (m_min a * m_min b) (m_min a * m_max b)) (Z.max (m_max a * m_min b) (m_max a * m_max b))).

Lemma mul_fits t a b x y : is_int t = true -> in_range_of t a x -> in_range_of t b y -> couldOverflowMul t a b = false -> in_range_of t (mul_range a b) (x * y).
Proof.
  intros I A B. unfold couldOverflowMul. rewrite I. intros H. destruct (corners_fit t Z.mul a b x y A B H) as (C1 & C2 & C3 & C4).
  destruct A as (_ & _ & A), B as (_ & _ & B). pose proof (between_mul _ _ x y A) as P. pose proof (between_mul _ _ y (m_min a) B) as P1. pose proof (between_mul _ _ y (m_max a) B) as P2.
  rewrite in_type_iff in *. unfold in_range_of, mul_range. cbn. rewrite !in_type_iff.
  rewrite !(Z.mul_comm (m_min b)), !(Z.mul_comm (m_max b)), !(Z.mul_comm y) in *. lia.
Qed.

(** ** The range of a value *)
(** The search meets no mask, shift amount or left shift that it gets wrong. *)
Fixpoint range_safe (timeToLive : nat) (p : Proc) (v : Z) : bool :=
  match timeToLive, m_vector p !! v with
  | S ttl, Some (mkValue op _ t [c0; c1] _) =>
    match op, m_vector p !! c1 with
    | BitAnd, Some mask => negb (hasInt mask) || (0 <=? asInt mask) || (asInt mask =? -1)
    | (SShr | ZShr), Some amount => if hasInt32 amount then shift_amount_ok t (asInt amount) && range_safe ttl p c0 else true
    | Shl, Some amount =>
      if hasInt32 amount then
        shift_amount_ok t (asInt amount) && range_safe ttl p c0 && match rangeFor ttl p c0 with Some r => shl_even t r (asInt amount) | None => true end
      else true
    | (Add | Sub | Mul), _ => range_safe ttl p c0 && range_safe ttl p c1
    | _, _ => true
    end
  | _, _ => true
  end.

(** [r] is a range of [v], in all executions. *)
Definition range_of (g : graph) (v : Z) (t : B3Type) (r : IntRange) : Prop := forall env x, good_env env g -> run env g v (Val x) -> in_range_of t r x.

Lemma top_range_of g v n : wfg g -> g !! v = Some n -> is_int (m_type n) = true -> exists r, range_top (m_type n) = Some r /\ range_of g v (m_type n) r.
Proof.
  intros W G I. unfold range_top, int_type. rewrite I. eexists. split; [reflexivity|]. intros env x E R. eapply top_range; [unfold range_top, int_type; by rewrite I|]. by eapply run_range.
Qed.

Lemma is_some {A} (o : option A) : o <> None -> exists a, o = Some a.
Proof. destruct o; [eauto|done]. Qed.

(** Some range of the operation [f], that keeps what is known of its operands. *)
Lemma shift_total t s r0 : is_int t = true -> shift_amount_ok t s = true -> (exists r, range_sShr t r0 s = Some r) /\ (exists r, range_zShr t r0 s = Some r) /\ exists r, range_shl t r0 s = Some r.
Proof.
  intros I S. unfold range_sShr, range_zShr, range_shl, rangeForZShr, rangeForMask, range_top, int_type. rewrite S, I. split_and!; apply is_some; repeat if_cases; done.
Qed.
Lemma arith_total t a b : is_int t = true -> (exists r, range_add t a b = Some r) /\ (exists r, range_sub t a b = Some r) /\ exists r, range_mul t a b = Some r.
Proof. intros I. unfold range_add, range_sub, range_mul, range_top, int_type. rewrite I. split_and!; apply is_some; if_cases; done. Qed.

Lemma add_range t a b r x y : is_int t = true -> range_add t a b = Some r -> in_range_of t a x -> in_range_of t b y -> in_range_of t r (wrap t (x + y)).
Proof.
  intros I E A B. unfold range_add in E. destruct (couldOverflowAdd t a b) eqn:C; [eapply top_range; [done|apply wrap_range]|]. injection E as <-.
  pose proof (add_fits t a b x y I A B C) as F. rewrite wrap_id; [done|]. destruct F as (F1 & F2 & F3). rewrite in_type_iff in *. lia.
Qed.
Lemma sub_range t a b r x y : is_int t = true -> range_sub t a b = Some r -> in_range_of t a x -> in_range_of t b y -> in_range_of t r (wrap t (x - y)).
Proof.
  intros I E A B. unfold range_sub in E. destruct (couldOverflowSub t a b) eqn:C; [eapply top_range; [done|apply wrap_range]|]. injection E as <-.
  pose proof (sub_fits t a b x y I A B C) as F. rewrite wrap_id; [done|]. destruct F as (F1 & F2 & F3). rewrite in_type_iff in *. lia.
Qed.
Lemma product_range t a b r x y : is_int t = true -> range_mul t a b = Some r -> in_range_of t a x -> in_range_of t b y -> in_range_of t r (wrap t (x * y)).
Proof.
  intros I E A B. unfold range_mul in E. destruct (couldOverflowMul t a b) eqn:C; [eapply top_range; [done|apply wrap_range]|]. injection E as <-.
  pose proof (mul_fits t a b x y I A B C) as F. rewrite wrap_id; [exact F|]. destruct F as (F1 & F2 & F3). rewrite in_type_iff in *. lia.
Qed.

Lemma const_range g v n t : wfg g -> g !! v = Some n -> hasInt n = true -> m_type n = t -> range_of g v t (mkIntRange (asInt n) (asInt n)).
Proof.
  intros W G H <- env x E R. destruct (view_int W G H) as [In _]. rewrite (run_int W G H R). unfold in_range_of. cbn. split_and!; auto; lia.
Qed.

(** The range of an operation on two values, from those of its operands. *)
Lemma range_of2 g v op ch t a b z na nb (P : Z -> Z -> Prop) r : wfg g -> g !! v = Some (mkValue op ch t [a; b] z) -> is_binary op = true -> g !! a = Some na -> g !! b = Some nb ->
  (forall env x y, good_env env g -> run env g a (Val x) -> run env g b (Val y) -> P x y) ->
  (forall x y k, P x y -> sem2 op ch (m_type na) x y = Some k -> in_range_of t r k) -> range_of g v t r.
Proof.
  intros W G B Ga Gb HP H env k E R. apply (run2_inv W G B) in R as (na' & nb' & x & y & r' & ? & ? & Rx & Ry & Sm & [= ->]). simplify_eq. eauto.
Qed.

Lemma rangeFor_spec ttl p v n : wfg (m_vector p) -> m_vector p !! v = Some n -> is_int (m_type n) = true -> range_safe ttl p v = true ->
  exists r, rangeFor ttl p v = Some r /\ range_of (m_vector p) v (m_type n) r.
Proof.
  intros W. revert v n. induction ttl as [|ttl IH]; intros v n G I S; cbn [rangeFor range_safe] in *; rewrite G in *; cbn [mbind option_bind]; [by apply top_range_of|].
  pose proof (top_range_of _ _ _ W G I) as Top. destruct n as [op ch t cs z]. cbn [m_opcode m_children m_type] in *.
  destruct op; try exact Top.
  1, 2: eexists; split; [reflexivity|]; by eapply const_range.
  all: destruct (view2 W G eq_refl) as (a & b & na & nb & -> & Ga & Gb & T); types; subst; cbn -[Z.leb Z.eqb]; rewrite ?Gb in *; cbn -[Z.leb Z.eqb].
  1-3: destruct (IH a na Ga I) as (ra & Ea & Ra); [assumption|]; destruct (IH b nb Gb) as (rb & Eb & Rb); [by rewrite T|done|]; rewrite T in Rb;
    rewrite Ea, Eb; cbn; destruct (arith_total (m_type na) ra rb I) as ((r1 & E1) & (r2 & E2) & (r3 & E3)).
  5-7: destruct (hasInt32 nb) eqn:H; [|exact Top]; repeat match goal with H : ?x && ?y = true |- _ => lazymatch x with Z.leb _ _ => fail | _ => apply andb_true_iff in H as [? ?] end end; destruct (IH a na Ga I) as (ra & Ea & Ra); [done|]; rewrite Ea in *; cbn;
    match goal with K : shift_amount_ok _ _ = true |- _ => destruct (shift_total (m_type na) (asInt nb) ra I K) as ((r1 & E1) & (r2 & E2) & (r3 & E3)); apply amount_ok in K end; apply hasInt32_int in H.
  - exists r1. split; [done|]. eapply (range_of2 _ _ _ _ _ _ _ _ _ _ (fun x y => in_range_of _ ra x /\ in_range_of _ rb y)); [exact W|exact G|reflexivity|exact Ga|exact Gb|by eauto|].
    intros x y k [X Y] [= <-]. by eapply add_range.
  - exists r2. split; [done|]. eapply (range_of2 _ _ _ _ _ _ _ _ _ _ (fun x y => in_range_of _ ra x /\ in_range_of _ rb y)); [exact W|exact G|reflexivity|exact Ga|exact Gb|by eauto|].
    intros x y k [X Y] [= <-]. by eapply sub_range.
  - exists r3. split; [done|]. eapply (range_of2 _ _ _ _ _ _ _ _ _ _ (fun x y => in_range_of _ ra x /\ in_range_of _ rb y)); [exact W|exact G|reflexivity|exact Ga|exact Gb|by eauto|].
    intros x y k [X Y] [= <-]. by eapply product_range.
  - destruct (hasInt nb) eqn:H; [|exact Top]. destruct (view_int W Gb H) as [In _]. rewrite T in In. cbn in S. apply orb_true_iff in S. rewrite Z.leb_le, Z.eqb_eq in S.
    assert (exists r, rangeForMask (m_type na) (asInt nb) = Some r) as [r E] by (unfold rangeForMask, range_top, int_type; rewrite I; apply is_some; by if_cases).
    exists r. split; [done|]. eapply (range_of2 _ _ _ _ _ _ _ _ _ _ (fun x y => in_type (m_type na) x = true /\ y = asInt nb)); [exact W|exact G|reflexivity|exact Ga|exact Gb| |].
    + intros env x y En Rx Ry. split; [by apply (in_range W En Ga)|by eapply (run_int W Gb H)].
    + intros x y k [X ->] [= <-]. by eapply mask_range.
  - exists r3. split; [done|]. eapply (range_of2 _ _ _ _ _ _ _ _ _ _ (fun x y => in_range_of _ ra x /\ y = asInt nb)); [exact W|exact G|reflexivity|exact Ga|exact Gb| |].
    + intros env x y En Rx Ry. split; [by eapply Ra|by eapply (run_int W Gb H)].
    + intros x y k [X ->] [= <-]. rewrite shift_mask_small by done. by eapply shl_range.
  - exists r1. split; [done|]. eapply (range_of2 _ _ _ _ _ _ _ _ _ _ (fun x y => in_range_of _ ra x /\ y = asInt nb)); [exact W|exact G|reflexivity|exact Ga|exact Gb| |].
    + intros env x y En Rx Ry. split; [by eapply Ra|by eapply (run_int W Gb H)].
    + intros x y k [X ->] [= <-]. rewrite shift_mask_small by done. by eapply sShr_range.
  - exists r2. split; [done|]. eapply (range_of2 _ _ _ _ _ _ _ _ _ _ (fun x y => in_range_of _ ra x /\ y = asInt nb)); [exact W|exact G|reflexivity|exact Ga|exact Gb| |].
    + intros env x y En Rx Ry. split; [by eapply Ra|by eapply (run_int W Gb H)].
    + intros x y k [X ->] [= <-]. rewrite shift_mask_small by done. by eapply zShr_range.
Qed.

(** A change of the current value changes no range of a value that does not depend on it. *)
Lemma range_put k p p' m n' v : Safe (m_vector p) m v -> m_vector p' = <[m := n']> (m_vector p) -> rangeFor k p' v = rangeFor k p v /\ range_safe k p' v = range_safe k p v.
Proof.
  intros S E. revert v S. induction k as [|k IH]; intros v S; (assert (m_vector p' !! v = m_vector p !! v) as L by (rewrite E, lookup_insert_ne; [done|]; apply not_eq_sym; by eapply Safe_ne));
    [cbn; by rewrite L|]. cbn [rangeFor range_safe]. rewrite L. destruct (m_vector p !! v) as [[op ch t cs z]|] eqn:G; [|done]. cbn [mbind option_bind m_opcode m_children m_type].
  assert (forall c, c ∈ cs -> m_vector p' !! c = m_vector p !! c /\ rangeFor k p' c = rangeFor k p c /\ range_safe k p' c = range_safe k p c) as C.
  { intros c I. assert (Safe (m_vector p) m c) as Sc by (by eapply Safe_child). split; [|by apply IH]. rewrite E, lookup_insert_ne; [done|]. apply not_eq_sym. by eapply Safe_ne. }
  destruct cs as [|c0 [|c1 cs]]; [by destruct op| |].
  - destruct (C c0) as (L0 & R0 & _); [left|]. destruct op; try done; cbn; by rewrite ?R0.
  - destruct (C c0) as (L0 & R0 & S0); [left|]. destruct (C c1) as (L1 & R1 & S1); [right; left|]. destruct op; try done; cbn; rewrite ?L0, ?L1, ?R0, ?R1; (split; [done|]);
      (destruct cs; [|done]); rewrite ?S0, ?S1; done.
Qed.

(** All values that the search can meet. *)
Definition ranges_safe (p : Proc) : bool := forallb (fun '(v, _) => range_safe 5 p v) (map_to_list (m_vector p)).
Definition safe_at (g : graph) (v : Z) : Prop := forall p, m_vector p = g -> range_safe 5 p v = true.

Lemma range_ext k p q v : m_vector p = m_vector q -> rangeFor k p v = rangeFor k q v /\ range_safe k p v = range_safe k q v.
Proof.
  revert v. induction k as [|k IH]; intros v E; cbn; rewrite E; [done|]. destruct (m_vector q !! v) as [[op ch t cs z]|]; [|done]. cbn.
  destruct cs as [|c0 [|c1 cs]]; [by destruct op| |]; destruct (IH c0 E) as [R0 S0]; [destruct op; try done; cbn; by rewrite ?R0|].
  destruct (IH c1 E) as [R1 S1]. destruct op; try done; cbn; rewrite ?R0, ?R1; (split; [done|]); destruct cs; try done; rewrite ?S0, ?S1; done.
Qed.
Lemma range_safe_none k p v : m_vector p !! v = None -> range_safe k p v = true.
Proof. intros G. destruct k; cbn; [done|by rewrite G]. Qed.

Lemma ranges_safe_at p v : ranges_safe p = true -> safe_at (m_vector p) v.
Proof.
  intros S q E. rewrite (proj2 (range_ext 5 q p v E)). destruct (m_vector p !! v) as [n|] eqn:G; [|by apply range_safe_none].
  unfold ranges_safe in S. rewrite forallb_forall in S. apply (S (v, n)). apply list_elem_of_In. by apply elem_of_map_to_list.
Qed.

Lemma wp_rangesFor g a b na nb (Q : IntRange * IntRange -> graph -> Prop) : wfg g -> g !! a = Some na -> g !! b = Some nb -> is_int (m_type na) = true -> is_int (m_type nb) = true ->
  safe_at g a -> safe_at g b -> (forall ra rb, range_of g a (m_type na) ra -> range_of g b (m_type nb) rb -> Q (ra, rb) g) -> wp g (rangesFor a b) Q.
Proof.
  intros W Ga Gb Ia Ib Sa Sb H p <- Wp. destruct (rangeFor_spec 5 p a na W Ga Ia (Sa p eq_refl)) as (ra & Ea & Ra). destruct (rangeFor_spec 5 p b nb W Gb Ib (Sb p eq_refl)) as (rb & Eb & Rb).
  exists (ra, rb), p. unfold rangesFor. rewrite Ea, Eb. split_and!; [done|done|reflexivity|]. by apply H.
Qed.

(** ** Operations that exit *)
Section checks.
Context (g : graph) (m : Z) (op : Opcode) (ch : bool) (t : B3Type) (c0 c1 : Z) (rest : list Z) (z : Z).
Context (W : wfg g) (G : g !! m = Some (mkValue op ch t (c0 :: c1 :: rest) z)) (B : is_check op = true).

Lemma check_inv env o : run env g m o ->
  exists x y r args, run env g c0 (Val x) /\ run env g c1 (Val y) /\ Forall2 (fun c x => run env g c (Val x)) rest args /\ sem_check op x y = Some r /\ o = (if in_type t r then Val r else Exit args).
Proof. intros R. by apply (run_check _ _ _ _ _ _ _ _ _ _ _ G B) in R. Qed.

(** Another check with the same numbers and the same stackmap. *)
Lemma wp_put_check op' ch' a b na nb (Q : unit -> graph -> Prop) : is_check op' = true -> g !! a = Some na -> g !! b = Some nb -> m_type na = t -> m_type nb = t -> Safe g m a -> Safe g m b ->
  (forall env x y r, good_env env g -> run env g c0 (Val x) -> run env g c1 (Val y) -> sem_check op x y = Some r ->
     exists x' y', run env g a (Val x') /\ run env g b (Val y') /\ sem_check op' x' y' = Some r) ->
  Q tt (<[m := mkValue op' ch' t (a :: b :: rest) z]> g) -> wp g (put m (mkValue op' ch' t (a :: b :: rest) z)) Q.
Proof.
  intros B' Ga Gb Ta Tb Sa Sb H HQ. destruct (view_check W G B) as (? & ? & ? & n0 & n1 & [= <- <- <-] & G0 & G1 & I & T0 & T1 & _).
  destruct (validate_types _ _ (wfg_valid g W _ _ G)) as (ts & F & _). cbn in F.
  destruct ts as [|t0 [|t1 ts1]]; [inversion F|apply Forall2_cons in F as [_ F]; inversion F|]. apply Forall2_cons in F as [_ F]. apply Forall2_cons in F as [_ F1].
  eapply wp_put; [exact G|done| |by destruct op'| | |exact HQ]; cbn.
  - apply (types_validate _ _ (m_type na :: m_type nb :: ts1)); cbn; [repeat constructor; eauto|]. destruct op'; try discriminate B'; cbn [typing]; rewrite I, Ta, Tb; by rewrite !bool_decide_true.
  - intros c Hc. apply elem_of_cons in Hc as [-> | Hc]; [done|]. apply elem_of_cons in Hc as [-> | Hc]; [done|]. apply (wfg_safe g W m _ c G). cbn. set_solver.
  - intros env o E R. destruct (check_inv env o R) as (x & y & r & args & Rx & Ry & Ra & S & ->). destruct (H env x y r E Rx Ry S) as (x' & y' & Rx' & Ry' & S').
    exists (x' :: y' :: args). split; [by repeat constructor|]. unfold node_sem. cbn. destruct op'; try discriminate B'; cbn in *; injection S' as ->; done.
Qed.

End checks.

Lemma safe_at_put g m n' v : Safe g m v -> safe_at g v -> safe_at (<[m := n']> g) v.
Proof. intros S H p E. destruct (range_put 5 (mkProc g 0 [] [] false) p m n' v S E) as [_ ->]. by apply H. Qed.

(** ** Folding *)
Lemma checked_spec t f x y k : in_type t x = true -> in_type t y = true ->
  (let result := checked_op t f (checked t x) (checked t y) in if hasOverflowed result then None else Some (unsafeGet result)) = Some k -> k = f x y /\ in_type t k = true.
Proof.
  intros X Y. cbv zeta. destruct (hasOverflowed _) eqn:H; [discriminate|]. intros [= <-]. pose proof (no_overflow t f x y X Y H) as I.
  assert (unsafeGet (checked_op t f (checked t x) (checked t y)) = f x y) as ->; [|done]. clear H. unfold checked_op, checked. cbn. rewrite X, Y, !wrap_id by done. cbn. by rewrite I.
Qed.

(** [c] is the constant that the check [op] gives on the constants [a] and [b], when it does not exit. *)
Definition check_folds (op : Opcode) (f : Value -> Value -> option Value) : Prop :=
  forall t a b c, (hasInt32 a = true -> m_type a = Int32) -> (hasInt64 a = true -> m_type a = Int64) -> (hasInt a = true -> in_type (m_type a) (asInt a) = true) ->
    (hasInt32 b = true -> m_type b = Int32) -> (hasInt64 b = true -> m_type b = Int64) -> (hasInt b = true -> in_type (m_type b) (asInt b) = true) ->
    m_type a = t -> m_type b = t -> f a b = Some c -> hasInt a = true /\ hasInt b = true /\ exists k, c = const_of t k /\ in_type t k = true /\ sem_check op (asInt a) (asInt b) = Some k.

Ltac check_fold :=
  intros t [oa cha ta csa za] [ob chb tb csb zb] c A1 A2 A3 B1 B2 B3 <- Tb E; unfold hasInt, hasInt32, hasInt64, asInt in *; cbn in *;
  destruct oa; try discriminate E; destruct ob; try discriminate E;
  (specialize (A1 eq_refl) || specialize (A2 eq_refl)); (specialize (B1 eq_refl) || specialize (B2 eq_refl)); specialize (A3 eq_refl); specialize (B3 eq_refl); subst; try discriminate;
  apply fmap_Some in E as (k & E & ->); (apply checked_spec in E; [|exact A3|exact B3]); destruct E as [K R];
  (split; [done|]); (split; [done|]); exists k; (split; [reflexivity|]); (split; [exact R|]); by rewrite K.

Lemma folds_checkAdd : check_folds CheckAdd checkAddConstant.
Proof. check_fold. Qed.
Lemma folds_checkSub : check_folds CheckSub checkSubConstant.
Proof. check_fold. Qed.
Lemma folds_checkMul : check_folds CheckMul checkMulConstant.
Proof. check_fold. Qed.

Lemma ok_check_fold g m op ch t c0 c1 rest z a b f k :
  g !! m = Some (mkValue op ch t (c0 :: c1 :: rest) z) -> is_check op = true -> g !! c0 = Some a -> g !! c1 = Some b -> check_folds op f -> ok g k -> ok g (fold_or m (f a b) k).
Proof.
  intros G B Ga Gb F K. apply wp_wfg. intros W. destruct (view_check W G B) as (? & ? & ? & na & nb & [= <- <- <-] & Ga' & Gb' & I & Ta & Tb & _). simplify_eq.
  unfold fold_or, replace_or. destruct (f a b) as [c|] eqn:E; [|apply wp_bind, wp_ret; exact K].
  destruct (fold_args g c0 a W Ga) as (? & ? & ?). destruct (fold_args g c1 b W Gb) as (? & ? & ?).
  destruct (F (m_type a) a b c) as (Ha & Hb & k' & -> & R & S); auto.
  eapply ok_replace_const; [exact G|done|done|exact R|]. intros env o _ _ Rm. apply (check_inv _ _ _ _ _ _ _ _ _ G B) in Rm as (x & y & r & args & Rx & Ry & _ & Sm & ->).
  rewrite (run_int W Ga Ha Rx), (run_int W Gb Hb Ry), S in Sm. injection Sm as <-. by rewrite R.
Qed.

(** ** Exchange of the operands *)
Lemma wp_commute_check g m op ch t c0 c1 rest z : g !! m = Some (mkValue op ch t (c0 :: c1 :: rest) z) -> op = CheckAdd \/ op = CheckMul -> safe_at g c0 -> safe_at g c1 ->
  wp g (handleCommutativity m) (fun _ g' => exists a b, g' !! m = Some (mkValue op ch t (a :: b :: rest) z) /\ safe_at g' a /\ safe_at g' b).
Proof.
  intros G O S0 S1. apply wp_wfg. intros W. assert (is_check op = true) as B by by destruct O as [-> | ->].
  destruct (view_check W G B) as (? & ? & ? & na & nb & [= <- <- <-] & Ga & Gb & I & Ta & Tb & _). eapply wp_operands; [exact G|reflexivity|exact Ga|exact Gb|].
  if_cases; [|apply wp_skip; eauto]. eapply set_children_put; [exact G|].
  assert (Safe g m c0 /\ Safe g m c1) as [Sa Sb] by (split; apply (wfg_safe g W m _ _ G); cbn; set_solver).
  eapply wp_put_check; [exact W|exact G|exact B|exact B|exact Gb|exact Ga|done|done|done|done| |].
  - intros env x y r E' Rx Ry S. exists y, x. split_and!; auto. rewrite <- S. destruct O as [-> | ->]; cbn; f_equal; lia.
  - exists c1, c0. split; [apply lookup_insert_eq|]. split; by apply safe_at_put.
Qed.

(** ** The rules *)
(** A check whose number always fits is the operation [op'] without it. *)
Lemma ok_no_exit g m op ch t c0 c1 rest z op' na nb : g !! m = Some (mkValue op ch t (c0 :: c1 :: rest) z) -> is_check op = true -> g !! c0 = Some na -> g !! c1 = Some nb ->
  (op = CheckAdd /\ op' = Add) \/ (op = CheckSub /\ op' = Sub) \/ (op = CheckMul /\ op' = Mul) ->
  (forall env x y r, wfg g -> good_env env g -> run env g c0 (Val x) -> run env g c1 (Val y) -> sem_check op x y = Some r -> in_type t r = true) -> ok g (replaceWithNew m op' [c0; c1]).
Proof.
  intros G B Ga Gb O H. apply wp_wfg. intros W. destruct (view_check W G B) as (? & ? & ? & ? & ? & [= <- <- <-] & Ga' & Gb' & I & Ta & Tb & _). simplify_eq.
  assert (Safe g m c0 /\ Safe g m c1) as [Sa Sb] by (split; apply (wfg_safe g W m _ _ G); cbn; set_solver).
  eapply ok_new2; [exact G|done|exact Ga|exact Gb|done|done|by destruct O as [[_ ->] | [[_ ->] | [_ ->]]]| | |].
  - destruct O as [[_ ->] | [[_ ->] | [_ ->]]]; reflexivity.
  - destruct O as [[_ ->] | [[_ ->] | [_ ->]]]; cbn [typing m_type]; rewrite I, Tb; by rewrite !bool_decide_true.
  - intros env o _ E R. destruct (check_inv _ _ _ _ _ _ _ _ _ G B _ _ R) as (x & y & r & args & Rx & Ry & _ & S & ->). pose proof (H env x y r W E Rx Ry S) as In. rewrite In.
    exists x, y, r. split_and!; auto. destruct O as [[-> ->] | [[-> ->] | [-> ->]]]; cbn in *; injection S as <-; f_equal; by apply wrap_id.
Qed.

(** A check that gives its first operand. *)
Lemma ok_check_identity g m op ch t c0 c1 rest z na nb : g !! m = Some (mkValue op ch t (c0 :: c1 :: rest) z) -> is_check op = true -> g !! c0 = Some na -> g !! c1 = Some nb ->
  hasInt nb = true -> (forall x, sem_check op x (asInt nb) = Some x) -> ok g (replaceWithIdentity m c0).
Proof.
  intros G B Ga Gb Hb H. apply wp_wfg. intros W. destruct (view_check W G B) as (? & ? & ? & ? & ? & [= <- <- <-] & Ga' & Gb' & I & Ta & Tb & _). simplify_eq.
  eapply ok_replaceWithIdentity; [exact G|exact Ga|done|by apply int_not_void|apply (wfg_safe g W m _ _ G); cbn; set_solver|].
  intros env o _ E R. destruct (check_inv _ _ _ _ _ _ _ _ _ G B _ _ R) as (x & y & r & args & Rx & Ry & _ & S & ->). rewrite (run_int W Gb Hb Ry), H in S. injection S as <-.
  rewrite (in_range W E Ga I Rx). eauto.
Qed.

Lemma in_range_type t r x : in_range_of t r x -> in_type t x = true.
Proof. intros (A & B & C). rewrite in_type_iff in *. lia. Qed.

Lemma ok_checkadd g m ch t c0 c1 rest z : g !! m = Some (mkValue CheckAdd ch t (c0 :: c1 :: rest) z) -> safe_at g c0 -> safe_at g c1 -> ok g (reduceCheckAdd m).
Proof.
  intros G S0 S1. apply wp_wfg. intros W. destruct (view_check W G eq_refl) as (? & ? & ? & na & nb & [= <- <- <-] & Ga & Gb & _).
  eapply wp_operands; [exact G|reflexivity|exact Ga|exact Gb|]. eapply ok_check_fold; [exact G|reflexivity|exact Ga|exact Gb|apply folds_checkAdd|].
  apply wp_bind. eapply wp_mono; [|eapply wp_commute_check; eauto]. clear. intros [] g' (c0 & c1 & G & S0 & S1). apply wp_wfg. intros W.
  destruct (view_check W G eq_refl) as (? & ? & ? & na & nb & [= <- <- <-] & Ga & Gb & I & Ta & Tb & _). eapply wp_operands; [exact G|reflexivity|exact Ga|exact Gb|].
  test K; [apply isInt_true in K as [K1 K2]; eapply ok_check_identity; [exact G|reflexivity|exact Ga|exact Gb|done|]; intros x; cbn; rewrite K2; f_equal; lia|].
  apply wp_bind. eapply wp_rangesFor; [exact W|exact Ga|exact Gb|by rewrite Ta|by rewrite Tb|done|done|]. rewrite Ta, Tb. intros ra rb Ra Rb. test C; [by apply wp_skip|].
  eapply ok_no_exit; [exact G|reflexivity|exact Ga|exact Gb|auto|]. intros env x y r _ E Rx Ry [= <-]. eapply in_range_type, add_fits; [done|by eapply Ra|by eapply Rb|exact C].
Qed.

(** [convertToAdd] and a new second operand. *)
Lemma convert_put g m op ch t c0 c1 rest z b (Q : unit -> graph -> Prop) : g !! m = Some (mkValue op ch t (c0 :: c1 :: rest) z) -> is_check op = true ->
  wp g (put m (mkValue CheckAdd false t (c0 :: b :: rest) z)) Q -> wp g (convertToAdd m ;;; set_child m 1 b ;;; changed) Q.
Proof.
  intros G B H. apply wp_ext with (c' := put m (mkValue CheckAdd false t (c0 :: b :: rest) z) ;;; changed).
  - intros p <-. rewrite <- (bind_assoc (convertToAdd m) (fun _ => set_child m 1 b) (fun _ => changed)). apply bind_ext; [|done].
    rewrite <- (put_put p m _ (mkValue CheckAdd false t (c0 :: c1 :: rest) z) _ G). apply bind_ext; [|intros u p' E; eapply set_child_put; [by eapply put_after|done]].
    unfold convertToAdd, bind, get, need. rewrite G. cbn [mbind option_bind m_opcode m_type m_children m_value]. case_guard as Hg; [done|]. exfalso. apply Hg. destruct op; auto; discriminate B.
  - apply wp_bind. eapply wp_mono; [|exact H]. intros [] g' HQ. by apply wp_changed.
Qed.

Lemma checkNeg_spec n c t : (hasInt32 n = true -> m_type n = Int32) -> (hasInt64 n = true -> m_type n = Int64) -> (hasInt n = true -> in_type (m_type n) (asInt n) = true) ->
  checkNegConstant n = Some c -> m_type n = t -> hasInt n = true /\ c = const_of t (- asInt n) /\ in_type t (- asInt n) = true.
Proof.
  intros A B R E <-. destruct n as [op ch t cs z]. unfold hasInt, hasInt32, hasInt64, asInt in *.
  assert (forall t', in_type t' z = true -> z <> wrap t' (- z) -> wrap t' (- z) = - z /\ in_type t' (- z) = true) as N.
  { intros t' In Ne. assert (in_type t' (- z) = true); [|split; [by apply wrap_id|done]]. rewrite in_type_iff in *. pose proof (pow_half_pos t').
    destruct (Z.eq_dec z (- 2 ^ (bits t' - 1))) as [-> |]; [|lia]. exfalso. apply Ne. by destruct t'. }
  destruct op; try discriminate E; cbn in *; apply fmap_Some in E as (k & E & ->); (specialize (A eq_refl) || specialize (B eq_refl)); specialize (R eq_refl); subst;
    [unfold Const32Value.checkNegConstant, Const32Value.negConstant in E; destruct (N Int32 R) as [N1 N2]|unfold Const64Value.checkNegConstant, Const64Value.negConstant in E; destruct (N Int64 R) as [N1 N2]];
    destruct (z =? _) eqn:Z; try discriminate E; bool_prop; try done; injection E as <-; cbn in *; rewrite N1; done.
Qed.

Lemma ok_checksub g m ch t c0 c1 rest z : g !! m = Some (mkValue CheckSub ch t (c0 :: c1 :: rest) z) -> safe_at g c0 -> safe_at g c1 -> ok g (reduceCheckSub m).
Proof.
  intros G S0 S1. apply wp_wfg. intros W. destruct (view_check W G eq_refl) as (? & ? & ? & na & nb & [= <- <- <-] & Ga & Gb & I & Ta & Tb & _).
  eapply wp_operands; [exact G|reflexivity|exact Ga|exact Gb|]. eapply ok_check_fold; [exact G|reflexivity|exact Ga|exact Gb|apply folds_checkSub|].
  test K; [apply isInt_true in K as [K1 K2]; eapply ok_check_identity; [exact G|reflexivity|exact Ga|exact Gb|done|]; intros x; cbn; rewrite K2; f_equal; lia|].
  apply wp_bind. destruct (checkNegConstant nb) as [c|] eqn:E.
  - destruct (fold_args g c1 nb W Gb) as (F1 & F2 & F3). destruct (checkNeg_spec nb c t F1 F2 F3 E Tb) as (Hb & -> & R).
    eapply wp_makeConstant; [reflexivity|done|exact R|]. intros v g' A. apply wp_wfg. intros W'. assert (Safe g' m v) as Sv by (eapply added_safe; [exact G|exact A|]; rewrite const_children; set_solver).
    assert (Safe g m c0) as Sc by (apply (wfg_safe g W m _ _ G); cbn; set_solver). lift A. apply wp_bind, wp_insertValue. eapply convert_put; [exact G|reflexivity|].
    eapply wp_put_check; [exact W'|exact G|reflexivity|reflexivity|exact Ga|exact Gn|done|by rewrite const_type|done|done| |done].
    intros env x y r En Rx Ry [= <-]. exists x, (- asInt nb). split_and!; [done|by eapply (run_const_of W' Gn)|]. rewrite (run_int W' Gb Hb Ry). cbn. done.
  - apply wp_ret. apply wp_bind. eapply wp_rangesFor; [exact W|exact Ga|exact Gb|by rewrite Ta|by rewrite Tb|done|done|]. rewrite Ta, Tb. intros ra rb Ra Rb. test C; [by apply wp_skip|].
    eapply ok_no_exit; [exact G|reflexivity|exact Ga|exact Gb|auto|]. intros env x y r _ En Rx Ry [= <-]. eapply in_range_type, sub_fits; [done|by eapply Ra|by eapply Rb|exact C].
Qed.

Lemma ok_checkmul g m ch t c0 c1 rest z : g !! m = Some (mkValue CheckMul ch t (c0 :: c1 :: rest) z) -> safe_at g c0 -> safe_at g c1 -> ok g (reduceCheckMul m).
Proof.
  intros G S0 S1. apply wp_wfg. intros W. destruct (view_check W G eq_refl) as (? & ? & ? & na & nb & [= <- <- <-] & Ga & Gb & _).
  eapply wp_operands; [exact G|reflexivity|exact Ga|exact Gb|]. eapply ok_check_fold; [exact G|reflexivity|exact Ga|exact Gb|apply folds_checkMul|].
  apply wp_bind. eapply wp_mono; [|eapply wp_commute_check; eauto]. clear. intros [] g' (c0 & c1 & G & S0 & S1). apply wp_wfg. intros W.
  destruct (view_check W G eq_refl) as (? & ? & ? & na & nb & [= <- <- <-] & Ga & Gb & I & Ta & Tb & _). eapply wp_operands; [exact G|reflexivity|exact Ga|exact Gb|]. cbv zeta.
  match goal with |- ok _ (if _ then if _ then _ else if _ then _ else if _ then _ else ?K else _) => assert (ok g' K) as Ranges end.
  { apply wp_bind. eapply wp_rangesFor; [exact W|exact Ga|exact Gb|by rewrite Ta|by rewrite Tb|done|done|]. rewrite Ta, Tb. intros ra rb Ra Rb. test C; [by apply wp_skip|].
    eapply ok_no_exit; [exact G|reflexivity|exact Ga|exact Gb|auto|]. intros env x y r _ E Rx Ry [= <-]. eapply in_range_type, mul_fits; [done|by eapply Ra|by eapply Rb|exact C]. }
  test H; [|exact Ranges]. test K0.
  { apply Z.eqb_eq in K0. eapply ok_int_const; [exact G|reflexivity|done|]. intros env o _ E R. destruct (check_inv _ _ _ _ _ _ _ _ _ G eq_refl _ _ R) as (x & y & r & args & Rx & Ry & _ & S & ->).
    rewrite (run_int W Gb H Ry), K0 in S. injection S as <-. rewrite Z.mul_0_r. by destruct t. }
  test K1; [apply Z.eqb_eq in K1; eapply ok_check_identity; [exact G|reflexivity|exact Ga|exact Gb|done|]; intros x; cbn; rewrite K1; f_equal; lia|].
  test K2; [|exact Ranges]. apply Z.eqb_eq in K2. eapply convert_put; [exact G|reflexivity|].
  assert (Safe g' m c0) as Sc by (apply (wfg_safe g' W m _ _ G); cbn; set_solver).
  eapply wp_put_check; [exact W|exact G|reflexivity|reflexivity|exact Ga|exact Ga|done|done|done|done| |done].
  intros env x y r En Rx Ry [= <-]. exists x, x. split_and!; auto. rewrite (run_int W Gb H Ry), K2. cbn. f_equal. lia.
Qed.

(** ** The claim about ranges *)
(** C11: the range that [rangeFor] finds for an integer value of a well-formed procedure contains every result of the value, in
    every environment, and the search gives a range, as long as it meets no negative mask other than -1, no shift by an amount
    outside of the width and no left shift in which one end of the range overflows and the other does not. *)
Theorem rangeFor_correct ttl p v n : wf p -> m_vector p !! v = Some n -> is_int (m_type n) = true -> range_safe ttl p v = true ->
  exists r, rangeFor ttl p v = Some r /\ forall env x, good_env env (m_vector p) -> run env (m_vector p) v (Val x) -> m_min r <= x <= m_max r.
Proof.
  intros W G I S. destruct (rangeFor_spec ttl p v n (wf_wfg p W) G I S) as (r & E & R). exists r. split; [done|]. intros env x En Rx. apply (R env x En Rx).
Qed.

(** An argument, a constant, the conjunction of them and its double. *)
Definition range_example : Proc :=
  mkProc (list_to_map [(0, mkValue OtherOp false Int32 [] 0); (1, const32 255); (2, mkValue BitAnd false Int32 [0; 1] 0); (3, mkValue Add false Int32 [2; 2] 0)]) 4 [] [] false.
Lemma rangeFor_correct_witness :
  rangeFor 5 range_example 3 = Some (mkIntRange 0 510) /\
  exists r, rangeFor 5 range_example 3 = Some r /\ forall env x, good_env env (m_vector range_example) -> run env (m_vector range_example) 3 (Val x) -> m_min r <= x <= m_max r.
Proof.
  split; [vm_compute; reflexivity|].
  apply (rangeFor_correct 5 range_example 3 (mkValue Add false Int32 [2; 2] 0)); [apply wfb_wf; vm_compute; reflexivity|vm_compute; reflexivity|reflexivity|vm_compute; reflexivity].
Defined.
