(* ===== verification/B3ReduceStrength.v ===== *)
(** * B3ReduceStrength: the pass keeps what a procedure computes *)
From stdpp Require Import gmap.
From S2P Require Import Prelude B3Value B3Const B3IntRange B3DivisionMagic B3Reduce B3Semantics B3Graph B3Arith B3Rules B3Steps.
From S2P Require Import B3ReduceAdd B3ReduceBits B3ReduceCompare B3ReduceDiv B3ReduceCheck.
Local Open Scope Z_scope.

(** ** Substitution of identities *)
(** [w] stands for [v]: it has its type and its results, and depends on nothing else. *)
Definition stands_for (g : graph) (v w : Z) : Prop :=
  (exists n k, g !! v = Some n /\ g !! w = Some k /\ m_type k = m_type n) /\ (forall m, Safe g m v -> Safe g m w) /\ forall env x, run env g v (Val x) -> run env g w (Val x).

Lemma foldIdentity_spec f p v : wfg (m_vector p) -> down f (m_vector p) v = true -> exists w, foldIdentity_loop f p v = Some w /\ stands_for (m_vector p) v w.
Proof.
  intros W. revert v. induction f as [|f IH]; intros v D; [discriminate|]. destruct (m_vector p !! v) as [n|] eqn:G; [|cbn in D; by rewrite G in D].
  cbn [foldIdentity_loop]. rewrite G. cbn [mbind option_bind]. destruct (is_op n Identity) eqn:O.
  - op_node O. destruct (view1 W G eq_refl) as (a & na & -> & Ga & T). types. cbn. destruct (IH a) as (w & E & (n' & k & Gn & Gk & Tk) & S & R); [eapply down_children; [exact D|exact G|left]|]. simplify_eq.
    exists w. split; [done|]. split_and!; [eauto 8| |].
    + intros m Sm. apply S. eapply Safe_child; [exact Sm|exact G|left].
    + intros env y Ry. apply R. inv_run Ry. done.
  - exists v. split; [done|]. split_and!; eauto 6.
Qed.

Lemma substitute_spec p cs : wf p -> (forall c, c ∈ cs -> exists n, m_vector p !! c = Some n) ->
  exists cs', substitute_children cs p = Some (cs', p) /\ Forall2 (stands_for (m_vector p)) cs cs'.
Proof.
  intros W. induction cs as [|c cs IH]; intros H; [exists []; split; [done|constructor]|]. destruct (H c) as [n G]; [left|]. destruct (wf_down p W c n G) as [f D]. apply down_size in D.
  destruct (foldIdentity_spec _ _ _ (wf_wfg p W) D) as (w & E & S). destruct IH as (cs' & E' & F); [intros; apply H; by right|].
  exists (w :: cs'). cbn. unfold bind, foldIdentity. rewrite E. cbn. rewrite E'. split; [done|by constructor].
Qed.

(** The value keeps its operation; what stands for its children replaces them. *)
Lemma ok_substitution g m n : g !! m = Some n ->
  wp g (performSubstitution m) (fun _ g' => exists cs, g' = <[m := mkValue (m_opcode n) (m_isChill n) (m_type n) cs (m_value n)]> g /\ forall c, c ∈ cs -> Safe g m c).
Proof.
  intros G p <- W. destruct n as [op ch t cs z] eqn:En. pose proof (wf_wfg p W) as Wg. pose proof (wfg_valid _ Wg _ _ G) as V.
  destruct (substitute_spec p cs W) as (cs' & E & F); [intros c I; by apply (validate_children _ _ c V)|].
  assert (forall c, c ∈ cs' -> Safe (m_vector p) m c) as S.
  { intros c I. apply list_elem_of_lookup in I as [i I]. destruct (Forall2_lookup_r _ _ _ _ _ F I) as (c0 & I0 & _ & H & _). apply H. apply (wfg_safe _ Wg m _ c0 G). cbn. by eapply list_elem_of_lookup_2. }
  assert (performSubstitution m p = put m (mkValue op ch t cs' z) p) as -> by (unfold performSubstitution, bind, get; rewrite G; cbn; by rewrite E).
  cut (wp (m_vector p) (put m (mkValue op ch t cs' z)) (fun _ g' => exists cs, g' = <[m := mkValue op ch t cs z]> (m_vector p) /\ forall c, c ∈ cs -> Safe (m_vector p) m c)); [intros H; by apply H|].
  eapply wp_put_gen; [exact G|done| |by right|exact S| |by eauto].
  - destruct (validate_types _ _ V) as (ts & Ft & T). apply (types_validate _ _ ts); [|exact T]. cbn in *. apply Forall2_same_length_lookup_2.
    { rewrite <- (Forall2_length _ _ _ Ft). symmetry. by eapply Forall2_length. }
    intros i c u Ic Iu. destruct (Forall2_lookup_r _ _ _ _ _ F Ic) as (c0 & I0 & (n0 & k & G0 & Gk & Tk) & _). destruct (Forall2_lookup_lr _ _ _ _ _ _ Ft I0 Iu) as (a & Ga & <-). simplify_eq. eauto.
  - intros env o _ R. apply run_iff in R as (n' & args & G' & A & Sm). simplify_eq. exists args. cbn in *. split.
    + apply Forall2_same_length_lookup_2; [rewrite <- (Forall2_length _ _ _ A); symmetry; by eapply Forall2_length|].
      intros i c x Ic Ix. destruct (Forall2_lookup_r _ _ _ _ _ F Ic) as (c0 & I0 & _ & _ & Rn). apply Rn. exact (Forall2_lookup_lr _ _ _ _ _ _ A I0 Ix).
    + rewrite <- Sm. unfold node_sem. cbn [m_opcode m_type m_value m_isChill]. assert (operand_type (m_vector p) (mkValue op ch t cs' z) = operand_type (m_vector p) (mkValue op ch t cs z)) as ->; [|done].
      unfold operand_type. cbn. destruct op; try done; (destruct F as [|c c' cs cs' ((n0 & k & G0 & Gk & Tk) & _) F]; [done|]; cbn; by rewrite G0, Gk).
Qed.

(** ** One value *)
Section visit.
Context (optLevel : Z) (hasQuirks : bool).

(** The two operands of a check have ranges that [rangeFor] gets right. *)
Definition checks_safe (g : graph) (n : Value) : Prop := is_check (m_opcode n) = true -> forall c, c ∈ m_children n -> safe_at g c.

Lemma ok_reduce g m n : g !! m = Some n -> checks_safe g n -> ok g (reduceValueStrength optLevel hasQuirks m).
Proof.
  intros G S. apply wp_wfg. intros W. unfold reduceValueStrength. apply wp_bind. eapply wp_get; [exact G|]. destruct n as [op ch t cs z]. cbn [m_opcode]. unfold checks_safe in S. cbn in S.
  destruct op; try (apply wp_skip; exact I);
    try first [simple eapply ok_add; exact G | simple eapply ok_sub; exact G | simple eapply ok_neg; exact G | simple eapply ok_mul; exact G | simple eapply ok_div; exact G | simple eapply ok_udiv; exact G | simple eapply ok_mod; exact G | simple eapply ok_umod; exact G | simple eapply ok_bitand; exact G | simple eapply ok_bitor; exact G | simple eapply ok_bitxor; exact G | simple eapply ok_shl; exact G | simple eapply ok_sshr; exact G | simple eapply ok_zshr; exact G | simple eapply ok_rotr; exact G | simple eapply ok_rotl; exact G | simple eapply ok_sext8; exact G | simple eapply ok_sext16; exact G | simple eapply ok_sext32; exact G | simple eapply ok_zext32; exact G | simple eapply ok_trunc; exact G | simple eapply ok_select; exact G | simple eapply ok_equal; exact G | simple eapply ok_notequal; exact G
      | simple eapply ok_comparison; [|exact G]; reflexivity].
  all: destruct (view_check W G eq_refl) as (a & b & rest & _ & _ & -> & _);
    (eapply ok_checkadd || eapply ok_checksub || eapply ok_checkmul); [exact G| |]; apply S; set_solver.
Qed.

Lemma ok_visit g m n : g !! m = Some n -> (is_check (m_opcode n) = true -> forall v, safe_at g v) -> ok g (visit optLevel hasQuirks m).
Proof.
  intros G S. apply wp_bind. eapply wp_mono; [|by apply ok_substitution]. intros [] g' (cs & -> & Sc). eapply ok_reduce; [apply lookup_insert_eq|].
  intros C c Hc. cbn in *. apply safe_at_put; auto.
Qed.


End visit.

(** A check with a range that is known: the masked argument and the constant do not overflow. *)
Definition check_example : Proc :=
  mkProc (list_to_map [(0, mkValue OtherOp false Int32 [] 0); (1, const32 255); (2, mkValue BitAnd false Int32 [0; 1] 0); (3, mkValue CheckAdd false Int32 [2; 1; 0] 0)]) 4 [] [] false.

(** ** Where the code is wrong *)
(** An outcome of the current value, before and after the rules. *)
Definition outcomes (p : Proc) (env : Z -> list Z -> Z) (m : Z) : option (outcome * outcome) :=
  '(_, p') ← visit 2 false m p; before ← eval 10 env (m_vector p) m; after ← eval 10 env (m_vector p') m; Some (before, after).

(** The range of a negative mask is taken to be from 0 down to the mask: the sum of two masked arguments loses its check, and
    an addition that has to exit wraps around. *)
Definition mask_example : Proc :=
  mkProc (list_to_map [(0, mkValue OtherOp false Int32 [] 0); (1, const32 (-2)); (2, mkValue BitAnd false Int32 [0; 1] 0); (3, mkValue CheckAdd false Int32 [2; 2] 0)]) 4 [] [] false.
Lemma negative_mask_loses_exit : wf mask_example /\ outcomes mask_example (fun _ _ => 2 ^ 31 - 2) 3 = Some (Exit [], Val (-4)).
Proof. split; [apply wfb_wf; vm_compute; reflexivity|vm_compute; reflexivity]. Qed.

(** A left shift of which only the upper end of the range overflows keeps the lower end. *)
Definition shl_example : Proc :=
  mkProc (list_to_map [(0, mkValue OtherOp false Int32 [] 0); (1, const32 (2 ^ 29)); (2, mkValue BitAnd false Int32 [0; 1] 0); (3, const32 2);
    (4, mkValue Shl false Int32 [2; 3] 0); (5, const32 (-1)); (6, mkValue CheckAdd false Int32 [4; 5] 0)]) 7 [] [] false.
Lemma shifted_range_loses_exit : wf shl_example /\ outcomes shl_example (fun _ _ => 2 ^ 29) 6 = Some (Exit [], Val (2 ^ 31 - 1)).
Proof. split; [apply wfb_wf; vm_compute; reflexivity|vm_compute; reflexivity]. Qed.

(** De Morgan with a constant: the complement of the constant is added to the procedure, but not to the block. *)
Definition deMorgan_example : Proc :=
  mkProc (list_to_map [(0, mkValue OtherOp false Int64 [] 0); (1, const64 (-1)); (2, mkValue BitXor false Int64 [0; 1] 0); (3, const64 12); (4, mkValue BitOr false Int64 [2; 3] 0)]) 5 [] [] false.
Lemma deMorgan_constant_not_inserted : wf deMorgan_example /\ exists p', visit 2 false 4 deMorgan_example = Some (tt, p') /\
  m_vector p' !! 6 = Some (mkValue BitAnd false Int64 [0; 5] 0) /\ m_vector p' !! 5 = Some (const64 (-13)) /\ m_insertions p' = [6; 7].
Proof. split; [apply wfb_wf; vm_compute; reflexivity|]. eexists. split; [vm_compute; reflexivity|]. split; [|split]; vm_compute; reflexivity. Qed.

(** The complement of 32 bits is not known as one. *)
Lemma all_ones_of_32_bits_unknown n : in_type Int32 (asInt n) = true -> isAllOnes Int32 n = false.
Proof.
  intros R. unfold isAllOnes, isInt. change (s64 (2 ^ 32 - 1)) with (2 ^ 32 - 1). rewrite (proj2 (Z.eqb_neq _ _)); [apply andb_false_r|]. apply in_type_iff in R. cbn in R. lia.
Qed.
