(* ===== verification/JSValue.v ===== *)
(** * JSValue: the two encodings of JavaScript values in 64 bits
      (src/Source/JavaScriptCore/runtime/JSCJSValue.h, JSCJSValueInlines.h, PureNaN.h, MathCommon.h)

    [JSVALUE64] is the encoding of 64-bit platforms and [JSVALUE32_64] the one of
    32-bit platforms.  An encoded value is its 64 bits, a double its IEEE 754 bits and a cell its address.  [JSValueRep] is the
    interface that the rest of the engine uses. *)
From S2P Require Import Prelude Doubles BigInt.
Local Open Scope Z_scope.

Class JSValueRep : Type := {
  ofEmpty : Z; ofDeleted : Z; ofNull : Z; ofUndefined : Z; ofTrue : Z; ofFalse : Z;
  ofInt32 : Z -> Z; ofDouble : Z -> Z; ofCell : Z -> Z;
  isEmpty : Z -> bool; isUndefined : Z -> bool; isNull : Z -> bool; isUndefinedOrNull : Z -> bool;
  isTrue : Z -> bool; isFalse : Z -> bool; isBoolean : Z -> bool; isCell : Z -> bool;
  isInt32 : Z -> bool; isDouble : Z -> bool; isNumber : Z -> bool;
  asBoolean : Z -> bool; asInt32 : Z -> Z; asDouble : Z -> Z; asCell : Z -> Z;
  (** What the address of a cell can be. *)
  valid_cell : Z -> Prop
}.

(** ** 64-bit platforms *)
Definition DoubleEncodeOffset : Z := 0x1000000000000.
Definition TagTypeNumber : Z := 0xffff000000000000.
Definition TagBitTypeOther : Z := 0x2.
Definition TagBitBool : Z := 0x4.
Definition TagBitUndefined : Z := 0x8.
Definition ValueFalse : Z := Z.lor (Z.lor TagBitTypeOther TagBitBool) 0.
Definition ValueTrue : Z := Z.lor (Z.lor TagBitTypeOther TagBitBool) 1.
Definition ValueUndefined : Z := Z.lor TagBitTypeOther TagBitUndefined.
Definition ValueNull : Z := TagBitTypeOther.
Definition TagMask : Z := Z.lor TagTypeNumber TagBitTypeOther.
Definition ValueEmpty : Z := 0x0.
Definition ValueDeleted : Z := 0x4.

Definition encodeInt32_64 (i : Z) : Z := Z.lor TagTypeNumber (u32 i).
Definition encodeDouble_64 (d : Z) : Z := u64 (d + DoubleEncodeOffset).
Definition isUndefinedOrNull_64 (v : Z) : bool := Z.land v (Z.lnot TagBitUndefined) =? ValueNull.
Definition isBoolean_64 (v : Z) : bool := Z.land v (Z.lnot 1) =? ValueFalse.
Definition isCell_64 (v : Z) : bool := Z.land v TagMask =? 0.
Definition isInt32_64 (v : Z) : bool := Z.land v TagTypeNumber =? TagTypeNumber.
Definition isNumber_64 (v : Z) : bool := negb (Z.land v TagTypeNumber =? 0).
Definition isDouble_64 (v : Z) : bool := isNumber_64 v && negb (isInt32_64 v).
Definition asInt32_64 (v : Z) : Z := s32 v.
Definition asDouble_64 (v : Z) : Z := u64 (v - DoubleEncodeOffset).

(** Cells are aligned and lie in the lower 2^48 bytes, outside of the first page. *)
Definition valid_cell_64 (p : Z) : Prop := 0 < p < 2 ^ 48 /\ p mod 8 = 0.

#[export] Instance JSVALUE64 : JSValueRep := {|
  ofEmpty := ValueEmpty; ofDeleted := ValueDeleted; ofNull := ValueNull; ofUndefined := ValueUndefined; ofTrue := ValueTrue; ofFalse := ValueFalse;
  ofInt32 := encodeInt32_64; ofDouble := encodeDouble_64; ofCell := fun p => p;
  isEmpty := fun v => v =? ValueEmpty; isUndefined := fun v => v =? ValueUndefined; isNull := fun v => v =? ValueNull;
  isUndefinedOrNull := isUndefinedOrNull_64; isTrue := fun v => v =? ValueTrue; isFalse := fun v => v =? ValueFalse;
  isBoolean := isBoolean_64; isCell := isCell_64; isInt32 := isInt32_64; isDouble := isDouble_64; isNumber := isNumber_64;
  asBoolean := fun v => v =? ValueTrue; asInt32 := asInt32_64; asDouble := asDouble_64; asCell := fun v => v;
  valid_cell := valid_cell_64
|}.

(** ** 32-bit platforms *)
Definition Int32Tag : Z := 0xffffffff.
Definition BooleanTag : Z := 0xfffffffe.
Definition NullTag : Z := 0xfffffffd.
Definition UndefinedTag : Z := 0xfffffffc.
Definition CellTag : Z := 0xfffffffb.
Definition EmptyValueTag : Z := 0xfffffffa.
Definition DeletedValueTag : Z := 0xfffffff9.
Definition LowestTag : Z := DeletedValueTag.

Definition tag (v : Z) : Z := u32 (Z.shiftr v 32).
Definition payload (v : Z) : Z := s32 v.
Definition bits_of (t p : Z) : Z := Z.lor (Z.shiftl t 32) (u32 p).

Definition encodeCell_32 (p : Z) : Z := if negb (p =? 0) then bits_of CellTag p else bits_of EmptyValueTag p.
Definition isDouble_32 (v : Z) : bool := tag v <? LowestTag.
Definition isInt32_32 (v : Z) : bool := tag v =? Int32Tag.
Definition isUndefined_32 (v : Z) : bool := tag v =? UndefinedTag.
Definition isNull_32 (v : Z) : bool := tag v =? NullTag.
Definition isTrue_32 (v : Z) : bool := (tag v =? BooleanTag) && negb (payload v =? 0).
Definition isFalse_32 (v : Z) : bool := (tag v =? BooleanTag) && (payload v =? 0).

Definition valid_cell_32 (p : Z) : Prop := 0 < p < 2 ^ 32.

#[export] Instance JSVALUE32_64 : JSValueRep := {|
  ofEmpty := bits_of EmptyValueTag 0; ofDeleted := bits_of DeletedValueTag 0; ofNull := bits_of NullTag 0; ofUndefined := bits_of UndefinedTag 0;
  ofTrue := bits_of BooleanTag 1; ofFalse := bits_of BooleanTag 0;
  ofInt32 := bits_of Int32Tag; ofDouble := fun d => d; ofCell := encodeCell_32;
  isEmpty := fun v => tag v =? EmptyValueTag; isUndefined := isUndefined_32; isNull := isNull_32;
  isUndefinedOrNull := fun v => isUndefined_32 v || isNull_32 v; isTrue := isTrue_32; isFalse := isFalse_32;
  isBoolean := fun v => tag v =? BooleanTag; isCell := fun v => tag v =? CellTag; isInt32 := isInt32_32; isDouble := isDouble_32;
  isNumber := fun v => isInt32_32 v || isDouble_32 v;
  asBoolean := fun v => negb (payload v =? 0); asInt32 := payload; asDouble := fun v => v; asCell := fun v => u32 (payload v);
  valid_cell := valid_cell_32
|}.

(** ** Doubles that may be encoded *)
Definition pureNaN : Z := 0x7ff8000000000000.
Definition isImpureNaN (d : Z) : bool := 0xfffe000000000000 <=? d.
Definition purifyNaN (d : Z) : Z := if negb (double_eq d d) then pureNaN else d.

(** ** What the engine builds on the interface *)
(** The kinds of cells that comparisons look into.  A string is [None] when it is a rope that there is no memory to
    resolve. *)
Inductive cell : Type := StringCell (s : option (list Z)) | BigIntCell (b : JSBigInt) | OtherCell.

Section client.
Context `{JSValueRep}.

(** The conversion of a double to an [int32_t] where the language leaves it undefined. *)
Context (undefined_cast : Z -> Z).

Definition cast_int32 (d : Z) : Z :=
  let x := decode_double d in
  if negb (0x7ff0000000000000 <=? d mod 2 ^ 63) && (- 2 ^ 31 <=? trunc x) && (trunc x <? 2 ^ 31) then trunc x else undefined_cast d.

Definition canBeStrictInt32 (value : Z) : bool :=
  let asInt32 := cast_int32 value in
  negb (negb (double_eq (double_of_int asInt32) value) || ((asInt32 =? 0) && signbit value)).

Definition jsNumber_double (d : Z) : Z := if canBeStrictInt32 d then ofInt32 (cast_int32 d) else ofDouble d.
Definition jsNumber_unsigned (i : Z) : Z := if s32 i <? 0 then ofDouble (double_of_int i) else ofInt32 (s32 i).

Definition isUInt32 (v : Z) : bool := isInt32 v && (0 <=? asInt32 v).
Definition asUInt32 (v : Z) : Z := u32 (asInt32 v).
Definition asNumber (v : Z) : Z := if isInt32 v then double_of_int (asInt32 v) else asDouble v.
Definition jsNaN : Z := ofDouble pureNaN.

(** The cell at an address. *)
Context `{DigitConfig} (cell_at : Z -> cell).

Definition string_equal (s1 s2 : option (list Z)) : res bool :=
  match s1, s2 with Some s1, Some s2 => Ok (bool_decide (s1 = s2)) | _, _ => Throw OutOfMemoryError end.

Definition strictEqualSlowCaseInline (v1 v2 : Z) : res bool :=
  ASSERT (isCell v1 && isCell v2);;
  match cell_at (asCell v1), cell_at (asCell v2) with
  | StringCell s1, StringCell s2 => string_equal s1 s2
  | BigIntCell x, BigIntCell y => equals x y
  | _, _ => Ok (v1 =? v2)
  end.

Definition strictEqual (v1 v2 : Z) : res bool :=
  if isInt32 v1 && isInt32 v2 then Ok (v1 =? v2)
  else if isNumber v1 && isNumber v2 then Ok (double_eq (asNumber v1) (asNumber v2))
  else if negb (isCell v1) || negb (isCell v2) then Ok (v1 =? v2)
  else strictEqualSlowCaseInline v1 v2.

Definition sameValue (a b : Z) : res bool :=
  if negb (isNumber a) then strictEqual a b
  else if negb (isNumber b) then Ok false
  else
    let x := asNumber a in
    let y := asNumber b in
    Ok (if is_nan x || is_nan y then is_nan x && is_nan y else x =? y).
End client.

(** ** What an encoding promises *)
Inductive jsvalue : Type :=
  | VEmpty | VDeleted | VNull | VUndefined | VBool (b : bool) | VInt32 (n : Z) | VDouble (d : Z) | VCell (p : Z).

Definition to_bits `{JSValueRep} (v : jsvalue) : Z :=
  match v with
  | VEmpty => ofEmpty | VDeleted => ofDeleted | VNull => ofNull | VUndefined => ofUndefined
  | VBool true => ofTrue | VBool false => ofFalse
  | VInt32 n => ofInt32 n | VDouble d => ofDouble d | VCell p => ofCell p
  end.

Definition wf_value `{JSValueRep} (v : jsvalue) : Prop :=
  match v with
  | VInt32 n => is_s32 n
  | VDouble d => is_u64 d /\ isImpureNaN d = false
  | VCell p => valid_cell p
  | _ => True
  end.

#[export] Instance jsvalue_eq_dec : EqDecision jsvalue.
Proof. solve_decision. Defined.

(** Empty and deleted values are not values of the language. *)
Definition visible (v : jsvalue) : Prop := match v with VEmpty | VDeleted => False | _ => True end.

Class LawfulRep `{JSValueRep} : Prop := {
  law_u64 v : wf_value v -> is_u64 (to_bits v);
  law_undefined v : wf_value v -> isUndefined (to_bits v) = bool_decide (v = VUndefined);
  law_null v : wf_value v -> isNull (to_bits v) = bool_decide (v = VNull);
  law_undefined_or_null v : wf_value v -> isUndefinedOrNull (to_bits v) = bool_decide (v = VUndefined \/ v = VNull);
  law_true v : wf_value v -> isTrue (to_bits v) = bool_decide (v = VBool true);
  law_false v : wf_value v -> isFalse (to_bits v) = bool_decide (v = VBool false);
  law_empty v : wf_value v -> isEmpty (to_bits v) = bool_decide (v = VEmpty);
  law_boolean v : wf_value v -> isBoolean (to_bits v) = match v with VBool _ => true | _ => false end;
  law_int32 v : wf_value v -> isInt32 (to_bits v) = match v with VInt32 _ => true | _ => false end;
  law_double v : wf_value v -> isDouble (to_bits v) = match v with VDouble _ => true | _ => false end;
  law_number v : wf_value v -> isNumber (to_bits v) = match v with VInt32 _ | VDouble _ => true | _ => false end;
  law_cell v : wf_value v -> visible v -> isCell (to_bits v) = match v with VCell _ => true | _ => false end;
  law_asBoolean b : asBoolean (to_bits (VBool b)) = b;
  law_asInt32 n : is_s32 n -> asInt32 (ofInt32 n) = n;
  law_asDouble d : wf_value (VDouble d) -> asDouble (ofDouble d) = d;
  law_asCell p : valid_cell p -> asCell (ofCell p) = p
}.
