(* ===== verification/JSValueProps.v ===== *)
(** * JSValueProps: both encodings keep the types of values apart, and numbers do not depend on how they are stored *)
From S2P Require Import Prelude Doubles JSValue.
Local Open Scope Z_scope.

(** ** The 64-bit encoding *)
Lemma land_number v : is_u64 v -> Z.land v TagTypeNumber = v / 2 ^ 48 * 2 ^ 48.
Proof.
  intros Hv. change TagTypeNumber with (Z.shiftl (2 ^ 16 - 1) 48). rewrite Z_land_field by lia. rewrite (Z.mod_small (v / 2 ^ 48)); [done|].
  unfold is_u64 in Hv. Z.to_euclidean_division_equations; lia.
Qed.

(** The type of a pattern is decided by its upper 16 bits. *)
Lemma isNumber_64_spec v : is_u64 v -> isNumber_64 v = negb (v / 2 ^ 48 =? 0).
Proof. intros Hv. unfold isNumber_64. rewrite land_number by done. destruct (v / 2 ^ 48 =? 0) eqn:E; bool_prop; [by rewrite E|]. by rewrite (proj2 (Z.eqb_neq (_ * 2 ^ 48) 0)) by lia. Qed.

Lemma isInt32_64_spec v : is_u64 v -> isInt32_64 v = (v / 2 ^ 48 =? 0xffff).
Proof.
  intros Hv. unfold isInt32_64. rewrite land_number by done. change TagTypeNumber with (0xffff * 2 ^ 48).
  destruct (v / 2 ^ 48 =? 0xffff) eqn:E; bool_prop; [by rewrite E|]. apply Z.eqb_neq. lia.
Qed.

Lemma isDouble_64_spec v : is_u64 v -> isDouble_64 v = negb (v / 2 ^ 48 =? 0) && negb (v / 2 ^ 48 =? 0xffff).
Proof. intros Hv. unfold isDouble_64. by rewrite isNumber_64_spec, isInt32_64_spec. Qed.

Lemma land_bit v k : 0 <= k -> Z.land v (2 ^ k) = v / 2 ^ k mod 2 * 2 ^ k.
Proof. intros Hk. pose proof (Z_land_field v k 1 Hk ltac:(lia)) as H. change (2 ^ 1 - 1) with 1 in H. by rewrite Z.shiftl_1_l in H. Qed.

Lemma isCell_64_spec v : is_u64 v -> isCell_64 v = (v / 2 ^ 48 =? 0) && (v / 2 mod 2 =? 0).
Proof.
  intros Hv. unfold isCell_64, TagMask. rewrite Z.land_lor_distr_r, land_number by done. change TagBitTypeOther with (2 ^ 1). rewrite land_bit by lia. change (2 ^ 1) with 2.
  destruct ((v / 2 ^ 48 =? 0) && (v / 2 mod 2 =? 0)) eqn:E; bool_prop; [apply Z.eqb_eq; by rewrite H, H0|]. apply Z.eqb_neq. rewrite Z.lor_eq_0_iff.
  destruct E; bool_prop; lia.
Qed.

(** A pattern with some bits masked out. *)
Lemma masked v k c : 0 <= k -> Z.land v (Z.lnot (2 ^ k)) = c -> v = c \/ v = Z.lor c (2 ^ k).
Proof.
  intros Hk H. pose proof (Z.lor_ldiff_and v (2 ^ k)) as Hv. rewrite Z.ldiff_land, H, land_bit in Hv by done.
  assert (v / 2 ^ k mod 2 = 0 \/ v / 2 ^ k mod 2 = 1) as [E|E] by (pose proof (Z.mod_pos_bound (v / 2 ^ k) 2 ltac:(lia)); lia); rewrite E in Hv.
  - left. by rewrite Z.mul_0_l, Z.lor_0_r in Hv.
  - right. by rewrite Z.mul_1_l in Hv.
Qed.

Lemma isUndefinedOrNull_64_spec v : isUndefinedOrNull_64 v = (v =? ValueUndefined) || (v =? ValueNull).
Proof.
  unfold isUndefinedOrNull_64. destruct (_ =? ValueNull) eqn:E; bool_prop.
  - change TagBitUndefined with (2 ^ 3) in E. by destruct (masked v 3 _ ltac:(lia) E) as [-> | ->].
  - symmetry. apply orb_false_iff. split; apply Z.eqb_neq; by intros ->.
Qed.

Lemma isBoolean_64_spec v : isBoolean_64 v = (v =? ValueFalse) || (v =? ValueTrue).
Proof.
  unfold isBoolean_64. destruct (_ =? ValueFalse) eqn:E; bool_prop.
  - change 1 with (2 ^ 0) in E. by destruct (masked v 0 _ ltac:(lia) E) as [-> | ->].
  - symmetry. apply orb_false_iff. split; apply Z.eqb_neq; by intros ->.
Qed.

(** The number that the upper 16 bits of an encoded value are, and the constants. *)
Lemma encodeInt32_64_spec n : encodeInt32_64 n = 0xffff * 2 ^ 48 + u32 n.
Proof.
  unfold encodeInt32_64. change TagTypeNumber with (Z.shiftl 0xffff 48). apply Z_lor_shiftl; [lia|]. unfold u32.
  pose proof (Z.mod_pos_bound n (2 ^ 32) ltac:(lia)). lia.
Qed.

Lemma encodeDouble_64_spec d : is_u64 d -> isImpureNaN d = false -> encodeDouble_64 d = d + 2 ^ 48.
Proof. unfold isImpureNaN, encodeDouble_64, DoubleEncodeOffset, u64, is_u64. intros Hd Hp. bool_prop. apply Z.mod_small. lia. Qed.

Definition upper_64 (v : jsvalue) : Z :=
  match v with VInt32 _ => 0xffff | VDouble d => d / 2 ^ 48 + 1 | _ => 0 end.

Lemma bits_64 v :
  wf_value (H := JSVALUE64) v ->
  let b := to_bits (H := JSVALUE64) v in
  is_u64 b /\ b / 2 ^ 48 = upper_64 v /\
  match v with
  | VInt32 _ | VDouble _ => 2 ^ 48 <= b
  | VCell p => b = p /\ b mod 8 = 0 /\ 0 < b
  | _ => True
  end.
Proof.
  destruct v as [| | | |[]|n|d|p]; cbn [wf_value to_bits ofEmpty ofDeleted ofNull ofUndefined ofTrue ofFalse ofInt32 ofDouble ofCell valid_cell JSVALUE64 upper_64]; intros Hv; cbv zeta;
    try (split; [done|split; [reflexivity|done]]).
  - rewrite encodeInt32_64_spec. unfold u32, is_u64. pose proof (Z.mod_pos_bound n (2 ^ 32) ltac:(lia)). split; [lia|]. split; [|lia].
    rewrite Z.add_comm, Z.div_add, Z.div_small by lia. done.
  - destruct Hv as [Hd Hp]. rewrite encodeDouble_64_spec by done. unfold isImpureNaN, is_u64 in *. bool_prop. split; [lia|].
    split; [|lia]. replace (d + 2 ^ 48) with (d + 1 * 2 ^ 48) by lia. by rewrite Z.div_add by lia.
  - destruct Hv as [Hp Hm]. unfold is_u64. split; [lia|]. split; [by rewrite Z.div_small by lia|]. split_and!; [done|done|lia].
Qed.

Lemma upper_double d : is_u64 d /\ isImpureNaN d = false -> (upper_64 (VDouble d) =? 0xffff) = false /\ (upper_64 (VDouble d) =? 0) = false.
Proof.
  intros [Hd Hp]. unfold isImpureNaN, is_u64 in *. bool_prop. cbn [upper_64].
  split; apply Z.eqb_neq; Z.to_euclidean_division_equations; lia.
Qed.

(** A value whose bits are none of the constants. *)
Lemma not_constant_64 v c :
  wf_value (H := JSVALUE64) v -> match v with VInt32 _ | VDouble _ | VCell _ => True | _ => False end ->
  0 <= c < 8 + 8 -> c = 0 \/ c mod 8 <> 0 -> (to_bits (H := JSVALUE64) v =? c) = false.
Proof.
  intros Hv Hk Hc H8. destruct (bits_64 v Hv) as (_ & _ & H). apply Z.eqb_neq. intros E. rewrite E in H. destruct v; try done; lia.
Qed.

Ltac constants_64 Hv :=
  repeat match goal with
  | |- context [Z.eqb ?b ?c] =>
    rewrite (not_constant_64 _ c Hv ltac:(exact I) ltac:(vm_compute; split; congruence) ltac:(first [by left|right; vm_compute; congruence]))
  end; reflexivity.

#[export] Instance JSVALUE64_lawful : LawfulRep (H := JSVALUE64).
Proof.
  split.
  - intros v Hv. by destruct (bits_64 v Hv).
  - intros v Hv. destruct v as [| | | |[]|n|d|p]; first [reflexivity|cbn [isUndefined JSVALUE64]; constants_64 Hv].
  - intros v Hv. destruct v as [| | | |[]|n|d|p]; first [reflexivity|cbn [isNull JSVALUE64]; constants_64 Hv].
  - intros v Hv. destruct v as [| | | |[]|n|d|p]; first [reflexivity|cbn [isUndefinedOrNull JSVALUE64]; rewrite isUndefinedOrNull_64_spec; constants_64 Hv].
  - intros v Hv. destruct v as [| | | |[]|n|d|p]; first [reflexivity|cbn [isTrue JSVALUE64]; constants_64 Hv].
  - intros v Hv. destruct v as [| | | |[]|n|d|p]; first [reflexivity|cbn [isFalse JSVALUE64]; constants_64 Hv].
  - intros v Hv. destruct v as [| | | |[]|n|d|p]; first [reflexivity|cbn [isEmpty JSVALUE64]; constants_64 Hv].
  - intros v Hv. destruct v as [| | | |[]|n|d|p]; first [reflexivity|cbn [isBoolean JSVALUE64]; rewrite isBoolean_64_spec; constants_64 Hv].
  - intros v Hv. destruct (bits_64 v Hv) as (H & E & _). cbn [isInt32 JSVALUE64]. rewrite isInt32_64_spec, E by done. destruct v as [| | | |[]|n|d|p]; try reflexivity.
    by apply upper_double.
  - intros v Hv. destruct (bits_64 v Hv) as (H & E & _). cbn [isDouble JSVALUE64]. rewrite isDouble_64_spec, E by done. destruct v as [| | | |[]|n|d|p]; try reflexivity.
    destruct (upper_double d Hv) as [E1 E2]. by rewrite ?E1, ?E2.
  - intros v Hv. destruct (bits_64 v Hv) as (H & E & _). cbn [isNumber JSVALUE64]. rewrite isNumber_64_spec, E by done. destruct v as [| | | |[]|n|d|p]; try reflexivity.
    destruct (upper_double d Hv) as [E1 E2]. by rewrite ?E1, ?E2.
  - intros v Hv Hl. destruct (bits_64 v Hv) as (H & E & Hb). cbn [isCell JSVALUE64]. rewrite isCell_64_spec, E by done. destruct v as [| | | |[]|n|d|p]; try done.
    + destruct (upper_double d Hv) as [E1 E2]. by rewrite ?E1, ?E2.
    + cbn [upper_64]. destruct Hb as (_ & Hm & _). cbn [Z.eqb andb]. apply Z.eqb_eq. Z.to_euclidean_division_equations; lia.
  - by intros [].
  - intros n Hn. cbn [asInt32 ofInt32 JSVALUE64]. rewrite encodeInt32_64_spec. unfold asInt32_64. 
    unfold s32, u32, is_s32 in *. Z.to_euclidean_division_equations; lia.
  - intros d [Hd Hp]. cbn [asDouble ofDouble JSVALUE64]. rewrite encodeDouble_64_spec by done. unfold asDouble_64, DoubleEncodeOffset, u64.
    replace (d + 2 ^ 48 - 0x1000000000000) with d by lia. by apply Z.mod_small.
  - done.
Qed.

(** ** The 32-bit encoding *)
Lemma tag_bits t p : is_u32 t -> is_u64 (bits_of t p) /\ tag (bits_of t p) = t /\ payload (bits_of t p) = s32 p.
Proof.
  unfold is_u32. intros Ht. unfold tag, payload, bits_of. rewrite Z_lor_shiftl by (unfold u32; Z.to_euclidean_division_equations; lia). rewrite Z.shiftr_div_pow2 by lia.
  unfold is_u64, u32, s32. split; [Z.to_euclidean_division_equations; lia|]. split; Z.to_euclidean_division_equations; lia.
Qed.

(** The type of a pattern is decided by its tag; the tag of a double is its upper word. *)
Definition tag_32 (v : jsvalue) : Z :=
  match v with
  | VEmpty => EmptyValueTag | VDeleted => DeletedValueTag | VNull => NullTag | VUndefined => UndefinedTag
  | VBool _ => BooleanTag | VInt32 _ => Int32Tag | VDouble d => d / 2 ^ 32 | VCell _ => CellTag
  end.
Definition payload_32 (v : jsvalue) : Z :=
  match v with VBool b => if b then 1 else 0 | VInt32 n => n | VDouble d => s32 d | VCell p => s32 p | _ => 0 end.

Lemma bits_32 v :
  wf_value (H := JSVALUE32_64) v ->
  let b := to_bits (H := JSVALUE32_64) v in
  is_u64 b /\ tag b = tag_32 v /\ payload b = payload_32 v /\ (forall d, v = VDouble d -> tag_32 v < LowestTag).
Proof.
  destruct v as [| | | |[]|n|d|p]; cbn [wf_value to_bits ofEmpty ofDeleted ofNull ofUndefined ofTrue ofFalse ofInt32 ofDouble ofCell valid_cell JSVALUE32_64 tag_32 payload_32];
    intros Hv; cbv zeta; try (split_and!; [done|done|done|congruence]).
  - destruct (tag_bits Int32Tag n ltac:(done)) as (H1 & H2 & H3). split_and!; [done|done| |congruence]. rewrite H3. unfold s32, is_s32 in *. rewrite Z.mod_small by lia. lia.
  - destruct Hv as [Hd Hp]. unfold isImpureNaN, is_u64 in *. bool_prop. unfold tag, u32, LowestTag, DeletedValueTag. rewrite Z.shiftr_div_pow2 by lia.
    split_and!; [lia|lia|rewrite Z.mod_small; [done|]|done|intros _ _]; Z.to_euclidean_division_equations; lia.
  - unfold valid_cell_32 in Hv. unfold encodeCell_32. rewrite (proj2 (Z.eqb_neq p 0)) by lia. destruct (tag_bits CellTag p ltac:(done)) as (H1 & H2 & H3). split_and!; [done|done|done|congruence].
Qed.

Lemma below_tags t c : t < LowestTag -> LowestTag <= c -> (t =? c) = false.
Proof. intros H1 H2. apply Z.eqb_neq. lia. Qed.

(** The laws of the tags, by cases on the value: the tag of a double is below the others. *)
Ltac tags_32 v Hv :=
  let E1 := fresh in let E2 := fresh in let E3 := fresh in
  destruct (bits_32 v Hv) as (_ & E1 & E2 & E3); rewrite ?E1, ?E2;
  destruct v as [| | | |[]|n|d|p];
  first [reflexivity|specialize (E3 _ eq_refl); rewrite ?(below_tags _ _ E3) by discriminate; first [reflexivity|by apply Z.ltb_lt]].

#[export] Instance JSVALUE32_64_lawful : LawfulRep (H := JSVALUE32_64).
Proof.
  split.
  - intros v Hv. by destruct (bits_32 v Hv).
  - intros v Hv. cbn [isUndefined JSVALUE32_64]. unfold isUndefined_32. tags_32 v Hv.
  - intros v Hv. cbn [isNull JSVALUE32_64]. unfold isNull_32. tags_32 v Hv.
  - intros v Hv. cbn [isUndefinedOrNull JSVALUE32_64]. unfold isUndefined_32, isNull_32. tags_32 v Hv.
  - intros v Hv. cbn [isTrue JSVALUE32_64]. unfold isTrue_32. tags_32 v Hv.
  - intros v Hv. cbn [isFalse JSVALUE32_64]. unfold isFalse_32. tags_32 v Hv.
  - intros v Hv. cbn [isEmpty JSVALUE32_64]. tags_32 v Hv.
  - intros v Hv. cbn [isBoolean JSVALUE32_64]. tags_32 v Hv.
  - intros v Hv. cbn [isInt32 JSVALUE32_64]. unfold isInt32_32. tags_32 v Hv.
  - intros v Hv. cbn [isDouble JSVALUE32_64]. unfold isDouble_32. tags_32 v Hv.
  - intros v Hv. cbn [isNumber JSVALUE32_64]. unfold isInt32_32, isDouble_32. tags_32 v Hv.
  - intros v Hv Hl. cbn [isCell JSVALUE32_64]. tags_32 v Hv.
  - by intros [].
  - intros n Hn. destruct (bits_32 (VInt32 n) Hn) as (_ & _ & E & _). done.
  - done.
  - intros p Hp. destruct (bits_32 (VCell p) Hp) as (_ & _ & E & _). cbn [asCell JSVALUE32_64 payload_32] in *. cbn [to_bits] in E. rewrite E.
    unfold u32, s32. destruct Hp. Z.to_euclidean_division_equations; lia.
Qed.

(** ** The platforms *)
Inductive platform : Type := Platform64 | Platform32.
Definition rep_of (p : platform) : JSValueRep := match p with Platform64 => JSVALUE64 | Platform32 => JSVALUE32_64 end.

#[export] Instance rep_of_lawful p : LawfulRep (H := rep_of p).
Proof. destruct p; apply _. Qed.
