(* ===== verification/JSNumber.v ===== *)
(** * JSNumber: numbers and the comparisons of values do not depend on how numbers are stored *)
From S2P Require Import Prelude Doubles BigInt BigIntFacts BigIntAdd BigIntProps JSValue JSValueProps.
Local Open Scope Z_scope.

(** The number that a value is, as a double. *)
Definition number_of (v : jsvalue) : option Z :=
  match v with VInt32 n => Some (double_of_int n) | VDouble d => Some d | _ => None end.

Section numbers.
Context `{R : JSValueRep, L : !LawfulRep}.
Context (undefined_cast : Z -> Z) (Hcast : forall d, is_s32 (undefined_cast d)).
Context `{DC : DigitConfig} (cell_at : Z -> cell) (Hcells : forall p b, cell_at p = BigIntCell b -> wf b).

Lemma cast_int32_range d : is_s32 (cast_int32 undefined_cast d).
Proof using Hcast. unfold cast_int32, is_s32. if_cases; [lia|]. apply Hcast. Qed.

Lemma cast_int32_of_int n : is_s32 n -> cast_int32 undefined_cast (double_of_int n) = n.
Proof using.
  intros Hn. unfold is_s32 in Hn. assert (Z.abs n < 2 ^ 53) as Ha by lia. unfold cast_int32. rewrite trunc_of_int by done.
  pose proof (finite_exponent _ (double_of_int_u64 n Ha) (double_of_int_finite n Ha)). by rewrite Z_leb_false, Z_leb_true, (proj2 (Z.ltb_lt n (2 ^ 31))) by lia.
Qed.

(** [canBeStrictInt32] recognises the doubles of the 32-bit integers; minus zero is not one. *)
Lemma canBeStrictInt32_spec d :
  is_u64 d -> canBeStrictInt32 undefined_cast d = true <-> is_s32 (cast_int32 undefined_cast d) /\ d = double_of_int (cast_int32 undefined_cast d).
Proof using Hcast.
  intros Hd. unfold canBeStrictInt32. pose proof (cast_int32_range d) as Hr. set (n := cast_int32 undefined_cast d) in *.
  assert (Z.abs n < 2 ^ 53) as Ha by (unfold is_s32 in Hr; lia). rewrite negb_true_iff, orb_false_iff, negb_false_iff, double_eq_spec by (by try apply double_of_int_u64).
  split.
  - intros [[[E _]|[Hz Hz']] Hs]; (split; [done|]); [done|]. rewrite (double_of_int_zero n) in * by done. cbn [Z.eqb andb] in Hs.
    pose proof (decode_inv d Hd) as Hi. unfold is_zero in Hz'. destruct (decode_double d); try done. destruct Hi as [-> ->]. by rewrite Hs.
  - intros [_ E]. split; [left; split; [done|by apply double_of_int_not_nan]|].
    destruct (n =? 0) eqn:En; bool_prop; [|done]. rewrite En in E. by rewrite E.
Qed.

Lemma canBeStrictInt32_of_int n : is_s32 n -> canBeStrictInt32 undefined_cast (double_of_int n) = true.
Proof using Hcast.
  intros Hn. apply canBeStrictInt32_spec; [apply double_of_int_u64; unfold is_s32 in Hn; lia|]. by rewrite cast_int32_of_int.
Qed.

(** What [jsNumber] makes of a double. *)
Definition number_value (d : Z) : jsvalue :=
  if canBeStrictInt32 undefined_cast d then VInt32 (cast_int32 undefined_cast d) else VDouble d.

Lemma jsNumber_double_bits d : jsNumber_double undefined_cast d = to_bits (number_value d).
Proof using. unfold jsNumber_double, number_value. by destruct (canBeStrictInt32 _ d). Qed.

Lemma number_value_wf d : is_u64 d -> isImpureNaN d = false -> wf_value (number_value d) /\ number_of (number_value d) = Some d.
Proof using Hcast.
  intros Hd Hp. unfold number_value. destruct (canBeStrictInt32 _ d) eqn:E; [|done]. apply canBeStrictInt32_spec in E as [H1 H2]; [|done].
  split; [done|]. cbn [number_of]. by rewrite <- H2.
Qed.

Lemma asNumber_spec v d : wf_value v -> number_of v = Some d -> asNumber (to_bits v) = d /\ isNumber (to_bits v) = true.
Proof using L.
  intros Hv Hn. unfold asNumber. rewrite law_int32, law_number by done. destruct v; try done; injection Hn as <-; cbn [to_bits].
  - by rewrite law_asInt32.
  - by rewrite law_asDouble.
Qed.

Lemma isNumber_spec v : wf_value v -> isNumber (to_bits v) = match number_of v with Some _ => true | None => false end.
Proof using L. intros Hv. rewrite law_number by done. by destruct v. Qed.

Lemma types_exclusive v :
  wf_value v -> visible v ->
  [isUndefined (to_bits v); isNull (to_bits v); isBoolean (to_bits v); isInt32 (to_bits v); isDouble (to_bits v); isCell (to_bits v)]
  = match v with
    | VUndefined => [true; false; false; false; false; false]
    | VNull => [false; true; false; false; false; false]
    | VBool _ => [false; false; true; false; false; false]
    | VInt32 _ => [false; false; false; true; false; false]
    | VDouble _ => [false; false; false; false; true; false]
    | VCell _ => [false; false; false; false; false; true]
    | _ => []
    end.
Proof using L. intros Hv Lv. rewrite law_undefined, law_null, law_boolean, law_int32, law_double, law_cell by done. by destruct v. Qed.

(** Different values have different bits. *)
Lemma to_bits_inj v w : wf_value v -> wf_value w -> visible v -> visible w -> to_bits v = to_bits w -> v = w.
Proof using L.
  intros Hv Hw Lv Lw E.
  pose proof (law_undefined w Hw) as H1. pose proof (law_null w Hw) as H2. pose proof (law_true w Hw) as H3. pose proof (law_false w Hw) as H4.
  pose proof (law_int32 w Hw) as H5. pose proof (law_double w Hw) as H6. pose proof (law_cell w Hw Lw) as H7.
  rewrite <- E in *. rewrite law_undefined in H1 by done. rewrite law_null in H2 by done. rewrite law_true in H3 by done. rewrite law_false in H4 by done.
  rewrite law_int32 in H5 by done. rewrite law_double in H6 by done. rewrite law_cell in H7 by done.
  destruct v as [| | | |b|n|d|p], w as [| | | |b'|m|d'|q]; try done; cbn [to_bits] in E.
  - by destruct b, b'.
  - rewrite <- (law_asInt32 n), <- (law_asInt32 m) by done. by rewrite E.
  - rewrite <- (law_asDouble d), <- (law_asDouble d') by done. by rewrite E.
  - rewrite <- (law_asCell p), <- (law_asCell q) by done. by rewrite E.
Qed.

Lemma bits_eqb v w : wf_value v -> wf_value w -> visible v -> visible w -> (to_bits v =? to_bits w) = bool_decide (v = w).
Proof using L.
  intros. apply eq_true_iff_eq. rewrite Z.eqb_eq, bool_decide_eq_true. split; [by apply to_bits_inj|by intros ->].
Qed.

(** ** Strict equality *)
(** Two cells are equal when they are the same, or strings of the same characters, or big integers of the same value. *)
Definition same_cell (p q : Z) : res bool :=
  match cell_at p, cell_at q with
  | StringCell (Some s), StringCell (Some s') => Ok (bool_decide (s = s'))
  | StringCell _, StringCell _ => Throw OutOfMemoryError
  | BigIntCell x, BigIntCell y => Ok (bool_decide (value x = value y))
  | _, _ => Ok (bool_decide (p = q))
  end.

Definition same_object (v w : jsvalue) : res bool :=
  match v, w with VCell p, VCell q => same_cell p q | _, _ => Ok (bool_decide (v = w)) end.

Definition strict_eq (v w : jsvalue) : res bool :=
  match number_of v, number_of w with
  | Some a, Some b => Ok (double_eq a b)
  | _, _ => same_object v w
  end.

Lemma slow_case_spec p q :
  wf_value (VCell p) -> wf_value (VCell q) -> strictEqualSlowCaseInline cell_at (to_bits (VCell p)) (to_bits (VCell q)) = same_cell p q.
Proof using L Hcells.
  intros Hp Hq. unfold strictEqualSlowCaseInline. rewrite !law_cell, bits_eqb by done. cbn [andb ASSERT mbind res_bind to_bits]. rewrite !law_asCell by done. unfold same_cell.
  assert (bool_decide (VCell p = VCell q) = bool_decide (p = q)) as -> by (apply bool_decide_ext; split; congruence).
  destruct (cell_at p) as [[s|]|x|] eqn:Ep, (cell_at q) as [[s'|]|y|] eqn:Eq; try done. by apply equals_spec; eapply Hcells.
Qed.

Lemma strictEqual_spec v w :
  wf_value v -> wf_value w -> visible v -> visible w -> strictEqual cell_at (to_bits v) (to_bits w) = strict_eq v w.
Proof using L Hcells.
  intros Hv Hw Lv Lw. unfold strictEqual, strict_eq, same_object. rewrite !isNumber_spec, !law_int32, !law_cell, bits_eqb by done.
  destruct (number_of v) as [a|] eqn:Ea, (number_of w) as [b|] eqn:Eb.
  - rewrite (proj1 (asNumber_spec v a Hv Ea)), (proj1 (asNumber_spec w b Hw Eb)).
    destruct v as [| | | |?|n|?|?], w as [| | | |?|m|?|?]; try done. cbn [number_of] in *. simplify_eq. cbn [wf_value] in *. unfold is_s32 in *.
    rewrite double_eq_of_int by lia. cbn [andb]. f_equal. apply eq_true_iff_eq. rewrite bool_decide_eq_true, Z.eqb_eq. split; congruence.
  - by destruct v, w.
  - by destruct v, w.
  - destruct v, w; try done. by apply slow_case_spec.
Qed.

(** [SameValue]: two NaN are the same, and the two zeros are not. *)
Definition same_value (v w : jsvalue) : res bool :=
  match number_of v, number_of w with
  | Some a, Some b => Ok ((is_nan a && is_nan b) || bool_decide (a = b))
  | _, _ => same_object v w
  end.

Lemma sameValue_spec v w :
  wf_value v -> wf_value w -> visible v -> visible w -> sameValue cell_at (to_bits v) (to_bits w) = same_value v w.
Proof using L Hcells.
  intros Hv Hw Lv Lw. unfold sameValue. rewrite !isNumber_spec by done. unfold same_value.
  destruct (number_of v) as [a|] eqn:Ea, (number_of w) as [b|] eqn:Eb; cbn [negb].
  - rewrite (proj1 (asNumber_spec v a Hv Ea)), (proj1 (asNumber_spec w b Hw Eb)). cbv zeta. f_equal.
    destruct (is_nan a) eqn:Na, (is_nan b) eqn:Nb; cbn [orb andb]; try done; apply eq_true_iff_eq; rewrite bool_decide_eq_true, ?Z.eqb_eq; [| |done]; split; congruence.
  - by destruct v, w.
  - rewrite strictEqual_spec by done. unfold strict_eq. by rewrite Ea.
  - rewrite strictEqual_spec by done. unfold strict_eq. by rewrite Ea.
Qed.

(** ** Unsigned integers *)
Lemma jsNumber_unsigned_bits i :
  is_u32 i -> exists v, jsNumber_unsigned i = to_bits v /\ wf_value v /\ number_of v = Some (double_of_int i) /\ (isInt32 (to_bits v) = true <-> i < 2 ^ 31).
Proof using L.
  unfold is_u32. intros Hi. unfold jsNumber_unsigned. destruct (s32 i <? 0) eqn:E; bool_prop; unfold s32 in E.
  - assert (is_u64 (double_of_int i)) as Hu by (apply double_of_int_u64; lia). exists (VDouble (double_of_int i)).
    assert (wf_value (VDouble (double_of_int i))) as Hw.
    { split; [done|]. pose proof (finite_exponent _ Hu (double_of_int_finite i ltac:(lia))) as Hf. apply Z.leb_gt. unfold is_u64 in Hu. Z.to_euclidean_division_equations; lia. }
    rewrite law_int32 by done. split_and!; [done|done|done|]. split; [done|]. Z.to_euclidean_division_equations; lia.
  - assert (s32 i = i) as Es by (unfold s32; Z.to_euclidean_division_equations; lia). exists (VInt32 i). rewrite Es.
    assert (is_s32 i) as Hs by (unfold is_s32; unfold s32 in Es; Z.to_euclidean_division_equations; lia). rewrite law_int32 by done.
    split_and!; [done|done|done|]. split; [|done]. unfold is_s32 in Hs. lia.
Qed.
End numbers.

(** ** The two platforms *)
(** C20: on both platforms, a value that the language can see satisfies exactly one of the predicates [isUndefined],
    [isNull], [isBoolean], [isInt32], [isDouble] and [isCell], the one of its type; the combined predicates agree with
    it; the bits fit 64 bits, the accessors give back what was encoded, and different values have different bits.  A
    double must not be an impure NaN. *)
Theorem JSValue_types (plat : platform) (v w : jsvalue) :
  wf_value (H := rep_of plat) v -> wf_value (H := rep_of plat) w -> visible v -> visible w ->
  let R := rep_of plat in let b := to_bits v in
  is_u64 b /\
  [isUndefined b; isNull b; isBoolean b; isInt32 b; isDouble b; isCell b]
  = match v with
    | VUndefined => [true; false; false; false; false; false]
    | VNull => [false; true; false; false; false; false]
    | VBool _ => [false; false; true; false; false; false]
    | VInt32 _ => [false; false; false; true; false; false]
    | VDouble _ => [false; false; false; false; true; false]
    | VCell _ => [false; false; false; false; false; true]
    | _ => []
    end /\
  isUndefinedOrNull b = isUndefined b || isNull b /\ isNumber b = isInt32 b || isDouble b /\
  isBoolean b = isTrue b || isFalse b /\ isEmpty b = false /\
  match v with
  | VBool x => asBoolean b = x | VInt32 n => asInt32 b = n | VDouble d => asDouble b = d | VCell p => asCell b = p
  | _ => True
  end /\
  (b = to_bits w <-> v = w).
Proof.
  intros Hv Hw Lv Lw R b. pose proof (rep_of_lawful plat : LawfulRep (H := R)) as L. split; [by apply law_u64|]. split; [by apply types_exclusive|].
  unfold b. rewrite law_undefined, law_null, law_undefined_or_null, law_number, law_int32, law_double, law_boolean, law_true, law_false, law_empty by done.
  split_and!; [by destruct v as [| | | |[]| | |]..| |].
  - destruct v; try done; [apply law_asBoolean|by apply law_asInt32|by apply law_asDouble|by apply law_asCell].
  - split; [by apply to_bits_inj|by intros ->].
Qed.

(** C21: [jsNumber] of a double that is not an impure NaN gives a number that [asNumber] turns back into the same bits, on
    both platforms; it is stored as an [int32_t] exactly when it is the double of one, so that each number has one
    representation, and minus zero stays a double. *)
Theorem jsNumber_canonical (plat : platform) (undefined_cast : Z -> Z) (d : Z) :
  (forall x, is_s32 (undefined_cast x)) -> is_u64 d -> isImpureNaN d = false ->
  let R := rep_of plat in let b := jsNumber_double undefined_cast d in
  isNumber b = true /\ asNumber b = d /\
  (isInt32 b = true <-> exists n, is_s32 n /\ d = double_of_int n) /\
  (forall n, is_s32 n -> d = double_of_int n -> b = ofInt32 n) /\
  (isInt32 b = false -> b = ofDouble d).
Proof.
  intros Hc Hd Hp R b. pose proof (rep_of_lawful plat : LawfulRep (H := R)) as L. destruct (number_value_wf undefined_cast Hc d Hd Hp) as [Hw Hn].
  assert (b = to_bits (number_value undefined_cast d)) as Hb by apply jsNumber_double_bits. clearbody b. subst b.
  destruct (asNumber_spec _ d Hw Hn) as [E1 E2]. split; [done|]. split; [done|]. rewrite law_int32 by done. unfold number_value in *.
  destruct (canBeStrictInt32 undefined_cast d) eqn:E.
  - apply canBeStrictInt32_spec in E as [H1 H2]; [|done..]. split_and!; [split; [by eexists|done]| |done]. intros n Hs ->. by rewrite cast_int32_of_int.
  - split_and!; [split; [done|]| |done].
    + intros (n & Hs & ->). by rewrite canBeStrictInt32_of_int in E.
    + intros n Hs ->. by rewrite canBeStrictInt32_of_int in E.
Qed.

(** C22: on both platforms, [strictEqual] and [sameValue] are the comparisons of the language: numbers are compared as
    doubles whatever their representations are ([sameValue] takes two NaN as the same and tells the two zeros apart),
    strings by their characters, big integers by their values, and other values are equal when they are the same. *)
Theorem JSValue_comparisons (plat : platform) `{DigitConfig} (cell_at : Z -> cell) (v w : jsvalue) :
  (forall p b, cell_at p = BigIntCell b -> wf b) ->
  wf_value (H := rep_of plat) v -> wf_value (H := rep_of plat) w -> visible v -> visible w ->
  let R := rep_of plat in
  match number_of v, number_of w with
  | Some a, Some b =>
    strictEqual cell_at (to_bits v) (to_bits w) = Ok (double_eq a b) /\
    sameValue cell_at (to_bits v) (to_bits w) = Ok ((is_nan a && is_nan b) || bool_decide (a = b))
  | _, _ => strictEqual cell_at (to_bits v) (to_bits w) = same_object cell_at v w /\ sameValue cell_at (to_bits v) (to_bits w) = same_object cell_at v w
  end.
Proof.
  intros Hc Hv Hw Lv Lw R. pose proof (rep_of_lawful plat : LawfulRep (H := R)) as L.
  pose proof (strictEqual_spec cell_at Hc v w Hv Hw Lv Lw) as E1. pose proof (sameValue_spec cell_at Hc v w Hv Hw Lv Lw) as E2. unfold strict_eq, same_value in *.
  by destruct (number_of v), (number_of w).
Qed.

(** ** Examples *)
Lemma JSValue_types_witness :
  let R := rep_of Platform64 in let b := to_bits (VCell 4096) in [isUndefined b; isNull b; isBoolean b; isInt32 b; isDouble b; isCell b] = [false; false; false; false; false; true].
Proof.
  assert (wf_value (H := rep_of Platform64) (VCell 4096)) as Hv by (by vm_compute). assert (wf_value (H := rep_of Platform64) (VInt32 (-1))) as Hw by (split; done).
  exact (proj1 (proj2 (JSValue_types Platform64 (VCell 4096) (VInt32 (-1)) Hv Hw I I))).
Defined.

Lemma jsNumber_canonical_witness : let R := rep_of Platform32 in asNumber (jsNumber_double (fun _ => 0) (double_of_int (-5))) = double_of_int (-5).
Proof.
  refine (proj1 (proj2 (jsNumber_canonical Platform32 (fun _ => 0) (double_of_int (-5)) _ _ _))); [intros x; by split|by vm_compute|by vm_compute].
Defined.

Lemma JSValue_comparisons_witness :
  let R := rep_of Platform64 in strictEqual (fun p => StringCell (Some [p mod 16])) (to_bits (VCell 4096)) (to_bits (VCell 8192)) = Ok true.
Proof.
  assert (wf_value (H := rep_of Platform64) (VCell 4096)) as Hv by (by vm_compute). assert (wf_value (H := rep_of Platform64) (VCell 8192)) as Hw by (by vm_compute).
  exact (proj1 (JSValue_comparisons Platform64 (fun p => StringCell (Some [p mod 16])) (VCell 4096) (VCell 8192) ltac:(done) Hv Hw I I)).
Defined.
